(* ===== verification/_CoqProject ===== *)
-Q . S2P
Prelude.v
Vec2.v
Hashing.v
TableMap.v
VecMap.v
SmallMap.v
SmallMapSpec.v
SmallMapOps.v
OrdMap.v
SmallSet.v
Ints.v
Index.v
Range.v
FastString.v
Symbol.v
Utf8.v
StrMethods.v
StrMethodsOk.v
CodeMap.v
DefParams.v
DefLayout.v
DefUnpack.v
ParamSpec.v
CallBinding.v
CallCollect.v
ParamBuilder.v
CallProps.v
Def.v
DefSpec.v
DefCall.v
CallableParam.v
ArgCheck.v
Arguments.v
CallArgs.v
OrderedMap.v
OrderedSet.v
UnorderedMap.v
StringRepr.v
StrFormat.v
StrFormatOk.v
Lexer.v
LexString.v
LexIndent.v
Ir.v
Inline.v
World.v
IrEval.v
BcInstr.v
BcWriter.v
BcCompile.v
BcCode.v
BcSim.v
BcRules.v
IrWf.v
IrAssigned.v
BcOperands.v
BcBranch.v
BcLoop.v
BcClauses.v
BcOps.v
BcCall.v
BcExpr.v
BcStmt.v
BcBody.v
IrSafe.v
BcExample.v
BcProps.v
DefRun.v
Optimize.v
Alike.v
IrSim.v
IrCompat.v
IrBlock.v
OptCon.v
OptCall.v
OptExpr.v
InlineOk.v
OptBody.v
OptWorlds.v
OptProps.v
