(* ===== verification/Prelude.v ===== *)
(** * A model of Starlark in Rust

    The program is an interpreter of the Starlark language: a lexer and parser, a compiler to
    bytecode, a run time with its own containers and values, a type checker, and tools around
    them.  This library models parts of it and proves them correct.  A file holds the
    definitions of one component, written after the Rust code function by function, or the
    lemmas and theorems on it.

    ** How the code is read

    A Rust computation is a [result E A]: it returns a value, returns [Err], or has a [Fault],
    which is a panic (failed assertion, [unwrap] of nothing, index out of range, a string cut within a
    character, overflow of checked arithmetic) or undefined behaviour (an unchecked access out of range, a broken
    contract of an [unsafe] operation).  A [debug_assert] is an assertion, except where it states the contract of
    an [unsafe] function: a build without it has undefined behaviour there ([contract]).  [comp A] is a
    computation without an [Err] case.
    Theorems of the form [returns m Q] say that [m] has neither.  Integers are [nat] for
    sizes and indices and [Z] with the width written out where it matters; bytes are [Z];
    strings are lists of bytes.  A method that mutates its receiver returns the new one.
    The target has 64 bits.  Loops over data are structural.  The others (over words of a string,
    blocks of hash values, insertion sort, lines of a text, and the loops of the lexer) take fuel from the
    length of their input; the theorems on them are stated for the fuel that the callers give and
    show that a result is reached ([FastString.chars_count_ok], [Hashing.find_hash_simd_equiv],
    [LexIndent.lexer_indentation]).  The body of a function need not end: its evaluator
    ([IrEval.exec_body]) and the interpreter ([BcInstr.run]) take a number of rounds, with [None] for
    more, and more rounds never change a result; that a body ends is that some number is enough, and
    the theorems say of both how they end and that they do not.  The recursion of the optimiser that is not
    structural ([if_expr], [StmtsCompiled::expr], the second pass over the clauses of a dictionary
    comprehension) takes fuel from the size of the expression ([spine], [weight], [dict_depth]).  Calls
    that are inlined in calls that were inlined are bounded by a depth, which the code does not have:
    there the recursion need not end.

    ** Containers ([starlark_map/src])

    - [Vec2] ([vec2.rs], [sorting/insertion.rs]): the vector of pairs kept as two arrays in one
      allocation, at the level of its memory cells; refines the list of pairs.  Sorting beyond the length up to
      which insertion sort is used is the stable sort of the standard library, for total orders: it may panic on others.
    - [Hashing] ([hash_value.rs], [hashed.rs], [mix_u32.rs], [vec_map/simd.rs]): hash values
      and the vectorised scan for one, which reads blocks without checks.
    - [TableMap]: the interface of the hash table of the [hashbrown] crate, as a class
      [HashTable] with the laws [HashTableOk] of its documentation, and a list as an instance.
    - [VecMap] ([vec_map.rs]), [SmallMap] ([small_map.rs]): the insertion-ordered map, with and
      without an index.  [SmallMapSpec] relates it to association lists and [SmallMapOps]
      has the simulation of sequences of operations and the view as a finite map.
    - [OrdMap]: what clients need of such a map as an interface, with [SmallMap] as instance.
    - [SmallSet], [OrderedMap], [OrderedSet] ([small_set.rs], [ordered_map.rs], [sorted_map.rs],
      [ordered_set.rs], [sorted_set.rs], [sorted_vec.rs]), [UnorderedMap]
      ([unordered_map.rs], [unordered_set.rs]): the containers over these two.

    ** Values ([starlark/src/values], [starlark/src/collections])

    - [Ints] ([types/int], [types/bigint.rs]): integers, inline and big; [num_bigint] is a class
      with the laws of its documentation.
    - [Index] ([index.rs], [convert_indices.rs]) and [Range] ([types/range]): indexing, slicing
      and ranges, against the rules of Python for sequences.
    - [FastString] ([fast_string.rs]): positions of characters in UTF-8 text, a machine word at
      a time; [memchr] is a parameter.  [StringRepr] ([types/string/repr.rs], [simd.rs]): the
      representation of a string, with vectors of bytes; [Utf8]: encoding of characters.
    - [Symbol] ([collections/symbol], [aligned_padded_str.rs], [types/string/str_type.rs]): names
      and strings padded to words, and the map from names.

    ** Front end ([starlark_syntax/src])

    - [CodeMap] ([codemap.rs]): positions, lines and spans.
    - [Lexer] ([lexer.rs], [cursors.rs]): tokens, indentation, literals; the scanner generated
      by [logos] is a parameter with the laws of its patterns.  [LexString] has the literals,
      with the round trip through [repr]; [LexIndent] the token stream.
    - [DefParams] ([syntax/def.rs]): the parameters of a [def].  [DefLayout] and [DefUnpack]: the
      accepted lists are those with a well-formed layout.  [CallArgs] ([syntax/call.rs]): the
      arguments of a call.

    ** Functions and calls ([starlark/src/eval], [starlark/src/typing])

    - [ParamSpec] ([runtime/params/spec.rs]): a function's parameters, their builder, and the
      binding of a call's arguments to slots, over a class [Values] of what binding does with
      values.  [CallBinding] states the contract: [spec_ok] (a well-formed parameter list),
      [bindable] (the calls that fit), [bound_slot] (what a slot receives) and [explains] (what
      an error means).  [CallCollect] and [ParamBuilder] have the lemmas on the
      loops and the builder, [CallProps] the theorems.
    - [Arguments] ([runtime/arguments.rs]): the arguments of native functions.
    - [Def] ([compiler/def.rs], [bc/compiler/def.rs], [bc/instr_impl.rs], [bc/frame.rs]): the
      parameters of a [def] from the syntax to the parameter list of the function, and a call
      up to the evaluation of the body.  [DefSpec] and [DefCall] have the theorems.  [DefRun]
      puts a call together with the run of the body's bytecode.
    - [CallableParam] ([typing/callable_param.rs], [typing/oracle/ctx.rs]): the type of a function
      and the check of a call against it; types and their intersection are parameters.
      [ArgCheck] relates both to the run time.

    ** Methods of strings and formats ([starlark/src/values/types/string])

    - [StrMethods] ([methods.rs], [iter.rs], [globals.rs], and [count_matches] of [fast_string.rs]): every method but [format],
      with [chr] and [ord].  A string is the list of its characters; positions that the code has in bytes are counted in the
      bytes of the characters, and cutting within a character is a fault.  The searching, splitting and trimming of the
      standard library is defined there; the tables of Unicode are the class [Unicode].  [StrMethodsOk] says what searching,
      splitting, replacing and lines mean without reference to the code ([first_at], [cuts], [words], [all_lines]) and has the
      theorems; case and classification of characters are modelled and have none.

    - [StrFormat] ([interpolation.rs], [dot_format.rs], [starlark_syntax/src/dot_format_parser.rs]): the
      operator [%], the method [format], and what the compiler reads from a format.  A format is the list of its
      characters, and the parsers cut it at positions in bytes, with a panic within a character; printing of
      values is a class.  [StrFormatOk] has the theorems.

    ** Compiler to bytecode and interpreter ([starlark/src/eval])

    - [Ir] ([compiler/expr.rs], [call.rs], [args.rs], [compr.rs], [stmt.rs]): the intermediate
      representation.  [World]: what code needs of values, the heap and the evaluator, as the
      class [World] with the laws [WorldOk] (a [StarlarkValue] can be defined by a client).  [IrEval]:
      the meaning of the representation, an evaluator on a frame and a heap.  [IrWf]: what
      lowering guarantees of it.
    - [BcInstr] ([bc/instr_impl.rs], [instr.rs], [frame.rs], [bytecode.rs]): the instructions and the
      interpreter.  [BcWriter] ([bc/writer.rs], [definitely_assigned.rs]): the writer, with slots,
      patched jumps and loops.  [BcCompile] ([bc/compiler]): the compiler.
    - The proof that the compiler is correct.  [BcCode]: code as it is written, and the order on
      stages of the writer.  [BcSim]: [runs] (code from one address to another does
      what a step of the evaluator does) and [writes] (a computation of the writer leaves such code).
      [BcRules], [BcOperands], [BcBranch], [BcLoop], [BcClauses]: rules
      to put code together, for sequences, single instructions, operands, conditions, jumps,
      loops, definite assignment and the clauses of comprehensions.  [BcOps], [BcCall],
      [BcExpr], [BcStmt]: each construct of the language.
      [BcBody]: whole functions.
    - [IrAssigned]: definite assignment is sound.  [IrSafe]: evaluation has no undefined behaviour if the methods
      of values have none ([WorldSafe]); what is a list or a dictionary is said of a heap ([Containers]), and adding to
      the container of a comprehension is safe for one only.
      [BcExample]: a world and functions that are compiled and run.  [BcProps]: the theorems.

    ** Optimiser ([starlark/src/eval/compiler])

    - [Inline] ([def_inline.rs]): which functions can be inlined.
    - [Optimize] ([expr.rs], [expr_bool.rs], [call.rs], [args.rs], [compr.rs], [stmt.rs], [def_inline.rs]): the
      constructors that fold constants, drop code without effect and inline functions, and [optimize], which
      rebuilds a body with them when its module is frozen.
    - [Alike]: when two heaps look the same, as an interface: [alike k h h'] with the values [k] that are
      known to correspond.  [AlikeOk]: no operation of a value can tell them apart.  [FoldOk]: the laws on
      constants and on folded operations that the optimiser relies on.
    - The proof.  [IrSim]: results that look the same; [esim x y] is that [y] may stand for [x].  [IrCompat]
      and [IrBlock]: every construct respects it, code may stand for itself, and standing for is transitive.
      [OptCon]: pure code can be dropped, and folded operations; there and in [OptCall] and [OptBody], each
      constructor gives code that may stand for what it was asked for.
      [OptExpr] and [OptBody] put them together for whole expressions and bodies; [ok_expr] and [ok_stmt] say
      what this takes, the corners in which the optimiser changes a program included.
      [InlineOk]: the body of a function, run in a frame of its own, does what the inlined expression does in the
      frame of the caller; [CallOk] has the laws of calls that this needs.  Two more corners are hypotheses on the
      functions that are called, named in the theorems: [PositionalTypeTests] and [SteadyCallees].
    - [OptWorlds]: lists, dictionaries and cells on a heap, where heaps that look the same are
      related by a renaming of addresses; functions that call each other are inlined, and all the laws hold there.  [OptProps]: the theorems, functions that are
      optimised and run, and the corners.

    These parts meet in [ArgCheck.checked_call_binds]: the parameters accepted by [DefParams] are
    compiled and numbered ([Def]), the interpreter makes a parameter list of them ([ParamSpec],
    over [Symbol] and [SmallMap] through their interfaces), the type checker makes a function type
    of them ([CallableParam]), and a call that the checker accepts is one that binds.

    ** The theorems

    - Refinement of an abstract model: vectors as lists, maps as association lists and as
      finite maps, names as strings ([vec2_refines_list], [smallmap_refines],
      [smallset_refines], [unordered_map_refines], [symbol_map_refines]).
    - Compiled code does what the source means: it ends with the same value or the same error at
      the same place, and the same heap, or it runs for ever ([compiled_body_refines],
      [compiled_body_diverges]); compilation fails only on code that is too big
      ([compile_total]); and a call binds its arguments and then does what the body says
      ([def_call_runs]).
    - Outside of some corners the optimiser changes nothing that a program can see, alone and with the compiler to
      bytecode ([optimize_preserves], [optimized_bytecode]); nor does inlining ([inline_preserves]), which never fails on a
      body that was found safe ([safe_body_inlines]).  [slice_drops_bound], [empty_string_loop], [keyword_only_type_is]
      and [attribute_callee_reorders] show the corners, where the optimiser does change a program.
    - Memory safety of the code written with [unsafe]: vectors ([vec2_layout_safe]), and the slots of
      a frame and the containers of comprehensions, which are used without checks ([compiled_body_safe],
      [definite_assignment], [def_call_locals]).
    - Optimised code against its plain counterpart ([find_hash_simd_equiv], [string_repr_simple],
      [string_reads], [format_short_cuts], [collect_binds] for the fast path of calls).
    - Exactness of integer arithmetic and the places where it is not exact
      ([int_left_shift], [range_length_at]).
    - Agreement with Python where Starlark follows it ([apply_slice_python],
      [str_indices_python], [int_floor_division]).
    - Round trips ([repr_roundtrip], [signature_roundtrip]; [string_split] with [join]).
    - The methods of strings search, split and replace as specified, without a panic and without cutting a character
      ([string_find], [string_split], [string_words], [string_replace], [string_splitlines]).
    - Acceptance: the inputs that are accepted are described without reference to the code, and
      everything else is an error ([def_params_layout], [call_args_shape],
      [can_fill_decides], [arg_check_decides]).
    - Termination and bounds of the lexer ([lexer_indentation], [int_literals]); formatting does not panic
      ([format_total]).

    Hypotheses bound sizes by what memory, 32-bit indices and the hash table can hold, and
    are met by concrete inputs in the lemmas whose names end in [_witness].

    ** Not modelled

    The grammar (generated by [lalrpop]) and the abstract syntax beyond parameters and arguments;
    scope resolution; lowering of the syntax to the intermediate representation; the heap, freezing and garbage collection, whose
    pointer tagging is below the level of this model; the types of the type checker and their
    intersection; methods of containers; documentation and printing; lints, profiling, the
    debugger, the language server and the command line, which are tools and input and output. *)

(** Shared vocabulary of the development: results of Rust computations (values,
    errors, panics and undefined behaviour), machine integers kept as [Z] with
    their width written out, and the list lemmas and tactics that several
    components use.  Nothing in this file models a particular function of the
    repository; it models the parts of the Rust language and of its standard
    library that the modelled functions are written in. *)


From stdpp Require Export base tactics list list_numbers sorting numbers strings sets gmap.
From Stdlib Require Export ZArith Lia.

(** * Results of computations *)

(** A Rust computation returns normally, returns [Err] through [Result], or does
    neither: it panics ([assert!], [unwrap], arithmetic overflow in a build with
    overflow checks), or it breaks the contract of an [unsafe] operation. *)
Inductive fault : Type :=
| Panicked
| UndefinedBehaviour.

Inductive result (E A : Type) : Type :=
| Ok (a : A)
| Err (e : E)
| Fault (f : fault).
Arguments Ok {E A} a.
Arguments Err {E A} e.
Arguments Fault {E A} f.

Abbreviation Panic := (Fault Panicked).
Abbreviation UB := (Fault UndefinedBehaviour).

(** A computation without an error case. *)
Abbreviation comp A := (result Empty_set A).

#[global] Instance result_ret {E} : MRet (result E) := λ A, Ok.
#[global] Instance result_bind {E} : MBind (result E) := λ A B k m,
  match m with Ok a => k a | Err e => Err e | Fault f => Fault f end.
#[global] Instance result_fmap {E} : FMap (result E) := λ A B k m,
  match m with Ok a => Ok (k a) | Err e => Err e | Fault f => Fault f end.
#[global] Instance fault_eq_dec : EqDecision fault.
Proof. solve_decision. Defined.
#[global] Instance result_eq_dec {E A} `{EqDecision E, EqDecision A} :
  EqDecision (result E A).
Proof. solve_decision. Defined.

(** [?] on a computation whose error type is empty. *)
Definition lift {E A} (m : comp A) : result E A :=
  match m with
  | Ok a => Ok a
  | Err e => match e with end
  | Fault f => Fault f
  end.

(** [assert!] and [debug_assert!]; [Option::unwrap]; [Option::ok_or]. *)
Definition assert {E} (b : bool) : result E () := if b then Ok () else Panic.
Definition unwrap {E A} (o : option A) : result E A :=
  match o with Some a => Ok a | None => Panic end.
Definition ok_or {E A} (o : option A) (e : E) : result E A :=
  match o with Some a => Ok a | None => Err e end.
(** The [debug_assert!] of an [unsafe] function that guards an unchecked access: where debug assertions are off, to break it is
    undefined behaviour. *)
Definition contract {E} (b : bool) : result E () := if b then Ok () else UB.
(** [-] on [usize]. *)
Definition usize_sub (a b : nat) : comp nat := if b <=? a then Ok (a - b) else Panic.
Definition is_ok {E A} (m : result E A) : bool :=
  match m with Ok _ => true | _ => false end.
Definition is_err {E A} (m : result E A) : bool :=
  match m with Err _ => true | _ => false end.

(** Total correctness: [m] returns normally, with a value satisfying [Q]. *)
Definition returns {E A} (m : result E A) (Q : A → Prop) : Prop :=
  ∃ a, m = Ok a ∧ Q a.

Section returns.
Context {E A B : Type}.
Implicit Types (m : result E A) (Q : A → Prop).

Lemma returns_ret (a : A) Q : Q a → returns (E:=E) (Ok a) Q.
Proof. intros H. exists a. by split. Qed.

Lemma returns_bind m (k : A → result E B) (Q : B → Prop) :
  returns m (λ a, returns (k a) Q) → returns (m ≫= k) Q.
Proof. intros (a & -> & b & Hk & HQ). exists b. by split. Qed.

Lemma returns_bind_inv m (k : A → result E B) (Q : B → Prop) :
  returns (m ≫= k) Q → returns m (λ a, returns (k a) Q).
Proof.
  intros (b & Hb & HQ). destruct m as [a|e|f]; simplify_eq/=.
  exists a. split; [done|]. by exists b.
Qed.

Lemma returns_mono m Q Q' : returns m Q → (∀ a, Q a → Q' a) → returns m Q'.
Proof. intros (a & -> & HQ) HQQ'. exists a. auto. Qed.

Lemma returns_eq m a Q : returns m Q → m = Ok a → Q a.
Proof. intros (b & -> & HQ). by intros [= ->]. Qed.

Lemma returns_is_ok m Q : returns m Q → is_ok m = true.
Proof. by intros (a & -> & _). Qed.

Lemma returns_assert (b : bool) (Q : () → Prop) :
  b = true → Q () → returns (E:=E) (assert b) Q.
Proof. intros -> HQ. by exists (). Qed.

Lemma returns_unwrap (o : option A) (a : A) Q :
  o = Some a → Q a → returns (E:=E) (unwrap o) Q.
Proof. intros -> HQ. by exists a. Qed.
End returns.

Lemma returns_lift {E A} (m : comp A) (Q : A → Prop) :
  returns m Q → returns (E:=E) (lift m) Q.
Proof. intros (a & -> & HQ). by exists a. Qed.

Lemma bind_Ok {E A B} (m : result E A) (k : A → result E B) b :
  m ≫= k = Ok b ↔ ∃ a, m = Ok a ∧ k a = Ok b.
Proof.
  split; [|by intros (a & -> & Hk)].
  destruct m; simpl; intros; simplify_eq; eauto.
Qed.

(** * Proof automation *)

Create HintDb starlark.
#[export] Hint Resolve returns_ret returns_lift : starlark.

(** Runs one monadic step whose total-correctness lemma is [lem]. *)
Tactic Notation "step_with" uconstr(lem) :=
  apply returns_bind; eapply returns_mono; [eapply lem|cbn beta].
Ltac step_ret := apply returns_ret; cbn beta.

(** Case analysis on every [decide], boolean test and option in sight. *)
Ltac case_tests :=
  repeat match goal with
  | |- context [if ?b then _ else _] => destruct b eqn:?
  | H : context [if ?b then _ else _] |- _ => destruct b eqn:?
  end.

(** Case analysis on the integer tests of the goal, innermost first. *)
Ltac test_free x := lazymatch x with context [if _ then _ else _] => fail | _ => idtac end.
Ltac z_tests :=
  repeat match goal with
  | |- context [Z.ltb ?p ?q] => test_free p; test_free q; destruct (Z.ltb_spec p q); try lia
  | |- context [Z.leb ?p ?q] => test_free p; test_free q; destruct (Z.leb_spec p q); try lia
  | |- context [Z.eqb ?p ?q] => test_free p; test_free q; destruct (Z.eqb_spec p q); try lia
  end.

Ltac bool_to_prop :=
  repeat match goal with
  | H : _ && _ = true |- _ => apply andb_true_iff in H; destruct H
  | H : _ || _ = false |- _ => apply orb_false_iff in H; destruct H
  | H : negb _ = true |- _ => apply negb_true_iff in H
  | H : negb _ = false |- _ => apply negb_false_iff in H
  | H : bool_decide _ = true |- _ => apply bool_decide_eq_true in H
  | H : bool_decide _ = false |- _ => apply bool_decide_eq_false in H
  end.

(** * Machine integers *)

Section machine.
Local Open Scope Z_scope.

Definition i32_min : Z := -2147483648.
Definition i32_max : Z := 2147483647.
Definition u32_max : Z := 4294967295.
Definition i64_min : Z := -9223372036854775808.
Definition i64_max : Z := 9223372036854775807.
Definition u64_max : Z := 18446744073709551615.
(** The target is a 64-bit one. *)
Definition usize_max : Z := u64_max.
Definition isize_max : Z := i64_max.

Definition in_range (lo hi z : Z) : bool := (lo <=? z) && (z <=? hi).
Definition in_i32 : Z → bool := in_range i32_min i32_max.
Definition in_u32 : Z → bool := in_range 0 u32_max.
Definition in_i64 : Z → bool := in_range i64_min i64_max.
Definition in_u64 : Z → bool := in_range 0 u64_max.

(** Two's complement truncation: [as u64], [as u32], [as i32], [wrapping_*]. *)
Definition as_u64 (z : Z) : Z := z mod 2 ^ 64.
Definition as_u32 (z : Z) : Z := z mod 2 ^ 32.
Definition as_i32 (z : Z) : Z := (z + 2 ^ 31) mod 2 ^ 32 - 2 ^ 31.
Definition as_i64 (z : Z) : Z := (z + 2 ^ 63) mod 2 ^ 64 - 2 ^ 63.

(** [checked_*]: [None] when the mathematical result does not fit. *)
Definition checked_i32 (z : Z) : option Z := if in_i32 z then Some z else None.
(** [TryFrom] between integer types has the same meaning. *)
Definition checked_i64 (z : Z) : option Z := if in_i64 z then Some z else None.
Definition checked_u32 (z : Z) : option Z := if in_u32 z then Some z else None.
Definition checked_u64 (z : Z) : option Z := if in_u64 z then Some z else None.
(** [saturating_*] on [i64]. *)
Definition saturate_i64 (z : Z) : Z := Z.max i64_min (Z.min i64_max z).

(** Plain [+], [-], [*] on [i32]: the result, or a panic on overflow.  A build
    without overflow checks wraps instead; wherever a theorem shows that an
    operation returns, the two builds agree. *)
Definition i32_op {E} (z : Z) : result E Z := if in_i32 z then Ok z else Panic.

Lemma in_i32_spec z : in_i32 z = true ↔ i32_min ≤ z ≤ i32_max.
Proof. unfold in_i32, in_range. rewrite andb_true_iff. lia. Qed.

Lemma checked_i32_Some z : i32_min ≤ z ≤ i32_max → checked_i32 z = Some z.
Proof. intros H. unfold checked_i32. by rewrite (proj2 (in_i32_spec z) H). Qed.

Lemma checked_i32_None z : ¬ i32_min ≤ z ≤ i32_max → checked_i32 z = None.
Proof.
  intros H. unfold checked_i32. destruct (in_i32 z) eqn:Hz; [|done].
  by apply in_i32_spec in Hz.
Qed.

Lemma checked_i32_inv z w : checked_i32 z = Some w → w = z ∧ i32_min ≤ z ≤ i32_max.
Proof.
  unfold checked_i32. destruct (in_i32 z) eqn:Hz; [|done]. intros [= <-].
  by apply in_i32_spec in Hz.
Qed.

Lemma i32_op_Ok {E} z : i32_min ≤ z ≤ i32_max → i32_op (E:=E) z = Ok z.
Proof. intros H. unfold i32_op. by rewrite (proj2 (in_i32_spec z) H). Qed.

Lemma as_i32_id z : i32_min ≤ z ≤ i32_max → as_i32 z = z.
Proof. unfold as_i32, i32_min, i32_max. intros H. rewrite Z.mod_small; lia. Qed.

Lemma as_i32_range z : i32_min ≤ as_i32 z ≤ i32_max.
Proof.
  unfold as_i32, i32_min, i32_max.
  pose proof (Z.mod_pos_bound (z + 2 ^ 31) (2 ^ 32)). lia.
Qed.

Lemma as_u64_id z : 0 ≤ z ≤ u64_max → as_u64 z = z.
Proof. unfold as_u64, u64_max. intros H. rewrite Z.mod_small; lia. Qed.

Lemma saturate_i64_id z : i64_min ≤ z ≤ i64_max → saturate_i64 z = z.
Proof. unfold saturate_i64, i64_min, i64_max. lia. Qed.
End machine.

(** * Lists *)

Section lists.
Context {A B : Type}.
Implicit Types l : list A.

Lemma take_snoc l i x : l !! i = Some x → take (S i) l = take i l ++ [x].
Proof. intros H. by rewrite (take_S_r _ _ _ H). Qed.

Lemma Forall2_fst_snd (l : list A) (k : list B) :
  length l = length k → fst <$> zip l k = l ∧ snd <$> zip l k = k.
Proof. intros H. split; [apply fst_zip|apply snd_zip]; lia. Qed.

(** First index satisfying a boolean test. *)
Fixpoint find_index (p : A → bool) (l : list A) : option nat :=
  match l with
  | [] => None
  | x :: l => if p x then Some 0 else S <$> find_index p l
  end.

Lemma find_index_Some p l i :
  find_index p l = Some i ↔
  (∃ x, l !! i = Some x ∧ p x = true) ∧
  (∀ j x, j < i → l !! j = Some x → p x = false).
Proof.
  revert i. induction l as [|y l IH]; intros i; simpl.
  - split; [done|]. by intros [(x & Hx & _) _].
  - destruct (p y) eqn:Hy.
    + split.
      * intros [= <-]. split; [by exists y|]. intros; lia.
      * intros [_ Hlt]. destruct i as [|i]; [done|].
        specialize (Hlt 0 y ltac:(lia) eq_refl). congruence.
    + destruct i as [|i]; simpl.
      * split; [by destruct (find_index p l)|].
        intros [(x & [= ->] & Hx) _]. congruence.
      * rewrite fmap_Some. split.
        -- intros (j & Hj & [= ->]). apply IH in Hj as [Hx Hlt].
           split; [done|]. intros [|k] x Hk; simpl; [congruence|].
           apply Hlt. lia.
        -- intros [Hx Hlt]. exists i. split; [|done]. apply IH. split; [done|].
           intros k x Hk Hkx. apply (Hlt (S k) x); [lia|done].
Qed.

Lemma find_index_None p l :
  find_index p l = None ↔ ∀ i x, l !! i = Some x → p x = false.
Proof.
  induction l as [|y l IH]; simpl; [done|].
  destruct (p y) eqn:Hy.
  - split; [done|]. intros H. specialize (H 0 y eq_refl). congruence.
  - rewrite fmap_None, IH. split.
    + intros H [|i] x; simpl; [congruence|apply H].
    + intros H i x. apply (H (S i)).
Qed.

Lemma find_index_lt p l i : find_index p l = Some i → i < length l.
Proof.
  intros H. apply find_index_Some in H as [(x & Hx & _) _].
  by apply lookup_lt_Some in Hx.
Qed.

Lemma find_index_ext p q l :
  (∀ x, x ∈ l → p x = q x) → find_index p l = find_index q l.
Proof.
  induction l as [|x l IH]; simpl; [done|]. intros H.
  rewrite <-(H x) by set_solver. destruct (p x); [done|].
  by rewrite IH by set_solver.
Qed.


Lemma filter_id (P : A → Prop) `{!∀ x, Decision (P x)} l :
  (∀ x, x ∈ l → P x) → filter P l = l.
Proof.
  induction l as [|x l IH]; intros Hl; [done|].
  rewrite filter_cons_True by (apply Hl; by left). f_equal. apply IH. intros y Hy. apply Hl. by right.
Qed.
End lists.

Lemma find_index_fmap {A B} (f : B → A) p (k : list B) :
  find_index p (f <$> k) = find_index (λ x, p (f x)) k.
Proof. induction k as [|x k IH]; csimpl; [done|]. by rewrite IH. Qed.

Lemma omap_fmap_ext {A B C} (f : B → option C) (g : A → option C) (h : A → B) (l : list A) :
  (∀ x, x ∈ l → f (h x) = g x) → omap f (h <$> l) = omap g l.
Proof.
  induction l as [|x l IH]; intros Hl; csimpl; [done|].
  rewrite (Hl x) by by left. rewrite IH; [done|]. intros y Hy. apply Hl. by right.
Qed.
