(* ===== verification/Vec2.v ===== *)
(** [starlark_map/src/vec2.rs] and [starlark_map/src/sorting/insertion.rs]: the
    [Vec<(A, B)>]-like container that keeps the [A]s and the [B]s in two regions of
    one allocation.

    The model is at the level of the unsafe code: a region is a list of cells, a
    cell holds a value or is uninitialised ([None]), and reads of uninitialised
    cells and out-of-range pointer accesses are [UB].  [repr v l] relates such a
    state to the list [l] of pairs it stands for, and every operation is proved to
    return (no panic, no undefined behaviour) and to act on [l] as the obvious list
    operation.  Allocation itself is assumed to succeed once the layout is valid. *)

From S2P Require Import Prelude.

(** * Memory cells *)

Section cells.
Context {A : Type}.
Implicit Types cs : list (option A).

Definition read_cell {E} cs (i : nat) : result E A :=
  match cs !! i with Some (Some x) => Ok x | _ => UB end.
Definition write_cell {E} cs (i : nat) (x : A) : result E (list (option A)) :=
  if i <? length cs then Ok (<[i := Some x]> cs) else UB.
(** [ptr::copy] within one region (the ranges may overlap). *)
Definition ptr_copy {E} cs (src dst n : nat) : result E (list (option A)) :=
  if (src + n <=? length cs) && (dst + n <=? length cs)
  then Ok (take dst cs ++ take n (drop src cs) ++ drop (dst + n) cs) else UB.
(** [slice::from_raw_parts] on the first [n] cells. *)
Fixpoint init_cells {E} cs : result E (list A) :=
  match cs with
  | [] => Ok []
  | Some x :: cs => xs ← init_cells cs; Ok (x :: xs)
  | None :: _ => UB
  end.
Definition raw_slice {E} cs (n : nat) : result E (list A) :=
  if n <=? length cs then init_cells (take n cs) else UB.
End cells.

(** * Allocation layouts *)

(** [mem::size_of] and [mem::align_of]. *)
Class SizeOf (A : Type) := { size_of : Z; align_of : Z }.
#[global] Arguments size_of A {_}.
#[global] Arguments align_of A {_}.
(** Rust guarantees: the alignment is a power of two, the size a multiple of it. *)
Class SizeOfOk (A : Type) `{SizeOf A} := {
  align_pow2 : ∃ k, (0 ≤ k ∧ align_of A = 2 ^ k)%Z;
  size_nonneg : (0 ≤ size_of A)%Z;
  size_multiple : (size_of A mod align_of A = 0)%Z;
}.

Record Layout := mkLayout { layout_size : Z; layout_align : Z }.

Section layout.
Local Open Scope Z_scope.

(** [std::alloc::Layout]: the size, rounded up to the alignment, fits in [isize]. *)
Definition Layout_from_size_align (size align : Z) : option Layout :=
  if size <=? isize_max - (align - 1) then Some (mkLayout size align) else None.
Definition Layout_array (A : Type) `{SizeOf A} (n : Z) : option Layout :=
  Layout_from_size_align (size_of A * n) (align_of A).
Definition round_up (n align : Z) : Z := (n + align - 1) / align * align.
Definition Layout_extend (l next : Layout) : option (Layout * Z) :=
  let new_align := Z.max (layout_align l) (layout_align next) in
  let offset := round_up (layout_size l) (layout_align next) in
  layout ← Layout_from_size_align (offset + layout_size next) new_align;
  Some (layout, offset).
End layout.

Record Vec2Layout := mkVec2Layout { layout : Layout; offset_of_bbb : Z }.

(** * The container *)

Record Vec2 (A B : Type) := mkVec2 {
  aaa_cells : list (option A);
  bbb_cells : list (option B);
  len : nat;
  cap : nat;
}.
Arguments mkVec2 {A B}.
Arguments aaa_cells {A B}.
Arguments bbb_cells {A B}.
Arguments len {A B}.
Arguments cap {A B}.

(** ** [sorting/insertion.rs] *)

Section insertion.
Context {E T : Type}.

Fixpoint find_insertion_point (less : T → nat → nat → result E bool) (array : T)
    (next_unsorted i : nat) : result E nat :=
  match i with
  | 0 => Ok 0
  | S i' =>
    b ← less array next_unsorted i';
    if b : bool then find_insertion_point less array next_unsorted i' else Ok i
  end.

Definition insertion_step (less : T → nat → nat → result E bool)
    (swap_shift : T → nat → nat → result E T) (array : T) (i : nat) : result E T :=
  insertion_point ← find_insertion_point less array i i;
  _ ← assert (insertion_point <=? i);
  if insertion_point =? i then Ok array else swap_shift array insertion_point i.

Fixpoint insertion_loop (less : T → nat → nat → result E bool)
    (swap_shift : T → nat → nat → result E T) (array : T) (idx : list nat) :
    result E T :=
  match idx with
  | [] => Ok array
  | i :: idx =>
    array ← insertion_step less swap_shift array i;
    insertion_loop less swap_shift array idx
  end.

Definition insertion_sort (array : T) (len : nat)
    (less : T → nat → nat → result E bool)
    (swap_shift : T → nat → nat → result E T) : result E T :=
  insertion_loop less swap_shift array (seq 1 (len - 1)).
End insertion.

Definition slice_swap_shift {E X} (slice : list (option X)) (a b : nat) :
    result E (list (option X)) :=
  _ ← assert (a <? b);
  _ ← assert (b <? length slice);
  tmp ← read_cell slice b;
  slice ← ptr_copy slice a (a + 1) (b - a);
  write_cell slice a tmp.

(** ** [vec2.rs] *)

Section Vec2.
Context {A B : Type} `{SizeOf A, SizeOf B, SizeOf (A * B)}.
Implicit Types v : Vec2 A B.

Definition Vec2Layout_new_checked (c : Z) : option Vec2Layout :=
  a ← Layout_array A c;
  b ← Layout_array B c;
  '(layout, offset_of_bbb) ← Layout_extend a b;
  Some (mkVec2Layout layout offset_of_bbb).

Definition Vec2Layout_new {E} (c : nat) : result E Vec2Layout :=
  _ ← assert (negb (c =? 0));
  unwrap (Vec2Layout_new_checked (Z.of_nat c)).

Definition new : Vec2 A B := mkVec2 [] [] 0 0.

Definition with_capacity {E} (c : nat) : result E (Vec2 A B) :=
  if c =? 0 then Ok new else
  _ ← Vec2Layout_new c;
  Ok (mkVec2 (replicate c None) (replicate c None) 0 c).

Definition capacity v : nat := cap v.
Definition is_empty v : bool := len v =? 0.
Definition aaa {E} v : result E (list A) := raw_slice (aaa_cells v) (len v).
Definition bbb {E} v : result E (list B) := raw_slice (bbb_cells v) (len v).

Definition MIN_NON_ZERO_CAP : nat :=
  if (size_of (A * B) =? 1)%Z then 8
  else if (size_of (A * B) <=? 1024)%Z then 4 else 1.

Definition reserve_slow {E} v (additional : nat) : result E (Vec2 A B) :=
  _ ← assert (cap v - len v <? additional);
  required_cap ← unwrap
    (if (Z.of_nat (len v + additional) <=? usize_max)%Z
     then Some (len v + additional) else None);
  let new_cap := Nat.max required_cap MIN_NON_ZERO_CAP in
  let new_cap := Nat.max new_cap (cap v * 2) in
  new ← with_capacity new_cap;
  xs ← init_cells (take (len v) (aaa_cells v));
  ys ← init_cells (take (len v) (bbb_cells v));
  Ok (mkVec2 ((Some <$> xs) ++ drop (len v) (aaa_cells new))
             ((Some <$> ys) ++ drop (len v) (bbb_cells new)) (len v) new_cap).

Definition reserve {E} v (additional : nat) : result E (Vec2 A B) :=
  if cap v - len v <? additional then reserve_slow v additional else Ok v.

Definition push {E} v (a : A) (b : B) : result E (Vec2 A B) :=
  v ← reserve v 1;
  ca ← write_cell (aaa_cells v) (len v) a;
  cb ← write_cell (bbb_cells v) (len v) b;
  Ok (mkVec2 ca cb (len v + 1) (cap v)).

Definition get_unchecked {E} v (index : nat) : result E (A * B) :=
  _ ← contract (index <? len v);
  a ← read_cell (aaa_cells v) index;
  b ← read_cell (bbb_cells v) index;
  Ok (a, b).

Definition get {E} v (index : nat) : result E (option (A * B)) :=
  if index <? len v then Some <$> get_unchecked v index else Ok None.

(** The mutable variant returns the pair and the effect of writing through the two
    references. *)
Definition get_unchecked_mut {E} v (index : nat) :
    result E ((A * B) * (A * B → Vec2 A B)) :=
  _ ← contract (index <? len v);
  a ← read_cell (aaa_cells v) index;
  b ← read_cell (bbb_cells v) index;
  Ok ((a, b), λ '(a', b'),
    mkVec2 (<[index := Some a']> (aaa_cells v)) (<[index := Some b']> (bbb_cells v))
      (len v) (cap v)).

Definition get_mut {E} v (index : nat) :
    result E (option ((A * B) * (A * B → Vec2 A B))) :=
  if index <? len v then Some <$> get_unchecked_mut v index else Ok None.

Definition read {E} v (index : nat) : result E (A * B) :=
  _ ← contract (index <? len v);
  get_unchecked v index.

Definition remove {E} v (index : nat) : result E ((A * B) * Vec2 A B) :=
  _ ← assert (index <? len v);
  ab ← read v index;
  ca ← ptr_copy (aaa_cells v) (index + 1) index (len v - index - 1);
  cb ← ptr_copy (bbb_cells v) (index + 1) index (len v - index - 1);
  Ok (ab, mkVec2 ca cb (len v - 1) (cap v)).

Definition clear v : Vec2 A B := mkVec2 (aaa_cells v) (bbb_cells v) 0 (cap v).

Definition checked_sub (n m : nat) : option nat :=
  if m <=? n then Some (n - m) else None.

Definition pop {E} v : result E (option (A * B) * Vec2 A B) :=
  match checked_sub (len v) 1 with
  | None => Ok (None, v)
  | Some new_len =>
    ab ← read v new_len;
    Ok (Some ab, mkVec2 (aaa_cells v) (bbb_cells v) new_len (cap v))
  end.

Definition first {E} v : result E (option (A * B)) := get v 0.
Definition last {E} v : result E (option (A * B)) :=
  match checked_sub (len v) 1 with None => Ok None | Some i => get v i end.

(** [Iter::next]: the [A]s come from a slice iterator, the [B]s through a pointer
    that advances with it. *)
Fixpoint iter_loop {E} (xs : list A) (cb : list (option B)) (i : nat) :
    result E (list (A * B)) :=
  match xs with
  | [] => Ok []
  | a :: xs => b ← read_cell cb i; rest ← iter_loop xs cb (S i); Ok ((a, b) :: rest)
  end.
Definition iter {E} v : result E (list (A * B)) :=
  xs ← aaa v; iter_loop xs (bbb_cells v) 0.

(** [IntoIter::next] until [bbb_begin == bbb_end]. *)
Fixpoint into_iter_loop {E} v (i n : nat) : result E (list (A * B)) :=
  match n with
  | 0 => Ok []
  | S n =>
    a ← read_cell (aaa_cells v) i;
    b ← read_cell (bbb_cells v) i;
    rest ← into_iter_loop v (S i) n;
    Ok ((a, b) :: rest)
  end.
Definition into_iter {E} v : result E (list (A * B)) := into_iter_loop v 0 (len v).

Fixpoint push_all {E} v (entries : list (A * B)) : result E (Vec2 A B) :=
  match entries with
  | [] => Ok v
  | (a, b) :: entries => v ← push v a b; push_all v entries
  end.

Definition clone {E} v : result E (Vec2 A B) :=
  r ← with_capacity (len v);
  entries ← iter v;
  push_all r entries.

Definition shrink_to_fit {E} v : result E (Vec2 A B) :=
  if len v <? capacity v then
    new_vec ← with_capacity (len v);
    entries ← into_iter v;
    push_all new_vec entries
  else
    _ ← assert (len v =? capacity v);
    Ok v.

Definition truncate v (n : nat) : Vec2 A B :=
  match checked_sub (len v) n with
  | None => v
  | Some _drop_len => mkVec2 (aaa_cells v) (bbb_cells v) n (cap v)
  end.

(** [Retain]: the guard object of [retain], with its loop and its [Drop].  The
    predicate may also mutate the pair it is given. *)
Record Retain := mkRetain { retain_vec : Vec2 A B; written : nat; next : nat }.

Definition retain_step {E} (f : A → B → bool * (A * B)) (r : Retain) :
    result E Retain :=
  let vec := retain_vec r in
  '((a, b), set) ← get_unchecked_mut vec (next r);
  let '(retain_elem, ab) := f a b in
  let vec := set ab in
  a ← read_cell (aaa_cells vec) (next r);
  b ← read_cell (bbb_cells vec) (next r);
  let next := next r + 1 in
  if retain_elem : bool then
    ca ← write_cell (aaa_cells vec) (written r) a;
    cb ← write_cell (bbb_cells vec) (written r) b;
    Ok (mkRetain (mkVec2 ca cb (len vec) (cap vec)) (written r + 1) next)
  else Ok (mkRetain vec (written r) next).

(** The loop runs [len - next] times: [next] grows by one at each turn. *)
Fixpoint retain_loop {E} (f : A → B → bool * (A * B)) (r : Retain) (fuel : nat) :
    result E Retain :=
  if next r <? len (retain_vec r) then
    match fuel with
    | 0 => UB
    | S fuel => r ← retain_step f r; retain_loop f r fuel
    end
  else Ok r.

Definition retain_drop {E} (r : Retain) : result E (Vec2 A B) :=
  let vec := retain_vec r in
  _ ← assert (written r <=? next r);
  _ ← assert (next r <=? len vec);
  ca ← ptr_copy (aaa_cells vec) (next r) (written r) (len vec - next r);
  cb ← ptr_copy (bbb_cells vec) (next r) (written r) (len vec - next r);
  Ok (mkVec2 ca cb (written r + len vec - next r) (cap vec)).

Definition retain {E} v (f : A → B → bool * (A * B)) : result E (Vec2 A B) :=
  r ← retain_loop f (mkRetain v 0 0) (len v);
  retain_drop r.

(** ** Sorting *)

Definition vec2_less {E} (compare : A * B → A * B → comparison)
    v (i j : nat) : result E bool :=
  x ← get_unchecked v i;
  y ← get_unchecked v j;
  Ok (match compare x y with Lt => true | _ => false end).

Definition on_slice {E X} (cs : list (option X)) (n : nat)
    (f : list (option X) → result E (list (option X))) :
    result E (list (option X)) :=
  cs' ← f (take n cs); Ok (cs' ++ drop n cs).

Definition vec2_swap_shift {E} v (a b : nat) : result E (Vec2 A B) :=
  ca ← on_slice (aaa_cells v) (len v) (λ s, slice_swap_shift s a b);
  cb ← on_slice (bbb_cells v) (len v) (λ s, slice_swap_shift s a b);
  Ok (mkVec2 ca cb (len v) (cap v)).

Definition sort_insertion_by {E} v (compare : A * B → A * B → comparison) :
    result E (Vec2 A B) :=
  insertion_sort v (len v) (vec2_less compare) vec2_swap_shift.

End Vec2.

(** The stable sort of a list.  [insert_stable] puts [x] after the last element that is not greater. *)
Section stable_sort.
Context {X : Type} (compare : X → X → comparison).

Definition less (x y : X) : bool :=
  match compare x y with Lt => true | _ => false end.

(** The list is kept reversed, so that the scan starts at its last element. *)
Fixpoint insert_rev (x : X) (r : list X) : list X :=
  match r with
  | [] => [x]
  | y :: r => if less x y then y :: insert_rev x r else x :: y :: r
  end.
Definition insert_stable (l : list X) (x : X) : list X := reverse (insert_rev x (reverse l)).
Definition stable_sort (l : list X) : list X := foldl insert_stable [] l.

(** [slice::sort_by] of the standard library is the stable sort when the comparator is a total order of the elements.
    Otherwise the order of the result is not specified and the sort may panic: it is taken to panic, so that nothing is shown
    of it. *)
Definition le_bool (x y : X) : bool := match compare x y with Gt => false | _ => true end.
Definition total_on (l : list X) : bool :=
  forallb (λ x, forallb (λ y, bool_decide (compare y x = CompOpp (compare x y)) &&
    forallb (λ z, implb (le_bool x y && le_bool y z) (le_bool x z)) l) l) l.
Definition slice_sort_by {E} (l : list X) : result E (list X) :=
  if total_on l then Ok (stable_sort l) else Panic.
End stable_sort.

Section Vec2_sort.
Context {A B : Type} `{SizeOf A, SizeOf B, SizeOf (A * B)}.

Definition MAX_INSERTION : nat := 20.

Definition sort_by {E} (v : Vec2 A B) (compare : A * B → A * B → comparison) :
    result E (Vec2 A B) :=
  if len v <=? MAX_INSERTION then sort_insertion_by v compare else
  entries ← into_iter v;
  entries ← slice_sort_by compare entries;
  push_all new entries.
End Vec2_sort.

(** * Correctness *)

(** ** Cells *)

(** The first cells of [cs] are initialised with [l]. *)
Definition holds {X} (cs : list (option X)) (l : list X) : Prop :=
  ∀ i x, l !! i = Some x → cs !! i = Some (Some x).

Section holds.
Context {E : Type} {X : Type}.
Implicit Types (cs : list (option X)) (l : list X).

Lemma holds_nil cs : holds cs [].
Proof. by intros i x. Qed.

Lemma holds_length cs l : holds cs l → length l ≤ length cs.
Proof.
  intros Hl. destruct (decide (length l ≤ length cs)) as [|Hlt]; [done|].
  destruct (lookup_lt_is_Some_2 l (length cs)) as [x Hx]; [lia|].
  apply Hl, lookup_lt_Some in Hx. lia.
Qed.

Lemma holds_take cs l : holds cs l → take (length l) cs = Some <$> l.
Proof.
  intros Hl. pose proof (holds_length _ _ Hl) as Hlen. apply list_eq. intros i.
  rewrite list_lookup_fmap. destruct (l !! i) as [x|] eqn:Hi; simpl.
  - rewrite lookup_take_lt by (by eapply lookup_lt_Some). by apply Hl.
  - apply lookup_ge_None in Hi. by rewrite lookup_take_ge.
Qed.

Lemma init_cells_Some l : init_cells (E:=E) (Some <$> l) = Ok l.
Proof. induction l as [|x l IH]; [done|]. csimpl. by rewrite IH. Qed.

Lemma raw_slice_holds cs l : holds cs l → raw_slice (E:=E) cs (length l) = Ok l.
Proof.
  intros Hl. unfold raw_slice. rewrite (proj2 (Nat.leb_le _ _) (holds_length _ _ Hl)).
  rewrite (holds_take _ _ Hl). apply init_cells_Some.
Qed.

Lemma read_cell_holds cs l i x :
  holds cs l → l !! i = Some x → read_cell (E:=E) cs i = Ok x.
Proof. intros Hl Hi. unfold read_cell. by rewrite (Hl _ _ Hi). Qed.

Lemma write_cell_lt cs i x :
  i < length cs → write_cell (E:=E) cs i x = Ok (<[i := Some x]> cs).
Proof. intros Hi. unfold write_cell. by rewrite (proj2 (Nat.ltb_lt _ _) Hi). Qed.

Lemma holds_snoc cs l x :
  holds cs l → length l < length cs → holds (<[length l := Some x]> cs) (l ++ [x]).
Proof.
  intros Hl Hlt i y Hi. destruct (decide (i = length l)) as [->|Hne].
  - rewrite list_lookup_insert_eq by done. rewrite lookup_app_r in Hi by done.
    rewrite Nat.sub_diag in Hi. by simplify_eq/=.
  - rewrite list_lookup_insert_ne by done. apply Hl.
    apply lookup_snoc_Some in Hi as [[_ Hi]|[Hi _]]; [done|lia].
Qed.

Lemma holds_insert cs l i x :
  holds cs l → holds (<[i := Some x]> cs) (<[i := x]> l).
Proof.
  intros Hl j y Hj. apply list_lookup_insert_Some in Hj as [(-> & -> & Hlt)|[Hne Hj]].
  - apply list_lookup_insert_eq. pose proof (holds_length _ _ Hl). lia.
  - rewrite list_lookup_insert_ne by done. by apply Hl.
Qed.

Lemma holds_prefix cs l k : holds cs (l ++ k) → holds cs l.
Proof. intros Hl i x Hi. apply Hl. by apply lookup_app_l_Some. Qed.

Lemma holds_take_list cs l n : holds cs l → holds cs (take n l).
Proof. intros Hl. rewrite <-(take_drop n l) in Hl. by eapply holds_prefix. Qed.

Lemma ptr_copy_lookup cs src dst n :
  src + n ≤ length cs → dst + n ≤ length cs →
  ∃ cs', ptr_copy (E:=E) cs src dst n = Ok cs' ∧ length cs' = length cs ∧
  ∀ i, cs' !! i =
    if decide (dst ≤ i < dst + n) then cs !! (src + (i - dst)) else cs !! i.
Proof.
  intros Hs Hd. unfold ptr_copy.
  rewrite (proj2 (Nat.leb_le _ _) Hs), (proj2 (Nat.leb_le _ _) Hd). simpl.
  eexists. split; [done|].
  assert (length (take dst cs) = dst) as Ht by (rewrite length_take; lia).
  assert (length (take n (drop src cs)) = n) as Hn
    by (rewrite length_take, length_drop; lia).
  split; [rewrite !length_app, length_drop; lia|]. intros i.
  case_decide as Hi.
  - rewrite lookup_app_r, Ht by lia. rewrite lookup_app_l by lia.
    rewrite lookup_take_lt by lia. by rewrite lookup_drop.
  - destruct (decide (i < dst)).
    + rewrite lookup_app_l by lia. by rewrite lookup_take_lt.
    + rewrite lookup_app_r, Ht by lia. rewrite lookup_app_r, Hn by lia.
      rewrite lookup_drop. f_equal. lia.
Qed.

(** [remove] on one region. *)
Lemma ptr_copy_delete cs l i :
  holds cs l → i < length l →
  ∃ cs', ptr_copy (E:=E) cs (i + 1) i (length l - i - 1) = Ok cs' ∧
    length cs' = length cs ∧ holds cs' (delete i l).
Proof.
  intros Hl Hi. pose proof (holds_length _ _ Hl).
  destruct (ptr_copy_lookup cs (i + 1) i (length l - i - 1))
    as (cs' & -> & Hlen & Hlook); [lia..|].
  exists cs'. split_and!; [done..|]. intros j x Hj. rewrite Hlook.
  pose proof (lookup_lt_Some _ _ _ Hj) as Hlt.
  rewrite length_delete in Hlt by (by apply lookup_lt_is_Some).
  destruct (decide (j < i)).
  - rewrite list_lookup_delete_lt in Hj by done.
    rewrite decide_False by lia. by apply Hl.
  - rewrite list_lookup_delete_ge in Hj by lia.
    rewrite decide_True by lia. replace (i + 1 + (j - i)) with (S j) by lia.
    by apply Hl.
Qed.

(** Moves the element at [b] to [a]. *)
Definition swap_shift_list l (a b : nat) : list X :=
  match l !! b with
  | Some x => take a l ++ x :: take (b - a) (drop a l) ++ drop (S b) l
  | None => l
  end.

Lemma swap_shift_list_lookup l a b x i :
  a ≤ b → l !! b = Some x →
  swap_shift_list l a b !! i =
    if decide (i < a) then l !! i
    else if decide (i = a) then Some x
    else if decide (i ≤ b) then l !! (i - 1) else l !! i.
Proof.
  intros Hab Hb. pose proof (lookup_lt_Some _ _ _ Hb) as Hlt.
  unfold swap_shift_list. rewrite Hb.
  assert (length (take a l) = a) as Ha by (rewrite length_take; lia).
  assert (length (take (b - a) (drop a l)) = b - a) as Hn
    by (rewrite length_take, length_drop; lia).
  repeat case_decide.
  - rewrite lookup_app_l by lia. by rewrite lookup_take_lt.
  - rewrite lookup_app_r, Ha by lia. by replace (i - a) with 0 by lia.
  - rewrite lookup_app_r, Ha by lia. replace (i - a) with (S (i - a - 1)) by lia.
    simpl. rewrite lookup_app_l by lia. rewrite lookup_take_lt, lookup_drop by lia.
    f_equal. lia.
  - rewrite lookup_app_r, Ha by lia. replace (i - a) with (S (i - a - 1)) by lia.
    simpl. rewrite lookup_app_r, Hn by lia. rewrite lookup_drop. f_equal. lia.
Qed.

Lemma length_swap_shift_list l a b :
  a ≤ b → length (swap_shift_list l a b) = length l.
Proof.
  intros Hab. unfold swap_shift_list. destruct (l !! b) as [x|] eqn:Hb; [|done].
  apply lookup_lt_Some in Hb.
  rewrite length_app. simpl. rewrite length_app, !length_take, !length_drop. lia.
Qed.

(** [slice_swap_shift] on a slice whose cells are all initialised. *)
Lemma slice_swap_shift_spec l a b :
  a < b → b < length l →
  slice_swap_shift (E:=E) (Some <$> l) a b = Ok (Some <$> swap_shift_list l a b).
Proof.
  intros Hab Hb. unfold slice_swap_shift.
  rewrite length_fmap, (proj2 (Nat.ltb_lt _ _) Hab), (proj2 (Nat.ltb_lt _ _) Hb). simpl.
  destruct (lookup_lt_is_Some_2 l b Hb) as [x Hx].
  unfold read_cell. rewrite list_lookup_fmap, Hx. simpl.
  destruct (ptr_copy_lookup (Some <$> l) a (a + 1) (b - a))
    as (cs & -> & Hlen & Hlook); [rewrite length_fmap; lia..|].
  rewrite length_fmap in Hlen. simpl. rewrite write_cell_lt by lia. f_equal.
  apply list_eq. intros i. rewrite list_lookup_fmap.
  rewrite (swap_shift_list_lookup _ _ _ x) by (done || lia).
  destruct (decide (i = a)) as [->|Hia].
  - rewrite list_lookup_insert_eq by lia. repeat case_decide; by try lia.
  - rewrite list_lookup_insert_ne by done. rewrite Hlook.
    repeat case_decide; try lia; rewrite list_lookup_fmap; repeat f_equal; lia.
Qed.
End holds.

Arguments swap_shift_list {X} l a b.

(** ** Representation *)

(** [repr v l]: the state [v] stands for the list of pairs [l]. *)
Record repr {A B} (v : Vec2 A B) (l : list (A * B)) : Prop := mkRepr {
  repr_aaa : holds (aaa_cells v) l.*1;
  repr_bbb : holds (bbb_cells v) l.*2;
  repr_len : len v = length l;
  repr_aaa_cap : length (aaa_cells v) = cap v;
  repr_bbb_cap : length (bbb_cells v) = cap v;
}.

Section spec.
Context {E : Type} {A B : Type} `{SizeOf A, SizeOf B, SizeOf (A * B)}.
Implicit Types (v : Vec2 A B) (l : list (A * B)).

(** The layout for capacity [c] is valid. *)
Definition alloc_ok (c : nat) : Prop := is_Some (Vec2Layout_new_checked (A:=A) (B:=B) (Z.of_nat c)).
(** Every capacity up to [n] can be allocated. *)
Definition fits (n : nat) : Prop :=
  (Z.of_nat n ≤ usize_max)%Z ∧ ∀ c, 0 < c ≤ n → alloc_ok c.
(** The capacity [reserve_slow] asks for. *)
Definition grown_cap v (additional : nat) : nat :=
  Nat.max (Nat.max (len v + additional) (MIN_NON_ZERO_CAP (A:=A) (B:=B))) (cap v * 2).
Definition can_reserve v (additional : nat) : Prop :=
  additional ≤ cap v - len v ∨
  (Z.of_nat (len v + additional) ≤ usize_max)%Z ∧ alloc_ok (grown_cap v additional).

Lemma repr_cap v l : repr v l → length l ≤ cap v.
Proof.
  intros [Ha _ _ Hc _]. apply holds_length in Ha. rewrite length_fmap in Ha. lia.
Qed.

Lemma MIN_NON_ZERO_CAP_bounds : 1 ≤ MIN_NON_ZERO_CAP (A:=A) (B:=B) ≤ 8.
Proof. unfold MIN_NON_ZERO_CAP. case_tests; lia. Qed.

Lemma new_spec : repr (new (A:=A) (B:=B)) [].
Proof. split; simpl; auto using holds_nil. Qed.

Lemma with_capacity_spec c :
  c = 0 ∨ alloc_ok c →
  returns (E:=E) (with_capacity c) (λ v, repr v [] ∧ cap v = c).
Proof.
  intros Hc. unfold with_capacity. destruct (c =? 0) eqn:Hz.
  - apply Nat.eqb_eq in Hz as ->. apply returns_ret. split; [apply new_spec|done].
  - destruct Hc as [->|[y Hc]]; [done|]. unfold Vec2Layout_new. rewrite Hz. simpl.
    rewrite Hc. simpl. apply returns_ret. split; [|done].
    split; simpl; auto using holds_nil; apply length_replicate.
Qed.

Lemma with_capacity_panics c :
  0 < c → ¬ alloc_ok c → with_capacity (A:=A) (B:=B) (E:=E) c = Panic.
Proof.
  intros Hc Hn. unfold with_capacity, Vec2Layout_new.
  rewrite (proj2 (Nat.eqb_neq c 0)) by lia. simpl. unfold alloc_ok in Hn.
  destruct (Vec2Layout_new_checked (Z.of_nat c)); [|done].
  destruct Hn. by eexists.
Qed.

Lemma repr_init_cells v l :
  repr v l → init_cells (E:=E) (take (len v) (aaa_cells v)) = Ok l.*1 ∧
             init_cells (E:=E) (take (len v) (bbb_cells v)) = Ok l.*2.
Proof.
  intros [Ha Hb Hl _ _]. rewrite Hl. split.
  - rewrite <-(length_fmap fst). rewrite holds_take by done. apply init_cells_Some.
  - rewrite <-(length_fmap snd). rewrite holds_take by done. apply init_cells_Some.
Qed.

Lemma holds_app_rest {X} (l : list X) rest : holds ((Some <$> l) ++ rest) l.
Proof.
  intros i x Hi. apply lookup_app_l_Some. by rewrite list_lookup_fmap, Hi.
Qed.

Lemma reserve_spec v l n :
  repr v l → can_reserve v n →
  returns (E:=E) (reserve v n) (λ v', repr v' l ∧ length l + n ≤ cap v' ∧
    cap v' = if cap v - len v <? n then grown_cap v n else cap v).
Proof.
  intros Hr Hcan. pose proof (repr_cap _ _ Hr) as Hcap. unfold reserve.
  pose proof (repr_len _ _ Hr) as Hlen. destruct (cap v - len v <? n) eqn:Hlt.
  - apply Nat.ltb_lt in Hlt. destruct Hcan as [Hcan|[Hus Hok]]; [lia|].
    unfold reserve_slow. rewrite (proj2 (Nat.ltb_lt _ _) Hlt). simpl.
    rewrite (proj2 (Z.leb_le _ _) Hus). simpl.
    apply returns_bind. eapply returns_mono;
      [apply with_capacity_spec; right; exact Hok|].
    intros nv [[_ _ Hnl Hna Hnb] Hnc]. destruct (repr_init_cells _ _ Hr) as [-> ->].
    simpl. apply returns_ret. split_and!.
    + split; simpl; auto using holds_app_rest;
        rewrite length_app, !length_fmap, length_drop; rewrite ?Hna, ?Hnb, Hnc;
        unfold grown_cap; lia.
    + simpl. unfold grown_cap. lia.
    + done.
  - apply Nat.ltb_ge in Hlt. apply returns_ret. split_and!; [done|lia|done].
Qed.

Lemma push_spec v l a b :
  repr v l → can_reserve v 1 →
  returns (E:=E) (push v a b) (λ v', repr v' (l ++ [(a, b)]) ∧
    cap v' = if cap v - len v <? 1 then grown_cap v 1 else cap v).
Proof.
  intros Hr Hcan. unfold push. step_with reserve_spec; [done..|].
  intros v' [[Ha Hb Hl Hca Hcb] [Hroom Hcap]]. simpl.
  rewrite !write_cell_lt by lia. simpl. apply returns_ret. split; [|done].
  rewrite Hl. split; simpl; rewrite ?length_insert, ?fmap_app, ?length_app; simpl; try done.
  - rewrite <-(length_fmap fst). apply holds_snoc; rewrite ?length_fmap; [done|lia].
  - rewrite <-(length_fmap snd). apply holds_snoc; rewrite ?length_fmap; [done|lia].
Qed.

Lemma push_panics v l a b :
  repr v l → ¬ can_reserve v 1 → push (E:=E) v a b = Panic.
Proof.
  intros Hr Hcan. pose proof MIN_NON_ZERO_CAP_bounds.
  unfold push, reserve. unfold can_reserve in Hcan.
  rewrite (proj2 (Nat.ltb_lt (cap v - len v) 1)) by lia. unfold reserve_slow.
  rewrite (proj2 (Nat.ltb_lt (cap v - len v) 1)) by lia. simpl.
  destruct (Z.of_nat (len v + 1) <=? usize_max)%Z eqn:Hus; [|done].
  apply Z.leb_le in Hus. simpl.
  rewrite with_capacity_panics; [done|lia|]. unfold grown_cap in Hcan. tauto.
Qed.

Lemma get_unchecked_spec v l i ab :
  repr v l → l !! i = Some ab → get_unchecked (E:=E) v i = Ok ab.
Proof.
  intros [Ha Hb Hl _ _] Hi. unfold get_unchecked. rewrite Hl.
  rewrite (proj2 (Nat.ltb_lt _ _) (lookup_lt_Some _ _ _ Hi)). simpl.
  rewrite (read_cell_holds _ l.*1 i ab.1) by (rewrite ?list_lookup_fmap, ?Hi; done).
  rewrite (read_cell_holds _ l.*2 i ab.2) by (rewrite ?list_lookup_fmap, ?Hi; done).
  by destruct ab.
Qed.

Lemma get_spec v l i : repr v l → get (E:=E) v i = Ok (l !! i).
Proof.
  intros Hr. unfold get. rewrite (repr_len _ _ Hr). destruct (l !! i) as [ab|] eqn:Hi.
  - rewrite (proj2 (Nat.ltb_lt _ _) (lookup_lt_Some _ _ _ Hi)).
    by rewrite (get_unchecked_spec _ _ _ _ Hr Hi).
  - apply lookup_ge_None in Hi. by rewrite (proj2 (Nat.ltb_ge _ _) Hi).
Qed.

Lemma get_unchecked_mut_spec v l i ab :
  repr v l → l !! i = Some ab →
  returns (E:=E) (get_unchecked_mut v i) (λ '(ab', set), ab' = ab ∧
    ∀ cd, repr (set cd) (<[i := cd]> l) ∧ cap (set cd) = cap v).
Proof.
  intros [Ha Hb Hl Hca Hcb] Hi. unfold get_unchecked_mut. rewrite Hl.
  rewrite (proj2 (Nat.ltb_lt _ _) (lookup_lt_Some _ _ _ Hi)). simpl.
  rewrite (read_cell_holds _ l.*1 i ab.1) by (rewrite ?list_lookup_fmap, ?Hi; done).
  rewrite (read_cell_holds _ l.*2 i ab.2) by (rewrite ?list_lookup_fmap, ?Hi; done).
  simpl. apply returns_ret. split; [by destruct ab|]. intros [c d]. split; [|done].
  split; simpl; rewrite ?list_fmap_insert, ?length_insert; auto using holds_insert.
Qed.

Lemma remove_spec v l i :
  repr v l → i < length l →
  returns (E:=E) (remove v i) (λ '(ab, v'),
    l !! i = Some ab ∧ repr v' (delete i l) ∧ cap v' = cap v).
Proof.
  intros Hr Hi. destruct (lookup_lt_is_Some_2 l i Hi) as [ab Hab].
  unfold remove, read. rewrite (repr_len _ _ Hr), (proj2 (Nat.ltb_lt _ _) Hi). simpl.
  rewrite (get_unchecked_spec _ _ _ _ Hr Hab). simpl.
  destruct Hr as [Ha Hb Hl Hca Hcb].
  destruct (ptr_copy_delete (E:=E) (aaa_cells v) l.*1 i) as (ca & Hca' & Hla & Hha);
    [done|by rewrite length_fmap|]. rewrite length_fmap in Hca'. rewrite Hca'. simpl.
  destruct (ptr_copy_delete (E:=E) (bbb_cells v) l.*2 i) as (cb & Hcb' & Hlb & Hhb);
    [done|by rewrite length_fmap|]. rewrite length_fmap in Hcb'. rewrite Hcb'. simpl.
  apply returns_ret. split_and!; [done| |done].
  split; simpl; rewrite ?list_fmap_delete; try done; try lia.
  rewrite length_delete by (by eexists). lia.
Qed.

Lemma remove_panics v l i : repr v l → length l ≤ i → remove (E:=E) v i = Panic.
Proof.
  intros Hr Hi. unfold remove. by rewrite (repr_len _ _ Hr), (proj2 (Nat.ltb_ge _ _) Hi).
Qed.

Lemma repr_take v l n :
  repr v l → n ≤ length l →
  repr (mkVec2 (aaa_cells v) (bbb_cells v) n (cap v)) (take n l).
Proof.
  intros [Ha Hb Hl Hca Hcb] Hn.
  split; simpl; rewrite ?fmap_take, ?length_take; auto using holds_take_list. lia.
Qed.

Lemma clear_spec v l : repr v l → repr (clear v) [] ∧ cap (clear v) = cap v.
Proof. intros Hr. split; [|done]. apply (repr_take v l 0 Hr). lia. Qed.

Lemma truncate_spec v l n :
  repr v l → repr (truncate v n) (take n l) ∧ cap (truncate v n) = cap v.
Proof.
  intros Hr. unfold truncate, checked_sub. rewrite (repr_len _ _ Hr).
  destruct (n <=? length l) eqn:Hn.
  - apply Nat.leb_le in Hn. by split; [apply repr_take|].
  - apply Nat.leb_gt in Hn. by rewrite take_ge by lia.
Qed.

Lemma pop_spec v l :
  repr v l →
  returns (E:=E) (pop v) (λ '(o, v'),
    o = list.last l ∧ repr v' (take (length l - 1) l) ∧ cap v' = cap v).
Proof.
  intros Hr. unfold pop, checked_sub. rewrite (repr_len _ _ Hr).
  destruct l as [|ab l _] using rev_ind.
  - simpl. by apply returns_ret.
  - rewrite length_app. change (length [ab]) with 1.
    rewrite (proj2 (Nat.leb_le 1 _)) by lia.
    replace (length l + 1 - 1) with (length l) by lia.
    assert ((l ++ [ab]) !! length l = Some ab) as Hab by (apply list_lookup_middle; done).
    unfold read. rewrite (repr_len _ _ Hr), length_app, (proj2 (Nat.ltb_lt _ _)) by (simpl; lia).
    simpl. rewrite (get_unchecked_spec _ _ _ _ Hr Hab). simpl. apply returns_ret.
    rewrite last_snoc. split_and!; [done| |done].
    rewrite take_app_length. pose proof (repr_take _ _ (length l) Hr) as Ht.
    rewrite take_app_length, length_app in Ht. apply Ht. lia.
Qed.

Lemma aaa_spec v l : repr v l → aaa (E:=E) v = Ok l.*1.
Proof.
  intros [Ha _ Hl _ _]. unfold aaa. rewrite Hl, <-(length_fmap fst). by apply raw_slice_holds.
Qed.
Lemma bbb_spec v l : repr v l → bbb (E:=E) v = Ok l.*2.
Proof.
  intros [_ Hb Hl _ _]. unfold bbb. rewrite Hl, <-(length_fmap snd). by apply raw_slice_holds.
Qed.

Lemma iter_loop_spec (xs : list A) (ys : list B) cb i :
  length xs = length ys →
  (∀ j y, ys !! j = Some y → cb !! (i + j) = Some (Some y)) →
  iter_loop (E:=E) xs cb i = Ok (zip xs ys).
Proof.
  revert ys i. induction xs as [|x xs IH]; intros [|y ys] i Hlen Hc; try done.
  simpl. unfold read_cell. pose proof (Hc 0 y eq_refl) as Hy.
  rewrite Nat.add_0_r in Hy. rewrite Hy. simpl.
  rewrite (IH ys); [done|by injection Hlen|].
  intros j z Hj. rewrite <-(Hc (S j) z Hj). f_equal. lia.
Qed.

Lemma zip_fst_snd' l : zip l.*1 l.*2 = l.
Proof. induction l as [|[x y] l IH]; csimpl; congruence. Qed.

Lemma iter_spec v l : repr v l → iter (E:=E) v = Ok l.
Proof.
  intros Hr. unfold iter. rewrite (aaa_spec _ _ Hr). simpl.
  rewrite (iter_loop_spec _ l.*2); [by rewrite zip_fst_snd'|by rewrite !length_fmap|].
  intros j y Hj. by apply (repr_bbb _ _ Hr).
Qed.

Lemma into_iter_loop_spec v l i n :
  repr v l → n = length l - i → into_iter_loop (E:=E) v i n = Ok (drop i l).
Proof.
  intros Hr. revert i. induction n as [|n IH]; intros i Hn; simpl.
  - by rewrite drop_ge by lia.
  - destruct (lookup_lt_is_Some_2 l i) as [ab Hab]; [lia|].
    rewrite (read_cell_holds _ l.*1 i ab.1) by (rewrite ?list_lookup_fmap, ?Hab; by try apply Hr).
    rewrite (read_cell_holds _ l.*2 i ab.2) by (rewrite ?list_lookup_fmap, ?Hab; by try apply Hr).
    simpl. rewrite IH by lia. rewrite (drop_S _ _ _ Hab). by destruct ab.
Qed.

Lemma into_iter_spec v l : repr v l → into_iter (E:=E) v = Ok l.
Proof.
  intros Hr. unfold into_iter. rewrite (repr_len _ _ Hr).
  by rewrite (into_iter_loop_spec _ l 0) by (done || lia).
Qed.
End spec.

Arguments alloc_ok A B {_ _} c.
Arguments fits A B {_ _} n.

(** ** Rebuilding, retaining *)

(** The entries [retain] keeps, with the mutations its predicate made. *)
Definition kept {A B} (f : A → B → bool * (A * B)) (l : list (A * B)) : list (A * B) :=
  flat_map (λ '(a, b), let '(k, ab) := f a b in if k then [ab] else []) l.

Section rebuild.
Context {E : Type} {A B : Type} `{SizeOf A, SizeOf B, SizeOf (A * B)}.
Implicit Types (v : Vec2 A B) (l : list (A * B)).

Lemma fits_le n m : fits A B n → m ≤ n → fits A B m.
Proof. intros [Hu Hf] Hm. split; [lia|]. intros c Hc. apply Hf. lia. Qed.

Lemma push_all_room v l es :
  repr v l → length l + length es ≤ cap v →
  returns (E:=E) (push_all v es) (λ v', repr v' (l ++ es) ∧ cap v' = cap v).
Proof.
  revert v l. induction es as [|[a b] es IH]; intros v l Hr Hc; simpl in *.
  - apply returns_ret. by rewrite app_nil_r.
  - step_with push_spec; [done|left; rewrite (repr_len _ _ Hr); lia|].
    intros v' [Hr' Hcap]. rewrite (proj2 (Nat.ltb_ge _ 1)) in Hcap
      by (rewrite (repr_len _ _ Hr); lia).
    eapply returns_mono; [apply (IH _ _ Hr'); rewrite length_app; simpl; lia|].
    intros v'' [Hr'' Hcap']. rewrite <-app_assoc in Hr''. split; [done|congruence].
Qed.

(** Pushing [es] never asks for more than twice the final length. *)
Lemma push_all_grow v l es :
  repr v l → cap v ≤ 2 * length l + 8 → fits A B (2 * (length l + length es) + 8) →
  returns (E:=E) (push_all v es) (λ v', repr v' (l ++ es) ∧
    cap v' ≤ 2 * (length l + length es) + 8).
Proof.
  revert v l. induction es as [|[a b] es IH]; intros v l Hr Hc Hf; simpl in *.
  - apply returns_ret. rewrite app_nil_r. split; [done|lia].
  - pose proof (repr_cap _ _ Hr) as Hlc. pose proof (repr_len _ _ Hr) as Hl.
    pose proof (MIN_NON_ZERO_CAP_bounds (A:=A) (B:=B)) as Hmin.
    step_with push_spec; [done| |].
    { destruct (decide (1 ≤ cap v - len v)); [by left|]. right.
      destruct Hf as [Hus Hf]. split; [lia|]. apply Hf. unfold grown_cap. lia. }
    intros v' [Hr' Hcap].
    eapply returns_mono; [apply (IH _ _ Hr')|]; rewrite ?length_app; simpl.
    + destruct (cap v - len v <? 1) eqn:Hlt; [|lia].
      apply Nat.ltb_lt in Hlt. unfold grown_cap in Hcap. lia.
    + eapply fits_le; [done|]. lia.
    + intros v'' [Hr'' Hcap']. rewrite <-app_assoc in Hr''. split; [done|lia].
Qed.

Lemma clone_spec v l :
  repr v l → fits A B (length l) →
  returns (E:=E) (clone v) (λ v', repr v' l ∧ cap v' = length l).
Proof.
  intros Hr [_ Hf]. unfold clone. rewrite (repr_len _ _ Hr).
  step_with with_capacity_spec; [destruct (length l); [by left|right; apply Hf; lia]|].
  intros r [Hr0 Hc]. rewrite (iter_spec _ _ Hr). simpl. rewrite <-Hc.
  apply (push_all_room r [] l Hr0). simpl. lia.
Qed.

Lemma shrink_to_fit_spec v l :
  repr v l → fits A B (length l) →
  returns (E:=E) (shrink_to_fit v) (λ v', repr v' l ∧ cap v' = length l).
Proof.
  intros Hr [_ Hf]. pose proof (repr_cap _ _ Hr) as Hcap. unfold shrink_to_fit, capacity.
  rewrite (repr_len _ _ Hr). destruct (length l <? cap v) eqn:Hlt.
  - step_with with_capacity_spec; [destruct (length l); [by left|right; apply Hf; lia]|].
    intros r [Hr0 Hc]. rewrite (into_iter_spec _ _ Hr). simpl. rewrite <-Hc.
    apply (push_all_room r [] l Hr0). simpl. lia.
  - apply Nat.ltb_ge in Hlt. rewrite (proj2 (Nat.eqb_eq _ _)) by lia. simpl.
    apply returns_ret. split; [done|lia].
Qed.

(** Invariant of the [retain] loop after [n] turns: the kept entries are in place
    and the entries from [n] on have not been touched. *)
Record retain_inv (f : A → B → bool * (A * B)) l (c : nat) (r : Retain) (n : nat) : Prop := {
  ri_next : next r = n;
  ri_written : written r = length (kept f (take n l));
  ri_written_le : written r ≤ n;
  ri_aaa : holds (aaa_cells (retain_vec r)) (kept f (take n l)).*1;
  ri_bbb : holds (bbb_cells (retain_vec r)) (kept f (take n l)).*2;
  ri_rest : ∀ i ab, n ≤ i → l !! i = Some ab →
    aaa_cells (retain_vec r) !! i = Some (Some ab.1) ∧
    bbb_cells (retain_vec r) !! i = Some (Some ab.2);
  ri_len : len (retain_vec r) = length l;
  ri_cap : cap (retain_vec r) = c;
  ri_aaa_cap : length (aaa_cells (retain_vec r)) = c;
  ri_bbb_cap : length (bbb_cells (retain_vec r)) = c;
}.

Lemma kept_snoc f l a b :
  kept f (l ++ [(a, b)]) =
  kept f l ++ (let '(k, ab) := f a b in if k then [ab] else []).
Proof.
  unfold kept. rewrite flat_map_app. simpl. destruct (f a b) as [k ab].
  by rewrite app_nil_r.
Qed.

(** One region at one turn: the entry at [n] is overwritten by [x] in place, and
    written after the [w] kept ones if it is to be kept. *)
Lemma retain_cells {X} (cs : list (option X)) (out : list X) n x :
  holds cs out → length out ≤ n → n < length cs →
  holds (<[n := Some x]> cs) out ∧
  holds (<[length out := Some x]> (<[n := Some x]> cs)) (out ++ [x]).
Proof.
  intros Hh Hle Hlt.
  assert (holds (<[n := Some x]> cs) out) as Hh'.
  { intros i y Hi. rewrite list_lookup_insert_ne by (apply lookup_lt_Some in Hi; lia).
    by apply Hh. }
  split; [done|]. apply holds_snoc; [done|]. rewrite length_insert. lia.
Qed.

Lemma retain_step_spec f l c r n :
  retain_inv f l c r n → n < length l →
  returns (E:=E) (retain_step f r) (λ r', retain_inv f l c r' (S n)).
Proof.
  intros [Hn Hw Hwn Ha Hb Hrest Hlen Hcap Hca Hcb] Hlt.
  destruct (lookup_lt_is_Some_2 l n Hlt) as [[a b] Hab].
  destruct (Hrest n _ ltac:(done) Hab) as [Hna Hnb]. simpl in Hna, Hnb.
  pose proof (lookup_lt_Some _ _ _ Hna) as Hlta. pose proof (lookup_lt_Some _ _ _ Hnb) as Hltb.
  unfold retain_step, get_unchecked_mut, read_cell.
  rewrite Hn, Hlen, (proj2 (Nat.ltb_lt _ _) Hlt). simpl. rewrite Hna, Hnb. simpl.
  destruct (f a b) as [k [a' b']] eqn:Hf. simpl.
  rewrite !list_lookup_insert_eq by done. simpl.
  pose proof (kept_snoc f (take n l) a b) as Hk. rewrite Hf in Hk.
  rewrite <-(take_S_r _ _ _ Hab) in Hk.
  destruct (retain_cells _ _ n a' Ha) as [Ha1 Ha2]; [rewrite length_fmap; lia|done|].
  destruct (retain_cells _ _ n b' Hb) as [Hb1 Hb2]; [rewrite length_fmap; lia|done|].
  rewrite length_fmap, <-Hw in Ha2. rewrite length_fmap, <-Hw in Hb2.
  assert (∀ i ab, S n ≤ i → l !! i = Some ab → aaa_cells (retain_vec r) !! i = Some (Some ab.1)
    ∧ bbb_cells (retain_vec r) !! i = Some (Some ab.2)) as Hrest'
    by (intros; apply Hrest; [lia|done]).
  destruct k; simpl.
  - rewrite !write_cell_lt by (rewrite length_insert; lia). simpl. apply returns_ret.
    split; simpl; rewrite ?length_insert, ?Hk, ?length_app, ?fmap_app; simpl; try done; try lia.
    intros i ab Hi Hab'. rewrite !list_lookup_insert_ne by lia. by apply Hrest'.
  - apply returns_ret. rewrite app_nil_r in Hk.
    split; simpl; rewrite ?length_insert, ?Hk; try done; try lia.
    intros i ab Hi Hab'. rewrite !list_lookup_insert_ne by lia. by apply Hrest'.
Qed.

Lemma retain_loop_spec f l c r n fuel :
  retain_inv f l c r n → n ≤ length l → fuel = length l - n →
  returns (E:=E) (retain_loop f r fuel) (λ r', retain_inv f l c r' (length l)).
Proof.
  revert r n. induction fuel as [|fuel IH]; intros r n Hi Hn Hfuel; simpl;
    rewrite (ri_len _ _ _ _ _ Hi), (ri_next _ _ _ _ _ Hi).
  - rewrite (proj2 (Nat.ltb_ge _ _)) by lia. apply returns_ret.
    by replace (length l) with n by lia.
  - rewrite (proj2 (Nat.ltb_lt _ _)) by lia.
    step_with retain_step_spec; [done|lia|]. intros r' Hi'. apply (IH _ _ Hi'); lia.
Qed.

Lemma retain_spec v l f :
  repr v l → returns (E:=E) (retain v f) (λ v', repr v' (kept f l) ∧ cap v' = cap v).
Proof.
  intros [Ha Hb Hl Hca Hcb]. unfold retain. rewrite Hl.
  step_with (retain_loop_spec f l (cap v) (mkRetain v 0 0) 0); [|lia|lia|].
  { split; simpl; auto using holds_nil. intros i [a b] _ Hi.
    split; [apply Ha|apply Hb]; by rewrite list_lookup_fmap, Hi. }
  intros r [Hn Hw Hwn Hha Hhb _ Hlen Hcap Hra Hrb]. unfold retain_drop.
  rewrite take_ge in Hw, Hha, Hhb by done.
  rewrite Hn, Hlen, (proj2 (Nat.leb_le _ _) Hwn), Nat.leb_refl. simpl.
  pose proof (holds_length _ _ Ha) as Hlc. rewrite length_fmap in Hlc.
  rewrite Nat.sub_diag.
  destruct (ptr_copy_lookup (E:=E) (aaa_cells (retain_vec r)) (length l) (written r) 0)
    as (ca & -> & Hlca & Hca'); [lia..|].
  destruct (ptr_copy_lookup (E:=E) (bbb_cells (retain_vec r)) (length l) (written r) 0)
    as (cb & -> & Hlcb & Hcb'); [lia..|].
  simpl. apply returns_ret. split; [|done].
  split; simpl; try lia.
  - intros i x Hi. rewrite Hca', decide_False by lia. by apply Hha.
  - intros i x Hi. rewrite Hcb', decide_False by lia. by apply Hhb.
Qed.
End rebuild.

(** ** Sorting *)

(** What [Ord::cmp] promises: a total order up to [Equal]. *)
Class TotalCompare {X} (compare : X → X → comparison) : Prop := {
  compare_antisym : ∀ x y, compare y x = CompOpp (compare x y);
  compare_le_trans : ∀ x y z,
    compare x y ≠ Gt → compare y z ≠ Gt → compare x z ≠ Gt;
}.

Section stable_sort_facts.
Context {X : Type} (compare : X → X → comparison).
Implicit Types l r : list X.

Lemma slice_sort_total {E} l : TotalCompare compare → slice_sort_by (E:=E) compare l = Ok (stable_sort compare l).
Proof.
  intros Hc. unfold slice_sort_by. replace (total_on compare l) with true; [done|]. symmetry.
  apply forallb_forall. intros x _. apply forallb_forall. intros y _. apply andb_true_intro. split.
  - apply bool_decide_eq_true_2, compare_antisym.
  - apply forallb_forall. intros z _. pose proof (compare_le_trans (compare:=compare) x y z) as Ht. unfold le_bool.
    destruct (compare x y), (compare y z), (compare x z); simpl; try done; by exfalso; apply Ht.
Qed.

(** The position [find_insertion_point] stops at, for a reversed prefix. *)
Fixpoint point (x : X) r : nat :=
  match r with
  | [] => 0
  | y :: r' => if less compare x y then point x r' else length r
  end.

Lemma point_le x r : point x r ≤ length r.
Proof. induction r as [|y r IH]; simpl; [done|]. case_tests; lia. Qed.

Lemma insert_stable_point l x :
  insert_stable compare l x =
  take (point x (reverse l)) l ++ x :: drop (point x (reverse l)) l.
Proof.
  unfold insert_stable. induction l as [|y l IH] using rev_ind; [done|].
  rewrite reverse_snoc. simpl. destruct (less compare x y) eqn:Hxy.
  - rewrite reverse_cons, IH.
    pose proof (point_le x (reverse l)) as Hp. rewrite length_reverse in Hp.
    rewrite take_app_le, drop_app_le by done. by rewrite <-app_assoc.
  - rewrite !reverse_cons, reverse_involutive, <-app_assoc. simpl.
    rewrite length_reverse. rewrite take_ge, drop_ge by (rewrite length_app; simpl; lia).
    by rewrite <-app_assoc.
Qed.

Lemma insert_rev_perm x r : insert_rev compare x r ≡ₚ x :: r.
Proof.
  induction r as [|y r IH]; simpl; [done|]. case_tests; [|done].
  rewrite IH. apply perm_swap.
Qed.

Lemma stable_sort_snoc l x :
  stable_sort compare (l ++ [x]) = insert_stable compare (stable_sort compare l) x.
Proof. unfold stable_sort. by rewrite foldl_app. Qed.

Lemma stable_sort_perm l : stable_sort compare l ≡ₚ l.
Proof.
  induction l as [|x l IH] using rev_ind; [done|]. rewrite stable_sort_snoc.
  unfold insert_stable. rewrite reverse_Permutation, insert_rev_perm, reverse_Permutation, IH.
  by rewrite <-Permutation_cons_append.
Qed.

Lemma length_stable_sort l : length (stable_sort compare l) = length l.
Proof. apply Permutation_length, stable_sort_perm. Qed.

Context `{!TotalCompare compare}.

Definition le_compare (x y : X) : Prop := compare x y ≠ Gt.

Lemma less_false x y : less compare x y = false → le_compare y x.
Proof.
  unfold less, le_compare. rewrite (compare_antisym x y).
  by destruct (compare x y).
Qed.
Lemma less_true x y : less compare x y = true → le_compare x y.
Proof. unfold less, le_compare. by destruct (compare x y). Qed.

Lemma insert_rev_sorted x r :
  StronglySorted (flip le_compare) r → StronglySorted (flip le_compare) (insert_rev compare x r).
Proof.
  induction 1 as [|y r Hs IH Hy]; simpl; [repeat constructor|].
  destruct (less compare x y) eqn:Hxy.
  - constructor; [done|]. rewrite insert_rev_perm. constructor; [|done].
    by apply less_true.
  - apply less_false in Hxy. constructor; [by constructor|]. constructor; [done|].
    eapply Forall_impl; [exact Hy|]. intros z Hz. simpl in *.
    by apply (compare_le_trans z y x).
Qed.

Lemma StronglySorted_reverse l :
  StronglySorted (flip le_compare) l → StronglySorted le_compare (reverse l).
Proof.
  induction 1 as [|x l Hs IH Hx]; [constructor|]. rewrite reverse_cons.
  apply StronglySorted_app. split_and!; [|done|repeat constructor].
  intros y z Hy Hz. rewrite elem_of_reverse in Hy. apply list_elem_of_singleton in Hz as ->.
  rewrite Forall_forall in Hx. by apply Hx.
Qed.

Lemma stable_sort_rev_sorted l :
  StronglySorted (flip le_compare) (reverse (stable_sort compare l)).
Proof.
  induction l as [|x l IH] using rev_ind; [constructor|].
  rewrite stable_sort_snoc. unfold insert_stable. rewrite reverse_involutive.
  by apply insert_rev_sorted.
Qed.

Lemma stable_sort_sorted l : StronglySorted le_compare (stable_sort compare l).
Proof.
  rewrite <-(reverse_involutive (stable_sort compare l)).
  apply StronglySorted_reverse, stable_sort_rev_sorted.
Qed.

(** Elements that compare equal keep their order. *)
Lemma insert_rev_filter x z r :
  filter (λ y, compare z y = Eq) (insert_rev compare x r) =
  filter (λ y, compare z y = Eq) (x :: r).
Proof.
  induction r as [|y r IH]; [done|]. simpl insert_rev.
  destruct (less compare x y) eqn:Hxy; [|done].
  rewrite filter_cons, IH, !filter_cons. unfold less in Hxy.
  repeat case_decide; try done. exfalso.
  assert (compare x y = Lt) as Hlt by (by destruct (compare x y)).
  assert (compare y x ≠ Gt) as Hyx; [|rewrite (compare_antisym x y), Hlt in Hyx; done].
  match goal with H1 : compare z y = Eq, H2 : compare z x = Eq |- _ =>
    apply (compare_le_trans y z x); [rewrite (compare_antisym z y), H1|rewrite H2]; done
  end.
Qed.

Lemma filter_reverse' (P : X → Prop) `{!∀ x, Decision (P x)} l :
  filter P (reverse l) = reverse (filter P l).
Proof.
  induction l as [|x l IH]; [done|]. rewrite reverse_cons, filter_app, IH, !filter_cons.
  case_decide; simpl; [by rewrite reverse_cons|by rewrite app_nil_r].
Qed.

Lemma stable_sort_stable l z :
  filter (λ y, compare z y = Eq) (stable_sort compare l) = filter (λ y, compare z y = Eq) l.
Proof.
  induction l as [|x l IH] using rev_ind; [done|].
  rewrite stable_sort_snoc. unfold insert_stable.
  rewrite filter_reverse', insert_rev_filter, <-filter_reverse', reverse_cons, reverse_involutive.
  rewrite !filter_app. by rewrite IH.
Qed.
(** A sorted list is left alone. *)
Lemma stable_sort_id l : Sorted le_compare l → stable_sort compare l = l.
Proof.
  induction l as [|x l IH] using rev_ind; [done|]. intros Hs.
  rewrite stable_sort_snoc, IH.
  - unfold insert_stable. destruct l as [|y l _] using rev_ind; [done|].
    rewrite reverse_snoc. simpl. assert (less compare x y = false) as ->.
    { rewrite <-app_assoc in Hs. clear IH. induction l as [|z l IHl]; simpl in Hs.
      - apply Sorted_inv in Hs as [_ Hs]. inversion Hs as [|? ? Hyx]; subst.
        unfold le_compare in Hyx. unfold less. rewrite (compare_antisym y x).
        by destruct (compare y x).
      - apply IHl. by apply Sorted_inv in Hs as [Hs _]. }
    by rewrite !reverse_cons, reverse_involutive.
  - clear IH. induction l as [|z l IHl]; [constructor|]. simpl in Hs.
    apply Sorted_inv in Hs as [Hs Hz]. constructor; [by apply IHl|].
    destruct l; [constructor|]. inversion Hz; subst. by constructor.
Qed.
End stable_sort_facts.

(** Sorting commutes with a projection the comparator factors through. *)
Lemma insert_rev_fmap {X Y} (g : X → Y) compare (x : X) r :
  g <$> insert_rev (λ a b, compare (g a) (g b)) x r = insert_rev compare (g x) (g <$> r).
Proof.
  induction r as [|y r IH]; [done|]. rewrite fmap_cons. simpl. unfold less in *. simpl.
  by destruct (compare (g x) (g y)); rewrite ?fmap_cons, ?IH.
Qed.
Lemma stable_sort_fmap {X Y} (g : X → Y) compare l :
  g <$> stable_sort (λ a b, compare (g a) (g b)) l = stable_sort compare (g <$> l).
Proof.
  induction l as [|x l IH] using rev_ind; [done|].
  rewrite fmap_app. simpl. rewrite !stable_sort_snoc. unfold insert_stable.
  by rewrite fmap_reverse, insert_rev_fmap, fmap_reverse, IH.
Qed.
#[export] Instance total_compare_proj {X Y} (g : X → Y) compare :
  TotalCompare compare → TotalCompare (λ a b, compare (g a) (g b)).
Proof.
  intros Hc. split.
  - intros x y. apply compare_antisym.
  - intros x y z. apply compare_le_trans.
Qed.

Section sort_spec.
Context {E : Type} {A B : Type} `{SizeOf A, SizeOf B, SizeOf (A * B)}.
Context (compare : A * B → A * B → comparison).
Implicit Types (v : Vec2 A B) (l p q : list (A * B)).

Lemma vec2_less_spec v l i j x y :
  repr v l → l !! i = Some x → l !! j = Some y →
  vec2_less (E:=E) compare v i j = Ok (less compare x y).
Proof.
  intros Hr Hi Hj. unfold vec2_less.
  by rewrite (get_unchecked_spec _ _ _ _ Hr Hi), (get_unchecked_spec _ _ _ _ Hr Hj).
Qed.

Lemma find_insertion_point_spec v p x q i :
  repr v (p ++ x :: q) → i ≤ length p →
  find_insertion_point (E:=E) (vec2_less compare) v (length p) i =
  Ok (point compare x (reverse (take i p))).
Proof.
  intros Hr. induction i as [|i IH]; intros Hi; simpl; [done|].
  destruct (lookup_lt_is_Some_2 p i) as [y Hy]; [lia|].
  rewrite (vec2_less_spec _ _ _ _ x y Hr)
    by (by apply list_lookup_middle || apply lookup_app_l_Some).
  simpl. rewrite (take_S_r _ _ _ Hy), reverse_snoc. simpl.
  destruct (less compare x y); [by apply IH; lia|].
  rewrite length_reverse, length_take. f_equal. lia.
Qed.

Lemma vec2_swap_shift_spec v l a b :
  repr v l → a < b → b < length l →
  returns (E:=E) (vec2_swap_shift v a b) (λ v',
    repr v' (swap_shift_list l a b) ∧ cap v' = cap v).
Proof.
  intros Hr Hab Hb. destruct Hr as [Ha Hbb Hl Hca Hcb].
  unfold vec2_swap_shift, on_slice. rewrite Hl.
  pose proof (holds_take _ _ Ha) as Hta. rewrite length_fmap in Hta.
  pose proof (holds_take _ _ Hbb) as Htb. rewrite length_fmap in Htb.
  rewrite Hta, Htb, !slice_swap_shift_spec by (rewrite ?length_fmap; lia). simpl.
  apply returns_ret. split; [|done].
  assert (∀ {X} (g : A * B → X), g <$> swap_shift_list l a b = swap_shift_list (g <$> l) a b)
    as Hmap.
  { intros X g. unfold swap_shift_list. rewrite list_lookup_fmap.
    destruct (l !! b); simpl; [|done].
    by rewrite fmap_app, fmap_cons, fmap_app, !fmap_take, !fmap_drop. }
  split; simpl; rewrite ?Hmap.
  - apply holds_app_rest.
  - apply holds_app_rest.
  - by rewrite length_swap_shift_list by lia.
  - pose proof (holds_length _ _ Ha) as Hlen. rewrite length_fmap in Hlen.
    rewrite length_app, length_fmap, length_swap_shift_list, length_fmap, length_drop by lia. lia.
  - pose proof (holds_length _ _ Hbb) as Hlen. rewrite length_fmap in Hlen.
    rewrite length_app, length_fmap, length_swap_shift_list, length_fmap, length_drop by lia. lia.
Qed.

Lemma swap_shift_middle p x q a :
  a ≤ length p →
  swap_shift_list (p ++ x :: q) a (length p) = (take a p ++ x :: drop a p) ++ q.
Proof.
  intros Ha. unfold swap_shift_list. rewrite list_lookup_middle by done.
  rewrite take_app_le, drop_app_le by done.
  rewrite take_app_length' by (rewrite length_drop; done).
  replace (S (length p)) with (length (p ++ [x])) by (rewrite length_app; simpl; lia).
  replace (p ++ x :: q) with ((p ++ [x]) ++ q) by (by rewrite <-app_assoc).
  by rewrite drop_app_length, <-app_assoc.
Qed.

Lemma insertion_step_spec v p x q :
  repr v (p ++ x :: q) →
  returns (E:=E) (insertion_step (vec2_less compare) vec2_swap_shift v (length p))
    (λ v', repr v' (insert_stable compare p x ++ q) ∧ cap v' = cap v).
Proof.
  intros Hr. unfold insertion_step.
  rewrite (find_insertion_point_spec _ _ _ _ _ Hr), take_ge by done. simpl.
  pose proof (point_le compare x (reverse p)) as Hp. rewrite length_reverse in Hp.
  rewrite (proj2 (Nat.leb_le _ _) Hp). simpl. rewrite insert_stable_point.
  destruct (point compare x (reverse p) =? length p) eqn:Heq.
  - apply Nat.eqb_eq in Heq as ->. apply returns_ret.
    rewrite take_ge, drop_ge by done. split; [|done]. by rewrite <-app_assoc.
  - apply Nat.eqb_neq in Heq.
    eapply returns_mono; [apply (vec2_swap_shift_spec _ _ _ _ Hr)|].
    + lia.
    + rewrite length_app. simpl. lia.
    + intros v'. by rewrite swap_shift_middle.
Qed.

Lemma insertion_loop_spec v p q :
  repr v (p ++ q) →
  returns (E:=E) (insertion_loop (vec2_less compare) vec2_swap_shift v (seq (length p) (length q)))
    (λ v', repr v' (foldl (insert_stable compare) p q) ∧ cap v' = cap v).
Proof.
  revert v p. induction q as [|x q IH]; intros v p Hr; simpl.
  - apply returns_ret. by rewrite app_nil_r in Hr.
  - step_with (insertion_step_spec v p x q); [done|]. intros v' [Hr' Hc'].
    specialize (IH _ _ Hr'). rewrite insert_stable_point in IH at 1.
    rewrite length_app in IH. simpl in IH. rewrite length_take, length_drop in IH.
    replace (_ `min` _ + _) with (S (length p)) in IH by lia.
    eapply returns_mono; [exact IH|]. intros v'' [Hr'' Hc'']. split; [done|congruence].
Qed.

Lemma sort_insertion_by_spec v l :
  repr v l →
  returns (E:=E) (sort_insertion_by v compare) (λ v',
    repr v' (stable_sort compare l) ∧ cap v' = cap v).
Proof.
  intros Hr. unfold sort_insertion_by, insertion_sort. rewrite (repr_len _ _ Hr).
  destruct l as [|x l]; simpl; [by apply returns_ret|].
  rewrite Nat.sub_0_r. by apply (insertion_loop_spec v [x] l).
Qed.

Lemma sort_by_spec v l :
  repr v l → fits A B (2 * length l + 8) → TotalCompare compare ∨ length l ≤ MAX_INSERTION →
  returns (E:=E) (sort_by v compare) (λ v', repr v' (stable_sort compare l)).
Proof.
  intros Hr Hf Htotal. unfold sort_by. rewrite (repr_len _ _ Hr). destruct (Nat.leb_spec (length l) MAX_INSERTION).
  - eapply returns_mono; [by apply sort_insertion_by_spec|]. by intros v' [? _].
  - destruct Htotal as [Htotal|]; [|lia]. rewrite (into_iter_spec _ _ Hr). cbn [mbind result_bind].
    rewrite slice_sort_total by done. cbn [mbind result_bind].
    eapply returns_mono; [apply (push_all_grow new [] (stable_sort compare l))|].
    + apply new_spec.
    + simpl. lia.
    + simpl. by rewrite length_stable_sort.
    + by intros v' [? _].
Qed.
End sort_spec.

(** ** Layouts *)

Section layout_facts.
Local Open Scope Z_scope.
Context {A B : Type} `{SizeOfOk A, SizeOfOk B}.

Lemma round_up_spec n al :
  0 < al → n ≤ round_up n al < n + al ∧ round_up n al mod al = 0.
Proof.
  intros Hal. unfold round_up. split; [|apply Z.mod_mul; lia].
  pose proof (Z.div_mod (n + al - 1) al ltac:(lia)).
  pose proof (Z.mod_pos_bound (n + al - 1) al Hal).
  generalize dependent ((n + al - 1) mod al). generalize ((n + al - 1) / al).
  intros q r Hqr Hr. lia.
Qed.

Lemma round_up_id n al : 0 < al → n mod al = 0 → round_up n al = n.
Proof.
  intros Hal Hn. destruct (round_up_spec n al Hal) as [[Hle Hlt] Hm].
  apply Z.mod_divide in Hn as [x ->]; [|lia]. apply Z.mod_divide in Hm as [y Hy]; [|lia].
  rewrite Hy in Hle, Hlt |- *. assert (y = x) as -> by nia. done.
Qed.

Lemma align_pos (X : Type) `{SizeOfOk X} : 0 < align_of X.
Proof. destruct align_pow2 as (k & Hk & ->). by apply Z.pow_pos_nonneg. Qed.

Lemma pow2_divide j k : 0 ≤ j ≤ k → (2 ^ j | 2 ^ k).
Proof. intros Hj. exists (2 ^ (k - j)). rewrite <-Z.pow_add_r by lia. f_equal. lia. Qed.

(** Rounding a multiple of one alignment up to another keeps the former. *)
Lemma round_up_keeps_align n :
  n mod align_of A = 0 → round_up n (align_of B) mod align_of A = 0.
Proof.
  intros Hn. pose proof (align_pos A) as Ha. pose proof (align_pos B) as Hb.
  destruct (round_up_spec n (align_of B) Hb) as [_ Hm].
  apply Z.mod_divide; [lia|]. apply Z.mod_divide in Hn as Hd; [|lia].
  apply Z.mod_divide in Hm; [|lia].
  destruct (align_pow2 (A:=A)) as (j & Hj & Hja). destruct (align_pow2 (A:=B)) as (k & Hk & Hkb).
  destruct (Z.le_ge_cases j k) as [Hjk|Hkj].
  - etrans; [|exact Hm]. rewrite Hja, Hkb. by apply pow2_divide.
  - rewrite round_up_id; [done|done|]. apply Z.mod_divide; [lia|].
    etrans; [|exact Hd]. rewrite Hja, Hkb. by apply pow2_divide.
Qed.

Lemma Layout_array_inv (X : Type) `{SizeOfOk X} c l :
  Layout_array X c = Some l →
  l = mkLayout (size_of X * c) (align_of X) ∧ size_of X * c <= isize_max.
Proof.
  unfold Layout_array, Layout_from_size_align. pose proof (align_pos X).
  destruct (_ <=? _) eqn:Hle; [|done]. apply Z.leb_le in Hle. intros [= <-].
  split; [done|lia].
Qed.

End layout_facts.

(** ** Properties *)

(** A layout accepted by [Vec2Layout::new_checked] satisfies every debug
    assertion of that function, and the two regions it describes (the [c] cells of
    type [A] that end at [offset_of_bbb], the [c] cells of type [B] that start
    there) are aligned, disjoint and inside the allocation. *)
Theorem vec2_layout_safe {A B} `{SizeOfOk A, SizeOfOk B} (c : Z) vl :
  (0 <= c)%Z →
  Vec2Layout_new_checked (A:=A) (B:=B) c = Some vl →
  (offset_of_bbb vl <= layout_size (layout vl) <= isize_max ∧
   align_of A <= layout_align (layout vl) ∧ align_of B <= layout_align (layout vl) ∧
   offset_of_bbb vl mod align_of A = 0 ∧ offset_of_bbb vl mod align_of B = 0 ∧
   0 <= offset_of_bbb vl - size_of A * c ∧
   (offset_of_bbb vl - size_of A * c) mod align_of A = 0 ∧
   offset_of_bbb vl + size_of B * c = layout_size (layout vl))%Z.
Proof.
  intros Hc. unfold Vec2Layout_new_checked.
  destruct (Layout_array A c) as [la|] eqn:Ha; simpl; [|done].
  destruct (Layout_array B c) as [lb|] eqn:Hb; simpl; [|done].
  apply (Layout_array_inv A) in Ha as [-> Ha]. apply (Layout_array_inv B) in Hb as [-> Hb].
  unfold Layout_extend, Layout_from_size_align. simpl.
  destruct (_ <=? _)%Z eqn:Hle; simpl; [|done]. intros [= <-]. simpl.
  apply Z.leb_le in Hle. pose proof (align_pos A). pose proof (align_pos B).
  pose proof (size_nonneg (A:=A)). pose proof (size_nonneg (A:=B)).
  destruct (round_up_spec (size_of A * c) (align_of B)) as [[Hr _] Hrm]; [done|].
  assert ((size_of A * c) mod align_of A = 0)%Z as Hm.
  { rewrite Z.mul_comm, Z.mul_mod, size_multiple, Z.mul_0_r by lia. by apply Z.mod_0_l; lia. }
  pose proof (round_up_keeps_align (A:=A) (B:=B) _ Hm) as Hk.
  split_and!; try done; try nia.
  rewrite Zminus_mod, Hk, Hm. by apply Z.mod_0_l; lia.
Qed.

(** Layouts used by the witnesses: a [u64], a [u32], and a pair of two words. *)
Definition size_u64 : SizeOf Z := {| size_of := 8; align_of := 8 |}%Z.
Definition size_u32 : SizeOf Z := {| size_of := 4; align_of := 4 |}%Z.
Definition size_words : SizeOf (Z * Z) := {| size_of := 16; align_of := 8 |}%Z.
Lemma size_u64_ok : SizeOfOk (H:=size_u64) Z.
Proof. split; simpl; [by exists 3%Z|done|done]. Qed.
Lemma size_u32_ok : SizeOfOk (H:=size_u32) Z.
Proof. split; simpl; [by exists 2%Z|done|done]. Qed.

Lemma vec2_layout_safe_witness :
  ∃ vl, Vec2Layout_new_checked (H:=size_u64) (H0:=size_u32) 5 = Some vl ∧
  (offset_of_bbb vl mod 8 = 0)%Z ∧ (offset_of_bbb vl + 4 * 5 = layout_size (layout vl))%Z.
Proof.
  eexists. split; [reflexivity|].
  pose proof (vec2_layout_safe (A:=Z) (B:=Z) (H:=size_u64) (H1:=size_u32)
    (H0:=size_u64_ok) (H2:=size_u32_ok) 5 _ ltac:(lia) eq_refl) as HH.
  split; apply HH.
Defined.

(** The operations of a [Vec2] as requests, with what each returns. *)
Inductive vec2_op (A B : Type) : Type :=
| OpPush (a : A) (b : B)
| OpPop
| OpGet (i : nat)
| OpSet (i : nat) (ab : A * B)
| OpRemove (i : nat)
| OpClear
| OpTruncate (n : nat)
| OpReserve (n : nat)
| OpShrinkToFit
| OpRetain (f : A → B → bool * (A * B))
| OpSortBy (compare : A * B → A * B → comparison)
| OpIter.
Arguments OpPush {A B}. Arguments OpPop {A B}. Arguments OpGet {A B}.
Arguments OpSet {A B}. Arguments OpRemove {A B}. Arguments OpClear {A B}.
Arguments OpTruncate {A B}. Arguments OpReserve {A B}. Arguments OpShrinkToFit {A B}.
Arguments OpRetain {A B}. Arguments OpSortBy {A B}. Arguments OpIter {A B}.

Section refinement.
Context {A B : Type} `{SizeOf A, SizeOf B, SizeOf (A * B)}.

(** What the implementation does. *)
Definition vec2_exec (v : Vec2 A B) (op : vec2_op A B) : comp (list (A * B) * Vec2 A B) :=
  match op with
  | OpPush a b => v ← push v a b; Ok ([], v)
  | OpPop => '(o, v) ← pop v; Ok (option_list o, v)
  | OpGet i => o ← get v i; Ok (option_list o, v)
  | OpSet i cd => o ← get_mut v i; Ok (match o with Some (ab, set) => ([ab], set cd) | None => ([], v) end)
  | OpRemove i => '(ab, v) ← remove v i; Ok ([ab], v)
  | OpClear => Ok ([], clear v)
  | OpTruncate n => Ok ([], truncate v n)
  | OpReserve n => v ← reserve v n; Ok ([], v)
  | OpShrinkToFit => v ← shrink_to_fit v; Ok ([], v)
  | OpRetain f => v ← retain v f; Ok ([], v)
  | OpSortBy compare => v ← sort_by v compare; Ok ([], v)
  | OpIter => l ← iter v; Ok (l, v)
  end.

(** What a plain list of pairs does; [None] is a panic. *)
Definition list_exec (l : list (A * B)) (op : vec2_op A B) :
    option (list (A * B) * list (A * B)) :=
  match op with
  | OpPush a b => Some ([], l ++ [(a, b)])
  | OpPop => Some (option_list (list.last l), take (length l - 1) l)
  | OpGet i => Some (option_list (l !! i), l)
  | OpSet i cd => Some (option_list (l !! i), <[i := cd]> l)
  | OpRemove i => ab ← l !! i; Some ([ab], delete i l)
  | OpClear => Some ([], [])
  | OpTruncate n => Some ([], take n l)
  | OpReserve n => Some ([], l)
  | OpShrinkToFit => Some ([], l)
  | OpRetain f => Some ([], kept f l)
  | OpSortBy compare => Some ([], stable_sort compare l)
  | OpIter => Some (l, l)
  end.

(** The capacity an operation may need. *)
Definition op_demand (v : Vec2 A B) (op : vec2_op A B) : nat :=
  2 * (len v + cap v) + 8 + match op with OpReserve n => n | _ => 1 end.

Lemma can_reserve_fits v l n :
  repr v l → fits A B (2 * (len v + cap v) + 8 + n) → can_reserve v n.
Proof.
  intros Hr [Hu Hf]. pose proof (MIN_NON_ZERO_CAP_bounds (A:=A) (B:=B)).
  right. split; [lia|]. apply Hf. unfold grown_cap. lia.
Qed.

(** Sorting more than [MAX_INSERTION] pairs is left to the standard library, which asks for a total order. *)
Definition vec2_op_ok (l : list (A * B)) (op : vec2_op A B) : Prop :=
  match op with OpSortBy compare => TotalCompare compare ∨ length l ≤ MAX_INSERTION | _ => True end.


(** Sorting a [Vec2] by a comparator that is a total order, on either side of
    the insertion-sort threshold, yields a sorted permutation of the entries in
    which entries that compare equal keep their order. *)
Theorem vec2_sort_by_sorts (v : Vec2 A B) l (compare : A * B → A * B → comparison)
    `{!TotalCompare compare} :
  repr v l → fits A B (2 * length l + 8) →
  ∃ v' l', sort_by (E:=Empty_set) v compare = Ok v' ∧ repr v' l' ∧ l' ≡ₚ l ∧
    StronglySorted (λ x y, compare x y ≠ Gt) l' ∧
    ∀ z, filter (λ y, compare z y = Eq) l' = filter (λ y, compare z y = Eq) l.
Proof.
  intros Hr Hf. destruct (sort_by_spec (E:=Empty_set) compare v l Hr Hf (or_introl _)) as (v' & Hv & Hr').
  exists v', (stable_sort compare l). split_and!; [done|done|..].
  - apply stable_sort_perm.
  - apply (stable_sort_sorted compare).
  - apply (stable_sort_stable compare).
Qed.
End refinement.

(** The capacities up to a concrete bound fit, by computation. *)
Lemma fits_witness : fits (H:=size_u64) (H0:=size_u32) Z Z 40.
Proof.
  split; [unfold usize_max, u64_max; lia|]. intros c Hc. unfold alloc_ok, Vec2Layout_new_checked,
    Layout_array, Layout_from_size_align, Layout_extend. simpl.
  do 41 (destruct c as [|c]; [vm_compute; by eexists|]). lia.
Defined.

Definition witness_vec : Vec2 Z Z :=
  mkVec2 [Some 3; Some 1; Some 2; None]%Z [Some 30; Some 10; Some 20; None]%Z 3 4.

Lemma witness_vec_repr : repr witness_vec [(3, 30); (1, 10); (2, 20)]%Z.
Proof.
  split; try done; intros [|[|[|i]]] x Hx; simpl in *; simplify_eq/=; done.
Defined.


#[export] Instance fst_compare_total : TotalCompare (λ x y : Z * Z, (x.1 ?= y.1)%Z).
Proof.
  split.
  - intros x y. apply Z.compare_antisym.
  - intros x y z Hxy Hyz. change (x.1 ≤ z.1)%Z. change (x.1 ≤ y.1)%Z in Hxy.
    change (y.1 ≤ z.1)%Z in Hyz. lia.
Qed.

Lemma vec2_sort_by_sorts_witness :
  ∃ v' l', sort_by (H:=size_u64) (H0:=size_u32) (H1:=size_words) (E:=Empty_set)
      witness_vec (λ x y, (x.1 ?= y.1)%Z) = Ok v' ∧ repr v' l' ∧ l' ≡ₚ [(3, 30); (1, 10); (2, 20)]%Z.
Proof.
  destruct (vec2_sort_by_sorts (H:=size_u64) (H0:=size_u32) (H1:=size_words)
    witness_vec _ (λ x y, (x.1 ?= y.1)%Z) witness_vec_repr) as (v' & l' & ? & ? & ? & _).
  { eapply fits_le; [exact fits_witness|]. vm_compute. lia. }
  eauto.
Defined.
