(* ===== verification/Hashing.v ===== *)
(** [starlark_map/src/hash_value.rs], [mix_u32.rs], [hashed.rs] and
    [vec_map/simd.rs]: the 32-bit hashes kept next to the keys, their promotion to the
    64-bit hashes of the hash table, and the linear scan over stored hashes with its
    vectorised variant.  [hashbrown::HashTable], which is not part of the repository,
    is the class [HashTable]; [HashTableOk] states what its documentation promises and
    [list_table] is a table for which the promises hold. *)

From S2P Require Import Prelude.

(** * Hash values *)

(** [StarlarkHashValue(u32)]. *)
Abbreviation StarlarkHashValue := Z (only parsing).

Section hash_value.
Local Open Scope Z_scope.

Definition wrapping_mul_u64 (a b : Z) : Z := as_u64 (a * b).

Definition mix_u32 (n : Z) : Z := wrapping_mul_u64 n 0x9e3779b97f4a7c15.

Definition hash_64 (h : Z) : StarlarkHashValue :=
  let h := Z.lxor h (Z.shiftr h 33) in
  let h := wrapping_mul_u64 h 0xff51afd7ed558ccd in
  let h := Z.lxor h (Z.shiftr h 33) in
  let h := wrapping_mul_u64 h 0xc4ceb9fe1a85ec53 in
  let h := Z.lxor h (Z.shiftr h 33) in
  as_u32 h.

Definition promote (h : StarlarkHashValue) : Z := mix_u32 h.
End hash_value.

Record Hashed (K : Type) := mkHashed { hash : StarlarkHashValue; key : K }.
Arguments mkHashed {K}.
Arguments hash {K}.
Arguments key {K}.

(** [Hashed::new]: [hash_of] is the key's [Hash] implementation run through
    [StarlarkHasher]. *)
Definition Hashed_new {K} (hash_of : K → StarlarkHashValue) (k : K) : Hashed K :=
  mkHashed (hash_of k) k.

(** * Scanning an array of hashes *)

(** The [while] loop from position [i]; the list is what is left of the array. *)
Fixpoint scan_hashes (rest : list Z) (hash : Z) (i : nat) : option nat :=
  match rest with
  | [] => None
  | x :: rest => if (x =? hash)%Z then Some i else scan_hashes rest hash (i + 1)
  end.
Definition find_hash_in_array_without_simd (array : list Z) (hash : Z) : option nat :=
  scan_hashes array hash 0.

Definition LANES : nat := 4.
(** [array.get_unchecked(i..j)] and [array.get_unchecked(i..)]: out of range they are undefined; [T::from_slice] reads the
    lanes of a vector and panics on a slice that is too short. *)
Definition hashes_range (array : list Z) (i j : nat) : comp (list Z) :=
  if (i <=? j) && (j <=? length array) then Ok (take (j - i) (drop i array)) else UB.
Definition hashes_from (array : list Z) (i : nat) : comp (list Z) := hashes_range array i (length array).
Definition from_slice (slice : list Z) : comp (list Z) :=
  _ ← assert (LANES <=? length slice); Ok (take LANES slice).
(** [simd_eq(hash)], [any], [to_bitmask().trailing_zeros()]. *)
Definition simd_eq (lanes : list Z) (hash : Z) : list bool := (λ x, (x =? hash)%Z) <$> lanes.
Definition simd_any (mask : list bool) : bool := existsb id mask.
Definition trailing_zeros (mask : list bool) : nat := default (length mask) (find_index id mask).

(** The loop over blocks of four; [fuel] bounds the number of blocks. *)
Fixpoint simd_loop (array : list Z) (hash : Z) (i fuel : nat) : comp (option nat) :=
  match fuel with
  | 0 => Panic
  | S fuel =>
    if i + LANES <? length array then
      slice ← hashes_range array i (i + LANES);
      next_hashes ← from_slice slice;
      let eq := simd_eq next_hashes hash in
      if simd_any eq then Ok (Some (i + trailing_zeros eq))
      else simd_loop array hash (i + LANES) fuel
    else
      start ← usize_sub (length array) LANES;
      _ ← assert (start <=? i);
      _ ← assert (i <? length array);
      slice ← hashes_from array start;
      next_hashes ← from_slice slice;
      let eq := simd_eq next_hashes hash in
      if simd_any eq then Ok (Some (start + trailing_zeros eq))
      else Ok None
  end.

Definition find_hash_in_array_simd (array : list Z) (hash : Z) : comp (option nat) :=
  if length array <? LANES then Ok (find_hash_in_array_without_simd array hash)
  else simd_loop array hash 0 (S (length array)).

(** [cfg(rust_nightly)] selects the vectorised scan and a larger index threshold. *)
Class Toolchain := { rust_nightly : bool }.

Definition find_hash_in_array `{Toolchain} (array : list Z) (hash : Z) : comp (option nat) :=
  if rust_nightly then find_hash_in_array_simd array hash
  else Ok (find_hash_in_array_without_simd array hash).

(** * hashbrown's [HashTable] *)

(** A table stores values under 64-bit hashes; [ht_entries] lists them in iteration
    order.  Closures are computations, so that a closure that panics or reads out of
    range shows. *)
Class HashTable (X T : Type) := {
  ht_entries : T → list (Z * X);
  (** How many values fit before the table has to grow, and at all. *)
  ht_capacity : T → nat;
  ht_max : N;
  ht_with_capacity : nat → comp T;
  ht_find : T → Z → (X → comp bool) → comp (option X);
  (** [find_entry] followed by [OccupiedEntry::remove]. *)
  ht_find_remove : T → Z → (X → comp bool) → comp (option (X * T));
  (** [find_mut], [find_entry] and, on [RawTable], [find]: a value, the table with another
      value in its place, and the table without it. *)
  ht_find_mut : T → Z → (X → comp bool) → comp (option (X * (X → T) * T));
  ht_insert_unique : T → Z → X → (X → comp Z) → comp T;
  ht_reserve : T → nat → (X → comp Z) → comp T;
  ht_iter_mut : T → (X → comp X) → comp T;
  (** [retain] with a closure that keeps a state, may change the value and returns
      [None] for a value to drop. *)
  ht_retain : ∀ S, T → S → (S → X → comp (S * option X)) → comp (S * T);
  ht_clear : T → T;
}.

Fixpoint entries_map {X} (f : X → comp X) (l : list (Z * X)) : comp (list (Z * X)) :=
  match l with
  | [] => Ok []
  | (h, v) :: l => v ← f v; l ← entries_map f l; Ok ((h, v) :: l)
  end.
Fixpoint entries_retain {X S} (s : S) (f : S → X → comp (S * option X))
    (l : list (Z * X)) : comp (S * list (Z * X)) :=
  match l with
  | [] => Ok (s, [])
  | (h, v) :: l =>
    '(s, o) ← f s v;
    '(s, l) ← entries_retain s f l;
    Ok (s, match o with Some v => (h, v) :: l | None => l end)
  end.

Class HashTableOk (X T : Type) `{HashTable X T} : Prop := {
  with_capacity_ok n :
    (N.of_nat n ≤ ht_max)%N →
    returns (ht_with_capacity n) (λ t, ht_entries t = [] ∧ n ≤ ht_capacity t);
  (** [find] may compare values stored under another hash, and finds a value stored
      under [h] that [eq] accepts. *)
  find_ok t h eq :
    (∀ h' v, (h', v) ∈ ht_entries t → is_ok (eq v) = true) →
    returns (ht_find t h eq) (λ o, match o with
      | Some v => (∃ h', (h', v) ∈ ht_entries t) ∧ eq v = Ok true
      | None => ∀ v, (h, v) ∈ ht_entries t → eq v = Ok false
      end);
  find_remove_ok t h eq :
    (∀ h' v, (h', v) ∈ ht_entries t → is_ok (eq v) = true) →
    returns (ht_find_remove t h eq) (λ o, match o with
      | Some (v, t') => ∃ h', ht_entries t ≡ₚ (h', v) :: ht_entries t' ∧ eq v = Ok true
      | None => ∀ v, (h, v) ∈ ht_entries t → eq v = Ok false
      end);
  find_mut_ok t h eq :
    (∀ h' v, (h', v) ∈ ht_entries t → is_ok (eq v) = true) →
    returns (ht_find_mut t h eq) (λ o, match o with
      | Some (v, set, removed) => eq v = Ok true ∧
          ∃ h', ht_entries t ≡ₚ (h', v) :: ht_entries removed ∧
            ∀ w, ht_entries (set w) ≡ₚ (h', w) :: ht_entries removed
      | None => ∀ v, (h, v) ∈ ht_entries t → eq v = Ok false
      end);
  (** Inserting with room to spare does not call the hasher. *)
  insert_room_ok t h v hasher :
    length (ht_entries t) < ht_capacity t →
    returns (ht_insert_unique t h v hasher) (λ t',
      ht_entries t' ≡ₚ (h, v) :: ht_entries t ∧ ht_capacity t ≤ ht_capacity t');
  (** Otherwise the hasher must give back the stored hashes. *)
  insert_grow_ok t h v hasher :
    (N.of_nat (length (ht_entries t)) < ht_max)%N →
    (∀ h' v', (h', v') ∈ ht_entries t → hasher v' = Ok h') →
    returns (ht_insert_unique t h v hasher) (λ t',
      ht_entries t' ≡ₚ (h, v) :: ht_entries t);
  reserve_ok t n hasher :
    (N.of_nat (length (ht_entries t) + n) ≤ ht_max)%N →
    (∀ h' v', (h', v') ∈ ht_entries t → hasher v' = Ok h') →
    returns (ht_reserve t n hasher) (λ t', ht_entries t' ≡ₚ ht_entries t);
  iter_mut_ok t f l :
    entries_map f (ht_entries t) = Ok l →
    returns (ht_iter_mut t f) (λ t', ht_entries t' ≡ₚ l);
  retain_ok S t (s s' : S) f l :
    entries_retain s f (ht_entries t) = Ok (s', l) →
    returns (ht_retain S t s f) (λ '(s'', t'), s'' = s' ∧ ht_entries t' ≡ₚ l);
  (** Clearing keeps the allocated memory. *)
  clear_ok t :
    ht_entries (ht_clear t) = [] ∧ length (ht_entries t) ≤ ht_capacity (ht_clear t);
}.

(** * The list table *)

Record list_table (X : Type) := mkListTable { lt_entries : list (Z * X); lt_capacity : nat }.
Arguments mkListTable {X}.
Arguments lt_entries {X}.
Arguments lt_capacity {X}.

Section list_table.
Context {X : Type}.
Implicit Types t : list_table X.

(** The first match, between what precedes and what follows it. *)
Fixpoint lt_split (before rest : list (Z * X)) (h : Z) (eq : X → comp bool) :
    comp (option (list (Z * X) * (Z * X) * list (Z * X))) :=
  match rest with
  | [] => Ok None
  | (h', v) :: rest =>
    b ← if (h =? h')%Z then eq v else Ok false;
    if b : bool then Ok (Some (before, (h', v), rest))
    else lt_split (before ++ [(h', v)]) rest h eq
  end.

Definition lt_find (t : list_table X) (h : Z) (eq : X → comp bool) : comp (option X) :=
  o ← lt_split [] (lt_entries t) h eq;
  Ok (match o with Some (_, (_, v), _) => Some v | None => None end).
Definition lt_find_remove (t : list_table X) (h : Z) (eq : X → comp bool) :
    comp (option (X * list_table X)) :=
  o ← lt_split [] (lt_entries t) h eq;
  Ok (match o with
      | Some (p, (_, v), q) => Some (v, mkListTable (p ++ q) (lt_capacity t))
      | None => None
      end).
Definition lt_find_mut (t : list_table X) (h : Z) (eq : X → comp bool) :
    comp (option (X * (X → list_table X) * list_table X)) :=
  o ← lt_split [] (lt_entries t) h eq;
  Ok (match o with
      | Some (p, (h', v), q) =>
        Some (v, λ w, mkListTable (p ++ (h', w) :: q) (lt_capacity t),
              mkListTable (p ++ q) (lt_capacity t))
      | None => None
      end).
Definition lt_iter_mut (t : list_table X) (f : X → comp X) : comp (list_table X) :=
  l ← entries_map f (lt_entries t); Ok (mkListTable l (lt_capacity t)).
Definition lt_retain S (t : list_table X) (s : S) (f : S → X → comp (S * option X)) :
    comp (S * list_table X) :=
  '(s, l) ← entries_retain s f (lt_entries t); Ok (s, mkListTable l (lt_capacity t)).

#[global] Instance list_table_ops : HashTable X (list_table X) := {|
  ht_entries := lt_entries;
  ht_capacity := lt_capacity;
  ht_max := 2 ^ 62;
  ht_with_capacity n := Ok (mkListTable [] n);
  ht_find := lt_find;
  ht_find_remove := lt_find_remove;
  ht_find_mut := lt_find_mut;
  ht_insert_unique t h v hasher :=
    Ok (mkListTable ((h, v) :: lt_entries t)
          (Nat.max (lt_capacity t) (S (length (lt_entries t)))));
  ht_reserve t n hasher :=
    Ok (mkListTable (lt_entries t) (Nat.max (lt_capacity t) (length (lt_entries t) + n)));
  ht_iter_mut := lt_iter_mut;
  ht_retain := lt_retain;
  ht_clear t := mkListTable [] (Nat.max (lt_capacity t) (length (lt_entries t)));
|}.
End list_table.

(** * Facts *)

Lemma scan_hashes_find rest hash i :
  scan_hashes rest hash i = (λ j, i + j) <$> find_index (λ x, (x =? hash)%Z) rest.
Proof.
  revert i. induction rest as [|x rest IH]; intros i; simpl; [done|].
  destruct (x =? hash)%Z; simpl; [by rewrite Nat.add_0_r|]. rewrite IH.
  destruct (find_index _ rest); simpl; [f_equal; lia|done].
Qed.

Lemma find_hash_scalar_find array hash :
  find_hash_in_array_without_simd array hash = find_index (λ x, (x =? hash)%Z) array.
Proof.
  unfold find_hash_in_array_without_simd. rewrite scan_hashes_find.
  by destruct (find_index _ array).
Qed.

Lemma simd_any_spec lanes hash :
  simd_any (simd_eq lanes hash) = match find_index (λ x, (x =? hash)%Z) lanes with
    | Some _ => true | None => false end.
Proof.
  unfold simd_any, simd_eq.
  induction lanes as [|x lanes IH]; [done|]. rewrite fmap_cons. simpl.
  destruct (x =? hash)%Z; [done|]. rewrite IH. by destruct (find_index _ lanes).
Qed.

Lemma trailing_zeros_spec lanes hash j :
  find_index (λ x, (x =? hash)%Z) lanes = Some j →
  trailing_zeros (simd_eq lanes hash) = j.
Proof. intros Hj. unfold trailing_zeros, simd_eq. rewrite find_index_fmap. unfold id. by rewrite Hj. Qed.

(** First match of a window that starts after [i] hash-free elements. *)
Lemma find_index_window (p : Z → bool) array i j n :
  (∀ k x, k < i → array !! k = Some x → p x = false) → n ≤ i →
  find_index p (drop n array) = Some j → find_index p array = Some (n + j).
Proof.
  intros Hi Hn Hj. apply find_index_Some in Hj as [(x & Hx & Hp) Hlt].
  apply find_index_Some. rewrite lookup_drop in Hx. split; [by exists x|].
  intros k y Hk Hy. destruct (decide (k < i)); [by eapply Hi|].
  apply (Hlt (k - n)); [lia|]. rewrite lookup_drop. by replace (n + (k - n)) with k by lia.
Qed.

Lemma find_index_take_drop (p : Z → bool) array i n j :
  find_index p (take n (drop i array)) = Some j → find_index p (drop i array) = Some j.
Proof.
  intros Hj. pose proof (find_index_lt _ _ _ Hj) as Hl. rewrite length_take in Hl.
  apply find_index_Some in Hj as [(x & Hx & Hp) Hlt].
  apply find_index_Some. split.
  - exists x. by rewrite lookup_take_lt in Hx by lia.
  - intros k y Hk Hy. apply (Hlt k); [done|]. by rewrite lookup_take_lt by lia.
Qed.

(** A block within the array is read. *)
Lemma block_read array i : i + LANES ≤ length array →
  (slice ← hashes_range array i (i + LANES); from_slice slice) = Ok (take LANES (drop i array)).
Proof.
  intros Hi. unfold hashes_range. rewrite !(proj2 (Nat.leb_le _ _)) by lia. cbn [andb mbind result_bind].
  replace (i + LANES - i) with LANES by lia. unfold from_slice.
  rewrite length_take, length_drop, (proj2 (Nat.leb_le _ _)) by lia. cbn [assert mbind result_bind].
  by rewrite take_take, Nat.min_id.
Qed.
Lemma last_block_read array : LANES ≤ length array →
  (slice ← hashes_from array (length array - LANES); from_slice slice) = Ok (drop (length array - LANES) array).
Proof.
  intros Hl. unfold hashes_from. replace (length array) with (length array - LANES + LANES) at 2 by lia.
  rewrite block_read by lia. by rewrite take_ge by (rewrite length_drop; lia).
Qed.
Lemma read_bind (slice : comp (list Z)) {B} (k : list Z → comp B) r :
  (slice ← slice; from_slice slice) = Ok r → (slice ← slice; lanes ← from_slice slice; k lanes) = k r.
Proof. destruct slice as [x|[]|f]; cbn [mbind result_bind]; [|done]. intros Hx. by rewrite Hx. Qed.

Lemma simd_loop_spec array hash i fuel :
  LANES ≤ length array → length array ≤ i + LANES * fuel → i < length array →
  (∀ k x, k < i → array !! k = Some x → (x =? hash)%Z = false) →
  simd_loop array hash i fuel = Ok (find_index (λ x, (x =? hash)%Z) array).
Proof.
  revert i. induction fuel as [|fuel IH]; intros i Hlen Hfuel Hi Hno; [lia|].
  cbn [simd_loop]. destruct (i + LANES <? length array) eqn:Hlt.
  - apply Nat.ltb_lt in Hlt. rewrite (read_bind _ _ _ (block_read array i ltac:(lia))), simd_any_spec.
    destruct (find_index _ (take LANES (drop i array))) as [j|] eqn:Hj.
    + rewrite (trailing_zeros_spec _ _ _ Hj).
      by rewrite (find_index_window _ array i j i) by eauto using find_index_take_drop.
    + apply IH; [done|lia|done|]. intros k x Hk Hx. destruct (decide (k < i)); [by eapply Hno|].
      rewrite find_index_None in Hj. apply (Hj (k - i)).
      rewrite lookup_take_lt, lookup_drop by lia. by replace (i + (k - i)) with k by lia.
  - apply Nat.ltb_ge in Hlt. unfold usize_sub.
    rewrite (proj2 (Nat.leb_le LANES _)) by done. cbn [mbind result_bind].
    rewrite (proj2 (Nat.leb_le _ i)), (proj2 (Nat.ltb_lt _ _)) by lia. cbn [assert mbind result_bind].
    rewrite (read_bind _ _ _ (last_block_read array Hlen)), simd_any_spec.
    destruct (find_index _ (drop (length array - LANES) array)) as [j|] eqn:Hj.
    + rewrite (trailing_zeros_spec _ _ _ Hj).
      by rewrite (find_index_window _ array i j (length array - LANES)) by (done || lia).
    + symmetry. f_equal. apply find_index_None. intros k x Hx.
      destruct (decide (k < i)); [by eapply Hno|].
      rewrite find_index_None in Hj. apply (Hj (k - (length array - LANES))).
      rewrite lookup_drop. replace (_ + _) with k by lia. done.
Qed.

Lemma find_hash_in_array_find `{Toolchain} array hash :
  find_hash_in_array array hash = Ok (find_index (λ x, (x =? hash)%Z) array).
Proof.
  unfold find_hash_in_array. destruct rust_nightly; [|by rewrite find_hash_scalar_find].
  unfold find_hash_in_array_simd. destruct (length array <? LANES) eqn:Hl.
  - by rewrite find_hash_scalar_find.
  - apply Nat.ltb_ge in Hl. apply simd_loop_spec; unfold LANES in *; (done || lia).
Qed.

Lemma mul_mod_inverse (x c d m : Z) :
  ((m =? 0) = false → ((c * d) mod m =? 1) = true → 0 <= x < m →
   ((x * c) mod m * d) mod m = x)%Z.
Proof.
  intros Hm Hcd Hx. apply Z.eqb_neq in Hm. apply Z.eqb_eq in Hcd.
  rewrite Z.mul_mod_idemp_l, <-Z.mul_assoc by done.
  rewrite <-Z.mul_mod_idemp_r, Hcd, Z.mul_1_r by done. by apply Z.mod_small.
Qed.

(** The list table keeps hashbrown's promises. *)
Lemma lt_split_spec {X} p (q : list (Z * X)) h eq :
  (∀ h' v, (h', v) ∈ q → is_ok (eq v) = true) →
  returns (lt_split p q h eq) (λ o, match o with
    | Some (p', (h', v), q') => p ++ q = p' ++ (h', v) :: q' ∧ eq v = Ok true
    | None => ∀ v, (h, v) ∈ q → eq v = Ok false
    end).
Proof.
  revert p. induction q as [|[h' v] q IH]; intros p Heq; simpl.
  { apply returns_ret. intros v Hv. by apply elem_of_nil in Hv. }
  pose proof (Heq h' v ltac:(by left)) as Hv.
  destruct (if (h =? h')%Z then eq v else Ok false) as [[|]|[]|f] eqn:Hb; cbn [mbind result_bind].
  - apply returns_ret. split; [done|]. by destruct (h =? h')%Z.
  - destruct (IH (p ++ [(h', v)])) as (o & Ho & HQ); [intros; eapply Heq; by right|].
    exists o. split; [done|].
    destruct o as [[[p' [h'' w]] q']|]; [by rewrite <-app_assoc in HQ|].
    intros w [[= -> ->]|Hw]%elem_of_cons; [|by apply HQ]. by rewrite Z.eqb_refl in Hb.
  - exfalso. destruct (h =? h')%Z; [|done]. by rewrite Hb in Hv.
Qed.

Lemma lt_split_perm {X} (t p q : list (Z * X)) e : t = p ++ e :: q → t ≡ₚ e :: (p ++ q).
Proof. intros ->. symmetry. apply Permutation_middle. Qed.

#[global] Instance list_table_ok X : HashTableOk X (list_table X).
Proof.
  split; simpl.
  - intros n _. by apply returns_ret.
  - intros t h eq Heq. unfold lt_find. step_with lt_split_spec; [exact Heq|]. intros o HQ.
    apply returns_ret. destruct o as [[[p [h' v]] q]|]; simpl; [|done].
    destruct HQ as [Hl Hv]. simpl in Hl. split; [|done]. exists h'. rewrite Hl.
    apply elem_of_app. right. by left.
  - intros t h eq Heq. unfold lt_find_remove. step_with lt_split_spec; [exact Heq|]. intros o HQ.
    apply returns_ret. destruct o as [[[p [h' v]] q]|]; simpl; [|done].
    destruct HQ as [Hl%lt_split_perm Hv]. by exists h'.
  - intros t h eq Heq. unfold lt_find_mut. step_with lt_split_spec; [exact Heq|]. intros o HQ.
    apply returns_ret. destruct o as [[[p [h' v]] q]|]; simpl; [|done].
    destruct HQ as [Hl%lt_split_perm Hv]. split; [done|]. exists h'. split; [done|].
    intros w. symmetry. apply Permutation_middle.
  - intros t h v hasher Hlt. apply returns_ret. simpl. split; [done|lia].
  - intros t h v hasher _ _. by apply returns_ret.
  - intros t n hasher _ _. by apply returns_ret.
  - intros t f l Hl. unfold lt_iter_mut. rewrite Hl. by apply returns_ret.
  - intros S t s s' f l Hl. unfold lt_retain. rewrite Hl. by apply returns_ret.
  - intros t. split; [done|lia].
Qed.

(** * Properties *)

(** C40: The vectorised scan over the stored hashes, which compares four hashes at a
    time and overlaps its last block, returns exactly what the scalar loop returns, the first
    match: no debug assertion fails, no block is read past the end of the array, the start of the last
    block is not negative, and the loop ends. *)
Theorem find_hash_simd_equiv (array : list Z) (hash : Z) :
  find_hash_in_array_simd array hash = Ok (find_hash_in_array_without_simd array hash).
Proof.
  rewrite find_hash_scalar_find.
  by apply (find_hash_in_array_find (H:={| rust_nightly := true |})).
Qed.

(** Promoting 32-bit hashes to the 64-bit hashes of the index loses nothing:
    different hashes have different promotions. *)
Theorem promote_injective (a b : StarlarkHashValue) :
  (0 <= a <= u32_max)%Z → (0 <= b <= u32_max)%Z → promote a = promote b → a = b.
Proof.
  unfold promote, mix_u32, wrapping_mul_u64, as_u64, u32_max. intros Ha Hb Hab.
  assert (∀ x, (0 <= x <= 4294967295)%Z →
    ((x * 0x9e3779b97f4a7c15) mod 2 ^ 64 * 0xf1de83e19937733d) mod 2 ^ 64 = x)%Z as Hinv.
  { intros x Hx. apply mul_mod_inverse; [by vm_compute..|lia]. }
  rewrite <-(Hinv a Ha), <-(Hinv b Hb). by rewrite Hab.
Qed.

Lemma promote_injective_witness :
  (7 = 3 + 4)%Z.
Proof. apply promote_injective; [unfold u32_max; lia..|by vm_compute]. Defined.
