(* ===== verification/TableMap.v ===== *)
(** Hash tables as finite maps: a table whose elements stand for the pairs of a finite map,
    each stored under the hash of its key.  [UnorderedMap.v] and [Symbol.v] share these
    lemmas on hashbrown's [find], [find_mut] and [insert_unique]. *)

From S2P Require Import Prelude Hashing.

Section table_map.
Context {T X K V : Type} `{Countable K} `{HashTableOk X T}.
(** The hash and the element for a pair. *)
Context (stored : K * V → Z * X).
Implicit Types (t : T) (M : gmap K V) (eq : X → comp bool).

Definition table_models t M : Prop := ht_entries t ≡ₚ stored <$> map_to_list M.

(** A search that tests for the key [k], under its hash. *)
Definition searches M (k : K) (h : Z) eq : Prop :=
  (∀ v, (stored (k, v)).1 = h) ∧
  ∀ k' v, M !! k' = Some v → eq (stored (k', v)).2 = Ok (bool_decide (k = k')).

Lemma table_entry t M h x :
  table_models t M → (h, x) ∈ ht_entries t ↔ ∃ k v, M !! k = Some v ∧ stored (k, v) = (h, x).
Proof.
  intros ->. rewrite list_elem_of_fmap. split.
  - intros ([k v] & Hx & Hin%elem_of_map_to_list). by exists k, v.
  - intros (k & v & Hk%elem_of_map_to_list & Hx). by exists (k, v).
Qed.

Lemma table_size t M : table_models t M → length (ht_entries t) = size M.
Proof. intros ->. by rewrite length_fmap, length_map_to_list. Qed.

Lemma table_empty t : ht_entries t = [] → table_models t ∅.
Proof. unfold table_models. intros ->. by rewrite map_to_list_empty. Qed.

Lemma table_added t t' M k v :
  M !! k = None → table_models t M → ht_entries t' ≡ₚ stored (k, v) :: ht_entries t →
  table_models t' (<[k := v]> M).
Proof.
  unfold table_models. intros Hk Ht ->. by rewrite Ht, map_to_list_insert.
Qed.

Lemma searches_ok t M k h eq :
  table_models t M → searches M k h eq → ∀ h' x, (h', x) ∈ ht_entries t → is_ok (eq x) = true.
Proof.
  intros Ht [_ Heq] h' x (k' & v & Hk & Hx)%(table_entry t M); [|done].
  pose proof (Heq k' v Hk) as He. rewrite Hx in He. simpl in He. by rewrite He.
Qed.

Lemma searches_none t M k h eq :
  table_models t M → searches M k h eq → (∀ x, (h, x) ∈ ht_entries t → eq x = Ok false) →
  M !! k = None.
Proof.
  intros Ht [Hh Heq] Hno. apply eq_None_not_Some. intros [v Hv].
  pose proof (Heq k v Hv) as He. rewrite bool_decide_eq_true_2 in He by done.
  rewrite Hno in He; [done|]. apply (table_entry t M); [done|]. exists k, v. split; [done|].
  rewrite <-(Hh v). by destruct (stored (k, v)).
Qed.

Lemma table_find t M k h eq :
  table_models t M → searches M k h eq →
  returns (ht_find t h eq) (λ o, match o with
    | Some x => ∃ v, M !! k = Some v ∧ x = (stored (k, v)).2
    | None => M !! k = None
    end).
Proof.
  intros Ht Hs. eapply returns_mono; [by apply find_ok; eapply searches_ok|]. intros [x|].
  - intros [[h' Hin] Hx]. apply (table_entry t M) in Hin as (k' & v & Hk & Hx'); [|done].
    destruct Hs as [_ Heq]. pose proof (Heq k' v Hk) as He. rewrite Hx' in He. simpl in He.
    rewrite Hx in He. injection He as He. symmetry in He. apply bool_decide_eq_true in He as <-.
    exists v. by rewrite Hx'.
  - by apply searches_none.
Qed.

Lemma table_find_mut t M k h eq :
  table_models t M → searches M k h eq →
  returns (ht_find_mut t h eq) (λ o, match o with
    | Some (x, set, removed) => ∃ v, M !! k = Some v ∧ x = (stored (k, v)).2 ∧
        (∀ w, table_models (set (stored (k, w)).2) (<[k := w]> M)) ∧
        table_models removed (delete k M)
    | None => M !! k = None
    end).
Proof.
  intros Ht Hs. eapply returns_mono; [by apply find_mut_ok; eapply searches_ok|].
  intros [[[x set] removed]|]; [|by apply searches_none].
  intros (Hx & h' & Hin & Hset).
  assert ((h', x) ∈ ht_entries t) as Hx' by (rewrite Hin; by left).
  apply (table_entry t M) in Hx' as (k' & v & Hk & Hx'); [|done].
  destruct Hs as [Hh Heq]. pose proof (Heq k' v Hk) as He. rewrite Hx' in He. simpl in He.
  rewrite Hx in He. injection He as He. symmetry in He. apply bool_decide_eq_true in He as <-.
  assert (table_models removed (delete k M)) as Hrem.
  { unfold table_models in *. rewrite <-(map_to_list_delete M k v), Hin in Ht by done. csimpl in Ht.
    rewrite Hx' in Ht. by apply Permutation_cons_inv in Ht. }
  exists v. split_and!; [done|by rewrite Hx'| |done].
  intros w. rewrite <-insert_delete_eq. apply (table_added removed); [|done|].
  - apply lookup_delete_eq.
  - assert (stored (k, w) = (h', (stored (k, w)).2)) as ->.
    { apply injective_projections; [|done]. by rewrite Hh, <-(Hh v), Hx'. }
    apply Hset.
Qed.

Lemma table_insert t M k v hasher :
  table_models t M → M !! k = None → (N.of_nat (size M) < ht_max)%N →
  (∀ k' v', hasher (stored (k', v')).2 = Ok (stored (k', v')).1) →
  returns (ht_insert_unique t (stored (k, v)).1 (stored (k, v)).2 hasher)
    (λ t', table_models t' (<[k := v]> M)).
Proof.
  intros Ht Hk Hroom Hhash. eapply returns_mono; [apply insert_grow_ok|].
  - by rewrite (table_size _ _ Ht).
  - intros h x (k' & v' & _ & Hx)%(table_entry t M); [|done]. specialize (Hhash k' v').
    by rewrite Hx in Hhash.
  - intros t' Ht'. eapply table_added; [done..|]. by destruct (stored (k, v)).
Qed.
End table_map.
