(* ===== verification/VecMap.v ===== *)
(** [starlark_map/src/vec_map.rs]: the array of entries of a [SmallMap], a [Vec2] of
    [(key, value)] pairs and key hashes, with its linear lookup. *)

From S2P Require Import Prelude Vec2 Hashing.

Section VecMap.
Context `{Toolchain} {K V : Type} `{EqDecision K}.
Context `{SizeOf (K * V), SizeOf StarlarkHashValue, SizeOf (K * V * StarlarkHashValue)}.

Record VecMap := mkVecMap { buckets : Vec2 (K * V) StarlarkHashValue }.
Implicit Types m : VecMap.

Definition VecMap_new : VecMap := mkVecMap new.
Definition VecMap_with_capacity {E} (n : nat) : result E VecMap :=
  b ← with_capacity n; Ok (mkVecMap b).
Definition VecMap_reserve {E} m (additional : nat) : result E VecMap :=
  b ← reserve (buckets m) additional; Ok (mkVecMap b).
Definition VecMap_capacity m : nat := capacity (buckets m).

(** The [while] loop over candidate positions; each turn moves [i] forward. *)
Fixpoint VecMap_find_loop (hashes_ints : list Z) (keys : list (K * V)) (hash : Z)
    (eq : K → bool) (i fuel : nat) : comp (option nat) :=
  match fuel with
  | 0 => UB
  | S fuel =>
    if i <? length hashes_ints then
      o ← find_hash_in_array (drop i hashes_ints) hash;
      match o with
      | None => Ok None
      | Some d =>
        let i := i + d in
        match keys !! i with
        | None => UB
        | Some (k, _) =>
          if eq k then Ok (Some i)
          else VecMap_find_loop hashes_ints keys hash eq (i + 1) fuel
        end
      end
    else
      _ ← assert (i =? length hashes_ints);
      Ok None
  end.

Definition VecMap_get_index_of_hashed_raw m (hash : StarlarkHashValue) (eq : K → bool) :
    comp (option nat) :=
  hashes_ints ← bbb (buckets m);
  keys ← aaa (buckets m);
  VecMap_find_loop hashes_ints keys hash eq 0 (S (length hashes_ints)).

(** [Equivalent] instantiated at the key type itself. *)
Definition equivalent (k k' : K) : bool := bool_decide (k = k').

Definition VecMap_get_index_of_hashed m (k : Hashed K) : comp (option nat) :=
  VecMap_get_index_of_hashed_raw m (hash k) (equivalent (key k)).

Definition VecMap_get_index {E} m (index : nat) : result E (option (K * V)) :=
  o ← get (buckets m) index; Ok (match o with Some (kv, _hash) => Some kv | None => None end).

Definition VecMap_get_unchecked {E} m (index : nat) : result E (Hashed K * V) :=
  _ ← contract (index <? len (buckets m));
  '((k, v), h) ← get_unchecked (buckets m) index;
  Ok (mkHashed h k, v).

(** The key is handed out immutably, the value as the effect of assigning it. *)
Definition VecMap_get_unchecked_mut {E} m (index : nat) :
    result E (Hashed K * V * (V → VecMap)) :=
  _ ← contract (index <? len (buckets m));
  '(((k, v), h), set) ← get_unchecked_mut (buckets m) index;
  Ok (mkHashed h k, v, λ v', mkVecMap (set ((k, v'), h))).

Definition VecMap_insert_hashed_unique_unchecked {E} m (k : Hashed K) (value : V) :
    result E VecMap :=
  b ← push (buckets m) (key k, value) (hash k); Ok (mkVecMap b).

Definition VecMap_remove {E} m (index : nat) : result E (Hashed K * V * VecMap) :=
  '(((k, v), h), b) ← remove (buckets m) index;
  Ok (mkHashed h k, v, mkVecMap b).

Definition VecMap_remove_hashed_entry m (k : Hashed K) : comp (option (K * V) * VecMap) :=
  o ← VecMap_get_index_of_hashed m k;
  match o with
  | Some index => '(hk, v, m) ← VecMap_remove m index; Ok (Some (key hk, v), m)
  | None => Ok (None, m)
  end.

Definition VecMap_pop {E} m : result E (option (Hashed K * V) * VecMap) :=
  '(o, b) ← pop (buckets m);
  Ok (match o with Some ((k, v), h) => Some (mkHashed h k, v) | None => None end, mkVecMap b).

Definition VecMap_len m : nat := len (buckets m).
Definition VecMap_is_empty m : bool := is_empty (buckets m).
Definition VecMap_clear m : VecMap := mkVecMap (clear (buckets m)).

Definition VecMap_iter {E} m : result E (list (K * V)) := aaa (buckets m).
Definition hashed_entry (e : K * V * StarlarkHashValue) : Hashed K * V :=
  (mkHashed e.2 e.1.1, e.1.2).
Definition VecMap_iter_hashed {E} m : result E (list (Hashed K * V)) :=
  l ← iter (E:=E) (buckets m); Ok (hashed_entry <$> (l : list _)).
Definition VecMap_keys {E} m : result E (list K) := l ← VecMap_iter m; Ok l.*1.
Definition VecMap_values {E} m : result E (list V) := l ← VecMap_iter m; Ok l.*2.

Definition VecMap_sort_keys {E} (cmp : K → K → comparison) m : result E VecMap :=
  b ← sort_by (buckets m) (λ x y, cmp x.1.1 y.1.1); Ok (mkVecMap b).

(** [windows(2).all(|w| w[0].0 <= w[1].0)]. *)
Fixpoint windows2_all {X} (p : X → X → bool) (l : list X) : bool :=
  match l with
  | x :: (y :: _) as l' => p x y && windows2_all p l'
  | _ => true
  end.
Definition VecMap_is_sorted_by_key {E} (cmp : K → K → comparison) m : result E bool :=
  l ← aaa (buckets m);
  Ok (windows2_all (λ w0 w1, match cmp w0.1 w1.1 with Gt => false | _ => true end) l).

Definition VecMap_eq_ordered {E} `{EqDecision V} m (other : VecMap) : result E bool :=
  h ← bbb (buckets m); h' ← bbb (buckets other);
  kv ← aaa (buckets m); kv' ← aaa (buckets other);
  Ok (bool_decide (h = h') && bool_decide (kv = kv')).

Definition VecMap_reverse {E} m : result E VecMap :=
  let b := buckets m in
  xs ← aaa b; ys ← bbb b;
  Ok (mkVecMap (mkVec2 ((Some <$> reverse xs) ++ drop (len b) (aaa_cells b))
                       ((Some <$> reverse ys) ++ drop (len b) (bbb_cells b))
                       (len b) (cap b))).

Definition VecMap_retain {E} m (f : K → V → bool * V) : result E VecMap :=
  b ← retain (buckets m)
    (λ '(k, v) h, let '(b, v') := f k v in (b, ((k, v'), h)));
  Ok (mkVecMap b).
End VecMap.
Arguments VecMap K V : clear implicits.
Arguments mkVecMap {K V}.
Arguments buckets {K V}.

(** * Correctness *)

Section spec.
Context `{Toolchain} {K V : Type} `{EqDecision K}.
Context `{SizeOf (K * V), SizeOf StarlarkHashValue, SizeOf (K * V * StarlarkHashValue)}.
Implicit Types (m : VecMap K V) (l : list (K * V * StarlarkHashValue)).

(** Position of the first entry with hash [h] whose key [eq] accepts. *)
Definition raw_index (h : StarlarkHashValue) (eq : K → bool) l : option nat :=
  find_index (λ e, (e.2 =? h)%Z && eq e.1.1) l.

Lemma VecMap_find_loop_spec l h eq i fuel :
  i ≤ length l → length l < i + fuel →
  (∀ k e, k < i → l !! k = Some e → (e.2 =? h)%Z && eq e.1.1 = false) →
  VecMap_find_loop l.*2 l.*1 h eq i fuel = Ok (raw_index h eq l).
Proof.
  revert i. induction fuel as [|fuel IH]; intros i Hi Hfuel Hno; [lia|].
  cbn [VecMap_find_loop]. rewrite length_fmap. destruct (i <? length l) eqn:Hlt.
  - apply Nat.ltb_lt in Hlt. rewrite find_hash_in_array_find. simpl.
    rewrite <-fmap_drop, find_index_fmap.
    destruct (find_index _ (drop i l)) as [d|] eqn:Hd.
    + pose proof (find_index_lt _ _ _ Hd) as Hdl. rewrite length_drop in Hdl.
      apply find_index_Some in Hd as [(e & He & Hh) Hbefore]. rewrite lookup_drop in He.
      rewrite list_lookup_fmap, He. simpl. destruct e as [[k v] h']. simpl in *.
      assert (∀ k e, k < i + d → l !! k = Some e → (e.2 =? h)%Z && eq e.1.1 = false) as Hno'.
      { intros j e Hj Hje. destruct (decide (j < i)); [by eapply Hno|].
        rewrite (Hbefore (j - i) e); [done|lia|].
        rewrite lookup_drop. by replace (i + (j - i)) with j by lia. }
      destruct (eq k) eqn:Hk.
      * symmetry. f_equal. apply find_index_Some. split; [|done].
        eexists. split; [done|]. simpl. by rewrite Hh, Hk.
      * apply IH; [lia|lia|]. intros j e Hj Hje.
        destruct (decide (j = i + d)) as [->|]; [|apply (Hno' j); [lia|done]].
        simplify_eq/=. by rewrite Hk, andb_false_r.
    + symmetry. f_equal. apply find_index_None. intros j e Hje.
      destruct (decide (j < i)); [by eapply Hno|].
      rewrite find_index_None in Hd. rewrite (Hd (j - i) e); [done|].
      rewrite lookup_drop. by replace (i + (j - i)) with j by lia.
  - apply Nat.ltb_ge in Hlt. rewrite (proj2 (Nat.eqb_eq _ _)) by lia. simpl.
    symmetry. f_equal. apply find_index_None. intros j e Hje.
    apply (Hno j); [|done]. apply lookup_lt_Some in Hje. lia.
Qed.

Lemma VecMap_get_index_of_hashed_raw_spec m l h eq :
  repr (buckets m) l →
  VecMap_get_index_of_hashed_raw m h eq = Ok (raw_index h eq l).
Proof.
  intros Hr. unfold VecMap_get_index_of_hashed_raw.
  rewrite (bbb_spec _ _ Hr), (aaa_spec _ _ Hr). cbn [mbind result_bind].
  apply VecMap_find_loop_spec; rewrite ?length_fmap; lia.
Qed.

Lemma VecMap_get_unchecked_spec {E} m l i k v h :
  repr (buckets m) l → l !! i = Some ((k, v), h) →
  VecMap_get_unchecked (E:=E) m i = Ok (mkHashed h k, v).
Proof.
  intros Hr Hi. unfold VecMap_get_unchecked.
  rewrite (repr_len _ _ Hr), (proj2 (Nat.ltb_lt _ _) (lookup_lt_Some _ _ _ Hi)). simpl.
  by rewrite (get_unchecked_spec _ _ _ _ Hr Hi).
Qed.

Lemma VecMap_get_index_spec {E} m l i :
  repr (buckets m) l → VecMap_get_index (E:=E) m i = Ok (fst <$> l !! i).
Proof.
  intros Hr. unfold VecMap_get_index. rewrite (get_spec _ _ _ Hr). simpl.
  by destruct (l !! i) as [[[k v] h]|].
Qed.

Lemma VecMap_get_unchecked_mut_spec {E} m l i k v h :
  repr (buckets m) l → l !! i = Some ((k, v), h) →
  returns (E:=E) (VecMap_get_unchecked_mut m i) (λ '(hk, v', set),
    hk = mkHashed h k ∧ v' = v ∧
    ∀ w, repr (buckets (set w)) (<[i := ((k, w), h)]> l)).
Proof.
  intros Hr Hi. unfold VecMap_get_unchecked_mut.
  rewrite (repr_len _ _ Hr), (proj2 (Nat.ltb_lt _ _) (lookup_lt_Some _ _ _ Hi)). simpl.
  step_with get_unchecked_mut_spec; [done|done|]. intros [ab set] [-> Hset].
  apply returns_ret. split_and!; [done|done|]. intros w. apply Hset.
Qed.

Lemma VecMap_insert_spec {E} m l k v h :
  repr (buckets m) l → can_reserve (buckets m) 1 →
  returns (E:=E) (VecMap_insert_hashed_unique_unchecked m (mkHashed h k) v) (λ m',
    repr (buckets m') (l ++ [((k, v), h)])).
Proof.
  intros Hr Hc. unfold VecMap_insert_hashed_unique_unchecked.
  step_with push_spec; [done|done|]. intros b [Hb _]. by apply returns_ret.
Qed.

Lemma VecMap_remove_spec {E} m l i k v h :
  repr (buckets m) l → l !! i = Some ((k, v), h) →
  returns (E:=E) (VecMap_remove m i) (λ '(hk, w, m'),
    hk = mkHashed h k ∧ w = v ∧ repr (buckets m') (delete i l)).
Proof.
  intros Hr Hi. unfold VecMap_remove.
  step_with remove_spec; [done|by eapply lookup_lt_Some|].
  intros [[[k' v'] h'] b] (Hi' & Hb & _). apply returns_ret. by simplify_eq.
Qed.

Lemma VecMap_pop_spec {E} m l :
  repr (buckets m) l →
  returns (E:=E) (VecMap_pop m) (λ '(o, m'),
    o = hashed_entry <$> list.last l ∧
    repr (buckets m') (take (length l - 1) l)).
Proof.
  intros Hr. unfold VecMap_pop. step_with pop_spec; [done|].
  intros [o b] (-> & Hb & _). apply returns_ret. split; [|done].
  by destruct (list.last l) as [[[k v] h]|].
Qed.

Lemma VecMap_iter_spec {E} m l : repr (buckets m) l → VecMap_iter (E:=E) m = Ok l.*1.
Proof. apply aaa_spec. Qed.

Lemma VecMap_iter_hashed_spec {E} m l :
  repr (buckets m) l →
  VecMap_iter_hashed (E:=E) m = Ok (hashed_entry <$> l).
Proof. intros Hr. unfold VecMap_iter_hashed. by rewrite (iter_spec _ _ Hr). Qed.

Lemma VecMap_sort_keys_spec {E} cmp `{!TotalCompare cmp} m l :
  repr (buckets m) l → fits (K * V) StarlarkHashValue (2 * length l + 8) →
  returns (E:=E) (VecMap_sort_keys cmp m) (λ m',
    repr (buckets m') (stable_sort (λ x y, cmp x.1.1 y.1.1) l)).
Proof.
  intros Hr Hf. unfold VecMap_sort_keys. step_with sort_by_spec; [done|done|left; apply _|].
  intros b Hb. by apply returns_ret.
Qed.

Lemma VecMap_reverse_spec {E} m l :
  repr (buckets m) l →
  returns (E:=E) (VecMap_reverse m) (λ m', repr (buckets m') (reverse l)).
Proof.
  intros Hr. unfold VecMap_reverse. rewrite (aaa_spec _ _ Hr). simpl.
  rewrite (bbb_spec _ _ Hr). simpl. apply returns_ret.
  pose proof (repr_cap _ _ Hr) as Hc. destruct Hr as [Ha Hb Hl Hca Hcb].
  split; simpl; rewrite <-?fmap_reverse; auto using holds_app_rest.
  - rewrite Hl. by rewrite length_reverse.
  - rewrite length_app, !length_fmap, length_reverse, length_drop. lia.
  - rewrite length_app, !length_fmap, length_reverse, length_drop. lia.
Qed.

Definition retained (f : K → V → bool * V) l : list (K * V * StarlarkHashValue) :=
  kept (λ '(k, v) h, let '(b, v') := f k v in (b, ((k, v'), h))) l.

Lemma VecMap_retain_spec {E} m l f :
  repr (buckets m) l →
  returns (E:=E) (VecMap_retain m f) (λ m', repr (buckets m') (retained f l)).
Proof.
  intros Hr. unfold VecMap_retain. step_with retain_spec; [done|].
  intros b [Hb _]. by apply returns_ret.
Qed.

Lemma windows2_all_spec {X} (p : X → X → bool) (xs : list X) :
  windows2_all p xs = true ↔ Sorted (λ x y, p x y = true) xs.
Proof.
  induction xs as [|x xs IH]; [by split; [constructor|]|].
  destruct xs as [|y xs]; [by split; [repeat constructor|]|].
  change (windows2_all p (x :: y :: xs)) with (p x y && windows2_all p (y :: xs)).
  rewrite andb_true_iff, IH. split.
  - intros [Hxy Hs]. constructor; [done|]. by constructor.
  - intros [Hs Hxy]%Sorted_inv. split; [|done]. by inversion Hxy.
Qed.
End spec.

Arguments raw_index {K V} h eq l.
Arguments retained {K V} f l.
