(* ===== verification/SmallMap.v ===== *)
(** [starlark_map/src/small_map.rs]: the insertion-ordered hash map behind Starlark's
    dictionaries, module scopes and keyword arguments.  Entries live in a [VecMap]; a
    hash table from promoted key hashes to positions is added once there are more than
    [NO_INDEX_THRESHOLD] entries.  [wf m l] is the invariant tying the two together,
    and [SmallMapSpec.v] proves that the whole is an ordered association list. *)

From S2P Require Import Prelude Vec2 Hashing VecMap.

Record SmallMap (T K V : Type) := mkSmallMap {
  entries : VecMap K V;
  index : option T;
}.
Arguments mkSmallMap {T K V}.
Arguments entries {T K V}.
Arguments index {T K V}.

Section SmallMap.
Context `{Toolchain} {T K V : Type} `{EqDecision K} `{HashTable nat T}.
Context `{SizeOf (K * V), SizeOf StarlarkHashValue, SizeOf (K * V * StarlarkHashValue)}.
Implicit Types m : SmallMap T K V.

Definition NO_INDEX_THRESHOLD : nat := if rust_nightly then 32 else 16.

Definition SmallMap_new : SmallMap T K V := mkSmallMap VecMap_new None.

Definition SmallMap_with_capacity (n : nat) : comp (SmallMap T K V) :=
  if n <=? NO_INDEX_THRESHOLD then
    es ← VecMap_with_capacity n; Ok (mkSmallMap es None)
  else
    es ← VecMap_with_capacity n;
    t ← ht_with_capacity n;
    Ok (mkSmallMap es (Some t)).

Definition SmallMap_len m : nat := VecMap_len (entries m).
Definition SmallMap_is_empty m : bool := VecMap_is_empty (entries m).
Definition SmallMap_capacity m : nat := VecMap_capacity (entries m).

Definition maybe_drop_index m : SmallMap T K V :=
  if VecMap_len (entries m) <=? NO_INDEX_THRESHOLD then mkSmallMap (entries m) None else m.

Definition SmallMap_keys m : comp (list K) := VecMap_keys (entries m).
Definition SmallMap_values m : comp (list V) := VecMap_values (entries m).
Definition SmallMap_iter m : comp (list (K * V)) := VecMap_iter (entries m).
Definition SmallMap_iter_hashed m : comp (list (Hashed K * V)) := VecMap_iter_hashed (entries m).

(** ** Lookup *)

(** The closure given to the hash table: compares the key stored at a position. *)
Definition index_eq (es : VecMap K V) (eq : K → bool) (i : nat) : comp bool :=
  '(hk, _) ← VecMap_get_unchecked es i; Ok (eq (key hk)).

Definition get_index_of_hashed_raw_with_index m (hash : StarlarkHashValue) (eq : K → bool)
    (index : T) : comp (option nat) :=
  ht_find index (promote hash) (index_eq (entries m) eq).

Definition get_index_of_hashed_raw m (hash : StarlarkHashValue) (eq : K → bool) :
    comp (option nat) :=
  match index m with
  | None => VecMap_get_index_of_hashed_raw (entries m) hash eq
  | Some index => get_index_of_hashed_raw_with_index m hash eq index
  end.

Definition get_index_of_hashed m (k : Hashed K) : comp (option nat) :=
  get_index_of_hashed_raw m (hash k) (equivalent (key k)).
Definition get_index_of_hashed_by_value m (k : Hashed K) : comp (option nat) :=
  get_index_of_hashed_raw m (hash k) (equivalent (key k)).

Definition get_hashed m (k : Hashed K) : comp (option V) :=
  o ← get_index_of_hashed m k;
  match o with
  | Some i => '(_, v) ← VecMap_get_unchecked (entries m) i; Ok (Some v)
  | None => Ok None
  end.
Definition get_hashed_by_value m (k : Hashed K) : comp (option V) :=
  o ← get_index_of_hashed_by_value m k;
  match o with
  | Some i => '(_, v) ← VecMap_get_unchecked (entries m) i; Ok (Some v)
  | None => Ok None
  end.
Definition get_full_hashed m (k : Hashed K) : comp (option (nat * K * V)) :=
  o ← get_index_of_hashed m k;
  match o with
  | Some i => '(hk, v) ← VecMap_get_unchecked (entries m) i; Ok (Some (i, key hk, v))
  | None => Ok None
  end.
Definition SmallMap_get_index m (i : nat) : comp (option (K * V)) :=
  VecMap_get_index (entries m) i.
Definition contains_key_hashed m (k : Hashed K) : comp bool :=
  o ← get_index_of_hashed m k; Ok (match o with Some _ => true | None => false end).

(** The value, with the effect of assigning through the returned reference. *)
Definition get_mut_hashed m (k : Hashed K) : comp (option (V * (V → SmallMap T K V))) :=
  o ← get_index_of_hashed m k;
  match o with
  | None => Ok None
  | Some i =>
    _ ← assert (i <? VecMap_len (entries m));
    '(_, v, set) ← VecMap_get_unchecked_mut (entries m) i;
    Ok (Some (v, λ w, mkSmallMap (set w) (index m)))
  end.

(** ** The index *)

Definition hasher (es : VecMap K V) (i : nat) : comp Z :=
  _ ← assert (i <? VecMap_len es);
  '(hk, _) ← VecMap_get_unchecked es i;
  Ok (promote (hash hk)).

(** The loop of [create_index] and [rebuild_index]; growing the table there is
    [unreachable!]. *)
Fixpoint insert_all (t : T) (l : list (Hashed K * V)) (i : nat) : comp T :=
  match l with
  | [] => Ok t
  | (hk, _) :: l =>
    t ← ht_insert_unique t (promote (hash hk)) i (λ _, Panic);
    insert_all t l (S i)
  end.

Definition create_index m (capacity : nat) : comp (SmallMap T K V) :=
  _ ← assert (match index m with None => true | Some _ => false end);
  _ ← assert (VecMap_len (entries m) <=? capacity);
  t ← ht_with_capacity capacity;
  l ← VecMap_iter_hashed (entries m);
  t ← insert_all t l 0;
  Ok (mkSmallMap (entries m) (Some t)).

Definition rebuild_index m : comp (SmallMap T K V) :=
  match index m with
  | Some t =>
    l ← VecMap_iter_hashed (entries m);
    t ← insert_all (ht_clear t) l 0;
    Ok (mkSmallMap (entries m) (Some t))
  | None => Ok m
  end.

Definition SmallMap_reserve m (additional : nat) : comp (SmallMap T K V) :=
  es ← VecMap_reserve (entries m) additional;
  let m := mkSmallMap es (index m) in
  match index m with
  | Some t =>
    t ← ht_reserve t additional (hasher es);
    Ok (mkSmallMap es (Some t))
  | None =>
    if NO_INDEX_THRESHOLD <? SmallMap_len m + additional
    then create_index m (SmallMap_len m + additional) else Ok m
  end.

(** ** Insertion *)

(** Returns the map, and the new entry with the effect of assigning its value. *)
Definition insert_hashed_unique_unchecked m (k : Hashed K) (val : V) :
    comp (SmallMap T K V * (K * V * (V → SmallMap T K V))) :=
  let entry_index := VecMap_len (entries m) in
  es ← VecMap_insert_hashed_unique_unchecked (entries m) k val;
  m ← match index m with
      | Some t =>
        t ← ht_insert_unique t (promote (hash k)) entry_index (hasher es);
        Ok (mkSmallMap es (Some t))
      | None =>
        if VecMap_len es =? NO_INDEX_THRESHOLD + 1
        then create_index (mkSmallMap es None) (VecMap_len es)
        else
          _ ← assert (VecMap_len es <? NO_INDEX_THRESHOLD + 1);
          Ok (mkSmallMap es None)
      end;
  '(hk, v, set) ← VecMap_get_unchecked_mut (entries m) (VecMap_len (entries m) - 1);
  Ok (m, (key hk, v, λ w, mkSmallMap (set w) (index m))).

Definition insert_hashed m (k : Hashed K) (val : V) : comp (option V * SmallMap T K V) :=
  o ← get_index_of_hashed_raw m (hash k) (equivalent (key k));
  match o with
  | None => '(m, _) ← insert_hashed_unique_unchecked m k val; Ok (None, m)
  | Some i =>
    _ ← assert (i <? VecMap_len (entries m));
    '(_, old, set) ← VecMap_get_unchecked_mut (entries m) i;
    Ok (Some old, mkSmallMap (set val) (index m))
  end.

(** [entry_hashed] and [Entry]. *)
Inductive Entry :=
| Occupied (k : K) (value : V) (set : V → SmallMap T K V)
| Vacant (k : Hashed K) (map : SmallMap T K V).

Definition entry_hashed m (k : Hashed K) : comp Entry :=
  o ← get_index_of_hashed_raw m (hash k) (equivalent (key k));
  match o with
  | Some i =>
    '(hk, v, set) ← VecMap_get_unchecked_mut (entries m) i;
    Ok (Occupied (key hk) v (λ w, mkSmallMap (set w) (index m)))
  | None => Ok (Vacant k m)
  end.

Definition Entry_key (e : Entry) : K :=
  match e with Occupied k _ _ => k | Vacant k _ => key k end.

Definition VacantEntry_insert_entry (k : Hashed K) m (value : V) :
    comp (K * V * (V → SmallMap T K V)) :=
  '(_, r) ← insert_hashed_unique_unchecked m k value; Ok r.

Definition or_insert_entry_with (e : Entry) (default : () → V) :
    comp (K * V * (V → SmallMap T K V)) :=
  match e with
  | Occupied k v set => Ok (k, v, set)
  | Vacant k m => VacantEntry_insert_entry k m (default ())
  end.

Definition or_insert_with (e : Entry) (default : () → V) : comp (V * (V → SmallMap T K V)) :=
  '(_, v, set) ← or_insert_entry_with e default; Ok (v, set).

(** ** Removal *)

Definition shift_remove_hashed_entry m (k : Hashed K) :
    comp (option (K * V) * SmallMap T K V) :=
  match index m with
  | Some t =>
    o ← ht_find_remove t (promote (hash k)) (index_eq (entries m) (equivalent (key k)));
    match o with
    | None => Ok (None, m)
    | Some (i, t) =>
      t ← if i =? VecMap_len (entries m) - 1 then Ok t else
            ht_iter_mut t (λ bucket,
              _ ← assert (negb (bucket =? i));
              Ok (if i <? bucket then bucket - 1 else bucket));
      '(hk, v, es) ← VecMap_remove (entries m) i;
      Ok (Some (key hk, v), mkSmallMap es (Some t))
    end
  | None =>
    '(o, es) ← VecMap_remove_hashed_entry (entries m) k;
    Ok (o, mkSmallMap es None)
  end.

Definition shift_remove_hashed m (k : Hashed K) : comp (option V * SmallMap T K V) :=
  '(o, m) ← shift_remove_hashed_entry m k;
  Ok (match o with Some (_k, v) => Some v | None => None end, m).

Definition shift_remove_index_hashed m (i : nat) :
    comp (option (Hashed K * V) * SmallMap T K V) :=
  if SmallMap_len m <=? i then Ok (None, m) else
  t ← match index m with
      | Some t =>
        '(removed, t) ← ht_retain bool t false (λ removed j,
          if j =? i then _ ← assert (negb removed); Ok (true, None)
          else if i <? j then Ok (removed, Some (j - 1))
          else Ok (removed, Some j));
        _ ← assert removed;
        Ok (Some t)
      | None => Ok None
      end;
  '(hk, v, es) ← VecMap_remove (entries m) i;
  Ok (Some (hk, v), mkSmallMap es t).

Definition shift_remove_index m (i : nat) : comp (option (K * V) * SmallMap T K V) :=
  '(o, m) ← shift_remove_index_hashed m i;
  Ok (match o with Some (hk, v) => Some (key hk, v) | None => None end, m).

Definition SmallMap_pop m : comp (option (K * V) * SmallMap T K V) :=
  '(o, es) ← VecMap_pop (entries m);
  match o with
  | None => Ok (None, mkSmallMap es (index m))
  | Some (hk, v) =>
    t ← match index m with
        | Some t =>
          o ← ht_find_remove t (promote (hash hk)) (λ i, Ok (i =? VecMap_len es));
          match o with
          | Some (removed, t) => _ ← assert (removed =? VecMap_len es); Ok (Some t)
          | None => Panic
          end
        | None => Ok None
        end;
    Ok (Some (key hk, v), mkSmallMap es t)
  end.

Definition SmallMap_clear m : SmallMap T K V :=
  mkSmallMap (VecMap_clear (entries m))
    (match index m with Some t => Some (ht_clear t) | None => None end).

(** ** Reordering *)

Definition SmallMap_first m : comp (option (K * V)) := l ← SmallMap_iter m; Ok (head l).
Definition SmallMap_last m : comp (option (K * V)) := l ← SmallMap_iter m; Ok (list.last l).

Definition SmallMap_sort_keys (cmp : K → K → comparison) m : comp (SmallMap T K V) :=
  sorted ← VecMap_is_sorted_by_key cmp (entries m);
  if sorted : bool then Ok m else
  es ← VecMap_sort_keys cmp (entries m);
  rebuild_index (mkSmallMap es (index m)).

Definition SmallMap_reverse m : comp (SmallMap T K V) :=
  es ← VecMap_reverse (entries m);
  match index m with
  | Some t =>
    let len := VecMap_len es in
    t ← ht_iter_mut t (λ entry,
      n ← unwrap (checked_sub len 1);
      unwrap (checked_sub n entry));
    Ok (mkSmallMap es (Some t))
  | None => Ok (mkSmallMap es None)
  end.

Definition SmallMap_retain m (f : K → V → bool * V) : comp (SmallMap T K V) :=
  let original_len := SmallMap_len m in
  es ← VecMap_retain (entries m) f;
  let m := mkSmallMap es (index m) in
  _ ← assert (VecMap_len es <=? original_len);
  if SmallMap_len m <? original_len then rebuild_index m else Ok m.

(** ** Comparison and construction *)

Definition SmallMap_eq_ordered `{EqDecision V} m (other : SmallMap T K V) : comp bool :=
  VecMap_eq_ordered (entries m) (entries other).

Fixpoint all_present `{EqDecision V} (l : list (Hashed K * V)) (other : SmallMap T K V) :
    comp bool :=
  match l with
  | [] => Ok true
  | (k, v) :: l =>
    o ← get_hashed other k;
    if bool_decide (o = Some v) then all_present l other else Ok false
  end.
Definition SmallMap_eq `{EqDecision V} m (other : SmallMap T K V) : comp bool :=
  if SmallMap_len m =? SmallMap_len other then
    l ← SmallMap_iter_hashed m; all_present l other
  else Ok false.

Context (hash_of : K → StarlarkHashValue).

Definition SmallMap_get m (k : K) : comp (option V) := get_hashed m (Hashed_new hash_of k).
Definition get_full m (k : K) : comp (option (nat * K * V)) :=
  get_full_hashed m (Hashed_new hash_of k).
Definition get_index_of m (k : K) : comp (option nat) :=
  get_index_of_hashed m (Hashed_new hash_of k).
Definition SmallMap_get_mut m (k : K) : comp (option (V * (V → SmallMap T K V))) :=
  get_mut_hashed m (Hashed_new hash_of k).
Definition contains_key m (k : K) : comp bool := contains_key_hashed m (Hashed_new hash_of k).
Definition SmallMap_insert m (k : K) (val : V) : comp (option V * SmallMap T K V) :=
  insert_hashed m (Hashed_new hash_of k) val.
Definition insert_unique_unchecked m (k : K) (val : V) :
    comp (SmallMap T K V * (K * V * (V → SmallMap T K V))) :=
  insert_hashed_unique_unchecked m (Hashed_new hash_of k) val.
Definition shift_remove m (k : K) : comp (option V * SmallMap T K V) :=
  shift_remove_hashed m (Hashed_new hash_of k).
Definition shift_remove_entry m (k : K) : comp (option (K * V) * SmallMap T K V) :=
  shift_remove_hashed_entry m (Hashed_new hash_of k).
Definition entry m (k : K) : comp Entry := entry_hashed m (Hashed_new hash_of k).

Fixpoint SmallMap_extend m (l : list (K * V)) : comp (SmallMap T K V) :=
  match l with
  | [] => Ok m
  | (k, v) :: l => '(_, m) ← SmallMap_insert m k v; SmallMap_extend m l
  end.
(** [from_iter]; [size_hint] is the iterator's lower bound. *)
Definition SmallMap_from_iter (size_hint : nat) (l : list (K * V)) : comp (SmallMap T K V) :=
  mp ← SmallMap_with_capacity size_hint; SmallMap_extend mp l.
End SmallMap.
Arguments Entry T K V : clear implicits.
