(* ===== verification/SmallMapSpec.v ===== *)
(** The invariant of [SmallMap], the total-correctness lemma of each of its operations,
    and the theorems: the map refines an ordered association list and a finite map. *)

From S2P Require Import Prelude Vec2 Hashing VecMap SmallMap.

(** * Ordered association lists *)

(** The abstract map: pairs in insertion order, with distinct keys. *)
Section assoc.
Context {K V : Type} `{EqDecision K}.
Implicit Types kvs : list (K * V).

Definition key_index (k : K) kvs : option nat := find_index (λ kv, bool_decide (k = kv.1)) kvs.
Definition al_get (k : K) kvs : option V := i ← key_index k kvs; snd <$> kvs !! i.
Definition al_insert (k : K) (v : V) kvs : list (K * V) :=
  match key_index k kvs with
  | Some i => alter (λ kv, (kv.1, v)) i kvs
  | None => kvs ++ [(k, v)]
  end.
Definition al_remove (k : K) kvs : list (K * V) :=
  match key_index k kvs with Some i => delete i kvs | None => kvs end.
Definition al_retain (f : K → V → bool * V) kvs : list (K * V) :=
  (λ kv, (kv.1, (f kv.1 kv.2).2)) <$> filter (λ kv, (f kv.1 kv.2).1 = true) kvs.

Lemma key_index_Some k kvs i :
  NoDup kvs.*1 → key_index k kvs = Some i ↔ ∃ v, kvs !! i = Some (k, v).
Proof.
  intros Hnd. unfold key_index. rewrite find_index_Some. split.
  - intros [([k' v] & Hi & Hk) _]. apply bool_decide_eq_true in Hk. simpl in Hk. subst. eauto.
  - intros [v Hi]. split; [exists (k, v); by rewrite bool_decide_eq_true_2|].
    intros j [k' w] Hj Hkj. apply bool_decide_eq_false. simpl. intros ->.
    assert (j = i); [|lia].
    apply (NoDup_lookup kvs.*1 j i k'); [done|..]; by rewrite list_lookup_fmap, ?Hkj, ?Hi.
Qed.

Lemma key_index_None k kvs : key_index k kvs = None ↔ k ∉ kvs.*1.
Proof.
  unfold key_index. rewrite find_index_None, list_elem_of_fmap. split.
  - intros Hn ([k' v] & -> & [i Hi]%list_elem_of_lookup). apply Hn in Hi.
    by apply bool_decide_eq_false in Hi.
  - intros Hn i [k' v] Hi. apply bool_decide_eq_false. intros ->. apply Hn.
    exists (k', v). split; [done|]. apply list_elem_of_lookup. eauto.
Qed.

Lemma key_index_lt k kvs i : key_index k kvs = Some i → i < length kvs.
Proof. apply find_index_lt. Qed.
End assoc.

(** * The invariant *)

Section wf.
Context `{Toolchain} {T K V : Type} `{EqDecision K} `{HashTable nat T}.
Context (hash_of : K → StarlarkHashValue).
Implicit Types (m : SmallMap T K V) (l : list (K * V * StarlarkHashValue)).

(** The index entries of a list of map entries whose first position is [n]. *)
Definition index_from (n : nat) l : list (Z * nat) :=
  imap (λ i e, (promote e.2, n + i)) l.

(** [wf m l]: the map holds the entries [l], with distinct keys and correct hashes; the
    index, mandatory above the threshold, sends the hash of each entry to its
    position. *)
Record wf m l : Prop := {
  wf_entries : repr (buckets (entries m)) l;
  wf_nodup : NoDup l.*1.*1;
  wf_hash : ∀ e, e ∈ l → e.2 = hash_of e.1.1;
  wf_index : match index m with
    | None => length l ≤ NO_INDEX_THRESHOLD
    | Some t => ht_entries t ≡ₚ index_from 0 l
    end;
}.

Lemma index_from_app n l l' :
  index_from n (l ++ l') = index_from n l ++ index_from (n + length l) l'.
Proof.
  unfold index_from. rewrite imap_app. f_equal. apply imap_ext. intros i x _. f_equal. lia.
Qed.
Lemma index_from_cons n e l : index_from n (e :: l) = (promote e.2, n) :: index_from (S n) l.
Proof.
  unfold index_from. simpl. rewrite Nat.add_0_r. f_equal. apply imap_ext.
  intros i x _. simpl. f_equal. lia.
Qed.
Lemma index_from_snoc l e :
  index_from 0 (l ++ [e]) = index_from 0 l ++ [(promote e.2, length l)].
Proof. by rewrite index_from_app, index_from_cons. Qed.
Lemma length_index_from n l : length (index_from n l) = length l.
Proof. apply length_imap. Qed.

Lemma elem_of_index_from n l h i :
  (h, i) ∈ index_from n l ↔ ∃ e, n ≤ i ∧ l !! (i - n) = Some e ∧ h = promote e.2.
Proof.
  unfold index_from. rewrite elem_of_lookup_imap. split.
  - intros (j & e & [= -> ->] & Hj). exists e. split_and!; [lia| |done].
    by replace (n + j - n) with j by lia.
  - intros (e & Hle & He & ->). exists (i - n), e. split; [f_equal; lia|done].
Qed.

Lemma index_from_snd_lt n l i : i ∈ (index_from n l).*2 → n ≤ i < n + length l.
Proof.
  intros ([h j] & -> & Hj)%list_elem_of_fmap. apply elem_of_index_from in Hj as (e & Hle & He & _).
  apply lookup_lt_Some in He. simpl. lia.
Qed.

(** Renumbering positions. *)
Lemma index_from_renumber (g : nat → nat) n n' l :
  (∀ i, i < length l → g (n + i) = n' + i) →
  (λ p, (p.1, g p.2)) <$> index_from n l = index_from n' l.
Proof.
  revert n n'. induction l as [|e l IH]; intros n n' Hg; [done|].
  rewrite !index_from_cons, fmap_cons. simpl.
  f_equal; [f_equal; rewrite <-(Nat.add_0_r n), (Hg 0) by (simpl; lia); lia|].
  apply IH. intros i Hi. rewrite !Nat.add_succ_comm. apply Hg. simpl. lia.
Qed.

Lemma wf_len m l : wf m l → VecMap_len (entries m) = length l.
Proof. intros Hw. apply (repr_len _ _ (wf_entries _ _ Hw)). Qed.

(** The table is the index of [l]. *)
Lemma index_lookup t l h i :
  ht_entries t ≡ₚ index_from 0 l → (h, i) ∈ ht_entries t →
  ∃ e, l !! i = Some e ∧ h = promote e.2.
Proof.
  intros Ht Hi. rewrite Ht in Hi. apply elem_of_index_from in Hi as (e & _ & He & ->).
  rewrite Nat.sub_0_r in He. eauto.
Qed.
Lemma index_lookup_inv t l i e :
  ht_entries t ≡ₚ index_from 0 l → l !! i = Some e → (promote e.2, i) ∈ ht_entries t.
Proof.
  intros Ht Hi. rewrite Ht. apply elem_of_index_from. exists e.
  rewrite Nat.sub_0_r. split_and!; [lia|done|done].
Qed.
End wf.

Section lookup.
Context `{Toolchain} {T K V : Type} `{EqDecision K} `{HashTableOk nat T}.
Context `{SizeOf (K * V), SizeOf StarlarkHashValue, SizeOf (K * V * StarlarkHashValue)}.
Context (hash_of : K → StarlarkHashValue).
Implicit Types (m : SmallMap T K V) (l : list (K * V * StarlarkHashValue)).

Abbreviation wf := (wf hash_of).
Abbreviation hashed k := (mkHashed (hash_of k) k).

Lemma index_eq_spec es l i k v h eq :
  repr (buckets es) l → l !! i = Some ((k, v), h) → index_eq es eq i = Ok (eq k).
Proof.
  intros Hr Hi. unfold index_eq. by rewrite (VecMap_get_unchecked_spec _ _ _ _ _ _ Hr Hi).
Qed.

Lemma index_eq_ok es t l eq h i :
  repr (buckets es) l → ht_entries t ≡ₚ index_from 0 l → (h, i) ∈ ht_entries t →
  is_ok (index_eq es eq i) = true.
Proof.
  intros Hr Ht Hi. destruct (index_lookup _ _ _ _ Ht Hi) as ([[k v] h'] & He & _).
  by rewrite (index_eq_spec _ _ _ _ _ _ _ Hr He).
Qed.

Lemma raw_index_key_index m l k :
  wf m l → raw_index (hash_of k) (equivalent k) l = key_index k l.*1.
Proof.
  intros Hw. unfold raw_index, key_index. rewrite find_index_fmap.
  apply find_index_ext. intros e He. rewrite (wf_hash _ _ _ Hw e He). unfold equivalent.
  case_bool_decide as Hk; [|by rewrite andb_false_r]. by rewrite Hk, Z.eqb_refl.
Qed.

Lemma key_index_entry m l k i :
  wf m l → key_index k l.*1 = Some i ↔ ∃ v, l !! i = Some ((k, v), hash_of k).
Proof.
  intros Hw. rewrite key_index_Some by apply Hw. split; intros [v Hv]; exists v.
  - rewrite list_lookup_fmap in Hv. apply fmap_Some in Hv as ([kv h] & Hi & Hkv).
    simpl in Hkv. subst kv. rewrite Hi. do 2 f_equal.
    apply (wf_hash _ _ _ Hw ((k, v), h)). apply list_elem_of_lookup. eauto.
  - by rewrite list_lookup_fmap, Hv.
Qed.

(** A miss in the index is a miss in the list. *)
Lemma index_miss m t l k :
  wf m l → index m = Some t →
  (∀ i, (promote (hash_of k), i) ∈ ht_entries t → index_eq (entries m) (equivalent k) i = Ok false) →
  key_index k l.*1 = None.
Proof.
  intros Hw Ht Hno. pose proof (wf_index _ _ _ Hw) as Hidx. rewrite Ht in Hidx.
  destruct (key_index k l.*1) as [i|] eqn:Hi; [|done].
  apply (key_index_entry _ _ _ _ Hw) in Hi as [v Hi].
  specialize (Hno i (index_lookup_inv _ _ _ _ Hidx Hi)).
  rewrite (index_eq_spec _ _ _ _ _ _ _ (wf_entries _ _ _ Hw) Hi) in Hno.
  injection Hno. unfold equivalent. by rewrite bool_decide_eq_true_2.
Qed.

(** A hit in the index is the position of the key. *)
Lemma index_hit m t l k h i :
  wf m l → index m = Some t → (h, i) ∈ ht_entries t →
  index_eq (entries m) (equivalent k) i = Ok true → key_index k l.*1 = Some i.
Proof.
  intros Hw Ht Hi Heq. pose proof (wf_index _ _ _ Hw) as Hidx. rewrite Ht in Hidx.
  destruct (index_lookup _ _ _ _ Hidx Hi) as ([[k' v] h'] & He & _).
  rewrite (index_eq_spec _ _ _ _ _ _ _ (wf_entries _ _ _ Hw) He) in Heq.
  injection Heq as Heq. apply bool_decide_eq_true in Heq as <-.
  apply key_index_Some; [apply Hw|]. exists v. by rewrite list_lookup_fmap, He.
Qed.

Lemma get_index_of_hashed_raw_spec m l k :
  wf m l → get_index_of_hashed_raw m (hash_of k) (equivalent k) = Ok (key_index k l.*1).
Proof.
  intros Hw. unfold get_index_of_hashed_raw. destruct (index m) as [t|] eqn:Ht.
  - unfold get_index_of_hashed_raw_with_index.
    pose proof (wf_index _ _ _ Hw) as Hidx. rewrite Ht in Hidx.
    destruct (find_ok t (promote (hash_of k)) (index_eq (entries m) (equivalent k)))
      as ([i|] & -> & Ho).
    { intros h i Hi. by apply (index_eq_ok _ _ _ _ _ _ (wf_entries _ _ _ Hw) Hidx Hi). }
    + destruct Ho as [[h Hi] Heq]. by rewrite (index_hit _ _ _ _ _ _ Hw Ht Hi Heq).
    + by rewrite (index_miss _ _ _ _ Hw Ht Ho).
  - rewrite (VecMap_get_index_of_hashed_raw_spec _ _ _ _ (wf_entries _ _ _ Hw)).
    by rewrite (raw_index_key_index _ _ _ Hw).
Qed.

Lemma get_index_of_hashed_spec m l k :
  wf m l → get_index_of_hashed m (hashed k) = Ok (key_index k l.*1).
Proof. apply get_index_of_hashed_raw_spec. Qed.

Lemma get_hashed_spec m l k : wf m l → get_hashed m (hashed k) = Ok (al_get k l.*1).
Proof.
  intros Hw. unfold get_hashed. rewrite (get_index_of_hashed_spec _ _ _ Hw). simpl.
  unfold al_get. destruct (key_index k l.*1) as [i|] eqn:Hi; simpl; [|done].
  apply (key_index_entry _ _ _ _ Hw) in Hi as [v Hi].
  rewrite (VecMap_get_unchecked_spec _ _ _ _ _ _ (wf_entries _ _ _ Hw) Hi). simpl.
  by rewrite list_lookup_fmap, Hi.
Qed.

Lemma get_full_hashed_spec m l k :
  wf m l → get_full_hashed m (hashed k) =
    Ok (i ← key_index k l.*1; v ← al_get k l.*1; Some (i, k, v)).
Proof.
  intros Hw. unfold get_full_hashed. rewrite (get_index_of_hashed_spec _ _ _ Hw). simpl.
  unfold al_get. destruct (key_index k l.*1) as [i|] eqn:Hi; simpl; [|done].
  apply (key_index_entry _ _ _ _ Hw) in Hi as [v Hi].
  rewrite (VecMap_get_unchecked_spec _ _ _ _ _ _ (wf_entries _ _ _ Hw) Hi). simpl.
  by rewrite list_lookup_fmap, Hi.
Qed.

(** Assigning the value of an entry. *)
Lemma wf_set_value m l i k v h es w :
  wf m l → l !! i = Some ((k, v), h) → repr (buckets es) (<[i := ((k, w), h)]> l) →
  wf (mkSmallMap es (index m)) (<[i := ((k, w), h)]> l).
Proof.
  intros Hw Hi Hr.
  assert ((<[i := ((k, w), h)]> l).*1.*1 = l.*1.*1) as Hkeys.
  { rewrite !list_fmap_insert. apply list_insert_id. simpl. by rewrite !list_lookup_fmap, Hi. }
  split; simpl; [done|by rewrite Hkeys; apply Hw|..].
  - intros e [j He]%list_elem_of_lookup. apply list_lookup_insert_Some in He as [(-> & <- & _)|[_ He]].
    + simpl. apply (wf_hash _ _ _ Hw ((k, v), h)). apply list_elem_of_lookup. eauto.
    + apply (wf_hash _ _ _ Hw). apply list_elem_of_lookup. eauto.
  - pose proof (wf_index _ _ _ Hw) as Hidx. rewrite length_insert.
    destruct (index m) as [t|]; [|done]. rewrite Hidx.
    apply reflexive_eq. apply list_eq. intros j. unfold index_from. rewrite !list_lookup_imap.
    destruct (decide (j = i)) as [->|Hne]; [|by rewrite list_lookup_insert_ne].
    rewrite Hi, list_lookup_insert_eq by (by eapply lookup_lt_Some). done.
Qed.

Lemma al_insert_present (l : list (K * V * StarlarkHashValue)) i k v h w :
  NoDup l.*1.*1 → l !! i = Some ((k, v), h) →
  al_insert k w l.*1 = (<[i := ((k, w), h)]> l).*1.
Proof.
  intros Hnd Hi. unfold al_insert.
  rewrite (proj2 (key_index_Some k l.*1 i Hnd)) by (exists v; by rewrite list_lookup_fmap, Hi).
  rewrite list_fmap_insert. simpl. apply list_eq. intros j.
  destruct (decide (j = i)) as [->|Hne].
  - rewrite list_lookup_alter_eq, list_lookup_insert_eq
      by (rewrite length_fmap; by eapply lookup_lt_Some).
    by rewrite list_lookup_fmap, Hi.
  - by rewrite list_lookup_alter_ne, list_lookup_insert_ne.
Qed.

Lemma get_mut_hashed_spec m l k :
  wf m l → returns (get_mut_hashed m (hashed k)) (λ o,
    match o with
    | None => key_index k l.*1 = None
    | Some (v, set) => al_get k l.*1 = Some v ∧
       ∀ w, ∃ l', wf (set w) l' ∧ l'.*1 = al_insert k w l.*1
    end).
Proof.
  intros Hw. unfold get_mut_hashed. rewrite (get_index_of_hashed_spec _ _ _ Hw). simpl.
  destruct (key_index k l.*1) as [i|] eqn:Hki; [|by apply returns_ret].
  pose proof Hki as Hi. apply (key_index_entry _ _ _ _ Hw) in Hi as [v Hi].
  rewrite (wf_len _ _ _ Hw), (proj2 (Nat.ltb_lt _ _) (lookup_lt_Some _ _ _ Hi)). simpl.
  step_with VecMap_get_unchecked_mut_spec; [apply Hw|done|].
  intros [[hk v'] set] (-> & -> & Hset). apply returns_ret. split.
  - unfold al_get. rewrite Hki. simpl. by rewrite list_lookup_fmap, Hi.
  - intros w. eexists. split; [by eapply wf_set_value|].
    symmetry. by apply (al_insert_present _ _ _ v); [apply Hw|].
Qed.
End lookup.

(** * The finite map of an association list *)

Section finite_map.
Context {K V : Type} `{Countable K}.
Implicit Types kvs : list (K * V).

Definition to_map kvs : gmap K V := list_to_map kvs.

Lemma al_get_to_map k kvs : NoDup kvs.*1 → al_get k kvs = to_map kvs !! k.
Proof.
  intros Hnd. unfold al_get, to_map. destruct (key_index k kvs) as [i|] eqn:Hi; simpl.
  - apply key_index_Some in Hi as [v Hi]; [|done]. rewrite Hi. symmetry.
    apply elem_of_list_to_map_1; [done|]. apply list_elem_of_lookup. eauto.
  - symmetry. apply not_elem_of_list_to_map_1. by apply key_index_None.
Qed.

Lemma al_get_elem k v kvs : NoDup kvs.*1 → al_get k kvs = Some v ↔ (k, v) ∈ kvs.
Proof.
  intros Hnd. rewrite al_get_to_map by done. symmetry. by apply elem_of_list_to_map.
Qed.

Lemma al_insert_to_map k v kvs :
  NoDup kvs.*1 → to_map (al_insert k v kvs) = <[k := v]> (to_map kvs).
Proof.
  intros Hnd. unfold al_insert, to_map. destruct (key_index k kvs) as [i|] eqn:Hi.
  - apply key_index_Some in Hi as [w Hi]; [|done].
    rewrite <-(take_drop_middle kvs i _ Hi) at 1 2.
    assert (length (take i kvs) = i) as Hlen
      by (apply lookup_lt_Some in Hi; rewrite length_take; lia).
    rewrite alter_app_r_alt, Hlen, Nat.sub_diag by lia. simpl.
    rewrite !list_to_map_app. simpl.
    assert (k ∉ (take i kvs).*1) as Hk.
    { rewrite <-(take_drop_middle kvs i _ Hi), fmap_app in Hnd. simpl in Hnd.
      apply NoDup_app in Hnd as (_ & Hd & _). intros Hin. apply (Hd k Hin). by left. }
    apply not_elem_of_list_to_map_1 in Hk as Hk'.
    rewrite <-!insert_union_r by done. by rewrite insert_insert_eq.
  - rewrite list_to_map_snoc; [done|]. by apply key_index_None.
Qed.

Lemma al_remove_to_map k kvs :
  NoDup kvs.*1 → to_map (al_remove k kvs) = delete k (to_map kvs).
Proof.
  intros Hnd. unfold al_remove, to_map. destruct (key_index k kvs) as [i|] eqn:Hi.
  - apply key_index_Some in Hi as [w Hi]; [|done].
    rewrite (delete_Permutation kvs i _ Hi) in Hnd. csimpl in Hnd.
    apply NoDup_cons in Hnd as [Hk Hnd].
    rewrite <-(list_to_map_proper ((k, w) :: delete i kvs) kvs).
    + simpl. rewrite delete_insert_id; [done|]. by apply not_elem_of_list_to_map_1.
    + csimpl. by constructor.
    + by rewrite <-(delete_Permutation kvs i _ Hi).
  - symmetry. apply delete_id, not_elem_of_list_to_map_1. by apply key_index_None.
Qed.
End finite_map.
