(* ===== verification/SmallMapOps.v ===== *)
(** The operations of [SmallMap] that change it, against ordered association lists:
    a total-correctness lemma for each, the theorem that they refine the list
    operations, and the finite map the whole stands for. *)

From S2P Require Import Prelude Vec2 Hashing VecMap SmallMap SmallMapSpec.

(** * Lemmas on table contents *)

Lemma entries_map_total (f : nat → comp nat) (g : nat → nat) (es : list (Z * nat)) :
  (∀ i, i ∈ es.*2 → f i = Ok (g i)) →
  entries_map f es = Ok ((λ p, (p.1, g p.2)) <$> es).
Proof.
  induction es as [|[h i] es IH]; intros Hf; [done|]. cbn [entries_map].
  rewrite Hf by (left; done). cbn [mbind result_bind].
  rewrite IH by (intros j Hj; apply Hf; by right). done.
Qed.

(** The closure of [shift_remove_index_hashed]: drops position [i], once, and closes
    the gap. *)
Definition retain_shift (i : nat) (removed : bool) (j : nat) : comp (bool * option nat) :=
  if j =? i then _ ← assert (negb removed); Ok (true, None)
  else if i <? j then Ok (removed, Some (j - 1))
  else Ok (removed, Some j).
Definition shift_index (i j : nat) : nat := if i <? j then j - 1 else j.

Lemma entries_retain_shift i s (es : list (Z * nat)) :
  NoDup es.*2 → (s = true → i ∉ es.*2) →
  entries_retain s (retain_shift i) es = Ok (s || bool_decide (i ∈ es.*2),
    (λ p, (p.1, shift_index i p.2)) <$> filter (λ p, p.2 ≠ i) es).
Proof.
  revert s. induction es as [|[h j] es IH]; intros s Hnd Hs.
  { rewrite bool_decide_eq_false_2, orb_false_r by apply not_elem_of_nil. done. }
  rewrite fmap_cons in Hnd. apply NoDup_cons in Hnd as [Hj Hnd]. simpl in Hj.
  cbn [entries_retain].
  replace (retain_shift i s j) with (if j =? i then _ ← assert (negb s); Ok (true, None)
    else Ok (s, Some (shift_index i j)) : comp (bool * option nat))
    by (unfold retain_shift, shift_index; by case_tests).
  rewrite filter_cons, !fmap_cons. simpl. destruct (j =? i) eqn:Hji.
  - apply Nat.eqb_eq in Hji as ->. destruct s; [exfalso; apply Hs; [done|by left]|].
    cbn [negb assert mbind result_bind]. rewrite IH by done. simpl.
    rewrite decide_False by (intros Hn; by apply Hn).
    by rewrite bool_decide_eq_true_2 by (by left).
  - apply Nat.eqb_neq in Hji.
    assert (bool_decide (i ∈ j :: es.*2) = bool_decide (i ∈ es.*2)) as ->.
    { apply bool_decide_ext. rewrite elem_of_cons. split; [by intros [->|]|by right]. }
    assert (s = true → i ∉ es.*2) as Hs' by (intros Ht Hin; apply (Hs Ht); by right).
    rewrite decide_True by done. cbn [mbind result_bind]. by rewrite IH.
Qed.

Section ops.
Context `{Toolchain} {T K V : Type} `{EqDecision K} `{HashTableOk nat T}.
Context `{SizeOf (K * V), SizeOf StarlarkHashValue, SizeOf (K * V * StarlarkHashValue)}.
Context (hash_of : K → StarlarkHashValue).
Implicit Types (m : SmallMap T K V) (l : list (K * V * StarlarkHashValue)).

Abbreviation wf := (wf hash_of).
Abbreviation hashed k := (mkHashed (hash_of k) k).

(** ** Building the index *)

Lemma insert_all_spec (t : T) l i :
  length (ht_entries t) + length l ≤ ht_capacity t →
  returns (insert_all t (hashed_entry <$> l) i) (λ t',
    ht_entries t' ≡ₚ ht_entries t ++ index_from i l).
Proof.
  revert t i. induction l as [|e l IH]; intros t i Hcap.
  { apply returns_ret. by rewrite app_nil_r. }
  csimpl. simpl in Hcap. step_with insert_room_ok; [lia|]. intros t1 [Ht1 Hc1].
  eapply returns_mono; [apply IH; rewrite Ht1; simpl; lia|]. intros t2 ->. cbn beta.
  rewrite Ht1, index_from_cons. simpl. by rewrite Permutation_middle.
Qed.

Lemma create_index_spec m l capacity :
  repr (buckets (entries m)) l → index m = None → length l ≤ capacity →
  (N.of_nat capacity ≤ ht_max)%N →
  returns (create_index m capacity) (λ m', entries m' = entries m ∧
    ∃ t, index m' = Some t ∧ ht_entries t ≡ₚ index_from 0 l).
Proof.
  intros Hr Hi Hc Hmax. unfold create_index. rewrite Hi. simpl.
  unfold VecMap_len. rewrite (repr_len _ _ Hr), (proj2 (Nat.leb_le _ _) Hc). simpl.
  step_with with_capacity_ok; [done|]. intros t [Ht Hcap].
  rewrite (VecMap_iter_hashed_spec _ _ Hr). simpl.
  step_with insert_all_spec; [rewrite Ht; simpl; lia|]. intros t' Ht'.
  apply returns_ret. split; [done|]. exists t'. by rewrite Ht', Ht.
Qed.

Lemma rebuild_index_spec m l :
  repr (buckets (entries m)) l →
  (∀ t, index m = Some t → length l ≤ length (ht_entries t)) →
  returns (rebuild_index m) (λ m', entries m' = entries m ∧
    match index m with
    | None => index m' = None
    | Some _ => ∃ t, index m' = Some t ∧ ht_entries t ≡ₚ index_from 0 l
    end).
Proof.
  intros Hr Hlen. unfold rebuild_index. destruct (index m) as [t|] eqn:Hi.
  - rewrite (VecMap_iter_hashed_spec _ _ Hr). simpl. destruct (clear_ok t) as [Hc1 Hc2].
    step_with insert_all_spec; [rewrite Hc1; simpl; specialize (Hlen t eq_refl); lia|].
    intros t' Ht'. apply returns_ret. split; [done|]. exists t'. by rewrite Ht', Hc1.
  - by apply returns_ret.
Qed.

Lemma hasher_spec (es : VecMap K V) l i e :
  repr (buckets es) l → l !! i = Some e → hasher es i = Ok (promote e.2).
Proof.
  intros Hr Hi. unfold hasher, VecMap_len.
  rewrite (repr_len _ _ Hr), (proj2 (Nat.ltb_lt _ _) (lookup_lt_Some _ _ _ Hi)). simpl.
  destruct e as [[k v] h]. by rewrite (VecMap_get_unchecked_spec _ _ _ _ _ _ Hr Hi).
Qed.

(** The hasher gives back the hashes the table holds, also after a push. *)
Lemma hasher_index (es : VecMap K V) l r (t : T) h i :
  repr (buckets es) (l ++ r) → ht_entries t ≡ₚ index_from 0 l → (h, i) ∈ ht_entries t →
  hasher es i = Ok h.
Proof.
  intros Hr Ht Hi. destruct (index_lookup _ _ _ _ Ht Hi) as (e & He & ->).
  apply (hasher_spec _ _ _ _ Hr). by apply lookup_app_l_Some.
Qed.

(** [room m n]: memory and table can take [n] more entries. *)
Definition room m (n : nat) : Prop :=
  fits (K * V) StarlarkHashValue
    (2 * (VecMap_len (entries m) + VecMap_capacity (entries m)) + 8 + n) ∧
  (N.of_nat (VecMap_len (entries m) + n) ≤ ht_max)%N.

Lemma room_le m n n' : room m n → n' ≤ n → room m n'.
Proof. intros [Hf Hm] Hn. split; [eapply fits_le; [done|lia]|lia]. Qed.

Lemma room_can_reserve m l n : wf m l → room m n → can_reserve (buckets (entries m)) n.
Proof. intros Hw [Hf _]. by eapply can_reserve_fits; [apply Hw|]. Qed.

(** ** Insertion *)

Lemma wf_snoc m (es : VecMap K V) l k v o :
  wf m l → key_index k l.*1 = None →
  repr (buckets es) (l ++ [((k, v), hash_of k)]) →
  match o with
  | None => length l < NO_INDEX_THRESHOLD
  | Some t => ht_entries t ≡ₚ (promote (hash_of k), length l) :: index_from 0 l
  end →
  wf (mkSmallMap es o) (l ++ [((k, v), hash_of k)]).
Proof.
  intros Hw Hk Hr Ho. split; simpl; [done|..].
  - rewrite !fmap_app. apply NoDup_app. split_and!; [apply Hw| |apply NoDup_singleton].
    intros x Hx ->%list_elem_of_singleton. by apply key_index_None in Hk.
  - intros e [He|He%list_elem_of_singleton]%elem_of_app; [by apply (wf_hash _ _ _ Hw)|].
    by subst.
  - destruct o as [t|]; [|rewrite length_app; simpl; lia].
    rewrite Ho, index_from_snoc. apply Permutation_cons_append.
Qed.

Lemma insert_hashed_unique_unchecked_spec m l k v :
  wf m l → key_index k l.*1 = None → room m 1 →
  returns (insert_hashed_unique_unchecked m (hashed k) v) (λ '(m', (k', v', set)),
    wf m' (l ++ [((k, v), hash_of k)]) ∧ k' = k ∧ v' = v ∧
    ∀ w, wf (set w) (l ++ [((k, w), hash_of k)])).
Proof.
  intros Hw Hk Hroom. pose proof (wf_entries _ _ _ Hw) as Hr. unfold insert_hashed_unique_unchecked.
  step_with VecMap_insert_spec; [done|by eapply room_can_reserve|]. intros es Hes.
  assert (VecMap_len es = S (length l)) as Hlen.
  { unfold VecMap_len. rewrite (repr_len _ _ Hes), length_app. simpl. lia. }
  pose proof (wf_len _ _ _ Hw) as Hlenm. pose proof (wf_index _ _ _ Hw) as Hidx.
  apply returns_bind. eapply (returns_mono _ (λ m', wf m' (l ++ [((k, v), hash_of k)]))).
  - destruct (index m) as [t|] eqn:Hi.
    + step_with insert_grow_ok.
      * rewrite Hidx, length_index_from. destruct Hroom as [_ Hmax]. lia.
      * intros h i. by apply (hasher_index _ l [((k, v), hash_of k)]).
      * intros t' Ht'. apply returns_ret. eapply wf_snoc; [done|done|done|].
        by rewrite Ht', Hidx, Hlenm.
    + rewrite Hlen. destruct (S (length l) =? NO_INDEX_THRESHOLD + 1) eqn:Hth.
      * eapply returns_mono; [apply create_index_spec; [done|done| |]|].
        -- rewrite length_app. simpl. lia.
        -- destruct Hroom as [_ Hmax]. lia.
        -- intros [es' o] [He (t & Ho & Ht)]. simpl in He, Ho. subst. eapply wf_snoc; [done..|].
           rewrite Ht, index_from_snoc. symmetry. apply Permutation_cons_append.
      * apply Nat.eqb_neq in Hth. rewrite (proj2 (Nat.ltb_lt _ _)) by lia. simpl.
        apply returns_ret. eapply wf_snoc; [done..|]. lia.
  - intros m' Hw'. pose proof (wf_len _ _ _ Hw') as Hlen'. rewrite length_app in Hlen'. simpl in Hlen'.
    rewrite Hlen'. replace (length l + 1 - 1) with (length l) by lia.
    assert ((l ++ [((k, v), hash_of k)]) !! length l = Some ((k, v), hash_of k)) as Hat
      by (by apply list_lookup_middle).
    step_with VecMap_get_unchecked_mut_spec; [apply Hw'|exact Hat|].
    intros [[hk v'] set] (-> & -> & Hset). apply returns_ret. split_and!; [done..|].
    intros w. specialize (Hset w).
    assert (<[length l := ((k, w), hash_of k)]> (l ++ [((k, v), hash_of k)]) =
            l ++ [((k, w), hash_of k)]) as Heq.
    { rewrite insert_app_r_alt by lia. by rewrite Nat.sub_diag. }
    rewrite <-Heq. eapply (wf_set_value _ m' _ _ _ v); [exact Hw'|done|exact Hset].
Qed.

Lemma al_insert_absent l k v :
  key_index k l.*1 = None → al_insert k v l.*1 = (l ++ [((k, v), hash_of k)]).*1.
Proof. intros Hk. unfold al_insert. by rewrite Hk, fmap_app. Qed.

Lemma insert_hashed_spec m l k v :
  wf m l → room m 1 →
  returns (insert_hashed m (hashed k) v) (λ '(old, m'), old = al_get k l.*1 ∧
    ∃ l', wf m' l' ∧ l'.*1 = al_insert k v l.*1).
Proof.
  intros Hw Hroom. unfold insert_hashed. simpl.
  rewrite (get_index_of_hashed_raw_spec _ _ _ _ Hw). cbn [mbind result_bind]. unfold al_get.
  destruct (key_index k l.*1) as [i|] eqn:Hk.
  - pose proof Hk as Hi. apply (key_index_entry _ _ _ _ _ Hw) in Hi as [v' Hi].
    rewrite (wf_len _ _ _ Hw), (proj2 (Nat.ltb_lt _ _) (lookup_lt_Some _ _ _ Hi)). simpl.
    step_with VecMap_get_unchecked_mut_spec; [apply Hw|exact Hi|].
    intros [[hk old] set] (-> & -> & Hset). apply returns_ret.
    split; [by rewrite list_lookup_fmap, Hi|]. eexists. split; [by eapply wf_set_value|].
    symmetry. by eapply al_insert_present; [apply Hw|].
  - step_with insert_hashed_unique_unchecked_spec; [done..|].
    intros [m' [[k' v'] set]] (Hw' & _). apply returns_ret. split; [done|].
    eexists. split; [done|]. by rewrite (al_insert_absent _ _ _ Hk).
Qed.

(** [entry(k).or_insert_with(default)], and an assignment through the reference. *)
Lemma or_insert_with_spec m l k (default : () → V) :
  wf m l → room m 1 →
  returns (e ← entry_hashed m (hashed k); or_insert_with e default) (λ '(v, set),
    v = match al_get k l.*1 with Some v => v | None => default () end ∧
    ∀ w, ∃ l', wf (set w) l' ∧ l'.*1 = al_insert k w l.*1).
Proof.
  intros Hw Hroom. unfold entry_hashed. simpl.
  rewrite (get_index_of_hashed_raw_spec _ _ _ _ Hw). cbn [mbind result_bind]. unfold al_get.
  destruct (key_index k l.*1) as [i|] eqn:Hk.
  - pose proof Hk as Hi. apply (key_index_entry _ _ _ _ _ Hw) in Hi as [v' Hi]. simpl.
    apply returns_bind. step_with VecMap_get_unchecked_mut_spec; [apply Hw|exact Hi|].
    intros [[hk old] set] (-> & -> & Hset). do 2 apply returns_ret. split.
    + by rewrite list_lookup_fmap, Hi.
    + intros w. eexists. split; [by eapply wf_set_value|].
      symmetry. by eapply al_insert_present; [apply Hw|].
  - simpl. unfold or_insert_with. simpl. unfold VacantEntry_insert_entry.
    apply returns_bind.
    (step_with insert_hashed_unique_unchecked_spec; [done..|]).
    intros [m' [[k' v'] set]] (_ & -> & -> & Hset). do 2 apply returns_ret. split; [done|].
    intros w. eexists. split; [apply Hset|]. by rewrite (al_insert_absent _ _ _ Hk).
Qed.

(** ** Removal *)

(** The index without the entry for position [i], and with the gap closed. *)
Lemma index_from_delete l i e :
  l !! i = Some e →
  ∃ rest, index_from 0 l ≡ₚ (promote e.2, i) :: rest ∧ (i ∉ rest.*2) ∧
    ((λ p, (p.1, shift_index i p.2)) <$> rest) = index_from 0 (delete i l) ∧
    (S i = length l → rest = index_from 0 (delete i l)).
Proof.
  intros Hi. pose proof (lookup_lt_Some _ _ _ Hi) as Hlt.
  assert (length (take i l) = i) as Hlen by (rewrite length_take; lia).
  exists (index_from 0 (take i l) ++ index_from (S i) (drop (S i) l)). split_and!.
  - rewrite <-(take_drop_middle l i e Hi) at 1.
    rewrite index_from_app, index_from_cons, Hlen. symmetry. apply Permutation_middle.
  - rewrite fmap_app, elem_of_app. intros [Hin|Hin]; apply index_from_snd_lt in Hin; lia.
  - rewrite fmap_app, delete_take_drop, index_from_app, Hlen. f_equal.
    + apply index_from_renumber. intros j Hj. unfold shift_index. case_tests; [|lia].
      apply Nat.ltb_lt in Heqb. lia.
    + apply index_from_renumber. intros j Hj. unfold shift_index. case_tests; [lia|].
      apply Nat.ltb_ge in Heqb. lia.
  - intros Hlast. rewrite delete_take_drop, index_from_app.
    by rewrite drop_ge by lia.
Qed.

Lemma wf_delete m l i (es : VecMap K V) o :
  wf m l → repr (buckets es) (delete i l) →
  match index m, o with
  | None, None => True
  | _, Some t => ht_entries t ≡ₚ index_from 0 (delete i l)
  | Some _, None => False
  end →
  wf (mkSmallMap es o) (delete i l).
Proof.
  intros Hw Hr Ho. split; simpl; [done|..].
  - apply (sublist_NoDup _ l.*1.*1); [apply Hw|]. do 2 apply fmap_sublist. apply sublist_delete.
  - intros e He. apply (wf_hash _ _ _ Hw). eapply elem_of_sublist; [done|apply sublist_delete].
  - pose proof (wf_index _ _ _ Hw) as Hidx. destruct o as [t|]; [by destruct (index m)|].
    destruct (index m); [done|]. etrans; [|done]. apply sublist_length, sublist_delete.
Qed.

(** What finding and removing the entry at [i] leaves in the table. *)
Lemma find_remove_rest m l (t t' : T) h i e rest :
  wf m l → index m = Some t → l !! i = Some e →
  index_from 0 l ≡ₚ (promote e.2, i) :: rest →
  ht_entries t ≡ₚ (h, i) :: ht_entries t' → ht_entries t' ≡ₚ rest.
Proof.
  intros Hw Ht Hi Hrest Hfr. pose proof (wf_index _ _ _ Hw) as Hidx. rewrite Ht in Hidx.
  assert (h = promote e.2) as ->.
  { destruct (index_lookup _ _ h i Hidx) as (e' & He' & ->); [rewrite Hfr; by left|].
    by simplify_eq. }
  eapply Permutation_cons_inv. by rewrite <-Hfr, Hidx.
Qed.

Lemma shift_remove_hashed_entry_spec m l k :
  wf m l →
  returns (shift_remove_hashed_entry m (hashed k)) (λ '(o, m'),
    o = (λ v, (k, v)) <$> al_get k l.*1 ∧
    ∃ l', wf m' l' ∧ l'.*1 = al_remove k l.*1).
Proof.
  intros Hw. pose proof (wf_entries _ _ _ Hw) as Hr.
  unfold shift_remove_hashed_entry, al_get, al_remove.
  destruct (index m) as [t|] eqn:Ht.
  - pose proof (wf_index _ _ _ Hw) as Hidx. rewrite Ht in Hidx.
    step_with find_remove_ok.
    { intros h i Hi. by apply (index_eq_ok _ _ _ _ _ _ Hr Hidx Hi). }
    intros [[i t']|] Ho; simpl in Ho.
    + destruct Ho as (h & Hfr & Heq).
      assert ((h, i) ∈ ht_entries t) as Hin by (rewrite Hfr; by left).
      rewrite (index_hit _ _ _ _ _ _ _ Hw Ht Hin Heq). simpl.
      pose proof (index_hit _ _ _ _ _ _ _ Hw Ht Hin Heq) as Hk.
      apply (key_index_entry _ _ _ _ _ Hw) in Hk as [v Hi].
      destruct (index_from_delete _ _ _ Hi) as (rest & Hrest & Hni & Hshift & Hlast).
      pose proof (find_remove_rest _ _ _ _ _ _ _ _ Hw Ht Hi Hrest Hfr) as Ht'.
      apply returns_bind, (returns_mono _ (λ t'', ht_entries t'' ≡ₚ index_from 0 (delete i l))).
      * rewrite (wf_len _ _ _ Hw). destruct (i =? length l - 1) eqn:Hil.
        -- apply Nat.eqb_eq in Hil. apply returns_ret. rewrite Ht', Hlast; [done|].
           apply lookup_lt_Some in Hi. lia.
        -- eapply returns_mono; [eapply iter_mut_ok, (entries_map_total _ (shift_index i))|].
           ++ intros j Hj. rewrite Ht' in Hj. rewrite (proj2 (Nat.eqb_neq j i)) by (by intros ->).
              done.
           ++ cbn beta. intros t'' ->. by rewrite Ht', Hshift.
      * intros t'' Ht''. step_with VecMap_remove_spec; [done|exact Hi|].
        intros [[hk w] es] (-> & -> & Hes). apply returns_ret.
        split; [by rewrite list_lookup_fmap, Hi|].
        exists (delete i l). split; [eapply wf_delete; [done..|by rewrite Ht]|].
        by rewrite list_fmap_delete.
    + rewrite (index_miss _ _ _ _ _ Hw Ht Ho). apply returns_ret. split; [done|eauto].
  - unfold VecMap_remove_hashed_entry, VecMap_get_index_of_hashed. simpl.
    rewrite (VecMap_get_index_of_hashed_raw_spec _ _ _ _ Hr). simpl.
    rewrite (raw_index_key_index _ _ _ _ Hw).
    destruct (key_index k l.*1) as [i|] eqn:Hk; simpl.
    + apply (key_index_entry _ _ _ _ _ Hw) in Hk as [v Hi].
      apply returns_bind. step_with VecMap_remove_spec; [done|exact Hi|].
      intros [[hk w] es] (-> & -> & Hes). do 2 apply returns_ret.
      split; [by rewrite list_lookup_fmap, Hi|].
      exists (delete i l). split; [eapply wf_delete; [done..|by rewrite Ht]|].
      by rewrite list_fmap_delete.
    + apply returns_ret. split; [done|]. exists l. split; [|done].
      destruct m as [es o]. simpl in *. by subst.
Qed.

Lemma shift_remove_index_hashed_spec m l i :
  wf m l →
  returns (shift_remove_index_hashed m i) (λ '(o, m'),
    o = hashed_entry <$> l !! i ∧ ∃ l', wf m' l' ∧ l'.*1 = delete i l.*1).
Proof.
  intros Hw. pose proof (wf_entries _ _ _ Hw) as Hr. unfold shift_remove_index_hashed, SmallMap_len.
  rewrite (wf_len _ _ _ Hw). destruct (length l <=? i) eqn:Hlt.
  { apply Nat.leb_le in Hlt. apply returns_ret. rewrite lookup_ge_None_2 by done.
    split; [done|]. exists l. split; [done|].
    by rewrite delete_take_drop, take_ge, drop_ge, app_nil_r by (rewrite length_fmap; lia). }
  apply Nat.leb_gt in Hlt. destruct (lookup_lt_is_Some_2 _ _ Hlt) as [[[k v] h] Hi].
  apply returns_bind, (returns_mono _ (λ o, match index m, o with
    | None, None => True
    | _, Some t => ht_entries t ≡ₚ index_from 0 (delete i l)
    | Some _, None => False
    end)).
  - destruct (index m) as [t|] eqn:Ht; [|by apply returns_ret].
    pose proof (wf_index _ _ _ Hw) as Hidx. rewrite Ht in Hidx.
    destruct (index_from_delete _ _ _ Hi) as (rest & Hrest & Hni & Hshift & _).
    assert (ht_entries t ≡ₚ (promote h, i) :: rest) as Hall by by rewrite Hidx.
    assert (NoDup (ht_entries t).*2) as Hnd.
    { rewrite Hidx. unfold index_from. rewrite fmap_imap.
      apply NoDup_alt. intros a b x Ha Hb. rewrite !list_lookup_imap in Ha, Hb.
      destruct (l !! a), (l !! b); simplify_eq/=. lia. }
    step_with (retain_ok _ t false _ (retain_shift i));
      [by apply (entries_retain_shift i false)|].
    intros [s t'] [-> Ht']. rewrite bool_decide_eq_true_2 by (rewrite Hall; by left).
    simpl. apply returns_ret. rewrite Ht', Hall, filter_cons_False by (simpl; tauto).
    rewrite <-Hshift. f_equiv. apply reflexive_eq, filter_id.
    intros [a j] Hj. simpl. intros ->. apply Hni. apply list_elem_of_fmap. by exists (a, i).
  - intros o Ho. step_with VecMap_remove_spec; [done|exact Hi|].
    intros [[hk w] es] (-> & -> & Hes). apply returns_ret. rewrite Hi. split; [done|].
    exists (delete i l). split; [by eapply wf_delete|]. by rewrite list_fmap_delete.
Qed.

Lemma SmallMap_pop_spec m l :
  wf m l →
  returns (SmallMap_pop m) (λ '(o, m'),
    o = list.last l.*1 ∧ ∃ l', wf m' l' ∧ l'.*1 = take (length l - 1) l.*1).
Proof.
  intros Hw. pose proof (wf_entries _ _ _ Hw) as Hr. unfold SmallMap_pop.
  step_with VecMap_pop_spec; [done|]. intros [o es] [-> Hes].
  rewrite fmap_last. destruct (list.last l) as [e|] eqn:Hlast.
  - rewrite last_lookup in Hlast. set (i := Nat.pred (length l)) in *.
    pose proof (lookup_lt_Some _ _ _ Hlast) as Hlt.
    assert (delete i l = take (length l - 1) l) as Hdel.
    { rewrite delete_take_drop, drop_ge, app_nil_r by lia. f_equal. lia. }
    assert (VecMap_len es = i) as Hlen.
    { unfold VecMap_len. rewrite (repr_len _ _ Hes), length_take. lia. }
    cbn [fmap option_fmap option_map]. unfold hashed_entry. simpl.
    apply returns_bind, (returns_mono _ (λ o, match index m, o with
      | None, None => True
      | _, Some t => ht_entries t ≡ₚ index_from 0 (delete i l)
      | Some _, None => False
      end)).
    + destruct (index m) as [t|] eqn:Ht; [|by apply returns_ret].
      pose proof (wf_index _ _ _ Hw) as Hidx. rewrite Ht in Hidx. rewrite Hlen.
      step_with find_remove_ok; [done|]. intros [[j t']|] Ho; simpl in Ho.
      * destruct Ho as (h & Hfr & [= Hj%Nat.eqb_eq]). subst j.
        rewrite Nat.eqb_refl. apply returns_ret.
        destruct (index_from_delete _ _ _ Hlast) as (rest & Hrest & _ & _ & Hl).
        rewrite <-Hl by lia. by eapply find_remove_rest.
      * specialize (Ho i (index_lookup_inv _ _ _ _ Hidx Hlast)).
        by rewrite Nat.eqb_refl in Ho.
    + intros o Ho. apply returns_ret. split; [by destruct e as [[k v] h]|].
      exists (delete i l). rewrite Hdel, fmap_take. split; [|done].
      rewrite <-Hdel in Hes |- *. by eapply wf_delete.
  - apply last_None in Hlast as ->. apply returns_ret. split; [done|]. exists []. split; [|done].
    split; [done|apply Hw..].
Qed.

Lemma SmallMap_clear_spec m l : wf m l → wf (SmallMap_clear m) [].
Proof.
  intros Hw. split; simpl.
  - by apply (clear_spec _ l), Hw.
  - constructor.
  - set_solver.
  - destruct (index m) as [t|]; [|lia]. by rewrite (proj1 (clear_ok t)).
Qed.

Lemma SmallMap_reserve_spec m l n :
  wf m l → room m n → returns (SmallMap_reserve m n) (λ m', wf m' l).
Proof.
  intros Hw Hroom. unfold SmallMap_reserve, VecMap_reserve.
  apply returns_bind. step_with reserve_spec; [apply Hw|by eapply room_can_reserve|].
  intros b (Hb & _). apply returns_ret. pose proof (wf_index _ _ _ Hw) as Hidx.
  pose proof (wf_len _ _ _ Hw) as Hlen. destruct Hroom as [_ Hmax]. simpl.
  assert (SmallMap_len (T:=T) (mkSmallMap (mkVecMap b) (index m)) = length l) as Hlb
    by apply (repr_len _ _ Hb).
  rewrite Hlb. destruct (index m) as [t|] eqn:Ht.
  - step_with reserve_ok.
    + rewrite Hidx, length_index_from. lia.
    + intros h i. apply (hasher_index _ l []); [by rewrite app_nil_r|done].
    + intros t' Ht'. apply returns_ret. split; simpl; [done|apply Hw..|]. by rewrite Ht'.
  - case_tests.
    + eapply returns_mono; [apply (create_index_spec _ l); simpl; [done|done|lia|lia]|].
      intros [es o] [He (t & Ho & Hte)]. simpl in He, Ho. subst. by split; simpl; [|apply Hw..|].
    + apply returns_ret. split; [done|apply Hw..|]. done.
Qed.

Lemma maybe_drop_index_spec m l : wf m l → wf (maybe_drop_index m) l.
Proof.
  intros Hw. unfold maybe_drop_index. rewrite (wf_len _ _ _ Hw).
  destruct (length l <=? NO_INDEX_THRESHOLD) eqn:Hle; [|done].
  split; simpl; [apply Hw..|]. by apply Nat.leb_le.
Qed.

(** ** Reordering *)

Lemma wf_rebuild m (es : VecMap K V) l l' :
  wf m l → repr (buckets es) l' → (l'.*1.*1) `sublist_of` (l.*1.*1) ∨ l' ≡ₚ l →
  (∀ e, e ∈ l' → e.2 = hash_of e.1.1) →
  returns (rebuild_index (mkSmallMap es (index m))) (λ m', wf m' l').
Proof.
  intros Hw Hr Hsub Hh. pose proof (wf_index _ _ _ Hw) as Hidx.
  assert (length l' ≤ length l) as Hlen.
  { destruct Hsub as [Hs|Hs]; [|by rewrite Hs].
    apply sublist_length in Hs. by rewrite !length_fmap in Hs. }
  assert (NoDup l'.*1.*1) as Hnd.
  { destruct Hsub as [Hs|Hs]; [eapply sublist_NoDup; [|done]|rewrite Hs]; apply Hw. }
  eapply returns_mono; [eapply rebuild_index_spec; [exact Hr|]|].
  - simpl. intros t Ht. rewrite Ht in Hidx. by rewrite Hidx, length_index_from.
  - intros [es' o] [He Ho]. simpl in *. subst es'. split; simpl; [done..|].
    destruct (index m); [by destruct Ho as (t' & -> & Ht')|]. rewrite Ho. lia.
Qed.

Lemma SmallMap_sort_keys_spec (cmp : K → K → comparison) `{!TotalCompare cmp} m l :
  wf m l → room m 0 →
  returns (SmallMap_sort_keys cmp m) (λ m',
    ∃ l', wf m' l' ∧ l'.*1 = stable_sort (λ x y, cmp x.1 y.1) l.*1).
Proof.
  intros Hw Hroom. pose proof (wf_entries _ _ _ Hw) as Hr.
  unfold SmallMap_sort_keys, VecMap_is_sorted_by_key. rewrite (aaa_spec _ _ Hr). simpl.
  destruct (windows2_all _ l.*1) eqn:Hsorted.
  - apply returns_ret. exists l. split; [done|]. symmetry. apply stable_sort_id; [apply _|].
    apply windows2_all_spec in Hsorted. rewrite <-(list_fmap_id l.*1).
    eapply Sorted_fmap; [|exact Hsorted].
    intros x y. unfold le_compare. simpl. by destruct (cmp x.1 y.1).
  - step_with (VecMap_sort_keys_spec cmp); [done| |].
    { destruct Hroom as [Hf _]. eapply fits_le; [exact Hf|].
      rewrite (wf_len _ _ _ Hw). lia. }
    intros es Hes. eapply returns_mono; [eapply (wf_rebuild _ _ l); [done..| |]|].
    + right. apply stable_sort_perm.
    + intros e. rewrite stable_sort_perm. apply (wf_hash _ _ _ Hw).
    + intros m' Hw'. eexists. split; [exact Hw'|].
      apply (stable_sort_fmap fst (λ x y, cmp x.1 y.1)).
Qed.

Lemma index_from_reverse n c l :
  n + length l ≤ c →
  (λ p, (p.1, c - 1 - p.2)) <$> index_from n l ≡ₚ index_from (c - n - length l) (reverse l).
Proof.
  revert n. induction l as [|e l IH]; intros n Hc; [done|]. simpl in Hc.
  rewrite reverse_cons, index_from_app, length_reverse, !index_from_cons, fmap_cons. simpl.
  rewrite (IH (S n)) by lia. replace (c - S n - length l) with (c - n - S (length l)) by lia.
  replace (c - n - S (length l) + length l) with (c - 1 - n) by lia.
  apply Permutation_cons_append.
Qed.

Lemma SmallMap_reverse_spec m l :
  wf m l → returns (SmallMap_reverse m) (λ m', wf m' (reverse l)).
Proof.
  intros Hw. pose proof (wf_index _ _ _ Hw) as Hidx. unfold SmallMap_reverse.
  step_with VecMap_reverse_spec; [apply Hw|]. intros es Hes.
  assert (∀ o, match o with
    | None => length l ≤ NO_INDEX_THRESHOLD
    | Some t => ht_entries t ≡ₚ index_from 0 (reverse l)
    end → wf (mkSmallMap es o) (reverse l)) as Hwf.
  { intros o Ho. split; simpl; [done|..].
    - rewrite reverse_Permutation. apply Hw.
    - intros e. rewrite elem_of_reverse. apply Hw.
    - destruct o; [done|]. by rewrite length_reverse. }
  destruct (index m) as [t|]; [|by apply returns_ret, Hwf].
  unfold VecMap_len. rewrite (repr_len _ _ Hes), length_reverse.
  step_with iter_mut_ok; [apply (entries_map_total _ (λ j, length l - 1 - j))|].
  - intros i Hi. rewrite Hidx in Hi. apply index_from_snd_lt in Hi. unfold checked_sub.
    rewrite (proj2 (Nat.leb_le _ _)) by lia. simpl. by rewrite (proj2 (Nat.leb_le _ _)) by lia.
  - intros t' Ht'. apply returns_ret, Hwf. rewrite Ht', Hidx, index_from_reverse by lia.
    by replace (length l - 0 - length l) with 0 by lia.
Qed.

Lemma retained_cons (f : K → V → bool * V) k v h l :
  retained f (((k, v), h) :: l) =
    (if (f k v).1 then [((k, (f k v).2), h)] else []) ++ retained f l.
Proof. unfold retained, kept. simpl. by destruct (f k v) as [[|] w]. Qed.

Lemma retained_al (f : K → V → bool * V) l : (retained f l).*1 = al_retain f l.*1.
Proof.
  unfold al_retain. induction l as [|[[k v] h] l IH]; [done|].
  rewrite retained_cons, fmap_app, IH, fmap_cons, filter_cons. simpl.
  destruct (f k v) as [[|] w] eqn:Hf; simpl; [|done]. by rewrite Hf.
Qed.

Lemma retained_sublist (f : K → V → bool * V) l :
  (retained f l).*1.*1 `sublist_of` l.*1.*1.
Proof.
  induction l as [|[[k v] h] l IH]; [done|]. rewrite retained_cons.
  destruct (f k v) as [[|] w]; simpl; [by constructor|by constructor].
Qed.

Lemma retained_hash (f : K → V → bool * V) l :
  (∀ e, e ∈ l → e.2 = hash_of e.1.1) → ∀ e, e ∈ retained f l → e.2 = hash_of e.1.1.
Proof.
  induction l as [|[[k v] h] l IH]; intros Hl e; [by intros ?%elem_of_nil|].
  rewrite retained_cons, elem_of_app. intros [He|He].
  - destruct (f k v) as [[|] w]; simpl in He; [|by apply elem_of_nil in He].
    apply list_elem_of_singleton in He as ->. apply (Hl ((k, v), h)). by left.
  - apply IH; [|done]. intros e' He'. apply Hl. by right.
Qed.

(** Nothing was removed, so hashes and positions are what they were. *)
Lemma retained_same_length (f : K → V → bool * V) n l :
  length l ≤ length (retained f l) → index_from n (retained f l) = index_from n l.
Proof.
  assert (∀ l, length (retained f l) ≤ length l) as Hle.
  { intros l'. pose proof (sublist_length _ _ (retained_sublist f l')) as Hs.
    by rewrite !length_fmap in Hs. }
  revert n. induction l as [|[[k v] h] l IH]; intros n; [done|].
  rewrite retained_cons, length_app, !index_from_cons. specialize (Hle l).
  destruct (f k v) as [[|] w]; simpl; intros Hlen; [|lia].
  rewrite index_from_cons, IH by lia. done.
Qed.

Lemma SmallMap_retain_spec m l (f : K → V → bool * V) :
  wf m l →
  returns (SmallMap_retain m f) (λ m', ∃ l', wf m' l' ∧ l'.*1 = al_retain f l.*1).
Proof.
  intros Hw. unfold SmallMap_retain.
  step_with VecMap_retain_spec; [apply Hw|]. intros es Hes.
  unfold SmallMap_len. rewrite (wf_len _ _ _ Hw). simpl.
  unfold VecMap_len. rewrite (repr_len _ _ Hes).
  pose proof (sublist_length _ _ (retained_sublist f l)) as Hle. rewrite !length_fmap in Hle.
  rewrite (proj2 (Nat.leb_le _ _)) by lia. simpl.
  apply (returns_mono _ (λ m', wf m' (retained f l))).
  - destruct (length (retained f l) <? length l) eqn:Hlt.
    + eapply wf_rebuild; [done|done|left; apply retained_sublist|].
      apply retained_hash, Hw.
    + apply Nat.ltb_ge in Hlt. apply returns_ret. split; simpl; [done|..].
      * eapply sublist_NoDup; [apply Hw|apply retained_sublist].
      * apply retained_hash, Hw.
      * rewrite retained_same_length by done. pose proof (wf_index _ _ _ Hw).
        destruct (index m); [done|]. lia.
  - intros m' Hw'. exists (retained f l). split; [done|apply retained_al].
Qed.
End ops.

(** * Equality and construction *)

Section whole.
Context `{Toolchain} {T K V : Type} `{Countable K} `{HashTableOk nat T}.
Context `{SizeOf (K * V), SizeOf StarlarkHashValue, SizeOf (K * V * StarlarkHashValue)}.
Context (hash_of : K → StarlarkHashValue).
Implicit Types (m : SmallMap T K V) (l : list (K * V * StarlarkHashValue)).

Abbreviation wf := (wf hash_of).

Lemma all_present_spec `{EqDecision V} l m l' :
  (∀ e, e ∈ l → e.2 = hash_of e.1.1) → wf m l' →
  all_present (hashed_entry <$> l) m =
    Ok (forallb (λ kv, bool_decide (al_get kv.1 l'.*1 = Some kv.2)) l.*1).
Proof.
  intros Hl Hw. induction l as [|[[k v] h] l IH]; [done|]. csimpl.
  assert (h = hash_of k) as -> by (apply (Hl ((k, v), h)); by left).
  rewrite (get_hashed_spec _ _ _ _ Hw). simpl.
  case_bool_decide; [|done]. apply IH. intros e He. apply Hl. by right.
Qed.

Lemma SmallMap_eq_maps `{EqDecision V} m l m' l' :
  wf m l → wf m' l' →
  SmallMap_eq m m' = Ok (bool_decide (to_map l.*1 = to_map l'.*1)).
Proof.
  intros Hw Hw'. pose proof (wf_nodup _ _ _ Hw) as Hnd. pose proof (wf_nodup _ _ _ Hw') as Hnd'.
  assert (size (to_map l.*1) = length l) as Hs
    by (unfold to_map; by rewrite map_size_list_to_map, length_fmap).
  assert (size (to_map l'.*1) = length l') as Hs'
    by (unfold to_map; by rewrite map_size_list_to_map, length_fmap).
  unfold SmallMap_eq, SmallMap_len. rewrite (wf_len _ _ _ Hw), (wf_len _ _ _ Hw').
  destruct (length l =? length l') eqn:Hlen.
  - apply Nat.eqb_eq in Hlen. unfold SmallMap_iter_hashed.
    rewrite (VecMap_iter_hashed_spec _ _ (wf_entries _ _ _ Hw)). cbn [mbind result_bind].
    rewrite (all_present_spec _ _ _ (wf_hash _ _ _ Hw) Hw'). f_equal.
    apply eq_bool_prop_intro. rewrite bool_decide_spec, forallb_True, Forall_forall. split.
    + intros Hall. apply map_subseteq_size_eq; [|lia]. apply map_subseteq_spec.
      intros k v Hk. apply (elem_of_list_to_map_2 l.*1) in Hk. apply Hall in Hk.
      apply bool_decide_spec in Hk. simpl in Hk. by rewrite al_get_to_map in Hk.
    + intros Heq [k v] Hkv. apply bool_decide_spec. simpl.
      rewrite al_get_to_map, <-Heq, <-al_get_to_map by done. by apply al_get_elem.
  - apply Nat.eqb_neq in Hlen. rewrite bool_decide_eq_false_2; [done|].
    intros Heq. apply Hlen. by rewrite <-Hs, <-Hs', Heq.
Qed.

Lemma wf_hashes m l : wf m l → l.*2 = (λ kv, hash_of kv.1) <$> l.*1.
Proof.
  intros Hw. pose proof (wf_hash _ _ _ Hw) as Hh. clear Hw.
  induction l as [|[kv h] l IH]; [done|]. csimpl. f_equal.
  - apply (Hh (kv, h)). by left.
  - apply IH. intros e He. apply Hh. by right.
Qed.

Lemma SmallMap_eq_ordered_spec `{EqDecision V} m l m' l' :
  wf m l → wf m' l' → SmallMap_eq_ordered m m' = Ok (bool_decide (l.*1 = l'.*1)).
Proof.
  intros Hw Hw'. unfold SmallMap_eq_ordered, VecMap_eq_ordered.
  pose proof (wf_entries _ _ _ Hw) as Hr. pose proof (wf_entries _ _ _ Hw') as Hr'.
  rewrite (bbb_spec _ _ Hr), (bbb_spec _ _ Hr'), (aaa_spec _ _ Hr), (aaa_spec _ _ Hr').
  cbn [mbind result_bind]. rewrite (wf_hashes _ _ Hw), (wf_hashes _ _ Hw'). f_equal.
  case_bool_decide as Hh; [done|]. symmetry. apply bool_decide_eq_false.
  intros He. apply Hh. by rewrite He.
Qed.

Lemma SmallMap_new_wf : wf (SmallMap_new (T:=T) (K:=K) (V:=V)) [].
Proof. split; [apply new_spec|constructor|set_solver|simpl; lia]. Qed.

Lemma SmallMap_with_capacity_spec n :
  fits (K * V) StarlarkHashValue n → (N.of_nat n ≤ ht_max)%N →
  returns (SmallMap_with_capacity (T:=T) n) (λ m, wf m []).
Proof.
  intros Hf Hn. unfold SmallMap_with_capacity, VecMap_with_capacity.
  assert (n = 0 ∨ alloc_ok (K * V) StarlarkHashValue n) as Hc.
  { destruct (decide (n = 0)); [by left|right]. apply Hf. lia. }
  case_tests; apply returns_bind; step_with with_capacity_spec; try done;
    intros b [Hb _]; apply returns_ret.
  - apply returns_ret. split; [done|constructor|set_solver|simpl; lia].
  - step_with with_capacity_ok; [done|]. intros t [Ht _]. apply returns_ret.
    split; simpl; [done|constructor|set_solver|by rewrite Ht].
Qed.
End whole.

(** * The map as an abstract data type *)

Inductive map_op (K V : Type) : Type :=
| MapInsert (k : K) (v : V)
| MapGet (k : K)
| MapIndexOf (k : K)
| MapAssign (k : K) (v : V)
| MapEntryOr (k : K) (default v : V)
| MapRemove (k : K)
| MapRemoveIndex (i : nat)
| MapPop
| MapClear
| MapReserve (n : nat)
| MapSortKeys (cmp : K → K → comparison)
| MapReverse
| MapRetain (f : K → V → bool * V)
| MapDropIndex
| MapIter.
Arguments MapInsert {K V}. Arguments MapGet {K V}. Arguments MapIndexOf {K V}.
Arguments MapAssign {K V}. Arguments MapEntryOr {K V}. Arguments MapRemove {K V}.
Arguments MapRemoveIndex {K V}. Arguments MapPop {K V}. Arguments MapClear {K V}.
Arguments MapReserve {K V}. Arguments MapSortKeys {K V}. Arguments MapReverse {K V}.
Arguments MapRetain {K V}. Arguments MapDropIndex {K V}. Arguments MapIter {K V}.

Inductive map_answer (K V : Type) : Type :=
| AnsUnit
| AnsValue (o : option V)
| AnsIndex (o : option nat)
| AnsEntry (o : option (K * V))
| AnsEntries (l : list (K * V)).
Arguments AnsUnit {K V}. Arguments AnsValue {K V}. Arguments AnsIndex {K V}.
Arguments AnsEntry {K V}. Arguments AnsEntries {K V}.

(** What an ordered association list does. *)
Definition al_exec {K V} `{EqDecision K} (kvs : list (K * V)) (op : map_op K V) :
    map_answer K V * list (K * V) :=
  match op with
  | MapInsert k v => (AnsValue (al_get k kvs), al_insert k v kvs)
  | MapGet k => (AnsValue (al_get k kvs), kvs)
  | MapIndexOf k => (AnsIndex (key_index k kvs), kvs)
  | MapAssign k v => (AnsValue (al_get k kvs),
      match al_get k kvs with Some _ => al_insert k v kvs | None => kvs end)
  | MapEntryOr k d v => (AnsValue (Some (match al_get k kvs with Some v => v | None => d end)),
      al_insert k v kvs)
  | MapRemove k => (AnsEntry ((λ v, (k, v)) <$> al_get k kvs), al_remove k kvs)
  | MapRemoveIndex i => (AnsEntry (kvs !! i), delete i kvs)
  | MapPop => (AnsEntry (list.last kvs), take (length kvs - 1) kvs)
  | MapClear => (AnsUnit, [])
  | MapReserve _ => (AnsUnit, kvs)
  | MapSortKeys cmp => (AnsUnit, stable_sort (λ x y, cmp x.1 y.1) kvs)
  | MapReverse => (AnsUnit, reverse kvs)
  | MapRetain f => (AnsUnit, al_retain f kvs)
  | MapDropIndex => (AnsUnit, kvs)
  | MapIter => (AnsEntries kvs, kvs)
  end.

Section refinement.
Context `{Toolchain} {T K V : Type} `{EqDecision K} `{HashTableOk nat T}.
Context `{SizeOf (K * V), SizeOf StarlarkHashValue, SizeOf (K * V * StarlarkHashValue)}.
Context (hash_of : K → StarlarkHashValue).
Implicit Types (m : SmallMap T K V) (l : list (K * V * StarlarkHashValue)).

(** What the implementation does; [MapAssign] and [MapEntryOr] assign through the
    reference that [get_mut] and [or_insert_with] return. *)
Definition map_exec m (op : map_op K V) : comp (map_answer K V * SmallMap T K V) :=
  match op with
  | MapInsert k v => '(o, m) ← SmallMap_insert hash_of m k v; Ok (AnsValue o, m)
  | MapGet k => o ← SmallMap_get hash_of m k; Ok (AnsValue o, m)
  | MapIndexOf k => o ← get_index_of hash_of m k; Ok (AnsIndex o, m)
  | MapAssign k v =>
    o ← SmallMap_get_mut hash_of m k;
    Ok (match o with Some (old, set) => (AnsValue (Some old), set v)
                   | None => (AnsValue None, m) end)
  | MapEntryOr k default v =>
    '(old, set) ← (e ← entry hash_of m k; or_insert_with e (λ _, default));
    Ok (AnsValue (Some old), set v)
  | MapRemove k => '(o, m) ← shift_remove_entry hash_of m k; Ok (AnsEntry o, m)
  | MapRemoveIndex i => '(o, m) ← shift_remove_index m i; Ok (AnsEntry o, m)
  | MapPop => '(o, m) ← SmallMap_pop m; Ok (AnsEntry o, m)
  | MapClear => Ok (AnsUnit, SmallMap_clear m)
  | MapReserve n => m ← SmallMap_reserve m n; Ok (AnsUnit, m)
  | MapSortKeys cmp => m ← SmallMap_sort_keys cmp m; Ok (AnsUnit, m)
  | MapReverse => m ← SmallMap_reverse m; Ok (AnsUnit, m)
  | MapRetain f => m ← SmallMap_retain m f; Ok (AnsUnit, m)
  | MapDropIndex => Ok (AnsUnit, maybe_drop_index m)
  | MapIter => l ← SmallMap_iter m; Ok (AnsEntries l, m)
  end.

Definition map_demand (op : map_op K V) : nat := match op with MapReserve n => n | _ => 1 end.
Definition op_ok (op : map_op K V) : Prop :=
  match op with MapSortKeys cmp => TotalCompare cmp | _ => True end.

(** C7: [SmallMap] refines an ordered association list. From a well-formed map, with
    memory and table able to take what the operation adds, every operation returns
    (no assertion of the index fails, no position is out of range), its answer is the
    list's, and the new map is well-formed for the new list. This covers both
    representations (with and without index), the switch between them, and the
    renumbering of positions on removal, reversal, sorting and [retain]. *)
Theorem smallmap_refines m l (op : map_op K V) :
  wf hash_of m l → room m (map_demand op) → op_ok op →
  returns (map_exec m op) (λ '(answer, m'), ∃ l',
    wf hash_of m' l' ∧ al_exec l.*1 op = (answer, l'.*1)).
Proof.
  intros Hw Hroom Hop. pose proof (wf_entries _ _ _ Hw) as Hr.
  destruct op as [k v|k|k|k v|k d v|k|i| | |n|cmp| |f| |]; simpl in *.
  - step_with insert_hashed_spec; [done..|]. intros [o m'] (-> & l' & Hw' & <-).
    apply returns_ret. eauto.
  - unfold SmallMap_get, Hashed_new. rewrite (get_hashed_spec _ _ _ _ Hw). apply returns_ret. eauto.
  - unfold get_index_of, Hashed_new. rewrite (get_index_of_hashed_spec _ _ _ _ Hw). apply returns_ret. eauto.
  - step_with get_mut_hashed_spec; [done|]. intros [[old set]|] Ho; apply returns_ret.
    + destruct Ho as [-> Hset]. destruct (Hset v) as (l' & Hw' & <-). eauto.
    + unfold al_get. rewrite Ho. eauto.
  - step_with or_insert_with_spec; [done..|]. intros [old set] (-> & Hset). apply returns_ret.
    destruct (Hset v) as (l' & Hw' & <-). eexists. split; [exact Hw'|].
    by destruct (al_get k l.*1).
  - step_with shift_remove_hashed_entry_spec; [done|]. intros [o m'] (-> & l' & Hw' & <-).
    apply returns_ret. eauto.
  - apply returns_bind. step_with shift_remove_index_hashed_spec; [done|].
    intros [o m'] (-> & l' & Hw' & <-). do 2 apply returns_ret. eexists. split; [exact Hw'|].
    rewrite list_lookup_fmap. by destruct (l !! i) as [[[k v] h]|].
  - step_with SmallMap_pop_spec; [done|]. intros [o m'] (-> & l' & Hw' & Hl').
    apply returns_ret. exists l'. by rewrite Hl', length_fmap.
  - apply returns_ret. exists []. split; [by eapply SmallMap_clear_spec|done].
  - step_with SmallMap_reserve_spec; [done..|]. intros m' Hw'. apply returns_ret. eauto.
  - step_with SmallMap_sort_keys_spec; [done..|by eapply room_le, Nat.le_0_l|].
    intros m' (l' & Hw' & <-). apply returns_ret. eauto.
  - step_with SmallMap_reverse_spec; [done|]. intros m' Hw'. apply returns_ret.
    exists (reverse l). by rewrite fmap_reverse.
  - step_with SmallMap_retain_spec; [done|]. intros m' (l' & Hw' & <-). apply returns_ret. eauto.
  - apply returns_ret. exists l. split; [by apply maybe_drop_index_spec|done].
  - unfold SmallMap_iter. rewrite (VecMap_iter_spec _ _ Hr). apply returns_ret. eauto.
Qed.
End refinement.

Section finite_maps.
Context `{Toolchain} {T K V : Type} `{Countable K} `{HashTableOk nat T}.
Context `{SizeOf (K * V), SizeOf StarlarkHashValue, SizeOf (K * V * StarlarkHashValue)}.
Context (hash_of : K → StarlarkHashValue).
Implicit Types (m : SmallMap T K V) (l : list (K * V * StarlarkHashValue)).

(** Seen as a finite map, forgetting the order: [get] is lookup, [insert] returns
    the old value and updates one key, [shift_remove] returns the value and deletes
    one key. *)
Theorem smallmap_finite_map m l k v :
  wf hash_of m l → room m 1 →
  SmallMap_get hash_of m k = Ok (to_map l.*1 !! k) ∧
  returns (SmallMap_insert hash_of m k v) (λ '(old, m'), old = to_map l.*1 !! k ∧
    ∃ l', wf hash_of m' l' ∧ to_map l'.*1 = <[k := v]> (to_map l.*1)) ∧
  returns (shift_remove hash_of m k) (λ '(old, m'), old = to_map l.*1 !! k ∧
    ∃ l', wf hash_of m' l' ∧ to_map l'.*1 = delete k (to_map l.*1)).
Proof.
  intros Hw Hroom. pose proof (wf_nodup _ _ _ Hw) as Hnd. rewrite <-al_get_to_map by done.
  split_and!.
  - apply (get_hashed_spec _ _ _ _ Hw).
  - eapply returns_mono; [by apply insert_hashed_spec|].
    intros [old m'] (-> & l' & Hw' & Hl'). split; [done|]. exists l'. split; [done|].
    by rewrite Hl', al_insert_to_map.
  - step_with shift_remove_hashed_entry_spec; [done|].
    intros [o m'] (-> & l' & Hw' & Hl'). apply returns_ret.
    split; [by destruct (al_get k l.*1)|]. exists l'. split; [done|].
    by rewrite Hl', al_remove_to_map.
Qed.

(** [==] on maps never fails and decides whether the two maps hold the same
    entries, whatever their insertion orders and representations. *)
Theorem smallmap_eq_unordered `{EqDecision V} m l m' l' :
  wf hash_of m l → wf hash_of m' l' →
  SmallMap_eq m m' = Ok (bool_decide (to_map l.*1 = to_map l'.*1)).
Proof. apply SmallMap_eq_maps. Qed.
End finite_maps.

(** A concrete map with an index, and one without. *)
Definition stable_toolchain : Toolchain := {| rust_nightly := false |}.
#[local] Existing Instances stable_toolchain size_words size_u64.
#[local] Instance size_entry : SizeOf (Z * Z * Z) := {| size_of := 24; align_of := 8 |}%Z.
Definition witness_hash (k : Z) : StarlarkHashValue := (k mod 2)%Z.

Definition witness_indexed : SmallMap (list_table nat) Z Z :=
  mkSmallMap
    (mkVecMap (mkVec2 [Some (3, 30); Some (1, 10); None]%Z [Some 1; Some 1; None]%Z 2 3))
    (Some (mkListTable [(promote 1, 1); (promote 1, 0)] 4)).
Definition witness_plain : SmallMap (list_table nat) Z Z :=
  mkSmallMap
    (mkVecMap (mkVec2 [Some (1, 10); Some (3, 30)]%Z [Some 1; Some 1]%Z 2 2)) None.

Lemma witness_wf :
  wf witness_hash witness_indexed [(3, 30, 1); (1, 10, 1)]%Z ∧
  wf witness_hash witness_plain [(1, 10, 1); (3, 30, 1)]%Z.
Proof.
  split; split; simpl.
  1,5: split; try done; intros [|[|[|i]]] x Hx; simpl in *; simplify_eq/=; done.
  1,4: apply (bool_decide_unpack _); vm_compute; exact I.
  1,3: intros e [->|[->|[]%elem_of_nil]%elem_of_cons]%elem_of_cons; done.
  - apply Permutation_swap.
  - unfold NO_INDEX_THRESHOLD. simpl. lia.
Defined.

Lemma witness_fits : fits (Z * Z) Z 40.
Proof.
  split; [unfold usize_max, u64_max; lia|]. intros c Hc. unfold alloc_ok, Vec2Layout_new_checked,
    Layout_array, Layout_from_size_align, Layout_extend. simpl.
  do 41 (destruct c as [|c]; [vm_compute; by eexists|]). lia.
Defined.

Lemma witness_room : room witness_indexed 1 ∧ room witness_plain 1.
Proof.
  split; (split; [eapply fits_le; [exact witness_fits|vm_compute; lia]|vm_compute; discriminate]).
Defined.

Lemma smallmap_refines_witness :
  returns (map_exec witness_hash witness_indexed (MapRemove 3%Z)) (λ '(answer, m'), ∃ l',
    wf witness_hash m' l' ∧ (AnsEntry (Some (3, 30)), [(1, 10)])%Z = (answer, l'.*1)).
Proof.
  eapply returns_mono; [exact (smallmap_refines witness_hash witness_indexed
    [(3, 30, 1); (1, 10, 1)]%Z (MapRemove 3%Z) (proj1 witness_wf) (proj1 witness_room) I)|].
  intros [answer m'] (l' & Hw & Ha). exists l'. split; [exact Hw|].
  rewrite <-Ha. vm_compute. reflexivity.
Defined.

Lemma smallmap_finite_map_witness :
  SmallMap_get witness_hash witness_plain 3%Z = Ok (Some 30%Z).
Proof.
  exact (proj1 (smallmap_finite_map witness_hash witness_plain _ 3%Z 0%Z
    (proj2 witness_wf) (proj2 witness_room))).
Defined.

Lemma smallmap_eq_unordered_witness : SmallMap_eq witness_indexed witness_plain = Ok true.
Proof.
  rewrite (smallmap_eq_unordered witness_hash _ _ _ _ (proj1 witness_wf) (proj2 witness_wf)).
  vm_compute. reflexivity.
Defined.
