(* ===== verification/OrdMap.v ===== *)
(** What the users of a keyword dictionary rely on: an interface for insertion-ordered maps,
    with the laws of an association list, and [SmallMap] as an implementation of it.  The
    clients' theorems are proved against the interface; the capacity that the laws bound is
    that of the implementation's memory and table. *)

From S2P Require Import Prelude Vec2 Hashing VecMap SmallMap SmallMapSpec SmallMapOps.

(** * The interface *)

Class OrdMap (K V M : Type) := {
  om_with_capacity : nat → comp M;
  om_insert_unique : M → Hashed K → V → comp M;
  om_insert : M → Hashed K → V → comp (option V * M);
  om_entries : M → comp (list (K * V));
}.

(** At most [om_max] entries. *)
Class OrdMapOk (K V M : Type) `{EqDecision K} `{OrdMap K V M} (hash_of : K → StarlarkHashValue) := {
  om_max : nat;
  om_models : M → list (K * V) → Prop;
  om_with_capacity_ok n : n ≤ om_max → returns (om_with_capacity n) (λ m, om_models m []);
  om_insert_unique_ok m kvs k v :
    om_models m kvs → k ∉ kvs.*1 → length kvs < om_max →
    returns (om_insert_unique m (mkHashed (hash_of k) k) v) (λ m', om_models m' (kvs ++ [(k, v)]));
  om_insert_ok m kvs k v :
    om_models m kvs → length kvs < om_max →
    returns (om_insert m (mkHashed (hash_of k) k) v) (λ '(old, m'),
      old = al_get k kvs ∧ om_models m' (al_insert k v kvs));
  om_entries_ok m kvs : om_models m kvs → om_entries m = Ok kvs;
}.
#[global] Hint Mode OrdMap - - ! : typeclass_instances.

(** * Capacity of a [SmallMap] *)

(** How far an insertion grows the map. *)
Section capacity.
Context `{Toolchain} {T K V : Type} `{EqDecision K} `{HashTable nat T}.
Context `{SizeOf (K * V), SizeOf StarlarkHashValue, SizeOf (K * V * StarlarkHashValue)}.
Implicit Types m : SmallMap T K V.

Lemma push_capacity {A B E} `{SizeOf A, SizeOf B, SizeOf (A * B)} (v v' : Vec2 A B) a b :
  push (E:=E) v a b = Ok v' → cap v' ≤ Nat.max (cap v) (2 * len v + 8) ∧ len v' = len v + 1.
Proof.
  unfold push. intros (w & Hw & (ca & _ & (cb & _ & [= <-])%bind_Ok)%bind_Ok)%bind_Ok. simpl.
  assert (len w = len v ∧ cap w ≤ Nat.max (cap v) (2 * len v + 8)) as [-> ?]; [|done].
  unfold reserve in Hw. destruct (Nat.ltb_spec (cap v - len v) 1) as [Hlt|_]; [|simplify_eq; lia].
  unfold reserve_slow in Hw. apply bind_Ok in Hw as (_ & _ & (r & Hr & Hw)%bind_Ok).
  apply bind_Ok in Hw as (new & _ & (xs & _ & (ys & _ & Hw)%bind_Ok)%bind_Ok). simplify_eq/=.
  destruct (Z.leb _ _) in Hr; simplify_eq/=. pose proof (MIN_NON_ZERO_CAP_bounds (A:=A) (B:=B)). lia.
Qed.

Lemma insert_unique_capacity m hk v m' x :
  insert_hashed_unique_unchecked m hk v = Ok (m', x) →
  SmallMap_capacity m' ≤ Nat.max (SmallMap_capacity m) (2 * SmallMap_len m + 8).
Proof.
  unfold insert_hashed_unique_unchecked, VecMap_insert_hashed_unique_unchecked.
  intros (es & (b & [Hb _]%push_capacity & [= <-])%bind_Ok & (w & Hw & Hx)%bind_Ok)%bind_Ok.
  apply bind_Ok in Hx as ([[hk' v'] set] & _ & [= -> _]).
  assert (entries m' = mkVecMap b) as Hm'; [|unfold SmallMap_capacity; by rewrite Hm'].
  destruct (index m) as [t|].
  - by apply bind_Ok in Hw as (t' & _ & [= <-]).
  - destruct (_ =? _).
    + unfold create_index in Hw.
      by apply bind_Ok in Hw as (_ & _ & (_ & _ & (? & _ & (? & _ & (? & _ & [= <-])%bind_Ok)%bind_Ok)
        %bind_Ok)%bind_Ok).
    + by apply bind_Ok in Hw as (_ & _ & [= <-]).
Qed.

Lemma insert_capacity m hk v old m' :
  insert_hashed m hk v = Ok (old, m') →
  SmallMap_capacity m' ≤ Nat.max (SmallMap_capacity m) (2 * SmallMap_len m + 8).
Proof.
  unfold insert_hashed. intros ([i|] & _ & Hm)%bind_Ok.
  - apply bind_Ok in Hm as (_ & _ & ([[hk' v'] set] & Hset & [= _ <-])%bind_Ok).
    apply bind_Ok in Hset as (_ & _ & ([[[k w] h] set'] & Hset' & [= _ _ <-])%bind_Ok).
    apply bind_Ok in Hset' as (_ & _ & (? & _ & (? & _ & [= _ _ <-])%bind_Ok)%bind_Ok).
    unfold SmallMap_capacity, VecMap_capacity, capacity. simpl. lia.
  - apply bind_Ok in Hm as ([m'' x] & Hm & [= _ <-]). by eapply insert_unique_capacity.
Qed.

Lemma with_capacity_capacity n m :
  SmallMap_with_capacity (T:=T) n = Ok m → SmallMap_capacity m = n.
Proof.
  assert (∀ es : VecMap K V, VecMap_with_capacity (E:=Empty_set) n = Ok es → VecMap_capacity es = n) as Hes.
  { intros es (b & Hb & [= <-])%bind_Ok. unfold with_capacity in Hb.
    destruct (Nat.eqb_spec n 0) as [->|_]; [by simplify_eq|].
    by apply bind_Ok in Hb as (_ & _ & [= <-]). }
  unfold SmallMap_with_capacity. destruct (n <=? NO_INDEX_THRESHOLD).
  - intros (es & ?%Hes & [= <-])%bind_Ok. done.
  - intros (es & ?%Hes & (t & _ & [= <-])%bind_Ok)%bind_Ok. done.
Qed.
End capacity.

(** * The implementation *)

Section small_map.
Context `{Toolchain} {T K V : Type} `{EqDecision K} `{HashTableOk nat T}.
Context `{SizeOf (K * V), SizeOf StarlarkHashValue, SizeOf (K * V * StarlarkHashValue)}.
Context (hash_of : K → StarlarkHashValue).

#[export] Instance small_map_ord_map : OrdMap K V (SmallMap T K V) := {
  om_with_capacity := SmallMap_with_capacity;
  om_insert_unique m k v := '(m, _) ← insert_hashed_unique_unchecked m k v; Ok m;
  om_insert := insert_hashed;
  om_entries := SmallMap_iter;
}.

(** A map of at most [n] entries that memory and table can hold. *)
Definition bounded_models (n : nat) (m : SmallMap T K V) (kvs : list (K * V)) : Prop :=
  SmallMap_capacity m ≤ 2 * n + 8 ∧ ∃ l, wf hash_of m l ∧ l.*1 = kvs.

Section bounded.
Context (n : nat) (Hfits : fits (K * V) StarlarkHashValue (6 * n + 25)) (Hn : (N.of_nat n < ht_max)%N).

Lemma bounded_room m l :
  SmallMap_capacity m ≤ 2 * n + 8 → wf hash_of m l → length l < n → room m 1.
Proof using Hfits Hn.
  intros Hc Hw Hl. split.
  - eapply fits_le; [done|]. fold (SmallMap_capacity m). rewrite (wf_len _ _ _ Hw). lia.
  - rewrite (wf_len _ _ _ Hw). lia.
Qed.

#[export] Program Instance small_map_ord_map_ok : OrdMapOk K V (SmallMap T K V) hash_of :=
  {| om_max := n; om_models := bounded_models n |}.
Next Obligation.
  intros c Hc. eapply returns_mono.
  - eapply (returns_mono _ (λ m, wf hash_of m [] ∧ SmallMap_capacity m = c)); [|intros m Hm; exact Hm].
    destruct (SmallMap_with_capacity_spec (T:=T) (K:=K) (V:=V) hash_of c) as (m & Hm & Hw);
      [eapply fits_le; [done|lia]|lia|].
    exists m. split; [done|]. split; [done|]. by apply with_capacity_capacity.
  - intros m [Hw Hcap]. split; [lia|]. by exists [].
Qed.
Next Obligation.
  intros m kvs k v (Hc & l & Hw & <-) Hk Hl. rewrite length_fmap in Hl. unfold om_insert_unique; simpl.
  destruct (insert_hashed_unique_unchecked_spec hash_of m l k v) as ([m' [[k' v'] set]] & Hm & Hw' & _);
    [done|by apply key_index_None|by eapply bounded_room|].
  rewrite Hm. apply returns_ret. split.
  - apply insert_unique_capacity in Hm. unfold SmallMap_len in Hm. rewrite (wf_len _ _ _ Hw) in Hm. lia.
  - eexists. split; [done|]. by rewrite fmap_app.
Qed.
Next Obligation.
  intros m kvs k v (Hc & l & Hw & <-) Hl. rewrite length_fmap in Hl. unfold om_insert; simpl.
  destruct (insert_hashed_spec hash_of m l k v) as ([old m'] & Hm & -> & l' & Hw' & Hl');
    [done|by eapply bounded_room|].
  exists (al_get k l.*1, m'). split_and!; [done..|]. split; [|by exists l'].
  apply insert_capacity in Hm. unfold SmallMap_len in Hm. rewrite (wf_len _ _ _ Hw) in Hm. lia.
Qed.
Next Obligation.
  intros m kvs (_ & l & Hw & <-). apply VecMap_iter_spec, Hw.
Qed.
End bounded.
End small_map.
