(* ===== verification/SmallSet.v ===== *)
(** [starlark_map/src/small_set.rs]: the insertion-ordered set, a [SmallMap] with unit
    values, and its refinement of lists without duplicates. *)

From S2P Require Import Prelude Vec2 Hashing VecMap SmallMap SmallMapSpec SmallMapOps.

Section SmallSet.
Context `{Toolchain} {TT T : Type} `{EqDecision T} `{HashTable nat TT}.
Context `{SizeOf (T * unit), SizeOf StarlarkHashValue, SizeOf (T * unit * StarlarkHashValue)}.

Definition SmallSet : Type := SmallMap TT T unit.
Implicit Types s : SmallSet.

Definition SmallSet_new : SmallSet := SmallMap_new.
Definition SmallSet_with_capacity (n : nat) : comp SmallSet := SmallMap_with_capacity n.
Definition SmallSet_capacity s : nat := SmallMap_capacity s.
Definition SmallSet_len s : nat := SmallMap_len s.
Definition SmallSet_is_empty s : bool := SmallMap_is_empty s.
Definition SmallSet_iter s : comp (list T) := SmallMap_keys s.

(** ** Operations on prehashed elements *)

Definition SmallSet_insert_hashed s (k : Hashed T) : comp (bool * SmallSet) :=
  '(o, s) ← insert_hashed s k ();
  Ok (match o with None => true | Some _ => false end, s).
Definition SmallSet_insert_hashed_unique_unchecked s (k : Hashed T) : comp SmallSet :=
  '(s, _) ← insert_hashed_unique_unchecked s k (); Ok s.
Definition SmallSet_get_hashed s (value : Hashed T) : comp (option T) :=
  o ← get_full_hashed s value; Ok (option_map (λ '(_, t, _), t) o).
Definition SmallSet_get_index s (index : nat) : comp (option T) :=
  o ← SmallMap_get_index s index; Ok (option_map fst o).
Definition SmallSet_get_index_of_hashed s (value : Hashed T) : comp (option nat) :=
  get_index_of_hashed s value.
Definition SmallSet_get_index_of_hashed_by_value s (value : Hashed T) : comp (option nat) :=
  get_index_of_hashed_by_value s value.
Definition SmallSet_contains_hashed s (k : Hashed T) : comp bool := contains_key_hashed s k.
Definition SmallSet_shift_remove_hashed s (k : Hashed T) : comp (bool * SmallSet) :=
  '(o, s) ← shift_remove_hashed s k;
  Ok (match o with Some _ => true | None => false end, s).
Definition SmallSet_shift_remove_index_hashed s (i : nat) :
    comp (option (Hashed T) * SmallSet) :=
  '(o, s) ← shift_remove_index_hashed s i; Ok (option_map fst o, s).
Definition SmallSet_shift_remove_index s (i : nat) : comp (option T * SmallSet) :=
  '(o, s) ← SmallSet_shift_remove_index_hashed s i; Ok (option_map key o, s).

(** ** Operations on the whole set *)

Definition SmallSet_pop s : comp (option T * SmallSet) :=
  '(o, s) ← SmallMap_pop s; Ok (option_map fst o, s).
Definition SmallSet_clear s : SmallSet := SmallMap_clear s.
Definition SmallSet_first s : comp (option T) := o ← SmallMap_first s; Ok (option_map fst o).
Definition SmallSet_last s : comp (option T) := o ← SmallMap_last s; Ok (option_map fst o).
Definition SmallSet_sort (cmp : T → T → comparison) s : comp SmallSet :=
  SmallMap_sort_keys cmp s.
Definition SmallSet_reverse s : comp SmallSet := SmallMap_reverse s.
Definition SmallSet_retain s (f : T → bool) : comp SmallSet :=
  SmallMap_retain s (λ k v, (f k, v)).
Definition SmallSet_eq_ordered s (other : SmallSet) : comp bool := SmallMap_eq_ordered s other.
Definition SmallSet_eq s (other : SmallSet) : comp bool := SmallMap_eq s other.

(** ** Operations that hash *)

Context (hash_of : T → StarlarkHashValue).

Definition SmallSet_insert s (k : T) : comp (bool * SmallSet) :=
  '(o, s) ← SmallMap_insert hash_of s k ();
  Ok (match o with None => true | Some _ => false end, s).
Definition SmallSet_insert_unique_unchecked s (k : T) : comp SmallSet :=
  '(s, _) ← insert_unique_unchecked hash_of s k (); Ok s.
Definition SmallSet_get s (value : T) : comp (option T) :=
  o ← get_full hash_of s value; Ok (option_map (λ '(_, t, _), t) o).
Definition SmallSet_get_index_of s (value : T) : comp (option nat) :=
  get_index_of hash_of s value.
Definition SmallSet_shift_remove s (k : T) : comp (bool * SmallSet) :=
  '(o, s) ← shift_remove hash_of s k;
  Ok (match o with Some _ => true | None => false end, s).
Definition SmallSet_take s (k : T) : comp (option T * SmallSet) :=
  '(o, s) ← shift_remove_entry hash_of s k; Ok (option_map fst o, s).
Definition SmallSet_contains s (k : T) : comp bool := contains_key hash_of s k.

(** Returns the element of the set, and the set. *)
Definition SmallSet_get_or_insert s (value : T) : comp (T * SmallSet) :=
  let value := Hashed_new hash_of value in
  o ← get_index_of_hashed_raw s (hash value) (equivalent (key value));
  match o with
  | Some index => '(k, _) ← (o ← SmallMap_get_index s index; unwrap o); Ok (k, s)
  | None => '(s, (k, _, _)) ← insert_hashed_unique_unchecked s value (); Ok (k, s)
  end.
Definition SmallSet_get_or_insert_owned s (value : T) : comp (T * SmallSet) :=
  let value := Hashed_new hash_of value in
  o ← get_index_of_hashed s value;
  match o with
  | Some index => '(k, _) ← (o ← SmallMap_get_index s index; unwrap o); Ok (k, s)
  | None => '(s, (k, _, _)) ← insert_hashed_unique_unchecked s value (); Ok (k, s)
  end.

(** The iterators, run to the end. *)
Fixpoint Difference_run (iter : list T) (other : SmallSet) : comp (list T) :=
  match iter with
  | [] => Ok []
  | item :: iter =>
    b ← SmallSet_contains other item;
    rest ← Difference_run iter other;
    Ok (if b : bool then rest else item :: rest)
  end.
Definition Difference_size_hint (iter : list T) (other : SmallSet) : nat * nat :=
  (length iter - SmallSet_len other, length iter).
Definition SmallSet_difference s (other : SmallSet) : comp (list T) :=
  iter ← SmallSet_iter s; Difference_run iter other.
Definition SmallSet_union s (other : SmallSet) : comp (list T) :=
  iter ← SmallSet_iter s; rest ← SmallSet_difference other s; Ok (iter ++ rest).

Fixpoint insert_each s (iter : list T) : comp SmallSet :=
  match iter with
  | [] => Ok s
  | t :: iter => '(_, s) ← SmallSet_insert s t; insert_each s iter
  end.
Definition SmallSet_from_iter (size_hint : nat) (iter : list T) : comp SmallSet :=
  smallset ← SmallSet_with_capacity size_hint; insert_each smallset iter.
Definition SmallSet_extend s (iter : list T) : comp SmallSet :=
  SmallMap_extend hash_of s ((λ v, (v, ())) <$> iter).
End SmallSet.
Arguments SmallSet TT T : clear implicits.

(** * Ordered sets as lists *)

Section elements.
Context {T : Type} `{EqDecision T}.
Implicit Types l : list T.

Definition pos_of (k : T) l : option nat := find_index (λ x, bool_decide (k = x)) l.
Definition ol_insert (k : T) l : list T := if decide (k ∈ l) then l else l ++ [k].
Definition ol_remove (k : T) l : list T := filter (λ x, x ≠ k) l.
Definition ol_minus l l' : list T := filter (λ x, x ∉ l') l.

Lemma key_index_pos k (kvs : list (T * unit)) : key_index k kvs = pos_of k kvs.*1.
Proof. unfold pos_of. by rewrite find_index_fmap. Qed.

Lemma pos_of_Some k l i : pos_of k l = Some i → l !! i = Some k.
Proof.
  intros [(x & Hx & He) _]%find_index_Some. apply bool_decide_eq_true in He. by subst.
Qed.

Lemma pos_of_None k l : pos_of k l = None ↔ k ∉ l.
Proof.
  unfold pos_of. rewrite find_index_None, list_elem_of_lookup. split.
  - intros Hn [i Hi]. apply Hn in Hi. by apply bool_decide_eq_false in Hi.
  - intros Hn i x Hi. apply bool_decide_eq_false. intros ->. eauto.
Qed.

Lemma pos_of_elem k l i : pos_of k l = Some i → k ∈ l.
Proof. intros Hi%pos_of_Some. apply list_elem_of_lookup. eauto. Qed.

Lemma al_get_elem_of k (kvs : list (T * unit)) :
  al_get k kvs = if decide (k ∈ kvs.*1) then Some () else None.
Proof.
  unfold al_get. rewrite key_index_pos. destruct (pos_of k kvs.*1) as [i|] eqn:Hi; simpl.
  - rewrite decide_True by by eapply pos_of_elem. apply pos_of_Some in Hi.
    rewrite list_lookup_fmap in Hi. by destruct (kvs !! i) as [[? []]|].
  - rewrite decide_False; [done|]. by apply pos_of_None.
Qed.

Lemma al_insert_elem k v (kvs : list (T * unit)) : (al_insert k v kvs).*1 = ol_insert k kvs.*1.
Proof.
  unfold al_insert, ol_insert. rewrite key_index_pos.
  destruct (pos_of k kvs.*1) as [i|] eqn:Hi.
  - rewrite decide_True by by eapply pos_of_elem. rewrite (list_fmap_alter _ _ id) by by apply Forall_forall. by apply list_alter_id.
  - rewrite decide_False by by apply pos_of_None. by rewrite fmap_app.
Qed.

Lemma delete_pos k l i : NoDup l → l !! i = Some k → delete i l = ol_remove k l.
Proof.
  intros Hnd. revert i. induction Hnd as [|x l Hx Hnd IH]; intros [|i] Hi; [done|done|..]; simpl in *.
  - injection Hi as ->. unfold ol_remove. rewrite filter_cons_False by naive_solver.
    symmetry. apply filter_id. by intros y Hy ->.
  - unfold ol_remove. rewrite filter_cons_True; [f_equal; by apply IH|].
    intros ->. apply Hx. apply list_elem_of_lookup. eauto.
Qed.

Lemma al_remove_elem k (kvs : list (T * unit)) :
  NoDup kvs.*1 → (al_remove k kvs).*1 = ol_remove k kvs.*1.
Proof.
  intros Hnd. unfold al_remove. rewrite key_index_pos. destruct (pos_of k kvs.*1) as [i|] eqn:Hi.
  - rewrite list_fmap_delete. apply delete_pos; [done|by apply pos_of_Some].
  - symmetry. apply filter_id. intros y Hy ->.
    by apply pos_of_None in Hi.
Qed.

Lemma al_retain_elem (f : T → bool) (kvs : list (T * unit)) :
  (al_retain (λ k v, (f k, v)) kvs).*1 = filter (λ x, f x = true) kvs.*1.
Proof.
  unfold al_retain. induction kvs as [|[k v] kvs IH]; [done|].
  csimpl. rewrite !filter_cons. simpl. case_decide; csimpl; [by f_equal|done].
Qed.

Lemma unit_pairs (kvs : list (T * unit)) : kvs = (λ k, (k, ())) <$> kvs.*1.
Proof. induction kvs as [|[k []] kvs IH]; csimpl; congruence. Qed.
End elements.

(** * The set as an abstract data type *)

Inductive set_op (T : Type) : Type :=
| SetInsert (k : T)
| SetGet (k : T)
| SetContains (k : T)
| SetIndexOf (k : T)
| SetAt (i : nat)
| SetGetOrInsert (k : T)
| SetRemove (k : T)
| SetTake (k : T)
| SetRemoveIndex (i : nat)
| SetPop
| SetClear
| SetFirst
| SetLast
| SetSort (cmp : T → T → comparison)
| SetReverse
| SetRetain (f : T → bool)
| SetIter.
Arguments SetInsert {T}. Arguments SetGet {T}. Arguments SetContains {T}.
Arguments SetIndexOf {T}. Arguments SetAt {T}. Arguments SetGetOrInsert {T}.
Arguments SetRemove {T}. Arguments SetTake {T}. Arguments SetRemoveIndex {T}.
Arguments SetPop {T}. Arguments SetClear {T}. Arguments SetFirst {T}. Arguments SetLast {T}.
Arguments SetSort {T}. Arguments SetReverse {T}. Arguments SetRetain {T}. Arguments SetIter {T}.

Inductive set_answer (T : Type) : Type :=
| SetUnit
| SetBool (b : bool)
| SetElem (o : option T)
| SetPos (o : option nat)
| SetElems (l : list T).
Arguments SetUnit {T}. Arguments SetBool {T}. Arguments SetElem {T}. Arguments SetPos {T}.
Arguments SetElems {T}.

(** What a list without duplicates does. *)
Definition ol_exec {T} `{EqDecision T} (l : list T) (op : set_op T) : set_answer T * list T :=
  match op with
  | SetInsert k => (SetBool (bool_decide (k ∉ l)), ol_insert k l)
  | SetGet k => (SetElem (if decide (k ∈ l) then Some k else None), l)
  | SetContains k => (SetBool (bool_decide (k ∈ l)), l)
  | SetIndexOf k => (SetPos (pos_of k l), l)
  | SetAt i => (SetElem (l !! i), l)
  | SetGetOrInsert k => (SetElem (Some k), ol_insert k l)
  | SetRemove k => (SetBool (bool_decide (k ∈ l)), ol_remove k l)
  | SetTake k => (SetElem (if decide (k ∈ l) then Some k else None), ol_remove k l)
  | SetRemoveIndex i => (SetElem (l !! i), delete i l)
  | SetPop => (SetElem (list.last l), take (length l - 1) l)
  | SetClear => (SetUnit, [])
  | SetFirst => (SetElem (head l), l)
  | SetLast => (SetElem (list.last l), l)
  | SetSort cmp => (SetUnit, stable_sort cmp l)
  | SetReverse => (SetUnit, reverse l)
  | SetRetain f => (SetUnit, filter (λ x, f x = true) l)
  | SetIter => (SetElems l, l)
  end.

Section refinement.
Context `{Toolchain} {TT T : Type} `{EqDecision T} `{HashTableOk nat TT}.
Context `{SizeOf (T * unit), SizeOf StarlarkHashValue, SizeOf (T * unit * StarlarkHashValue)}.
Context (hash_of : T → StarlarkHashValue).
Implicit Types (s : SmallSet TT T) (l : list T).

Definition set_exec s (op : set_op T) : comp (set_answer T * SmallSet TT T) :=
  match op with
  | SetInsert k => '(b, s) ← SmallSet_insert hash_of s k; Ok (SetBool b, s)
  | SetGet k => o ← SmallSet_get hash_of s k; Ok (SetElem o, s)
  | SetContains k => b ← SmallSet_contains hash_of s k; Ok (SetBool b, s)
  | SetIndexOf k => o ← SmallSet_get_index_of hash_of s k; Ok (SetPos o, s)
  | SetAt i => o ← SmallSet_get_index s i; Ok (SetElem o, s)
  | SetGetOrInsert k => '(x, s) ← SmallSet_get_or_insert hash_of s k; Ok (SetElem (Some x), s)
  | SetRemove k => '(b, s) ← SmallSet_shift_remove hash_of s k; Ok (SetBool b, s)
  | SetTake k => '(o, s) ← SmallSet_take hash_of s k; Ok (SetElem o, s)
  | SetRemoveIndex i => '(o, s) ← SmallSet_shift_remove_index s i; Ok (SetElem o, s)
  | SetPop => '(o, s) ← SmallSet_pop s; Ok (SetElem o, s)
  | SetClear => Ok (SetUnit, SmallSet_clear s)
  | SetFirst => o ← SmallSet_first s; Ok (SetElem o, s)
  | SetLast => o ← SmallSet_last s; Ok (SetElem o, s)
  | SetSort cmp => s ← SmallSet_sort cmp s; Ok (SetUnit, s)
  | SetReverse => s ← SmallSet_reverse s; Ok (SetUnit, s)
  | SetRetain f => s ← SmallSet_retain s f; Ok (SetUnit, s)
  | SetIter => l ← SmallSet_iter s; Ok (SetElems l, s)
  end.

(** The set holds the elements [l], in order. *)
Definition set_wf s l : Prop := ∃ es, wf hash_of s es ∧ es.*1.*1 = l.

Lemma set_wf_nodup s l : set_wf s l → NoDup l.
Proof. intros (es & Hw & <-). apply Hw. Qed.
Lemma set_wf_len s l : set_wf s l → SmallSet_len s = length l.
Proof. intros (es & Hw & <-). rewrite !length_fmap. by apply (wf_len hash_of). Qed.
Lemma set_iter_spec s l : set_wf s l → SmallSet_iter s = Ok l.
Proof.
  intros (es & Hw & <-). unfold SmallSet_iter, SmallMap_keys, VecMap_keys.
  by rewrite (VecMap_iter_spec _ _ (wf_entries _ _ _ Hw)).
Qed.
Lemma set_contains_spec s l k :
  set_wf s l → SmallSet_contains hash_of s k = Ok (bool_decide (k ∈ l)).
Proof.
  intros (es & Hw & <-). unfold SmallSet_contains, contains_key, contains_key_hashed, Hashed_new.
  rewrite (get_index_of_hashed_spec _ _ _ _ Hw), key_index_pos. cbn [mbind result_bind].
  f_equal. destruct (pos_of k es.*1.*1) eqn:Hp; symmetry.
  - apply bool_decide_eq_true. by eapply pos_of_elem.
  - apply bool_decide_eq_false. by apply pos_of_None.
Qed.
Lemma set_insert_spec s l k :
  set_wf s l → room s 1 →
  returns (SmallSet_insert hash_of s k) (λ '(b, s'),
    b = bool_decide (k ∉ l) ∧ set_wf s' (ol_insert k l)).
Proof.
  intros (es & Hw & <-) Hr. unfold SmallSet_insert, SmallMap_insert, Hashed_new.
  step_with insert_hashed_spec; [done..|]. intros [o s'] (-> & es' & Hw' & Hes').
  apply returns_ret. rewrite al_get_elem_of. split; [by repeat case_decide; case_bool_decide|].
  exists es'. split; [done|]. by rewrite Hes', al_insert_elem.
Qed.

Lemma set_get_or_insert_spec s l k :
  set_wf s l → room s 1 →
  returns (SmallSet_get_or_insert hash_of s k) (λ '(x, s'), x = k ∧ set_wf s' (ol_insert k l)).
Proof.
  intros (es & Hw & <-) Hr. unfold SmallSet_get_or_insert, Hashed_new; cbn [hash key].
  rewrite (get_index_of_hashed_raw_spec _ _ _ _ Hw). cbn [mbind result_bind].
  unfold ol_insert. destruct (key_index k es.*1) as [i|] eqn:Hi.
  - rewrite key_index_pos in Hi. rewrite decide_True by by eapply pos_of_elem.
    unfold SmallMap_get_index. rewrite (VecMap_get_index_spec _ _ _ (wf_entries _ _ _ Hw)).
    cbn [mbind result_bind]. apply pos_of_Some in Hi. rewrite !list_lookup_fmap in Hi.
    destruct (es !! i) as [[[x []] h]|]; [|done]. injection Hi as ->.
    apply returns_ret. split; [done|]. by exists es.
  - step_with insert_hashed_unique_unchecked_spec; [done..|].
    intros [s' [[x []] set]] (Hw' & -> & _). apply returns_ret. split; [done|].
    rewrite key_index_pos in Hi. rewrite decide_False by by apply pos_of_None.
    eexists. split; [done|]. by rewrite !fmap_app.
Qed.

Lemma set_take_spec s l k :
  set_wf s l →
  returns (SmallSet_take hash_of s k) (λ '(o, s'),
    o = (if decide (k ∈ l) then Some k else None) ∧ set_wf s' (ol_remove k l)).
Proof.
  intros (es & Hw & <-). unfold SmallSet_take, shift_remove_entry, Hashed_new.
  step_with shift_remove_hashed_entry_spec; [done|]. intros [o s'] (-> & es' & Hw' & Hes').
  apply returns_ret. rewrite al_get_elem_of. split; [by case_decide|].
  exists es'. split; [done|]. rewrite Hes'. apply al_remove_elem, (wf_nodup _ _ _ Hw).
Qed.

Lemma set_remove_spec s l k :
  set_wf s l →
  returns (SmallSet_shift_remove hash_of s k) (λ '(b, s'),
    b = bool_decide (k ∈ l) ∧ set_wf s' (ol_remove k l)).
Proof.
  intros (es & Hw & <-). unfold SmallSet_shift_remove, shift_remove, shift_remove_hashed, Hashed_new.
  apply returns_bind. step_with shift_remove_hashed_entry_spec; [done|].
  intros [o s'] (-> & es' & Hw' & Hes'). do 2 apply returns_ret. rewrite al_get_elem_of.
  split; [by case_decide; case_bool_decide|].
  exists es'. split; [done|]. rewrite Hes'. apply al_remove_elem, (wf_nodup _ _ _ Hw).
Qed.

Lemma set_remove_index_spec s l i :
  set_wf s l →
  returns (SmallSet_shift_remove_index s i) (λ '(o, s'), o = l !! i ∧ set_wf s' (delete i l)).
Proof.
  intros (es & Hw & <-). unfold SmallSet_shift_remove_index, SmallSet_shift_remove_index_hashed.
  apply returns_bind. step_with shift_remove_index_hashed_spec; [done|].
  intros [o s'] (-> & es' & Hw' & Hes'). do 2 apply returns_ret. rewrite !list_lookup_fmap.
  split; [by destruct (es !! i) as [[[x []] h]|]|].
  exists es'. split; [done|]. by rewrite Hes', list_fmap_delete.
Qed.

Lemma set_pop_spec s l :
  set_wf s l →
  returns (SmallSet_pop s) (λ '(o, s'), o = list.last l ∧ set_wf s' (take (length l - 1) l)).
Proof.
  intros (es & Hw & <-). unfold SmallSet_pop. step_with SmallMap_pop_spec; [done|].
  intros [o s'] (-> & es' & Hw' & Hes'). apply returns_ret.
  split; [by rewrite !fmap_last|]. exists es'. split; [done|].
  by rewrite Hes', !length_fmap, <-!fmap_take.
Qed.

Lemma set_sort_spec s l cmp `{!TotalCompare cmp} :
  set_wf s l → room s 0 →
  returns (SmallSet_sort cmp s) (λ s', set_wf s' (stable_sort cmp l)).
Proof.
  intros (es & Hw & <-) Hr. eapply returns_mono; [by eapply SmallMap_sort_keys_spec|].
  intros s' (es' & Hw' & Hes'). exists es'. split; [done|]. rewrite Hes'.
  apply (stable_sort_fmap fst cmp).
Qed.

(** Lookups. *)
Lemma set_get_spec s l k :
  set_wf s l → SmallSet_get hash_of s k = Ok (if decide (k ∈ l) then Some k else None).
Proof.
  intros (es & Hw & <-). unfold SmallSet_get, get_full, Hashed_new.
  rewrite (get_full_hashed_spec _ _ _ _ Hw). cbn [mbind result_bind]. f_equal.
  rewrite al_get_elem_of, key_index_pos. destruct (pos_of k es.*1.*1) eqn:Hp; simpl.
  - by rewrite !decide_True by by eapply pos_of_elem.
  - by rewrite decide_False by by apply pos_of_None.
Qed.

Lemma set_iter_entries s l : set_wf s l → ∃ kvs, SmallMap_iter s = Ok kvs ∧ kvs.*1 = l.
Proof.
  intros (es & Hw & <-). exists es.*1. split; [|done]. apply VecMap_iter_spec, Hw.
Qed.

(** ** Several sets *)

Lemma difference_run_spec other l' l :
  set_wf other l' → Difference_run hash_of l other = Ok (ol_minus l l').
Proof.
  intros Hw. induction l as [|x l IH]; [done|]. cbn [Difference_run].
  rewrite (set_contains_spec _ _ _ Hw), IH. cbn [mbind result_bind]. unfold ol_minus.
  rewrite filter_cons. by repeat case_decide; case_bool_decide.
Qed.

Lemma difference_spec s l other l' :
  set_wf s l → set_wf other l' → SmallSet_difference hash_of s other = Ok (ol_minus l l').
Proof.
  intros Hw Hw'. unfold SmallSet_difference. rewrite (set_iter_spec _ _ Hw).
  by apply difference_run_spec.
Qed.

Lemma union_spec s l other l' :
  set_wf s l → set_wf other l' → SmallSet_union hash_of s other = Ok (l ++ ol_minus l' l).
Proof.
  intros Hw Hw'. unfold SmallSet_union. rewrite (set_iter_spec _ _ Hw). cbn [mbind result_bind].
  by rewrite (difference_spec _ _ _ _ Hw' Hw).
Qed.

(** Memory and table can take each element in turn. *)
Fixpoint can_insert s (iter : list T) : Prop :=
  match iter with
  | [] => True
  | t :: iter => room s 1 ∧ ∀ b s', SmallSet_insert hash_of s t = Ok (b, s') → can_insert s' iter
  end.

Lemma insert_each_spec s l iter :
  set_wf s l → can_insert s iter →
  returns (insert_each hash_of s iter) (λ s', set_wf s' (foldl (flip ol_insert) l iter)).
Proof.
  revert s l. induction iter as [|t iter IH]; intros s l Hw Hc; [by apply returns_ret|].
  destruct Hc as [Hr Hc]. cbn [insert_each foldl].
  destruct (set_insert_spec s l t Hw Hr) as ([b s'] & Hs & _ & Hw'). rewrite Hs.
  cbn [mbind result_bind]. apply (IH _ _ Hw'). by eapply Hc.
Qed.

Lemma extend_each s iter :
  SmallSet_extend hash_of s iter = insert_each hash_of s iter.
Proof.
  unfold SmallSet_extend. revert s. induction iter as [|t iter IH]; intros s; [done|].
  csimpl. unfold SmallSet_insert.
  destruct (SmallMap_insert hash_of s t ()) as [[o s']|e|f]; cbn [mbind result_bind]; [|done..].
  apply IH.
Qed.
End refinement.

(** Keeping first occurrences. *)
Lemma ol_insert_rest {T} `{EqDecision T} l (iter : list T) :
  foldl (flip ol_insert) l iter = l ++ ol_minus (foldl (flip ol_insert) [] iter) l.
Proof.
  induction iter as [|t iter IH] using rev_ind; [by rewrite app_nil_r|].
  rewrite !foldl_app. simpl. rewrite IH. set (acc := foldl (flip ol_insert) [] iter).
  unfold ol_insert, ol_minus. destruct (decide (t ∈ acc)) as [Hin|Hout].
  - rewrite decide_True; [done|]. rewrite elem_of_app, list_elem_of_filter.
    destruct (decide (t ∈ l)); tauto.
  - rewrite filter_app. destruct (decide (t ∈ l)) as [Hl|Hl].
    + rewrite decide_True by (rewrite elem_of_app; by left).
      rewrite filter_cons_False by tauto. by rewrite app_nil_r.
    + rewrite decide_False by (rewrite elem_of_app, list_elem_of_filter; tauto).
      rewrite filter_cons_True by done. by rewrite app_assoc.
Qed.

Lemma elem_of_inserts {T} `{EqDecision T} x (iter : list T) :
  x ∈ foldl (flip ol_insert) [] iter ↔ x ∈ iter.
Proof.
  induction iter as [|t iter IH] using rev_ind; [done|].
  rewrite foldl_snoc, elem_of_app, list_elem_of_singleton, <-IH. simpl. unfold ol_insert.
  case_decide; [split; [by left|by intros [?| ->]]|]. by rewrite elem_of_app, list_elem_of_singleton.
Qed.

(** Maps to [unit] are the sets of their keys. *)
Lemma unit_maps_eq {T} `{Countable T} (kvs kvs' : list (T * unit)) :
  NoDup kvs.*1 → NoDup kvs'.*1 →
  to_map kvs = to_map kvs' ↔ (list_to_set kvs.*1 : gset T) = list_to_set kvs'.*1.
Proof.
  intros Hnd Hnd'.
  assert (∀ (kvs : list (T * unit)) x, NoDup kvs.*1 →
    to_map kvs !! x = if decide (x ∈ kvs.*1) then Some () else None) as Hm.
  { intros ks x Hks. by rewrite <-al_get_to_map, al_get_elem_of. }
  split; intros Heq.
  - apply set_eq. intros x. rewrite !elem_of_list_to_set.
    pose proof (Hm kvs x Hnd) as Hx. rewrite Heq, Hm in Hx by done.
    by repeat case_decide.
  - apply map_eq. intros x. rewrite !Hm by done. apply decide_ext.
    by rewrite <-!(elem_of_list_to_set (C:=gset T)), Heq.
Qed.

(** * Properties *)

Section properties.
Context `{Toolchain} {TT T : Type} `{Countable T} `{HashTableOk nat TT}.
Context `{SizeOf (T * unit), SizeOf StarlarkHashValue, SizeOf (T * unit * StarlarkHashValue)}.
Context (hash_of : T → StarlarkHashValue).
Implicit Types (s : SmallSet TT T) (l : list T).

(** [SmallSet] refines lists without duplicates. From a well-formed set with room for
    one more element every operation returns, its answer is the list's, and the new set is
    well-formed for the new list: [insert] appends only what is absent and says whether it
    did, [shift_remove], [take] and [retain] keep the order of the rest, [get_or_insert]
    returns the element of the set. *)
Theorem smallset_refines s l (op : set_op T) :
  set_wf hash_of s l → room s 1 →
  match op with SetSort cmp => TotalCompare cmp | _ => True end →
  returns (set_exec hash_of s op) (λ '(answer, s'), ∃ l',
    set_wf hash_of s' l' ∧ NoDup l' ∧ ol_exec l op = (answer, l')).
Proof.
  intros Hw Hr Hop.
  assert (∀ (m : comp (set_answer T * SmallSet TT T)) (Q : set_answer T → list T → Prop),
    returns m (λ '(answer, s'), ∃ l', set_wf hash_of s' l' ∧ Q answer l') →
    returns m (λ '(answer, s'), ∃ l', set_wf hash_of s' l' ∧ NoDup l' ∧ Q answer l')) as Hnd.
  { intros m Q Hm. eapply returns_mono; [exact Hm|]. intros [a s'] (l' & Hl' & HQ).
    exists l'. split_and!; [done|by eapply set_wf_nodup|done]. }
  apply Hnd. clear Hnd. pose proof (set_iter_entries _ _ _ Hw) as (kvs & Hiter & Hkvs).
  destruct op; simpl in *.
  - step_with set_insert_spec; [done..|]. intros [b s'] (-> & ?). apply returns_ret. eauto.
  - rewrite (set_get_spec _ _ _ _ Hw). apply returns_ret. eauto.
  - rewrite (set_contains_spec _ _ _ _ Hw). apply returns_ret. eauto.
  - destruct Hw as (es & Hw & <-).
    unfold SmallSet_get_index_of, get_index_of, Hashed_new.
    rewrite (get_index_of_hashed_spec _ _ _ _ Hw), key_index_pos. apply returns_ret.
    exists es.*1.*1. split; [by exists es|done].
  - destruct Hw as (es & Hw & <-). unfold SmallSet_get_index, SmallMap_get_index.
    rewrite (VecMap_get_index_spec _ _ _ (wf_entries _ _ _ Hw)). apply returns_ret.
    exists es.*1.*1. split; [by exists es|]. rewrite !list_lookup_fmap. by destruct (es !! i).
  - step_with set_get_or_insert_spec; [done..|]. intros [x s'] (-> & ?). apply returns_ret. eauto.
  - step_with set_remove_spec; [done..|]. intros [b s'] (-> & ?). apply returns_ret. eauto.
  - step_with set_take_spec; [done..|]. intros [b s'] (-> & ?). apply returns_ret. eauto.
  - step_with set_remove_index_spec; [done..|]. intros [b s'] (-> & ?). apply returns_ret. eauto.
  - step_with set_pop_spec; [done..|]. intros [b s'] (-> & ?). apply returns_ret. eauto.
  - apply returns_ret. exists []. split; [|done]. destruct Hw as (es & Hw & _).
    exists []. split; [by eapply SmallMap_clear_spec|done].
  - unfold SmallSet_first, SmallMap_first. rewrite Hiter. apply returns_ret. exists l.
    split; [done|]. rewrite <-Hkvs. by destruct kvs.
  - unfold SmallSet_last, SmallMap_last. rewrite Hiter. apply returns_ret. exists l.
    split; [done|]. rewrite <-Hkvs, fmap_last. by destruct (list.last kvs).
  - step_with set_sort_spec; [done..|by eapply room_le, Nat.le_0_l|]. intros s' Hs'.
    apply returns_ret. eauto.
  - destruct Hw as (es & Hw & <-). step_with SmallMap_reverse_spec; [done|]. intros s' Hs'.
    apply returns_ret. exists (reverse es).*1.*1. split; [by eexists|]. by rewrite !fmap_reverse.
  - destruct Hw as (es & Hw & <-). step_with SmallMap_retain_spec; [done|].
    intros s' (es' & Hw' & Hes'). apply returns_ret. exists es'.*1.*1. split; [by exists es'|].
    by rewrite Hes', al_retain_elem.
  - rewrite (set_iter_spec _ _ _ Hw). apply returns_ret. eauto.
Qed.

(** Set algebra. [difference] yields the elements of the first set that are not in the
    second and [union] the first set followed by what only the second has, each element
    once; [==] ignores the order, [eq_ordered] does not; inserting an iterator into a set
    ([from_iter], [extend]) keeps the first occurrence of each new element. *)
Theorem smallset_algebra s l other l' (iter : list T) :
  set_wf hash_of s l → set_wf hash_of other l' → can_insert hash_of s iter →
  (∃ d, SmallSet_difference hash_of s other = Ok d ∧ NoDup d ∧ d `sublist_of` l ∧
    (list_to_set d : gset T) = list_to_set l ∖ list_to_set l') ∧
  (∃ u, SmallSet_union hash_of s other = Ok u ∧ NoDup u ∧ l `prefix_of` u ∧
    (list_to_set u : gset T) = list_to_set l ∪ list_to_set l') ∧
  SmallSet_eq s other = Ok (bool_decide ((list_to_set l : gset T) = list_to_set l')) ∧
  SmallSet_eq_ordered s other = Ok (bool_decide (l = l')) ∧
  returns (SmallSet_extend hash_of s iter) (λ s', ∃ r, set_wf hash_of s' (l ++ r) ∧
    r = ol_minus (foldl (flip ol_insert) [] iter) l ∧
    (list_to_set (l ++ r) : gset T) = list_to_set l ∪ list_to_set iter).
Proof.
  intros Hw Hw' Hc. pose proof (set_wf_nodup _ _ _ Hw) as Hnd. pose proof (set_wf_nodup _ _ _ Hw') as Hnd'.
  split_and!.
  - eexists. split; [by apply difference_spec|]. split_and!.
    + by apply NoDup_filter.
    + apply sublist_filter.
    + apply set_eq. intros x. unfold ol_minus.
      rewrite elem_of_difference, !elem_of_list_to_set, list_elem_of_filter. tauto.
  - eexists. split; [by apply union_spec|]. split_and!.
    + apply NoDup_app. split_and!; [done| |by apply NoDup_filter].
      intros x Hx [Hn _]%list_elem_of_filter. done.
    + by apply prefix_app_r.
    + apply set_eq. intros x. unfold ol_minus.
      rewrite elem_of_union, !elem_of_list_to_set, elem_of_app, list_elem_of_filter.
      destruct (decide (x ∈ l)); tauto.
  - destruct Hw as (es & Hw & <-), Hw' as (es' & Hw' & <-). unfold SmallSet_eq.
    rewrite (SmallMap_eq_maps _ _ _ _ _ Hw Hw'). f_equal. apply bool_decide_ext.
    by apply unit_maps_eq.
  - destruct Hw as (es & Hw & <-), Hw' as (es' & Hw' & <-). unfold SmallSet_eq_ordered.
    rewrite (SmallMap_eq_ordered_spec _ _ _ _ _ Hw Hw'). f_equal. apply bool_decide_ext.
    split; [by intros ->|]. intros Heq. by rewrite (unit_pairs es.*1), Heq, <-unit_pairs.
  - rewrite extend_each. eapply returns_mono; [by eapply insert_each_spec|].
    intros s' Hs'. rewrite ol_insert_rest in Hs'. eexists. split; [exact Hs'|]. split; [done|].
    apply set_eq. intros x. unfold ol_minus.
    rewrite elem_of_union, !elem_of_list_to_set, elem_of_app, list_elem_of_filter, elem_of_inserts.
    destruct (decide (x ∈ l)); tauto.
Qed.
End properties.

(** ** Witnesses *)

#[local] Existing Instances stable_toolchain size_u64.
#[local] Instance size_elem : SizeOf (Z * unit) := {| size_of := 8; align_of := 8 |}%Z.
#[local] Instance size_elem_entry : SizeOf (Z * unit * Z) := {| size_of := 16; align_of := 8 |}%Z.

(** [{3, 1}] with an index, and [{1, 2}] without. *)
Definition witness_indexed_set : SmallSet (list_table nat) Z :=
  mkSmallMap
    (mkVecMap (mkVec2 [Some (3, ()); Some (1, ()); None]%Z [Some 1; Some 1; None]%Z 2 3))
    (Some (mkListTable [(promote 1, 1); (promote 1, 0)] 4)).
Definition witness_plain_set : SmallSet (list_table nat) Z :=
  mkSmallMap
    (mkVecMap (mkVec2 [Some (1, ()); Some (2, ())]%Z [Some 1; Some 0]%Z 2 2)) None.

Lemma witness_set_wf :
  set_wf witness_hash witness_indexed_set [3; 1]%Z ∧ set_wf witness_hash witness_plain_set [1; 2]%Z.
Proof.
  split; [exists [(3, (), 1); (1, (), 1)]%Z|exists [(1, (), 1); (2, (), 0)]%Z];
    (split; [|done]); split; simpl.
  1,5: split; try done; intros [|[|[|i]]] x Hx; simpl in *; simplify_eq/=; done.
  1,4: apply (bool_decide_unpack _); vm_compute; exact I.
  1,3: intros e [->|[->|[]%elem_of_nil]%elem_of_cons]%elem_of_cons; done.
  - apply Permutation_swap.
  - unfold NO_INDEX_THRESHOLD. simpl. lia.
Defined.

Lemma witness_set_room : room witness_indexed_set 1.
Proof.
  split; [|vm_compute; discriminate]. split; [vm_compute; discriminate|].
  intros c Hc.
  unfold alloc_ok, Vec2Layout_new_checked, Layout_array, Layout_from_size_align, Layout_extend. simpl.
  simpl in Hc. do 20 (destruct c as [|c]; [vm_compute; by eexists|]). lia.
Defined.

Lemma smallset_refines_witness :
  returns (set_exec witness_hash witness_indexed_set (SetRemove 3%Z)) (λ '(answer, s'), ∃ l',
    set_wf witness_hash s' l' ∧ (SetBool true, [1]%Z) = (answer, l')).
Proof.
  eapply returns_mono; [exact (smallset_refines witness_hash witness_indexed_set
    [3; 1]%Z (SetRemove 3%Z) (proj1 witness_set_wf) witness_set_room I)|].
  intros [answer s'] (l' & Hw & _ & Ha). exists l'. split; [exact Hw|].
  rewrite <-Ha. vm_compute. reflexivity.
Defined.

Lemma smallset_algebra_witness :
  SmallSet_eq witness_indexed_set witness_plain_set = Ok false ∧
  ∃ u, SmallSet_union witness_hash witness_indexed_set witness_plain_set = Ok u ∧ NoDup u.
Proof.
  destruct (smallset_algebra witness_hash witness_indexed_set _ witness_plain_set _ [5]%Z
    (proj1 witness_set_wf) (proj2 witness_set_wf)) as (_ & (u & Hu & Hnd & _) & He & _).
  - split; [apply witness_set_room|done].
  - split; [rewrite He; by vm_compute|by exists u].
Defined.
