(* ===== verification/Ints.v ===== *)
(** [starlark/src/values/types/int/inline_int.rs], [int_or_big.rs] and the comparison of
    [bigint.rs]: Starlark integers, stored inline while they fit and as a big integer
    otherwise.  The big integers themselves are the [num_bigint] crate's, which is not
    part of the repository: class [BigInt] has the operations the code calls and
    [BigIntOk] what their documentation says of the integers they denote. *)

From S2P Require Import Prelude.
Local Open Scope Z_scope.

(** * [num_bigint::BigInt] *)

Class BigInt (B : Type) := {
  bi_val : B → Z;
  bi_from : Z → B;
  bi_add : B → B → B;
  bi_sub : B → B → B;
  bi_mul : B → B → B;
  bi_div : B → B → B;
  bi_rem : B → B → B;
  bi_and : B → B → B;
  bi_or : B → B → B;
  bi_xor : B → B → B;
  bi_not : B → B;
  bi_neg : B → B;
  bi_abs : B → B;
  bi_shl : B → Z → B;
  bi_shr : B → Z → B;
  bi_cmp : B → B → comparison;
  bi_eq : B → B → bool;
  (** [sign()] is the comparison with zero. *)
  bi_sign : B → comparison;
  bi_is_zero : B → bool;
  bi_to_i32 : B → option Z;
  bi_to_u64 : B → option Z;
}.

(** Division truncates, bitwise operations are those of two's complement, shifting
    right rounds down. *)
Class BigIntOk (B : Type) `{BigInt B} : Prop := {
  bi_from_ok z : bi_val (bi_from z) = z;
  bi_add_ok a b : bi_val (bi_add a b) = bi_val a + bi_val b;
  bi_sub_ok a b : bi_val (bi_sub a b) = bi_val a - bi_val b;
  bi_mul_ok a b : bi_val (bi_mul a b) = bi_val a * bi_val b;
  bi_div_ok a b : bi_val b ≠ 0 → bi_val (bi_div a b) = Z.quot (bi_val a) (bi_val b);
  bi_rem_ok a b : bi_val b ≠ 0 → bi_val (bi_rem a b) = Z.rem (bi_val a) (bi_val b);
  bi_and_ok a b : bi_val (bi_and a b) = Z.land (bi_val a) (bi_val b);
  bi_or_ok a b : bi_val (bi_or a b) = Z.lor (bi_val a) (bi_val b);
  bi_xor_ok a b : bi_val (bi_xor a b) = Z.lxor (bi_val a) (bi_val b);
  bi_not_ok a : bi_val (bi_not a) = Z.lnot (bi_val a);
  bi_neg_ok a : bi_val (bi_neg a) = - bi_val a;
  bi_abs_ok a : bi_val (bi_abs a) = Z.abs (bi_val a);
  bi_shl_ok a n : 0 ≤ n → bi_val (bi_shl a n) = Z.shiftl (bi_val a) n;
  bi_shr_ok a n : 0 ≤ n → bi_val (bi_shr a n) = Z.shiftr (bi_val a) n;
  bi_cmp_ok a b : bi_cmp a b = (bi_val a ?= bi_val b);
  bi_eq_ok a b : bi_eq a b = (bi_val a =? bi_val b);
  bi_sign_ok a : bi_sign a = (bi_val a ?= 0);
  bi_is_zero_ok a : bi_is_zero a = (bi_val a =? 0);
  bi_to_i32_ok a : bi_to_i32 a = checked_i32 (bi_val a);
  bi_to_u64_ok a : bi_to_u64 a = checked_u64 (bi_val a);
}.

(** Rocq's own integers are such a library. *)
#[global] Instance Z_bigint : BigInt Z := {|
  bi_val z := z; bi_from z := z;
  bi_add := Z.add; bi_sub := Z.sub; bi_mul := Z.mul; bi_div := Z.quot; bi_rem := Z.rem;
  bi_and := Z.land; bi_or := Z.lor; bi_xor := Z.lxor; bi_not := Z.lnot; bi_neg := Z.opp;
  bi_abs := Z.abs; bi_shl := Z.shiftl; bi_shr := Z.shiftr; bi_cmp := Z.compare;
  bi_eq := Z.eqb; bi_sign z := (z ?= 0); bi_is_zero z := z =? 0;
  bi_to_i32 := checked_i32; bi_to_u64 := checked_u64;
|}.
#[global] Instance Z_bigint_ok : BigIntOk Z.
Proof. by split. Qed.

(** * [InlineInt] *)

(** [cfg(target_pointer_width)]: inline integers have 32 bits, or 29. *)
Class Target := { pointer_width_64 : bool }.

Section inline_int.
Context `{Target}.

Definition min_max_for_bits (bits : Z) : Z * Z :=
  let max := as_i32 (as_u64 (Z.shiftl 1 (bits - 1)) - 1) in
  let min := - max - 1 in
  (min, max).

Definition BITS : Z := if pointer_width_64 then 32 else 29.
Definition MINUS_ONE : Z := -1.
Definition ZERO : Z := 0.
Definition InlineInt_MIN : Z := (min_max_for_bits BITS).1.
Definition InlineInt_MAX : Z := (min_max_for_bits BITS).2.
Definition smaller_than_i32 : bool := BITS <? 32.

(** [InlineInt(i32)] is its [i32].  The argument of [try_from] is a value of any
    integer type, [BigInt] included. *)
Definition InlineInt_try_from (i : Z) : option Z :=
  i ← checked_i32 i;
  if (InlineInt_MIN <=? i) && (i <=? InlineInt_MAX) then Some i else None.

Definition to_u32 (a : Z) : option Z := checked_u32 a.
Definition to_u64 (a : Z) : option Z := checked_u64 a.
Definition signum (a : Z) : Z := Z.sgn a.
Definition checked_add (a b : Z) : option Z := checked_i32 (a + b) ≫= InlineInt_try_from.
Definition checked_sub_i32 (a b : Z) : option Z := checked_i32 (a - b) ≫= InlineInt_try_from.
Definition checked_sub (a b : Z) : option Z := checked_sub_i32 a b.
Definition checked_neg (a : Z) : option Z := checked_i32 (- a) ≫= InlineInt_try_from.
Definition checked_div (a b : Z) : option Z :=
  (if b =? 0 then None else checked_i32 (Z.quot a b)) ≫= InlineInt_try_from.
Definition checked_mul_i32 (a b : Z) : option Z := checked_i32 (a * b) ≫= InlineInt_try_from.
(** [i32::checked_shr] and [checked_shl] only reject shifts by 32 or more. *)
Definition checked_shr (a rhs : Z) : option Z :=
  (if rhs <? 32 then Some (Z.shiftr a rhs) else None) ≫= InlineInt_try_from.
Definition checked_shl (a rhs : Z) : option Z :=
  (if rhs <? 32 then Some (as_i32 (Z.shiftl a rhs)) else None) ≫= InlineInt_try_from.

Definition bitand (a b : Z) : Z := Z.land a b.
Definition bitor (a b : Z) : Z := Z.lor a b.
Definition bitxor (a b : Z) : Z := Z.lxor a b.
Definition not (a : Z) : Z := Z.lnot a.
(** [%] on [i32] panics on a zero divisor and on [i32::MIN % -1]. *)
Definition rem {E} (a b : Z) : result E Z :=
  if (b =? 0) || ((a =? i32_min) && (b =? -1)) then Panic else Ok (Z.rem a b).
End inline_int.

(** * [StarlarkInt] *)

Inductive StarlarkInt (B : Type) : Type :=
| Small (i : Z)
| Big (b : B).
Arguments Small {B} i.
Arguments Big {B} b.

(** [StarlarkIntError]; [Unreachable] is the [anyhow!("unreachable")]. *)
Inductive StarlarkIntError (B : Type) : Type :=
| FloorDivisionByZero (a b : StarlarkInt B)
| ModuloByZero (a b : StarlarkInt B)
| LeftShiftOverflow
| LeftShiftNegative
| RightShiftNegative
| Unreachable.
Arguments FloorDivisionByZero {B}. Arguments ModuloByZero {B}.
Arguments LeftShiftOverflow {B}. Arguments LeftShiftNegative {B}.
Arguments RightShiftNegative {B}. Arguments Unreachable {B}.

Section int_or_big.
Context `{Target} {B : Type} `{BigInt B} {E : Type}.
Abbreviation SInt := (StarlarkInt B).
Abbreviation fallible A := (result (StarlarkIntError B) A).

(** [StarlarkBigInt::unchecked_new] asserts that the value is out of range. *)
Definition unchecked_new (value : B) : result E SInt :=
  _ ← assert (match InlineInt_try_from (bi_val value) with Some _ => false | None => true end);
  Ok (Big value).

(** [StarlarkInt::from_impl], and [From<BigInt>]. *)
Definition from_impl (value : Z) : result E SInt :=
  match InlineInt_try_from value with
  | Some i => Ok (Small i)
  | None => unchecked_new (bi_from value)
  end.
Definition from_big (value : B) : result E SInt :=
  match InlineInt_try_from (bi_val value) with
  | Some i => Ok (Small i)
  | None => unchecked_new value
  end.

Definition to_big (a : SInt) : B := match a with Small i => bi_from i | Big b => b end.

Definition int_to_u64 (a : SInt) : option Z :=
  match a with Small i => to_u64 i | Big b => bi_to_u64 b end.

Definition StarlarkBigInt_to_i32 (b : B) : result E (option Z) :=
  if smaller_than_i32 then
    let v := bi_to_i32 b in
    match v with
    | Some i =>
      _ ← assert (match InlineInt_try_from i with Some _ => false | None => true end); Ok v
    | None => Ok v
    end
  else Ok None.
Definition int_to_i32 (a : SInt) : result E (option Z) :=
  match a with Small i => Ok (Some i) | Big b => StarlarkBigInt_to_i32 b end.

Definition is_negative (a : SInt) : bool :=
  match a with Small i => i <? 0 | Big b => match bi_sign b with Lt => true | _ => false end end.
Definition is_zero (a : SInt) : bool := match a with Small i => i =? 0 | Big _ => false end.

Definition signum_big (b : B) : Z :=
  match bi_sign b with Gt => 1 | Lt => -1 | Eq => 0 end.

(** ** Comparison *)

Definition cmp_small_big (a : Z) (b : B) : comparison :=
  let a_sign := signum a in
  let b_sign := match bi_sign b with Gt => 2 | Lt => -2 | Eq => 0 end in
  a_sign ?= b_sign.
Definition cmp_big_small (a : B) (b : Z) : comparison := CompOpp (cmp_small_big b a).

Definition int_cmp (a b : SInt) : comparison :=
  match a, b with
  | Small a, Small b => a ?= b
  | Big a, Big b => bi_cmp a b
  | Small a, Big b => cmp_small_big a b
  | Big a, Small b => cmp_big_small a b
  end.

(** The derived [PartialEq]. *)
Definition int_eq (a b : SInt) : bool :=
  match a, b with
  | Small a, Small b => a =? b
  | Big a, Big b => bi_eq a b
  | _, _ => false
  end.

(** ** Arithmetic *)

Definition int_neg (a : SInt) : result E SInt :=
  match (match a with Small i => checked_neg i | Big _ => None end) with
  | Some n => Ok (Small n)
  | None => from_big (bi_neg (to_big a))
  end.

Definition int_add (a b : SInt) : result E SInt :=
  match (match a, b with Small a, Small b => checked_add a b | _, _ => None end) with
  | Some c => Ok (Small c)
  | None => from_big (bi_add (to_big a) (to_big b))
  end.

Definition int_sub (a b : SInt) : result E SInt :=
  match (match a, b with Small a, Small b => checked_sub a b | _, _ => None end) with
  | Some c => Ok (Small c)
  | None => from_big (bi_sub (to_big a) (to_big b))
  end.

Definition mul_i32 (a : SInt) (rhs : Z) : result E SInt :=
  match a with
  | Small a =>
    match checked_mul_i32 a rhs with
    | Some c => Ok (Small c)
    | None => from_big (bi_mul (bi_from a) (bi_from rhs))
    end
  | Big b => from_big (bi_mul b (bi_from rhs))
  end.
Definition int_mul (a b : SInt) : result E SInt :=
  match a, b with
  | Small a, b => mul_i32 b a
  | a, Small b => mul_i32 a b
  | Big a, Big b => from_big (bi_mul a b)
  end.

Definition int_bitand (a b : SInt) : result E SInt :=
  match a, b with
  | Small a, Small b => Ok (Small (bitand a b))
  | a, b => from_big (bi_and (to_big a) (to_big b))
  end.
Definition int_bitor (a b : SInt) : result E SInt :=
  match a, b with
  | Small a, Small b => Ok (Small (bitor a b))
  | a, b => from_big (bi_or (to_big a) (to_big b))
  end.
Definition int_bitxor (a b : SInt) : result E SInt :=
  match a, b with
  | Small a, Small b => Ok (Small (bitxor a b))
  | a, b => from_big (bi_xor (to_big a) (to_big b))
  end.
Definition int_not (a : SInt) : result E SInt :=
  match a with
  | Small a => Ok (Small (not a))
  | a => from_big (bi_not (to_big a))
  end.

(** [i32::checked_abs]. *)
Definition InlineInt_abs (a : Z) : result E SInt :=
  match checked_i32 (Z.abs a) with
  | Some i => from_impl i
  | None => from_big (bi_abs (bi_from a))
  end.
Definition int_abs (a : SInt) : result E SInt :=
  match a with Small i => InlineInt_abs i | Big b => from_big (bi_abs b) end.
End int_or_big.

(** [?] and [unwrap] on the infallible conversions inside fallible operations. *)
Section fallible.
Context `{Target} {B : Type} `{BigInt B}.
Abbreviation SInt := (StarlarkInt B).
Abbreviation fallible A := (result (StarlarkIntError B) A).

Definition floor_div_big_big (a b : B) : fallible SInt :=
  if bi_is_zero b then
    a ← from_big a; b ← from_big b; Err (FloorDivisionByZero a b)
  else
    let sig := signum_big b * signum_big a in
    let offset := if (sig <? 0) && negb (bi_is_zero (bi_rem a b)) then 1 else 0 in
    from_big (bi_sub (bi_div a b) (bi_from offset)).

Definition floor_div_small_small (a b : Z) : fallible SInt :=
  if b =? 0 then Err (FloorDivisionByZero (Small a) (Small b)) else
  let sig := signum b * signum a in
  offset ← if sig <? 0 then r ← rem a b; Ok (if negb (r =? 0) then 1 else 0) else Ok 0;
  match checked_div a b with
  | Some div => d ← ok_or (checked_sub_i32 div offset) Unreachable; Ok (Small d)
  | None => floor_div_big_big (bi_from a) (bi_from b)
  end.

Definition floor_div (a b : SInt) : fallible SInt :=
  match a, b with
  | Small a, Small b => floor_div_small_small a b
  | Small a, Big b => floor_div_big_big (bi_from a) b
  | Big a, Small b => floor_div_big_big a (bi_from b)
  | Big a, Big b => floor_div_big_big a b
  end.

Definition percent_small (a b : Z) : fallible Z :=
  if b =? 0 then Err (ModuloByZero (Small a) (Small b))
  else if (a =? i32_min) && (b =? -1) then Ok ZERO
  else
    r ← rem a b;
    if r =? 0 then Ok ZERO
    else if negb (signum b =? signum r) then ok_or (checked_add r b) Unreachable
    else Ok r.

Definition percent_big (a b : B) : fallible SInt :=
  if bi_is_zero b then
    a ← from_big a; b ← from_big b; Err (ModuloByZero a b)
  else
    let r := bi_rem a b in
    if bi_is_zero r then Ok (Small ZERO)
    else from_big (if bool_decide (bi_sign b ≠ bi_sign r) then bi_add r b else r).

Definition percent (a b : SInt) : fallible SInt :=
  match a, b with
  | Small a, Small b => r ← percent_small a b; Ok (Small r)
  | Small a, Big b => percent_big (bi_from a) b
  | Big a, Small b => percent_big a (bi_from b)
  | Big a, Big b => percent_big a b
  end.

Definition left_shift (self other : SInt) : fallible SInt :=
  match (match self, other with
         | Small a, Small b => b ← to_u32 b; checked_shl a b
         | _, _ => None
         end) with
  | Some r => Ok (Small r)
  | None =>
    if is_negative other then Err LeftShiftNegative
    else if is_zero self || is_zero other then Ok self
    else
      limit ← from_impl 100000;
      match int_cmp other limit with
      | Gt => Err LeftShiftOverflow
      | _ =>
        match other with
        | Big _ => Err LeftShiftOverflow
        | Small b => b ← unwrap (to_u64 b); from_big (bi_shl (to_big self) b)
        end
      end
  end.

Definition right_shift (self other : SInt) : fallible SInt :=
  match (match self, other with
         | Small a, Small b => b ← to_u32 b; checked_shr a b
         | _, _ => None
         end) with
  | Some r => Ok (Small r)
  | None =>
    if is_negative other then Err RightShiftNegative
    else if is_zero self || is_zero other then Ok self
    else
      match int_to_u64 other with
      | None => Ok (Small (if is_negative self then MINUS_ONE else ZERO))
      | Some other =>
        match self with
        | Small a => Ok (Small (if a <? 0 then MINUS_ONE else ZERO))
        | Big a => from_big (bi_shr a other)
        end
      end
  end.
End fallible.

(** * Correctness *)

Section inline_facts.
Context `{Target}.

(** The values an inline integer can have. *)
Definition inline (z : Z) : Prop := InlineInt_MIN ≤ z ≤ InlineInt_MAX.

Lemma inline_bits : ∃ n, (n = 31 ∨ n = 28) ∧ InlineInt_MIN = - 2 ^ n ∧ InlineInt_MAX = 2 ^ n - 1.
Proof.
  unfold InlineInt_MIN, InlineInt_MAX, BITS. destruct pointer_width_64.
  - exists 31. split; [by left|by vm_compute].
  - exists 28. split; [by right|by vm_compute].
Qed.

Lemma inline_i32 z : inline z → i32_min ≤ z ≤ i32_max.
Proof.
  unfold inline, i32_min, i32_max.
  destruct inline_bits as (n & [-> | ->] & -> & ->); lia.
Qed.

Lemma inline_small z : -1000 ≤ z ≤ 100000 → inline z.
Proof. unfold inline. destruct inline_bits as (n & [-> | ->] & -> & ->); lia. Qed.

#[global] Instance inline_dec z : Decision (inline z).
Proof. unfold inline. apply _. Defined.

Lemma try_from_Some z : inline z → InlineInt_try_from z = Some z.
Proof.
  intros Hz. unfold InlineInt_try_from. rewrite checked_i32_Some by by apply inline_i32. simpl.
  unfold inline in Hz. by rewrite !(proj2 (Z.leb_le _ _)) by lia.
Qed.

Lemma try_from_None z : ¬ inline z → InlineInt_try_from z = None.
Proof.
  intros Hz. unfold InlineInt_try_from.
  destruct (checked_i32 z) as [w|] eqn:Hw; [|done]. apply checked_i32_inv in Hw as [-> _]. simpl.
  unfold inline in Hz. destruct (InlineInt_MIN <=? z) eqn:H1, (z <=? InlineInt_MAX) eqn:H2;
    simpl; lia || done.
Qed.

Lemma try_from_inv z w : InlineInt_try_from z = Some w → w = z ∧ inline z.
Proof.
  intros Hz. destruct (decide (inline z)).
  - rewrite try_from_Some in Hz by done. by simplify_eq.
  - by rewrite try_from_None in Hz.
Qed.

Lemma checked_inv z w : checked_i32 z ≫= InlineInt_try_from = Some w → w = z ∧ inline z.
Proof.
  destruct (checked_i32 z) as [v|] eqn:Hv; [|done]. apply checked_i32_inv in Hv as [-> _].
  apply try_from_inv.
Qed.

(** A range [[-2^n, 2^n)] in terms of bits, and its closure under bit operations. *)
Lemma shiftr_range n z : 0 ≤ n → - 2 ^ n ≤ z ≤ 2 ^ n - 1 ↔ Z.shiftr z n = 0 ∨ Z.shiftr z n = -1.
Proof.
  intros Hn. rewrite Z.shiftr_div_pow2 by done.
  assert (0 < 2 ^ n) as Hp by (apply Z.pow_pos_nonneg; lia).
  pose proof (Z.div_mod z (2 ^ n) ltac:(lia)) as Hdm.
  pose proof (Z.mod_pos_bound z (2 ^ n) Hp) as Hm. split; [|nia].
  intros Hz. assert (-1 ≤ z / 2 ^ n < 1); [|lia].
  split; [apply Z.div_le_lower_bound|apply Z.div_lt_upper_bound]; lia.
Qed.

Lemma inline_shiftr : ∃ n, 0 ≤ n ≤ 31 ∧ ∀ z, inline z ↔ Z.shiftr z n = 0 ∨ Z.shiftr z n = -1.
Proof.
  destruct inline_bits as (n & Hn & Hmin & Hmax). exists n. split; [lia|].
  intros z. unfold inline. rewrite Hmin, Hmax. apply shiftr_range. lia.
Qed.

Lemma inline_bit_ops a b :
  inline a → inline b →
  inline (Z.land a b) ∧ inline (Z.lor a b) ∧ inline (Z.lxor a b) ∧ inline (Z.lnot a).
Proof.
  destruct inline_shiftr as (n & Hn & Hin). rewrite !Hin.
  assert (Z.shiftr (Z.lnot a) n = Z.lnot (Z.shiftr a n)) as ->.
  { apply Z.bits_inj'. intros k Hk. rewrite Z.shiftr_spec, !Z.lnot_spec, Z.shiftr_spec by lia.
    done. }
  rewrite Z.shiftr_land, Z.shiftr_lor, Z.shiftr_lxor.
  intros [-> | ->] [-> | ->]; simpl; auto.
Qed.

Lemma inline_shift_right a k : 0 ≤ k → inline a → inline (Z.shiftr a k).
Proof.
  destruct inline_shiftr as (n & Hn & Hin). rewrite !Hin. intros Hk Ha.
  rewrite Z.shiftr_shiftr, Z.add_comm, <-Z.shiftr_shiftr by lia.
  destruct Ha as [-> | ->]; [left; apply Z.shiftr_0_l|right].
  rewrite Z.shiftr_div_pow2 by done.
  assert (0 < 2 ^ k) by (apply Z.pow_pos_nonneg; lia).
  symmetry. apply (Z.div_unique _ _ _ (2 ^ k - 1)); lia.
Qed.
End inline_facts.

Section correct.
Context `{Target} {B : Type} `{BigIntOk B}.
Implicit Types a b : StarlarkInt B.

(** The integer a value stands for; the representation is canonical: [Big] only for
    integers that do not fit inline. *)
Definition int_val a : Z := match a with Small i => i | Big b => bi_val b end.
Definition int_ok a : Prop :=
  match a with Small i => inline i | Big b => ¬ inline (bi_val b) end.

Section from.
Context {E : Type}.

Lemma unchecked_new_ok (b : B) : ¬ inline (bi_val b) → unchecked_new (E:=E) b = Ok (Big b).
Proof. intros Hb. unfold unchecked_new. by rewrite try_from_None. Qed.

Lemma from_big_ok (b : B) z :
  bi_val b = z → returns (E:=E) (from_big b) (λ r, int_ok r ∧ int_val r = z).
Proof.
  intros <-. unfold from_big. destruct (decide (inline (bi_val b))) as [Hi|Hi].
  - rewrite try_from_Some by done. by apply returns_ret.
  - rewrite try_from_None, unchecked_new_ok by done. by apply returns_ret.
Qed.

Lemma from_impl_ok z : returns (E:=E) (from_impl z) (λ r : StarlarkInt B, int_ok r ∧ int_val r = z).
Proof.
  unfold from_impl. destruct (decide (inline z)) as [Hi|Hi].
  - rewrite try_from_Some by done. by apply returns_ret.
  - rewrite try_from_None, unchecked_new_ok by (rewrite ?bi_from_ok; done).
    apply returns_ret. simpl. by rewrite bi_from_ok.
Qed.

Lemma to_big_val a : bi_val (to_big a) = int_val a.
Proof. destruct a; [apply bi_from_ok|done]. Qed.

(** Converting back finds the canonical representation again. *)
Lemma from_big_canonical a : int_ok a → from_big (E:=E) (to_big a) = Ok a.
Proof.
  intros Ha. unfold from_big. rewrite to_big_val. destruct a as [i|b]; simpl in *.
  - by rewrite try_from_Some.
  - by rewrite try_from_None, unchecked_new_ok.
Qed.

Lemma from_impl_canonical z : inline z → from_impl (E:=E) (B:=B) z = Ok (Small z).
Proof. intros Hz. unfold from_impl. by rewrite try_from_Some. Qed.
End from.

Lemma is_negative_ok a : is_negative a = (int_val a <? 0).
Proof. destruct a as [i|b]; simpl; [done|]. by rewrite bi_sign_ok. Qed.
Lemma is_zero_ok a : int_ok a → is_zero a = (int_val a =? 0).
Proof.
  destruct a as [i|b]; simpl; [done|]. intros Hb. symmetry. apply Z.eqb_neq. intros Hz.
  apply Hb. rewrite Hz. apply inline_small. lia.
Qed.
Lemma signum_big_ok (b : B) : signum_big b = Z.sgn (bi_val b).
Proof. unfold signum_big. rewrite bi_sign_ok. by destruct (bi_val b). Qed.

Lemma cmp_small_big_ok i (b : B) :
  inline i → ¬ inline (bi_val b) → cmp_small_big i b = (i ?= bi_val b).
Proof.
  intros Hi Hb. unfold cmp_small_big, signum. rewrite bi_sign_ok.
  pose proof (inline_small 0 ltac:(lia)) as Hzero. unfold inline in *. symmetry.
  destruct (Z.compare_spec (bi_val b) 0).
  - exfalso. apply Hb. lia.
  - rewrite (proj2 (Z.compare_gt_iff _ _)) by lia. symmetry. apply Z.compare_gt_iff. lia.
  - rewrite (proj2 (Z.compare_lt_iff _ _)) by lia. symmetry. apply Z.compare_lt_iff. lia.
Qed.

Lemma int_cmp_val a b : int_ok a → int_ok b → int_cmp a b = (int_val a ?= int_val b).
Proof.
  destruct a as [i|x], b as [j|y]; simpl; intros Ha Hb.
  - done.
  - by apply cmp_small_big_ok.
  - unfold cmp_big_small. rewrite cmp_small_big_ok by done. symmetry. apply Z.compare_antisym.
  - apply bi_cmp_ok.
Qed.
End correct.

(** * Properties *)

(** The operations that cannot fail, and what they compute. *)
Inductive int_op := IAdd | ISub | IMul | IAnd | IOr | IXor | INot | INeg | IAbs.

Section theorems.
Context `{Target} {B : Type} `{BigIntOk B}.
Implicit Types a b : StarlarkInt B.

Definition int_exec {E} (op : int_op) a b : result E (StarlarkInt B) :=
  match op with
  | IAdd => int_add a b | ISub => int_sub a b | IMul => int_mul a b
  | IAnd => int_bitand a b | IOr => int_bitor a b | IXor => int_bitxor a b
  | INot => int_not a | INeg => int_neg a | IAbs => int_abs a
  end.
Definition z_exec (op : int_op) (x y : Z) : Z :=
  match op with
  | IAdd => x + y | ISub => x - y | IMul => x * y
  | IAnd => Z.land x y | IOr => Z.lor x y | IXor => Z.lxor x y
  | INot => Z.lnot x | INeg => - x | IAbs => Z.abs x
  end.

Lemma small_or_big {E} (o : option Z) (v : B) z :
  bi_val v = z → (∀ w, o = Some w → w = z ∧ inline z) →
  returns (E:=E) (match o with Some c => Ok (Small c) | None => from_big v end)
    (λ r, int_ok r ∧ int_val r = z).
Proof.
  intros Hv Ho. destruct o as [w|]; [|by apply from_big_ok].
  destruct (Ho w eq_refl) as [-> Hi]. by apply returns_ret.
Qed.

Lemma mul_i32_ok {E} a k :
  returns (E:=E) (mul_i32 a k) (λ r, int_ok r ∧ int_val r = int_val a * k).
Proof.
  destruct a as [i|x]; simpl.
  - apply small_or_big; [by rewrite bi_mul_ok, !bi_from_ok|]. apply checked_inv.
  - apply from_big_ok. by rewrite bi_mul_ok, bi_from_ok.
Qed.

(** C35: Integer arithmetic never overflows, panics or loses its representation: on
    canonical operands, inline or big in any combination, [+], [-], [*], [&], [|],
    [^], [~], unary [-] and [abs] return the canonical representation of the
    mathematical result. *)
Theorem int_arithmetic_exact {E} (op : int_op) a b :
  int_ok a → int_ok b →
  returns (E:=E) (int_exec op a b) (λ r, int_ok r ∧ int_val r = z_exec op (int_val a) (int_val b)).
Proof.
  intros Ha Hb. destruct op; simpl.
  1,2: apply small_or_big;
    [by rewrite ?bi_add_ok, ?bi_sub_ok, !to_big_val|destruct a, b; try done; apply checked_inv].
  - destruct a as [i|x], b as [j|y]; simpl.
    1,2: rewrite Z.mul_comm; apply (mul_i32_ok (Small j)) || apply (mul_i32_ok (Big y)).
    + apply (mul_i32_ok (Big x)).
    + apply from_big_ok, bi_mul_ok.
  - destruct a as [i|x], b as [j|y]; try (apply from_big_ok; by rewrite bi_and_ok, !to_big_val).
    apply returns_ret. split; [by apply inline_bit_ops|done].
  - destruct a as [i|x], b as [j|y]; try (apply from_big_ok; by rewrite bi_or_ok, !to_big_val).
    apply returns_ret. split; [by apply inline_bit_ops|done].
  - destruct a as [i|x], b as [j|y]; try (apply from_big_ok; by rewrite bi_xor_ok, !to_big_val).
    apply returns_ret. split; [by apply inline_bit_ops|done].
  - destruct a as [i|x]; [|apply from_big_ok, bi_not_ok].
    apply returns_ret. split; [by apply (inline_bit_ops i i)|done].
  - apply small_or_big; [by rewrite bi_neg_ok, to_big_val|destruct a; try done; apply checked_inv].
  - destruct a as [i|x]; [|apply from_big_ok, bi_abs_ok]. simpl. unfold InlineInt_abs.
    destruct (checked_i32 (Z.abs i)) as [j|] eqn:Hj.
    + apply checked_i32_inv in Hj as [-> _]. apply from_impl_ok.
    + apply from_big_ok. by rewrite bi_abs_ok, bi_from_ok.
Qed.

(** Comparison across representations is the comparison of the integers, although
    mixed comparisons look at signs only, and the derived equality, which never equates
    an inline and a big integer, is equality of the integers. *)
Theorem int_comparison_exact a b :
  int_ok a → int_ok b →
  int_cmp a b = (int_val a ?= int_val b) ∧ int_eq a b = (int_val a =? int_val b).
Proof.
  intros Ha Hb. split; [by apply int_cmp_val|].
  destruct a as [i|x], b as [j|y]; simpl in *; [done| | |apply bi_eq_ok];
    symmetry; apply Z.eqb_neq; congruence.
Qed.
End theorems.

Section division.

(** Truncated division corrected towards minus infinity. *)
Lemma rem_floor x y :
  y ≠ 0 → Z.rem x y ≠ 0 →
  x mod y = (if Z.sgn y =? Z.sgn (Z.rem x y) then Z.rem x y else Z.rem x y + y) ∧
  x / y = (if Z.sgn y =? Z.sgn (Z.rem x y) then Z.quot x y else Z.quot x y - 1).
Proof.
  intros Hy Hr. pose proof (Z.quot_rem' x y) as Hqr.
  pose proof (Z.rem_bound_abs x y Hy) as Hb.
  destruct (Z.eqb_spec (Z.sgn y) (Z.sgn (Z.rem x y))) as [Hs|Hs].
  - assert (0 <= Z.rem x y < y ∨ y < Z.rem x y <= 0) as Hrange by lia.
    split; symmetry; [eapply Z.mod_unique|eapply Z.div_unique]; eauto.
  - assert (0 <= Z.rem x y + y < y ∨ y < Z.rem x y + y <= 0) as Hrange by lia.
    split; symmetry; [eapply (Z.mod_unique _ _ (Z.quot x y - 1))
                     |eapply (Z.div_unique _ _ _ (Z.rem x y + y))]; try done; lia.
Qed.

Lemma rem_zero_mod x y : y ≠ 0 → Z.rem x y = 0 → x mod y = 0.
Proof. intros Hy Hr. apply Z.mod_divide, Z.rem_divide; done. Qed.

Lemma rem_sign x y : y ≠ 0 → Z.rem x y ≠ 0 → Z.sgn (Z.rem x y) = Z.sgn x.
Proof. intros Hy Hr. by apply Z.rem_sign_nz. Qed.

Lemma quot_offset x y :
  y ≠ 0 →
  Z.quot x y - (if (Z.sgn y * Z.sgn x <? 0) && negb (Z.rem x y =? 0) then 1 else 0) = x / y.
Proof.
  intros Hy. destruct (Z.eqb_spec (Z.rem x y) 0) as [Hr|Hr].
  - rewrite andb_false_r, Z.sub_0_r. pose proof (Z.quot_rem' x y).
    apply (Z.div_unique _ _ _ 0); lia.
  - rewrite (proj2 (rem_floor x y Hy Hr)). pose proof (rem_sign x y Hy Hr) as Hs. simpl.
    destruct (Z.ltb_spec (Z.sgn y * Z.sgn x) 0) as [Hneg|Hneg]; simpl;
      destruct (Z.eqb_spec (Z.sgn y) (Z.sgn (Z.rem x y))); lia || nia.
Qed.
End division.

Section division_theorems.
Context `{Target} {B : Type} `{BigIntOk B}.
Implicit Types a b : StarlarkInt B.

Lemma floor_div_big_big_ok (x y : B) :
  bi_val y ≠ 0 →
  returns (floor_div_big_big x y) (λ r, int_ok r ∧ int_val r = bi_val x / bi_val y).
Proof.
  intros Hy. unfold floor_div_big_big. rewrite bi_is_zero_ok, (proj2 (Z.eqb_neq _ _)) by done.
  apply from_big_ok. rewrite bi_sub_ok, bi_div_ok, bi_from_ok by done.
  rewrite !signum_big_ok, bi_is_zero_ok, bi_rem_ok by done. by apply quot_offset.
Qed.

Lemma floor_div_small_small_ok i j :
  inline i → inline j → j ≠ 0 →
  returns (floor_div_small_small (B:=B) i j) (λ r, int_ok r ∧ int_val r = i / j).
Proof.
  intros Hi Hj Hj0. unfold floor_div_small_small. rewrite (proj2 (Z.eqb_neq _ _)) by done.
  unfold signum. set (offset := if (Z.sgn j * Z.sgn i <? 0) && negb (Z.rem i j =? 0) then 1 else 0).
  apply returns_bind, (returns_mono _ (λ o, o = offset)).
  { subst offset. destruct (Z.ltb_spec (Z.sgn j * Z.sgn i) 0) as [Hs|]; [|by apply returns_ret].
    unfold rem. rewrite (proj2 (Z.eqb_neq _ _)) by done.
    replace ((i =? i32_min) && (j =? -1)) with false; [by apply returns_ret|].
    symmetry. apply andb_false_iff. destruct (Z.eqb_spec i i32_min) as [->|]; [|by left].
    right. apply Z.eqb_neq. intros ->. by vm_compute in Hs. }
  intros o ->. pose proof (quot_offset i j Hj0) as Hq. fold offset in Hq.
  destruct (checked_div i j) as [d|] eqn:Hd.
  - unfold checked_div in Hd. rewrite (proj2 (Z.eqb_neq _ _)) in Hd by done.
    apply checked_inv in Hd as [-> Hin].
    assert (inline (i / j)) as Hdiv.
    { destruct (decide (offset = 0)) as [Ho|Ho]; [by rewrite <-Hq, Ho, Z.sub_0_r|].
      assert (Z.sgn j * Z.sgn i < 0) as Hs.
      { subst offset. by destruct (Z.ltb_spec (Z.sgn j * Z.sgn i) 0). }
      unfold inline in *. assert (offset ≤ 1) by (subst offset; by case_tests).
      assert (InlineInt_MIN ≤ i / j) as Hlow; [|rewrite <-Hq in *; subst offset; case_tests; lia].
      destruct (Z.le_gt_cases 0 j).
      - apply Z.div_le_lower_bound; nia.
      - rewrite <-(Z.opp_involutive j), <-(Z.opp_involutive i), Z.div_opp_opp by lia.
        destruct (inline_bits) as (n & Hn & Hmin & Hmax).
        apply Z.div_le_lower_bound; [lia|]. destruct Hn as [-> | ->]; nia. }
    unfold checked_sub_i32. rewrite Hq.
    rewrite checked_i32_Some by by apply inline_i32. cbn [mbind option_bind].
    rewrite try_from_Some by done. by apply returns_ret.
  - apply (returns_mono _ (λ r, int_ok r ∧ int_val r = bi_val (bi_from i) / bi_val (bi_from j)));
      rewrite ?bi_from_ok; [|done].
    eapply returns_mono; [apply floor_div_big_big_ok; by rewrite bi_from_ok|].
    by rewrite !bi_from_ok.
Qed.

Lemma percent_big_ok (x y : B) :
  bi_val y ≠ 0 →
  returns (percent_big x y) (λ r, int_ok r ∧ int_val r = bi_val x mod bi_val y).
Proof.
  intros Hy. unfold percent_big. rewrite bi_is_zero_ok, (proj2 (Z.eqb_neq _ _)) by done.
  rewrite bi_is_zero_ok, bi_rem_ok by done.
  destruct (Z.eqb_spec (Z.rem (bi_val x) (bi_val y)) 0) as [Hr|Hr].
  - apply returns_ret. split; [apply inline_small; unfold ZERO; lia|]. by rewrite rem_zero_mod.
  - apply from_big_ok. rewrite (proj1 (rem_floor _ _ Hy Hr)), !bi_sign_ok, bi_rem_ok by done.
    destruct (Z.eqb_spec (Z.sgn (bi_val y)) (Z.sgn (Z.rem (bi_val x) (bi_val y)))) as [Hs|Hs].
    + rewrite bool_decide_eq_false_2; [by apply bi_rem_ok|]. intros Hn. apply Hn.
      by destruct (bi_val y), (Z.rem (bi_val x) _).
    + rewrite bool_decide_eq_true_2; [by rewrite bi_add_ok, bi_rem_ok|]. intros Hn. apply Hs.
      by destruct (bi_val y), (Z.rem (bi_val x) _).
Qed.

Lemma percent_small_ok i j :
  inline i → inline j → j ≠ 0 →
  returns (percent_small (B:=B) i j) (λ r, inline r ∧ r = i mod j).
Proof.
  intros Hi Hj Hj0. unfold percent_small. rewrite (proj2 (Z.eqb_neq _ _)) by done.
  destruct ((i =? i32_min) && (j =? -1)) eqn:Hmin.
  - apply andb_true_iff in Hmin as [_ ->%Z.eqb_eq]. apply returns_ret.
    split; [apply inline_small; unfold ZERO; lia|]. symmetry.
    apply rem_zero_mod, Z.rem_divide; [done..|]. exists (- i). lia.
  - unfold rem. rewrite (proj2 (Z.eqb_neq _ _)), Hmin by done. cbn [orb mbind result_bind].
    destruct (Z.eqb_spec (Z.rem i j) 0) as [Hr|Hr].
    + apply returns_ret. split; [apply inline_small; unfold ZERO; lia|]. by rewrite rem_zero_mod.
    + pose proof (Z.rem_bound_abs i j Hj0) as Hb. pose proof (proj1 (rem_floor i j Hj0 Hr)) as Hm.
      pose proof (inline_small 0 ltac:(lia)) as Hzero.
      unfold signum. destruct (Z.eqb_spec (Z.sgn j) (Z.sgn (Z.rem i j))) as [Hs|Hs]; cbn [negb].
      * apply returns_ret. split; [|done]. unfold inline in *. lia.
      * assert (inline (Z.rem i j + j)) as Hin by (unfold inline in *; lia).
        unfold checked_add. rewrite checked_i32_Some by by apply inline_i32.
        cbn [mbind option_bind]. rewrite try_from_Some by done. by apply returns_ret.
Qed.

(** [//] and [%] are floor division and its remainder, as in Python, in every
    combination of representations and signs, [-2147483648 // -1] and
    [-2147483648 % -1] included; dividing by zero is the error that names the operands. *)
Theorem int_floor_division a b :
  int_ok a → int_ok b →
  if int_val b =? 0 then
    floor_div a b = Err (FloorDivisionByZero a b) ∧ percent a b = Err (ModuloByZero a b)
  else
    returns (floor_div a b) (λ r, int_ok r ∧ int_val r = int_val a / int_val b) ∧
    returns (percent a b) (λ r, int_ok r ∧ int_val r = int_val a mod int_val b).
Proof.
  intros Ha Hb. destruct (Z.eqb_spec (int_val b) 0) as [Hz|Hz].
  - destruct b as [j|y]; simpl in *;
      [|exfalso; apply Hb; rewrite Hz; apply inline_small; lia]. subst j.
    destruct a as [i|x]; simpl; [done|]. unfold floor_div_big_big, percent_big.
    rewrite bi_is_zero_ok, bi_from_ok. simpl.
    pose proof (from_big_canonical (E:=StarlarkIntError B) (Big x) Ha) as Hx. simpl in Hx.
    pose proof (from_big_canonical (E:=StarlarkIntError B) (Small 0) Hb) as Hzero. simpl in Hzero.
    by rewrite Hx, Hzero.
  - rewrite <-!(to_big_val a), <-!(to_big_val b).
    destruct a as [i|x], b as [j|y]; simpl in *;
      try (split; [apply floor_div_big_big_ok|apply percent_big_ok]; by rewrite ?bi_from_ok).
    rewrite !bi_from_ok. split; [by apply floor_div_small_small_ok|].
    step_with (percent_small_ok i j); [done..|]. intros r [Hr ->]. by apply returns_ret.
Qed.
End division_theorems.

Section shifts.
Context `{Target} {B : Type} `{BigIntOk B}.
Implicit Types a b : StarlarkInt B.

Lemma to_u32_inline j : inline j → to_u32 j = if 0 <=? j then Some j else None.
Proof.
  intros [_ Hj]%inline_i32. unfold to_u32, checked_u32, in_u32, in_range.
  unfold i32_max in Hj. unfold u32_max. rewrite (proj2 (Z.leb_le j _)) by lia.
  by rewrite andb_true_r.
Qed.
Lemma to_u64_inline j : inline j → 0 ≤ j → to_u64 j = Some j.
Proof.
  intros [_ Hj]%inline_i32 Hge. unfold to_u64, checked_u64, in_u64, in_range.
  unfold i32_max in Hj. unfold u64_max. by rewrite !(proj2 (Z.leb_le _ _)) by lia.
Qed.

(** A shift that pushes out every significant bit. *)
Lemma shiftr_out x n : 0 ≤ n → - 2 ^ n ≤ x < 2 ^ n → Z.shiftr x n = if x <? 0 then -1 else 0.
Proof.
  intros Hn Hx. destruct (proj1 (shiftr_range n x Hn)) as [He|He]; [lia|..]; rewrite He.
  - destruct (Z.ltb_spec x 0); [|done].
    assert (Z.shiftr x n < 0) by by apply Z.shiftr_neg. lia.
  - destruct (Z.ltb_spec x 0); [done|].
    assert (0 ≤ Z.shiftr x n) by by apply Z.shiftr_nonneg. lia.
Qed.

Lemma inline_shiftr_out i n : inline i → 31 ≤ n → Z.shiftr i n = if i <? 0 then -1 else 0.
Proof.
  intros Hi%inline_i32 Hn. unfold i32_min, i32_max in Hi. apply shiftr_out; [lia|].
  assert (2 ^ 31 ≤ 2 ^ n) by (apply Z.pow_le_mono_r; lia). lia.
Qed.

Lemma zero_or_minus_one (c : bool) : inline (if c then MINUS_ONE else ZERO).
Proof. apply inline_small. unfold MINUS_ONE, ZERO. destruct c; lia. Qed.

(** [>>] rounds towards minus infinity for every representation; a negative shift
    is an error. The hypothesis leaves out only integers of more than 2^64 bits. *)
Theorem int_right_shift a b :
  int_ok a → int_ok b →
  int_val b ≤ u64_max ∨ - 2 ^ int_val b ≤ int_val a < 2 ^ int_val b →
  if int_val b <? 0 then right_shift a b = Err RightShiftNegative
  else returns (right_shift a b) (λ r,
    int_ok r ∧ int_val r = Z.shiftr (int_val a) (int_val b)).
Proof.
  intros Ha Hb Hbound. unfold right_shift.
  assert (∀ r, (match a, b with Small a, Small b => b ← to_u32 b; checked_shr a b
                | _, _ => None end) = Some r →
          inline r ∧ r = Z.shiftr (int_val a) (int_val b) ∧ 0 ≤ int_val b) as Hfast.
  { intros r. destruct a as [i|x], b as [j|y]; try done. simpl in *.
    rewrite to_u32_inline by done. destruct (Z.leb_spec 0 j) as [Hj|]; [|done]. simpl.
    unfold checked_shr. destruct (j <? 32); [|done]. cbn [mbind option_bind].
    intros [-> Hr]%try_from_inv. done. }
  destruct (match a, b with Small _, Small _ => _ | _, _ => None end) as [r|] eqn:Hr.
  { destruct (Hfast r eq_refl) as (Hi & -> & Hj).
    rewrite (proj2 (Z.ltb_ge _ _) Hj). by apply returns_ret. }
  rewrite !is_negative_ok, !is_zero_ok by done.
  destruct (Z.ltb_spec (int_val b) 0) as [|Hb0]; [done|].
  destruct (Z.eqb_spec (int_val a) 0) as [Ha0|Ha0]; simpl.
  { apply returns_ret. by rewrite Ha0, Z.shiftr_0_l. }
  destruct (Z.eqb_spec (int_val b) 0) as [Hbz|Hbz]; simpl.
  { apply returns_ret. by rewrite Hbz, Z.shiftr_0_r. }
  destruct (int_to_u64 b) as [n|] eqn:Hn.
  - assert (n = int_val b) as ->.
    { destruct b as [j|y]; simpl in *; rewrite ?bi_to_u64_ok in Hn;
        unfold to_u64, checked_u64 in Hn; case_tests; by simplify_eq. }
    destruct a as [i|x]; [|apply from_big_ok, bi_shr_ok; lia].
    apply returns_ret. simpl in *. split; [apply zero_or_minus_one|].
    rewrite inline_shiftr_out; [done..|].
    destruct b as [j|y]; simpl in *.
    + rewrite to_u32_inline, (proj2 (Z.leb_le _ _)) in Hr by done. simpl in Hr.
      unfold checked_shr in Hr. destruct (Z.ltb_spec j 32); [|lia]. cbn [mbind option_bind] in Hr.
      by rewrite try_from_Some in Hr by by apply inline_shift_right.
    + destruct inline_bits as (n & Hbits & Hmin & Hmax). unfold inline in Hb.
      destruct Hbits as [-> | ->]; lia.
  - apply returns_ret. simpl. split; [apply zero_or_minus_one|].
    rewrite shiftr_out; [done|done|]. destruct Hbound as [Hbound|]; [|done]. exfalso.
    destruct b as [j|y]; simpl in *; [by rewrite to_u64_inline in Hn|].
    rewrite bi_to_u64_ok in Hn. unfold checked_u64, in_u64, in_range in Hn.
    by rewrite !(proj2 (Z.leb_le _ _)) in Hn by lia.
Qed.

(** What [<<] answers: the multiple by a power of two, except that the shortcut for inline
    integers answers whenever the shifted [i32], with the bits beyond 32 dropped, is
    inline. *)
Definition shl_val a b : Z :=
  match a, b with
  | Small i, Small j =>
    let w := as_i32 (Z.shiftl i j) in
    if (j <? 32) && bool_decide (inline w) then w else Z.shiftl i j
  | _, _ => Z.shiftl (int_val a) (int_val b)
  end.

Lemma shl_val_lossless a b :
  (∀ i j, a = Small i → b = Small j → j < 32 → i32_min ≤ Z.shiftl i j ≤ i32_max) →
  shl_val a b = Z.shiftl (int_val a) (int_val b).
Proof.
  intros Hl. destruct a as [i|], b as [j|]; try done. simpl.
  destruct (Z.ltb_spec j 32); [|done]. rewrite as_i32_id by by apply (Hl i j).
  by destruct (bool_decide _).
Qed.

Lemma shl_fast i j :
  inline j → 0 ≤ j →
  (b ← to_u32 j; checked_shl i b) =
    if (j <? 32) && bool_decide (inline (as_i32 (Z.shiftl i j)))
    then Some (as_i32 (Z.shiftl i j)) else None.
Proof.
  intros Hj Hpos. rewrite to_u32_inline, (proj2 (Z.leb_le _ _)) by done. simpl. unfold checked_shl.
  destruct (j <? 32); [|done]. simpl.
  case_bool_decide; [by rewrite try_from_Some|by rewrite try_from_None].
Qed.

Lemma left_shift_slow a b :
  int_ok a → int_ok b → 0 ≤ int_val b → shl_val a b = Z.shiftl (int_val a) (int_val b) →
  (match a, b with Small a, Small b => b ← to_u32 b; checked_shl a b | _, _ => None end) = None →
  if (100000 <? int_val b) && negb (int_val a =? 0)
  then left_shift a b = Err LeftShiftOverflow
  else returns (left_shift a b) (λ r, int_ok r ∧ int_val r = shl_val a b).
Proof.
  intros Ha Hb Hb0 -> Hnone. unfold left_shift. rewrite Hnone.
  rewrite !is_negative_ok, !is_zero_ok by done. rewrite (proj2 (Z.ltb_ge (int_val b) 0)) by done.
  destruct (Z.eqb_spec (int_val a) 0) as [Ha0|Ha0]; simpl.
  { rewrite andb_false_r. apply returns_ret. by rewrite Ha0, Z.shiftl_0_l. }
  rewrite andb_true_r.
  destruct (Z.eqb_spec (int_val b) 0) as [Hbz|Hbz]; simpl.
  { rewrite Hbz. apply returns_ret. by rewrite Z.shiftl_0_r. }
  assert (inline 100000) as Hlim by (apply inline_small; lia).
  rewrite from_impl_canonical by done. cbn [mbind result_bind].
  rewrite (int_cmp_val b (Small 100000)) by done. simpl.
  destruct (Z.ltb_spec 100000 (int_val b)) as [Hbig|Hbig].
  - by rewrite (proj2 (Z.compare_gt_iff _ _)).
  - destruct b as [j|y]; simpl in *.
    + rewrite to_u64_inline by done. cbn [unwrap mbind result_bind].
      destruct (Z.compare_spec j 100000); try lia;
        (apply from_big_ok; rewrite bi_shl_ok, to_big_val by done; done).
    + exfalso. pose proof (inline_small 0 ltac:(lia)). unfold inline in *. lia.
Qed.

Lemma int_left_shift_val a b :
  int_ok a → int_ok b →
  if int_val b <? 0 then left_shift a b = Err LeftShiftNegative
  else if (100000 <? int_val b) && negb (int_val a =? 0) then left_shift a b = Err LeftShiftOverflow
  else returns (left_shift a b) (λ r, int_ok r ∧ int_val r = shl_val a b).
Proof.
  intros Ha Hb. destruct (Z.ltb_spec (int_val b) 0) as [Hneg|Hpos].
  { unfold left_shift. rewrite is_negative_ok, (proj2 (Z.ltb_lt _ _)) by done.
    destruct a as [i|x], b as [j|y]; try done. simpl in *.
    by rewrite to_u32_inline, (proj2 (Z.leb_gt _ _)) by done. }
  destruct a as [i|x], b as [j|y]; try (by apply left_shift_slow).
  pose proof (shl_fast i j Hb Hpos) as Hfast.
  destruct ((j <? 32) && bool_decide (inline (as_i32 (Z.shiftl i j)))) eqn:Hc.
  - pose proof Hc as [Hj%Z.ltb_lt Hi%bool_decide_eq_true]%andb_true_iff.
    unfold left_shift. rewrite Hfast. simpl. rewrite (proj2 (Z.ltb_ge 100000 j)) by lia. simpl.
    apply returns_ret. simpl. by rewrite Hc.
  - apply left_shift_slow; [done..| |done]. simpl. by rewrite Hc.
Qed.

(** C36: [<<] refuses negative shifts, and shifts beyond 100000 of anything but zero. For the
    rest it never panics; the result is the multiple by a power of two, except that a shift
    by less than 32 of an inline integer loses the bits that leave 32 bits when what is left
    is inline: on a 64-bit target, always. *)
Theorem int_left_shift a b :
  int_ok a → int_ok b →
  if int_val b <? 0 then left_shift a b = Err LeftShiftNegative
  else if (100000 <? int_val b) && negb (int_val a =? 0) then left_shift a b = Err LeftShiftOverflow
  else returns (left_shift a b) (λ r,
    int_ok r ∧ int_val r = shl_val a b ∧
    ((∀ i j, a = Small i → b = Small j → j < 32 → i32_min ≤ Z.shiftl i j ≤ i32_max) →
      int_val r = Z.shiftl (int_val a) (int_val b))).
Proof.
  intros Ha Hb.
  enough (if int_val b <? 0 then left_shift a b = Err LeftShiftNegative
    else if (100000 <? int_val b) && negb (int_val a =? 0)
    then left_shift a b = Err LeftShiftOverflow
    else returns (left_shift a b) (λ r, int_ok r ∧ int_val r = shl_val a b)) as Hr.
  { destruct (int_val b <? 0); [done|]. destruct (_ && _); [done|].
    eapply returns_mono; [exact Hr|]. intros r [Hok Hval]. split_and!; [done..|].
    intros Hl. by rewrite <-shl_val_lossless. }
  apply int_left_shift_val; done.
Qed.
End shifts.

(** On a 64-bit target, where inline integers are [i32], the shortcut of [left_shift]
    drops the bits that leave 32 bits instead of taking the big-integer path. *)
Theorem left_shift_drops_bits {B} `{BigInt B} :
  left_shift (H:={| pointer_width_64 := true |}) (B:=B) (Small 1) (Small 31)
    = Ok (Small (-2147483648)) ∧
  left_shift (H:={| pointer_width_64 := true |}) (B:=B) (Small 4) (Small 30) = Ok (Small 0).
Proof. split; reflexivity. Qed.

(** ** Concrete inputs *)

Definition target_64 : Target := {| pointer_width_64 := true |}.
#[local] Existing Instance target_64.

Lemma int_arithmetic_exact_witness :
  returns (E:=Empty_set) (int_exec (B:=Z) IMul (Small 65536) (Small 65536)) (λ r,
    int_ok r ∧ int_val r = 4294967296).
Proof.
  apply (int_arithmetic_exact (B:=Z) IMul (Small 65536) (Small 65536)); by vm_compute.
Defined.

Lemma int_comparison_exact_witness :
  int_cmp (B:=Z) (Small (-5)) (Big 4294967296) = Lt ∧
  int_eq (B:=Z) (Small (-5)) (Big 4294967296) = false.
Proof.
  destruct (int_comparison_exact (B:=Z) (Small (-5)) (Big 4294967296)) as [Hcmp Heq].
  - by vm_compute.
  - intros [_ Hle]. by vm_compute in Hle.
  - rewrite Hcmp, Heq. by vm_compute.
Defined.

Lemma int_floor_division_witness :
  returns (floor_div (B:=Z) (Small (-2147483648)) (Small (-1))) (λ r,
    int_ok r ∧ int_val r = 2147483648).
Proof.
  apply (int_floor_division (B:=Z) (Small (-2147483648)) (Small (-1))); by vm_compute.
Defined.

Lemma int_right_shift_witness :
  returns (right_shift (B:=Z) (Big (-4294967297)) (Small 32)) (λ r,
    int_ok r ∧ int_val r = Z.shiftr (-4294967297) 32).
Proof.
  pose proof (int_right_shift (B:=Z) (Big (-4294967297)) (Small 32)) as Hshift.
  cbn [int_val bi_val Z_bigint] in Hshift. change (32 <? 0) with false in Hshift. apply Hshift.
  - intros [Hle _]. by vm_compute in Hle.
  - by vm_compute.
  - left. by vm_compute.
Defined.

Lemma int_left_shift_witness :
  returns (left_shift (B:=Z) (Small 3) (Small 100)) (λ r,
    int_ok r ∧ int_val r = Z.shiftl 3 100 ∧
    ((∀ i j, Small (B:=Z) 3 = Small i → Small (B:=Z) 100 = Small j → j < 32 →
        i32_min ≤ Z.shiftl i j ≤ i32_max) → int_val r = Z.shiftl 3 100)).
Proof.
  pose proof (int_left_shift (B:=Z) (Small 3) (Small 100)) as Hshift.
  cbn [int_val] in Hshift. change (100 <? 0) with false in Hshift.
  change ((100000 <? 100) && negb (3 =? 0)) with false in Hshift.
  change (shl_val (B:=Z) (Small 3) (Small 100)) with (Z.shiftl 3 100) in Hshift. apply Hshift; by vm_compute.
Defined.
