(* ===== verification/Index.v ===== *)
(** [starlark/src/values/index.rs] and [starlark_syntax/src/convert_indices.rs]: indices
    and slices of sequences.  The specification is Python's: arithmetic progressions
    [range_elems], which [Range.v] shares, and [py_slice], the elements at the positions
    of a progression clamped to the sequence. *)

From S2P Require Import Prelude Ints.
Local Open Scope Z_scope.

(** * Arithmetic progressions *)

(** Number of elements of [range(start, stop, step)]; the elements. *)
Definition range_len (start stop step : Z) : Z :=
  if 0 <? step then Z.max 0 ((stop - start + step - 1) / step)
  else if step <? 0 then Z.max 0 ((start - stop - step - 1) / (- step))
  else 0.
Definition range_elems (start stop step : Z) : list Z :=
  (λ k, start + k * step) <$> seqZ 0 (range_len start stop step).

Lemma range_len_nonneg a b k : 0 ≤ range_len a b k.
Proof. unfold range_len. case_tests; lia. Qed.

Lemma length_range_elems a b k : Z.of_nat (length (range_elems a b k)) = range_len a b k.
Proof.
  unfold range_elems. rewrite length_fmap, length_seqZ.
  rewrite Z2Nat.id; [done|apply range_len_nonneg].
Qed.

Lemma range_len_opp a b k : range_len (- a) (- b) (- k) = range_len a b k.
Proof.
  unfold range_len. destruct (Z.ltb_spec 0 (- k)), (Z.ltb_spec (- k) 0),
    (Z.ltb_spec 0 k), (Z.ltb_spec k 0); try lia; do 2 f_equal; lia.
Qed.

Lemma range_len_shift a b k c : range_len (a + c) (b + c) k = range_len a b k.
Proof. unfold range_len. case_tests; do 2 f_equal; lia. Qed.

Lemma range_elems_opp a b k : range_elems (- a) (- b) (- k) = Z.opp <$> range_elems a b k.
Proof.
  unfold range_elems. rewrite range_len_opp, <-list_fmap_compose. apply list_fmap_ext.
  intros i x _. simpl. lia.
Qed.

Lemma range_elems_shift a b k c : range_elems (a + c) (b + c) k = (λ x, x + c) <$> range_elems a b k.
Proof.
  unfold range_elems. rewrite range_len_shift, <-list_fmap_compose. apply list_fmap_ext.
  intros i x _. simpl. lia.
Qed.

(** [before step x stop]: the progression has not met or passed [stop]. *)
Definition before (step x stop : Z) : bool := if 0 <? step then x <? stop else stop <? x.

Lemma before_false_pos k a b : 0 < k → b ≤ a → before k a b = false.
Proof. intros Hk Hab. unfold before. rewrite (proj2 (Z.ltb_lt 0 k) Hk). by apply Z.ltb_ge. Qed.
Lemma before_true_pos k a b : 0 < k → a < b → before k a b = true.
Proof. intros Hk Hab. unfold before. rewrite (proj2 (Z.ltb_lt 0 k) Hk). by apply Z.ltb_lt. Qed.

Lemma range_len_pos a b k : k ≠ 0 → 0 < range_len a b k ↔ before k a b = true.
Proof.
  intros Hk. unfold range_len, before. destruct (Z.ltb_spec 0 k).
  - rewrite Z.ltb_lt. split.
    + intros Hp. destruct (Z.le_gt_cases b a); [|done].
      assert ((b - a + k - 1) / k < 1) by (apply Z.div_lt_upper_bound; lia). lia.
    + intros Hab. assert (1 ≤ (b - a + k - 1) / k) by (apply Z.div_le_lower_bound; lia). lia.
  - rewrite (proj2 (Z.ltb_lt k 0)) by lia. rewrite Z.ltb_lt. split.
    + intros Hp. destruct (Z.le_gt_cases a b); [|done].
      assert ((a - b - k - 1) / (- k) < 1) by (apply Z.div_lt_upper_bound; lia). lia.
    + intros Hab. assert (1 ≤ (a - b - k - 1) / (- k)) by (apply Z.div_le_lower_bound; lia). lia.
Qed.

Lemma range_len_next a b k :
  k ≠ 0 → before k a b = true → range_len a b k = 1 + range_len (a + k) b k.
Proof.
  intros Hk Hb. unfold range_len, before in *. destruct (Z.ltb_spec 0 k).
  - replace (b - (a + k) + k - 1) with (b - a + k - 1 + (-1) * k) by lia.
    rewrite Z.div_add by lia. apply Z.ltb_lt in Hb.
    assert (1 ≤ (b - a + k - 1) / k) by (apply Z.div_le_lower_bound; lia). lia.
  - rewrite (proj2 (Z.ltb_lt k 0)) by lia.
    replace (a + k - b - k - 1) with (a - b - k - 1 + (-1) * (- k)) by lia.
    rewrite Z.div_add by lia. apply Z.ltb_lt in Hb.
    assert (1 ≤ (a - b - k - 1) / (- k)) by (apply Z.div_le_lower_bound; lia). lia.
Qed.

Lemma range_elems_nil a b k : k ≠ 0 → before k a b = false → range_elems a b k = [].
Proof.
  intros Hk Hb. unfold range_elems. pose proof (range_len_nonneg a b k).
  assert (range_len a b k = 0) as ->; [|done].
  destruct (Z.eq_dec (range_len a b k) 0); [done|].
  assert (before k a b = true) by (apply range_len_pos; lia). congruence.
Qed.

Lemma range_elems_cons a b k :
  k ≠ 0 → before k a b = true → range_elems a b k = a :: range_elems (a + k) b k.
Proof.
  intros Hk Hb. unfold range_elems. rewrite (range_len_next a b k Hk Hb).
  pose proof (range_len_nonneg (a + k) b k).
  rewrite seqZ_cons by lia. rewrite fmap_cons. f_equal; [lia|].
  replace (Z.succ 0) with (1 + 0) by lia. rewrite <-fmap_add_seqZ, <-list_fmap_compose.
  replace (Z.pred (1 + range_len (a + k) b k)) with (range_len (a + k) b k) by lia.
  apply list_fmap_ext. intros i x _. simpl. lia.
Qed.

Lemma lookup_range_elems a b k i :
  range_elems a b k !! i =
    (if Z.of_nat i <? range_len a b k then Some (a + Z.of_nat i * k) else None).
Proof.
  unfold range_elems. rewrite list_lookup_fmap. destruct (Z.ltb_spec (Z.of_nat i) (range_len a b k)).
  - rewrite (proj2 (lookup_seqZ 0 _ i (Z.of_nat i))) by lia. done.
  - rewrite lookup_seqZ_ge by lia. done.
Qed.

Lemma elem_of_range_elems a b k x :
  x ∈ range_elems a b k ↔ ∃ i, 0 ≤ i < range_len a b k ∧ x = a + i * k.
Proof.
  unfold range_elems. rewrite list_elem_of_fmap. split.
  - intros (i & -> & Hi%elem_of_seqZ). exists i. split; [lia|done].
  - intros (i & Hi & ->). exists i. split; [done|]. apply elem_of_seqZ. lia.
Qed.

(** Every element lies between [start] and [stop]. *)
Lemma range_elem_before a b k i :
  k ≠ 0 → 0 ≤ i < range_len a b k → before k (a + i * k) b = true.
Proof.
  intros Hk Hi. unfold before, range_len in *. destruct (Z.ltb_spec 0 k).
  - apply Z.ltb_lt.
    pose proof (Z.mul_div_le (b - a + k - 1) k ltac:(lia)). nia.
  - rewrite (proj2 (Z.ltb_lt k 0)) in Hi by lia. apply Z.ltb_lt.
    pose proof (Z.mul_div_le (a - b - k - 1) (- k) ltac:(lia)). nia.
Qed.

(** * The code *)

(** [Value] as far as indexing looks at it: [None], an integer, or something else. *)
Inductive Value (B : Type) : Type :=
| VNone
| VInt (i : StarlarkInt B)
| VOther.
Arguments VNone {B}. Arguments VInt {B}. Arguments VOther {B}.

Inductive index_error :=
| IncorrectType
| IntegerTooBigError
| IntegerOverflow
| IndexOutOfBound (i : Z).

Section index.
Context `{Target} {B : Type} `{BigInt B}.
Implicit Types v : Value B.

Definition is_none v : bool := match v with VNone => true | _ => false end.

(** [Value::unpack_i32], and [i32::unpack_value_err]. *)
Definition unpack_i32 v : result index_error (option Z) :=
  if smaller_than_i32 then
    match v with VInt i => int_to_i32 i | _ => Ok None end
  else Ok (match v with VInt (Small i) => Some i | _ => None end).
Definition unpack_value_err v : result index_error Z :=
  o ← unpack_i32 v;
  match o with
  | Some x => Ok x
  | None => match v with VInt _ => Err IntegerTooBigError | _ => Err IncorrectType end
  end.

Definition convert_index_aux (len : Z) (v1 : option (Value B)) (default min max : Z) :
    result index_error Z :=
  match v1 with
  | Some v =>
    if is_none v then Ok default
    else
      x ← unpack_value_err v;
      i ← if x <? 0 then i32_op (len + x) else Ok x;
      if i <? min then Ok min else if max <? i then Ok max else Ok i
  | None => Ok default
  end.

Definition convert_index v (len : Z) : result index_error Z :=
  x ← unpack_value_err v;
  i ← if x <? 0 then ok_or (checked_i32 (len + x)) IntegerOverflow else Ok x;
  if (i <? 0) || (len <=? i) then Err (IndexOutOfBound i) else Ok i.

Definition convert_slice_indices (len : Z) (start stop stride : option (Value B)) :
    result index_error (Z * Z * Z) :=
  stride ← match stride with
           | None => Ok 1
           | Some v => if is_none v then Ok 1 else unpack_value_err v
           end;
  if stride =? 0 then Err (IndexOutOfBound 0) else
  def_start ← if stride <? 0 then i32_op (len - 1) else Ok 0;
  let def_end := if stride <? 0 then -1 else len in
  let clamp := if stride <? 0 then -1 else 0 in
  max ← i32_op (len + clamp);
  (* Both conversions run before their errors are looked at. *)
  match convert_index_aux len start def_start clamp max,
        convert_index_aux len stop def_end clamp max with
  | Fault f, _ => Fault f
  | _, Fault f => Fault f
  | Ok s1, Ok s2 => Ok (s1, s2, stride)
  | Err x, _ => Err x
  | Ok _, Err x => Err x
  end.

(** [xs[a..b]]: panics out of range, and on a negative bound cast to [usize]. *)
Definition slice_range {T} (xs : list T) (a b : Z) : result index_error (list T) :=
  _ ← assert ((0 <=? a) && (a <=? b) && (b <=? Z.of_nat (length xs)));
  Ok (take (Z.to_nat (b - a)) (drop (Z.to_nat a) xs)).

(** [enumerate().filter_map(..)]. *)
Fixpoint filter_stride {T} (xs : list T) (i : nat) (astride : Z) : result index_error (list T) :=
  match xs with
  | [] => Ok []
  | x :: xs =>
    r ← rem (as_i32 (Z.of_nat i)) astride;
    rest ← filter_stride xs (S i) astride;
    Ok (if 0 =? r then x :: rest else rest)
  end.

Definition apply_slice {T} (xs : list T) (start stop stride : option (Value B)) :
    result index_error (list T) :=
  '(start, stop, stride) ←
    convert_slice_indices (as_i32 (Z.of_nat (length xs))) start stop stride;
  if stride =? 1 then
    if stop <=? start then Ok [] else slice_range xs start stop
  else
    '(start, stop) ← (if stride <? 0
       then (a ← i32_op (stop + 1); b ← i32_op (start + 1); Ok (a, b)) else Ok (start, stop));
    if stop <=? start then Ok [] else
    res ← slice_range xs start stop;
    if stride =? -1 then Ok (reverse res) else
    let res := if stride <? 0 then reverse res else res in
    astride ← i32_op (Z.abs stride);
    filter_stride res 0 astride.
End index.

(** [starlark_syntax::convert_indices]. *)
Definition bound (val limit : Z) : Z :=
  if val <=? 0 then 0 else if limit <=? val then limit else val.

Definition convert_indices (len : Z) (start end_ : option Z) : comp (Z * Z) :=
  let start := match start with Some s => s | None => 0 end in
  let end_ := match end_ with Some e => e | None => len end in
  end_ ← if end_ <? 0 then i32_op (end_ + len) else Ok end_;
  start ← if start <? 0 then i32_op (start + len) else Ok start;
  Ok (bound start len, bound end_ len).

Definition convert_index_from (len start : Z) : comp Z :=
  start ← if start <? 0 then i32_op (start + len) else Ok start;
  Ok (bound start len).

(** * The specification *)

(** What [None] or an integer stands for; other values are errors. *)
Definition py_index {B} `{BigInt B} (v : option (Value B)) : option Z :=
  match v with Some (VInt (Small i)) => Some i | _ => None end.

(** Python's [slice.indices]. *)
Definition py_clamp (len step : Z) (v : option Z) (default : Z) : Z :=
  let lower := if step <? 0 then -1 else 0 in
  let upper := if step <? 0 then len - 1 else len in
  match v with
  | None => default
  | Some x => Z.max lower (Z.min upper (if x <? 0 then x + len else x))
  end.
Definition py_slice {T} (xs : list T) (start stop : option Z) (step : Z) : list T :=
  let len := Z.of_nat (length xs) in
  let a := py_clamp len step start (if step <? 0 then len - 1 else 0) in
  let b := py_clamp len step stop (if step <? 0 then -1 else len) in
  omap (λ i, xs !! Z.to_nat i) (range_elems a b step).

(** * Correctness *)

Section unpacking.
Context `{Target} {B : Type} `{BigIntOk B}.
Implicit Types v : Value B.

(** [i32_arg v x]: [v] is an integer in [i32]. *)
Definition i32_arg v (x : Z) : Prop :=
  ∃ i, v = VInt i ∧ int_ok i ∧ int_val i = x ∧ i32_min ≤ x ≤ i32_max.
(** [slice_arg v o]: an absent operand or [None], or an integer in [i32]. *)
Definition slice_arg (v : option (Value B)) (o : option Z) : Prop :=
  match o with
  | None => v = None ∨ v = Some VNone
  | Some x => ∃ w, v = Some w ∧ i32_arg w x
  end.

Lemma smaller_than_i32_range (i : Z) :
  smaller_than_i32 = false → ¬ inline i → ¬ i32_min ≤ i ≤ i32_max.
Proof.
  unfold smaller_than_i32, inline, InlineInt_MIN, InlineInt_MAX, BITS.
  destruct pointer_width_64; [|done]. intros _ Hi. by vm_compute min_max_for_bits in Hi.
Qed.

Lemma unpack_value_err_int (i : StarlarkInt B) :
  int_ok i →
  unpack_value_err (VInt i) =
    if in_i32 (int_val i) then Ok (int_val i) else Err IntegerTooBigError.
Proof.
  intros Hi. unfold unpack_value_err, unpack_i32. destruct i as [i|b]; simpl in *.
  - rewrite (proj2 (in_i32_spec i)) by by apply inline_i32. by destruct smaller_than_i32.
  - unfold StarlarkBigInt_to_i32. destruct smaller_than_i32 eqn:Hs.
    + rewrite bi_to_i32_ok. unfold checked_i32.
      destruct (in_i32 (bi_val b)); [|done]. by rewrite try_from_None.
    + apply smaller_than_i32_range in Hi; [|done].
      destruct (in_i32 (bi_val b)) eqn:Hin; [|done]. by apply in_i32_spec in Hin.
Qed.

Lemma unpack_value_err_arg v x : i32_arg v x → unpack_value_err v = Ok x.
Proof.
  intros (i & -> & Hi & <- & Hr). by rewrite unpack_value_err_int, (proj2 (in_i32_spec _)).
Qed.

Lemma unpack_value_err_bad v :
  (∀ i, v ≠ VInt i) → unpack_value_err v = Err IncorrectType.
Proof.
  intros Hv. unfold unpack_value_err, unpack_i32.
  destruct v as [|i|]; [by destruct smaller_than_i32|by destruct (Hv i)|by destruct smaller_than_i32].
Qed.

Lemma convert_index_aux_ok len (v : option (Value B)) o default min max :
  slice_arg v o → 0 ≤ len ≤ i32_max → min ≤ max →
  convert_index_aux len v default min max = Ok (match o with
    | None => default
    | Some x => Z.max min (Z.min max (if x <? 0 then x + len else x))
    end).
Proof.
  intros Hv Hlen Hmm. destruct o as [x|]; simpl in Hv; [|by destruct Hv as [-> | ->]].
  destruct Hv as (w & -> & Hw). unfold convert_index_aux.
  assert (is_none w = false) as -> by by destruct Hw as (i & -> & _).
  rewrite (unpack_value_err_arg _ _ Hw). cbn [mbind result_bind].
  destruct Hw as (_ & _ & _ & _ & Hx).
  assert ((if x <? 0 then i32_op (E:=index_error) (len + x) else Ok x)
          = Ok (if x <? 0 then x + len else x)) as ->.
  { destruct (Z.ltb_spec x 0); [|done]. rewrite i32_op_Ok by (unfold i32_min, i32_max in *; lia).
    f_equal. lia. }
  cbn [mbind result_bind]. set (i := if x <? 0 then _ else _).
  destruct (Z.ltb_spec i min), (Z.ltb_spec max i); f_equal; lia.
Qed.
End unpacking.

Section slices.
Context {T : Type}.
Implicit Types xs : list T.

Lemma filter_stride_skip xs i m k :
  1 < k → Z.of_nat (i + length xs) ≤ i32_max →
  (∀ j, (j < m)%nat → Z.of_nat (i + j) mod k ≠ 0) →
  filter_stride xs i k = filter_stride (drop m xs) (i + m) k.
Proof.
  intros Hk. revert i m. induction xs as [|x xs IH]; intros i m Hlen Hm; [by rewrite drop_nil|].
  destruct m as [|m]; [by rewrite Nat.add_0_r|]. cbn [filter_stride drop length] in *.
  rewrite as_i32_id by (unfold i32_min, i32_max in *; lia).
  unfold rem. rewrite (proj2 (Z.eqb_neq k 0)), (proj2 (Z.eqb_neq k (-1))), andb_false_r by lia.
  cbn [orb mbind result_bind].
  pose proof (Hm 0%nat ltac:(lia)) as H0. rewrite Nat.add_0_r in H0.
  rewrite Z.rem_mod_nonneg by lia. rewrite (proj2 (Z.eqb_neq 0 _)) by congruence.
  rewrite (IH (S i) m) by (lia || intros j Hj; specialize (Hm (S j) ltac:(lia));
                            by rewrite Nat.add_succ_r in Hm).
  replace (S i + m)%nat with (i + S m)%nat by lia. by destruct (filter_stride _ _ _).
Qed.

Lemma offset_mod i m j :
  Z.of_nat i mod Z.of_nat (S m) = 0 → (j < m)%nat → Z.of_nat (S i + j) mod Z.of_nat (S m) ≠ 0.
Proof.
  intros Hi Hj. replace (Z.of_nat (S i + j)) with (Z.of_nat i + Z.of_nat (S j)) by lia.
  rewrite <-Z.add_mod_idemp_l, Hi, Z.mod_small by lia. lia.
Qed.

Lemma omap_shift x xs m :
  omap (λ j, drop m xs !! Z.to_nat j)
    (range_elems 0 (Z.of_nat (length (drop m xs))) (Z.of_nat (S m))) =
  omap (λ j, (x :: xs) !! Z.to_nat j)
    (range_elems (0 + Z.of_nat (S m)) (Z.of_nat (S (length xs))) (Z.of_nat (S m))).
Proof.
  rewrite length_drop. destruct (decide (m < length xs)%nat) as [Hm|Hm].
  - replace (Z.of_nat (S (length xs))) with (Z.of_nat (length xs - m) + Z.of_nat (S m)) by lia.
    rewrite range_elems_shift. symmetry. apply omap_fmap_ext.
    intros j (i & Hi & ->)%elem_of_range_elems. rewrite lookup_drop.
    replace (Z.to_nat (0 + i * Z.of_nat (S m) + Z.of_nat (S m)))
      with (S (m + Z.to_nat (0 + i * Z.of_nat (S m)))) by lia. done.
  - by rewrite !range_elems_nil by (lia || (apply before_false_pos; lia)).
Qed.

(** Keeping the positions divisible by [k] takes the elements of a progression. *)
Lemma filter_stride_ok xs i k :
  1 < k → Z.of_nat i mod k = 0 → Z.of_nat (i + length xs) ≤ i32_max →
  filter_stride xs i k =
    Ok (omap (λ j, xs !! Z.to_nat j) (range_elems 0 (Z.of_nat (length xs)) k)).
Proof.
  intros Hk. remember (length xs) as n eqn:Hn. revert xs i Hn.
  induction n as [n IH] using lt_wf_ind. intros [|x xs] i Hn Hi Hlen; simpl in Hn; subst n.
  { by rewrite range_elems_nil by (lia || (apply before_false_pos; lia)). }
  cbn [filter_stride]. rewrite as_i32_id by (unfold i32_min, i32_max in *; lia).
  unfold rem. rewrite (proj2 (Z.eqb_neq k 0)), (proj2 (Z.eqb_neq k (-1))), andb_false_r by lia.
  cbn [orb mbind result_bind]. rewrite Z.rem_mod_nonneg, Hi, Z.eqb_refl by lia.
  assert (∃ m, k = Z.of_nat (S m)) as [m ->] by (exists (Z.to_nat (k - 1)); lia).
  rewrite (filter_stride_skip xs (S i) m) by (lia || eauto using offset_mod).
  assert (Z.of_nat (S i + m) mod Z.of_nat (S m) = 0) as Hi'.
  { replace (Z.of_nat (S i + m)) with (Z.of_nat i + 1 * Z.of_nat (S m)) by lia.
    by rewrite Z.mod_add by lia. }
  assert (filter_stride (drop m xs) (S i + m) (Z.of_nat (S m)) =
    Ok (omap (λ j, drop m xs !! Z.to_nat j)
      (range_elems 0 (Z.of_nat (length (drop m xs))) (Z.of_nat (S m))))) as ->.
  { destruct (decide (m < length xs)%nat).
    - apply IH; rewrite ?length_drop; lia || done.
    - by rewrite drop_ge, range_elems_nil by (lia || (apply before_false_pos; simpl; lia)). }
  cbn [mbind result_bind]. do 2 f_equal.
  rewrite (range_elems_cons 0 (Z.of_nat (S (length xs)))) by (lia || (apply before_true_pos; lia)). simpl. f_equal.
  apply omap_shift.
Qed.
End slices.

Section apply_slice.
Context {T : Type}.
Implicit Types xs : list T.

Definition sub xs (a b : Z) : list T := take (Z.to_nat (b - a)) (drop (Z.to_nat a) xs).

Lemma length_sub xs a b :
  0 ≤ a ≤ b → b ≤ Z.of_nat (length xs) → Z.of_nat (length (sub xs a b)) = b - a.
Proof. intros Ha Hb. unfold sub. rewrite length_take, length_drop. lia. Qed.

Lemma sub_lookup xs a b j :
  0 ≤ a → 0 ≤ j < b - a → sub xs a b !! Z.to_nat j = xs !! Z.to_nat (a + j).
Proof.
  intros Ha Hj. unfold sub. rewrite lookup_take_lt, lookup_drop by lia. f_equal. lia.
Qed.

Lemma sub_reverse_lookup xs a b j :
  0 ≤ a ≤ b → b ≤ Z.of_nat (length xs) → 0 ≤ j < b - a →
  reverse (sub xs a b) !! Z.to_nat j = xs !! Z.to_nat (b - 1 - j).
Proof.
  intros Ha Hb Hj. pose proof (length_sub xs a b Ha Hb) as Hl.
  rewrite reverse_lookup by lia.
  replace (length (sub xs a b) - S (Z.to_nat j))%nat with (Z.to_nat (b - a - 1 - j)) by lia.
  rewrite sub_lookup by lia. do 2 f_equal. lia.
Qed.

Lemma omap_all xs :
  omap (λ j, xs !! Z.to_nat j) (range_elems 0 (Z.of_nat (length xs)) 1) = xs.
Proof.
  induction xs as [|x xs IH]; [by rewrite range_elems_nil|].
  rewrite range_elems_cons by (lia || (apply before_true_pos; simpl; lia)). simpl. f_equal.
  etrans; [|exact IH]. replace (Z.of_nat (S (length xs))) with (Z.of_nat (length xs) + 1) by lia.
  rewrite (range_elems_shift 0 _ 1 1). apply omap_fmap_ext.
  intros y (i & Hi & ->)%elem_of_range_elems.
  by replace (Z.to_nat (0 + i * 1 + 1)) with (S (Z.to_nat (0 + i * 1))) by lia.
Qed.

Lemma range_elem_bound n k j :
  0 < k → j ∈ range_elems 0 n k → 0 ≤ j < n.
Proof.
  intros Hk (i & Hi & ->)%elem_of_range_elems.
  pose proof (range_elem_before 0 n k i ltac:(lia) Hi) as Hb. unfold before in Hb.
  rewrite (proj2 (Z.ltb_lt 0 k) Hk) in Hb. apply Z.ltb_lt in Hb. nia.
Qed.

Lemma slice_pos xs a b k :
  0 ≤ a ≤ b → b ≤ Z.of_nat (length xs) → 0 < k →
  omap (λ i, xs !! Z.to_nat i) (range_elems a b k) =
  omap (λ j, sub xs a b !! Z.to_nat j) (range_elems 0 (Z.of_nat (length (sub xs a b))) k).
Proof.
  intros Ha Hb Hk. rewrite length_sub by done.
  pose proof (range_elems_shift 0 (b - a) k a) as Hs.
  rewrite Z.add_0_l, Z.sub_add in Hs. rewrite Hs. apply omap_fmap_ext.
  intros j Hj%range_elem_bound; [|done]. rewrite sub_lookup by lia. do 2 f_equal. lia.
Qed.

Lemma slice_neg xs a b k :
  -1 ≤ b ≤ a → a < Z.of_nat (length xs) → k < 0 →
  omap (λ i, xs !! Z.to_nat i) (range_elems a b k) =
  omap (λ j, reverse (sub xs (b + 1) (a + 1)) !! Z.to_nat j)
    (range_elems 0 (Z.of_nat (length (reverse (sub xs (b + 1) (a + 1))))) (- k)).
Proof.
  intros Hb Ha Hk. rewrite length_reverse, length_sub by lia.
  pose proof (range_elems_opp (- a) (- b) (- k)) as Ho. rewrite !Z.opp_involutive in Ho.
  pose proof (range_elems_shift 0 (a - b) (- k) (- a)) as Hs.
  replace (0 + - a) with (- a) in Hs by lia. replace (a - b + - a) with (- b) in Hs by lia.
  rewrite Ho, Hs, <-list_fmap_compose. replace (a + 1 - (b + 1)) with (a - b) by lia.
  apply omap_fmap_ext. intros j Hj%range_elem_bound; [|lia]. simpl.
  rewrite sub_reverse_lookup by lia. do 2 f_equal. lia.
Qed.

Lemma slice_range_ok xs a b :
  0 ≤ a ≤ b → b ≤ Z.of_nat (length xs) → slice_range xs a b = Ok (sub xs a b).
Proof. intros Ha Hb. unfold slice_range. by rewrite !(proj2 (Z.leb_le _ _)) by lia. Qed.

Lemma py_clamp_range len step v d :
  0 ≤ len → (if step <? 0 then -1 ≤ d ≤ len - 1 else 0 ≤ d ≤ len) →
  if step <? 0 then -1 ≤ py_clamp len step v d ≤ len - 1 else 0 ≤ py_clamp len step v d ≤ len.
Proof. intros Hl Hd. unfold py_clamp. destruct (step <? 0), v; lia. Qed.
End apply_slice.

Section theorems.
Context `{Target} {B : Type} `{BigIntOk B} {T : Type}.
Implicit Types (v : Value B) (xs : list T).

Definition stride_of (o : option Z) : Z := match o with Some k => k | None => 1 end.

Lemma convert_slice_indices_ok len (start stop stride : option (Value B)) s e k :
  0 ≤ len ≤ i32_max → slice_arg start s → slice_arg stop e → slice_arg stride k →
  stride_of k ≠ 0 →
  let st := stride_of k in
  convert_slice_indices len start stop stride =
    Ok (py_clamp len st s (if st <? 0 then len - 1 else 0),
        py_clamp len st e (if st <? 0 then -1 else len), st).
Proof.
  intros Hlen Hs He Hk Hk0 st. unfold convert_slice_indices.
  assert ((match stride with None => Ok 1
           | Some v => if is_none v then Ok 1 else unpack_value_err v end) = Ok st) as ->.
  { destruct k as [x|]; simpl in *; [|by destruct Hk as [-> | ->]].
    destruct Hk as (w & -> & Hw). assert (is_none w = false) as -> by by destruct Hw as (i & -> & _).
    by apply unpack_value_err_arg. }
  cbn [mbind result_bind]. rewrite (proj2 (Z.eqb_neq st 0) Hk0).
  destruct (Z.ltb_spec st 0) as [Hneg|Hpos].
  - rewrite !i32_op_Ok by (unfold i32_min, i32_max in *; lia). cbn [mbind result_bind].
    rewrite (convert_index_aux_ok len start s), (convert_index_aux_ok len stop e) by (done || lia).
    unfold py_clamp. by rewrite (proj2 (Z.ltb_lt _ _) Hneg).
  - rewrite !i32_op_Ok by (unfold i32_min, i32_max in *; lia). cbn [mbind result_bind].
    rewrite (convert_index_aux_ok len start s), (convert_index_aux_ok len stop e) by (done || lia).
    unfold py_clamp. by rewrite (proj2 (Z.ltb_ge _ _) Hpos), Z.add_0_r.
Qed.

(** Operands that are absent or in [i32]. *)
Lemma apply_slice_args xs (start stop stride : option (Value B)) s e k :
  Z.of_nat (length xs) ≤ i32_max →
  slice_arg start s → slice_arg stop e → slice_arg stride k → stride_of k ≠ i32_min →
  apply_slice xs start stop stride =
    if stride_of k =? 0 then Err (IndexOutOfBound 0) else Ok (py_slice xs s e (stride_of k)).
Proof.
  intros Hlen Hs He Hk Hmin. unfold apply_slice.
  rewrite as_i32_id by (unfold i32_min, i32_max in *; lia).
  destruct (Z.eqb_spec (stride_of k) 0) as [Hz|Hz].
  { unfold convert_slice_indices. destruct k as [x|]; simpl in *; [|done]. subst x.
    destruct Hk as (w & -> & Hw). assert (is_none w = false) as -> by by destruct Hw as (i & -> & _).
    by rewrite (unpack_value_err_arg _ _ Hw). }
  rewrite (convert_slice_indices_ok _ _ _ _ s e k) by (done || lia). cbn [mbind result_bind].
  assert (i32_min ≤ stride_of k ≤ i32_max) as Hkr.
  { destruct k as [x|]; simpl in *; [|unfold i32_min, i32_max; lia].
    by destruct Hk as (w & _ & i & _ & _ & _ & Hr). }
  unfold py_slice. set (n := Z.of_nat (length xs)) in *. set (st := stride_of k) in *.
  set (a := py_clamp n st s _). set (b := py_clamp n st e _).
  assert (if st <? 0 then -1 ≤ a ≤ n - 1 else 0 ≤ a ≤ n) as Ha
    by (apply py_clamp_range; [lia|case_tests; lia]).
  assert (if st <? 0 then -1 ≤ b ≤ n - 1 else 0 ≤ b ≤ n) as Hb
    by (apply py_clamp_range; [lia|case_tests; lia]).
  clearbody a b. destruct (Z.ltb_spec st 0) as [Hneg|Hpos].
  - rewrite (proj2 (Z.eqb_neq st 1)) by lia.
    rewrite !i32_op_Ok by (unfold i32_min, i32_max in *; lia). cbn [mbind result_bind].
    destruct (Z.leb_spec (a + 1) (b + 1)) as [Hle|Hlt].
    { rewrite range_elems_nil; [done|lia|]. unfold before.
      rewrite (proj2 (Z.ltb_ge 0 st)) by lia. apply Z.ltb_ge. lia. }
    rewrite slice_range_ok by lia. cbn [mbind result_bind]. rewrite slice_neg by lia.
    destruct (Z.eqb_spec st (-1)) as [->|Hm1]; [by rewrite omap_all|].
    replace (Z.abs st) with (- st) by lia. apply filter_stride_ok; [lia|done|].
    rewrite length_reverse. pose proof (length_sub xs (b + 1) (a + 1)). lia.
  - cbn [mbind result_bind]. destruct (Z.leb_spec b a) as [Hle|Hlt].
    { rewrite range_elems_nil; [by destruct (st =? 1)|done|]. apply before_false_pos; lia. }
    rewrite slice_range_ok by lia. rewrite slice_pos by lia.
    destruct (Z.eqb_spec st 1) as [->|Hst1]; [by rewrite omap_all|].
    cbn [mbind result_bind]. rewrite (proj2 (Z.eqb_neq st (-1))) by lia.
    rewrite Z.abs_eq, i32_op_Ok by lia. apply filter_stride_ok; [lia|done|].
    pose proof (length_sub xs a b). lia.
Qed.

(** What an operand of a slice is read as: absent and [None] are the same, and an integer fits [i32]. *)
Definition slice_operand (v : option (Value B)) : result index_error (option Z) :=
  match v with
  | None | Some VNone => Ok None
  | Some (VInt i) => if in_i32 (int_val i) then Ok (Some (int_val i)) else Err IntegerTooBigError
  | Some VOther => Err IncorrectType
  end.
Definition operand_ok (v : option (Value B)) : Prop := ∀ i, v = Some (VInt i) → int_ok i.

Lemma slice_operand_arg (v : option (Value B)) o : operand_ok v → slice_operand v = Ok o → slice_arg v o.
Proof.
  intros Hv Ho. destruct v as [[|i|]|]; simpl in Ho; [injection Ho as <-; by right| |done|injection Ho as <-; by left].
  destruct (in_i32 (int_val i)) eqn:Hi; [|done]. injection Ho as <-. apply in_i32_spec in Hi. eexists. split; [done|]. exists i.
  split_and!; [done|by apply Hv|done|apply Hi..].
Qed.
Lemma slice_operand_err (v : option (Value B)) e : operand_ok v → slice_operand v = Err e →
  ∃ w, v = Some w ∧ is_none w = false ∧ unpack_value_err w = Err e.
Proof.
  intros Hv He. destruct v as [[|i|]|]; simpl in He; try done.
  - destruct (in_i32 (int_val i)) eqn:Hi; [done|]. injection He as <-. eexists. split_and!; [done..|].
    by rewrite unpack_value_err_int, Hi by by apply Hv.
  - injection He as <-. eexists. split_and!; [done..|]. by apply unpack_value_err_bad.
Qed.
Lemma convert_index_aux_err len (v : option (Value B)) e default min max :
  operand_ok v → slice_operand v = Err e → convert_index_aux len v default min max = Err e.
Proof.
  intros Hv (w & -> & Hn & He)%slice_operand_err; [|done]. unfold convert_index_aux. by rewrite Hn, He.
Qed.
Lemma slice_operand_no_fault (v : option (Value B)) f : slice_operand v ≠ Fault f.
Proof. destruct v as [[|i|]|]; simpl; try done. by destruct (in_i32 _). Qed.
(** Reading the stride, and an operand that cannot be read. *)
Lemma convert_slice_indices_errors len (start stop stride : option (Value B)) k x :
  0 ≤ len ≤ i32_max → operand_ok start → operand_ok stop → operand_ok stride →
  slice_operand stride = Ok k → stride_of k ≠ 0 → (s ← slice_operand start; e ← slice_operand stop; Ok (s, e)) = Err x →
  convert_slice_indices len start stop stride = Err x.
Proof.
  intros Hlen Hs He Hk Hstride Hz Herr. unfold convert_slice_indices.
  assert ((match stride with None => Ok 1 | Some v => if is_none v then Ok 1 else unpack_value_err v end) = Ok (stride_of k)) as ->.
  { apply slice_operand_arg in Hstride; [|done]. destruct k as [z|]; simpl in *; [|by destruct Hstride as [-> | ->]].
    destruct Hstride as (w & -> & Hw). assert (is_none w = false) as -> by by destruct Hw as (i & -> & _). by apply unpack_value_err_arg. }
  cbn [mbind result_bind]. rewrite (proj2 (Z.eqb_neq _ _) Hz).
  assert ((if stride_of k <? 0 then i32_op (E:=index_error) (len - 1) else Ok 0) = Ok (if stride_of k <? 0 then len - 1 else 0)) as ->
    by (destruct (_ <? 0); [apply i32_op_Ok; unfold i32_min, i32_max in *; lia|done]).
  cbn [mbind result_bind]. rewrite i32_op_Ok by (destruct (_ <? 0); unfold i32_min, i32_max in *; lia). cbn [mbind result_bind].
  destruct (slice_operand start) as [s|e|f] eqn:Es; [| |by apply slice_operand_no_fault in Es].
  - destruct (slice_operand stop) as [e|e|f] eqn:Ee; [done| |by apply slice_operand_no_fault in Ee]. injection Herr as ->.
    rewrite (convert_index_aux_ok len start s) by (first [by apply slice_operand_arg|lia|destruct (_ <? 0); lia]).
    by rewrite (convert_index_aux_err _ _ _ _ _ _ He Ee).
  - injection Herr as ->. rewrite (convert_index_aux_err _ _ _ _ _ _ Hs Es).
    destruct (slice_operand stop) as [e|e|f] eqn:Ee; [| |by apply slice_operand_no_fault in Ee].
    + by rewrite (convert_index_aux_ok len stop e) by (first [by apply slice_operand_arg|lia|destruct (_ <? 0); lia]).
    + by rewrite (convert_index_aux_err _ _ _ _ _ _ He Ee).
Qed.

(** C10: [xs[start:stop:stride]] for a sequence of at most [i32::MAX] elements and any operands.  Operands that are absent,
    [None] or integers in [i32], negative and out of the sequence's range included, give Python's slice, in both
    directions; a zero stride is an error, and so is an operand that is not an integer or does not fit [i32] (Python clamps
    such an integer), where the stride is looked at first.  The stride [i32::MIN] is excluded: its absolute value
    overflows. *)
Theorem apply_slice_python xs (start stop stride : option (Value B)) :
  Z.of_nat (length xs) ≤ i32_max →
  operand_ok start → operand_ok stop → operand_ok stride → slice_operand stride ≠ Ok (Some i32_min) →
  apply_slice xs start stop stride =
    (k ← slice_operand stride;
     if stride_of k =? 0 then Err (IndexOutOfBound 0) else
     s ← slice_operand start;
     e ← slice_operand stop;
     Ok (py_slice xs s e (stride_of k))).
Proof.
  intros Hlen Hs He Hk Hmin. destruct (slice_operand stride) as [k|x|f] eqn:Ek; [| |by apply slice_operand_no_fault in Ek].
  - cbn [mbind result_bind]. destruct (Z.eqb_spec (stride_of k) 0) as [Hz|Hz].
    + unfold apply_slice, convert_slice_indices. apply slice_operand_arg in Ek; [|done].
      destruct k as [z|]; simpl in *; [|done]. subst z.
      destruct Ek as (w & -> & Hw). assert (is_none w = false) as -> by by destruct Hw as (i & -> & _).
      by rewrite (unpack_value_err_arg _ _ Hw).
    + destruct (s ← slice_operand start; e ← slice_operand stop; Ok (s, e)) as [[s e]|x|f] eqn:Ese.
      * destruct (slice_operand start) as [s'|?|?] eqn:Es; [|done..]. cbn [mbind result_bind] in *.
        destruct (slice_operand stop) as [e'|?|?] eqn:Ee; [|done..]. injection Ese as -> ->. cbn [mbind result_bind].
        rewrite (apply_slice_args xs start stop stride s e k) by (first [done|by apply slice_operand_arg|
          intros Hm; apply Hmin; destruct k; simpl in Hm; [by subst|done]]).
        by rewrite (proj2 (Z.eqb_neq _ _) Hz).
      * unfold apply_slice. rewrite as_i32_id by (unfold i32_min, i32_max in *; lia).
        rewrite (convert_slice_indices_errors _ _ _ _ k x) by (done || lia). cbn [mbind result_bind].
        destruct (slice_operand start) as [s'|?|?]; cbn [mbind result_bind] in *; [|congruence|done].
        destruct (slice_operand stop); cbn [mbind result_bind] in *; congruence.
      * destruct (slice_operand start) eqn:Es; [|done|by apply slice_operand_no_fault in Es]. cbn [mbind result_bind] in Ese.
        destruct (slice_operand stop) eqn:Ee; [done|done|by apply slice_operand_no_fault in Ee].
  - unfold apply_slice, convert_slice_indices. apply slice_operand_err in Ek as (w & -> & -> & Hw); [|done]. by rewrite Hw.
Qed.

Lemma convert_index_ok (v : Value B) len :
  0 ≤ len ≤ i32_max → (∀ i, v = VInt i → int_ok i) →
  convert_index v len =
    match v with
    | VInt i =>
      let x := int_val i in
      if in_i32 x then
        if (- len <=? x) && (x <? len) then Ok (if x <? 0 then x + len else x)
        else Err (IndexOutOfBound (if x <? 0 then x + len else x))
      else Err IntegerTooBigError
    | _ => Err IncorrectType
    end.
Proof.
  intros Hlen Hok. unfold convert_index. destruct v as [|i|];
    [by rewrite unpack_value_err_bad| |by rewrite unpack_value_err_bad].
  rewrite unpack_value_err_int by by apply Hok. set (x := int_val i).
  destruct (in_i32 x) eqn:Hx; [|done]. cbn [mbind result_bind]. apply in_i32_spec in Hx.
  assert ((if x <? 0 then ok_or (checked_i32 (len + x)) IntegerOverflow else Ok x)
    = Ok (if x <? 0 then x + len else x)) as ->.
  { destruct (Z.ltb_spec x 0); [|done].
    rewrite checked_i32_Some by (unfold i32_min, i32_max in *; lia). simpl. f_equal. lia. }
  cbn [mbind result_bind].
  z_tests; done.
Qed.

(** [xs[i]] counts negative indices from the end and accepts exactly
    [-len <= i < len]; any other integer in [i32] is an error, as is an index that is not
    an integer or does not fit [i32]. *)
Theorem convert_index_python (v : Value B) len :
  0 ≤ len ≤ i32_max → (∀ i, v = VInt i → int_ok i) →
  convert_index v len =
    match v with
    | VInt i =>
      let x := int_val i in
      if in_i32 x then
        if (- len <=? x) && (x <? len) then Ok (if x <? 0 then x + len else x)
        else Err (IndexOutOfBound (if x <? 0 then x + len else x))
      else Err IntegerTooBigError
    | _ => Err IncorrectType
    end.
Proof. apply convert_index_ok. Qed.
End theorems.

Lemma convert_indices_ok len (start end_ : option Z) :
  0 ≤ len ≤ i32_max →
  (∀ x, start = Some x ∨ end_ = Some x → i32_min ≤ x ≤ i32_max) →
  convert_indices len start end_ =
    Ok (py_clamp len 1 start 0, py_clamp len 1 end_ len) ∧
  0 ≤ py_clamp len 1 start 0 ≤ len ∧ 0 ≤ py_clamp len 1 end_ len ≤ len ∧
  (∀ x, start = Some x → convert_index_from len x = Ok (py_clamp len 1 start 0)).
Proof.
  intros Hlen Hx. unfold convert_indices, convert_index_from, bound.
  assert (∀ x, i32_min ≤ x ≤ i32_max → (if x <? 0 then i32_op (x + len) else Ok x)
    = Ok (E:=Empty_set) (if x <? 0 then x + len else x)) as Hadd.
  { intros x Hr. destruct (Z.ltb_spec x 0); [|done].
    apply i32_op_Ok. unfold i32_min, i32_max in *. lia. }
  split_and!;
    [|(apply (py_clamp_range len 1 start 0) || apply (py_clamp_range len 1 end_ len));
      simpl; lia..|].
  - rewrite (Hadd (match end_ with Some e => e | None => len end)),
      (Hadd (match start with Some e => e | None => 0 end)).
    + cbn [mbind result_bind]. unfold py_clamp. do 2 f_equal; [destruct start as [x|]|destruct end_ as [x|]]; simpl;
        z_tests; done.
    + destruct start; [eauto|]. unfold i32_min, i32_max. lia.
    + destruct end_; [eauto|]. unfold i32_min, i32_max in *. lia.
  - intros x ->. rewrite Hadd by eauto. cbn [mbind result_bind]. f_equal. unfold py_clamp.
    z_tests.
Qed.

(** The bounds that [convert_indices] (for [str.find], [list.index] and the like)
    returns are in range and are the operands clamped as in Python; nothing overflows. *)
Theorem convert_indices_bounds len (start end_ : option Z) :
  0 ≤ len ≤ i32_max →
  (∀ x, start = Some x ∨ end_ = Some x → i32_min ≤ x ≤ i32_max) →
  convert_indices len start end_ =
    Ok (py_clamp len 1 start 0, py_clamp len 1 end_ len) ∧
  0 ≤ py_clamp len 1 start 0 ≤ len ∧ 0 ≤ py_clamp len 1 end_ len ≤ len ∧
  (∀ x, start = Some x → convert_index_from len x = Ok (py_clamp len 1 start 0)).
Proof. apply convert_indices_ok. Qed.

#[local] Existing Instance target_64.

Lemma apply_slice_python_witness :
  apply_slice (B:=Z) [10; 11; 12; 13; 14; 15; 16]
    (Some (VInt (Small 5))) (Some (VInt (Small (-5)))) (Some (VInt (Small (-2)))) = Ok [15; 13] ∧
  apply_slice (B:=Z) [10; 11] (Some (VInt (Small 0))) (Some (VInt (Big (2 ^ 40)))) None = Err IntegerTooBigError.
Proof.
  assert (∀ z, inline z → operand_ok (B:=Z) (Some (VInt (Small z)))) as Hsmall by (intros z Hz i [= <-]; exact Hz).
  assert (operand_ok (B:=Z) (Some (VInt (Big (2 ^ 40))))) as Hbig by (intros i [= <-]; vm_compute; intros [_ Hx]; by apply Hx).
  assert (operand_ok (B:=Z) None) as Hnone by (intros i Hi; discriminate Hi).
  split.
  - rewrite (apply_slice_python (B:=Z)); [by vm_compute|by vm_compute|apply Hsmall; by vm_compute..|by vm_compute].
  - rewrite (apply_slice_python (B:=Z)); [by vm_compute|by vm_compute|apply Hsmall; by vm_compute|exact Hbig|exact Hnone|by vm_compute].
Defined.

Lemma convert_index_python_witness :
  convert_index (B:=Z) (VInt (Small (-1))) 7 = Ok 6.
Proof.
  rewrite (convert_index_python (B:=Z)); [by vm_compute|by vm_compute|].
  intros i [= <-]. by vm_compute.
Defined.

Lemma convert_indices_bounds_witness : convert_indices 5 (Some (-2)) None = Ok (3, 5).
Proof.
  rewrite (proj1 (convert_indices_bounds 5 (Some (-2)) None ltac:(by vm_compute)
    ltac:(by intros x [[= <-]|[=]]))). by vm_compute.
Defined.
