(* ===== verification/Range.v ===== *)
(** [starlark/src/values/types/range]: the value of [range(start, stop, step)], whose
    length, indexing, slicing, equality and membership are computed without listing the
    elements.  The specification is the list of elements, [range_elems] of [Index.v]. *)

From S2P Require Import Prelude Ints Index.
Local Open Scope Z_scope.

(** * The code *)

(** The [i32] fields; [step] is a [NonZeroI32]. *)
Record Range := mkRange { start : Z; stop : Z; step : Z }.

(** [wrapping_sub] and [wrapping_neg] on [i32]. *)
Definition wrapping_sub_i32 (a b : Z) : Z := as_i32 (a - b).
Definition wrapping_neg_i32 (a : Z) : Z := as_i32 (- a).
(** [NonZeroI32::new]. *)
Definition NonZero_new (i : Z) : option Z := if i =? 0 then None else Some i.

(** The [range] function; its error is the zero step. *)
Definition range (a1 : Z) (a2 : option Z) (step : Z) : result () Range :=
  let start := match a2 with None => 0 | Some _ => a1 end in
  let stop := match a2 with Some a2 => a2 | None => a1 end in
  match NonZero_new step with
  | Some step => Ok (mkRange start stop step)
  | None => Err ()
  end.

Definition rem_range_at_iter (r : Range) (index : Z) : option Range :=
  index ← checked_i64 index;
  let start := saturate_i64 (start r + saturate_i64 (index * step r)) in
  start ← checked_i32 start;
  Some (mkRange start (stop r) (step r)).

Definition to_bool (r : Range) : bool :=
  ((start r <? stop r) && (0 <? step r)) || ((stop r <? start r) && (step r <? 0)).

Definition length (r : Range) : result index_error Z :=
  if start r =? stop r then Ok 0
  else if negb (eqb (start r <=? stop r) (0 <? step r)) then Ok 0
  else
    let '(dist, step) :=
      if 0 <=? step r then (as_u64 (wrapping_sub_i32 (stop r) (start r)), as_u64 (step r))
      else (as_u64 (wrapping_sub_i32 (start r) (stop r)), as_u64 (wrapping_neg_i32 (step r))) in
    let i := as_i32 ((dist - 1) / step + 1) in
    if 0 <=? i then Ok i else Err IntegerOverflow.

Definition iter_next (r : Range) (index : Z) : option Z :=
  rem_range ← rem_range_at_iter r index;
  if negb (to_bool rem_range) then None else Some (start rem_range).

(** The size hint's bounds. *)
Definition iter_size_hint (r : Range) (index : Z) : comp (Z * option Z) :=
  match rem_range_at_iter r index with
  | None => Ok (0, Some 0)
  | Some rem_range =>
    match length rem_range with
    | Ok l => Ok (l, Some l)
    | Err _ => Ok (0, None)
    | Fault f => Fault f
    end
  end.

Definition equals_range (self other : Range) : result index_error bool :=
  self_length ← length self;
  other_length ← length other;
  if (self_length =? 0) || (other_length =? 0) then Ok (self_length =? other_length)
  else if negb (start self =? start other) then Ok false
  else if (self_length =? 1) || (other_length =? 1) then Ok (self_length =? other_length)
  else
    _ ← assert (1 <? self_length);
    _ ← assert (1 <? other_length);
    if step self =? step other then Ok (self_length =? other_length) else Ok false.

(** The argument is [other.unpack_num().and_then(as_int)]. *)
Definition is_in (r : Range) (other : option Z) : result index_error bool :=
  match other with
  | None => Ok false
  | Some other =>
    if negb (to_bool r) then Ok false
    else if start r =? other then Ok true
    else if 0 <? step r then
      if (other <? start r) || (stop r <=? other) then Ok false
      else Ok ((as_u64 (wrapping_sub_i32 other (start r))) mod (as_u64 (step r)) =? 0)
    else
      if (start r <? other) || (other <=? stop r) then Ok false
      else Ok ((as_u64 (wrapping_sub_i32 (start r) other))
                 mod (as_u64 (wrapping_neg_i32 (step r))) =? 0)
  end.

Section values.
Context `{Target} {B : Type} `{BigInt B}.

Definition at_ (r : Range) (index : Value B) : result index_error Z :=
  len ← length r;
  index ← convert_index index len;
  p ← i32_op (step r * index);
  i32_op (start r + p).

Definition slice (r : Range) (s e k : option (Value B)) : result index_error Range :=
  len ← length r;
  '(s, e, k) ← convert_slice_indices len s e k;
  p ← ok_or (checked_i32 (s * step r)) IntegerOverflow;
  new_start ← ok_or (checked_i32 (start r + p)) IntegerOverflow;
  q ← ok_or (checked_i32 (e * step r)) IntegerOverflow;
  new_stop ← ok_or (checked_i32 (start r + q)) IntegerOverflow;
  m ← ok_or (checked_i32 (k * step r)) IntegerOverflow;
  new_step ← unwrap (NonZero_new m);
  Ok (mkRange new_start new_stop new_step).
End values.

(** * Correctness *)

Definition elems (r : Range) : list Z := range_elems (start r) (stop r) (step r).
Definition elems_len (r : Range) : Z := range_len (start r) (stop r) (step r).

Record range_ok (r : Range) : Prop := {
  range_start : i32_min ≤ start r ≤ i32_max;
  range_stop : i32_min ≤ stop r ≤ i32_max;
  range_step : i32_min ≤ step r ≤ i32_max;
  range_step_nonzero : step r ≠ 0;
}.
(** The distance from [start] to [stop] fits [i32]. *)
Definition short (r : Range) : Prop := Z.abs (stop r - start r) ≤ i32_max.

Lemma before_range_len a b k i :
  k ≠ 0 → 0 ≤ i → i < range_len a b k ↔ before k (a + i * k) b = true.
Proof.
  intros Hk Hi. split; [intros Hl; by apply range_elem_before|].
  unfold before, range_len. destruct (Z.ltb_spec 0 k).
  - rewrite Z.ltb_lt. intros Hb.
    assert (i + 1 ≤ (b - a + k - 1) / k) by (apply Z.div_le_lower_bound; nia). lia.
  - rewrite (proj2 (Z.ltb_lt k 0)) by lia. rewrite Z.ltb_lt. intros Hb.
    assert (i + 1 ≤ (a - b - k - 1) / (- k)) by (apply Z.div_le_lower_bound; nia). lia.
Qed.

Lemma to_bool_before r : step r ≠ 0 → to_bool r = before (step r) (start r) (stop r).
Proof.
  intros Hs. unfold to_bool, before.
  destruct (Z.ltb_spec 0 (step r)).
  - rewrite (proj2 (Z.ltb_ge (step r) 0)) by lia. by rewrite andb_true_r, andb_false_r, orb_false_r.
  - rewrite (proj2 (Z.ltb_lt (step r) 0)) by lia. by rewrite andb_true_r, andb_false_r.
Qed.

(** Elements lie between [start] and [stop]. *)
Lemma elem_between r i :
  range_ok r → 0 ≤ i < elems_len r →
  Z.min (start r) (stop r) ≤ start r + i * step r ≤ Z.max (start r) (stop r) ∧
  Z.abs (i * step r) ≤ Z.abs (stop r - start r).
Proof.
  intros [_ _ _ Hs] [Hi Hl]. apply before_range_len in Hl; [|done..].
  unfold before in Hl. destruct (Z.ltb_spec 0 (step r)); apply Z.ltb_lt in Hl; nia.
Qed.

Lemma elems_len_bound r : range_ok r → short r → 0 ≤ elems_len r ≤ i32_max.
Proof.
  intros [_ _ _ Hz] Hs. split; [apply range_len_nonneg|]. unfold short in Hs.
  destruct (Z.le_gt_cases (elems_len r) 0); [unfold i32_max in *; lia|].
  pose proof (range_elem_before (start r) (stop r) (step r) (elems_len r - 1) Hz) as Hb.
  fold (elems_len r) in Hb. specialize (Hb ltac:(lia)). unfold before in Hb.
  destruct (Z.ltb_spec 0 (step r)); apply Z.ltb_lt in Hb; nia.
Qed.

Lemma range_len_zero a b k : k ≠ 0 → before k a b = false → range_len a b k = 0.
Proof.
  intros Hk Hb. pose proof (range_len_nonneg a b k). destruct (Z.eq_dec (range_len a b k) 0); [done|].
  assert (before k a b = true) by (apply range_len_pos; lia). congruence.
Qed.

(** The division of the code, without truncation. *)
Lemma count_steps d k :
  1 ≤ d ≤ i32_max → 1 ≤ k →
  as_i32 ((d - 1) / k + 1) = (d + k - 1) / k ∧ 0 ≤ (d + k - 1) / k.
Proof.
  intros Hd Hk. replace (d + k - 1) with (d - 1 + 1 * k) by lia. rewrite Z.div_add by lia.
  assert (0 ≤ (d - 1) / k ≤ d - 1) by
    (split; [apply Z.div_pos; lia|apply Z.div_le_upper_bound; nia]).
  split; [|lia]. apply as_i32_id. unfold i32_min, i32_max in *. lia.
Qed.

(** The negated step as the code has it; [i32::MIN] becomes a huge number, which exceeds
    every distance just as its absolute value does. *)
Lemma wrapping_neg_u64 k :
  i32_min ≤ k < 0 →
  as_u64 (wrapping_neg_i32 k) = - k ∨ k = i32_min ∧ as_u64 (wrapping_neg_i32 k) = 2 ^ 64 - 2 ^ 31.
Proof.
  unfold wrapping_neg_i32, i32_min. intros Hk. destruct (Z.eq_dec k (-2147483648)) as [->|Hm].
  - right. split; [done|by vm_compute].
  - left. rewrite as_i32_id by (unfold i32_min, i32_max; lia).
    apply as_u64_id. unfold u64_max. lia.
Qed.

Lemma length_elems_len r : range_ok r → short r → length r = Ok (elems_len r).
Proof.
  intros [Hstart Hstop Hstep Hz] Hs. unfold length, elems_len, short in *.
  destruct (Z.eqb_spec (start r) (stop r)) as [He|He].
  { rewrite range_len_zero; [done..|]. unfold before. rewrite He, Z.ltb_irrefl.
    by destruct (0 <? step r). }
  destruct (eqb (start r <=? stop r) (0 <? step r)) eqn:Hdir; cbn [negb].
  2: { rewrite range_len_zero; [done..|]. unfold before.
       destruct (Z.leb_spec (start r) (stop r)), (Z.ltb_spec 0 (step r)); try done;
         apply Z.ltb_ge; lia. }
  apply eqb_prop in Hdir. unfold wrapping_sub_i32, range_len.
  destruct (Z.ltb_spec 0 (step r)) as [Hp|Hn].
  - apply Z.leb_le in Hdir. rewrite (proj2 (Z.leb_le 0 (step r))) by lia.
    rewrite (as_i32_id (stop r - start r)) by (unfold i32_min, i32_max in *; lia).
    rewrite !as_u64_id by (unfold u64_max, i32_max in *; lia).
    destruct (count_steps (stop r - start r) (step r)) as [-> Hge]; [lia..|].
    rewrite (proj2 (Z.leb_le _ _) Hge). f_equal. lia.
  - apply Z.leb_gt in Hdir. rewrite (proj2 (Z.leb_gt 0 (step r))), (proj2 (Z.ltb_lt (step r) 0)) by lia.
    rewrite (as_i32_id (start r - stop r)) by (unfold i32_min, i32_max in *; lia).
    rewrite (as_u64_id (start r - stop r)) by (unfold u64_max, i32_max in *; lia).
    replace (start r - stop r - step r - 1) with (start r - stop r + - step r - 1) by lia.
    destruct (wrapping_neg_u64 (step r)) as [-> | [Hm ->]]; [lia|..].
    + destruct (count_steps (start r - stop r) (- step r)) as [-> Hge]; [lia..|].
      rewrite (proj2 (Z.leb_le _ _) Hge). f_equal. lia.
    + unfold i32_min, i32_max in *. rewrite Hm, Z.div_small by lia.
      rewrite as_i32_id by (unfold i32_min, i32_max; lia). f_equal.
      assert ((start r - stop r + - (-2147483648) - 1) / - (-2147483648) = 1) as ->; [|done].
      symmetry. apply (Z.div_unique _ _ _ (start r - stop r - 1)); lia.
Qed.

Lemma lookup_elems r i :
  range_ok r →
  elems r !! i = (if before (step r) (start r + Z.of_nat i * step r) (stop r)
                  then Some (start r + Z.of_nat i * step r) else None).
Proof.
  intros [_ _ _ Hs]. unfold elems. rewrite lookup_range_elems.
  destruct (Z.ltb_spec (Z.of_nat i) (range_len (start r) (stop r) (step r))) as [Hl|Hl].
  - apply before_range_len in Hl; [|done|lia]. by rewrite Hl.
  - destruct (before _ _ _) eqn:Hb; [|done]. apply before_range_len in Hb; [lia|done|lia].
Qed.

Lemma saturate_checked x y :
  i32_min ≤ x ≤ i32_max → checked_i32 (saturate_i64 (x + saturate_i64 y)) = checked_i32 (x + y).
Proof.
  intros Hx. destruct (decide (i32_min ≤ x + y ≤ i32_max)) as [Hin|Hout].
  - assert (i64_min ≤ y ≤ i64_max ∧ i64_min ≤ x + y ≤ i64_max) as [Hy Hxy]
      by (unfold i32_min, i32_max, i64_min, i64_max in *; lia).
    by rewrite !saturate_i64_id by (rewrite ?saturate_i64_id; done).
  - rewrite (checked_i32_None _ Hout). apply checked_i32_None.
    unfold saturate_i64, i32_min, i32_max, i64_min, i64_max in *. lia.
Qed.

(** Iterating over a range yields exactly its elements, in order, and then stops:
    the [i]-th call of the iterator returns the [i]-th element, and nothing from the end
    on. This holds for every range, also when [stop - start] exceeds [i32], and at every
    index a [usize] can count. *)
Theorem range_iteration r (i : nat) :
  range_ok r → Z.of_nat i ≤ usize_max → iter_next r (Z.of_nat i) = elems r !! i.
Proof.
  intros Hr Hi. unfold iter_next, rem_range_at_iter. rewrite lookup_elems by done.
  destruct (checked_i64 (Z.of_nat i)) as [j|] eqn:Hj; simpl.
  - assert (j = Z.of_nat i) as -> by (unfold checked_i64 in Hj; case_tests; by simplify_eq).
    rewrite saturate_checked by apply Hr.
    destruct (checked_i32 (start r + Z.of_nat i * step r)) as [x|] eqn:Hx; simpl.
    + apply checked_i32_inv in Hx as [-> _]. rewrite to_bool_before by apply Hr. simpl.
      by destruct (before _ _ _).
    + destruct (before _ _ _) eqn:Hb; [|done].
      apply (before_range_len _ _ _ (Z.of_nat i)) in Hb; [|apply Hr|lia].
      pose proof (elem_between r (Z.of_nat i) Hr ltac:(unfold elems_len; lia)) as [Hrange _].
      destruct Hr. rewrite checked_i32_Some in Hx by lia. done.
  - destruct (before _ _ _) eqn:Hb; [|done].
    apply (before_range_len _ _ _ (Z.of_nat i)) in Hb; [|apply Hr|lia].
    pose proof (elem_between r (Z.of_nat i) Hr ltac:(unfold elems_len; lia)) as [_ Habs].
    unfold checked_i64, in_i64, in_range in Hj.
    destruct Hr as [Hstart Hstop Hstep Hz]. unfold i32_min, i32_max, i64_min, i64_max in *.
    rewrite (proj2 (Z.leb_le _ (Z.of_nat i))) in Hj by lia.
    destruct (Z.leb_spec (Z.of_nat i) 9223372036854775807); [done|]. nia.
Qed.

(** [len(r)] is the number of elements whenever the distance between the bounds
    fits [i32], and then indexing, from either end, returns the element of that
    position without overflow. *)
Theorem range_length_at `{Target} {B} `{BigIntOk B} r (index : Value B) :
  range_ok r → short r → (∀ i, index = VInt i → int_ok i) →
  length r = Ok (Z.of_nat (List.length (elems r))) ∧
  match convert_index index (elems_len r) with
  | Ok i => ∃ x, at_ r index = Ok x ∧ elems r !! Z.to_nat i = Some x
  | Err e => at_ r index = Err e
  | Fault _ => False
  end.
Proof.
  intros Hr Hs Hok. pose proof (length_elems_len r Hr Hs) as Hlen.
  unfold elems. rewrite length_range_elems. split; [done|].
  pose proof (elems_len_bound r Hr Hs) as Hbound.
  unfold at_. rewrite Hlen. cbn [mbind result_bind].
  rewrite (convert_index_ok index (elems_len r) Hbound Hok).
  destruct index as [|i|]; [done| |done]. cbn zeta. destruct (in_i32 (int_val i)); [|done]. simpl.
  destruct ((- elems_len r <=? int_val i) && (int_val i <? elems_len r)) eqn:Hin; [|done].
  apply andb_true_iff in Hin as [Hlo%Z.leb_le Hhi%Z.ltb_lt].
  set (j := if int_val i <? 0 then int_val i + elems_len r else int_val i).
  assert (0 ≤ j < elems_len r) as Hj by (subst j; z_tests).
  destruct (elem_between r j Hr Hj) as [Hrange Habs]. cbn [mbind result_bind].
  exists (start r + j * step r). unfold elems. rewrite lookup_range_elems, Z2Nat.id by lia.
  rewrite (proj2 (Z.ltb_lt j _)) by apply Hj. split; [|done].
  unfold short in Hs. rewrite Z.mul_comm.
  destruct Hr as [Hstart Hstop _ _]. unfold i32_min, i32_max in *.
  rewrite i32_op_Ok by (unfold i32_min, i32_max; lia). cbn [mbind result_bind].
  rewrite i32_op_Ok by (unfold i32_min, i32_max; lia). done.
Qed.

(** Two ranges are equal when their elements are, however they were written:
    [range(0)] and [range(2, 1, 3)], or [range(0, 9, 2)] and [range(0, 10, 2)]. *)
Theorem range_equality r r' :
  range_ok r → short r → range_ok r' → short r' →
  equals_range r r' = Ok (bool_decide (elems r = elems r')).
Proof.
  intros Hr Hs Hr' Hs'. unfold equals_range.
  rewrite (length_elems_len r Hr Hs), (length_elems_len r' Hr' Hs'). cbn [mbind result_bind].
  assert (∀ i, elems r !! i = (if Z.of_nat i <? elems_len r
    then Some (start r + Z.of_nat i * step r) else None)) as Hat by (intros; apply lookup_range_elems).
  assert (∀ i, elems r' !! i = (if Z.of_nat i <? elems_len r'
    then Some (start r' + Z.of_nat i * step r') else None)) as Hat' by (intros; apply lookup_range_elems).
  pose proof (elems_len_bound r Hr Hs) as Hl. pose proof (elems_len_bound r' Hr' Hs') as Hl'.
  assert (elems r = elems r' → elems_len r = elems_len r') as Hlen.
  { intros He. unfold elems_len, elems in *. by rewrite <-!length_range_elems, He. }
  destruct (Z.eqb_spec (elems_len r) (elems_len r')) as [Heq|Hne].
  2: { rewrite bool_decide_eq_false_2 by auto. by z_tests. }
  rewrite <-Heq in *. clear Heq.
  destruct (Z.eqb_spec (elems_len r) 0) as [Hz|Hz]; simpl.
  { rewrite bool_decide_eq_true_2; [done|]. apply list_eq. intros i. rewrite Hat, Hat'.
    by rewrite Hz, (proj2 (Z.ltb_ge _ _)) by lia. }
  destruct (Z.eqb_spec (start r) (start r')) as [Hstart|Hstart]; simpl.
  2: { rewrite bool_decide_eq_false_2; [done|]. intros He. pose proof (Hat 0%nat) as H0.
       rewrite He, Hat', (proj2 (Z.ltb_lt _ _)) in H0 by lia. injection H0 as H0. lia. }
  destruct (Z.eqb_spec (elems_len r) 1) as [Hone|Hone]; simpl.
  { rewrite bool_decide_eq_true_2; [done|]. apply list_eq. intros i. rewrite Hat, Hat', Hone.
    destruct i as [|i]; [by simpl; rewrite Hstart|]. by rewrite (proj2 (Z.ltb_ge _ _)) by lia. }
  rewrite (proj2 (Z.ltb_lt _ _)) by lia. cbn [assert mbind result_bind].
  destruct (Z.eqb_spec (step r) (step r')) as [Hstep|Hstep]; f_equal; symmetry.
  - rewrite bool_decide_eq_true_2; [done|]. apply list_eq. intros i.
    by rewrite Hat, Hat', Hstart, Hstep.
  - rewrite bool_decide_eq_false_2; [done|]. intros He. pose proof (Hat 1%nat) as H1.
    rewrite He, Hat', (proj2 (Z.ltb_lt _ _)) in H1 by lia. injection H1 as H1. lia.
Qed.

(** [x in range(..)] is membership among the elements. *)
Theorem range_membership r (x : Z) :
  range_ok r → short r → i32_min ≤ x ≤ i32_max →
  is_in r (Some x) = Ok (bool_decide (x ∈ elems r)).
Proof.
  intros Hr Hs Hx. pose proof (range_step_nonzero _ Hr) as Hz. unfold is_in.
  rewrite to_bool_before by done. unfold elems.
  destruct (before (step r) (start r) (stop r)) eqn:Hb; cbn [negb].
  2: { rewrite range_elems_nil by done. rewrite bool_decide_eq_false_2; [done|set_solver]. }
  pose proof (proj2 (range_len_pos _ _ _ Hz) Hb) as Hpos.
  assert (∀ b : bool, (b = true ↔ ∃ i, 0 ≤ i < elems_len r ∧ x = start r + i * step r) →
    bool_decide (x ∈ range_elems (start r) (stop r) (step r)) = b) as Hdec.
  { intros b Hiff. apply eq_bool_prop_intro. rewrite bool_decide_spec, elem_of_range_elems.
    symmetry. rewrite <-Hiff. by rewrite Is_true_true. }
  destruct (Z.eqb_spec (start r) x) as [He|He].
  { rewrite (Hdec true); [done|]. split; [|done]. intros _. exists 0. unfold elems_len. lia. }
  unfold before in Hb. destruct Hr as [Hstart Hstop Hstep _]. unfold short, wrapping_sub_i32 in *.
  destruct (Z.ltb_spec 0 (step r)) as [Hp|Hn]; apply Z.ltb_lt in Hb.
  - destruct (Z.ltb_spec x (start r)), (Z.leb_spec (stop r) x); cbn [orb];
      try (rewrite (Hdec false); [done|]; split; [done|]; intros (i & Hi & ->);
           pose proof (range_elem_before _ _ _ i Hz Hi) as Hbi; unfold before in Hbi;
           rewrite (proj2 (Z.ltb_lt 0 (step r)) Hp) in Hbi; apply Z.ltb_lt in Hbi; nia).
    rewrite as_i32_id by (unfold i32_min, i32_max in *; lia).
    rewrite !as_u64_id by (unfold u64_max, i32_max in *; lia). f_equal. symmetry. apply Hdec.
    rewrite Z.eqb_eq, Z.mod_divide by lia. split.
    + intros [i Hi]. exists i. split; [|lia]. split; [nia|].
      apply before_range_len; [done|nia|]. apply before_true_pos; lia.
    + intros (i & _ & ->). exists i. lia.
  - destruct (Z.ltb_spec (start r) x), (Z.leb_spec x (stop r)); cbn [orb];
      try (rewrite (Hdec false); [done|]; split; [done|]; intros (i & Hi & ->);
           pose proof (range_elem_before _ _ _ i Hz Hi) as Hbi; unfold before in Hbi;
           rewrite (proj2 (Z.ltb_ge 0 (step r)) Hn) in Hbi; apply Z.ltb_lt in Hbi; nia).
    rewrite as_i32_id by (unfold i32_min, i32_max in *; lia).
    rewrite (as_u64_id (start r - x)) by (unfold u64_max, i32_max in *; lia).
    f_equal. symmetry. apply Hdec.
    destruct (wrapping_neg_u64 (step r)) as [-> | [Hm ->]]; [lia|..].
    + rewrite Z.eqb_eq, Z.mod_divide by lia. split.
      * intros [i Hi]. exists i. split; [|lia]. split; [nia|].
        apply before_range_len; [done|nia|]. unfold before.
        rewrite (proj2 (Z.ltb_ge 0 (step r)) Hn). apply Z.ltb_lt. lia.
      * intros (i & _ & ->). exists i. lia.
    + rewrite Z.mod_small by (unfold i32_min, i32_max in *; lia). rewrite Z.eqb_eq. split; [lia|].
      intros (i & Hi & ->). rewrite Hm in *. unfold i32_min, i32_max in *.
      assert (i = 0) by lia. lia.
Qed.

(** ** Slicing *)

Lemma range_len_scale a b k t :
  k ≠ 0 → t ≠ 0 → range_len (a * t) (b * t) (k * t) = range_len a b k.
Proof.
  intros Hk Ht.
  assert (∀ i, 0 ≤ i → i < range_len (a * t) (b * t) (k * t) ↔ i < range_len a b k) as Hi.
  { intros i Hi. rewrite !before_range_len by lia. unfold before.
    destruct (Z.ltb_spec 0 (k * t)), (Z.ltb_spec 0 k); rewrite !Z.ltb_lt; nia. }
  pose proof (range_len_nonneg a b k) as H1.
  pose proof (range_len_nonneg (a * t) (b * t) (k * t)) as H2.
  pose proof (Hi (range_len a b k) H1). pose proof (Hi (range_len (a * t) (b * t) (k * t)) H2). lia.
Qed.

Lemma range_elems_affine a b k s t :
  k ≠ 0 → t ≠ 0 →
  range_elems (s + a * t) (s + b * t) (k * t) = (λ j, s + j * t) <$> range_elems a b k.
Proof.
  intros Hk Ht. rewrite !(Z.add_comm s), range_elems_shift. unfold range_elems.
  rewrite range_len_scale, <-!list_fmap_compose by done. apply list_fmap_ext.
  intros i x _. simpl. lia.
Qed.

(** Positions of a Python slice are positions of the sequence. *)
Lemma slice_positions n step s e j :
  0 ≤ n → step ≠ 0 →
  j ∈ range_elems (py_clamp n step s (if step <? 0 then n - 1 else 0))
                  (py_clamp n step e (if step <? 0 then -1 else n)) step →
  0 ≤ j < n.
Proof.
  intros Hn Hs (i & Hi & ->)%elem_of_range_elems.
  pose proof (py_clamp_range n step s (if step <? 0 then n - 1 else 0)) as Ha.
  pose proof (py_clamp_range n step e (if step <? 0 then -1 else n)) as Hb.
  revert Hi Ha Hb. generalize (py_clamp n step s (if step <? 0 then n - 1 else 0)) as a.
  generalize (py_clamp n step e (if step <? 0 then -1 else n)) as b. intros b a Hi Ha Hb.
  pose proof (range_elem_before a b step i Hs Hi) as Hbef. unfold before in Hbef.
  destruct (Z.ltb_spec step 0), (Z.ltb_spec 0 step); try lia; apply Z.ltb_lt in Hbef;
    specialize (Ha Hn ltac:(lia)); specialize (Hb Hn ltac:(lia)); nia.
Qed.

Lemma py_slice_elems r s e k :
  range_ok r → k ≠ 0 →
  let n := elems_len r in
  py_slice (elems r) s e k =
    range_elems (start r + py_clamp n k s (if k <? 0 then n - 1 else 0) * step r)
                (start r + py_clamp n k e (if k <? 0 then -1 else n) * step r) (k * step r).
Proof.
  intros Hr Hk n. rewrite range_elems_affine by (done || apply Hr). unfold py_slice, elems.
  rewrite length_range_elems. fold (elems_len r). fold n. rewrite list_fmap_alt.
  apply list_omap_ext, Forall_Forall2_diag, Forall_forall. intros j Hj.
  apply slice_positions in Hj; [|apply range_len_nonneg|done].
  rewrite lookup_range_elems, Z2Nat.id by lia. by rewrite (proj2 (Z.ltb_lt j _)) by apply Hj.
Qed.

(** Slicing a range gives the range of the sliced elements, for all operands; the
    only failure is [IntegerOverflow], when a bound or the step of the result does not
    fit [i32]. *)
Theorem range_slice `{Target} {B} `{BigIntOk B} r (s e k : option (Value B)) si ei ki :
  range_ok r → short r → slice_arg s si → slice_arg e ei → slice_arg k ki →
  stride_of ki ≠ 0 →
  match slice r s e k with
  | Ok r' => range_ok r' ∧ elems r' = py_slice (elems r) si ei (stride_of ki)
  | Err err => err = IntegerOverflow
  | Fault _ => False
  end.
Proof.
  intros Hr Hs Hsi Hei Hki Hk. unfold slice. rewrite (length_elems_len r Hr Hs).
  cbn [mbind result_bind].
  rewrite (convert_slice_indices_ok (elems_len r) s e k si ei ki)
    by (done || by apply elems_len_bound).
  cbn [mbind result_bind].
  pose proof (py_slice_elems r si ei (stride_of ki) Hr Hk) as Hpy. cbn zeta in Hpy.
  revert Hpy. generalize (py_clamp (elems_len r) (stride_of ki) si
    (if stride_of ki <? 0 then elems_len r - 1 else 0)) as a.
  generalize (py_clamp (elems_len r) (stride_of ki) ei
    (if stride_of ki <? 0 then -1 else elems_len r)) as b. intros b a Hpy.
  destruct (checked_i32 (a * step r)) as [p|] eqn:Hp; [|done]. simpl.
  apply checked_i32_inv in Hp as [-> _].
  destruct (checked_i32 (start r + a * step r)) as [s'|] eqn:Hs'; [|done]. simpl.
  apply checked_i32_inv in Hs' as [-> Hs'].
  destruct (checked_i32 (b * step r)) as [q|] eqn:Hq; [|done]. simpl.
  apply checked_i32_inv in Hq as [-> _].
  destruct (checked_i32 (start r + b * step r)) as [e'|] eqn:He'; [|done]. simpl.
  apply checked_i32_inv in He' as [-> He'].
  destruct (checked_i32 (stride_of ki * step r)) as [m|] eqn:Hm; [|done]. simpl.
  apply checked_i32_inv in Hm as [-> Hm]. pose proof (range_step_nonzero _ Hr) as Hz.
  unfold NonZero_new. rewrite (proj2 (Z.eqb_neq _ 0)) by nia. simpl.
  split; [by split; simpl; [..|nia]|]. by rewrite Hpy.
Qed.

(** Without [short], the subtraction wraps before it is widened: a range of four
    elements has length 0, and [in] misses an element. *)
Theorem range_length_wraps :
  (let r := mkRange (-2147483648) 2147483647 1073741824 in
   elems r = [-2147483648; -1073741824; 0; 1073741824] ∧ length r = Ok 0) ∧
  (let r := mkRange (-2147483648) 2147483647 1000000000 in
   bool_decide (852516352 ∈ elems r) = true ∧ is_in r (Some 852516352) = Ok false).
Proof. cbn zeta. split_and!; vm_compute; reflexivity. Qed.

(** ** Concrete inputs *)

#[local] Existing Instance target_64.
Definition witness_range : Range := mkRange 10 3 (-2).
Definition witness_range' : Range := mkRange 10 2 (-2).

Lemma witness_range_ok : range_ok witness_range ∧ short witness_range.
Proof. by split; [split|]. Defined.
Lemma witness_range'_ok : range_ok witness_range' ∧ short witness_range'.
Proof. by split; [split|]. Defined.

Lemma range_iteration_witness :
  iter_next witness_range (Z.of_nat 3) = Some 4 ∧ iter_next witness_range (Z.of_nat 4) = None.
Proof.
  rewrite (range_iteration witness_range 3 (proj1 witness_range_ok) ltac:(by vm_compute)).
  rewrite (range_iteration witness_range 4 (proj1 witness_range_ok) ltac:(by vm_compute)).
  by vm_compute.
Defined.

Lemma range_length_at_witness : length witness_range = Ok 4.
Proof.
  exact (proj1 (range_length_at (B:=Z) witness_range VNone (proj1 witness_range_ok)
    (proj2 witness_range_ok) ltac:(done))).
Defined.

Lemma range_equality_witness : equals_range witness_range witness_range' = Ok true.
Proof.
  rewrite (range_equality witness_range witness_range'
    (proj1 witness_range_ok) (proj2 witness_range_ok)
    (proj1 witness_range'_ok) (proj2 witness_range'_ok)). by vm_compute.
Defined.

Lemma range_membership_witness : is_in witness_range (Some 6) = Ok true.
Proof.
  rewrite (range_membership witness_range 6
    (proj1 witness_range_ok) (proj2 witness_range_ok) ltac:(by vm_compute)). by vm_compute.
Defined.

Lemma range_slice_witness :
  match slice (B:=Z) witness_range None None (Some (VInt (Small (-1)))) with
  | Ok r => range_ok r ∧ elems r = [4; 6; 8; 10]
  | Err err => err = IntegerOverflow
  | Fault _ => False
  end.
Proof.
  apply (range_slice (B:=Z) witness_range None None (Some (VInt (Small (-1)))) None None (Some (-1))
    (proj1 witness_range_ok) (proj2 witness_range_ok)); [by left|by left| |done].
  eexists. split; [done|]. by eexists.
Defined.
