(* ===== verification/FastString.v ===== *)
(** [starlark_syntax/src/fast_string.rs]: character positions in UTF-8 strings.  A [str]
    is its bytes; a [char] is the bytes that encode it, so that a valid string is the
    concatenation of its characters ([is_str]).  The word-at-a-time scan for bytes below
    0x80 reads memory through a pointer whose alignment is arbitrary; [memchr], from the
    crate of that name, is a parameter. *)

From S2P Require Import Prelude Ints Index.

(** * Strings *)

Abbreviation byte := Z (only parsing).

Section utf8.
Local Open Scope Z_scope.

(** Length of the encoding that starts with a byte. *)
Definition utf8_width (b : byte) : nat :=
  if b <? 0x80 then 1 else if b <? 0xE0 then 2 else if b <? 0xF0 then 3 else 4.

(** One character's encoding: a lead byte and continuation bytes. *)
Definition is_char (c : list byte) : Prop :=
  match c with
  | [] => False
  | b :: cont =>
    (0 ≤ b < 0x80 ∨ 0xC0 ≤ b < 0xF8) ∧ length c = utf8_width b ∧
    Forall (λ x, 0x80 ≤ x < 0xC0) cont
  end.
End utf8.

(** [is_str s cs]: the bytes [s] are the string of the characters [cs]. *)
Definition is_str (s : list byte) (cs : list (list byte)) : Prop :=
  Forall is_char cs ∧ s = concat cs.

(** [Chars::next]: the next character and what is left; reading past the end is
    undefined behaviour. *)
Definition chars_next (s : list byte) : comp (option (list byte * list byte)) :=
  match s with
  | [] => Ok None
  | b :: _ =>
    let w := utf8_width b in
    if w <=? length s then Ok (Some (take w s, drop w s)) else UB
  end.

(** [chars().count()] and [chars().nth(n)]. *)
Fixpoint chars_count (s : list byte) (fuel : nat) : comp nat :=
  match fuel with
  | 0 => UB
  | S fuel =>
    o ← chars_next s;
    match o with
    | None => Ok 0
    | Some (_, rest) => n ← chars_count rest fuel; Ok (S n)
    end
  end.
Fixpoint chars_nth (s : list byte) (n : nat) : comp (option (list byte)) :=
  o ← chars_next s;
  match o with
  | None => Ok None
  | Some (c, rest) => match n with 0 => Ok (Some c) | S n => chars_nth rest n end
  end.
(** [for _ in 0..n { c.next()?; }], then [c.as_str()]. *)
Fixpoint chars_skip (s : list byte) (n : nat) : comp (option (list byte)) :=
  match n with
  | 0 => Ok (Some s)
  | S n =>
    o ← chars_next s;
    match o with None => Ok None | Some (_, rest) => chars_skip rest n end
  end.

(** A position between characters: [str] slicing panics elsewhere, and
    [get_unchecked] may not be used there. *)
Definition is_char_boundary (s : list byte) (i : nat) : bool :=
  match s !! i with
  | None => i =? length s
  | Some b => negb ((0x80 <=? b) && (b <? 0xC0))%Z
  end.
Definition get_unchecked_from (s : list byte) (i : nat) : comp (list byte) :=
  if is_char_boundary s i then Ok (drop i s) else UB.
Definition get_unchecked_range (s : list byte) (i j : nat) : comp (list byte) :=
  if (i <=? j) && is_char_boundary s i && is_char_boundary s j
  then Ok (take (j - i) (drop i s)) else UB.
Definition str_split_at (s : list byte) (i : nat) : comp (list byte * list byte) :=
  if is_char_boundary s i then Ok (take i s, drop i s) else Panic.

(** * The code *)

Definition is_1byte (x : byte) : bool := (Z.land x 0x80 =? 0)%Z.
Definition is_1bytes (x : Z) : bool := (Z.land x 0x8080808080808080 =? 0)%Z.

(** Reading a byte, and eight bytes as a [u64], through a pointer at offset [p]; the
    byte order does not matter to [is_1bytes]. *)
Definition load_u8 (s : list byte) (p : nat) : comp byte :=
  match s !! p with Some b => Ok b | None => UB end.
Fixpoint le_combine (bs : list byte) : Z :=
  match bs with [] => 0 | b :: bs => b + 256 * le_combine bs end%Z.
Definition load_u64 (s : list byte) (p : nat) : comp Z :=
  if p + 8 <=? length s then Ok (le_combine (take 8 (drop p s))) else UB.

(** The loops of [f]: [inl] when all turns passed, [inr] for an early return. *)
Fixpoint loop_u8 (s : list byte) (p n : nat) : comp (nat + nat) :=
  match n with
  | 0 => Ok (inl p)
  | S n => b ← load_u8 s p; if is_1byte b then loop_u8 s (p + 1) n else Ok (inr p)
  end.
Fixpoint loop_u64 (s : list byte) (p n : nat) : comp (nat + nat) :=
  match n with
  | 0 => Ok (inl p)
  | S n => w ← load_u64 s p; if is_1bytes w then loop_u64 s (p + 8) n else Ok (inr p)
  end.

(** [align_offset] is [x.as_ptr().align_offset(8)], which depends on where the string
    was allocated. *)
Definition skip_f (align_offset : nat) (x : list byte) (n : nat) : comp nat :=
  let leading := Nat.min align_offset n in
  let trailing := (n - leading) mod 8 in
  let loops := (n - leading) / 8 in
  r ← loop_u8 x 0 leading;
  match r with
  | inr p => Ok p
  | inl p =>
    r ← loop_u64 x p loops;
    match r with
    | inr p => Ok p
    | inl p =>
      r ← loop_u8 x p trailing;
      match r with inl p | inr p => Ok p end
    end
  end.

Section fast_string.
Context (align_offset : list byte → nat).

Definition skip_at_most_1byte (x : list byte) (n : nat) : comp nat :=
  if n =? 0 then Ok 0 else
  _ ← assert (n <=? length x);
  skip_f (align_offset x) x n.

Definition at_ (x : list byte) (i : nat) : comp (option (list byte)) :=
  if length x <=? i then Ok None else
  n ← skip_at_most_1byte x i;
  s ← get_unchecked_from x n;
  chars_nth s (i - n).

Definition len (x : list byte) : comp nat :=
  n ← skip_at_most_1byte x (length x);
  if n =? length x then Ok n
  else
    s ← get_unchecked_from x n;
    c ← chars_count s (S (length s));
    Ok (c + n).

Definition count_matches_byte (x : list byte) (needle : byte) : nat :=
  length (filter (λ b, b = needle) x).

Definition split_at (x : list byte) (i : nat) : comp (option (list byte * list byte)) :=
  if i =? 0 then Ok (Some ([], x))
  else if length x <? i then Ok None
  else
    n ← skip_at_most_1byte x i;
    s ← get_unchecked_from x n;
    o ← chars_skip s (i - n);
    match o with
    | None => Ok None
    | Some rest => r ← str_split_at x (length x - length rest); Ok (Some r)
    end.

Definition split_at_end (x : list byte) (i : nat) : comp (list byte) :=
  o ← split_at x i;
  Ok (match o with Some (before, _) => before | None => x end).

Record StrIndices := mkStrIndices { si_start : nat; haystack : list byte }.

Definition is_negative_opt (o : option Z) : bool := match o with Some x => (x <? 0)%Z | None => false end.

Definition convert_str_indices_slow (s : list byte) (start end_ : option Z) :
    comp (option StrIndices) :=
  _ ← assert (is_negative_opt start || is_negative_opt end_);
  _ ← assert (match start, end_ with
              | Some start, Some end_ => (0 <=? start)%Z || (0 <=? end_)%Z || (start <=? end_)%Z
              | _, _ => true
              end);
  n ← len s;
  '(start, end_) ← convert_indices (as_i32 (Z.of_nat n)) start end_;
  if (end_ <? start)%Z then Ok None else
  let start := Z.to_nat start in let end_ := Z.to_nat end_ in
  _ ← assert (end_ <=? n);
  s ← (if n =? length s then get_unchecked_range s start end_
       else
         o ← split_at s start; '(_, s) ← unwrap o;
         _ ← assert (start <=? end_);
         o ← split_at s (end_ - start); '(s, _) ← unwrap o;
         Ok s);
  Ok (Some (mkStrIndices start s)).

Definition convert_str_indices (s : list byte) (start end_ : option Z) :
    comp (option StrIndices) :=
  match start, end_ with
  | None, None => Ok (Some (mkStrIndices 0 s))
  | Some start', None =>
    if (0 <=? start')%Z then
      o ← split_at s (Z.to_nat start');
      Ok (match o with
          | Some (_, s) => Some (mkStrIndices (Z.to_nat start') s)
          | None => None
          end)
    else convert_str_indices_slow s start end_
  | None, Some end' =>
    if (0 <=? end')%Z then
      s ← split_at_end s (Z.to_nat end'); Ok (Some (mkStrIndices 0 s))
    else convert_str_indices_slow s start end_
  | Some start', Some end' =>
    if (0 <=? start')%Z && (start' <=? end')%Z then
      o ← split_at s (Z.to_nat start');
      match o with
      | None => Ok None
      | Some (_, s) =>
        s ← split_at_end s (Z.to_nat (end' - start'));
        Ok (Some (mkStrIndices (Z.to_nat start') s))
      end
    else if eqb (0 <=? start')%Z (0 <=? end')%Z && (end' <? start')%Z then Ok None
    else convert_str_indices_slow s start end_
  end.
End fast_string.

(** [contains]. *)
Section contains.
Context (memchr : byte → list byte → option nat).

Definition starts_with (s p : list byte) : bool := bool_decide (take (length p) s = p).

Fixpoint contains_loop (haystack needle : list byte) (needle_0 : byte) (starts : list nat) :
    comp bool :=
  match starts with
  | [] => Ok false
  | start :: starts =>
    b ← unwrap (haystack !! start);
    if negb (b =? needle_0)%Z then contains_loop haystack needle needle_0 starts
    else if starts_with (drop start haystack) needle then Ok true
    else contains_loop haystack needle needle_0 starts
  end.

Definition contains (haystack needle : list byte) : comp bool :=
  if length needle =? 0 then Ok true
  else if length needle =? 1 then
    b ← unwrap (needle !! 0); Ok (match memchr b haystack with Some _ => true | None => false end)
  else if length haystack <? length needle then Ok false
  else
    _ ← assert (length needle <=? length haystack);
    needle_0 ← unwrap (needle !! 0);
    contains_loop haystack needle needle_0 (seq 0 (length haystack - length needle + 1)).
End contains.

(** * Correctness *)

Section words.
Local Open Scope Z_scope.

Lemma land_split b m w v :
  0 ≤ b < 256 → 0 ≤ m < 256 → Z.land (b + 256 * w) (m + 256 * v) = Z.land b m + 256 * Z.land w v.
Proof.
  intros Hb Hm. set (x := b + 256 * w). set (y := m + 256 * v).
  assert (Z.land x y mod 256 = Z.land b m) as Hlow.
  { replace (Z.land b m) with (Z.land (x mod 2 ^ 8) (y mod 2 ^ 8)).
    - change 256 with (2 ^ 8). rewrite <-!Z.land_ones by lia.
      rewrite Z.land_assoc, <-(Z.land_assoc x (Z.ones 8) y), (Z.land_comm (Z.ones 8) y).
      by rewrite Z.land_assoc, <-(Z.land_assoc _ (Z.ones 8) (Z.ones 8)), Z.land_diag.
    - subst x y. f_equal; symmetry; [apply (Z.mod_unique _ _ w)|apply (Z.mod_unique _ _ v)]; lia. }
  assert (Z.land x y / 256 = Z.land w v) as Hhigh.
  { change 256 with (2 ^ 8). rewrite <-Z.shiftr_div_pow2, Z.shiftr_land, !Z.shiftr_div_pow2 by lia.
    subst x y. f_equal; symmetry; [apply (Z.div_unique _ _ _ b)|apply (Z.div_unique _ _ _ m)]; lia. }
  rewrite (Z.div_mod (Z.land x y) 256), Hlow, Hhigh by lia. lia.
Qed.

Lemma le_combine_mask bs :
  Forall (λ b, 0 ≤ b < 256) bs →
  Z.land (le_combine bs) (le_combine (replicate (length bs) 0x80)) =
    le_combine ((λ b, Z.land b 0x80) <$> bs).
Proof.
  induction 1 as [|b bs Hb _ IH]; [done|]. csimpl. by rewrite land_split, IH by lia.
Qed.

Lemma le_combine_zero bs :
  Forall (λ b, 0 ≤ b) bs → le_combine bs = 0 → Forall (λ b, b = 0) bs.
Proof.
  intros Hbs. assert (∀ bs, Forall (λ b, 0 ≤ b) bs → 0 ≤ le_combine bs) as Hnn.
  { induction 1; simpl; lia. }
  induction Hbs as [|b bs Hb Hbs IH]; simpl; [constructor|]. intros Hz.
  specialize (Hnn bs Hbs). constructor; [lia|]. apply IH. lia.
Qed.

(** The word test accepts only words of eight ASCII bytes. *)
Lemma is_1bytes_all bs :
  length bs = 8%nat → Forall (λ b, 0 ≤ b < 256) bs →
  is_1bytes (le_combine bs) = true → Forall (λ b, is_1byte b = true) bs.
Proof.
  intros Hl Hb Ht%Z.eqb_eq.
  change 0x8080808080808080 with (le_combine (replicate 8 0x80)) in Ht.
  rewrite <-Hl, le_combine_mask in Ht by done. apply le_combine_zero in Ht.
  - rewrite Forall_fmap in Ht. eapply Forall_impl; [exact Ht|]. intros b Hz. by apply Z.eqb_eq.
  - rewrite Forall_fmap. eapply Forall_impl; [exact Hb|]. intros b _.
    apply Z.land_nonneg. right. lia.
Qed.

Lemma is_1byte_spec b : 0 ≤ b < 256 → is_1byte b = (b <? 0x80).
Proof.
  intros Hb. assert (forallb (λ b, eqb (is_1byte b) (b <? 0x80)) (seqZ 0 256) = true) as Hall
    by by vm_compute.
  rewrite forallb_forall in Hall. apply eqb_prop, Hall, list_elem_of_In, elem_of_seqZ. lia.
Qed.
End words.

(** ** Characters *)

Lemma is_char_range c : is_char c → Forall (λ b, 0 ≤ b < 256)%Z c.
Proof.
  destruct c as [|b cont]; [done|]. intros (Hb & _ & Hc). constructor; [lia|].
  eapply Forall_impl; [exact Hc|]. simpl. lia.
Qed.

Lemma is_str_range s cs : is_str s cs → Forall (λ b, 0 ≤ b < 256)%Z s.
Proof.
  intros [Hcs ->]. induction Hcs as [|c cs Hc _ IH]; simpl; [constructor|].
  apply Forall_app. split; [by apply is_char_range|done].
Qed.

Lemma is_char_width c rest b s :
  is_char c → c ++ rest = b :: s → length c = utf8_width b.
Proof. destruct c as [|b' cont]; [done|]. intros (_ & Hl & _) [= <- _]. done. Qed.

Lemma is_char_pos c : is_char c → 0 < length c.
Proof. destruct c; [done|simpl; lia]. Qed.

Lemma chars_next_cons c cs :
  is_char c → chars_next (concat (c :: cs)) = Ok (Some (c, concat cs)).
Proof.
  intros Hc. simpl. unfold chars_next. destruct (c ++ concat cs) as [|b s] eqn:Hs.
  { by destruct c. }
  rewrite <-(is_char_width _ _ _ _ Hc Hs), <-Hs, length_app, (proj2 (Nat.leb_le _ _)) by lia.
  by rewrite take_app_length, drop_app_length.
Qed.

Lemma length_concat_chars (cs : list (list byte)) : Forall is_char cs → length cs ≤ length (concat cs).
Proof.
  induction 1 as [|c cs Hc _ IH]; simpl; [done|]. apply is_char_pos in Hc.
  rewrite length_app. lia.
Qed.

Lemma chars_count_ok cs fuel :
  Forall is_char cs → length cs < fuel → chars_count (concat cs) fuel = Ok (length cs).
Proof.
  intros Hcs. revert fuel. induction Hcs as [|c cs Hc _ IH]; intros [|fuel] Hf; simpl in Hf; try lia.
  { done. }
  cbn [chars_count]. rewrite chars_next_cons by done. cbn [mbind result_bind].
  by rewrite IH by lia.
Qed.

Lemma chars_nth_ok cs n : Forall is_char cs → chars_nth (concat cs) n = Ok (cs !! n).
Proof.
  intros Hcs. revert n. induction Hcs as [|c cs Hc _ IH]; intros n; [by destruct n|].
  unfold chars_nth. fold chars_nth.
  destruct n as [|n]; cbn [chars_nth]; rewrite chars_next_cons by done; cbn [mbind result_bind];
    [done|apply IH].
Qed.

Lemma chars_skip_ok cs n :
  Forall is_char cs →
  chars_skip (concat cs) n = Ok (if n <=? length cs then Some (concat (drop n cs)) else None).
Proof.
  intros Hcs. revert n. induction Hcs as [|c cs Hc _ IH]; intros [|n]; try done.
  cbn [chars_skip]. rewrite chars_next_cons by done. cbn [mbind result_bind]. apply IH.
Qed.

Lemma char_boundary cs k :
  Forall is_char cs → k ≤ length cs →
  is_char_boundary (concat cs) (length (concat (take k cs))) = true.
Proof.
  intros Hcs Hk. unfold is_char_boundary.
  assert (concat cs = concat (take k cs) ++ concat (drop k cs)) as Hs
    by by rewrite <-concat_app, take_drop.
  rewrite Hs, lookup_app_r, Nat.sub_diag by done.
  apply (Forall_drop _ k) in Hcs. destruct (drop k cs) as [|c cs']; simpl.
  { by rewrite length_app, Nat.add_0_r, Nat.eqb_refl. }
  inversion Hcs as [|? ? Hc]; subst. destruct c as [|b cont]; [done|]. simpl.
  destruct Hc as ([Hb|Hb] & _); z_tests; done.
Qed.

Lemma drop_concat (cs : list (list byte)) k :
  drop (length (concat (take k cs))) (concat cs) = concat (drop k cs).
Proof. rewrite <-(take_drop k cs) at 2. by rewrite concat_app, drop_app_length. Qed.
Lemma take_concat (cs : list (list byte)) k :
  take (length (concat (take k cs))) (concat cs) = concat (take k cs).
Proof. rewrite <-(take_drop k cs) at 2. by rewrite concat_app, take_app_length. Qed.

(** An ASCII prefix is that many characters of one byte. *)
Lemma ascii_prefix cs k :
  Forall is_char cs → k ≤ length (concat cs) →
  Forall (λ b, is_1byte b = true) (take k (concat cs)) →
  k ≤ length cs ∧ length (concat (take k cs)) = k.
Proof.
  intros Hcs. revert k. induction Hcs as [|c cs Hc _ IH]; intros k Hk Ha; simpl in *.
  { assert (k = 0) as -> by lia. done. }
  destruct k as [|k]; [simpl; lia|].
  destruct c as [|b cont]; [done|]. simpl in Ha. inversion Ha as [|? ? Hb Ha']; subst.
  destruct Hc as (Hrange & Hw & _). rewrite is_1byte_spec in Hb by lia.
  assert (cont = []) as ->.
  { unfold utf8_width in Hw. rewrite Hb in Hw. by destruct cont. }
  simpl in *. destruct (IH k) as [Hl He]; [lia|done|]. lia.
Qed.

(** ** The scan *)

(** The first [k] bytes are ASCII. *)
Definition ascii_upto (x : list byte) (k : nat) : Prop :=
  Forall (λ b, is_1byte b = true) (take k x).

Lemma ascii_upto_app x k n :
  k + n ≤ length x → ascii_upto x k → Forall (λ b, is_1byte b = true) (take n (drop k x)) →
  ascii_upto x (k + n).
Proof. intros Hk Ha Hn. unfold ascii_upto. rewrite <-take_take_drop. by apply Forall_app. Qed.

Definition scanned (x : list byte) (p n : nat) (r : nat + nat) : Prop :=
  match r with
  | inl q => q = p + n ∧ ascii_upto x q
  | inr q => q ≤ p + n ∧ ascii_upto x q
  end.

Lemma loop_u8_ok x p n :
  p + n ≤ length x → ascii_upto x p → returns (loop_u8 x p n) (scanned x p n).
Proof.
  revert p. induction n as [|n IH]; intros p Hn Hp; cbn [loop_u8].
  { apply returns_ret. simpl. by rewrite Nat.add_0_r. }
  destruct (lookup_lt_is_Some_2 x p ltac:(lia)) as [b Hb]. unfold load_u8. rewrite Hb.
  cbn [mbind result_bind]. destruct (is_1byte b) eqn:Ha; [|apply returns_ret; simpl; lia || auto with lia].
  eapply returns_mono; [apply IH; [lia|]|].
  - apply ascii_upto_app; [lia|done|]. rewrite (drop_S _ _ _ Hb). simpl. rewrite take_0. by repeat constructor.
  - intros [q|q] [Hq Hqa]; split; simpl in *; (lia || done).
Qed.

Lemma loop_u64_ok x p n :
  Forall (λ b, 0 ≤ b < 256)%Z x →
  p + 8 * n ≤ length x → ascii_upto x p → returns (loop_u64 x p n) (scanned x p (8 * n)).
Proof.
  intros Hx. revert p. induction n as [|n IH]; intros p Hn Hp; cbn [loop_u64].
  { apply returns_ret. simpl. by rewrite Nat.add_0_r. }
  unfold load_u64. rewrite (proj2 (Nat.leb_le _ _)) by lia. cbn [mbind result_bind].
  destruct (is_1bytes _) eqn:Ha; [|apply returns_ret; simpl; split; [lia|done]].
  eapply returns_mono; [apply IH; [lia|]|].
  - apply ascii_upto_app; [lia|done|]. apply is_1bytes_all; [..|done].
    + rewrite length_take, length_drop. lia.
    + by apply Forall_take, Forall_drop.
  - intros [q|q] [Hq Hqa]; split; simpl in *; (lia || done).
Qed.

Lemma skip_f_ok a x n :
  Forall (λ b, 0 ≤ b < 256)%Z x → n ≤ length x →
  returns (skip_f a x n) (λ k, k ≤ n ∧ ascii_upto x k).
Proof.
  intros Hx Hn. unfold skip_f. set (leading := Nat.min a n).
  pose proof (Nat.div_mod_eq (n - leading) 8) as Hdm.
  assert (leading ≤ n) as Hle by (subst leading; lia). clearbody leading.
  step_with loop_u8_ok; [lia|by constructor|]. intros [p|p] [Hp Hpa]; [|by apply returns_ret; split; [lia|]].
  step_with loop_u64_ok; [done|lia|done|]. intros [q|q] [Hq Hqa]; [|by apply returns_ret; split; [lia|]].
  step_with loop_u8_ok; [lia|done|]. intros [r|r] [Hr Hra]; apply returns_ret; split; (lia || done).
Qed.

Section correct.
Context (align_offset : list byte → nat).

Lemma skip_ok s cs n :
  is_str s cs → n ≤ length s →
  returns (skip_at_most_1byte align_offset s n) (λ k,
    k ≤ n ∧ k ≤ length cs ∧ drop k s = concat (drop k cs) ∧ is_char_boundary s k = true ∧
    length (concat (take k cs)) = k).
Proof.
  intros Hs Hn. unfold skip_at_most_1byte.
  apply (returns_mono _ (λ k, k ≤ n ∧ ascii_upto s k)).
  - destruct (n =? 0); [apply returns_ret; split; [lia|by constructor]|].
    rewrite (proj2 (Nat.leb_le _ _)) by done. simpl.
    by apply skip_f_ok; [apply (is_str_range _ _ Hs)|].
  - intros k [Hk Ha]. destruct Hs as [Hcs ->].
    destruct (ascii_prefix cs k Hcs ltac:(lia) Ha) as [Hkc Hkl]. split_and!; [done|done| | |done].
    + by rewrite <-drop_concat, Hkl.
    + rewrite <-Hkl. by apply char_boundary.
Qed.

Lemma at_ok s cs i : is_str s cs → at_ align_offset s i = Ok (cs !! i).
Proof.
  intros Hs. unfold at_. pose proof (length_concat_chars cs (proj1 Hs)) as Hl.
  rewrite <-(proj2 Hs) in Hl. destruct (Nat.leb_spec (length s) i) as [Hi|Hi].
  { by rewrite lookup_ge_None_2 by lia. }
  destruct (skip_ok s cs i Hs ltac:(lia)) as (k & -> & Hk & _ & Hd & Hb & _).
  cbn [mbind result_bind]. unfold get_unchecked_from. rewrite Hb. cbn [mbind result_bind].
  rewrite Hd, chars_nth_ok by (by apply Forall_drop, Hs).
  rewrite lookup_drop. by replace (k + (i - k)) with i by lia.
Qed.

Lemma len_ok s cs : is_str s cs → len align_offset s = Ok (length cs).
Proof.
  intros Hs. unfold len. pose proof (length_concat_chars cs (proj1 Hs)) as Hl.
  rewrite <-(proj2 Hs) in Hl.
  destruct (skip_ok s cs (length s) Hs ltac:(lia)) as (k & -> & Hk & Hkc & Hd & Hb & _).
  cbn [mbind result_bind]. destruct (Nat.eqb_spec k (length s)) as [->|Hne]; [f_equal; lia|].
  unfold get_unchecked_from. rewrite Hb. cbn [mbind result_bind].
  rewrite Hd, chars_count_ok.
  - cbn [mbind result_bind]. rewrite length_drop. f_equal. lia.
  - by apply Forall_drop, Hs.
  - apply Nat.lt_succ_r, length_concat_chars. by apply Forall_drop, Hs.
Qed.

Lemma split_at_ok s cs i :
  is_str s cs →
  split_at align_offset s i =
    Ok (if i <=? length cs then Some (concat (take i cs), concat (drop i cs)) else None).
Proof.
  intros Hs. unfold split_at. destruct i as [|i]; [by destruct Hs as [_ ->]|]. cbn [Nat.eqb].
  pose proof (length_concat_chars cs (proj1 Hs)) as Hl. rewrite <-(proj2 Hs) in Hl.
  set (n := S i). destruct (Nat.ltb_spec (length s) n) as [Hi|Hi].
  { by rewrite (proj2 (Nat.leb_gt _ _)) by lia. }
  destruct (skip_ok s cs n Hs ltac:(lia)) as (k & -> & Hk & Hkc & Hd & Hb & _).
  cbn [mbind result_bind]. unfold get_unchecked_from. rewrite Hb. cbn [mbind result_bind].
  rewrite Hd, chars_skip_ok by (by apply Forall_drop, Hs).
  rewrite length_drop, drop_drop. replace (k + (n - k)) with n by lia.
  destruct (Nat.leb_spec n (length cs)) as [Hn|Hn]; [|by rewrite (proj2 (Nat.leb_gt _ _)) by lia].
  rewrite (proj2 (Nat.leb_le _ _)) by lia. cbn [mbind result_bind].
  destruct Hs as [Hcs ->].
  assert (length (concat cs) - length (concat (drop n cs)) = length (concat (take n cs))) as ->.
  { rewrite <-(take_drop n cs) at 1. rewrite concat_app, length_app. lia. }
  unfold str_split_at. rewrite char_boundary by done. cbn [mbind result_bind].
  by rewrite take_concat, drop_concat.
Qed.

Lemma split_at_end_ok s cs i : is_str s cs → split_at_end align_offset s i = Ok (concat (take i cs)).
Proof.
  intros Hs. unfold split_at_end. rewrite (split_at_ok _ _ _ Hs). cbn [mbind result_bind].
  destruct (Nat.leb_spec i (length cs)); [done|]. rewrite take_ge by lia. by destruct Hs as [_ ->].
Qed.

Lemma is_str_drop cs k : Forall is_char cs → is_str (concat (drop k cs)) (drop k cs).
Proof. intros Hcs. split; [by apply Forall_drop|done]. Qed.

Lemma all_ascii cs : Forall is_char cs → length (concat cs) = length cs →
  ∀ k, k ≤ length cs → length (concat (take k cs)) = k.
Proof.
  intros Hcs. induction Hcs as [|c cs Hc Hcs' IH]; intros He k Hk; simpl in *; [by assert (k = 0) as -> by lia|].
  apply is_char_pos in Hc. pose proof (length_concat_chars cs Hcs') as Hl.
  rewrite length_app in He. destruct k as [|k]; [done|]. simpl. rewrite length_app, IH by lia. lia.
Qed.

Lemma ascii_substring cs a n :
  Forall is_char cs → length (concat cs) = length cs → a + n ≤ length cs →
  take n (drop a (concat cs)) = concat (take n (drop a cs)).
Proof.
  intros Hcs He Hn. pose proof (all_ascii cs Hcs He) as Hall.
  pose proof (all_ascii (drop a cs) ltac:(by apply Forall_drop)) as Hall'.
  rewrite <-(Hall a) at 1 by lia. rewrite drop_concat.
  rewrite <-(Hall' ltac:(rewrite <-drop_concat, !length_drop, Hall by lia; lia) n) at 1
    by (rewrite length_drop; lia).
  apply take_concat.
Qed.
End correct.

(** * Properties *)

(** What [start] and [end] mean for a string of [n] characters: negative positions count
    from the end; [end] is clamped to the string, and [start] from below.  ([start] is
    clamped from above too when [end] is negative, which the empty string shows.) *)
Definition char_start (n : Z) (start end_ : option Z) : Z :=
  match start with
  | None => 0
  | Some x => if x <? 0 then Z.max 0 (x + n) else if is_negative_opt end_ then Z.min n x else x
  end%Z.
Definition char_end (n : Z) (o : option Z) : Z := py_clamp n 1 o n.
(** No substring: the start is after the end. Two negative operands are compared as they
    are written, before clamping. *)
Definition no_substring (n : Z) (start end_ : option Z) : bool :=
  (char_end n end_ <? char_start n start end_)%Z ||
  match start, end_ with
  | Some x, Some y => (x <? 0) && (y <? 0) && (y <? x)
  | _, _ => false
  end%Z.
Definition substring (cs : list (list byte)) (a b : Z) : list byte :=
  concat (take (Z.to_nat (b - a)) (drop (Z.to_nat a) cs)).

Lemma clamped_start n start end_ :
  (0 ≤ n)%Z → is_negative_opt start || is_negative_opt end_ = true →
  py_clamp n 1 start 0 = char_start n start end_.
Proof.
  intros Hn Hneg. unfold py_clamp, char_start. destruct start as [x|]; [|done]. simpl in *.
  destruct (Z.ltb_spec x 0); simpl in *; [lia|]. rewrite Hneg. lia.
Qed.

Lemma take_min_length {A} (l : list A) i j :
  i = j ∨ length l ≤ i ∧ length l ≤ j → take i l = take j l.
Proof. intros [->|[Hi Hj]]; [done|]. by rewrite !take_ge. Qed.

Section theorems.
Context (align_offset : list byte → nat).

(** Character positions in UTF-8 strings: whatever the alignment of the string in
    memory, [at] returns the [i]-th character, [len] the number of characters, and
    [split_at] splits before the [i]-th character or reports that there are fewer; no
    byte outside the string is read and no character is cut. *)
Theorem fast_string_positions s cs i :
  is_str s cs →
  at_ align_offset s i = Ok (cs !! i) ∧
  len align_offset s = Ok (length cs) ∧
  split_at align_offset s i =
    Ok (if i <=? length cs then Some (concat (take i cs), concat (drop i cs)) else None).
Proof. intros Hs. auto using at_ok, len_ok, split_at_ok. Qed.

Lemma slow_ok s cs start end_ :
  is_str s cs → (Z.of_nat (length cs) ≤ i32_max)%Z →
  (∀ x, start = Some x ∨ end_ = Some x → i32_min ≤ x ≤ i32_max)%Z →
  is_negative_opt start || is_negative_opt end_ = true →
  (∀ x y, start = Some x → end_ = Some y → x < 0 → y < 0 → x ≤ y)%Z →
  let n := Z.of_nat (length cs) in
  convert_str_indices_slow align_offset s start end_ =
    let a := py_clamp n 1 start 0 in let b := py_clamp n 1 end_ n in
    Ok (if (b <? a)%Z then None else Some (mkStrIndices (Z.to_nat a) (substring cs a b))).
Proof.
  intros Hs Hlen Hx Hneg Hord n. unfold convert_str_indices_slow. rewrite Hneg.
  cbn [assert mbind result_bind].
  assert ((match start, end_ with
           | Some x, Some y => (0 <=? x) || (0 <=? y) || (x <=? y)
           | _, _ => true end)%Z = true) as ->.
  { destruct start as [x|], end_ as [y|]; try done.
    destruct (Z.leb_spec 0 x), (Z.leb_spec 0 y); try done. by apply Z.leb_le, Hord. }
  cbn [assert mbind result_bind]. rewrite (len_ok _ _ _ Hs). cbn [mbind result_bind].
  rewrite as_i32_id by (unfold i32_min, i32_max in *; lia). fold n.
  destruct (convert_indices_ok n start end_ ltac:(lia) Hx) as (-> & Ha & Hb & _).
  cbn [mbind result_bind]. revert Ha Hb. generalize (py_clamp n 1 start 0) as a.
  generalize (py_clamp n 1 end_ n) as b. intros b a Ha Hb.
  destruct (Z.ltb_spec b a) as [|Hab]; [done|].
  rewrite (proj2 (Nat.leb_le (Z.to_nat b) (length cs))) by lia.
  cbn [assert mbind result_bind]. unfold substring.
  destruct (Nat.eqb_spec (length cs) (length s)) as [Hascii|Hmulti].
  - destruct Hs as [Hcs ->]. pose proof (all_ascii cs Hcs (eq_sym Hascii)) as Hall.
    unfold get_unchecked_range. rewrite (proj2 (Nat.leb_le _ _)) by lia.
    pose proof (char_boundary cs (Z.to_nat a) Hcs ltac:(lia)) as Ha'.
    pose proof (char_boundary cs (Z.to_nat b) Hcs ltac:(lia)) as Hb'.
    rewrite Hall in Ha', Hb' by lia. rewrite Ha', Hb'. cbn [andb mbind result_bind].
    rewrite ascii_substring by (done || lia). by rewrite Z2Nat.inj_sub by lia.
  - rewrite (split_at_ok _ _ _ _ Hs), (proj2 (Nat.leb_le _ _)) by lia. cbn [unwrap mbind result_bind].
    rewrite (proj2 (Nat.leb_le _ _)) by lia. cbn [assert unwrap mbind result_bind].
    rewrite (split_at_ok _ _ _ _ (is_str_drop cs (Z.to_nat a) (proj1 Hs))).
    rewrite length_drop, (proj2 (Nat.leb_le _ _)) by lia. cbn [unwrap mbind result_bind].
    by rewrite Z2Nat.inj_sub by lia.
Qed.

(** [convert_str_indices], behind [s[a:b]], [find], [count] and the rest, takes the
    substring between two character positions as Python does, for every combination of
    absent, negative and out-of-range operands and for ASCII and other strings. *)
Theorem str_indices_python s cs start end_ :
  is_str s cs → (Z.of_nat (length cs) ≤ i32_max)%Z →
  (∀ x, start = Some x ∨ end_ = Some x → i32_min ≤ x ≤ i32_max)%Z →
  let n := Z.of_nat (length cs) in
  let a := char_start n start end_ in
  let b := char_end n end_ in
  convert_str_indices align_offset s start end_ =
    Ok (if no_substring n start end_ then None
        else Some (mkStrIndices (Z.to_nat a) (substring cs a b))).
Proof.
  intros Hs Hlen Hx n a b.
  assert (is_negative_opt start || is_negative_opt end_ = true →
    (∀ x y, start = Some x → end_ = Some y → x < 0 → y < 0 → x ≤ y)%Z →
    convert_str_indices_slow align_offset s start end_ =
    Ok (if no_substring n start end_ then None
        else Some (mkStrIndices (Z.to_nat a) (substring cs a b)))) as Hslow.
  { intros Hneg Hord. rewrite (slow_ok s cs) by done. cbn zeta. fold n.
    rewrite (clamped_start n start end_ ltac:(lia) Hneg). fold a. change (py_clamp n 1 end_ n) with b.
    unfold no_substring. fold a b.
    assert (match start, end_ with Some x, Some y => (x <? 0) && (y <? 0) && (y <? x)
            | _, _ => false end%Z = false) as ->; [|by rewrite orb_false_r].
    destruct start as [x|], end_ as [y|]; try done.
    destruct (Z.ltb_spec x 0), (Z.ltb_spec y 0); try done. apply Z.ltb_ge. auto. }
  unfold convert_str_indices. destruct start as [x|], end_ as [y|].
  - destruct (Z.leb_spec 0 x) as [Hx0|Hx0], (Z.leb_spec x y) as [Hxy|Hxy]; cbn [andb].
    + rewrite (split_at_ok _ _ _ _ Hs). cbn [mbind result_bind].
      assert (a = x) as Ha by (subst a; unfold char_start; simpl; z_tests; done).
      assert (b = Z.min n y) as Hb by (subst b; unfold char_end; simpl; z_tests; lia).
      unfold no_substring. fold a b. rewrite Ha, Hb, (proj2 (Z.ltb_ge x 0)), orb_false_r by done.
      destruct (Nat.leb_spec (Z.to_nat x) (length cs)); z_tests; [|done].
      rewrite (split_at_end_ok _ _ _ _ (is_str_drop cs _ (proj1 Hs))). cbn [mbind result_bind].
      do 3 f_equal. unfold substring. f_equal. apply take_min_length.
      rewrite length_drop. lia.
    + destruct (Z.leb_spec 0 y); cbn [eqb andb].
      * rewrite (proj2 (Z.ltb_lt y x)) by done. unfold no_substring, char_start, char_end, py_clamp.
        simpl. z_tests. done.
      * apply Hslow; [simpl; by z_tests|]. intros ? ? [= <-] [= <-]. lia.
    + assert (eqb false (0 <=? y)%Z && (y <? x)%Z = false) as ->
        by (rewrite (proj2 (Z.ltb_ge y x)) by done; by rewrite andb_false_r).
      apply Hslow; [simpl; by z_tests|]. intros ? ? [= <-] [= <-]. lia.
    + rewrite (proj2 (Z.leb_gt 0 y)), (proj2 (Z.ltb_lt y x)) by lia. cbn [eqb andb].
      unfold no_substring. rewrite (proj2 (Z.ltb_lt x 0)), (proj2 (Z.ltb_lt y 0)),
        (proj2 (Z.ltb_lt y x)) by lia. by rewrite orb_true_r.
  - destruct (Z.leb_spec 0 x) as [Hx0|Hx0]; [|by apply Hslow; [simpl; z_tests|]].
    rewrite (split_at_ok _ _ _ _ Hs). cbn [mbind result_bind].
    assert (a = x) as Ha by (subst a; unfold char_start; simpl; z_tests; done).
    unfold no_substring. fold a b. rewrite Ha, orb_false_r. change b with n.
    destruct (Nat.leb_spec (Z.to_nat x) (length cs)); z_tests; [|done].
    unfold substring. rewrite take_ge; [done|]. rewrite length_drop. lia.
  - destruct (Z.leb_spec 0 y) as [Hy0|Hy0]; [|by apply Hslow; [simpl; z_tests|]].
    rewrite (split_at_end_ok _ _ _ _ Hs). cbn [mbind result_bind].
    assert (b = Z.min n y) as Hb by (subst b; unfold char_end; simpl; z_tests; lia).
    unfold no_substring. fold a b. change a with 0%Z. rewrite Hb. z_tests.
    cbn [orb]. unfold substring. rewrite Z.sub_0_r.
    by rewrite (take_min_length cs (Z.to_nat y) (Z.to_nat (Z.min n y))) by lia.
  - unfold no_substring. fold a b. change a with 0%Z. change b with n. z_tests.
    cbn [orb]. unfold substring. rewrite Z.sub_0_r. subst n. rewrite Nat2Z.id.
    change (drop (Z.to_nat 0) cs) with cs. by rewrite take_ge, <-(proj2 Hs).
Qed.
End theorems.

Section contains_theorem.
Context (memchr : byte → list byte → option nat).
(** The crate's documentation: the position of the first occurrence, if any. *)
Context (memchr_ok : ∀ b h, is_Some (memchr b h) ↔ b ∈ h).

Definition infix (needle haystack : list byte) : Prop := ∃ p q, haystack = p ++ needle ++ q.

Lemma starts_with_ok s p : starts_with s p = true ↔ ∃ q, s = p ++ q.
Proof.
  unfold starts_with. rewrite bool_decide_eq_true. split.
  - intros Ht. exists (drop (length p) s). rewrite <-Ht at 1. by rewrite take_drop.
  - intros [q ->]. by rewrite take_app_length.
Qed.

Lemma contains_loop_ok h needle n0 starts :
  needle !! 0 = Some n0 → (∀ i, i ∈ starts → i < length h) →
  returns (contains_loop h needle n0 starts) (λ r,
    r = true ↔ ∃ i, i ∈ starts ∧ starts_with (drop i h) needle = true).
Proof.
  intros Hn. induction starts as [|i starts IH]; intros Hs; cbn [contains_loop].
  { apply returns_ret. split; [done|]. by intros (i & Hi%elem_of_nil & _). }
  destruct (lookup_lt_is_Some_2 h i) as [b Hb]; [apply Hs; by left|]. rewrite Hb.
  cbn [unwrap mbind result_bind].
  destruct IH as (r & Hr & Hiff); [intros; apply Hs; by right|].
  assert (∀ c : bool, c = starts_with (drop i h) needle →
    returns (if c then Ok true else contains_loop h needle n0 starts) (λ r,
      r = true ↔ ∃ j, j ∈ i :: starts ∧ starts_with (drop j h) needle = true)) as Hgo.
  { intros [|] Hc.
    - apply returns_ret. split; [|done]. intros _. exists i. split; [by left|done].
    - rewrite Hr. apply returns_ret. rewrite Hiff. split.
      + intros (j & Hj & Hjs). exists j. split; [by right|done].
      + intros (j & [->|Hj]%elem_of_cons & Hjs); [congruence|eauto]. }
  destruct (Z.eqb_spec b n0) as [->|Hne]; cbn [negb]; [by apply Hgo|].
  apply (Hgo false). symmetry. destruct (starts_with (drop i h) needle) eqn:Hsw; [|done].
  exfalso. apply Hne. apply starts_with_ok in Hsw as [q Hq].
  assert (drop i h !! 0 = Some n0) as H0 by (rewrite Hq; by apply lookup_app_l_Some).
  rewrite lookup_drop, Nat.add_0_r in H0. congruence.
Qed.

(** [needle in haystack], with its shortcuts for short needles and its hand-written
    quadratic search, never indexes out of range and decides whether the needle's bytes
    occur in the haystack. *)
Theorem contains_decides (h needle : list byte) :
  returns (contains memchr h needle) (λ r, r = true ↔ infix needle h).
Proof.
  unfold contains, infix. destruct (Nat.eqb_spec (length needle) 0) as [Hz|Hz].
  { apply returns_ret. split; [|done]. intros _. exists [], h.
    by apply nil_length_inv in Hz as ->. }
  destruct (Nat.eqb_spec (length needle) 1) as [Ho|Ho].
  { destruct needle as [|b [|]]; try done. simpl. apply returns_ret.
    specialize (memchr_ok b h). destruct (memchr b h) as [i|] eqn:Hm.
    - split; [|done]. intros _. assert (b ∈ h) as (p & q & ->)%list_elem_of_split by (apply memchr_ok; eauto).
      eauto.
    - split; [done|]. intros (p & q & ->).
      assert (is_Some (@None nat)) as [? ?]; [|done]. apply memchr_ok.
      apply elem_of_app. right. by left. }
  destruct (Nat.ltb_spec (length h) (length needle)) as [Hlt|Hge].
  { apply returns_ret. split; [done|]. intros (p & q & ->). rewrite !length_app in Hlt. lia. }
  rewrite (proj2 (Nat.leb_le _ _)) by done. cbn [assert mbind result_bind].
  destruct needle as [|n0 needle]; [done|]. cbn [lookup list_lookup unwrap mbind result_bind].
  eapply returns_mono; [apply contains_loop_ok; [done|]|].
  - intros i Hi%elem_of_seq. simpl in *. lia.
  - intros r ->. split.
    + intros (i & _ & [q Hq]%starts_with_ok). exists (take i h), q. by rewrite <-Hq, take_drop.
    + intros (p & q & ->). exists (length p). split.
      * apply elem_of_seq. rewrite !length_app. lia.
      * apply starts_with_ok. exists q. by rewrite drop_app_length.
Qed.
End contains_theorem.

(** ** Concrete inputs *)

(** The word "héllo" in UTF-8. *)
Definition witness_chars : list (list byte) := [[0x68]; [0xC3; 0xA9]; [0x6C]; [0x6C]; [0x6F]]%Z.

Lemma witness_is_str : is_str (concat witness_chars) witness_chars.
Proof.
  split; [|done]. repeat apply Forall_cons_2; [..|constructor];
    (split; [lia|split; [done|repeat constructor; lia]]).
Defined.

Lemma fast_string_positions_witness :
  at_ (λ _, 3) (concat witness_chars) 1 = Ok (Some [0xC3; 0xA9]%Z) ∧
  len (λ _, 3) (concat witness_chars) = Ok 5.
Proof.
  destruct (fast_string_positions (λ _, 3) _ witness_chars 1 witness_is_str) as (H1 & H2 & _).
  split; [exact H1|exact H2].
Defined.

Lemma str_indices_python_witness :
  convert_str_indices (λ _, 3) (concat witness_chars) (Some (-4)%Z) (Some 3%Z) =
    Ok (Some (mkStrIndices 1 [0xC3; 0xA9; 0x6C]%Z)).
Proof.
  rewrite (str_indices_python (λ _, 3) _ witness_chars (Some (-4)%Z) (Some 3%Z) witness_is_str).
  - by vm_compute.
  - by vm_compute.
  - intros x [[= <-]|[= <-]]; by vm_compute.
Defined.

Lemma contains_decides_witness :
  returns (contains (λ b h, find_index (λ x, x =? b)%Z h) [1; 2; 3; 4]%Z [2; 3]%Z)
    (λ r, r = true ↔ infix [2; 3]%Z [1; 2; 3; 4]%Z).
Proof.
  apply contains_decides. intros b h. destruct (find_index (λ x, x =? b)%Z h) as [i|] eqn:Hi.
  - apply find_index_Some in Hi as [(x & Hx & ->%Z.eqb_eq) _]. split; [|eauto]. intros _.
    apply list_elem_of_lookup. eauto.
  - rewrite find_index_None in Hi. split; [intros [? ?]; done|].
    intros [i Hx]%list_elem_of_lookup. specialize (Hi i b Hx). by rewrite Z.eqb_refl in Hi.
Defined.
