(* ===== verification/Symbol.v ===== *)
(** [starlark/src/collections/symbol/symbol.rs], [symbol/map.rs], [aligned_padded_str.rs]
    and the representation of strings in [values/types/string/str_type.rs] and
    [values/layout/heap/arena.rs]: strings stored in whole, zero-padded words, compared
    word by word, and the table from such strings to positions that names parameters,
    fields and methods. *)

From S2P Require Import Prelude Hashing TableMap FastString.

(** * Memory *)

(** Bytes of memory; [None] is uninitialised.  A word is 8 bytes. *)
Abbreviation cells := (list (option byte)) (only parsing).

Definition WORD : nat := 8.
Definition read_bytes (m : cells) (off n : nat) : comp (list byte) :=
  if off + n <=? length m
  then match mapM id (take n (drop off m)) with Some bs => Ok bs | None => UB end else UB.
Definition write_bytes (m : cells) (off : nat) (bs : list byte) : comp cells :=
  if off + length bs <=? length m
  then Ok (take off m ++ (Some <$> bs) ++ drop (off + length bs) m) else UB.
Definition load_word (m : cells) (i : nat) : comp Z :=
  bs ← read_bytes m (WORD * i) WORD; Ok (le_combine bs).

(** * Padded strings *)

(** [AlignedPaddedStr]: a length in bytes and a pointer. *)
Record AlignedPaddedStr := mkAligned { aps_len : nat; aps_data : cells }.

Definition len_words (a : AlignedPaddedStr) : nat := (aps_len a + WORD - 1) / WORD.

(** The loop over words [i], [i + 1], ... of both strings. *)
Fixpoint words_eq (p1 p2 : cells) (i n : nat) : comp bool :=
  match n with
  | 0 => Ok true
  | S n =>
    a ← load_word p1 i; b ← load_word p2 i;
    if negb (a =? b)%Z then Ok false else words_eq p1 p2 (S i) n
  end.
Definition AlignedPaddedStr_eq (a other : AlignedPaddedStr) : comp bool :=
  if negb (aps_len a =? aps_len other) then Ok false
  else words_eq (aps_data a) (aps_data other) 0 (len_words a).

(** [Symbol]: [sym_hash] is the promoted [small_hash]. *)
Record Symbol := mkSymbol {
  sym_hash : Z;
  sym_len : nat;
  payload : cells;
  small_hash : StarlarkHashValue;
}.

Definition u32_try_from (n : nat) : comp nat :=
  if (Z.of_nat n <=? u32_max)%Z then Ok n else Panic.

Definition Symbol_new_hashed (x : Hashed (list byte)) : comp Symbol :=
  let small_hash := hash x in
  let hash := promote small_hash in
  let len := length (key x) in
  let len_words := (len + WORD - 1) / WORD in
  let payload := replicate (WORD * len_words) (Some 0%Z) in
  payload ← write_bytes payload 0 (key x);
  len ← u32_try_from len;
  Ok (mkSymbol hash len payload small_hash).

Definition Symbol_eq (s other : Symbol) : comp bool :=
  if negb (sym_len s =? sym_len other) then Ok false
  else words_eq (payload s) (payload other) 0 (length (payload s) / WORD).
Definition Symbol_as_str (s : Symbol) : comp (list byte) := read_bytes (payload s) 0 (sym_len s).
Definition Symbol_as_aligned_padded_str (s : Symbol) : AlignedPaddedStr :=
  mkAligned (sym_len s) (payload s).
Definition Symbol_as_str_hashed (s : Symbol) : comp (Hashed (list byte)) :=
  x ← Symbol_as_str s; Ok (mkHashed (small_hash s) x).

(** ** Strings on the heap *)

(** [StarlarkStrN]: the hash is 0 until it is computed. *)
Record StarlarkStr := mkStarlarkStr { str_hash : StarlarkHashValue; str_length : nat; body : cells }.

Definition UNINIT_HASH : StarlarkHashValue := 0%Z.
Definition payload_len_for_len (len : nat) : nat := (len + WORD - 1) / WORD.

(** [Arena::alloc_str_init] on fresh memory, and [alloc_str]. *)
Definition alloc_str_init (len : nat) (hash : StarlarkHashValue)
    (init : cells → comp cells) : comp StarlarkStr :=
  _ ← assert (1 <? len);
  _ ← assert (Z.of_nat len <=? u32_max)%Z;
  let extra := replicate (WORD * payload_len_for_len len) None in
  extra ← write_bytes extra (length extra - WORD) (replicate WORD 0%Z);
  extra ← init extra;
  Ok (mkStarlarkStr hash len extra).
Definition alloc_str (x : list byte) : comp StarlarkStr :=
  alloc_str_init (length x) UNINIT_HASH (λ dest, write_bytes dest 0 x).

Definition as_str (s : StarlarkStr) : comp (list byte) := read_bytes (body s) 0 (str_length s).
Definition as_aligned_padded_str (s : StarlarkStr) : AlignedPaddedStr :=
  mkAligned (str_length s) (body s).
Definition StarlarkStr_eq (s other : StarlarkStr) : comp bool :=
  AlignedPaddedStr_eq (as_aligned_padded_str s) (as_aligned_padded_str other).

Section symbol_map.
(** [StarlarkHasher] run over a [str]. *)
Context (hash_of : list byte → StarlarkHashValue).

(** The cached hash, and the string with the hash in the cache. *)
Definition get_hash (s : StarlarkStr) : comp (StarlarkHashValue * StarlarkStr) :=
  let hash := str_hash s in
  if negb (hash =? 0)%Z then Ok (hash, s) else
  x ← as_str s;
  let hash := hash_of x in
  Ok (hash, mkStarlarkStr hash (str_length s) (body s)).
Definition as_str_hashed (s : StarlarkStr) : comp (Hashed (list byte) * StarlarkStr) :=
  '(hash, s) ← get_hash s; x ← as_str s; Ok (mkHashed hash x, s).

Definition Symbol_new (x : list byte) : comp Symbol := Symbol_new_hashed (Hashed_new hash_of x).

(** * The map *)

Context {TT T : Type} `{HashTable (Symbol * T) TT}.
Record SymbolMap := mkSymbolMap { symbol_table : TT }.
Implicit Types m : SymbolMap.

Definition SymbolMap_with_capacity (capacity : nat) : comp SymbolMap :=
  t ← ht_with_capacity capacity; Ok (mkSymbolMap t).
Definition SymbolMap_new : comp SymbolMap := SymbolMap_with_capacity 0.

Definition SymbolMap_insert m (key : list byte) (value : T) : comp (option T * SymbolMap) :=
  s ← Symbol_new key;
  o ← ht_find_mut (symbol_table m) (sym_hash s) (λ x, Symbol_eq s x.1);
  match o with
  | Some (x, set, _) => Ok (Some x.2, mkSymbolMap (set (x.1, value)))
  | None =>
    t ← ht_insert_unique (symbol_table m) (sym_hash s) (s, value) (λ x, Ok (sym_hash x.1));
    Ok (None, mkSymbolMap t)
  end.
Definition SymbolMap_get m (key : Symbol) : comp (option T) :=
  o ← ht_find (symbol_table m) (sym_hash key) (λ x, Symbol_eq key x.1); Ok (option_map snd o).
Definition get_hashed_str m (k : Hashed (list byte)) : comp (option T) :=
  o ← ht_find (symbol_table m) (promote (hash k))
        (λ x, s ← Symbol_as_str x.1; Ok (bool_decide (s = key k)));
  Ok (option_map snd o).
Definition get_str m (key : list byte) : comp (option T) :=
  get_hashed_str m (Hashed_new hash_of key).
Definition get_hashed_string_value m (k : Hashed StarlarkStr) : comp (option T) :=
  o ← ht_find (symbol_table m) (promote (hash k))
        (λ x, AlignedPaddedStr_eq (Symbol_as_aligned_padded_str x.1) (as_aligned_padded_str (key k)));
  Ok (option_map snd o).
Definition SymbolMap_len m : nat := length (ht_entries (symbol_table m)).
Definition SymbolMap_iter m : list (Symbol * T) := (ht_entries (symbol_table m)).*2.
Definition SymbolMap_keys m : list Symbol := (SymbolMap_iter m).*1.
Definition SymbolMap_values m : list T := (SymbolMap_iter m).*2.
End symbol_map.
Arguments SymbolMap : clear implicits.
Arguments mkSymbolMap {TT}.
Arguments symbol_table {TT}.

(** * Facts *)

Definition is_byte (b : byte) : Prop := (0 ≤ b < 256)%Z.

(** The bytes of a string in whole words. *)
Definition pad (x : list byte) : list byte :=
  x ++ replicate (WORD * payload_len_for_len (length x) - length x) 0%Z.

Lemma padding_bounds n : n ≤ WORD * payload_len_for_len n < n + WORD.
Proof.
  unfold payload_len_for_len, WORD. pose proof (Nat.div_mod (n + 8 - 1) 8 ltac:(lia)).
  pose proof (Nat.mod_upper_bound (n + 8 - 1) 8). lia.
Qed.

Lemma length_pad x : length (pad x) = WORD * payload_len_for_len (length x).
Proof.
  unfold pad. rewrite length_app, length_replicate. pose proof (padding_bounds (length x)). lia.
Qed.

Lemma pad_bytes x : Forall is_byte x → Forall is_byte (pad x).
Proof.
  intros Hx. apply Forall_app. split; [done|]. apply Forall_replicate. unfold is_byte. lia.
Qed.

Lemma pad_inj x y : length x = length y → pad x = pad y → x = y.
Proof. intros Hl Hp. by apply app_inj_1 in Hp as [? _]. Qed.

Lemma mapM_id_Some (bs : list byte) : mapM id (Some <$> bs) = Some bs.
Proof. apply mapM_Some_2, Forall2_fmap_l, Forall_Forall2_diag. by apply Forall_forall. Qed.

Lemma read_bytes_ok (bs : list byte) off n :
  off + n ≤ length bs → read_bytes (Some <$> bs) off n = Ok (take n (drop off bs)).
Proof.
  intros Hn. unfold read_bytes. rewrite length_fmap, (proj2 (Nat.leb_le _ _)) by done.
  by rewrite <-fmap_drop, <-fmap_take, mapM_id_Some.
Qed.

Lemma load_word_ok (bs : list byte) i :
  WORD * S i ≤ length bs →
  load_word (Some <$> bs) i = Ok (le_combine (take WORD (drop (WORD * i) bs))).
Proof. intros Hi. unfold load_word. rewrite read_bytes_ok by lia. done. Qed.

Lemma le_combine_inj (bs cs : list byte) :
  Forall is_byte bs → Forall is_byte cs → length bs = length cs →
  le_combine bs = le_combine cs → bs = cs.
Proof.
  intros Hbs. revert cs. induction Hbs as [|b bs Hb Hbs IH]; intros [|c cs] Hcs Hl Heq; try done.
  apply Forall_cons in Hcs as [Hc Hcs]. simpl in *. unfold is_byte in *.
  f_equal; [lia|]. apply IH; [done|lia|lia].
Qed.

Lemma words_eq_ok (bs cs : list byte) i n :
  Forall is_byte bs → Forall is_byte cs → length bs = WORD * (i + n) → length cs = WORD * (i + n) →
  words_eq (Some <$> bs) (Some <$> cs) i n =
    Ok (bool_decide (drop (WORD * i) bs = drop (WORD * i) cs)).
Proof.
  intros Hbs Hcs. revert i. induction n as [|n IH]; intros i Hb Hc; cbn [words_eq].
  { rewrite !drop_ge by lia. by rewrite bool_decide_eq_true_2. }
  rewrite !load_word_ok by lia. cbn [mbind result_bind].
  assert (∀ l : list byte, drop (WORD * S i) l = drop WORD (drop (WORD * i) l)) as Hd
    by (intros l; rewrite drop_drop; f_equal; unfold WORD; lia).
  destruct (Z.eqb_spec (le_combine (take WORD (drop (WORD * i) bs)))
    (le_combine (take WORD (drop (WORD * i) cs)))) as [He|He]; cbn [negb].
  - apply le_combine_inj in He.
    + rewrite IH, !Hd by (unfold WORD in *; lia). f_equal. apply bool_decide_ext. split; [|by intros ->].
      intros Hr. rewrite <-(take_drop WORD (drop (WORD * i) bs)), He, Hr. apply take_drop.
    + by apply Forall_take, Forall_drop.
    + by apply Forall_take, Forall_drop.
    + rewrite !length_take, !length_drop. lia.
  - rewrite bool_decide_eq_false_2; [done|]. intros Hr. apply He. by rewrite Hr.
Qed.

(** Two padded strings of the same length. *)
Lemma padded_eq x y :
  Forall is_byte x → Forall is_byte y → length x = length y →
  words_eq (Some <$> pad x) (Some <$> pad y) 0 (payload_len_for_len (length x)) =
    Ok (bool_decide (x = y)).
Proof.
  intros Hx Hy Hl. rewrite words_eq_ok; rewrite ?length_pad, ?Hl; auto using pad_bytes.
  rewrite Nat.mul_0_r, !drop_0. f_equal. apply bool_decide_ext.
  split; [by apply pad_inj|by intros ->].
Qed.

Lemma as_str_ok x : read_bytes (Some <$> pad x) 0 (length x) = Ok x.
Proof.
  rewrite read_bytes_ok, drop_0; [unfold pad; by rewrite take_app_length|].
  rewrite length_pad. pose proof (padding_bounds (length x)). lia.
Qed.

Lemma words_of_pad x : length (pad x) / WORD = payload_len_for_len (length x).
Proof. rewrite length_pad, Nat.mul_comm. by apply Nat.div_mul. Qed.

(** ** Construction *)

Lemma write_bytes_ok (m : cells) off bs :
  off + length bs ≤ length m →
  write_bytes m off bs = Ok (take off m ++ (Some <$> bs) ++ drop (off + length bs) m).
Proof. intros Hl. unfold write_bytes. by rewrite (proj2 (Nat.leb_le _ _)). Qed.

Lemma Symbol_new_hashed_ok x h :
  (Z.of_nat (length x) ≤ u32_max)%Z →
  Symbol_new_hashed (mkHashed h x) = Ok (mkSymbol (promote h) (length x) (Some <$> pad x) h).
Proof.
  intros Hx. pose proof (padding_bounds (length x)) as Hpad.
  unfold Symbol_new_hashed. cbn [key hash]. fold (payload_len_for_len (length x)).
  rewrite write_bytes_ok by (rewrite length_replicate; lia). cbn [mbind result_bind].
  unfold u32_try_from. rewrite (proj2 (Z.leb_le _ _)) by done. cbn [mbind result_bind].
  unfold pad. by rewrite drop_replicate, fmap_app, fmap_replicate.
Qed.

Lemma alloc_str_ok x :
  1 < length x → (Z.of_nat (length x) ≤ u32_max)%Z →
  alloc_str x = Ok (mkStarlarkStr UNINIT_HASH (length x) (Some <$> pad x)).
Proof.
  intros H1 Hx. pose proof (padding_bounds (length x)) as Hpad. unfold WORD in *.
  unfold alloc_str, alloc_str_init, WORD.
  rewrite (proj2 (Nat.ltb_lt _ _)), (proj2 (Z.leb_le _ _)) by done. cbn [assert mbind result_bind].
  rewrite write_bytes_ok by (rewrite !length_replicate; lia). cbn [mbind result_bind].
  rewrite !length_replicate, take_replicate, fmap_replicate, drop_replicate.
  rewrite Nat.min_l, Nat.sub_add, Nat.sub_diag by lia.
  change (replicate 0 None) with (@nil (option Z)). rewrite app_nil_r.
  rewrite write_bytes_ok by (rewrite length_app, !length_replicate; lia).
  cbn [mbind result_bind]. do 2 f_equal. unfold pad, WORD. rewrite take_0, fmap_app, fmap_replicate.
  generalize dependent (payload_len_for_len (length x)). intros n Hpad.
  rewrite app_nil_l, Nat.add_0_l. f_equal.
  rewrite drop_app_ge, length_replicate by (rewrite length_replicate; lia).
  rewrite drop_replicate. f_equal. lia.
Qed.

(** * The map from strings *)

(** A string that fits a symbol. *)
Definition short_str (x : list byte) : Prop := Forall is_byte x ∧ (Z.of_nat (length x) ≤ u32_max)%Z.

(** The symbol and, for longer strings, the heap string of [x]. *)
Definition symbol_of (hash_of : list byte → StarlarkHashValue) (x : list byte) : Symbol :=
  mkSymbol (promote (hash_of x)) (length x) (Some <$> pad x) (hash_of x).
Definition string_of (h : StarlarkHashValue) (x : list byte) : StarlarkStr :=
  mkStarlarkStr h (length x) (Some <$> pad x).

Section symbols.
Context (hash_of : list byte → StarlarkHashValue).
Context {TT T : Type} `{HashTableOk (Symbol * T) TT}.
Implicit Types (m : SymbolMap TT) (M : gmap (list byte) T).

Lemma Symbol_new_ok x : short_str x → Symbol_new hash_of x = Ok (symbol_of hash_of x).
Proof. intros [_ Hx]. by apply Symbol_new_hashed_ok. Qed.

Lemma Symbol_eq_ok x y :
  short_str x → short_str y →
  Symbol_eq (symbol_of hash_of x) (symbol_of hash_of y) = Ok (bool_decide (x = y)).
Proof.
  intros [Hx _] [Hy _]. unfold Symbol_eq, symbol_of. cbn [sym_len payload].
  destruct (Nat.eqb_spec (length x) (length y)) as [Hl|Hl]; cbn [negb].
  - rewrite length_fmap, words_of_pad. by apply padded_eq.
  - rewrite bool_decide_eq_false_2; [done|]. by intros ->.
Qed.

Lemma aligned_eq_ok x y :
  short_str x → short_str y →
  AlignedPaddedStr_eq (mkAligned (length x) (Some <$> pad x)) (mkAligned (length y) (Some <$> pad y)) =
    Ok (bool_decide (x = y)).
Proof.
  intros [Hx _] [Hy _]. unfold AlignedPaddedStr_eq. cbn [aps_len aps_data].
  destruct (Nat.eqb_spec (length x) (length y)) as [Hl|Hl]; cbn [negb].
  - by apply padded_eq.
  - rewrite bool_decide_eq_false_2; [done|]. by intros ->.
Qed.

(** What the table holds for a name and its value. *)
Definition stored_symbol (kv : list byte * T) : Z * (Symbol * T) :=
  (promote (hash_of kv.1), (symbol_of hash_of kv.1, kv.2)).
Definition symbols m M : Prop :=
  table_models stored_symbol (symbol_table m) M ∧ map_Forall (λ k _, short_str k) M.

Lemma symbol_searches m M k (eq : Symbol * T → comp bool) :
  symbols m M →
  (∀ k' v, short_str k' → eq (symbol_of hash_of k', v) = Ok (bool_decide (k = k'))) →
  searches stored_symbol M k (promote (hash_of k)) eq.
Proof. intros [_ Hall] Heq. split; [done|]. intros k' v Hk. apply Heq, (Hall k' v Hk). Qed.

Lemma symbol_find_ok m M k (eq : Symbol * T → comp bool) :
  symbols m M →
  (∀ k' v, short_str k' → eq (symbol_of hash_of k', v) = Ok (bool_decide (k = k'))) →
  (o ← ht_find (symbol_table m) (promote (hash_of k)) eq; Ok (option_map snd o)) = Ok (M !! k).
Proof.
  intros Hm Heq.
  destruct (table_find stored_symbol _ _ _ _ _ (proj1 Hm) (symbol_searches m M k eq Hm Heq))
    as (o & -> & Ho).
  simpl. f_equal. destruct o as [x|]; [|done]. by destruct Ho as (v & -> & ->).
Qed.

Lemma SymbolMap_get_ok m M k :
  symbols m M → short_str k → SymbolMap_get m (symbol_of hash_of k) = Ok (M !! k).
Proof.
  intros Hm Hk. refine (symbol_find_ok m M k _ Hm _). intros k' v Hk'. by apply Symbol_eq_ok.
Qed.

Lemma get_hashed_str_ok m M k :
  symbols m M → get_hashed_str m (Hashed_new hash_of k) = Ok (M !! k).
Proof.
  intros Hm. refine (symbol_find_ok m M k _ Hm _). intros k' v Hk'. cbn [fst].
  unfold Symbol_as_str, symbol_of. cbn [payload sym_len]. rewrite as_str_ok.
  cbn [mbind result_bind]. f_equal. apply bool_decide_ext. done.
Qed.

Lemma get_hashed_string_value_ok m M k h :
  symbols m M → short_str k →
  get_hashed_string_value m (mkHashed (hash_of k) (string_of h k)) = Ok (M !! k).
Proof.
  intros Hm Hk. refine (symbol_find_ok m M k _ Hm _). intros k' v Hk'.
  rewrite (bool_decide_ext (k = k') (k' = k)) by done. by apply aligned_eq_ok.
Qed.

Lemma SymbolMap_insert_ok m M k v :
  symbols m M → short_str k → (N.of_nat (size M) < ht_max)%N →
  returns (SymbolMap_insert hash_of m k v) (λ '(old, m'), old = M !! k ∧ symbols m' (<[k := v]> M)).
Proof.
  intros Hm Hk Hroom. unfold SymbolMap_insert. rewrite Symbol_new_ok by done.
  cbn [mbind result_bind]. pose proof (symbol_searches m M k
    (λ x, Symbol_eq (symbol_of hash_of k) x.1) Hm
    (λ k' v Hk', Symbol_eq_ok k k' Hk Hk')) as Hs.
  assert (map_Forall (λ k _, short_str k) (<[k := v]> M)) as Hall
    by (apply map_Forall_insert_2; [done|apply Hm]).
  step_with (table_find_mut stored_symbol); [apply Hm|exact Hs|].
  intros [[[x set] removed]|].
  - intros (w & Hw & -> & Hset & _). apply returns_ret. rewrite Hw. split; [done|].
    split; [apply (Hset v)|done].
  - intros Hnone. step_with (table_insert stored_symbol _ _ k v); [apply Hm|done..|].
    intros t Ht. apply returns_ret. rewrite Hnone. by split.
Qed.

Lemma SymbolMap_with_capacity_ok n :
  (N.of_nat n ≤ ht_max)%N → returns (SymbolMap_with_capacity (TT:=TT) n) (λ m, symbols m ∅).
Proof.
  intros Hn. unfold SymbolMap_with_capacity. step_with with_capacity_ok; [done|].
  intros t [Ht _]. apply returns_ret. split; [by apply table_empty|apply map_Forall_empty].
Qed.

(** ** Properties *)

(** C38: [SymbolMap] is a finite map from strings, and its three lookups, by symbol, by string
    and by heap string, which compare names word by word or byte by byte, agree: each
    returns (no word beyond the end or before its initialisation is read) what the finite
    map has for the name. Insertion replaces what was there and returns it. *)
Theorem symbol_map_refines m M k v h :
  symbols m M → short_str k → (N.of_nat (size M) < ht_max)%N →
  SymbolMap_len m = size M ∧
  (s ← Symbol_new hash_of k; SymbolMap_get m s) = Ok (M !! k) ∧
  get_str hash_of m k = Ok (M !! k) ∧
  get_hashed_string_value m (mkHashed (hash_of k) (string_of h k)) = Ok (M !! k) ∧
  returns (SymbolMap_insert hash_of m k v) (λ '(old, m'),
    old = M !! k ∧ symbols m' (<[k := v]> M)).
Proof.
  intros Hm Hk Hroom. split_and!.
  - apply (table_size stored_symbol), Hm.
  - rewrite Symbol_new_ok by done. by apply SymbolMap_get_ok.
  - by apply get_hashed_str_ok.
  - by apply get_hashed_string_value_ok.
  - by apply SymbolMap_insert_ok.
Qed.
End symbols.

(** Strings in padded words. A string of at least two bytes is written whole to its
    fresh memory, whose last word is zeroed first; it reads back as itself, whatever its
    length; comparing strings word by word decides equality; and the hash, once computed,
    is the hash of the string, whether or not it came from the cache. *)
Theorem padded_strings (hash_of : list byte → StarlarkHashValue) x y :
  short_str x → short_str y → 1 < length x → 1 < length y →
  ∃ a b, alloc_str x = Ok a ∧ alloc_str y = Ok b ∧
    as_str a = Ok x ∧ StarlarkStr_eq a b = Ok (bool_decide (x = y)) ∧
    returns (get_hash hash_of a) (λ '(h, a'), h = hash_of x ∧
      as_str a' = Ok x ∧ StarlarkStr_eq a' b = Ok (bool_decide (x = y)) ∧
      ∃ a'', get_hash hash_of a' = Ok (hash_of x, a'')).
Proof.
  intros Hx Hy Hlx Hly. exists (string_of 0 x), (string_of 0 y).
  rewrite !alloc_str_ok by (apply Hx || apply Hy || done).
  assert (∀ h, as_str (string_of h x) = Ok x) as Hread by (intros h; apply as_str_ok).
  assert (∀ h h', StarlarkStr_eq (string_of h x) (string_of h' y) = Ok (bool_decide (x = y))) as Heq
    by (intros h h'; by apply aligned_eq_ok).
  split_and!; [done..|].
  unfold get_hash at 1. cbn [string_of str_hash]. simpl (negb _). cbn iota.
  rewrite Hread. cbn [mbind result_bind str_length body]. apply returns_ret.
  change (mkStarlarkStr (hash_of x) _ _) with (string_of (hash_of x) x).
  split_and!; [done|apply Hread|apply Heq|].
  unfold get_hash. rewrite Hread. cbn [string_of str_hash mbind result_bind].
  destruct (hash_of x =? 0)%Z eqn:Hz; by eexists.
Qed.

(** ** Concrete inputs *)

Definition witness_str_hash (x : list byte) : StarlarkHashValue := Z.of_nat (length x).
Definition witness_name : list byte := [0x6E; 0x61; 0x6D; 0x65; 0x5F; 0x61; 0x72; 0x67; 0x73]%Z.

Lemma witness_short : short_str witness_name.
Proof.
  split; [|by vm_compute].
  repeat constructor; unfold is_byte; lia.
Defined.

Lemma symbol_map_refines_witness :
  get_str witness_str_hash
    (mkSymbolMap (mkListTable [(promote 9, (symbol_of witness_str_hash witness_name, 7%Z))] 4))
    witness_name = Ok (Some 7%Z).
Proof.
  set (m := mkSymbolMap _).
  assert (symbols witness_str_hash m {[witness_name := 7%Z]}) as Hm.
  { split; [|by apply map_Forall_singleton, witness_short].
    unfold table_models. by rewrite map_to_list_singleton. }
  destruct (symbol_map_refines witness_str_hash m _ witness_name 0%Z 0%Z Hm witness_short
    ltac:(by vm_compute)) as (_ & _ & Hget & _). rewrite Hget. by rewrite lookup_singleton_eq.
Defined.

Lemma padded_strings_witness :
  ∃ a b, alloc_str witness_name = Ok a ∧ alloc_str (rev witness_name) = Ok b ∧
    StarlarkStr_eq a b = Ok false.
Proof.
  destruct (padded_strings witness_str_hash witness_name (rev witness_name) witness_short)
    as (a & b & Ha & Hb & _ & Heq & _).
  - split; [repeat constructor; unfold is_byte; lia|by vm_compute].
  - simpl. lia.
  - simpl. lia.
  - exists a, b. split_and!; [done..|]. rewrite Heq. by vm_compute.
Defined.
