(* ===== verification/Utf8.v ===== *)
(** Rust's [char] and [str]: Unicode scalar values, their UTF-8 encoding, and slices of
    strings by byte positions.  A [str] is the list of its characters; [bytes] are what is in
    memory.  This models the standard library, for the components that work on
    characters rather than on bytes. *)

From S2P Require Import Prelude FastString.

(** * Characters *)

Abbreviation char := Z (only parsing).
Abbreviation str := (list Z) (only parsing).

(** [char::from_u32] accepts exactly the scalar values. *)
Definition is_scalar (c : Z) : bool :=
  ((0 <=? c) && (c <? 0xD800) || (0xE000 <=? c) && (c <=? 0x10FFFF))%Z.
Definition char_from_u32 (c : Z) : option char := if is_scalar c then Some c else None.

(** [char::encode_utf8]. *)
Definition encode_utf8 (c : char) : list byte :=
  (if c <? 0x80 then [c]
   else if c <? 0x800 then [0xC0 + c / 64; 0x80 + c mod 64]
   else if c <? 0x10000 then [0xE0 + c / 4096; 0x80 + c / 64 mod 64; 0x80 + c mod 64]
   else [0xF0 + c / 262144; 0x80 + c / 4096 mod 64; 0x80 + c / 64 mod 64; 0x80 + c mod 64])%Z.
Definition len_utf8 (c : char) : nat := length (encode_utf8 c).

(** [char::to_digit]. *)
Definition to_digit (c : char) (radix : Z) : option Z :=
  let d :=
    (if (0x30 <=? c) && (c <=? 0x39) then Some (c - 0x30)
     else if (0x61 <=? c) && (c <=? 0x7A) then Some (c - 0x61 + 10)
     else if (0x41 <=? c) && (c <=? 0x5A) then Some (c - 0x41 + 10)
     else None)%Z in
  match d with Some d => if (d <? radix)%Z then Some d else None | None => None end.

(** * Strings *)

Definition bytes (s : str) : list byte := concat (encode_utf8 <$> s).
Definition str_len (s : str) : nat := length (bytes s).
Definition valid_str (s : str) : Prop := Forall (λ c, is_scalar c = true) s.

(** [&s[n..]] and [&s[..n]]: positions inside a character panic. *)
Fixpoint str_from (s : str) (n : nat) : comp str :=
  match n with
  | 0 => Ok s
  | _ =>
    match s with
    | [] => Panic
    | c :: s => if len_utf8 c <=? n then str_from s (n - len_utf8 c) else Panic
    end
  end.
Fixpoint str_upto (s : str) (n : nat) : comp str :=
  match n with
  | 0 => Ok []
  | _ =>
    match s with
    | [] => Panic
    | c :: s =>
      if len_utf8 c <=? n then rest ← str_upto s (n - len_utf8 c); Ok (c :: rest) else Panic
    end
  end.
(** [&s[a..b]]. *)
Definition str_slice (s : str) (a b : nat) : comp str :=
  _ ← assert (a <=? b); s ← str_from s a; str_upto s (b - a).

(** [starts_with] and [ends_with]. *)
Definition str_starts_with (s p : str) : bool := bool_decide (take (length p) s = p).
Definition str_ends_with_char (s : str) (c : char) : bool := bool_decide (list.last s = Some c).

(** * Lemmas *)

Lemma bytes_cons c s : bytes (c :: s) = encode_utf8 c ++ bytes s.
Proof. done. Qed.
Lemma bytes_app s t : bytes (s ++ t) = bytes s ++ bytes t.
Proof. unfold bytes. by rewrite fmap_app, concat_app. Qed.
Lemma str_len_app s t : str_len (s ++ t) = str_len s + str_len t.
Proof. unfold str_len. by rewrite bytes_app, length_app. Qed.
Lemma str_len_cons c s : str_len (c :: s) = len_utf8 c + str_len s.
Proof. unfold str_len. by rewrite bytes_cons, length_app. Qed.

Lemma len_utf8_pos c : 0 < len_utf8 c.
Proof. unfold len_utf8, encode_utf8. repeat case_match; simpl; lia. Qed.

Lemma encode_ascii c : (c < 0x80)%Z → encode_utf8 c = [c].
Proof. intros Hc. unfold encode_utf8. by rewrite (proj2 (Z.ltb_lt _ _) Hc). Qed.
Lemma len_ascii c : (c < 0x80)%Z → len_utf8 c = 1.
Proof. intros Hc. unfold len_utf8. by rewrite encode_ascii. Qed.

(** Only ASCII characters have bytes below 128. *)
Lemma encode_wide c b : (0x80 ≤ c)%Z → b ∈ encode_utf8 c → (0x80 ≤ b)%Z.
Proof.
  intros Hc. unfold encode_utf8. rewrite (proj2 (Z.ltb_ge _ _) Hc).
  pose proof (Z.div_pos c 64 ltac:(lia) ltac:(lia)). pose proof (Z.div_pos c 4096 ltac:(lia) ltac:(lia)).
  pose proof (Z.div_pos c 262144 ltac:(lia) ltac:(lia)).
  pose proof (Z.mod_pos_bound c 64 ltac:(lia)). pose proof (Z.mod_pos_bound (c / 64) 64 ltac:(lia)).
  pose proof (Z.mod_pos_bound (c / 4096) 64 ltac:(lia)).
  repeat case_match; rewrite !elem_of_cons, elem_of_nil; lia.
Qed.

Lemma is_scalar_spec c :
  is_scalar c = true ↔ (0 ≤ c < 0xD800 ∨ 0xE000 ≤ c ≤ 0x10FFFF)%Z.
Proof. unfold is_scalar. rewrite orb_true_iff, !andb_true_iff, !Z.leb_le, Z.ltb_lt. done. Qed.

(** The encoding of a scalar value is one character of a [str]. *)
Lemma encode_is_char c : is_scalar c = true → is_char (encode_utf8 c).
Proof.
  intros Hc%is_scalar_spec. unfold encode_utf8.
  destruct (Z.ltb_spec c 0x80); [|destruct (Z.ltb_spec c 0x800); [|destruct (Z.ltb_spec c 0x10000)]].
  - split; [lia|]. split; [|constructor]. unfold utf8_width. by rewrite (proj2 (Z.ltb_lt _ _)) by lia.
  - assert (2 ≤ c / 64 < 32)%Z by (split; [apply Z.div_le_lower_bound|apply Z.div_lt_upper_bound]; lia).
    pose proof (Z.mod_pos_bound c 64 ltac:(lia)).
    split; [lia|]. split; [|repeat constructor; lia]. unfold utf8_width. cbn [length].
    by rewrite (proj2 (Z.ltb_ge _ _)), (proj2 (Z.ltb_lt _ _)) by lia.
  - assert (0 ≤ c / 4096 < 16)%Z by (split; [apply Z.div_le_lower_bound|apply Z.div_lt_upper_bound]; lia).
    pose proof (Z.mod_pos_bound c 64 ltac:(lia)). pose proof (Z.mod_pos_bound (c / 64) 64 ltac:(lia)).
    split; [lia|]. split; [|repeat constructor; lia]. unfold utf8_width. cbn [length].
    rewrite !(proj2 (Z.ltb_ge _ _)) by lia. by rewrite (proj2 (Z.ltb_lt _ _)) by lia.
  - assert (0 ≤ c / 262144 < 8)%Z by (split; [apply Z.div_le_lower_bound|apply Z.div_lt_upper_bound]; lia).
    pose proof (Z.mod_pos_bound c 64 ltac:(lia)). pose proof (Z.mod_pos_bound (c / 64) 64 ltac:(lia)).
    pose proof (Z.mod_pos_bound (c / 4096) 64 ltac:(lia)).
    split; [lia|]. split; [|repeat constructor; lia]. unfold utf8_width. cbn [length].
    by rewrite !(proj2 (Z.ltb_ge _ _)) by lia.
Qed.

Lemma str_from_app s t : str_from (s ++ t) (str_len s) = Ok t.
Proof.
  induction s as [|c s IH]; [by destruct t|]. rewrite str_len_cons.
  pose proof (len_utf8_pos c). simpl. destruct (len_utf8 c + str_len s) eqn:He; [lia|].
  rewrite (proj2 (Nat.leb_le _ _)) by lia. rewrite <-He. replace (len_utf8 c + str_len s - len_utf8 c) with (str_len s) by lia.
  apply IH.
Qed.

Lemma str_upto_app s t : str_upto (s ++ t) (str_len s) = Ok s.
Proof.
  induction s as [|c s IH]; [by destruct t|]. rewrite str_len_cons.
  pose proof (len_utf8_pos c). simpl. destruct (len_utf8 c + str_len s) eqn:He; [lia|].
  rewrite (proj2 (Nat.leb_le _ _)) by lia. rewrite <-He. replace (len_utf8 c + str_len s - len_utf8 c) with (str_len s) by lia.
  by rewrite IH.
Qed.

Lemma str_slice_app s t u a b :
  a = str_len s → b = str_len s + str_len t → str_slice (s ++ t ++ u) a b = Ok t.
Proof.
  intros -> ->. unfold str_slice. rewrite (proj2 (Nat.leb_le _ _)) by lia.
  cbn [assert mbind result_bind]. rewrite str_from_app. cbn [mbind result_bind].
  replace (str_len s + str_len t - str_len s) with (str_len t) by lia. apply str_upto_app.
Qed.

Lemma starts_with_spec (s p : str) : str_starts_with s p = true ↔ ∃ t, s = p ++ t.
Proof.
  unfold str_starts_with. rewrite bool_decide_eq_true. split; [|intros [t ->]; by rewrite take_app_length].
  intros Hp. exists (drop (length p) s). by rewrite <- Hp at 1; rewrite take_drop.
Qed.

(** A byte below 128 is a character of the string, and its position is between characters. *)
Lemma ascii_at s i b :
  (b < 0x80)%Z → bytes s !! i = Some b → ∃ x y, s = x ++ b :: y ∧ i = str_len x.
Proof.
  intros Hb. revert i. induction s as [|c s IH]; intros i; [done|]. rewrite bytes_cons.
  destruct (decide (i < len_utf8 c)) as [Hi|Hi].
  - rewrite lookup_app_l by done. intros Hx. destruct (Z.ltb_spec c 0x80) as [Hc|Hc].
    + rewrite encode_ascii in Hx by done. destruct i; [|done]. injection Hx as ->. by exists [], s.
    + apply list_elem_of_lookup_2, encode_wide in Hx; [lia|done].
  - unfold len_utf8 in Hi. rewrite lookup_app_r by lia. intros (x & y & -> & Hx)%IH. exists (c :: x), y. split; [done|].
    rewrite str_len_cons. unfold len_utf8. lia.
Qed.
Lemma str_len_ascii c : (c < 0x80)%Z → str_len [c] = 1.
Proof. intros Hc. unfold str_len. by rewrite bytes_cons, encode_ascii. Qed.
Lemma encode_avoids c b : (b < 0x80)%Z → c ≠ b → Forall (λ x, x ≠ b) (encode_utf8 c).
Proof.
  intros Hb Hne. destruct (Z.ltb_spec c 0x80) as [|Hw]; [rewrite encode_ascii by done; by repeat constructor|].
  apply Forall_forall. intros x Hx%encode_wide; [lia|done].
Qed.
