(* ===== verification/StrMethods.v ===== *)
(** [values/types/string/methods.rs], [iter.rs], [globals.rs]: the methods of strings, [chr] and [ord].  A string is the list of
    its characters; positions that the code computes in bytes are counted in the bytes of the characters.  The tables of
    Unicode behind [char::is_alphabetic] and the like are a class. *)

From S2P Require Import Prelude Ints Index FastString Utf8.

(** * The standard library *)

(** The tables of Unicode that [char] is classified and mapped with. *)
Class Unicode := {
  is_alphabetic : char → bool;
  is_numeric : char → bool;
  is_lowercase : char → bool;
  is_uppercase : char → bool;
  cased : char → bool;
  case_ignorable : char → bool;
  to_lowercase : char → str;
  to_uppercase : char → str;
}.

Section std.
Implicit Types (s p : str) (c : char).

(** The characters with the property [White_Space]. *)
Definition is_whitespace c : bool :=
  ((0x9 <=? c) && (c <=? 0xD) || (c =? 0x20) || (c =? 0x85) || (c =? 0xA0) || (c =? 0x1680) ||
   (0x2000 <=? c) && (c <=? 0x200A) || (c =? 0x2028) || (c =? 0x2029) || (c =? 0x202F) || (c =? 0x205F) || (c =? 0x3000))%Z.

Definition str_ends_with s p : bool := (length p <=? length s) && bool_decide (drop (length s - length p) s = p).
(** [str::find] and [str::rfind]: the position in bytes of the first and of the last match; [off] is the position of [s]. *)
Fixpoint find_from p s (off : nat) : option nat :=
  if str_starts_with s p then Some off else
  match s with [] => None | c :: s => find_from p s (off + len_utf8 c) end.
Definition str_find s p : option nat := find_from p s 0.
Fixpoint rfind_from p s (off : nat) : option nat :=
  match match s with [] => None | c :: s => rfind_from p s (off + len_utf8 c) end with
  | Some i => Some i
  | None => if str_starts_with s p then Some off else None
  end.
Definition str_rfind s p : option nat := rfind_from p s 0.
(** [str::find] of one of several characters. *)
Fixpoint find_char (f : char → bool) s : option nat :=
  match s with [] => None | c :: s => if f c then Some 0 else Nat.add (len_utf8 c) <$> find_char f s end.
(** [str::match_indices]: matches that do not overlap, from the left; the empty pattern matches between all characters.
    [skip] characters belong to the last match. *)
Fixpoint matches_from p s (off skip : nat) : list nat :=
  match skip with
  | S skip => match s with [] => [] | c :: s => matches_from p s (off + len_utf8 c) skip end
  | O =>
    let found := str_starts_with s p in
    match s with
    | [] => if found then [off] else []
    | c :: s =>
      if found then off :: matches_from p s (off + len_utf8 c) (length p - 1) else matches_from p s (off + len_utf8 c) 0
    end
  end.
Definition match_indices s p : list nat := matches_from p s 0 0.
(** [str::split] and [splitn]: the pieces between the matches, of which at most [limit] are used; [cur] is the piece at hand. *)
Fixpoint split_from (limit : option nat) p s (skip : nat) (cur : str) : list str :=
  match limit with
  | Some 0 => [cur ++ drop skip s]
  | _ =>
    match skip with
    | S skip => match s with [] => [cur] | _ :: s => split_from limit p s skip cur end
    | O =>
      let found := str_starts_with s p in
      let less := match limit with Some n => Some (n - 1) | None => None end in
      match s with
      | [] => if found then [cur; []] else [cur]
      | c :: s =>
        if found then
          cur :: match p with [] => split_from less p s 0 [c] | _ :: p' => split_from less p s (length p') [] end
        else split_from limit p s 0 (cur ++ [c])
      end
    end
  end.
Definition str_split s p : list str := split_from None p s 0 [].
Definition str_splitn (n : nat) s p : list str := match n with O => [] | S n => split_from (Some n) p s 0 [] end.
(** [rsplit] and [rsplitn]: the same from the right. *)
Definition str_rsplit s p : list str := map reverse (str_split (reverse s) (reverse p)).
Definition str_rsplitn (n : nat) s p : list str := map reverse (str_splitn n (reverse s) (reverse p)).
(** [trim_start_matches] and the like. *)
Fixpoint trim_start_matches (f : char → bool) s : str :=
  match s with c :: s' => if f c then trim_start_matches f s' else s | [] => [] end.
Definition trim_end_matches (f : char → bool) s : str := reverse (trim_start_matches f (reverse s)).
Definition trim_matches (f : char → bool) s : str := trim_end_matches f (trim_start_matches f s).
(** [split] at characters, and [split_whitespace]. *)
Fixpoint split_char (f : char → bool) s (cur : str) : list str :=
  match s with [] => [cur] | c :: s => if f c then cur :: split_char f s [] else split_char f s (cur ++ [c]) end.
Definition split_whitespace s : list str := filter (λ w, w ≠ []) (split_char is_whitespace s []).

(** [str::get(a..b)]: nothing when a position is not between characters; [get_unchecked]. *)
Definition str_get s (a b : nat) : option str := match str_slice s a b with Ok t => Some t | _ => None end.
Definition str_get_unchecked s (a b : nat) : comp str := match str_get s a b with Some t => Ok t | None => UB end.
(** [str::replacen]. *)
Fixpoint replace_at s (new : str) (old_len last_end : nat) (matches : list nat) (result : str) : comp str :=
  match matches with
  | [] => rest ← str_get_unchecked s last_end (str_len s); Ok (result ++ rest)
  | start :: matches =>
    part ← str_get_unchecked s last_end start;
    replace_at s new old_len (start + old_len) matches (result ++ part ++ new)
  end.
Definition replacen s (old new : str) (count : nat) : comp str :=
  replace_at s new (str_len old) 0 (take count (match_indices s old)) [].

(** The character that bytes begin with, and the rest. *)
Definition decode_next (s : list byte) : option (char * list byte) :=
  match s with
  | [] => None
  | b :: r =>
    if (b <? 0x80)%Z then Some (b, r) else
    match r with
    | [] => None
    | x :: r =>
      if (b <? 0xE0)%Z then Some ((b - 0xC0) * 64 + (x - 0x80), r)%Z else
      match r with
      | [] => None
      | y :: r =>
        if (b <? 0xF0)%Z then Some ((b - 0xE0) * 4096 + (x - 0x80) * 64 + (y - 0x80), r)%Z else
        match r with
        | [] => None
        | z :: r => Some ((b - 0xF0) * 262144 + (x - 0x80) * 4096 + (y - 0x80) * 64 + (z - 0x80), r)%Z
        end
      end
    end
  end.
Fixpoint decode (fuel : nat) (s : list byte) : option str :=
  match fuel, s with
  | _, [] => Some []
  | O, _ => None
  | S fuel, _ =>
    '(c, r) ← decode_next s;
    if is_scalar c && bool_decide (encode_utf8 c ++ r = s) then cons c <$> decode fuel r else None
  end.
(** [str::from_utf8_unchecked]: bytes that are no text may not be used. *)
Definition from_utf8_unchecked (s : list byte) : comp str :=
  match decode (length s) s with Some t => Ok t | None => UB end.
(** [split] of bytes at a byte. *)
Fixpoint split_bytes (b : byte) (s cur : list byte) : list (list byte) :=
  match s with
  | [] => [cur]
  | x :: s => if (x =? b)%Z then cur :: split_bytes b s [] else split_bytes b s (cur ++ [x])
  end.

(** [str::to_lowercase], with the final form of sigma, and [str::to_uppercase]. *)
Context {U : Unicode}.
Definition case_ignorable_then_cased s : bool :=
  match trim_start_matches case_ignorable s with c :: _ => cased c | [] => false end.
Fixpoint lower_from (before s : str) : str :=
  match s with
  | [] => []
  | c :: s =>
    (if (c =? 0x3A3)%Z then
       if case_ignorable_then_cased before && negb (case_ignorable_then_cased s) then [0x3C2%Z] else [0x3C3%Z]
     else to_lowercase c) ++ lower_from (c :: before) s
  end.
Definition str_to_lowercase s : str := lower_from [] s.
Definition str_to_uppercase s : str := concat (map to_uppercase s).
End std.

(** * The code *)

Inductive MethodError :=
| SubstringNotFound (needle this : str)
| EmptySeparator
| NegativeCount (count : Z)
| NotAString
| NegativeCodepoint (i : Z)
| InvalidCodepoint (i : Z)
| NotSingleCharacter (s : str).
Abbreviation method A := (result MethodError A).

(** The loops of [splitn_whitespace]: [v] and [cur] so far. *)
Definition is_nil {A} (l : list A) : bool := match l with [] => true | _ => false end.
Fixpoint splitn_whitespace_loop (maxsplit : nat) (s : str) (v : list str) (cur : str) (split : nat) (eat_ws : bool) : list str :=
  match s with
  | [] => if is_nil cur then v else v ++ [cur]
  | c :: s =>
    if (maxsplit <=? split) && negb eat_ws then splitn_whitespace_loop maxsplit s v (cur ++ [c]) split eat_ws
    else if is_whitespace c then
      if negb (is_nil cur) then splitn_whitespace_loop maxsplit s (v ++ [cur]) [] (split + 1) true
      else splitn_whitespace_loop maxsplit s v cur split eat_ws
    else splitn_whitespace_loop maxsplit s v (cur ++ [c]) split false
  end.
Definition splitn_whitespace (s : str) (maxsplit : nat) : list str := splitn_whitespace_loop maxsplit s [] [] 1 true.
Fixpoint rsplitn_whitespace_loop (maxsplit : nat) (s : str) (v : list str) (cur : str) (split : nat) (eat_ws : bool) : list str :=
  match s with
  | [] => if is_nil cur then v else v ++ [reverse cur]
  | c :: s =>
    if (maxsplit <=? split) && negb eat_ws then rsplitn_whitespace_loop maxsplit s v (cur ++ [c]) split eat_ws
    else if is_whitespace c then
      if negb (is_nil cur) then rsplitn_whitespace_loop maxsplit s (v ++ [reverse cur]) [] (split + 1) true
      else rsplitn_whitespace_loop maxsplit s v cur split eat_ws
    else rsplitn_whitespace_loop maxsplit s v (cur ++ [c]) split false
  end.
Definition rsplitn_whitespace (s : str) (maxsplit : nat) : list str :=
  reverse (rsplitn_whitespace_loop maxsplit (reverse s) [] [] 1 true).

(** [count_matches] of [fast_string.rs]. *)
Definition count_matches (x needle : str) : comp nat :=
  if str_len needle =? 1 then b ← unwrap (bytes needle !! 0); Ok (count_matches_byte (bytes x) b)
  else Ok (length (match_indices x needle)).

Inductive StringOrTuple := OneString (x : str) | TupleOfStrings (xs : list str).

Section methods.
Context {U : Unicode} (align_offset : list byte → nat).
Implicit Types (this needle sep : str).

(** [iterate_chars] and [iterate_codepoints]: the items. *)
Definition elems this : list str := map (λ c, [c]) this.
Definition codepoints this : list Z := this.

Fixpoint capitalize_loop (i : nat) this : str :=
  match this with
  | [] => []
  | c :: this => (if i =? 0 then to_uppercase c else to_lowercase c) ++ capitalize_loop (i + 1) this
  end.
Definition capitalize this : str := capitalize_loop 0 this.

(** [convert_str_indices], with the text of the bytes that it gives. *)
Definition str_indices this (start end_ : option Z) : method (option (nat * str)) :=
  o ← lift (convert_str_indices align_offset (bytes this) start end_);
  match o with
  | None => Ok None
  | Some i => h ← lift (from_utf8_unchecked (haystack i)); Ok (Some (si_start i, h))
  end.
Definition count this needle (start end_ : option Z) : method Z :=
  o ← str_indices this start end_;
  match o with
  | Some (_, haystack) => n ← lift (count_matches haystack needle); Ok (as_i32 (Z.of_nat n))
  | None => Ok 0%Z
  end.
Definition endswith this (suffix : StringOrTuple) : bool :=
  match suffix with OneString x => str_ends_with this x | TupleOfStrings xs => existsb (str_ends_with this) xs end.
(** The position in characters of a match at a position in bytes. *)
Definition char_position (start : nat) (haystack : str) (index : nat) : method Z :=
  before ← lift (str_upto haystack index);
  index ← lift (len align_offset (bytes before));
  Ok (as_i32 (Z.of_nat (start + index))).
(** [find] and [rfind], [index] and [rindex]: [search] is [str::find] or [str::rfind]. *)
Definition find_by (search : str → str → option nat) this needle (start end_ : option Z) (none : method Z) : method Z :=
  o ← str_indices this start end_;
  match o with
  | Some (start, haystack) =>
    match search haystack needle with Some index => char_position start haystack index | None => none end
  | None => none
  end.
Definition find this needle start end_ : method Z := find_by str_find this needle start end_ (Ok (-1)%Z).
Definition index this needle start end_ : method Z := find_by str_find this needle start end_ (Err (SubstringNotFound needle this)).
Definition rfind this needle start end_ : method Z := find_by str_rfind this needle start end_ (Ok (-1)%Z).
Definition rindex this needle start end_ : method Z := find_by str_rfind this needle start end_ (Err (SubstringNotFound needle this)).

(** [isalnum], [isalpha], [isdigit] and [isspace]. *)
Definition is_all (f : char → bool) this : bool := if is_nil this then false else forallb f this.
Definition isalnum this : bool := is_all (λ c, is_alphabetic c || is_numeric c) this.
Definition isalpha this : bool := is_all is_alphabetic this.
Definition isdigit this : bool := is_all is_numeric this.
Definition isspace this : bool := is_all is_whitespace this.
Fixpoint is_case (bad good : char → bool) this (result : bool) : bool :=
  match this with
  | [] => result
  | c :: this => if bad c then false else is_case bad good this (if good c then true else result)
  end.
Definition islower this : bool := is_case is_uppercase is_lowercase this false.
Definition isupper this : bool := is_case is_lowercase is_uppercase this false.
Fixpoint istitle_loop this (last_space result : bool) : bool :=
  match this with
  | [] => result
  | c :: this =>
    if negb (is_alphabetic c) then istitle_loop this true result
    else if (if last_space then is_lowercase c else is_uppercase c) then false
    else istitle_loop this false (if is_alphabetic c then true else result)
  end.
Definition istitle this : bool := istitle_loop this true false.
Definition lower this : str := str_to_lowercase this.
Definition upper this : str := str_to_uppercase this.
Fixpoint title_loop this (last_space : bool) : str :=
  match this with
  | [] => []
  | c :: this =>
    if negb (is_alphabetic c) then to_lowercase c ++ title_loop this true
    else (if last_space then to_uppercase c else to_lowercase c) ++ title_loop this false
  end.
Definition title this : str := title_loop this true.

(** [join]: the items are strings or other values. *)
Definition as_str (x : option str) : method str := ok_or x NotAString.
Fixpoint join_loop this (it : list (option str)) (r : str) : method str :=
  match it with
  | [] => Ok r
  | x :: it => s ← as_str x; join_loop this it (r ++ this ++ s)
  end.
Definition join this (to_join : list (option str)) : method str :=
  match to_join with
  | [] => Ok []
  | [x1] => as_str x1
  | x1 :: x2 :: it => s1 ← as_str x1; s2 ← as_str x2; join_loop this it (s1 ++ this ++ s2)
  end.

(** [str.contains(c)] of the characters to strip. *)
Definition strip_set (chars : option str) (c : char) : bool :=
  match chars with None => is_whitespace c | Some s => existsb (Z.eqb c) s end.
Definition lstrip this (chars : option str) : str := trim_start_matches (strip_set chars) this.
Definition rstrip this (chars : option str) : str := trim_end_matches (strip_set chars) this.
Definition strip this (chars : option str) : str := trim_matches (strip_set chars) this.

Definition partition this needle : method (str * str * str) :=
  if is_nil needle then Err EmptySeparator else
  match str_find this needle with
  | Some offset =>
    let offset2 := offset + str_len needle in
    before ← unwrap (str_get this 0 offset);
    after ← unwrap (str_get this offset2 (str_len this));
    Ok (before, needle, after)
  | None => Ok (this, [], [])
  end.
Definition rpartition this needle : method (str * str * str) :=
  if is_nil needle then Err EmptySeparator else
  match str_rfind this needle with
  | Some offset =>
    let offset2 := offset + str_len needle in
    before ← unwrap (str_get this 0 offset);
    after ← unwrap (str_get this offset2 (str_len this));
    Ok (before, needle, after)
  | None => Ok ([], [], this)
  end.

(** The loop of [replace]: the result so far, and where the last match ended. *)
Fixpoint replace_loop (x new : str) (old_len : nat) (matches : list nat) (result : str) (last_end : nat) : comp (str * nat) :=
  match matches with
  | [] => Ok (result, last_end)
  | start :: matches =>
    part ← str_get_unchecked x last_end start;
    replace_loop x new old_len matches (result ++ part ++ new) (start + old_len)
  end.
Definition replace this (old new : str) (count : option Z) : method str :=
  match count with
  | Some count =>
    if (0 <=? count)%Z then lift (replacen this old new (Z.to_nat count)) else Err (NegativeCount count)
  | None =>
    '(result, last_end) ← lift (replace_loop this new (str_len old) (match_indices this old) [] 0);
    if is_nil result && (last_end =? 0) then Ok this
    else rest ← lift (str_get_unchecked this last_end (str_len this)); Ok (result ++ rest)
  end.

(** How many pieces, with a checked addition on [i32]. *)
Definition split_limit (maxsplit : option Z) : method (option nat) :=
  match maxsplit with
  | None => Ok None
  | Some v => if (v <? 0)%Z then Ok None else n ← i32_op (v + 1); Ok (Some (Z.to_nat n))
  end.
Definition rsplit this (sep : option str) (maxsplit : option Z) : method (list str) :=
  maxsplit ← split_limit maxsplit;
  Ok match sep with
     | None => match maxsplit with None => split_whitespace this | Some maxsplit => rsplitn_whitespace this maxsplit end
     | Some sep =>
       reverse match maxsplit with None => str_rsplit this sep | Some maxsplit => str_rsplitn maxsplit this sep end
     end.
(** The fast path for a separator of one byte. *)
Definition split_one_byte this (b : byte) : comp (list str) :=
  let count := count_matches_byte (bytes this) b in
  res ← mapM from_utf8_unchecked (split_bytes b (bytes this) []);
  _ ← assert (length res =? count + 1);
  Ok res.
Definition split this (sep : option str) (maxsplit : option Z) : method (list str) :=
  maxsplit ← split_limit maxsplit;
  match sep, maxsplit with
  | None, None => Ok (split_whitespace this)
  | None, Some maxsplit => Ok (splitn_whitespace this maxsplit)
  | Some sep, None =>
    if str_len sep =? 1 then b ← unwrap (bytes sep !! 0); lift (split_one_byte this b) else Ok (str_split this sep)
  | Some sep, Some maxsplit => Ok (str_splitn maxsplit this sep)
  end.

(** The loop of [splitlines]; every round takes a character at least. *)
Definition is_line_end (c : char) : bool := ((c =? 0xA) || (c =? 0xD))%Z.
Fixpoint splitlines_loop (fuel : nat) (keepends : bool) (s : str) (lines : list str) : method (list str) :=
  match fuel with
  | O => Panic
  | S fuel =>
    match find_char is_line_end s with
    | Some y =>
      let x := if bool_decide (str_get s y (y + 2) = Some [0xD; 0xA]%Z) then y + 2 else y + 1 in
      line ← unwrap (str_get s 0 (if keepends then x else y));
      if x =? str_len s then Ok (lines ++ [line]) else
      s ← unwrap (str_get s x (str_len s));
      splitlines_loop fuel keepends s (lines ++ [line])
    | None => Ok (if is_nil s then lines else lines ++ [s])
    end
  end.
Definition splitlines this (keepends : bool) : method (list str) := splitlines_loop (S (length this)) keepends this [].

Definition startswith this (prefix : StringOrTuple) : bool :=
  match prefix with OneString x => str_starts_with this x | TupleOfStrings xs => existsb (str_starts_with this) xs end.
Definition removeprefix this (prefix : str) : method str :=
  if str_starts_with this prefix && negb (is_nil prefix) then lift (str_from this (str_len prefix)) else Ok this.
Definition removesuffix this (suffix : str) : method str :=
  if str_ends_with this suffix && negb (is_nil suffix) then
    n ← lift (if str_len suffix <=? str_len this then Ok (str_len this - str_len suffix) else Panic); lift (str_upto this n)
  else Ok this.

(** [globals.rs]. *)
Definition chr (i : Z) : method char :=
  if (i <? 0)%Z then Err (NegativeCodepoint i) else ok_or (char_from_u32 i) (InvalidCodepoint i).
Definition ord (a : str) : method Z := match a with [c] => Ok (as_i32 c) | _ => Err (NotSingleCharacter a) end.
End methods.
