(* ===== verification/StrMethodsOk.v ===== *)
(** The methods of strings do what they say on characters, though they search and cut bytes: searching within bounds,
    splitting and joining, replacing, lines and words.  None of them panics or cuts within a character. *)

From S2P Require Import Prelude Ints Index FastString Utf8 StrMethods.

Implicit Types (s p sep this needle cur : str) (c : char).

(** * Characters and bytes *)

Lemma decode_next_encode c r : is_scalar c = true → decode_next (encode_utf8 c ++ r) = Some (c, r).
Proof.
  intros Hc%is_scalar_spec. unfold encode_utf8.
  destruct (Z.ltb_spec c 0x80); [|destruct (Z.ltb_spec c 0x800); [|destruct (Z.ltb_spec c 0x10000)]]; cbn [app decode_next].
  - by rewrite (proj2 (Z.ltb_lt _ _)) by lia.
  - assert (2 ≤ c / 64 < 32)%Z by (Z.to_euclidean_division_equations; lia).
    rewrite (proj2 (Z.ltb_ge _ _)), (proj2 (Z.ltb_lt _ _)) by lia. do 2 f_equal. Z.to_euclidean_division_equations; lia.
  - assert (0 ≤ c / 4096 < 16)%Z by (Z.to_euclidean_division_equations; lia).
    rewrite !(proj2 (Z.ltb_ge _ _)), (proj2 (Z.ltb_lt _ _)) by lia. do 2 f_equal. Z.to_euclidean_division_equations; lia.
  - assert (0 ≤ c / 262144 < 8)%Z by (Z.to_euclidean_division_equations; lia).
    rewrite !(proj2 (Z.ltb_ge _ _)) by lia. do 2 f_equal. Z.to_euclidean_division_equations; lia.
Qed.
Lemma decode_bytes s n : valid_str s → str_len s ≤ n → decode n (bytes s) = Some s.
Proof.
  intros Hs. revert n. induction Hs as [|c s Hc Hs IH]; intros n Hn; [by destruct n|].
  rewrite str_len_cons in Hn. pose proof (len_utf8_pos c). destruct n as [|n]; [lia|]. rewrite bytes_cons. simpl.
  destruct (encode_utf8 c ++ bytes s) as [|b r] eqn:Hb; [by destruct (encode_utf8 c) eqn:He; unfold len_utf8 in *; rewrite ?He in *; simpl in *; [lia|]|].
  rewrite <- Hb, decode_next_encode by done. simpl. rewrite Hc, bool_decide_eq_true_2 by done. simpl. by rewrite IH by lia.
Qed.
Lemma from_utf8_bytes s : valid_str s → from_utf8_unchecked (bytes s) = Ok s.
Proof. intros Hs. unfold from_utf8_unchecked. by rewrite decode_bytes. Qed.
Lemma bytes_is_str s : valid_str s → is_str (bytes s) (encode_utf8 <$> s).
Proof. intros Hs. split; [|done]. apply Forall_fmap. eapply Forall_impl; [exact Hs|]. intros c. apply encode_is_char. Qed.
Lemma str_len_zero s : str_len s = 0 → s = [].
Proof. destruct s as [|c s]; [done|]. rewrite str_len_cons. pose proof (len_utf8_pos c). lia. Qed.
Lemma get_app s t u a b : a = str_len s → b = str_len s + str_len t → str_get (s ++ t ++ u) a b = Some t.
Proof. intros Ha Hb. unfold str_get. by rewrite (str_slice_app s t u). Qed.
Lemma get_unchecked_app s t u a b : a = str_len s → b = str_len s + str_len t → str_get_unchecked (s ++ t ++ u) a b = Ok t.
Proof. intros Ha Hb. unfold str_get_unchecked. by rewrite (get_app s t u). Qed.

(** * Splitting and joining *)

(** The pieces with the separator between them. *)
Fixpoint joined sep (ps : list str) : str :=
  match ps with [] => [] | [p] => p | p :: ps => p ++ sep ++ joined sep ps end.
Definition occurs_at p s (i : nat) : Prop := ∃ a b, s = a ++ p ++ b ∧ length a = i.
(** What splitting means: the text is cut at the first occurrence of the separator, and then the rest is, at most [limit]
    times. *)
Inductive cuts sep : option nat → str → list str → Prop :=
| cuts_stop s : cuts sep (Some 0) s [s]
| cuts_last limit s : (∀ i, ¬ occurs_at sep s i) → cuts sep limit s [s]
| cuts_first limit a b ps :
    limit ≠ Some 0 → (∀ i, occurs_at sep (a ++ sep ++ b) i → length a ≤ i) → cuts sep (pred <$> limit) b ps →
    cuts sep limit (a ++ sep ++ b) (a :: ps).

Lemma joined_cons sep a ps : ps ≠ [] → joined sep (a :: ps) = a ++ sep ++ joined sep ps.
Proof. by destruct ps. Qed.
Lemma cuts_cons sep limit s ps : cuts sep limit s ps → ps ≠ [].
Proof. by destruct 1. Qed.
Lemma cuts_joined sep limit s ps : cuts sep limit s ps → joined sep ps = s.
Proof.
  induction 1 as [| |limit a b ps ? ? Hps IH]; [done|done|]. rewrite joined_cons by (by eapply cuts_cons). by rewrite IH.
Qed.
Lemma cuts_length sep k s ps : cuts sep (Some k) s ps → length ps ≤ k + 1.
Proof.
  intros Hc. remember (Some k) as limit eqn:Hl. revert k Hl.
  induction Hc as [| |limit a b ps Hn ? Hps IH]; intros k Hl; simpl; [lia|lia|].
  destruct k; [by rewrite Hl in Hn|]. rewrite Hl in IH. specialize (IH k eq_refl). lia.
Qed.
(** No piece holds the separator, if the limit is not reached. *)
Lemma cuts_free sep limit s ps : sep ≠ [] →
  cuts sep limit s ps → match limit with Some k => length ps ≤ k | None => True end → Forall (λ t, ∀ i, ¬ occurs_at sep t i) ps.
Proof.
  intros Hsep. induction 1 as [s|limit s Hs|limit a b ps Hn Ha Hps IH]; simpl; intros Hl; [lia|by repeat constructor|].
  constructor; [|apply IH; destruct limit as [[|k]|]; simpl in *; [done|lia|done]].
  intros i (x & y & -> & <-). destruct sep as [|c sep]; [done|].
  assert (length (x ++ (c :: sep) ++ y) ≤ length x) as Hx; [|rewrite !length_app in Hx; simpl in Hx; lia].
  apply Ha. exists x, (y ++ (c :: sep) ++ b). by rewrite <- !app_assoc.
Qed.
Lemma join_loop_joined sep ps r : ps ≠ [] → join_loop sep (map Some ps) r = Ok (r ++ sep ++ joined sep ps).
Proof.
  revert r. induction ps as [|t ps IH]; [done|]. intros r _. cbn [map join_loop as_str ok_or mbind result_bind].
  destruct ps as [|u ps]; [done|]. rewrite IH by done. by rewrite <- !app_assoc.
Qed.
Lemma join_joined sep ps : join sep (map Some ps) = Ok (joined sep ps).
Proof.
  destruct ps as [|t [|u ps]]; [done..|]. destruct ps as [|v ps]; [done|].
  cbn [map join as_str ok_or mbind result_bind].
  change (Some v :: map Some ps) with (map Some (v :: ps)). rewrite join_loop_joined by done. by rewrite <- !app_assoc.
Qed.
Lemma joined_forall (P : char → Prop) sep ps : Forall P (joined sep ps) → Forall (Forall P) ps.
Proof.
  induction ps as [|t ps IH]; [done|]. destruct ps as [|u ps]; [by repeat constructor|].
  rewrite joined_cons by done. rewrite !Forall_app. intros (? & ? & ?). by constructor; [|apply IH].
Qed.

(** [split_from] does this. *)
Lemma split_from_skip limit sep s skip :
  skip ≤ length s → split_from limit sep s skip [] = split_from limit sep (drop skip s) 0 [].
Proof.
  revert skip. induction s as [|c s IH]; intros [|skip] Hs; simpl in Hs; [done|lia|done|].
  cbn [drop]. rewrite <- (IH skip) by lia. destruct limit as [[|k]|]; simpl; [|done..]. by destruct s, skip.
Qed.
Lemma starts_occurs s p : str_starts_with s p = true ↔ occurs_at p s 0.
Proof.
  rewrite starts_with_spec. split; [intros [t ->]; by exists [], t|]. intros (a & b & -> & Ha). by destruct a; [exists b|].
Qed.
Lemma occurs_app a s p i : length a ≤ i → occurs_at p (a ++ s) i → occurs_at p s (i - length a).
Proof.
  intros Hi (x & y & He & <-). assert (x = a ++ drop (length a) x) as Hx.
  { apply (f_equal (take (length a))) in He. rewrite take_app_length, take_app_le in He by done.
    rewrite He at 1. by rewrite take_drop. }
  exists (drop (length a) x), y. split; [|by rewrite length_drop].
  rewrite Hx in He at 1. rewrite <- app_assoc in He. by apply (inj (app a)) in He.
Qed.
Lemma split_from_cuts sep limit s cur : sep ≠ [] → (∀ i, occurs_at sep (cur ++ s) i → length cur ≤ i) →
  cuts sep limit (cur ++ s) (split_from limit sep s 0 cur).
Proof.
  intros Hsep. revert limit cur. induction s as [s IH] using (induction_ltof1 _ (@length Z)); unfold ltof in IH.
  intros limit cur Hcur. destruct (decide (limit = Some 0)) as [->|Hlim]; [destruct s; simpl; rewrite ?app_nil_r; constructor|].
  destruct (str_starts_with s sep) eqn:Hs.
  - apply starts_with_spec in Hs as [t ->].
    assert (split_from limit sep (sep ++ t) 0 cur = cur :: split_from (pred <$> limit) sep t 0 []) as ->.
    { destruct sep as [|c sep]; [done|]. simpl. rewrite (proj2 (starts_with_spec _ _)) by (by exists t).
      destruct limit as [[|k]|]; [done| |]; f_equal; rewrite split_from_skip by (rewrite length_app; lia);
        rewrite drop_app_length; simpl; by rewrite ?Nat.sub_0_r. }
    constructor; [done| |]; [exact Hcur|]. apply (IH t) with (cur := []); [|intros; simpl; lia].
    rewrite length_app. destruct sep; [done|simpl; lia].
  - assert (∀ i, occurs_at sep (cur ++ s) i → S (length cur) ≤ i) as Hnext.
    { intros i Hi. specialize (Hcur i Hi). destruct (decide (i = length cur)) as [->|]; [|lia].
      apply occurs_app in Hi; [|done]. rewrite Nat.sub_diag in Hi. apply starts_occurs in Hi. congruence. }
    destruct s as [|c s].
    + assert (split_from limit sep [] 0 cur = [cur]) as -> by (simpl; rewrite Hs; by destruct limit as [[|k]|]).
      rewrite app_nil_r in *. apply cuts_last. intros i Hi. specialize (Hnext i Hi). destruct Hi as (x & y & -> & <-).
      rewrite length_app in Hnext. lia.
    + assert (split_from limit sep (c :: s) 0 cur = split_from limit sep s 0 (cur ++ [c])) as ->
        by (simpl; rewrite Hs; by destruct limit as [[|k]|]).
      rewrite (cons_middle c cur s), (app_assoc cur [c] s) in *. apply IH; [simpl; lia|].
      intros i Hi. rewrite length_app. simpl. specialize (Hnext i Hi). lia.
Qed.
Lemma split_from_ne limit sep s skip cur : split_from limit sep s skip cur ≠ [].
Proof.
  revert skip limit cur.
  induction s as [|c s IH]; intros [|skip] [[|k]|] cur; simpl; try done; repeat case_match; try done; apply IH.
Qed.
(** The empty separator also gives pieces that join to the text. *)
Lemma split_from_joined sep limit s skip cur : skip ≤ length s →
  joined sep (split_from limit sep s skip cur) = cur ++ drop skip s.
Proof.
  revert skip limit cur. induction s as [|c s IH]; intros skip limit cur Hskip.
  - destruct skip; [|simpl in Hskip; lia]. destruct limit as [[|k]|]; [done| |]; simpl;
      (destruct (str_starts_with [] sep) eqn:Hs; [|by rewrite app_nil_r]);
      apply starts_with_spec in Hs as [t Ht]; by destruct sep.
  - destruct limit as [[|k]|]; [done| |];
      (destruct skip as [|skip]; [|simpl in Hskip |- *; apply IH; lia]); simpl;
      (destruct (str_starts_with (c :: s) sep) eqn:Hs; [|rewrite IH by lia; by rewrite <- app_assoc]);
      apply starts_with_spec in Hs as [t Ht]; (destruct sep as [|c' sep]; rewrite joined_cons by apply split_from_ne;
        [rewrite IH by lia; simpl; by rewrite drop_0|]);
      injection Ht as -> ->; rewrite IH by (rewrite length_app; lia); simpl; by rewrite drop_app_length.
Qed.

(** The fast path for a separator of one byte. *)
Lemma one_byte sep : str_len sep = 1 → ∃ c, sep = [c] ∧ (c < 0x80)%Z.
Proof.
  destruct sep as [|c [|d sep]]; [done| |].
  - intros Hl. exists c. split; [done|]. unfold str_len in Hl. rewrite bytes_cons in Hl.
    unfold encode_utf8 in Hl. destruct (Z.ltb_spec c 0x80); [done|]. repeat case_match; done.
  - rewrite !str_len_cons. pose proof (len_utf8_pos c). pose proof (len_utf8_pos d). lia.
Qed.
Lemma split_bytes_skip b l r cur : Forall (λ x, x ≠ b) l → split_bytes b (l ++ r) cur = split_bytes b r (cur ++ l).
Proof.
  revert cur. induction l as [|x l IH]; intros cur Hl; [by rewrite app_nil_r|].
  apply Forall_cons in Hl as [Hx Hl]. simpl. rewrite (proj2 (Z.eqb_neq _ _) Hx), IH by done. by rewrite <- app_assoc.
Qed.
Lemma split_bytes_split c s cur : (c < 0x80)%Z →
  split_bytes c (bytes s) (bytes cur) = map bytes (split_from None [c] s 0 cur).
Proof.
  intros Hc. revert cur. induction s as [|d s IH]; intros cur; [done|]. rewrite bytes_cons.
  assert (str_starts_with (d :: s) [c] = (d =? c)%Z) as Hd.
  { unfold str_starts_with. simpl. rewrite take_0. destruct (Z.eqb_spec d c) as [->|].
    - by apply bool_decide_eq_true_2.
    - apply bool_decide_eq_false_2. congruence. }
  cbn [split_from]. rewrite Hd. destruct (Z.eqb_spec d c) as [->|Hne].
  - rewrite encode_ascii by done. simpl. rewrite Z.eqb_refl. f_equal. apply (IH []).
  - rewrite split_bytes_skip.
    + rewrite <- IH. by rewrite bytes_app, (bytes_cons d []), app_nil_r.
    + by apply encode_avoids.
Qed.
Lemma split_bytes_count b s cur : length (split_bytes b s cur) = count_matches_byte s b + 1.
Proof.
  unfold count_matches_byte. revert cur. induction s as [|x s IH]; intros cur; [done|]. simpl.
  rewrite filter_cons. by destruct (Z.eqb_spec x b), (decide (x = b)); [simpl; rewrite IH| | |rewrite IH].
Qed.
Lemma mapM_from_utf8 ps : Forall valid_str ps → mapM from_utf8_unchecked (map bytes ps) = Ok ps.
Proof.
  induction 1 as [|t ps Ht Hps IH]; [done|]. cbn [map mapM]. rewrite from_utf8_bytes by done. cbn [mbind result_bind].
  by rewrite IH.
Qed.
Lemma split_one_byte_ok this c : valid_str this → (c < 0x80)%Z → split_one_byte this c = Ok (str_split this [c]).
Proof.
  intros Hthis Hc. unfold split_one_byte. change [] with (bytes []) at 1.
  rewrite split_bytes_split by done. rewrite mapM_from_utf8.
  - cbn [mbind result_bind]. rewrite <- (length_map bytes), <- split_bytes_split by done.
    by rewrite split_bytes_count, Nat.eqb_refl.
  - apply (joined_forall (λ c, is_scalar c = true) [c]). by rewrite split_from_joined by lia.
Qed.

(** Splitting from the right is splitting the reversed text. *)
Lemma joined_snoc sep ps t : ps ≠ [] → joined sep (ps ++ [t]) = joined sep ps ++ sep ++ t.
Proof.
  induction ps as [|u ps IH]; [done|]. intros _. destruct ps as [|v ps]; [done|].
  rewrite <- app_comm_cons, !joined_cons, IH by done. by rewrite <- !app_assoc.
Qed.
Lemma joined_reverse sep ps : joined sep (reverse (map reverse ps)) = reverse (joined (reverse sep) ps).
Proof.
  induction ps as [|t ps IH]; [done|]. cbn [map]. rewrite reverse_cons. destruct ps as [|u ps]; [done|].
  rewrite joined_snoc, joined_cons, IH by (try done; cbn [map]; rewrite reverse_cons; by destruct (reverse (map reverse ps))).
  by rewrite !reverse_app, reverse_involutive, <- app_assoc.
Qed.
Lemma occurs_reverse p s i : occurs_at p s i → ∃ j, occurs_at (reverse p) (reverse s) j.
Proof. intros (a & b & -> & _). exists (length (reverse b)), (reverse b), (reverse a). by rewrite !reverse_app, <- app_assoc. Qed.

(** At most [limit] cuts; without a limit no separator is left. *)
Definition split_max (maxsplit : option Z) : option nat :=
  match maxsplit with Some v => if (v <? 0)%Z then None else Some (Z.to_nat v) | None => None end.
Definition pieces sep (limit : option nat) this (ps : list str) : Prop :=
  join sep (map Some ps) = Ok this ∧
  match limit with Some k => length ps ≤ k + 1 | None => Forall (λ t, ∀ i, ¬ occurs_at sep t i) ps end.

Lemma cuts_pieces sep limit s ps : sep ≠ [] → cuts sep limit s ps → pieces sep limit s ps.
Proof.
  intros Hsep Hc. split; [rewrite join_joined; f_equal; by eapply cuts_joined|].
  destruct limit as [k|]; [by eapply cuts_length|by eapply cuts_free].
Qed.
Lemma pieces_reverse sep limit s ps :
  pieces (reverse sep) limit (reverse s) ps → pieces sep limit s (reverse (map reverse ps)).
Proof.
  intros [Hj Hl]. rewrite join_joined in Hj. injection Hj as Hj. split.
  - by rewrite join_joined, joined_reverse, Hj, reverse_involutive.
  - destruct limit as [k|]; [by rewrite length_reverse, length_map|]. apply Forall_reverse. change (map reverse ps) with (reverse <$> ps).
    apply Forall_fmap. eapply Forall_impl; [exact Hl|]. intros t Ht i Hi. apply occurs_reverse in Hi as [j Hj'].
    rewrite reverse_involutive in Hj'. by apply (Ht j).
Qed.
Definition max_ok (maxsplit : option Z) : Prop := match maxsplit with Some v => (v < i32_max)%Z | None => True end.
Lemma split_limit_ok maxsplit : max_ok maxsplit → split_limit maxsplit = Ok (S <$> split_max maxsplit).
Proof.
  destruct maxsplit as [v|]; [|done]. unfold max_ok, split_limit, split_max. intros Hv. destruct (Z.ltb_spec v 0); [done|].
  rewrite i32_op_Ok by (unfold i32_min, i32_max in *; lia). cbn [mbind result_bind]. by rewrite Z2Nat.inj_add, Nat.add_comm by lia.
Qed.
Lemma split_ok this sep maxsplit : valid_str this → max_ok maxsplit →
  split this (Some sep) maxsplit = Ok (split_from (split_max maxsplit) sep this 0 []).
Proof.
  intros Hthis Hm. unfold split. rewrite split_limit_ok by done. cbn [mbind result_bind].
  destruct (split_max maxsplit) as [k|]; [done|]. cbn. destruct (Nat.eqb_spec (str_len sep) 1) as [Hs|]; [|done].
  apply one_byte in Hs as (c & -> & Hc). rewrite bytes_cons, encode_ascii by done. cbn. by rewrite split_one_byte_ok.
Qed.

(** * Replacing *)

Definition at_most {A} (limit : option nat) (l : list A) : list A := match limit with Some k => take k l | None => l end.
Lemma matches_from_skip p s off skip : skip ≤ length s →
  matches_from p s off skip = matches_from p (drop skip s) (off + str_len (take skip s)) 0.
Proof.
  revert off skip. induction s as [|c s IH]; intros off [|skip] Hs; simpl in Hs; [by rewrite Nat.add_0_r|lia|by rewrite Nat.add_0_r|].
  cbn [matches_from drop firstn]. rewrite IH by lia. by rewrite str_len_cons, Nat.add_assoc.
Qed.
Lemma at_most_cons {A} limit (x : A) l : limit ≠ Some 0 → at_most limit (x :: l) = x :: at_most (pred <$> limit) l.
Proof. by destruct limit as [[|k]|]. Qed.
(** One match of [split_from] and of [matches_from]: the piece [cur] ends, and the next starts with [next] and what
    follows the separator. *)
Lemma split_from_found limit sep s cur : limit ≠ Some 0 → str_starts_with s sep = true → s ≠ [] →
  ∃ next t, s = sep ++ next ++ t ∧ length t < length s ∧
    split_from limit sep s 0 cur = cur :: split_from (pred <$> limit) sep t 0 next ∧
    ∀ off, matches_from sep s off 0 = off :: matches_from sep t (off + str_len (sep ++ next)) 0.
Proof.
  intros Hl Hs Hne. pose proof Hs as [t ->]%starts_with_spec. destruct sep as [|c sep].
  - destruct t as [|c t]; [done|]. exists [c], t. split_and!; [done|simpl; lia| |].
    + destruct limit as [[|k]|]; [done| |done]; simpl; by rewrite Nat.sub_0_r.
    + intros off. simpl. by rewrite str_len_cons, Nat.add_0_r.
  - exists [], t. rewrite app_nil_r. split_and!; [done|rewrite length_app; simpl; lia| |].
    + cbn [app split_from]. cbn [app] in Hs. rewrite Hs. destruct limit as [[|k]|]; [done| |]; f_equal;
        rewrite split_from_skip by (rewrite length_app; lia); rewrite drop_app_length; simpl; by rewrite ?Nat.sub_0_r.
    + intros off. cbn [app matches_from]. cbn [app] in Hs. rewrite Hs. f_equal. cbn [length].
      rewrite Nat.sub_succ, Nat.sub_0_r, matches_from_skip by (rewrite length_app; lia).
      by rewrite drop_app_length, take_app_length, str_len_cons, Nat.add_assoc.
Qed.
Lemma replace_at_joined x p new limit s pre cur result : x = pre ++ cur ++ s →
  replace_at x new (str_len p) (str_len pre) (at_most limit (matches_from p s (str_len pre + str_len cur) 0)) result
  = Ok (result ++ joined new (split_from limit p s 0 cur)).
Proof.
  revert limit pre cur result. induction s as [s IH] using (induction_ltof1 _ (@length Z)); unfold ltof in IH.
  intros limit pre cur result Hx.
  assert (replace_at x new (str_len p) (str_len pre) [] result = Ok (result ++ cur ++ s)) as Hend.
  { cbn [replace_at]. assert (x = pre ++ (cur ++ s) ++ []) as -> by by rewrite app_nil_r.
    rewrite (get_unchecked_app pre (cur ++ s) []) by (rewrite ?app_nil_r, ?str_len_app; done). done. }
  destruct (decide (limit = Some 0)) as [->|Hl]; [by destruct s|].
  assert (∀ cur', x = pre ++ cur' ++ [] → str_starts_with [] p = true → 
    replace_at x new (str_len p) (str_len pre) [str_len pre + str_len cur'] result = Ok (result ++ cur' ++ new)) as Hlast.
  { intros cur' Hx' [t Ht]%starts_with_spec. destruct p; [|done]. cbn [replace_at].
    rewrite Hx', (get_unchecked_app pre cur' [] (str_len pre)) by done. cbn [mbind result_bind].
    rewrite <- (app_nil_r (pre ++ cur' ++ [])), (get_unchecked_app (pre ++ cur' ++ []) [] []).
    - cbn. by rewrite !app_nil_r.
    - rewrite app_nil_r, str_len_app. cbn. lia.
    - rewrite app_nil_r, str_len_app. cbn. lia. }
  destruct (str_starts_with s p) eqn:Hs.
  - destruct s as [|c s].
    + cbn [matches_from]. rewrite Hs, at_most_cons by done.
      assert (at_most (pred <$> limit) [] = @nil nat) as -> by (by destruct limit as [[|[]]|]). rewrite Hlast by done.
      simpl. rewrite Hs. destruct limit as [[|k]|]; [done| |]; simpl; by rewrite app_nil_r.
    + destruct (split_from_found limit p (c :: s) cur) as (next & t & He & Ht & -> & Hm); [done..|].
      rewrite Hm, at_most_cons, joined_cons by (done || apply split_from_ne). cbn [replace_at]. rewrite Hx.
      rewrite (get_unchecked_app pre cur (c :: s) (str_len pre)) by done. cbn [mbind result_bind]. rewrite <- Hx.
      replace (str_len pre + str_len cur + str_len p) with (str_len (pre ++ cur ++ p)) by (rewrite !str_len_app; lia).
      replace (str_len pre + str_len cur + str_len (p ++ next)) with (str_len (pre ++ cur ++ p) + str_len next)
        by (rewrite !str_len_app; lia).
      rewrite IH by (done || by rewrite Hx, He, <- !app_assoc). by rewrite <- !app_assoc.
  - destruct s as [|c s].
    + simpl. rewrite Hs. rewrite app_nil_r in Hend. destruct limit as [[|k]|]; [done|exact Hend..].
    + assert (split_from limit p (c :: s) 0 cur = split_from limit p s 0 (cur ++ [c])) as ->
        by (cbn [split_from]; rewrite Hs; by destruct limit as [[|k]|]).
      cbn [matches_from]. rewrite Hs.
      replace (str_len pre + str_len cur + len_utf8 c) with (str_len pre + str_len (cur ++ [c]))
        by (rewrite str_len_app, str_len_cons; cbn; lia).
      apply IH; [simpl; lia|]. rewrite Hx. by rewrite <- app_assoc.
Qed.
Lemma replace_loop_at x new n ms result last_end :
  ('(r, e) ← replace_loop x new n ms result last_end; rest ← str_get_unchecked x e (str_len x); Ok (r ++ rest))
  = replace_at x new n last_end ms result.
Proof.
  revert result last_end. induction ms as [|m ms IH]; intros result last_end; [done|]. cbn [replace_loop replace_at].
  destruct (str_get_unchecked x last_end m); [apply IH|done..].
Qed.
Lemma get_whole x : str_get_unchecked x 0 (str_len x) = Ok x.
Proof. pose proof (get_unchecked_app [] x [] 0 (str_len x) eq_refl eq_refl) as H. by rewrite app_nil_r in H. Qed.
Lemma replacen_ok this old new k : replacen this old new k = Ok (joined new (split_from (Some k) old this 0 [])).
Proof. apply (replace_at_joined this old new (Some k) this [] []). done. Qed.
Lemma replace_all_ok this old new : replace this old new None = Ok (joined new (split_from None old this 0 [])).
Proof.
  pose proof (replace_at_joined this old new None this [] [] [] eq_refl) as H. cbn [at_most app] in H.
  rewrite <- replace_loop_at in H. cbn [replace]. change (str_len []) with 0 in H.
  change (matches_from old this (0 + 0) 0) with (match_indices this old) in H.
  destruct (replace_loop this new (str_len old) (match_indices this old) [] 0) as [[r e]| |]; try done.
  cbn [mbind result_bind lift] in *. destruct (is_nil r && (e =? 0)) eqn:He.
  - apply andb_prop in He as [He0 ->%Nat.eqb_eq]. destruct r; [|done]. rewrite get_whole in H. by injection H as <-.
  - destruct (str_get_unchecked this e (str_len this)); try done. by injection H as <-.
Qed.

(** * Lines *)

(** The lines of a text with their ends, character by character: [cur] is the line at hand. *)
Fixpoint lines_of (s cur : str) : list str :=
  match s with
  | [] => if is_nil cur then [] else [cur]
  | c :: s =>
    if is_line_end c && negb ((c =? 0xD)%Z && bool_decide (head s = Some 0xA%Z)) then (cur ++ [c]) :: lines_of s []
    else lines_of s (cur ++ [c])
  end.
(** A line without its end. *)
Definition chomp (l : str) : str := trim_end_matches is_line_end l.

Lemma lines_of_concat s cur : concat (lines_of s cur) = cur ++ s.
Proof.
  revert cur. induction s as [|c s IH]; intros cur; simpl; [destruct cur; simpl; by rewrite ?app_nil_r|].
  case_match; simpl; rewrite IH; by rewrite <- app_assoc.
Qed.
Lemma find_line s : match find_char is_line_end s with
  | Some y => ∃ a c t, s = a ++ c :: t ∧ Forall (λ x, is_line_end x = false) a ∧ is_line_end c = true ∧ y = str_len a
  | None => Forall (λ x, is_line_end x = false) s
  end.
Proof.
  induction s as [|c s IH]; [constructor|]. simpl. destruct (is_line_end c) eqn:Hc; [by exists [], c, s|].
  destruct (find_char is_line_end s) as [y|]; simpl; [|by constructor]. destruct IH as (a & d & t & -> & Ha & Hd & ->).
  exists (c :: a), d, t. split_and!; [done|by constructor|done|by rewrite str_len_cons].
Qed.
Lemma lines_of_plain a s cur : Forall (λ x, is_line_end x = false) a → lines_of (a ++ s) cur = lines_of s (cur ++ a).
Proof.
  intros Ha. revert cur. induction Ha as [|c a Hc Ha IH]; intros cur; [by rewrite app_nil_r|].
  simpl. rewrite Hc. simpl. rewrite IH. by rewrite <- app_assoc.
Qed.
Lemma trim_end_app f s t : Forall (λ c, f c = true) t → trim_end_matches f (s ++ t) = trim_end_matches f s.
Proof.
  intros Ht. unfold trim_end_matches. f_equal. rewrite reverse_app. apply Forall_reverse in Ht.
  induction Ht as [|c t' Hc Ht IH]; [done|]. simpl. by rewrite Hc.
Qed.
Lemma trim_end_none f s : Forall (λ c, f c = false) s → trim_end_matches f s = s.
Proof.
  intros Hs. unfold trim_end_matches. apply Forall_reverse in Hs. destruct (reverse s) as [|c r] eqn:Hr.
  - by rewrite <- (reverse_involutive s), Hr.
  - apply Forall_cons in Hs as [Hc _]. simpl. rewrite Hc, <- Hr. apply reverse_involutive.
Qed.
(** The text up to and with the first line end [e], and the rest. *)
Lemma lines_of_end a e r : Forall (λ x, is_line_end x = false) a →
  e = [0xD; 0xA]%Z ∨ (∃ c, e = [c] ∧ is_line_end c = true ∧ ¬ (c = 0xD ∧ head r = Some 0xA)%Z) →
  lines_of (a ++ e ++ r) [] = (a ++ e) :: lines_of r [].
Proof.
  intros Ha He. rewrite lines_of_plain by done. cbn [app].
  destruct He as [->|(c & -> & Hc & Hn)]; [simpl; by rewrite <- app_assoc|]. simpl. rewrite Hc. simpl.
  destruct (Z.eqb_spec c 0xD); [|done]. simpl. by rewrite bool_decide_eq_false_2 by tauto.
Qed.
Lemma crlf_get a c t : is_line_end c = true →
  str_get (a ++ c :: t) (str_len a) (str_len a + 2) = Some [0xD; 0xA]%Z ↔ c = 0xD%Z ∧ head t = Some 0xA%Z.
Proof.
  intros Hc. split.
  - unfold str_get, str_slice. rewrite (proj2 (Nat.leb_le _ _)) by lia. cbn [assert mbind result_bind].
    rewrite str_from_app. cbn [mbind result_bind]. replace (str_len a + 2 - str_len a) with 2 by lia.
    intros H. cbn [str_upto] in H. destruct (len_utf8 c <=? 2); [|done].
    destruct (2 - len_utf8 c) as [|n] eqn:Hn.
    + by destruct t.
    + destruct t as [|d t]; [done|]. cbn [str_upto] in H. destruct (len_utf8 d <=? S n); [|done].
      destruct (str_upto t (S n - len_utf8 d)); simpl in H; [|done..]; by injection H as -> -> _.
  - intros [-> Ht]. destruct t as [|d t]; [done|]. injection Ht as ->. by apply (get_app a [0xD; 0xA]%Z t).
Qed.
Lemma chomp_end a e : Forall (λ x, is_line_end x = false) a → Forall (λ x, is_line_end x = true) e → chomp (a ++ e) = a.
Proof. intros Ha He. unfold chomp. rewrite trim_end_app by done. by apply trim_end_none. Qed.
Definition line_end (e : str) : Prop := e = [0xA]%Z ∨ e = [0xD]%Z ∨ e = [0xD; 0xA]%Z.
Lemma line_end_all e : line_end e → Forall (λ x, is_line_end x = true) e.
Proof. intros [->|[->| ->]]; by repeat constructor. Qed.
(** What the loop finds in one round. *)
Lemma first_line s : match find_char is_line_end s with
  | Some y => ∃ a e r, s = a ++ e ++ r ∧ Forall (λ x, is_line_end x = false) a ∧ line_end e ∧ y = str_len a ∧
      (if bool_decide (str_get s y (y + 2) = Some [0xD; 0xA]%Z) then y + 2 else y + 1) = str_len (a ++ e) ∧
      lines_of s [] = (a ++ e) :: lines_of r []
  | None => Forall (λ x, is_line_end x = false) s
  end.
Proof.
  pose proof (find_line s) as Hl. destruct (find_char is_line_end s) as [y|]; [|done].
  destruct Hl as (a & c & t & -> & Ha & Hc & ->). case_bool_decide as Hg; rewrite crlf_get in Hg by done.
  - destruct Hg as [-> Ht]. destruct t as [|d t]; [done|]. injection Ht as ->. exists a, [0xD; 0xA]%Z, t.
    split_and!; [done|done|by right; right|done|by rewrite str_len_app|]. apply (lines_of_end a [0xD; 0xA]%Z t); [done|by left].
  - exists a, [c], t. assert (c = 0xA ∨ c = 0xD)%Z as Hc' by (unfold is_line_end in Hc; lia). split_and!; [done|done| |done| |].
    + unfold line_end. destruct Hc' as [->| ->]; tauto.
    + rewrite str_len_app. unfold str_len at 3. by rewrite bytes_cons, app_nil_r, encode_ascii by lia.
    + apply (lines_of_end a [c] t); [done|right; eauto].
Qed.
Definition line_text (keepends : bool) (l : str) : str := if keepends then l else chomp l.
Lemma lines_of_free s : Forall (λ x, is_line_end x = false) s → lines_of s [] = if is_nil s then [] else [s].
Proof. intros Hs. pose proof (lines_of_plain s [] [] Hs) as H. by rewrite app_nil_r in H. Qed.
Lemma splitlines_loop_ok fuel keepends s lines : length s < fuel →
  splitlines_loop fuel keepends s lines = Ok (lines ++ map (line_text keepends) (lines_of s [])).
Proof.
  revert s lines. induction fuel as [|fuel IH]; intros s lines Hf; [lia|]. cbn [splitlines_loop].
  pose proof (first_line s) as Hl. destruct (find_char is_line_end s) as [y|].
  - destruct Hl as (a & e & r & -> & Ha & He & -> & -> & ->). cbn [map]. apply line_end_all in He as Hend.
    assert (str_get (a ++ e ++ r) 0 (if keepends then str_len (a ++ e) else str_len a) = Some (line_text keepends (a ++ e))) as ->.
    { destruct keepends; simpl; [rewrite app_assoc; by apply (get_app [] (a ++ e) r)|].
      rewrite chomp_end by done. by apply (get_app [] a (e ++ r)). }
    cbn [unwrap mbind result_bind]. rewrite app_assoc, (str_len_app (a ++ e) r).
    destruct (Nat.eqb_spec (str_len (a ++ e)) (str_len (a ++ e) + str_len r)) as [Hr|Hr].
    + assert (r = []) as -> by (apply str_len_zero; lia). done.
    + pose proof (get_app (a ++ e) r [] _ _ eq_refl eq_refl) as Hget. rewrite app_nil_r in Hget. rewrite Hget.
      cbn [unwrap mbind result_bind]. rewrite IH; [by rewrite <- app_assoc|].
      rewrite !length_app in Hf. destruct He as [->|[->| ->]]; simpl in *; lia.
  - rewrite lines_of_free by done. destruct s as [|c s]; [by rewrite app_nil_r|]. simpl. unfold line_text.
    destruct keepends; [done|]. pose proof (chomp_end (c :: s) [] Hl ltac:(constructor)) as Hc.
    rewrite app_nil_r in Hc. by rewrite Hc.
Qed.
(** Every line but the last ends as lines do, and holds no other line end. *)
Inductive all_lines : list str → Prop :=
| lines_nil : all_lines []
| lines_last a : a ≠ [] → Forall (λ x, is_line_end x = false) a → all_lines [a]
| lines_cons a e ls : Forall (λ x, is_line_end x = false) a → line_end e →
    (e = [0xD]%Z → head (concat ls) ≠ Some 0xA%Z) → all_lines ls → all_lines ((a ++ e) :: ls).
Lemma lines_of_all s : all_lines (lines_of s []).
Proof.
  induction s as [s IH] using (induction_ltof1 _ (@length Z)); unfold ltof in IH.
  pose proof (first_line s) as Hl. destruct (find_char is_line_end s) as [y|].
  - destruct Hl as (a & e & r & -> & Ha & He & -> & Hx & ->). constructor; [done|done| |].
    + rewrite lines_of_concat. intros -> Hr. rewrite bool_decide_eq_true_2 in Hx by by apply crlf_get.
      rewrite str_len_app in Hx. cbn in Hx. lia.
    + apply IH. rewrite !length_app. destruct He as [->|[->| ->]]; simpl; lia.
  - rewrite lines_of_free by done. destruct s; [constructor|by constructor].
Qed.

(** * Finding *)

Definition first_at p s (i : nat) : Prop := occurs_at p s i ∧ ∀ j, occurs_at p s j → i ≤ j.
Definition last_at p s (i : nat) : Prop := occurs_at p s i ∧ ∀ j, occurs_at p s j → j ≤ i.

Lemma occurs_cons c s p i : occurs_at p (c :: s) (S i) ↔ occurs_at p s i.
Proof.
  split.
  - intros ([|d a] & b & He & Hi); [done|]. injection He as -> ->. injection Hi as <-. by exists a, b.
  - intros (a & b & -> & <-). by exists (c :: a), b.
Qed.
Lemma occurs_cons_inv c s p j : occurs_at p (c :: s) j → j = 0 ∧ str_starts_with (c :: s) p = true ∨ ∃ i, j = S i ∧ occurs_at p s i.
Proof.
  destruct j as [|j]; intros Hj; [left; by rewrite starts_occurs|right; exists j; by apply occurs_cons in Hj].
Qed.
Lemma occurs_nil p j : occurs_at p [] j → j = 0 ∧ str_starts_with [] p = true.
Proof.
  intros (a & b & He & <-). symmetry in He. apply app_nil in He as [-> He]. split; [done|]. apply starts_with_spec. by exists b.
Qed.
Lemma find_from_ok p s off : match find_from p s off with
  | Some k => ∃ i, first_at p s i ∧ k = off + str_len (take i s)
  | None => ∀ i, ¬ occurs_at p s i
  end.
Proof.
  revert off. induction s as [|c s IH]; intros off; simpl.
  - destruct (str_starts_with [] p) eqn:Hs.
    + exists 0. split; [|cbn; lia]. split; [by apply starts_occurs|lia].
    + intros i [_ Hi]%occurs_nil. congruence.
  - destruct (str_starts_with (c :: s) p) eqn:Hs.
    + exists 0. split; [|cbn; lia]. split; [by apply starts_occurs|lia].
    + specialize (IH (off + len_utf8 c)). destruct (find_from p s (off + len_utf8 c)) as [k|].
      * destruct IH as (i & [Hi Hmin] & ->). exists (S i). split; [|simpl; rewrite str_len_cons; lia]. split; [by apply occurs_cons|].
        intros j [[-> Hj]|(j' & -> & Hj)]%occurs_cons_inv; [congruence|]. specialize (Hmin j' Hj). lia.
      * intros i [[-> Hj]|(j' & -> & Hj)]%occurs_cons_inv; [congruence|by apply (IH j')].
Qed.
Lemma rfind_from_ok p s off : match rfind_from p s off with
  | Some k => ∃ i, last_at p s i ∧ k = off + str_len (take i s)
  | None => ∀ i, ¬ occurs_at p s i
  end.
Proof.
  revert off. induction s as [|c s IH]; intros off; simpl.
  - destruct (str_starts_with [] p) eqn:Hs.
    + exists 0. split; [|cbn; lia]. split; [by apply starts_occurs|]. intros j [-> _]%occurs_nil. lia.
    + intros i [_ Hi]%occurs_nil. congruence.
  - specialize (IH (off + len_utf8 c)). destruct (rfind_from p s (off + len_utf8 c)) as [k|].
    + destruct IH as (i & [Hi Hmax] & ->). exists (S i). split; [|simpl; rewrite str_len_cons; lia]. split; [by apply occurs_cons|].
      intros j [[-> Hj]|(j' & -> & Hj)]%occurs_cons_inv; [lia|]. specialize (Hmax j' Hj). lia.
    + destruct (str_starts_with (c :: s) p) eqn:Hs.
      * exists 0. split; [|cbn; lia]. split; [by apply starts_occurs|].
        intros j [[-> Hj]|(j' & -> & Hj)]%occurs_cons_inv; [lia|by apply IH in Hj].
      * intros i [[-> Hj]|(j' & -> & Hj)]%occurs_cons_inv; [congruence|by apply (IH j')].
Qed.

Section find.
Context (align_offset : list byte → nat).

(** The characters between two positions. *)
Definition window this (a b : Z) : str := take (Z.to_nat (b - a)) (drop (Z.to_nat a) this).
Lemma bytes_concat s : concat (encode_utf8 <$> s) = bytes s.
Proof. done. Qed.
Lemma str_indices_window this start end_ : valid_str this → (Z.of_nat (length this) ≤ i32_max)%Z →
  (∀ x, start = Some x ∨ end_ = Some x → i32_min ≤ x ≤ i32_max)%Z →
  let n := Z.of_nat (length this) in
  let a := char_start n start end_ in
  str_indices align_offset this start end_ =
    Ok (if no_substring n start end_ then None else Some (Z.to_nat a, window this a (char_end n end_))).
Proof.
  intros Hthis Hlen Hx n a. unfold str_indices.
  pose proof (str_indices_python align_offset (bytes this) (encode_utf8 <$> this) start end_) as Hc.
  rewrite length_fmap in Hc. rewrite Hc by (done || by apply bytes_is_str). fold n a.
  destruct (no_substring n start end_); [done|]. cbn [lift mbind result_bind haystack si_start].
  unfold substring. rewrite <- fmap_drop, <- fmap_take, bytes_concat, from_utf8_bytes; [done|].
  by apply Forall_take, Forall_drop.
Qed.
Lemma window_bounds this start end_ :
  let n := Z.of_nat (length this) in
  let a := char_start n start end_ in
  no_substring n start end_ = false →
  (0 ≤ a)%Z ∧ (a + Z.of_nat (length (window this a (char_end n end_))) ≤ n)%Z.
Proof.
  intros n a Hn. unfold no_substring in Hn. apply orb_false_iff in Hn as [Hab%Z.ltb_ge _]. fold a in Hab.
  assert (0 ≤ a)%Z by (unfold a, char_start; repeat case_match; lia).
  assert (char_end n end_ ≤ n)%Z by (unfold char_end, py_clamp; repeat case_match; lia).
  split; [done|]. unfold window. rewrite length_take, length_drop. lia.
Qed.
Lemma char_position_ok start h i : valid_str h → i ≤ length h → (Z.of_nat (start + i) ≤ i32_max)%Z →
  char_position align_offset start h (str_len (take i h)) = Ok (Z.of_nat (start + i)).
Proof.
  intros Hh Hi Hr. unfold char_position.
  pose proof (str_upto_app (take i h) (drop i h)) as Hu. rewrite take_drop in Hu. rewrite Hu. cbn [lift mbind result_bind].
  rewrite (len_ok align_offset _ (encode_utf8 <$> take i h)) by (by apply bytes_is_str, Forall_take). cbn [lift mbind result_bind].
  rewrite length_fmap, length_take, Nat.min_l by done. rewrite as_i32_id; [done|unfold i32_min; lia].
Qed.
Lemma find_by_ok (search : str → str → option nat) (P : str → nat → Prop) this needle start end_ none :
  (∀ h, match search h needle with
        | Some k => ∃ i, P h i ∧ i ≤ length h ∧ k = str_len (take i h) | None => ∀ i, ¬ occurs_at needle h i end) →
  valid_str this → (Z.of_nat (length this) ≤ i32_max)%Z → (∀ x, start = Some x ∨ end_ = Some x → i32_min ≤ x ≤ i32_max)%Z →
  let n := Z.of_nat (length this) in
  let a := char_start n start end_ in
  let h := window this a (char_end n end_) in
  find_by align_offset search this needle start end_ none = none ∧ (no_substring n start end_ = true ∨ ∀ i, ¬ occurs_at needle h i) ∨
  ∃ i, no_substring n start end_ = false ∧ P h i ∧
    find_by align_offset search this needle start end_ none = Ok (a + Z.of_nat i)%Z.
Proof.
  intros Hs Hthis Hlen Hx n a h. unfold find_by. rewrite str_indices_window by done. fold n a h.
  cbn [mbind result_bind]. destruct (no_substring n start end_) eqn:Hn; [left; split; [done|by left]|].
  pose proof (window_bounds this start end_ Hn) as [Ha Hw]. fold n a h in Ha, Hw.
  specialize (Hs h). destruct (search h needle) as [k|]; [|left; split; [done|by right]].
  destruct Hs as (i & Hi & Hil & ->). right. exists i. split_and!; [done|done|].
  rewrite char_position_ok by (first [lia|by apply Forall_take, Forall_drop]). by rewrite Nat2Z.inj_add, Z2Nat.id.
Qed.
Lemma occurs_length p s i : occurs_at p s i → i ≤ length s.
Proof. intros (a & b & -> & <-). rewrite length_app. lia. Qed.
Lemma str_find_ok needle h : match str_find h needle with
  | Some k => ∃ i, first_at needle h i ∧ i ≤ length h ∧ k = str_len (take i h) | None => ∀ i, ¬ occurs_at needle h i end.
Proof.
  unfold str_find. pose proof (find_from_ok needle h 0) as H. destruct (find_from needle h 0); [|done].
  destruct H as (i & Hi & ->). exists i. split_and!; [done|eapply occurs_length; apply Hi|done].
Qed.
Lemma str_rfind_ok needle h : match str_rfind h needle with
  | Some k => ∃ i, last_at needle h i ∧ i ≤ length h ∧ k = str_len (take i h) | None => ∀ i, ¬ occurs_at needle h i end.
Proof.
  unfold str_rfind. pose proof (rfind_from_ok needle h 0) as H. destruct (rfind_from needle h 0); [|done].
  destruct H as (i & Hi & ->). exists i. split_and!; [done|eapply occurs_length; apply Hi|done].
Qed.
End find.

(** Counting gives one less than the number of pieces. *)
Lemma matches_from_length p s off cur : length (split_from None p s 0 cur) = S (length (matches_from p s off 0)).
Proof.
  revert off cur. induction s as [s IH] using (induction_ltof1 _ (@length Z)); unfold ltof in IH. intros off cur.
  destruct s as [|c s]; [simpl; by destruct (str_starts_with [] p)|].
  destruct (str_starts_with (c :: s) p) eqn:Hs.
  - destruct (split_from_found None p (c :: s) cur) as (next & t & He & Ht & -> & ->); [done..|]. simpl. f_equal. by apply IH.
  - cbn [split_from matches_from]. rewrite Hs. apply IH. simpl. lia.
Qed.
Lemma count_matches_ok x needle : count_matches x needle = Ok (length (str_split x needle) - 1).
Proof.
  unfold count_matches. destruct (Nat.eqb_spec (str_len needle) 1) as [Hn|].
  - apply one_byte in Hn as (c & -> & Hc). rewrite bytes_cons, encode_ascii by done. cbn. f_equal.
    rewrite <- (length_map bytes). unfold str_split. rewrite <- split_bytes_split by done. rewrite split_bytes_count. cbn. lia.
  - unfold str_split. rewrite (matches_from_length needle x 0). f_equal. unfold match_indices. lia.
Qed.
Lemma count_ok align_offset this needle : valid_str this →
  count align_offset this needle None None = Ok (as_i32 (Z.of_nat (length (str_split this needle) - 1))).
Proof.
  intros Hthis. unfold count, str_indices. cbn. rewrite from_utf8_bytes by done. cbn [lift mbind result_bind].
  by rewrite count_matches_ok.
Qed.

(** * Words *)

Notation space := (λ c, is_whitespace c = true).
Notation letter := (λ c, is_whitespace c = false).
(** What splitting at white space means: words are between white space; after [limit] cuts, the rest of the text from its
    first word on is one piece. *)
Inductive words : option nat → str → list str → Prop :=
| words_none limit s : Forall space s → words limit s []
| words_rest w c s : Forall space w → letter c → words (Some 0) (w ++ c :: s) [c :: s]
| words_next limit w x s ps :
    limit ≠ Some 0 → Forall space w → x ≠ [] → Forall letter x → match head s with Some c => space c | None => True end →
    words (pred <$> limit) s ps → words limit (w ++ x ++ s) (x :: ps).

Lemma words_space limit c s ps : space c → words limit s ps → words limit (c :: s) ps.
Proof.
  intros Hc Hw. destruct Hw as [limit s Hs|w d s Hw Hd|limit w x s ps Hl Hw Hx Hxl Hs Hps].
  - constructor. by constructor.
  - apply (words_rest (c :: w)); [by constructor|done].
  - apply (words_next limit (c :: w)); [done|by constructor|done..].
Qed.
Lemma words_word limit x s ps :
  limit ≠ Some 0 → x ≠ [] → Forall letter x → match head s with Some c => space c | None => True end →
  words (pred <$> limit) s ps → words limit (x ++ s) (x :: ps).
Proof. intros. by apply (words_next limit []). Qed.
Lemma words_one limit x : x ≠ [] → Forall letter x → words limit x [x].
Proof.
  intros Hx Hl. destruct (decide (limit = Some 0)) as [->|]; [|rewrite <- (app_nil_r x) at 1; by apply words_word; try done; constructor].
  destruct x as [|c x]; [done|]. apply Forall_cons in Hl as [Hc _]. by apply (words_rest []).
Qed.
Lemma words_nonempty limit s ps : words limit s ps → Forall (λ w, w ≠ []) ps.
Proof. induction 1; repeat constructor; done. Qed.
(** Once the limit is reached, the loop copies. *)
Lemma splitn_rest m s v cur n : m ≤ n → cur ≠ [] → splitn_whitespace_loop m s v cur n false = v ++ [cur ++ s].
Proof.
  intros Hm. revert cur. induction s as [|c s IH]; intros cur Hcur; cbn [splitn_whitespace_loop].
  - rewrite app_nil_r. by destruct cur.
  - rewrite (proj2 (Nat.leb_le m n)) by done. cbn. rewrite IH by (by destruct cur). by rewrite <- app_assoc.
Qed.
Lemma splitn_words m s v cur n : n ≤ m → Forall letter cur →
  ∃ ps, splitn_whitespace_loop m s v cur n (is_nil cur) = v ++ ps ∧ words (Some (m - n)) (cur ++ s) ps.
Proof.
  revert v cur n. induction s as [|c s IH]; intros v cur n Hn Hcur.
  - rewrite app_nil_r. cbn. destruct cur as [|d cur]; [exists []; rewrite app_nil_r; split; [done|by constructor]|].
    exists [d :: cur]. split; [done|by apply words_one].
  - destruct ((m <=? n) && negb (is_nil cur)) eqn:Hr.
    + apply andb_prop in Hr as [Hm%Nat.leb_le Hcn]. destruct cur as [|d cur]; [done|].
      exists [(d :: cur) ++ c :: s]. split; [by apply splitn_rest|].
      replace (m - n) with 0 by lia. apply Forall_cons in Hcur as [Hd _]. by apply (words_rest []).
    + cbn [splitn_whitespace_loop]. rewrite Hr. destruct (is_whitespace c) eqn:Hc.
      * destruct cur as [|d cur]; cbn [is_nil negb].
        -- destruct (IH v [] n) as (ps & Hloop & Hps); [done..|]. exists ps. split; [exact Hloop|by apply words_space].
        -- cbn in Hr. rewrite andb_true_r in Hr. apply Nat.leb_gt in Hr.
           destruct (IH (v ++ [d :: cur]) [] (n + 1)) as (ps & Hloop & Hps); [lia|done|]. cbn [is_nil] in Hloop.
           exists ((d :: cur) :: ps). rewrite Hloop, <- app_assoc. split; [done|].
           apply words_word; [intros [=]; lia|done|done|done|]. simpl. replace (pred (m - n)) with (m - (n + 1)) by lia.
           by apply words_space.
      * destruct (IH v (cur ++ [c]) n) as (ps & Hloop & Hps); [done|by apply Forall_app; repeat constructor|].
        rewrite <- app_assoc in Hps. exists ps. split; [|done]. rewrite <- Hloop. by destruct cur.
Qed.
Lemma rsplitn_splitn m s v cur n b :
  rsplitn_whitespace_loop m s (map reverse v) cur n b = map reverse (splitn_whitespace_loop m s v cur n b).
Proof.
  assert (∀ (v : list str) x, map reverse v ++ [reverse x] = map reverse (v ++ [x])) as Hv by (intros; by rewrite map_app).
  revert v cur n b. induction s as [|c s IH]; intros v cur n b; cbn [rsplitn_whitespace_loop splitn_whitespace_loop]; rewrite Hv.
  - by destruct (is_nil cur).
  - repeat case_match; apply IH.
Qed.
Lemma split_whitespace_words s cur : Forall letter cur →
  words None (cur ++ s) (filter (λ w, w ≠ []) (split_char is_whitespace s cur)).
Proof.
  revert cur. induction s as [|c s IH]; intros cur Hcur; cbn [split_char].
  - rewrite app_nil_r, filter_cons. destruct (decide (cur ≠ [])) as [Hn|Hn]; [by apply words_one|].
    destruct cur; [by repeat constructor|]. by exfalso; apply Hn.
  - destruct (is_whitespace c) eqn:Hc.
    + rewrite filter_cons. pose proof (words_space None c s _ Hc (IH [] ltac:(constructor))) as Hs.
      destruct (decide (cur ≠ [])) as [Hn|Hn]; [by apply words_word|]. destruct cur; [done|]. by exfalso; apply Hn.
    + rewrite (cons_middle c cur s), app_assoc. apply IH. apply Forall_app. by repeat constructor.
Qed.

(** * Properties *)

(** What the four searches give: the places are counted from [a], where the window [h] begins. *)
Definition search_result align_offset this needle start end_ (crossed : Prop) (a : Z) (h : str) : Prop :=
  let not_found := Err (SubstringNotFound needle this) in
  ((crossed ∨ ∀ i, ¬ occurs_at needle h i) ∧
     find align_offset this needle start end_ = Ok (-1)%Z ∧ index align_offset this needle start end_ = not_found ∧
     rfind align_offset this needle start end_ = Ok (-1)%Z ∧ rindex align_offset this needle start end_ = not_found) ∨
  (¬ crossed ∧ ∃ i j, first_at needle h i ∧ last_at needle h j ∧
     find align_offset this needle start end_ = Ok (a + Z.of_nat i)%Z ∧
     index align_offset this needle start end_ = Ok (a + Z.of_nat i)%Z ∧
     rfind align_offset this needle start end_ = Ok (a + Z.of_nat j)%Z ∧
     rindex align_offset this needle start end_ = Ok (a + Z.of_nat j)%Z).
(** The bounds as the code has them. *)
Lemma find_code align_offset this needle start end_ :
  valid_str this → (Z.of_nat (length this) ≤ i32_max)%Z → (∀ x, start = Some x ∨ end_ = Some x → i32_min ≤ x ≤ i32_max)%Z →
  let n := Z.of_nat (length this) in
  let a := char_start n start end_ in
  let h := window this a (char_end n end_) in
  search_result align_offset this needle start end_ (no_substring n start end_ = true) a h.
Proof.
  intros Hthis Hlen Hx n a h. unfold search_result. set (not_found := Err _). unfold find, index, rfind, rindex.
  pose proof (λ none, find_by_ok align_offset str_find _ this needle start end_ none (str_find_ok needle) Hthis Hlen Hx) as Hf.
  pose proof (λ none, find_by_ok align_offset str_rfind _ this needle start end_ none (str_rfind_ok needle) Hthis Hlen Hx) as Hr.
  cbn zeta in Hf, Hr. fold n a h in Hf, Hr.
  destruct (no_substring n start end_) eqn:Hn.
  { left. split; [by left|]. split_and!; [destruct (Hf (Ok (-1)%Z))|destruct (Hf not_found)|destruct (Hr (Ok (-1)%Z))|destruct (Hr not_found)];
      naive_solver. }
  pose proof (str_find_ok needle h) as Hd. destruct (str_find h needle) as [k|].
  - destruct Hd as (i & [Hi Hmin] & _). right. split; [done|].
    destruct (Hf (Ok (-1)%Z)) as [[_ [?|Hno]]|(i1 & _ & Hi1 & E1)]; [done|by apply Hno in Hi|].
    destruct (Hf not_found) as [[_ [?|Hno]]|(i2 & _ & Hi2 & E2)]; [done|by apply Hno in Hi|].
    destruct (Hr (Ok (-1)%Z)) as [[_ [?|Hno]]|(j1 & _ & Hj1 & E3)]; [done|by apply Hno in Hi|].
    destruct (Hr not_found) as [[_ [?|Hno]]|(j2 & _ & Hj2 & E4)]; [done|by apply Hno in Hi|].
    assert (i2 = i1) as -> by (apply Nat.le_antisymm; [apply Hi2, Hi1|apply Hi1, Hi2]).
    assert (j2 = j1) as -> by (apply Nat.le_antisymm; [apply Hj1, Hj2|apply Hj2, Hj1]). eauto 10.
  - left. split; [by right|]. split_and!;
      [destruct (Hf (Ok (-1)%Z)) as [|(i & _ & [Hi _] & _)]|destruct (Hf not_found) as [|(i & _ & [Hi _] & _)]
      |destruct (Hr (Ok (-1)%Z)) as [|(i & _ & [Hi _] & _)]|destruct (Hr not_found) as [|(i & _ & [Hi _] & _)]];
      try tauto; by apply Hd in Hi.
Qed.

(** Where a search starts in Python: a negative position counts from the end.  It is not clamped to the length. *)
Definition py_start (n : Z) (start : option Z) : Z :=
  match start with None => 0 | Some x => if x <? 0 then Z.max 0 (x + n) else x end%Z.
(** Bounds that are both negative, reach the beginning of the text and are crossed. *)
Definition crossed_before (n : Z) (start end_ : option Z) : Prop :=
  match start, end_ with Some x, Some y => (y < x ≤ - n ∧ x < 0)%Z | _, _ => False end.
(** A positive start and a negative end, in the empty text. *)
Definition crossed_empty (n : Z) (start end_ : option Z) : Prop :=
  match start, end_ with Some x, Some y => (n = 0 ∧ 0 < x ∧ y < 0)%Z | _, _ => False end.
#[export] Instance crossed_before_dec n start end_ : Decision (crossed_before n start end_).
Proof. destruct start, end_; apply _. Defined.
#[export] Instance crossed_empty_dec n start end_ : Decision (crossed_empty n start end_).
Proof. destruct start, end_; apply _. Defined.

Lemma code_bounds n start end_ : (0 ≤ n)%Z → ¬ crossed_before n start end_ → ¬ crossed_empty n start end_ →
  no_substring n start end_ = (char_end n end_ <? py_start n start)%Z ∧
  (no_substring n start end_ = false → char_start n start end_ = py_start n start).
Proof.
  intros Hn Hb He. unfold crossed_before, crossed_empty in *.
  unfold no_substring, char_start, char_end, py_start, py_clamp, is_negative_opt in *.
  destruct start as [x|], end_ as [y|]; simpl in *; try destruct (Z.ltb_spec x 0); try destruct (Z.ltb_spec y 0); simpl;
    rewrite ?orb_false_r; try (split; [done|done]); try (split; [|lia]; lia).
Qed.
Lemma occurs_in_nil p i : occurs_at p [] i → p = [].
Proof. intros [_ Hs]%occurs_nil. by destruct p. Qed.

(** C18: [find] and [rfind] give the position in characters of the first and of the last place where the needle occurs
    between the bounds, and -1 when there is none; [index] and [rindex] give the same positions and an error.  The bounds
    are those of Python, where a negative one counts from the end, and the needle is not found when they are crossed, with two
    exceptions, both for the empty needle: when both bounds are negative, reach before the text and are
    crossed, Python clamps them and finds it at 0, while it is not found here; and in the empty text, with a positive start
    and a negative end, Python does not find it, while it is found at 0 here.  The search is in bytes and nothing is cut within a character. *)
Theorem string_find align_offset this needle start end_ :
  valid_str this → (Z.of_nat (length this) ≤ i32_max)%Z → (∀ x, start = Some x ∨ end_ = Some x → i32_min ≤ x ≤ i32_max)%Z →
  let n := Z.of_nat (length this) in
  let a := py_start n start in
  let b := char_end n end_ in
  (needle ≠ [] ∨ ¬ crossed_before n start end_ ∧ ¬ crossed_empty n start end_ →
   search_result align_offset this needle start end_ (b < a)%Z a (window this a b)) ∧
  (crossed_before n start end_ → find align_offset this needle start end_ = Ok (-1)%Z) ∧
  (crossed_empty n start end_ → needle = [] → find align_offset this needle start end_ = Ok 0%Z).
Proof.
  intros Hthis Hlen Hx n a b. pose proof (find_code align_offset this needle start end_ Hthis Hlen Hx) as Hcode.
  cbn zeta in Hcode. fold n in Hcode. fold b in Hcode. assert (0 ≤ n)%Z as Hn by lia.
  assert (crossed_before n start end_ → no_substring n start end_ = true) as Hbefore.
  { unfold crossed_before, no_substring. destruct start as [x|], end_ as [y|]; try done. intros Hc. apply orb_true_intro. right.
    by rewrite !(proj2 (Z.ltb_lt _ _)) by lia. }
  assert (crossed_empty n start end_ → this = [] ∧ no_substring n start end_ = false ∧ char_start n start end_ = 0%Z ∧ (b < a)%Z) as Hempty.
  { unfold crossed_empty, b, a, no_substring, char_start, char_end, py_start, py_clamp, is_negative_opt.
    destruct start as [x|], end_ as [y|]; try done. intros (Hz & Hxp & Hyn). split; [by destruct this|].
    repeat (rewrite (proj2 (Z.ltb_ge x 0)) by lia). repeat (rewrite (proj2 (Z.ltb_lt y 0)) by lia). simpl. lia. }
  split_and!.
  - intros Hplain. destruct (decide (crossed_before n start end_ ∨ crossed_empty n start end_)) as [Hc|Hc].
    + assert (needle ≠ []) as Hne by (destruct Hplain; tauto). left.
      assert ((b < a)%Z ∨ ∀ i, ¬ occurs_at needle (window this a b) i) as Hmiss.
      { destruct Hc as [Hc|Hc]; [right|left; by apply Hempty]. intros i Hi. apply Hne.
        replace (window this a b) with (@nil Z) in Hi; [by apply occurs_in_nil in Hi|].
        assert (b = a) as ->; [|by unfold window; rewrite Z.sub_diag]. unfold a, b, py_start, char_end, py_clamp.
        unfold crossed_before in Hc. destruct start as [x|], end_ as [y|]; try done. rewrite (proj2 (Z.ltb_lt x 0)), (proj2 (Z.ltb_lt y 0)) by lia. simpl. lia. }
      destruct Hcode as [(_ & Hres)|(Hnc & i & j & [Hi _] & _)]; [by split|].
      exfalso. destruct Hc as [Hc|Hc]; [by apply Hnc, Hbefore|]. apply Hne. destruct (Hempty Hc) as (Hthis0 & _). rewrite Hthis0 in Hi.
      unfold window in Hi. rewrite drop_nil, take_nil in Hi. by apply occurs_in_nil in Hi.
    + destruct (code_bounds n start end_ Hn) as [Hns Hst]; [tauto..|]. fold a b in Hns.
      destruct (no_substring n start end_) eqn:E; symmetry in Hns.
      * apply Z.ltb_lt in Hns. destruct Hcode as [(_ & Hres)|(Hnc & _)]; [left; split; [by left|done]|by destruct Hnc].
      * apply Z.ltb_ge in Hns. rewrite Hst in Hcode by done. fold a in Hcode.
        destruct Hcode as [([?|Hno] & Hres)|(_ & Hres)]; [done|left; split; [by right|done]|right; split; [lia|done]].
  - intros Hc%Hbefore. destruct Hcode as [(_ & Hres)|(Hnc & _)]; [apply Hres|by destruct Hnc].
  - intros (-> & Hns & Hst & _)%Hempty ->. rewrite Hst, Hns in Hcode. destruct Hcode as [([?|Hno] & _)|(_ & i & j & Hi & _ & Hf & _)].
    + done.
    + exfalso. apply (Hno 0). by exists [], (window [] 0 b).
    + rewrite Hf. f_equal. assert (i ≤ 0); [|lia]. apply Hi. by exists [], (window [] 0 b).
Qed.

(** C17: [split] and [rsplit] cut the text at the occurrences of the separator, from the left and from the right, as often as
    [maxsplit] says: joining the pieces with [join] gives the text back; there are at most one more pieces than cuts, and
    without a limit no piece holds the separator, which [count] counts.  The fast path for a separator of one byte agrees,
    cuts no character, and its count of the pieces is right. *)
Theorem string_split align_offset this sep maxsplit : valid_str this → sep ≠ [] → max_ok maxsplit →
  (∃ ps, split this (Some sep) maxsplit = Ok ps ∧ cuts sep (split_max maxsplit) this ps ∧ pieces sep (split_max maxsplit) this ps ∧
     (split_max maxsplit = None → count align_offset this sep None None = Ok (as_i32 (Z.of_nat (length ps - 1))))) ∧
  ∃ qs, rsplit this (Some sep) maxsplit = Ok (reverse (map reverse qs)) ∧
    cuts (reverse sep) (split_max maxsplit) (reverse this) qs ∧ pieces sep (split_max maxsplit) this (reverse (map reverse qs)).
Proof.
  intros Hthis Hsep Hm. split.
  - rewrite split_ok by done. eexists. split; [done|].
    assert (cuts sep (split_max maxsplit) this (split_from (split_max maxsplit) sep this 0 [])) as Hc
      by (apply (split_from_cuts sep _ this []); simpl; [done|lia]).
    split_and!; [done|by apply cuts_pieces|]. intros ->. by apply count_ok.
  - exists (split_from (split_max maxsplit) (reverse sep) (reverse this) 0 []).
    assert (reverse sep ≠ []) as Hsep' by (intros He; apply Hsep; by rewrite <- (reverse_involutive sep), He).
    assert (cuts (reverse sep) (split_max maxsplit) (reverse this) (split_from (split_max maxsplit) (reverse sep) (reverse this) 0 []))
      as Hc by (apply (split_from_cuts _ _ (reverse this) []); simpl; [done|lia]).
    split_and!; [|done|by apply pieces_reverse, cuts_pieces].
    unfold rsplit. rewrite split_limit_ok by done. by destruct (split_max maxsplit).
Qed.

(** [new] before each of the first [limit] places between characters, the end included. *)
Fixpoint spread (limit : option nat) new s : str :=
  match limit with
  | Some 0 => s
  | _ => new ++ match s with [] => [] | c :: s => c :: spread (pred <$> limit) new s end
  end.
Lemma spread_joined new limit s cur : joined new (split_from limit [] s 0 cur) = cur ++ spread limit new s.
Proof.
  revert limit cur. induction s as [|c s IH]; intros limit cur; [by destruct limit as [[|k]|]; simpl; rewrite ?app_nil_r|].
  destruct limit as [[|k]|]; [done| |]; cbn [split_from]; rewrite (proj2 (starts_with_spec (c :: s) [])) by (by exists (c :: s));
    rewrite joined_cons, IH by apply split_from_ne; simpl; by rewrite ?Nat.sub_0_r.
Qed.

(** C19: [replace] is cutting the text at the first occurrences of the old text, as many as the count says or all, and joining
    the pieces with the new text; the pieces are those of [split], where that takes the count (it cannot take [i32::MAX]).
    To replace the empty text, which the documentation of [split] excludes, is to put the new text before every character and at
    the end, or at so many of these places.  A negative count is an error.  The loop over the matches cuts no
    character and leaves nothing out. *)
Theorem string_replace this old new count :
  (∀ k, count = Some k → (k < 0)%Z → replace this old new count = Err (NegativeCount k)) ∧
  ((∀ k, count = Some k → (0 ≤ k)%Z) →
   (old ≠ [] → ∃ ps, cuts old (split_max count) this ps ∧ replace this old new count = join new (map Some ps) ∧
      (valid_str this → max_ok count → split this (Some old) count = Ok ps)) ∧
   (old = [] → replace this old new count = Ok (spread (split_max count) new this))).
Proof.
  split; [intros k -> Hk; unfold replace; by rewrite (proj2 (Z.leb_gt 0 k))|]. intros Hcount.
  assert (replace this old new count = Ok (joined new (split_from (split_max count) old this 0 []))) as ->.
  { destruct count as [k|]; [|apply replace_all_ok]. specialize (Hcount k eq_refl). unfold replace, split_max.
    by rewrite (proj2 (Z.leb_le 0 k)), (proj2 (Z.ltb_ge k 0)), replacen_ok. }
  split.
  - intros Hold. eexists. split_and!; [|by rewrite join_joined|by apply split_ok].
    apply (split_from_cuts old _ this []); simpl; [done|lia].
  - intros ->. f_equal. apply spread_joined.
Qed.

(** C21: [splitlines] gives the lines of the text, with and without their ends: it ends without a panic for every text, the
    lines with their ends make up the text, a line holds no line end but its own, and a carriage return is not separated from
    the line feed after it. *)
Theorem string_splitlines this : ∃ ls,
  splitlines this true = Ok ls ∧ splitlines this false = Ok (map chomp ls) ∧ concat ls = this ∧ all_lines ls.
Proof.
  exists (lines_of this []). unfold splitlines. rewrite !splitlines_loop_ok by lia. split_and!.
  - change (line_text true) with (@id str). by rewrite map_id.
  - done.
  - apply lines_of_concat.
  - apply lines_of_all.
Qed.

(** C20: Without a separator, [split] and [rsplit] give the words of the text: the pieces between white space, none of them
    empty, and with [maxsplit] the rest after so many words, from the left and from the right. *)
Theorem string_words this maxsplit : max_ok maxsplit →
  (∃ ps, split this None maxsplit = Ok ps ∧ words (split_max maxsplit) this ps ∧ Forall (λ w, w ≠ []) ps) ∧
  match split_max maxsplit with
  | None => rsplit this None maxsplit = split this None maxsplit
  | Some k => ∃ qs, rsplit this None maxsplit = Ok (reverse (map reverse qs)) ∧ words (Some k) (reverse this) qs
  end.
Proof.
  intros Hm. unfold split, rsplit. rewrite split_limit_ok by done. cbn [mbind result_bind].
  destruct (split_max maxsplit) as [k|].
  - assert (∀ s, ∃ ps, splitn_whitespace s (S k) = ps ∧ words (Some k) s ps) as Hw.
    { intros s. destruct (splitn_words (S k) s [] [] 1) as (ps & Hs & Hps); [lia|constructor|]. exists ps. split; [done|].
      by replace (S k - 1) with k in Hps by lia. }
    split.
    + destruct (Hw this) as (ps & <- & Hps). eexists. split_and!; [done|done|by eapply words_nonempty].
    + destruct (Hw (reverse this)) as (qs & <- & Hqs). eexists. split; [|done].
      cbn. unfold rsplitn_whitespace. do 2 f_equal. apply (rsplitn_splitn (S k) (reverse this) []).
  - split; [|done]. eexists. pose proof (split_whitespace_words this [] ltac:(constructor)) as Hw.
    split_and!; [done|exact Hw|by eapply words_nonempty].
Qed.

(** * Examples *)

(** ["hé,l,,o"]. *)
Definition sample : str := [0x68; 0xE9; 0x2C; 0x6C; 0x2C; 0x2C; 0x6F]%Z.
Lemma sample_valid : valid_str sample.
Proof. by repeat constructor. Qed.
Example sample_split : split sample (Some [0x2C]%Z) None = Ok [[0x68; 0xE9]; [0x6C]; []; [0x6F]]%Z.
Proof. reflexivity. Qed.
Example sample_rsplit : rsplit sample (Some [0x2C]%Z) (Some 1%Z) = Ok [[0x68; 0xE9; 0x2C; 0x6C; 0x2C]; [0x6F]]%Z.
Proof. reflexivity. Qed.
Example sample_rfind : rfind (λ _, 0) sample [0x2C]%Z (Some 1%Z) (Some (-2)%Z) = Ok 4%Z.
Proof. reflexivity. Qed.
Example empty_replaced : replace [0x61; 0x62]%Z [] [0x2D]%Z None = Ok [0x2D; 0x61; 0x2D; 0x62; 0x2D]%Z.
Proof. reflexivity. Qed.
Example sample_lines : splitlines [0x61; 0xD; 0xA; 0xD; 0x62]%Z true = Ok [[0x61; 0xD; 0xA]; [0xD]; [0x62]]%Z.
Proof. reflexivity. Qed.
(** The documentation says that an empty separator fails. *)
Example empty_separator : split [0x61; 0x62]%Z (Some []) None = Ok [[]; [0x61]; [0x62]; []]%Z.
Proof. reflexivity. Qed.
(** The largest count of pieces overflows, in a build that checks. *)
Example largest_maxsplit : split sample (Some [0x2C]%Z) (Some i32_max) = Panic.
Proof. reflexivity. Qed.

Lemma string_find_witness : rfind (λ _, 0) sample [0x2C]%Z (Some 1%Z) (Some (-2)%Z) = Ok 4%Z ∧
  ∃ j, last_at [0x2C]%Z (window sample 1 5) j ∧ Ok (1 + Z.of_nat j)%Z = rfind (λ _, 0) sample [0x2C]%Z (Some 1%Z) (Some (-2)%Z).
Proof.
  split; [reflexivity|].
  destruct (proj1 (string_find (λ _, 0) sample [0x2C]%Z (Some 1%Z) (Some (-2)%Z) sample_valid ltac:(vm_compute; discriminate)
    ltac:(intros x [Hx|Hx]; injection Hx as <-; vm_compute; split; discriminate)) ltac:(left; discriminate))
    as [(_ & _ & _ & Hr & _)|(_ & i & j & _ & Hj & _ & _ & Hr & _)].
  - vm_compute in Hr. discriminate.
  - exists j. split; [exact Hj|]. symmetry. exact Hr.
Defined.
(** ["abc".find("", -4, -5)] and ["".find("", 5, -1)]. *)
Example find_before : find (λ _, 0) [0x61; 0x62; 0x63]%Z [] (Some (-4)%Z) (Some (-5)%Z) = Ok (-1)%Z.
Proof. reflexivity. Qed.
Example find_empty : find (λ _, 0) [] [] (Some 5%Z) (Some (-1)%Z) = Ok 0%Z.
Proof. reflexivity. Qed.
Lemma string_split_witness : ∃ ps, split sample (Some [0x2C]%Z) (Some 2%Z) = Ok ps ∧ pieces [0x2C]%Z (Some 2) sample ps.
Proof.
  destruct (string_split (λ _, 0) sample [0x2C]%Z (Some 2%Z) sample_valid ltac:(discriminate) ltac:(vm_compute; reflexivity))
    as [(ps & Hs & _ & Hp & _) _].
  exists ps. split; [exact Hs|exact Hp].
Defined.
Lemma string_replace_witness : (∃ ps, cuts [0x2C]%Z (Some 1) sample ps ∧
    replace sample [0x2C]%Z [0x3B; 0x20]%Z (Some 1%Z) = join [0x3B; 0x20]%Z (map Some ps)) ∧
  replace sample [] [0x2D]%Z (Some 2%Z) = Ok [0x2D; 0x68; 0x2D; 0xE9; 0x2C; 0x6C; 0x2C; 0x2C; 0x6F]%Z.
Proof.
  split.
  - destruct (proj2 (string_replace sample [0x2C]%Z [0x3B; 0x20]%Z (Some 1%Z)) ltac:(intros k [= <-]; lia)) as [Hne _].
    destruct (Hne ltac:(discriminate)) as (ps & Hc & Hr & _). exists ps. split; [exact Hc|exact Hr].
  - exact (proj2 (proj2 (string_replace sample [] [0x2D]%Z (Some 2%Z)) ltac:(intros k [= <-]; lia)) eq_refl).
Defined.
Example sample_words : rsplit [0x20; 0x61; 0x20; 0x62; 0x20; 0x20; 0x63; 0x20]%Z None (Some 1%Z) = Ok [[0x20; 0x61; 0x20; 0x62]; [0x63]]%Z.
Proof. reflexivity. Qed.
Lemma string_words_witness : ∃ qs, rsplit [0x20; 0x61; 0x20; 0x62; 0x20; 0x20; 0x63; 0x20]%Z None (Some 1%Z) = Ok (reverse (map reverse qs)) ∧
  words (Some 1) (reverse [0x20; 0x61; 0x20; 0x62; 0x20; 0x20; 0x63; 0x20]%Z) qs.
Proof.
  exact (proj2 (string_words [0x20; 0x61; 0x20; 0x62; 0x20; 0x20; 0x63; 0x20]%Z (Some 1%Z) ltac:(vm_compute; reflexivity))).
Defined.
