(* ===== verification/CodeMap.v ===== *)
(** [starlark_syntax/src/codemap.rs]: source positions.  A [CodeMap] keeps the byte
    positions where lines start; spans are resolved to lines and to columns counted in
    characters. *)

From S2P Require Import Prelude Ints Index FastString.

(** * Spans *)

(** [Pos(u32)]. *)
Abbreviation Pos := nat (only parsing).
Definition pos_of_usize (n : nat) : Pos := Z.to_nat (as_u32 (Z.of_nat n)).
Definition Pos_add (p : Pos) (n : nat) : comp Pos :=
  if (Z.of_nat (p + n) <=? u32_max)%Z then Ok (p + n) else Panic.
Definition Pos_sub (p : Pos) (n : nat) : comp Pos := if n <=? p then Ok (p - n) else Panic.

Record Span := mkSpan { begin : Pos; end_ : Pos }.

Definition Span_new (b e : Pos) : comp Span := _ ← assert (b <=? e); Ok (mkSpan b e).
Definition merge (a b : Span) : Span :=
  mkSpan (Nat.min (begin a) (begin b)) (Nat.max (end_ a) (end_ b)).
Definition Span_default : Span := mkSpan 0 0.
Definition merge_all (spans : list Span) : Span :=
  match spans with [] => Span_default | s :: spans => foldl merge s spans end.
Definition end_span (a : Span) : Span := mkSpan (end_ a) (end_ a).
Definition contains (a : Span) (pos : Pos) : bool := (begin a <=? pos) && (pos <=? end_ a).
Definition intersects (a b : Span) : bool :=
  contains a (begin b) || contains a (end_ b) || contains b (begin a).

(** * Code maps *)

Record ResolvedPos := mkResolvedPos { line : nat; column : nat }.
Record ResolvedSpan := mkResolvedSpan { rs_begin : ResolvedPos; rs_end : ResolvedPos }.

Record CodeMapData := mkData { data_filename : list byte; data_source : list byte; lines : list Pos }.
Record NativeCodeMap := mkNative { native_filename : list byte; native_start : ResolvedPos }.
Inductive CodeMapImpl :=
| Real (data : CodeMapData)
| Native (data : NativeCodeMap).
(** The identity of a code map is the address of its data. *)
Record CodeMap := mkCodeMap { id : Z; impl : CodeMapImpl }.

(** ["<native>"]. *)
Definition NATIVE_SOURCE : list byte := [0x3C; 0x6E; 0x61; 0x74; 0x69; 0x76; 0x65; 0x3E]%Z.

(** [match_indices('\n')]. *)
Definition NEWLINE : byte := 0x0A%Z.
Definition CARRIAGE_RETURN : byte := 0x0D%Z.
Fixpoint match_newlines (source : list byte) (p : nat) : list nat :=
  match source with
  | [] => []
  | b :: source =>
    if (b =? NEWLINE)%Z then p :: match_newlines source (S p) else match_newlines source (S p)
  end.

Fixpoint line_starts (newlines : list nat) : comp (list Pos) :=
  match newlines with
  | [] => Ok []
  | p :: newlines =>
    q ← Pos_add (pos_of_usize p) 1; qs ← line_starts newlines; Ok (q :: qs)
  end.

Definition CodeMap_new (id : Z) (filename source : list byte) : comp CodeMap :=
  starts ← line_starts (match_newlines source 0);
  Ok (mkCodeMap id (Real (mkData filename source (0 :: starts)))).

(** [CodeMaps], keyed by identity. *)
Definition CodeMaps := gmap Z CodeMap.
Definition CodeMaps_get (m : CodeMaps) (i : Z) : option CodeMap := m !! i.
Definition CodeMaps_add (m : CodeMaps) (c : CodeMap) : CodeMaps :=
  match m !! id c with Some _ => m | None => <[id c := c]> m end.

Section CodeMap.
Context (align_offset : list byte → nat).
Implicit Types c : CodeMap.

Definition source c : list byte :=
  match impl c with Real data => data_source data | Native _ => NATIVE_SOURCE end.
Definition filename c : list byte :=
  match impl c with Real data => data_filename data | Native data => native_filename data end.
Definition full_span c : Span := mkSpan 0 (pos_of_usize (length (source c))).

Definition byte_at c (pos : Pos) : comp byte := unwrap (source c !! pos).

(** [-] on [usize]. *)
Definition nat_checked_sub (n m : nat) : option nat := if m <=? n then Some (n - m) else None.

(** [slice::binary_search] on strictly increasing positions. *)
Definition binary_search (l : list Pos) (pos : Pos) : nat + nat :=
  match find_index (λ p, p =? pos) l with
  | Some i => inl i
  | None => inr (length (filter (λ p, p < pos) l))
  end.

Definition find_line c (pos : Pos) : comp nat :=
  _ ← assert (pos <=? end_ (full_span c));
  match impl c with
  | Real data =>
    match binary_search (lines data) pos with
    | inl i => Ok i
    | inr i => unwrap (nat_checked_sub i 1)
    end
  | Native data => Ok (line (native_start data))
  end.

(** [&s[i..j]]. *)
Definition str_range (s : list byte) (i j : nat) : comp (list byte) :=
  if (i <=? j) && is_char_boundary s i && is_char_boundary s j
  then Ok (take (j - i) (drop i s)) else Panic.

Definition source_span c (span : Span) : comp (list byte) :=
  str_range (source c) (begin span) (end_ span).

Definition line_span_opt c (n : nat) : option Span :=
  match impl c with
  | Real data =>
    match lines data !! n with
    | Some b =>
      Some (mkSpan b (match lines data !! (n + 1) with
                      | Some e => e
                      | None => end_ (full_span c)
                      end))
    | None => None
    end
  | Native data =>
    if n =? line (native_start data)
    then Some (mkSpan 0 (pos_of_usize (length NATIVE_SOURCE))) else None
  end.

Definition line_span c (line : nat) : comp Span := unwrap (line_span_opt c line).

Definition ends_with_byte (s : list byte) (b : byte) : bool := bool_decide (list.last s = Some b).

Definition line_span_trim_newline c (line : nat) : comp Span :=
  span ← line_span c line;
  s ← source_span c span;
  span ← (if ends_with_byte s NEWLINE
          then e ← Pos_sub (end_ span) 1; Ok (mkSpan (begin span) e) else Ok span);
  s ← source_span c span;
  if ends_with_byte s CARRIAGE_RETURN
  then e ← Pos_sub (end_ span) 1; Ok (mkSpan (begin span) e) else Ok span.

Definition find_line_col c (pos : Pos) : comp ResolvedPos :=
  _ ← assert (pos <=? end_ (full_span c));
  match impl c with
  | Real _ =>
    n ← find_line c pos;
    span ← line_span c n;
    byte_col ← Pos_sub pos (begin span);
    s ← source_span c span;
    s ← str_range s 0 byte_col;
    col ← FastString.len align_offset s;
    Ok (mkResolvedPos n col)
  | Native data =>
    Ok (mkResolvedPos (line (native_start data)) (column (native_start data) + pos))
  end.

Definition resolve_span c (span : Span) : comp ResolvedSpan :=
  b ← find_line_col c (begin span);
  e ← find_line_col c (end_ span);
  Ok (mkResolvedSpan b e).

(** [trim_end_matches(&['\n', '\r'])]. *)
Fixpoint trim_front (s : list byte) : list byte :=
  match s with
  | b :: s' => if (b =? NEWLINE)%Z || (b =? CARRIAGE_RETURN)%Z then trim_front s' else s
  | [] => []
  end.
Definition source_line c (line : nat) : comp (list byte) :=
  span ← line_span c line; s ← source_span c span; Ok (reverse (trim_front (reverse s))).
Definition source_line_at_pos c (pos : Pos) : comp (list byte) :=
  line ← find_line c pos; source_line c line.
End CodeMap.

(** [ResolvedSpan::contains]. *)
Definition ResolvedSpan_contains (s : ResolvedSpan) (pos : ResolvedPos) : bool :=
  ((line (rs_begin s) <? line pos) ||
   ((line (rs_begin s) =? line pos) && (column (rs_begin s) <=? column pos))) &&
  ((line pos <? line (rs_end s)) ||
   ((line (rs_end s) =? line pos) && (column pos <=? column (rs_end s)))).

(** * Correctness *)

(** ** Newlines *)

Definition count_nl (s : list byte) : nat := length (filter (λ b, b = NEWLINE) s).
(** The line table of a source. *)
Definition starts (s : list byte) : list Pos := 0 :: (S <$> match_newlines s 0).

Lemma lookup_starts_S s l : starts s !! S l = S <$> match_newlines s 0 !! l.
Proof. unfold starts. simpl. apply list_lookup_fmap. Qed.

Lemma count_nl_app s t : count_nl (s ++ t) = count_nl s + count_nl t.
Proof. unfold count_nl. by rewrite filter_app, length_app. Qed.
Lemma count_nl_cons b s : count_nl (b :: s) = (if (b =? NEWLINE)%Z then 1 else 0) + count_nl s.
Proof.
  unfold count_nl. rewrite filter_cons. destruct (Z.eqb_spec b NEWLINE).
  - by rewrite decide_True.
  - by rewrite decide_False.
Qed.

Lemma match_newlines_ge s p : Forall (λ q, p ≤ q < p + length s) (match_newlines s p).
Proof.
  revert p. induction s as [|b s IH]; intros p; simpl; [constructor|].
  assert (Forall (λ q, p ≤ q < p + S (length s)) (match_newlines s (S p)))
    by (eapply Forall_impl; [apply IH|simpl; lia]).
  destruct (b =? NEWLINE)%Z; [constructor; [lia|done]|done].
Qed.

Lemma find_newline s p i :
  find_index (λ q, q =? p + i) (match_newlines s p) =
    if decide (s !! i = Some NEWLINE) then Some (count_nl (take i s)) else None.
Proof.
  revert p i. induction s as [|b s IH]; intros p i; [by destruct i|]. cbn [match_newlines].
  destruct i as [|i].
  - rewrite Nat.add_0_r. simpl. destruct (Z.eqb_spec b NEWLINE) as [->|Hb]; simpl.
    + by rewrite Nat.eqb_refl.
    + rewrite decide_False by congruence. apply find_index_None. intros j q Hj.
      pose proof (match_newlines_ge s (S p)) as Hge. rewrite Forall_lookup in Hge.
      specialize (Hge j q Hj). apply Nat.eqb_neq. lia.
  - replace (p + S i) with (S p + i) by lia. cbn [take]. rewrite count_nl_cons.
    change ((b :: s) !! S i) with (s !! i).
    destruct (b =? NEWLINE)%Z; cbn [find_index].
    + rewrite (proj2 (Nat.eqb_neq p (S p + i))) by lia. rewrite IH. by case_decide.
    + apply IH.
Qed.

Lemma count_before s p i :
  length (filter (λ q, q < p + i) (match_newlines s p)) = count_nl (take i s).
Proof.
  revert p i. induction s as [|b s IH]; intros p i; [by destruct i|]. cbn [match_newlines].
  destruct i as [|i].
  - simpl. apply length_zero_iff_nil. pose proof (match_newlines_ge (b :: s) p) as Hge.
    cbn [match_newlines] in Hge. induction Hge as [|q l Hq _ IHl]; [done|].
    by rewrite filter_cons_False by lia.
  - cbn [take]. rewrite count_nl_cons. specialize (IH (S p) i).
    replace (S p + i) with (p + S i) in IH by lia. destruct (b =? NEWLINE)%Z; simpl; [|done].
    rewrite filter_cons_True by lia. simpl. by rewrite IH.
Qed.

(** The newline after [count_nl (take i s)] others is the first one from [i] on. *)
Lemma next_newline s p i q :
  match_newlines s p !! count_nl (take i s) = Some q → p + i ≤ q ∧ s !! (q - p) = Some NEWLINE.
Proof.
  revert p i. induction s as [|b s IH]; intros p i; [by destruct i|]. cbn [match_newlines].
  assert (∀ j, match_newlines s (S p) !! count_nl (take j s) = Some q →
    S p + j ≤ q ∧ (b :: s) !! (q - p) = Some NEWLINE) as Hgo.
  { intros j [Hj Hn]%IH. split; [done|]. by replace (q - p) with (S (q - S p)) by lia. }
  destruct i as [|i]; cbn [take]; rewrite ?count_nl_cons; destruct (Z.eqb_spec b NEWLINE) as [->|Hb]; simpl.
  - intros [= ->]. rewrite Nat.sub_diag. split; [lia|done].
  - intros Hq. specialize (Hgo 0). simpl in Hgo. apply Hgo in Hq. split; [lia|apply Hq].
  - intros Hq%Hgo. split; [lia|apply Hq].
  - intros Hq%Hgo. split; [lia|apply Hq].
Qed.

Lemma lookup_newline s i :
  s !! i = Some NEWLINE → match_newlines s 0 !! count_nl (take i s) = Some i.
Proof.
  intros Hi. pose proof (find_newline s 0 i) as Hf. rewrite decide_True in Hf by done.
  apply find_index_Some in Hf as [(q & Hq & He%Nat.eqb_eq) _]. by rewrite Hq, He.
Qed.

Lemma count_nl_take_S s i b :
  s !! i = Some b → count_nl (take (S i) s) = count_nl (take i s) + (if (b =? NEWLINE)%Z then 1 else 0).
Proof.
  intros Hi. rewrite (take_snoc _ _ _ Hi), count_nl_app, count_nl_cons. unfold count_nl at 2. simpl. lia.
Qed.

(** ** The line table *)

Lemma pos_of_usize_id n : (Z.of_nat n ≤ u32_max)%Z → pos_of_usize n = n.
Proof.
  unfold pos_of_usize, as_u32, u32_max. intros Hn. rewrite Z.mod_small by lia. apply Nat2Z.id.
Qed.

Lemma line_starts_ok l :
  Forall (λ q, Z.of_nat (S q) ≤ u32_max)%Z l → line_starts l = Ok (S <$> l).
Proof.
  induction 1 as [|q l Hq _ IH]; [done|]. cbn [line_starts].
  rewrite pos_of_usize_id by lia.
  unfold Pos_add. rewrite (proj2 (Z.leb_le _ _)) by lia. cbn [mbind result_bind]. rewrite IH.
  csimpl. do 2 f_equal. lia.
Qed.

Definition new_map (i : Z) (f s : list byte) : CodeMap := mkCodeMap i (Real (mkData f s (starts s))).

Lemma length_filter_S (l : list nat) p :
  length (filter (λ q, q < S p) (S <$> l)) = length (filter (λ q, q < p) l).
Proof.
  induction l as [|q l IH]; [done|]. rewrite fmap_cons, !filter_cons.
  repeat case_decide; simpl; lia.
Qed.

Section new.
Context (align_offset : list byte → nat) (i : Z) (f s : list byte).
Hypothesis source_u32 : (Z.of_nat (length s) ≤ u32_max)%Z.
Let c := new_map i f s.

Lemma CodeMap_new_ok : CodeMap_new i f s = Ok c.
Proof.
  unfold CodeMap_new. rewrite line_starts_ok; [done|].
  eapply Forall_impl; [apply match_newlines_ge|]. simpl. lia.
Qed.

Lemma full_span_new : full_span c = mkSpan 0 (length s).
Proof.
  unfold full_span, c. simpl. by rewrite pos_of_usize_id.
Qed.

Lemma find_line_new pos : pos ≤ length s → find_line c pos = Ok (count_nl (take pos s)).
Proof.
  intros Hp. unfold find_line. rewrite full_span_new. simpl. rewrite (proj2 (Nat.leb_le _ _) Hp).
  cbn [assert mbind result_bind]. unfold binary_search, starts. cbn [find_index].
  destruct pos as [|p]; [done|]. rewrite (proj2 (Nat.eqb_neq 0 (S p))), find_index_fmap by done.
  rewrite (find_index_ext _ (λ q, q =? 0 + p)) by done. rewrite find_newline.
  destruct (lookup_lt_is_Some_2 s p ltac:(lia)) as [b Hb]. rewrite Hb, (count_nl_take_S _ _ _ Hb).
  destruct (Z.eqb_spec b NEWLINE) as [->|Hne].
  - rewrite decide_True by done. simpl. f_equal. lia.
  - rewrite decide_False by congruence. cbn [fmap option_fmap option_map]. rewrite filter_cons_True by lia. cbn [length].
    unfold nat_checked_sub. simpl. rewrite Nat.sub_0_r, Nat.add_0_r. f_equal.
    rewrite <-(count_before s 0 p). simpl. apply length_filter_S.
Qed.
End new.

(** ** Characters and lines *)

Lemma newline_char ch : is_char ch → NEWLINE ∈ ch → ch = [NEWLINE].
Proof.
  destruct ch as [|b cont]; [done|]. intros (Hb & Hw & Hc) [<-|Hin]%elem_of_cons.
  - unfold utf8_width in Hw. simpl in Hw. by destruct cont.
  - rewrite Forall_forall in Hc. specialize (Hc _ Hin). unfold NEWLINE in Hc. lia.
Qed.

(** The line and column a sequence of characters leads to: one pass over it. *)
Definition advance (p : nat * nat) (ch : list byte) : nat * nat :=
  if bool_decide (ch = [NEWLINE]) then (S p.1, 0) else (p.1, S p.2).
Definition line_col (cs : list (list byte)) : nat * nat := foldl advance (0, 0) cs.

Lemma count_nl_char ch : is_char ch → count_nl ch = if bool_decide (ch = [NEWLINE]) then 1 else 0.
Proof.
  intros Hch. case_bool_decide as He; [by subst|]. unfold count_nl.
  destruct (filter (λ b, b = NEWLINE) ch) as [|b l] eqn:Hf; [done|]. exfalso.
  assert (b ∈ filter (λ b, b = NEWLINE) ch) as [-> Hb]%list_elem_of_filter by (rewrite Hf; by left).
  by apply He, newline_char.
Qed.

(** Where the last line begins. *)
Lemma line_col_start cs k :
  Forall is_char cs → k ≤ length cs →
  let s := concat cs in let p := length (concat (take k cs)) in
  let '(l, col) := line_col (take k cs) in
  count_nl (take p s) = l ∧ col ≤ k ∧
  starts s !! l = Some (length (concat (take (k - col) cs))).
Proof.
  intros Hcs. induction k as [|k IH]; intros Hk; [done|]. cbn zeta.
  destruct (lookup_lt_is_Some_2 cs k ltac:(lia)) as [ch Hch].
  assert (is_char ch) as Hc by (rewrite Forall_lookup in Hcs; eauto).
  rewrite (take_snoc _ _ _ Hch). unfold line_col. rewrite foldl_snoc. fold (line_col (take k cs)).
  specialize (IH ltac:(lia)). cbn zeta in IH. destruct (line_col (take k cs)) as [l col].
  destruct IH as (Hl & Hcol & Hst).
  assert (length (concat (take k cs ++ [ch])) = length (concat (take k cs)) + length ch) as Hlen.
  { rewrite concat_app, length_app. simpl. by rewrite app_nil_r. }
  assert (count_nl (take (length (concat (take k cs)) + length ch) (concat cs)) =
    l + count_nl ch) as Hcount.
  { rewrite <-take_take_drop, count_nl_app, Hl, drop_concat. f_equal.
    rewrite (drop_S _ _ _ Hch). simpl. by rewrite take_app_length. }
  rewrite Hlen, Hcount, (count_nl_char ch Hc). unfold advance. case_bool_decide as Hnl; cbn [fst snd].
  - subst ch. split_and!; [lia|lia|]. rewrite Nat.sub_0_r, (take_snoc _ _ _ Hch), Hlen.
    rewrite lookup_starts_S, <-Hl.
    rewrite lookup_newline; [simpl; f_equal; lia|].
    assert (concat cs = concat (take k cs) ++ concat (drop k cs)) as -> by by rewrite <-concat_app, take_drop.
    by rewrite lookup_app_r, Nat.sub_diag, (drop_S _ _ _ Hch).
  - split_and!; [lia|lia|]. by replace (S k - S col) with (k - col) by lia.
Qed.

Lemma match_newlines_newline s p l q :
  match_newlines s p !! l = Some q → p ≤ q ∧ s !! (q - p) = Some NEWLINE.
Proof.
  revert p l. induction s as [|b s IH]; intros p l; [done|]. cbn [match_newlines].
  assert (∀ l, match_newlines s (S p) !! l = Some q → p ≤ q ∧ (b :: s) !! (q - p) = Some NEWLINE) as Hgo.
  { intros j [Hj Hn]%IH. split; [lia|]. by replace (q - p) with (S (q - S p)) by lia. }
  destruct (Z.eqb_spec b NEWLINE) as [->|Hb]; [|apply Hgo].
  destruct l as [|l]; simpl; [|apply Hgo]. intros [= ->]. by rewrite Nat.sub_diag.
Qed.

Lemma newline_boundary cs q :
  Forall is_char cs → concat cs !! q = Some NEWLINE →
  ∃ k, k ≤ length cs ∧ S q = length (concat (take k cs)).
Proof.
  intros Hcs. revert q. induction Hcs as [|ch cs Hch _ IH]; intros q Hq; [done|].
  simpl in Hq. destruct (decide (q < length ch)) as [Hlt|Hge].
  - rewrite lookup_app_l in Hq by done. assert (ch = [NEWLINE]) as ->.
    { apply newline_char; [done|]. apply list_elem_of_lookup. eauto. }
    simpl in Hlt. exists 1. simpl. split; lia.
  - rewrite lookup_app_r in Hq by lia. destruct (IH _ Hq) as (k & Hk & He). exists (S k).
    simpl. rewrite length_app. split; lia.
Qed.

Lemma concat_take_mono (cs : list (list byte)) j k :
  j ≤ k → length (concat (take j cs)) ≤ length (concat (take k cs)).
Proof.
  intros Hjk. replace k with (j + (k - j)) by lia.
  rewrite <-take_take_drop, concat_app, length_app. lia.
Qed.

Lemma concat_take_le cs j k :
  Forall is_char cs → j ≤ length cs →
  length (concat (take j cs)) ≤ length (concat (take k cs)) → j ≤ k.
Proof.
  intros Hcs Hj Hle. destruct (decide (j ≤ k)) as [|Hn]; [done|]. exfalso.
  replace j with (k + (j - k)) in Hle by lia.
  rewrite <-take_take_drop, concat_app, length_app in Hle.
  pose proof (length_concat_chars (take (j - k) (drop k cs))) as Hl.
  rewrite length_take, length_drop in Hl.
  specialize (Hl ltac:(by apply Forall_take, Forall_drop)). lia.
Qed.

Lemma length_concat_take_sub (cs : list (list byte)) j k :
  j ≤ k → length (concat (take (k - j) (drop j cs))) =
    length (concat (take k cs)) - length (concat (take j cs)).
Proof.
  intros Hjk. replace k with (j + (k - j)) at 2 by lia.
  rewrite <-take_take_drop, concat_app, length_app. lia.
Qed.

(** Slicing between character positions. *)
Lemma str_range_chars cs j k :
  Forall is_char cs → j ≤ k → k ≤ length cs →
  str_range (concat cs) (length (concat (take j cs))) (length (concat (take k cs))) =
    Ok (concat (take (k - j) (drop j cs))).
Proof.
  intros Hcs Hjk Hk. unfold str_range. rewrite !char_boundary by (done || lia).
  rewrite (proj2 (Nat.leb_le _ _)) by by apply concat_take_mono. simpl.
  rewrite drop_concat, <-length_concat_take_sub by done. by rewrite take_concat.
Qed.

Section columns.
Context (align_offset : list byte → nat) (i : Z) (f : list byte) (s : list byte) (cs : list (list byte)).
Hypothesis source_ok : is_str s cs.
Hypothesis source_u32 : (Z.of_nat (length s) ≤ u32_max)%Z.
Let c := new_map i f s.

(** The position after a newline, or the end, is a character boundary. *)
Lemma starts_boundary l p : starts s !! l = Some p → ∃ k, k ≤ length cs ∧ p = length (concat (take k cs)).
Proof.
  pose proof source_ok as [Hcs Hs]. rewrite Hs. destruct l as [|l].
  { intros [= <-]. exists 0. split; [lia|done]. }
  rewrite lookup_starts_S. intros (q & Hq & ->)%fmap_Some.
  apply newline_boundary; [done|]. apply match_newlines_newline in Hq as [_ Hq].
  by rewrite Nat.sub_0_r in Hq.
Qed.

(** The span of the line a position is on. *)
Lemma line_span_around pos b :
  pos ≤ length s → starts s !! count_nl (take pos s) = Some b →
  ∃ e k, line_span_opt c (count_nl (take pos s)) = Some (mkSpan b e) ∧ pos ≤ e ∧
    k ≤ length cs ∧ e = length (concat (take k cs)).
Proof.
  intros Hp Hb. unfold line_span_opt, c. cbn [impl new_map lines]. rewrite Hb.
  destruct (starts s !! (count_nl (take pos s) + 1)) as [e|] eqn:He.
  - destruct (starts_boundary _ _ He) as (k & Hk & Hke). exists e, k. split_and!; [done| |done|done].
    rewrite Nat.add_1_r, lookup_starts_S in He. apply fmap_Some in He as (q & Hq & ->).
    apply next_newline in Hq as [Hq _]. lia.
  - exists (length s), (length cs). 
    pose proof (full_span_new i f s source_u32) as Hfull. unfold new_map in Hfull.
    unfold new_map. rewrite Hfull. simpl. split_and!; [done|done|done|].
    rewrite take_ge by done. by pose proof source_ok as [_ <-].
Qed.

Lemma find_line_col_new k :
  k ≤ length cs →
  find_line_col align_offset c (length (concat (take k cs))) =
    Ok (let '(l, col) := line_col (take k cs) in mkResolvedPos l col).
Proof.
  intros Hk. pose proof source_ok as [Hcs Hs].
  assert (length (concat (take k cs)) ≤ length s) as Hp.
  { rewrite Hs, <-take_concat, length_take. lia. }
  pose proof (line_col_start cs k Hcs Hk) as Hlc. cbn zeta in Hlc. rewrite <-Hs in Hlc.
  destruct (line_col (take k cs)) as [l col]. destruct Hlc as (Hl & Hcol & Hst).
  unfold find_line_col, c. rewrite (full_span_new i f s source_u32). cbn [impl new_map end_]. rewrite (proj2 (Nat.leb_le _ _) Hp).
  cbn [assert mbind result_bind].
  rewrite find_line_new by done. rewrite Hl. cbn [mbind result_bind]. rewrite <-Hl in Hst.
  destruct (line_span_around _ _ Hp Hst) as (e & ke & Hspan & Hpe & Hke & He). rewrite Hl in Hspan.
  unfold line_span. change (new_map i f s) with c. rewrite Hspan. cbn [unwrap mbind result_bind begin].
  set (j := k - col) in *.
  assert (length (concat (take j cs)) ≤ length (concat (take k cs))) as Hjk
    by (apply concat_take_mono; subst j; lia).
  assert (k ≤ ke) as Hkke by (apply (concat_take_le cs); lia || done).
  unfold Pos_sub. rewrite (proj2 (Nat.leb_le _ _) Hjk). cbn [mbind result_bind].
  unfold source_span. cbn [source c new_map impl data_source begin end_].
  rewrite Hs, He, (str_range_chars cs j ke) by (done || subst j; lia). cbn [mbind result_bind].
  rewrite <-(length_concat_take_sub cs j k) by (subst j; lia).
  replace (concat (take (k - j) (drop j cs)))
    with (concat (take (k - j) (take (ke - j) (drop j cs)))).
  2: { rewrite take_take. do 2 f_equal. lia. }
  pose proof (str_range_chars (take (ke - j) (drop j cs)) 0 (k - j)) as Hinner. simpl in Hinner.
  rewrite Nat.sub_0_r in Hinner. rewrite Hinner; cbn [mbind result_bind].
  - erewrite len_ok; [|split; [|done]; by apply Forall_take, Forall_take, Forall_drop].
    cbn [mbind result_bind]. rewrite drop_0, !length_take, length_drop. do 2 f_equal. subst j. lia.
  - by apply Forall_take, Forall_drop.
  - lia.
  - rewrite length_take, length_drop. lia.
Qed.
End columns.

(** ** Lines *)

Lemma newline_order s p l q i :
  match_newlines s p !! l = Some q → q < p + i ↔ l < count_nl (take i s).
Proof.
  revert p l i. induction s as [|b s IH]; intros p l i; [done|]. cbn [match_newlines].
  destruct i as [|i]; cbn [take].
  - intros Hq. assert (p ≤ q); [|unfold count_nl; simpl; lia].
    apply (match_newlines_newline (b :: s) p l). done.
  - rewrite count_nl_cons. replace (p + S i) with (S p + i) by lia.
    destruct (b =? NEWLINE)%Z; [|apply IH].
    destruct l as [|l]; simpl; [intros [= <-]; lia|]. intros Hq. pose proof (IH _ _ i Hq). lia.
Qed.

Lemma length_newlines s p : length (match_newlines s p) = count_nl s.
Proof.
  revert p. induction s as [|b s IH]; intros p; [done|]. cbn [match_newlines].
  rewrite count_nl_cons. destruct (b =? NEWLINE)%Z; simpl; by rewrite IH.
Qed.

Lemma starts_order s l b p : starts s !! l = Some b → b ≤ p ↔ l ≤ count_nl (take p s).
Proof.
  destruct l as [|l]; [intros [= <-]; lia|].
  rewrite lookup_starts_S. intros (q & Hq & ->)%fmap_Some.
  pose proof (newline_order s 0 l q p Hq). lia.
Qed.

Lemma length_starts s : length (starts s) = S (count_nl s).
Proof. unfold starts. simpl. by rewrite length_fmap, length_newlines. Qed.

Lemma starts_le s l b : starts s !! l = Some b → b ≤ length s.
Proof.
  intros Hb. apply (starts_order _ _ _ _ Hb). rewrite take_ge by done.
  apply lookup_lt_Some in Hb. rewrite length_starts in Hb. lia.
Qed.

Lemma count_nl_take_le s p : count_nl (take p s) ≤ count_nl s.
Proof. rewrite <-(take_drop p s) at 2. rewrite count_nl_app. lia. Qed.

Lemma line_span_opt_new i f s l :
  (Z.of_nat (length s) ≤ u32_max)%Z →
  line_span_opt (new_map i f s) l =
    match starts s !! l with
    | Some b => Some (mkSpan b (default (length s) (starts s !! S l)))
    | None => None
    end.
Proof.
  intros Hu. unfold line_span_opt. rewrite (full_span_new i f s Hu).
  cbn [impl new_map lines data_source]. rewrite Nat.add_1_r.
  destruct (starts s !! l); [|done]. by destruct (starts s !! S l).
Qed.

Lemma line_span_lines i f s l b e :
  (Z.of_nat (length s) ≤ u32_max)%Z →
  line_span_opt (new_map i f s) l = Some (mkSpan b e) →
  b ≤ e ≤ length s ∧
  ∀ p, p ≤ length s →
    count_nl (take p s) = l ↔ b ≤ p ∧ (p < e ∨ (l = count_nl s ∧ p = length s)).
Proof.
  intros Hu. rewrite line_span_opt_new by done.
  destruct (starts s !! l) as [b'|] eqn:Hb; [|done]. intros Hspan.
  assert (l ≤ count_nl s) as Hl.
  { apply lookup_lt_Some in Hb. rewrite length_starts in Hb. lia. }
  destruct (starts s !! S l) as [e'|] eqn:He.
  - injection Hspan as -> ->. split.
    + split; [|by eapply starts_le]. apply (starts_order _ _ _ _ Hb).
      transitivity (S l); [lia|]. by apply (starts_order _ _ _ e He).
    + intros p Hp. rewrite (starts_order _ _ _ p Hb). pose proof (starts_order _ _ _ p He).
      assert (l ≠ count_nl s); [|lia]. apply lookup_lt_Some in He. rewrite length_starts in He. lia.
  - injection Hspan as -> <-. assert (l = count_nl s) as ->.
    { apply lookup_ge_None in He. rewrite length_starts in He. lia. }
    split; [split; [by eapply starts_le|done]|]. intros p Hp.
    rewrite (starts_order _ _ _ p Hb). pose proof (count_nl_take_le s p). lia.
Qed.

(** * Properties *)

(** C34: building a code map of a UTF-8 source of fewer than [2^32] bytes succeeds, and
    resolving positions in it never panics: [find_line] counts the newlines before the
    position, and [find_line_col] at a character boundary gives the line and the column, in
    characters, of a single pass over the characters.  Spans resolve pointwise. *)
Theorem code_map_resolves (align_offset : list byte → nat) (i : Z) (f s : list byte)
    (cs : list (list byte)) (Hs : is_str s cs) (Hu : (Z.of_nat (length s) ≤ u32_max)%Z) :
  ∃ c, CodeMap_new i f s = Ok c ∧ source c = s ∧
    (∀ pos, pos ≤ length s → find_line c pos = Ok (count_nl (take pos s))) ∧
    (∀ j k, j ≤ length cs → k ≤ length cs →
      resolve_span align_offset c
        (mkSpan (length (concat (take j cs))) (length (concat (take k cs)))) =
      Ok (let '(l1, c1) := line_col (take j cs) in let '(l2, c2) := line_col (take k cs) in
          mkResolvedSpan (mkResolvedPos l1 c1) (mkResolvedPos l2 c2))).
Proof.
  exists (new_map i f s). split_and!; [by apply CodeMap_new_ok|done|by intros; apply find_line_new|].
  intros j k Hj Hk. unfold resolve_span. cbn [begin end_].
  rewrite !(find_line_col_new align_offset i f s cs) by done. cbn [mbind result_bind].
  by repeat destruct (line_col _).
Qed.

(** the lines of a code map partition its source: [line_span_opt] answers exactly for
    the lines there are, one more than the newlines; a position is on line [l] ([find_line])
    exactly when it lies in the span of [l], ends excluded except for the end of the source,
    which is on the last line. *)
Theorem line_spans_partition (i : Z) (f s : list byte) (c : CodeMap)
    (Hu : (Z.of_nat (length s) ≤ u32_max)%Z) (Hc : CodeMap_new i f s = Ok c) :
  (∀ l, is_Some (line_span_opt c l) ↔ l ≤ count_nl s) ∧
  (∀ l span, line_span_opt c l = Some span →
    begin span ≤ end_ span ≤ length s ∧
    ∀ p, p ≤ length s →
      find_line c p = Ok l ↔
      begin span ≤ p ∧ (p < end_ span ∨ (l = count_nl s ∧ p = length s))).
Proof.
  rewrite CodeMap_new_ok in Hc by done. injection Hc as <-. split.
  - intros l. rewrite line_span_opt_new by done. rewrite <-Nat.lt_succ_r, <-length_starts.
    rewrite <-lookup_lt_is_Some. destruct (starts s !! l); split; intros []; eauto; done.
  - intros l [b e] Hsp. destruct (line_span_lines _ _ _ _ _ _ Hu Hsp) as [Hbe Hp].
    split; [done|]. intros p Hle. rewrite find_line_new by done. cbn [begin end_].
    rewrite <-(Hp p Hle). split; [by intros [= ->]|by intros ->].
Qed.

(** [merge] is the least span covering both its arguments, [merge_all] the least span
    covering all of a non-empty list, and [intersects] holds exactly when some position is
    in both spans. *)
Theorem span_algebra (a b : Span) (Ha : begin a ≤ end_ a) (Hb : begin b ≤ end_ b) :
  (∀ c, begin (merge a b) ≤ begin c → end_ c ≤ end_ (merge a b) →
    ∀ p, contains c p = true → contains (merge a b) p = true) ∧
  (∀ c, (∀ p, contains a p || contains b p = true → contains c p = true) ↔
        (∀ p, contains (merge a b) p = true → contains c p = true)) ∧
  merge_all [a; b] = merge a b ∧
  (∀ l, merge_all (a :: b :: l) = merge_all (merge a b :: l)) ∧
  (intersects a b = true ↔ ∃ p, contains a p = true ∧ contains b p = true).
Proof.
  assert (∀ x p, contains x p = true ↔ begin x ≤ p ≤ end_ x) as Hin.
  { intros x p. unfold contains. by rewrite andb_true_iff, !Nat.leb_le. }
  split_and!; [| |done|done|].
  - intros c. unfold merge, contains; simpl. intros ?? p Hp.
    apply andb_true_iff in Hp as [?%Nat.leb_le ?%Nat.leb_le].
    apply andb_true_iff; split; apply Nat.leb_le; lia.
  - intros c. setoid_rewrite orb_true_iff. setoid_rewrite Hin. unfold merge; cbn [begin end_]. split.
    + intros H p Hp. pose proof (H (begin a)). pose proof (H (begin b)).
      pose proof (H (end_ a)). pose proof (H (end_ b)). lia.
    + intros H p Hp. apply H. lia.
  - unfold intersects. rewrite !orb_true_iff. setoid_rewrite Hin. split.
    + intros [[?|?]|?]; [exists (begin b)|exists (end_ b)|exists (begin a)]; lia.
    + intros (p & ? & ?). lia.
Qed.

(** ** Witnesses *)

(** ["é\nlo"]. *)
Definition witness_lines : list (list byte) := [[0xC3; 0xA9]; [0x0A]; [0x6C]; [0x6F]]%Z.

Lemma witness_lines_is_str : is_str (concat witness_lines) witness_lines.
Proof.
  split; [|done]. repeat apply Forall_cons_2; [..|constructor];
    (split; [lia|split; [done|repeat constructor; lia]]).
Defined.

Lemma code_map_resolves_witness :
  ∃ c, CodeMap_new 1 [] (concat witness_lines) = Ok c ∧
    find_line c 4 = Ok 1 ∧
    resolve_span (λ _, 3) c (mkSpan 2 4) =
      Ok (mkResolvedSpan (mkResolvedPos 0 1) (mkResolvedPos 1 1)).
Proof.
  destruct (code_map_resolves (λ _, 3) 1 [] _ _ witness_lines_is_str ltac:(by vm_compute))
    as (c & Hc & _ & Hl & Hr).
  exists c. split_and!; [done| |].
  - apply (Hl 4). by vm_compute; lia.
  - apply (Hr 1 3); vm_compute; lia.
Defined.

Lemma line_spans_partition_witness :
  ∃ c, CodeMap_new 1 [] (concat witness_lines) = Ok c ∧
    is_Some (line_span_opt c 1) ∧ line_span_opt c 2 = None.
Proof.
  destruct (CodeMap_new 1 [] (concat witness_lines)) as [c|e|e] eqn:Hc; [|by destruct e|by vm_compute in Hc].
  exists c. destruct (line_spans_partition 1 [] (concat witness_lines) c ltac:(by vm_compute) Hc) as [Hl _].
  split_and!; [done|apply Hl; vm_compute; lia|].
  destruct (line_span_opt c 2) eqn:H2; [|done]. exfalso.
  assert (2 ≤ count_nl (concat witness_lines)) as Hle by (apply Hl; eauto). vm_compute in Hle. lia.
Defined.

Lemma span_algebra_witness :
  intersects (mkSpan 1 3) (mkSpan 3 5) = true ↔
    ∃ p, contains (mkSpan 1 3) p = true ∧ contains (mkSpan 3 5) p = true.
Proof. apply (span_algebra (mkSpan 1 3) (mkSpan 3 5)); simpl; lia. Defined.
