(* ===== verification/DefParams.v ===== *)
(** [starlark_syntax/src/syntax/def.rs], the parameters of [ast.rs], and
    [starlark/src/eval/runtime/params/display.rs]: the parameters of a [def] or [lambda].
    [DefParams_unpack] checks a parameter list and removes its markers; [iter_fmt_param_spec]
    puts the markers back for printing.  The specification is the shape of a parameter list,
    [layout_of]. *)

From S2P Require Import Prelude FastString CodeMap.

(** * The code *)

(** [Spanned]. *)
Record Spanned (A : Type) := mkSpanned { span : Span; node : A }.
Arguments mkSpanned {A}.
Arguments span {A}.
Arguments node {A}.

Section def_params.
(** Type annotations and default values. *)
Context {Ty E : Type}.

Inductive ParameterP :=
| Slash
| Normal (n : list byte) (ty : option Ty) (default : option E)
| NoArgs
| Args (n : list byte) (ty : option Ty)
| KwArgs (n : list byte) (ty : option Ty).

Definition ident (p : ParameterP) : option (list byte) :=
  match p with Normal x _ _ | Args x _ | KwArgs x _ => Some x | NoArgs | Slash => None end.

Inductive DefRegularParamMode := PosOnly | PosOrName | NameOnly.
Inductive DefParamKind :=
| KindRegular (mode : DefRegularParamMode) (default : option E)
| KindArgs
| KindKwargs.
Record DefParam := mkDefParam { param_ident : list byte; param_kind : DefParamKind; param_ty : option Ty }.

Record DefParamIndices := mkIndices {
  num_positional : nat;
  num_positional_only : nat;
  args : option nat;
  kwargs : option nat;
}.
(** Ranges: first and one past the last. *)
Definition pos_only (i : DefParamIndices) : nat * nat := (0, num_positional_only i).
Definition pos_or_named (i : DefParamIndices) : nat * nat := (num_positional_only i, num_positional i).
Definition named_only (i : DefParamIndices) (param_count : nat) : nat * nat :=
  (match args i with Some a => a + 1 | None => num_positional i end,
   default (Z.to_nat (Z.of_nat param_count mod 2 ^ 32)) (kwargs i)).

Record DefParams := mkDefParams { params : list (Spanned DefParam); indices : DefParamIndices }.

Inductive ParamError :=
| DuplicatedParameterName
| SlashFirst
| TooManyParameters (n : nat)
| ParameterAfterKwargs
| PositionalAfterNonPositional
| ArgsAfterArgs
| MultipleSlash
| MultipleKwargs
| StarLast
| StarNotFollowedByNamed
| InternalError.
Abbreviation unpacked A := (result (ParamError * Span) A).

Inductive State := Initial | SeenSlash | SeenStar | SeenStarStar.
(** [PartialOrd] of the enum: its declaration order. *)
Definition state_index (s : State) : nat :=
  match s with Initial => 0 | SeenSlash => 1 | SeenStar => 2 | SeenStarStar => 3 end.
Definition state_lt (a b : State) : bool := state_index a <? state_index b.

(** The variables of the loop. *)
Record Unpack := mkUnpack {
  argset : gset (list byte);
  seen_optional : bool;
  out : list (Spanned DefParam);
  count_positional : nat;
  args_at : option nat;
  kwargs_at : option nat;
  index_of_star : option nat;
  state : State;
}.
Implicit Types u : Unpack.

Definition check_param_name u (n : list byte) (span : Span) : unpacked Unpack :=
  if decide (n ∈ argset u) then Err (DuplicatedParameterName, span)
  else Ok (mkUnpack ({[n]} ∪ argset u) (seen_optional u) (out u) (count_positional u)
             (args_at u) (kwargs_at u) (index_of_star u) (state u)).

(** [num_positional] is an [i32]; [args] and [kwargs] are [u32]. *)
Definition succ_i32 (n : nat) : unpacked nat :=
  if (Z.of_nat (n + 1) <=? i32_max)%Z then Ok (n + 1) else Panic.
Definition u32_of_usize (n : nat) : unpacked nat :=
  if (Z.of_nat n <=? u32_max)%Z then Ok n else Panic.
Definition mode_of (s : State) : DefRegularParamMode :=
  if state_lt s SeenSlash then PosOnly else if state_lt s SeenStar then PosOrName else NameOnly.

Definition unpack_node u (i : nat) (p : Spanned ParameterP) : unpacked Unpack :=
  match node p with
  | Normal n ty default_value =>
    if negb (state_lt (state u) SeenStarStar) then Err (ParameterAfterKwargs, span p) else
    seen ← match default_value with
           | None =>
             if seen_optional u && state_lt (state u) SeenStar
             then Err (PositionalAfterNonPositional, span p) else Ok (seen_optional u)
           | Some _ => Ok true
           end;
    count ← if state_lt (state u) SeenStar then succ_i32 (count_positional u)
            else Ok (count_positional u);
    Ok (mkUnpack (argset u) seen
          (out u ++ [mkSpanned (span p) (mkDefParam n (KindRegular (mode_of (state u)) default_value) ty)])
          count (args_at u) (kwargs_at u) (index_of_star u) (state u))
  | NoArgs =>
    if negb (state_lt (state u) SeenStar) then Err (ArgsAfterArgs, span p) else
    match index_of_star u with
    | Some _ => Err (InternalError, span p)
    | None =>
      Ok (mkUnpack (argset u) (seen_optional u) (out u) (count_positional u)
            (args_at u) (kwargs_at u) (Some i) SeenStar)
    end
  | Slash =>
    if negb (state_lt (state u) SeenSlash) then Err (MultipleSlash, span p) else
    Ok (mkUnpack (argset u) (seen_optional u) (out u) (count_positional u)
          (args_at u) (kwargs_at u) (index_of_star u) SeenSlash)
  | Args n ty =>
    if negb (state_lt (state u) SeenStar) then Err (ArgsAfterArgs, span p) else
    match args_at u with
    | Some _ => Err (InternalError, span p)
    | None =>
      a ← u32_of_usize (length (out u));
      Ok (mkUnpack (argset u) (seen_optional u)
            (out u ++ [mkSpanned (span p) (mkDefParam n KindArgs ty)]) (count_positional u)
            (Some a) (kwargs_at u) (index_of_star u) SeenStar)
    end
  | KwArgs n ty =>
    if negb (state_lt (state u) SeenStarStar) then Err (MultipleKwargs, span p) else
    match kwargs_at u with
    | Some _ => Err (InternalError, span p)
    | None =>
      a ← u32_of_usize (length (out u));
      Ok (mkUnpack (argset u) (seen_optional u)
            (out u ++ [mkSpanned (span p) (mkDefParam n KindKwargs ty)]) (count_positional u)
            (args_at u) (Some a) (index_of_star u) SeenStarStar)
    end
  end.

Definition unpack_step u (i : nat) (p : Spanned ParameterP) : unpacked Unpack :=
  u ← match ident (node p) with Some n => check_param_name u n (span p) | None => Ok u end;
  unpack_node u i p.
Fixpoint unpack_loop u (i : nat) (ps : list (Spanned ParameterP)) : unpacked Unpack :=
  match ps with
  | [] => Ok u
  | p :: ps => u ← unpack_step u i p; unpack_loop u (i + 1) ps
  end.

Definition is_slash (p : Spanned ParameterP) : bool :=
  match node p with Slash => true | _ => false end.

(** After the loop: what follows a [*]. *)
Definition check_star (ps : list (Spanned ParameterP)) (index_of_star : option nat) : unpacked () :=
  match index_of_star with
  | None => Ok ()
  | Some i =>
    match ps !! (i + 1) with
    | None => p ← unwrap (ps !! i); Err (StarLast, span p)
    | Some next =>
      match node next with
      | Normal _ _ _ => Ok ()
      | _ => Err (StarNotFollowedByNamed, span next)
      end
    end
  end.

Definition DefParams_unpack (ps : list (Spanned ParameterP)) : unpacked DefParams :=
  num_positional_only ←
    match find_index is_slash ps with
    | None => Ok 0
    | Some 0 => p ← unwrap (head ps); Err (SlashFirst, span p)
    | Some n =>
      if (Z.of_nat n <=? u32_max)%Z then Ok n
      else Err (TooManyParameters (length ps), merge_all (span <$> ps))
    end;
  let state := if num_positional_only =? 0 then SeenSlash else Initial in
  u ← unpack_loop (mkUnpack ∅ false [] 0 None None None state) 0 ps;
  _ ← check_star ps (index_of_star u);
  num_positional ← u32_of_usize (count_positional u);
  Ok (mkDefParams (out u) (mkIndices num_positional num_positional_only (args_at u) (kwargs_at u))).
End def_params.
Arguments ParameterP : clear implicits.
Arguments DefParam : clear implicits.
Arguments DefParams : clear implicits.
Arguments DefParamKind : clear implicits.

(** ** Printing *)

(** A parameter or a separator. *)
Inductive FmtParam (T : Type) :=
| FmtRegular (p : T)
| FmtArgs (p : T)
| FmtKwargs (p : T)
| FmtSlash
| FmtStar.
Arguments FmtRegular {T}. Arguments FmtArgs {T}. Arguments FmtKwargs {T}.
Arguments FmtSlash {T}. Arguments FmtStar {T}.

Definition iter_fmt_param_spec {T} (pos_only pos_named : list T) (args : option T)
    (named_only : list T) (kwargs : option T) : list (FmtParam T) :=
  let slash := match pos_only with [] => [] | _ => [FmtSlash] end in
  let args_or_star := match named_only, args with
    | _, Some args => [FmtArgs args]
    | _ :: _, None => [FmtStar]
    | [], None => []
    end in
  (FmtRegular <$> pos_only) ++ slash ++ (FmtRegular <$> pos_named) ++ args_or_star ++
  (FmtRegular <$> named_only) ++ match kwargs with Some k => [FmtKwargs k] | None => [] end.
