(* ===== verification/DefLayout.v ===== *)
(** The shape of parameter lists: [DefParams_unpack] accepts exactly the lists
    [a, b, /, c, d, *args, e, f, **kwargs] in which each part may be missing, and describes
    their parts by its indices; and the printer of signatures inverts it. *)

From S2P Require Import Prelude FastString CodeMap DefParams.

(** * Layouts *)

Section layout.
Context {Ty E : Type}.
Abbreviation ParameterP := (ParameterP Ty E).

(** A regular parameter; the name and type of [*args] or [**kwargs]. *)
Record Regular := mkRegular { r_name : list byte; r_ty : option Ty; r_default : option E }.
Record Named := mkNamed { n_name : list byte; n_ty : option Ty }.
Inductive StarPart :=
| NoStar
| BareStar (s : Span)
| StarArgs (p : Spanned Named).

Record Layout := mkLayout {
  l_pos_only : list (Spanned Regular);
  l_slash : option Span;
  l_pos_named : list (Spanned Regular);
  l_star : StarPart;
  l_named : list (Spanned Regular);
  l_kwargs : option (Spanned Named);
}.
Implicit Types (L : Layout) (p : Spanned ParameterP) (r : Spanned Regular).

Definition option_list {A} (o : option A) : list A := match o with Some a => [a] | None => [] end.

(** The list of parameters as it is written. *)
Definition normal r : Spanned ParameterP :=
  mkSpanned (span r) (Normal (r_name (node r)) (r_ty (node r)) (r_default (node r))).
Definition star_ast (s : StarPart) : list (Spanned ParameterP) :=
  match s with
  | NoStar => []
  | BareStar s => [mkSpanned s NoArgs]
  | StarArgs a => [mkSpanned (span a) (Args (n_name (node a)) (n_ty (node a)))]
  end.
Definition kwargs_ast (k : Spanned Named) : Spanned ParameterP :=
  mkSpanned (span k) (KwArgs (n_name (node k)) (n_ty (node k))).
Definition ast_of L : list (Spanned ParameterP) :=
  (normal <$> l_pos_only L) ++ option_list ((λ s, mkSpanned s Slash) <$> l_slash L) ++
  (normal <$> l_pos_named L) ++ star_ast (l_star L) ++ (normal <$> l_named L) ++
  option_list (kwargs_ast <$> l_kwargs L).

(** The list without markers, and the indices that stand for them. *)
Definition regular (mode : DefRegularParamMode) r : Spanned (DefParam Ty E) :=
  mkSpanned (span r) (mkDefParam (r_name (node r)) (KindRegular mode (r_default (node r))) (r_ty (node r))).
Definition star_params (s : StarPart) : list (Spanned (DefParam Ty E)) :=
  match s with
  | NoStar | BareStar _ => []
  | StarArgs a => [mkSpanned (span a) (mkDefParam (n_name (node a)) KindArgs (n_ty (node a)))]
  end.
Definition kwargs_param (k : Spanned Named) : Spanned (DefParam Ty E) :=
  mkSpanned (span k) (mkDefParam (n_name (node k)) KindKwargs (n_ty (node k))).
Definition params_of L : list (Spanned (DefParam Ty E)) :=
  (regular PosOnly <$> l_pos_only L) ++ (regular PosOrName <$> l_pos_named L) ++
  star_params (l_star L) ++ (regular NameOnly <$> l_named L) ++
  option_list (kwargs_param <$> l_kwargs L).

Definition positional_of L : nat := length (l_pos_only L) + length (l_pos_named L).
Definition args_of L : option nat :=
  match l_star L with StarArgs _ => Some (positional_of L) | _ => None end.
Definition kwargs_of L : option nat :=
  match l_kwargs L with
  | Some _ => Some (positional_of L + length (star_params (l_star L)) + length (l_named L))
  | None => None
  end.
Definition indices_of L : DefParamIndices :=
  mkIndices (positional_of L) (length (l_pos_only L)) (args_of L) (kwargs_of L).

(** ** Well-formed layouts *)

Definition param_names L : list (list byte) := (λ q, param_ident (node q)) <$> params_of L.

Definition has_default r : bool := match r_default (node r) with Some _ => true | None => false end.
(** Once a parameter has a default value, so have those that follow. *)
Fixpoint defaults_last (seen : bool) (l : list (Spanned Regular)) : bool :=
  match l with
  | [] => true
  | r :: l => (negb seen || has_default r) && defaults_last (seen || has_default r) l
  end.

(** A [/] is there exactly when something precedes it; after a bare [*] there are named
    parameters, which need some [*]. *)
Record well_formed L : Prop := {
  wf_slash : l_slash L = None ↔ l_pos_only L = [];
  wf_star : match l_star L with
    | NoStar => l_named L = []
    | BareStar _ => l_named L ≠ []
    | StarArgs _ => True
    end;
  wf_names : NoDup (param_names L);
  wf_defaults : defaults_last false (l_pos_only L ++ l_pos_named L) = true;
}.

(** * One step of the loop *)

(** [ahead] tells that the list has a [/]. *)
Definition state_of (ahead : bool) L : State :=
  match l_kwargs L, l_star L, l_slash L with
  | Some _, _, _ => SeenStarStar
  | _, BareStar _, _ | _, StarArgs _, _ => SeenStar
  | _, _, Some _ => SeenSlash
  | _, _, _ => if ahead then Initial else SeenSlash
  end.

Definition unpack_of (ahead : bool) L : Unpack (Ty:=Ty) (E:=E) :=
  mkUnpack (list_to_set (param_names L))
    (existsb has_default (l_pos_only L ++ l_pos_named L ++ l_named L))
    (params_of L) (positional_of L) (args_of L) (kwargs_of L)
    (match l_star L with
     | BareStar _ => Some (positional_of L + length (option_list (l_slash L)))
     | _ => None
     end)
    (state_of ahead L).

(** Layouts of a prefix of the list. *)
Record partial (ahead : bool) L : Prop := {
  partial_named : l_star L = NoStar → l_named L = [];
  partial_pos_named : ahead = true → l_slash L = None → l_pos_named L = [];
  partial_pos_only : ahead = false → l_pos_only L = [] ∧ l_slash L = None;
  partial_names : NoDup (param_names L);
  partial_defaults : defaults_last false (l_pos_only L ++ l_pos_named L) = true;
}.

(** The layout with one more parameter, if it may follow. *)
Definition extend_node (ahead : bool) L p : option Layout :=
  let '(mkLayout po sl pn st no kw) := L in
  match node p with
  | Normal n ty d =>
    let r := mkSpanned (span p) (mkRegular n ty d) in
    match kw, st with
    | Some _, _ => None
    | None, NoStar =>
      if negb (existsb has_default (po ++ pn)) || has_default r then
        Some match ahead, sl with
             | true, None => mkLayout (po ++ [r]) sl pn st no kw
             | _, _ => mkLayout po sl (pn ++ [r]) st no kw
             end
      else None
    | None, _ => Some (mkLayout po sl pn st (no ++ [r]) kw)
    end
  | Slash =>
    match kw, st, sl with
    | None, NoStar, None => if ahead then Some (mkLayout po (Some (span p)) pn st no kw) else None
    | _, _, _ => None
    end
  | NoArgs =>
    match kw, st with None, NoStar => Some (mkLayout po sl pn (BareStar (span p)) no kw) | _, _ => None end
  | Args n ty =>
    match kw, st with
    | None, NoStar => Some (mkLayout po sl pn (StarArgs (mkSpanned (span p) (mkNamed n ty))) no kw)
    | _, _ => None
    end
  | KwArgs n ty =>
    match kw with
    | None => Some (mkLayout po sl pn st no (Some (mkSpanned (span p) (mkNamed n ty))))
    | Some _ => None
    end
  end.
Definition extend (ahead : bool) L p : option Layout :=
  match ident (node p) with
  | Some n => if decide (n ∈ param_names L) then None else extend_node ahead L p
  | None => extend_node ahead L p
  end.
End layout.
Arguments Layout : clear implicits.
Arguments Regular : clear implicits.
Arguments Named : clear implicits.
Arguments StarPart : clear implicits.

Section step.
Context {Ty E : Type}.
Implicit Types (L : Layout Ty E) (p : Spanned (ParameterP Ty E)).

Lemma defaults_last_snoc b (l : list (Spanned (Regular Ty E))) r :
  defaults_last b (l ++ [r]) =
    defaults_last b l && (negb (b || existsb has_default l) || has_default r).
Proof.
  revert b. induction l as [|x l IH]; intros b; simpl.
  - by rewrite orb_false_r, andb_true_r.
  - rewrite IH, <-orb_assoc, andb_assoc. done.
Qed.

Lemma existsb_snoc {A} (f : A → bool) l x : existsb f (l ++ [x]) = existsb f l || f x.
Proof. rewrite existsb_app. simpl. by rewrite orb_false_r. Qed.

(** Breaks a step into its cases. *)
Ltac extend_cases L p :=
  let s := fresh "s" in
  destruct L as [po sl pn st no kw], p as [s p]; unfold extend_node in *; simpl in *;
  destruct p, kw, st; simpl in *; simplify_eq/=.

Lemma extend_ast ahead L p L' :
  partial ahead L → extend_node ahead L p = Some L' → ast_of L' = ast_of L ++ [p].
Proof.
  intros [Hno Hpn _ _ _] Hext. unfold ast_of. extend_cases L p.
  all: try (rewrite (Hno eq_refl) in *); destruct ahead, sl; case_tests; simplify_eq/=.
  all: try (rewrite (Hpn eq_refl eq_refl) in *); rewrite ?fmap_app; by simplify_list_eq.
Qed.
Lemma extend_params ahead L p L' :
  partial ahead L → extend_node ahead L p = Some L' →
  params_of L' = params_of L ++
    match node p with
    | Normal n ty d =>
      [mkSpanned (span p) (mkDefParam n (KindRegular (mode_of (state_of ahead L)) d) ty)]
    | Args n ty => [mkSpanned (span p) (mkDefParam n KindArgs ty)]
    | KwArgs n ty => [mkSpanned (span p) (mkDefParam n KindKwargs ty)]
    | NoArgs | Slash => []
    end.
Proof.
  intros [Hno Hpn _ _ _] Hext. unfold params_of. extend_cases L p.
  all: try (rewrite (Hno eq_refl) in *); destruct ahead, sl; case_tests; simplify_eq/=.
  all: try (rewrite (Hpn eq_refl eq_refl) in *); rewrite ?fmap_app; by simplify_list_eq.
Qed.

Lemma extend_names ahead L p L' :
  partial ahead L → extend_node ahead L p = Some L' →
  param_names L' = param_names L ++ option_list (ident (node p)).
Proof.
  intros Hp Hext. unfold param_names. rewrite (extend_params _ _ _ _ Hp Hext), fmap_app.
  by destruct (node p).
Qed.

Lemma extend_partial ahead L p L' :
  partial ahead L → extend ahead L p = Some L' → partial ahead L'.
Proof.
  intros Hp Hext. assert (extend_node ahead L p = Some L' ∧
    (∀ n, ident (node p) = Some n → n ∉ param_names L)) as [Hnode Hfresh].
  { unfold extend in Hext. destruct (ident (node p)); [|done]. case_decide; [done|].
    split; [done|]. by intros ? [= <-]. }
  assert (NoDup (param_names L')) as Hnd.
  { rewrite (extend_names _ _ _ _ Hp Hnode). destruct (ident (node p)) as [n|]; simpl.
    - apply NoDup_app. split_and!; [apply Hp| |apply NoDup_singleton].
      intros x Hx ->%list_elem_of_singleton. by apply (Hfresh n).
    - rewrite app_nil_r. apply Hp. }
  clear Hext Hfresh. destruct Hp as [Hno Hpn Hpo _ Hd]. split; [..|exact Hnd|]; clear Hnd.
  all: extend_cases L p; try (rewrite (Hno eq_refl) in *); destruct ahead, sl; case_tests;
    simplify_eq/=; try done; try (destruct (Hpo eq_refl); by simplify_eq).
  all: try (rewrite (Hpn eq_refl eq_refl), ?app_nil_r in *).
  all: rewrite ?app_assoc, ?defaults_last_snoc, ?Hd; simpl; try done.
Qed.
(** The variables of the loop with another [argset]. *)
Definition with_names (A : gset (list byte)) (u : Unpack (Ty:=Ty) (E:=E)) : Unpack :=
  mkUnpack A (seen_optional u) (out u) (count_positional u) (args_at u) (kwargs_at u)
    (index_of_star u) (state u).

(** The checks on the width of counts pass; the records are equal field by field. *)
Ltac unpack_fields :=
  repeat match goal with
  | |- context [(?a <=? ?b)%Z] =>
    destruct (Z.leb_spec a b) as [_|]; [|unfold i32_max, u32_max in *; lia]
  end; cbn [mbind result_bind];
  rewrite ?existsb_app in *; simpl; rewrite ?orb_false_r, ?orb_true_r;
  do 2 f_equal; rewrite ?fmap_app, ?length_app; simpl;
  solve [done | congruence | lia | f_equal; lia | by simplify_list_eq].

Lemma unpack_node_extend ahead L p A :
  partial ahead L → (Z.of_nat (length (ast_of L)) < i32_max)%Z →
  match extend_node ahead L p with
  | Some L' => unpack_node (with_names A (unpack_of ahead L)) (length (ast_of L)) p =
      Ok (with_names A (unpack_of ahead L'))
  | None => is_err (unpack_node (with_names A (unpack_of ahead L)) (length (ast_of L)) p) = true
  end.
Proof.
  intros [Hno Hpn Hpo _ _] Hlen.
  unfold ast_of, succ_i32, u32_of_usize, unpack_node, unpack_of, with_names, args_of, kwargs_of,
    state_of, positional_of, params_of, state_lt in *.
  extend_cases L p; try (rewrite (Hno eq_refl) in *); destruct ahead, sl; simpl in *; try done.
  all: try (rewrite (Hpn eq_refl eq_refl) in *); rewrite ?length_app, ?length_fmap in *; simpl in *.
  all: try destruct default; simpl;
    rewrite ?app_nil_r, ?andb_false_r, ?andb_true_r, ?orb_true_r, ?orb_false_r.
  all: try (destruct (existsb has_default _) eqn:Hd; simpl; try done; []).
  all: unfold u32_of_usize, succ_i32; rewrite ?app_nil_r, ?length_app, ?length_fmap in *; simpl in *;
    rewrite ?length_fmap in *.
  all: unpack_fields.
Qed.
End step.
