(* ===== verification/DefUnpack.v ===== *)
(** [DefParams_unpack] against layouts: the loop follows the layout of what it has read, a
    well-formed list is read back as its layout, and anything else is an error. *)

From S2P Require Import Prelude FastString CodeMap DefParams DefLayout.

Section unpack.
Context {Ty E : Type}.
Implicit Types (L : Layout Ty E) (p : Spanned (ParameterP Ty E)).
Implicit Types (rs : list (Spanned (Regular Ty E))).

Lemma unpack_step_extend ahead L p :
  partial ahead L → (Z.of_nat (length (ast_of L)) < i32_max)%Z →
  match extend ahead L p with
  | Some L' => unpack_step (unpack_of ahead L) (length (ast_of L)) p = Ok (unpack_of ahead L') ∧
      partial ahead L' ∧ ast_of L' = ast_of L ++ [p]
  | None => is_err (unpack_step (unpack_of ahead L) (length (ast_of L)) p) = true
  end.
Proof.
  intros Hp Hlen. destruct (extend ahead L p) as [L'|] eqn:Hext.
  - split_and!; [|by eapply extend_partial|].
    + unfold extend in Hext. unfold unpack_step.
      assert (extend_node ahead L p = Some L') as Hnode by (destruct (ident (node p)); [by case_decide|done]).
      pose proof (unpack_node_extend ahead L p (list_to_set (param_names L')) Hp Hlen) as Hu.
      rewrite Hnode in Hu. change (with_names _ (unpack_of ahead L')) with (unpack_of ahead L') in Hu.
      rewrite <-Hu. rewrite (extend_names _ _ _ _ Hp Hnode).
      destruct (ident (node p)) as [n|] eqn:Hid; simpl; [|by rewrite app_nil_r].
      case_decide as Hn; [done|]. unfold check_param_name. simpl.
      rewrite decide_False by by rewrite elem_of_list_to_set. simpl.
      rewrite list_to_set_app_L. simpl. by rewrite union_empty_r_L, union_comm_L.
    + unfold extend in Hext. destruct (ident (node p)); [case_decide; [done|]|];
        by eapply extend_ast.
  - unfold extend in Hext. unfold unpack_step.
    destruct (ident (node p)) as [n|] eqn:Hid; simpl.
    + unfold check_param_name. simpl. case_decide as Hn.
      * by rewrite decide_True by by rewrite elem_of_list_to_set.
      * rewrite decide_False by by rewrite elem_of_list_to_set. simpl.
        pose proof (unpack_node_extend ahead L p ({[n]} ∪ list_to_set (param_names L)) Hp Hlen) as Hu.
        by rewrite Hext in Hu.
    + pose proof (unpack_node_extend ahead L p (list_to_set (param_names L)) Hp Hlen) as Hu.
      by rewrite Hext in Hu.
Qed.

(** ** The loop *)

Fixpoint extend_all (ahead : bool) L (ps : list (Spanned (ParameterP Ty E))) : option (Layout Ty E) :=
  match ps with
  | [] => Some L
  | p :: ps => match extend ahead L p with Some L => extend_all ahead L ps | None => None end
  end.

Lemma extend_all_app ahead L ps qs :
  extend_all ahead L (ps ++ qs) =
    match extend_all ahead L ps with Some L => extend_all ahead L qs | None => None end.
Proof.
  revert L. induction ps as [|p ps IH]; intros L; simpl; [done|]. destruct (extend ahead L p); [|done].
  apply IH.
Qed.

Lemma unpack_loop_extend ahead L ps :
  partial ahead L → (Z.of_nat (length (ast_of L) + length ps) ≤ i32_max)%Z →
  match extend_all ahead L ps with
  | Some L' => unpack_loop (unpack_of ahead L) (length (ast_of L)) ps = Ok (unpack_of ahead L') ∧
      partial ahead L' ∧ ast_of L' = ast_of L ++ ps
  | None => is_err (unpack_loop (unpack_of ahead L) (length (ast_of L)) ps) = true
  end.
Proof.
  revert L. induction ps as [|p ps IH]; intros L Hp Hlen; simpl in *.
  { by rewrite app_nil_r. }
  pose proof (unpack_step_extend ahead L p Hp ltac:(lia)) as Hstep.
  destruct (extend ahead L p) as [L'|].
  - destruct Hstep as (-> & Hp' & Hast). simpl.
    specialize (IH L' Hp'). rewrite Hast, length_app, <-app_assoc in IH. apply IH. simpl. lia.
  - by destruct (unpack_step _ _ _).
Qed.

(** A whole list is read back as its layout. *)
Definition empty_layout : Layout Ty E := mkLayout [] None [] NoStar [] None.

Definition add_regulars (ahead : bool) L rs : Layout Ty E :=
  let '(mkLayout po sl pn st no kw) := L in
  match st, ahead, sl with
  | NoStar, true, None => mkLayout (po ++ rs) sl pn st no kw
  | NoStar, _, _ => mkLayout po sl (pn ++ rs) st no kw
  | _, _, _ => mkLayout po sl pn st (no ++ rs) kw
  end.

Lemma defaults_last_app b (l l' : list (Spanned (Regular Ty E))) :
  defaults_last b (l ++ l') = defaults_last b l && defaults_last (b || existsb has_default l) l'.
Proof.
  revert b. induction l as [|r l IH]; intros b; simpl; [by rewrite orb_false_r|].
  by rewrite IH, <-orb_assoc, andb_assoc.
Qed.

Lemma extend_regulars ahead L rs :
  partial ahead L → l_kwargs L = None →
  NoDup (param_names L ++ ((λ r, r_name (node r)) <$> rs)) →
  (l_star L = NoStar → defaults_last false (l_pos_only L ++ l_pos_named L ++ rs) = true) →
  extend_all ahead L (normal <$> rs) = Some (add_regulars ahead L rs).
Proof.
  revert L. induction rs as [|r rs IH]; intros L Hp Hkw Hnd Hd.
  { destruct L as [po sl pn [] no kw]; simpl; [destruct ahead, sl|..]; by rewrite ?app_nil_r. }
  csimpl. assert (extend ahead L (normal r) = Some (add_regulars ahead L [r])) as Hext.
  { unfold extend. simpl. csimpl in Hnd. rewrite decide_False.
    2: { apply NoDup_app in Hnd as (_ & Hnd & _). intros Hn. apply (Hnd _ Hn). by left. }
    unfold extend_node. destruct L as [po sl pn st no kw], r as [sp [n ty d]]. simpl in *. subst kw.
    destruct st; [|done..]. specialize (Hd eq_refl). rewrite app_assoc, defaults_last_app in Hd.
    simpl in Hd. apply andb_true_iff in Hd as [_ Hd%andb_true_iff]. destruct Hd as [-> _].
    by destruct ahead, sl. }
  rewrite Hext. pose proof (extend_partial _ _ _ _ Hp Hext) as Hp'.
  assert (extend_node ahead L (normal r) = Some (add_regulars ahead L [r])) as Hnode
    by (unfold extend in Hext; simpl in Hext; by case_decide).
  rewrite IH; [|done|..].
  - f_equal. destruct L as [po sl pn [] no kw]; simpl; [destruct ahead, sl|..]; simpl;
      by rewrite <-?app_assoc.
  - destruct L as [po sl pn [] no kw]; simpl; [destruct ahead, sl|..]; done.
  - rewrite (extend_names _ _ _ _ Hp Hnode). simpl. csimpl in Hnd. by rewrite <-app_assoc.
  - intros Hs. assert (l_star L = NoStar) as Hs'.
    { destruct L as [po sl pn [] no kw]; simpl in *; [done|done..]. }
    specialize (Hd Hs'). destruct L as [po sl pn st no kw]. simpl in *. subst st.
    destruct Hp as [_ Hpn _ _ _]. destruct ahead, sl; simpl in *.
    all: try rewrite (Hpn eq_refl eq_refl) in *; by rewrite <-?app_assoc.
Qed.

(** ** Whole lists *)

Definition has_slash L : bool := match l_slash L with Some _ => true | None => false end.

Lemma partial_empty ahead : partial ahead empty_layout.
Proof. split; simpl; [done..|constructor|done]. Qed.

Lemma names_split L :
  param_names L =
    ((λ r, r_name (node r)) <$> l_pos_only L) ++ ((λ r, r_name (node r)) <$> l_pos_named L) ++
    ((λ q : Spanned (DefParam Ty E), param_ident (node q)) <$> star_params (l_star L)) ++
    ((λ r, r_name (node r)) <$> l_named L) ++
    ((λ q : Spanned (DefParam Ty E), param_ident (node q)) <$> option_list (kwargs_param <$> l_kwargs L)).
Proof. unfold param_names, params_of. by rewrite !fmap_app, <-!list_fmap_compose. Qed.

(** Reading parameters from a prefix with layout [L] to one with layout [L']. *)
Definition reads (ahead : bool) L (ps : list (Spanned (ParameterP Ty E))) L' : Prop :=
  extend_all ahead L ps = Some L' ∧ partial ahead L'.

Lemma reads_app ahead L ps L' qs L'' :
  reads ahead L ps L' → (partial ahead L' → reads ahead L' qs L'') → reads ahead L (ps ++ qs) L''.
Proof.
  intros [Hp HP] Hq. destruct (Hq HP) as [Hq' HP']. split; [|done]. by rewrite extend_all_app, Hp.
Qed.

Lemma reads_nil ahead L : partial ahead L → reads ahead L [] L.
Proof. done. Qed.

Lemma extend_all_partial ahead L ps L' :
  partial ahead L → extend_all ahead L ps = Some L' → reads ahead L ps L'.
Proof.
  intros Hp Hext. split; [done|]. revert L Hp Hext.
  induction ps as [|p ps IH]; intros L Hp Hext; simpl in *; [by simplify_eq|].
  destruct (extend ahead L p) as [L''|] eqn:Hx; [|done]. eapply IH; [|done]. by eapply extend_partial.
Qed.

Lemma reads_marker ahead L p L' :
  partial ahead L → extend_node ahead L p = Some L' → NoDup (param_names L') →
  reads ahead L [p] L'.
Proof.
  intros Hp Hext Hnd. apply extend_all_partial; [done|]. simpl. unfold extend.
  rewrite (extend_names _ _ _ _ Hp Hext) in Hnd. rewrite Hext.
  destruct (ident (node p)) as [n|]; [|done]. rewrite decide_False; [done|]. intros Hn.
  apply NoDup_app in Hnd as (_ & Hnd & _). apply (Hnd n Hn). by left.
Qed.

Lemma reads_regulars ahead L rs L' :
  partial ahead L → l_kwargs L = None → add_regulars ahead L rs = L' →
  NoDup (param_names L ++ ((λ r, r_name (node r)) <$> rs)) →
  (l_star L = NoStar → defaults_last false (l_pos_only L ++ l_pos_named L ++ rs) = true) →
  reads ahead L (normal <$> rs) L'.
Proof. intros Hp Hkw <- Hnd Hd. apply extend_all_partial; [done|]. by apply extend_regulars. Qed.

Lemma NoDup_prefixes {A} (a b c d e : list A) :
  NoDup (a ++ b ++ c ++ d ++ e) →
  NoDup a ∧ NoDup (a ++ b) ∧ NoDup (a ++ b ++ c) ∧ NoDup (a ++ b ++ c ++ d).
Proof.
  intros Hnd. assert (∀ x y : list A, NoDup (x ++ y) → NoDup x) as Hx
    by (intros x y Hxy; by apply NoDup_app in Hxy as [? _]).
  split_and!; [eapply Hx; exact Hnd|apply (Hx _ (c ++ d ++ e))|apply (Hx _ (d ++ e))|apply (Hx _ e)];
    by rewrite <-?app_assoc.
Qed.

Lemma extend_all_wf L :
  well_formed L → extend_all (has_slash L) empty_layout (ast_of L) = Some L.
Proof.
  destruct L as [po sl pn st no kw]. intros [Hsl Hst Hnd Hd].
  set (ahead := has_slash _). apply (proj1 (B := partial ahead (mkLayout po sl pn st no kw))).
  pose proof Hnd as Hnd'. rewrite names_split in Hnd'. apply NoDup_prefixes in Hnd' as (N1 & N2 & N3 & N4).
  unfold ast_of, ahead, has_slash in *. simpl in *.
  assert (NoDup (param_names (mkLayout (E:=E) po None [] NoStar [] None))) as M1
    by (rewrite names_split; simpl; by rewrite app_nil_r).
  assert (∀ sl', NoDup (param_names (mkLayout (E:=E) po sl' pn NoStar [] None))) as M2
    by (intros; rewrite names_split; simpl; by rewrite app_nil_r).
  assert (NoDup (param_names (mkLayout (E:=E) po sl pn st [] None))) as M3
    by (rewrite names_split; simpl; by rewrite app_nil_r).
  eapply (reads_app _ _ _ (mkLayout po None [] NoStar [] None)).
  { apply reads_regulars; [apply partial_empty|done|by destruct sl; [|rewrite (proj1 Hsl)]|done|].
    intros _. rewrite defaults_last_app in Hd. by apply andb_true_iff in Hd as [? _]. }
  intros P1. eapply (reads_app _ _ _ (mkLayout po sl [] NoStar [] None)).
  { destruct sl; [|done]. by apply reads_marker. }
  intros P2. eapply (reads_app _ _ _ (mkLayout po sl pn NoStar [] None)).
  { apply reads_regulars; [done|done|by destruct sl| |done].
    rewrite names_split. simpl. by rewrite app_nil_r. }
  intros P3. eapply (reads_app _ _ _ (mkLayout po sl pn st [] None)).
  { destruct st as [|s|[s [n ty]]]; [done|by apply reads_marker..]. }
  intros P4. eapply (reads_app _ _ _ (mkLayout po sl pn st no None)).
  { destruct st; [by rewrite Hst|apply reads_regulars; try done..];
      rewrite names_split; simpl in *; by rewrite <-?app_assoc. }
  intros P5. destruct kw as [[s [n ty]]|]; [|done]. by apply reads_marker.
Qed.

Lemma find_slash L :
  find_index is_slash (ast_of L) =
    match l_slash L with Some _ => Some (length (l_pos_only L)) | None => None end.
Proof.
  destruct L as [po sl pn st no kw]. unfold ast_of. simpl.
  assert (∀ rest, find_index is_slash ((normal <$> po) ++ rest) =
    (λ j, length po + j) <$> find_index is_slash rest) as Hpo.
  { intros rest. induction po as [|r po IH]; [by simpl; destruct (find_index _ rest)|].
    rewrite fmap_cons. cbn [app find_index]. change (is_slash (normal r)) with false. cbn iota.
    rewrite IH. by destruct (find_index _ rest). }
  rewrite Hpo. destruct sl as [s|]; simpl; [f_equal; lia|].
  assert (find_index is_slash ((normal <$> pn) ++ star_ast st ++ (normal <$> no) ++
    option_list (kwargs_ast <$> kw)) = None) as ->; [|done].
  apply find_index_None. intros j x Hx%list_elem_of_lookup_2.
  rewrite !elem_of_app, !list_elem_of_fmap in Hx.
  destruct Hx as [(r & -> & _)|[Hx|[(r & -> & _)|Hx]]]; [done| |done|].
  - destruct st; simpl in Hx; [by apply elem_of_nil in Hx|by apply list_elem_of_singleton in Hx as ->..].
  - destruct kw; simpl in Hx; [by apply list_elem_of_singleton in Hx as ->|by apply elem_of_nil in Hx].
Qed.

(** What may follow a bare [*]. *)
Lemma check_star_bare (front rest : list (Spanned (ParameterP Ty E))) s :
  check_star (front ++ mkSpanned s NoArgs :: rest) (Some (length front)) =
    match rest with
    | [] => Err (StarLast, s)
    | next :: _ => match node next with
      | Normal _ _ _ => Ok ()
      | _ => Err (StarNotFollowedByNamed, span next)
      end
    end.
Proof.
  unfold check_star. rewrite lookup_app_r, Nat.add_comm, Nat.add_sub by lia.
  rewrite lookup_app_r, Nat.sub_diag by lia. by destruct rest.
Qed.

Lemma check_star_layout ahead L :
  let bad := match l_star L, l_named L with BareStar _, [] => true | _, _ => false end in
  check_star (ast_of L) (index_of_star (unpack_of ahead L)) = Ok () ∧ bad = false ∨
  is_err (check_star (ast_of L) (index_of_star (unpack_of ahead L))) = true ∧ bad = true.
Proof.
  destruct L as [po sl pn st no kw]. destruct st as [|s|a]; [by left| |by left].
  unfold ast_of, unpack_of, positional_of. cbn -[check_star].
  set (front := (normal <$> po) ++ option_list ((λ s, mkSpanned s Slash) <$> sl) ++ (normal <$> pn)).
  replace (length po + length pn + length (option_list sl)) with (length front)
    by (subst front; rewrite !length_app, !length_fmap; destruct sl; simpl; lia).
  assert (∀ l, (normal <$> po) ++ option_list ((λ s, mkSpanned s Slash) <$> sl) ++
    (normal <$> pn) ++ l = front ++ l) as Hf by (intros l; subst front; by rewrite <-!app_assoc).
  rewrite Hf.
  rewrite check_star_bare. destruct no; [right|by left]. by destruct kw.
Qed.

(** The whole function once it is known whether there is a [/], and at which index. *)
Definition star_ok L : Prop :=
  match l_star L with NoStar => l_named L = [] | BareStar _ => l_named L ≠ [] | StarArgs _ => True end.

Lemma unpack_tail_ok ahead n (ps : list (Spanned (ParameterP Ty E))) :
  (Z.of_nat (length ps) ≤ i32_max)%Z →
  match
    u ← unpack_loop (mkUnpack ∅ false [] 0 None None None (state_of ahead empty_layout)) 0 ps;
    _ ← check_star ps (index_of_star u);
    num_positional ← u32_of_usize (count_positional u);
    Ok (mkDefParams (out u) (mkIndices num_positional n (args_at u) (kwargs_at u)))
  with
  | Ok d => ∃ L, partial ahead L ∧ star_ok L ∧ ps = ast_of L ∧
      d = mkDefParams (params_of L) (mkIndices (positional_of L) n (args_of L) (kwargs_of L))
  | Err _ => ∀ L, well_formed L → has_slash L = ahead → ps ≠ ast_of L
  | Fault _ => False
  end.
Proof.
  intros Hlen. pose proof (unpack_loop_extend ahead empty_layout ps (partial_empty ahead) Hlen) as Hloop.
  change (unpack_of ahead empty_layout) with (@mkUnpack Ty E ∅ false [] 0 None None None
    (state_of ahead empty_layout)) in Hloop.
  change (length (ast_of empty_layout)) with 0 in Hloop. change (ast_of empty_layout ++ ps) with ps in Hloop.
  destruct (extend_all ahead empty_layout ps) as [L|] eqn:Hext.
  - destruct Hloop as (-> & Hp & Hast). cbn [mbind result_bind]. rewrite <-Hast.
    destruct (check_star_layout ahead L) as [[-> Hst]|[Herr Hbad]].
    + cbn [mbind result_bind]. unfold u32_of_usize. cbn [unpack_of count_positional].
      assert (positional_of L ≤ length ps).
      { rewrite <-Hast. unfold positional_of, ast_of. rewrite !length_app, !length_fmap. lia. }
      rewrite (proj2 (Z.leb_le _ _)) by (unfold i32_max, u32_max in *; lia). cbn [mbind result_bind].
      exists L. split_and!; [done| |done|done]. unfold star_ok.
      destruct (l_star L) eqn:Hs; [|by destruct (l_named L)|done]. by apply (partial_named _ _ Hp).
    + destruct (check_star _ _) as [?|e|?]; [done| |done]. cbn [mbind result_bind].
      intros L' Hwf Hahead Heq. pose proof (extend_all_wf L' Hwf) as Hx. rewrite Hahead, <-Heq, Hast in Hx.
      assert (L' = L) as -> by (rewrite Hx in Hext; by simplify_eq).
      destruct Hwf as [_ Hst _ _]. by destruct (l_star L), (l_named L).
  - destruct (unpack_loop _ _ _) as [?|e|?]; [done| |done]. cbn [mbind result_bind].
    intros L Hwf Hahead ->. pose proof (extend_all_wf L Hwf) as Hx. rewrite Hahead in Hx. congruence.
Qed.

Lemma partial_wf ahead L :
  partial ahead L → star_ok L → (l_slash L = None ↔ l_pos_only L = []) → well_formed L.
Proof. intros [_ _ _ Hnd Hd] Hst Hsl. by split. Qed.

Lemma unpack_layout (ps : list (Spanned (ParameterP Ty E))) :
  (Z.of_nat (length ps) ≤ i32_max)%Z →
  match DefParams_unpack ps with
  | Ok d => ∃ L, well_formed L ∧ ps = ast_of L ∧ d = mkDefParams (params_of L) (indices_of L)
  | Err _ => ¬ ∃ L, well_formed L ∧ ps = ast_of L
  | Fault _ => False
  end.
Proof.
  intros Hlen. unfold DefParams_unpack. destruct (find_index is_slash ps) as [[|n]|] eqn:Hfind.
  - destruct ps as [|p ps]; [done|]. cbn [head unwrap mbind result_bind]. intros (L & Hwf & Hps).
    rewrite Hps, find_slash in Hfind. destruct Hwf as [Hsl _ _ _].
    destruct (l_slash L), (l_pos_only L); try done. discriminate (proj2 Hsl eq_refl).
  - assert (n < length ps) by (apply find_index_lt in Hfind; lia).
    rewrite (proj2 (Z.leb_le _ _)) by (unfold i32_max, u32_max in *; lia). cbn [mbind result_bind].
    pose proof (unpack_tail_ok true (S n) ps Hlen) as Htail. cbn [Nat.eqb].
    change (state_of true empty_layout) with Initial in Htail.
    destruct (u ← _; _) as [d|e|]; [|intros (L & Hwf & Hps)|done].
    + destruct Htail as (L & Hp & Hst & -> & ->). rewrite find_slash in Hfind. exists L.
      destruct (l_slash L) eqn:Hsl; [|done]. injection Hfind as Hn. split_and!; [|done|].
      * apply (partial_wf true); [done..|]. rewrite Hsl. split; [done|]. intros Hpo. by rewrite Hpo in Hn.
      * unfold indices_of. by rewrite Hn.
    + apply (Htail L Hwf); [|done]. rewrite Hps, find_slash in Hfind. unfold has_slash.
      by destruct (l_slash L).
  - cbn [mbind result_bind Nat.eqb]. pose proof (unpack_tail_ok false 0 ps Hlen) as Htail.
    change (state_of false empty_layout) with SeenSlash in Htail.
    destruct (u ← _; _) as [d|e|]; [|intros (L & Hwf & Hps)|done].
    + destruct Htail as (L & Hp & Hst & -> & ->). destruct (partial_pos_only _ _ Hp eq_refl) as [Hpo Hsl].
      exists L. split_and!; [by apply (partial_wf false); [..|rewrite Hpo, Hsl]|done|].
      unfold indices_of. by rewrite Hpo.
    + apply (Htail L Hwf); [|done]. rewrite Hps, find_slash in Hfind. unfold has_slash.
      by destruct (l_slash L).
Qed.

Lemma layout_unique L L' : well_formed L → well_formed L' → ast_of L = ast_of L' → L = L'.
Proof.
  intros Hwf Hwf' Heq. pose proof (extend_all_wf L Hwf) as Hx. pose proof (extend_all_wf L' Hwf') as Hx'.
  assert (has_slash L = has_slash L') as Hs.
  { pose proof (find_slash L) as Hf. rewrite Heq, find_slash in Hf. unfold has_slash.
    by destruct (l_slash L), (l_slash L'). }
  rewrite Hs, Heq, Hx' in Hx. by simplify_eq.
Qed.

Lemma unpack_ast L :
  well_formed L → (Z.of_nat (length (ast_of L)) ≤ i32_max)%Z →
  DefParams_unpack (ast_of L) = Ok (mkDefParams (params_of L) (indices_of L)).
Proof.
  intros Hwf Hlen. pose proof (unpack_layout (ast_of L) Hlen) as Hu.
  destruct (DefParams_unpack (ast_of L)) as [d|e|f]; [|by destruct Hu; exists L|done].
  destruct Hu as (L' & Hwf' & Heq & ->). by rewrite (layout_unique L L').
Qed.

(** ** Printed signatures *)

(** How the parser reads what the printer writes; [sep] is the place of the separators. *)
Definition read_fmt (sep : Span) (x : FmtParam (Spanned (Regular Ty E))) : Spanned (ParameterP Ty E) :=
  match x with
  | FmtRegular p => normal p
  | FmtArgs p => mkSpanned (span p) (Args (r_name (node p)) (r_ty (node p)))
  | FmtKwargs p => mkSpanned (span p) (KwArgs (r_name (node p)) (r_ty (node p)))
  | FmtSlash => mkSpanned sep Slash
  | FmtStar => mkSpanned sep NoArgs
  end.

(** The layout that is printed. *)
Definition named_of (r : Spanned (Regular Ty E)) : Spanned (Named Ty) :=
  mkSpanned (span r) (mkNamed (r_name (node r)) (r_ty (node r))).
Definition printed_layout (sep : Span) (po pn : list (Spanned (Regular Ty E)))
    (ar : option (Spanned (Regular Ty E))) (no : list (Spanned (Regular Ty E)))
    (kw : option (Spanned (Regular Ty E))) : Layout Ty E :=
  mkLayout po (match po with [] => None | _ => Some sep end) pn
    (match ar, no with Some a, _ => StarArgs (named_of a) | None, [] => NoStar | None, _ => BareStar sep end)
    no (named_of <$> kw).

Lemma read_fmt_layout sep po pn ar no kw :
  read_fmt sep <$> iter_fmt_param_spec po pn ar no kw = ast_of (printed_layout sep po pn ar no kw).
Proof.
  unfold iter_fmt_param_spec, ast_of, printed_layout. simpl.
  rewrite !fmap_app, <-!list_fmap_compose.
  destruct po, ar, no, kw; done.
Qed.
End unpack.

(** ** Parts by index *)

Definition slice {A} (l : list A) (r : nat * nat) : list A := take (r.2 - r.1) (drop r.1 l).

Lemma slice_middle {A} (a b c : list A) i j :
  i = length a → j = length a + length b → slice (a ++ b ++ c) (i, j) = b.
Proof.
  intros -> ->. unfold slice. simpl. rewrite drop_app_length.
  replace (length a + length b - length a) with (length b) by lia. apply take_app_length.
Qed.

Lemma length_params_of {Ty E} (L : Layout Ty E) : length (params_of L) ≤ length (ast_of L).
Proof.
  destruct L as [po sl pn st no kw]. unfold params_of, ast_of, positional_of. simpl.
  rewrite !length_app, !length_fmap. destruct sl, st, kw; simpl; lia.
Qed.

(** The indices of a layout split its parameters into its parts. *)
Lemma layout_parts {Ty E} (L : Layout Ty E) :
  (Z.of_nat (length (params_of L)) ≤ u32_max)%Z →
  let d := mkDefParams (params_of L) (indices_of L) in
  slice (params d) (pos_only (indices d)) = (regular PosOnly <$> l_pos_only L) ∧
  slice (params d) (pos_or_named (indices d)) = (regular PosOrName <$> l_pos_named L) ∧
  option_list (args (indices d) ≫= λ i, params d !! i) = star_params (l_star L) ∧
  slice (params d) (named_only (indices d) (length (params d))) = (regular NameOnly <$> l_named L) ∧
  (kwargs (indices d) ≫= λ i, params d !! i) = (kwargs_param <$> l_kwargs L).
Proof.
  intros Hlen d. unfold named_only. rewrite Z.mod_small, Nat2Z.id by (subst d; simpl; unfold u32_max in *; lia).
  clear Hlen. subst d.
  destruct L as [po sl pn st no kw]. unfold params_of, indices_of, positional_of, args_of, kwargs_of.
  unfold pos_only, pos_or_named. cbn -[slice star_params].
  set (A := regular PosOnly <$> po). set (B := regular PosOrName <$> pn).
  set (N := regular NameOnly <$> no). set (K := option_list (kwargs_param <$> kw)).
  assert (length A = length po ∧ length B = length pn ∧ length N = length no) as (HA & HB & HN)
    by (subst A B N; by rewrite !length_fmap).
  assert (length (star_params (E:=E) st) = match st with StarArgs _ => 1 | _ => 0 end) as HS by by destruct st.
  split; [|split; [|split; [|split]]].
  - apply (slice_middle [] A); simpl; lia.
  - apply slice_middle; lia.
  - destruct st as [| |a]; simpl; [done..|]. rewrite app_assoc, lookup_app_r by (rewrite length_app; lia).
    by replace (_ - _) with 0 by (rewrite length_app; lia).
  - rewrite (app_assoc B), (app_assoc A). apply slice_middle; rewrite ?length_app.
    + destruct st; simpl; lia.
    + destruct kw; simpl; destruct st; simpl in *; lia.
  - destruct kw as [k|]; [|done]. cbn [fmap option_fmap option_map mbind option_bind option_list] in *.
    rewrite !app_assoc, lookup_app_r by (rewrite !length_app; lia).
    by replace (_ - _) with 0 by (rewrite !length_app; lia).
Qed.

(** * Properties *)

Section properties.
Context {Ty E : Type}.
Implicit Types L : Layout Ty E.

(** C23: a parameter list is accepted exactly when it has the documented shape: positional-only
    parameters before [/], positional ones, [*] or [*args], named ones and [**kwargs], with
    distinct names, no parameter without a default after one with a default before the [*],
    and something on the side of [/] and [*] where they need it. What is accepted is
    described by indices that split the list without markers into those parts; anything
    else is an error, and no list makes the function panic. *)
Theorem def_params_layout (ps : list (Spanned (ParameterP Ty E))) :
  (Z.of_nat (length ps) ≤ i32_max)%Z →
  match DefParams_unpack ps with
  | Ok d => ∃ L, (well_formed L ∧ ps = ast_of L) ∧ d = mkDefParams (params_of L) (indices_of L) ∧
      ∀ L', well_formed L' → ps = ast_of L' → L' = L
  | Err _ => ¬ ∃ L, well_formed L ∧ ps = ast_of L
  | Fault _ => False
  end.
Proof.
  intros Hlen. pose proof (unpack_layout ps Hlen) as Hu.
  destruct (DefParams_unpack ps) as [d|e|f]; [|done|done].
  destruct Hu as (L & Hwf & -> & ->). exists L. split_and!; [done..|].
  intros L' Hwf' Heq. by apply layout_unique.
Qed.

(** C24: printing a signature inverts reading it. From the parts of a function's parameters
    (distinct names, defaults last among the positional ones), the printer puts [/] and [*]
    exactly where the reader needs them: what it prints is accepted, and its indices split
    it back into the same parts. *)
Theorem signature_roundtrip sep (po pn no : list (Spanned (Regular Ty E))) ar kw :
  let L := printed_layout sep po pn ar no kw in
  NoDup (param_names L) → defaults_last false (po ++ pn) = true →
  (Z.of_nat (length (ast_of L)) ≤ i32_max)%Z →
  ∃ d, DefParams_unpack (read_fmt sep <$> iter_fmt_param_spec po pn ar no kw) = Ok d ∧
    slice (params d) (pos_only (indices d)) = (regular PosOnly <$> po) ∧
    slice (params d) (pos_or_named (indices d)) = (regular PosOrName <$> pn) ∧
    option_list (args (indices d) ≫= λ i, params d !! i) = (star_params (l_star L)) ∧
    slice (params d) (named_only (indices d) (length (params d))) = (regular NameOnly <$> no) ∧
    (kwargs (indices d) ≫= λ i, params d !! i) = (kwargs_param ∘ named_of <$> kw).
Proof.
  cbn zeta. set (L := printed_layout sep po pn ar no kw). intros Hnd Hd Hlen.
  assert (well_formed L) as Hwf.
  { split; [|by destruct ar, no|done|done]. subst L. by destruct po. }
  eexists. rewrite read_fmt_layout. split; [by apply unpack_ast|].
  rewrite option_fmap_compose. apply (layout_parts L).
  pose proof (length_params_of L). unfold i32_max, u32_max in *. lia.
Qed.
End properties.

(** ** Concrete inputs *)

(** [def f(a, /, b, c=.., *, d, **e)]. *)
Definition witness_span : Span := mkSpan 0 1.
Definition witness_regular (n : Z) (d : option Z) : Spanned (Regular Z Z) :=
  mkSpanned witness_span (mkRegular [n] None d).
Definition witness_layout : Layout Z Z :=
  mkLayout [witness_regular 97 None] (Some witness_span)
    [witness_regular 98 None; witness_regular 99 (Some 1%Z)] (BareStar witness_span)
    [witness_regular 100 None] (Some (mkSpanned witness_span (mkNamed [101%Z] None))).

Lemma def_params_layout_witness :
  DefParams_unpack (ast_of witness_layout) =
    Ok (mkDefParams (params_of witness_layout) (mkIndices 3 1 None (Some 4))).
Proof.
  pose proof (def_params_layout (ast_of witness_layout) ltac:(by vm_compute)) as Hu.
  assert (well_formed witness_layout) as Hwf.
  { split; [by split|by simpl| |by vm_compute].
    apply (bool_decide_unpack (NoDup [[97]; [98]; [99]; [100]; [101]]%Z)). vm_compute. exact I. }
  destruct (DefParams_unpack (ast_of witness_layout)) as [d|e|f]; [|destruct Hu; by exists witness_layout|done].
  destruct Hu as (L & _ & -> & Huniq). by rewrite <-(Huniq witness_layout Hwf eq_refl).
Defined.

Lemma signature_roundtrip_witness :
  ∃ d, DefParams_unpack (read_fmt witness_span <$>
      iter_fmt_param_spec [witness_regular 97 None] [] None [witness_regular 98 None] None) = Ok d ∧
    slice (params d) (pos_only (indices d)) = (regular PosOnly <$> [witness_regular 97 None]).
Proof.
  destruct (signature_roundtrip witness_span [witness_regular 97 None] [] [witness_regular 98 None]
    None None) as (d & Hd & Hpo & _).
  - apply (bool_decide_unpack (NoDup [[97]; [98]]%Z)). vm_compute. exact I.
  - done.
  - by vm_compute.
  - by exists d.
Defined.
