(* ===== verification/ParamSpec.v ===== *)
(** [starlark/src/eval/runtime/params/spec.rs], [params/parser.rs] and the arguments of a call
    in [eval/runtime/arguments.rs]: a function's parameters as the interpreter keeps them,
    the builder that makes them, and the binding of a call's arguments to slots. *)

From S2P Require Import Prelude Hashing TableMap FastString Symbol DefParams OrdMap.

(** * Values *)

(** What binding does with values: [Value::iterate], [DictRef::from_value] with [iter_hashed],
    [StringValue::new], and the allocation of [*args] and [**kwargs].  A dictionary with
    string keys is allocated from its entries in order. *)
Class Values (V : Type) := {
  iterate : V → option (list V);
  dict_of_value : V → option (list (Hashed V * V));
  string_of_value : V → option StarlarkStr;
  alloc_tuple : list V → V;
  alloc_dict : list (list byte * V) → V;
}.

Inductive FunctionError :=
| ExtraPositionalArg (count : nat) (function : list byte)
| ExtraNamedArg (names : list (list byte)) (function : list byte)
| RepeatedArg (name : list byte)
| ArgsValueIsNotString
| ArgsArrayIsNotIterable
| KwArgsIsNotDict
| WrongNumberOfArgs (min max got : nat)
(** The messages of [function_error!]. *)
| MissingPositionalOnly (param_name function_name : list byte)
| MissingNamedOnly (param_name function_name : list byte)
| MissingParameter (param_name function_name : list byte).
#[global] Instance FunctionError_eq_dec : EqDecision FunctionError.
Proof. solve_decision. Defined.
Abbreviation bound A := (result FunctionError A).

(** * The parameters of a function *)

Section kinds.
Context {V : Type}.

Inductive ParametersSpecParam := Required | Optional | Defaulted (v : V).
Inductive ParameterKind := RequiredKind | OptionalKind | DefaultedKind (v : V) | ArgsKind | KWargsKind.

Inductive CurrentParameterStyle := StylePosOnly | StylePosOrNamed | StyleNamedOnly | StyleNoMore.
(** [PartialOrd]: the declaration order. *)
Definition style_index (s : CurrentParameterStyle) : nat :=
  match s with StylePosOnly => 0 | StylePosOrNamed => 1 | StyleNamedOnly => 2 | StyleNoMore => 3 end.
Definition style_lt (a b : CurrentParameterStyle) : bool := style_index a <? style_index b.
Definition style_eq (a b : CurrentParameterStyle) : bool := style_index a =? style_index b.

Definition is_star_kind (k : ParameterKind) : bool :=
  match k with ArgsKind | KWargsKind => true | _ => false end.
Definition is_none {A} (o : option A) : bool := match o with None => true | Some _ => false end.
End kinds.
Arguments ParametersSpecParam : clear implicits.
Arguments ParameterKind : clear implicits.

Record ParametersSpecBuilder (TT V : Type) := mkBuilder {
  b_function_name : list byte;
  b_params : list (list byte * ParameterKind V);
  b_names : SymbolMap TT;
  positional_only : nat;
  positional : nat;
  current_style : CurrentParameterStyle;
  b_args : option nat;
  b_kwargs : option nat;
}.
Arguments mkBuilder {TT V}. Arguments b_function_name {TT V}. Arguments b_params {TT V}.
Arguments b_names {TT V}. Arguments positional_only {TT V}. Arguments positional {TT V}.
Arguments current_style {TT V}. Arguments b_args {TT V}. Arguments b_kwargs {TT V}.

Record ParametersSpec (TT V : Type) := mkSpec {
  function_name : list byte;
  param_kinds : list (ParameterKind V);
  param_names : list (list byte);
  names : SymbolMap TT;
  indices : DefParamIndices;
}.
Arguments mkSpec {TT V}. Arguments function_name {TT V}. Arguments param_kinds {TT V}.
Arguments param_names {TT V}. Arguments names {TT V}. Arguments indices {TT V}.

(** ["*args"] and ["**kwargs"]. *)
Definition args_name : list byte := [0x2A; 0x61; 0x72; 0x67; 0x73]%Z.
Definition kwargs_name : list byte := [0x2A; 0x2A; 0x6B; 0x77; 0x61; 0x72; 0x67; 0x73]%Z.

Section builder.
Context (hash_of : list byte → StarlarkHashValue).
Context {V TT : Type} `{HashTable (Symbol * nat) TT}.
Abbreviation Builder := (ParametersSpecBuilder TT V).
Implicit Types b : Builder.

Definition ParametersSpec_with_capacity (function_name : list byte) (capacity : nat) : comp Builder :=
  names ← SymbolMap_with_capacity capacity;
  Ok (mkBuilder function_name [] names 0 0 StylePosOnly None None).

Definition add b (name : list byte) (val : ParameterKind V) : comp Builder :=
  _ ← assert (negb (is_star_kind val));
  _ ← assert (style_lt (current_style b) StyleNoMore);
  _ ← assert (is_none (b_kwargs b));
  let i := length (b_params b) in
  let params := b_params b ++ [(name, val)] in
  names ←
    if negb (style_eq (current_style b) StylePosOnly) then
      i ← u32_try_from i;
      '(old, names) ← SymbolMap_insert hash_of (b_names b) name i;
      _ ← assert (is_none old);
      Ok names
    else Ok (b_names b);
  let '(positional_only, positional) :=
    if is_none (b_args b) && negb (style_eq (current_style b) StyleNamedOnly)
    then (if style_eq (current_style b) StylePosOnly then i + 1 else positional_only b, i + 1)
    else (positional_only b, positional b) in
  Ok (mkBuilder (b_function_name b) params names positional_only positional (current_style b)
        (b_args b) (b_kwargs b)).

Definition required b (name : list byte) : comp Builder := add b name RequiredKind.
Definition optional b (name : list byte) : comp Builder := add b name OptionalKind.
Definition defaulted b (name : list byte) (val : V) : comp Builder := add b name (DefaultedKind val).
Definition param b (name : list byte) (p : ParametersSpecParam V) : comp Builder :=
  match p with
  | Required => required b name
  | Optional => optional b name
  | Defaulted x => defaulted b name x
  end.

Definition builder_args b : comp Builder :=
  _ ← assert (is_none (b_args b));
  _ ← assert (style_lt (current_style b) StyleNamedOnly);
  _ ← assert (is_none (b_kwargs b));
  let params := b_params b ++ [(args_name, ArgsKind)] in
  Ok (mkBuilder (b_function_name b) params (b_names b) (positional_only b) (positional b)
        StyleNamedOnly (Some (length params - 1)) (b_kwargs b)).

Definition set_style b (s : CurrentParameterStyle) : Builder :=
  mkBuilder (b_function_name b) (b_params b) (b_names b) (positional_only b) (positional b) s
    (b_args b) (b_kwargs b).
Definition no_more_positional_only_args b : comp Builder :=
  _ ← assert (style_eq (current_style b) StylePosOnly);
  Ok (set_style b StylePosOrNamed).
Definition no_more_positional_args b : comp Builder :=
  _ ← assert (is_none (b_args b));
  _ ← assert (style_lt (current_style b) StyleNamedOnly);
  _ ← assert (is_none (b_kwargs b));
  Ok (set_style b StyleNamedOnly).

Definition builder_kwargs b : comp Builder :=
  _ ← assert (is_none (b_kwargs b));
  let params := b_params b ++ [(kwargs_name, KWargsKind)] in
  Ok (mkBuilder (b_function_name b) params (b_names b) (positional_only b) (positional b)
        StyleNoMore (b_args b) (Some (length params - 1))).

Definition u32_option (o : option nat) : comp (option nat) :=
  match o with None => Ok None | Some n => n ← u32_try_from n; Ok (Some n) end.
Definition finish b : comp (ParametersSpec TT V) :=
  num_positional_only ← u32_try_from (positional_only b);
  num_positional ← u32_try_from (positional b);
  _ ← assert (num_positional_only <=? num_positional);
  args ← u32_option (b_args b);
  kwargs ← u32_option (b_kwargs b);
  Ok (mkSpec (b_function_name b) (b_params b).*2 (b_params b).*1 (b_names b)
        (mkIndices num_positional num_positional_only args kwargs)).

Fixpoint add_params b (l : list (list byte * ParametersSpecParam V)) : comp Builder :=
  match l with
  | [] => Ok b
  | (name, val) :: l => b ← param b name val; add_params b l
  end.

(** The iterators' size hints are exact. *)
Definition new_parts (function_name : list byte)
    (pos_only pos_or_named : list (list byte * ParametersSpecParam V)) (args : bool)
    (named_only : list (list byte * ParametersSpecParam V)) (kwargs : bool) :
    comp (ParametersSpec TT V) :=
  b ← ParametersSpec_with_capacity function_name
        (length pos_only + length pos_or_named + Nat.b2n args + length named_only + Nat.b2n kwargs);
  b ← add_params b pos_only;
  b ← no_more_positional_only_args b;
  b ← add_params b pos_or_named;
  b ← if args then builder_args b else no_more_positional_args b;
  b ← add_params b named_only;
  b ← if kwargs then builder_kwargs b else Ok b;
  finish b.
Definition new_named_only (function_name : list byte)
    (named_only : list (list byte * ParametersSpecParam V)) : comp (ParametersSpec TT V) :=
  new_parts function_name [] [] false named_only false.
End builder.

(** * The arguments of a call *)

(** [ArgSymbol]: a name with what resolves it. *)
Class ArgSymbol (TT V S : Type) := {
  get_index_from_param_spec : S → ParametersSpec TT V → comp (option nat);
  arg_small_hash : S → StarlarkHashValue;
}.

Section symbols.
Context {TT V : Type} `{HashTable (Symbol * nat) TT}.

#[export] Instance Symbol_arg_symbol : ArgSymbol TT V Symbol := {
  get_index_from_param_spec s ps := SymbolMap_get (names ps) s;
  arg_small_hash s := small_hash s;
}.

Record ResolvedArgName := mkResolved { resolved_hash : StarlarkHashValue; param_index : option nat }.
#[export] Instance ResolvedArgName_arg_symbol : ArgSymbol TT V ResolvedArgName := {
  get_index_from_param_spec s _ := Ok (param_index s);
  arg_small_hash s := resolved_hash s;
}.

Definition resolve_name (ps : ParametersSpec TT V) (name : Hashed (list byte)) : comp ResolvedArgName :=
  i ← get_hashed_str (names ps) name; Ok (mkResolved (hash name) i).
End symbols.

(** [ArgumentsFull]; [ArgNames] is its list of names. *)
Record ArgumentsFull (S V : Type) := mkArguments {
  arg_pos : list V;
  arg_named : list V;
  arg_names : list (S * StarlarkStr);
  arg_args : option V;
  arg_kwargs : option V;
}.
Arguments mkArguments {S V}. Arguments arg_pos {S V}. Arguments arg_named {S V}.
Arguments arg_names {S V}. Arguments arg_args {S V}. Arguments arg_kwargs {S V}.

(** [ArgumentsPos], through its [ArgumentsImpl]. *)
Definition ArgumentsPos {S V} (pos : list V) : ArgumentsFull S V := mkArguments pos [] [] None None.

(** * Binding *)

Section collect.
Context {V TT M S : Type} `{Values V} `{HashTable (Symbol * nat) TT} `{OrdMap (list byte) V M}.
Context `{ArgSymbol TT V S}.
Implicit Types (ps : ParametersSpec TT V) (slots : list (option V)) (args : ArgumentsFull S V).

(** [slots[i] = v], and the unchecked accesses. *)
Definition set_slot slots (i : nat) (v : V) : bound (list (option V)) :=
  if i <? length slots then Ok (<[i := Some v]> slots) else Panic.
Definition get_unchecked_slot {A} (l : list A) (i : nat) : bound A :=
  match l !! i with Some x => Ok x | None => UB end.

(** [for (v, s) in args.pos().iter().zip(slots.iter_mut()) { *s = Some( *v ) }] *)
Fixpoint fill_slots (vs : list V) slots : list (option V) :=
  match vs, slots with
  | v :: vs, _ :: slots => Some v :: fill_slots vs slots
  | _, _ => slots
  end.

(** The loops over positional arguments: the next position, the extra arguments, the slots. *)
Fixpoint push_positional ps (vs : list V) (next_position : nat) (star_args : list V) slots :
    bound (nat * list V * list (option V)) :=
  match vs with
  | [] => Ok (next_position, star_args, slots)
  | v :: vs =>
    if next_position <? num_positional (indices ps) then
      slots ← set_slot slots next_position v;
      push_positional ps vs (next_position + 1) star_args slots
    else push_positional ps vs next_position (star_args ++ [v]) slots
  end.

(** [LazyKwargs].  A dictionary keyed by [StringValue]s is a map from their texts, which
    decide their equality. *)
Definition text_key (key : Hashed StarlarkStr) : comp (Hashed (list byte)) :=
  x ← as_str (Hashing.key key); Ok (mkHashed (hash key) x).
Definition kwargs_insert (kwargs : option M) (key : Hashed StarlarkStr) (val : V) :
    comp (bool * option M) :=
  key ← text_key key;
  match kwargs with
  | None =>
    mp ← om_with_capacity 12;
    mp ← om_insert_unique mp key val;
    Ok (false, Some mp)
  | Some mp => '(old, mp) ← om_insert mp key val; Ok (negb (is_none old), Some mp)
  end.
Definition kwargs_insert_unique_unchecked (kwargs : option M) (key : Hashed StarlarkStr) (val : V) :
    comp (option M) :=
  key ← text_key key;
  match kwargs with
  | None =>
    mp ← om_with_capacity 12;
    mp ← om_insert_unique mp key val;
    Ok (Some mp)
  | Some mp => mp ← om_insert_unique mp key val; Ok (Some mp)
  end.
Definition kwargs_alloc (kwargs : option M) : comp V :=
  match kwargs with
  | Some kwargs => es ← om_entries kwargs; Ok (alloc_dict es)
  | None => Ok (alloc_dict [])
  end.

(** The loop over named arguments; [lowest_name] is the lowest slot that a name has filled. *)
Fixpoint named_loop ps (l : list (S * StarlarkStr * V)) slots (kwargs : option M) (lowest_name : Z) :
    bound (list (option V) * option M * Z) :=
  match l with
  | [] => Ok (slots, kwargs, lowest_name)
  | (name, name_value, v) :: l =>
    o ← lift (get_index_from_param_spec name ps);
    match o with
    | None =>
      kwargs ← lift (kwargs_insert_unique_unchecked kwargs (mkHashed (arg_small_hash (V:=V) name) name_value) v);
      named_loop ps l slots kwargs lowest_name
    | Some i =>
      slots ← set_slot slots i v;
      named_loop ps l slots kwargs (Z.min lowest_name (Z.of_nat i))
    end
  end.

(** The loop over the [**kwargs] of the call. *)
Fixpoint kwargs_loop ps (l : list (Hashed V * V)) slots (kwargs : option M) :
    bound (list (option V) * option M) :=
  match l with
  | [] => Ok (slots, kwargs)
  | (k, v) :: l =>
    match string_of_value (key k) with
    | None => Err ArgsValueIsNotString
    | Some s =>
      o ← lift (get_hashed_string_value (names ps) (mkHashed (hash k) s));
      '(repeat, slots, kwargs) ←
        match o with
        | None =>
          '(repeat, kwargs) ← lift (kwargs_insert kwargs (mkHashed (hash k) s) v);
          Ok (repeat, slots, kwargs)
        | Some i =>
          this_slot ← unwrap (slots !! i);
          slots ← set_slot slots i v;
          Ok (negb (is_none this_slot), slots, kwargs)
        end;
      if (repeat : bool) then name ← lift (as_str s); Err (RepeatedArg name)
      else kwargs_loop ps l slots kwargs
    end
  end.

(** The loop over the parameters from [index] on, [n] of them. *)
Fixpoint defaults_loop ps (n index : nat) slots : bound (list (option V)) :=
  match n with
  | 0 => Ok slots
  | Datatypes.S n =>
    slot ← get_unchecked_slot slots index;
    def ← get_unchecked_slot (param_kinds ps) index;
    match slot, def with
    | Some _, _ => defaults_loop ps n (index + 1) slots
    | None, RequiredKind =>
      param_name ← unwrap (param_names ps !! index);
      Err (if index <? num_positional_only (indices ps)
           then MissingPositionalOnly param_name (function_name ps)
           else if num_positional (indices ps) <=? index
           then MissingNamedOnly param_name (function_name ps)
           else MissingParameter param_name (function_name ps))
    | None, DefaultedKind x => slots ← set_slot slots index x; defaults_loop ps n (index + 1) slots
    | None, _ => defaults_loop ps n (index + 1) slots
    end
  end.

Definition signature ps : list byte := function_name ps.

(** The slots of [*args] and [**kwargs], or an error for arguments that would go there. *)
Definition set_stars ps (star_args : list V) (kwargs : option M) slots : bound (list (option V)) :=
  slots ←
    match DefParams.args (indices ps) with
    | Some args_pos => set_slot slots args_pos (alloc_tuple star_args)
    | None =>
      match star_args with
      | [] => Ok slots
      | _ => Err (ExtraPositionalArg (length star_args) (signature ps))
      end
    end;
  match DefParams.kwargs (indices ps) with
  | Some kwargs_pos => kwargs ← lift (kwargs_alloc kwargs); set_slot slots kwargs_pos kwargs
  | None =>
    match kwargs with
    | Some kwargs => es ← lift (om_entries kwargs); Err (ExtraNamedArg es.*1 (signature ps))
    | None => Ok slots
    end
  end.

Definition collect_slow ps args slots : bound (list (option V)) :=
  let len := length (param_kinds ps) in
  _ ← assert (len <=? length slots);
  '(next_position, star_args, slots) ←
    if length (arg_pos args) <=? num_positional (indices ps)
    then Ok (length (arg_pos args), [], fill_slots (arg_pos args) slots)
    else push_positional ps (arg_pos args) 0 [] slots;
  '(slots, kwargs, lowest_name) ←
    match arg_names args with
    | [] => Ok (slots, None, usize_max)
    | ns => named_loop ps (zip ns (arg_named args)) slots None usize_max
    end;
  '(next_position, star_args, slots) ←
    match arg_args args with
    | None => Ok (next_position, star_args, slots)
    | Some param_args =>
      vs ← ok_or (iterate param_args) ArgsArrayIsNotIterable;
      push_positional ps vs next_position star_args slots
    end;
  _ ← if (lowest_name <? Z.of_nat next_position)%Z
      then name ← unwrap (param_names ps !! Z.to_nat lowest_name); Err (RepeatedArg name)
      else Ok ();
  '(slots, kwargs) ←
    match arg_kwargs args with
    | None => Ok (slots, kwargs)
    | Some param_kwargs =>
      match dict_of_value param_kwargs with
      | Some y => kwargs_loop ps y slots kwargs
      | None => Err KwArgsIsNotDict
      end
    end;
  slots ← defaults_loop ps (len - next_position) next_position slots;
  set_stars ps star_args kwargs slots.

(** [collect_inline_impl]. *)
Definition collect_inline ps args slots : bound (list (option V)) :=
  if (length (arg_pos args) =? num_positional (indices ps)) &&
     (length (arg_pos args) =? length (param_kinds ps)) &&
     (length (arg_named args) =? 0) && is_none (arg_args args) && is_none (arg_kwargs args)
  then Ok (fill_slots (arg_pos args) slots)
  else collect_slow ps args slots.

(** [collect_into]: fresh slots. *)
Definition collect_into (n : nat) ps args : bound (list (option V)) :=
  collect_inline ps args (replicate n None).
End collect.

(** ** Checking a call by its shape *)

Section can_fill.
Context (hash_of : list byte → StarlarkHashValue).
Context {V TT : Type} `{HashTable (Symbol * nat) TT}.
Implicit Types ps : ParametersSpec TT V.

(** The loop over positions, [n] of them from [p] on; [None] is [return false]. *)
Fixpoint can_fill_positions ps (n p : nat) (filled : list bool) : comp (option (list bool)) :=
  match n with
  | 0 => Ok (Some filled)
  | Datatypes.S n =>
    if p <? num_positional (indices ps) then
      _ ← assert (p <? length filled); can_fill_positions ps n (p + 1) (<[p := true]> filled)
    else if negb (is_none (DefParams.args (indices ps))) then can_fill_positions ps n (p + 1) filled
    else Ok None
  end.
Fixpoint can_fill_names ps (l : list (list byte)) (filled : list bool) : comp (option (list bool)) :=
  match l with
  | [] => Ok (Some filled)
  | name :: l =>
    o ← get_str hash_of (names ps) name;
    match o with
    | Some i =>
      b ← unwrap (filled !! i);
      if (b : bool) then Ok None else can_fill_names ps l (<[i := true]> filled)
    | None =>
      if is_none (DefParams.kwargs (indices ps)) then Ok None else can_fill_names ps l filled
    end
  end.
Definition can_fill_with_args ps (pos : nat) (ns : list (list byte)) : comp bool :=
  o ← can_fill_positions ps pos 0 (replicate (length (param_kinds ps)) false);
  match o with
  | None => Ok false
  | Some filled =>
    if (num_positional (indices ps) <? pos) && is_none (DefParams.args (indices ps)) then Ok false else
    o ← can_fill_names ps ns filled;
    match o with
    | None => Ok false
    | Some filled =>
      Ok (forallb (λ '(filled, p), filled || match p with RequiredKind => false | _ => true end)
            (zip filled (param_kinds ps)))
    end
  end.
End can_fill.
