(* ===== verification/CallBinding.v ===== *)
(** The contract of argument binding: which calls a parameter list accepts, what each slot
    receives, and what each error means.  The functions are those of [ParamSpec.v]; here
    are the specification, stated on the list of all positional arguments and the list of
    all keyword arguments of a call, and the lemmas on the loops. *)

From S2P Require Import Prelude Hashing TableMap FastString Symbol.
From S2P Require Import DefParams SmallMapSpec OrdMap ParamSpec.

Abbreviation text := (list byte) (only parsing).

(** * Specification *)

(** [spec_ok ps D]: a well-formed parameter list; [D] sends the names that may be given to
    their slots. *)
Record spec_ok (hash_of : text → StarlarkHashValue) {V TT} `{HashTable (Symbol * nat) TT}
    (ps : ParametersSpec TT V) (D : gmap text nat) : Prop := {
  ok_names : symbols hash_of (names ps) D;
  ok_length : length (param_names ps) = length (param_kinds ps);
  ok_count : (Z.of_nat (length (param_kinds ps)) ≤ u32_max)%Z;
  ok_pos_only : num_positional_only (indices ps) ≤ num_positional (indices ps);
  ok_positional i : i < num_positional (indices ps) →
    ∃ k, param_kinds ps !! i = Some k ∧ is_star_kind k = false;
  ok_directory x i : D !! x = Some i ↔
    num_positional_only (indices ps) ≤ i ∧ param_names ps !! i = Some x ∧
    ∃ k, param_kinds ps !! i = Some k ∧ is_star_kind k = false;
  ok_args i : param_kinds ps !! i = Some ArgsKind ↔ DefParams.args (indices ps) = Some i;
  ok_kwargs i : param_kinds ps !! i = Some KWargsKind ↔ DefParams.kwargs (indices ps) = Some i;
}.

Section spec.
Context {V TT S : Type} `{Values V}.
Implicit Types (ps : ParametersSpec TT V) (D : gmap text nat) (kws : list (text * V)).

Definition is_required (k : ParameterKind V) : bool := match k with RequiredKind => true | _ => false end.

(** Slots filled by [n] positional arguments. *)
Definition filled ps (n : nat) : nat := Nat.min n (num_positional (indices ps)).

(** Whether [n] positional arguments and keyword arguments [ns] can be bound: nothing too many,
    no name twice, no name for a slot that is filled, and every required slot filled. *)
Definition bindable D ps (n : nat) (ns : list text) : bool :=
  ((n <=? num_positional (indices ps)) || negb (is_none (DefParams.args (indices ps)))) &&
  bool_decide (NoDup ns) &&
  forallb (λ x, match D !! x with
    | Some i => filled ps n <=? i
    | None => negb (is_none (DefParams.kwargs (indices ps)))
    end) ns &&
  forallb (λ i, match param_kinds ps !! i with
    | Some RequiredKind => (i <? filled ps n) || existsb (λ x, bool_decide (D !! x = Some i)) ns
    | _ => true
    end) (seq 0 (length (param_kinds ps))).

(** The keyword argument for a slot, and those that are for no slot. *)
Definition named_value D kws (i : nat) : option V :=
  head (omap (λ kv, if decide (D !! kv.1 = Some i) then Some kv.2 else None) kws).
Definition unknown D kws : list (text * V) := filter (λ kv, D !! kv.1 = None) kws.

(** What slot [i] receives. *)
Definition bound_slot D ps (xs : list V) kws (i : nat) : option V :=
  if i <? filled ps (length xs) then xs !! i else
  match named_value D kws i with
  | Some v => Some v
  | None =>
    match param_kinds ps !! i with
    | Some (DefaultedKind d) => Some d
    | Some ArgsKind => Some (alloc_tuple (drop (num_positional (indices ps)) xs))
    | Some KWargsKind => Some (alloc_dict (unknown D kws))
    | _ => None
    end
  end.

(** The arguments of a call: all positional ones, and all keyword ones with their names. *)
Definition positional_args (args : ArgumentsFull S V) : option (list V) :=
  match arg_args args with
  | None => Some (arg_pos args)
  | Some v => xs ← iterate v; Some (arg_pos args ++ xs)
  end.
Definition text_of (s : StarlarkStr) : option text := match as_str s with Ok x => Some x | _ => None end.
Definition named_entry (nv : S * StarlarkStr * V) : option (text * V) :=
  x ← text_of nv.1.2; Some (x, nv.2).
Definition dict_entry (kv : Hashed V * V) : option (text * V) :=
  s ← string_of_value (key kv.1); x ← text_of s; Some (x, kv.2).
Definition dict_entries (o : option V) : option (list (Hashed V * V)) :=
  match o with None => Some [] | Some v => dict_of_value v end.
Definition keyword_args (args : ArgumentsFull S V) : option (list (text * V)) :=
  ns ← mapM named_entry (zip (arg_names args) (arg_named args));
  es ← dict_entries (arg_kwargs args);
  kws ← mapM dict_entry es;
  Some (ns ++ kws).

(** The call can be bound. *)
Definition call_bindable D ps (args : ArgumentsFull S V) : Prop :=
  ∃ xs kws, positional_args args = Some xs ∧ keyword_args args = Some kws ∧
    bindable D ps (length xs) kws.*1 = true.

(** The names that a call gives, leaving out dictionary keys that are not strings. *)
Definition given_names (args : ArgumentsFull S V) : list text :=
  (omap named_entry (zip (arg_names args) (arg_named args)) ++
   omap dict_entry (default [] (dict_entries (arg_kwargs args)))).*1.
Definition repeated (x : text) (ns : list text) : Prop :=
  ∃ i j, i < j ∧ ns !! i = Some x ∧ ns !! j = Some x.

(** What an error says about the call. *)
Definition missing D ps (args : ArgumentsFull S V) (x : text) (i : nat) : Prop :=
  param_names ps !! i = Some x ∧ param_kinds ps !! i = Some RequiredKind ∧
  ∃ xs, positional_args args = Some xs ∧ filled ps (length xs) ≤ i ∧
    ∀ y, y ∈ given_names args → D !! y ≠ Some i.
Definition explains D ps (args : ArgumentsFull S V) (e : FunctionError) : Prop :=
  match e with
  | ArgsArrayIsNotIterable => ∃ v, arg_args args = Some v ∧ iterate v = None
  | KwArgsIsNotDict => ∃ v, arg_kwargs args = Some v ∧ dict_of_value v = None
  | ArgsValueIsNotString =>
    ∃ d es k v, arg_kwargs args = Some d ∧ dict_of_value d = Some es ∧ (k, v) ∈ es ∧
      string_of_value (key k) = None
  | RepeatedArg x =>
    repeated x (given_names args) ∨
    (x ∈ given_names args ∧ ∃ i xs, D !! x = Some i ∧ positional_args args = Some xs ∧
      i < filled ps (length xs))
  | MissingPositionalOnly x f => f = function_name ps ∧
      ∃ i, missing D ps args x i ∧ i < num_positional_only (indices ps)
  | MissingParameter x f => f = function_name ps ∧
      ∃ i, missing D ps args x i ∧
        num_positional_only (indices ps) ≤ i < num_positional (indices ps)
  | MissingNamedOnly x f => f = function_name ps ∧
      ∃ i, missing D ps args x i ∧ num_positional (indices ps) ≤ i
  | ExtraPositionalArg n f => f = function_name ps ∧ 0 < n ∧ DefParams.args (indices ps) = None ∧
      ∃ xs, positional_args args = Some xs ∧ length xs = num_positional (indices ps) + n
  | ExtraNamedArg ns f => f = function_name ps ∧ ns ≠ [] ∧ DefParams.kwargs (indices ps) = None ∧
      ∃ kws, keyword_args args = Some kws ∧ ns = (unknown D kws).*1
  | WrongNumberOfArgs _ _ _ => False
  end.
End spec.

(** * What the errors mean *)

Lemma mapM_omap {A B} (f : A → option B) l k : mapM f l = Some k → omap f l = k.
Proof.
  intros Hm%mapM_Some_1. induction Hm as [|x y l k Hy _ IH]; csimpl; [done|]. by rewrite Hy, IH.
Qed.

Lemma bindable_spec {V TT : Type} (D : gmap text nat) (ps : ParametersSpec TT V) n ns :
  bindable D ps n ns = true ↔
  (n ≤ num_positional (indices ps) ∨ DefParams.args (indices ps) ≠ None) ∧ NoDup ns ∧
  (∀ x, x ∈ ns → match D !! x with
    | Some i => filled ps n ≤ i
    | None => DefParams.kwargs (indices ps) ≠ None
    end) ∧
  (∀ i, param_kinds ps !! i = Some RequiredKind →
    i < filled ps n ∨ ∃ x, x ∈ ns ∧ D !! x = Some i).
Proof.
  unfold bindable. rewrite !andb_true_iff, orb_true_iff, Nat.leb_le, bool_decide_eq_true.
  rewrite !forallb_forall. assert (∀ A (o : option A), negb (is_none o) = true ↔ o ≠ None) as Hn
    by (intros A [|]; simpl; split; congruence). rewrite Hn.
  assert (∀ P Q P' Q' R R' : Prop, (P ↔ P') → (Q ↔ Q') → (((R ∧ R') ∧ P) ∧ Q ↔ R ∧ R' ∧ P' ∧ Q'))
    as Hshape by tauto. apply Hshape.
  - apply forall_proper. intros x. rewrite list_elem_of_In.
    destruct (D !! x) as [i|]; [by rewrite Nat.leb_le|by rewrite Hn].
  - apply forall_proper. intros i. rewrite in_seq.
    destruct (param_kinds ps !! i) as [k|] eqn:Hk; [|done].
    apply lookup_lt_Some in Hk. destruct k; try (split; [discriminate|done]).
    rewrite orb_true_iff, Nat.ltb_lt, existsb_exists. split.
    + intros Hr _. destruct (Hr ltac:(lia)) as [?|(x & Hx & He)]; [by left|right].
      exists x. apply bool_decide_eq_true in He. by rewrite list_elem_of_In.
    + intros Hr _. destruct (Hr eq_refl) as [?|(x & Hx & He)]; [by left|right].
      exists x. by rewrite <-list_elem_of_In, bool_decide_eq_true.
Qed.

Section errors.
Context {V TT S : Type} `{Values V}.
Implicit Types (ps : ParametersSpec TT V) (D : gmap text nat) (args : ArgumentsFull S V).

Lemma keyword_args_given args kws : keyword_args args = Some kws → given_names args = kws.*1.
Proof.
  unfold keyword_args, given_names.
  intros (ns & Hns & (es & Hes & (kws' & Hkws & [= <-])%bind_Some)%bind_Some)%bind_Some.
  rewrite Hes, (mapM_omap _ _ _ Hns). simpl. by rewrite (mapM_omap _ _ _ Hkws).
Qed.

Lemma NoDup_repeated x (ns : list text) : NoDup ns → ¬ repeated x ns.
Proof. intros Hnd (i & j & Hlt & Hi & Hj). pose proof (NoDup_lookup _ _ _ _ Hnd Hi Hj). lia. Qed.

Lemma mapM_entry {A B} (f : A → option B) l k x : mapM f l = Some k → x ∈ l → is_Some (f x).
Proof.
  intros Hm%mapM_Some_1 Hx. apply list_elem_of_lookup in Hx as [i Hi].
  destruct (Forall2_lookup_l _ _ _ _ _ Hm Hi) as (y & _ & Hy). by exists y.
Qed.

(** An explained error is not given for a call that can be bound. *)
Lemma explains_unbindable D ps args e : explains D ps args e → ¬ call_bindable D ps args.
Proof.
  intros He (xs & kws & Hxs & Hkws & Hb). pose proof (keyword_args_given _ _ Hkws) as Hgiven.
  apply bindable_spec in Hb as (Hn & Hnd & Hnames & Hreq).
  assert (∀ x i, missing D ps args x i → False) as Hmissing.
  { intros x i (_ & Hi & xs' & Hxs' & Hle & Hno). simplify_eq.
    destruct (Hreq i Hi) as [?|(y & Hy & HD)]; [lia|]. apply (Hno y); [by rewrite Hgiven|done]. }
  destruct e; simpl in He.
  - destruct He as (_ & Hc & Ha & xs' & Hxs' & Hl). simplify_eq. destruct Hn; [lia|done].
  - destruct He as (_ & Hne & Hk & kws' & Hkws' & ->). rewrite Hkws in Hkws'. injection Hkws' as <-.
    destruct (unknown D kws) as [|[x v] u] eqn:Hu; [done|].
    assert ((x, v) ∈ unknown D kws) as Hx by (rewrite Hu; by left).
    apply list_elem_of_filter in Hx as [HD Hx]. simpl in HD.
    specialize (Hnames x). rewrite HD in Hnames. apply Hnames; [|done].
    by apply (list_elem_of_fmap_2 fst kws (x, v)).
  - rewrite Hgiven in He. destruct He as [He|(Hx & i & xs' & HD & Hxs' & Hi)].
    + by apply (NoDup_repeated _ _ Hnd) in He.
    + simplify_eq. specialize (Hnames _ Hx). rewrite HD in Hnames. lia.
  - destruct He as (d & es & k & v & Hd & Hes & Hin & Hk). unfold keyword_args in Hkws.
    rewrite Hd in Hkws. simpl in Hkws. rewrite Hes in Hkws.
    apply bind_Some in Hkws as (? & _ & (? & [= <-] & (? & Hm & _)%bind_Some)%bind_Some).
    destruct (mapM_entry _ _ _ _ Hm Hin) as [? Hs]. unfold dict_entry in Hs. simpl in Hs.
    by rewrite Hk in Hs.
  - destruct He as (v & Ha & Hv). unfold positional_args in Hxs. by rewrite Ha, Hv in Hxs.
  - destruct He as (v & Ha & Hv). unfold keyword_args in Hkws. rewrite Ha in Hkws. simpl in Hkws.
    rewrite Hv in Hkws. by apply bind_Some in Hkws as (? & _ & ?).
  - done.
  - destruct He as (_ & i & Hm & _). by eapply Hmissing.
  - destruct He as (_ & i & Hm & _). by eapply Hmissing.
  - destruct He as (_ & i & Hm & _). by eapply Hmissing.
Qed.
End errors.

(** The loops of argument binding in [ParamSpec.v], each with what it computes: positional
    arguments, named arguments, the [**kwargs] of the call, default values. *)

(** * Writing slots *)

Section slots.
Context {V : Type}.
Implicit Types (slots : list (option V)) (vs : list V).

Definition write_from (n : nat) vs slots : list (option V) :=
  take n slots ++ (Some <$> vs) ++ drop (n + length vs) slots.

Lemma length_write_from n vs slots :
  n + length vs ≤ length slots → length (write_from n vs slots) = length slots.
Proof. intros Hl. unfold write_from. rewrite !length_app, length_take, length_fmap, length_drop. lia. Qed.

Lemma lookup_write_from n vs slots i :
  n + length vs ≤ length slots →
  write_from n vs slots !! i =
    if (n <=? i) && (i <? n + length vs) then Some <$> (vs !! (i - n)) else slots !! i.
Proof.
  intros Hl. unfold write_from. destruct (Nat.leb_spec n i) as [Hle|Hlt]; simpl.
  - rewrite lookup_app_r, length_take, Nat.min_l by (rewrite ?length_take; lia).
    destruct (Nat.ltb_spec i (n + length vs)) as [Hi|Hi].
    + by rewrite lookup_app_l, list_lookup_fmap by (rewrite length_fmap; lia).
    + rewrite lookup_app_r, length_fmap, lookup_drop by (rewrite length_fmap; lia). f_equal. lia.
  - rewrite lookup_app_l, lookup_take_lt by (rewrite ?length_take; lia). done.
Qed.

Lemma write_from_0 slots n : write_from n [] slots = slots.
Proof. unfold write_from. simpl. rewrite Nat.add_0_r. apply take_drop. Qed.

Lemma write_from_cons n v vs slots :
  n < length slots → write_from (n + 1) vs (<[n := Some v]> slots) = write_from n (v :: vs) slots.
Proof.
  intros Hn. unfold write_from. simpl.
  rewrite Nat.add_1_r, (take_S_r _ _ (Some v)) by by apply list_lookup_insert_eq.
  rewrite take_insert_ge, drop_insert_lt by lia. rewrite <-app_assoc. simpl.
  do 4 f_equal. lia.
Qed.

Lemma set_slot_ok slots i v : i < length slots → set_slot slots i v = Ok (<[i := Some v]> slots).
Proof. intros Hi. unfold set_slot. by rewrite (proj2 (Nat.ltb_lt _ _)). Qed.

Lemma fill_slots_ok vs slots : length vs ≤ length slots → fill_slots vs slots = write_from 0 vs slots.
Proof.
  revert slots. induction vs as [|v vs IH]; intros [|s slots] Hl; simpl in *; try done; try lia.
  rewrite IH by lia. done.
Qed.
End slots.

Section names.
Context {V : Type}.
Implicit Types (D : gmap text nat) (slots : list (option V)).

(** Distinct names are for distinct slots. *)
Definition injective_names D : Prop := ∀ x y i, D !! x = Some i → D !! y = Some i → x = y.

Lemma repeated_intro x (l l' : list text) : x ∈ l → repeated x (l ++ x :: l').
Proof.
  intros [i Hi]%list_elem_of_lookup. pose proof (lookup_lt_Some _ _ _ Hi) as Hlt.
  exists i, (length l). split; [done|]. by rewrite lookup_app_l, list_lookup_middle.
Qed.

(** The slots that are filled are the first [n] and those of the names given. *)
Definition slots_filled D (n : nat) (ns : list text) slots : Prop :=
  ∀ x i, D !! x = Some i →
    i < length slots ∧ (is_none (mjoin (slots !! i)) = false ↔ i < n ∨ x ∈ ns).

Lemma slots_filled_insert D n ns slots x i v :
  injective_names D → slots_filled D n ns slots → D !! x = Some i →
  slots_filled D n (ns ++ [x]) (<[i := Some v]> slots).
Proof.
  intros Hinj Hf Hx y j Hy. rewrite length_insert. destruct (Hf _ _ Hy) as [Hj Hfy].
  split; [done|]. destruct (decide (i = j)) as [<-|Hne].
  - rewrite list_lookup_insert_eq by done. rewrite (Hinj _ _ _ Hy Hx). simpl. split; [|done].
    intros _. right. rewrite elem_of_app, list_elem_of_singleton. by right.
  - rewrite list_lookup_insert_ne, Hfy by done. rewrite elem_of_app, list_elem_of_singleton.
    assert (y ≠ x) by congruence. tauto.
Qed.

Lemma slots_filled_unknown D n ns slots x :
  slots_filled D n ns slots → D !! x = None → slots_filled D n (ns ++ [x]) slots.
Proof.
  intros Hf Hx y j Hy. destruct (Hf _ _ Hy) as [Hj Hfy]. split; [done|].
  rewrite Hfy, elem_of_app, list_elem_of_singleton. assert (y ≠ x) by congruence. tauto.
Qed.

End names.

Section loops.
Context (hash_of : text → StarlarkHashValue).
Context {V TT M S : Type} `{Values V} `{HashTableOk (Symbol * nat) TT}.
Context `{!OrdMap (list byte) V M, !OrdMapOk (list byte) V M hash_of} `{!ArgSymbol TT V S}.
Implicit Types (ps : ParametersSpec TT V) (D : gmap text nat) (slots : list (option V)).
Implicit Types (kws : list (text * V)) (args : ArgumentsFull S V).

(** ** Positional arguments *)

Lemma push_positional_ok ps vs next star slots :
  next ≤ num_positional (indices ps) → num_positional (indices ps) ≤ length slots →
  let n := num_positional (indices ps) in
  push_positional ps vs next star slots =
    Ok (Nat.min n (next + length vs), star ++ drop (n - next) vs, write_from next (take (n - next) vs) slots).
Proof.
  cbn zeta. set (n := num_positional (indices ps)). intros Hnext Hn.
  revert next star slots Hnext Hn. induction vs as [|v vs IH]; intros next star slots Hnext Hn; simpl.
  { rewrite take_nil, drop_nil, write_from_0, app_nil_r. do 3 f_equal. lia. }
  fold n. destruct (Nat.ltb_spec next n) as [Hlt|Hge].
  - rewrite set_slot_ok by lia. cbn [mbind result_bind].
    rewrite IH by (rewrite ?length_insert; lia).
    replace (n - next) with (1 + (n - (next + 1))) by lia. simpl.
    rewrite write_from_cons by lia. do 3 f_equal. lia.
  - replace (n - next) with 0 by lia. simpl. rewrite IH by lia.
    replace (n - next) with 0 by lia. simpl. rewrite <-app_assoc, !write_from_0.
    do 3 f_equal; [lia|]. apply write_from_0.
Qed.

(** ** Named arguments *)

(** The slots after writing the keyword arguments that have one. *)
Definition put_named D kws slots : list (option V) :=
  foldl (λ slots kv, match D !! kv.1 with Some i => <[i := Some kv.2]> slots | None => slots end) slots kws.

Lemma put_named_app D kws kws' slots :
  put_named D (kws ++ kws') slots = put_named D kws' (put_named D kws slots).
Proof. apply foldl_app. Qed.

Lemma length_put_named D kws slots : length (put_named D kws slots) = length slots.
Proof.
  revert slots. induction kws as [|[x v] kws IH]; intros slots; simpl; [done|]. rewrite IH.
  destruct (D !! x); [apply length_insert|done].
Qed.

Lemma named_value_None D kws i : named_value D kws i = None ↔ ∀ x, x ∈ kws.*1 → D !! x ≠ Some i.
Proof.
  unfold named_value. induction kws as [|[x v] kws IH]; csimpl.
  { split; [|done]. by intros _ x ?%elem_of_nil. }
  setoid_rewrite elem_of_cons. case_decide as Hx; simpl.
  - split; [done|]. intros Hno. destruct (Hno x); tauto.
  - rewrite IH. split; [|eauto]. intros Hno y [->|Hy]; auto.
Qed.

Lemma named_value_cons D x v kws i :
  named_value D ((x, v) :: kws) i = if decide (D !! x = Some i) then Some v else named_value D kws i.
Proof. unfold named_value. csimpl. by case_decide. Qed.

Lemma lookup_put_named D kws slots i :
  injective_names D → NoDup kws.*1 → i < length slots →
  put_named D kws slots !! i =
    match named_value D kws i with Some v => Some (Some v) | None => slots !! i end.
Proof.
  intros Hinj. revert slots. induction kws as [|[x v] kws IH]; intros slots Hnd Hi; [done|].
  csimpl in Hnd. apply NoDup_cons in Hnd as [Hx Hnd]. simpl put_named.
  rewrite named_value_cons. case_decide as HD.
  - rewrite HD, IH by (rewrite ?length_insert; done).
    rewrite (proj2 (named_value_None D kws i)); [by apply list_lookup_insert_eq|].
    intros y Hy HDy. by rewrite <-(Hinj _ _ _ HD HDy) in Hy.
  - destruct (D !! x) as [j|] eqn:HDx; rewrite IH by (rewrite ?length_insert; done); [|done].
    destruct (named_value D kws i); [done|]. apply list_lookup_insert_ne. congruence.
Qed.

(** The lowest slot that has a name. *)
Definition lowest D kws : Z :=
  foldr (λ kv z, match D !! kv.1 with Some i => Z.min (Z.of_nat i) z | None => z end) usize_max kws.

Lemma lowest_lt D kws n :
  (Z.of_nat n ≤ usize_max)%Z →
  (lowest D kws < Z.of_nat n)%Z → ∃ x i, x ∈ kws.*1 ∧ D !! x = Some i ∧ lowest D kws = Z.of_nat i ∧ i < n.
Proof.
  intros Hn. induction kws as [|[x v] kws IH]; csimpl; [lia|]. intros Hlt.
  destruct (D !! x) as [i|] eqn:HD.
  - destruct (Z.min_spec (Z.of_nat i) (lowest D kws)) as [[_ Hm]|[_ Hm]]; rewrite Hm in Hlt |- *.
    + exists x, i. split_and!; [by left|done|done|lia].
    + destruct (IH Hlt) as (y & j & ? & ? & ? & ?). exists y, j. split_and!; try done. by right.
  - destruct (IH Hlt) as (y & j & ? & ? & ? & ?). exists y, j. split_and!; try done. by right.
Qed.

Lemma lowest_ge D kws n x i :
  (Z.of_nat n ≤ lowest D kws)%Z → x ∈ kws.*1 → D !! x = Some i → n ≤ i.
Proof.
  induction kws as [|[y v] kws IH]; csimpl; [by intros _ ?%elem_of_nil|].
  intros Hl [->|Hx]%elem_of_cons HD.
  - rewrite HD in Hl. lia.
  - apply IH; [|done..]. destruct (D !! y); lia.
Qed.

(** The lazily created map of keyword arguments. *)
Definition kwargs_models (o : option M) kws : Prop :=
  match o with None => kws = [] | Some mp => om_models mp kws ∧ kws ≠ [] end.
Context (Hmax : 12 ≤ om_max (M:=M)).

Lemma text_key_ok h x :
  text_key (mkHashed (hash_of x) (string_of h x)) = Ok (mkHashed (hash_of x) x).
Proof. unfold text_key, as_str, string_of. simpl. by rewrite as_str_ok. Qed.

Lemma kwargs_insert_unique_ok o kws h x v :
  kwargs_models o kws → x ∉ kws.*1 → length kws < om_max (M:=M) →
  returns (kwargs_insert_unique_unchecked o (mkHashed (hash_of x) (string_of h x)) v)
    (λ o', kwargs_models o' (kws ++ [(x, v)])).
Proof.
  intros Ho Hx Hlen. unfold kwargs_insert_unique_unchecked. rewrite text_key_ok.
  cbn [mbind result_bind]. destruct o as [mp|]; simpl in Ho.
  - step_with om_insert_unique_ok; [apply Ho|done|done|]. intros mp' Hmp'. apply returns_ret.
    split; [done|]. by destruct kws.
  - subst kws. step_with om_with_capacity_ok; [done|]. intros mp Hmp.
    step_with om_insert_unique_ok; [done..|]. intros mp' Hmp'. by apply returns_ret.
Qed.

Lemma kwargs_insert_ok o kws h x v :
  kwargs_models o kws → length kws < om_max (M:=M) →
  returns (kwargs_insert o (mkHashed (hash_of x) (string_of h x)) v) (λ '(repeat, o'),
    repeat = bool_decide (x ∈ kws.*1) ∧ (x ∉ kws.*1 → kwargs_models o' (kws ++ [(x, v)]))).
Proof.
  intros Ho Hlen. unfold kwargs_insert. rewrite text_key_ok.
  cbn [mbind result_bind]. destruct o as [mp|]; simpl in Ho.
  - step_with om_insert_ok; [apply Ho|done|]. intros [old mp'] [-> Hmp']. apply returns_ret.
    unfold al_get. destruct (key_index x kws) as [i|] eqn:Hi.
    + pose proof (key_index_lt _ _ _ Hi) as [kv Hkv]%lookup_lt_is_Some. simpl. rewrite Hkv. simpl.
      assert (x ∈ kws.*1) as Hx by (apply dec_stable; by rewrite <-key_index_None, Hi).
      by rewrite bool_decide_eq_true_2.
    + simpl. assert (x ∉ kws.*1) as Hx by by apply key_index_None.
      rewrite bool_decide_eq_false_2 by done. split; [done|]. intros _.
      unfold al_insert in Hmp'. rewrite Hi in Hmp'. split; [done|]. by destruct kws.
  - subst kws. step_with om_with_capacity_ok; [done|]. intros mp Hmp.
    step_with om_insert_unique_ok; [done|by apply not_elem_of_nil|done|].
    intros mp' Hmp'. by apply returns_ret.
Qed.

(** The names, symbols and strings of a call's named arguments agree. *)
Definition named_arg D ps (nv : S * StarlarkStr * V) (kv : text * V) : Prop :=
  nv.2 = kv.2 ∧ (∃ h, nv.1.2 = string_of h kv.1) ∧
  get_index_from_param_spec nv.1.1 ps = Ok (D !! kv.1) ∧ arg_small_hash (V:=V) nv.1.1 = hash_of kv.1.

Lemma unknown_app D kws kws' : unknown D (kws ++ kws') = unknown D kws ++ unknown D kws'.
Proof. apply filter_app. Qed.

Lemma elem_of_unknown D kws x : x ∈ (unknown D kws).*1 ↔ x ∈ kws.*1 ∧ D !! x = None.
Proof.
  unfold unknown. rewrite !list_elem_of_fmap. split.
  - intros ([y v] & -> & [HD Hin]%list_elem_of_filter). split; [by exists (y, v)|done].
  - intros (([y v] & -> & Hin) & HD). exists (y, v). split; [done|]. by apply list_elem_of_filter.
Qed.

Lemma length_unknown D kws : length (unknown D kws) ≤ length kws.
Proof. apply length_filter. Qed.

Lemma named_loop_ok D ps l kws done slots o low :
  Forall2 (named_arg D ps) l kws → NoDup (done ++ kws).*1 →
  (∀ x i, D !! x = Some i → i < length slots) → kwargs_models o (unknown D done) →
  length (done ++ kws) < om_max (M:=M) → (low ≤ usize_max)%Z →
  returns (named_loop ps l slots o low) (λ '(slots', o', low'),
    slots' = put_named D kws slots ∧ kwargs_models o' (unknown D (done ++ kws)) ∧
    low' = Z.min low (lowest D kws)).
Proof.
  intros Hl. revert done slots o low.
  induction Hl as [|[[s sv] v] [x w] l kws (Hv & [h Hsv] & Hi & Hh) Hl IH];
    intros done slots o low Hnd HD Ho Hlen Hlow; simpl in *.
  { apply returns_ret. rewrite app_nil_r. split_and!; [done..|lia]. }
  subst v sv. rewrite Hi. cbn [lift mbind result_bind].
  assert (done ++ (x, w) :: kws = (done ++ [(x, w)]) ++ kws) as Hcons by by rewrite <-app_assoc.
  rewrite Hcons in Hnd, Hlen |- *.
  assert (x ∉ done.*1) as Hx.
  { intros Hx. rewrite !fmap_app, <-app_assoc in Hnd. apply NoDup_app in Hnd as (_ & Hno & _).
    apply (Hno x Hx). by left. }
  destruct (D !! x) as [i|] eqn:HDx.
  - rewrite set_slot_ok by by eapply HD. cbn [mbind result_bind].
    eapply returns_mono; [apply (IH (done ++ [(x, w)])); try done; try lia|].
    + intros y j Hy. rewrite length_insert. by eapply HD.
    + rewrite unknown_app. unfold unknown at 2. rewrite filter_cons_False by (simpl; by rewrite HDx).
      by rewrite filter_nil, app_nil_r.
    + intros [[slots' o'] low'] (-> & Ho' & ->). by split_and!; [..|lia].
  - rewrite Hh. apply returns_bind, returns_lift. eapply returns_mono.
    { eapply kwargs_insert_unique_ok; [done| |].
      - rewrite elem_of_unknown. tauto.
      - rewrite !length_app in Hlen. pose proof (length_unknown D done). simpl in *. lia. }
    intros o' Ho'. cbn beta. eapply returns_mono; [apply (IH (done ++ [(x, w)])); try done|].
    + rewrite unknown_app. unfold unknown at 2. by rewrite filter_cons_True, filter_nil by done.
    + intros [[slots' o''] low'] (-> & Ho'' & ->). split_and!; done.
Qed.

(** ** The [**kwargs] of the call *)

(** A key that is a string is a well-formed one, under its hash. *)
Definition string_entry (kv : Hashed V * V) : Prop :=
  ∀ s, string_of_value (key kv.1) = Some s →
    ∃ h x, s = string_of h x ∧ short_str x ∧ hash kv.1 = hash_of x.

Definition kwargs_post D (n : nat) (es : list (Hashed V * V)) kws slots
    (r : bound (list (option V) * option M)) : Prop :=
  match r with
  | Ok (slots', o') => ∃ kws', mapM dict_entry es = Some kws' ∧ NoDup (kws ++ kws').*1 ∧
      (∀ x i, x ∈ kws'.*1 → D !! x = Some i → n ≤ i) ∧
      slots' = put_named D kws' slots ∧ kwargs_models o' (unknown D (kws ++ kws'))
  | Err ArgsValueIsNotString => ∃ k v, (k, v) ∈ es ∧ string_of_value (key k) = None
  | Err (RepeatedArg x) =>
    repeated x (kws ++ omap dict_entry es).*1 ∨
    (x ∈ (omap dict_entry es).*1 ∧ ∃ i, D !! x = Some i ∧ i < n)
  | _ => False
  end.

Lemma kwargs_post_cons D n kv es kws slots slots' x r :
  dict_entry kv = Some (x, kv.2) →
  slots' = match D !! x with Some i => <[i := Some kv.2]> slots | None => slots end →
  (∀ i, D !! x = Some i → n ≤ i) →
  kwargs_post D n es (kws ++ [(x, kv.2)]) slots' r → kwargs_post D n (kv :: es) kws slots r.
Proof using Type.
  intros Hkv Hs Hn. unfold kwargs_post. csimpl. rewrite Hkv. destruct r as [[s o]|e|f]; [| |done].
  - intros (kws' & -> & Hnd & Hge & -> & Ho). exists ((x, kv.2) :: kws').
    rewrite <-app_assoc in Hnd, Ho. split_and!; [done|done| |by subst slots'|done].
    intros y i [->|Hy]%elem_of_cons Hi; [by apply Hn|by eapply Hge].
  - destruct e; try done.
    + intros [Hr|(Hx & i & Hi)]; [left; by rewrite <-app_assoc in Hr|right].
      split; [csimpl; by right|by exists i].
    + intros (k & v & Hin & Hk). exists k, v. split; [by right|done].
Qed.

Lemma kwargs_loop_ok D ps n es kws slots o :
  symbols hash_of (names ps) D → injective_names D → NoDup kws.*1 → Forall string_entry es →
  kwargs_models o (unknown D kws) → length kws + length es < om_max (M:=M) →
  slots_filled D n kws.*1 slots → kwargs_post D n es kws slots (kwargs_loop ps es slots o).
Proof.
  intros Hsym Hinj Hnd Hes. revert kws slots o Hnd.
  induction Hes as [|[k v] es Hk Hes IH]; intros kws slots o Hnd Ho Hlen Hf; simpl.
  { exists []. rewrite app_nil_r. split_and!; [done..| |done|done]. by intros x i ?%elem_of_nil. }
  destruct (string_of_value (key k)) as [s|] eqn:Hs; [|exists k, v; split; [by left|done]].
  destruct (Hk s Hs) as (h & x & -> & Hx & Hh). simpl in Hh. rewrite Hh.
  assert (dict_entry (k, v) = Some (x, v)) as Hentry.
  { unfold dict_entry, text_of, as_str, string_of. simpl. rewrite Hs. simpl. by rewrite as_str_ok. }
  assert (as_str (string_of h x) = Ok x) as Hstr by apply as_str_ok.
  rewrite (get_hashed_string_value_ok hash_of (names ps) D x h Hsym Hx). cbn [lift mbind result_bind].
  simpl in Hlen. pose proof (length_unknown D kws) as Hu.
  assert (x ∉ kws.*1 → NoDup (kws ++ [(x, v)]).*1) as Hnd'.
  { intros Hx'. rewrite fmap_app. apply NoDup_app. split_and!; [done| |apply NoDup_singleton].
    intros y Hy ->%list_elem_of_singleton. done. }
  assert (x ∈ kws.*1 → kwargs_post D n ((k, v) :: es) kws slots (Err (RepeatedArg x))) as Hrep.
  { intros Hx'. left. csimpl. rewrite Hentry, fmap_app. csimpl. by apply repeated_intro. }
  destruct (D !! x) as [i|] eqn:HDx.
  - destruct (Hf _ _ HDx) as [Hi Hfi]. apply lookup_lt_is_Some in Hi as [slot Hslot].
    rewrite Hslot in Hfi |- *. simpl in Hfi. cbn [unwrap mbind result_bind].
    rewrite set_slot_ok by by eapply lookup_lt_Some. cbn [mbind result_bind].
    destruct (is_none slot) eqn:Hnone; cbn [negb].
    + assert (n ≤ i ∧ x ∉ kws.*1) as [Hni Hx'].
      { split; [apply Nat.le_ngt|]; intros ?; assert (true = false); [|done| |done]; apply Hfi; tauto. }
      eapply (kwargs_post_cons _ _ (k, v)); [done|by rewrite HDx|intros j Hj; rewrite HDx in Hj; by injection Hj as <-|].
      apply IH; [by apply Hnd'| |rewrite length_app; simpl; lia|].
      * rewrite unknown_app. unfold unknown at 2. rewrite filter_cons_False by (simpl; by rewrite HDx).
        by rewrite filter_nil, app_nil_r.
      * rewrite fmap_app. by apply slots_filled_insert.
    + rewrite Hstr. simpl. destruct (proj1 Hfi eq_refl) as [Hlt|Hx']; [|by apply Hrep].
      right. csimpl. rewrite Hentry. csimpl. split; [by left|]. by exists i.
  - destruct (kwargs_insert_ok o (unknown D kws) h x v Ho ltac:(lia)) as ([b o'] & -> & -> & Ho').
    cbn [lift mbind result_bind]. rewrite elem_of_unknown in Ho'.
    destruct (decide (x ∈ kws.*1)) as [Hx'|Hx'].
    + rewrite bool_decide_eq_true_2 by by apply elem_of_unknown. rewrite Hstr. simpl. by apply Hrep.
    + rewrite bool_decide_eq_false_2 by (rewrite elem_of_unknown; tauto).
      eapply (kwargs_post_cons _ _ (k, v)); [done|by rewrite HDx|congruence|].
      apply IH; [by apply Hnd'| |rewrite length_app; simpl; lia|].
      * rewrite unknown_app. unfold unknown at 2. rewrite filter_cons_True, filter_nil by done.
        apply Ho'. tauto.
      * rewrite fmap_app. by apply slots_filled_unknown.
Qed.

End loops.

(** ** Default values *)

Section defaults.
Context {V TT : Type}.
Implicit Types (ps : ParametersSpec TT V) (slots : list (option V)).

Definition missing_error ps (i : nat) (x : text) : FunctionError :=
  if i <? num_positional_only (indices ps) then MissingPositionalOnly x (function_name ps)
  else if num_positional (indices ps) <=? i then MissingNamedOnly x (function_name ps)
  else MissingParameter x (function_name ps).

Definition default_slot ps (i : nat) (s : option V) : option V :=
  match s, param_kinds ps !! i with None, Some (DefaultedKind d) => Some d | _, _ => s end.

Lemma defaults_loop_ok ps n index slots :
  index + n = length (param_kinds ps) → length (param_kinds ps) ≤ length slots →
  length (param_names ps) = length (param_kinds ps) →
  match defaults_loop ps n index slots with
  | Ok slots' =>
    (∀ i, slots' !! i = (λ s, if (index <=? i) && (i <? index + n) then default_slot ps i s else s)
      <$> slots !! i) ∧
    ∀ i, index ≤ i → param_kinds ps !! i = Some RequiredKind → slots !! i ≠ Some None
  | Err e => ∃ i x, index ≤ i ∧ slots !! i = Some None ∧ param_kinds ps !! i = Some RequiredKind ∧
      param_names ps !! i = Some x ∧ e = missing_error ps i x
  | Fault _ => False
  end.
Proof.
  intros Hn Hlen Hnames. revert index slots Hn Hlen.
  induction n as [|n IH]; intros index slots Hn Hlen; simpl.
  { split.
    - intros i. destruct (Nat.leb_spec index i), (Nat.ltb_spec i (index + 0)); simpl; try lia;
        by destruct (slots !! i).
    - intros i Hi Hk%lookup_lt_Some. lia. }
  destruct (lookup_lt_is_Some_2 slots index) as [s Hs]; [lia|].
  destruct (lookup_lt_is_Some_2 (param_kinds ps) index) as [k Hk]; [lia|].
  destruct (lookup_lt_is_Some_2 (param_names ps) index) as [x Hx]; [lia|].
  unfold get_unchecked_slot. rewrite Hs, Hk. cbn [mbind result_bind].
  (* The slots go on unchanged, except for the default of this parameter. *)
  assert (∀ slots', slots' = <[index := default_slot ps index s]> slots →
    (s = None → k = RequiredKind → False) →
    match defaults_loop ps n (index + 1) slots' with
    | Ok slots' =>
      (∀ i, slots' !! i = (λ s, if (index <=? i) && (i <? index + Datatypes.S n) then default_slot ps i s else s)
        <$> slots !! i) ∧
      ∀ i, index ≤ i → param_kinds ps !! i = Some RequiredKind → slots !! i ≠ Some None
    | Err e => ∃ i x, index ≤ i ∧ slots !! i = Some None ∧ param_kinds ps !! i = Some RequiredKind ∧
        param_names ps !! i = Some x ∧ e = missing_error ps i x
    | Fault _ => False
    end) as Hgo.
  { intros slots' -> Hreq. specialize (IH (index + 1) (<[index := default_slot ps index s]> slots)).
    rewrite length_insert in IH. specialize (IH ltac:(lia) Hlen).
    destruct (defaults_loop _ _ _ _) as [slots'|e|f]; [| |done].
    - destruct IH as [Hl Hr]. split.
      + intros i. rewrite Hl. destruct (decide (i = index)) as [->|Hne].
        * rewrite list_lookup_insert_eq, Hs by lia. simpl.
          by destruct (Nat.leb_spec (index + 1) index), (Nat.leb_spec index index),
            (Nat.ltb_spec index (index + Datatypes.S n)); simpl; try lia.
        * rewrite list_lookup_insert_ne by done.
          destruct (Nat.leb_spec (index + 1) i), (Nat.leb_spec index i),
            (Nat.ltb_spec i (index + 1 + n)), (Nat.ltb_spec i (index + Datatypes.S n)); simpl; try lia; done.
      + intros i Hi Hki Hsi. destruct (decide (i = index)) as [->|Hne]; [naive_solver|].
        apply (Hr i); [lia|done|]. by rewrite list_lookup_insert_ne.
    - destruct IH as (i & y & Hi & Hsi & Hki & Hyi & ->). exists i, y.
      rewrite list_lookup_insert_ne in Hsi by lia. split_and!; [lia|done..]. }
  destruct s as [v|]; [|destruct k].
  - apply Hgo; [|done]. by rewrite list_insert_id.
  - rewrite Hx. simpl. exists index, x. split_and!; done.
  - apply Hgo; [|done]. unfold default_slot. rewrite Hk. by rewrite list_insert_id.
  - rewrite set_slot_ok by (by eapply lookup_lt_Some). apply Hgo; [|done].
    unfold default_slot. by rewrite Hk.
  - apply Hgo; [|done]. unfold default_slot. rewrite Hk. by rewrite list_insert_id.
  - apply Hgo; [|done]. unfold default_slot. rewrite Hk. by rewrite list_insert_id.
Qed.
End defaults.
