(* ===== verification/CallCollect.v ===== *)
(** Argument binding as a whole: [collect_slow] and the fast path [collect_inline] of
    [ParamSpec.v] implement the specification of [CallBinding.v], and
    [can_fill_with_args] decides it from the shape of a call. *)

From S2P Require Import Prelude Hashing TableMap FastString Symbol DefParams.
From S2P Require Import SmallMapSpec OrdMap ParamSpec CallBinding.

(** * The slots after positional and keyword arguments *)

Section placed.
Context {V TT : Type}.
Implicit Types (D : gmap text nat) (slots : list (option V)) (kws : list (text * V)) (xs : list V).

(** The first [n] slots hold positional arguments; keyword arguments are in theirs. *)
Definition placed D xs kws (n : nat) slots slots' : Prop :=
  ∀ i, slots' !! i = if i <? n then Some (xs !! i) else
    match named_value D kws i with Some v => Some (Some v) | None => slots !! i end.

Definition in_slots D (m : nat) : Prop := ∀ x i, D !! x = Some i → i < m.

Lemma named_value_Some D kws i v : named_value D kws i = Some v → ∃ x, x ∈ kws.*1 ∧ D !! x = Some i.
Proof.
  induction kws as [|[x w] kws IH]; [done|]. rewrite named_value_cons. case_decide as HD.
  - intros _. exists x. split; [by left|done].
  - intros (y & Hy & HDy)%IH. exists y. split; [by right|done].
Qed.

Lemma named_value_app D kws kws' i :
  named_value D (kws ++ kws') i =
    match named_value D kws i with Some v => Some v | None => named_value D kws' i end.
Proof.
  induction kws as [|[x w] kws IH]; [done|]. simpl. rewrite !named_value_cons, IH.
  by case_decide.
Qed.

Lemma placed_start D xs ys kws n n' slots :
  injective_names D → NoDup kws.*1 → in_slots D (length slots) →
  n' ≤ length slots → n = length xs → n' = length xs + length ys →
  (∀ x i, x ∈ kws.*1 → D !! x = Some i → n' ≤ i) →
  placed D (xs ++ ys) kws n' slots (write_from n ys (put_named D kws (write_from 0 xs slots))).
Proof.
  intros Hinj Hnd HD Hn' -> -> Hge i.
  rewrite lookup_write_from by (rewrite length_put_named, length_write_from; lia).
  destruct (decide (i < length slots)) as [Hi|Hi].
  - rewrite lookup_put_named, lookup_write_from
      by (rewrite ?length_write_from; simpl; lia || done). simpl.
    destruct (Nat.leb_spec (length xs) i) as [Hle|Hlt]; simpl.
    + destruct (Nat.ltb_spec i (length xs + length ys)) as [Hlt|Hle'].
      * rewrite lookup_app_r by lia. destruct (lookup_lt_is_Some_2 ys (i - length xs)) as [v Hv]; [lia|].
        by rewrite Hv.
      * destruct (Nat.ltb_spec i (length xs)); [lia|done].
    + rewrite (proj2 (Nat.ltb_lt i (length xs + length ys))), (proj2 (Nat.ltb_lt i (length xs))) by lia.
      rewrite (proj2 (named_value_None D kws i)).
      * rewrite lookup_app_l, Nat.sub_0_r by lia.
        destruct (lookup_lt_is_Some_2 xs i) as [v Hv]; [lia|]. by rewrite Hv.
      * intros x Hx HDx. specialize (Hge _ _ Hx HDx). lia.
  - rewrite (proj2 (Nat.ltb_ge _ _)) by lia. rewrite andb_false_r.
    destruct (named_value D kws i) as [v|] eqn:Hv.
    { apply named_value_Some in Hv as (x & _ & ?%HD). lia. }
    rewrite !lookup_ge_None_2; rewrite ?length_put_named, ?length_write_from; simpl; try done; lia.
Qed.

Lemma placed_kwargs D xs kws kws' n slots slots' :
  injective_names D → in_slots D (length slots) → length slots' = length slots →
  NoDup (kws ++ kws').*1 →
  (∀ x i, x ∈ kws'.*1 → D !! x = Some i → n ≤ i) →
  placed D xs kws n slots slots' → placed D xs (kws ++ kws') n slots (put_named D kws' slots').
Proof.
  intros Hinj HD Hlen Hnd Hge Hp i. rewrite fmap_app in Hnd. apply NoDup_app in Hnd as (_ & Hno & Hnd').
  rewrite named_value_app. destruct (decide (i < length slots)) as [Hi|Hi].
  - rewrite lookup_put_named by (done || lia). rewrite (Hp i).
    destruct (named_value D kws' i) as [v|] eqn:Hv.
    + apply named_value_Some in Hv as (x & Hx & HDx). specialize (Hge _ _ Hx HDx).
      rewrite (proj2 (Nat.ltb_ge _ _)) by lia.
      rewrite (proj2 (named_value_None D kws i)); [done|]. intros y Hy HDy.
      rewrite (Hinj _ _ _ HDx HDy) in Hx. by apply (Hno y).
    + by destruct (i <? n), (named_value D kws i).
  - rewrite lookup_ge_None_2 by (rewrite length_put_named; lia).
    specialize (Hp i). rewrite lookup_ge_None_2 in Hp by lia. rewrite Hp. destruct (i <? n); [done|].
    destruct (named_value D kws i); [done|]. destruct (named_value D kws' i) as [v|] eqn:Hv; [|done].
    apply named_value_Some in Hv as (x & _ & ?%HD). lia.
Qed.

Lemma placed_filled D xs kws n slots slots' :
  injective_names D → in_slots D (length slots) → length slots' = length slots → n ≤ length xs →
  (∀ x i, D !! x = Some i → slots !! i = Some None) →
  placed D xs kws n slots slots' → slots_filled D n kws.*1 slots'.
Proof.
  intros Hinj HD Hlen Hn Hnone Hp x i Hx. split; [rewrite Hlen; by eapply HD|].
  rewrite (Hp i). destruct (Nat.ltb_spec i n) as [Hlt|Hge].
  - destruct (lookup_lt_is_Some_2 xs i) as [v Hv]; [lia|]. rewrite Hv. simpl. tauto.
  - destruct (named_value D kws i) as [v|] eqn:Hv; simpl.
    + apply named_value_Some in Hv as (y & Hy & HDy). rewrite (Hinj _ _ _ Hx HDy). tauto.
    + rewrite (Hnone _ _ Hx). simpl. split; [done|]. intros [?|Hin]; [lia|].
      by apply (proj1 (named_value_None D kws i) Hv x Hin) in Hx.
Qed.
End placed.

(** * Binding *)

(** What the heap guarantees for strings: they are well formed, and a dictionary keeps the
    hash of its keys. *)
Class ValuesOk (V : Type) `{Values V} (hash_of : text → StarlarkHashValue) := {
  string_value_ok v s : string_of_value v = Some s → ∃ h x, s = string_of h x ∧ short_str x;
  dict_hash_ok d es k v h x : dict_of_value d = Some es → (k, v) ∈ es →
    string_of_value (key k) = Some (string_of h x) → hash k = hash_of x;
}.

Section collect.
Context (hash_of : text → StarlarkHashValue).
Context {V TT M S : Type} `{!Values V, !ValuesOk V hash_of} `{HashTableOk (Symbol * nat) TT}.
Context `{!OrdMap (list byte) V M, !OrdMapOk (list byte) V M hash_of} `{!ArgSymbol TT V S}.
Implicit Types (ps : ParametersSpec TT V) (D : gmap text nat) (slots : list (option V)).
Implicit Types (kws : list (text * V)) (args : ArgumentsFull S V) (xs : list V).

(** A call whose named arguments, with the names [kws], are distinct, and whose keyword
    arguments fit the dictionary that collects them. *)
Record call_ok D ps args kws : Prop := {
  call_named : Forall2 (named_arg hash_of D ps) (zip (arg_names args) (arg_named args)) kws;
  call_distinct : NoDup kws.*1;
  call_lengths : length (arg_named args) = length (arg_names args);
  call_room : length kws + length (default [] (dict_entries (arg_kwargs args))) < om_max (M:=M);
}.

(** Slots for the parameters, not filled yet. *)
Definition slots_ready ps slots : Prop :=
  length (param_kinds ps) ≤ length slots ∧ ∀ i, i < length (param_kinds ps) → slots !! i = Some None.

Definition binds D ps args slots (r : bound (list (option V))) : Prop :=
  match r with
  | Ok slots' => ∃ xs kws, positional_args args = Some xs ∧ keyword_args args = Some kws ∧
      bindable D ps (length xs) kws.*1 = true ∧
      ∀ i, slots' !! i = if i <? length (param_kinds ps) then Some (bound_slot D ps xs kws i)
                         else slots !! i
  | Err e => explains D ps args e
  | Fault _ => False
  end.

Section spec.
Context ps D (Hps : spec_ok hash_of ps D).

Lemma spec_injective : injective_names D.
Proof.
  intros x y i Hx Hy. apply (ok_directory _ _ _ Hps) in Hx as (_ & Hx & _).
  apply (ok_directory _ _ _ Hps) in Hy as (_ & Hy & _). congruence.
Qed.

Lemma spec_directory x i : D !! x = Some i → i < length (param_kinds ps).
Proof. intros (_ & _ & k & Hk & _)%(ok_directory _ _ _ Hps). by eapply lookup_lt_Some. Qed.

Lemma spec_positional_le : num_positional (indices ps) ≤ length (param_kinds ps).
Proof.
  destruct (num_positional (indices ps)) as [|n] eqn:Hn; [lia|].
  destruct (ok_positional _ _ _ Hps n) as (k & Hk & _); [lia|]. by apply lookup_lt_Some in Hk.
Qed.

Lemma spec_star_slot i k :
  param_kinds ps !! i = Some k → is_star_kind k = true →
  num_positional (indices ps) ≤ i ∧ ∀ x, D !! x ≠ Some i.
Proof.
  intros Hk Hs. split.
  - apply Nat.le_ngt. intros Hi. destruct (ok_positional _ _ _ Hps i Hi) as (k' & Hk' & Hs').
    rewrite Hk in Hk'. injection Hk' as <-. congruence.
  - intros x (_ & _ & k' & Hk' & Hs')%(ok_directory _ _ _ Hps). rewrite Hk in Hk'. injection Hk' as <-.
    congruence.
Qed.

Definition base_slot xs kws (i : nat) : option V :=
  if i <? filled ps (length xs) then xs !! i else named_value D kws i.

Lemma bound_slot_base xs kws i k :
  param_kinds ps !! i = Some k →
  bound_slot D ps xs kws i = match k with
    | ArgsKind => Some (alloc_tuple (drop (num_positional (indices ps)) xs))
    | KWargsKind => Some (alloc_dict (unknown D kws))
    | _ => default_slot ps i (base_slot xs kws i)
    end.
Proof.
  intros Hk. unfold bound_slot, base_slot, default_slot. rewrite Hk.
  assert (is_star_kind k = true → (i <? filled ps (length xs)) = false ∧ named_value D kws i = None) as Hstar.
  { intros Hs. destruct (spec_star_slot _ _ Hk Hs) as [Hle Hno]. split.
    - apply Nat.ltb_ge. unfold filled. lia.
    - apply named_value_None. intros x _. apply Hno. }
  destruct k; try (destruct (Hstar eq_refl) as [-> ->]; done);
    destruct (Nat.ltb_spec i (filled ps (length xs))) as [Hlt|Hge]; try (by destruct (named_value D kws i)).
  all: unfold filled in Hlt; destruct (lookup_lt_is_Some_2 xs i) as [w Hw]; [lia|by rewrite Hw].
Qed.

Lemma kwargs_alloc_ok o kws :
  kwargs_models hash_of o kws → kwargs_alloc o = Ok (alloc_dict kws).
Proof.
  destruct o as [mp|]; simpl; [|by intros ->]. intros [Hm _]. by rewrite (om_entries_ok _ _ Hm).
Qed.

(** The last step: [*args] and [**kwargs]. *)
Lemma set_stars_ok args slots slots' o xs kws :
  positional_args args = Some xs → keyword_args args = Some kws →
  length (param_kinds ps) ≤ length slots →
  (∀ i, slots' !! i = if i <? length (param_kinds ps) then Some (default_slot ps i (base_slot xs kws i))
                      else slots !! i) →
  kwargs_models hash_of o (unknown D kws) →
  ((length xs ≤ num_positional (indices ps) ∨ DefParams.args (indices ps) ≠ None) →
   (unknown D kws = [] ∨ DefParams.kwargs (indices ps) ≠ None) → bindable D ps (length xs) kws.*1 = true) →
  binds D ps args slots (set_stars ps (drop (num_positional (indices ps)) xs) o slots').
Proof.
  intros Hxs Hkws Hlen Hs Ho Hb. unfold set_stars. pose proof (kwargs_alloc_ok _ _ Ho) as Halloc.
  assert (length slots' = length slots) as Hlen'.
  { destruct (decide (length slots' = length slots)) as [|Hne]; [done|exfalso].
    destruct (decide (length slots' < length slots)) as [Hlt|Hge].
    - specialize (Hs (length slots')). rewrite lookup_ge_None_2 in Hs by lia.
      destruct (_ <? _); [done|]. symmetry in Hs. apply lookup_ge_None in Hs. lia.
    - specialize (Hs (length slots)). rewrite (proj2 (Nat.ltb_ge _ _)) in Hs by lia.
      rewrite (lookup_ge_None_2 slots) in Hs by lia. apply lookup_ge_None in Hs. lia. }
  (* After the first half the slot of [*args] is right. *)
  set (args_slot := λ i, match param_kinds ps !! i with
    | Some ArgsKind => bound_slot D ps xs kws i | _ => default_slot ps i (base_slot xs kws i) end).
  set (m1 := match DefParams.args (indices ps) with Some _ => _ | None => _ end).
  assert (match m1 with
    | Ok slots1 => (length xs ≤ num_positional (indices ps) ∨ DefParams.args (indices ps) ≠ None) ∧
        length slots1 = length slots ∧
        ∀ i, slots1 !! i = if i <? length (param_kinds ps) then Some (args_slot i) else slots !! i
    | Err e => explains D ps args e
    | Fault _ => False
    end) as Hm1.
  { subst m1. destruct (DefParams.args (indices ps)) as [a|] eqn:Ha.
    - pose proof Ha as Hk. apply (ok_args _ _ _ Hps) in Hk. pose proof (lookup_lt_Some _ _ _ Hk) as Hlt.
      rewrite set_slot_ok by lia. split; [by right|]. split; [by rewrite length_insert|]. intros i.
      subst args_slot. cbn beta. destruct (decide (i = a)) as [->|Hne].
      + rewrite list_lookup_insert_eq by lia. rewrite (proj2 (Nat.ltb_lt _ _)) by done. rewrite Hk.
        by rewrite (bound_slot_base _ _ _ _ Hk).
      + rewrite list_lookup_insert_ne, Hs by done. destruct (_ <? _); [|done].
        destruct (param_kinds ps !! i) as [[| | | |]|] eqn:Hi; try done.
        apply (ok_args _ _ _ Hps) in Hi. congruence.
    - destruct (drop (num_positional (indices ps)) xs) as [|y ys] eqn:Hd.
      + assert (length xs ≤ num_positional (indices ps)) as Hle.
        { apply (f_equal length) in Hd. rewrite length_drop in Hd. simpl in Hd. lia. }
        split; [by left|]. split; [done|]. intros i. rewrite Hs. destruct (_ <? _); [|done].
        subst args_slot. cbn beta. destruct (param_kinds ps !! i) as [[| | | |]|] eqn:Hi; try done.
        apply (ok_args _ _ _ Hps) in Hi. congruence.
      + simpl. split_and!; [done|lia|done|]. exists xs. split; [done|].
        apply (f_equal length) in Hd. rewrite length_drop in Hd. simpl in Hd. lia. }
  clearbody m1. destruct m1 as [slots1|e|f]; [|done|done]. destruct Hm1 as (Hpos & Hlen1 & Hs1).
  cbn [mbind result_bind]. specialize (Hb Hpos).
  destruct (DefParams.kwargs (indices ps)) as [kw|] eqn:Hkw.
  - rewrite Halloc. cbn [lift mbind result_bind].
    pose proof Hkw as Hk. apply (ok_kwargs _ _ _ Hps) in Hk. pose proof (lookup_lt_Some _ _ _ Hk) as Hlt.
    rewrite set_slot_ok by lia. exists xs, kws. split_and!; [done|done|by apply Hb; right|]. intros i.
    destruct (decide (i = kw)) as [->|Hne].
    + rewrite list_lookup_insert_eq by lia. rewrite (proj2 (Nat.ltb_lt _ _)) by done.
      by rewrite (bound_slot_base _ _ _ _ Hk).
    + rewrite list_lookup_insert_ne, Hs1 by done. destruct (Nat.ltb_spec i (length (param_kinds ps))); [|done].
      subst args_slot. cbn beta. destruct (lookup_lt_is_Some_2 (param_kinds ps) i) as [k Hi]; [done|].
      rewrite Hi, (bound_slot_base _ _ _ _ Hi). destruct k; try done.
      apply (ok_kwargs _ _ _ Hps) in Hi. congruence.
  - destruct o as [mp|]; simpl in Ho.
    + destruct Ho as [Hmp Hne]. rewrite (om_entries_ok _ _ Hmp). cbn [lift mbind result_bind].
      simpl. split_and!; [done| |done|by exists kws]. by intros ?%fmap_nil_inv.
    + exists xs, kws. split_and!; [done|done|by apply Hb; left|]. intros i. rewrite Hs1.
      destruct (Nat.ltb_spec i (length (param_kinds ps))); [|done].
      subst args_slot. cbn beta. destruct (lookup_lt_is_Some_2 (param_kinds ps) i) as [k Hi]; [done|].
      rewrite Hi, (bound_slot_base _ _ _ _ Hi). destruct k; try done.
      apply (ok_kwargs _ _ _ Hps) in Hi. congruence.
Qed.

(** ** Default values, after the last keyword argument *)

Lemma keyword_args_ok args nkws es kws :
  call_ok D ps args nkws → dict_entries (arg_kwargs args) = Some es → mapM dict_entry es = Some kws →
  keyword_args args = Some (nkws ++ kws).
Proof.
  intros Hc Hes Hkws. unfold keyword_args. rewrite Hes.
  assert (mapM named_entry (zip (arg_names args) (arg_named args)) = Some nkws) as ->.
  { apply mapM_Some_2. eapply Forall2_impl; [apply (call_named _ _ _ _ Hc)|].
    intros [[s sv] v] [x w] (Hv & (h & Hsv) & _). simpl in *. subst.
    unfold named_entry, text_of, as_str, string_of. simpl. by rewrite as_str_ok. }
  simpl. by rewrite Hkws.
Qed.

Lemma given_names_ok args nkws :
  call_ok D ps args nkws →
  given_names args = (nkws ++ omap dict_entry (default [] (dict_entries (arg_kwargs args)))).*1.
Proof.
  intros Hc. unfold given_names. do 2 f_equal. apply mapM_omap, mapM_Some_2.
  eapply Forall2_impl; [apply (call_named _ _ _ _ Hc)|].
  intros [[s sv] v] [x w] (Hv & (h & Hsv) & _). simpl in *. subst.
  unfold named_entry, text_of, as_str, string_of. simpl. by rewrite as_str_ok.
Qed.

Lemma filled_le n : filled ps n ≤ length (param_kinds ps).
Proof. unfold filled. pose proof spec_positional_le. lia. Qed.

Lemma missing_explained args i x xs kws :
  positional_args args = Some xs → keyword_args args = Some kws →
  filled ps (length xs) ≤ i → named_value D kws i = None → param_kinds ps !! i = Some RequiredKind →
  param_names ps !! i = Some x → explains D ps args (missing_error ps i x).
Proof.
  intros Hxs Hkws Hi Hno Hk Hx.
  assert (missing D ps args x i) as Hm.
  { split_and!; [done|done|]. exists xs. split_and!; [done|done|].
    rewrite (keyword_args_given _ _ Hkws). by apply named_value_None. }
  unfold missing_error. destruct (Nat.ltb_spec i (num_positional_only (indices ps))); [|].
  { split; [done|]. by exists i. }
  destruct (Nat.leb_spec (num_positional (indices ps)) i); (split; [done|]); by exists i.
Qed.

Lemma finish_binding_ok args slots slots' o xs kws :
  positional_args args = Some xs → keyword_args args = Some kws → slots_ready ps slots →
  placed D xs kws (filled ps (length xs)) slots slots' → length slots' = length slots →
  kwargs_models hash_of o (unknown D kws) → NoDup kws.*1 →
  (∀ x i, x ∈ kws.*1 → D !! x = Some i → filled ps (length xs) ≤ i) →
  let n := filled ps (length xs) in
  binds D ps args slots
    (slots ← defaults_loop ps (length (param_kinds ps) - n) n slots';
     set_stars ps (drop (num_positional (indices ps)) xs) o slots).
Proof.
  intros Hxs Hkws [Hlen Hnone] Hp Hlen' Ho Hnd Hge n. pose proof (filled_le (length xs)) as Hn. fold n in Hn, Hp, Hge.
  pose proof (defaults_loop_ok ps (length (param_kinds ps) - n) n slots' ltac:(lia) ltac:(lia)
    (ok_length _ _ _ Hps)) as Hd.
  assert (∀ i, i < length (param_kinds ps) → slots' !! i = Some (base_slot xs kws i)) as Hbase.
  { intros i Hi. rewrite (Hp i). unfold base_slot. fold n. destruct (i <? n); [done|].
    destruct (named_value D kws i); [done|by apply Hnone]. }
  destruct (defaults_loop _ _ _ _) as [slots5|e|f]; [|destruct Hd as (i & x & Hi & Hs & Hk & Hx & ->)|done].
  - cbn [mbind result_bind]. destruct Hd as [Hs Hreq]. apply (set_stars_ok args slots slots5 o xs kws); try done.
    + intros i. rewrite Hs. destruct (Nat.ltb_spec i (length (param_kinds ps))) as [Hi|Hi].
      * rewrite Hbase by done. simpl. rewrite (proj2 (Nat.ltb_lt i _)) by lia. rewrite andb_true_r.
        destruct (Nat.leb_spec n i); [done|]. unfold base_slot. fold n.
        rewrite (proj2 (Nat.ltb_lt i n)) by done. unfold n, filled in *.
        destruct (lookup_lt_is_Some_2 xs i) as [v Hv]; [lia|]. by rewrite Hv.
      * rewrite (proj2 (Nat.ltb_ge i (n + _))) by lia. rewrite andb_false_r, (Hp i).
        rewrite (proj2 (Nat.ltb_ge i n)) by lia. rewrite (proj2 (named_value_None D kws i)).
        { by destruct (slots !! i). }
        intros x _ HD. apply spec_directory in HD. lia.
    + intros Hpos Hunk. apply bindable_spec. split_and!; [done|done| |].
      * intros x Hx. destruct (D !! x) as [i|] eqn:HD; [by eapply Hge|]. destruct Hunk as [Hunk|]; [|done].
        assert (x ∈ (unknown D kws).*1) as Hin by by apply elem_of_unknown. rewrite Hunk in Hin.
        by apply elem_of_nil in Hin.
      * intros i Hk. fold n. destruct (decide (i < n)) as [|Hi]; [by left|right].
        pose proof (lookup_lt_Some _ _ _ Hk) as Hik.
        destruct (named_value D kws i) as [v|] eqn:Hv; [by eapply named_value_Some|].
        exfalso. apply (Hreq i); [lia|done|]. rewrite Hbase by done. unfold base_slot. fold n.
        rewrite (proj2 (Nat.ltb_ge i n)) by lia. by rewrite Hv.
  - cbn [mbind result_bind]. eapply (missing_explained args i x xs kws); try done.
    rewrite Hbase in Hs by by eapply lookup_lt_Some. unfold base_slot in Hs. fold n in Hs.
    rewrite (proj2 (Nat.ltb_ge i n)) in Hs by lia. by injection Hs.
Qed.

(** ** From the arguments to the last keyword argument *)

Context (Hmax : 12 ≤ om_max (M:=M)).

(** The values of the call's [*args]. *)
Definition star_values args : option (list V) :=
  match arg_args args with None => Some [] | Some v => iterate v end.

Lemma positional_args_star args : positional_args args = (λ ys, arg_pos args ++ ys) <$> star_values args.
Proof.
  unfold positional_args, star_values. destruct (arg_args args) as [v|]; simpl; [|by rewrite app_nil_r].
  by destruct (iterate v).
Qed.

(** The stages of [collect_slow], each as one loop. *)
Lemma stage_positional xs slots :
  num_positional (indices ps) ≤ length slots →
  (if length xs <=? num_positional (indices ps) then Ok (length xs, [], fill_slots xs slots)
   else push_positional ps xs 0 [] slots) =
  Ok (filled ps (length xs), drop (num_positional (indices ps)) xs,
      write_from 0 (take (num_positional (indices ps)) xs) slots).
Proof.
  intros Hn. destruct (Nat.leb_spec (length xs) (num_positional (indices ps))) as [Hl|Hl].
  - rewrite fill_slots_ok, drop_ge, take_ge by lia. unfold filled. by rewrite Nat.min_l by lia.
  - rewrite push_positional_ok by lia. unfold filled. by rewrite Nat.sub_0_r, Nat.add_0_l, Nat.min_comm.
Qed.

Lemma stage_named (ns : list (S * StarlarkStr)) (vs : list V) slots :
  match ns with
  | [] => Ok (slots, None, usize_max)
  | n :: ns => named_loop (M:=M) ps (zip (n :: ns) vs) slots None usize_max
  end = named_loop ps (zip ns vs) slots None usize_max.
Proof. by destruct ns. Qed.

Lemma stage_star args n star slots :
  match arg_args args with
  | None => Ok (n, star, slots)
  | Some v => vs ← ok_or (iterate v) ArgsArrayIsNotIterable; push_positional ps vs n star slots
  end = (vs ← ok_or (star_values args) ArgsArrayIsNotIterable; push_positional ps vs n star slots).
Proof. unfold star_values. by destruct (arg_args args). Qed.

Lemma stage_kwargs args slots (o : option M) :
  match arg_kwargs args with
  | None => Ok (slots, o)
  | Some v => match dict_of_value v with
              | Some y => kwargs_loop ps y slots o
              | None => Err KwArgsIsNotDict
              end
  end = (es ← ok_or (dict_entries (arg_kwargs args)) KwArgsIsNotDict; kwargs_loop ps es slots o).
Proof. destruct (arg_kwargs args) as [v|]; simpl; [|done]. by destruct (dict_of_value v). Qed.

Lemma dict_string_entries args es :
  dict_entries (arg_kwargs args) = Some es → Forall (string_entry hash_of) es.
Proof using ValuesOk0.
  intros Hes. apply Forall_forall. intros [k v] Hin s Hs.
  destruct (string_value_ok _ _ Hs) as (h & x & -> & Hx). exists h, x. split_and!; [done..|].
  destruct (arg_kwargs args) as [d|] eqn:Hd; simpl in Hes.
  - by eapply dict_hash_ok.
  - injection Hes as <-. by apply elem_of_nil in Hin.
Qed.

Lemma usize_count n : n ≤ length (param_kinds ps) → (Z.of_nat n ≤ usize_max)%Z.
Proof. pose proof (ok_count _ _ _ Hps). unfold u32_max, usize_max, u64_max in *. lia. Qed.

Lemma collect_keywords args nkws slots slots' o xs :
  call_ok D ps args nkws → slots_ready ps slots → positional_args args = Some xs →
  let n := filled ps (length xs) in
  placed D xs nkws n slots slots' → length slots' = length slots →
  kwargs_models hash_of o (unknown D nkws) →
  (∀ x i, x ∈ nkws.*1 → D !! x = Some i → n ≤ i) →
  binds D ps args slots
    ('(slots, kwargs) ← (es ← ok_or (dict_entries (arg_kwargs args)) KwArgsIsNotDict;
                         kwargs_loop ps es slots' o);
     slots ← defaults_loop ps (length (param_kinds ps) - n) n slots;
     set_stars ps (drop (num_positional (indices ps)) xs) kwargs slots).
Proof.
  intros Hc Hready Hxs n Hp Hlen' Ho Hge. destruct Hready as [Hlen Hnone].
  pose proof spec_injective as Hinj. pose proof (given_names_ok _ _ Hc) as Hgiven.
  assert (in_slots D (length slots)) as HD by (intros x i ?%spec_directory; lia).
  destruct (dict_entries (arg_kwargs args)) as [es|] eqn:Hes; simpl.
  2: { destruct (arg_kwargs args) as [v|] eqn:Hv; [|done]. by exists v. }
  pose proof (kwargs_loop_ok hash_of Hmax D ps n es nkws slots' o (ok_names _ _ _ Hps) Hinj
    (call_distinct _ _ _ _ Hc) (dict_string_entries _ _ Hes) Ho) as Hk.
  pose proof (call_room _ _ _ _ Hc) as Hroom. rewrite Hes in Hroom. simpl in Hroom, Hgiven.
  specialize (Hk Hroom). destruct (kwargs_loop _ _ _ _) as [[slots4 o4]|e|f].
  - destruct Hk as (kws & Hkws & Hnd & Hge' & -> & Ho4).
    { eapply placed_filled; try done; [unfold n, filled; lia|]. intros x i Hx. by eapply Hnone, spec_directory. }
    cbn [mbind result_bind]. eapply finish_binding_ok; try done.
    + by eapply keyword_args_ok.
    + by eapply placed_kwargs.
    + by rewrite length_put_named.
    + intros x i. rewrite fmap_app, elem_of_app. intros [Hx|Hx] HDx; [by eapply Hge|by eapply Hge'].
  - cbn [mbind result_bind binds].
    assert (slots_filled D n nkws.*1 slots') as Hf.
    { eapply placed_filled; try done; [unfold n, filled; lia|]. intros x i Hx. by eapply Hnone, spec_directory. }
    specialize (Hk Hf). destruct e; try done; simpl.
    + rewrite Hgiven. destruct Hk as [Hr|(Hx & i & HDx & Hi)]; [by left|right].
      split; [rewrite fmap_app, elem_of_app; by right|]. exists i, xs. by split_and!.
    + destruct Hk as (k & v & Hin & Hs). destruct (arg_kwargs args) as [d|] eqn:Hd; simpl in Hes.
      * by exists d, es, k, v.
      * injection Hes as <-. by apply elem_of_nil in Hin.
  - apply Hk. eapply placed_filled; try done; [unfold n, filled; lia|]. intros x i Hx.
    by eapply Hnone, spec_directory.
Qed.

Lemma collect_slow_ok args nkws slots :
  call_ok D ps args nkws → slots_ready ps slots → binds D ps args slots (collect_slow (M:=M) ps args slots).
Proof.
  intros Hc Hready. pose proof Hready as [Hlen Hnone]. pose proof spec_positional_le as Hpl.
  pose proof spec_injective as Hinj. pose proof (given_names_ok _ _ Hc) as Hgiven.
  assert (in_slots D (length slots)) as HD by (intros x i ?%spec_directory; lia).
  unfold collect_slow. rewrite (proj2 (Nat.leb_le (length (param_kinds ps)) (length slots))) by done. cbn [assert mbind result_bind].
  rewrite stage_positional by lia. cbn [mbind result_bind]. rewrite stage_named.
  set (npos := num_positional (indices ps)) in *. set (pos := arg_pos args).
  assert (length (write_from 0 (take npos pos) slots) = length slots) as Hw
    by (rewrite length_write_from; rewrite ?length_take; lia).
  destruct (named_loop_ok hash_of Hmax D ps _ nkws [] (write_from 0 (take npos pos) slots) None usize_max
    (call_named _ _ _ _ Hc) (call_distinct _ _ _ _ Hc)) as ([[slots2 o] low] & -> & -> & Ho & ->);
    [by rewrite Hw|done| |lia|].
  { pose proof (call_room _ _ _ _ Hc). simpl. lia. }
  cbn [mbind result_bind]. rewrite stage_star.
  destruct (star_values args) as [ys|] eqn:Hys; simpl.
  2: { unfold star_values in Hys. destruct (arg_args args) as [v|] eqn:Hv; [|done]. by exists v. }
  assert (positional_args args = Some (pos ++ ys)) as Hxs by by rewrite positional_args_star, Hys.
  set (xs := pos ++ ys) in *.
  rewrite push_positional_ok by (rewrite ?length_put_named, ?Hw; unfold filled; lia).
  cbn [mbind result_bind].
  assert (Nat.min npos (filled ps (length pos) + length ys) = filled ps (length xs)) as Hn.
  { unfold filled, xs. rewrite length_app. fold npos. lia. }
  assert (npos - filled ps (length pos) = npos - length pos) as Hsub by (unfold filled; fold npos; lia).
  fold npos. rewrite Hn, Hsub.
  replace (drop npos pos ++ drop (npos - length pos) ys) with (drop npos xs) by apply drop_app.
  rewrite stage_kwargs. set (low := Z.min usize_max (lowest D nkws)).
  pose proof (filled_le (length xs)) as Hfl. pose proof (usize_count _ Hfl) as Hus.
  destruct (Z.ltb_spec low (Z.of_nat (filled ps (length xs)))) as [Hlt|Hge].
  - (* a name for a slot that is filled *)
    destruct (lowest_lt D nkws (filled ps (length xs)) Hus ltac:(lia)) as (x & i & Hx & HDx & Hl & Hi).
    pose proof HDx as (_ & Hname & _)%(ok_directory _ _ _ Hps).
    replace (Z.to_nat low) with i by lia. rewrite Hname. simpl. right. rewrite Hgiven.
    split; [rewrite fmap_app, elem_of_app; by left|]. exists i, xs. by split_and!.
  - cbn [mbind result_bind].
    assert (∀ x i, x ∈ nkws.*1 → D !! x = Some i → filled ps (length xs) ≤ i) as Hno
      by (intros x i Hx HDx; eapply (lowest_ge D nkws); try done; lia).
    eapply collect_keywords; try done.
    + intros i. rewrite (placed_start D (take npos pos) (take (npos - length pos) ys) nkws
        (filled ps (length pos)) (filled ps (length xs)) slots Hinj (call_distinct _ _ _ _ Hc) HD).
      * rewrite <-take_app. fold xs. destruct (Nat.ltb_spec i (filled ps (length xs))) as [Hi|]; [|done].
        rewrite lookup_take_lt; [done|]. unfold filled in Hi. fold npos in Hi. lia.
      * lia.
      * rewrite length_take. unfold filled. fold npos. lia.
      * rewrite !length_take. unfold filled, xs. rewrite length_app. fold npos. lia.
      * done.
    + rewrite length_write_from, length_put_named; [done|].
      rewrite length_put_named, Hw, length_take. unfold filled. fold npos. lia.
Qed.

(** ** The fast path *)

Lemma collect_inline_slow args slots :
  length (arg_named args) = length (arg_names args) → slots_ready ps slots →
  collect_inline (M:=M) ps args slots = collect_slow (M:=M) ps args slots.
Proof.
  intros Hl [Hlen _]. unfold collect_inline.
  destruct (_ && _) eqn:Hfast; [|done]. bool_to_prop.
  destruct args as [pos named ns [v|] [w|]]; simpl in *; try done.
  destruct named; [|done]. destruct ns; [|done].
  assert (length pos = num_positional (indices ps) ∧ length pos = length (param_kinds ps)) as [Hpos Hk]
    by (split; by apply Nat.eqb_eq).
  unfold collect_slow. simpl. rewrite (proj2 (Nat.leb_le (length (param_kinds ps)) (length slots))) by done.
  cbn [assert mbind result_bind]. rewrite (proj2 (Nat.leb_le (length pos) _)) by lia.
  cbn [mbind result_bind]. rewrite (proj2 (Z.ltb_ge usize_max _)) by (apply usize_count; lia).
  cbn [mbind result_bind]. replace (length (param_kinds ps) - length pos) with 0 by lia.
  cbn [defaults_loop mbind result_bind]. unfold set_stars.
  assert (∀ i k, param_kinds ps !! i = Some k → is_star_kind k = true → False) as Hno.
  { intros i k Hi Hs. destruct (spec_star_slot _ _ Hi Hs). apply lookup_lt_Some in Hi. lia. }
  destruct (DefParams.args (indices ps)) as [a|] eqn:Ha.
  { apply (ok_args _ _ _ Hps) in Ha. by destruct (Hno _ _ Ha). }
  destruct (DefParams.kwargs (indices ps)) as [a|] eqn:Ha'; [|done].
  apply (ok_kwargs _ _ _ Hps) in Ha'. by destruct (Hno _ _ Ha').
Qed.
End spec.
End collect.

(** ** Names of arguments *)

Section names.
Context (hash_of : text → StarlarkHashValue) {V TT : Type} `{HashTableOk (Symbol * nat) TT}.
Context (ps : ParametersSpec TT V) (D : gmap text nat) (Hps : spec_ok hash_of ps D).

(** A symbol finds the slot of its name, and so does a name resolved beforehand. *)
Lemma named_arg_symbol x h v :
  short_str x → named_arg hash_of D ps (symbol_of hash_of x, string_of h x, v) (x, v).
Proof.
  intros Hx. split_and!; simpl; [done|by exists h| |done].
  apply (SymbolMap_get_ok hash_of _ _ _ (ok_names _ _ _ Hps) Hx).
Qed.

Lemma named_arg_resolved x h v :
  returns (resolve_name ps (Hashed_new hash_of x)) (λ r,
    named_arg hash_of D ps (r, string_of h x, v) (x, v)).
Proof.
  unfold resolve_name. rewrite (get_hashed_str_ok hash_of (names ps) D x (ok_names _ _ _ Hps)).
  cbn [mbind result_bind]. apply returns_ret. split_and!; simpl; [done|by exists h|done|done].
Qed.
End names.

(** * Calls by their shape *)

Section can_fill.
Context (hash_of : text → StarlarkHashValue) {V TT : Type} `{HashTableOk (Symbol * nat) TT}.
Context (ps : ParametersSpec TT V) (D : gmap text nat) (Hps : spec_ok hash_of ps D).

Lemma can_fill_positions_ok n p (filled : list bool) :
  num_positional (indices ps) ≤ length filled →
  ∃ filled', length filled' = length filled ∧
    (∀ i, filled' !! i = if (p <=? i) && (i <? Nat.min (p + n) (num_positional (indices ps)))
                         then Some true else filled !! i) ∧
    can_fill_positions ps n p filled =
      Ok (if (p + n <=? Nat.max p (num_positional (indices ps))) || negb (is_none (DefParams.args (indices ps)))
          then Some filled' else None).
Proof.
  set (np := num_positional (indices ps)). revert p filled.
  induction n as [|n IH]; intros p filled Hn; simpl.
  { exists filled. split_and!; [done| |].
    - intros i. destruct (Nat.leb_spec p i), (Nat.ltb_spec i (Nat.min (p + 0) np)); simpl; try lia; done.
    - by rewrite (proj2 (Nat.leb_le _ _)) by lia. }
  fold np. destruct (Nat.ltb_spec p np) as [Hlt|Hge].
  - rewrite (proj2 (Nat.ltb_lt p _)) by lia. cbn [assert mbind result_bind].
    destruct (IH (p + 1) (<[p := true]> filled)) as (f & Hf & Hl & ->); [by rewrite length_insert|].
    exists f. split_and!; [by rewrite Hf, length_insert| |].
    + intros i. rewrite Hl. destruct (decide (i = p)) as [->|Hne].
      * rewrite list_lookup_insert_eq by lia.
        destruct (Nat.leb_spec (p + 1) p), (Nat.leb_spec p p),
          (Nat.ltb_spec p (Nat.min (p + S n) np)); simpl; try lia; done.
      * rewrite list_lookup_insert_ne by done.
        destruct (Nat.leb_spec (p + 1) i), (Nat.leb_spec p i), (Nat.ltb_spec i (Nat.min (p + 1 + n) np)),
          (Nat.ltb_spec i (Nat.min (p + S n) np)); simpl; try lia; done.
    + by destruct (Nat.leb_spec (p + 1 + n) (Nat.max (p + 1) np)),
        (Nat.leb_spec (p + S n) (Nat.max p np)); try lia.
  - rewrite (proj2 (Nat.leb_gt (p + S n) _)) by lia. simpl.
    destruct (DefParams.args (indices ps)) as [a|] eqn:Ha; simpl.
    + destruct (IH (p + 1) filled Hn) as (f & Hf & Hl & ->). exists f. simpl in *.
      rewrite orb_true_r in *. split_and!; [done| |done]. intros i. rewrite Hl.
      destruct (Nat.leb_spec (p + 1) i), (Nat.leb_spec p i), (Nat.ltb_spec i (Nat.min (p + 1 + n) np)),
        (Nat.ltb_spec i (Nat.min (p + S n) np)); simpl; try lia; done.
    + exists filled. split_and!; [done| |done]. intros i.
      destruct (Nat.leb_spec p i), (Nat.ltb_spec i (Nat.min (p + S n) np)); simpl; try lia; done.
Qed.

Definition has_name (ns : list text) (i : nat) : bool := existsb (λ x, bool_decide (D !! x = Some i)) ns.

Lemma can_fill_names_ok n seen ns (filled : list bool) :
  NoDup (seen ++ ns) → length filled = length (param_kinds ps) →
  (∀ i, i < length filled → filled !! i = Some ((i <? n) || has_name seen i)) →
  ∃ filled', length filled' = length filled ∧
    (∀ i, i < length filled → filled' !! i = Some ((i <? n) || has_name (seen ++ ns) i)) ∧
    can_fill_names hash_of ps ns filled =
      Ok (if forallb (λ x, match D !! x with
            | Some i => n <=? i
            | None => negb (is_none (DefParams.kwargs (indices ps)))
            end) ns then Some filled' else None).
Proof.
  revert seen filled. induction ns as [|x ns IH]; intros seen filled Hnd Hlen Hf; simpl.
  { exists filled. by rewrite app_nil_r. }
  replace (seen ++ x :: ns) with ((seen ++ [x]) ++ ns) in * by by rewrite <-app_assoc.
  assert (x ∉ seen) as Hx.
  { rewrite <-app_assoc in Hnd. apply NoDup_app in Hnd as (_ & Hno & _). intros Hin.
    apply (Hno x Hin). by left. }
  assert (∀ i, has_name (seen ++ [x]) i = has_name seen i || bool_decide (D !! x = Some i)) as Happ.
  { intros i. unfold has_name. rewrite existsb_app. simpl. by rewrite orb_false_r. }
  unfold get_str. rewrite (get_hashed_str_ok hash_of (names ps) D x (ok_names _ _ _ Hps)).
  cbn [mbind result_bind]. destruct (D !! x) as [i|] eqn:HD.
  - assert (i < length filled) as Hi by (rewrite Hlen; by eapply spec_directory).
    rewrite Hf by done. cbn [unwrap mbind result_bind].
    assert (has_name seen i = false) as ->.
    { apply not_true_is_false. intros (y & Hy & HDy)%existsb_exists.
      apply bool_decide_eq_true in HDy. apply Hx.
      rewrite (spec_injective _ _ _ Hps _ _ _ HD HDy). by apply list_elem_of_In. }
    rewrite orb_false_r. destruct (Nat.ltb_spec i n) as [Hlt|Hge].
    { rewrite (proj2 (Nat.leb_gt n i)) by done. simpl.
      destruct (IH (seen ++ [x]) (imap (λ j _, (j <? n) || has_name (seen ++ [x]) j) filled) Hnd)
        as (f & Hf' & Hl & _); rewrite ?length_imap; try done.
      - intros j Hj. rewrite list_lookup_imap. by destruct (lookup_lt_is_Some_2 filled j Hj) as [b ->].
      - rewrite length_imap in Hf', Hl. by exists f. }
    rewrite (proj2 (Nat.leb_le n i)) by done. simpl.
    destruct (IH (seen ++ [x]) (<[i := true]> filled) Hnd) as (f & Hf' & Hl & ->);
      rewrite ?length_insert; try done.
    { intros j Hj. rewrite Happ. destruct (decide (j = i)) as [->|Hne].
      - rewrite list_lookup_insert_eq, bool_decide_eq_true_2 by done. by rewrite !orb_true_r.
      - rewrite list_lookup_insert_ne, Hf, bool_decide_eq_false_2 by congruence. by rewrite orb_false_r. }
    rewrite length_insert in Hf', Hl. by exists f.
  - destruct (IH (seen ++ [x]) filled Hnd Hlen) as (f & Hf' & Hl & Hres).
    { intros i Hi. rewrite Happ, Hf by done. by rewrite bool_decide_eq_false_2, orb_false_r. }
    exists f. split_and!; [done..|]. by destruct (DefParams.kwargs (indices ps)).
Qed.

Lemma can_fill_ok n ns : NoDup ns → can_fill_with_args hash_of ps n ns = Ok (bindable D ps n ns).
Proof.
  intros Hnd. unfold can_fill_with_args, bindable. pose proof (spec_positional_le hash_of ps D Hps) as Hnp.
  set (np := num_positional (indices ps)) in *.
  destruct (can_fill_positions_ok n 0 (replicate (length (param_kinds ps)) false)) as (f & Hlen & Hf & ->);
    [by rewrite length_replicate|].
  rewrite length_replicate in Hlen. simpl. fold np in Hf |- *. cbn [mbind result_bind].
  rewrite (bool_decide_eq_true_2 (NoDup ns)), andb_true_r by done.
  destruct (_ || _) eqn:Hpos; [|done]. simpl.
  assert ((np <? n) && is_none (DefParams.args (indices ps)) = false) as ->.
  { destruct (Nat.ltb_spec np n), (DefParams.args (indices ps)); try done.
    rewrite (proj2 (Nat.leb_gt n np)) in Hpos by done. done. }
  destruct (can_fill_names_ok (filled ps n) [] ns f) as (f' & Hlen' & Hf' & ->); [done..| |].
  { intros i Hi. rewrite Hf. simpl. unfold filled. fold np. rewrite orb_false_r.
    destruct (i <? Nat.min n np); [done|]. apply lookup_replicate_2. lia. }
  cbn [mbind result_bind]. destruct (forallb _ ns); [|done]. simpl. f_equal. apply eq_true_iff_eq.
  rewrite !forallb_forall. split.
  - intros Hall i (_ & Hi)%in_seq. simpl in Hi.
    destruct (lookup_lt_is_Some_2 (param_kinds ps) i Hi) as [k Hk]. rewrite Hk.
    destruct k; try done. change (existsb _ ns) with (has_name ns i).
    specialize (Hall ((i <? filled ps n) || has_name ns i, RequiredKind)). simpl in Hall.
    rewrite orb_false_r in Hall. apply Hall, list_elem_of_In, list_elem_of_lookup. exists i.
    apply lookup_zip_with_Some. eexists _, _. split; [done|]. split; [|done]. apply Hf'. lia.
  - intros Hall [b k] Hin. apply list_elem_of_In, list_elem_of_lookup in Hin as [i Hi].
    apply lookup_zip_with_Some in Hi as (b' & k' & [= -> ->] & Hb & Hk).
    pose proof (lookup_lt_Some _ _ _ Hk) as Hik. rewrite Hf' in Hb by lia. injection Hb as <-.
    destruct k'; rewrite ?orb_true_r; try done. rewrite orb_false_r. simpl.
    specialize (Hall i ltac:(apply in_seq; lia)). by rewrite Hk in Hall.
Qed.
End can_fill.
