(* ===== verification/ParamBuilder.v ===== *)
(** The builder of parameter lists in [ParamSpec.v] keeps an invariant from which the finished
    list is well formed ([spec_ok]): each operation preserves it where its assertions hold,
    and [new_parts] never panics on parts with distinct names. *)

From S2P Require Import Prelude Hashing TableMap FastString Symbol.
From S2P Require Import DefParams OrdMap ParamSpec CallBinding.

Section builder.
Context (hash_of : text → StarlarkHashValue) {V TT : Type} `{HashTableOk (Symbol * nat) TT}.
Abbreviation Builder := (ParametersSpecBuilder TT V).
Implicit Types (b : Builder) (D : gmap text nat).

(** ** Invariant *)

Record builder_ok b D : Prop := {
  bo_names : symbols hash_of (b_names b) D;
  bo_size : size D ≤ length (b_params b);
  bo_directory x i : D !! x = Some i ↔
    positional_only b ≤ i ∧ ∃ k, b_params b !! i = Some (x, k) ∧ is_star_kind k = false;
  bo_only : positional_only b ≤ positional b;
  bo_positional i : i < positional b → ∃ x k, b_params b !! i = Some (x, k) ∧ is_star_kind k = false;
  bo_args i : b_args b = Some i ↔ ∃ x, b_params b !! i = Some (x, ArgsKind);
  bo_kwargs i : b_kwargs b = Some i ↔ ∃ x, b_params b !! i = Some (x, KWargsKind);
  bo_style : match current_style b with
    | StylePosOnly => positional_only b = length (b_params b) ∧ b_args b = None ∧ b_kwargs b = None
    | StylePosOrNamed => positional b = length (b_params b) ∧ b_args b = None ∧ b_kwargs b = None
    | StyleNamedOnly => b_kwargs b = None
    | StyleNoMore => True
    end;
}.

Lemma builder_positional_le b D : builder_ok b D → positional b ≤ length (b_params b).
Proof.
  intros Hb. destruct (positional b) as [|n] eqn:Hn; [lia|].
  destruct (bo_positional _ _ Hb n) as (x & k & Hk & _); [lia|]. by apply lookup_lt_Some in Hk.
Qed.

Lemma lookup_snoc_param (l : list (text * ParameterKind V)) x k i y k' :
  (l ++ [(x, k)]) !! i = Some (y, k') ↔
  l !! i = Some (y, k') ∨ i = length l ∧ y = x ∧ k' = k.
Proof.
  destruct (decide (i < length l)) as [Hi|Hi].
  - rewrite lookup_app_l by done. intuition lia.
  - rewrite lookup_app_r, (lookup_ge_None_2 l) by lia.
    destruct (i - length l) as [|j] eqn:Hj; simpl.
    + assert (i = length l) as -> by lia. intuition congruence.
    + intuition (lia || congruence).
Qed.

(** Adding a parameter at the end: what changes in the directory and the counts. *)
Inductive dir_step (n po : nat) D (x : text) (k : ParameterKind V) : nat → gmap text nat → Prop :=
| dir_star : is_star_kind k = true → dir_step n po D x k po D
| dir_pos_only : is_star_kind k = false → po = n → dir_step n po D x k (n + 1) D
| dir_named : is_star_kind k = false → po ≤ n → D !! x = None → dir_step n po D x k po (<[x := n]> D).

Lemma builder_snoc f ps nm nm' po po' p p' s s' a kw D D' x k :
  builder_ok (mkBuilder f ps nm po p s a kw) D →
  symbols hash_of nm' D' → dir_step (length ps) po D x k po' D' →
  po' ≤ p' → (p' = p ∨ is_star_kind k = false ∧ p = length ps ∧ p' = p + 1) →
  (k = ArgsKind → a = None) → (k = KWargsKind → kw = None) →
  let a' := match k with ArgsKind => Some (length ps) | _ => a end in
  let kw' := match k with KWargsKind => Some (length ps) | _ => kw end in
  match s' with
  | StylePosOnly => po' = length ps + 1 ∧ a' = None ∧ kw' = None
  | StylePosOrNamed => p' = length ps + 1 ∧ a' = None ∧ kw' = None
  | StyleNamedOnly => kw' = None
  | StyleNoMore => True
  end →
  builder_ok (mkBuilder f (ps ++ [(x, k)]) nm' po' p' s' a' kw') D'.
Proof.
  intros Hb Hnm Hdir Hpo Hp Ha Hkw a' kw' Hs. pose proof (builder_positional_le _ _ Hb) as Hle.
  destruct Hb as [_ Hsize Hd Hpo' Hpos Hargs Hkwargs _]. simpl in *.
  split; simpl; [done| | |done| | | |by rewrite length_app].
  - rewrite length_app. simpl. destruct Hdir; try lia. rewrite map_size_insert_None by done. lia.
  - intros y i. setoid_rewrite lookup_snoc_param. destruct Hdir as [Hk|Hk ->|Hk Hle' Hx].
    + rewrite (Hd y i). split; [naive_solver|]. intros (Hi & k' & [Hl|(_ & _ & ->)] & Hk'); [eauto|congruence].
    + rewrite (Hd y i). split; intros (Hi & k' & Hl & Hk').
      * apply lookup_lt_Some in Hl. lia.
      * destruct Hl as [Hl|(-> & _)]; [apply lookup_lt_Some in Hl|]; lia.
    + destruct (decide (y = x)) as [->|Hne].
      * rewrite lookup_insert_eq. split; [intros [= <-]; split; [lia|]; exists k; auto|].
        intros (Hi & k' & [Hl|(-> & _ & _)] & Hk'); [|done].
        rewrite (proj2 (Hd x i)) in Hx; [done|eauto].
      * rewrite lookup_insert_ne, (Hd y i) by done. naive_solver.
  - intros i Hi. destruct (decide (i < p)) as [Hip|Hip].
    + destruct (Hpos i Hip) as (y & k' & Hl & Hk'). exists y, k'. rewrite lookup_snoc_param. auto.
    + exists x, k. rewrite lookup_snoc_param. split; [right; split_and!; lia || done|].
      destruct Hp as [->|(? & _)]; [lia|done].
  - intros i. setoid_rewrite lookup_snoc_param. subst a'. destruct k; rewrite ?(Hargs i).
    4: { split; [intros [= <-]; exists x; auto|]. intros (y & [Hl|(-> & _)]); [|done].
         rewrite (proj2 (Hargs i)) in Ha by eauto. by specialize (Ha eq_refl). }
    all: split; [naive_solver|]; intros (y & [Hl|(_ & _ & [=])]); eauto.
  - intros i. setoid_rewrite lookup_snoc_param. subst kw'. destruct k; rewrite ?(Hkwargs i).
    5: { split; [intros [= <-]; exists x; auto|]. intros (y & [Hl|(-> & _)]); [|done].
         rewrite (proj2 (Hkwargs i)) in Hkw by eauto. by specialize (Hkw eq_refl). }
    all: split; [naive_solver|]; intros (y & [Hl|(_ & _ & [=])]); eauto.
Qed.

(** ** Operations *)

(** What an operation adds: parameters, of which [only] are positional-only and [pos] positional,
    and the style it leaves. *)
Definition extends b b' (l : list (text * ParameterKind V)) (only pos : nat) (s : CurrentParameterStyle) : Prop :=
  b_params b' = b_params b ++ l ∧ positional_only b' = positional_only b + only ∧
  positional b' = positional b + pos ∧ current_style b' = s ∧ b_function_name b' = b_function_name b.

Lemma extends_trans b b1 b2 l l' only only' pos pos' s s' :
  extends b b1 l only pos s → extends b1 b2 l' only' pos' s' →
  extends b b2 (l ++ l') (only + only') (pos + pos') s'.
Proof.
  intros (Hl & Ho & Hp & _ & Hf) (Hl' & Ho' & Hp' & Hs & Hf').
  split_and!; [by rewrite Hl', Hl, app_assoc|lia|lia|done|congruence].
Qed.

Definition only_step (s : CurrentParameterStyle) : nat := match s with StylePosOnly => 1 | _ => 0 end.
Definition pos_step (s : CurrentParameterStyle) : nat :=
  match s with StylePosOnly | StylePosOrNamed => 1 | _ => 0 end.

Definition style_dir b D (x : text) : gmap text nat :=
  match current_style b with StylePosOnly => D | _ => <[x := length (b_params b)]> D end.

(** Room for [n] more parameters. *)
Definition builder_room b (n : nat) : Prop :=
  (Z.of_nat (length (b_params b) + n) ≤ u32_max)%Z ∧ (N.of_nat (length (b_params b) + n) ≤ ht_max)%N.

Lemma u32_try_from_ok n : (Z.of_nat n ≤ u32_max)%Z → u32_try_from n = Ok n.
Proof. intros Hn. unfold u32_try_from. by rewrite (proj2 (Z.leb_le _ _)). Qed.

Lemma add_ok b D x k :
  builder_ok b D → is_star_kind k = false → current_style b ≠ StyleNoMore → short_str x →
  (current_style b ≠ StylePosOnly → D !! x = None) → builder_room b 1 →
  returns (add hash_of b x k) (λ b', builder_ok b' (style_dir b D x) ∧ 
    extends b b' [(x, k)] (only_step (current_style b)) (pos_step (current_style b)) (current_style b)).
Proof.
  intros Hb Hk Hs Hx Hfresh [Hu Ht]. pose proof (builder_positional_le _ _ Hb) as Hle.
  pose proof (bo_size _ _ Hb) as Hsize. pose proof (bo_style _ _ Hb) as Hstyle.
  pose proof (bo_only _ _ Hb) as Hpo.
  destruct b as [f ps nm po p s a kw]. unfold add, style_dir, extends. simpl in *.
  rewrite Hk. cbn [negb assert mbind result_bind].
  destruct (SymbolMap_insert_ok hash_of nm D x (length ps) (bo_names _ _ Hb) Hx)
    as ([old nm'] & Hins & -> & Hnm'); [lia|].
  assert (∀ po' p' a kw nm' D' (s' : CurrentParameterStyle),
    builder_ok (mkBuilder f (ps ++ [(x, k)]) nm' po' p' s' (match k with ArgsKind => Some (length ps) | _ => a end)
      (match k with KWargsKind => Some (length ps) | _ => kw end)) D' →
    builder_ok (mkBuilder f (ps ++ [(x, k)]) nm' po' p' s' a kw) D') as Hplain by by destruct k.
  destruct s; [| | |done]; simpl in *.
  - destruct Hstyle as (-> & -> & ->). apply returns_ret. split; [|split_and!; simpl; done || lia].
    eapply Hplain, builder_snoc; [exact Hb|apply Hb|by apply dir_pos_only|lia| | | |].
    + right. split_and!; [done|lia|lia].
    + by intros ->.
    + by intros ->.
    + destruct k; try done; by split_and!.
  - destruct Hstyle as (-> & -> & ->). rewrite u32_try_from_ok by lia. cbn [mbind result_bind].
    rewrite Hins, Hfresh by done. apply returns_ret. split; [|split_and!; simpl; done || lia].
    eapply Hplain, builder_snoc; [exact Hb|done|apply dir_named; [done|lia|by apply Hfresh]|lia| | | |].
    + right. split_and!; [done|lia|lia].
    + by intros ->.
    + by intros ->.
    + destruct k; try done; by split_and!.
  - subst kw. rewrite u32_try_from_ok by lia. cbn [mbind result_bind].
    rewrite Hins, Hfresh by done. rewrite andb_false_r. apply returns_ret. split; [|split_and!; simpl; done || lia].
    eapply Hplain, builder_snoc; [exact Hb|done|apply dir_named; [done|lia|by apply Hfresh]|lia| | | |].
    + by left.
    + by intros ->.
    + by intros ->.
    + by destruct k.
Qed.


Lemma builder_args_ok b D :
  builder_ok b D → style_lt (current_style b) StyleNamedOnly = true →
  returns (builder_args b) (λ b', builder_ok b' D ∧ extends b b' [(args_name, ArgsKind)] 0 0 StyleNamedOnly).
Proof.
  intros Hb Hs. pose proof (bo_style _ _ Hb) as Hstyle. pose proof (builder_positional_le _ _ Hb) as Hle.
  pose proof (bo_only _ _ Hb) as Hpo.
  destruct b as [f ps nm po p s a kw]. unfold builder_args, extends. simpl in *.
  assert (a = None ∧ kw = None) as [-> ->] by (destruct s; try done; apply Hstyle).
  rewrite Hs. cbn [is_none assert mbind result_bind]. apply returns_ret. split; [|split_and!; simpl; done || lia].
  replace (length (ps ++ [(args_name, ArgsKind)]) - 1) with (length ps) by (rewrite length_app; simpl; lia).
  eapply (builder_snoc _ _ _ _ _ _ _ _ _ _ None None _ _ _ ArgsKind);
    [exact Hb|apply Hb|by apply dir_star|done|by left|done|done|done].
Qed.

Lemma builder_kwargs_ok b D :
  builder_ok b D → current_style b ≠ StyleNoMore →
  returns (builder_kwargs b) (λ b', builder_ok b' D ∧ extends b b' [(kwargs_name, KWargsKind)] 0 0 StyleNoMore).
Proof.
  intros Hb Hs. pose proof (bo_style _ _ Hb) as Hstyle. pose proof (builder_positional_le _ _ Hb) as Hle.
  pose proof (bo_only _ _ Hb) as Hpo.
  destruct b as [f ps nm po p s a kw]. unfold builder_kwargs, extends. simpl in *.
  assert (kw = None) as -> by (destruct s; try done; apply Hstyle).
  cbn [is_none assert mbind result_bind]. apply returns_ret. split; [|split_and!; simpl; done || lia].
  replace (length (ps ++ [(kwargs_name, KWargsKind)]) - 1) with (length ps) by (rewrite length_app; simpl; lia).
  eapply (builder_snoc _ _ _ _ _ _ _ _ _ _ a None _ _ _ KWargsKind);
    [exact Hb|apply Hb|by apply dir_star|done|by left|done|done|done].
Qed.

(** Changing the style. *)
Lemma set_style_ok b D s :
  builder_ok b D → b_args b = None → b_kwargs b = None →
  (s = StylePosOrNamed ∧ current_style b = StylePosOnly ∨ s = StyleNamedOnly) →
  builder_ok (set_style b s) D ∧ extends b (set_style b s) [] 0 0 s.
Proof.
  intros Hb Ha Hkw Hs. pose proof (bo_style _ _ Hb) as Hstyle. pose proof (builder_positional_le _ _ Hb).
  split; [|unfold extends; rewrite app_nil_r; split_and!; simpl; done || lia].
  destruct Hb as [? ? ? Hpo ? ? ? _]. split; simpl; try done.
  destruct Hs as [[-> Hc]| ->]; [|done]. rewrite Hc in Hstyle. split_and!; [|done|done]. lia.
Qed.

Lemma no_more_positional_only_args_ok b D :
  builder_ok b D → current_style b = StylePosOnly →
  returns (no_more_positional_only_args b) (λ b', builder_ok b' D ∧ extends b b' [] 0 0 StylePosOrNamed).
Proof.
  intros Hb Hs. pose proof (bo_style _ _ Hb) as Hstyle. rewrite Hs in Hstyle.
  unfold no_more_positional_only_args. rewrite Hs. cbn [style_eq style_index Nat.eqb assert mbind result_bind].
  apply returns_ret, set_style_ok; [done|apply Hstyle|apply Hstyle|auto].
Qed.

Lemma no_more_positional_args_ok b D :
  builder_ok b D → style_lt (current_style b) StyleNamedOnly = true →
  returns (no_more_positional_args b) (λ b', builder_ok b' D ∧ extends b b' [] 0 0 StyleNamedOnly).
Proof.
  intros Hb Hs. pose proof (bo_style _ _ Hb) as Hstyle.
  assert (b_args b = None ∧ b_kwargs b = None) as [Ha Hkw]
    by (destruct (current_style b); try done; apply Hstyle).
  unfold no_more_positional_args. rewrite Hs, Ha, Hkw. cbn [is_none assert mbind result_bind].
  apply returns_ret, set_style_ok; auto.
Qed.

Lemma with_capacity_ok f n :
  (N.of_nat n ≤ ht_max)%N →
  returns (ParametersSpec_with_capacity (V:=V) (TT:=TT) f n) (λ b, builder_ok b ∅ ∧
    b_params b = [] ∧ current_style b = StylePosOnly ∧ b_function_name b = f).
Proof.
  intros Hn. unfold ParametersSpec_with_capacity. step_with (SymbolMap_with_capacity_ok hash_of (T:=nat) n); [done|].
  intros nm Hnm. apply returns_ret. split; [|done]. split; simpl; try done.
  - intros x i. rewrite lookup_empty. split; [done|]. intros (_ & k & ? & _). by destruct i.
  - intros i Hi. lia.
  - intros i. split; [done|]. intros [x Hx]. by destruct i.
  - intros i. split; [done|]. intros [x Hx]. by destruct i.
Qed.

(** The finished list. *)
Lemma finish_ok b D :
  builder_ok b D → builder_room b 0 →
  returns (finish b) (λ ps, spec_ok hash_of ps D ∧ param_kinds ps = (b_params b).*2 ∧
    param_names ps = (b_params b).*1 ∧ function_name ps = b_function_name b ∧
    indices ps = mkIndices (positional b) (positional_only b) (b_args b) (b_kwargs b)).
Proof.
  intros Hb [Hu _]. pose proof (builder_positional_le _ _ Hb) as Hle. pose proof (bo_only _ _ Hb) as Hpo.
  unfold finish. rewrite !u32_try_from_ok by lia. cbn [mbind result_bind].
  rewrite (proj2 (Nat.leb_le _ _)) by done. cbn [assert mbind result_bind].
  assert (∀ o, (∀ i, o = Some i → i < length (b_params b)) → u32_option o = Ok o) as Hopt.
  { intros [i|] Hi; [|done]. unfold u32_option. specialize (Hi i eq_refl).
    by rewrite u32_try_from_ok by lia. }
  rewrite !Hopt; [|intros i (x & Hx)%(bo_args _ _ Hb)|intros i (x & Hx)%(bo_kwargs _ _ Hb)];
    [|by eapply lookup_lt_Some..].
  cbn [mbind result_bind]. apply returns_ret. split; [|done].
  assert (∀ i k, (b_params b).*2 !! i = Some k ↔ ∃ x, b_params b !! i = Some (x, k)) as Hkind.
  { intros i k. rewrite list_lookup_fmap, fmap_Some. split; [intros ([x k'] & -> & ->); eauto|].
    intros [x ->]. by exists (x, k). }
  split; simpl.
  - apply Hb.
  - by rewrite !length_fmap.
  - rewrite length_fmap. lia.
  - done.
  - intros i Hi. destruct (bo_positional _ _ Hb i Hi) as (x & k & Hk & Hs). exists k.
    rewrite Hkind. eauto.
  - intros x i. rewrite (bo_directory _ _ Hb x i). setoid_rewrite Hkind. rewrite list_lookup_fmap.
    split.
    + intros (Hi & k & Hk & Hs). rewrite Hk. split_and!; [done|done|]. eauto.
    + intros (Hi & Hx & k & [y Hk] & Hs). rewrite Hk in Hx. simpl in Hx. split; [done|]. exists k.
      split; [congruence|done].
  - intros i. by rewrite Hkind, (bo_args _ _ Hb i).
  - intros i. by rewrite Hkind, (bo_kwargs _ _ Hb i).
Qed.

(** ** All the parts *)

Definition kind_of_param (p : ParametersSpecParam V) : ParameterKind V :=
  match p with Required => RequiredKind | Optional => OptionalKind | Defaulted x => DefaultedKind x end.
Definition kinded (l : list (text * ParametersSpecParam V)) : list (text * ParameterKind V) :=
  (λ p, (p.1, kind_of_param p.2)) <$> l.

(** Parameters added to a builder: its directory grows by their names only. *)
Definition grows b D (l : list (text * ParameterKind V)) (ns : list text) (only pos : nat)
    (s : CurrentParameterStyle) b' : Prop :=
  ∃ D', builder_ok b' D' ∧ (∀ x, is_Some (D' !! x) → is_Some (D !! x) ∨ x ∈ ns) ∧
    extends b b' l only pos s.

Lemma builder_room_le b n n' : builder_room b n → n' ≤ n → builder_room b n'.
Proof. intros [Hu Ht] Hn. split; lia. Qed.

Lemma builder_room_extends b b' l only pos s n :
  builder_room b (length l + n) → extends b b' l only pos s → builder_room b' n.
Proof. intros [Hu Ht] (Hp & _). unfold builder_room. rewrite Hp, length_app. split; lia. Qed.

(** The names of positional-only parameters are not in the directory. *)
Definition named_in (s : CurrentParameterStyle) (ns : list text) : list text :=
  match s with StylePosOnly => [] | _ => ns end.

Lemma add_params_ok l b D :
  builder_ok b D → current_style b ≠ StyleNoMore → Forall short_str l.*1 →
  (current_style b ≠ StylePosOnly → NoDup l.*1 ∧ ∀ x, x ∈ l.*1 → D !! x = None) →
  builder_room b (length l) →
  returns (add_params hash_of b l)
    (grows b D (kinded l) (named_in (current_style b) l.*1) (length l * only_step (current_style b))
       (length l * pos_step (current_style b)) (current_style b)).
Proof.
  revert b D. induction l as [|[x p] l IH]; intros b D Hb Hs Hl Hfresh Hroom; csimpl in *.
  { apply returns_ret. exists D. split_and!; [done|auto|].
    unfold extends. rewrite app_nil_r. split_and!; simpl; done || lia. }
  apply Forall_cons in Hl as [Hx Hl].
  assert (param hash_of b x p = add hash_of b x (kind_of_param p)) as -> by by destruct p.
  step_with (add_ok b D x (kind_of_param p)); [done|by destruct p|done|done| | |].
  { intros Hp. destruct (Hfresh Hp) as [_ HD]. apply HD. by left. }
  { destruct Hroom. unfold builder_room. split; lia. }
  intros b1 [Hb1 He]. pose proof He as (_ & _ & _ & Hs1 & _).
  eapply returns_mono; [apply (IH b1 _ Hb1)|].
  - by rewrite Hs1.
  - done.
  - rewrite Hs1. intros Hp. destruct (Hfresh Hp) as [[Hx' Hnd]%NoDup_cons HD]. split; [done|].
    intros y Hy. unfold style_dir. destruct (current_style b); try done;
      rewrite lookup_insert_ne by (intros ->; done); apply HD; by right.
  - eapply builder_room_extends; [|exact He]. done.
  - rewrite Hs1. intros b' (D' & Hb' & Hdom & He'). exists D'. split_and!; [done| |].
    + intros y Hy. specialize (Hdom y Hy). unfold style_dir in Hdom. clear -Hdom Hs.
      destruct (current_style b); simpl in *; rewrite ?elem_of_cons; [done|..|done].
      all: destruct (decide (y = x)) as [->|Hne]; [tauto|];
        rewrite lookup_insert_ne in Hdom by done; tauto.
    + apply (extends_trans _ _ _ _ _ _ _ _ _ _ _ He He').
Qed.

Definition star_param (b : bool) (name : text) (k : ParameterKind V) : list (text * ParameterKind V) :=
  if b then [(name, k)] else [].

Lemma new_parts_ok f (po pn no : list (text * ParametersSpecParam V)) args kwargs :
  let n := length po + length pn + Nat.b2n args + length no + Nat.b2n kwargs in
  (Z.of_nat n ≤ u32_max)%Z → (N.of_nat n ≤ ht_max)%N →
  Forall short_str (po ++ pn ++ no).*1 → NoDup (pn ++ no).*1 →
  returns (new_parts hash_of (TT:=TT) f po pn args no kwargs) (λ ps, ∃ D,
    let params := kinded po ++ kinded pn ++ star_param args args_name ArgsKind ++ kinded no ++
      star_param kwargs kwargs_name KWargsKind in
    spec_ok hash_of ps D ∧ function_name ps = f ∧ param_names ps = params.*1 ∧ param_kinds ps = params.*2 ∧
    num_positional_only (indices ps) = length po ∧
    num_positional (indices ps) = length po + length pn).
Proof.
  cbn zeta. set (n := _ + Nat.b2n kwargs). intros Hu Ht Hshort Hnd.
  rewrite !fmap_app, !Forall_app in Hshort. destruct Hshort as (Hpo & Hpn & Hno).
  rewrite fmap_app in Hnd. apply NoDup_app in Hnd as (Hndp & Hdisj & Hndn).
  unfold new_parts. fold n. step_with with_capacity_ok; [done|].
  intros b (Hb & Hps & Hs & Hf). assert (builder_room b n) as Hroom by (unfold builder_room; rewrite Hps; simpl; lia).
  step_with (add_params_ok po b ∅); [done|by rewrite Hs|done|by rewrite Hs|eapply builder_room_le; [done|lia]|].
  intros b1 (D1 & Hb1 & Hd1 & He1). rewrite Hs in He1, Hd1. pose proof He1 as (_ & _ & _ & Hs1 & _).
  step_with (no_more_positional_only_args_ok b1 D1); [done|done|]. intros b2 [Hb2 He2].
  pose proof (extends_trans _ _ _ _ _ _ _ _ _ _ _ He1 He2) as He. pose proof He as (_ & _ & _ & Hs2 & _).
  assert (∀ x, D1 !! x = None) as HD1.
  { intros x. apply eq_None_not_Some. intros [[y Hy]|Hin]%Hd1; [by rewrite lookup_empty in Hy|].
    by apply elem_of_nil in Hin. }
  step_with (add_params_ok pn b2 D1); [done|by rewrite Hs2|done|done| |].
  { eapply builder_room_extends, He. unfold kinded. rewrite app_nil_r, length_fmap. eapply builder_room_le; [done|lia]. }
  intros b3 (D3 & Hb3 & Hd3 & He3). rewrite Hs2 in He3, Hd3.
  pose proof (extends_trans _ _ _ _ _ _ _ _ _ _ _ He He3) as Hx3. clear He He1 He2 He3.
  pose proof Hx3 as (_ & _ & _ & Hs3 & _).
  apply returns_bind. eapply (returns_mono _ (λ b4, builder_ok b4 D3 ∧
    extends b3 b4 (star_param args args_name ArgsKind) 0 0 StyleNamedOnly)).
  { destruct args; [apply builder_args_ok|apply no_more_positional_args_ok]; try done; by rewrite Hs3. }
  intros b4 [Hb4 He4]. pose proof (extends_trans _ _ _ _ _ _ _ _ _ _ _ Hx3 He4) as Hx4. clear Hx3 He4.
  pose proof Hx4 as (_ & _ & _ & Hs4 & _).
  step_with (add_params_ok no b4 D3); [done|by rewrite Hs4|done| | |].
  { intros _. split; [done|]. intros x Hx. apply eq_None_not_Some. intros [[y Hy]|Hin]%Hd3.
    - by rewrite HD1 in Hy.
    - by apply (Hdisj x). }
  { eapply builder_room_extends, Hx4. eapply builder_room_le; [done|].
    unfold kinded. rewrite !length_app, !length_fmap. unfold n. destruct args; simpl; lia. }
  intros b5 (D5 & Hb5 & _ & He5). rewrite Hs4 in He5.
  pose proof (extends_trans _ _ _ _ _ _ _ _ _ _ _ Hx4 He5) as Hx5. clear Hx4 He5.
  pose proof Hx5 as (_ & _ & _ & Hs5 & _).
  apply returns_bind. eapply (returns_mono _ (λ b6, builder_ok b6 D5 ∧ ∃ s,
    extends b5 b6 (star_param kwargs kwargs_name KWargsKind) 0 0 s)).
  { destruct kwargs.
    - eapply returns_mono; [apply builder_kwargs_ok; [done|by rewrite Hs5]|]. intros b6 [Hb6 He6]. eauto.
    - apply returns_ret. split; [done|]. exists (current_style b5).
      unfold extends. simpl. rewrite app_nil_r. by split_and!; try lia. }
  intros b6 (Hb6 & s & He6). pose proof (extends_trans _ _ _ _ _ _ _ _ _ _ _ Hx5 He6) as Hx.
  rewrite !app_nil_r, <-!app_assoc in Hx. destruct Hx as (Hl & Ho & Hp & _ & Hfn).
  eapply returns_mono; [apply (finish_ok b6 D5 Hb6)|].
  { unfold builder_room. rewrite Hl, Hps. simpl. unfold kinded. rewrite !length_app, !length_fmap. unfold n in *.
    destruct args, kwargs; simpl in *; lia. }
  intros ps (Hok & Hk & Hn & Hf' & Hi). exists D5. rewrite Hl, Hps in Hk, Hn. simpl in Hk, Hn.
  split_and!; [done|congruence|done|done|rewrite Hi; simpl..].
  - rewrite Ho. simpl. pose proof (bo_style _ _ Hb) as Hst. rewrite Hs, Hps in Hst. simpl in Hst. lia.
  - rewrite Hp. simpl. pose proof (bo_style _ _ Hb) as Hst. rewrite Hs, Hps in Hst. simpl in Hst.
    pose proof (builder_positional_le _ _ Hb) as Hle. rewrite Hps in Hle. simpl in Hle. lia.
Qed.
End builder.
