(* ===== verification/CallProps.v ===== *)
(** The theorems on parameter lists and calls: building a parameter list, binding the
    arguments of a call to its slots, and deciding from a call's shape whether it can be
    bound; with a concrete value type on which they are evaluated. *)

From S2P Require Import Prelude Vec2 Hashing TableMap VecMap SmallMap SmallMapSpec SmallMapOps OrdMap.
From S2P Require Import FastString Symbol DefParams ParamSpec CallBinding CallCollect ParamBuilder.

Section properties.
Context (hash_of : text → StarlarkHashValue).
Context {V TT M S : Type} `{!Values V, !ValuesOk V hash_of} `{HashTableOk (Symbol * nat) TT}.
Context `{!OrdMap (list byte) V M, !OrdMapOk (list byte) V M hash_of} `{!ArgSymbol TT V S}.

(** C28: binding a call's arguments. On fresh slots the binding returns without panicking and
    without an unchecked access out of range. It succeeds exactly when the call fits: there
    is a slot for every argument, no name is given twice or for a slot that a positional
    argument has filled, and no required parameter is left. Then each slot holds its
    positional argument, its keyword argument or its default, [*args] the remaining
    positional arguments in order and [**kwargs] the other keyword arguments in order, and
    slots past the parameters are untouched. An error is one that the call explains. The
    fast path for plain positional calls makes no difference. *)
Theorem collect_binds (ps : ParametersSpec TT V) D (args : ArgumentsFull S V) kws slots :
  12 ≤ om_max (M:=M) → spec_ok hash_of ps D → call_ok hash_of (M:=M) D ps args kws →
  slots_ready ps slots →
  collect_inline (M:=M) ps args slots = collect_slow (M:=M) ps args slots ∧
  match collect_inline (M:=M) ps args slots with
  | Ok slots' => ∃ xs kws, positional_args args = Some xs ∧ keyword_args args = Some kws ∧
      bindable D ps (length xs) kws.*1 = true ∧
      ∀ i, slots' !! i = if i <? length (param_kinds ps) then Some (bound_slot D ps xs kws i)
                         else slots !! i
  | Err e => explains D ps args e ∧ ¬ call_bindable D ps args
  | Fault _ => False
  end.
Proof.
  intros Hmax Hps Hc Hready.
  assert (collect_inline (M:=M) ps args slots = collect_slow (M:=M) ps args slots) as Heq
    by (eapply collect_inline_slow; try done; apply Hc).
  split; [done|]. rewrite Heq.
  pose proof (collect_slow_ok hash_of ps D Hps Hmax args kws slots Hc Hready) as Hb.
  destruct (collect_slow ps args slots) as [slots'|e|f]; simpl in Hb; [done| |done].
  split; [done|]. by eapply explains_unbindable.
Qed.
End properties.

Section shape.
Context (hash_of : text → StarlarkHashValue) {V TT : Type} `{HashTableOk (Symbol * nat) TT}.

(** C29: whether a call can be bound is decided from its shape, the number of positional
    arguments and the names of the others, by a function that reads no slot out of range. *)
Theorem can_fill_decides (ps : ParametersSpec TT V) D n ns :
  spec_ok hash_of ps D → NoDup ns →
  can_fill_with_args hash_of ps n ns = Ok (bindable D ps n ns).
Proof. intros. by apply can_fill_ok. Qed.

(** C30: a parameter list built from its parts. When names that can be given are distinct and
    counts fit 32 bits, no assertion of the builder fails, and the result is well formed:
    its kinds and names are those of the parts in order, and its directory sends each name
    that can be given to its slot. *)
Theorem new_parts_builds f (po pn no : list (text * ParametersSpecParam V)) args kwargs :
  let n := length po + length pn + Nat.b2n args + length no + Nat.b2n kwargs in
  (Z.of_nat n ≤ u32_max)%Z → (N.of_nat n ≤ ht_max)%N →
  Forall short_str (po ++ pn ++ no).*1 → NoDup (pn ++ no).*1 →
  returns (new_parts hash_of (TT:=TT) f po pn args no kwargs) (λ ps, ∃ D,
    let params := kinded po ++ kinded pn ++ star_param args args_name ArgsKind ++ kinded no ++
      star_param kwargs kwargs_name KWargsKind in
    spec_ok hash_of ps D ∧ function_name ps = f ∧ param_names ps = params.*1 ∧ param_kinds ps = params.*2 ∧
    num_positional_only (indices ps) = length po ∧
    num_positional (indices ps) = length po + length pn).
Proof. intros n Hu Ht Hs Hnd. by apply new_parts_ok. Qed.
End shape.

(** * A concrete instance *)

(** Numbers, strings, lists and dictionaries. *)
Inductive value :=
| VNum (n : Z)
| VStr (x : list Z)
| VList (l : list value)
| VDict (l : list (value * value)).

Definition witness_text_hash (x : text) : StarlarkHashValue := Z.of_nat (length x).
Definition short (x : text) : bool :=
  forallb (λ b, (0 <=? b)%Z && (b <? 256)%Z) x && (Z.of_nat (length x) <=? u32_max)%Z.
Lemma short_ok x : short x = true → short_str x.
Proof.
  unfold short. intros [Hb Hl%Z.leb_le]%andb_true_iff. split; [|done].
  apply Forall_forall. intros b Hin. apply list_elem_of_In in Hin.
  rewrite forallb_forall in Hb. specialize (Hb b Hin). unfold is_byte. lia.
Defined.

Definition value_hash (v : value) : StarlarkHashValue :=
  match v with VStr x => witness_text_hash x | _ => 0%Z end.
#[local] Instance witness_values : Values value := {
  iterate v := match v with VList l => Some l | _ => None end;
  dict_of_value v := match v with
    | VDict l => Some ((λ kv, (mkHashed (value_hash kv.1) kv.1, kv.2)) <$> l) | _ => None end;
  string_of_value v := match v with
    | VStr x => if short x then Some (string_of 0%Z x) else None | _ => None end;
  alloc_tuple := VList;
  alloc_dict l := VDict ((λ kv, (VStr kv.1, kv.2)) <$> l);
}.
#[local] Instance witness_values_ok : ValuesOk value witness_text_hash.
Proof.
  split.
  - intros [n|x|l|l] s; simpl; try done. destruct (short x) eqn:Hx; [|done]. intros [= <-].
    exists 0%Z, x. split; [done|by apply short_ok].
  - intros [n|y|l|l] es k v h x; simpl; try done. intros [= <-].
    intros ([k' v'] & [= -> ->] & _)%list_elem_of_fmap. simpl.
    destruct k' as [n|y|l'|l']; simpl; try done. destruct (short y); [|done].
    unfold string_of. intros [= <- Hy Hp]. unfold witness_text_hash. by rewrite Hy.
Defined.

#[local] Instance size_text_value : SizeOf (text * value) := {| size_of := 16; align_of := 8 |}%Z.
#[local] Instance size_text_entry : SizeOf (text * value * StarlarkHashValue) :=
  {| size_of := 24; align_of := 8 |}%Z.
#[local] Existing Instance stable_toolchain.
#[local] Instance size_hash_value : SizeOf StarlarkHashValue := {| size_of := 4; align_of := 4 |}%Z.

Definition kwargs_capacity : nat := 12.
Definition Kwargs : Type := SmallMap (list_table nat) text value.

Lemma witness_kwargs_fits : fits (text * value) StarlarkHashValue (6 * kwargs_capacity + 25).
Proof.
  split; [unfold usize_max, u64_max; simpl; lia|]. intros c Hc. unfold alloc_ok, Vec2Layout_new_checked,
    Layout_array, Layout_from_size_align, Layout_extend. simpl in Hc.
  do 98 (destruct c as [|c]; [vm_compute; by eexists|]). lia.
Defined.

#[local] Instance witness_kwargs : OrdMap text value Kwargs := small_map_ord_map.
#[local] Instance witness_kwargs_ok : OrdMapOk text value Kwargs witness_text_hash :=
  small_map_ord_map_ok witness_text_hash kwargs_capacity witness_kwargs_fits ltac:(by vm_compute).

(** [def f(a, /, b, c = 0, *args, d, **kwargs)], called [f(1, 2, d = 4, x = 5, *[3, 9])]. *)
Definition name_of (c : Z) : text := [c].
Definition witness_po : list (text * ParametersSpecParam value) := [(name_of 97, Required)].
Definition witness_pn : list (text * ParametersSpecParam value) :=
  [(name_of 98, Required); (name_of 99, Defaulted (VNum 0))].
Definition witness_no : list (text * ParametersSpecParam value) := [(name_of 100, Required)].

Definition witness_spec : ParametersSpec (list_table (Symbol * nat)) value :=
  Eval vm_compute in
    match new_parts witness_text_hash (name_of 102) witness_po witness_pn true witness_no true with
    | Ok ps => ps
    | _ => mkSpec [] [] [] (mkSymbolMap (mkListTable [] 0)) (mkIndices 0 0 None None)
    end.

Lemma witness_names_short : Forall short_str (witness_po ++ witness_pn ++ witness_no).*1.
Proof. repeat (apply Forall_cons; split; [by apply short_ok|]). by apply Forall_nil. Defined.

Lemma witness_spec_ok : ∃ D, spec_ok witness_text_hash witness_spec D.
Proof.
  assert (NoDup (witness_pn ++ witness_no).*1) as Hnd
    by (apply (bool_decide_unpack (NoDup [[98]; [99]; [100]]%Z)); vm_compute; exact I).
  destruct (new_parts_ok (TT:=list_table (Symbol * nat)) witness_text_hash (name_of 102) witness_po witness_pn
    witness_no true true ltac:(by vm_compute) ltac:(by vm_compute) witness_names_short Hnd) as (ps & Hps & D & Hok & _).
  exists D. assert (ps = witness_spec) as <-; [|done].
  assert (new_parts witness_text_hash (name_of 102) witness_po witness_pn true witness_no true
    = Ok witness_spec) as Heq by by vm_compute.
  rewrite Hps in Heq. by injection Heq.
Qed.

Definition witness_args : ArgumentsFull Symbol value :=
  mkArguments [VNum 1; VNum 2] [VNum 4; VNum 5]
    [(symbol_of witness_text_hash (name_of 100), string_of 0 (name_of 100));
     (symbol_of witness_text_hash (name_of 120), string_of 0 (name_of 120))]
    (Some (VList [VNum 3; VNum 9])) None.
Definition witness_named : list (text * value) := [(name_of 100, VNum 4); (name_of 120, VNum 5)].
Definition witness_slots : list (option value) :=
  [Some (VNum 1); Some (VNum 2); Some (VNum 3); Some (VList [VNum 9]); Some (VNum 4);
   Some (VDict [(VStr (name_of 120), VNum 5)])].

Lemma collect_binds_witness :
  collect_inline (M:=Kwargs) witness_spec witness_args (replicate 6 None) = Ok witness_slots ∧
  ∃ D xs kws, positional_args witness_args = Some xs ∧ keyword_args witness_args = Some kws ∧
    bindable D witness_spec (length xs) kws.*1 = true.
Proof.
  assert (collect_inline (M:=Kwargs) witness_spec witness_args (replicate 6 None) = Ok witness_slots) as Heq
    by by vm_compute.
  split; [exact Heq|]. destruct witness_spec_ok as [D HD].
  assert (call_ok witness_text_hash (M:=Kwargs) D witness_spec witness_args witness_named) as Hc.
  { split.
    - repeat constructor; apply (named_arg_symbol _ _ _ HD); by apply short_ok.
    - apply (bool_decide_unpack (NoDup [[100]; [120]]%Z)). vm_compute. exact I.
    - done.
    - by apply (bool_decide_unpack (2 < 12)). }
  destruct (collect_binds witness_text_hash (M:=Kwargs) witness_spec D witness_args witness_named
    (replicate 6 None)) as [_ Hb].
  - by apply (bool_decide_unpack (12 ≤ 12)).
  - exact HD.
  - exact Hc.
  - split; [simpl; lia|]. intros i Hi. by apply lookup_replicate_2.
  - rewrite Heq in Hb. destruct Hb as (xs & kws & Hxs & Hkws & Hb & _). by exists D, xs, kws.
Defined.

Lemma can_fill_decides_witness :
  ∃ D, can_fill_with_args witness_text_hash witness_spec 3 [name_of 100] =
    Ok (bindable D witness_spec 3 [name_of 100]).
Proof.
  destruct witness_spec_ok as [D HD]. exists D.
  apply (can_fill_decides witness_text_hash witness_spec D 3 [name_of 100] HD). apply NoDup_singleton.
Defined.

Lemma new_parts_builds_witness :
  returns (new_parts witness_text_hash (TT:=list_table (Symbol * nat)) (name_of 102) witness_po witness_pn
    true witness_no true) (λ ps, num_positional (indices ps) = 3).
Proof.
  assert (NoDup (witness_pn ++ witness_no).*1) as Hnd
    by (apply (bool_decide_unpack (NoDup [[98]; [99]; [100]]%Z)); vm_compute; exact I).
  eapply returns_mono; [exact (new_parts_builds (TT:=list_table (Symbol * nat)) witness_text_hash (name_of 102)
    witness_po witness_pn witness_no true true ltac:(by vm_compute) ltac:(by vm_compute)
    witness_names_short Hnd)|].
  intros ps (D & _ & _ & _ & _ & _ & Hn). exact Hn.
Defined.
