(* ===== verification/Def.v ===== *)
(** [starlark/src/eval/compiler/def.rs], [eval/bc/compiler/def.rs], [InstrDef] of
    [eval/bc/instr_impl.rs] and the local slots of [eval/bc/frame.rs]: from the parameters of a
    [def] to the parameter list of the function it makes, and from a call to the slots that the
    body starts with. *)

From S2P Require Import Prelude Hashing TableMap FastString Symbol CodeMap.
From S2P Require Import DefParams OrdMap ParamSpec.

(** * Compiled parameters *)

Record ParameterName := mkParamName { pn_name : list byte; pn_captured : bool }.

(** Over types of annotations and of default values. *)
Inductive ParameterCompiled (TC T : Type) :=
| CompiledNormal (n : ParameterName) (ty : option TC) (default : option T)
| CompiledArgs (n : ParameterName) (ty : option TC)
| CompiledKwArgs (n : ParameterName) (ty : option TC).
Arguments CompiledNormal {TC T}. Arguments CompiledArgs {TC T}. Arguments CompiledKwArgs {TC T}.

Inductive ParamIsRequired := IsRequired | IsOptional.
#[global] Instance ParamIsRequired_eq_dec : EqDecision ParamIsRequired.
Proof. solve_decision. Defined.

Section compiled.
Context {TC T : Type}.
Implicit Types x : ParameterCompiled TC T.

(** The closure may have effects on a state [St]. *)
Definition map_expr {U St E} (f : St → T → result E (U * St)) (s : St) x :
    result E (ParameterCompiled TC U * St) :=
  match x with
  | CompiledNormal n o None => Ok (CompiledNormal n o None, s)
  | CompiledNormal n o (Some t) => '(u, s) ← f s t; Ok (CompiledNormal n o (Some u), s)
  | CompiledArgs n o => Ok (CompiledArgs n o, s)
  | CompiledKwArgs n o => Ok (CompiledKwArgs n o, s)
  end.
Definition accepts_positional x : bool := match x with CompiledNormal _ _ _ => true | _ => false end.
Definition name_ty x : ParameterName * option TC :=
  match x with CompiledNormal n t _ | CompiledArgs n t | CompiledKwArgs n t => (n, t) end.
Definition captured x : bool := pn_captured (name_ty x).1.
Definition has_type x : bool := match name_ty x with (_, Some _) => true | _ => false end.
Definition is_required_param x : ParamIsRequired :=
  match x with CompiledNormal _ _ None => IsRequired | _ => IsOptional end.
Definition is_star_or_star_star x : bool :=
  match x with CompiledArgs _ _ | CompiledKwArgs _ _ => true | _ => false end.
End compiled.

Record ParametersCompiled (TC T : Type) := mkCompiled {
  compiled_params : list (Spanned (ParameterCompiled TC T));
  compiled_indices : DefParamIndices;
}.
Arguments mkCompiled {TC T}. Arguments compiled_params {TC T}. Arguments compiled_indices {TC T}.

(** [+= 1] on [u32]; [as u32]. *)
Definition succ_u32 {E} (n : nat) : result E nat :=
  if (Z.of_nat (n + 1) <=? u32_max)%Z then Ok (n + 1) else Panic.
Definition u32_cast (n : nat) : nat := Z.to_nat (as_u32 (Z.of_nat n)).
Arguments succ_u32 : simpl never.
Arguments u32_cast : simpl never.

Section compiled_list.
Context {TC T : Type}.
Implicit Types ps : ParametersCompiled TC T.

(** The loops over the parameters. *)
Fixpoint map_exprs {U St E} (f : St → T → result E (U * St)) (s : St)
    (l : list (Spanned (ParameterCompiled TC T))) :
    result E (list (Spanned (ParameterCompiled TC U)) * St) :=
  match l with
  | [] => Ok ([], s)
  | p :: l =>
    '(x, s) ← map_expr f s (node p);
    '(l, s) ← map_exprs f s l;
    Ok (mkSpanned (span p) x :: l, s)
  end.
Definition count_exprs {E} ps : result E nat :=
  '(_, count) ← map_exprs (λ count _, count ← succ_u32 count; Ok ((), count)) 0 (compiled_params ps);
  Ok count.
Definition count_param_variables ps : comp nat := u32_try_from (length (compiled_params ps)).
Definition has_types ps : bool := existsb (λ p, has_type (node p)) (compiled_params ps).
Definition has_args_or_kwargs ps : bool :=
  existsb (λ p, is_star_or_star_star (node p)) (compiled_params ps).
Definition parameter_captures ps : list nat :=
  omap (λ '(i, p), if captured (node p) then Some (u32_cast i) else None)
    (imap pair (compiled_params ps)).
End compiled_list.

(** ** Compiling *)

(** A type annotation is what the type checker has made of it, if it has run. *)
Abbreviation TypeExpr Ty := (Spanned (option Ty)).

Section compiler.
Context {Cs Ty TC E T X : Type}.
(** Compiled types from types, and those that every value matches; the expression compiler,
    whose state is [Cs]; whether the binding of a parameter's name is captured. *)
Context (from_ty : Ty → TC) (is_runtime_wildcard : TC → bool).
Context (check_types : bool) (expr : Cs → E → result X (T * Cs)) (binding : list byte → bool).

Definition expr_for_type (e : option (TypeExpr Ty)) : result X (option (Spanned TC)) :=
  if negb check_types then Ok None else
  match e with
  | None => Ok None
  | Some e =>
    match node e with
    | None => Panic
    | Some ty =>
      let type_value := from_ty ty in
      if is_runtime_wildcard type_value then Ok None else Ok (Some (mkSpanned (span e) type_value))
    end
  end.

Definition parameter_name (ident : list byte) : ParameterName := mkParamName ident (binding ident).

Definition default_expr (c : Cs) (d : option E) : result X (option T * Cs) :=
  match d with None => Ok (None, c) | Some d => '(t, c) ← expr c d; Ok (Some t, c) end.
Definition parameter (c : Cs) (x : Spanned (DefParam (TypeExpr Ty) E)) :
    result X (Spanned (ParameterCompiled TC T) * Cs) :=
  let parameter_name := parameter_name (param_ident (node x)) in
  ty ← expr_for_type (param_ty (node x));
  let ty := node <$> ty in
  '(p, c) ←
    match param_kind (node x) with
    | KindRegular _ default_value =>
      '(d, c) ← default_expr c default_value; Ok (CompiledNormal parameter_name ty d, c)
    | KindArgs => Ok (CompiledArgs parameter_name ty, c)
    | KindKwargs => Ok (CompiledKwArgs parameter_name ty, c)
    end;
  Ok (mkSpanned (span x) p, c).
Fixpoint parameters (c : Cs) (l : list (Spanned (DefParam (TypeExpr Ty) E))) :
    result X (list (Spanned (ParameterCompiled TC T)) * Cs) :=
  match l with
  | [] => Ok ([], c)
  | x :: l => '(p, c) ← parameter c x; '(l, c) ← parameters c l; Ok (p :: l, c)
  end.
End compiler.

(** [DefCompiled::write_bc]: the default values are numbered in order, and each is written to
    the next of the slots allocated for them.  The writes are the pairs of expression and slot,
    in order; [first_slot] is where the allocated range starts. *)
Record WriteState (T : Type) := mkWrite {
  slots_i : list nat;
  value_count : nat;
  writes : list (T * nat);
}.
Arguments mkWrite {T}. Arguments slots_i {T}. Arguments value_count {T}. Arguments writes {T}.

Section write.
Context {TC T : Type}.

Definition write_default (s : WriteState T) (e : T) : comp (nat * WriteState T) :=
  match slots_i s with
  | [] => Panic
  | slot :: rest =>
    value_count' ← succ_u32 (value_count s);
    Ok (value_count' - 1, mkWrite rest value_count' (writes s ++ [(e, slot)]))
  end.
Definition write_bc (first_slot : nat) (ps : ParametersCompiled TC T) :
    comp (list (T * nat) * ParametersCompiled TC nat) :=
  how_many_slots_we_need ← count_exprs ps;
  '(params, s) ← map_exprs write_default (mkWrite (seq first_slot how_many_slots_we_need) 0 [])
                   (compiled_params ps);
  _ ← assert (length (slots_i s) =? 0);
  Ok (writes s, mkCompiled params (compiled_indices ps)).
End write.

(** * Making the function *)

Section instr_def.
Context (hash_of : list byte → StarlarkHashValue).
Context {V TC X TT : Type} `{HashTable (Symbol * nat) TT}.
(** [TypeCompiled::check_type], with the name of the argument. *)
Context (check_type : TC → V → list byte → result X ()).

(** The variables of the loop. *)
Record DefLoop := mkDefLoop {
  dl_parameters : ParametersSpecBuilder TT V;
  dl_parameter_types : list (nat * list byte * TC);
  dl_pop_index : nat;
}.

Definition def_step (indices : DefParamIndices) (pop : list V) (l : DefLoop) (i : nat)
    (x : ParameterCompiled TC nat) : result X DefLoop :=
  let i := u32_cast i in
  parameters ←
    if (i =? num_positional_only indices) && negb (is_star_or_star_star x)
    then lift (no_more_positional_only_args (dl_parameters l)) else Ok (dl_parameters l);
  parameters ←
    if (i =? num_positional indices) && negb (is_star_or_star_star x)
    then lift (no_more_positional_args parameters) else Ok parameters;
  let parameter_types :=
    match name_ty x with
    | (name, Some t) => dl_parameter_types l ++ [(i, pn_name name, t)]
    | (_, None) => dl_parameter_types l
    end in
  match x with
  | CompiledNormal n _ None =>
    b ← lift (required hash_of parameters (pn_name n)); Ok (mkDefLoop b parameter_types (dl_pop_index l))
  | CompiledNormal n ty (Some v) =>
    _ ← assert (v =? dl_pop_index l);
    value ← unwrap (pop !! dl_pop_index l);
    pop_index ← succ_u32 (dl_pop_index l);
    _ ← match ty with
        | Some _ => '(_, _, ty_compiled) ← unwrap (last parameter_types);
                    check_type ty_compiled value (pn_name n)
        | None => Ok ()
        end;
    b ← lift (defaulted hash_of parameters (pn_name n) value);
    Ok (mkDefLoop b parameter_types pop_index)
  | CompiledArgs _ _ => b ← lift (builder_args parameters); Ok (mkDefLoop b parameter_types (dl_pop_index l))
  | CompiledKwArgs _ _ => b ← lift (builder_kwargs parameters); Ok (mkDefLoop b parameter_types (dl_pop_index l))
  end.
Fixpoint def_loop (indices : DefParamIndices) (pop : list V) (l : DefLoop) (i : nat)
    (ps : list (Spanned (ParameterCompiled TC nat))) : result X DefLoop :=
  match ps with
  | [] => Ok l
  | p :: ps => l ← def_step indices pop l i (node p); def_loop indices pop l (i + 1) ps
  end.

(** [InstrDef]: the parameters and their types; [Def::new] stores both in the function. *)
Definition InstrDef_run (function_name : list byte) (params : ParametersCompiled TC nat) (pop : list V) :
    result X (ParametersSpec TT V * list (nat * list byte * TC)) :=
  b ← lift (ParametersSpec_with_capacity function_name (length (compiled_params params)));
  l ← def_loop (compiled_indices params) pop (mkDefLoop b [] 0) 0 (compiled_params params);
  _ ← assert (dl_pop_index l =? length pop);
  parameters ← lift (finish (dl_parameters l));
  Ok (parameters, dl_parameter_types l).
End instr_def.

(** * Calling the function *)

(** Local slots: reads and writes are not checked. *)
Section frame.
Context {V : Type} {E : Type}.
Implicit Types slots : list (option V).

Definition get_slot slots (i : nat) : result E (option V) :=
  match slots !! i with Some v => Ok v | None => UB end.
Definition frame_set_slot slots (i : nat) (v : V) : result E (list (option V)) :=
  if i <? length slots then Ok (<[i := Some v]> slots) else UB.
End frame.

(** [ValueCaptured]: the cell of a captured variable. *)
Class Captured (V : Type) := {
  new_captured : V → V;
  is_value_captured : V → bool;
}.

Inductive CallError (X : Type) :=
| BindingError (e : FunctionError)
| TypeError (e : X).
Arguments BindingError {X}. Arguments TypeError {X}.
Definition map_err {E E' A} (f : E → E') (m : result E A) : result E' A :=
  match m with Ok a => Ok a | Err e => Err (f e) | Fault x => Fault x end.

Section invoke.
Context {V TC X TT M S : Type} `{Values V} `{Captured V} `{HashTable (Symbol * nat) TT}.
Context `{OrdMap (list byte) V M} `{ArgSymbol TT V S}.
Context (check_type : TC → V → list byte → result X ()).
Implicit Types slots : list (option V).

Fixpoint check_parameter_types (types : list (nat * list byte * TC)) slots : result X () :=
  match types with
  | [] => Ok ()
  | (i, arg_name, ty) :: types =>
    o ← get_slot slots i;
    match o with
    | None => Panic
    | Some v => _ ← check_type ty v arg_name; check_parameter_types types slots
    end
  end.

Definition wrap_local_slot_captured slots (i : nat) : result X (list (option V)) :=
  o ← get_slot slots i;
  value ← unwrap o;
  _ ← assert (negb (is_value_captured value));
  frame_set_slot slots i (new_captured value).
Fixpoint wrap_captures (l : list nat) slots : result X (list (option V)) :=
  match l with
  | [] => Ok slots
  | i :: l => slots ← wrap_local_slot_captured slots i; wrap_captures l slots
  end.

(** [CopySlotFromParent], the slot of the child only: the values are in [captured]. *)
Fixpoint copy_parents (l : list (nat * V)) slots : result X (list (option V)) :=
  match l with
  | [] => Ok slots
  | (child, v) :: l => slots ← frame_set_slot slots child v; copy_parents l slots
  end.

(** [DefGen]. *)
Record Def := mkDef {
  def_parameters : ParametersSpec TT V;
  def_parameter_captures : list nat;
  def_parameter_types : list (nat * list byte * TC);
  def_parent : list nat;
  def_captured : list V;
}.

(** [invoke_impl] and [invoke_raw] up to the evaluation of the body, on the local slots of a
    new frame. *)
Definition invoke_raw_locals (d : Def) slots : result X (list (option V)) :=
  _ ← if length (def_parameter_types d) =? 0 then Ok ()
      else check_parameter_types (def_parameter_types d) slots;
  slots ← wrap_captures (def_parameter_captures d) slots;
  if length (def_captured d) =? 0 then Ok slots
  else copy_parents (zip (def_parent d) (def_captured d)) slots.
Definition invoke_locals (local_count : nat) (d : Def) (args : ArgumentsFull S V) :
    result (CallError X) (list (option V)) :=
  slots ← map_err BindingError (collect_inline (M:=M) (def_parameters d) args (replicate local_count None));
  map_err TypeError (invoke_raw_locals d slots).
End invoke.
