(* ===== verification/DefSpec.v ===== *)
(** What [Def.v] does: the parameters of a [def] are compiled and numbered one by one, and the
    function made from them has a well-formed parameter list ([spec_ok]) with the kinds, names
    and indices of the declaration. *)

From S2P Require Import Prelude Hashing TableMap FastString Symbol CodeMap.
From S2P Require Import DefParams DefLayout DefUnpack OrdMap ParamSpec CallBinding ParamBuilder.
From S2P Require Import CallProps Def.

(** * Specification *)

Section spec.
Context {TC T : Type}.
Implicit Types l : list (Spanned (ParameterCompiled TC T)).

Definition compiled_name (x : ParameterCompiled TC T) : text := pn_name (name_ty x).1.
Definition default_of (x : ParameterCompiled TC T) : option T :=
  match x with CompiledNormal _ _ d => d | _ => None end.
Definition defaults l : list T := omap (λ p, default_of (node p)) l.

(** The parameters with their defaults numbered from [k]. *)
Fixpoint number (k : nat) l : list (Spanned (ParameterCompiled TC nat)) :=
  match l with
  | [] => []
  | p :: l =>
    match node p with
    | CompiledNormal n ty (Some _) => mkSpanned (span p) (CompiledNormal n ty (Some k)) :: number (k + 1) l
    | CompiledNormal n ty None => mkSpanned (span p) (CompiledNormal n ty None) :: number k l
    | CompiledArgs n ty => mkSpanned (span p) (CompiledArgs n ty) :: number k l
    | CompiledKwArgs n ty => mkSpanned (span p) (CompiledKwArgs n ty) :: number k l
    end
  end.

(** The kinds of the parameters when the default values are [vs]. *)
Fixpoint kinds_from {V} (vs : list V) l : list (text * ParameterKind V) :=
  match l with
  | [] => []
  | p :: l =>
    match node p with
    | CompiledNormal n _ (Some _) =>
      match vs with v :: vs => (pn_name n, DefaultedKind v) :: kinds_from vs l | [] => [] end
    | CompiledNormal n _ None => (pn_name n, RequiredKind) :: kinds_from vs l
    | CompiledArgs _ _ => (args_name, ArgsKind) :: kinds_from vs l
    | CompiledKwArgs _ _ => (kwargs_name, KWargsKind) :: kinds_from vs l
    end
  end.

(** The type checks of the default values, in order. *)
Fixpoint check_defaults {V X} (check_type : TC → V → text → result X ()) (vs : list V) l : result X () :=
  match l with
  | [] => Ok ()
  | p :: l =>
    match node p with
    | CompiledNormal n ty (Some _) =>
      match vs with
      | v :: vs =>
        _ ← match ty with Some t => check_type t v (pn_name n) | None => Ok () end;
        check_defaults check_type vs l
      | [] => Ok ()
      end
    | _ => check_defaults check_type vs l
    end
  end.

(** The annotated parameters from position [i] on. *)
Fixpoint types_from (i : nat) l : list (nat * text * TC) :=
  match l with
  | [] => []
  | p :: l =>
    match (name_ty (node p)).2 with
    | Some t => [(i, compiled_name (node p), t)]
    | None => []
    end ++ types_from (i + 1) l
  end.

(** Positions of [*args] and [**kwargs] among [n] parameters. *)
Definition placed_at (indices : DefParamIndices) (n i : nat) (x : ParameterCompiled TC T) : Prop :=
  match x with
  | CompiledNormal _ _ _ => DefParams.args indices ≠ Some i ∧ DefParams.kwargs indices ≠ Some i
  | CompiledArgs _ _ => i = num_positional indices ∧ DefParams.args indices = Some i ∧
      DefParams.kwargs indices ≠ Some i
  | CompiledKwArgs _ _ => num_positional indices ≤ i ∧ i + 1 = n ∧ DefParams.kwargs indices = Some i ∧
      DefParams.args indices ≠ Some i
  end.

(** A list of parameters that its indices describe. *)
Record described (indices : DefParamIndices) l : Prop := {
  ds_pos_only : num_positional_only indices ≤ num_positional indices;
  ds_positional : num_positional indices ≤ length l;
  ds_placed i p : l !! i = Some p → placed_at indices (length l) i (node p);
  ds_args i : DefParams.args indices = Some i → i < length l;
  ds_kwargs i : DefParams.kwargs indices = Some i → i < length l;
  ds_names : NoDup ((λ p, compiled_name (node p)) <$> l);
}.
End spec.

(** * Numbering *)

Section write.
Context {TC T : Type}.
Implicit Types l : list (Spanned (ParameterCompiled TC T)).

Lemma succ_u32_ok {E} n : (Z.of_nat (n + 1) ≤ u32_max)%Z → succ_u32 (E:=E) n = Ok (n + 1).
Proof. intros Hn. unfold succ_u32. by rewrite (proj2 (Z.leb_le _ _)). Qed.

Lemma count_exprs_loop {E} l n :
  (Z.of_nat (n + length (defaults l)) ≤ u32_max)%Z →
  returns (map_exprs (E:=E) (λ count (_ : T), count ← succ_u32 count; Ok ((), count)) n l)
    (λ '(_, n'), n' = n + length (defaults l)).
Proof.
  revert n. induction l as [|[s x] l IH]; intros n Hn; csimpl in *; [apply returns_ret; lia|].
  destruct x as [nm ty [d|]|nm ty|nm ty]; csimpl in *.
  1: rewrite succ_u32_ok by lia; cbn [mbind result_bind].
  all: step_with IH; [lia|]; intros [l' n'] ->; apply returns_ret; lia.
Qed.

Lemma count_exprs_ok {E} (ps : ParametersCompiled TC T) :
  (Z.of_nat (length (defaults (compiled_params ps))) ≤ u32_max)%Z →
  count_exprs (E:=E) ps = Ok (length (defaults (compiled_params ps))).
Proof.
  intros Hn. unfold count_exprs. destruct (count_exprs_loop (E:=E) (compiled_params ps) 0 Hn) as ([l' n'] & Hl & Hn').
  rewrite Hl. simpl. by rewrite Hn'.
Qed.

Lemma write_default_ok slot rest k ws (d : T) :
  (Z.of_nat (k + 1) ≤ u32_max)%Z →
  write_default (mkWrite (slot :: rest) k ws) d = Ok (k, mkWrite rest (k + 1) (ws ++ [(d, slot)])).
Proof.
  intros Hk. unfold write_default. simpl. rewrite succ_u32_ok by done. simpl. do 3 f_equal. lia.
Qed.

Lemma write_loop l first slots k ws :
  slots = seq first (length (defaults l)) → (Z.of_nat (k + length (defaults l)) ≤ u32_max)%Z →
  map_exprs write_default (mkWrite slots k ws) l =
    Ok (number k l, mkWrite [] (k + length (defaults l)) (ws ++ zip (defaults l) slots)).
Proof.
  revert first slots k ws. induction l as [|[s x] l IH]; intros first slots k ws -> Hk; csimpl in *.
  { by rewrite app_nil_r, Nat.add_0_r. }
  destruct x as [nm ty [d|]|nm ty|nm ty]; csimpl in *.
  2-4: rewrite (IH first) by (done || lia); done.
  rewrite write_default_ok by lia. simpl. rewrite (IH (S first)) by (done || lia). simpl.
  rewrite <-app_assoc. by replace (k + 1 + length (defaults l)) with (k + S (length (defaults l))) by lia.
Qed.

(** The default values are written to consecutive slots, in order. *)
Lemma write_bc_ok first (ps : ParametersCompiled TC T) :
  let ds := defaults (compiled_params ps) in
  (Z.of_nat (length ds) ≤ u32_max)%Z →
  write_bc first ps = Ok (zip ds (seq first (length ds)),
    mkCompiled (number 0 (compiled_params ps)) (compiled_indices ps)).
Proof.
  intros ds Hn. unfold write_bc. rewrite count_exprs_ok by done. cbn [mbind result_bind].
  by rewrite (write_loop _ first) by done.
Qed.
End write.

Section number.
Context {TC T : Type}.
Implicit Types l : list (Spanned (ParameterCompiled TC T)).

Lemma length_defaults l : length (defaults l) ≤ length l.
Proof. induction l as [|[s [n ty [d|]|n ty|n ty]] l IH]; csimpl; lia. Qed.

Lemma length_number k l : length (number k l) = length l.
Proof. revert k. induction l as [|[s [n ty [d|]|n ty|n ty]] l IH]; intros k; simpl; auto. Qed.

Lemma length_kinds_from {V} (vs : list V) l :
  length vs = length (defaults l) → length (kinds_from vs l) = length l.
Proof.
  revert vs. induction l as [|[s [n ty [d|]|n ty|n ty]] l IH]; intros vs Hvs; csimpl in *; auto.
  destruct vs as [|v vs]; simplify_eq/=. auto.
Qed.

Lemma kinds_from_lookup {V} (vs : list V) l i x k :
  kinds_from vs l !! i = Some (x, k) → ∃ p, l !! i = Some p ∧
    match node p with
    | CompiledNormal n _ d => x = pn_name n ∧ is_star_kind k = false ∧ (k = RequiredKind ↔ d = None)
    | CompiledArgs _ _ => k = ArgsKind
    | CompiledKwArgs _ _ => k = KWargsKind
    end.
Proof.
  revert vs i. induction l as [|[s [n ty [d|]|n ty|n ty]] l IH]; intros vs i; simpl; [done|..].
  1: destruct vs as [|v vs]; [done|].
  all: destruct i as [|i]; simpl; [|eauto]; intros [= <- <-]; eexists; split; [done|]; by simpl.
Qed.
End number.

(** * The loop that makes the function *)

Section instr_def.
Context (hash_of : text → StarlarkHashValue) {V TC T X TT : Type} `{HashTableOk (Symbol * nat) TT}.
Context (check_type : TC → V → text → result X ()).
Context (indices : DefParamIndices).
Abbreviation npo := (num_positional_only indices).
Abbreviation npos := (num_positional indices).
Implicit Types (l : list (Spanned (ParameterCompiled TC T))) (b : ParametersSpecBuilder TT V).
Implicit Types (D : gmap text nat).

(** The builder's style before position [i], and when a regular parameter is added there. *)
Definition style_at (i : nat) : CurrentParameterStyle :=
  if i <=? npo then StylePosOnly else if i <=? npos then StylePosOrNamed else StyleNamedOnly.
Definition style_in (i : nat) : CurrentParameterStyle :=
  if i <? npo then StylePosOnly else if i <? npos then StylePosOrNamed else StyleNamedOnly.

Lemma style_in_at i : style_at (i + 1) = style_in i.
Proof.
  unfold style_at, style_in. destruct (Nat.leb_spec (i + 1) npo), (Nat.ltb_spec i npo); try lia; try done.
  destruct (Nat.leb_spec (i + 1) npos), (Nat.ltb_spec i npos); try lia; done.
Qed.

Definition add_markers b (i : nat) : result X (ParametersSpecBuilder TT V) :=
  b ← if i =? npo then lift (no_more_positional_only_args b) else Ok b;
  if i =? npos then lift (no_more_positional_args b) else Ok b.

Lemma add_markers_bind {Y} b b1 i (K : ParametersSpecBuilder TT V → result X Y) :
  add_markers b i = Ok b1 →
  (b ← if (i =? npo) && true then lift (no_more_positional_only_args b) else Ok b;
   b ← if (i =? npos) && true then lift (no_more_positional_args b) else Ok b; K b) = K b1.
Proof.
  unfold add_markers. rewrite !andb_true_r. destruct (if i =? npo then _ else _) as [b2|?|?]; [|done..].
  simpl. by intros ->.
Qed.

Lemma add_markers_ok b D i :
  npo ≤ npos → builder_ok hash_of b D → current_style b = style_at i →
  returns (add_markers b i) (λ b', builder_ok hash_of b' D ∧ extends b b' [] 0 0 (style_in i)).
Proof.
  intros Hle Hb Hs. unfold add_markers.
  assert (∀ s, current_style b = s → extends b b [] 0 0 s) as Hsame
    by (intros s Hb'; unfold extends; rewrite app_nil_r; split_and!; lia || done).
  apply returns_bind. eapply (returns_mono _ (λ b1, builder_ok hash_of b1 D ∧
    extends b b1 [] 0 0 (if i =? npo then StylePosOrNamed else style_at i))).
  { destruct (Nat.eqb_spec i npo) as [->|].
    - apply returns_lift, no_more_positional_only_args_ok; [done|].
      rewrite Hs. unfold style_at. by rewrite Nat.leb_refl.
    - apply returns_ret. auto. }
  intros b1 [Hb1 He1]. pose proof He1 as (_ & _ & _ & Hs1 & _).
  destruct (Nat.eqb_spec i npos) as [->|Hne].
  - eapply returns_mono; [apply returns_lift, (no_more_positional_args_ok hash_of b1 D Hb1)|].
    + rewrite Hs1. destruct (npos =? npo); [done|]. unfold style_at. rewrite Nat.leb_refl.
      by destruct (npos <=? npo).
    + intros b2 [Hb2 He2]. split; [done|].
      replace (style_in npos) with StyleNamedOnly.
      * by apply (extends_trans _ _ _ _ _ _ _ _ _ _ _ He1 He2).
      * unfold style_in. destruct (Nat.ltb_spec npos npo); [lia|]. by rewrite Nat.ltb_irrefl.
  - apply returns_ret. split; [done|]. replace (style_in i) with (if i =? npo then StylePosOrNamed else style_at i); [done|].
    unfold style_in, style_at. destruct (Nat.eqb_spec i npo) as [->|].
    + rewrite Nat.ltb_irrefl. by rewrite (proj2 (Nat.ltb_lt _ _)) by lia.
    + destruct (Nat.leb_spec i npo), (Nat.ltb_spec i npo); try lia; try done.
      destruct (Nat.leb_spec i npos), (Nat.ltb_spec i npos); try lia; done.
Qed.

(** What holds before the parameter at position [i], when [l] is left. *)
Record def_inv b D (i : nat) l : Prop := {
  di_builder : builder_ok hash_of b D;
  di_length : length (b_params b) = i;
  di_only : positional_only b = Nat.min i npo;
  di_positional : positional b = Nat.min i npos;
  di_style : l ≠ [] → current_style b = style_at i;
  di_room : builder_room b (length l);
  di_names : NoDup ((λ p, compiled_name (node p)) <$> l);
  di_fresh x : x ∈ (λ p, compiled_name (node p)) <$> l → D !! x = None;
  di_placed n j p : n = i + length l → l !! j = Some p → placed_at indices n (i + j) (node p);
  di_short : Forall short_str ((λ p, compiled_name (node p)) <$> l);
}.

Lemma def_inv_next b b' D i (p : Spanned (ParameterCompiled TC T)) l D' k only pos s :
  def_inv b D i (p :: l) → builder_ok hash_of b' D' → extends b b' [k] only pos s →
  Nat.min (i + 1) npo = Nat.min i npo + only → Nat.min (i + 1) npos = Nat.min i npos + pos →
  (l ≠ [] → s = style_at (i + 1)) →
  (D' = D ∨ D' = <[compiled_name (node p) := i]> D) → def_inv b' D' (i + 1) l.
Proof.
  intros [Hb Hl Ho Hp _ Hroom Hnd Hfresh Hpl Hsh] Hb' He Honly Hpos Hs HD.
  pose proof He as (Hps & Ho' & Hp' & Hs' & _). csimpl in *. apply NoDup_cons in Hnd as [Hn Hnd].
  split.
  - done.
  - rewrite Hps, length_app. simpl. lia.
  - lia.
  - lia.
  - intros Hne. rewrite Hs'. auto.
  - eapply (builder_room_extends b b' [k]); [exact Hroom|exact He].
  - done.
  - intros x Hx. assert (D !! x = None) by (apply Hfresh; by right).
    destruct HD as [->| ->]; [done|]. rewrite lookup_insert_ne; [done|]. by intros <-.
  - intros n j q -> Hq. specialize (Hpl (i + S (length l)) (S j) q eq_refl Hq).
    by replace (i + 1 + length l) with (i + S (length l)) by lia; replace (i + 1 + j) with (i + S j) by lia.
  - by apply Forall_cons in Hsh as [_ Hsh].
Qed.

(** One parameter: the builder gets it, unless its default value has another type. *)
Lemma u32_cast_ok i : (Z.of_nat i ≤ u32_max)%Z → u32_cast i = i.
Proof. intros Hi. unfold u32_cast, as_u32. rewrite Z.mod_small; [lia|]. unfold u32_max in Hi. lia. Qed.

Definition default_value (vs : list V) (x : ParameterCompiled TC T) : option V :=
  match default_of x with Some _ => head vs | None => None end.
Definition check_default (ov : option V) (x : ParameterCompiled TC T) : result X () :=
  match ov, name_ty x with Some v, (n, Some t) => check_type t v (pn_name n) | _, _ => Ok () end.

Lemma add_regular b D i s n ty d l k :
  npo ≤ npos → def_inv b D i (mkSpanned s (CompiledNormal n ty d) :: l) → is_star_kind k = false →
  ∃ b1 b' D', add_markers b i = Ok b1 ∧ lift (E:=X) (add hash_of b1 (pn_name n) k) = Ok b' ∧
    def_inv b' D' (i + 1) l ∧ b_params b' = b_params b ++ [(pn_name n, k)] ∧
    b_function_name b' = b_function_name b.
Proof.
  intros Hle Hinv Hk. pose proof Hinv as [Hb Hl Ho Hp Hst Hroom Hnd Hfresh _ Hsh].
  destruct (add_markers_ok b D i Hle Hb (Hst ltac:(done))) as (b1 & Hm & Hb1 & He1).
  pose proof He1 as (_ & _ & _ & Hs1 & _). csimpl in *. apply Forall_cons in Hsh as [Hn _].
  assert (builder_room b (0 + S (length l))) as Hroom1 by done.
  apply (builder_room_extends b b1 []  _ _ _ _ Hroom1) in He1 as Hr1.
  destruct (add_ok hash_of b1 D (pn_name n) k) as (b2 & Ha & Hb2 & He2); try done.
  - rewrite Hs1. unfold style_in. by case_tests.
  - intros _. apply Hfresh. by left.
  - eapply builder_room_le; [done|lia].
  - exists b1, b2, (style_dir b1 D (pn_name n)).
    pose proof (extends_trans _ _ _ _ _ _ _ _ _ _ _ He1 He2) as He.
    split; [done|]. rewrite Ha. split; [done|]. split_and!; [|apply He..].
    rewrite Hs1 in He. eapply def_inv_next; [done|done|exact He|..].
    + unfold style_in. destruct (Nat.ltb_spec i npo); simpl; [lia|]. destruct (i <? npos); simpl; lia.
    + unfold style_in. destruct (Nat.ltb_spec i npo); simpl; [lia|].
      destruct (Nat.ltb_spec i npos); simpl; lia.
    + intros _. by rewrite style_in_at.
    + unfold style_dir. simpl. destruct He1 as (Hps & _). rewrite Hps, app_nil_r, Hl.
      destruct (current_style b1); auto.
Qed.

Lemma add_star b D i (p : Spanned (ParameterCompiled TC T)) l :
  npo ≤ npos → def_inv b D i (p :: l) → is_star_or_star_star (node p) = true →
  ∃ b' D' k, match node p with
    | CompiledArgs _ _ => lift (E:=X) (builder_args b) = Ok b' ∧ k = (args_name, ArgsKind)
    | _ => lift (E:=X) (builder_kwargs b) = Ok b' ∧ k = (kwargs_name, KWargsKind)
    end ∧ def_inv b' D' (i + 1) l ∧ b_params b' = b_params b ++ [k] ∧
    b_function_name b' = b_function_name b.
Proof.
  intros Hle Hinv Hstar. pose proof Hinv as [Hb Hl Ho Hp Hst _ _ _ Hpl _].
  specialize (Hpl _ 0 p eq_refl eq_refl). specialize (Hst ltac:(done)). rewrite Nat.add_0_r in Hpl.
  destruct p as [s [n ty d|n ty|n ty]]; [done| |]; simpl in *.
  - destruct Hpl as (-> & _). destruct (builder_args_ok hash_of b D Hb) as (b' & Ha & Hb' & He).
    { rewrite Hst. unfold style_at. rewrite Nat.leb_refl. by destruct (npos <=? npo). }
    exists b', D, (args_name, ArgsKind). rewrite Ha. split; [done|]. split_and!; [|apply He..].
    eapply def_inv_next; [done|done|exact He|lia|lia| |by left]. intros _.
    unfold style_at. rewrite (proj2 (Nat.leb_gt _ npo)), (proj2 (Nat.leb_gt _ npos)) by lia. done.
  - destruct Hpl as (Hi & Hlast & _). destruct (builder_kwargs_ok hash_of b D Hb) as (b' & Ha & Hb' & He).
    { rewrite Hst. unfold style_at. by case_tests. }
    exists b', D, (kwargs_name, KWargsKind). rewrite Ha. split; [done|]. split_and!; [|apply He..].
    eapply def_inv_next; [done|done|exact He|lia|lia| |by left].
    destruct l; [done|simpl in Hlast; lia].
Qed.

Lemma def_loop_ok pop b D i l types k vs :
  npo ≤ npos → def_inv b D i l → (Z.of_nat (i + length l) ≤ u32_max)%Z → k ≤ i → drop k pop = vs →
  length vs = length (defaults l) →
  ∃ b' D', def_loop hash_of check_type indices pop (mkDefLoop b types k) i (number k l) =
      (_ ← check_defaults check_type vs l;
       Ok (mkDefLoop b' (types ++ types_from i l) (k + length (defaults l)))) ∧
    def_inv b' D' (i + length l) [] ∧ b_params b' = b_params b ++ kinds_from vs l ∧
    b_function_name b' = b_function_name b.
Proof.
  intros Hle. revert b D i types k vs.
  induction l as [|p l IH]; intros b D i types k vs Hinv Hu Hk Hpop Hlen.
  { exists b, D. simpl. rewrite !app_nil_r, !Nat.add_0_r. by split_and!. }
  assert (u32_cast i = i) as Hi by (apply u32_cast_ok; lia). simpl in Hu.
  assert (∀ b1 D1 types1 k1 vs1, def_inv b1 D1 (i + 1) l → k1 ≤ i + 1 → drop k1 pop = vs1 →
    length vs1 = length (defaults l) → ∃ b' D',
    def_loop hash_of check_type indices pop (mkDefLoop b1 types1 k1) (i + 1) (number k1 l) =
      (_ ← check_defaults check_type vs1 l;
       Ok (mkDefLoop b' (types1 ++ types_from (i + 1) l) (k1 + length (defaults l)))) ∧
    def_inv b' D' (i + length (p :: l)) [] ∧ b_params b' = b_params b1 ++ kinds_from vs1 l ∧
    b_function_name b' = b_function_name b1) as IH'.
  { intros b1 D1 types1 k1 vs1 H1 Hk1 Hp1 Hl1.
    replace (i + length (p :: l)) with (i + 1 + length l) by (simpl; lia). apply (IH b1 D1); try done. lia. }
  clear IH. destruct p as [s [n ty [d|]|n ty|n ty]]; csimpl in *.
  - destruct vs as [|v vs]; [done|]. injection Hlen as Hlen.
    assert (pop !! k = Some v) as Hv.
    { rewrite <-(Nat.add_0_r k), <-lookup_drop, Hpop. done. }
    destruct (add_regular b D i s n ty (Some d) l (DefaultedKind v) Hle Hinv eq_refl)
      as (b1 & b2 & D2 & Hm & Ha & Hinv2 & Hps & Hf).
    destruct (IH' b2 D2 (types ++ types_from (T:=T) i [mkSpanned s (CompiledNormal n ty (Some d))]) (k + 1) vs)
      as (b' & D' & Hloop & Hinv' & Hps' & Hf'); [done|lia| |done|].
    { by rewrite <-drop_drop, Hpop. }
    exists b', D'. split_and!; [|done|by rewrite Hps', Hps, <-app_assoc|congruence].
    unfold def_step. rewrite Hi. cbn [is_star_or_star_star negb name_ty fst snd compiled_name dl_pop_index dl_parameters dl_parameter_types node].
    rewrite (add_markers_bind _ b1) by done. rewrite Nat.eqb_refl, Hv, succ_u32_ok by lia.
    cbn [assert unwrap mbind result_bind]. unfold defaulted. rewrite Ha.
    destruct ty as [t|]; cbn [mbind result_bind].
    + rewrite last_snoc. cbn [unwrap mbind result_bind]. destruct (check_type t v (pn_name n)); [|done..].
      cbn [mbind result_bind]. etrans; [exact Hloop|]. rewrite <-app_assoc.
      by replace (k + 1 + length (defaults l)) with (k + Datatypes.S (length (defaults l))) by lia.
    + etrans; [rewrite app_nil_r in Hloop; exact Hloop|].
      by replace (k + 1 + length (defaults l)) with (k + Datatypes.S (length (defaults l))) by lia.
  - destruct (add_regular b D i s n ty None l RequiredKind Hle Hinv eq_refl)
      as (b1 & b2 & D2 & Hm & Ha & Hinv2 & Hps & Hf).
    destruct (IH' b2 D2 (types ++ types_from (T:=T) i [mkSpanned s (CompiledNormal n ty None)]) k vs)
      as (b' & D' & Hloop & Hinv' & Hps' & Hf'); [done|lia|done|done|].
    exists b', D'. split_and!; [|done|by rewrite Hps', Hps, <-app_assoc|congruence].
    unfold def_step. rewrite Hi. cbn [is_star_or_star_star negb name_ty fst snd compiled_name dl_pop_index dl_parameters dl_parameter_types node].
    rewrite (add_markers_bind _ b1) by done. unfold required. rewrite Ha.
    destruct ty as [t|]; cbn [mbind result_bind].
    + etrans; [exact Hloop|]. by rewrite <-app_assoc.
    + etrans; [rewrite app_nil_r in Hloop; exact Hloop|]. done.
  - destruct (add_star b D i (mkSpanned s (CompiledArgs n ty)) l Hle Hinv eq_refl)
      as (b2 & D2 & kk & [Ha ->] & Hinv2 & Hps & Hf).
    destruct (IH' b2 D2 (types ++ types_from (T:=T) i [mkSpanned s (CompiledArgs n ty)]) k vs)
      as (b' & D' & Hloop & Hinv' & Hps' & Hf'); [done|lia|done|done|].
    exists b', D'. split_and!; [|done|by rewrite Hps', Hps, <-app_assoc|congruence].
    unfold def_step. rewrite Hi. cbn [is_star_or_star_star negb name_ty fst snd compiled_name dl_pop_index dl_parameters dl_parameter_types node].
    rewrite !andb_false_r. cbn [mbind result_bind]. rewrite Ha.
    destruct ty as [t|]; cbn [mbind result_bind].
    + etrans; [exact Hloop|]. by rewrite <-app_assoc.
    + etrans; [rewrite app_nil_r in Hloop; exact Hloop|]. done.
  - destruct (add_star b D i (mkSpanned s (CompiledKwArgs n ty)) l Hle Hinv eq_refl)
      as (b2 & D2 & kk & [Ha ->] & Hinv2 & Hps & Hf).
    destruct (IH' b2 D2 (types ++ types_from (T:=T) i [mkSpanned s (CompiledKwArgs n ty)]) k vs)
      as (b' & D' & Hloop & Hinv' & Hps' & Hf'); [done|lia|done|done|].
    exists b', D'. split_and!; [|done|by rewrite Hps', Hps, <-app_assoc|congruence].
    unfold def_step. rewrite Hi. cbn [is_star_or_star_star negb name_ty fst snd compiled_name dl_pop_index dl_parameters dl_parameter_types node].
    rewrite !andb_false_r. cbn [mbind result_bind]. rewrite Ha.
    destruct ty as [t|]; cbn [mbind result_bind].
    + etrans; [exact Hloop|]. by rewrite <-app_assoc.
    + etrans; [rewrite app_nil_r in Hloop; exact Hloop|]. done.
Qed.

Lemma option_eq_iff {A} (a b : option A) : (∀ x, a = Some x ↔ b = Some x) → a = b.
Proof. intros Hab. apply option_eq. exact Hab. Qed.

Lemma star_positions l (vs : list V) i :
  described indices l → length vs = length (defaults l) →
  ((∃ x, kinds_from vs l !! i = Some (x, ArgsKind)) ↔ DefParams.args indices = Some i) ∧
  ((∃ x, kinds_from vs l !! i = Some (x, KWargsKind)) ↔ DefParams.kwargs indices = Some i).
Proof.
  intros [_ _ Hpl Ha Hkw _] Hlen.
  assert (∀ o, o = Some i → (∀ j, o = Some j → j < length l) → ∃ x k, kinds_from vs l !! i = Some (x, k)) as Hex.
  { intros o Ho Hj. destruct (kinds_from vs l !! i) as [[x k]|] eqn:Hk; [eauto|].
    apply lookup_ge_None in Hk. rewrite length_kinds_from in Hk by done. apply Hj in Ho. lia. }
  split; split.
  - intros [x (p & Hp & Hk)%kinds_from_lookup]. specialize (Hpl i p Hp).
    destruct (node p); simpl in *; [by destruct Hk as (_ & ? & _)|apply Hpl|done].
  - intros Hai. destruct (Hex _ Hai Ha) as (x & k & Hk). exists x. rewrite Hk.
    apply kinds_from_lookup in Hk as (p & Hp & Hk). specialize (Hpl i p Hp).
    destruct (node p); simpl in *; [by destruct Hpl|by subst|by destruct Hpl as (_ & _ & _ & ?)].
  - intros [x (p & Hp & Hk)%kinds_from_lookup]. specialize (Hpl i p Hp).
    destruct (node p); simpl in *; [by destruct Hk as (_ & ? & _)|done|apply Hpl].
  - intros Hki. destruct (Hex _ Hki Hkw) as (x & k & Hk). exists x. rewrite Hk.
    apply kinds_from_lookup in Hk as (p & Hp & Hk). specialize (Hpl i p Hp).
    destruct (node p); simpl in *; [by destruct Hpl|by destruct Hpl as (_ & _ & ?)|by subst].
Qed.

Lemma InstrDef_run_ok f l vs :
  described indices l → Forall short_str ((λ p, compiled_name (node p)) <$> l) →
  (Z.of_nat (length l) ≤ u32_max)%Z → (N.of_nat (length l) ≤ ht_max)%N →
  length vs = length (defaults l) →
  ∃ ps D, InstrDef_run hash_of check_type f (mkCompiled (number 0 l) indices) vs =
      (_ ← check_defaults check_type vs l; Ok (ps, types_from 0 l)) ∧
    spec_ok hash_of ps D ∧ function_name ps = f ∧ param_names ps = (kinds_from vs l).*1 ∧
    param_kinds ps = (kinds_from vs l).*2 ∧ ParamSpec.indices ps = indices.
Proof.
  intros Hds Hsh Hu Ht Hlen. pose proof Hds as [Hle Hpos Hpl Ha Hkw Hnd].
  unfold InstrDef_run. cbn [compiled_params compiled_indices]. rewrite length_number.
  destruct (with_capacity_ok hash_of (V:=V) (TT:=TT) f (length l) Ht) as (b & Hb & Hok & Hps & Hs & Hf).
  rewrite Hb. cbn [lift mbind result_bind].
  pose proof (bo_only _ _ _ Hok) as Hpo. pose proof (builder_positional_le _ _ _ Hok) as Hp0.
  rewrite Hps in Hp0. simpl in Hp0.
  assert (def_inv b ∅ 0 l) as Hinv.
  { split.
    - done.
    - by rewrite Hps.
    - lia.
    - lia.
    - by rewrite Hs.
    - unfold builder_room. rewrite Hps. by split.
    - done.
    - intros x _. apply lookup_empty.
    - intros n j p -> Hj. rewrite Nat.add_0_l. by apply Hpl.
    - done. }
  destruct (def_loop_ok vs b ∅ 0 l [] 0 vs Hle Hinv Hu) as (b' & D' & Hloop & Hinv' & Hps' & Hf');
    [lia|done|done|].
  destruct Hinv' as [Hok' Hlen' Ho' Hp' _ Hroom' _ _ _ _].
  destruct (finish_ok hash_of b' D' Hok') as (ps & Hfin & Hspec & Hk & Hn & Hfn & Hi); [done|].
  exists ps, D'. rewrite Hloop, Hlen. split.
  - destruct (check_defaults check_type vs l); [|done..]. cbn [mbind result_bind].
    rewrite Nat.add_0_l, Nat.eqb_refl. cbn [assert mbind result_bind dl_parameters dl_parameter_types].
    by rewrite Hfin.
  - rewrite Hps in Hps'. simpl in Hps'. rewrite Hps' in Hk, Hn. split_and!; [done|congruence|done|done|].
    rewrite Hi. assert (b_args b' = DefParams.args indices) as ->.
    { apply option_eq_iff. intros i. rewrite (bo_args _ _ _ Hok' i), Hps'. by apply star_positions. }
    assert (b_kwargs b' = DefParams.kwargs indices) as ->.
    { apply option_eq_iff. intros i. rewrite (bo_kwargs _ _ _ Hok' i), Hps'. by apply star_positions. }
    rewrite Ho', Hp'. destruct indices. simpl in *. f_equal; lia.
Qed.
End instr_def.

(** * From the declaration *)

Section declaration.
Context {Cs Ty TC E T X : Type}.
Context (from_ty : Ty → TC) (is_runtime_wildcard : TC → bool).
Context (check_types : bool) (expr : Cs → E → result X (T * Cs)) (binding : list byte → bool).
Abbreviation parameters := (parameters from_ty is_runtime_wildcard check_types expr binding).
Implicit Types (L : Layout (TypeExpr Ty) E).

(** The annotation that is checked at run time, for one that is declared: none when checking is off, when
    nothing is declared, and when every value would match. *)
Definition annotated_as (declared : option (TypeExpr Ty)) (t : option TC) : Prop :=
  if check_types then
    match declared with
    | None => t = None
    | Some e => ∃ ty, node e = Some ty ∧ t = if is_runtime_wildcard (from_ty ty) then None else Some (from_ty ty)
    end
  else t = None.

(** The default value compiled in the state [c], which leaves [c']. *)
Definition defaulted_as (c : Cs) (declared : option E) (d : option T) (c' : Cs) : Prop :=
  match declared, d with
  | None, None => c' = c
  | Some e, Some t => expr c e = Ok (t, c')
  | _, _ => False
  end.

(** A parameter and what it is compiled to: the name, the kind and the annotation. *)
Definition compiled_as (p : Spanned (DefParam (TypeExpr Ty) E)) (q : Spanned (ParameterCompiled TC T)) : Prop :=
  span q = span p ∧ compiled_name (node q) = param_ident (node p) ∧
  captured (node q) = binding (param_ident (node p)) ∧
  annotated_as (param_ty (node p)) (name_ty (node q)).2 ∧
  match param_kind (node p), node q with
  | KindRegular _ d, CompiledNormal _ _ d' => is_Some d ↔ is_Some d'
  | KindArgs, CompiledArgs _ _ | KindKwargs, CompiledKwArgs _ _ => True
  | _, _ => False
  end.

Definition declared_default (p : Spanned (DefParam (TypeExpr Ty) E)) : option E :=
  match param_kind (node p) with KindRegular _ d => d | _ => None end.

(** The parameters are compiled in order, each default value in the state that the one before it left. *)
Inductive all_compiled_as : Cs → list (Spanned (DefParam (TypeExpr Ty) E)) →
    list (Spanned (ParameterCompiled TC T)) → Cs → Prop :=
| compiled_nil c : all_compiled_as c [] [] c
| compiled_cons c p q c1 l qs c2 :
    compiled_as p q → defaulted_as c (declared_default p) (default_of (node q)) c1 →
    all_compiled_as c1 l qs c2 → all_compiled_as c (p :: l) (q :: qs) c2.

Lemma all_compiled_each c l qs c' : all_compiled_as c l qs c' → Forall2 compiled_as l qs.
Proof. induction 1; by constructor. Qed.

Lemma expr_for_type_annotates declared t :
  expr_for_type (X:=X) from_ty is_runtime_wildcard check_types declared = Ok t → annotated_as declared (node <$> t).
Proof.
  unfold expr_for_type, annotated_as. destruct check_types; [|by intros [= <-]].
  destruct declared as [[s [ty|]]|]; simpl; [|done|by intros [= <-]].
  destruct (is_runtime_wildcard (from_ty ty)) eqn:Hw; intros [= <-]; exists ty; by rewrite Hw.
Qed.

Lemma default_expr_compiles c declared d c' :
  default_expr expr c declared = Ok (d, c') → defaulted_as c declared d c'.
Proof.
  destruct declared as [e|]; simpl; [|by intros [= <- <-]].
  by intros ([t c1] & He & [= <- <-])%bind_Ok.
Qed.

Lemma parameter_ok c p q c' :
  parameter from_ty is_runtime_wildcard check_types expr binding c p = Ok (q, c') →
  compiled_as p q ∧ defaulted_as c (declared_default p) (default_of (node q)) c'.
Proof.
  unfold parameter. intros (ty & Hty & ([x c3] & Hx & [= <- <-])%bind_Ok)%bind_Ok.
  apply expr_for_type_annotates in Hty. unfold compiled_as, declared_default.
  destruct (param_kind (node p)) as [m d| |]; [|by simplify_eq/=..].
  apply bind_Ok in Hx as ([d' c4] & Hd & [= <- <-]). apply default_expr_compiles in Hd.
  split; [split_and!; try done|done]. destruct d, d'; simpl in *; try done; split; by eauto.
Qed.

Lemma parameters_ok c l qs c' : parameters c l = Ok (qs, c') → all_compiled_as c l qs c'.
Proof.
  revert c qs c'. induction l as [|p l IH]; intros c qs c' Hl; simpl in Hl; [simplify_eq; constructor|].
  apply bind_Ok in Hl as ([q c1] & [Hq Hd]%parameter_ok & ([qs' c2] & Hqs & [= <- <-])%bind_Ok).
  by econstructor; eauto.
Qed.

(** Where the parameters of a layout are. *)
Lemma params_of_placed L i p :
  params_of L !! i = Some p →
  match param_kind (node p) with
  | KindRegular _ _ => args_of L ≠ Some i ∧ kwargs_of L ≠ Some i
  | KindArgs => i = positional_of L ∧ args_of L = Some i ∧ kwargs_of L ≠ Some i
  | KindKwargs => positional_of L ≤ i ∧ i + 1 = length (params_of L) ∧ kwargs_of L = Some i ∧
      args_of L ≠ Some i
  end.
Proof.
  destruct L as [po sl pn st no kw]. unfold args_of, kwargs_of, params_of, positional_of. simpl.
  rewrite !length_app, !length_fmap, !lookup_app_Some, !length_fmap, !list_lookup_fmap, !fmap_Some. intros Hp.
  destruct Hp as [(r & Hr & ->)|(H1 & [(r & Hr & ->)|(H2 & [Hs|(H3 & [(r & Hr & ->)|(H4 & Hk)])])])].
  1-2: apply lookup_lt_Some in Hr; destruct st, kw; simpl; split; try done; intros [=]; lia.
  - destruct st as [|s|a]; [done..|]. apply list_lookup_singleton_Some in Hs as [Hi <-]. simpl.
    split_and!; [lia|f_equal; lia|]. destruct kw; [|done]. simpl. intros [=]. lia.
  - apply lookup_lt_Some in Hr. destruct st, kw; simpl in *; split; try done; intros [=]; lia.
  - destruct kw as [k|]; [|done]. apply list_lookup_singleton_Some in Hk as [Hi <-]. simpl.
    destruct st; simpl in *; split_and!; try lia; try done; try (f_equal; lia); intros [=]; lia.
Qed.

Lemma compiled_names l qs :
  Forall2 compiled_as l qs → (λ q, compiled_name (node q)) <$> qs = (λ p, param_ident (node p)) <$> l.
Proof. induction 1 as [|p q l qs (_ & Hn & _) _ IH]; csimpl; [done|]. by rewrite Hn, IH. Qed.

Lemma described_layout L qs :
  well_formed L → Forall2 compiled_as (params_of L) qs → described (indices_of L) qs.
Proof.
  intros Hwf Hqs. pose proof (Forall2_length _ _ _ Hqs) as Hlen.
  assert (length (params_of L) = positional_of L + length (star_params (E:=E) (l_star L)) + length (l_named L) +
    length (option_list (kwargs_param (E:=E) <$> l_kwargs L))) as Hcount.
  { destruct L. unfold params_of, positional_of. simpl. rewrite !length_app, !length_fmap. lia. }
  split.
  - destruct L. unfold indices_of, positional_of. simpl. lia.
  - simpl. lia.
  - intros i q Hq. destruct (Forall2_lookup_r _ _ _ _ _ Hqs Hq) as (p & Hp & _ & _ & _ & _ & Hk).
    apply params_of_placed in Hp. unfold placed_at. simpl. rewrite <-Hlen.
    by destruct (param_kind (node p)), (node q).
  - intros i. unfold indices_of, args_of. simpl. destruct (l_star L) eqn:Hst; [done..|]. intros [= <-].
    simpl in *. lia.
  - intros i. unfold indices_of, kwargs_of. simpl. destruct (l_kwargs L) eqn:Hkw; [|done]. intros [= <-].
    simpl in *. lia.
  - rewrite (compiled_names _ _ Hqs). apply Hwf.
Qed.

Context (hash_of : text → StarlarkHashValue) {V TT : Type} `{HashTableOk (Symbol * nat) TT}.
Context (check_type : TC → V → text → result X ()).

Lemma def_instantiates_ok (ps : list (Spanned (ParameterP (TypeExpr Ty) E))) d c cps c' f first vs :
  (Z.of_nat (length ps) ≤ i32_max)%Z → (N.of_nat (length ps) ≤ ht_max)%N →
  Forall short_str ((λ p, param_ident (node p)) <$> params d) →
  DefParams_unpack ps = Ok d → parameters c (params d) = Ok (cps, c') →
  length vs = length (defaults cps) →
  ∃ code spec D,
    all_compiled_as c (params d) cps c' ∧
    write_bc first (mkCompiled cps (DefParams.indices d)) =
      Ok (zip (defaults cps) (seq first (length vs)), code) ∧
    InstrDef_run hash_of check_type f code vs =
      (_ ← check_defaults check_type vs cps; Ok (spec, types_from 0 cps)) ∧
    spec_ok hash_of (TT:=TT) spec D ∧ function_name spec = f ∧
    ParamSpec.param_names spec = (kinds_from vs cps).*1 ∧ param_kinds spec = (kinds_from vs cps).*2 ∧
    ParamSpec.indices spec = DefParams.indices d.
Proof.
  intros Hi32 Hht Hshort Hun Hpar Hlen.
  pose proof (unpack_layout ps Hi32) as Hl. rewrite Hun in Hl. destruct Hl as (L & Hwf & -> & ->).
  apply parameters_ok in Hpar as Hcomp. pose proof (all_compiled_each _ _ _ _ Hcomp) as Hqs. simpl in Hqs. pose proof (Forall2_length _ _ _ Hqs) as Hlen'.
  pose proof (length_params_of L) as Hle.
  pose proof (length_defaults cps) as Hd.
  pose proof (write_bc_ok first (mkCompiled cps (indices_of L))) as Hw. simpl in Hw.
  rewrite <-Hlen in Hw. specialize (Hw ltac:(unfold i32_max, u32_max in *; lia)).
  destruct (InstrDef_run_ok hash_of check_type (indices_of L) f cps vs) as (spec & D & Hrun & Hspec);
    [by apply described_layout| |unfold i32_max, u32_max in *; lia|lia|done|].
  { by rewrite (compiled_names _ _ Hqs). }
  eexists _, spec, D. split_and!; [done|exact Hw|exact Hrun|apply Hspec..].
Qed.

(** C26: making a function. The parameters of a [def] that the parser accepts are compiled one by one: each
    keeps its name and kind, its annotation is the compiled type of the one declared (or none: nothing is
    declared, every value would match, or types are not checked), and its default value is what the
    expression compiler makes of the one declared, in the state left by the default value before it. The
    default values are numbered and written to consecutive slots in order, and the instruction
    that makes the function meets no failed assertion: the default values are checked in order
    against these annotations, and the first failure is the error; otherwise the function keeps every
    annotation with its parameter, and its parameter list is well formed, with the names, kinds and
    default values in order and the indices that the parser gave. *)
Theorem def_instantiates (ps : list (Spanned (ParameterP (TypeExpr Ty) E))) d c cps c' f first vs :
  (Z.of_nat (length ps) ≤ i32_max)%Z → (N.of_nat (length ps) ≤ ht_max)%N →
  Forall short_str ((λ p, param_ident (node p)) <$> params d) →
  DefParams_unpack ps = Ok d → parameters c (params d) = Ok (cps, c') →
  length vs = length (defaults cps) →
  ∃ code spec D,
    all_compiled_as c (params d) cps c' ∧
    write_bc first (mkCompiled cps (DefParams.indices d)) =
      Ok (zip (defaults cps) (seq first (length vs)), code) ∧
    InstrDef_run hash_of check_type f code vs =
      (_ ← check_defaults check_type vs cps; Ok (spec, types_from 0 cps)) ∧
    spec_ok hash_of (TT:=TT) spec D ∧ function_name spec = f ∧
    ParamSpec.param_names spec = (kinds_from vs cps).*1 ∧ param_kinds spec = (kinds_from vs cps).*2 ∧
    ParamSpec.indices spec = DefParams.indices d.
Proof. apply def_instantiates_ok. Qed.
End declaration.

(** * A concrete declaration *)

(** [def f(a: t, /, b = 1, *args, c: t = 2, **kwargs)]; a value of type [t] is a number, and the
    expression compiler leaves expressions as they are. *)
Abbreviation at_origin := (mkSpanned (mkSpan 0 1)).
Definition witness_declaration : list (Spanned (ParameterP (TypeExpr Z) Z)) :=
  [at_origin (Normal (name_of 97) (Some (at_origin (Some 7%Z))) None); at_origin Slash;
   at_origin (Normal (name_of 98) None (Some 1%Z)); at_origin (Args (name_of 120) None);
   at_origin (Normal (name_of 99) (Some (at_origin (Some 7%Z))) (Some 2%Z));
   at_origin (KwArgs (name_of 121) None)].
Definition witness_unpacked : DefParams (TypeExpr Z) Z := Eval vm_compute in
  match DefParams_unpack witness_declaration with
  | Ok d => d | _ => mkDefParams [] (mkIndices 0 0 None None) end.
Definition witness_compile (c : ()) (l : list (Spanned (DefParam (TypeExpr Z) Z))) :
    result text (list (Spanned (ParameterCompiled Z Z)) * ()) :=
  parameters (λ t, t) (λ _, false) true (λ c e, Ok (e, c)) (λ x, bool_decide (x = name_of 98)) c l.
Definition witness_compiled : list (Spanned (ParameterCompiled Z Z)) := Eval vm_compute in
  match witness_compile () (params witness_unpacked) with Ok (l, _) => l | _ => [] end.
Definition witness_check (t : Z) (v : value) (x : text) : result text () :=
  match v with VNum _ => Ok () | _ => Err x end.

Lemma def_instantiates_witness :
  ∃ code spec D, InstrDef_run witness_text_hash (TT:=list_table (Symbol * nat)) witness_check (name_of 102)
      code [VNum 1; VNum 2] = Ok (spec, [(0, name_of 97, 7%Z); (3, name_of 99, 7%Z)]) ∧
    write_bc 10 (mkCompiled witness_compiled (DefParams.indices witness_unpacked)) =
      Ok ([(1%Z, 10); (2%Z, 11)], code) ∧
    spec_ok witness_text_hash spec D ∧ num_positional (ParamSpec.indices spec) = 2.
Proof.
  destruct (def_instantiates (TT:=list_table (Symbol * nat)) (λ t, t) (λ _, false) true (λ c e, Ok (e, c))
    (λ x, bool_decide (x = name_of 98)) witness_text_hash witness_check witness_declaration witness_unpacked ()
    witness_compiled () (name_of 102) 10 [VNum 1; VNum 2])
    as (code & spec & D & _ & Hw & Hrun & Hok & _ & _ & _ & Hi).
  - by vm_compute.
  - by vm_compute.
  - repeat (apply Forall_cons; split; [by apply short_ok|]). by apply Forall_nil.
  - by vm_compute.
  - by vm_compute.
  - by vm_compute.
  - exists code, spec, D. split_and!; [exact Hrun|exact Hw|exact Hok|by rewrite Hi].
Defined.
