(* ===== verification/DefCall.v ===== *)
(** A call of a function made by a [def]: its arguments are bound to the slots of a new frame,
    the annotations are checked, captured parameters are moved to cells, and the variables of
    the enclosing functions are copied in.  No slot that the body may read as a parameter is
    left unassigned. *)

From S2P Require Import Prelude Hashing TableMap FastString Symbol CodeMap.
From S2P Require Import DefParams OrdMap ParamSpec CallBinding CallCollect CallProps Def DefSpec.

(** * The loops after binding *)

Section locals.
Context {V TC X : Type} `{Captured V}.
Context (check_type : TC → V → text → result X ()).
Implicit Types slots : list (option V).

Lemma frame_set_slot_ok slots i (v : V) :
  i < length slots → frame_set_slot (E:=X) slots i v = Ok (<[i := Some v]> slots).
Proof. intros Hi. unfold frame_set_slot. by rewrite (proj2 (Nat.ltb_lt _ _)). Qed.

Lemma check_parameter_types_ok types slots :
  (∀ t v x f, check_type t v x ≠ Fault f) →
  (∀ i x t, (i, x, t) ∈ types → ∃ v, slots !! i = Some (Some v)) →
  match check_parameter_types check_type types slots with
  | Ok _ => ∀ i x t, (i, x, t) ∈ types →
      ∃ v, slots !! i = Some (Some v) ∧ check_type t v x = Ok ()
  | Err e => ∃ i x t v, (i, x, t) ∈ types ∧ slots !! i = Some (Some v) ∧ check_type t v x = Err e
  | Fault _ => False
  end.
Proof.
  intros Hfault. induction types as [|[[i x] t] types IH]; intros Hslots; simpl.
  { by intros i x t ?%elem_of_nil. }
  destruct (Hslots i x t) as [v Hv]; [by left|]. unfold get_slot. rewrite Hv. cbn [mbind result_bind].
  assert (∀ j y u, (j, y, u) ∈ types → ∃ v, slots !! j = Some (Some v)) as Hrest
    by (intros j y u Hj; eapply Hslots; by right).
  specialize (IH Hrest). destruct (check_type t v x) as [[]|e|f] eqn:Hc; cbn [mbind result_bind].
  - destruct (check_parameter_types check_type types slots) as [?|e|f]; [| |done].
    + intros j y u [[= -> -> ->]|Hj]%elem_of_cons; eauto.
    + destruct IH as (j & y & u & w & Hj & Hw & He). exists j, y, u, w. split_and!; [by right|done|done].
  - exists i, x, t, v. split_and!; [by left|done|done].
  - by apply Hfault in Hc.
Qed.

Lemma wrap_captures_ok l slots :
  NoDup l → (∀ i, i ∈ l → ∃ v, slots !! i = Some (Some v) ∧ is_value_captured v = false) →
  returns (wrap_captures (X:=X) l slots) (λ slots', length slots' = length slots ∧ ∀ i,
    slots' !! i = if decide (i ∈ l) then fmap new_captured <$> slots !! i else slots !! i).
Proof.
  revert slots. induction l as [|i l IH]; intros slots Hnd Hl; simpl.
  { by apply returns_ret. }
  apply NoDup_cons in Hnd as [Hi Hnd]. destruct (Hl i) as (v & Hv & Hc); [by left|].
  unfold wrap_local_slot_captured, get_slot. rewrite Hv. cbn [mbind result_bind unwrap]. rewrite Hc.
  cbn [negb assert mbind result_bind]. rewrite frame_set_slot_ok by by eapply lookup_lt_Some.
  cbn [mbind result_bind]. eapply returns_mono; [apply IH; [done|]|].
  - intros j Hj. rewrite list_lookup_insert_ne by (intros ->; done). apply Hl. by right.
  - cbn beta. intros slots' [Hlen Hs]. rewrite length_insert in Hlen. split; [done|]. intros j. rewrite Hs.
    destruct (decide (j = i)) as [->|Hne].
    + rewrite decide_False, (decide_True (P:=i ∈ i :: l)) by (done || by left).
      rewrite list_lookup_insert_eq by by eapply lookup_lt_Some. by rewrite Hv.
    + rewrite list_lookup_insert_ne by done.
      destruct (decide (j ∈ l)); [rewrite decide_True by by right|rewrite decide_False]; try done.
      by intros [->|?]%elem_of_cons.
Qed.

Lemma copy_parents_ok (l : list (nat * V)) slots :
  NoDup l.*1 → (∀ i, i ∈ l.*1 → i < length slots) →
  returns (copy_parents (X:=X) l slots) (λ slots', length slots' = length slots ∧ ∀ i,
    slots' !! i = match (list_to_map l : gmap nat V) !! i with Some v => Some (Some v) | None => slots !! i end).
Proof.
  revert slots. induction l as [|[i v] l IH]; intros slots Hnd Hl; csimpl in *.
  { apply returns_ret. split; [done|]. intros i. by rewrite lookup_empty. }
  apply NoDup_cons in Hnd as [Hi Hnd]. rewrite frame_set_slot_ok by (apply Hl; by left).
  cbn [mbind result_bind]. eapply returns_mono; [apply IH; [done|]|].
  - intros j Hj. rewrite length_insert. apply Hl. by right.
  - cbn beta. intros slots' [Hlen Hs]. rewrite length_insert in Hlen. split; [done|]. intros j. rewrite Hs.
    destruct (decide (j = i)) as [->|Hne].
    + rewrite lookup_insert_eq, not_elem_of_list_to_map_1 by done.
      apply list_lookup_insert_eq, Hl. by left.
    + rewrite lookup_insert_ne by done. destruct (_ !! j); [done|]. by rewrite list_lookup_insert_ne.
Qed.
End locals.

(** * Slots of a function *)

Section kinds.
Context {TC T V : Type}.
Implicit Types l : list (Spanned (ParameterCompiled TC T)).

Lemma kinds_from_not_optional (vs : list V) l i : (kinds_from vs l).*2 !! i ≠ Some OptionalKind.
Proof.
  revert vs i. induction l as [|[s [n ty [d|]|n ty|n ty]] l IH]; intros vs [|i]; csimpl; try done.
  all: destruct vs; csimpl; done.
Qed.

Lemma kinds_from_defaulted (vs : list V) l i v : (kinds_from vs l).*2 !! i = Some (DefaultedKind v) → v ∈ vs.
Proof.
  revert vs i. induction l as [|[s [n ty [d|]|n ty|n ty]] l IH]; intros vs [|i]; csimpl; try done; eauto.
  all: destruct vs as [|w vs]; csimpl; [done|]; intros Hv; try injection Hv as ->.
  - by left.
  - right. eauto.
Qed.

Lemma types_from_elem k l i x t : (i, x, t) ∈ types_from k l → k ≤ i < k + length l.
Proof.
  revert k. induction l as [|p l IH]; intros k; simpl; [by intros ?%elem_of_nil|].
  rewrite elem_of_app. intros [Hi|Hi%IH]; [|lia].
  destruct (name_ty (node p)).2; [apply list_elem_of_singleton in Hi|by apply elem_of_nil in Hi].
  injection Hi as -> _ _. lia.
Qed.

Lemma parameter_captures_elem (ps : ParametersCompiled TC T) i :
  (Z.of_nat (length (compiled_params ps)) ≤ u32_max)%Z →
  i ∈ parameter_captures ps ↔ ∃ p, compiled_params ps !! i = Some p ∧ captured (node p) = true.
Proof.
  intros Hu. unfold parameter_captures. rewrite list_elem_of_omap. split.
  - intros ([j p] & Hj & Hc). apply list_elem_of_lookup in Hj as [k Hk].
    rewrite list_lookup_imap in Hk. apply fmap_Some in Hk as (q & Hq & [= -> ->]).
    destruct (captured (node q)) eqn:Hcap; [|done]. injection Hc as <-.
    rewrite u32_cast_ok by (apply lookup_lt_Some in Hq; lia). eauto.
  - intros (p & Hp & Hc). exists (i, p). rewrite Hc, u32_cast_ok by (apply lookup_lt_Some in Hp; lia).
    split; [|done]. apply list_elem_of_lookup. exists i. by rewrite list_lookup_imap, Hp.
Qed.

Lemma parameter_captures_NoDup (ps : ParametersCompiled TC T) :
  (Z.of_nat (length (compiled_params ps)) ≤ u32_max)%Z → NoDup (parameter_captures ps).
Proof.
  intros Hu. unfold parameter_captures. set (l := compiled_params ps) in *.
  assert (∀ k, (Z.of_nat (k + length l) ≤ u32_max)%Z →
    NoDup (omap (λ '(i, p), if captured (node p) then Some (u32_cast i) else None) (imap (λ i p, (k + i, p)) l)) ∧
    ∀ j, j ∈ omap (λ '(i, p), if captured (node p) then Some (u32_cast i) else None)
      (imap (λ i p, (k + i, p)) l) → k ≤ j) as Hgen; [|by apply (Hgen 0)].
  clear Hu. induction l as [|p l IH]; intros k Hk; csimpl; [split; [constructor|by intros ? ?%elem_of_nil]|].
  destruct (IH (k + 1)) as [Hnd Hge]; [simpl in Hk; lia|].
  replace (imap ((λ i p, (k + i, p)) ∘ S) l) with (imap (λ i p, (k + 1 + i, p)) l)
    by (apply imap_ext; intros i x _; simpl; f_equal; lia).
  rewrite Nat.add_0_r. destruct (captured (node p)).
  - rewrite u32_cast_ok by (simpl in Hk; lia). split.
    + constructor; [|done]. intros Hin%Hge. lia.
    + intros j [->|Hj%Hge]%elem_of_cons; lia.
  - split; [done|]. intros j Hj%Hge. lia.
Qed.
End kinds.

(** * Calls *)

Section call.
Context (hash_of : text → StarlarkHashValue).
Context {V TT M S TC T X : Type} `{!Values V, !ValuesOk V hash_of} `{HashTableOk (Symbol * nat) TT}.
Context `{!OrdMap (list byte) V M, !OrdMapOk (list byte) V M hash_of} `{!ArgSymbol TT V S}.
Context `{!Captured V} (check_type : TC → V → text → result X ()).
Implicit Types (ps : ParametersSpec TT V) (D : gmap text nat) (args : ArgumentsFull S V).
Implicit Types (cps : list (Spanned (ParameterCompiled TC T))).

(** No slot is left empty by a call that can be bound, unless its parameter is optional. *)
Lemma bound_slot_assigned ps D xs kws i :
  spec_ok hash_of ps D → bindable D ps (length xs) kws.*1 = true →
  i < length (param_kinds ps) → param_kinds ps !! i ≠ Some OptionalKind →
  is_Some (bound_slot D ps xs kws i).
Proof.
  intros Hps (_ & _ & _ & Hreq)%bindable_spec Hi Ho. unfold bound_slot.
  destruct (Nat.ltb_spec i (filled ps (length xs))) as [Hf|Hf].
  { apply lookup_lt_is_Some_2. unfold filled in Hf. lia. }
  destruct (named_value D kws i) as [v|] eqn:Hn; [eauto|]. rewrite named_value_None in Hn.
  destruct (param_kinds ps !! i) as [[| |v| |]|] eqn:Hk; try done; eauto.
  - destruct (Hreq i Hk) as [|(x & Hx & HD)]; [lia|]. by destruct (Hn x Hx).
  - apply lookup_ge_None in Hk. lia.
Qed.

Lemma bound_slot_value ps D xs kws i v :
  bound_slot D ps xs kws i = Some v →
  v ∈ xs ++ kws.*2 ∨ param_kinds ps !! i = Some (DefaultedKind v) ∨
    (∃ l, v = alloc_tuple l) ∨ ∃ l, v = alloc_dict l.
Proof.
  unfold bound_slot. rewrite elem_of_app. destruct (i <? _); [intros Hv%list_elem_of_lookup_2; auto|].
  destruct (named_value D kws i) as [w|] eqn:Hn.
  - intros [= <-]. left. right. unfold named_value in Hn. apply head_Some_elem_of in Hn.
    apply list_elem_of_omap in Hn as ([x u] & Hx & Hw). simpl in Hw. case_decide; [|done]. injection Hw as ->.
    apply list_elem_of_fmap. by exists (x, w).
  - destruct (param_kinds ps !! i) as [[| |u| |]|]; try done; intros [= <-]; eauto.
Qed.

(** A bound value in its slot: captured parameters are in cells. *)
Definition in_slot cps (i : nat) (v : V) : V :=
  match cps !! i with
  | Some p => if captured (node p) then new_captured v else v
  | None => v
  end.

Definition def_of ps cps indices (parent : list nat) (cells : list V) : Def (TC:=TC) :=
  mkDef ps (parameter_captures (mkCompiled cps indices)) (types_from 0 cps) parent cells.

(** The variables of enclosing functions are copied to slots of their own, after those of the
    parameters. *)
Definition frame_ok (n : nat) cps (parent : list nat) (cells : list V) : Prop :=
  length cps ≤ n ∧ NoDup parent ∧ length parent = length cells ∧
  ∀ j, j ∈ parent → length cps ≤ j < n.

Lemma invoke_raw_locals_ok ps cps indices parent cells n slots (f : nat → option V) :
  (∀ t v x e, check_type t v x ≠ Fault e) → (Z.of_nat (length cps) ≤ u32_max)%Z →
  frame_ok n cps parent cells → length slots = n →
  (∀ i, i < length cps → ∃ v, f i = Some v ∧ slots !! i = Some (Some v) ∧ is_value_captured v = false) →
  match invoke_raw_locals check_type (def_of ps cps indices parent cells) slots with
  | Ok slots' =>
    (∀ i x t, (i, x, t) ∈ types_from 0 cps → ∃ v, f i = Some v ∧ check_type t v x = Ok ()) ∧
    ∀ i, slots' !! i =
      if i <? length cps then Some (in_slot cps i <$> f i)
      else match (list_to_map (zip parent cells) : gmap nat V) !! i with
           | Some v => Some (Some v)
           | None => slots !! i
           end
  | Err e => ∃ i x t v, (i, x, t) ∈ types_from 0 cps ∧ f i = Some v ∧ check_type t v x = Err e
  | Fault _ => False
  end.
Proof.
  intros Hfault Hu (Hn & Hnd & Hlen & Hpar) Hl Hf. unfold invoke_raw_locals, def_of. simpl.
  assert (∀ i x t, (i, x, t) ∈ types_from 0 cps → i < length cps) as Hty
    by (intros i x t Hi%types_from_elem; lia).
  pose proof (check_parameter_types_ok check_type (types_from 0 cps) slots Hfault) as Hc.
  assert (match (if length (types_from 0 cps) =? 0 then Ok () else
      check_parameter_types check_type (types_from 0 cps) slots) with
    | Ok _ => ∀ i x t, (i, x, t) ∈ types_from 0 cps → ∃ v, f i = Some v ∧ check_type t v x = Ok ()
    | Err e => ∃ i x t v, (i, x, t) ∈ types_from 0 cps ∧ f i = Some v ∧ check_type t v x = Err e
    | Fault _ => False
    end) as Hcheck.
  { destruct (types_from 0 cps) as [|ty types] eqn:Htypes; [by intros ? ? ? ?%elem_of_nil|].
    rewrite <-Htypes in *. replace (length (types_from 0 cps) =? 0) with false by by rewrite Htypes.
    specialize (Hc ltac:(intros i x t Hi; destruct (Hf i (Hty _ _ _ Hi)) as (v & _ & Hv & _); eauto)).
    destruct (check_parameter_types _ _ _) as [u|e|e]; [| |done].
    - intros i x t Hi. destruct (Hc i x t Hi) as (v & Hv & Hok).
      destruct (Hf i (Hty _ _ _ Hi)) as (w & Hw & Hw' & _). exists w. split; [done|congruence].
    - destruct Hc as (i & x & t & v & Hi & Hv & He).
      destruct (Hf i (Hty _ _ _ Hi)) as (w & Hw & Hw' & _). exists i, x, t, w. split_and!; [done..|congruence]. }
  destruct (if _ =? 0 then _ else _) as [u|e|e]; [|done..]. cbn [mbind result_bind].
  set (cp := mkCompiled cps indices).
  destruct (wrap_captures_ok (X:=X) (parameter_captures cp) slots) as (s1 & Hw & Hl1 & Hs1).
  { by apply parameter_captures_NoDup. }
  { intros i (p & Hp & _)%parameter_captures_elem; [|done].
    destruct (Hf i) as (v & _ & Hv & Hcap); [by eapply lookup_lt_Some|]. eauto. }
  rewrite Hw. cbn [mbind result_bind].
  assert (∀ i, s1 !! i = if i <? length cps then Some (in_slot cps i <$> f i) else slots !! i) as Hs1'.
  { intros i. rewrite Hs1. destruct (Nat.ltb_spec i (length cps)) as [Hi|Hi].
    - destruct (Hf i Hi) as (v & Hv & Hv' & _). rewrite Hv, Hv'. simpl. unfold in_slot.
      destruct (lookup_lt_is_Some_2 cps i Hi) as [p Hp]. rewrite Hp.
      case_decide as Hin; rewrite parameter_captures_elem in Hin by done; simpl in Hin.
      + destruct Hin as (q & Hq & Hcap). rewrite Hp in Hq. injection Hq as <-. by rewrite Hcap.
      + destruct (captured (node p)) eqn:Hcap; [|done]. destruct Hin. eauto.
    - rewrite decide_False; [done|]. intros (p & Hp%lookup_lt_Some & _)%parameter_captures_elem; simpl in *; [lia|done]. }
  assert ((if length cells =? 0 then Ok s1 else copy_parents (X:=X) (zip parent cells) s1) =
    copy_parents (zip parent cells) s1) as ->.
  { destruct cells; [|done]. by destruct parent. }
  destruct (copy_parents_ok (X:=X) (zip parent cells) s1) as (s2 & Hcopy & _ & Hs2).
  { by rewrite fst_zip by lia. }
  { intros j. rewrite fst_zip by lia. intros Hj%Hpar. lia. }
  rewrite Hcopy. split; [done|]. intros i. rewrite Hs2, Hs1'.
  destruct (Nat.ltb_spec i (length cps)) as [Hi|Hi]; [|done].
  rewrite not_elem_of_list_to_map_1; [done|]. rewrite fst_zip by lia. intros Hj%Hpar. lia.
Qed.

Lemma invoke_locals_ok cps (vs : list V) indices ps D parent cells n args kws :
  12 ≤ om_max (M:=M) → spec_ok hash_of ps D → length vs = length (defaults cps) →
  param_kinds ps = (kinds_from vs cps).*2 → call_ok hash_of (M:=M) D ps args kws →
  frame_ok n cps parent cells → (∀ t v x e, check_type t v x ≠ Fault e) →
  (∀ l, is_value_captured (alloc_tuple l) = false) → (∀ l, is_value_captured (alloc_dict l) = false) →
  (∀ xs kws v, positional_args args = Some xs → keyword_args args = Some kws →
    v ∈ xs ++ kws.*2 ++ vs → is_value_captured v = false) →
  match invoke_locals (M:=M) check_type n (def_of ps cps indices parent cells) args with
  | Ok slots => ∃ xs kws, positional_args args = Some xs ∧ keyword_args args = Some kws ∧
      bindable D ps (length xs) kws.*1 = true ∧
      (∀ i x t, (i, x, t) ∈ types_from 0 cps →
        ∃ v, bound_slot D ps xs kws i = Some v ∧ check_type t v x = Ok ()) ∧
      ∀ i, slots !! i =
        if i <? length cps then Some (in_slot cps i <$> bound_slot D ps xs kws i)
        else match (list_to_map (zip parent cells) : gmap nat V) !! i with
             | Some v => Some (Some v)
             | None => if i <? n then Some None else None
             end
  | Err (BindingError e) => explains D ps args e ∧ ¬ call_bindable D ps args
  | Err (TypeError e) => ∃ xs kws i x t v, positional_args args = Some xs ∧
      keyword_args args = Some kws ∧ bindable D ps (length xs) kws.*1 = true ∧
      (i, x, t) ∈ types_from 0 cps ∧ bound_slot D ps xs kws i = Some v ∧ check_type t v x = Err e
  | Fault _ => False
  end.
Proof.
  intros Hmax Hps Hvs Hkinds Hc Hframe Hfault Htuple Hdict Hcap.
  assert (length (param_kinds ps) = length cps) as Hlen
    by by rewrite Hkinds, length_fmap, length_kinds_from.
  assert (slots_ready ps (replicate n None)) as Hready.
  { destruct Hframe. split; [rewrite length_replicate; lia|]. intros i Hi. apply lookup_replicate_2. lia. }
  unfold invoke_locals. rewrite (collect_inline_slow hash_of ps D Hps) by (done || apply Hc).
  pose proof (collect_slow_ok hash_of ps D Hps Hmax args kws _ Hc Hready) as Hb.
  cbn [def_of def_parameters].
  destruct (collect_slow ps args _) as [slots|e|e]; simpl in Hb; [| |done]; cbn [map_err mbind result_bind].
  2: { split; [done|]. by eapply explains_unbindable. }
  destruct Hb as (xs & kws' & Hxs & Hkws & Hbind & Hslots). rewrite Hlen in Hslots.
  pose proof (invoke_raw_locals_ok ps cps indices parent cells n slots (bound_slot D ps xs kws') Hfault) as Hraw.
  assert (∀ i, i < n ↔ is_Some (slots !! i)) as Hdom.
  { intros i. rewrite Hslots. destruct Hframe. destruct (Nat.ltb_spec i (length cps)).
    - split; [eauto|lia].
    - rewrite <-(length_replicate n (None : option V)) at 1. symmetry. apply lookup_lt_is_Some. }
  specialize (Hraw ltac:(rewrite <-Hlen; apply Hps) Hframe).
  assert (length slots = n) as Hl.
  { destruct (Nat.lt_trichotomy (length slots) n) as [Hlt|[|Hlt]]; [|done|].
    - apply Hdom, lookup_lt_is_Some in Hlt. lia.
    - apply lookup_lt_is_Some, Hdom in Hlt. lia. }
  assert (∀ i, i < length cps → ∃ v, bound_slot D ps xs kws' i = Some v ∧ slots !! i = Some (Some v) ∧
    is_value_captured v = false) as Hbound.
  { intros i Hi. destruct (bound_slot_assigned ps D xs kws' i Hps Hbind) as [v Hv]; [lia| |].
    { rewrite Hkinds. apply kinds_from_not_optional. }
    exists v. rewrite Hslots, (proj2 (Nat.ltb_lt _ _)), Hv by done. split_and!; [done..|].
    apply bound_slot_value in Hv as [Hv|[Hv|[[l ->]|[l ->]]]]; [| |done..].
    - apply (Hcap xs kws' v); [done..|]. rewrite !elem_of_app. rewrite elem_of_app in Hv. tauto.
    - rewrite Hkinds in Hv. apply kinds_from_defaulted in Hv. apply (Hcap xs kws' v); [done..|].
      rewrite !elem_of_app. tauto. }
  specialize (Hraw Hl Hbound).
  destruct (invoke_raw_locals check_type _ slots) as [slots'|e|e]; cbn [map_err]; [| |done].
  - exists xs, kws'. destruct Hraw as [Hty Hs]. split_and!; [done..|]. intros i.
    rewrite Hs. destruct (Nat.ltb_spec i (length cps)) as [|Hi]; [done|].
    destruct (_ !! i); [done|]. rewrite Hslots, (proj2 (Nat.ltb_ge _ _)) by done.
    destruct (Nat.ltb_spec i n); [by apply lookup_replicate_2|by apply lookup_ge_None_2; rewrite length_replicate].
  - destruct Hraw as (i & x & t & v & Hi & Hv & He). by exists xs, kws', i, x, t, v.
Qed.
(** calling a function made by a [def]. The locals of its frame are ready for the body: when
    the call fits and each bound value has the annotated type, every parameter's slot holds
    its value (in a cell when the parameter is captured), the variables of enclosing functions
    are in their slots, and the other slots are unassigned. Otherwise the error is a binding
    error that the call explains, or that of a bound value that fails its annotation. No
    annotated parameter is found unassigned and no slot outside the frame is accessed. *)
Theorem def_call_locals cps (vs : list V) indices ps D parent cells n args kws :
  12 ≤ om_max (M:=M) → spec_ok hash_of ps D → length vs = length (defaults cps) →
  param_kinds ps = (kinds_from vs cps).*2 → call_ok hash_of (M:=M) D ps args kws →
  frame_ok n cps parent cells → (∀ t v x e, check_type t v x ≠ Fault e) →
  (∀ l, is_value_captured (alloc_tuple l) = false) → (∀ l, is_value_captured (alloc_dict l) = false) →
  (∀ xs kws v, positional_args args = Some xs → keyword_args args = Some kws →
    v ∈ xs ++ kws.*2 ++ vs → is_value_captured v = false) →
  match invoke_locals (M:=M) check_type n (def_of ps cps indices parent cells) args with
  | Ok slots => ∃ xs kws, positional_args args = Some xs ∧ keyword_args args = Some kws ∧
      bindable D ps (length xs) kws.*1 = true ∧
      (∀ i x t, (i, x, t) ∈ types_from 0 cps →
        ∃ v, bound_slot D ps xs kws i = Some v ∧ check_type t v x = Ok ()) ∧
      ∀ i, slots !! i =
        if i <? length cps then Some (in_slot cps i <$> bound_slot D ps xs kws i)
        else match (list_to_map (zip parent cells) : gmap nat V) !! i with
             | Some v => Some (Some v)
             | None => if i <? n then Some None else None
             end
  | Err (BindingError e) => explains D ps args e ∧ ¬ call_bindable D ps args
  | Err (TypeError e) => ∃ xs kws i x t v, positional_args args = Some xs ∧
      keyword_args args = Some kws ∧ bindable D ps (length xs) kws.*1 = true ∧
      (i, x, t) ∈ types_from 0 cps ∧ bound_slot D ps xs kws i = Some v ∧ check_type t v x = Err e
  | Fault _ => False
  end.
Proof. apply invoke_locals_ok. Qed.
End call.

(** * A concrete call *)

(** The function of [DefSpec.v] is called [f(5, 6, 8, c = 3, z = 4)]; [b] is captured. *)
#[local] Existing Instance witness_values.
#[local] Existing Instance witness_values_ok.
#[local] Existing Instance witness_kwargs.
#[local] Existing Instance witness_kwargs_ok.
#[local] Instance witness_captured : Captured value := {
  new_captured v := VDict [(VNum 0, v)];
  is_value_captured v := match v with VDict [(VNum 0, _)] => true | _ => false end;
}.

Definition witness_function : ParametersSpec (list_table (Symbol * nat)) value := Eval vm_compute in
  match InstrDef_run witness_text_hash witness_check (name_of 102)
    (mkCompiled (number 0 witness_compiled) (DefParams.indices witness_unpacked)) [VNum 1; VNum 2] with
  | Ok (ps, _) => ps
  | _ => mkSpec [] [] [] (mkSymbolMap (mkListTable [] 0)) (mkIndices 0 0 None None)
  end.
Lemma witness_function_ok : ∃ D, spec_ok witness_text_hash witness_function D.
Proof.
  destruct (def_instantiates_ok (TT:=list_table (Symbol * nat)) (λ t, t) (λ _, false) true (λ c e, Ok (e, c))
    (λ x, bool_decide (x = name_of 98)) witness_text_hash witness_check witness_declaration witness_unpacked ()
    witness_compiled () (name_of 102) 10 [VNum 1; VNum 2])
    as (code & spec & D & _ & Hw & Hrun & Hok & _); [by vm_compute|by vm_compute| |by vm_compute..|].
  { repeat (apply Forall_cons; split; [by apply short_ok|]). by apply Forall_nil. }
  exists D. assert (spec = witness_function) as <-; [|done].
  vm_compute in Hw. injection Hw as <-. vm_compute in Hrun. by injection Hrun.
Qed.

Definition witness_call : ArgumentsFull Symbol value :=
  mkArguments [VNum 5; VNum 6; VNum 8] [VNum 3; VNum 4]
    [(symbol_of witness_text_hash (name_of 99), string_of 0 (name_of 99));
     (symbol_of witness_text_hash (name_of 122), string_of 0 (name_of 122))] None None.
Definition witness_locals : list (option value) :=
  [Some (VNum 5); Some (VDict [(VNum 0, VNum 6)]); Some (VList [VNum 8]); Some (VNum 3);
   Some (VDict [(VStr (name_of 122), VNum 4)]); None; Some (VNum 42)].

(** The call fits the function, and its values are none of them cells. *)
Lemma witness_call_ok D : spec_ok witness_text_hash witness_function D →
  call_ok witness_text_hash (M:=Kwargs) D witness_function witness_call [(name_of 99, VNum 3); (name_of 122, VNum 4)].
Proof.
  intros HD. split.
  - repeat constructor; apply (named_arg_symbol _ _ _ HD); by apply short_ok.
  - apply (bool_decide_unpack (NoDup [[99]; [122]]%Z)). vm_compute. exact I.
  - done.
  - by apply (bool_decide_unpack (2 < 12)).
Qed.
Lemma witness_frame_ok : frame_ok 7 witness_compiled [6] [VNum 42].
Proof.
  split; [simpl; lia|]. split_and!; [apply NoDup_singleton|done|]. intros j ->%list_elem_of_singleton. simpl. lia.
Qed.
Lemma witness_not_captured xs kws v :
  positional_args witness_call = Some xs → keyword_args witness_call = Some kws →
  v ∈ xs ++ kws.*2 ++ [VNum 1; VNum 2] → is_value_captured v = false.
Proof.
  intros Hxs Hkws. vm_compute in Hxs, Hkws. injection Hxs as <-. injection Hkws as <-.
  intros Hv. simpl in Hv. repeat (apply elem_of_cons in Hv as [->|Hv]; [done|]). by apply elem_of_nil in Hv.
Qed.

Lemma def_call_locals_witness :
  invoke_locals (M:=Kwargs) witness_check 7
    (def_of witness_function witness_compiled (DefParams.indices witness_unpacked) [6] [VNum 42])
    witness_call = Ok witness_locals ∧
  ∃ D xs kws, positional_args witness_call = Some xs ∧ keyword_args witness_call = Some kws ∧
    bindable D witness_function (length xs) kws.*1 = true.
Proof.
  assert (invoke_locals (M:=Kwargs) witness_check 7
    (def_of witness_function witness_compiled (DefParams.indices witness_unpacked) [6] [VNum 42])
    witness_call = Ok witness_locals) as Heq by by vm_compute.
  split; [exact Heq|]. destruct witness_function_ok as [D HD]. exists D.
  pose proof (def_call_locals witness_text_hash (M:=Kwargs) witness_check witness_compiled [VNum 1; VNum 2]
    (DefParams.indices witness_unpacked) witness_function D [6] [VNum 42] 7 witness_call
    [(name_of 99, VNum 3); (name_of 122, VNum 4)]) as Hcall.
  rewrite Heq in Hcall. destruct Hcall as (xs & kws & Hxs & Hkws & Hb & _); [..|by exists xs, kws].
  - by apply (bool_decide_unpack (12 ≤ 12)).
  - exact HD.
  - done.
  - by vm_compute.
  - by apply witness_call_ok.
  - apply witness_frame_ok.
  - intros t [n|x|l|l] x' e; done.
  - done.
  - by intros [|[x v] [|kv l]].
  - apply witness_not_captured.
Defined.
