(* ===== verification/CallableParam.v ===== *)
(** [starlark/src/typing/callable_param.rs], [ParametersCompiled::to_ty_params] of
    [eval/compiler/def.rs] and the argument check of [typing/oracle/ctx.rs]: the parameters of a
    function as the type checker sees them, and the check of a call against them.  Types are a
    parameter here, with the intersection test of the oracle. *)

From S2P Require Import Prelude Hashing FastString CodeMap DefParams OrdMap Def.

Section param_spec.
Context {Ty : Type} `{EqDecision Ty}.

Inductive ParamMode :=
| ModePosOnly (required : ParamIsRequired)
| ModePosOrName (name : list byte) (required : ParamIsRequired)
| ModeNameOnly (name : list byte) (required : ParamIsRequired)
| ModeArgs
| ModeKwargs.
#[export] Instance ParamMode_eq_dec : EqDecision ParamMode.
Proof. solve_decision. Defined.

Record Param := mkParam { mode : ParamMode; ty : Ty }.
#[export] Instance Param_eq_dec : EqDecision Param.
Proof. solve_decision. Defined.
Implicit Types p : Param.

Definition allows_pos p : bool :=
  match mode p with ModePosOnly _ | ModePosOrName _ _ | ModeArgs => true | _ => false end.
Definition param_name p : option (list byte) :=
  match mode p with ModePosOrName x _ | ModeNameOnly x _ => Some x | _ => None end.
(** ["_"], ["*args"] and ["**kwargs"] for parameters without a name. *)
Definition name_display p : list byte :=
  match mode p with
  | ModePosOnly _ => [0x5F]%Z
  | ModePosOrName x _ | ModeNameOnly x _ => x
  | ModeArgs => [0x2A; 0x61; 0x72; 0x67; 0x73]%Z
  | ModeKwargs => [0x2A; 0x2A; 0x6B; 0x77; 0x61; 0x72; 0x67; 0x73]%Z
  end.

Record ParamSpec := mkParamSpec { spec_params : list Param; spec_indices : DefParamIndices }.
#[export] Instance DefParamIndices_eq_dec : EqDecision DefParamIndices.
Proof. solve_decision. Defined.
#[export] Instance ParamSpec_eq_dec : EqDecision ParamSpec.
Proof. solve_decision. Defined.
Implicit Types ps : ParamSpec.

Record ParamSpecSplit := mkSplit {
  split_pos_only : list Param;
  split_pos_or_named : list Param;
  split_args : option Param;
  split_named_only : list Param;
  split_kwargs : option Param;
}.

(** [&l[a..b]] panics unless [a <= b <= l.len()]. *)
Definition slice_range {A E} (l : list A) (r : nat * nat) : result E (list A) :=
  if (r.1 <=? r.2) && (r.2 <=? length l) then Ok (take (r.2 - r.1) (drop r.1 l)) else Panic.
Definition index_option {A E} (l : list A) (i : option nat) : result E (option A) :=
  match i with None => Ok None | Some a => x ← unwrap (l !! a); Ok (Some x) end.

Definition split ps : comp ParamSpecSplit :=
  let params := spec_params ps in
  let indices := spec_indices ps in
  pos_only ← slice_range params (pos_only indices);
  pos_or_named ← slice_range params (pos_or_named indices);
  args ← index_option params (DefParams.args indices);
  named_only ← slice_range params (named_only indices (length params));
  kwargs ← index_option params (DefParams.kwargs indices);
  Ok (mkSplit pos_only pos_or_named args named_only kwargs).

(** [None] is the early return of [?] and of the last branch. *)
Definition all_required_pos_only_named_only ps : comp (option (list Ty * list (list byte * Ty))) :=
  s ← split ps;
  match s with
  | mkSplit pos_only [] None named_only None =>
    Ok (pos_only ← mapM (λ p, match mode p with ModePosOnly IsRequired => Some (ty p) | _ => None end) pos_only;
        named_only ← mapM (λ p, match mode p with
          | ModeNameOnly name IsRequired => Some (name, ty p) | _ => None end) named_only;
        Some (pos_only, named_only))
  | _ => Ok None
  end.
Definition all_required_pos_only ps : comp (option (list Ty)) :=
  o ← all_required_pos_only_named_only ps;
  Ok match o with Some (pos_only, []) => Some pos_only | _ => None end.

(** ** Construction *)

Section new_parts.
Context (hash_of : list byte → StarlarkHashValue) {M : Type} `{OrdMap (list byte) () M}.

Inductive ParamSpecError := DuplicateParameterName (name : list byte).
Abbreviation created A := (result ParamSpecError A).

(** The two loops over parameters with names; [seen_names] is a [SmallSet]. *)
Fixpoint push_named (md : list byte → ParamIsRequired → ParamMode)
    (l : list (list byte * ParamIsRequired * Ty)) (seen_names : M) (params : list Param) :
    created (M * list Param) :=
  match l with
  | [] => Ok (seen_names, params)
  | (name, req, ty) :: l =>
    '(old, seen_names) ← lift (om_insert seen_names (mkHashed (hash_of name) name) ());
    match (old : option ()) with
    | Some _ => Err (DuplicateParameterName name)
    | None => push_named md l seen_names (params ++ [mkParam (md name req) ty])
    end
  end.

Definition ParamSpec_new_parts (pos_only : list (ParamIsRequired * Ty))
    (pos_or_name : list (list byte * ParamIsRequired * Ty)) (args : option Ty)
    (named_only : list (list byte * ParamIsRequired * Ty)) (kwargs : option Ty) : created ParamSpec :=
  seen_names ← lift (om_with_capacity 0);
  let params := (λ '(req, ty), mkParam (ModePosOnly req) ty) <$> pos_only in
  let num_positional_only := u32_cast (length params) in
  '(seen_names, params) ← push_named ModePosOrName pos_or_name seen_names params;
  let num_positional := u32_cast (length params) in
  let '(index_of_args, params) :=
    match args with
    | Some ty => (Some (u32_cast (length params)), params ++ [mkParam ModeArgs ty])
    | None => (None, params)
    end in
  '(_, params) ← push_named ModeNameOnly named_only seen_names params;
  let '(index_of_kwargs, params) :=
    match kwargs with
    | Some ty => (Some (u32_cast (length params)), params ++ [mkParam ModeKwargs ty])
    | None => (None, params)
    end in
  Ok (mkParamSpec params (mkIndices num_positional num_positional_only index_of_args index_of_kwargs)).

(** [.expect(..)]. *)
Definition expect (m : created ParamSpec) : comp ParamSpec :=
  match m with Ok ps => Ok ps | Err _ => Panic | Fault f => Fault f end.
Definition ParamSpec_new_named_only named_only : created ParamSpec :=
  ParamSpec_new_parts [] [] None named_only None.
Definition ParamSpec_args (ty : Ty) : comp ParamSpec := expect (ParamSpec_new_parts [] [] (Some ty) [] None).
Definition ParamSpec_kwargs (ty : Ty) : comp ParamSpec := expect (ParamSpec_new_parts [] [] None [] (Some ty)).
Definition ParamSpec_pos_only (required optional : list Ty) : comp ParamSpec :=
  expect (ParamSpec_new_parts ((pair IsRequired <$> required) ++ (pair IsOptional <$> optional))
    [] None [] None).
Definition ParamSpec_empty : comp ParamSpec := ParamSpec_pos_only [] [].

(** [Ty::any()]. *)
Context (any_ty : Ty).

Definition ParamSpec_any : ParamSpec :=
  mkParamSpec [mkParam ModeArgs any_ty; mkParam ModeKwargs any_ty] (mkIndices 0 0 (Some 0) (Some 1)).
Definition is_any ps : bool := bool_decide (ps = ParamSpec_any).

(** ** Of a [def] *)

Context {TC T : Type} (as_ty : TC → Ty).

Definition param_ty (x : ParameterCompiled TC T) : Ty :=
  match name_ty x with (_, Some t) => as_ty t | (_, None) => any_ty end.
Definition positions (r : nat * nat) : list nat := seq r.1 (r.2 - r.1).
Definition to_ty_params (params : ParametersCompiled TC T) : comp ParamSpec :=
  let l := compiled_params params in
  let indices := compiled_indices params in
  let at_index i := p ← unwrap (l !! i); Ok (node p) in
  let named i := p ← at_index i; Ok (pn_name (name_ty p).1, is_required_param p, param_ty p) in
  let star i := match i with None => Ok None | Some i => p ← at_index i; Ok (Some (param_ty p)) end in
  pos_only ← mapM (λ i, p ← at_index i; Ok (is_required_param p, param_ty p)) (positions (pos_only indices));
  pos_or_named ← mapM named (positions (pos_or_named indices));
  args ← star (DefParams.args indices);
  named_only ← mapM named (positions (named_only indices (length l)));
  kwargs ← star (DefParams.kwargs indices);
  expect (ParamSpec_new_parts pos_only pos_or_named args named_only kwargs).
End new_parts.

(** * The check of a call *)

Record TyCallArgs := mkTyCallArgs {
  ty_pos : list (Spanned Ty);
  ty_named : list (Spanned (list byte * Ty));
  ty_args : option (Spanned Ty);
  ty_kwargs : option (Spanned Ty);
}.

Inductive TypingOracleCtxError :=
| IncompatibleType (got require : Ty)
| MissingRequiredParameter (name : list byte)
| UnexpectedNamedArgument (name : list byte)
| TooManyPositionalArguments.

Section validate.
(** [InternalError]s of the oracle. *)
Context {IE : Type} (intersects : Ty → Ty → result IE bool).

Inductive TypingOrInternalError :=
| Typing (e : TypingOracleCtxError) (span : Span)
| MultipleArguments (span : Span)
| Internal (e : IE).
Abbreviation checked A := (result TypingOrInternalError A).

Definition validate_type (got : Spanned Ty) (require : Ty) : checked () :=
  match intersects (node got) require with
  | Ok true => Ok ()
  | Ok false => Err (Typing (IncompatibleType (node got) require) (span got))
  | Err e => Err (Internal e)
  | Fault f => Fault f
  end.

(** The inner loop over positional arguments: the index of the next parameter that takes one,
    among [l] which starts at [param_pos], and the next value of [param_pos]. *)
Fixpoint next_positional (l : list Param) (param_pos : nat) : option (nat * nat) :=
  match l with
  | [] => None
  | param :: l =>
    let found_index := param_pos in
    let param_pos := if decide (mode param = ModeArgs) then param_pos else param_pos + 1 in
    if allows_pos param then Some (found_index, param_pos) else next_positional l param_pos
  end.

Definition push_arg (param_args : list (list (Spanned Ty))) (i : nat) (t : Spanned Ty) :
    checked (list (list (Spanned Ty))) :=
  old ← unwrap (param_args !! i); Ok (<[i := old ++ [t]]> param_args).

Fixpoint place_positional (params : list Param) (tys : list (Spanned Ty)) (param_pos : nat)
    (param_args : list (list (Spanned Ty))) : checked (list (list (Spanned Ty))) :=
  match tys with
  | [] => Ok param_args
  | t :: tys =>
    match next_positional (drop param_pos params) param_pos with
    | None => Err (Typing TooManyPositionalArguments (span t))
    | Some (found_index, param_pos) =>
      param_args ← push_arg param_args found_index t;
      place_positional params tys param_pos param_args
    end
  end.

Definition takes_name (name : list byte) (param : Param) : bool :=
  bool_decide (param_name param = Some name) || bool_decide (mode param = ModeKwargs).
Fixpoint place_named (params : list Param) (args : list (Spanned (list byte * Ty)))
    (param_args : list (list (Spanned Ty))) : checked (list (list (Spanned Ty))) :=
  match args with
  | [] => Ok param_args
  | arg :: args =>
    let '(name, t) := node arg in
    match find_index (takes_name name) params with
    | None => Err (Typing (UnexpectedNamedArgument name) (span arg))
    | Some i =>
      param_args ← push_arg param_args i (mkSpanned (span arg) t);
      place_named params args param_args
    end
  end.

Fixpoint validate_each (args : list (Spanned Ty)) (require : Ty) : checked () :=
  match args with
  | [] => Ok ()
  | t :: args => _ ← validate_type t require; validate_each args require
  end.
Definition validate_param (seen_vargs : bool) (call : Span) (param : Param) (args : list (Spanned Ty)) :
    checked () :=
  match mode param with
  | ModePosOnly req | ModePosOrName _ req | ModeNameOnly _ req =>
    match args with
    | [] =>
      if bool_decide (req = IsRequired) && negb seen_vargs
      then Err (Typing (MissingRequiredParameter (name_display param)) call) else Ok ()
    | [arg] => validate_type arg (ty param)
    | _ => Err (MultipleArguments call)
    end
  | ModeArgs | ModeKwargs => validate_each args (ty param)
  end.
Fixpoint validate_params (seen_vargs : bool) (call : Span) (l : list (Param * list (Spanned Ty))) :
    checked () :=
  match l with
  | [] => Ok ()
  | (param, args) :: l => _ ← validate_param seen_vargs call param args; validate_params seen_vargs call l
  end.

Definition validate_args ps (args : TyCallArgs) (call : Span) : checked () :=
  let params := spec_params ps in
  param_args ← place_positional params (ty_pos args) 0 (replicate (length params) []);
  param_args ← place_named params (ty_named args) param_args;
  let seen_vargs :=
    match ty_args args, ty_kwargs args with None, None => false | _, _ => true end in
  validate_params seen_vargs call (zip params param_args).
End validate.
End param_spec.
Arguments Param : clear implicits.
Arguments ParamSpec : clear implicits.
Arguments TyCallArgs : clear implicits.
