(* ===== verification/ArgCheck.v ===== *)
(** The type checker's view of a function against the interpreter's: [to_ty_params] never panics
    on the parameters of a [def] and describes the same parameters as the parameter list made at
    run time, and the checker accepts a call exactly when its arguments can be bound and their
    types are compatible. *)

From S2P Require Import Prelude Vec2 Hashing TableMap VecMap SmallMap SmallMapSpec SmallMapOps OrdMap.
From S2P Require Import FastString Symbol CodeMap DefParams DefLayout DefUnpack ParamSpec CallBinding.
From S2P Require Import CallCollect CallProps Def DefSpec DefCall CallableParam.

(** * The parameters of a [def] *)

Section to_ty.
Context (hash_of : text → StarlarkHashValue) {M TC T Ty : Type} `{EqDecision Ty}.
Context `{!OrdMap text () M, !OrdMapOk text () M hash_of}.
Context (any_ty : Ty) (as_ty : TC → Ty).
Implicit Types (l : list (Spanned (ParameterCompiled TC T))) (indices : DefParamIndices).

Definition mode_at indices (i : nat) (x : ParameterCompiled TC T) : ParamMode :=
  match x with
  | CompiledNormal n _ _ =>
    if i <? num_positional_only indices then ModePosOnly (is_required_param x)
    else if i <? num_positional indices then ModePosOrName (pn_name n) (is_required_param x)
    else ModeNameOnly (pn_name n) (is_required_param x)
  | CompiledArgs _ _ => ModeArgs
  | CompiledKwArgs _ _ => ModeKwargs
  end.
Definition param_at indices (i : nat) (p : Spanned (ParameterCompiled TC T)) : Param Ty :=
  mkParam (mode_at indices i (node p)) (param_ty any_ty as_ty (node p)).
Definition params_at indices l : list (Param Ty) := imap (param_at indices) l.

Definition all_normal l : Prop := Forall (λ p, accepts_positional (node p) = true) l.

(** Where the stars are. *)
Lemma described_args indices l i :
  described indices l → DefParams.args indices = Some i →
  i = num_positional indices ∧ ∃ s n ty, l !! i = Some (mkSpanned s (CompiledArgs n ty)).
Proof.
  intros [_ _ Hpl Ha _ _] Hi. destruct (lookup_lt_is_Some_2 l i (Ha i Hi)) as [[s x] Hp].
  specialize (Hpl i _ Hp). destruct x; simpl in Hpl; [by destruct Hpl| |by destruct Hpl as (_ & _ & _ & ?)].
  split; [apply Hpl|]. rewrite Hp. eauto.
Qed.
Lemma described_kwargs indices l i :
  described indices l → DefParams.kwargs indices = Some i →
  num_positional indices ≤ i ∧ i + 1 = length l ∧ ∃ s n ty, l !! i = Some (mkSpanned s (CompiledKwArgs n ty)).
Proof.
  intros [_ _ Hpl _ Hk _] Hi. destruct (lookup_lt_is_Some_2 l i (Hk i Hi)) as [[s x] Hp].
  specialize (Hpl i _ Hp). destruct x; simpl in Hpl; [by destruct Hpl|by destruct Hpl as (_ & _ & ?)|].
  destruct Hpl as (? & ? & _). split_and!; [done..|]. rewrite Hp. eauto.
Qed.

Definition count_star (o : option nat) : nat := match o with Some _ => 1 | None => 0 end.

Lemma described_length indices l :
  described indices l →
  num_positional indices + count_star (DefParams.args indices) + count_star (DefParams.kwargs indices) ≤ length l.
Proof.
  intros Hds. pose proof (ds_positional _ _ Hds). pose proof (ds_args _ _ Hds) as Ha.
  destruct (DefParams.args indices) as [a|] eqn:Hai; [pose proof (described_args _ _ a Hds Hai) as (-> & s & n & t & Hl)|];
    (destruct (DefParams.kwargs indices) as [k|] eqn:Hki;
      [pose proof (described_kwargs _ _ k Hds Hki) as (? & ? & s' & n' & t' & Hl')|]); simpl; [|..|lia].
  - destruct (decide (k = num_positional indices)) as [->|]; [congruence|lia].
  - specialize (Ha _ eq_refl). lia.
  - lia.
Qed.

Lemma take_drop_drop {A} (k : list A) a b : a ≤ b → take (b - a) (drop a k) ++ drop b k = drop a k.
Proof.
  intros Hab. rewrite <-(take_drop (b - a) (drop a k)) at 2. rewrite drop_drop. do 2 f_equal. lia.
Qed.

(** The segments without a star. *)
Lemma described_segment indices l a b :
  described indices l → b ≤ length l →
  (∀ i, a ≤ i < b → DefParams.args indices ≠ Some i ∧ DefParams.kwargs indices ≠ Some i) →
  all_normal (take (b - a) (drop a l)).
Proof.
  intros [_ _ Hpl _ _ _] Hb Hno. apply Forall_lookup. intros i p Hi.
  pose proof (lookup_lt_Some _ _ _ Hi) as Hlt. rewrite length_take, length_drop in Hlt.
  rewrite lookup_take_lt, lookup_drop in Hi by lia. specialize (Hpl _ _ Hi).
  destruct (Hno (a + i)) as [H1 H2]; [lia|]. destruct (node p); simpl in Hpl; [done|tauto..].
Qed.

(** The list cut into its parts. *)
Lemma described_parts indices l :
  described indices l → ∃ A B S N K, l = A ++ B ++ S ++ N ++ K ∧
    length A = num_positional_only indices ∧ length A + length B = num_positional indices ∧
    all_normal A ∧ all_normal B ∧ all_normal N ∧
    match DefParams.args indices with
    | None => S = []
    | Some i => i = num_positional indices ∧ ∃ s n ty, S = [mkSpanned s (CompiledArgs n ty)]
    end ∧
    match DefParams.kwargs indices with
    | None => K = []
    | Some i => i + 1 = length l ∧ ∃ s n ty, K = [mkSpanned s (CompiledKwArgs n ty)]
    end.
Proof.
  intros Hds. pose proof (described_length _ _ Hds) as Hsum. pose proof (ds_pos_only _ _ Hds) as Hle.
  pose proof (λ i, described_args indices l i Hds) as Hargs.
  pose proof (λ i, described_kwargs indices l i Hds) as Hkwargs.
  set (npo := num_positional_only indices) in *. set (npos := num_positional indices) in *.
  set (sa := count_star (DefParams.args indices)) in *. set (sk := count_star (DefParams.kwargs indices)) in *.
  exists (take (npo - 0) (drop 0 l)), (take (npos - npo) (drop npo l)), (take (npos + sa - npos) (drop npos l)),
    (take (length l - sk - (npos + sa)) (drop (npos + sa) l)), (drop (length l - sk) l).
  split_and!.
  - by rewrite !take_drop_drop by lia.
  - rewrite length_take, length_drop. lia.
  - rewrite !length_take, !length_drop. lia.
  - apply described_segment with indices; [done|lia|]. intros i Hi. split; intros Hj.
    + apply Hargs in Hj as [-> _]. lia.
    + apply Hkwargs in Hj as (? & ? & _). lia.
  - apply described_segment with indices; [done|lia|]. intros i Hi. split; intros Hj.
    + apply Hargs in Hj as [-> _]. lia.
    + apply Hkwargs in Hj as (? & ? & _). lia.
  - apply described_segment with indices; [done|lia|]. unfold sa, sk in *. intros i Hi. split; intros Hj.
    + pose proof (Hargs i Hj) as [-> _]. rewrite Hj in Hi. simpl in Hi. lia.
    + pose proof (Hkwargs i Hj) as (? & ? & _). rewrite Hj in Hi. simpl in Hi. lia.
  - replace (npos + sa - npos) with sa by lia. unfold sa.
    destruct (DefParams.args indices) as [a|] eqn:Hai; [|done].
    destruct (Hargs a eq_refl) as (-> & s & n & t & Hl). split; [done|]. exists s, n, t.
    by rewrite (drop_S _ _ _ Hl).
  - unfold sk. destruct (DefParams.kwargs indices) as [k|] eqn:Hki; simpl; [|by rewrite Nat.sub_0_r, drop_all].
    destruct (Hkwargs k eq_refl) as (_ & Hk & s & n & t & Hl). split; [done|]. exists s, n, t.
    replace (length l - 1) with k by lia. rewrite (drop_S _ _ _ Hl). by rewrite drop_ge by lia.
Qed.

(** Reading the parts. *)
Lemma mapM_Ok {E A B} (f : A → result E B) (xs : list A) (ys : list B) :
  Forall2 (λ x y, f x = Ok y) xs ys → mapM f xs = Ok ys.
Proof. induction 1 as [|x y xs ys Hx _ IH]; simpl; [done|]. by rewrite Hx, IH. Qed.

Lemma mapM_positions {E B} (f : ParameterCompiled TC T → B) l pre mid post a b :
  l = pre ++ mid ++ post → a = length pre → b = length pre + length mid →
  mapM (λ i, p ← (q ← unwrap (l !! i); Ok (node q)); Ok (f p)) (positions (a, b)) =
    Ok (E:=E) ((λ q, f (node q)) <$> mid).
Proof.
  intros -> -> ->. apply mapM_Ok. unfold positions. simpl.
  replace (length pre + length mid - length pre) with (length mid) by lia.
  apply Forall2_same_length_lookup_2; [by rewrite length_seq, length_fmap|].
  intros i x y [-> Hi]%lookup_seq Hy. rewrite list_lookup_fmap in Hy.
  apply fmap_Some in Hy as (q & Hq & ->). rewrite lookup_app_r, Nat.add_comm, Nat.add_sub by lia.
  by rewrite (lookup_app_l_Some _ _ _ _ Hq).
Qed.

Definition seen_models (seen : M) (ns : list text) : Prop := om_models seen ((λ n, (n, ())) <$> ns).

Lemma push_named_ok md (ks : list (text * ParamIsRequired * Ty)) seen ns ps :
  seen_models seen ns → NoDup (ns ++ ks.*1.*1) → length ns + length ks ≤ om_max (M:=M) →
  returns (push_named hash_of md ks seen ps) (λ '(seen', ps'),
    seen_models seen' (ns ++ ks.*1.*1) ∧
    ps' = ps ++ ((λ '(n, r, t), mkParam (md n r) t) <$> ks)).
Proof.
  revert seen ns ps. induction ks as [|[[n r] t] ks IH]; intros seen ns ps Hm Hnd Hlen; csimpl in *.
  { apply returns_ret. by rewrite !app_nil_r. }
  assert (n ∉ ns) as Hn.
  { intros Hn. apply NoDup_app in Hnd as (_ & Hnd & _). apply (Hnd n Hn). by left. }
  apply returns_bind. eapply returns_mono; [apply returns_lift, (om_insert_ok seen _ n () Hm)|].
  { rewrite length_fmap. lia. }
  intros [old seen'] [-> Hm'].
  assert (key_index n ((λ n, (n, ())) <$> ns) = None) as Hkey.
  { rewrite key_index_None, <-list_fmap_compose. by rewrite list_fmap_id. }
  unfold al_get, al_insert in *. rewrite Hkey in *. simpl in *.
  eapply returns_mono; [apply (IH seen' (ns ++ [n]))|].
  - unfold seen_models. by rewrite fmap_app.
  - by rewrite <-app_assoc.
  - rewrite length_app. simpl. lia.
  - intros [seen'' ps'] [Hs ->]. rewrite <-!app_assoc in *. by split.
Qed.

Lemma param_at_segment indices off (seg : list (Spanned (ParameterCompiled TC T))) md :
  all_normal seg →
  (∀ i n ty d, i < length seg → mode_at indices (off + i) (CompiledNormal n ty d) =
    md (pn_name n) (is_required_param (CompiledNormal n ty d))) →
  imap (λ i, param_at indices (off + i)) seg =
    (λ q, mkParam (md (compiled_name (node q)) (is_required_param (node q))) (param_ty any_ty as_ty (node q))) <$> seg.
Proof.
  intros Hseg Hmd. apply list_eq. intros i. rewrite list_lookup_imap, list_lookup_fmap.
  destruct (seg !! i) as [[s x]|] eqn:Hi; [|done]. simpl. f_equal. unfold param_at. simpl. f_equal.
  apply lookup_lt_Some in Hi as Hlt. eapply (Forall_lookup_1 _ _ _ _ Hseg) in Hi. simpl in Hi.
  destruct x as [n ty d| |]; [|done..]. rewrite (Hmd i n ty d Hlt). done.
Qed.

Lemma param_at_star indices off s n ty :
  imap (λ i, param_at indices (off + i)) [mkSpanned s (CompiledArgs n ty : ParameterCompiled TC T)] =
    [mkParam ModeArgs (param_ty any_ty as_ty (CompiledArgs n ty : ParameterCompiled TC T))] ∧
  imap (λ i, param_at indices (off + i)) [mkSpanned s (CompiledKwArgs n ty : ParameterCompiled TC T)] =
    [mkParam ModeKwargs (param_ty any_ty as_ty (CompiledKwArgs n ty : ParameterCompiled TC T))].
Proof. done. Qed.

Lemma imap_segment {A B} (f : nat → A → B) off (l1 l2 : list A) :
  imap (λ i, f (off + i)) (l1 ++ l2) =
    imap (λ i, f (off + i)) l1 ++ imap (λ i, f (off + length l1 + i)) l2.
Proof. rewrite imap_app. f_equal. apply imap_ext. intros i x _. simpl. f_equal. lia. Qed.

(** The parts as [new_parts] takes them. *)
Abbreviation pty := (param_ty any_ty as_ty).
Definition unnamed_part (x : ParameterCompiled TC T) : ParamIsRequired * Ty := (is_required_param x, pty x).
Definition named_part (x : ParameterCompiled TC T) : text * ParamIsRequired * Ty :=
  (pn_name (name_ty x).1, is_required_param x, pty x).
Definition star_part (S : list (Spanned (ParameterCompiled TC T))) : option Ty := (λ q, pty (node q)) <$> head S.

Lemma named_part_names seg : ((λ q, named_part (node q)) <$> seg).*1.*1 = (λ q, compiled_name (node q)) <$> seg.
Proof. rewrite <-!list_fmap_compose. by apply list_fmap_ext. Qed.

Lemma new_parts_of_parts indices A B S N K :
  let l := A ++ B ++ S ++ N ++ K in
  described indices l → (Z.of_nat (length l) ≤ u32_max)%Z → length l ≤ om_max (M:=M) →
  length A = num_positional_only indices → length A + length B = num_positional indices →
  all_normal A → all_normal B → all_normal N →
  match DefParams.args indices with
  | None => S = []
  | Some i => i = num_positional indices ∧ ∃ s n ty, S = [mkSpanned s (CompiledArgs n ty)]
  end →
  match DefParams.kwargs indices with
  | None => K = []
  | Some i => i + 1 = length l ∧ ∃ s n ty, K = [mkSpanned s (CompiledKwArgs n ty)]
  end →
  ParamSpec_new_parts hash_of (M:=M) ((λ q, unnamed_part (node q)) <$> A) ((λ q, named_part (node q)) <$> B)
    (star_part S) ((λ q, named_part (node q)) <$> N) (star_part K) = Ok (mkParamSpec (params_at indices l) indices).
Proof.
  intros l Hds Hu Hmax HA HB nA nB nN HS HK. pose proof (ds_names _ _ Hds) as Hnd.
  unfold l in Hu, Hmax, Hnd. rewrite !length_app in Hu, Hmax. rewrite !fmap_app in Hnd.
  assert (NoDup (((λ q, compiled_name (node q)) <$> B) ++ ((λ q, compiled_name (node q)) <$> N))) as HndBN.
  { apply NoDup_app in Hnd as (_ & _ & Hnd). eapply sublist_NoDup; [exact Hnd|].
    apply sublist_app; [done|]. apply sublist_inserts_l, sublist_inserts_r. done. }
  unfold ParamSpec_new_parts.
  destruct (om_with_capacity_ok (hash_of:=hash_of) (M:=M) 0) as (seen & Hnew & Hm); [lia|].
  rewrite Hnew. cbn [lift mbind result_bind].
  destruct (push_named_ok ModePosOrName ((λ q, named_part (node q)) <$> B) seen []
    ((λ '(req, ty), mkParam (ModePosOnly req) ty) <$> ((λ q, unnamed_part (node q)) <$> A)))
    as ([seen1 ps1] & Hp1 & Hm1 & Hps1); [done| | |].
  { rewrite app_nil_l, named_part_names. by apply NoDup_app in HndBN as [? _]. }
  { rewrite length_fmap. simpl. lia. }
  rewrite Hp1. cbn [mbind result_bind]. rewrite app_nil_l, named_part_names in Hm1.
  assert (length ps1 = num_positional indices) as Hl1 by (rewrite Hps1, length_app, !length_fmap; lia).
  rewrite !u32_cast_ok by (rewrite ?length_fmap; unfold u32_max in *; lia).
  set (pS := (λ q, mkParam ModeArgs (pty (node q))) <$> S).
  assert (match star_part S with
    | Some ty => (Some (length ps1), ps1 ++ [mkParam ModeArgs ty])
    | None => (None, ps1)
    end = (DefParams.args indices, ps1 ++ pS)) as ->.
  { unfold pS. destruct (DefParams.args indices) as [a|]; [|subst S; by rewrite app_nil_r].
    destruct HS as (-> & s & n & t & ->). by rewrite Hl1. }
  destruct (push_named_ok ModeNameOnly ((λ q, named_part (node q)) <$> N) seen1
    ((λ q, compiled_name (node q)) <$> B) (ps1 ++ pS)) as ([seen2 ps2] & Hp2 & _ & Hps2); [done| | |].
  { by rewrite named_part_names. }
  { rewrite !length_fmap. lia. }
  rewrite Hp2. cbn [mbind result_bind].
  assert (length ps2 = length A + length B + length S + length N) as Hl2.
  { rewrite Hps2, !length_app. unfold pS. rewrite !length_fmap, Hl1. lia. }
  rewrite u32_cast_ok by (unfold u32_max in *; lia).
  set (pK := (λ q, mkParam ModeKwargs (pty (node q))) <$> K).
  assert (match star_part K with
    | Some ty => (Some (length ps2), ps2 ++ [mkParam ModeKwargs ty])
    | None => (None, ps2)
    end = (DefParams.kwargs indices, ps2 ++ pK)) as ->.
  { unfold pK. destruct (DefParams.kwargs indices) as [k|]; [|subst K; by rewrite app_nil_r].
    destruct HK as (Hk & s & n & t & ->). simpl. do 2 f_equal. unfold l in Hk. rewrite !length_app in Hk.
    simpl in Hk. lia. }
  do 2 f_equal; [|destruct indices; simpl in *; rewrite length_fmap, length_fmap; congruence].
  rewrite Hps2, Hps1. unfold params_at, l. symmetry.
  rewrite (imap_segment (param_at indices) 0), (imap_segment (param_at indices) (0 + length A)).
  rewrite (imap_segment (param_at indices) (0 + length A + length B)).
  rewrite (imap_segment (param_at indices) (0 + length A + length B + length S)), <-!app_assoc.
  rewrite (param_at_segment indices 0 A (λ _, ModePosOnly)); [|done|].
  2: { intros i n t d Hi. simpl. by rewrite (proj2 (Nat.ltb_lt _ _)) by lia. }
  rewrite (param_at_segment indices (0 + length A) B ModePosOrName); [|done|].
  2: { intros i n t d Hi. simpl. by rewrite (proj2 (Nat.ltb_ge _ _)), (proj2 (Nat.ltb_lt _ _)) by lia. }
  rewrite (param_at_segment indices _ N ModeNameOnly); [|done|].
  2: { intros i n t d Hi. simpl. by rewrite !(proj2 (Nat.ltb_ge _ _)) by lia. }
  rewrite <-!list_fmap_compose.
  apply f_equal2; [by apply list_fmap_ext|]. apply f_equal2; [by apply list_fmap_ext|].
  apply f_equal2; [|apply f_equal2; [by apply list_fmap_ext|]].
  - unfold pS. destruct (DefParams.args indices); [by destruct HS as (_ & ? & ? & ? & ->)|by subst S].
  - unfold pK. destruct (DefParams.kwargs indices); [by destruct HK as (_ & ? & ? & ? & ->)|by subst K].
Qed.

Lemma to_ty_params_ok indices l :
  described indices l → (Z.of_nat (length l) ≤ u32_max)%Z → length l ≤ om_max (M:=M) →
  to_ty_params hash_of (M:=M) any_ty as_ty (mkCompiled l indices) = Ok (mkParamSpec (params_at indices l) indices).
Proof.
  intros Hds Hu Hmax. destruct (described_parts _ _ Hds) as (A & B & S & N & K & Hl & HA & HB & nA & nB & nN & HS & HK).
  assert (length S = count_star (DefParams.args indices) ∧ length K = count_star (DefParams.kwargs indices)) as [lS lK].
  { split; [destruct (DefParams.args indices) as [a|]; [destruct HS as (_ & s & n & t & ->)|subst S]|
      destruct (DefParams.kwargs indices) as [k|]; [destruct HK as (_ & s & n & t & ->)|subst K]]; done. }
  assert (length l = length A + length B + length S + length N + length K) as Hlen
    by (rewrite Hl, !length_app; lia).
  unfold to_ty_params. cbn [compiled_params compiled_indices].
  assert (∀ o (part : list (Spanned (ParameterCompiled TC T))),
    match o with None => part = [] | Some i => ∃ q, part = [q] ∧ l !! i = Some q end →
    match o with None => Ok None
    | Some i => p ← (q ← unwrap (l !! i); Ok (node q)); Ok (Some (pty p)) end =
    Ok (E:=Empty_set) (star_part part)) as Hstar.
  { intros [i|] part; [|by intros ->]. intros (q & -> & Hq). by rewrite Hq. }
  rewrite (Hstar (DefParams.args indices) S), (Hstar (DefParams.kwargs indices) K).
  2: { destruct (DefParams.kwargs indices) as [k|]; [|done]. destruct HK as (Hk & s & n & t & ->).
    eexists. split; [done|]. rewrite Hl, !app_assoc, lookup_app_r by (rewrite !length_app; simpl in *; lia).
    by replace (k - _) with 0 by (rewrite !length_app; simpl in *; lia). }
  2: { destruct (DefParams.args indices) as [k|]; [|done]. destruct HS as (-> & s & n & t & ->).
    eexists. split; [done|]. rewrite Hl, app_assoc, lookup_app_r by (rewrite !length_app; simpl in *; lia).
    by replace (_ - _) with 0 by (rewrite !length_app; simpl in *; lia). }
  unfold pos_only, pos_or_named, named_only.
  rewrite (mapM_positions unnamed_part l [] A (B ++ S ++ N ++ K)) by done.
  rewrite (mapM_positions named_part l A B (S ++ N ++ K) (num_positional_only indices) (num_positional indices)) by done.
  cbn [mbind result_bind]. rewrite (mapM_positions named_part l (A ++ B ++ S) N K).
  - cbn [mbind result_bind]. pose proof (new_parts_of_parts indices A B S N K) as Hnew.
    cbn zeta in Hnew. rewrite <-Hl in Hnew. by rewrite Hnew.
  - by rewrite Hl, <-!app_assoc.
  - rewrite !length_app. destruct (DefParams.args indices); simpl in lS; [destruct HS as [-> _]|]; lia.
  - rewrite !length_app. destruct (DefParams.kwargs indices); simpl in *; [destruct HK as [? _]; lia|].
    rewrite Z.mod_small, Nat2Z.id by (unfold u32_max in Hu; lia). lia.
Qed.
End to_ty.

(** * The same function at run time *)

Section agreement.
Context (hash_of : text → StarlarkHashValue) {V TT Ty : Type} `{HashTableOk (Symbol * nat) TT}.
Implicit Types (tp : ParamSpec Ty) (ps : ParametersSpec TT V) (D : gmap text nat).
Abbreviation npo ps := (num_positional_only (ParamSpec.indices ps)).
Abbreviation npos ps := (num_positional (ParamSpec.indices ps)).
Abbreviation args_of ps := (DefParams.args (ParamSpec.indices ps)).
Abbreviation kwargs_of ps := (DefParams.kwargs (ParamSpec.indices ps)).

Definition required_agrees (r : ParamIsRequired) ps (i : nat) : Prop :=
  ∃ k, param_kinds ps !! i = Some k ∧ is_star_kind k = false ∧ (r = IsRequired ↔ k = RequiredKind).

(** Both describe the same parameters. *)
Record agrees tp ps : Prop := {
  ag_length : length (spec_params tp) = length (param_kinds ps);
  ag_mode i p : spec_params tp !! i = Some p →
    match mode p with
    | ModePosOnly r => i < npo ps ∧ required_agrees r ps i
    | ModePosOrName x r => npo ps ≤ i < npos ps ∧ ParamSpec.param_names ps !! i = Some x ∧ required_agrees r ps i
    | ModeNameOnly x r => npos ps ≤ i ∧ ParamSpec.param_names ps !! i = Some x ∧ required_agrees r ps i
    | ModeArgs => args_of ps = Some i
    | ModeKwargs => kwargs_of ps = Some i ∧ i + 1 = length (param_kinds ps)
    end;
}.

Lemma params_at_agrees {TC T} (any_ty : Ty) (as_ty : TC → Ty) (cps : list (Spanned (ParameterCompiled TC T)))
    indices (vs : list V) ps :
  described indices cps → length vs = length (defaults cps) →
  ParamSpec.param_names ps = (kinds_from vs cps).*1 → param_kinds ps = (kinds_from vs cps).*2 →
  ParamSpec.indices ps = indices →
  agrees (mkParamSpec (params_at any_ty as_ty indices cps) indices) ps.
Proof.
  intros Hds Hlen Hn Hk Hi. pose proof Hds as [Hle _ Hpl _ _ _]. split; simpl.
  - unfold params_at. by rewrite length_imap, Hk, length_fmap, length_kinds_from.
  - intros i p Hp. unfold params_at in Hp. rewrite list_lookup_imap in Hp.
    apply fmap_Some in Hp as (q & Hq & ->). pose proof (lookup_lt_Some _ _ _ Hq) as Hlt.
    destruct (kinds_from vs cps !! i) as [[x k]|] eqn:Hkx.
    2: { apply lookup_ge_None in Hkx. rewrite length_kinds_from in Hkx by done. lia. }
    rewrite Hn, Hk, Hi, !list_lookup_fmap, Hkx. simpl. specialize (Hpl i q Hq).
    apply kinds_from_lookup in Hkx as Hkx'. destruct Hkx' as (q' & Hq' & Hkq).
    rewrite Hq in Hq'. injection Hq' as <-. unfold param_at, mode_at, required_agrees. simpl.
    destruct (node q) as [n t d|n t|n t]; simpl in *.
    + destruct Hkq as (-> & Hstar & Hreq). rewrite Hk, list_lookup_fmap, Hkx. simpl.
      assert ((match d with None => IsRequired | Some _ => IsOptional end = IsRequired) ↔ k = RequiredKind) as Hr.
      { rewrite Hreq. by destruct d. }
      destruct (Nat.ltb_spec i (num_positional_only indices)); [eauto 10|].
      destruct (Nat.ltb_spec i (num_positional indices)); split_and!; eauto 10.
    + apply Hpl.
    + rewrite length_fmap, length_kinds_from by done. split; apply Hpl.
Qed.

Context tp ps D (Hps : spec_ok hash_of ps D) (Hag : agrees tp ps).

(** Where arguments go. *)
Definition position_target (k : nat) : option nat := if k <? npos ps then Some k else args_of ps.
Definition name_target (x : text) : option nat :=
  match D !! x with Some i => Some i | None => kwargs_of ps end.

Lemma mode_star i p :
  spec_params tp !! i = Some p →
  (mode p = ModeArgs ↔ args_of ps = Some i) ∧ (mode p = ModeKwargs ↔ kwargs_of ps = Some i).
Proof using Hps Hag.
  intros Hp. pose proof (ag_mode _ _ Hag i p Hp) as Hm.
  rewrite <-(ok_args _ _ _ Hps i), <-(ok_kwargs _ _ _ Hps i).
  assert (∀ r, required_agrees r ps i → param_kinds ps !! i ≠ Some ArgsKind ∧ param_kinds ps !! i ≠ Some KWargsKind) as Hr.
  { intros r (k & -> & Hstar & _). split; intros [= ->]; done. }
  destruct (mode p) as [r|x r|x r| |].
  - destruct Hm as [_ Hm%Hr]. split; split; [done|tauto|done|tauto].
  - destruct Hm as (_ & _ & Hm%Hr). split; split; [done|tauto|done|tauto].
  - destruct Hm as (_ & _ & Hm%Hr). split; split; [done|tauto|done|tauto].
  - apply (ok_args _ _ _ Hps) in Hm. rewrite Hm. by split.
  - destruct Hm as [Hm _]. apply (ok_kwargs _ _ _ Hps) in Hm. rewrite Hm. by split.
Qed.

Lemma param_exists i : i < length (param_kinds ps) → is_Some (spec_params tp !! i).
Proof using Hag. intros Hi. apply lookup_lt_is_Some. rewrite (ag_length _ _ Hag). done. Qed.

Lemma star_lt i : args_of ps = Some i ∨ kwargs_of ps = Some i → i < length (param_kinds ps).
Proof using Hps.
  intros [Hi%(ok_args _ _ _ Hps)|Hi%(ok_kwargs _ _ _ Hps)]; by eapply lookup_lt_Some.
Qed.

Lemma takes_name_target x : find_index (takes_name x) (spec_params tp) = name_target x.
Proof using Hps Hag.
  assert (∀ j p, spec_params tp !! j = Some p → takes_name x p = true →
    D !! x = Some j ∨ kwargs_of ps = Some j ∧ j + 1 = length (param_kinds ps)) as Htakes.
  { intros j p Hp Ht. unfold takes_name in Ht. pose proof (ag_mode _ _ Hag j p Hp) as Hm.
    rewrite orb_true_iff, !bool_decide_eq_true in Ht. unfold param_name in Ht.
    pose proof (ok_pos_only _ _ _ Hps) as Hle.
    destruct (mode p) as [r|y r|y r| |]; [by destruct Ht| | |by destruct Ht|by right].
    - destruct Ht as [[= ->]|]; [|done]. destruct Hm as (Hi & Hn & k & Hk & Hs & _). left.
      apply (ok_directory _ _ _ Hps). split_and!; [lia|done|eauto].
    - destruct Ht as [[= ->]|]; [|done]. destruct Hm as (Hi & Hn & k & Hk & Hs & _). left.
      apply (ok_directory _ _ _ Hps). split_and!; [lia|done|eauto]. }
  assert (∀ i p, spec_params tp !! i = Some p → name_target x = Some i → takes_name x p = true) as Htarget.
  { intros i p Hp. unfold name_target, takes_name. rewrite orb_true_iff, !bool_decide_eq_true.
    destruct (D !! x) as [j|] eqn:HD; [intros [= ->]; left|intros Hk; right; by apply (mode_star i p Hp)].
    apply (ok_directory _ _ _ Hps) in HD as (Hi & Hn & k & Hk & Hs).
    pose proof (ag_mode _ _ Hag i p Hp) as Hm. destruct (mode_star i p Hp) as [Ha Hkw].
    unfold param_name. destruct (mode p) as [r|y r|y r| |].
    - lia.
    - destruct Hm as (_ & Hy & _). congruence.
    - destruct Hm as (_ & Hy & _). congruence.
    - apply (ok_args _ _ _ Hps) in Hm. rewrite Hk in Hm. by simplify_eq.
    - destruct Hm as [Hm _]. apply (ok_kwargs _ _ _ Hps) in Hm. rewrite Hk in Hm. by simplify_eq. }
  destruct (name_target x) as [i|] eqn:Hx.
  - assert (i < length (param_kinds ps)) as Hi.
    { unfold name_target in Hx. destruct (D !! x) eqn:HD; simplify_eq; [by eapply spec_directory|].
      apply star_lt. auto. }
    apply find_index_Some. destruct (param_exists i Hi) as [p Hp]. split; [eauto|].
    intros j q Hj Hq. destruct (takes_name x q) eqn:Ht; [|done].
    destruct (Htakes j q Hq Ht) as [HD|[Hk Hlast]]; [|lia]. unfold name_target in Hx. rewrite HD in Hx.
    simplify_eq. lia.
  - apply find_index_None. intros j q Hq. destruct (takes_name x q) eqn:Ht; [|done].
    unfold name_target in Hx. destruct (Htakes j q Hq Ht) as [HD|[Hk _]]; [by rewrite HD in Hx|].
    destruct (D !! x); congruence.
Qed.

Lemma next_positional_named pp :
  npos ps ≤ pp → (∀ a, args_of ps = Some a → pp ≤ a) →
  next_positional (drop pp (spec_params tp)) pp = (λ a, (a, a)) <$> args_of ps.
Proof using Hps Hag.
  intros Hpp Ha. remember (length (spec_params tp) - pp) as n eqn:Hn. revert pp Hpp Ha Hn.
  induction n as [|n IH]; intros pp Hpp Ha Hn.
  - rewrite drop_ge by lia. simpl. destruct (args_of ps) as [a|] eqn:Hargs; [|done].
    pose proof (star_lt a (or_introl Hargs)). rewrite <-(ag_length _ _ Hag) in *. specialize (Ha a eq_refl). lia.
  - destruct (lookup_lt_is_Some_2 (spec_params tp) pp) as [p Hp]; [lia|].
    rewrite (drop_S _ _ _ Hp). simpl. destruct (mode_star pp p Hp) as [Hm _].
    pose proof (ag_mode _ _ Hag pp p Hp) as Hmode. pose proof (ok_pos_only _ _ _ Hps) as Hle.
    unfold allows_pos. destruct (mode p) as [r|x r|x r| |] eqn:Hp'; simpl.
    + lia.
    + lia.
    + rewrite Nat.add_1_r. apply IH; [lia| |lia]. intros a Hargs. specialize (Ha a Hargs).
      destruct (decide (a = pp)) as [->|]; [|lia]. by apply Hm in Hargs.
    + by rewrite Hmode.
    + rewrite Nat.add_1_r. apply IH; [lia| |lia]. intros a Hargs. specialize (Ha a Hargs).
      destruct (decide (a = pp)) as [->|]; [|lia]. by apply Hm in Hargs.
Qed.

Lemma next_positional_at pp :
  pp < npos ps → next_positional (drop pp (spec_params tp)) pp = Some (pp, pp + 1).
Proof using Hps Hag.
  intros Hpp. destruct (ok_positional _ _ _ Hps pp Hpp) as (k & Hk & Hs).
  destruct (param_exists pp) as [p Hp]; [by eapply lookup_lt_Some|]. rewrite (drop_S _ _ _ Hp). simpl.
  pose proof (ag_mode _ _ Hag pp p Hp) as Hm. unfold allows_pos.
  destruct (mode p) as [r|x r|x r| |]; simpl.
  - done.
  - done.
  - lia.
  - apply (ok_args _ _ _ Hps) in Hm. rewrite Hk in Hm. by simplify_eq.
  - destruct Hm as [Hm _]. apply (ok_kwargs _ _ _ Hps) in Hm. rewrite Hk in Hm. by simplify_eq.
Qed.

(** ** Placing arguments *)

Definition get_args (pa : list (list (Spanned Ty))) (i : nat) : list (Spanned Ty) := default [] (pa !! i).
(** The arguments that go to parameter [i]: of positional ones from the [k]-th on, and of named ones. *)
Fixpoint at_position (k : nat) (tys : list (Spanned Ty)) (i : nat) : list (Spanned Ty) :=
  match tys with
  | [] => []
  | t :: tys => (if decide (position_target k = Some i) then [t] else []) ++ at_position (k + 1) tys i
  end.
Fixpoint at_name (named : list (Spanned (text * Ty))) (i : nat) : list (Spanned Ty) :=
  match named with
  | [] => []
  | arg :: named =>
    (if decide (name_target (node arg).1 = Some i) then [mkSpanned (span arg) (node arg).2] else []) ++
    at_name named i
  end.

Context {IE : Type} (intersects : Ty → Ty → result IE bool).

Lemma push_arg_ok pa i (t : Spanned Ty) :
  i < length pa →
  returns (push_arg (IE:=IE) pa i t) (λ pa', length pa' = length pa ∧ ∀ j,
    get_args pa' j = get_args pa j ++ if decide (Some i = Some j) then [t] else []).
Proof.
  intros Hi. unfold push_arg. destruct (lookup_lt_is_Some_2 pa i Hi) as [old Ho]. rewrite Ho.
  apply returns_ret. split; [apply length_insert|]. intros j. unfold get_args.
  destruct (decide (j = i)) as [->|Hne].
  - rewrite list_lookup_insert_eq, Ho, decide_True by done. done.
  - rewrite list_lookup_insert_ne, decide_False by congruence. by rewrite app_nil_r.
Qed.

Lemma place_positional_ok tys k pp pa :
  (k ≤ npos ps ∧ pp = k) ∨ (npos ps < k ∧ args_of ps = Some pp) → length pa = length (param_kinds ps) →
  match place_positional (IE:=IE) (spec_params tp) tys pp pa with
  | Ok pa' => (k + length tys ≤ npos ps ∨ args_of ps ≠ None) ∧ length pa' = length pa ∧
      ∀ i, get_args pa' i = get_args pa i ++ at_position k tys i
  | Err _ => ¬ (k + length tys ≤ npos ps ∨ args_of ps ≠ None)
  | Fault _ => False
  end.
Proof using Hps Hag.
  revert k pp pa. induction tys as [|t tys IH]; intros k pp pa Hpp Hlen; simpl.
  { split_and!; [|done|intros i; by rewrite app_nil_r]. destruct Hpp as [[? _]|[_ Ha]]; [left; lia|right; congruence]. }
  assert (∀ a, args_of ps = Some a → npos ps ≤ a ∧ a < length (param_kinds ps)) as Hstar.
  { intros a Ha. split; [|apply star_lt; auto]. apply (ok_args _ _ _ Hps) in Ha.
    by apply (spec_star_slot hash_of ps D Hps a _ Ha). }
  assert (next_positional (drop pp (spec_params tp)) pp =
    (λ i, (i, if k <? npos ps then k + 1 else i)) <$> position_target k) as ->.
  { unfold position_target. destruct (Nat.ltb_spec k (npos ps)) as [Hk|Hk].
    - destruct Hpp as [[_ ->]|[? _]]; [|lia]. by rewrite next_positional_at.
    - rewrite next_positional_named; [done|..].
      + destruct Hpp as [[? ->]|[_ Ha]]; [lia|by apply Hstar].
      + intros a Ha. destruct Hpp as [[? ->]|[_ Ha']]; [|simplify_eq; lia]. apply Hstar in Ha. lia. }
  destruct (position_target k) as [i|] eqn:Htarget; simpl.
  - assert (i < length pa) as Hi.
    { rewrite Hlen. unfold position_target in Htarget. destruct (Nat.ltb_spec k (npos ps)); [|by apply Hstar].
      simplify_eq. eapply Nat.lt_le_trans; [done|]. by eapply spec_positional_le. }
    destruct (push_arg_ok pa i t Hi) as (pa1 & Hp & Hl1 & Hg1). rewrite Hp. cbn [mbind result_bind].
    specialize (IH (k + 1) (if k <? npos ps then k + 1 else i) pa1). rewrite Hl1 in IH.
    replace (k + S (length tys)) with (k + 1 + length tys) by lia.
    destruct (place_positional (spec_params tp) tys _ pa1) as [pa'|e|f].
    + destruct IH as (Hfit & Hl' & Hg); [|done|].
      { unfold position_target in Htarget. destruct (Nat.ltb_spec k (npos ps)); [left; lia|right; split; [lia|done]]. }
      split_and!; [done|done|]. intros j. by rewrite Hg, Hg1, app_assoc.
    + apply IH; [|done]. unfold position_target in Htarget.
      destruct (Nat.ltb_spec k (npos ps)); [left; lia|right; split; [lia|done]].
    + apply IH; [|done]. unfold position_target in Htarget.
      destruct (Nat.ltb_spec k (npos ps)); [left; lia|right; split; [lia|done]].
  - unfold position_target in Htarget. destruct (Nat.ltb_spec k (npos ps)); [done|].
    intros [?|?]; [lia|done].
Qed.

Lemma place_named_ok named pa :
  length pa = length (param_kinds ps) →
  match place_named (IE:=IE) (spec_params tp) named pa with
  | Ok pa' => (∀ arg, arg ∈ named → name_target (node arg).1 ≠ None) ∧ length pa' = length pa ∧
      ∀ i, get_args pa' i = get_args pa i ++ at_name named i
  | Err _ => ¬ ∀ arg, arg ∈ named → name_target (node arg).1 ≠ None
  | Fault _ => False
  end.
Proof using Hps Hag.
  revert pa. induction named as [|[s [x t]] named IH]; intros pa Hlen; simpl.
  { split_and!; [by intros ? ?%elem_of_nil|done|intros i; by rewrite app_nil_r]. }
  rewrite takes_name_target. destruct (name_target x) as [i|] eqn:Hx.
  - assert (i < length pa) as Hi.
    { rewrite Hlen. unfold name_target in Hx. destruct (D !! x) eqn:HD; simplify_eq; [by eapply spec_directory|].
      apply star_lt. auto. }
    destruct (push_arg_ok pa i (mkSpanned s t) Hi) as (pa1 & Hp & Hl1 & Hg1). rewrite Hp. cbn [mbind result_bind].
    specialize (IH pa1). rewrite Hl1 in IH. specialize (IH Hlen).
    assert ((∀ arg, arg ∈ mkSpanned s (x, t) :: named → name_target (node arg).1 ≠ None) ↔
      (∀ arg, arg ∈ named → name_target (node arg).1 ≠ None)) as Hcons.
    { setoid_rewrite elem_of_cons. split; [eauto|]. intros Hn arg [->|Harg]; [|eauto]. simpl. congruence. }
    destruct (place_named (spec_params tp) named pa1) as [pa'|e|f]; [|by rewrite Hcons|done].
    destruct IH as (Hall & Hl' & Hg). rewrite Hcons. split_and!; [done|done|].
    intros j. by rewrite Hg, Hg1, app_assoc.
  - intros Hall. by destruct (Hall (mkSpanned s (x, t))); [left|].
Qed.

Lemma elem_at_position k tys i t :
  t ∈ at_position k tys i ↔ ∃ j, tys !! j = Some t ∧ position_target (k + j) = Some i.
Proof.
  revert k. induction tys as [|u tys IH]; intros k; simpl.
  { split; [by intros ?%elem_of_nil|by intros (j & ? & _)]. }
  rewrite elem_of_app, IH. split.
  - intros [Ht|(j & Hj & Htgt)].
    + case_decide as Hd; [apply list_elem_of_singleton in Ht as ->|by apply elem_of_nil in Ht].
      exists 0. by rewrite Nat.add_0_r.
    + exists (S j). split; [done|]. by rewrite <-Htgt; f_equal; lia.
  - intros ([|j] & Hj & Htgt); simpl in Hj.
    + left. simplify_eq. rewrite Nat.add_0_r in Htgt. rewrite decide_True by done. by left.
    + right. exists j. split; [done|]. rewrite <-Htgt. f_equal. lia.
Qed.

Lemma elem_at_name named i t :
  t ∈ at_name named i ↔ ∃ arg, arg ∈ named ∧ name_target (node arg).1 = Some i ∧ t = mkSpanned (span arg) (node arg).2.
Proof.
  induction named as [|arg named IH]; simpl.
  { split; [by intros ?%elem_of_nil|by intros (arg & ?%elem_of_nil & _)]. }
  rewrite elem_of_app, IH. setoid_rewrite elem_of_cons. split.
  - intros [Ht|(a & Ha & Hn & ->)]; [|eauto 10].
    case_decide; [apply list_elem_of_singleton in Ht as ->; eauto 10|by apply elem_of_nil in Ht].
  - intros (a & [->|Ha] & Hn & ->); [left; rewrite decide_True by done; by left|right; eauto].
Qed.

(** A parameter other than [*args] and [**kwargs] takes one positional argument at most. *)
Lemma at_position_regular k tys i :
  i < length (param_kinds ps) → args_of ps ≠ Some i → k ≤ i →
  at_position k tys i = if i <? npos ps then option_list (tys !! (i - k)) else [].
Proof using Hps.
  intros Hi Ha. revert k. induction tys as [|t tys IH]; intros k Hk; simpl; [by destruct (i <? npos ps)|].
  destruct (decide (k = i)) as [->|Hne].
  - rewrite Nat.sub_diag. simpl. assert (at_position (i + 1) tys i = []) as ->.
    { destruct (at_position (i + 1) tys i) as [|u us] eqn:Hu; [done|].
      assert (u ∈ at_position (i + 1) tys i) as (j & _ & Hj)%elem_at_position by (rewrite Hu; by left).
      unfold position_target in Hj. destruct (i + 1 + j <? npos ps); [injection Hj as Hj; lia|done]. }
    rewrite app_nil_r. unfold position_target. destruct (i <? npos ps); [by rewrite decide_True|].
    by rewrite decide_False.
  - rewrite IH by lia. rewrite decide_False.
    + replace (i - k) with (S (i - (k + 1))) by lia. done.
    + unfold position_target. destruct (k <? npos ps); [congruence|done].
Qed.

(** Distinct names fill a parameter once. *)
Lemma at_name_short named i :
  NoDup ((λ arg, (node arg).1) <$> named) → kwargs_of ps ≠ Some i → length (at_name named i) ≤ 1.
Proof using Hps.
  intros Hnd Hk. induction named as [|arg named IH]; csimpl in *; [lia|].
  apply NoDup_cons in Hnd as [Hn Hnd]. case_decide as Hd; [|by apply IH]. simpl.
  destruct (at_name named i) as [|t ts] eqn:Ht; [simpl; lia|].
  assert (t ∈ at_name named i) as (a & Ha & Hai & _)%elem_at_name by (rewrite Ht; by left).
  unfold name_target in Hd, Hai. destruct (D !! (node arg).1) as [j|] eqn:Hj; [|done].
  destruct (D !! (node a).1) as [j'|] eqn:Hj'; [|done]. simplify_eq. destruct Hn.
  rewrite (spec_injective hash_of ps D Hps _ _ _ Hj Hj'). apply list_elem_of_fmap. eauto.
Qed.

Lemma validate_params_ok star call (l : list (Param Ty * list (Spanned Ty))) :
  validate_params intersects star call l = Ok () ↔
  ∀ p ts, (p, ts) ∈ l → validate_param intersects star call p ts = Ok ().
Proof.
  induction l as [|[p ts] l IH]; simpl; [split; [by intros _ p ts ?%elem_of_nil|done]|].
  setoid_rewrite elem_of_cons. split.
  - intros (u & Hu & Hl)%bind_Ok q us [[= -> ->]|Hin]; [by destruct u|]. by apply IH.
  - intros Hall. rewrite (Hall p ts) by auto. simpl. apply IH. eauto.
Qed.

Definition compatible (t : Spanned Ty) (p : Param Ty) : Prop := intersects (node t) (ty p) = Ok true.

Lemma validate_type_ok t r : validate_type intersects t r = Ok () ↔ intersects (node t) r = Ok true.
Proof. unfold validate_type. by destruct (intersects (node t) r) as [[]|?|?]. Qed.

Lemma validate_each_ok ts r :
  validate_each intersects ts r = Ok () ↔ ∀ t, t ∈ ts → intersects (node t) r = Ok true.
Proof.
  induction ts as [|t ts IH]; simpl; [split; [by intros _ t ?%elem_of_nil|done]|].
  setoid_rewrite elem_of_cons. split.
  - intros (u & Hu & Hl)%bind_Ok v [->|Hin]; [apply validate_type_ok; by destruct u|]. by apply IH.
  - intros Hall. rewrite (proj2 (validate_type_ok t r)) by auto. simpl. apply IH. eauto.
Qed.

Definition is_required_mode (m : ParamMode) : bool :=
  match m with
  | ModePosOnly IsRequired | ModePosOrName _ IsRequired | ModeNameOnly _ IsRequired => true
  | _ => false
  end.
Definition is_star_mode (m : ParamMode) : bool := match m with ModeArgs | ModeKwargs => true | _ => false end.

Lemma validate_param_ok star call p ts :
  validate_param intersects star call p ts = Ok () ↔
  (∀ t, t ∈ ts → compatible t p) ∧
  (is_star_mode (mode p) = false → length ts ≤ 1 ∧
    (is_required_mode (mode p) = true → star = false → ts ≠ [])).
Proof.
  unfold validate_param, compatible. destruct (mode p) as [r|x r|x r| |]; simpl.
  4-5: rewrite validate_each_ok; split; [by intros ?; split|by intros [? _]].
  all: assert (∀ u v : Spanned Ty, v ∈ [u] → v = u) as Hone by (intros u v Hv; by apply list_elem_of_singleton in Hv).
  all: assert (∀ v : Spanned Ty, v ∈ [] → False) as Hnil by (intros v; apply not_elem_of_nil).
  all: destruct ts as [|t [|u ts]]; simpl; rewrite ?validate_type_ok.
  all: try (split; [done|intros [_ Hlen]; destruct (Hlen eq_refl) as [? _]; lia]).
  all: try (split; [intros Ht; split; [by intros v ->%Hone|intros _; by split]|intros [Ht _]; apply Ht; by left]).
  all: destruct r, star; simpl; split; try done.
  all: try (intros _; split; [by intros v ?%Hnil|intros _; split; [lia|done]]).
  all: intros [_ Hreq]; destruct (Hreq eq_refl) as [_ Hne]; by destruct (Hne eq_refl eq_refl).
Qed.

(** ** The whole check *)

Definition starred (args : TyCallArgs Ty) : bool :=
  match ty_args args, ty_kwargs args with None, None => false | _, _ => true end.
Definition names_of (args : TyCallArgs Ty) : list text := (λ a, (node a).1) <$> ty_named args.

(** The arguments fit the parameters; with [*] or [**] in the call, required parameters may be
    left to them. *)
Definition call_fits (star : bool) (n : nat) (ns : list text) : Prop :=
  (n ≤ npos ps ∨ args_of ps ≠ None) ∧
  (∀ x, x ∈ ns → match D !! x with Some i => filled ps n ≤ i | None => kwargs_of ps ≠ None end) ∧
  (star = false → ∀ i, param_kinds ps !! i = Some RequiredKind →
    i < filled ps n ∨ ∃ x, x ∈ ns ∧ D !! x = Some i).

Lemma call_fits_bindable n ns : NoDup ns → call_fits false n ns ↔ bindable D ps n ns = true.
Proof.
  intros Hnd. rewrite bindable_spec. unfold call_fits.
  split; [intros (? & ? & Hr)|intros (? & ? & ? & Hr)]; split_and!; auto.
Qed.

(** Every argument has a type that its parameter takes. *)
Definition types_fit (args : TyCallArgs Ty) : Prop :=
  (∀ k t i p, ty_pos args !! k = Some t → position_target k = Some i → spec_params tp !! i = Some p →
    intersects (node t) (ty p) = Ok true) ∧
  (∀ arg i p, arg ∈ ty_named args → name_target (node arg).1 = Some i → spec_params tp !! i = Some p →
    intersects (node arg).2 (ty p) = Ok true).

Definition args_for (args : TyCallArgs Ty) (i : nat) : list (Spanned Ty) :=
  at_position 0 (ty_pos args) i ++ at_name (ty_named args) i.

Lemma types_fit_compatible args :
  types_fit args ↔ ∀ i p t, spec_params tp !! i = Some p → t ∈ args_for args i → compatible t p.
Proof.
  unfold types_fit, args_for, compatible. split.
  - intros [Hpos Hname] i p t Hp [(k & Hk & Ht)%elem_at_position|(a & Ha & Ht & ->)%elem_at_name]%elem_of_app; eauto.
  - intros Hall. split.
    + intros k t i p Hk Ht Hp. apply (Hall i p t Hp), elem_of_app. left. apply elem_at_position. eauto.
    + intros a i p Ha Ht Hp. apply (Hall i p (mkSpanned (span a) (node a).2) Hp), elem_of_app. right.
      apply elem_at_name. eauto.
Qed.

Lemma regular_param i p :
  spec_params tp !! i = Some p → is_star_mode (mode p) = false →
  i < length (param_kinds ps) ∧ args_of ps ≠ Some i ∧ kwargs_of ps ≠ Some i ∧
  (is_required_mode (mode p) = true ↔ param_kinds ps !! i = Some RequiredKind).
Proof using Hps Hag.
  intros Hp Hs. destruct (mode_star i p Hp) as [Ha Hk]. split_and!.
  - rewrite <-(ag_length _ _ Hag). by eapply lookup_lt_Some.
  - intros Hi%Ha. by rewrite Hi in Hs.
  - intros Hi%Hk. by rewrite Hi in Hs.
  - pose proof (ag_mode _ _ Hag i p Hp) as Hm.
    assert (∀ r, required_agrees r ps i → r = IsRequired ↔ param_kinds ps !! i = Some RequiredKind) as Hr.
    { intros r (k & -> & _ & ->). split; congruence. }
    destruct (mode p) as [r|x r|x r| |]; try done; simpl.
    + destruct Hm as [_ Hm%Hr]. rewrite <-Hm. by destruct r.
    + destruct Hm as (_ & _ & Hm%Hr). rewrite <-Hm. by destruct r.
    + destruct Hm as (_ & _ & Hm%Hr). rewrite <-Hm. by destruct r.
Qed.

(** One parameter that is not a star: how many arguments it has. *)
Lemma args_for_regular args i :
  NoDup (names_of args) → i < length (param_kinds ps) → args_of ps ≠ Some i → kwargs_of ps ≠ Some i →
  (i < filled ps (length (ty_pos args)) ↔ at_position 0 (ty_pos args) i ≠ []) ∧
  length (at_position 0 (ty_pos args) i) ≤ 1 ∧ length (at_name (ty_named args) i) ≤ 1 ∧
  (at_name (ty_named args) i ≠ [] ↔ ∃ x, x ∈ names_of args ∧ D !! x = Some i).
Proof using Hps.
  intros Hnd Hi Ha Hk. rewrite (at_position_regular 0 (ty_pos args) i Hi Ha ltac:(lia)), Nat.sub_0_r.
  unfold filled. split_and!.
  - destruct (Nat.ltb_spec i (npos ps)); [|split; [lia|done]].
    destruct (ty_pos args !! i) as [t|] eqn:Ht; simpl.
    + apply lookup_lt_Some in Ht. split; [done|lia].
    + apply lookup_ge_None in Ht. split; [lia|done].
  - destruct (i <? npos ps); [|simpl; lia]. destruct (ty_pos args !! i); simpl; lia.
  - by apply at_name_short.
  - split.
    + destruct (at_name (ty_named args) i) as [|t ts] eqn:Ht; [done|]. intros _.
      assert (t ∈ at_name (ty_named args) i) as (a & Hin & Hai & _)%elem_at_name by (rewrite Ht; by left).
      exists (node a).1. split; [apply list_elem_of_fmap; eauto|].
      unfold name_target in Hai. by destruct (D !! (node a).1).
    + intros (x & (a & -> & Hin)%list_elem_of_fmap & HD) Hnil.
      assert (mkSpanned (span a) (node a).2 ∈ at_name (ty_named args) i) as Helem.
      { apply elem_at_name. exists a. split_and!; [done| |done]. unfold name_target. by rewrite HD. }
      rewrite Hnil in Helem. by apply elem_of_nil in Helem.
Qed.

Lemma regular_kind i k :
  param_kinds ps !! i = Some k → is_star_kind k = false →
  ∃ p, spec_params tp !! i = Some p ∧ is_star_mode (mode p) = false ∧ args_of ps ≠ Some i ∧ kwargs_of ps ≠ Some i.
Proof using Hps Hag.
  intros Hk Hs. destruct (param_exists i) as [p Hp]; [by eapply lookup_lt_Some|].
  assert (args_of ps ≠ Some i ∧ kwargs_of ps ≠ Some i) as [Ha Hkw].
  { split; intros Ho; [apply (ok_args _ _ _ Hps) in Ho|apply (ok_kwargs _ _ _ Hps) in Ho]; by simplify_eq. }
  exists p. split_and!; [done| |done|done]. destruct (mode_star i p Hp). destruct (mode p); tauto.
Qed.

(** What the check of each parameter says of the call. *)
Lemma params_fit args call :
  NoDup (names_of args) → (∀ x, x ∈ names_of args → name_target x ≠ None) →
  (length (ty_pos args) ≤ npos ps ∨ args_of ps ≠ None) →
  (∀ i p, spec_params tp !! i = Some p → validate_param intersects (starred args) call p (args_for args i) = Ok ()) →
  call_fits (starred args) (length (ty_pos args)) (names_of args).
Proof using Hps Hag.
  intros Hnd Hnames Hfit Hall. split_and!; [done|..].
  - intros x Hx. destruct (D !! x) as [i|] eqn:HD.
    2: { specialize (Hnames x Hx). unfold name_target in Hnames. by rewrite HD in Hnames. }
    apply Nat.le_ngt. intros Hlt.
    pose proof HD as (_ & _ & k & Hk & Hstar)%(ok_directory _ _ _ Hps).
    destruct (regular_kind i k Hk Hstar) as (p & Hp & Hsm & Ha & Hkw).
    destruct (args_for_regular args i Hnd (lookup_lt_Some _ _ _ Hk) Ha Hkw) as (H1 & _ & _ & H2).
    apply H1 in Hlt. assert (at_name (ty_named args) i ≠ []) as Hne by (apply H2; eauto).
    specialize (Hall i p Hp). apply validate_param_ok in Hall as [_ Hs].
    destruct (Hs Hsm) as [Hlen _]. unfold args_for in Hlen. rewrite length_app in Hlen.
    destruct (at_position 0 (ty_pos args) i), (at_name (ty_named args) i); simpl in Hlen; try done; lia.
  - intros Hst i Hreq. destruct (regular_kind i _ Hreq eq_refl) as (p & Hp & Hsm & Ha & Hkw).
    specialize (Hall i p Hp). apply validate_param_ok in Hall as [_ Hs]. destruct (Hs Hsm) as [_ Hne].
    destruct (regular_param i p Hp Hsm) as (_ & _ & _ & Hrm).
    destruct (args_for_regular args i Hnd (lookup_lt_Some _ _ _ Hreq) Ha Hkw) as (H1 & _ & _ & H2).
    specialize (Hne (proj2 Hrm Hreq) Hst). unfold args_for in Hne.
    destruct (decide (at_position 0 (ty_pos args) i = [])) as [Hnil|Hnn]; [right|left; by apply H1].
    apply H2. by rewrite Hnil in Hne.
Qed.

Lemma fit_params args call :
  NoDup (names_of args) → call_fits (starred args) (length (ty_pos args)) (names_of args) → types_fit args →
  ∀ i p, spec_params tp !! i = Some p → validate_param intersects (starred args) call p (args_for args i) = Ok ().
Proof using Hps Hag.
  intros Hnd (_ & Hns & Hreq) Hty i p Hp. apply validate_param_ok.
  split; [intros t; by apply (proj1 (types_fit_compatible args) Hty i p)|]. intros Hsm.
  destruct (regular_param i p Hp Hsm) as (Hi & Ha & Hkw & Hrm).
  destruct (args_for_regular args i Hnd Hi Ha Hkw) as (H1 & Hl1 & Hl2 & H2). unfold args_for. split.
  - destruct (decide (at_name (ty_named args) i = [])) as [->|Hne]; [by rewrite app_nil_r|].
    apply H2 in Hne as (x & Hx & HD). specialize (Hns x Hx). rewrite HD in Hns.
    destruct (decide (at_position 0 (ty_pos args) i = [])) as [->|Hnp]; [done|]. apply H1 in Hnp. lia.
  - intros Hr Hst Hnil. apply app_eq_nil in Hnil as [Hn1 Hn2].
    destruct (Hreq Hst i (proj1 Hrm Hr)) as [Hlt|Hx]; [by apply H1 in Hlt|by apply H2 in Hx].
Qed.

(** The final loop over the parameters with their arguments. *)
Lemma elem_of_zip_args (pa : list (list (Spanned Ty))) (f : nat → list (Spanned Ty)) (P : Param Ty → list (Spanned Ty) → Prop) :
  length pa = length (spec_params tp) → (∀ i, get_args pa i = f i) →
  (∀ p ts, (p, ts) ∈ zip (spec_params tp) pa → P p ts) ↔ (∀ i p, spec_params tp !! i = Some p → P p (f i)).
Proof.
  intros Hlen Hf. split.
  - intros Hall i p Hp. apply Hall, list_elem_of_lookup. exists i. rewrite lookup_zip_with, Hp.
    destruct (lookup_lt_is_Some_2 pa i) as [ts Hts]; [apply lookup_lt_Some in Hp; lia|].
    specialize (Hf i). unfold get_args in Hf. rewrite Hts in Hf |- *. simpl in *. by rewrite Hf.
  - intros Hall p ts (i & Hi)%list_elem_of_lookup. rewrite lookup_zip_with in Hi.
    apply bind_Some in Hi as (q & Hq & (us & Hus & [= <- <-])%bind_Some).
    specialize (Hf i). unfold get_args in Hf. rewrite Hus in Hf. simpl in Hf. rewrite Hf. by apply Hall.
Qed.

Lemma validate_args_ok args call :
  NoDup (names_of args) →
  validate_args intersects tp args call = Ok () ↔
  call_fits (starred args) (length (ty_pos args)) (names_of args) ∧ types_fit args.
Proof using Hps Hag.
  intros Hnd. unfold validate_args. fold (starred args). pose proof (ag_length _ _ Hag) as Hlen.
  pose proof (place_positional_ok (ty_pos args) 0 0 (replicate (length (spec_params tp)) [])
    ltac:(left; lia) ltac:(by rewrite length_replicate)) as Hp.
  destruct (place_positional _ _ _ _) as [pa|e|f]; cbn [mbind result_bind]; [| |done].
  2: { split; [done|]. intros [(Hfit & _) _]. by destruct Hp. }
  destruct Hp as (Hfit & Hl1 & Hg1). rewrite length_replicate in Hl1.
  pose proof (place_named_ok (ty_named args) pa ltac:(lia)) as Hn.
  assert ((∀ arg, arg ∈ ty_named args → name_target (node arg).1 ≠ None) ↔
    ∀ x, x ∈ names_of args → name_target x ≠ None) as Hnames.
  { unfold names_of. setoid_rewrite list_elem_of_fmap. split; [|eauto]. intros Hall x (a & -> & Ha). eauto. }
  destruct (place_named _ _ _) as [pa'|e|f]; cbn [mbind result_bind]; [| |done].
  2: { split; [done|]. intros [(_ & Hns & _) _]. destruct Hn. apply Hnames. intros x Hx.
    specialize (Hns x Hx). unfold name_target. by destruct (D !! x). }
  destruct Hn as (Hns & Hl2 & Hg2). rewrite Hnames in Hns. rewrite validate_params_ok, (elem_of_zip_args pa' (args_for args)); [|lia|].
  2: { intros i. rewrite Hg2, Hg1. unfold get_args at 1. unfold args_for.
    destruct (_ !! i) eqn:Hi; [|done]. by apply lookup_replicate_1 in Hi as [-> _]. }
  split.
  - intros Hall. split; [by eapply params_fit|]. apply types_fit_compatible. intros i p t Hp.
    specialize (Hall i p Hp). apply validate_param_ok in Hall as [Ht _]. apply Ht.
  - intros [Hcall Hty]. by apply fit_params.
Qed.
End agreement.

(** ** The check has a result *)

Section total.
Context {Ty IE : Type} (intersects : Ty → Ty → result IE bool).
Context (Htotal : ∀ a b f, intersects a b ≠ Fault f).

Lemma validate_type_total t r f : validate_type intersects t r ≠ Fault f.
Proof using Htotal.
  unfold validate_type. destruct (intersects (node t) r) as [[]|e|f'] eqn:He; try done. by apply Htotal in He.
Qed.
Lemma validate_each_total ts r f : validate_each intersects ts r ≠ Fault f.
Proof using Htotal.
  induction ts as [|t ts IH]; simpl; [done|].
  destruct (validate_type intersects t r) eqn:Ht; simpl; [done|done|]. by apply validate_type_total in Ht.
Qed.
Lemma validate_params_total star call (l : list (Param Ty * list (Spanned Ty))) f :
  validate_params intersects star call l ≠ Fault f.
Proof using Htotal.
  induction l as [|[p ts] l IH]; simpl; [done|].
  destruct (validate_param intersects star call p ts) eqn:Hp; simpl; [done|done|]. exfalso.
  unfold validate_param in Hp. destruct (mode p); try (by apply validate_each_total in Hp).
  all: destruct ts as [|t [|]]; try done; try (by apply validate_type_total in Hp).
  all: by destruct (bool_decide _ && _).
Qed.
End total.

(** * Properties *)

Section properties.
Context {Cs Ty TC E T X IE : Type} `{EqDecision Ty}.
Context (from_ty : Ty → TC) (is_runtime_wildcard : TC → bool).
Context (check_types : bool) (expr : Cs → E → result X (T * Cs)) (binding : list byte → bool).
Context (hash_of : text → StarlarkHashValue) {V TT MS : Type} `{HashTableOk (Symbol * nat) TT}.
Context `{!OrdMap text () MS, !OrdMapOk text () MS hash_of}.
Context (any_ty : Ty) (as_ty : TC → Ty) (check_type : TC → V → text → result X ()).
Context (intersects : Ty → Ty → result IE bool).

(** What a [def] statement makes: the parameters compiled, their defaults numbered, and the
    function's parameter list. *)
Definition makes (ps : list (Spanned (ParameterP (TypeExpr Ty) E))) (c : Cs) (f : text) (vs : list V)
    (params : ParametersCompiled TC T) (spec : ParametersSpec TT V) : Prop :=
  ∃ d cps c' first ws code types, DefParams_unpack ps = Ok d ∧
    parameters from_ty is_runtime_wildcard check_types expr binding c (DefParams.params d) = Ok (cps, c') ∧
    params = mkCompiled cps (DefParams.indices d) ∧
    write_bc first params = Ok (ws, code) ∧ length vs = length ws ∧
    InstrDef_run hash_of check_type f code vs = Ok (spec, types) ∧
    Forall short_str ((λ p, param_ident (node p)) <$> DefParams.params d).

Lemma makes_agree ps c f vs params spec :
  (Z.of_nat (length ps) ≤ i32_max)%Z → (N.of_nat (length ps) ≤ ht_max)%N → length ps ≤ om_max (M:=MS) →
  makes ps c f vs params spec →
  ∃ tp D, to_ty_params hash_of (M:=MS) any_ty as_ty params = Ok tp ∧ agrees tp spec ∧ spec_ok hash_of spec D.
Proof.
  intros Hi32 Hht Hmax (d & cps & c' & first & ws & code & types & Hun & Hpar & -> & Hw & Hlen & Hrun & Hsh).
  pose proof (unpack_layout ps Hi32) as Hl. rewrite Hun in Hl. destruct Hl as (L & Hwf & -> & ->).
  apply parameters_ok, all_compiled_each in Hpar as Hqs. simpl in *. pose proof (Forall2_length _ _ _ Hqs) as Hcps.
  pose proof (length_params_of L) as Hle. pose proof (described_layout _ _ _ _ L cps Hwf Hqs) as Hds.
  assert (length (defaults cps) ≤ length cps) as Hd by apply length_defaults.
  rewrite write_bc_ok in Hw by (simpl; unfold i32_max, u32_max in *; lia). injection Hw as <- <-.
  simpl in Hlen, Hrun. rewrite length_zip_with, length_seq, Nat.min_id in Hlen.
  destruct (InstrDef_run_ok hash_of check_type (indices_of L) f cps vs Hds) as (spec' & D & Hrun' & Hok & _ & Hn & Hk & Hi).
  { by rewrite (compiled_names _ _ _ _ _ _ Hqs). }
  { unfold i32_max, u32_max in *. lia. }
  { lia. }
  { done. }
  rewrite Hrun' in Hrun. apply bind_Ok in Hrun as (_ & _ & [= <- _]).
  eexists _, D. split_and!; [|by eapply params_at_agrees|done].
  apply (to_ty_params_ok hash_of any_ty as_ty); [done|unfold i32_max, u32_max in *; lia|lia].
Qed.

(** the type of a [def]. Computing the type of the function from its compiled parameters
    never panics, in particular not on a name given twice, and the type describes the
    parameters of the function that is made at run time: the same positions, the same names
    and the same parameters are required. *)
Theorem to_ty_params_agrees ps c f vs params spec :
  (Z.of_nat (length ps) ≤ i32_max)%Z → (N.of_nat (length ps) ≤ ht_max)%N → length ps ≤ om_max (M:=MS) →
  makes ps c f vs params spec →
  returns (to_ty_params hash_of (M:=MS) any_ty as_ty params) (λ tp, agrees tp spec).
Proof.
  intros Hi32 Hht Hmax Hmakes. destruct (makes_agree ps c f vs params spec Hi32 Hht Hmax Hmakes) as (tp & D & Htp & Hag & _).
  by exists tp.
Qed.

(** C27: the check of a call against a function's type. When the type describes the parameters
    that the interpreter binds, a call without [*] and [**] is accepted exactly when its
    arguments can be bound and each has a type that its parameter takes; a call with them is
    accepted when only required parameters are missing. The check always has a result. *)
Theorem arg_check_decides (tp : ParamSpec Ty) (ps : ParametersSpec TT V) D args call :
  spec_ok hash_of ps D → agrees tp ps → NoDup (names_of args) → (∀ a b f, intersects a b ≠ Fault f) →
  (validate_args intersects tp args call = Ok () ↔
    (if starred args then call_fits ps D true (length (ty_pos args)) (names_of args)
     else bindable D ps (length (ty_pos args)) (names_of args) = true) ∧
    types_fit tp ps D intersects args) ∧
  ∀ f, validate_args intersects tp args call ≠ Fault f.
Proof.
  intros Hps Hag Hnd Htotal. split.
  - rewrite (validate_args_ok hash_of tp ps D Hps Hag) by done. destruct (starred args); [done|].
    by rewrite call_fits_bindable.
  - intros f. unfold validate_args.
    pose proof (place_positional_ok hash_of tp ps D Hps Hag (IE:=IE) (ty_pos args) 0 0
      (replicate (length (spec_params tp)) []) ltac:(left; lia)
      ltac:(rewrite length_replicate; apply (ag_length _ _ Hag))) as Hp.
    destruct (place_positional _ _ _ _) as [pa|e|f']; cbn [mbind result_bind]; [|done..].
    destruct Hp as (_ & Hl & _). rewrite length_replicate in Hl.
    pose proof (place_named_ok hash_of tp ps D Hps Hag (IE:=IE) (ty_named args) pa) as Hn.
    rewrite Hl, (ag_length _ _ Hag) in Hn. specialize (Hn eq_refl).
    destruct (place_named _ _ _) as [pa'|e|f']; cbn [mbind result_bind]; [|done..].
    by apply validate_params_total.
Qed.

Context {M S : Type} `{!Values V, !ValuesOk V hash_of}.
Context `{!OrdMap (list byte) V M, !OrdMapOk (list byte) V M hash_of} `{!ArgSymbol TT V S}.

(** C25: a call that the type checker accepts does not fail to bind. For a function made by a
    [def] and a call without [*] and [**] whose argument types the checker has accepted
    against the function's type, binding that many positional arguments and those names at
    run time succeeds, whatever the values. *)
Theorem checked_call_binds ps c f vs params spec tp targs call :
  (Z.of_nat (length ps) ≤ i32_max)%Z → (N.of_nat (length ps) ≤ ht_max)%N → length ps ≤ om_max (M:=MS) →
  12 ≤ om_max (M:=M) →
  makes ps c f vs params spec → to_ty_params hash_of (M:=MS) any_ty as_ty params = Ok tp →
  NoDup (names_of targs) → starred targs = false → validate_args intersects tp targs call = Ok () →
  ∃ D, spec_ok hash_of spec D ∧ ∀ (args : ArgumentsFull S V) kws slots,
    call_ok hash_of (M:=M) D spec args kws → kws.*1 = names_of targs →
    length (arg_pos args) = length (ty_pos targs) → arg_args args = None → arg_kwargs args = None →
    slots_ready spec slots → is_ok (collect_inline (M:=M) spec args slots) = true.
Proof.
  intros Hi32 Hht Hmax Hm12 Hmakes Htp Hnd Hstar Hval.
  destruct (makes_agree ps c f vs params spec Hi32 Hht Hmax Hmakes) as (tp' & D & Htp' & Hag & Hps).
  rewrite Htp in Htp'. injection Htp' as <-. exists D. split; [done|].
  intros args kws slots Hc Hkws Hpos Hargs Hkwargs Hready.
  destruct (proj1 (validate_args_ok hash_of tp spec D Hps Hag intersects targs call Hnd) Hval) as [Hfit _].
  rewrite Hstar in Hfit. apply call_fits_bindable in Hfit; [|done].
  rewrite (collect_inline_slow hash_of spec D Hps) by (done || apply Hc).
  pose proof (collect_slow_ok hash_of spec D Hps Hm12 args kws slots Hc Hready) as Hb.
  destruct (collect_slow spec args slots) as [slots'|e|?]; simpl in Hb; [done| |done].
  apply explains_unbindable in Hb. destruct Hb. exists (arg_pos args), kws. split_and!.
  - unfold positional_args. by rewrite Hargs.
  - rewrite (keyword_args_ok hash_of spec D args kws [] []); [by rewrite app_nil_r|done|..]; by rewrite ?Hkwargs.
  - by rewrite Hkws, Hpos.
Qed.
End properties.

(** * A concrete call *)

(** The declaration of [DefSpec.v]; types are numbers, [0] being the type of everything. *)
#[local] Existing Instance witness_values.
#[local] Existing Instance witness_values_ok.
#[local] Existing Instance witness_kwargs.
#[local] Existing Instance witness_kwargs_ok.
#[local] Existing Instance stable_toolchain.
#[local] Existing Instance size_hash_value.
#[local] Instance size_text_unit : SizeOf (text * ()) := {| size_of := 16; align_of := 8 |}%Z.
#[local] Instance size_text_unit_entry : SizeOf (text * () * StarlarkHashValue) :=
  {| size_of := 24; align_of := 8 |}%Z.
Definition Seen : Type := SmallMap (list_table nat) text ().
Lemma witness_seen_fits : fits (text * ()) StarlarkHashValue (6 * kwargs_capacity + 25).
Proof.
  split; [unfold usize_max, u64_max; simpl; lia|]. intros c Hc. unfold alloc_ok, Vec2Layout_new_checked,
    Layout_array, Layout_from_size_align, Layout_extend. simpl in Hc.
  do 98 (destruct c as [|c]; [vm_compute; by eexists|]). lia.
Defined.
#[local] Instance witness_seen : OrdMap text () Seen := small_map_ord_map.
#[local] Instance witness_seen_ok : OrdMapOk text () Seen witness_text_hash :=
  small_map_ord_map_ok witness_text_hash kwargs_capacity witness_seen_fits ltac:(by vm_compute).

Definition witness_intersects (a b : Z) : result Empty_set bool :=
  Ok ((a =? 0)%Z || (b =? 0)%Z || (a =? b)%Z).
Definition witness_params : ParametersCompiled Z Z :=
  mkCompiled witness_compiled (DefParams.indices witness_unpacked).
Definition witness_makes : Prop :=
  makes (TT:=list_table (Symbol * nat)) (λ t : Z, t) (λ _, false) true (λ (c : ()) e, Ok (e, c))
    (λ x, bool_decide (x = name_of 98)) witness_text_hash witness_check witness_declaration () (name_of 102)
    [VNum 1; VNum 2] witness_params witness_function.
Lemma witness_made : witness_makes.
Proof.
  exists witness_unpacked, witness_compiled, (), 10, [(1%Z, 10); (2%Z, 11)],
    (mkCompiled (number 0 witness_compiled) (DefParams.indices witness_unpacked)), (types_from 0 witness_compiled).
  do 6 (split; [by vm_compute|]).
  repeat (apply Forall_cons; split; [by apply short_ok|]). by apply Forall_nil.
Qed.
Definition witness_type : ParamSpec Z :=
  mkParamSpec (params_at 0%Z (λ t, t) (DefParams.indices witness_unpacked) witness_compiled)
    (DefParams.indices witness_unpacked).

(** [f(_, _, _, c = _, z = _)]. *)
Abbreviation at_call := (mkSpanned (mkSpan 2 3)).
Definition witness_types : TyCallArgs Z :=
  mkTyCallArgs [at_call 7%Z; at_call 1%Z; at_call 2%Z] [at_call (name_of 99, 7%Z); at_call (name_of 122, 3%Z)] None None.

Lemma to_ty_params_agrees_witness :
  to_ty_params witness_text_hash (M:=Seen) 0%Z (λ t, t) witness_params = Ok witness_type ∧
  returns (to_ty_params witness_text_hash (M:=Seen) 0%Z (λ t, t) witness_params) (λ tp, agrees tp witness_function).
Proof.
  split; [by vm_compute|].
  apply (to_ty_params_agrees (λ t : Z, t) (λ _, false) true (λ (c : ()) e, Ok (e, c))
    (λ x, bool_decide (x = name_of 98)) witness_text_hash 0%Z (λ t, t) witness_check
    witness_declaration () (name_of 102) [VNum 1; VNum 2]).
  - by vm_compute.
  - by vm_compute.
  - by apply (bool_decide_unpack (6 ≤ 12)).
  - exact witness_made.
Defined.

Lemma arg_check_decides_witness :
  validate_args witness_intersects witness_type witness_types (mkSpan 0 9) = Ok () ∧
  ∃ D, bindable D witness_function 3 (names_of witness_types) = true.
Proof.
  assert (validate_args witness_intersects witness_type witness_types (mkSpan 0 9) = Ok ()) as Heq by by vm_compute.
  split; [exact Heq|].
  destruct (makes_agree (MS:=Seen) (λ t : Z, t) (λ _, false) true (λ (c : ()) e, Ok (e, c))
    (λ x, bool_decide (x = name_of 98)) witness_text_hash 0%Z (λ t, t) witness_check
    witness_declaration () (name_of 102) [VNum 1; VNum 2] witness_params witness_function)
    as (tp & D & Htp & Hag & Hps); [by vm_compute|by vm_compute|by apply (bool_decide_unpack (6 ≤ 12))|exact witness_made|].
  exists D. assert (tp = witness_type) as ->.
  { assert (to_ty_params witness_text_hash (M:=Seen) 0%Z (λ t, t) witness_params = Ok witness_type) as Heq' by by vm_compute.
    rewrite Heq' in Htp. by injection Htp. }
  apply (arg_check_decides witness_text_hash witness_intersects witness_type witness_function D witness_types
    (mkSpan 0 9) Hps Hag).
  - apply (bool_decide_unpack (NoDup [[99]; [122]]%Z)). vm_compute. exact I.
  - done.
  - exact Heq.
Defined.

Lemma checked_call_binds_witness :
  is_ok (collect_inline (M:=Kwargs) witness_function witness_call (replicate 7 None)) = true.
Proof.
  destruct (checked_call_binds (S:=Symbol) (MS:=Seen) (M:=Kwargs) (λ t : Z, t) (λ _, false) true (λ (c : ()) e, Ok (e, c))
    (λ x, bool_decide (x = name_of 98)) witness_text_hash 0%Z (λ t, t) witness_check witness_intersects
    witness_declaration () (name_of 102) [VNum 1; VNum 2] witness_params witness_function witness_type witness_types
    (mkSpan 0 9)) as (D & HD & Hbind).
  - by vm_compute.
  - by vm_compute.
  - by apply (bool_decide_unpack (6 ≤ 12)).
  - by apply (bool_decide_unpack (12 ≤ 12)).
  - exact witness_made.
  - by vm_compute.
  - apply (bool_decide_unpack (NoDup [[99]; [122]]%Z)). vm_compute. exact I.
  - done.
  - by vm_compute.
  - apply (Hbind witness_call [(name_of 99, VNum 3); (name_of 122, VNum 4)]); [|done..|].
    + split.
      * repeat constructor; apply (named_arg_symbol _ _ _ HD); by apply short_ok.
      * apply (bool_decide_unpack (NoDup [[99]; [122]]%Z)). vm_compute. exact I.
      * done.
      * by apply (bool_decide_unpack (2 < 12)).
    + split; [simpl; lia|]. intros i Hi. apply lookup_replicate_2. simpl in Hi. lia.
Defined.
