(* ===== verification/Arguments.v ===== *)
(** [starlark/src/eval/runtime/arguments.rs]: the operations on a call's arguments that native
    functions use: unpacking keyword arguments into a map, counting arguments, and taking a
    fixed number of positional ones. *)

From S2P Require Import Prelude Vec2 Hashing TableMap VecMap SmallMap SmallMapSpec SmallSet FastString.
From S2P Require Import Symbol DefParams OrdMap SmallMapOps ParamSpec CallBinding CallCollect CallProps.

(** * The code *)

(** [FunctionError], an error of the value that is iterated or measured, or the [value_error!]
    for a repeated name. *)
Inductive ArgumentsError :=
| Function (e : FunctionError)
| NotIterable
| NoLength
| RepeatedValue (name : list byte).
Abbreviation res A := (result ArgumentsError A).

Section arguments.
(** [Value::length]. *)
Context {V M : Type} `{!Values V} `{!OrdMap (list byte) V M}.
Context (value_length : V → option Z).
(** [Arguments] names its arguments by symbols. *)
Implicit Types args : ArgumentsFull Symbol V.

Definition unpack_kwargs args : res (option (list (Hashed V * V))) :=
  match arg_kwargs args with
  | None => Ok None
  | Some kwargs =>
    match dict_of_value kwargs with
    | None => Err (Function KwArgsIsNotDict)
    | Some x => Ok (Some x)
    end
  end.

Definition unpack_kwargs_key_as_value (k : V) : res StarlarkStr :=
  match string_of_value k with
  | None => Err (Function ArgsValueIsNotString)
  | Some k => Ok k
  end.
Definition unpack_kwargs_key (k : V) : res (list byte) :=
  s ← unpack_kwargs_key_as_value k; lift (as_str s).

(** [DictRef::downcast_ref_key_string]: the entries, when all keys are strings. *)
Fixpoint downcast_ref_key_string (l : list (Hashed V * V)) : comp (option (list (list byte * V))) :=
  match l with
  | [] => Ok (Some [])
  | (k, v) :: l =>
    match string_of_value (key k) with
    | None => Ok None
    | Some s =>
      x ← as_str s;
      o ← downcast_ref_key_string l;
      Ok (option_map (cons (x, v)) o)
    end
  end.

(** The loops of [names_map] over named arguments and over [**kwargs]. *)
Fixpoint insert_names (result : M) (l : list (Symbol * StarlarkStr * V)) : comp M :=
  match l with
  | [] => Ok result
  | (k, name, v) :: l =>
    key ← text_key (mkHashed (small_hash k) name);
    result ← om_insert_unique result key v;
    insert_names result l
  end.
Fixpoint insert_kwargs (result : M) (l : list (Hashed V * V)) : res M :=
  match l with
  | [] => Ok result
  | (k, v) :: l =>
    s ← unpack_kwargs_key_as_value (key k);
    key ← lift (text_key (mkHashed (hash k) s));
    '(old, result) ← lift (om_insert result key v);
    if negb (is_none old) then name ← lift (as_str s); Err (Function (RepeatedArg name))
    else insert_kwargs result l
  end.

(** The entries of the map that [names_map] returns. *)
Definition names_map args : res (list (list byte * V)) :=
  kwargs ← unpack_kwargs args;
  match kwargs with
  | None =>
    result ← lift (om_with_capacity (length (arg_names args)));
    result ← lift (insert_names result (zip (arg_names args) (arg_named args)));
    lift (om_entries result)
  | Some kwargs =>
    match arg_names args with
    | [] =>
      o ← lift (downcast_ref_key_string kwargs);
      match o with
      | Some kwargs => Ok kwargs
      | None => Err (Function ArgsValueIsNotString)
      end
    | _ :: _ =>
      result ← lift (om_with_capacity (length (arg_names args) + length kwargs));
      result ← lift (insert_names result (zip (arg_names args) (arg_named args)));
      result ← insert_kwargs result kwargs;
      lift (om_entries result)
    end
  end.

(** [as usize] of an [i32]. *)
Definition usize_of_i32 (z : Z) : Z := as_u64 z.
Definition arguments_len args : res Z :=
  args_len ← match arg_args args with
             | None => Ok 0%Z
             | Some v => z ← ok_or (value_length v) NoLength; Ok (usize_of_i32 z)
             end;
  kwargs ← unpack_kwargs args;
  let kwargs_len := match kwargs with None => 0 | Some v => length v end in
  let n := (Z.of_nat (length (arg_pos args) + length (arg_named args)) + args_len + Z.of_nat kwargs_len)%Z in
  if (n <=? usize_max)%Z then Ok n else Panic.

Definition positions args : res (list V) :=
  tail ← match arg_args args with
         | None => Ok []
         | Some args => ok_or (iterate args) NotIterable
         end;
  Ok (arg_pos args ++ tail).

(** [for (a, b) in optional.iter_mut().zip(xs)]. *)
Definition fill_optional (n : nat) (xs : list V) : list (option V) := fill_slots xs (replicate n None).

Definition rare (REQUIRED OPTIONAL : nat) args : res (list V * list (option V)) :=
  xs ← positions args;
  if (REQUIRED <=? length xs) && (length xs <=? REQUIRED + OPTIONAL)
  then Ok (take REQUIRED xs, fill_optional OPTIONAL (drop REQUIRED xs))
  else Err (Function (WrongNumberOfArgs REQUIRED (REQUIRED + OPTIONAL) (length xs))).
Definition optional_args (REQUIRED OPTIONAL : nat) args : res (list V * list (option V)) :=
  if is_none (arg_args args) && (REQUIRED <=? length (arg_pos args)) &&
     (length (arg_pos args) <=? REQUIRED + OPTIONAL)
  then Ok (take REQUIRED (arg_pos args), fill_optional OPTIONAL (drop REQUIRED (arg_pos args)))
  else rare REQUIRED OPTIONAL args.
Definition positional_n (N : nat) args : res (list V) :=
  '(positional, _) ← optional_args N 0 args; Ok positional.
Definition no_positional_args args : res () := _ ← positional_n 0 args; Ok ().
Definition positional1 args : res V :=
  xs ← positional_n 1 args; unwrap (xs !! 0).
Definition optional1 args : res (option V) :=
  '(_, xs) ← optional_args 0 1 args; unwrap (xs !! 0).

Fixpoint extra_keys (l : list (Hashed V * V)) : res (list (list byte)) :=
  match l with
  | [] => Ok []
  | (k, _) :: l => x ← unpack_kwargs_key (key k); xs ← extra_keys l; Ok (x :: xs)
  end.
Fixpoint symbol_texts (l : list Symbol) : comp (list (list byte)) :=
  match l with
  | [] => Ok []
  | s :: l => x ← Symbol_as_str s; xs ← symbol_texts l; Ok (x :: xs)
  end.
(** ["function"]. *)
Definition function_text : list byte := [0x66; 0x75; 0x6E; 0x63; 0x74; 0x69; 0x6F; 0x6E]%Z.
Definition no_named_args args : res () :=
  if (length (arg_named args) =? 0) && is_none (arg_kwargs args) then Ok () else
  extra ← lift (symbol_texts (arg_names args).*1);
  kwargs ← unpack_kwargs args;
  more ← match kwargs with None => Ok [] | Some kwargs => extra_keys kwargs end;
  let extra := extra ++ more in
  match extra with
  | [] => Ok ()
  | _ => Err (Function (ExtraNamedArg extra function_text))
  end.
End arguments.

(** [ArgNames::new_check_unique]. *)
Section check_unique.
Context {V S TT T : Type} `{!ArgSymbol TT V S} `{Toolchain} `{HashTable nat T}.
Context `{SizeOf (list byte * unit), SizeOf StarlarkHashValue, SizeOf (list byte * unit * StarlarkHashValue)}.
Fixpoint check_unique_loop (set : SmallSet T (list byte)) (names : list (S * StarlarkStr)) : res () :=
  match names with
  | [] => Ok ()
  | (s, name) :: names =>
    x ← lift (as_str name);
    '(new, set) ← lift (SmallSet_insert_hashed set (mkHashed (arg_small_hash (TT:=TT) (V:=V) s) x));
    if negb new then Err (RepeatedValue x) else check_unique_loop set names
  end.
Definition new_check_unique (names : list (S * StarlarkStr)) : res (list (S * StarlarkStr)) :=
  set ← lift (SmallSet_with_capacity (length names));
  _ ← check_unique_loop set names;
  Ok names.
End check_unique.

(** * Positional arguments *)

Section positional.
Context {V S : Type} `{!Values V}.
Implicit Types (args : ArgumentsFull Symbol V) (xs : list V).

Lemma positions_ok args :
  positions args = match positional_args args with Some xs => Ok xs | None => Err NotIterable end.
Proof.
  unfold positions, positional_args. destruct (arg_args args) as [v|]; simpl.
  - by destruct (iterate v).
  - by rewrite app_nil_r.
Qed.

Lemma fill_optional_ok n xs :
  length xs ≤ n → fill_optional n xs = (Some <$> xs) ++ replicate (n - length xs) None.
Proof.
  intros Hn. unfold fill_optional. rewrite fill_slots_ok by by rewrite length_replicate.
  unfold write_from. simpl. by rewrite drop_replicate.
Qed.

(** taking [required] positional arguments and up to [optional] more counts those in
    [*args] too, whether or not the fast path applies: the required ones come first, then
    the others, then [None]; the error gives the bounds and the number there is. *)
Theorem optional_positional required optional args :
  match optional_args required optional args with
  | Ok (r, o) => ∃ xs, positional_args args = Some xs ∧ required ≤ length xs ≤ required + optional ∧
      r = take required xs ∧ length r = required ∧ length o = optional ∧
      o = (Some <$> drop required xs) ++ replicate (required + optional - length xs) None
  | Err NotIterable => positional_args args = None
  | Err (Function (WrongNumberOfArgs min max got)) => ∃ xs, positional_args args = Some xs ∧
      min = required ∧ max = required + optional ∧ got = length xs ∧ ¬ min ≤ got ≤ max
  | _ => False
  end.
Proof.
  assert (∀ xs, positional_args args = Some xs → required ≤ length xs ≤ required + optional →
    ∃ xs', positional_args args = Some xs' ∧ required ≤ length xs' ≤ required + optional ∧
      take required xs = take required xs' ∧ length (take required xs) = required ∧
      length (fill_optional optional (drop required xs)) = optional ∧
      fill_optional optional (drop required xs) =
        (Some <$> drop required xs') ++ replicate (required + optional - length xs') None) as Hok.
  { intros xs Hxs Hb. exists xs. rewrite fill_optional_ok by (rewrite length_drop; lia).
    rewrite length_take, length_app, length_fmap, length_drop, length_replicate.
    split_and!; try done; try lia. do 2 f_equal. lia. }
  unfold optional_args. destruct (is_none (arg_args args) && _ && _) eqn:Hfast.
  - bool_to_prop. apply Hok; [|by rewrite <-!Nat.leb_le].
    unfold positional_args. by destruct (arg_args args).
  - unfold rare. rewrite positions_ok. destruct (positional_args args) as [xs|] eqn:Hxs; simpl; [|done].
    destruct (Nat.leb_spec required (length xs)), (Nat.leb_spec (length xs) (required + optional)); simpl.
    + by apply Hok.
    + exists xs. split_and!; try done. lia.
    + exists xs. split_and!; try done. lia.
    + exists xs. split_and!; try done. lia.
Qed.

Lemma positional_n_ok n args :
  match positional_n n args with
  | Ok xs => positional_args args = Some xs ∧ length xs = n
  | Err _ => ∀ xs, positional_args args = Some xs → length xs ≠ n
  | Fault _ => False
  end.
Proof.
  unfold positional_n, optional_args. rewrite !Nat.add_0_r.
  destruct (is_none (arg_args args) && _ && _) eqn:Hfast; [bool_to_prop|unfold rare; rewrite positions_ok].
  - assert (length (arg_pos args) = n) as Hn
      by (apply Nat.le_antisymm; by apply Nat.leb_le). simpl. rewrite take_ge by lia.
    split; [|done]. unfold positional_args. by destruct (arg_args args).
  - destruct (positional_args args) as [xs|]; simpl; [|done]. rewrite Nat.add_0_r.
    destruct (Nat.leb_spec n (length xs)), (Nat.leb_spec (length xs) n); simpl;
      try (intros xs' [= <-]; lia).
    rewrite take_ge by lia. split; [done|lia].
Qed.

Lemma positional1_ok args :
  match positional1 args with
  | Ok x => positional_args args = Some [x]
  | Err _ => ∀ x, positional_args args ≠ Some [x]
  | Fault _ => False
  end.
Proof.
  unfold positional1. pose proof (positional_n_ok 1 args) as Hp.
  destruct (positional_n 1 args) as [xs|e|f]; simpl; [|intros x Hx; by apply (Hp _ Hx)|done].
  by destruct Hp as [Hxs Hl]; destruct xs as [|x [|]].
Qed.
End positional.

(** * Keyword arguments *)

Section keywords.
Context (hash_of : text → StarlarkHashValue).
Context {V M : Type} `{!Values V, !ValuesOk V hash_of}.
Context `{!OrdMap (list byte) V M, !OrdMapOk (list byte) V M hash_of}.
Implicit Types (args : ArgumentsFull Symbol V) (kws : list (text * V)).

(** The symbols and strings of the names agree. *)
Definition symbol_arg (nv : Symbol * StarlarkStr * V) (kv : text * V) : Prop :=
  nv.2 = kv.2 ∧ nv.1.1 = symbol_of hash_of kv.1 ∧ ∃ h, nv.1.2 = string_of h kv.1.

Record names_ok args kws : Prop := {
  names_symbols : Forall2 symbol_arg (zip (arg_names args) (arg_named args)) kws;
  names_distinct : NoDup kws.*1;
  names_length : length (arg_named args) = length (arg_names args);
  names_room : length (arg_names args) + length (default [] (dict_entries (arg_kwargs args))) < om_max (M:=M);
  names_dict_distinct es : mapM dict_entry (default [] (dict_entries (arg_kwargs args))) = Some es → NoDup es.*1;
}.

Lemma insert_names_ok l kws done (m : M) :
  Forall2 symbol_arg l kws → NoDup (done ++ kws).*1 → om_models m done →
  length (done ++ kws) ≤ om_max (M:=M) →
  returns (insert_names m l) (λ m', om_models m' (done ++ kws)).
Proof.
  intros Hl. revert done m. induction Hl as [|[[s sv] v] [x w] l kws (Hv & Hs & h & Hsv) Hl IH];
    intros done m Hnd Hm Hlen; simpl in *.
  { apply returns_ret. by rewrite app_nil_r. }
  subst v s sv. change (small_hash (symbol_of hash_of x)) with (hash_of x). rewrite text_key_ok. cbn [mbind result_bind].
  replace (done ++ (x, w) :: kws) with ((done ++ [(x, w)]) ++ kws) in * by (by rewrite <-app_assoc).
  step_with om_insert_unique_ok; [done| | |].
  { rewrite !fmap_app, <-app_assoc in Hnd. apply NoDup_app in Hnd as (_ & Hno & _).
    intros Hin. apply (Hno x Hin). by left. }
  { rewrite !length_app in Hlen. simpl in Hlen. lia. }
  intros m' Hm'. by apply (IH (done ++ [(x, w)])).
Qed.

Lemma insert_kwargs_ok es kws (m : M) :
  Forall (string_entry hash_of) es → om_models m kws → NoDup kws.*1 →
  length kws + length es ≤ om_max (M:=M) →
  match insert_kwargs m es with
  | Ok m' => ∃ kws', mapM dict_entry es = Some kws' ∧ NoDup (kws ++ kws').*1 ∧ om_models m' (kws ++ kws')
  | Err (Function (RepeatedArg x)) => repeated x (kws ++ omap dict_entry es).*1
  | Err (Function ArgsValueIsNotString) => ∃ k v, (k, v) ∈ es ∧ string_of_value (key k) = None
  | _ => False
  end.
Proof.
  intros Hes. revert kws m. induction Hes as [|[k v] es Hk Hes IH]; intros kws m Hm Hnd Hlen; simpl.
  { exists []. by rewrite app_nil_r. }
  unfold unpack_kwargs_key_as_value at 1.
  destruct (string_of_value (key k)) as [s|] eqn:Hs; simpl; [|exists k, v; split; [by left|done]].
  destruct (Hk s Hs) as (h & x & -> & Hx & Hh). simpl in Hh. rewrite Hh, text_key_ok.
  cbn [lift mbind result_bind].
  assert (dict_entry (k, v) = Some (x, v)) as Hentry.
  { unfold dict_entry, text_of, as_str, string_of. simpl. rewrite Hs. simpl. by rewrite as_str_ok. }
  simpl in Hlen. destruct (om_insert_ok m kws x v Hm ltac:(lia)) as ([old m'] & -> & -> & Hm').
  cbn [lift mbind result_bind]. rewrite Hentry. unfold al_get, al_insert in *.
  destruct (key_index x kws) as [i|] eqn:Hi.
  - pose proof (key_index_lt _ _ _ Hi) as [kv Hkv]%lookup_lt_is_Some. simpl. rewrite Hkv. simpl.
    assert (as_str (string_of h x) = Ok x) as -> by apply as_str_ok. simpl.
    rewrite fmap_app. csimpl. apply repeated_intro. apply dec_stable. by rewrite <-key_index_None, Hi.
  - cbn [is_none negb mbind option_bind]. apply key_index_None in Hi.
    assert (NoDup (kws ++ [(x, v)]).*1) as Hnd'.
    { rewrite fmap_app. apply NoDup_app. split_and!; [done| |apply NoDup_singleton].
      by intros y Hy ->%list_elem_of_singleton. }
    specialize (IH _ m' Hm' Hnd' ltac:(rewrite length_app; simpl; lia)).
    destruct (insert_kwargs m' es) as [m''|e|f]; [| |done].
    + destruct IH as (kws' & -> & Hnd'' & Hm''). exists ((x, v) :: kws'). rewrite <-app_assoc in *. done.
    + destruct e as [[]| | |]; try done.
      * by rewrite <-app_assoc in IH.
      * destruct IH as (k' & v' & Hin & Hs'). exists k', v'. split; [by right|done].
Qed.

Lemma string_dict_entry (k : Hashed V) (v : V) h x :
  string_of_value (key k) = Some (string_of h x) → dict_entry (k, v) = Some (x, v).
Proof.
  intros Hs. unfold dict_entry, text_of, as_str, string_of. simpl. rewrite Hs. simpl. by rewrite as_str_ok.
Qed.

Lemma downcast_ok es :
  Forall (string_entry hash_of) es → downcast_ref_key_string es = Ok (mapM dict_entry es).
Proof.
  induction 1 as [|[k v] es Hk Hes IH]; [done|]. simpl.
  destruct (string_of_value (key k)) as [s|] eqn:Hs.
  - destruct (Hk s Hs) as (h & x & -> & Hx & Hh).
    rewrite (string_dict_entry k v h x Hs).
    assert (as_str (string_of h x) = Ok x) as -> by apply as_str_ok. cbn [mbind result_bind].
    rewrite IH. simpl. by destruct (mapM dict_entry es).
  - assert (dict_entry (k, v) = None) as -> by (unfold dict_entry; simpl; by rewrite Hs). done.
Qed.

Lemma symbol_arg_entry args kws :
  names_ok args kws → mapM named_entry (zip (arg_names args) (arg_named args)) = Some kws.
Proof.
  intros Hn. apply mapM_Some_2. eapply Forall2_impl; [apply (names_symbols _ _ Hn)|].
  intros [[s sv] v] [x w] (Hv & _ & h & Hsv). simpl in *. subst.
  unfold named_entry, text_of, as_str, string_of. simpl. by rewrite as_str_ok.
Qed.

(** the map of all keyword arguments, named ones before those of [**kwargs], in order.
    It is returned exactly when [**kwargs] is a dictionary with string keys and no name is
    repeated; an error tells which of these failed. *)
Theorem names_map_keywords args kws :
  names_ok args kws →
  match names_map (M:=M) args with
  | Ok es => keyword_args args = Some es ∧ NoDup es.*1
  | Err (Function (RepeatedArg x)) => repeated x (given_names args)
  | Err (Function ArgsValueIsNotString) => ∃ d es k v, arg_kwargs args = Some d ∧
      dict_of_value d = Some es ∧ (k, v) ∈ es ∧ string_of_value (key k) = None
  | Err (Function KwArgsIsNotDict) => ∃ d, arg_kwargs args = Some d ∧ dict_of_value d = None
  | _ => False
  end.
Proof.
  intros Hn. pose proof (symbol_arg_entry _ _ Hn) as Hnamed. pose proof (names_room _ _ Hn) as Hroom.
  assert (length kws = length (arg_names args)) as Hlen.
  { rewrite <-(Forall2_length _ _ _ (names_symbols _ _ Hn)), length_zip_with, (names_length _ _ Hn). lia. }
  assert (returns (m ← om_with_capacity (length (arg_names args) +
      length (default [] (dict_entries (arg_kwargs args))));
    insert_names (M:=M) m (zip (arg_names args) (arg_named args))) (λ m, om_models m kws)) as Hins.
  { step_with om_with_capacity_ok; [lia|]. intros m Hm.
    apply (insert_names_ok _ kws []); [apply Hn|apply Hn|done|simpl; lia]. }
  unfold names_map, unpack_kwargs, keyword_args, given_names. rewrite Hnamed, (mapM_omap _ _ _ Hnamed).
  destruct (arg_kwargs args) as [d|] eqn:Hd; simpl in *.
  - destruct (dict_of_value d) as [es|] eqn:Hes; simpl in *; [|by exists d].
    pose proof (dict_string_entries hash_of args es ltac:(by rewrite Hd)) as Hstr.
    destruct (arg_names args) as [|n ns] eqn:Hns.
    + rewrite downcast_ok by done. simpl. pose proof (names_dict_distinct _ _ Hn) as Hdd.
      rewrite Hd in Hdd. simpl in Hdd. rewrite Hes in Hdd. simpl in *.
      destruct kws; [|done]. destruct (mapM dict_entry es) as [es'|] eqn:Hm; simpl.
      * split; [done|]. by apply Hdd.
      * apply mapM_None_1, Exists_exists in Hm as ([k v] & Hin & Hnone). exists d, es, k, v.
        split_and!; [done..|]. unfold dict_entry in Hnone. simpl in Hnone.
        destruct (string_of_value (key k)) as [s|] eqn:Hs; [|done]. exfalso.
        rewrite Forall_forall in Hstr. destruct (Hstr _ Hin s Hs) as (h & x & -> & _).
        unfold text_of, as_str, string_of in Hnone. simpl in Hnone. by rewrite as_str_ok in Hnone.
    + apply returns_bind_inv in Hins as (m & Hm & m' & Hm' & Hmod). rewrite Hm. cbn [lift mbind result_bind].
      rewrite Hm'. cbn [lift mbind result_bind].
      pose proof (insert_kwargs_ok es kws m' Hstr Hmod (names_distinct _ _ Hn) ltac:(lia)) as Hk.
      destruct (insert_kwargs m' es) as [m''|e|f]; [| |done].
      * destruct Hk as (kws' & -> & Hnd & Hm''). cbn [mbind result_bind].
        by rewrite (om_entries_ok _ _ Hm'').
      * cbn [mbind result_bind]. destruct e as [[]| | |]; try done.
        destruct Hk as (k & v & Hin & Hs). by exists d, es, k, v.
  - rewrite Nat.add_0_r in Hins. apply returns_bind_inv in Hins as (m & Hm & m' & Hm' & Hmod).
    rewrite Hm. cbn [lift mbind result_bind]. rewrite Hm'. cbn [lift mbind result_bind].
    rewrite (om_entries_ok _ _ Hmod). simpl. rewrite app_nil_r. split; [done|apply Hn].
Qed.
End keywords.

(** * Distinct names *)

Section check_unique.
Context (hash_of : text → StarlarkHashValue).
Context {V S TT T : Type} `{!ArgSymbol TT V S} `{Toolchain} `{HashTableOk nat T}.
Context `{SizeOf (list byte * unit), SizeOf StarlarkHashValue, SizeOf (list byte * unit * StarlarkHashValue)}.
Context (n : nat) (Hfits : fits (list byte * unit) StarlarkHashValue (6 * n + 25)) (Hn : (N.of_nat n < ht_max)%N).

(** The names as texts. *)
Definition name_text (nv : S * StarlarkStr) (x : text) : Prop :=
  as_str nv.2 = Ok x ∧ arg_small_hash (TT:=TT) (V:=V) nv.1 = hash_of x.
Definition units (l : list text) : list (text * unit) := (λ x, (x, ())) <$> l.

Lemma units_keys l : (units l).*1 = l.
Proof. unfold units. rewrite <-list_fmap_compose. apply list_fmap_id. Qed.

Lemma check_unique_loop_ok (set : SmallSet T (list byte)) seen names xs :
  Forall2 name_text names xs → bounded_models hash_of n set (units seen) → NoDup seen →
  length seen + length names ≤ n →
  match check_unique_loop (TT:=TT) (V:=V) set names with
  | Ok _ => NoDup (seen ++ xs)
  | Err (RepeatedValue x) => repeated x (seen ++ xs)
  | _ => False
  end.
Proof.
  intros Hxs. revert set seen. induction Hxs as [|[s name] x names xs [Hx Hh] Hxs IH];
    intros set seen Hm Hnd Hlen; simpl in *; [by rewrite app_nil_r|].
  rewrite Hx, Hh. cbn [lift mbind result_bind]. unfold SmallSet_insert_hashed.
  destruct (@om_insert_ok _ _ _ _ _ _ (small_map_ord_map_ok hash_of n Hfits Hn) set (units seen) x () Hm)
    as ([old set'] & Hins & -> & Hm').
  { simpl. unfold units. rewrite length_fmap. lia. }
  unfold om_insert, small_map_ord_map in Hins. rewrite Hins. cbn [lift mbind result_bind].
  unfold al_get, al_insert in *. destruct (key_index x (units seen)) as [i|] eqn:Hi.
  - pose proof (key_index_lt _ _ _ Hi) as [kv Hkv]%lookup_lt_is_Some. simpl. rewrite Hkv. simpl.
    apply repeated_intro. apply dec_stable. intros Hno. rewrite <-(units_keys seen) in Hno.
    apply key_index_None in Hno. congruence.
  - simpl. apply key_index_None in Hi. rewrite units_keys in Hi.
    replace (seen ++ x :: xs) with ((seen ++ [x]) ++ xs) by by rewrite <-app_assoc.
    apply IH; [|apply NoDup_app; split_and!; [done| |apply NoDup_singleton]|rewrite length_app; simpl; lia].
    + unfold units. rewrite fmap_app. exact Hm'.
    + by intros y Hy ->%list_elem_of_singleton.
Qed.

(** the check of a call's names accepts exactly distinct names, which it returns as they
    are; otherwise it reports a name that is repeated. *)
Theorem new_check_unique_distinct names xs :
  Forall2 name_text names xs → length names ≤ n →
  match new_check_unique (TT:=TT) (V:=V) (T:=T) names with
  | Ok names' => names' = names ∧ NoDup xs
  | Err (RepeatedValue x) => repeated x xs
  | _ => False
  end.
Proof.
  intros Hxs Hlen. unfold new_check_unique, SmallSet_with_capacity.
  destruct (@om_with_capacity_ok _ _ _ _ _ _ (small_map_ord_map_ok hash_of n Hfits Hn) (length names) Hlen)
    as (set & Hset & Hm).
  unfold om_with_capacity, small_map_ord_map in Hset. rewrite Hset. cbn [lift mbind result_bind].
  pose proof (check_unique_loop_ok set [] names xs Hxs Hm (NoDup_nil_2) Hlen) as Hl.
  destruct (check_unique_loop set names) as [[]|[]|]; done.
Qed.
End check_unique.

(** ** Concrete inputs *)

#[local] Existing Instances witness_values witness_values_ok witness_kwargs witness_kwargs_ok
  stable_toolchain size_hash_value.

(** [f(a = 1, **{"b": 2})]. *)
Definition witness_call : ArgumentsFull Symbol value :=
  mkArguments [] [VNum 1] [(symbol_of witness_text_hash (name_of 97), string_of 0 (name_of 97))] None
    (Some (VDict [(VStr (name_of 98), VNum 2)])).

Lemma names_map_keywords_witness :
  names_map (M:=Kwargs) witness_call = Ok [(name_of 97, VNum 1); (name_of 98, VNum 2)] ∧
  keyword_args witness_call = Some [(name_of 97, VNum 1); (name_of 98, VNum 2)].
Proof.
  assert (names_map (M:=Kwargs) witness_call = Ok [(name_of 97, VNum 1); (name_of 98, VNum 2)]) as Heq
    by by vm_compute.
  split; [exact Heq|].
  assert (names_ok witness_text_hash (M:=Kwargs) witness_call [(name_of 97, VNum 1)]) as Hn.
  { split.
    - repeat constructor. by exists 0%Z.
    - apply NoDup_singleton.
    - done.
    - by apply (bool_decide_unpack (2 < 12)).
    - intros es Hes. assert (es = [(name_of 98, VNum 2)]) as ->; [|apply NoDup_singleton].
      vm_compute in Hes. by injection Hes as <-. }
  pose proof (names_map_keywords witness_text_hash (M:=Kwargs) witness_call _ Hn) as Hm.
  rewrite Heq in Hm. exact (proj1 Hm).
Defined.

#[local] Instance size_name_unit : SizeOf (list byte * unit) := {| size_of := 8; align_of := 8 |}%Z.
#[local] Instance size_name_entry : SizeOf (list byte * unit * StarlarkHashValue) :=
  {| size_of := 16; align_of := 8 |}%Z.

Lemma witness_names_fits : fits (list byte * unit) StarlarkHashValue (6 * 2 + 25).
Proof.
  split; [unfold usize_max, u64_max; simpl; lia|]. intros c Hc. unfold alloc_ok, Vec2Layout_new_checked,
    Layout_array, Layout_from_size_align, Layout_extend. simpl in Hc.
  do 38 (destruct c as [|c]; [vm_compute; by eexists|]). lia.
Defined.

Definition witness_arg_names : list (Symbol * StarlarkStr) :=
  [(symbol_of witness_text_hash (name_of 97), string_of 0 (name_of 97));
   (symbol_of witness_text_hash (name_of 98), string_of 0 (name_of 98))].

Lemma new_check_unique_distinct_witness :
  new_check_unique (TT:=list_table (Symbol * nat)) (V:=value) (T:=list_table nat) witness_arg_names =
    Ok witness_arg_names ∧ NoDup [name_of 97; name_of 98].
Proof.
  assert (new_check_unique (TT:=list_table (Symbol * nat)) (V:=value) (T:=list_table nat) witness_arg_names
    = Ok witness_arg_names) as Heq by by vm_compute.
  pose proof (new_check_unique_distinct (S:=Symbol) (TT:=list_table (Symbol * nat)) (V:=value) (T:=list_table nat)
    witness_text_hash 2 witness_names_fits ltac:(by vm_compute) witness_arg_names [name_of 97; name_of 98]) as Hu.
  rewrite Heq in Hu. split; [exact Heq|]. apply Hu.
  - repeat constructor; by vm_compute.
  - by apply (bool_decide_unpack (2 ≤ 2)).
Defined.
