(* ===== verification/CallArgs.v ===== *)
(** [starlark_syntax/src/syntax/call.rs]: the validation of a call's arguments.  [unpack]
    accepts positional arguments, then named ones with distinct names, then [*args], then
    [**kwargs], and splits them. *)

From S2P Require Import Prelude FastString CodeMap DefParams.

(** * The code *)

Section call_args.
Context {E : Type}.

Inductive ArgumentP :=
| Positional (e : E)
| Named (n : Spanned (list byte)) (e : E)
| ArgsArg (e : E)
| KwArgsArg (e : E).
Abbreviation AstArgument := (Spanned ArgumentP).

Record CallArgsUnpack := mkUnpacked {
  pos : list AstArgument;
  named : list AstArgument;
  star : option AstArgument;
  star_star : option AstArgument;
}.

Inductive ArgsStage := StagePositional | StageNamed | StageArgs | StageKwargs.
(** [PartialOrd]: the declaration order. *)
Definition stage_index (s : ArgsStage) : nat :=
  match s with StagePositional => 0 | StageNamed => 1 | StageArgs => 2 | StageKwargs => 3 end.
Definition stage_lt (a b : ArgsStage) : bool := stage_index a <? stage_index b.

Inductive ArgError :=
| PositionalAfterNonPositionalArg
| NamedAfterArgs
| RepeatedNamedArgument
| ArgsAfterArgsOrKwargs
| MultipleKwargsArg
| InternalArgError.
Abbreviation unpacked A := (result (ArgError * Span) A).

(** The variables of the loop. *)
Record CallState := mkCallState {
  stage : ArgsStage;
  named_args : gset (list byte);
  num_pos : nat;
  num_named : nat;
  c_star : option AstArgument;
  c_star_star : option AstArgument;
}.
Implicit Types c : CallState.

Definition call_step c (arg : AstArgument) : unpacked CallState :=
  match node arg with
  | Positional _ =>
    if negb (stage_index (stage c) =? stage_index StagePositional)
    then Err (PositionalAfterNonPositionalArg, span arg)
    else Ok (mkCallState (stage c) (named_args c) (num_pos c + 1) (num_named c) (c_star c) (c_star_star c))
  | Named n _ =>
    if stage_lt StageNamed (stage c) then Err (NamedAfterArgs, span arg)
    else if decide (node n ∈ named_args c) then Err (RepeatedNamedArgument, span n)
    else Ok (mkCallState StageNamed ({[node n]} ∪ named_args c) (num_pos c) (num_named c + 1)
               (c_star c) (c_star_star c))
  | ArgsArg _ =>
    if stage_lt StageNamed (stage c) then Err (ArgsAfterArgsOrKwargs, span arg) else
    match c_star c with
    | Some _ => Err (InternalArgError, span arg)
    | None => Ok (mkCallState StageArgs (named_args c) (num_pos c) (num_named c) (Some arg) (c_star_star c))
    end
  | KwArgsArg _ =>
    if stage_index (stage c) =? stage_index StageKwargs then Err (MultipleKwargsArg, span arg) else
    match c_star_star c with
    | Some _ => Err (InternalArgError, span arg)
    | None => Ok (mkCallState StageKwargs (named_args c) (num_pos c) (num_named c) (c_star c) (Some arg))
    end
  end.
Fixpoint call_loop c (args : list AstArgument) : unpacked CallState :=
  match args with
  | [] => Ok c
  | arg :: args => c ← call_step c arg; call_loop c args
  end.

(** [&args[a..b]]. *)
Definition slice_args (args : list AstArgument) (a b : nat) : unpacked (list AstArgument) :=
  if (a <=? b) && (b <=? length args) then Ok (take (b - a) (drop a args)) else Panic.
Definition b2n_some {A} (o : option A) : nat := match o with Some _ => 1 | None => 0 end.

Definition CallArgs_unpack (args : list AstArgument) : unpacked CallArgsUnpack :=
  c ← call_loop (mkCallState StagePositional ∅ 0 0 None None) args;
  if negb (num_pos c + num_named c + b2n_some (c_star c) + b2n_some (c_star_star c) =? length args)
  then Err (InternalArgError, merge_all (span <$> args)) else
  pos ← slice_args args 0 (num_pos c);
  named ← slice_args args (num_pos c) (num_pos c + num_named c);
  Ok (mkUnpacked pos named (c_star c) (c_star_star c)).

(** * Specification *)

Definition is_positional (a : AstArgument) : Prop := match node a with Positional _ => True | _ => False end.
Definition name_of_arg (a : AstArgument) : option (list byte) :=
  match node a with Named n _ => Some (node n) | _ => None end.
Definition is_args (a : AstArgument) : Prop := match node a with ArgsArg _ => True | _ => False end.
Definition is_kwargs (a : AstArgument) : Prop := match node a with KwArgsArg _ => True | _ => False end.
Definition opt_list {A} (o : option A) : list A := match o with Some a => [a] | None => [] end.

(** The shape of a call. *)
Record call_shape (args : list AstArgument) (u : CallArgsUnpack) : Prop := {
  shape_split : args = pos u ++ named u ++ opt_list (star u) ++ opt_list (star_star u);
  shape_pos : Forall is_positional (pos u);
  shape_named : Forall (λ a, is_Some (name_of_arg a)) (named u);
  shape_distinct : NoDup (omap name_of_arg (named u));
  shape_star : ∀ a, star u = Some a → is_args a;
  shape_star_star : ∀ a, star_star u = Some a → is_kwargs a;
}.

Definition state_of_unpack (u : CallArgsUnpack) : CallState :=
  mkCallState
    (match star_star u, star u, named u with
     | Some _, _, _ => StageKwargs
     | None, Some _, _ => StageArgs
     | None, None, _ :: _ => StageNamed
     | None, None, [] => StagePositional
     end)
    (list_to_set (omap name_of_arg (named u))) (length (pos u)) (length (named u)) (star u) (star_star u).

(** What one more argument makes of a shape. *)
Definition extend_shape (u : CallArgsUnpack) (a : AstArgument) : option CallArgsUnpack :=
  match node a, u with
  | Positional _, mkUnpacked pos [] None None => Some (mkUnpacked (pos ++ [a]) [] None None)
  | Named n _, mkUnpacked pos named None None =>
    if decide (node n ∈ omap name_of_arg named) then None
    else Some (mkUnpacked pos (named ++ [a]) None None)
  | ArgsArg _, mkUnpacked pos named None None => Some (mkUnpacked pos named (Some a) None)
  | KwArgsArg _, mkUnpacked pos named star None => Some (mkUnpacked pos named star (Some a))
  | _, _ => None
  end.

(** An error that is not an internal one. *)
Definition user_error {A} (r : unpacked A) : Prop :=
  match r with Err (e, _) => e ≠ InternalArgError | _ => False end.

Lemma call_step_ok u a :
  match extend_shape u a with
  | Some u' => call_step (state_of_unpack u) a = Ok (state_of_unpack u')
  | None => user_error (call_step (state_of_unpack u) a)
  end.
Proof.
  destruct u as [p nm st ss], a as [sp [e|n e|e|e]]; unfold extend_shape, call_step; simpl.
  - destruct nm, st, ss; simpl; try done. unfold state_of_unpack. simpl. by rewrite length_app.
  - destruct st, ss; simpl; try done. destruct (decide (node n ∈ omap name_of_arg nm)) as [Hin|Hin].
    + rewrite decide_True by by apply elem_of_list_to_set. by destruct nm.
    + rewrite decide_False by by rewrite elem_of_list_to_set. unfold state_of_unpack. simpl.
      rewrite length_app, omap_app, list_to_set_app_L. csimpl.
      assert ({[node n]} ∪ list_to_set (omap name_of_arg nm) =@{gset _}
        list_to_set (omap name_of_arg nm) ∪ ({[node n]} ∪ ∅)) as -> by set_solver.
      by destruct nm.
  - destruct st, ss; simpl; try done. by destruct nm.
  - destruct ss; simpl; [done|]. by destruct nm, st.
Qed.

Lemma extend_shape_ok args u a u' :
  call_shape args u → extend_shape u a = Some u' → call_shape (args ++ [a]) u'.
Proof.
  intros [-> Hp Hn Hd Hs Hss] He. unfold extend_shape in He.
  destruct u as [p nm st ss]; simpl in *. destruct (node a) as [e|n e|e|e] eqn:Ha.
  - destruct nm, st, ss; simplify_eq. split; simpl; try done; [by rewrite !app_nil_r|].
    apply Forall_app. split; [done|]. repeat constructor. unfold is_positional. by rewrite Ha.
  - destruct st, ss; simplify_eq. case_decide as Hin; simplify_eq. split; simpl; try done.
    + by rewrite !app_nil_r, <-app_assoc.
    + apply Forall_app. split; [done|]. repeat constructor. unfold name_of_arg. by rewrite Ha.
    + rewrite omap_app. csimpl. unfold name_of_arg at 2. rewrite Ha. simpl. apply NoDup_app.
      split_and!; [done| |apply NoDup_singleton]. by intros x Hx ->%list_elem_of_singleton.
  - destruct st, ss; simplify_eq. split; simpl; try done.
    + by rewrite !app_nil_r, <-!app_assoc.
    + intros b [= <-]. unfold is_args. by rewrite Ha.
  - destruct ss; simplify_eq. split; simpl; try done.
    + by rewrite !app_nil_r, <-!app_assoc.
    + intros b [= <-]. unfold is_kwargs. by rewrite Ha.
Qed.

Definition extend_all (u : option CallArgsUnpack) (args : list AstArgument) : option CallArgsUnpack :=
  foldl (λ u a, u ← u; extend_shape u a) u args.

Lemma extend_all_None args : extend_all None args = None.
Proof. by induction args. Qed.

Lemma call_loop_ok args : ∀ u,
  match extend_all (Some u) args with
  | Some u' => call_loop (state_of_unpack u) args = Ok (state_of_unpack u')
  | None => user_error (call_loop (state_of_unpack u) args)
  end.
Proof.
  induction args as [|a args IH]; intros u; [done|]. simpl. pose proof (call_step_ok u a) as Hs.
  destruct (extend_shape u a) as [u'|].
  - rewrite Hs. apply IH.
  - fold (extend_all None args). rewrite extend_all_None.
    by destruct (call_step (state_of_unpack u) a) as [|[]|].
Qed.

Lemma extend_all_shape args : ∀ done u u',
  call_shape done u → extend_all (Some u) args = Some u' → call_shape (done ++ args) u'.
Proof.
  induction args as [|a args IH]; intros done u u' Hs He; simpl in He.
  { rewrite app_nil_r. by injection He as <-. }
  destruct (extend_shape u a) as [u1|] eqn:Hu; [|by rewrite (extend_all_None args) in He].
  replace (done ++ a :: args) with ((done ++ [a]) ++ args) by by rewrite <-app_assoc.
  eapply IH; [by eapply extend_shape_ok|done].
Qed.

(** A list with a shape is read as that shape. *)
Lemma extend_all_pos p p' :
  Forall is_positional p → extend_all (Some (mkUnpacked p' [] None None)) p = Some (mkUnpacked (p' ++ p) [] None None).
Proof.
  intros Hp. revert p'. induction Hp as [|a p Ha Hp IH]; intros p'; [by rewrite app_nil_r|].
  unfold is_positional in Ha. simpl.
  assert (extend_shape (mkUnpacked p' [] None None) a = Some (mkUnpacked (p' ++ [a]) [] None None)) as ->
    by (unfold extend_shape; by destruct (node a)).
  fold (extend_all (Some (mkUnpacked (p' ++ [a]) [] None None)) p). by rewrite IH, <-app_assoc.
Qed.

Lemma extend_all_named nm p nm' :
  Forall (λ a, is_Some (name_of_arg a)) nm → NoDup (omap name_of_arg (nm' ++ nm)) →
  extend_all (Some (mkUnpacked p nm' None None)) nm = Some (mkUnpacked p (nm' ++ nm) None None).
Proof.
  intros Hn. revert nm'. induction Hn as [|a nm [x Ha] Hn IH]; intros nm' Hd; [by rewrite app_nil_r|].
  simpl. assert (extend_shape (mkUnpacked p nm' None None) a = Some (mkUnpacked p (nm' ++ [a]) None None)) as ->.
  { unfold extend_shape, name_of_arg in *. destruct (node a) as [|n e| |] eqn:Hna; simplify_eq.
    rewrite decide_False; [done|]. intros Hin. rewrite omap_app in Hd. csimpl in Hd. rewrite Hna in Hd.
    apply NoDup_app in Hd as (_ & Hno & _). apply (Hno _ Hin). by left. }
  fold (extend_all (Some (mkUnpacked p (nm' ++ [a]) None None)) nm).
  replace (nm' ++ a :: nm) with ((nm' ++ [a]) ++ nm) in * by by rewrite <-app_assoc. by apply IH.
Qed.

Lemma extend_all_of_shape args u :
  call_shape args u → extend_all (Some (mkUnpacked [] [] None None)) args = Some u.
Proof.
  intros [-> Hp Hn Hd Hs Hss]. destruct u as [p nm st ss]; simpl in *.
  unfold extend_all. rewrite !foldl_app.
  pose proof (extend_all_pos p [] Hp) as Hep. unfold extend_all in Hep. rewrite Hep. simpl.
  pose proof (extend_all_named nm p [] Hn Hd) as Hen. unfold extend_all in Hen. rewrite Hen. simpl.
  destruct st as [a|]; simpl.
  - specialize (Hs a eq_refl). unfold is_args in Hs.
    assert (extend_shape (mkUnpacked p nm None None) a = Some (mkUnpacked p nm (Some a) None)) as ->
      by (unfold extend_shape; by destruct (node a)).
    destruct ss as [b|]; [|done]. simpl.
    specialize (Hss b eq_refl). unfold extend_shape, is_kwargs in *. by destruct (node b).
  - destruct ss as [b|]; [|done]. simpl.
    specialize (Hss b eq_refl). unfold extend_shape, is_kwargs in *. by destruct (node b).
Qed.

Lemma unpack_of_shape args u :
  call_shape args u → call_loop (mkCallState StagePositional ∅ 0 0 None None) args = Ok (state_of_unpack u) →
  CallArgs_unpack args = Ok u.
Proof.
  intros Hs Hl. unfold CallArgs_unpack. rewrite Hl. cbn [mbind result_bind].
  destruct Hs as [-> _ _ _ _ _]. destruct u as [p nm st ss]. simpl.
  assert (∀ A (o : option A), length (opt_list o) = b2n_some o) as Ho by (intros A [|]; done).
  rewrite !length_app, !Ho, (proj2 (Nat.eqb_eq _ _)) by lia. cbn [negb].
  unfold slice_args. rewrite !length_app, !Ho.
  rewrite (proj2 (Nat.leb_le (length p) _)), (proj2 (Nat.leb_le (length p) _)) by lia.
  rewrite (proj2 (Nat.leb_le (length p + length nm) _)) by lia. simpl.
  rewrite Nat.sub_0_r, drop_0, take_app_length, drop_app_length.
  replace (length p + length nm - length p) with (length nm) by lia. by rewrite take_app_length.
Qed.

(** * Property *)

(** C31: a call is accepted exactly when its arguments have the documented order: positional
    ones, named ones with distinct names, [*args], [**kwargs]. Then they are split into
    those parts, which is the only way to split them. Anything else is an error, and
    neither a panic nor one of the internal errors. *)
Theorem call_args_shape args :
  match CallArgs_unpack args with
  | Ok u => call_shape args u ∧ ∀ u', call_shape args u' → u' = u
  | Err (e, _) => e ≠ InternalArgError ∧ ¬ ∃ u, call_shape args u
  | Fault _ => False
  end.
Proof.
  assert (∀ u, call_shape args u → CallArgs_unpack args = Ok u) as Hok.
  { intros u Hs. apply unpack_of_shape; [done|]. pose proof (call_loop_ok args (mkUnpacked [] [] None None)) as Hl.
    by rewrite (extend_all_of_shape _ _ Hs) in Hl. }
  pose proof (call_loop_ok args (mkUnpacked [] [] None None)) as Hl.
  destruct (extend_all (Some (mkUnpacked [] [] None None)) args) as [u|] eqn:Hu.
  - assert (call_shape args u) as Hs.
    { apply (extend_all_shape args [] (mkUnpacked [] [] None None)); [|done].
      split; simpl; try done. apply NoDup_nil_2. }
    rewrite (Hok u Hs). split; [done|]. intros u' Hs'. apply Hok in Hs'. rewrite (Hok u Hs) in Hs'. congruence.
  - assert (∀ u, ¬ call_shape args u) as Hno by (intros u Hs%extend_all_of_shape; congruence).
    unfold CallArgs_unpack. change (state_of_unpack _) with (mkCallState StagePositional ∅ 0 0 None None) in Hl.
    destruct (call_loop _ _) as [|[e sp]|]; try done. simpl. split; [done|]. intros [u Hs]. by apply (Hno u).
Qed.
End call_args.
