(* ===== verification/OrderedMap.v ===== *)
(** [starlark_map/src/ordered_map.rs] and [sorted_map.rs]: maps whose equality and order
    are those of their entries in iteration order, and maps sorted by key. *)

From S2P Require Import Prelude Vec2 Hashing VecMap SmallMap SmallMapSpec SmallMapOps.

(** * Comparison of iterators *)

(** [Iterator::cmp], [Iterator::partial_cmp] and the order of pairs. *)
Section lexicographic.
Context {X : Type}.

Fixpoint lex_compare (cmp : X → X → comparison) (l l' : list X) : comparison :=
  match l, l' with
  | [], [] => Eq
  | [], _ :: _ => Lt
  | _ :: _, [] => Gt
  | x :: l, x' :: l' =>
    match cmp x x' with Eq => lex_compare cmp l l' | c => c end
  end.

Fixpoint lex_partial_compare (cmp : X → X → option comparison) (l l' : list X) :
    option comparison :=
  match l, l' with
  | [], [] => Some Eq
  | [], _ :: _ => Some Lt
  | _ :: _, [] => Some Gt
  | x :: l, x' :: l' =>
    match cmp x x' with Some Eq => lex_partial_compare cmp l l' | c => c end
  end.
End lexicographic.

Definition pair_compare {K V} (ck : K → K → comparison) (cv : V → V → comparison)
    (x y : K * V) : comparison :=
  match ck x.1 y.1 with Eq => cv x.2 y.2 | c => c end.
Definition pair_partial_compare {K V} (ck : K → K → option comparison)
    (cv : V → V → option comparison) (x y : K * V) : option comparison :=
  match ck x.1 y.1 with Some Eq => cv x.2 y.2 | c => c end.

Section OrderedMap.
Context `{Toolchain} {T K V : Type} `{EqDecision K} `{HashTable nat T}.
Context `{SizeOf (K * V), SizeOf StarlarkHashValue, SizeOf (K * V * StarlarkHashValue)}.

(** * Ordered maps *)

Definition OrderedMap : Type := SmallMap T K V.
Implicit Types m : OrderedMap.

Definition OrderedMap_new : OrderedMap := SmallMap_new.
Definition OrderedMap_with_capacity (capacity : nat) : comp OrderedMap :=
  SmallMap_with_capacity capacity.
Definition OrderedMap_len m : nat := SmallMap_len m.
Definition OrderedMap_is_empty m : bool := SmallMap_is_empty m.
Definition OrderedMap_iter m : comp (list (K * V)) := SmallMap_iter m.
Definition OrderedMap_keys m : comp (list K) := SmallMap_keys m.
Definition OrderedMap_values m : comp (list V) := SmallMap_values m.
Definition OrderedMap_iter_hashed m : comp (list (Hashed K * V)) := SmallMap_iter_hashed m.
Definition OrderedMap_get_index m (index : nat) : comp (option (K * V)) :=
  SmallMap_get_index m index.
Definition OrderedMap_clear m : OrderedMap := SmallMap_clear m.
Definition OrderedMap_sort_keys (cmp : K → K → comparison) m : comp OrderedMap :=
  SmallMap_sort_keys cmp m.
Definition OrderedMap_eq `{EqDecision V} m (other : OrderedMap) : comp bool :=
  SmallMap_eq_ordered m other.
Definition OrderedMap_partial_cmp (ck : K → K → option comparison)
    (cv : V → V → option comparison) m (other : OrderedMap) : comp (option comparison) :=
  l ← OrderedMap_iter m; l' ← OrderedMap_iter other;
  Ok (lex_partial_compare (pair_partial_compare ck cv) l l').
Definition OrderedMap_cmp (ck : K → K → comparison) (cv : V → V → comparison)
    m (other : OrderedMap) : comp comparison :=
  l ← OrderedMap_iter m; l' ← OrderedMap_iter other;
  Ok (lex_compare (pair_compare ck cv) l l').

(** * Sorted maps *)

Record SortedMap : Type := mkSortedMap { map : OrderedMap }.
Implicit Types s : SortedMap.

Definition SortedMap_new : SortedMap := mkSortedMap OrderedMap_new.
Definition SortedMap_len s : nat := OrderedMap_len (map s).
Definition SortedMap_is_empty s : bool := OrderedMap_is_empty (map s).
Definition SortedMap_iter s : comp (list (K * V)) := OrderedMap_iter (map s).
Definition SortedMap_keys s : comp (list K) := OrderedMap_keys (map s).
Definition SortedMap_values s : comp (list V) := OrderedMap_values (map s).
Definition SortedMap_iter_hashed s : comp (list (Hashed K * V)) := OrderedMap_iter_hashed (map s).
Definition SortedMap_eq `{EqDecision V} s (other : SortedMap) : comp bool :=
  OrderedMap_eq (map s) (map other).
Definition SortedMap_cmp (ck : K → K → comparison) (cv : V → V → comparison)
    s (other : SortedMap) : comp comparison := OrderedMap_cmp ck cv (map s) (map other).
Definition SortedMap_from_ordered (cmp : K → K → comparison) m : comp SortedMap :=
  m ← OrderedMap_sort_keys cmp m; Ok (mkSortedMap m).
Definition SortedMap_from_small (cmp : K → K → comparison) (m : SmallMap T K V) :
    comp SortedMap := SortedMap_from_ordered cmp m.

(** * Operations that hash *)

Context (hash_of : K → StarlarkHashValue).

Definition OrderedMap_get m (k : K) : comp (option V) := SmallMap_get hash_of m k.
Definition OrderedMap_get_mut m (k : K) : comp (option (V * (V → OrderedMap))) :=
  SmallMap_get_mut hash_of m k.
Definition OrderedMap_get_index_of m (k : K) : comp (option nat) := get_index_of hash_of m k.
Definition OrderedMap_contains_key m (k : K) : comp bool := contains_key hash_of m k.
Definition OrderedMap_insert m (k : K) (v : V) : comp (option V * OrderedMap) :=
  SmallMap_insert hash_of m k v.
Definition OrderedMap_remove m (k : K) : comp (option V * OrderedMap) := shift_remove hash_of m k.
Definition OrderedMap_entry m (k : K) : comp (Entry T K V) := entry hash_of m k.
Definition OrderedMap_from_iter (size_hint : nat) (iter : list (K * V)) : comp OrderedMap :=
  SmallMap_from_iter hash_of size_hint iter.
Definition OrderedMap_extend m (iter : list (K * V)) : comp OrderedMap :=
  SmallMap_extend hash_of m iter.

Definition SortedMap_get s (k : K) : comp (option V) := OrderedMap_get (map s) k.
Definition SortedMap_get_mut s (k : K) : comp (option (V * (V → SortedMap))) :=
  o ← OrderedMap_get_mut (map s) k;
  Ok (match o with Some (v, set) => Some (v, λ w, mkSortedMap (set w)) | None => None end).
Definition SortedMap_contains_key s (k : K) : comp bool := OrderedMap_contains_key (map s) k.
Definition SortedMap_from_iter (cmp : K → K → comparison) (size_hint : nat)
    (iter : list (K * V)) : comp SortedMap :=
  m ← OrderedMap_from_iter size_hint iter; SortedMap_from_ordered cmp m.
End OrderedMap.
Arguments OrderedMap T K V : clear implicits.
Arguments SortedMap T K V : clear implicits.

(** * Orders *)

(** [Ord] and [Eq] as their documentation relates them. *)
Class LawfulCompare {X} (cmp : X → X → comparison) : Prop := {
  lawful_total : TotalCompare cmp;
  lawful_eq : ∀ x y, cmp x y = Eq ↔ x = y;
}.
#[export] Existing Instance lawful_total.

Lemma compare_trans {X} (cmp : X → X → comparison) `{!TotalCompare cmp} x y z c :
  cmp x y = c → cmp y z = c → cmp x z = c.
Proof.
  assert (∀ x y z, cmp x y = Lt → cmp y z = Lt → cmp x z = Lt) as Hlt.
  { intros a b d Hab Hbd. destruct (cmp a d) eqn:Had; [|done|].
    - pose proof (compare_le_trans (compare:=cmp) d a b) as Ht. rewrite (compare_antisym (compare:=cmp) a d), Had, Hab in Ht.
      rewrite (compare_antisym (compare:=cmp) b d), Hbd in Ht. by destruct Ht.
    - pose proof (compare_le_trans (compare:=cmp) a b d) as Ht. rewrite Hab, Hbd, Had in Ht. by destruct Ht. }
  destruct c; intros Hxy Hyz; [|by eapply Hlt|].
  - pose proof (compare_le_trans (compare:=cmp) x y z) as H1. rewrite Hxy, Hyz in H1.
    pose proof (compare_le_trans (compare:=cmp) z y x) as H2.
    rewrite (compare_antisym (compare:=cmp) y z), (compare_antisym (compare:=cmp) x y), (compare_antisym (compare:=cmp) x z), Hxy, Hyz in H2.
    destruct (cmp x z); [done|by destruct H2|by destruct H1].
  - assert (cmp z x = Lt) as Hzx.
    { apply (Hlt z y x); [by rewrite (compare_antisym (compare:=cmp) y z), Hyz|by rewrite (compare_antisym (compare:=cmp) x y), Hxy]. }
    by rewrite (compare_antisym (compare:=cmp) z x), Hzx.
Qed.

Lemma lawful_intro {X} (cmp : X → X → comparison) :
  (∀ x y, cmp y x = CompOpp (cmp x y)) → (∀ x y, cmp x y = Eq ↔ x = y) →
  (∀ x y z, cmp x y = Lt → cmp y z = Lt → cmp x z = Lt) → LawfulCompare cmp.
Proof.
  intros Ha He Ht. split; [split; [exact Ha|]|exact He].
  intros x y z Hxy Hyz Hxz.
  destruct (cmp x y) eqn:H1; [apply He in H1 as ->; done| |done].
  destruct (cmp y z) eqn:H2; [apply He in H2 as ->; congruence| |done].
  rewrite (Ht _ _ _ H1 H2) in Hxz. done.
Qed.

#[export] Instance pair_compare_lawful {K V} (ck : K → K → comparison) (cv : V → V → comparison) :
  LawfulCompare ck → LawfulCompare cv → LawfulCompare (pair_compare ck cv).
Proof.
  intros Hk Hv. apply lawful_intro; unfold pair_compare.
  - intros [k v] [k' v']. simpl. rewrite (compare_antisym (compare:=ck) k k').
    destruct (ck k k'); [apply (compare_antisym (compare:=cv))|done..].
  - intros [k v] [k' v']. simpl. split.
    + destruct (ck k k') eqn:Hck; [|done..]. apply lawful_eq in Hck as ->.
      by intros ->%lawful_eq.
    + intros [= -> ->]. rewrite (proj2 (lawful_eq k' k')) by done. by apply lawful_eq.
  - intros [k1 v1] [k2 v2] [k3 v3]. simpl.
    destruct (ck k1 k2) eqn:H12; [apply lawful_eq in H12 as ->| |done].
    + destruct (ck k2 k3); [apply (compare_trans cv)|done..].
    + intros _. destruct (ck k2 k3) eqn:H23; [apply lawful_eq in H23 as ->| |done]; intros _.
      * by rewrite H12.
      * by rewrite (compare_trans ck _ _ _ _ H12 H23).
Qed.

Lemma lex_antisym {X} (cmp : X → X → comparison) `{!LawfulCompare cmp} l l' :
  lex_compare cmp l' l = CompOpp (lex_compare cmp l l').
Proof.
  revert l'. induction l as [|x l IH]; intros [|x' l']; [done..|]. simpl.
  rewrite (compare_antisym (compare:=cmp) x x'). destruct (cmp x x'); [apply IH|done..].
Qed.

#[export] Instance lex_compare_lawful {X} (cmp : X → X → comparison) :
  LawfulCompare cmp → LawfulCompare (lex_compare cmp).
Proof.
  intros Hc. apply lawful_intro; [by apply lex_antisym| |].
  - intros l. induction l as [|x l IH]; intros [|x' l']; [done..|]. simpl. split.
    + destruct (cmp x x') eqn:Hx; [|done..]. apply lawful_eq in Hx as ->. by intros ->%IH.
    + intros [= -> ->]. rewrite (proj2 (lawful_eq x' x')) by done. by apply IH.
  - intros l. induction l as [|x l IH]; intros [|y m] [|z n]; [done..|]. simpl.
    destruct (cmp x y) eqn:Hxy; [apply lawful_eq in Hxy as ->| |done].
    + destruct (cmp y z); [apply IH|done..].
    + intros _. destruct (cmp y z) eqn:Hyz; [apply lawful_eq in Hyz as ->| |done]; intros _.
      * by rewrite Hxy.
      * by rewrite (compare_trans cmp _ _ _ _ Hxy Hyz).
Qed.

Lemma lex_partial {X} (cmp : X → X → comparison) l l' :
  lex_partial_compare (λ x y, Some (cmp x y)) l l' = Some (lex_compare cmp l l').
Proof.
  revert l'. induction l as [|x l IH]; intros [|x' l']; [done..|]. simpl.
  destruct (cmp x x'); [apply IH|done..].
Qed.

(** * Extending a map *)

Section extend.
Context `{Toolchain} {T K V : Type} `{EqDecision K} `{HashTableOk nat T}.
Context `{SizeOf (K * V), SizeOf StarlarkHashValue, SizeOf (K * V * StarlarkHashValue)}.
Context (hash_of : K → StarlarkHashValue).
Implicit Types (m : SmallMap T K V) (l : list (K * V * StarlarkHashValue)).

(** Memory and table can take each entry in turn. *)
Fixpoint can_extend m (iter : list (K * V)) : Prop :=
  match iter with
  | [] => True
  | (k, v) :: iter =>
    room m 1 ∧ ∀ o m', SmallMap_insert hash_of m k v = Ok (o, m') → can_extend m' iter
  end.
(** The same for [from_iter], and memory can sort the result. *)
Definition can_collect (size_hint : nat) (iter : list (K * V)) : Prop :=
  fits (K * V) StarlarkHashValue size_hint ∧ (N.of_nat size_hint ≤ ht_max)%N ∧
  ∀ m, SmallMap_with_capacity size_hint = Ok m →
    can_extend m iter ∧ ∀ m', SmallMap_extend hash_of m iter = Ok m' → room m' 0.

Lemma SmallMap_extend_spec m l iter :
  wf hash_of m l → can_extend m iter →
  returns (SmallMap_extend hash_of m iter) (λ m', ∃ l',
    wf hash_of m' l' ∧ l'.*1 = foldl (λ kvs kv, al_insert kv.1 kv.2 kvs) l.*1 iter).
Proof.
  revert m l. induction iter as [|[k v] iter IH]; intros m l Hw Hc.
  - apply returns_ret. eauto.
  - destruct Hc as [Hr Hc]. cbn [SmallMap_extend foldl fst snd].
    destruct (insert_hashed_spec hash_of m l k v Hw Hr) as ([o m'] & Hm & _ & l' & Hw' & <-).
    unfold SmallMap_insert, Hashed_new in *. rewrite Hm. cbn [mbind result_bind].
    apply (IH _ _ Hw'). by eapply Hc.
Qed.

Lemma SmallMap_from_iter_spec size_hint iter :
  can_collect size_hint iter →
  returns (SmallMap_from_iter hash_of size_hint iter) (λ m', room m' 0 ∧ ∃ l',
    wf hash_of m' l' ∧ l'.*1 = foldl (λ kvs kv, al_insert kv.1 kv.2 kvs) [] iter).
Proof.
  intros (Hf & Hm & Hc). unfold SmallMap_from_iter.
  destruct (SmallMap_with_capacity_spec (T:=T) hash_of size_hint Hf Hm) as (m & Hmk & Hw).
  rewrite Hmk. cbn [mbind result_bind]. destruct (Hc m Hmk) as [Hext Hroom].
  destruct (SmallMap_extend_spec m [] iter Hw Hext) as (m' & Hm' & Hl). exists m'.
  split; [done|]. split; [by apply Hroom|done].
Qed.
End extend.

(** * Properties *)

Section properties.
Context `{Toolchain} {T K V : Type} `{Countable K} `{EqDecision V} `{HashTableOk nat T}.
Context `{SizeOf (K * V), SizeOf StarlarkHashValue, SizeOf (K * V * StarlarkHashValue)}.
Context (hash_of : K → StarlarkHashValue).
Implicit Types (m : OrderedMap T K V) (l : list (K * V * StarlarkHashValue)).

Definition entries_of m : list (K * V) := match OrderedMap_iter m with Ok l => l | _ => [] end.

Lemma ordered_iter_spec m l : wf hash_of m l → OrderedMap_iter m = Ok l.*1.
Proof. intros Hw. apply VecMap_iter_spec, Hw. Qed.

(** What an iterator of pairs means: later values win. *)
Definition map_of (iter : list (K * V)) : gmap K V :=
  foldl (λ (kvs : gmap K V) kv, <[kv.1 := kv.2]> kvs) ∅ iter.

Lemma al_insert_nodup k v (kvs : list (K * V)) : NoDup kvs.*1 → NoDup (al_insert k v kvs).*1.
Proof.
  intros Hnd. unfold al_insert. destruct (key_index k kvs) as [i|] eqn:Hi.
  - rewrite (list_fmap_alter _ _ id) by by apply Forall_forall. by rewrite list_alter_id.
  - apply key_index_None in Hi. rewrite fmap_app. apply NoDup_app.
    split_and!; [done| |apply NoDup_singleton]. by intros x Hx ->%list_elem_of_singleton.
Qed.

Lemma inserts_to_map iter :
  let kvs := foldl (λ kvs kv, al_insert kv.1 kv.2 kvs) ([] : list (K * V)) iter in
  NoDup kvs.*1 ∧ to_map kvs = map_of iter.
Proof.
  cbn zeta. induction iter as [|[k v] iter [IHnd IH]] using rev_ind; [split; [constructor|done]|].
  unfold map_of. rewrite !foldl_snoc. fold (map_of iter). cbn [fst snd]. rewrite <-IH. split.
  - by apply al_insert_nodup.
  - by apply al_insert_to_map.
Qed.

Context (cmp : K → K → comparison) `{!LawfulCompare cmp}.
Definition by_key (x y : K * V) : comparison := cmp x.1 y.1.

Lemma sorted_unique (l l' : list (K * V)) :
  NoDup l.*1 → NoDup l'.*1 → to_map l = to_map l' → stable_sort by_key l = stable_sort by_key l'.
Proof.
  intros Hnd Hnd' Heq. assert (l ≡ₚ l') as Hp by by apply list_to_map_inj.
  apply (StronglySorted_unique_strong (le_compare by_key)).
  - intros x y Hx Hy Hxy Hyx. assert (x.1 = y.1) as Hk.
    { apply lawful_eq. unfold le_compare, by_key in *.
      rewrite (compare_antisym (compare:=cmp) x.1 y.1) in Hyx. by destruct (cmp x.1 y.1). }
    rewrite stable_sort_perm in Hx, Hy. rewrite <-Hp in Hy. destruct x as [k v], y as [k' v'].
    simpl in Hk. subst k'. f_equal.
    apply (elem_of_list_to_map_1 l k v Hnd) in Hx. apply (elem_of_list_to_map_1 l k v' Hnd) in Hy.
    congruence.
  - apply stable_sort_sorted, _.
  - apply stable_sort_sorted, _.
  - by rewrite !stable_sort_perm.
Qed.

Lemma sorted_strictly (l : list (K * V)) :
  NoDup l.*1 → StronglySorted (λ x y, cmp x y = Lt) (stable_sort by_key l).*1.
Proof.
  intros Hnd. pose proof (stable_sort_sorted by_key l) as Hs.
  assert (NoDup (stable_sort by_key l).*1) as Hnd' by by rewrite stable_sort_perm.
  clear Hnd. induction Hs as [|x l' Hs IH Hx]; [constructor|]. csimpl in Hnd'.
  apply NoDup_cons in Hnd' as [Hnin Hnd']. csimpl. constructor; [by apply IH|].
  apply Forall_fmap. rewrite Forall_forall in *. intros y Hy. specialize (Hx y Hy). simpl.
  unfold by_key in Hx. destruct (cmp x.1 y.1) eqn:Hc; [|done|done].
  apply lawful_eq in Hc. destruct Hnin. rewrite Hc. by apply list_elem_of_fmap_2.
Qed.

Lemma SortedMap_from_iter_spec size_hint iter :
  can_collect (T:=T) hash_of size_hint iter →
  returns (SortedMap_from_iter hash_of cmp size_hint iter) (λ s, ∃ l,
    wf hash_of (map s) l ∧ l.*1 = stable_sort by_key l.*1 ∧
    StronglySorted (λ x y, cmp x y = Lt) l.*1.*1 ∧ to_map l.*1 = map_of iter).
Proof.
  intros Hc. unfold SortedMap_from_iter. destruct (inserts_to_map iter) as [Hnd Hmap].
  step_with SmallMap_from_iter_spec; [done|]. intros m (Hr & l & Hw & Hl).
  unfold SortedMap_from_ordered. step_with SmallMap_sort_keys_spec; [apply _|done..|].
  intros m' (l' & Hw' & Hl'). apply returns_ret. exists l'. split; [done|].
  change (l'.*1 = stable_sort by_key l.*1) in Hl'. rewrite <-Hl in Hnd, Hmap.
  rewrite !Hl'. split_and!.
  - symmetry. apply stable_sort_id; [apply _|].
    apply StronglySorted_Sorted, stable_sort_sorted, _.
  - by apply sorted_strictly.
  - rewrite <-Hmap. apply list_to_map_proper; [by rewrite stable_sort_perm|].
    apply stable_sort_perm.
Qed.

(** On [OrderedMap], [==] compares the entries in iteration order, [cmp] is their
    lexicographic order and [partial_cmp] agrees with it; with lawful orders of keys and
    values, [cmp] is [Equal] exactly when [==] holds, is antisymmetric and transitive. *)
Theorem ordered_map_order m l m' l' (cv : V → V → comparison) `{!LawfulCompare cv} :
  wf hash_of m l → wf hash_of m' l' →
  OrderedMap_eq m m' = Ok (bool_decide (l.*1 = l'.*1)) ∧
  ∃ c, OrderedMap_cmp cmp cv m m' = Ok c ∧
    OrderedMap_partial_cmp (λ x y, Some (cmp x y)) (λ x y, Some (cv x y)) m m' = Ok (Some c) ∧
    (c = Eq ↔ l.*1 = l'.*1) ∧ OrderedMap_cmp cmp cv m' m = Ok (CompOpp c) ∧
    ∀ m'' l'', wf hash_of m'' l'' →
      OrderedMap_cmp cmp cv m' m'' = Ok c → OrderedMap_cmp cmp cv m m'' = Ok c.
Proof.
  intros Hw Hw'. split; [by apply (SmallMap_eq_ordered_spec hash_of)|].
  exists (lex_compare (pair_compare cmp cv) l.*1 l'.*1).
  unfold OrderedMap_cmp, OrderedMap_partial_cmp.
  rewrite (ordered_iter_spec _ _ Hw), (ordered_iter_spec _ _ Hw'). cbn [mbind result_bind].
  split_and!; [done| |apply lawful_eq|by rewrite <-lex_antisym by apply _|].
  - rewrite <-lex_partial. f_equal.
    assert (∀ k k', lex_partial_compare
        (pair_partial_compare (λ x y, Some (cmp x y)) (λ x y, Some (cv x y))) k k' =
      lex_partial_compare (λ x y, Some (pair_compare cmp cv x y)) k k') as Hext.
    { intros k. induction k as [|x k IH]; intros [|y k']; [done..|]. simpl.
      unfold pair_partial_compare, pair_compare at 1.
      destruct (cmp x.1 y.1); [|done..]. destruct (cv x.2 y.2); [apply IH|done..]. }
    apply Hext.
  - intros m'' l'' Hw''. rewrite (ordered_iter_spec _ _ Hw''). cbn [mbind result_bind].
    intros [= Hc]. f_equal. by apply (compare_trans _ _ l'.*1).
Qed.

(** C39: [SortedMap] is canonical. Collected from an iterator, it holds the last value of
    each key, in strictly increasing order of keys; [get] finds exactly those; and two
    sorted maps are equal exactly when they hold the same entries, whatever the orders
    and the duplicates of the iterators they come from. *)
Theorem sorted_map_canonical size_hint iter size_hint' iter' :
  can_collect (T:=T) hash_of size_hint iter → can_collect (T:=T) hash_of size_hint' iter' →
  ∃ s s' kvs, SortedMap_from_iter hash_of cmp size_hint iter = Ok s ∧
    SortedMap_from_iter hash_of cmp size_hint' iter' = Ok s' ∧
    SortedMap_iter s = Ok kvs ∧ StronglySorted (λ x y, cmp x y = Lt) kvs.*1 ∧
    to_map kvs = map_of iter ∧ SortedMap_len s = size (map_of iter) ∧
    (∀ k, SortedMap_get hash_of s k = Ok (map_of iter !! k)) ∧
    SortedMap_eq s s' = Ok (bool_decide (map_of iter = map_of iter')).
Proof.
  intros Hc Hc'. destruct (SortedMap_from_iter_spec _ _ Hc) as (s & Hs & l & Hw & Hsort & Hlt & Hmap).
  destruct (SortedMap_from_iter_spec _ _ Hc') as (s' & Hs' & l' & Hw' & Hsort' & _ & Hmap').
  pose proof (wf_nodup _ _ _ Hw) as Hnd. pose proof (wf_nodup _ _ _ Hw') as Hnd'.
  exists s, s', l.*1. split_and!; [done|done|by apply ordered_iter_spec|done|done|..].
  - unfold SortedMap_len, OrderedMap_len, SmallMap_len. rewrite (wf_len _ _ _ Hw), <-Hmap.
    unfold to_map. by rewrite map_size_list_to_map, length_fmap.
  - intros k. rewrite <-Hmap, <-al_get_to_map by done. apply (get_hashed_spec _ _ _ _ Hw).
  - unfold SortedMap_eq, OrderedMap_eq. rewrite (SmallMap_eq_ordered_spec _ _ _ _ _ Hw Hw').
    f_equal. apply bool_decide_ext. rewrite <-Hmap, <-Hmap'. split; [by intros ->|].
    intros Heq. rewrite Hsort, Hsort'. by apply sorted_unique.
Qed.
End properties.

(** ** Witnesses *)

#[local] Existing Instances stable_toolchain size_words size_u64.
#[local] Instance size_pair_entry : SizeOf (Z * Z * Z) := {| size_of := 24; align_of := 8 |}%Z.

#[export] Instance Z_compare_lawful : LawfulCompare Z.compare.
Proof.
  apply lawful_intro.
  - intros x y. apply Z.compare_antisym.
  - intros x y. apply Z.compare_eq_iff.
  - intros x y z. rewrite !Z.compare_lt_iff. lia.
Qed.

Lemma witness_room_small (m : SmallMap (list_table nat) Z Z) n :
  2 * (VecMap_len (entries m) + VecMap_capacity (entries m)) + 8 + n ≤ 40 → room m n.
Proof.
  intros Hn. split; [by eapply fits_le, Hn; apply witness_fits|].
  unfold ht_max; simpl. lia.
Defined.

Lemma witness_collect :
  can_collect (T:=list_table nat) witness_hash 2 [(3, 30); (1, 10)]%Z ∧
  can_collect (T:=list_table nat) witness_hash 0 [(1, 10); (3, 0); (3, 30)]%Z.
Proof.
  split; (split; [eapply fits_le; [apply witness_fits|lia]|split; [by vm_compute|]]);
    intros m Hm; vm_compute in Hm; injection Hm as <-;
    (split; [|intros m' Hm'; vm_compute in Hm'; injection Hm' as <-;
              apply witness_room_small; vm_compute; lia]);
    repeat (split; [apply witness_room_small; vm_compute; lia|];
            intros o m' Hm'; vm_compute in Hm'; injection Hm' as <- <-); exact I.
Defined.

Lemma ordered_map_order_witness :
  OrderedMap_eq witness_indexed witness_plain = Ok false ∧
  ∃ c, OrderedMap_cmp Z.compare Z.compare witness_indexed witness_plain = Ok c ∧
    (c = Eq ↔ [(3, 30); (1, 10)] = [(1, 10); (3, 30)])%Z.
Proof.
  destruct (ordered_map_order witness_hash Z.compare witness_indexed _ witness_plain _ Z.compare
    (proj1 witness_wf) (proj2 witness_wf)) as (He & c & Hc & _ & Heq & _).
  split; [rewrite He; by vm_compute|]. by exists c.
Defined.

Lemma sorted_map_canonical_witness :
  ∃ s s' : SortedMap (list_table nat) Z Z, SortedMap_eq s s' = Ok true ∧ SortedMap_len s = 2.
Proof.
  destruct (sorted_map_canonical witness_hash Z.compare _ _ _ _
    (proj1 witness_collect) (proj2 witness_collect))
    as (s & s' & _ & _ & _ & _ & _ & _ & Hl & _ & He).
  exists s, s'. split; [rewrite He; by vm_compute|rewrite Hl; by vm_compute].
Defined.
