(* ===== verification/OrderedSet.v ===== *)
(** [starlark_map/src/ordered_set.rs], [sorted_set.rs] and [sorted_vec.rs]: sets compared in
    iteration order, and sorted sets and vectors. *)

From S2P Require Import Prelude Vec2 Hashing VecMap SmallMap SmallMapSpec SmallMapOps.
From S2P Require Import SmallSet OrderedMap.

(** * Sorted vectors *)

(** [Vec::sort] is stable. *)
Record SortedVec (X : Type) := mkSortedVec { vec : list X }.
Arguments mkSortedVec {X}.
Arguments vec {X}.

Section SortedVec.
Context {X : Type} (cmp : X → X → comparison).

Definition SortedVec_new : SortedVec X := mkSortedVec [].
(** The [debug_assert!] on adjacent elements. *)
Definition SortedVec_new_unchecked (v : list X) : comp (SortedVec X) :=
  _ ← assert (forallb (λ '(a, b), match cmp a b with Gt => false | _ => true end) (zip v (tail v)));
  Ok (mkSortedVec v).
Definition SortedVec_from (v : list X) : SortedVec X := mkSortedVec (stable_sort cmp v).
Definition SortedVec_from_iter (iter : list X) : SortedVec X := SortedVec_from iter.
End SortedVec.

Section OrderedSet.
Context `{Toolchain} {TT T : Type} `{EqDecision T} `{HashTable nat TT}.
Context `{SizeOf (T * unit), SizeOf StarlarkHashValue, SizeOf (T * unit * StarlarkHashValue)}.

(** * Ordered sets *)

Definition OrderedSet : Type := SmallSet TT T.
Implicit Types s : OrderedSet.

Record OccupiedError := mkOccupiedError { value : T; occupied : T }.

Definition OrderedSet_new : OrderedSet := SmallSet_new.
Definition OrderedSet_with_capacity (capacity : nat) : comp OrderedSet :=
  SmallSet_with_capacity capacity.
Definition OrderedSet_len s : nat := SmallSet_len s.
Definition OrderedSet_is_empty s : bool := SmallSet_is_empty s.
Definition OrderedSet_get_index s (index : nat) : comp (option T) := SmallSet_get_index s index.
Definition OrderedSet_iter s : comp (list T) := SmallSet_iter s.
Definition OrderedSet_first s : comp (option T) := SmallSet_first s.
Definition OrderedSet_last s : comp (option T) := SmallSet_last s.
Definition OrderedSet_clear s : OrderedSet := SmallSet_clear s.
Definition OrderedSet_sort (cmp : T → T → comparison) s : comp OrderedSet := SmallSet_sort cmp s.
Definition OrderedSet_reverse s : comp OrderedSet := SmallSet_reverse s.
Definition OrderedSet_eq s (other : OrderedSet) : comp bool := SmallSet_eq_ordered s other.
Definition OrderedSet_partial_cmp (pc : T → T → option comparison) s (other : OrderedSet) :
    comp (option comparison) :=
  l ← OrderedSet_iter s; l' ← OrderedSet_iter other; Ok (lex_partial_compare pc l l').
Definition OrderedSet_cmp (c : T → T → comparison) s (other : OrderedSet) : comp comparison :=
  l ← OrderedSet_iter s; l' ← OrderedSet_iter other; Ok (lex_compare c l l').

(** * Sorted sets *)

Record SortedSet : Type := mkSortedSet { inner : OrderedSet }.
Implicit Types o : SortedSet.

Definition SortedSet_new : SortedSet := mkSortedSet OrderedSet_new.
Definition SortedSet_new_unchecked (inner : OrderedSet) : SortedSet := mkSortedSet inner.
Definition SortedSet_len o : nat := OrderedSet_len (inner o).
Definition SortedSet_is_empty o : bool := OrderedSet_is_empty (inner o).
Definition SortedSet_iter o : comp (list T) := OrderedSet_iter (inner o).
Definition SortedSet_get_index o (index : nat) : comp (option T) :=
  OrderedSet_get_index (inner o) index.
Definition SortedSet_eq o (other : SortedSet) : comp bool := OrderedSet_eq (inner o) (inner other).
Definition SortedSet_from_ordered (cmp : T → T → comparison) (inner : OrderedSet) :
    comp SortedSet :=
  inner ← OrderedSet_sort cmp inner; Ok (mkSortedSet inner).
Definition SortedSet_from_small (cmp : T → T → comparison) (inner : SmallSet TT T) :
    comp SortedSet := SortedSet_from_ordered cmp inner.

(** * Operations that hash *)

Context (hash_of : T → StarlarkHashValue).

Definition OrderedSet_get s (value : T) : comp (option T) := SmallSet_get hash_of s value.
Definition OrderedSet_contains s (value : T) : comp bool := SmallSet_contains hash_of s value.
Definition OrderedSet_get_index_of s (value : T) : comp (option nat) :=
  SmallSet_get_index_of hash_of s value.
Definition OrderedSet_take s (value : T) : comp (option T * OrderedSet) :=
  SmallSet_take hash_of s value.
Definition OrderedSet_insert s (value : T) : comp (bool * OrderedSet) :=
  SmallSet_insert hash_of s value.
Definition OrderedSet_insert_unique_unchecked s (value : T) : comp OrderedSet :=
  SmallSet_insert_unique_unchecked hash_of s value.
Definition OrderedSet_try_insert s (value : T) : result OccupiedError OrderedSet :=
  let value := Hashed_new hash_of value in
  found ← lift (SmallSet_get_hashed s value);
  match found with
  | Some occupied => Err (mkOccupiedError (key value) occupied)
  | None => lift (SmallSet_insert_hashed_unique_unchecked s value)
  end.
Definition OrderedSet_union s (other : OrderedSet) : comp (list T) := SmallSet_union hash_of s other.
Definition OrderedSet_from_iter (size_hint : nat) (iter : list T) : comp OrderedSet :=
  SmallSet_from_iter hash_of size_hint iter.
Definition OrderedSet_extend s (iter : list T) : comp OrderedSet := SmallSet_extend hash_of s iter.

Definition SortedSet_get o (value : T) : comp (option T) := OrderedSet_get (inner o) value.
Definition SortedSet_contains o (value : T) : comp bool := OrderedSet_contains (inner o) value.
Definition SortedSet_union o (other : SortedSet) : comp (list T) :=
  OrderedSet_union (inner o) (inner other).
Definition SortedSet_from_sorted_vec (size_hint : nat) (inner : SortedVec T) : comp SortedSet :=
  inner ← OrderedSet_from_iter size_hint (vec inner); Ok (mkSortedSet inner).
Definition SortedSet_from_iter (cmp : T → T → comparison) (size_hint : nat) (iter : list T) :
    comp SortedSet :=
  inner ← OrderedSet_from_iter size_hint iter;
  inner ← OrderedSet_sort cmp inner;
  Ok (mkSortedSet inner).
End OrderedSet.
Arguments OrderedSet TT T : clear implicits.
Arguments SortedSet TT T : clear implicits.
Arguments OccupiedError T : clear implicits.
Arguments mkOccupiedError {T}.

(** * Correctness *)

Lemma sorted_nodup_strict {T} (cmp : T → T → comparison) `{!LawfulCompare cmp} (l : list T) :
  NoDup l → StronglySorted (λ x y, cmp x y = Lt) (stable_sort cmp l).
Proof.
  intros Hnd. assert (NoDup (stable_sort cmp l)) as Hnd' by by rewrite stable_sort_perm.
  pose proof (stable_sort_sorted cmp l) as Hs. clear Hnd.
  induction Hs as [|x l' Hs IH Hx]; [constructor|]. apply NoDup_cons in Hnd' as [Hnin Hnd'].
  constructor; [by apply IH|]. rewrite Forall_forall in *. intros y Hy. specialize (Hx y Hy).
  unfold le_compare in Hx. destruct (cmp x y) eqn:Hc; [|done|done].
  apply lawful_eq in Hc. by subst.
Qed.

(** Strictly sorted lists with the same elements are equal. *)
Lemma strict_unique {T} (cmp : T → T → comparison) `{!LawfulCompare cmp} (l l' : list T) :
  StronglySorted (λ x y, cmp x y = Lt) l → StronglySorted (λ x y, cmp x y = Lt) l' →
  (∀ x, x ∈ l ↔ x ∈ l') → l = l'.
Proof.
  intros Hl Hl' Heq.
  assert (∀ l, StronglySorted (λ x y, cmp x y = Lt) l → NoDup l) as Hnd.
  { induction 1 as [|x k _ IH Hx]; [constructor|]. constructor; [|done].
    intros Hin. rewrite Forall_forall in Hx. specialize (Hx x Hin).
    by rewrite (proj2 (lawful_eq x x)) in Hx. }
  apply (StronglySorted_unique_strong (λ x y, cmp x y = Lt)); [|done|done|].
  - intros x y _ _ Hxy Hyx. rewrite (compare_antisym (compare:=cmp) x y), Hxy in Hyx. done.
  - apply NoDup_Permutation; auto.
Qed.

Lemma inserts_sublist {T} `{EqDecision T} (iter : list T) :
  foldl (flip ol_insert) [] iter `sublist_of` iter.
Proof.
  induction iter as [|t iter IH] using rev_ind; [done|]. rewrite foldl_snoc. simpl.
  unfold ol_insert. case_decide; [by apply sublist_inserts_r|by apply sublist_app].
Qed.

Lemma inserts_nodup {T} `{EqDecision T} (iter : list T) : NoDup (foldl (flip ol_insert) [] iter).
Proof.
  induction iter as [|t iter IH] using rev_ind; [constructor|]. rewrite foldl_snoc. simpl.
  unfold ol_insert. case_decide as Hin; [done|]. apply NoDup_app.
  split_and!; [done| |apply NoDup_singleton]. by intros x Hx ->%list_elem_of_singleton.
Qed.

Lemma strongly_sorted_sublist {X} (R : X → X → Prop) (l l' : list X) :
  l `sublist_of` l' → StronglySorted R l' → StronglySorted R l.
Proof.
  induction 1 as [|x l l' Hs IH|x l l' Hs IH]; intros Hl'; [constructor|..];
    apply StronglySorted_inv in Hl' as [Hl' Hx].
  - constructor; [by apply IH|]. rewrite Forall_forall in *. intros y Hy.
    apply Hx. by eapply elem_of_sublist.
  - by apply IH.
Qed.

Section properties.
Context `{Toolchain} {TT T : Type} `{Countable T} `{HashTableOk nat TT}.
Context `{SizeOf (T * unit), SizeOf StarlarkHashValue, SizeOf (T * unit * StarlarkHashValue)}.
Context (hash_of : T → StarlarkHashValue) (cmp : T → T → comparison) `{!LawfulCompare cmp}.
Implicit Types (s : OrderedSet TT T) (l : list T).

(** As [can_collect], for sets. *)
Definition set_can_collect (size_hint : nat) (iter : list T) : Prop :=
  fits (T * unit) StarlarkHashValue size_hint ∧ (N.of_nat size_hint ≤ ht_max)%N ∧
  ∀ s : SmallSet TT T, SmallSet_with_capacity size_hint = Ok s →
    can_insert hash_of s iter ∧ ∀ s', insert_each hash_of s iter = Ok s' → room s' 0.

Lemma OrderedSet_from_iter_spec size_hint iter :
  set_can_collect size_hint iter →
  returns (OrderedSet_from_iter (TT:=TT) hash_of size_hint iter) (λ s,
    room s 0 ∧ set_wf hash_of s (foldl (flip ol_insert) [] iter)).
Proof.
  intros (Hf & Hm & Hc). unfold OrderedSet_from_iter, SmallSet_from_iter.
  destruct (SmallMap_with_capacity_spec (T:=TT) (V:=unit) hash_of size_hint Hf Hm) as (s & Hmk & Hw).
  unfold SmallSet_with_capacity in *. rewrite Hmk. cbn [mbind result_bind].
  destruct (Hc s Hmk) as [Hext Hroom].
  destruct (insert_each_spec hash_of s [] iter) as (s' & Hs' & Hl); [by exists []|done|].
  exists s'. split; [done|]. split; [by apply Hroom|done].
Qed.

(** [OrderedSet::try_insert] appends an element that is absent, and otherwise leaves
    the set alone and reports the value and the element that stands in its way; [==] and
    [cmp] on ordered sets are those of their elements in iteration order, and [cmp] is
    [Equal] exactly when [==] holds. *)
Theorem ordered_set_order s l s' l' (v : T) :
  set_wf hash_of s l → set_wf hash_of s' l' → room s 1 →
  match OrderedSet_try_insert hash_of s v with
  | Ok s'' => (v ∉ l) ∧ set_wf hash_of s'' (l ++ [v])
  | Err e => (v ∈ l) ∧ e = mkOccupiedError v v
  | Fault _ => False
  end ∧
  OrderedSet_eq s s' = Ok (bool_decide (l = l')) ∧
  ∃ c, OrderedSet_cmp cmp s s' = Ok c ∧ (c = Eq ↔ l = l') ∧
    OrderedSet_cmp cmp s' s = Ok (CompOpp c).
Proof.
  intros Hw Hw' Hr. split_and!.
  - unfold OrderedSet_try_insert. pose proof (set_get_spec _ _ _ v Hw) as Hg.
    unfold SmallSet_get, get_full in Hg. unfold SmallSet_get_hashed. rewrite Hg. clear Hg.
    cbn [lift mbind result_bind]. destruct (decide (v ∈ l)) as [Hin|Hout]; [done|].
    destruct Hw as (es & Hw & <-). unfold SmallSet_insert_hashed_unique_unchecked, Hashed_new.
    destruct (insert_hashed_unique_unchecked_spec hash_of s es v () Hw)
      as ([s'' [[x []] set]] & -> & Hw'' & _); [|done|].
    + rewrite key_index_pos. by apply pos_of_None.
    + cbn [lift mbind result_bind]. split; [done|]. eexists. split; [done|].
      by rewrite !fmap_app.
  - destruct Hw as (es & Hw & <-), Hw' as (es' & Hw' & <-).
    unfold OrderedSet_eq, SmallSet_eq_ordered. rewrite (SmallMap_eq_ordered_spec _ _ _ _ _ Hw Hw').
    f_equal. apply bool_decide_ext.
    split; [by intros ->|]. intros Heq. by rewrite (unit_pairs es.*1), Heq, <-unit_pairs.
  - exists (lex_compare cmp l l'). unfold OrderedSet_cmp, OrderedSet_iter.
    rewrite (set_iter_spec _ _ _ Hw), (set_iter_spec _ _ _ Hw'). cbn [mbind result_bind].
    split_and!; [done|apply lawful_eq|by rewrite <-lex_antisym by apply _].
Qed.

(** sorted sets are canonical. Collected from any iterator, or converted from a
    [SortedVec] (whose elements are already sorted, so that no sorting is done), a
    [SortedSet] holds the elements of the iterator in strictly increasing order, and two
    sorted sets, however obtained, are equal exactly when they have the same elements. *)
Theorem sorted_set_canonical size_hint iter size_hint' iter' :
  set_can_collect size_hint iter →
  set_can_collect size_hint' (vec (SortedVec_from_iter cmp iter')) →
  ∃ (s s' : SortedSet TT T) l, SortedSet_from_iter hash_of cmp size_hint iter = Ok s ∧
    SortedSet_from_sorted_vec hash_of size_hint' (SortedVec_from_iter cmp iter') = Ok s' ∧
    SortedSet_iter s = Ok l ∧ StronglySorted (λ x y, cmp x y = Lt) l ∧
    (∀ x, x ∈ l ↔ x ∈ iter) ∧
    (∀ x, SortedSet_contains hash_of s x = Ok (bool_decide (x ∈ iter))) ∧
    SortedSet_eq s s' = Ok (bool_decide ((list_to_set iter : gset T) = list_to_set iter')).
Proof.
  intros Hc Hc'. unfold SortedSet_from_iter, SortedSet_from_sorted_vec.
  destruct (OrderedSet_from_iter_spec _ _ Hc) as (i & -> & Hr & Hwi).
  destruct (OrderedSet_from_iter_spec _ _ Hc') as (s' & -> & _ & Hw').
  cbn [mbind result_bind].
  destruct (set_sort_spec hash_of i _ cmp Hwi Hr) as (s & Hs & Hw).
  unfold OrderedSet_sort. rewrite Hs. cbn [mbind result_bind].
  set (l := stable_sort cmp _) in Hw. set (l' := foldl _ _ _) in Hw'.
  assert (∀ x, x ∈ l ↔ x ∈ iter) as Hl.
  { intros x. subst l. by rewrite stable_sort_perm, elem_of_inserts. }
  assert (∀ x, x ∈ l' ↔ x ∈ iter') as Hl'.
  { intros x. subst l'. rewrite elem_of_inserts. simpl. by rewrite stable_sort_perm. }
  assert (StronglySorted (λ x y, cmp x y = Lt) l) as Hlt.
  { apply sorted_nodup_strict; [done|apply inserts_nodup]. }
  assert (StronglySorted (λ x y, cmp x y = Lt) l') as Hlt'.
  { assert (stable_sort cmp l' = l') as <-.
    { apply stable_sort_id; [apply _|]. apply StronglySorted_Sorted.
      eapply strongly_sorted_sublist; [apply inserts_sublist|]. apply stable_sort_sorted, _. }
    apply sorted_nodup_strict; [done|apply inserts_nodup]. }
  exists (mkSortedSet s), (mkSortedSet s'), l. split_and!; [done|done| |done|done|..].
  - by apply (set_iter_spec hash_of).
  - intros x. unfold SortedSet_contains, OrderedSet_contains. cbn [inner].
    rewrite (set_contains_spec _ _ _ _ Hw). f_equal. apply bool_decide_ext, Hl.
  - unfold SortedSet_eq, OrderedSet_eq, SmallSet_eq_ordered. cbn [inner].
    destruct Hw as (es & Hw & Hes), Hw' as (es' & Hw' & Hes').
    rewrite (SmallMap_eq_ordered_spec _ _ _ _ _ Hw Hw'). f_equal. apply bool_decide_ext.
    transitivity (l = l').
    + rewrite <-Hes, <-Hes'. split; [by intros ->|].
      intros Heq. by rewrite (unit_pairs es.*1), Heq, <-unit_pairs.
    + rewrite set_eq. setoid_rewrite elem_of_list_to_set. split.
      * intros Heq x. by rewrite <-Hl, <-Hl', Heq.
      * intros Heq. apply (strict_unique cmp); [done|done|]. intros x. by rewrite Hl, Hl'.
Qed.
End properties.

(** ** Witnesses *)

#[local] Existing Instances stable_toolchain size_u64.
#[local] Instance size_member : SizeOf (Z * unit) := {| size_of := 8; align_of := 8 |}%Z.
#[local] Instance size_member_entry : SizeOf (Z * unit * Z) := {| size_of := 16; align_of := 8 |}%Z.

Lemma witness_member_fits : fits (Z * unit) Z 40.
Proof.
  split; [unfold usize_max, u64_max; lia|]. intros c Hc. unfold alloc_ok, Vec2Layout_new_checked,
    Layout_array, Layout_from_size_align, Layout_extend. simpl.
  do 41 (destruct c as [|c]; [vm_compute; by eexists|]). lia.
Defined.

Lemma witness_member_room (s : SmallSet (list_table nat) Z) n :
  2 * (VecMap_len (entries s) + VecMap_capacity (entries s)) + 8 + n ≤ 40 → room s n.
Proof.
  intros Hn. split; [by eapply fits_le, Hn; apply witness_member_fits|].
  unfold ht_max; simpl. lia.
Defined.

Lemma witness_set_collect :
  set_can_collect (TT:=list_table nat) witness_hash 2 [3; 1]%Z ∧
  set_can_collect (TT:=list_table nat) witness_hash 0 (vec (SortedVec_from_iter Z.compare [3; 1; 3]%Z)).
Proof.
  split; (split; [eapply fits_le; [apply witness_member_fits|lia]|split; [by vm_compute|]]);
    intros s Hs; vm_compute in Hs; injection Hs as <-;
    (split; [|intros s' Hs'; vm_compute in Hs'; injection Hs' as <-;
              apply witness_member_room; vm_compute; lia]);
    repeat (split; [apply witness_member_room; vm_compute; lia|];
            intros b s' Hs'; vm_compute in Hs'; injection Hs' as <- <-); exact I.
Defined.

Lemma ordered_set_order_witness :
  OrderedSet_eq witness_indexed_set witness_plain_set = Ok false.
Proof.
  destruct (ordered_set_order witness_hash Z.compare witness_indexed_set _ witness_plain_set _ 3%Z
    (proj1 witness_set_wf) (proj2 witness_set_wf)) as (_ & He & _).
  - apply witness_member_room. vm_compute. lia.
  - rewrite He. by vm_compute.
Defined.

Lemma sorted_set_canonical_witness :
  ∃ s s' : SortedSet (list_table nat) Z, SortedSet_eq s s' = Ok true ∧
    SortedSet_contains witness_hash s 2%Z = Ok false.
Proof.
  destruct (sorted_set_canonical witness_hash Z.compare _ _ _ _
    (proj1 witness_set_collect) (proj2 witness_set_collect))
    as (s & s' & _ & _ & _ & _ & _ & _ & Hc & He).
  exists s, s'. split; [rewrite He; by vm_compute|rewrite Hc; by vm_compute].
Defined.
