(* ===== verification/UnorderedMap.v ===== *)
(** [starlark_map/src/unordered_map.rs] and [unordered_set.rs]: hash maps and sets whose
    interface does not show an order of iteration, over hashbrown's table of pairs.  The
    theorems say that they are finite maps: nothing observable depends on the order in
    which the table happens to hold the pairs. *)

From S2P Require Import Prelude Vec2 Hashing TableMap SmallMapSpec OrderedMap.

(** * The code *)

Section UnorderedMap.
Context {T K V : Type} `{EqDecision K} `{HashTable (K * V) T}.
Context (hash_of : K → StarlarkHashValue).

(** [UnorderedMap(RawTable<(K, V)>)]. *)
Record UnorderedMap := mkUnorderedMap { table : T }.
Implicit Types m : UnorderedMap.

Definition UnorderedMap_with_capacity (n : nat) : comp UnorderedMap :=
  t ← ht_with_capacity n; Ok (mkUnorderedMap t).
Definition UnorderedMap_new : comp UnorderedMap := UnorderedMap_with_capacity 0.
Definition UnorderedMap_len m : nat := length (ht_entries (table m)).
Definition UnorderedMap_is_empty m : bool := UnorderedMap_len m =? 0.
Definition UnorderedMap_clear m : UnorderedMap := mkUnorderedMap (ht_clear (table m)).

(** The closures given to the table: a test on keys, and the hash of a pair. *)
Definition key_matches (is_match : K → bool) (kv : K * V) : comp bool := Ok (is_match kv.1).
Definition equivalent (k k' : K) : bool := bool_decide (k = k').
Definition rehash (kv : K * V) : comp Z := Ok (promote (hash_of kv.1)).

Definition UnorderedMap_get_hashed m (k : Hashed K) : comp (option V) :=
  o ← ht_find (table m) (promote (hash k)) (key_matches (equivalent (key k)));
  Ok (option_map snd o).
Definition UnorderedMap_get m (k : K) : comp (option V) :=
  UnorderedMap_get_hashed m (Hashed_new hash_of k).
(** The value and how to assign it. *)
Definition UnorderedMap_get_mut m (k : K) : comp (option (V * (V → UnorderedMap))) :=
  o ← ht_find_mut (table m) (promote (hash_of k)) (key_matches (equivalent k));
  Ok (match o with
      | Some (kv, set, _) => Some (kv.2, λ v, mkUnorderedMap (set (kv.1, v)))
      | None => None
      end).
Definition UnorderedMap_contains_key_hashed m (k : Hashed K) : comp bool :=
  o ← UnorderedMap_get_hashed m k; Ok (bool_decide (is_Some o)).
Definition UnorderedMap_contains_key m (k : K) : comp bool :=
  o ← UnorderedMap_get m k; Ok (bool_decide (is_Some o)).

(** ** Entries *)

(** A bucket is a pair in the table: the pair, the map with another pair in its place, and
    the map without it. *)
Record RawOccupiedEntryMut := mkRawOccupied {
  bucket : K * V;
  bucket_set : K * V → UnorderedMap;
  bucket_removed : UnorderedMap;
}.
Inductive RawEntryMut :=
| Occupied (e : RawOccupiedEntryMut)
| Vacant (m : UnorderedMap).

Definition from_hash m (h : StarlarkHashValue) (is_match : K → bool) : comp RawEntryMut :=
  o ← ht_find_mut (table m) (promote h) (key_matches is_match);
  Ok (match o with
      | Some (kv, set, removed) =>
        Occupied (mkRawOccupied kv (λ kv, mkUnorderedMap (set kv)) (mkUnorderedMap removed))
      | None => Vacant m
      end).
Definition from_key_hashed m (k : Hashed K) : comp RawEntryMut :=
  from_hash m (hash k) (equivalent (key k)).
Definition from_key m (k : K) : comp RawEntryMut := from_key_hashed m (Hashed_new hash_of k).

Definition RawOccupied_insert (e : RawOccupiedEntryMut) (v : V) : V * UnorderedMap :=
  ((bucket e).2, bucket_set e ((bucket e).1, v)).
Definition RawOccupied_insert_key (e : RawOccupiedEntryMut) (k : K) : K * UnorderedMap :=
  ((bucket e).1, bucket_set e (k, (bucket e).2)).
Definition RawOccupied_remove_entry (e : RawOccupiedEntryMut) : (K * V) * UnorderedMap :=
  (bucket e, bucket_removed e).
Definition RawOccupied_remove (e : RawOccupiedEntryMut) : V * UnorderedMap :=
  let '(kv, m) := RawOccupied_remove_entry e in (kv.2, m).
(** The references to the new pair that it returns are left out. *)
Definition RawVacant_insert_hashed m (k : Hashed K) (v : V) : comp UnorderedMap :=
  t ← ht_insert_unique (table m) (promote (hash k)) (key k, v) rehash;
  Ok (mkUnorderedMap t).

Definition UnorderedMap_insert m (k : K) (v : V) : comp (option V * UnorderedMap) :=
  let k := Hashed_new hash_of k in
  e ← from_key_hashed m k;
  match e with
  | Occupied e => let '(old, m) := RawOccupied_insert e v in Ok (Some old, m)
  | Vacant m => m ← RawVacant_insert_hashed m k v; Ok (None, m)
  end.
Definition UnorderedMap_remove m (k : K) : comp (option V * UnorderedMap) :=
  e ← from_key m k;
  match e with
  | Occupied e => let '(v, m) := RawOccupied_remove e in Ok (Some v, m)
  | Vacant m => Ok (None, m)
  end.

(** [Entry]. *)
Inductive MapEntry :=
| EntryOccupied (e : RawOccupiedEntryMut)
| EntryVacant (m : UnorderedMap) (hash : Z) (key : K).

Definition UnorderedMap_entry m (k : K) : comp MapEntry :=
  let hash := promote (hash_of k) in
  o ← ht_find_mut (table m) hash (key_matches (equivalent k));
  Ok (match o with
      | Some (kv, set, removed) =>
        EntryOccupied (mkRawOccupied kv (λ kv, mkUnorderedMap (set kv)) (mkUnorderedMap removed))
      | None => EntryVacant m hash k
      end).
Definition EntryVacant_insert m (hash : Z) (key : K) (v : V) : comp UnorderedMap :=
  t ← ht_insert_unique (table m) hash (key, v) rehash; Ok (mkUnorderedMap t).

(** ** Whole maps *)

(** The predicate may change the value; the pairs it refuses are erased. *)
Definition UnorderedMap_retain m (f : K → V → bool * V) : comp UnorderedMap :=
  '(_, t) ← ht_retain _ (table m) () (λ _ kv,
    let '(keep, v) := f kv.1 kv.2 in Ok ((), if keep : bool then Some (kv.1, v) else None));
  Ok (mkUnorderedMap t).

Definition entries_unordered m : list (K * V) := (ht_entries (table m)).*2.
Definition keys_unordered m : list K := (entries_unordered m).*1.
Definition values_unordered m : list V := (entries_unordered m).*2.
Definition entries_sorted (cmp : K → K → comparison) m : list (K * V) :=
  stable_sort (λ x y, cmp x.1 y.1) (entries_unordered m).

Fixpoint all_equal `{EqDecision V} (l : list (K * V)) (other : UnorderedMap) : comp bool :=
  match l with
  | [] => Ok true
  | (k, v) :: l =>
    o ← UnorderedMap_get other k;
    if bool_decide (o = Some v) then all_equal l other else Ok false
  end.
Definition UnorderedMap_eq `{EqDecision V} m (other : UnorderedMap) : comp bool :=
  if UnorderedMap_len m =? UnorderedMap_len other then all_equal (entries_unordered m) other
  else Ok false.

(** [Hash]: [finish] is the 64-bit hash of a pair run through a fresh [StarlarkHasher], and
    [state] is fed the length and the wrapping sum. *)
Definition UnorderedMap_hash {S} (finish : K * V → Z) (hash_len : nat → S → S)
    (hash_u64 : Z → S → S) m (state : S) : S :=
  let state := hash_len (UnorderedMap_len m) state in
  let sum := foldl (λ sum kv, as_u64 (sum + finish kv)) 0%Z (entries_unordered m) in
  hash_u64 sum state.

Fixpoint insert_pairs m (l : list (K * V)) : comp UnorderedMap :=
  match l with
  | [] => Ok m
  | (k, v) :: l => '(_, m) ← UnorderedMap_insert m k v; insert_pairs m l
  end.
Definition UnorderedMap_from_iter (size_hint : nat) (l : list (K * V)) : comp UnorderedMap :=
  m ← UnorderedMap_with_capacity size_hint; insert_pairs m l.
End UnorderedMap.
Arguments UnorderedMap : clear implicits.
Arguments mkUnorderedMap {T}.
Arguments table {T}.

(** [map_values] builds a map of another type. *)
Definition map_values {T T' K V W} `{EqDecision K, HashTable (K * V) T, HashTable (K * W) T'}
    (hash_of : K → StarlarkHashValue) (m : UnorderedMap T) (f : V → W) : comp (UnorderedMap T') :=
  map ← UnorderedMap_with_capacity (UnorderedMap_len m);
  insert_pairs hash_of map ((λ kv, (kv.1, f kv.2)) <$> entries_unordered m).

(** [UnorderedSet]: a map to [()]. *)
Section UnorderedSet.
Context {T X : Type} `{EqDecision X} `{HashTable (X * unit) T}.
Context (hash_of : X → StarlarkHashValue).
Definition UnorderedSet : Type := UnorderedMap T.
Implicit Types s : UnorderedSet.

Definition UnorderedSet_new : comp UnorderedSet := UnorderedMap_new.
Definition UnorderedSet_with_capacity (n : nat) : comp UnorderedSet := UnorderedMap_with_capacity n.
Definition UnorderedSet_insert s (k : X) : comp (bool * UnorderedSet) :=
  '(old, s) ← UnorderedMap_insert hash_of s k ();
  Ok (match old with None => true | Some _ => false end, s).
Definition UnorderedSet_clear s : UnorderedSet := UnorderedMap_clear s.
Definition UnorderedSet_len s : nat := UnorderedMap_len s.
Definition UnorderedSet_is_empty s : bool := UnorderedMap_is_empty s.
Definition UnorderedSet_contains s (x : X) : comp bool := UnorderedMap_contains_key hash_of s x.
Definition UnorderedSet_contains_hashed s (x : Hashed X) : comp bool :=
  UnorderedMap_contains_key_hashed s x.
Definition UnorderedSet_iter s : list X := (entries_unordered s).*1.
(** [sort_unstable]: any sorted permutation, here the stable one. *)
Definition UnorderedSet_entries_sorted (cmp : X → X → comparison) s : list X :=
  stable_sort cmp (UnorderedSet_iter s).
Definition UnorderedSet_eq s (other : UnorderedSet) : comp bool := UnorderedMap_eq hash_of s other.
Definition UnorderedSet_from_iter (size_hint : nat) (l : list X) : comp UnorderedSet :=
  UnorderedMap_from_iter hash_of size_hint ((λ x, (x, ())) <$> l).
End UnorderedSet.

(** * The map as a finite map *)

Section models.
Context {T K V : Type} `{Countable K} `{HashTableOk (K * V) T}.
Context (hash_of : K → StarlarkHashValue).
Implicit Types (m : UnorderedMap T) (M : gmap K V).

(** What the table holds for a pair. *)
Definition stored (kv : K * V) : Z * (K * V) := (promote (hash_of kv.1), kv).
Definition models m M : Prop := table_models stored (table m) M.

Lemma models_pairs m M : models m M → entries_unordered m ≡ₚ map_to_list M.
Proof.
  unfold entries_unordered. intros ->. rewrite <-list_fmap_compose.
  change (snd ∘ stored) with (@id (K * V)%type). by rewrite list_fmap_id.
Qed.

Lemma models_len m M : models m M → UnorderedMap_len m = size M.
Proof. apply table_size. Qed.

Lemma key_searches M k : searches stored M k (promote (hash_of k)) (key_matches (equivalent k)).
Proof. done. Qed.

(** ** Operations *)

Lemma get_ok m M k : models m M → UnorderedMap_get hash_of m k = Ok (M !! k).
Proof.
  intros Hm. unfold UnorderedMap_get, UnorderedMap_get_hashed. simpl.
  destruct (table_find _ _ _ _ _ _ Hm (key_searches M k)) as (o & -> & Ho). simpl. f_equal.
  destruct o as [kv|]; [|done]. by destruct Ho as (v & -> & ->).
Qed.

Lemma insert_unique_ok m M k v :
  models m M → M !! k = None → (N.of_nat (size M) < ht_max)%N →
  returns (ht_insert_unique (table m) (promote (hash_of k)) (k, v) (rehash hash_of))
    (λ t, models (mkUnorderedMap t) (<[k := v]> M)).
Proof. intros Hm Hk Hroom. by apply (table_insert stored _ _ k v). Qed.

Lemma find_mut_key_ok m M k :
  models m M →
  returns (ht_find_mut (table m) (promote (hash_of k)) (key_matches (equivalent k)))
    (λ o, match o with
     | Some (kv, set, removed) => ∃ v, kv = (k, v) ∧ M !! k = Some v ∧
         (∀ v, models (mkUnorderedMap (set (k, v))) (<[k := v]> M)) ∧
         models (mkUnorderedMap removed) (delete k M)
     | None => M !! k = None
     end).
Proof.
  intros Hm. eapply returns_mono; [apply (table_find_mut _ _ _ _ _ _ Hm (key_searches M k))|].
  intros [[[kv set] removed]|]; [|done]. intros (v & Hk & -> & Hset & Hrem). by exists v.
Qed.

Lemma insert_ok m M k v :
  models m M → (N.of_nat (size M) < ht_max)%N →
  returns (UnorderedMap_insert hash_of m k v) (λ '(old, m'), old = M !! k ∧ models m' (<[k := v]> M)).
Proof.
  intros Hm Hroom. unfold UnorderedMap_insert, from_key_hashed, from_hash. cbn zeta. simpl.
  apply returns_bind. step_with find_mut_key_ok; [done|]. intros [[[kv set] removed]|].
  - intros (w & -> & Hk & Hset & _). step_ret. apply returns_ret. split; [done|apply Hset].
  - intros Hk. step_ret. unfold RawVacant_insert_hashed. simpl. apply returns_bind.
    step_with insert_unique_ok; [done..|]. intros t Ht. apply returns_ret. by apply returns_ret.
Qed.

Lemma remove_ok m M k :
  models m M →
  returns (UnorderedMap_remove hash_of m k) (λ '(old, m'), old = M !! k ∧ models m' (delete k M)).
Proof.
  intros Hm. unfold UnorderedMap_remove, from_key, from_key_hashed, from_hash. simpl.
  apply returns_bind. step_with find_mut_key_ok; [done|]. intros [[[kv set] removed]|].
  - intros (w & -> & Hk & _ & Hrem). step_ret. by apply returns_ret.
  - intros Hk. step_ret. apply returns_ret. by rewrite delete_id.
Qed.

(** What [retain] keeps. *)
Definition map_retain (f : K → V → bool * V) : gmap K V → gmap K V :=
  map_imap (λ k v, let '(keep, v) := f k v in if keep then Some v else None).
Definition retain_pair (f : K → V → bool * V) (kv : K * V) : option (K * V) :=
  let '(keep, v) := f kv.1 kv.2 in if keep then Some (kv.1, v) else None.

Lemma map_retain_pairs f M :
  map_to_list (map_retain f M) ≡ₚ omap (retain_pair f) (map_to_list M).
Proof.
  induction M as [|k v M Hk IH] using map_ind.
  { unfold map_retain. by rewrite map_imap_empty, map_to_list_empty. }
  rewrite map_to_list_insert by done. csimpl. unfold map_retain. rewrite map_imap_insert.
  fold (map_retain f M). assert (map_retain f M !! k = None) as Hnone
    by (unfold map_retain; by rewrite map_lookup_imap, Hk).
  unfold retain_pair at 1. simpl. destruct (f k v) as [[|] w]; simpl; rewrite <-IH.
  - by apply map_to_list_insert.
  - by rewrite delete_id.
Qed.

Lemma entries_retain_ok f (l : list (Z * (K * V))) :
  entries_retain () (λ _ kv, let '(keep, v) := f kv.1 kv.2 in
    Ok ((), if keep : bool then Some (kv.1, v) else None)) l =
  Ok ((), omap (λ e, (λ kv, (e.1, kv)) <$> retain_pair f e.2) l).
Proof.
  induction l as [|[h [k v]] l IH]; [done|]. cbn [entries_retain omap list_omap].
  unfold retain_pair. simpl. destruct (f k v) as [[|] w]; simpl; by rewrite IH.
Qed.

Lemma omap_stored f (l : list (K * V)) :
  omap (λ e, (λ kv, (e.1, kv)) <$> retain_pair f e.2) (stored <$> l) =
  stored <$> omap (retain_pair f) l.
Proof.
  induction l as [|[k v] l IH]; [done|]. csimpl. unfold retain_pair. simpl.
  destruct (f k v) as [[|] w]; csimpl; [f_equal|]; apply IH.
Qed.

Lemma retain_map_ok m M f :
  models m M →
  returns (UnorderedMap_retain m f) (λ m', models m' (map_retain f M)).
Proof.
  intros Hm. unfold UnorderedMap_retain.
  step_with retain_ok; [apply (entries_retain_ok f)|]. intros [[] t] [_ Ht]. apply returns_ret.
  unfold models, table_models in *. simpl. by rewrite Ht, map_retain_pairs, <-omap_stored, Hm.
Qed.

Lemma clear_map_ok m : models (UnorderedMap_clear m) ∅.
Proof. apply table_empty, clear_ok. Qed.

Lemma with_capacity_map_ok n :
  (N.of_nat n ≤ ht_max)%N → returns (UnorderedMap_with_capacity (T:=T) n) (λ m, models m ∅).
Proof.
  intros Hn. unfold UnorderedMap_with_capacity. step_with with_capacity_ok; [done|].
  intros t [Ht _]. apply returns_ret. by apply table_empty.
Qed.

(** Inserting pairs one after the other. *)
Definition insert_all_pairs M (l : list (K * V)) : gmap K V :=
  foldl (λ M kv, <[kv.1 := kv.2]> M) M l.

Lemma insert_pairs_ok m M l :
  models m M → (N.of_nat (size M + length l) ≤ ht_max)%N →
  returns (insert_pairs hash_of m l) (λ m', models m' (insert_all_pairs M l)).
Proof.
  revert m M. induction l as [|[k v] l IH]; intros m M Hm Hroom; simpl in *.
  { by apply returns_ret. }
  step_with insert_ok; [done|lia|]. intros [old m'] [_ Hm']. apply IH; [done|].
  rewrite map_size_insert. destruct (M !! k); simpl; lia.
Qed.

Lemma from_iter_ok n l :
  (N.of_nat n ≤ ht_max)%N → (N.of_nat (length l) ≤ ht_max)%N →
  returns (UnorderedMap_from_iter (T:=T) hash_of n l) (λ m, models m (insert_all_pairs ∅ l)).
Proof.
  intros Hn Hl. unfold UnorderedMap_from_iter. step_with with_capacity_map_ok; [done|].
  intros m Hm. apply insert_pairs_ok; [done|]. by rewrite map_size_empty.
Qed.
End models.

(** * The abstract data type *)

Inductive umap_op (K V : Type) : Type :=
| UGet (k : K)
| UContains (k : K)
| ULen
| UInsert (k : K) (v : V)
| UAssign (k : K) (v : V)
| UEntryOr (k : K) (v : V)
| URemove (k : K)
| URetain (f : K → V → bool * V)
| UMapValues (f : V → V)
| UClear.
Arguments UGet {K V}. Arguments UContains {K V}. Arguments ULen {K V}.
Arguments UInsert {K V}. Arguments UAssign {K V}. Arguments UEntryOr {K V}.
Arguments URemove {K V}. Arguments URetain {K V}. Arguments UMapValues {K V}.
Arguments UClear {K V}.

Inductive umap_answer (V : Type) : Type :=
| UValue (o : option V)
| UBool (b : bool)
| UNat (n : nat)
| UUnit.
Arguments UValue {V}. Arguments UBool {V}. Arguments UNat {V}. Arguments UUnit {V}.

(** What a finite map does. *)
Definition gmap_exec {K V} `{Countable K} (M : gmap K V) (op : umap_op K V) :
    umap_answer V * gmap K V :=
  match op with
  | UGet k => (UValue (M !! k), M)
  | UContains k => (UBool (bool_decide (is_Some (M !! k))), M)
  | ULen => (UNat (size M), M)
  | UInsert k v => (UValue (M !! k), <[k := v]> M)
  | UAssign k v => (UValue (M !! k), alter (λ _, v) k M)
  | UEntryOr k v => (UValue (M !! k), match M !! k with Some _ => M | None => <[k := v]> M end)
  | URemove k => (UValue (M !! k), delete k M)
  | URetain f => (UUnit, map_retain f M)
  | UMapValues f => (UUnit, f <$> M)
  | UClear => (UUnit, ∅)
  end.

Section refinement.
Context {T K V : Type} `{Countable K} `{HashTableOk (K * V) T}.
Context (hash_of : K → StarlarkHashValue).
Implicit Types (m : UnorderedMap T) (M : gmap K V).

(** [UEntryOr] inserts through the entry of an absent key. *)
Definition umap_exec m (op : umap_op K V) : comp (umap_answer V * UnorderedMap T) :=
  match op with
  | UGet k => o ← UnorderedMap_get hash_of m k; Ok (UValue o, m)
  | UContains k => b ← UnorderedMap_contains_key hash_of m k; Ok (UBool b, m)
  | ULen => Ok (UNat (UnorderedMap_len m), m)
  | UInsert k v => '(o, m) ← UnorderedMap_insert hash_of m k v; Ok (UValue o, m)
  | UAssign k v =>
    o ← UnorderedMap_get_mut hash_of m k;
    Ok (match o with Some (old, set) => (UValue (Some old), set v) | None => (UValue None, m) end)
  | UEntryOr k v =>
    e ← UnorderedMap_entry hash_of m k;
    match e with
    | EntryOccupied e => Ok (UValue (Some (bucket e).2), m)
    | EntryVacant m hash key => m ← EntryVacant_insert hash_of m hash key v; Ok (UValue None, m)
    end
  | URemove k => '(o, m) ← UnorderedMap_remove hash_of m k; Ok (UValue o, m)
  | URetain f => m ← UnorderedMap_retain m f; Ok (UUnit, m)
  | UMapValues f => m ← map_values hash_of m f; Ok (UUnit, m)
  | UClear => Ok (UUnit, UnorderedMap_clear m)
  end.

Lemma get_mut_ok m M k v :
  models hash_of m M →
  returns (UnorderedMap_get_mut hash_of m k) (λ o, match o with
    | Some (old, set) => M !! k = Some old ∧ models hash_of (set v) (alter (λ _, v) k M)
    | None => M !! k = None
    end).
Proof.
  intros Hm. unfold UnorderedMap_get_mut. step_with find_mut_key_ok; [done|].
  intros [[[kv set] removed]|]; intros Hf; apply returns_ret; [|done].
  destruct Hf as (w & -> & Hk & Hset & _). split; [done|]. simpl.
  replace (alter (λ _, v) k M) with (<[k := v]> M); [done|].
  apply map_eq. intros k'. rewrite lookup_insert, lookup_alter. case_decide; [|done].
  subst. by rewrite Hk.
Qed.

Lemma entry_ok m M k :
  models hash_of m M →
  returns (UnorderedMap_entry hash_of m k) (λ e, match e with
    | EntryOccupied e => M !! k = Some (bucket e).2
    | EntryVacant m' h k' => m' = m ∧ h = promote (hash_of k) ∧ k' = k ∧ M !! k = None
    end).
Proof.
  intros Hm. unfold UnorderedMap_entry. cbn zeta. step_with find_mut_key_ok; [done|].
  intros [[[kv set] removed]|]; intros Hf; apply returns_ret; [|done].
  by destruct Hf as (v & -> & Hk & _).
Qed.

Lemma insert_all_values (f : V → V) M (l : list (K * V)) :
  NoDup l.*1 → list_to_map l = M → insert_all_pairs ∅ ((λ kv, (kv.1, f kv.2)) <$> l) = f <$> M.
Proof.
  intros Hnd <-. unfold insert_all_pairs.
  induction l as [|[k v] l IH] using rev_ind; [simpl; by rewrite fmap_empty|].
  rewrite fmap_app, foldl_app. rewrite fmap_app in Hnd.
  pose proof Hnd as (Hl & Hk & _)%NoDup_app. rewrite IH by done. simpl.
  rewrite list_to_map_app. simpl. rewrite insert_empty, map_union_comm.
  - rewrite <-insert_union_singleton_l. by rewrite fmap_insert.
  - apply map_disjoint_singleton_r_2, not_elem_of_list_to_map_1.
    intros Hin. apply (Hk k Hin). by left.
Qed.

Lemma map_values_ok m M (f : V → V) :
  models hash_of m M → (N.of_nat (size M) ≤ ht_max)%N →
  returns (map_values hash_of m f) (λ m', models hash_of m' (f <$> M)).
Proof.
  intros Hm Hroom. unfold map_values. pose proof (models_pairs _ _ _ Hm) as Hp.
  assert (length (entries_unordered m) = size M) as Hlen
    by by rewrite Hp, length_map_to_list.
  assert (NoDup (entries_unordered m).*1) as Hnd by (rewrite Hp; apply NoDup_fst_map_to_list).
  step_with with_capacity_map_ok; [by rewrite (models_len _ _ _ Hm)|]. intros m0 Hm0.
  rewrite <-(insert_all_values f M (entries_unordered m)).
  - apply insert_pairs_ok; [done|]. by rewrite map_size_empty, length_fmap, Hlen.
  - done.
  - rewrite (list_to_map_proper _ (map_to_list M)) by done. apply list_to_map_to_list.
Qed.

Lemma all_equal_ok `{EqDecision V} (l : list (K * V)) m M :
  models hash_of m M →
  all_equal hash_of l m = Ok (forallb (λ kv, bool_decide (M !! kv.1 = Some kv.2)) l).
Proof.
  intros Hm. induction l as [|[k v] l IH]; [done|]. simpl. rewrite (get_ok _ _ _ _ Hm). simpl.
  by case_bool_decide.
Qed.

Lemma UnorderedMap_eq_ok `{EqDecision V} m m' M M' :
  models hash_of m M → models hash_of m' M' →
  UnorderedMap_eq hash_of m m' = Ok (bool_decide (M = M')).
Proof.
  intros Hm Hm'. unfold UnorderedMap_eq. rewrite (models_len _ _ _ Hm), (models_len _ _ _ Hm').
  destruct (Nat.eqb_spec (size M) (size M')) as [Hs|Hs].
  - rewrite (all_equal_ok _ _ _ Hm'). f_equal. apply eq_bool_prop_intro.
    rewrite bool_decide_spec, forallb_True, (models_pairs _ _ _ Hm), Forall_forall. split.
    + intros Hall. apply map_subseteq_size_eq; [|lia]. apply map_subseteq_spec. intros k v Hk.
      apply elem_of_map_to_list, Hall, bool_decide_spec in Hk. done.
    + intros -> [k v] Hk%elem_of_map_to_list. by apply bool_decide_spec.
  - rewrite bool_decide_eq_false_2; [done|]. by intros ->.
Qed.

(** The wrapping sum of [Hash] does not depend on the order. *)
Lemma wrapping_sum_perm {X} (f : X → Z) (l l' : list X) (s : Z) :
  l ≡ₚ l' →
  foldl (λ sum x, as_u64 (sum + f x)) (as_u64 s) l = foldl (λ sum x, as_u64 (sum + f x)) (as_u64 s) l'.
Proof.
  assert (∀ l s, foldl (λ sum x, as_u64 (sum + f x)) (as_u64 s) l =
    as_u64 (s + foldr (λ x z, f x + z) 0 l))%Z as Hsum.
  { clear. intros l. unfold as_u64. induction l as [|x l IH]; intros s; simpl; [f_equal; lia|].
    rewrite Z.add_mod_idemp_l, IH by lia. f_equal. lia. }
  intros Hp. rewrite !Hsum. do 2 f_equal. clear -Hp.
  induction Hp; simpl; [done|by f_equal|lia|by etrans].
Qed.
End refinement.

(** * Properties *)

Section properties.
Context {T K V : Type} `{Countable K} `{HashTableOk (K * V) T}.
Context (hash_of : K → StarlarkHashValue).
Implicit Types (m : UnorderedMap T) (M : gmap K V).

(** C37: [UnorderedMap] refines a finite map. Whatever the order and the layout of the table,
    every operation returns, with the answer of the finite map, and leaves a table that holds
    the pairs of the new finite map, each under the promoted hash of its key. *)
Theorem unordered_map_refines m M (op : umap_op K V) :
  models hash_of m M → (N.of_nat (size M) < ht_max)%N →
  returns (umap_exec hash_of m op) (λ '(answer, m'), ∃ M',
    models hash_of m' M' ∧ gmap_exec M op = (answer, M')).
Proof.
  intros Hm Hroom. destruct op as [k|k| |k v|k v|k v|k|f|f|]; simpl.
  - rewrite (get_ok _ _ _ _ Hm). apply returns_ret. by exists M.
  - unfold UnorderedMap_contains_key. rewrite (get_ok _ _ _ _ Hm). apply returns_ret. by exists M.
  - apply returns_ret. exists M. by rewrite (models_len _ _ _ Hm).
  - step_with insert_ok; [done..|]. intros [o m'] [-> Hm']. apply returns_ret. by eexists.
  - step_with (get_mut_ok hash_of m M k v); [done|]. intros [[old set]|] Hf; apply returns_ret.
    + destruct Hf as [-> Hset]. by eexists.
    + exists M. by rewrite Hf, alter_id by (intros w; by rewrite Hf).
  - step_with entry_ok; [done|]. intros [e|m' h k'] He.
    + apply returns_ret. exists M. by rewrite He.
    + destruct He as (-> & -> & -> & Hk). unfold EntryVacant_insert. apply returns_bind.
      step_with insert_unique_ok; [done..|]. intros t Ht. apply returns_ret, returns_ret.
      eexists. split; [exact Ht|]. by rewrite Hk.
  - step_with remove_ok; [done..|]. intros [o m'] [-> Hm']. apply returns_ret. by eexists.
  - step_with retain_map_ok; [done..|]. intros m' Hm'. apply returns_ret. by eexists.
  - step_with map_values_ok; [done|lia|]. intros m' Hm'. apply returns_ret. by eexists.
  - apply returns_ret. eexists. split; [apply clear_map_ok|done].
Qed.

(** nothing observable depends on the order of the table. [==] decides equality of the
    finite maps; tables of the same map have the same hash, whatever the hasher, and the
    same sorted entries; a map collected from pairs holds the last value of each key. *)
Theorem unordered_map_observes `{EqDecision V} (cmp : K → K → comparison) `{!LawfulCompare cmp}
    m m' M M' n (pairs : list (K * V)) :
  models hash_of m M → models hash_of m' M' →
  (N.of_nat n ≤ ht_max)%N → (N.of_nat (length pairs) ≤ ht_max)%N →
  UnorderedMap_eq hash_of m m' = Ok (bool_decide (M = M')) ∧
  (M = M' → (∀ S finish hash_len hash_u64 (state : S),
     UnorderedMap_hash finish hash_len hash_u64 m state =
     UnorderedMap_hash finish hash_len hash_u64 m' state) ∧
   entries_sorted cmp m = entries_sorted cmp m') ∧
  returns (UnorderedMap_from_iter (T:=T) hash_of n pairs)
    (λ m, models hash_of m (map_of pairs)).
Proof.
  intros Hm Hm' Hn Hpairs. split_and!.
  - by apply UnorderedMap_eq_ok.
  - intros <-. pose proof (models_pairs _ _ _ Hm) as Hp. pose proof (models_pairs _ _ _ Hm') as Hp'.
    split.
    + intros S finish hash_len hash_u64 state. unfold UnorderedMap_hash.
      rewrite (models_len _ _ _ Hm), (models_len _ _ _ Hm'). f_equal.
      apply (wrapping_sum_perm finish _ _ 0). by rewrite Hp, Hp'.
    + apply (sorted_unique cmp).
      * rewrite Hp. apply NoDup_fst_map_to_list.
      * rewrite Hp'. apply NoDup_fst_map_to_list.
      * unfold to_map. rewrite (list_to_map_proper _ (map_to_list M)), (list_to_map_proper
          (entries_unordered m') (map_to_list M)); rewrite ?Hp, ?Hp'; try done;
          apply NoDup_fst_map_to_list.
  - by apply from_iter_ok.
Qed.
End properties.

(** ** Concrete inputs *)

Definition witness_parity (k : Z) : StarlarkHashValue := (k mod 2)%Z.
Definition witness_table : UnorderedMap (list_table (Z * Z)) :=
  mkUnorderedMap (mkListTable [(promote 1, (3, 30)); (promote 1, (1, 10))]%Z 4).
Definition witness_table' : UnorderedMap (list_table (Z * Z)) :=
  mkUnorderedMap (mkListTable [(promote 1, (1, 10)); (promote 1, (3, 30))]%Z 4).
Definition witness_gmap : gmap Z Z := {[1 := 10; 3 := 30]}%Z.

Lemma witness_models :
  models witness_parity witness_table witness_gmap ∧
  models witness_parity witness_table' witness_gmap.
Proof.
  assert (map_to_list witness_gmap ≡ₚ [(1, 10); (3, 30)]%Z) as Hl.
  { unfold witness_gmap. rewrite map_to_list_insert by by vm_compute.
    by rewrite map_to_list_singleton. }
  unfold models, table_models. rewrite Hl. split; [apply Permutation_swap|done].
Defined.

Lemma unordered_map_refines_witness :
  returns (umap_exec witness_parity witness_table (URemove 3%Z)) (λ '(answer, m'), ∃ M',
    models witness_parity m' M' ∧ (UValue (Some 30%Z), delete 3%Z witness_gmap) = (answer, M')).
Proof.
  pose proof (unordered_map_refines witness_parity witness_table witness_gmap (URemove 3%Z)
    (proj1 witness_models)) as Hr.
  cbn [gmap_exec] in Hr. change (witness_gmap !! 3%Z) with (Some 30%Z) in Hr. apply Hr.
  vm_compute. reflexivity.
Defined.

Lemma unordered_map_observes_witness :
  UnorderedMap_eq witness_parity witness_table witness_table' = Ok true.
Proof.
  rewrite (proj1 (unordered_map_observes witness_parity Z.compare _ _ _ _ 0 []
    (proj1 witness_models) (proj2 witness_models) ltac:(done) ltac:(done))).
  by rewrite bool_decide_eq_true_2.
Defined.
