(* ===== verification/StringRepr.v ===== *)
(** [starlark/src/values/types/string/repr.rs] and the vector interface of [simd.rs]: [repr]
    of strings, with its vector, byte and character loops. The buffer is its bytes. *)

From S2P Require Import Prelude FastString Utf8.

(** * Vectors *)

(** [Vector]: [N] bytes. *)
Section vector.
Context (N : nat).
Definition vector : Type := list byte.

Definition i8 (b : byte) : Z := (if b <? 0x80 then b else b - 256)%Z.
Definition splat (b : byte) : vector := replicate N b.
Definition load_unaligned (memory : list byte) (p : nat) : comp vector :=
  if p + N <=? length memory then Ok (take N (drop p memory)) else UB.
Definition cmplt (a b : vector) : vector :=
  zip_with (λ x y, if (i8 x <? i8 y)%Z then 0xFF else 0x00)%Z a b.
Definition cmpeq (a b : vector) : vector :=
  zip_with (λ x y, if (x =? y)%Z then 0xFF else 0x00)%Z a b.
Definition vor (a b : vector) : vector := zip_with Z.lor a b.
Fixpoint movemask (a : vector) : Z :=
  match a with
  | [] => 0
  | x :: a => Z.b2z (Z.testbit x 7) + 2 * movemask a
  end%Z.

Definition or4 (a b c d : vector) : vector :=
  let ab := vor a b in let cd := vor c d in vor ab cd.

Definition chunk_non_ascii_or_need_escape (chunk : vector) : bool :=
  let any_control_or_non_ascii := cmplt chunk (splat 32) in
  let any_7f := cmpeq chunk (splat 0x7f) in
  let any_double_quote := cmpeq chunk (splat 0x22) in
  let any_backslash := cmpeq chunk (splat 0x5C) in
  let need_escape := or4 any_control_or_non_ascii any_7f any_double_quote any_backslash in
  negb (movemask need_escape =? 0)%Z.
End vector.

(** * Escapes *)

(** [{:02x}] and the like: lower-case hexadecimal digits, padded with zeros. *)
Definition hex_digit (d : Z) : byte := (if d <? 10 then 0x30 + d else 0x61 + (d - 10))%Z.
Fixpoint hex_digits (fuel : nat) (c : Z) (acc : list byte) : list byte :=
  match fuel with
  | 0 => acc
  | S fuel =>
    let acc := hex_digit (c mod 16)%Z :: acc in
    if (c <? 16)%Z then acc else hex_digits fuel (c / 16)%Z acc
  end.
(** A [u32] has at most 8 digits. *)
Definition fmt_hex (width : nat) (c : Z) : list byte :=
  let ds := hex_digits 8 c [] in replicate (width - length ds) 0x30%Z ++ ds.

Definition push_escape (to_escape : char) (buffer : list byte) : list byte :=
  (if to_escape =? 0x0A then buffer ++ [0x5C; 0x6E]
   else if to_escape =? 0x0D then buffer ++ [0x5C; 0x72]
   else if to_escape =? 0x09 then buffer ++ [0x5C; 0x74]
   else if to_escape =? 0x5C then buffer ++ [0x5C; 0x5C]
   else if to_escape =? 0x22 then buffer ++ [0x5C; 0x22]
   else if to_escape <? 0x100 then buffer ++ [0x5C; 0x78] ++ fmt_hex 2 to_escape
   else if to_escape <? 0x10000 then buffer ++ [0x5C; 0x75] ++ fmt_hex 4 to_escape
   else buffer ++ [0x5C; 0x55] ++ fmt_hex 8 to_escape)%Z.

Section repr.
(** [char::is_alphanumeric] is a table of the Unicode standard. *)
Context (is_alphanumeric : char → bool).

Definition need_escape (c : char) : bool :=
  (if c <? 0x20 then true
   else if c =? 0x22 then true
   else if c =? 0x5C then true
   else if c <? 0x7f then false
   else if c <=? 0xff then true
   else negb (is_alphanumeric c))%Z.

(** * The loops *)

Fixpoint loop_unicode (val : str) (buffer : list byte) : list byte :=
  match val with
  | [] => buffer
  | x :: val =>
    if need_escape x then loop_unicode val (push_escape x buffer)
    else loop_unicode val (buffer ++ encode_utf8 x)
  end.

(** The loop over the bytes of [val] from position [done] on. *)
Fixpoint loop_ascii_from (val : str) (done : nat) (rest : list byte) (buffer : list byte) :
    comp (list byte) :=
  match rest with
  | [] => Ok buffer
  | x :: rest =>
    if (0x7f <=? x)%Z then v ← str_from val done; Ok (loop_unicode v buffer)
    else if need_escape x then loop_ascii_from val (S done) rest (push_escape x buffer)
    else loop_ascii_from val (S done) rest (buffer ++ [x])
  end.
Definition loop_ascii (val : str) (buffer : list byte) : comp (list byte) :=
  loop_ascii_from val 0 (bytes val) buffer.

Section simd.
Context (N capacity : nat).

(** A store of the whole vector that ends where the new content ends. *)
Definition push_vec_tail (buffer : list byte) (v : vector) (tail_len : nat) : comp (list byte) :=
  _ ← assert (0 <? tail_len);
  _ ← assert (tail_len <=? N);
  let new_buffer_len := length buffer + tail_len in
  _ ← assert (N <=? new_buffer_len);
  _ ← assert (new_buffer_len <=? capacity);
  Ok (take (new_buffer_len - N) buffer ++ v).

(** The loop over full chunks; an early return is [inl]. *)
Fixpoint simd_chunks (val : str) (val_offset : nat) (buffer : list byte) (fuel : nat) :
    comp (list byte + nat * list byte) :=
  if val_offset + N <=? str_len val then
    match fuel with
    | 0 => UB
    | S fuel =>
      chunk ← load_unaligned N (bytes val) val_offset;
      if chunk_non_ascii_or_need_escape N chunk then
        v ← str_from val val_offset; b ← loop_ascii v buffer; Ok (inl b)
      else
        buffer ← push_vec_tail buffer chunk N;
        simd_chunks val (val_offset + N) buffer fuel
    end
  else Ok (inr (val_offset, buffer)).

Definition loop_ascii_simd (val : str) (buffer : list byte) : comp (list byte) :=
  _ ← assert (str_len val + 1 <=? capacity - length buffer);
  if str_len val <? N then loop_ascii val buffer else
  r ← simd_chunks val 0 buffer (S (str_len val));
  match r with
  | inl b => Ok b
  | inr (val_offset, buffer) =>
    _ ← assert (N <=? val_offset);
    _ ← assert (str_len val <? val_offset + N);
    _ ← assert (val_offset mod N =? 0);
    if val_offset <? str_len val then
      let chunk_len := str_len val - val_offset in
      _ ← assert (0 <? chunk_len);
      _ ← assert (chunk_len <? N);
      chunk ← load_unaligned N (bytes val) (str_len val - N);
      if chunk_non_ascii_or_need_escape N chunk then
        v ← str_from val val_offset; loop_ascii v buffer
      else push_vec_tail buffer chunk chunk_len
    else Ok buffer
  end.
End simd.

(** [reserve b n] is the capacity after reserving [n] more bytes; [simd] is the size of the
    vectors where the target has them ([SwitchHaveSimd]). *)
Context (reserve : list byte → nat → nat) (simd : option nat).

Definition string_repr (val : str) (buffer : list byte) : comp (list byte) :=
  let capacity := reserve buffer (2 + str_len val) in
  let buffer := buffer ++ [0x22%Z] in
  buffer ← match simd with
           | Some N => loop_ascii_simd N capacity val buffer
           | None => loop_ascii val buffer
           end;
  Ok (buffer ++ [0x22%Z]).
End repr.

(** * Correctness *)

(** ** Vector comparison *)

Definition plain_byte (x : Z) : Prop := (0x20 ≤ x < 0x7f ∧ x ≠ 0x22 ∧ x ≠ 0x5C)%Z.

Lemma movemask_nonneg a : (0 ≤ movemask a)%Z.
Proof. induction a as [|x a IH]; cbn [movemask]; [lia|]. destruct (Z.testbit x 7); cbn [Z.b2z]; lia. Qed.

Lemma chunk_check chunk :
  Forall (λ x, 0 ≤ x < 256)%Z chunk →
  chunk_non_ascii_or_need_escape (length chunk) chunk = false → Forall plain_byte chunk.
Proof.
  unfold chunk_non_ascii_or_need_escape. rewrite negb_false_iff, Z.eqb_eq.
  unfold splat, or4, vor, cmplt, cmpeq.
  induction 1 as [|x chunk Hx _ IH]; [constructor|]. cbn [length replicate zip_with movemask].
  match goal with |- context [(Z.b2z (Z.testbit ?flag 7) + 2 * movemask ?rest)%Z] =>
    pose proof (movemask_nonneg rest); destruct (Z.testbit flag 7) eqn:Hf end; cbn [Z.b2z]; [lia|].
  intros Hm. constructor; [|apply IH; lia].
  rewrite !Z.lor_spec in Hf. apply orb_false_iff in Hf as [Hf1 Hf2].
  apply orb_false_iff in Hf1 as [H1 H2]. apply orb_false_iff in Hf2 as [H3 H4].
  assert ((i8 x <? i8 32)%Z = false) as Hi by (by destruct (i8 x <? i8 32)%Z).
  assert ((x =? 0x7f)%Z = false) as H7 by (by destruct (x =? 0x7f)%Z).
  assert ((x =? 0x22)%Z = false) as Hq by (by destruct (x =? 0x22)%Z).
  assert ((x =? 0x5C)%Z = false) as Hb by (by destruct (x =? 0x5C)%Z).
  apply Z.eqb_neq in H7, Hq, Hb. apply Z.ltb_ge in Hi. unfold i8, plain_byte in *.
  simpl in Hi. revert Hi. destruct (Z.ltb_spec x 0x80); lia.
Qed.

(** ** Plain text *)

Lemma valid_bytes s : valid_str s → Forall (λ x, 0 ≤ x < 256)%Z (bytes s).
Proof.
  induction 1 as [|c s Hc _ IH]; [constructor|]. rewrite bytes_cons. apply Forall_app. split; [|done].
  apply encode_is_char in Hc. destruct (encode_utf8 c) as [|b cont]; [done|].
  destruct Hc as (Hb & _ & Hcont). constructor; [lia|]. eapply Forall_impl; [exact Hcont|]. simpl. lia.
Qed.

Lemma plain_bytes s : Forall plain_byte s → bytes s = s.
Proof.
  induction 1 as [|c s [Hc _] _ IH]; [done|]. rewrite bytes_cons, encode_ascii, IH by lia. done.
Qed.
Lemma plain_len s : Forall plain_byte s → str_len s = length s.
Proof. intros Hs. unfold str_len. by rewrite plain_bytes. Qed.

(** Bytes that are plain are plain characters. *)
Lemma plain_prefix s n :
  valid_str s → n ≤ str_len s → Forall plain_byte (take n (bytes s)) →
  ∃ r, s = take n (bytes s) ++ r.
Proof.
  revert n. induction s as [|c s IH]; intros n Hv Hn Hp.
  { exists []. by destruct n. }
  destruct n as [|n]; [by exists (c :: s)|]. apply Forall_cons in Hv as [Hc Hv].
  rewrite bytes_cons in Hp |- *. destruct (Z.ltb_spec c 0x80) as [Ha|Ha].
  - rewrite encode_ascii in Hp |- * by done. simpl in *. apply Forall_cons in Hp as [_ Hp].
    rewrite str_len_cons, len_ascii in Hn by done.
    destruct (IH n Hv ltac:(lia) Hp) as [r Hr]. exists r. by rewrite Hr at 1.
  - exfalso. destruct (encode_utf8 c) as [|b cont] eqn:He.
    { pose proof (len_utf8_pos c) as Hl. unfold len_utf8 in Hl. rewrite He in Hl. simpl in Hl. lia. }
    simpl in Hp. apply Forall_cons in Hp as [[Hb _] _].
    pose proof (encode_wide c b Ha ltac:(rewrite He; by left)). lia.
Qed.

Section correct.
Context (is_alphanumeric : char → bool).
Let need_escape := need_escape is_alphanumeric.

(** The characters of [repr], one at a time. *)
Definition escape_of (c : char) : list byte :=
  if need_escape c then push_escape c [] else encode_utf8 c.
Definition escaped (s : str) : list byte := concat (escape_of <$> s).

Lemma push_escape_app c b : push_escape c b = b ++ push_escape c [].
Proof. unfold push_escape. by repeat case_match. Qed.

Lemma escaped_app s t : escaped (s ++ t) = escaped s ++ escaped t.
Proof. unfold escaped. by rewrite fmap_app, concat_app. Qed.

Lemma plain_not_escaped c : plain_byte c → need_escape c = false.
Proof.
  intros (Hc & Hq & Hb). subst need_escape. unfold StringRepr.need_escape.
  rewrite (proj2 (Z.ltb_ge c 0x20)), (proj2 (Z.eqb_neq c 0x22)), (proj2 (Z.eqb_neq c 0x5C)),
    (proj2 (Z.ltb_lt c 0x7f)) by lia. done.
Qed.

Lemma plain_escaped s : Forall plain_byte s → escaped s = s.
Proof.
  induction 1 as [|c s Hc _ IH]; [done|]. unfold escaped in *. csimpl.
  unfold escape_of at 1. rewrite plain_not_escaped by done. destruct Hc as [Hc _].
  by rewrite encode_ascii, IH by lia.
Qed.

Lemma loop_unicode_spec val b : loop_unicode is_alphanumeric val b = b ++ escaped val.
Proof.
  revert b. induction val as [|c val IH]; intros b; simpl; [by rewrite app_nil_r|].
  unfold escaped. csimpl. unfold escape_of at 1. fold need_escape.
  destruct (need_escape c); rewrite IH; [rewrite push_escape_app|]; by rewrite <-app_assoc.
Qed.

Lemma loop_ascii_from_spec pre post b :
  valid_str post →
  loop_ascii_from is_alphanumeric (pre ++ post) (str_len pre) (bytes post) b = Ok (b ++ escaped post).
Proof.
  intros Hv. revert pre b. induction Hv as [|c post Hc Hv IH]; intros pre b.
  { simpl. by rewrite app_nil_r. }
  rewrite bytes_cons. destruct (Z.ltb_spec c 0x7f) as [Hlt|Hge].
  - rewrite encode_ascii by lia. cbn [loop_ascii_from app]. rewrite (proj2 (Z.leb_gt _ _)) by lia.
    assert (pre ++ c :: post = (pre ++ [c]) ++ post) as -> by by rewrite <-app_assoc.
    replace (S (str_len pre)) with (str_len (pre ++ [c])).
    2: { rewrite str_len_app, str_len_cons, len_ascii by lia. unfold str_len at 2. simpl. lia. }
    unfold escaped. csimpl. unfold escape_of at 1. fold need_escape.
    destruct (need_escape c) eqn:Hne.
    + rewrite IH, push_escape_app, <-app_assoc. done.
    + rewrite IH, encode_ascii, <-app_assoc by lia. done.
  - assert (∃ x rest, encode_utf8 c = x :: rest ∧ (0x7f ≤ x)%Z) as (x & rest & He & Hx).
    { destruct (encode_utf8 c) as [|x rest] eqn:He.
      - pose proof (len_utf8_pos c) as Hl. unfold len_utf8 in Hl. rewrite He in Hl. simpl in Hl. lia.
      - exists x, rest. split; [done|]. destruct (Z.ltb_spec c 0x80).
        + rewrite encode_ascii in He by done. injection He as <- <-. done.
        + pose proof (encode_wide c x ltac:(lia) ltac:(rewrite He; by left)). lia. }
    rewrite He. cbn [loop_ascii_from app]. rewrite (proj2 (Z.leb_le _ _) Hx).
    rewrite str_from_app. cbn [mbind result_bind]. by rewrite loop_unicode_spec.
Qed.

Lemma loop_ascii_spec val b :
  valid_str val → loop_ascii is_alphanumeric val b = Ok (b ++ escaped val).
Proof. apply (loop_ascii_from_spec []). Qed.

(** ** The vector loop *)

Section simd.
Context (N capacity : nat) (val : str) (b0 : list byte).
Hypothesis N_pos : 0 < N.
Hypothesis val_valid : valid_str val.
Hypothesis has_capacity : length b0 + str_len val ≤ capacity.

Lemma push_vec_tail_spec b v n :
  length v = N → 0 < n → n ≤ N → N ≤ length b + n → length b + n ≤ capacity →
  push_vec_tail N capacity b v n = Ok (take (length b + n - N) b ++ v).
Proof.
  intros Hv H0 Hn HN Hc. unfold push_vec_tail.
  rewrite (proj2 (Nat.ltb_lt _ _) H0), (proj2 (Nat.leb_le _ _) Hn), (proj2 (Nat.leb_le _ _) HN),
    (proj2 (Nat.leb_le _ _) Hc). done.
Qed.

(** What has been copied is a plain prefix of the string. *)
Lemma simd_chunks_spec pre rest fuel :
  val = pre ++ rest → Forall plain_byte pre → length pre mod N = 0 → str_len rest < fuel →
  returns (E:=Empty_set) (simd_chunks is_alphanumeric N capacity val (length pre) (b0 ++ pre) fuel) (λ r,
    match r with
    | inl b => b = b0 ++ escaped val
    | inr (off, b) => ∃ pre' rest', val = pre' ++ rest' ∧ Forall plain_byte pre' ∧
        off = length pre' ∧ b = b0 ++ pre' ∧ off mod N = 0 ∧ str_len rest' < N ∧
        length pre ≤ off
    end).
Proof.
  revert pre rest. induction fuel as [|fuel IH]; intros pre rest Hval Hp Hmod Hf; [lia|].
  assert (valid_str rest) as Hv by (rewrite Hval in val_valid; by apply Forall_app in val_valid as [_ ?]).
  assert (str_len val = length pre + str_len rest) as Hlen
    by by rewrite Hval, str_len_app, (plain_len pre).
  cbn [simd_chunks]. rewrite Hlen. destruct (Nat.leb_spec (length pre + N) (length pre + str_len rest)).
  2: { apply returns_ret. exists pre, rest. split_and!; [done..|lia|done]. }
  assert (bytes val = pre ++ bytes rest) as Hbytes by by rewrite Hval, bytes_app, (plain_bytes pre).
  unfold load_unaligned. rewrite Hbytes, length_app. fold (str_len rest).
  rewrite (proj2 (Nat.leb_le _ _)) by lia. cbn [mbind result_bind]. rewrite drop_app_length.
  assert (length (take N (bytes rest)) = N) as HN.
  { rewrite length_take. fold (str_len rest). lia. }
  destruct (chunk_non_ascii_or_need_escape N (take N (bytes rest))) eqn:Hchunk.
  - rewrite Hval at 1. rewrite <-(plain_len pre), str_from_app by done. cbn [mbind result_bind].
    rewrite loop_ascii_spec by done. apply returns_ret.
    by rewrite Hval, escaped_app, (plain_escaped pre), app_assoc.
  - rewrite <-HN in Hchunk at 1. apply chunk_check in Hchunk; [|by apply Forall_take, valid_bytes].
    destruct (plain_prefix rest N Hv ltac:(lia) Hchunk) as [r Hr].
    set (p := take N (bytes rest)) in *.
    rewrite push_vec_tail_spec by (rewrite ?length_app; lia). cbn [mbind result_bind].
    rewrite take_ge, <-app_assoc by (rewrite length_app; lia).
    replace (length pre + N) with (length (pre ++ p)) by (rewrite length_app; lia).
    assert (str_len rest = N + str_len r) as Hsl.
    { rewrite Hr at 1. by rewrite str_len_app, (plain_len p), HN. }
    eapply returns_mono; [apply (IH (pre ++ p) r)|].
    + by rewrite <-app_assoc, <-Hr.
    + by apply Forall_app.
    + rewrite length_app, HN, Nat.Div0.add_mod, Hmod, Nat.Div0.mod_same by lia.
      apply Nat.Div0.mod_0_l.
    + lia.
    + intros [b|[off b]]; [done|]. intros (pre' & rest' & ? & ? & ? & ? & ? & ? & Hle).
      exists pre', rest'. split_and!; [done..|]. rewrite length_app in Hle. lia.
Qed.

Lemma loop_ascii_simd_spec :
  length b0 + str_len val < capacity →
  loop_ascii_simd is_alphanumeric N capacity val b0 = Ok (b0 ++ escaped val).
Proof.
  intros Hcap. unfold loop_ascii_simd. rewrite (proj2 (Nat.leb_le _ _)) by lia.
  cbn [assert mbind result_bind]. destruct (Nat.ltb_spec (str_len val) N) as [Hlt|Hge].
  { by apply loop_ascii_spec. }
  destruct (simd_chunks_spec [] val (S (str_len val))) as (r & Hr & Hpost);
    [done|constructor|apply Nat.Div0.mod_0_l|lia|]. rewrite app_nil_r in Hr.
  cbn [length] in Hr. rewrite Hr. cbn [mbind result_bind]. destruct r as [b|[off b]]; [by subst|].
  destruct Hpost as (pre & rest & Hval & Hp & -> & -> & Hmod & Hrest & _).
  assert (valid_str rest) as Hv by (rewrite Hval in val_valid; by apply Forall_app in val_valid as [_ ?]).
  assert (str_len val = length pre + str_len rest) as Hlen
    by by rewrite Hval, str_len_app, (plain_len pre).
  assert (N ≤ length pre) as HNp.
  { destruct (decide (length pre < N)); [|lia]. rewrite Nat.mod_small in Hmod by done. lia. }
  rewrite (proj2 (Nat.leb_le _ _) HNp), (proj2 (Nat.ltb_lt (str_len val) _)) by lia.
  rewrite (proj2 (Nat.eqb_eq _ _) Hmod). cbn [assert mbind result_bind].
  destruct (Nat.ltb_spec (length pre) (str_len val)) as [Hmore|Hdone].
  2: { assert (rest = []) as ->.
    { destruct rest as [|c rest]; [done|]. rewrite str_len_cons in Hlen.
      pose proof (len_utf8_pos c). lia. }
    by rewrite Hval, app_nil_r, (plain_escaped pre). }
  rewrite (proj2 (Nat.ltb_lt 0 _)), (proj2 (Nat.ltb_lt (str_len val - _) _)) by lia.
  cbn [assert mbind result_bind]. unfold load_unaligned.
  assert (bytes val = pre ++ bytes rest) as Hbytes by by rewrite Hval, bytes_app, (plain_bytes pre).
  fold (str_len val). rewrite (proj2 (Nat.leb_le _ _)) by lia. cbn [mbind result_bind].
  rewrite (take_ge (drop _ _)) by (rewrite length_drop; fold (str_len val); lia).
  set (chunk := drop (str_len val - N) (bytes val)).
  assert (length chunk = N) as HN by (subst chunk; rewrite length_drop; fold (str_len val); lia).
  destruct (chunk_non_ascii_or_need_escape N chunk) eqn:Hchunk.
  - rewrite Hval at 1. rewrite <-(plain_len pre), str_from_app by done. cbn [mbind result_bind].
    rewrite loop_ascii_spec by done. by rewrite Hval, escaped_app, (plain_escaped pre), app_assoc.
  - rewrite <-HN in Hchunk at 1.
    apply chunk_check in Hchunk; [|by apply Forall_drop, valid_bytes].
    assert (chunk = drop (str_len val - N) pre ++ bytes rest) as Heq.
    { subst chunk. by rewrite Hbytes, drop_app_le by lia. }
    assert (Forall plain_byte (bytes rest)) as Hrp by (rewrite Heq in Hchunk; by apply Forall_app in Hchunk as [_ ?]).
    assert (rest = bytes rest) as Hrb.
    { destruct (plain_prefix rest (str_len rest) Hv ltac:(lia)) as [q Hq]; [by apply Forall_take|].
      rewrite take_ge in Hq by done. assert (q = []) as ->; [|by rewrite app_nil_r in Hq].
      destruct q as [|c q]; [done|]. exfalso. apply (f_equal str_len) in Hq.
      rewrite str_len_app, str_len_cons, (plain_len (bytes rest)) in Hq by done. fold (str_len rest) in Hq.
      pose proof (len_utf8_pos c). lia. }
    rewrite push_vec_tail_spec by (rewrite ?length_app; lia). f_equal.
    rewrite length_app.
    replace (length b0 + length pre + (str_len val - length pre) - N)
      with (length b0 + (str_len val - N)) by lia.
    rewrite take_app_add, Heq, <-app_assoc. f_equal. rewrite app_assoc, take_drop, <-Hrb, <-Hval.
    symmetry. apply plain_escaped. rewrite Hval. apply Forall_app. split; [done|by rewrite Hrb].
Qed.
End simd.

Lemma string_repr_escaped reserve simd val buffer :
  valid_str val → length buffer + (2 + str_len val) ≤ reserve buffer (2 + str_len val) →
  (∀ N, simd = Some N → 0 < N) →
  string_repr is_alphanumeric reserve simd val buffer =
    Ok (buffer ++ [0x22%Z] ++ escaped val ++ [0x22%Z]).
Proof.
  intros Hv Hr HN. unfold string_repr. destruct simd as [N|].
  - rewrite loop_ascii_simd_spec; [|by apply HN|done|rewrite length_app; cbn [length]; lia..].
    cbn [mbind result_bind]. by rewrite <-!app_assoc.
  - rewrite loop_ascii_spec by done. cbn [mbind result_bind]. by rewrite <-!app_assoc.
Qed.
End correct.

(** * Properties *)

(** C16: [repr] is the quoted result of the plain loop over characters, whether the target
    has vectors, of whatever size, or not: no vector is read or stored out of bounds, the
    overlapping store of the last vector rewrites what is already there, and giving up a
    faster loop for a slower one loses nothing. *)
Theorem string_repr_simple (is_alphanumeric : char → bool) (reserve : list byte → nat → nat)
    (simd : option nat) (val : str) (buffer : list byte) :
  valid_str val → (∀ b n, length b + n ≤ reserve b n) → (∀ N, simd = Some N → 0 < N) →
  string_repr is_alphanumeric reserve simd val buffer =
    Ok (buffer ++ [0x22%Z] ++ loop_unicode is_alphanumeric val [] ++ [0x22%Z]).
Proof.
  intros Hv Hr HN. rewrite loop_unicode_spec. by apply string_repr_escaped.
Qed.

(** ** Witness *)

(** [Hello, "世界"] and a tail, with vectors of 4 bytes. *)
Definition witness_text : str :=
  [0x48; 0x65; 0x6C; 0x6C; 0x6F; 0x2C; 0x20; 0x22; 0x4E16; 0x754C; 0x22; 0x2E; 0x0A]%Z.

Lemma string_repr_simple_witness :
  string_repr (λ c, (0x3000 <=? c)%Z) (λ b n, length b + n) (Some 4) witness_text [] =
    Ok ([0x22; 0x48; 0x65; 0x6C; 0x6C; 0x6F; 0x2C; 0x20; 0x5C; 0x22; 0xE4; 0xB8; 0x96; 0xE7; 0x95;
         0x8C; 0x5C; 0x22; 0x2E; 0x5C; 0x6E; 0x22]%Z).
Proof.
  rewrite (string_repr_simple (λ c, (0x3000 <=? c)%Z) (λ b n, length b + n) (Some 4) witness_text []);
    [by vm_compute| |done|].
  - repeat constructor.
  - intros N [= <-]. lia.
Defined.
