(* ===== verification/StrFormat.v ===== *)
(** [starlark/src/values/types/string/interpolation.rs], [dot_format.rs] and
    [starlark_syntax/src/dot_format_parser.rs]: the operator [%] on strings and the method [format], with the
    short cuts for formats with one argument.  A format is the list of its characters; the positions that the code
    has are in bytes, and cutting a format within a character is a panic ([str_from], [str_upto], [str_slice]). *)

From S2P Require Import Prelude FastString Utf8 StringRepr.

Local Open Scope Z_scope.

(** * Values, as formatting sees them *)

(** [NumRef], with integers that are inline or big.  [F]: floating point numbers. *)
Inductive NumRef (F : Type) := NumSmall (z : Z) | NumBig (z : Z) | NumFloat (f : F).
Arguments NumSmall {F}. Arguments NumBig {F}. Arguments NumFloat {F}.

Inductive PercentSFormat := FmtStr | FmtRepr | FmtDec | FmtOct | FmtHex | FmtHexUpper
| FmtExp | FmtExpUpper | FmtFloat | FmtFloatCompact | FmtFloatCompactUpper.

(** [StringInterpolationError], and the errors of values. *)
Inductive InterpolationError (V : Type) :=
| TooManyParameters | NotEnoughParameters | IncompleteFormat | ExpectingFormatCharacter
| UnsupportedFormatCharacter (c : char)
| UnsupportedType (format : str) (v : V)
| NotANumber (v : V).
Arguments TooManyParameters {V}. Arguments NotEnoughParameters {V}. Arguments IncompleteFormat {V}.
Arguments ExpectingFormatCharacter {V}. Arguments UnsupportedFormatCharacter {V}. Arguments UnsupportedType {V}. Arguments NotANumber {V}.

(** What formatting asks of values: the contents of a string or a tuple, the representation, and numbers, with the
    printing of floating point numbers ([values/types/float]). *)
Class Format (V F : Type) := {
  fmt_unpack_str : V → option (list byte);
  fmt_repr : V → list byte;
  fmt_tuple : V → option (list V);
  fmt_num : V → option (NumRef F);
  float_trunc_int : F → option Z;
  float_of_int : Z → F;
  write_float : PercentSFormat → F → list byte;
}.

(** ** Integers in a radix *)

Definition upper_digit (b : byte) : byte := if (0x61 <=? b) && (b <=? 0x7A) then b - 32 else b.
(** [{}], [{:o}] and [{:x}] of an integer that is not negative. *)
Fixpoint radix_digits (fuel : nat) (radix n : Z) (acc : list byte) : list byte :=
  match fuel with
  | O => acc
  | S fuel =>
    let acc := hex_digit (n mod radix) :: acc in
    if n <? radix then acc else radix_digits fuel radix (n / radix) acc
  end.
Definition write_radix (radix n : Z) : list byte := radix_digits (S (Z.to_nat (Z.log2 n))) radix n [].
Definition sign_of (n : Z) : list byte := if n <? 0 then [0x2D] else [].
Definition write_signed (radix n : Z) : list byte := sign_of n ++ write_radix radix (Z.abs n).

(** "-20000000000" and "-80000000". *)
Definition I32_MIN_OCTAL : list byte := [0x2D; 0x32; 0x30; 0x30; 0x30; 0x30; 0x30; 0x30; 0x30; 0x30; 0x30; 0x30].
Definition I32_MIN_HEX : list byte := [0x2D; 0x38; 0x30; 0x30; 0x30; 0x30; 0x30; 0x30; 0x30].
(** [i32::checked_abs]. *)
Definition checked_abs (v : Z) : option Z := if v =? i32_min then None else Some (Z.abs v).

(** * The operator [%] *)

(** [PercentFormatParser::next]: the literal, the format, and the rest of the format string. *)
Fixpoint position (p : byte) (s : list byte) : option nat :=
  match s with
  | [] => None
  | c :: s => if c =? p then Some O else S <$> position p s
  end.
Definition percent_format (f : byte) : option PercentSFormat :=
  if f =? 0x73 then Some FmtStr else if f =? 0x72 then Some FmtRepr
  else if f =? 0x64 then Some FmtDec else if f =? 0x6F then Some FmtOct
  else if f =? 0x78 then Some FmtHex else if f =? 0x58 then Some FmtHexUpper
  else if f =? 0x65 then Some FmtExp else if f =? 0x45 then Some FmtExpUpper
  else if (f =? 0x66) || (f =? 0x46) then Some FmtFloat
  else if f =? 0x67 then Some FmtFloatCompact else if f =? 0x47 then Some FmtFloatCompactUpper
  else None.
Definition percent_next {V} (rem : str) : option (result (InterpolationError V) (str * option PercentSFormat * str)) :=
  match position 0x25 (bytes rem) with
  | Some index_of_percent => Some (
      literal ← lift (str_upto rem index_of_percent);
      rest ← lift (str_from rem index_of_percent);
      match bytes rest !! 1%nat with
      | None => Err IncompleteFormat
      | Some f =>
        '(literal, format) ←
          (if f =? 0x25 then literal ← lift (str_upto rem (index_of_percent + 1)); Ok (literal, None) else
           match percent_format f with
           | Some format => Ok (literal, Some format)
           | None => match rest !! 1%nat with Some c => Err (UnsupportedFormatCharacter c) | None => Err ExpectingFormatCharacter end
           end);
        rem ← lift (str_from rest 2);
        Ok (literal, format, rem)
      end)
  | None => match rem with [] => None | _ => Some (Ok (rem, None, [])) end
  end.

Section format.
Context {V F : Type} {Fmt : Format V F}.
Local Abbreviation res A := (result (InterpolationError V) A).

Definition next_value (values : list V) : res (V * list V) :=
  match values with [] => Err NotEnoughParameters | v :: values => Ok (v, values) end.
Definition unpack_param (v : V) : res (NumRef F) := ok_or (fmt_num v) (NotANumber v).
Definition as_float (n : NumRef F) : F :=
  match n with NumSmall z | NumBig z => float_of_int z | NumFloat f => f end.
(** [%o], [%x] and [%X]: the representation in a radix, with the constant for [i32::MIN]. *)
Definition write_int (radix : Z) (min : list byte) (map_digit : byte → byte) (name : list byte) (value : V) : res (list byte) :=
  match fmt_num value with
  | Some (NumSmall v) =>
    match checked_abs v with
    | Some vp => Ok (sign_of v ++ (map_digit <$> write_radix radix vp))
    | None => Ok min
    end
  | Some (NumBig v) => Ok (sign_of v ++ (map_digit <$> write_radix radix (Z.abs v)))
  | Some (NumFloat _) | None => Err (UnsupportedType name value)
  end.
(** "format(%d)" and the like. *)
Definition format_name (c : byte) : list byte := [0x66; 0x6F; 0x72; 0x6D; 0x61; 0x74; 0x28; 0x25; c; 0x29].
Definition collect_str (v : V) : list byte :=
  match fmt_unpack_str v with None => fmt_repr v | Some s => s end.
Definition write_value (format : PercentSFormat) (v : V) : res (list byte) :=
  match format with
  | FmtStr => Ok (collect_str v)
  | FmtRepr => Ok (fmt_repr v)
  | FmtDec =>
    match fmt_num v with
    | Some (NumSmall z) | Some (NumBig z) => Ok (write_signed 10 z)
    | Some (NumFloat f) =>
      match float_trunc_int f with
      | Some z => Ok (write_signed 10 z)
      | None => Err (UnsupportedType (format_name 0x64) v)
      end
    | None => Err (UnsupportedType (format_name 0x64) v)
    end
  | FmtOct => write_int 8 I32_MIN_OCTAL id (format_name 0x6F) v
  | FmtHex => write_int 16 I32_MIN_HEX id (format_name 0x78) v
  | FmtHexUpper => write_int 16 I32_MIN_HEX upper_digit (format_name 0x58) v
  | FmtExp | FmtExpUpper | FmtFloat | FmtFloatCompact | FmtFloatCompactUpper =>
    n ← unpack_param v; Ok (write_float format (as_float n))
  end.

(** The loop of [percent]; every item takes at least one byte of the format. *)
Fixpoint percent_loop (fuel : nat) (rem : list byte) (values : list V) (buf : list byte) : res (list byte * list V) :=
  match fuel with
  | O => Panic
  | S fuel =>
    match percent_next rem with
    | None => Ok (buf, values)
    | Some item =>
      '(literal, format, rem) ← item;
      let buf := buf ++ literal in
      match format with
      | None => percent_loop fuel rem values buf
      | Some format =>
        '(v, values) ← next_value values;
        text ← write_value format v;
        percent_loop fuel rem values (buf ++ text)
      end
    end
  end.
Definition percent (format : list byte) (value : V) : res (list byte) :=
  let values := match fmt_tuple value with Some xs => xs | None => [value] end in
  '(buf, values) ← percent_loop (S (length format)) format values [];
  match values with [] => Ok buf | _ => Err TooManyParameters end.

(** [format_one] and [percent_s_one]. *)
Definition format_one (before : list byte) (arg : V) (after : list byte) : list byte :=
  match fmt_unpack_str arg with
  | Some arg => before ++ arg ++ after
  | None => (before ++ fmt_repr arg) ++ after
  end.
Definition percent_s_one (before : list byte) (arg : V) (after : list byte) : res (list byte) :=
  match fmt_unpack_str arg with
  | Some arg => Ok (before ++ arg ++ after)
  | None =>
    one ← match fmt_tuple arg with
          | Some [] => Err NotEnoughParameters
          | Some [value] => Ok value
          | Some _ => Err TooManyParameters
          | None => Ok arg
          end;
    Ok (format_one before one after)
  end.
End format.

(** [parse_percent_s_one]: what is before and after the only [%s]. *)
Fixpoint percent_after (chars : list byte) (after : list byte) : option (list byte) :=
  match chars with
  | [] => Some after
  | c :: chars =>
    if c =? 0x25 then
      match chars with
      | d :: chars => if d =? 0x25 then percent_after chars (after ++ [0x25]) else None
      | [] => None
      end
    else percent_after chars (after ++ [c])
  end.
Fixpoint percent_before (chars : list byte) (before : list byte) : option (list byte * list byte) :=
  match chars with
  | [] => None
  | c :: chars =>
    if c =? 0x25 then
      match chars with
      | d :: chars =>
        if d =? 0x25 then percent_before chars (before ++ [0x25])
        else if d =? 0x73 then Some (before, chars) else None
      | [] => None
      end
    else percent_before chars (before ++ [c])
  end.
Definition parse_percent_s_one (format : list byte) : option (list byte * list byte) :=
  '(before, chars) ← percent_before format [];
  after ← percent_after chars [];
  Some (before, after).


(** * The method [format] *)

Inductive FormatConv := ConvStr | ConvRepr.
Inductive EscapeCurlyBrace := BraceOpen | BraceClose.
Definition escape_as_str (e : EscapeCurlyBrace) : list byte :=
  match e with BraceOpen => [0x7B] | BraceClose => [0x7D] end.
Definition back_to_escape (e : EscapeCurlyBrace) : list byte :=
  match e with BraceOpen => [0x7B; 0x7B] | BraceClose => [0x7D; 0x7D] end.
Inductive FormatToken :=
| TokText (text : list byte)
| TokCapture (capture : list byte) (pos : nat) (conv : FormatConv)
| TokEscape (e : EscapeCurlyBrace).

(** The error messages, which all show the format string. *)
Inductive FormatParseError :=
| MissingConversion (original : list byte)
| InvalidConversion (original : list byte)
| UnmatchedBrace (original : list byte)
| StandaloneBrace (original : list byte).

(** [StringView]: a string and a position in its bytes.  The view is the string from there. *)
Record StringView := mkView { sv_s : str; sv_i : nat }.
Definition sv_rem (v : StringView) : comp str := str_from (sv_s v) (sv_i v).
Definition sv_eat (v : StringView) (n : nat) : comp (str * StringView) :=
  ret ← str_slice (sv_s v) (sv_i v) (sv_i v + n); Ok (ret, mkView (sv_s v) (sv_i v + n)).
Definition sv_starts_with (v : StringView) (p : str) : comp bool := rem ← sv_rem v; Ok (str_starts_with rem p).

Section parser.
Local Abbreviation parse A := (result FormatParseError A).

(** What follows an opening brace, from the [i]th byte of the view: the inner loop of [FormatParser::next]. *)
Fixpoint next_capture (fuel : nat) (v : StringView) (i : nat) : parse (FormatToken * StringView) :=
  match fuel with
  | O => Panic
  | S fuel =>
    rem ← lift (sv_rem v);
    match bytes rem !! i with
    | None => Err (UnmatchedBrace (sv_s v))
    | Some c =>
      if c =? 0x7D then
        '(eaten, v') ← lift (sv_eat v (i + 1));
        capture ← lift (str_slice eaten 1 i);
        Ok (TokCapture capture (sv_i v + 1) ConvStr, v')
      else if c =? 0x21 then
        '(eaten, v') ← lift (sv_eat v (i + 1));
        capture ← lift (str_slice eaten 1 i);
        rem ← lift (sv_rem v');
        conv ← (if str_starts_with rem [0x72] then Ok ConvRepr
                else if str_starts_with rem [0x73] then Ok ConvStr
                else if str_starts_with rem [0x7D] then Err (MissingConversion (sv_s v))
                else Err (InvalidConversion (sv_s v)));
        '(_, v') ← lift (sv_eat v' 1);
        closed ← lift (sv_starts_with v' [0x7D]);
        if negb closed then Err (UnmatchedBrace (sv_s v)) else
        '(_, v') ← lift (sv_eat v' 1);
        Ok (TokCapture capture (sv_i v + 1) conv, v')
      else if c =? 0x7B then
        if (i =? 1)%nat then '(_, v') ← lift (sv_eat v 2); Ok (TokEscape BraceOpen, v')
        else Err (UnmatchedBrace (sv_s v))
      else next_capture fuel v (i + 1)
    end
  end.

(** [FormatParser::next], with [i] bytes of text passed over. *)
Fixpoint next_token (fuel : nat) (v : StringView) (i : nat) : parse (option FormatToken * StringView) :=
  match fuel with
  | O => Panic
  | S fuel =>
    rem ← lift (sv_rem v);
    match bytes rem !! i with
    | None =>
      if (i =? 0)%nat then Ok (None, v) else Ok (Some (TokText rem), mkView [] 0)
    | Some c =>
      if ((c =? 0x7B) || (c =? 0x7D)) && negb (i =? 0)%nat then
        '(text, v) ← lift (sv_eat v i); Ok (Some (TokText text), v)
      else if c =? 0x7B then
        _ ← assert (i =? 0)%nat;
        '(token, v) ← next_capture (S (str_len rem)) v 1; Ok (Some token, v)
      else if c =? 0x7D then
        _ ← assert (i =? 0)%nat;
        escaped ← lift (sv_starts_with v [0x7D; 0x7D]);
        if escaped : bool then
          '(_, v) ← lift (sv_eat v 2); Ok (Some (TokEscape BraceClose), v)
        else Err (StandaloneBrace (sv_s v))
      else next_token fuel v (i + 1)
    end
  end.
Definition parser_next (v : StringView) : parse (option FormatToken * StringView) :=
  rem ← lift (sv_rem v); next_token (S (str_len rem)) v 0.
End parser.

(** [parse_format_one]: a format with an error, or with another argument, has no short cut. *)
Fixpoint format_before (fuel : nat) (v : StringView) (before : str) : comp (option (str * StringView)) :=
  match fuel with
  | O => Panic
  | S fuel =>
    match parser_next v with
    | Ok (Some (TokText text), v) => format_before fuel v (before ++ text)
    | Ok (Some (TokEscape e), v) => format_before fuel v (before ++ escape_as_str e)
    | Ok (Some (TokCapture [] _ ConvStr), v) => Ok (Some (before, v))
    | Ok (Some (TokCapture _ _ _), _) => Ok None
    | Ok (None, _) => Ok None
    | Err _ => Ok None
    | Fault f => Fault f
    end
  end.
Fixpoint format_after (fuel : nat) (v : StringView) (after : str) : comp (option str) :=
  match fuel with
  | O => Panic
  | S fuel =>
    match parser_next v with
    | Ok (Some (TokText text), v) => format_after fuel v (after ++ text)
    | Ok (Some (TokEscape e), v) => format_after fuel v (after ++ escape_as_str e)
    | Ok (Some (TokCapture _ _ _), _) => Ok None
    | Ok (None, _) => Ok (Some after)
    | Err _ => Ok None
    | Fault f => Fault f
    end
  end.
Definition parse_format_one (s : str) : comp (option (str * str)) :=
  o ← format_before (S (length s)) (mkView s 0) [];
  match o with
  | None => Ok None
  | Some (before, v) =>
    o ← format_after (S (length s)) v [];
    Ok (match o with Some after => Some (before, after) | None => None end)
  end.

(** ** Evaluation *)

Inductive FormatError :=
| ParseError (e : FormatParseError)
| MixedNumbering | NotEnoughArguments
| IndexOutOfBound (index : Z) | BadIndex (field : list byte)
| InvalidCharacter (c : byte) | KeyNotFound (field : list byte).

(** [FormatArgs]: the positional arguments, taken in order or by index, but not both. *)
Record FormatArgs (V : Type) := mkFormatArgs {
  fa_iterator : list V; fa_args : list V; fa_by_index : bool; fa_by_order : bool }.
Arguments mkFormatArgs {V}. Arguments fa_iterator {V}. Arguments fa_args {V}.
Arguments fa_by_index {V}. Arguments fa_by_order {V}.

Section eval_format.
Context {V F : Type} {Fmt : Format V F}.
Local Abbreviation res A := (result FormatError A).

Definition format_args_new (l : list V) : FormatArgs V := mkFormatArgs l [] false false.
Definition next_ordered (a : FormatArgs V) : res (V * FormatArgs V) :=
  if fa_by_index a then Err MixedNumbering else
  match fa_iterator a with
  | [] => Err NotEnoughArguments
  | x :: l => Ok (x, mkFormatArgs l (fa_args a) (fa_by_index a) true)
  end.
Definition by_index (a : FormatArgs V) (index : Z) : res (V * FormatArgs V) :=
  if fa_by_order a then Err MixedNumbering else
  let a := if fa_by_index a then a else mkFormatArgs [] (fa_args a ++ fa_iterator a) true (fa_by_order a) in
  match fa_args a !! Z.to_nat index with
  | None => Err (IndexOutOfBound (as_i32 index))
  | Some v => Ok (v, a)
  end.

(** [usize::from_str] of decimal digits. *)
Definition usize_from_str (field : list byte) : option Z :=
  checked_u64 (fold_left (λ n c, n * 10 + (c - 0x30)) (bytes field) 0).
Definition is_ascii_digit (c : byte) : bool := (0x30 <=? c) && (c <=? 0x39).
Definition is_invalid (c : byte) : bool := (c =? 0x2E) || (c =? 0x2C) || (c =? 0x5B) || (c =? 0x5D).

Definition convert (conv : FormatConv) (v : V) : list byte :=
  match conv with ConvStr => collect_str v | ConvRepr => fmt_repr v end.
Definition format_capture (field : list byte) (conv : FormatConv) (args : FormatArgs V)
    (kwargs : list byte → option V) (result : list byte) : res (FormatArgs V * list byte) :=
  match field with
  | [] => '(v, args) ← next_ordered args; Ok (args, result ++ convert conv v)
  | _ =>
    if forallb is_ascii_digit (bytes field) then
      i ← ok_or (usize_from_str field) (BadIndex field);
      '(v, args) ← by_index args i;
      Ok (args, result ++ convert conv v)
    else
      match find is_invalid (bytes field) with
      | Some x => Err (InvalidCharacter x)
      | None =>
        match kwargs field with
        | None => Err (KeyNotFound field)
        | Some v => Ok (args, result ++ convert conv v)
        end
      end
  end.
Fixpoint format_loop (fuel : nat) (v : StringView) (args : FormatArgs V) (kwargs : list byte → option V)
    (result : list byte) : res (list byte) :=
  match fuel with
  | O => Panic
  | S fuel =>
    match parser_next v with
    | Err e => Err (ParseError e)
    | Fault f => Fault f
    | Ok (None, _) => Ok result
    | Ok (Some token, v) =>
      match token with
      | TokText text => format_loop fuel v args kwargs (result ++ text)
      | TokEscape e => format_loop fuel v args kwargs (result ++ escape_as_str e)
      | TokCapture capture _ conv =>
        '(args, result) ← format_capture capture conv args kwargs result;
        format_loop fuel v args kwargs result
      end
    end
  end.
Definition format (this : list byte) (args : list V) (kwargs : list byte → option V) : res (list byte) :=
  format_loop (S (length this)) (mkView this 0) (format_args_new args) kwargs [].
End eval_format.
