(* ===== verification/StrFormatOk.v ===== *)
(** Formatting of strings: no format makes the parsers go wrong, and the short cuts for formats with one
    argument agree with the general ones. *)

From S2P Require Import Prelude FastString Utf8 StringRepr StrFormat.

Local Open Scope Z_scope.

(** * The operator [%] *)

(** [PercentFormatParser::next] on characters: [x] is before the percent sign and [y] after it. *)
Definition percent_item {V} (x y : str) : result (InterpolationError V) (str * option PercentSFormat * str) :=
  match y with
  | [] => Err IncompleteFormat
  | d :: y =>
    if d =? 0x25 then Ok (x ++ [0x25], None, y) else
    match percent_format d with
    | Some format => Ok (x, Some format, y)
    | None => Err (UnsupportedFormatCharacter d)
    end
  end.
Lemma position_skip p l r : Forall (λ x, x ≠ p) l → position p (l ++ r) = Nat.add (length l) <$> position p r.
Proof.
  induction 1 as [|x l Hx Hl IH]; simpl; [by destruct (position p r)|]. rewrite (proj2 (Z.eqb_neq _ _) Hx), IH.
  by destruct (position p r).
Qed.
Lemma position_percent x y : 0x25 ∉ x → position 0x25 (bytes (x ++ 0x25 :: y)) = Some (str_len x).
Proof.
  induction x as [|c x IH]; [done|]. intros [Hc Hx]%not_elem_of_cons. rewrite <- app_comm_cons, bytes_cons, str_len_cons.
  rewrite position_skip, IH by (done || by apply encode_avoids). done.
Qed.
Lemma position_none s : 0x25 ∉ s → position 0x25 (bytes s) = None.
Proof.
  induction s as [|c s IH]; [done|]. intros [Hc Hs]%not_elem_of_cons. rewrite bytes_cons.
  by rewrite position_skip, IH by (done || by apply encode_avoids).
Qed.
(** The first percent sign. *)
Lemma percent_split (s : str) : 0x25 ∉ s ∨ ∃ x y, s = x ++ 0x25 :: y ∧ 0x25 ∉ x.
Proof.
  destruct (decide (0x25 ∈ s)) as [Hs|]; [|by left]. right. apply list_elem_of_split_l in Hs as (x & y & -> & Hx). eauto.
Qed.
Lemma percent_format_wide f : 0x80 ≤ f → percent_format f = None.
Proof. intros Hf. unfold percent_format. by repeat (rewrite (proj2 (Z.eqb_neq f _)) by lia; simpl). Qed.
Lemma percent_next_at {V} x y : 0x25 ∉ x → percent_next (V:=V) (x ++ 0x25 :: y) = Some (percent_item x y).
Proof.
  intros Hx. unfold percent_next. rewrite position_percent, str_upto_app, str_from_app by done. f_equal.
  cbn [lift mbind result_bind]. rewrite bytes_cons. change (encode_utf8 37) with [37]. cbn [app lookup list_lookup].
  destruct y as [|d y]; [done|]. rewrite bytes_cons. unfold percent_item.
  destruct (Z.ltb_spec d 0x80) as [Hd|Hd].
  - rewrite encode_ascii by done. cbn [app lookup list_lookup].
    assert (str_from (0x25 :: d :: y) 2 = Ok y) as ->.
    { pose proof (str_from_app [0x25; d] y) as H. by rewrite str_len_cons, len_ascii, str_len_ascii in H by lia. }
    assert (str_upto (x ++ 0x25 :: d :: y) (str_len x + 1) = Ok (x ++ [0x25])) as ->.
    { pose proof (str_upto_app (x ++ [0x25]) (d :: y)) as H. rewrite str_len_app, str_len_ascii, <- app_assoc in H by lia. exact H. }
    by destruct (d =? 0x25); [|destruct (percent_format d)].
  - pose proof (encode_wide d) as Hw. pose proof (len_utf8_pos d) as Hpos. unfold len_utf8 in Hpos.
    destruct (encode_utf8 d) as [|f r]; [simpl in Hpos; lia|]. specialize (Hw f Hd ltac:(by left)). cbn [app lookup list_lookup].
    by rewrite !(proj2 (Z.eqb_neq _ 0x25)), !percent_format_wide by lia.
Qed.
Lemma percent_next_0 {V} y : percent_next (V:=V) (0x25 :: y) = Some (percent_item [] y).
Proof. apply (percent_next_at []), not_elem_of_nil. Qed.
Lemma percent_next_end {V} s : 0x25 ∉ s → percent_next (V:=V) s = match s with [] => None | _ => Some (Ok (s, None, [])) end.
Proof. intros Hs. unfold percent_next. by rewrite position_none. Qed.

(** An item takes at least one character, and no cut goes wrong. *)
Lemma percent_next_progress {V} rem l f rest :
  percent_next (V:=V) rem = Some (Ok (l, f, rest)) → (length rest < length rem)%nat.
Proof.
  destruct (percent_split rem) as [Hs|(x & y & -> & Hx)].
  - rewrite percent_next_end by done. destruct rem; intros; simplify_eq. simpl. lia.
  - rewrite percent_next_at by done. unfold percent_item. rewrite length_app. destruct y as [|d y]; [done|].
    destruct (d =? 0x25); [|destruct (percent_format d)]; intros; simplify_eq; simpl; lia.
Qed.
Lemma percent_next_no_fault {V} rem f : percent_next (V:=V) rem ≠ Some (Fault f).
Proof.
  destruct (percent_split rem) as [Hs|(x & y & -> & Hx)].
  - rewrite percent_next_end by done. by destruct rem.
  - rewrite percent_next_at by done. unfold percent_item. by repeat case_match.
Qed.

Section percent.
Context {V F : Type} {Fmt : Format V F}.
Implicit Types (v : V) (values : list V) (buf : list byte).

Lemma write_value_no_fault fmt v f : write_value fmt v ≠ Fault f.
Proof. destruct fmt; simpl; unfold write_int, unpack_param, ok_or; repeat case_match; try done; by destruct (fmt_num v). Qed.

Lemma percent_loop_no_fault n rem values buf f :
  (length rem < n)%nat → percent_loop n rem values buf ≠ Fault f.
Proof.
  revert rem values buf. induction n as [|n IH]; intros rem values buf Hn; [lia|]. simpl.
  destruct (percent_next (V:=V) rem) as [[[[l fmt] rest]|e|f']|] eqn:Hnext; [|done| |done].
  - apply percent_next_progress in Hnext. unfold mbind, result_bind.
    destruct fmt as [fmt|]; [|apply IH; lia].
    unfold next_value. destruct values as [|v values]; [done|].
    destruct (write_value fmt v) as [t|e|f'] eqn:Hw; [apply IH; lia|done|by apply write_value_no_fault in Hw].
  - by apply percent_next_no_fault in Hnext.
Qed.

(** A character that is copied, an escape, and [%s]. *)
Lemma percent_char n c s values buf : c ≠ 0x25 →
  percent_loop (S (S n)) (c :: s) values buf = percent_loop (S (S n)) s values (buf ++ [c]).
Proof.
  intros Hc. cbn [percent_loop]. destruct (percent_split s) as [Hs|(x & y & -> & Hx)].
  - rewrite !percent_next_end by (done || by apply not_elem_of_cons). destruct s as [|d s]; [done|].
    cbn -[percent_loop]. by rewrite <- app_assoc.
  - rewrite app_comm_cons, !percent_next_at by (done || by apply not_elem_of_cons). unfold percent_item.
    destruct y as [|d y]; [done|].
    destruct (d =? 0x25); [|destruct (percent_format d)]; cbn -[percent_loop]; rewrite <- ?app_assoc; done.
Qed.
Lemma percent_percent n s values buf :
  percent_loop (S n) (0x25 :: 0x25 :: s) values buf = percent_loop n s values (buf ++ [0x25]).
Proof. cbn [percent_loop]. by rewrite percent_next_0. Qed.
Lemma percent_s n s v values buf :
  percent_loop (S n) (0x25 :: 0x73 :: s) (v :: values) buf = percent_loop n s values (buf ++ collect_str v).
Proof. cbn [percent_loop]. rewrite percent_next_0. cbn. by rewrite app_nil_r. Qed.
Lemma percent_s_nil n s buf : percent_loop (S n) (0x25 :: 0x73 :: s) [] buf = Err NotEnoughParameters.
Proof. cbn [percent_loop]. by rewrite percent_next_0. Qed.

Lemma percent_after_loop n s after r values buf :
  percent_after s after = Some r → (length s < n)%nat →
  ∃ t, r = after ++ t ∧ percent_loop n s values buf = Ok (buf ++ t, values).
Proof.
  remember (length s) as m eqn:Hm. assert (length s ≤ m)%nat as Hle by lia. clear Hm. revert n s Hle after buf.
  induction m as [|m IH]; intros n s Hle after buf Hr Hn.
  { destruct s; [|simpl in *; lia]. destruct n; [lia|]. injection Hr as <-. exists []. by rewrite !app_nil_r. }
  destruct s as [|c s]; [destruct n; [lia|]; injection Hr as <-; exists []; by rewrite !app_nil_r|].
  simpl in Hr, Hle. destruct (Z.eqb_spec c 0x25) as [->|Hc].
  - destruct s as [|d s]; [done|]. destruct (Z.eqb_spec d 0x25) as [->|]; [|done]. destruct n as [|n]; [lia|].
    rewrite percent_percent. simpl in Hle.
    edestruct (IH n s) as (t & -> & ->); [lia|exact Hr|simpl in Hn; lia|].
    exists ([0x25] ++ t). by rewrite !app_assoc.
  - destruct n as [|[|n]]; [lia..|]. rewrite percent_char by done.
    edestruct (IH (S (S n)) s) as (t & -> & ->); [lia|exact Hr|simpl in Hn; lia|].
    exists ([c] ++ t). by rewrite !app_assoc.
Qed.
Lemma percent_before_loop n s before b rest values buf :
  percent_before s before = Some (b, rest) → (length s < n)%nat →
  ∃ t n', b = before ++ t ∧ (length rest < n')%nat ∧
    percent_loop n s values buf =
    match values with
    | [] => Err NotEnoughParameters
    | v :: values => percent_loop n' rest values (buf ++ t ++ collect_str v)
    end.
Proof.
  remember (length s) as m eqn:Hm. assert (length s ≤ m)%nat as Hle by lia. clear Hm. revert n s Hle before buf.
  induction m as [|m IH]; intros n s Hle before buf Hr Hn; [destruct s; [done|simpl in *; lia]|].
  destruct s as [|c s]; [done|]. simpl in Hr, Hle. destruct (Z.eqb_spec c 0x25) as [->|Hc].
  - destruct s as [|d s]; [done|]. simpl in Hle, Hn. destruct n as [|n]; [lia|].
    destruct (Z.eqb_spec d 0x25) as [->|].
    + rewrite percent_percent. edestruct (IH n s) as (t & n' & -> & ? & ->); [lia|exact Hr|lia|].
      exists ([0x25] ++ t), n'. split_and!; [by rewrite app_assoc|done|]. destruct values; [done|]. by rewrite <- !app_assoc.
    + destruct (Z.eqb_spec d 0x73) as [->|]; [|done]. injection Hr as <- <-. exists [], n.
      rewrite app_nil_r. split_and!; [done|lia|]. destruct values; [apply percent_s_nil|apply percent_s].
  - simpl in Hn. destruct n as [|[|n]]; [lia..|]. rewrite percent_char by done.
    edestruct (IH (S (S n)) s) as (t & n' & -> & ? & ->); [lia|exact Hr|lia|].
    exists ([c] ++ t), n'. split_and!; [by rewrite app_assoc|done|]. destruct values; [done|]. by rewrite <- !app_assoc.
Qed.

(** [format_one] joins what the general loop writes. *)
Lemma format_one_str before v after : format_one before v after = before ++ collect_str v ++ after.
Proof. unfold format_one, collect_str. destruct (fmt_unpack_str v); by rewrite ?app_assoc. Qed.

Lemma percent_fast f before after v :
  (∀ xs, fmt_tuple v = Some xs → fmt_unpack_str v = None) →
  parse_percent_s_one f = Some (before, after) → percent f v = percent_s_one before v after.
Proof.
  intros Htuple Hp. unfold parse_percent_s_one in Hp. apply bind_Some in Hp as ([b rest] & Hb & Hp).
  apply bind_Some in Hp as (a & Ha & [= -> ->]). unfold percent.
  assert (∀ values, percent_loop (S (length f)) f values [] =
    match values with [] => Err NotEnoughParameters | v :: values => Ok (format_one before v after, values) end) as Hloop.
  { intros values. edestruct (percent_before_loop (S (length f)) f [] before rest values [] Hb) as (t & n' & -> & Hn & ->); [lia|].
    destruct values as [|w values]; [done|].
    edestruct (percent_after_loop n' rest [] after values) as (t' & -> & ->); [done|done|].
    rewrite format_one_str. simpl. by rewrite <- app_assoc. }
  rewrite Hloop. unfold percent_s_one. destruct (fmt_tuple v) as [xs|] eqn:Hv.
  - rewrite (Htuple xs) by done. by destruct xs as [|x [|y l]].
  - destruct (fmt_unpack_str v) as [s|] eqn:Hs; simpl; [|done]. f_equal. by rewrite format_one_str; unfold collect_str; rewrite Hs.
Qed.
End percent.

(** * The method [format] *)

(** The view [v] is the rest [r] of its string. *)
Definition view_at (v : StringView) (r : str) : Prop := ∃ a, sv_s v = a ++ r ∧ sv_i v = str_len a.
Lemma view_start s : view_at (mkView s 0) s.
Proof. by exists []. Qed.
Lemma rem_ok v r : view_at v r → sv_rem v = Ok r.
Proof. destruct v as [s i]. intros (a & Hs & Hi). simpl in *. subst. apply str_from_app. Qed.
Lemma starts_ok v r p : view_at v r → sv_starts_with v p = Ok (str_starts_with r p).
Proof. intros Hv. unfold sv_starts_with. by rewrite (rem_ok v r). Qed.
Lemma eat_ok v x r n : view_at v (x ++ r) → n = str_len x → ∃ v', sv_eat v n = Ok (x, v') ∧ view_at v' r.
Proof.
  destruct v as [s i]. intros (a & Hs & Hi) ->. simpl in *. subst. exists (mkView (a ++ x ++ r) (str_len a + str_len x)).
  split; [unfold sv_eat; cbn [sv_s sv_i]; by rewrite (str_slice_app a x r)|].
  exists (a ++ x). by rewrite <- app_assoc, str_len_app.
Qed.
Lemma eat_ascii v c r : c < 0x80 → view_at v (c :: r) → ∃ v', sv_eat v 1 = Ok ([c], v') ∧ view_at v' r.
Proof. intros Hc Hv. apply (eat_ok v [c] r); [done|by rewrite str_len_ascii]. Qed.
Lemma starts_with_cons s c : str_starts_with s [c] = true → ∃ t, s = c :: t.
Proof. by intros [t ->]%starts_with_spec; exists t. Qed.

(** What a step of the parser gives at [r]: no fault, and a view that is shorter. *)
Definition advances {A} (r : str) (m : result FormatParseError (A * StringView)) : Prop :=
  match m with
  | Ok (_, v) => ∃ r', view_at v r' ∧ (length r' < length r)%nat
  | Err _ => True
  | Fault _ => False
  end.
(** The conversion [c], one character, and the brace that closes. *)
Lemma conversion_advances {A} w c r r0 (x : A) e : c < 0x80 → view_at w (c :: r) → (length r < length r0)%nat →
  advances r0 ('(_, w) ← lift (sv_eat w 1);
               closed ← lift (sv_starts_with w [0x7D]);
               if negb closed then Err e else '(_, w) ← lift (sv_eat w 1); Ok (x, w)).
Proof.
  intros Hc Hw Hlt. destruct (eat_ascii w c r Hc Hw) as (u & -> & Hu). cbn [lift mbind result_bind].
  rewrite (starts_ok u r) by done. cbn [lift mbind result_bind]. destruct (str_starts_with r [0x7D]) eqn:Hs; [|done].
  apply starts_with_cons in Hs as [t ->]. destruct (eat_ascii u 0x7D t) as (u' & -> & Hu'); [done..|]. simpl in *.
  exists t. split; [done|lia].
Qed.
(** After the brace and [x], the character [c] ends the capture. *)
Lemma capture_cut v x c y i : c < 0x80 → view_at v (0x7B :: x ++ c :: y) → i = str_len (0x7B :: x) →
  ∃ v', sv_eat v (i + 1) = Ok (0x7B :: x ++ [c], v') ∧ view_at v' y ∧ str_slice (0x7B :: x ++ [c]) 1 i = Ok x.
Proof.
  intros Hc Hv ->. destruct (eat_ok v (0x7B :: x ++ [c]) y (str_len (0x7B :: x) + 1)) as (v' & He & Hv').
  - by rewrite <- app_comm_cons, <- app_assoc.
  - rewrite !str_len_cons, str_len_app, str_len_ascii by done. lia.
  - exists v'. split_and!; [done|done|]. apply (str_slice_app [0x7B] x [c]); [done|by rewrite str_len_cons].
Qed.
(** A byte after the opening brace that is below 128. *)
Lemma ascii_after r i c : c < 0x80 → (0 < i)%nat → bytes (0x7B :: r) !! i = Some c →
  ∃ x y, r = x ++ c :: y ∧ i = str_len (0x7B :: x).
Proof.
  intros Hc Hi (x & y & He & ->)%ascii_at; [|done]. destruct x as [|d x]; [cbn in Hi; lia|].
  injection He as <- ->. eauto.
Qed.
Lemma next_capture_advances n v r i : view_at v (0x7B :: r) → (0 < i)%nat → (str_len (0x7B%Z :: r) - i < n)%nat →
  advances (0x7B :: r) (next_capture n v i).
Proof.
  revert i. induction n as [|n IH]; intros i Hv Hi Hn; [lia|]. cbn [next_capture].
  rewrite (rem_ok v (0x7B :: r)) by done. cbn [lift mbind result_bind].
  destruct (bytes (0x7B :: r) !! i) as [c|] eqn:Hc; [|done]. pose proof (lookup_lt_Some _ _ _ Hc) as Hlt.
  destruct (Z.eqb_spec c 0x7D) as [->|]; [|destruct (Z.eqb_spec c 0x21) as [->|]; [|destruct (Z.eqb_spec c 0x7B) as [->|]]].
  - apply ascii_after in Hc as (x & y & -> & ->); [|done..].
    destruct (capture_cut v x 0x7D y _ eq_refl Hv eq_refl) as (v' & -> & Hv' & Hcut).
    cbn [lift mbind result_bind]. rewrite Hcut. simpl. exists y. split; [done|]. rewrite length_app. simpl. lia.
  - apply ascii_after in Hc as (x & y & -> & ->); [|done..].
    destruct (capture_cut v x 0x21 y _ eq_refl Hv eq_refl) as (v' & -> & Hv' & Hcut).
    cbn [lift mbind result_bind]. rewrite Hcut. cbn [lift mbind result_bind]. rewrite (rem_ok v' y) by done.
    cbn [lift mbind result_bind]. assert (∀ z : str, (length z < length y → length z < length (0x7B%Z :: x ++ 0x21%Z :: y))%nat) as Hlen
      by (intros z; simpl; rewrite length_app; simpl; lia).
    destruct (str_starts_with y [0x72]) eqn:Hr; [|destruct (str_starts_with y [0x73]) eqn:Hs; [|by destruct (str_starts_with y [0x7D])]].
    + apply starts_with_cons in Hr as [t ->]. apply (conversion_advances v' 0x72 t); [done..|]. apply Hlen. simpl. lia.
    + apply starts_with_cons in Hs as [t ->]. apply (conversion_advances v' 0x73 t); [done..|]. apply Hlen. simpl. lia.
  - destruct (Nat.eqb_spec i 1) as [->|]; [|done]. apply ascii_after in Hc as (x & y & -> & Hx); [|done..].
    rewrite str_len_cons, len_ascii in Hx by done. destruct x as [|d x]; [|rewrite str_len_cons in Hx; pose proof (len_utf8_pos d); lia].
    destruct (eat_ok v [0x7B; 0x7B] y 2) as (v' & -> & Hv'); [done|done|]. simpl. exists y. split; [done|]. lia.
  - apply IH; [done|lia|]. unfold str_len in *. lia.
Qed.
(** What the parser gives at [r]. *)
Definition parsed (r : str) (m : result FormatParseError (option FormatToken * StringView)) : Prop :=
  match m with
  | Ok (Some _, v) => ∃ r', view_at v r' ∧ (length r' < length r)%nat
  | Ok (None, _) => r = []
  | Err _ => True
  | Fault _ => False
  end.
Lemma next_token_advances n v r i : view_at v r → (str_len r - i < n)%nat → (i ≤ str_len r)%nat → parsed r (next_token n v i).
Proof.
  revert i. induction n as [|n IH]; intros i Hv Hn Hi; [lia|]. cbn [next_token].
  rewrite (rem_ok v r) by done. cbn [lift mbind result_bind]. destruct (bytes r !! i) as [c|] eqn:Hc.
  - pose proof (lookup_lt_Some _ _ _ Hc) as Hlt. change (length (bytes r)) with (str_len r) in Hlt.
    destruct (Nat.eqb_spec i 0) as [->|Hne]; cbn [negb]; rewrite ?andb_false_r, ?andb_true_r.
    + destruct (Z.eqb_spec c 0x7B) as [->|]; [|destruct (Z.eqb_spec c 0x7D) as [->|]; [|apply IH; [done|lia|lia]]].
      * apply ascii_at in Hc as (x & y & -> & Hx); [|done]. destruct x as [|d x]; [|rewrite str_len_cons in Hx; pose proof (len_utf8_pos d); lia].
        pose proof (next_capture_advances (S (str_len (0x7B :: y))) v y 1 Hv ltac:(lia) ltac:(lia)) as Hcap. cbn [app assert mbind result_bind].
        destruct (next_capture _ v 1) as [[t v']|e|f]; [exact Hcap|done|by destruct Hcap].
      * cbn [assert mbind result_bind]. rewrite (starts_ok v r) by done. cbn [lift mbind result_bind].
        destruct (str_starts_with r [0x7D; 0x7D]) eqn:Hs; [|done]. apply starts_with_spec in Hs as [t ->].
        destruct (eat_ok v [0x7D; 0x7D] t 2) as (v' & -> & Hv'); [done|done|]. simpl. exists t. split; [done|lia].
    + destruct ((c =? 0x7B) || (c =? 0x7D)) eqn:Hb.
      { apply ascii_at in Hc as (x & y & -> & ->); [|lia]. destruct (eat_ok v x (c :: y) _ Hv eq_refl) as (v' & -> & Hv').
        simpl. exists (c :: y). split; [done|]. rewrite length_app. destruct x; [done|simpl; lia]. }
      apply orb_false_iff in Hb as [-> ->]. apply IH; [done|lia|lia].
  - apply lookup_ge_None in Hc. change (length (bytes r)) with (str_len r) in Hc. destruct (Nat.eqb_spec i 0) as [->|Hne].
    + destruct r as [|d r]; [done|]. rewrite str_len_cons in Hc. pose proof (len_utf8_pos d). lia.
    + exists []. split; [by exists []|]. destruct r; [|simpl; lia]. cbn in Hi. lia.
Qed.
Lemma parser_next_advances v r : view_at v r → parsed r (parser_next v).
Proof.
  intros Hv. unfold parser_next. rewrite (rem_ok v r) by done. cbn [lift mbind result_bind]. apply next_token_advances; [done|lia..].
Qed.

Section format.
Context {V F : Type} {Fmt : Format V F}.
Implicit Types (v : StringView) (args : FormatArgs V).

Lemma format_capture_no_fault field conv args kwargs buf f : format_capture field conv args kwargs buf ≠ Fault f.
Proof.
  unfold format_capture, next_ordered, by_index, ok_or, mbind, result_bind. destruct field as [|c field].
  - by repeat case_match; simplify_eq.
  - destruct (forallb _ _); repeat case_match; by simplify_eq.
Qed.
Lemma format_loop_no_fault n v r args kwargs buf f :
  view_at v r → (length r < n)%nat → format_loop n v args kwargs buf ≠ Fault f.
Proof.
  revert v r args buf. induction n as [|n IH]; intros v r args buf Hv Hn; [lia|]. simpl.
  pose proof (parser_next_advances v r Hv) as Hnext.
  destruct (parser_next v) as [[[t|] v']|e|f']; [|done|done|done]. destruct Hnext as (r' & Hv' & Hlen).
  destruct t as [t|capture pos conv|e]; [apply (IH v' r'); [done|lia]| |apply (IH v' r'); [done|lia]].
  destruct (format_capture capture conv args kwargs buf) as [[args' buf']|e|f'] eqn:Hc; simpl;
    [apply (IH v' r'); [done|lia]|done|by apply format_capture_no_fault in Hc].
Qed.

(** What the short cut has read is what the loop writes. *)
Lemma format_after_loop m n v r after o args kwargs buf :
  format_after m v after = Ok (Some o) → view_at v r → (length r < n)%nat →
  ∃ t, o = after ++ t ∧ format_loop n v args kwargs buf = Ok (buf ++ t).
Proof.
  revert n v r after buf. induction m as [|m IH]; intros n v r after buf Hr Hv Hn; [done|].
  destruct n as [|n]; [lia|]. simpl in *. pose proof (parser_next_advances v r Hv) as Hnext.
  destruct (parser_next v) as [[[[t|capture pos conv|e]|] v']|e|f']; try done.
  - destruct Hnext as (r' & Hv' & Hlen). edestruct (IH n v' r') as (u & -> & ->); [exact Hr|done|lia|].
    exists (t ++ u). by rewrite !app_assoc.
  - destruct Hnext as (r' & Hv' & Hlen). edestruct (IH n v' r') as (u & -> & ->); [exact Hr|done|lia|].
    exists (escape_as_str e ++ u). by rewrite !app_assoc.
  - injection Hr as <-. exists []. by rewrite !app_nil_r.
Qed.
Lemma format_before_loop m n v r before b v' a kwargs buf :
  format_before m v before = Ok (Some (b, v')) → view_at v r → (length r < n)%nat →
  ∃ t n' r', b = before ++ t ∧ view_at v' r' ∧ (length r' < n')%nat ∧
    format_loop n v (format_args_new [a]) kwargs buf =
    format_loop n' v' (mkFormatArgs [] [] false true) kwargs (buf ++ t ++ collect_str a).
Proof.
  revert n v r before buf. induction m as [|m IH]; intros n v r before buf Hb Hv Hn; [done|].
  destruct n as [|n]; [lia|]. simpl in *. pose proof (parser_next_advances v r Hv) as Hnext.
  destruct (parser_next v) as [[[[t|capture pos conv|e]|] w]|e|f']; try done.
  - destruct Hnext as (r1 & Hv' & Hlen). edestruct (IH n w r1) as (u & n' & r' & -> & ? & ? & ->); [exact Hb|done|lia|].
    exists (t ++ u), n', r'. split_and!; [by rewrite app_assoc|done|done|]. by rewrite <- !app_assoc.
  - destruct Hnext as (r1 & Hv' & Hlen). destruct capture as [|c capture]; [|done]. destruct conv; [|done].
    injection Hb as <- <-. exists [], n, r1. rewrite app_nil_r. split_and!; [done..|lia|]. done.
  - destruct Hnext as (r1 & Hv' & Hlen). edestruct (IH n w r1) as (u & n' & r' & -> & ? & ? & ->); [exact Hb|done|lia|].
    exists (escape_as_str e ++ u), n', r'. split_and!; [by rewrite app_assoc|done|done|]. by rewrite <- !app_assoc.
Qed.
Lemma format_fast s before after a kwargs :
  parse_format_one s = Ok (Some (before, after)) → format s [a] kwargs = Ok (format_one before a after).
Proof.
  unfold parse_format_one, format. destruct (format_before _ _ _) as [[[b w]|]| |] eqn:Hb; [|done..]. cbn [mbind result_bind].
  destruct (format_after _ w _) as [[t'|]| |] eqn:Ha; [|done..]. intros [= -> ->].
  edestruct (format_before_loop (S (length s)) (S (length s)) (mkView s 0) s [] before w a kwargs []) as (t & n' & r' & -> & Hw & Hn & ->);
    [exact Hb|apply view_start|lia|].
  edestruct (format_after_loop (S (length s)) n' w r' [] after) as (u & -> & ->); [done..|].
  rewrite format_one_str. simpl. by rewrite <- app_assoc.
Qed.
Lemma format_no_fault s (l : list V) kwargs f : format s l kwargs ≠ Fault f.
Proof. apply (format_loop_no_fault _ _ s); [apply view_start|lia]. Qed.
(** The parser of the short cut takes the same steps. *)
Lemma format_before_no_fault n v r before : view_at v r → (length r < n)%nat →
  match format_before n v before with
  | Ok (Some (_, v')) => ∃ r', view_at v' r' ∧ (length r' ≤ length r)%nat | Ok None => True | Err _ => True | Fault _ => False end.
Proof.
  revert v r before. induction n as [|n IH]; intros v r before Hv Hn; [lia|]. simpl.
  pose proof (parser_next_advances v r Hv) as Hnext.
  assert (∀ w b r1, view_at w r1 → (length r1 < length r)%nat → match format_before n w b with
    | Ok (Some (_, v')) => ∃ r', view_at v' r' ∧ (length r' ≤ length r)%nat | Ok None => True | Err _ => True | Fault _ => False end) as Hgo.
  { intros w b r1 Hw Hl. specialize (IH w r1 b Hw ltac:(lia)). destruct (format_before n w b) as [[[b' v']|]| |]; try done.
    destruct IH as (r' & ? & ?). exists r'. split; [done|lia]. }
  destruct (parser_next v) as [[[[t|capture pos conv|e]|] w]|e|f']; try done.
  - destruct Hnext as (r1 & Hv' & Hlen). by apply (Hgo w _ r1).
  - destruct Hnext as (r1 & Hv' & Hlen). destruct capture, conv; try done. exists r1. split; [done|lia].
  - destruct Hnext as (r1 & Hv' & Hlen). by apply (Hgo w _ r1).
Qed.
Lemma format_after_no_fault n v r after f : view_at v r → (length r < n)%nat → format_after n v after ≠ Fault f.
Proof.
  revert v r after. induction n as [|n IH]; intros v r after Hv Hn; [lia|]. simpl.
  pose proof (parser_next_advances v r Hv) as Hnext.
  destruct (parser_next v) as [[[[t|capture pos conv|e]|] w]|e|f']; try done;
    destruct Hnext as (r1 & Hv' & Hlen); apply (IH w r1); [done|lia|done|lia].
Qed.
Lemma parse_format_one_no_fault s f : parse_format_one s ≠ Fault f.
Proof.
  unfold parse_format_one. pose proof (format_before_no_fault (S (length s)) (mkView s 0) s [] (view_start s) ltac:(lia)) as Hb.
  destruct (format_before _ _ _) as [[[b w]|]| |f']; [|done..]. destruct Hb as (r & Hw & Hl). cbn [mbind result_bind].
  pose proof (λ f, format_after_no_fault (S (length s)) w r [] f Hw ltac:(lia)) as Ha.
  destruct (format_after _ w []) as [o| |f']; [done|done|]. by specialize (Ha f').
Qed.
Lemma percent_no_fault f (x : V) fl : percent f x ≠ Fault fl.
Proof.
  unfold percent. pose proof (λ vs, percent_loop_no_fault (S (length f)) f vs [] fl ltac:(lia)) as Hl.
  match goal with |- context [percent_loop _ _ ?vs _] => specialize (Hl vs); destruct (percent_loop _ _ vs _) as [[buf [|w l]]|e|f'] end;
    simpl; congruence.
Qed.
End format.

(** * Properties *)

(** C32: The short cuts for formats with one argument agree with the general operations.  When the optimiser finds
    that a format is [before], one [%s] and [after], or [before], one [{}] and [after], evaluating the short
    cut gives what [%] and [format] give, the errors for tuples of another length included. *)
Theorem format_short_cuts {V F : Type} {Fmt : Format V F} f before after (v : V) kwargs
    (Htuple : ∀ xs, fmt_tuple v = Some xs → fmt_unpack_str v = None) :
  (parse_percent_s_one f = Some (before, after) → percent f v = percent_s_one before v after) ∧
  (parse_format_one f = Ok (Some (before, after)) → format f [v] kwargs = Ok (format_one before v after)).
Proof. split; [by apply percent_fast|apply format_fast]. Qed.

(** C33: Formatting ends without a panic: whatever the format and the values are, [%] and [format] give a string or an
    error, and so does the parser of the short cut for [format].  Every position at which they cut the format, counted in
    bytes, is within it and between two characters, and every step takes a part of it. *)
Theorem format_total {V F : Type} {Fmt : Format V F} f (v : V) (args : list V) kwargs fl :
  percent f v ≠ Fault fl ∧ format f args kwargs ≠ Fault fl ∧ parse_format_one f ≠ Fault fl.
Proof. split_and!; [apply percent_no_fault|apply format_no_fault|apply parse_format_one_no_fault]. Qed.

(** Strings, tuples and integers; the only floating point numbers are whole. *)
Inductive fval := FStr (s : list byte) | FTuple (l : list fval) | FInt (z : Z).
Definition fval_repr (v : fval) : list byte :=
  match v with FStr s => [0x22] ++ s ++ [0x22] | FTuple _ => [0x28; 0x29] | FInt z => write_signed 10 z end.
#[global] Instance fval_format : Format fval Z := {|
  fmt_unpack_str v := match v with FStr s => Some s | _ => None end;
  fmt_repr := fval_repr;
  fmt_tuple v := match v with FTuple l => Some l | _ => None end;
  fmt_num v := match v with FInt z => Some (if in_i32 z then NumSmall z else NumBig z) | _ => None end;
  float_trunc_int := Some; float_of_int := id; write_float _ := write_signed 10;
|}.
(** "a%%%s.", "{{{}": what the short cuts read; and [%x] of the least 32-bit integer. *)
Example percent_reads : parse_percent_s_one [0x61; 0x25; 0x25; 0x25; 0x73; 0x2E] = Some ([0x61; 0x25], [0x2E]).
Proof. reflexivity. Qed.
Example format_reads : parse_format_one [0x7B; 0x7B; 0x7B; 0x7D] = Ok (Some ([0x7B], [])).
Proof. reflexivity. Qed.
(** "{!é}" and "%é": what is not known is an error, and is not cut. *)
Example format_wide : format [0x7B; 0x21; 0xE9; 0x7D] [FInt 1] (λ _, None) = Err (ParseError (InvalidConversion [0x7B; 0x21; 0xE9; 0x7D])).
Proof. reflexivity. Qed.
Example percent_wide : percent [0xE9; 0x25; 0xE9] (FInt 1) = Err (UnsupportedFormatCharacter 0xE9).
Proof. reflexivity. Qed.
Example hex_min : percent [0x25; 0x78] (FInt i32_min) = Ok (write_signed 16 i32_min).
Proof. vm_compute. reflexivity. Qed.

Lemma format_short_cuts_witness :
  percent [0x61; 0x25; 0x25; 0x25; 0x73; 0x2E] (FTuple [FInt (-7)]) = Ok [0x61; 0x25; 0x2D; 0x37; 0x2E] ∧
  format [0x7B; 0x7B; 0x7B; 0x7D] [FInt 7] (λ _, None) = Ok [0x7B; 0x37].
Proof.
  destruct (format_short_cuts [0x61; 0x25; 0x25; 0x25; 0x73; 0x2E] [0x61; 0x25] [0x2E] (FTuple [FInt (-7)]) (λ _, None)) as [Hp _]; [done|].
  destruct (format_short_cuts [0x7B; 0x7B; 0x7B; 0x7D] [0x7B] [] (FInt 7) (λ _, None)) as [_ Hf]; [done|].
  rewrite Hp by reflexivity. rewrite Hf by reflexivity. split; vm_compute; reflexivity.
Defined.
