(* ===== verification/Lexer.v ===== *)
(** [starlark_syntax/src/lexer.rs] and [cursors.rs]: the hand-written half of the lexer,
    on top of the scanner that the [logos] crate derives from the token patterns. It turns
    leading blanks into [Indent] and [Dedent] tokens, and reads strings and integers. *)

From S2P Require Import Prelude Ints FastString CodeMap Utf8.

(** * Cursors *)

(** [CursorBytes] and [CursorChars]: the whole string, and what is left of it. *)
Record CursorBytes := mkCursorBytes { cb_all : str; cb_rest : list byte }.
Definition CursorBytes_new (x : str) : CursorBytes := mkCursorBytes x (bytes x).
Definition CursorBytes_next (it : CursorBytes) : option byte * CursorBytes :=
  match cb_rest it with
  | [] => (None, it)
  | b :: rest => (Some b, mkCursorBytes (cb_all it) rest)
  end.
(** A byte as a [char]. *)
Definition CursorBytes_next_char (it : CursorBytes) : option char * CursorBytes :=
  CursorBytes_next it.
Definition CursorBytes_pos (it : CursorBytes) : nat := str_len (cb_all it) - length (cb_rest it).

Record CursorChars := mkCursorChars { cc_all : str; cc_rest : str }.
Definition CursorChars_new_offset (x : str) (offset : nat) : comp CursorChars :=
  rest ← str_from x offset; Ok (mkCursorChars x rest).
Definition CursorChars_next (it : CursorChars) : option char * CursorChars :=
  match cc_rest it with
  | [] => (None, it)
  | c :: rest => (Some c, mkCursorChars (cc_all it) rest)
  end.
Definition CursorChars_pos (it : CursorChars) : nat := str_len (cc_all it) - str_len (cc_rest it).
Definition CursorChars_peek (it : CursorChars) : option char := head (cc_rest it).
Definition CursorChars_unnext (it : CursorChars) (c : char) : comp CursorChars :=
  let pos := CursorChars_pos it in
  p ← usize_sub pos (len_utf8 c);
  rest ← str_from (cc_all it) p;
  let it := mkCursorChars (cc_all it) rest in
  _ ← assert (bool_decide (CursorChars_peek it = Some c));
  Ok it.

(** * Tokens and errors *)

Inductive LexemeError :=
| Indentation
| InvalidInput (s : str)
| InvalidTab
| UnfinishedStringLiteral
| InvalidEscapeSequence (s : str)
| EmptyEscapeSequence
| ReservedKeyword (s : str)
| StartsZero (s : str)
| IntParse (s : str)
| CommentSpanComputedIncorrectly
| CannotParse (s : str) (base : Z).

(** [EvalException]: the error and where. *)
Record EvalException := mkException { message : LexemeError; span_of : Span }.

(** [logos] slices, [BigInt] of the [num_bigint] crate and [f64] are not modelled. *)
Section tokens.
Context {big f64 : Type}.

Inductive TokenInt :=
| I32 (i : Z)
| BigInt_ (i : big).

Record TokenFString := mkFString { content : str; content_start_offset : nat }.

Inductive Token :=
| Error
| Comment (s : str)
| Tabs
| Indent | Dedent | Newline
| RawSingleQuote | RawDoubleQuote | RawFStringSingleQuote | RawFStringDoubleQuote
| Reserved
| Identifier (s : str)
| RawDecInt | RawHexInt | RawBinInt | RawOctInt
| Int_ (i : TokenInt)
| Float (f : f64)
| String_ (s : str)
| FString (s : TokenFString)
| And | Break | Continue | Def | Elif | Else | For | If | In | Lambda | Load | Not | Or | Pass
| Return
| Comma | Semicolon | Colon | PlusEqual | MinusEqual | StarEqual | SlashEqual | SlashSlashEqual
| PercentEqual | EqualEqual | BangEqual | LessEqual | GreaterEqual | StarStar | MinusGreater
| Equal | LessThan | GreaterThan | Minus | Plus | Star | Percent | Slash | SlashSlash | Dot
| Ampersand | Pipe | Caret | LessLess | GreaterGreater | Tilde | AmpersandEqual | PipeEqual
| CaretEqual | LessLessEqual | GreaterGreaterEqual | Ellipsis
| OpeningSquare | OpeningCurly | OpeningRound | ClosingSquare | ClosingCurly | ClosingRound.

(** [Result<(usize, T, usize), EvalException>]. *)
Definition LexemeT (T : Type) : Type := EvalException + nat * T * nat.
Definition Lexeme : Type := LexemeT Token.

Definition map_lexeme_t {T1 T2} (lexeme : LexemeT T1) (f : T1 → T2) : LexemeT T2 :=
  match lexeme with inl e => inl e | inr (l, t, r) => inr (l, f t, r) end.

(** ** State *)

(** The state of a [logos] lexer: the current token is [source[token_start..token_end]]. *)
Record Logos := mkLogos { source : str; token_start : nat; token_end : nat }.

(** [indent_levels] has its last element first. *)
Record Lexer := mkLexer {
  codemap : str;
  indent_levels : list nat;
  buffer : list Lexeme;
  parens : Z;
  lexer : Logos;
  done_ : bool;
}.
Definition set_buffer (L : Lexer) (b : list Lexeme) : Lexer :=
  mkLexer (codemap L) (indent_levels L) b (parens L) (lexer L) (done_ L).
Definition set_levels (L : Lexer) (l : list nat) : Lexer :=
  mkLexer (codemap L) l (buffer L) (parens L) (lexer L) (done_ L).
Definition set_parens (L : Lexer) (p : Z) : Lexer :=
  mkLexer (codemap L) (indent_levels L) (buffer L) p (lexer L) (done_ L).
Definition set_lexer (L : Lexer) (l : Logos) : Lexer :=
  mkLexer (codemap L) (indent_levels L) (buffer L) (parens L) l (done_ L).
Definition set_done (L : Lexer) (d : bool) : Lexer :=
  mkLexer (codemap L) (indent_levels L) (buffer L) (parens L) (lexer L) d.
Definition push_back (L : Lexer) (l : Lexeme) : Lexer := set_buffer L (buffer L ++ [l]).

Definition remainder (l : Logos) : comp str := str_from (source l) (token_end l).
Definition slice (l : Logos) : comp str := str_slice (source l) (token_start l) (token_end l).
(** [bump] panics off character boundaries. *)
Definition bump (l : Logos) (n : nat) : comp Logos :=
  _ ← str_from (source l) (token_end l + n);
  Ok (mkLogos (source l) (token_start l) (token_end l + n)).
Definition bump_by (L : Lexer) (n : nat) : comp Lexer :=
  l ← bump (lexer L) n; Ok (set_lexer L l).

(** ** Errors *)

Definition err_span (msg : LexemeError) (start end_ : nat) : comp EvalException :=
  s ← Span_new (pos_of_usize start) (pos_of_usize end_); Ok (mkException msg s).
Definition err_pos (msg : LexemeError) (pos : nat) : comp EvalException := err_span msg pos pos.
Definition err_now (L : Lexer) (msg : str → LexemeError) : comp EvalException :=
  s ← slice (lexer L); err_span (msg s) (token_start (lexer L)) (token_end (lexer L)).

(** ** Indentation *)

Definition make_comment (L : Lexer) (start end_ : nat) : comp Lexeme :=
  comment ← str_slice (codemap L) start end_;
  if negb (str_starts_with comment [0x23%Z])
  then e ← err_pos CommentSpanComputedIncorrectly start; Ok (inl e)
  else
    comment ← str_from comment 1;
    if str_ends_with_char comment 0x0D
    then
      end_ ← usize_sub end_ 1;
      n ← usize_sub (str_len comment) 1;
      comment ← str_upto comment n;
      Ok (inr (start, Comment comment, end_))
    else Ok (inr (start, Comment comment, end_)).

(** Skips a comment: whether a newline was found, and the rest. *)
Fixpoint skip_comment (rest : list byte) : bool * list byte :=
  match rest with
  | [] => (false, [])
  | c :: rest => if (c =? 0x0A)%Z then (true, rest) else skip_comment rest
  end.

(** What the loop over leading blanks ends with: [return], or [break] with its counters. *)
Inductive IndentLoop :=
| Returned (L : Lexer)
| Broke (L : Lexer) (it : CursorBytes) (spaces tabs indent_start : nat).

Fixpoint indent_loop (L : Lexer) (it : CursorBytes) (spaces tabs indent_start : nat)
    (fuel : nat) : comp IndentLoop :=
  match fuel with
  | 0 => UB
  | S fuel =>
    let '(o, it) := CursorBytes_next_char it in
    match o with
    | None => L ← bump_by L (CursorBytes_pos it); Ok (Returned L)
    | Some c =>
      if (c =? 0x20)%Z then indent_loop L it (spaces + 1) tabs indent_start fuel
      else if (c =? 0x09)%Z then indent_loop L it spaces (tabs + 1) indent_start fuel
      else if (c =? 0x0A)%Z then
        n ← usize_sub (CursorBytes_pos it) 1; L ← bump_by L n; Ok (Returned L)
      else if (c =? 0x0D)%Z then indent_loop L it spaces tabs indent_start fuel
      else if (c =? 0x23)%Z then
        start ← usize_sub (token_end (lexer L) + CursorBytes_pos it) 1;
        let '(newline, rest) := skip_comment (cb_rest it) in
        let it := mkCursorBytes (cb_all it) rest in
        if newline : bool then
          end_ ← usize_sub (token_end (lexer L) + CursorBytes_pos it) 1;
          comment ← make_comment L start end_;
          let L := push_back L comment in
          indent_loop L it 0 0 (token_end (lexer L) + CursorBytes_pos it) fuel
        else
          let end_ := token_end (lexer L) + CursorBytes_pos it in
          comment ← make_comment L start end_;
          let L := push_back L comment in
          L ← bump_by L (CursorBytes_pos it);
          Ok (Returned L)
      else Ok (Broke L it spaces tabs indent_start)
    end
  end.

(** The loop that pops levels deeper than [indent]: the levels left, and how many were
    popped, or [None] where no level matches. *)
Fixpoint pop_levels (levels : list nat) (indent dedents : nat) : option nat * list nat :=
  let now := default 0 (head levels) in
  if now =? indent then (Some dedents, levels)
  else if indent <? now then
    match levels with
    | [] => (None, levels)
    | _ :: levels => pop_levels levels indent (dedents + 1)
    end
  else (None, levels).

(** Returns the error, if any, and the state. *)
Definition calculate_indent (L : Lexer) : comp (option EvalException * Lexer) :=
  rem ← remainder (lexer L);
  let it := CursorBytes_new rem in
  r ← indent_loop L it 0 0 (token_end (lexer L)) (S (str_len rem));
  match r with
  | Returned L => Ok (None, L)
  | Broke L it spaces tabs indent_start =>
    n ← usize_sub (CursorBytes_pos it) 1;
    L ← bump_by L n;
    let indent := spaces + tabs * 8 in
    if 0 <? tabs then e ← err_pos InvalidTab (token_start (lexer L)); Ok (Some e, L) else
    let now := default 0 (head (indent_levels L)) in
    if now <? indent then
      let L := set_levels L (indent :: indent_levels L) in
      Ok (None, push_back L (inr (indent_start, Indent, token_end (lexer L))))
    else if indent <? now then
      match indent_levels L with
      | [] => Panic
      | _ :: levels =>
        let '(dedents, levels) := pop_levels levels indent 1 in
        let L := set_levels L levels in
        match dedents with
        | None =>
          e ← err_span Indentation (token_start (lexer L)) (token_end (lexer L)); Ok (Some e, L)
        | Some dedents =>
          Ok (None, set_buffer L (buffer L ++
                replicate dedents (inr (indent_start, Dedent, indent_start))))
        end
      end
    else Ok (None, L)
  end.

Definition Lexer_new (input cm : str) : comp Lexer :=
  let L := mkLexer cm [] [] 0 (mkLogos input 0 0) false in
  '(e, L) ← calculate_indent L;
  Ok (match e with Some e => push_back L (inl e) | None => L end).

Definition wrap (L : Lexer) (token : Token) : Lexeme :=
  inr (token_start (lexer L), token, token_end (lexer L)).

(** ** Strings *)

(** [value * radix + v] on [u32]. *)
Definition u32_mul_add (value radix v : Z) : comp Z :=
  let r := (value * radix + v)%Z in if (r <=? u32_max)%Z then Ok r else Panic.

(** The loop of [escape_char]; [inl] is [Err]. *)
Fixpoint escape_char_loop (it : CursorChars) (min : nat) (radix value : Z) (count todo : nat) :
    comp (CursorChars * option Z) :=
  match todo with
  | 0 => Ok (it, Some value)
  | S todo =>
    let '(o, it) := CursorChars_next it in
    match o with
    | None => Ok (it, if min <=? count then Some value else None)
    | Some c =>
      match to_digit c radix with
      | None =>
        if min <=? count then it ← CursorChars_unnext it c; Ok (it, Some value)
        else Ok (it, None)
      | Some v =>
        value ← u32_mul_add value radix v;
        escape_char_loop it min radix value (count + 1) todo
      end
    end
  end.
Definition escape_char (it : CursorChars) (min max : nat) (radix : Z) :
    comp (CursorChars * option char) :=
  '(it, value) ← escape_char_loop it min radix 0 0 max;
  Ok (it, match value with Some value => char_from_u32 value | None => None end).

(** [res.push(Self::escape_char(..)?)]. *)
Definition push_escaped (it : CursorChars) (res : str) (min max : nat) (radix : Z) :
    comp (CursorChars * str * bool) :=
  '(it, o) ← escape_char it min max radix;
  Ok (match o with Some c => (it, res ++ [c], true) | None => (it, res, false) end).

(** The last component is [is_ok]. *)
Definition escape (it : CursorChars) (res : str) : comp (CursorChars * str * bool) :=
  let '(o, it) := CursorChars_next it in
  match o with
  | None => Ok (it, res, false)
  | Some c =>
    (if c =? 0x6E then Ok (it, res ++ [0x0A], true)
     else if c =? 0x72 then Ok (it, res ++ [0x0D], true)
     else if c =? 0x74 then Ok (it, res ++ [0x09], true)
     else if c =? 0x61 then Ok (it, res ++ [0x07], true)
     else if c =? 0x62 then Ok (it, res ++ [0x08], true)
     else if c =? 0x66 then Ok (it, res ++ [0x0C], true)
     else if c =? 0x76 then Ok (it, res ++ [0x0B], true)
     else if c =? 0x0A then Ok (it, res, true)
     else if c =? 0x0D then
       let '(o, it) := CursorChars_next it in
       Ok (it, res, bool_decide (o = Some 0x0A))
     else if c =? 0x78 then push_escaped it res 2 2 16
     else if c =? 0x75 then push_escaped it res 4 4 16
     else if c =? 0x55 then push_escaped it res 8 8 16
     else if (0x30 <=? c) && (c <=? 0x37) then
       it ← CursorChars_unnext it c; push_escaped it res 1 3 8
     else if (c =? 0x22) || (c =? 0x27) || (c =? 0x5C) then Ok (it, res ++ [c], true)
     else Ok (it, res ++ [0x5C; c], true))%Z
  end.

(** The closure that recognises the end of a string, with its count of quotes. *)
Definition stop_triple (quote : char) (qs : nat) (c : char) : bool * nat :=
  if (c =? quote)%Z then (S qs =? 3, S qs) else (false, 0).
Definition stop_single (quote : char) (qs : nat) (c : char) : bool * nat :=
  ((c =? quote)%Z, qs).
Definition stop_of (triple : bool) : char → nat → char → bool * nat :=
  if triple then stop_triple else stop_single.

(** What the loop over bytes ends with. *)
Inductive FastLoop :=
| FastEnd (it : CursorBytes)
| FastStop (it : CursorBytes)
| FastBreak (it : CursorBytes) (qs : nat).

Fixpoint fast_loop (triple : bool) (stop : nat → char → bool * nat) (all : str)
    (rest : list byte) (qs : nat) : FastLoop :=
  match rest with
  | [] => FastEnd (mkCursorBytes all [])
  | c :: rest =>
    let it := mkCursorBytes all rest in
    let '(stopped, qs) := stop qs c in
    if stopped : bool then FastStop it
    else if (c =? 0x5C)%Z || (c =? 0x0D)%Z || ((c =? 0x0A)%Z && negb triple)
    then FastBreak it qs
    else fast_loop triple stop all rest qs
  end.

(** What the loop over characters ends with: the end of the string, [break], or an error
    in an escape sequence that starts at [pos]. *)
Inductive SlowLoop :=
| SlowStop (it : CursorChars) (res : str)
| SlowBreak (it : CursorChars) (string_end : nat)
| SlowEscape (it : CursorChars) (pos : nat).

Fixpoint slow_loop (triple raw : bool) (stop : nat → char → bool * nat) (it : CursorChars)
    (qs : nat) (res : str) (string_end : nat) (fuel : nat) : comp SlowLoop :=
  match fuel with
  | 0 => UB
  | S fuel =>
    let '(o, it) := CursorChars_next it in
    match o with
    | None => Ok (SlowBreak it string_end)
    | Some c =>
      let '(stopped, qs) := stop qs c in
      if stopped : bool then Ok (SlowStop it res)
      else if (c =? 0x0A)%Z && negb triple then
        string_end ← usize_sub string_end 1; Ok (SlowBreak it string_end)
      else if (c =? 0x0D)%Z then slow_loop triple raw stop it qs res string_end fuel
      else if (c =? 0x5C)%Z then
        if raw then
          let '(o, it) := CursorChars_next it in
          match o with
          | Some c =>
            let res := if negb (c =? 0x27)%Z && negb (c =? 0x22)%Z
                       then res ++ [0x5C%Z] else res in
            slow_loop triple raw stop it qs (res ++ [c]) string_end fuel
          | None => Ok (SlowBreak it string_end)
          end
        else
          let pos := CursorChars_pos it in
          '(it, res, ok) ← escape it res;
          if ok : bool then slow_loop triple raw stop it qs res string_end fuel
          else Ok (SlowEscape it pos)
      else slow_loop triple raw stop it qs (res ++ [c]) string_end fuel
    end
  end.

(** What follows the slow path's loop. *)
Definition slow_result (L : Lexer) (rem : str) (triple : bool) (string_start string_end contents_start : nat)
    (r : SlowLoop) : comp (LexemeT (str * nat) * Lexer) :=
  match r with
  | SlowStop it res =>
    L ← bump_by L (CursorChars_pos it);
    res ← (if triple then n ← usize_sub (str_len res) 2; str_upto res n else Ok res);
    Ok (inr (string_start, (res, contents_start), string_end + CursorChars_pos it), L)
  | SlowEscape it pos =>
    bad ← str_slice rem pos (CursorChars_pos it);
    start ← usize_sub (string_end + pos) 1;
    e ← err_span (if bool_decide (bad = []) then EmptyEscapeSequence else InvalidEscapeSequence bad)
      start (string_end + CursorChars_pos it);
    Ok (inl e, L)
  | SlowBreak it string_end =>
    e ← err_span UnfinishedStringLiteral string_start (string_end + CursorChars_pos it);
    Ok (inl e, L)
  end.

Definition string (L : Lexer) (triple raw : bool) (stop : nat → char → bool * nat) :
    comp (LexemeT (str * nat) * Lexer) :=
  let string_start := token_start (lexer L) in
  let string_end := token_end (lexer L) in
  rem ← remainder (lexer L);
  let it := CursorBytes_new rem in
  let it := if triple then (CursorBytes_next (CursorBytes_next it).2).2 else it in
  let contents_start := CursorBytes_pos it in
  match fast_loop triple stop rem (cb_rest it) 0 with
  | FastEnd it =>
    e ← err_span UnfinishedStringLiteral string_start (string_end + CursorBytes_pos it);
    Ok (inl e, L)
  | FastStop it =>
    contents_end ← usize_sub (CursorBytes_pos it) (if triple then 3 else 1);
    contents ← str_slice rem contents_start contents_end;
    L ← bump_by L (CursorBytes_pos it);
    Ok (inr (string_start, (contents, contents_start), string_end + CursorBytes_pos it), L)
  | FastBreak it qs =>
    p ← usize_sub (CursorBytes_pos it) 1;
    res ← str_slice rem contents_start p;
    it2 ← CursorChars_new_offset rem p;
    r ← slow_loop triple raw stop it2 qs res string_end (S (length (cc_rest it2)));
    slow_result L rem triple string_start string_end contents_start r
  end.

Definition parse_double_quoted_string (L : Lexer) (raw : bool) :
    comp (LexemeT (str * nat) * Lexer) :=
  rem ← remainder (lexer L);
  if str_starts_with rem [0x22; 0x22]%Z
  then string L true raw (stop_triple 0x22)
  else string L false raw (stop_single 0x22).
Definition parse_single_quoted_string (L : Lexer) (raw : bool) :
    comp (LexemeT (str * nat) * Lexer) :=
  rem ← remainder (lexer L);
  if str_starts_with rem [0x27; 0x27]%Z
  then string L true raw (stop_triple 0x27)
  else string L false raw (stop_single 0x27).

(** ** Integers *)

(** [i32::from_str_radix]. *)
Fixpoint from_digits (s : str) (radix acc : Z) : option Z :=
  match s with
  | [] => Some acc
  | c :: s => d ← to_digit c radix; from_digits s radix (acc * radix + d)%Z
  end.
Definition i32_from_str_radix (s : str) (radix : Z) : option Z :=
  match s with
  | [] => None
  | [c] => d ← to_digit c radix; checked_i32 d
  | c :: s' =>
    if (c =? 0x2D)%Z then n ← from_digits s' radix 0%Z; checked_i32 (- n)%Z
    else if (c =? 0x2B)%Z then n ← from_digits s' radix 0%Z; checked_i32 n
    else n ← from_digits s radix 0%Z; checked_i32 n
  end.

Context (big_from_str_radix : str → Z → option big).

Definition from_str_radix (s : str) (base : Z) : LexemeError + TokenInt :=
  match i32_from_str_radix s base with
  | Some i => inr (I32 i)
  | None =>
    match big_from_str_radix s base with
    | Some i => inr (BigInt_ i)
    | None => inl (CannotParse s base)
    end
  end.

Definition int (L : Lexer) (s : str) (radix : Z) : comp Lexeme :=
  match from_str_radix s radix with
  | inr i => Ok (inr (token_start (lexer L), Int_ i, token_end (lexer L)))
  | inl _ => e ← err_now L IntParse; Ok (inl e)
  end.

(** [&s[2..]] after [assert!]. *)
Definition prefixed_int (L : Lexer) (lower upper : char) (radix : Z) : comp Lexeme :=
  s ← slice (lexer L);
  _ ← assert (str_starts_with s [0x30%Z; lower] || str_starts_with s [0x30%Z; upper]);
  s ← str_from s 2;
  int L s radix.

Definition dec_int (L : Lexer) : comp Lexeme :=
  s ← slice (lexer L);
  starts_zero ← (if 1 <? str_len s
                 then p ← str_upto s 1; Ok (bool_decide (p = [0x30%Z])) else Ok false);
  if starts_zero : bool then e ← err_now L StartsZero; Ok (inl e) else int L s 10.

(** ** The next token *)

(** The scanner: the token that starts at or after a position, if any, and its span. *)
Context (logos_next : str → nat → option Token * (nat * nat)).

Definition next_raw (L : Lexer) : option Token * Lexer :=
  let l := lexer L in
  let '(o, (s, e)) := logos_next (source l) (token_end l) in
  (o, set_lexer L (mkLogos (source l) s e)).

(** Reads a string and makes a token of it. *)
Definition string_token (parse : Lexer → bool → comp (LexemeT (str * nat) * Lexer)) (L : Lexer)
    (raw : bool) (f : str * nat → Token) : comp (option Lexeme * Lexer) :=
  '(lex, L) ← parse L raw; Ok (Some (map_lexeme_t lex f), L).

Definition string_lit (p : str * nat) : Token := String_ p.1.
Definition fstring_lit (span_len : nat) (p : str * nat) : Token :=
  FString (mkFString p.1 (p.2 + span_len)).

(** [self.lexer.span().len()]. *)
Definition span_len (L : Lexer) : nat := token_end (lexer L) - token_start (lexer L).

(** A token other than those that make the loop continue. *)
Definition handle_token (L : Lexer) (token : Token) : comp (option Lexeme * Lexer) :=
  match token with
  | Reserved => e ← err_now L ReservedKeyword; Ok (Some (inl e), L)
  | Error => e ← err_now L InvalidInput; Ok (Some (inl e), L)
  | RawDecInt => l ← dec_int L; Ok (Some l, L)
  | RawOctInt => l ← prefixed_int L 0x6F 0x4F 8; Ok (Some l, L)
  | RawHexInt => l ← prefixed_int L 0x78 0x58 16; Ok (Some l, L)
  | RawBinInt => l ← prefixed_int L 0x62 0x42 2; Ok (Some l, L)
  | Int_ _ | String_ _ | FString _ => Panic
  | RawDoubleQuote => string_token parse_double_quoted_string L (span_len L =? 2) string_lit
  | RawSingleQuote => string_token parse_single_quoted_string L (span_len L =? 2) string_lit
  | RawFStringDoubleQuote =>
    string_token parse_double_quoted_string L (span_len L =? 3) (fstring_lit (span_len L))
  | RawFStringSingleQuote =>
    string_token parse_single_quoted_string L (span_len L =? 3) (fstring_lit (span_len L))
  | OpeningCurly | OpeningRound | OpeningSquare =>
    let L := set_parens L (parens L + 1) in Ok (Some (wrap L token), L)
  | ClosingCurly | ClosingRound | ClosingSquare =>
    let L := set_parens L (parens L - 1) in Ok (Some (wrap L token), L)
  | _ => Ok (Some (wrap L token), L)
  end.

Fixpoint next_loop (L : Lexer) (fuel : nat) : comp (option Lexeme * Lexer) :=
  match fuel with
  | 0 => UB
  | S fuel =>
    match buffer L with
    | x :: b => Ok (Some x, set_buffer L b)
    | [] =>
      if done_ L then Ok (None, L) else
      let '(o, L) := next_raw L in
      match o with
      | None =>
        let L := set_done L true in
        let pos := token_end (lexer L) in
        let L := set_buffer L (replicate (length (indent_levels L)) (inr (pos, Dedent, pos))) in
        let L := set_levels L [] in
        Ok (Some (wrap L Newline), L)
      | Some Tabs =>
        e ← err_pos InvalidTab (token_start (lexer L));
        next_loop (push_back L (inl e)) fuel
      | Some Newline =>
        if (parens L =? 0)%Z then
          let start := token_start (lexer L) in let end_ := token_end (lexer L) in
          '(e, L) ← calculate_indent L;
          match e with
          | Some e => Ok (Some (inl e), L)
          | None => Ok (Some (inr (start, Newline, end_)), L)
          end
        else next_loop L fuel
      | Some token => handle_token L token
      end
    end
  end.
(** Every round consumes a byte or empties the buffer. *)
Definition next (L : Lexer) : comp (option Lexeme * Lexer) :=
  next_loop L (2 * str_len (source (lexer L)) + 3).

(** [lex_exactly_one_identifier]. *)
Definition lex_exactly_one_identifier (s : str) : option str :=
  let '(t1, (_, e1)) := logos_next s 0 in
  let '(t2, _) := logos_next s e1 in
  match t1, t2 with Some (Identifier ident), None => Some ident | _, _ => None end.
End tokens.
Arguments TokenInt : clear implicits.
Arguments Token : clear implicits.
Arguments Lexer : clear implicits.
Arguments Lexeme : clear implicits.
Arguments IndentLoop : clear implicits.
