(* ===== verification/LexString.v ===== *)
(** String literals: the byte-wise fast path of [Lexer::string] agrees with reading
    characters one by one, reading never panics, and it inverts [repr]. *)

From S2P Require Import Prelude Ints FastString CodeMap Utf8 StringRepr Lexer.

(** * Cursors and escapes *)

Lemma str_len_nil : str_len [] = 0.
Proof. done. Qed.
Lemma str_len_snoc s c : str_len (s ++ [c]) = str_len s + len_utf8 c.
Proof. by rewrite str_len_app, str_len_cons, str_len_nil, Nat.add_0_r. Qed.

(** A cursor of a string [p ++ rest] that has read [p]. *)
Definition cursor_at (it : CursorChars) (p : str) : Prop := cc_all it = p ++ cc_rest it.

Lemma cursor_pos it p : cursor_at it p → CursorChars_pos it = str_len p.
Proof. unfold cursor_at, CursorChars_pos. intros ->. rewrite str_len_app. lia. Qed.

Lemma unnext_spec all p c rest :
  all = p ++ c :: rest →
  CursorChars_unnext (mkCursorChars all rest) c = Ok (mkCursorChars all (c :: rest)).
Proof.
  intros ->. unfold CursorChars_unnext, CursorChars_pos. cbn [cc_all cc_rest].
  rewrite str_len_app, str_len_cons. unfold usize_sub.
  rewrite (proj2 (Nat.leb_le _ _)) by lia. cbn [mbind result_bind].
  replace (str_len p + (len_utf8 c + str_len rest) - str_len rest - len_utf8 c) with (str_len p) by lia.
  rewrite str_from_app. cbn [mbind result_bind]. unfold CursorChars_peek. simpl.
  by rewrite bool_decide_eq_true_2.
Qed.

Lemma to_digit_range c radix d : to_digit c radix = Some d → (0 ≤ d < radix)%Z.
Proof.
  unfold to_digit. destruct ((0x30 <=? c) && (c <=? 0x39))%Z eqn:H1;
    [|destruct ((0x61 <=? c) && (c <=? 0x7A))%Z eqn:H2;
      [|destruct ((0x41 <=? c) && (c <=? 0x5A))%Z eqn:H3; [|done]]].
  all: repeat match goal with H : (_ && _)%bool = true |- _ => apply andb_true_iff in H as [?%Z.leb_le ?%Z.leb_le] end;
    destruct (Z.ltb_spec (c - 0x30) radix), (Z.ltb_spec (c - 0x61 + 10) radix),
      (Z.ltb_spec (c - 0x41 + 10) radix); intros; simplify_eq; lia.
Qed.

(** Reading an escape only moves the cursor forward, and does not overflow. *)
Definition forward (it it' : CursorChars) : Prop :=
  cc_all it' = cc_all it ∧ cc_rest it' `suffix_of` cc_rest it.

Lemma forward_refl it : forward it it.
Proof. done. Qed.
Lemma forward_trans a b c : forward a b → forward b c → forward a c.
Proof. intros [Ha Hb] [Ha' Hc]. split; [by rewrite Ha'|by transitivity (cc_rest b)]. Qed.
Lemma forward_next it c rest : cc_rest it = c :: rest → forward it (mkCursorChars (cc_all it) rest).
Proof. intros Hr. split; [done|]. rewrite Hr. by exists [c]. Qed.

Lemma escape_char_loop_total it p min radix value count todo :
  cursor_at it p → (0 ≤ value)%Z → (0 < radix)%Z → ((value + 1) * radix ^ Z.of_nat todo ≤ u32_max + 1)%Z →
  returns (escape_char_loop it min radix value count todo) (λ '(it', _), forward it it').
Proof.
  revert it p value count. induction todo as [|todo IH]; intros [all rest] p value count Hat Hv Hr Hb.
  { by apply returns_ret. }
  cbn [escape_char_loop]. unfold CursorChars_next. cbn [cc_all cc_rest].
  destruct rest as [|c rest]; [by apply returns_ret|].
  destruct (to_digit c radix) as [d|] eqn:Hd.
  - apply to_digit_range in Hd. rewrite Nat2Z.inj_succ, Z.pow_succ_r in Hb by lia.
    pose proof (Z.pow_pos_nonneg radix (Z.of_nat todo) ltac:(lia) ltac:(lia)).
    unfold u32_mul_add. rewrite (proj2 (Z.leb_le _ _)) by nia. cbn [mbind result_bind].
    eapply returns_mono; [apply (IH _ (p ++ [c]))|].
    + unfold cursor_at in *. cbn [cc_all cc_rest] in *. by rewrite Hat, <-app_assoc.
    + lia.
    + done.
    + nia.
    + intros [it' o] Hf. eapply forward_trans; [|exact Hf]. by eapply (forward_next (mkCursorChars all (c :: rest))).
  - destruct (min <=? count).
    + erewrite unnext_spec by exact Hat. by apply returns_ret.
    + apply returns_ret. by eapply (forward_next (mkCursorChars all (c :: rest))).
Qed.

Lemma push_escaped_total it p res min max radix :
  cursor_at it p → (0 < radix)%Z → (radix ^ Z.of_nat max ≤ u32_max + 1)%Z →
  returns (push_escaped it res min max radix) (λ '(it', _, _), forward it it').
Proof.
  intros Hat Hr Hb. unfold push_escaped, escape_char. apply returns_bind.
  step_with escape_char_loop_total; [exact Hat|lia|done|lia|]. intros [it' value] Hf.
  do 2 apply returns_ret. by destruct (match value with Some _ => _ | None => _ end).
Qed.

Lemma escape_total it p res :
  cursor_at it p → returns (escape it res) (λ '(it', _, _), forward it it').
Proof.
  destruct it as [all rest]. intros Hat. unfold escape, CursorChars_next. cbn [cc_all cc_rest].
  destruct rest as [|c rest]; [by apply returns_ret|].
  assert (forward (mkCursorChars all (c :: rest)) (mkCursorChars all rest)) as Hf
    by by eapply (forward_next (mkCursorChars all (c :: rest))).
  assert (cursor_at (mkCursorChars all rest) (p ++ [c])) as Hat'.
  { unfold cursor_at in *. cbn [cc_all cc_rest] in *. by rewrite Hat, <-app_assoc. }
  assert (∀ min max radix, (0 < radix)%Z → (radix ^ Z.of_nat max ≤ u32_max + 1)%Z →
    returns (push_escaped (mkCursorChars all rest) res min max radix)
      (λ '(it', _, _), forward (mkCursorChars all (c :: rest)) it')) as Hp.
  { intros min max radix Hr Hb. eapply returns_mono; [by eapply push_escaped_total|].
    intros [[it' ?] ?] Hf'. by eapply forward_trans. }
  repeat (match goal with |- context [if ?b then _ else _] => destruct b end;
          [first [by apply returns_ret | by apply Hp | idtac]|]).
  - destruct rest as [|c' rest]; apply returns_ret; [done|]. eapply forward_trans; [exact Hf|].
    by eapply (forward_next (mkCursorChars all (c' :: rest))).
  - erewrite unnext_spec by exact Hat. cbn [mbind result_bind].
    by eapply push_escaped_total.
  - by apply returns_ret.
Qed.

(** * The slow path *)

Section slow.
Context {big f64 : Type}.

(** The quotes a string can start with are neither blanks nor backslashes. *)
Definition is_quote (q : char) : Prop := q = 0x22%Z ∨ q = 0x27%Z.

Lemma stop_other triple q qs c : is_quote q → c ≠ q →
  ∃ qs', stop_of triple q qs c = (false, qs') ∧ stop_of triple q qs' c = (false, qs') ∧
    ∀ c', c' ≠ q → stop_of triple q qs c' = (false, qs').
Proof.
  intros _ Hc. destruct triple; simpl; unfold stop_triple, stop_single.
  - exists 0. rewrite (proj2 (Z.eqb_neq _ _) Hc). split_and!; [done..|].
    intros c' Hc'. by rewrite (proj2 (Z.eqb_neq _ _) Hc').
  - exists qs. rewrite (proj2 (Z.eqb_neq _ _) Hc). split_and!; [done..|].
    intros c' Hc'. by rewrite (proj2 (Z.eqb_neq _ _) Hc').
Qed.

(** What is known where the loop stops: how far it read, and, in a triple-quoted string,
    the two quotes at the end of what it collected. *)
Definition quotes_read (triple : bool) (q : char) (n : nat) (res : str) : Prop :=
  triple = true → n ≤ 2 ∧ replicate n q `suffix_of` res.

Lemma stop_quotes triple q qs c res stopped qs' :
  quotes_read triple q qs res → stop_of triple q qs c = (stopped, qs') →
  if stopped then c = q ∧ quotes_read triple q 2 res else quotes_read triple q qs' (res ++ [c]).
Proof.
  unfold quotes_read. destruct triple; simpl; unfold stop_triple, stop_single.
  - intros Hq. specialize (Hq eq_refl) as [Hle [pre Hpre]].
    destruct (Z.eqb_spec c q) as [->|Hc]; intros [= <- <-].
    + destruct (Nat.eqb_spec qs 2) as [->|Hne].
      * split; [done|]. intros _. split; [done|]. by exists pre.
      * intros _. split; [lia|]. exists pre. rewrite Hpre, <-app_assoc. f_equal.
        change (q :: replicate qs q) with (replicate (S qs) q). by rewrite replicate_S_end.
    + intros _. split; [lia|]. simpl. apply suffix_nil.
  - intros _ [= <- <-]. destruct (Z.eqb_spec c q); [by split|done].
Qed.

Definition slow_post (it : CursorChars) (p : str) (triple : bool) (q : char) (string_end : nat)
    (r : SlowLoop) : Prop :=
  match r with
  | SlowStop it' res => forward it it' ∧ quotes_read triple q 2 res
  | SlowBreak it' e => forward it it' ∧
      (e = string_end ∨ e + 1 = string_end ∧ str_len p < CursorChars_pos it')
  | SlowEscape it' pos => ∃ a b rest, cc_rest it = a ++ b ++ rest ∧ a ≠ [] ∧
      it' = mkCursorChars (cc_all it) rest ∧ pos = str_len (p ++ a)
  end.

Lemma slow_post_mono it p it1 p1 triple q e r :
  cursor_at it p → cursor_at it1 p1 → forward it it1 → slow_post it1 p1 triple q e r →
  slow_post it p triple q e r.
Proof.
  intros Hat Hat1 Hf. pose proof Hf as [Hall [s Hs]].
  assert (p1 = p ++ s) as ->.
  { unfold cursor_at in *. rewrite Hall, Hat, Hs, app_assoc in Hat1.
    by apply app_inv_tail in Hat1. }
  destruct r as [it' res|it' e'|it' pos]; simpl.
  - intros [H ?]. split; [|done]. by eapply forward_trans.
  - intros [H ?]. split; [by eapply forward_trans|]. rewrite str_len_app in *. lia.
  - intros (a & b & rest & Hr & Ha & -> & ->). exists (s ++ a), b, rest.
    rewrite Hs, Hr, Hall. split_and!; [by rewrite <-app_assoc| |done|by rewrite <-app_assoc].
    by destruct s.
Qed.

Lemma suffix_lt {A} (l l' : list A) x : l `suffix_of` l' → length l < S (length (x :: l')).
Proof. intros [k ->]. simpl. rewrite length_app. lia. Qed.

Lemma slow_loop_total triple raw q it p qs res e fuel :
  is_quote q → cursor_at it p → quotes_read triple q qs res → 0 < e → length (cc_rest it) < fuel →
  returns (slow_loop triple raw (stop_of triple q) it qs res e fuel) (slow_post it p triple q e).
Proof.
  intros Hq. revert it p qs res. induction fuel as [|fuel IH]; intros [all rest] p qs res Hat Hqs He Hf;
    [lia|]. cbn [cc_rest] in Hf. cbn [slow_loop]. unfold CursorChars_next. cbn [cc_all cc_rest].
  destruct rest as [|c rest].
  { apply returns_ret. simpl. split; [done|by left]. }
  assert (forward (mkCursorChars all (c :: rest)) (mkCursorChars all rest)) as Hfw
    by by eapply (forward_next (mkCursorChars all (c :: rest))).
  assert (cursor_at (mkCursorChars all rest) (p ++ [c])) as Hat'.
  { unfold cursor_at in *. cbn [cc_all cc_rest] in *. by rewrite Hat, <-app_assoc. }
  destruct (stop_of triple q qs c) as [stopped qs'] eqn:Hstop.
  pose proof (stop_quotes _ _ _ _ _ _ _ Hqs Hstop) as Hsq. simpl in Hf.
  destruct stopped; [apply returns_ret; simpl; by destruct Hsq|].
  assert (∀ it' p' qs' res', forward (mkCursorChars all (c :: rest)) it' → cursor_at it' p' →
    quotes_read triple q qs' res' → length (cc_rest it') < fuel →
    returns (slow_loop triple raw (stop_of triple q) it' qs' res' e fuel)
      (slow_post (mkCursorChars all (c :: rest)) p triple q e)) as Hgo.
  { intros it' p' n res' Hfw' Hat'' Hn Hlt. eapply returns_mono; [by apply (IH _ p')|].
    intros r. by apply slow_post_mono. }
  assert (c ≠ q → ∀ res', quotes_read triple q qs' res') as Hreset.
  { intros Hc res'. destruct (stop_other triple q qs c Hq Hc) as (n & Hn & _ & _).
    rewrite Hn in Hstop. injection Hstop as <-. unfold quotes_read in *. destruct triple; [|done].
    unfold stop_of, stop_triple in Hn. rewrite (proj2 (Z.eqb_neq _ _) Hc) in Hn.
    injection Hn as <-. intros _. split; [lia|apply suffix_nil]. }
  destruct ((c =? 0x0A)%Z && negb triple) eqn:Hnl.
  { apply andb_true_iff in Hnl as [->%Z.eqb_eq _]. unfold usize_sub.
    rewrite (proj2 (Nat.leb_le _ _)) by lia. apply returns_ret. split; [done|]. right.
    rewrite (cursor_pos _ _ Hat'), str_len_snoc. pose proof (len_utf8_pos 0x0A). lia. }
  destruct (Z.eqb_spec c 0x0D) as [->|Hcr].
  { eapply Hgo; [done|done| |simpl; lia]. apply Hreset; destruct Hq; subst; done. }
  destruct (Z.eqb_spec c 0x5C) as [->|Hbs].
  - assert (∀ res', quotes_read triple q qs' res') as Hany.
    { intros res'. apply Hreset; destruct Hq; subst; done. }
    destruct raw.
    + destruct rest as [|c' rest].
      { apply returns_ret. simpl. split; [done|by left]. }
      eapply (Hgo _ ((p ++ [0x5C%Z]) ++ [c'])); [| |apply Hany|simpl in *; lia].
      * eapply forward_trans; [exact Hfw|]. by eapply (forward_next (mkCursorChars all (c' :: rest))).
      * unfold cursor_at in *. cbn [cc_all cc_rest] in *.
        by rewrite Hat', <-(app_assoc (p ++ _) [c'] rest).
    + destruct (escape_total _ _ res Hat') as ([[it' res'] ok] & Hesc & Hfe).
      rewrite Hesc. cbn [mbind result_bind]. pose proof Hfe as [Hall [s Hs]]. simpl in Hall, Hs.
      destruct ok.
      * eapply (Hgo _ ((p ++ [0x5C%Z]) ++ s)); [by eapply forward_trans| |apply Hany|].
        -- unfold cursor_at in *. rewrite Hall. cbn [cc_all cc_rest] in *. by rewrite Hat', Hs, app_assoc.
        -- rewrite Hs, length_app in Hf. lia.
      * apply returns_ret. exists [0x5C%Z], s, (cc_rest it'). rewrite (cursor_pos _ _ Hat'). cbn [cc_rest cc_all].
        split_and!; [by rewrite Hs|done|destruct it'; simpl in *; by subst|done].
  - eapply Hgo; [done|done|exact Hsq|simpl; lia].
Qed.

(** * The fast path *)

(** Reading a string character by character from the start: what [string] computes
    without its fast path. *)
Definition string_by_chars (L : Lexer big f64) (triple raw : bool)
    (stop : nat → char → bool * nat) : comp (LexemeT (str * nat) * Lexer big f64) :=
  let string_end := token_end (lexer L) in
  rem ← remainder (lexer L);
  let contents_start := if triple then 2 else 0 in
  it ← CursorChars_new_offset rem contents_start;
  r ← slow_loop triple raw stop it 0 [] string_end (S (length (cc_rest it)));
  slow_result L rem triple (token_start (lexer L)) string_end contents_start r.

Lemma fast_loop_wide triple q all bs rest qs qs' :
  is_quote q → Forall (λ b, 0x80 ≤ b)%Z bs → bs ≠ [] →
  (∀ c', c' ≠ q → stop_of triple q qs c' = (false, qs')) →
  fast_loop triple (stop_of triple q) all (bs ++ rest) qs =
    fast_loop triple (stop_of triple q) all rest qs'.
Proof.
  intros Hq Hbs. revert qs. induction Hbs as [|b bs Hb _ IH]; intros qs Hne Hstop; [done|].
  assert (b ≠ q) as Hbq by (destruct Hq; subst; lia). cbn [app fast_loop].
  rewrite (Hstop _ Hbq), (proj2 (Z.eqb_neq b 0x5C)), (proj2 (Z.eqb_neq b 0x0D)),
    (proj2 (Z.eqb_neq b 0x0A)) by lia. simpl.
  destruct bs as [|b' bs]; [done|]. apply IH; [done|]. intros c' Hc'.
  specialize (Hstop b Hbq). destruct triple; simpl in *; unfold stop_triple, stop_single in *;
    rewrite (proj2 (Z.eqb_neq _ _) Hc'); [|done].
  rewrite (proj2 (Z.eqb_neq _ _) Hbq) in Hstop. by injection Hstop as <-.
Qed.

(** The two loops, from a point where the string so far is [con]. *)
Definition fast_finish (L : Lexer big f64) (rem : str) (triple raw : bool)
    (stop : nat → char → bool * nat) (contents_start : nat) (f : FastLoop) :
    comp (LexemeT (str * nat) * Lexer big f64) :=
  let string_start := token_start (lexer L) in
  let string_end := token_end (lexer L) in
  match f with
  | FastEnd it =>
    e ← err_span UnfinishedStringLiteral string_start (string_end + CursorBytes_pos it);
    Ok (inl e, L)
  | FastStop it =>
    contents_end ← usize_sub (CursorBytes_pos it) (if triple then 3 else 1);
    contents ← str_slice rem contents_start contents_end;
    L ← bump_by L (CursorBytes_pos it);
    Ok (inr (string_start, (contents, contents_start), string_end + CursorBytes_pos it), L)
  | FastBreak it qs =>
    p ← usize_sub (CursorBytes_pos it) 1;
    res ← str_slice rem contents_start p;
    it2 ← CursorChars_new_offset rem p;
    r ← slow_loop triple raw stop it2 qs res string_end (S (length (cc_rest it2)));
    slow_result L rem triple string_start string_end contents_start r
  end.

Lemma cursor_bytes_pos s cs : CursorBytes_pos (mkCursorBytes (s ++ cs) (bytes cs)) = str_len s.
Proof. unfold CursorBytes_pos. simpl. fold (str_len cs). rewrite str_len_app. lia. Qed.

Lemma bump_by_ok (L : Lexer big f64) pre a b :
  source (lexer L) = pre ++ a ++ b → token_end (lexer L) = str_len pre →
  bump_by L (str_len a) =
    Ok (set_lexer L (mkLogos (source (lexer L)) (token_start (lexer L))
                       (token_end (lexer L) + str_len a))).
Proof.
  intros Hs He. unfold bump_by, bump. rewrite Hs, He, <-str_len_app, app_assoc, str_from_app. done.
Qed.

Lemma fast_slow (L : Lexer big f64) pre hd con cs triple raw q qs :
  is_quote q → let rem := hd ++ con ++ cs in
  source (lexer L) = pre ++ rem → token_end (lexer L) = str_len pre →
  quotes_read triple q qs con →
  fast_finish L rem triple raw (stop_of triple q) (str_len hd)
    (fast_loop triple (stop_of triple q) rem (bytes cs) qs) =
  (r ← slow_loop triple raw (stop_of triple q) (mkCursorChars rem cs) qs con
         (token_end (lexer L)) (S (length cs));
   slow_result L rem triple (token_start (lexer L)) (token_end (lexer L)) (str_len hd) r).
Proof.
  intros Hq. cbn zeta. intros Hsrc He. revert con qs Hsrc.
  induction cs as [|c cs IH]; intros con qs Hsrc Hqs.
  { simpl. rewrite !app_nil_r. unfold CursorBytes_pos, CursorChars_pos. simpl.
    by rewrite str_len_nil. }
  set (rem := hd ++ con ++ c :: cs) in *.
  assert (rem = (hd ++ con ++ [c]) ++ cs) as Hrem by (unfold rem; by rewrite <-!app_assoc).
  assert (rem = (hd ++ con) ++ c :: cs) as Hrem' by (unfold rem; by rewrite <-!app_assoc).
  assert (str_slice rem (str_len hd) (str_len hd + str_len con) = Ok con) as Hslice
    by by apply str_slice_app.
  rewrite bytes_cons. destruct (Z.ltb_spec c 0x80) as [Ha|Ha].
  - rewrite encode_ascii by done. cbn [app fast_loop slow_loop]. unfold CursorChars_next at 1.
    cbn [cc_all cc_rest].
    assert (CursorBytes_pos (mkCursorBytes rem (bytes cs)) = str_len (hd ++ con) + 1) as Hbp.
    { rewrite Hrem, cursor_bytes_pos, app_assoc, str_len_snoc, len_ascii by done. done. }
    assert (CursorChars_pos (mkCursorChars rem cs) = str_len (hd ++ con) + 1) as Hcp.
    { rewrite (cursor_pos _ (hd ++ con ++ [c])) by done. by rewrite app_assoc, str_len_snoc, len_ascii. }
    destruct (stop_of triple q qs c) as [stopped qs'] eqn:Hstop.
    pose proof (stop_quotes _ _ _ _ _ _ _ Hqs Hstop) as Hsq. destruct stopped.
    + destruct Hsq as [-> Hsq]. cbn [fast_finish mbind result_bind slow_result]. rewrite Hbp, Hcp.
      assert (bump_by L (str_len (hd ++ con) + 1) =
        Ok (set_lexer L (mkLogos (source (lexer L)) (token_start (lexer L))
             (token_end (lexer L) + (str_len (hd ++ con) + 1))))) as Hbump.
      { replace (str_len (hd ++ con) + 1) with (str_len (hd ++ con ++ [q])).
        - eapply bump_by_ok; [|exact He]. by rewrite Hsrc, Hrem.
        - by rewrite app_assoc, str_len_snoc, len_ascii. }
      rewrite Hbump. destruct triple.
      * specialize (Hsq eq_refl) as [_ [con0 ->]]. cbn [replicate].
        assert (str_len [q; q] = 2) as H2
          by by rewrite !str_len_cons, str_len_nil, len_ascii.
        rewrite !app_assoc, str_len_app, H2. unfold usize_sub.
        rewrite !(proj2 (Nat.leb_le _ _)) by lia. cbn [mbind result_bind].
        replace (str_len (hd ++ con0) + 2 + 1 - 3) with (str_len hd + str_len con0)
          by (rewrite str_len_app; lia).
        unfold rem. rewrite <-(app_assoc con0).
        rewrite (str_slice_app hd con0) by done. cbn [mbind result_bind].
        rewrite (str_len_app con0), H2, (proj2 (Nat.leb_le _ _)) by lia. cbn [mbind result_bind].
        replace (str_len con0 + 2 - 2) with (str_len con0) by lia. by rewrite str_upto_app.
      * unfold usize_sub. rewrite (proj2 (Nat.leb_le _ _)) by lia. cbn [mbind result_bind].
        replace (str_len (hd ++ con) + 1 - 1) with (str_len hd + str_len con)
          by (rewrite str_len_app; lia).
        by rewrite Hslice.
    + destruct ((c =? 0x5C)%Z || (c =? 0x0D)%Z || ((c =? 0x0A)%Z && negb triple)) eqn:Hsp.
      * cbn [fast_finish]. rewrite Hbp. unfold usize_sub at 1.
        rewrite (proj2 (Nat.leb_le _ _)) by lia. cbn [mbind result_bind].
        replace (str_len (hd ++ con) + 1 - 1) with (str_len hd + str_len con)
          by (rewrite str_len_app; lia).
        rewrite Hslice. cbn [mbind result_bind].
        assert (str_from rem (str_len hd + str_len con) = Ok (c :: cs)) as Hfrom
          by by rewrite Hrem', <-str_len_app, str_from_app.
        unfold CursorChars_new_offset. rewrite Hfrom.
        cbn [mbind result_bind cc_rest]. f_equal. cbn [slow_loop]. unfold CursorChars_next at 1.
        cbn [cc_all cc_rest].
        assert (c ≠ q) as Hcq.
        { intros ->. by destruct Hq; subst q; destruct triple. }
        destruct (stop_other triple q qs c Hq Hcq) as (n & Hn & Hn' & _).
        rewrite Hn in Hstop. injection Hstop as ->. by rewrite Hn'.
      * apply orb_false_iff in Hsp as [Hsp Hn]. apply orb_false_iff in Hsp as [Hb Hr].
        rewrite Hb, Hr, Hn. specialize (IH (con ++ [c]) qs').
        rewrite <-app_assoc in IH. by apply IH.
  - assert (c ≠ q) as Hcq by (destruct Hq; subst; lia).
    destruct (stop_other triple q qs c Hq Hcq) as (qs' & Hn & Hn' & Hany).
    erewrite fast_loop_wide; [|done| | |exact Hany].
    2: { apply Forall_forall. intros b Hb. by eapply encode_wide. }
    2: { intros Hnil. pose proof (len_utf8_pos c) as Hl. unfold len_utf8 in Hl. rewrite Hnil in Hl.
         simpl in Hl. lia. }
    cbn [slow_loop]. unfold CursorChars_next at 1. cbn [cc_all cc_rest]. rewrite Hn.
    rewrite (proj2 (Z.eqb_neq c 0x0A)), (proj2 (Z.eqb_neq c 0x0D)), (proj2 (Z.eqb_neq c 0x5C)) by lia.
    simpl. pose proof (stop_quotes _ _ _ _ _ _ _ Hqs Hn) as Hsq. simpl in Hsq.
    specialize (IH (con ++ [c]) qs'). rewrite <-app_assoc in IH. by apply IH.
Qed.

(** The lexer has read [pre], and [rem] is left. *)
Record reading (L : Lexer big f64) (pre rem : str) : Prop := {
  reading_source : source (lexer L) = pre ++ rem;
  reading_end : token_end (lexer L) = str_len pre;
  reading_start : token_start (lexer L) ≤ token_end (lexer L);
  reading_u32 : (Z.of_nat (str_len (pre ++ rem)) ≤ u32_max)%Z;
  reading_codemap : codemap L = pre ++ rem;
}.

Lemma reading_remainder L pre rem : reading L pre rem → remainder (lexer L) = Ok rem.
Proof. intros [Hs He _ _ _]. unfold remainder. by rewrite Hs, He, str_from_app. Qed.

Lemma string_fast_path L pre rem triple raw q :
  is_quote q → reading L pre rem → (triple = true → [q; q] `prefix_of` rem) →
  string L triple raw (stop_of triple q) = string_by_chars L triple raw (stop_of triple q).
Proof.
  intros Hq Hl Htri. pose proof (reading_remainder _ _ _ Hl) as Hrem. destruct Hl as [Hs He _ _ _].
  assert (∃ hd cs, rem = hd ++ cs ∧ str_len hd = (if triple then 2 else 0) ∧
    let it := CursorBytes_new rem in
    (if triple then (CursorBytes_next (CursorBytes_next it).2).2 else it) =
      mkCursorBytes rem (bytes cs)) as (hd & cs & -> & Hhd & Hit).
  { destruct triple; [|by exists [], rem]. destruct (Htri eq_refl) as [cs ->].
    assert (q < 0x80)%Z by (destruct Hq; subst; lia). exists [q; q], cs. split_and!; [done| |].
    - by rewrite !str_len_cons, str_len_nil, len_ascii.
    - unfold CursorBytes_new. cbn [app]. by rewrite !bytes_cons, !encode_ascii. }
  unfold string. rewrite Hrem. cbn [mbind result_bind].
  cbn zeta in Hit. rewrite Hit, cursor_bytes_pos. cbn [cb_rest].
  pose proof (fast_slow L pre hd [] cs triple raw q 0 Hq Hs He) as Hfs.
  cbn [app] in Hfs. etransitivity; [apply Hfs|].
  - intros _. split; [lia|apply suffix_nil].
  - unfold string_by_chars. rewrite Hrem. cbn [mbind result_bind]. unfold CursorChars_new_offset.
    by rewrite <-Hhd, str_from_app.
Qed.

Lemma err_span_ok msg s e :
  s ≤ e → (Z.of_nat e ≤ u32_max)%Z → err_span msg s e = Ok (mkException msg (mkSpan s e)).
Proof.
  intros Hse He. unfold err_span, Span_new. rewrite !pos_of_usize_id by lia.
  by rewrite (proj2 (Nat.leb_le _ _) Hse).
Qed.

Definition advanced (L : Lexer big f64) (n : nat) : Lexer big f64 :=
  set_lexer L (mkLogos (source (lexer L)) (token_start (lexer L)) (token_end (lexer L) + n)).

(** A string either is read, or is an error that leaves the lexer alone. *)
Definition string_post (L : Lexer big f64) (rem : str)
    (r : LexemeT (str * nat) * Lexer big f64) : Prop :=
  match r with
  | (inl e, L') => L' = L
  | (inr (s, _, e), L') => ∃ read rest, rem = read ++ rest ∧ L' = advanced L (str_len read) ∧
      s = token_start (lexer L) ∧ e = token_end (lexer L) + str_len read
  end.

Lemma forward_split rem hd it :
  cc_all it = rem → forward (mkCursorChars rem hd) it → hd `suffix_of` rem →
  ∃ read, rem = read ++ cc_rest it ∧ CursorChars_pos it = str_len read.
Proof.
  intros Hall [_ [a Ha]] [b Hb]. exists (b ++ a). simpl in Ha. split.
  - by rewrite Hb, Ha, app_assoc.
  - apply cursor_pos. unfold cursor_at. by rewrite Hall, Hb, Ha, app_assoc.
Qed.

Lemma slow_result_total L pre rem hd cs triple q r cstart :
  is_quote q → reading L pre rem → rem = hd ++ cs → token_start (lexer L) < token_end (lexer L) →
  slow_post (mkCursorChars rem cs) hd triple q (token_end (lexer L)) r →
  returns (slow_result L rem triple (token_start (lexer L)) (token_end (lexer L)) cstart r)
    (string_post L rem).
Proof.
  intros Hq [Hs He Hst Hu Hc] Hrem Hlt Hpost.
  assert (cs `suffix_of` rem) as Hsuf by by exists hd.
  rewrite str_len_app in Hu. destruct r as [it res|it e|it pos]; simpl in Hpost |- *.
  - destruct Hpost as [Hf Hqs]. pose proof Hf as [Hall _]. cbn [cc_all] in Hall.
    destruct (forward_split _ _ _ Hall Hf Hsuf) as (read & Hread & ->).
    rewrite (bump_by_ok _ pre read (cc_rest it)) by (by rewrite ?Hs, <-?Hread). cbn [mbind result_bind].
    assert (∃ res', (if triple then n ← usize_sub (str_len res) 2; str_upto res n else Ok res) =
      (Ok res' : comp str)) as [res' ->].
    { destruct triple; [|eauto]. destruct (Hqs eq_refl) as [_ [con ->]]. exists con. cbn [replicate].
      assert (q < 0x80)%Z by (destruct Hq; subst; lia).
      rewrite str_len_app, !str_len_cons, str_len_nil, !len_ascii by done. unfold usize_sub.
      rewrite (proj2 (Nat.leb_le _ _)) by lia. cbn [mbind result_bind].
      replace (str_len con + (1 + (1 + 0)) - 2) with (str_len con) by lia. apply str_upto_app. }
    cbn [mbind result_bind]. apply returns_ret. by exists read, (cc_rest it).
  - destruct Hpost as [Hf Hee]. pose proof Hf as [Hall _]. cbn [cc_all] in Hall.
    destruct (forward_split _ _ _ Hall Hf Hsuf) as (read & Hread & Hpos). rewrite Hpos in *.
    apply (f_equal str_len) in Hread. rewrite str_len_app in Hread.
    rewrite err_span_ok by lia. by apply returns_ret.
  - destruct Hpost as (a & b & rest & Hcs & Ha & -> & ->). cbn [cc_rest cc_all] in *.
    assert (rem = (hd ++ a) ++ b ++ rest) as Hsplit by by rewrite Hrem, Hcs, <-app_assoc.
    assert (CursorChars_pos (mkCursorChars rem rest) = str_len (hd ++ a) + str_len b) as Hpos.
    { rewrite <-str_len_app. apply cursor_pos. unfold cursor_at. simpl. by rewrite Hsplit, (app_assoc _ b). }
    rewrite Hpos. assert (str_slice rem (str_len (hd ++ a)) (str_len (hd ++ a) + str_len b) = Ok b) as ->
      by (rewrite Hsplit; by apply str_slice_app).
    cbn [mbind result_bind].
    assert (0 < str_len (hd ++ a)).
    { destruct a as [|c a]; [done|]. rewrite str_len_app, str_len_cons. pose proof (len_utf8_pos c). lia. }
    unfold usize_sub. rewrite (proj2 (Nat.leb_le _ _)) by lia. cbn [mbind result_bind].
    apply (f_equal str_len) in Hsplit. rewrite (str_len_app (hd ++ a)), (str_len_app b) in Hsplit.
    rewrite err_span_ok by lia. by apply returns_ret.
Qed.

Lemma string_total L pre rem triple raw q :
  is_quote q → reading L pre rem → token_start (lexer L) < token_end (lexer L) →
  (triple = true → [q; q] `prefix_of` rem) →
  returns (string L triple raw (stop_of triple q)) (string_post L rem).
Proof.
  intros Hq Hl Hlt Htri. rewrite (string_fast_path _ _ _ _ _ _ Hq Hl Htri). unfold string_by_chars.
  rewrite (reading_remainder _ _ _ Hl). cbn [mbind result_bind].
  assert (∃ hd cs, rem = hd ++ cs ∧ str_len hd = (if triple then 2 else 0)) as (hd & cs & Hrem & Hhd).
  { destruct triple; [|by exists [], rem]. destruct (Htri eq_refl) as [cs ->].
    assert (q < 0x80)%Z by (destruct Hq; subst; lia). exists [q; q], cs. split; [done|].
    by rewrite !str_len_cons, str_len_nil, len_ascii. }
  unfold CursorChars_new_offset. rewrite <-Hhd. rewrite Hrem at 1. rewrite str_from_app.
  cbn [mbind result_bind cc_rest].
  destruct (slow_loop_total triple raw q (mkCursorChars rem cs) hd 0 [] (token_end (lexer L))
    (S (length cs)) Hq) as (r & Hr & Hpost); [done| |lia|simpl; lia|].
  { intros _. split; [lia|apply suffix_nil]. }
  rewrite Hr. cbn [mbind result_bind]. by eapply slow_result_total.
Qed.
End slow.

(** * [repr] and back *)

(** ** Hexadecimal digits *)

Fixpoint digits_be (n : nat) (c : Z) : list Z :=
  match n with
  | 0 => []
  | S n => digits_be n (c / 16)%Z ++ [(c mod 16)%Z]
  end.

Lemma length_digits n c : length (digits_be n c) = n.
Proof. revert c. induction n as [|n IH]; intros c; [done|]. simpl. rewrite length_app, IH. simpl. lia. Qed.

Lemma digits_range n c : Forall (λ d, 0 ≤ d < 16)%Z (digits_be n c).
Proof.
  revert c. induction n as [|n IH]; intros c; simpl; [constructor|]. apply Forall_app.
  split; [apply IH|]. constructor; [|constructor]. apply Z.mod_pos_bound. lia.
Qed.

Lemma digits_zero n : digits_be n 0 = replicate n 0%Z.
Proof.
  induction n as [|n IH]; [done|]. cbn [digits_be]. rewrite Z.div_0_l, Z.mod_0_l by lia.
  rewrite IH. by rewrite <-replicate_S_end.
Qed.

Lemma digits_value n c :
  (0 ≤ c < 16 ^ Z.of_nat n)%Z → foldl (λ v d, v * 16 + d)%Z 0%Z (digits_be n c) = c.
Proof.
  revert c. induction n as [|n IH]; intros c Hc; [simpl in *; lia|]. cbn [digits_be].
  rewrite foldl_snoc, IH; [pose proof (Z.div_mod c 16 ltac:(lia)); lia|].
  rewrite Nat2Z.inj_succ, Z.pow_succ_r in Hc by lia.
  split; [apply Z.div_pos; lia|apply Z.div_lt_upper_bound; lia].
Qed.

Lemma hex_digits_acc fuel c acc : hex_digits fuel c acc = hex_digits fuel c [] ++ acc.
Proof.
  revert c acc. induction fuel as [|fuel IH]; intros c acc; [done|]. cbn [hex_digits].
  destruct (c <? 16)%Z; [done|]. rewrite IH, (IH _ [_]). by rewrite <-app_assoc.
Qed.

Lemma length_hex_digits fuel c : length (hex_digits fuel c []) ≤ fuel.
Proof.
  revert c. induction fuel as [|fuel IH]; intros c; [done|]. cbn [hex_digits].
  destruct (c <? 16)%Z; simpl; [lia|]. rewrite hex_digits_acc, length_app. simpl. specialize (IH (c / 16)%Z). lia.
Qed.

Lemma padded_digits fuel w c :
  1 ≤ w ≤ fuel → (0 ≤ c < 16 ^ Z.of_nat w)%Z →
  replicate (w - length (hex_digits fuel c [])) 0x30%Z ++ hex_digits fuel c [] =
    hex_digit <$> digits_be w c.
Proof.
  revert w c. induction fuel as [|fuel IH]; intros w c Hw Hc; [lia|]. destruct w as [|w]; [lia|].
  cbn [hex_digits digits_be]. rewrite fmap_app. csimpl. destruct (Z.ltb_spec c 16).
  - simpl length. rewrite Z.div_small, digits_zero, fmap_replicate by lia.
    by replace (S w - 1) with w by lia.
  - rewrite hex_digits_acc, length_app, app_assoc. cbn [length].
    replace (S w - (length (hex_digits fuel (c / 16) []) + 1))
      with (w - length (hex_digits fuel (c / 16) [])) by lia.
    rewrite Nat2Z.inj_succ, Z.pow_succ_r in Hc by lia. rewrite IH; [done| |].
    + split; [|lia]. destruct w; [|lia]. simpl in Hc. lia.
    + split; [apply Z.div_pos; lia|apply Z.div_lt_upper_bound; lia].
Qed.

Lemma fmt_hex_digits w c :
  1 ≤ w ≤ 8 → (0 ≤ c < 16 ^ Z.of_nat w)%Z → fmt_hex w c = hex_digit <$> digits_be w c.
Proof. intros Hw Hc. unfold fmt_hex. by apply padded_digits. Qed.

Lemma to_digit_hex d : (0 ≤ d < 16)%Z → to_digit (hex_digit d) 16 = Some d.
Proof.
  intros Hd. assert (d ∈ seqZ 0 16) as Hin by (apply elem_of_seqZ; lia). revert Hin.
  vm_compute seqZ. rewrite !elem_of_cons. intros Hin.
  repeat (destruct Hin as [->|Hin]; [done|]). by apply elem_of_nil in Hin.
Qed.

Lemma hex_digit_ascii d : (0 ≤ d < 16)%Z → (0 ≤ hex_digit d < 0x80)%Z.
Proof. unfold hex_digit. destruct (Z.ltb_spec d 10); lia. Qed.

Lemma read_digits all ds tail min value count :
  Forall (λ d, 0 ≤ d < 16)%Z ds → (0 ≤ value)%Z →
  ((value + 1) * 16 ^ Z.of_nat (length ds) ≤ u32_max + 1)%Z →
  escape_char_loop (mkCursorChars all ((hex_digit <$> ds) ++ tail)) min 16 value count (length ds) =
    Ok (mkCursorChars all tail, Some (foldl (λ v d, v * 16 + d)%Z value ds)).
Proof.
  intros Hds. revert value count. induction Hds as [|d ds Hd _ IH]; intros value count Hv Hb; [done|].
  csimpl. unfold CursorChars_next. cbn [cc_all cc_rest]. rewrite to_digit_hex by done.
  cbn [length] in Hb. rewrite Nat2Z.inj_succ, Z.pow_succ_r in Hb by lia.
  pose proof (Z.pow_pos_nonneg 16 (Z.of_nat (length ds)) ltac:(lia) ltac:(lia)).
  unfold u32_mul_add. rewrite (proj2 (Z.leb_le _ _)) by nia. cbn [mbind result_bind].
  apply IH; [lia|nia].
Qed.

Lemma push_escaped_hex all w c tail res :
  1 ≤ w ≤ 8 → (c < 16 ^ Z.of_nat w)%Z → is_scalar c = true →
  push_escaped (mkCursorChars all (fmt_hex w c ++ tail)) res w w 16 =
    Ok (mkCursorChars all tail, res ++ [c], true).
Proof.
  intros Hw Hc Hs. assert (0 ≤ c)%Z by (apply is_scalar_spec in Hs; lia).
  unfold push_escaped, escape_char. rewrite fmt_hex_digits by lia.
  pose proof (read_digits all (digits_be w c) tail w 0 0) as Hr. rewrite length_digits in Hr.
  rewrite Hr; [|apply digits_range|done|].
  - cbn [mbind result_bind]. rewrite digits_value by lia. unfold char_from_u32. by rewrite Hs.
  - transitivity (16 ^ 8)%Z; [|done]. rewrite Z.mul_1_l. apply Z.pow_le_mono_r; lia.
Qed.

(** ** Literals *)

Lemma escape_push_escape all c tail res :
  is_scalar c = true → ∃ body, push_escape c [] = 0x5C%Z :: body ∧
    escape (mkCursorChars all (body ++ tail)) res = Ok (mkCursorChars all tail, res ++ [c], true).
Proof.
  intros Hs. unfold push_escape.
  destruct (Z.eqb_spec c 0x0A) as [->|]; [by eexists|].
  destruct (Z.eqb_spec c 0x0D) as [->|]; [by eexists|].
  destruct (Z.eqb_spec c 0x09) as [->|]; [by eexists|].
  destruct (Z.eqb_spec c 0x5C) as [->|]; [by eexists|].
  destruct (Z.eqb_spec c 0x22) as [->|]; [by eexists|].
  destruct (Z.ltb_spec c 0x100); [|destruct (Z.ltb_spec c 0x10000)];
    (eexists; split; [reflexivity|]); unfold escape, CursorChars_next; cbn [app cc_rest cc_all];
    simpl Z.eqb; cbn iota; apply push_escaped_hex; try done; try lia; simpl; try lia.
  apply is_scalar_spec in Hs. lia.
Qed.

Lemma push_escape_ascii c :
  is_scalar c = true → Forall (λ x, 0 ≤ x < 0x80)%Z (push_escape c []).
Proof.
  intros Hs. pose proof (proj1 (is_scalar_spec c) Hs) as Hr.
  assert (∀ w, 1 ≤ w ≤ 8 → (c < 16 ^ Z.of_nat w)%Z → Forall (λ x, 0 ≤ x < 0x80)%Z (fmt_hex w c)) as Hhex.
  { intros w Hw Hc. rewrite fmt_hex_digits by lia. apply Forall_fmap.
    eapply Forall_impl; [apply digits_range|]. intros d. apply hex_digit_ascii. }
  unfold push_escape. repeat case_match; simpl; repeat (constructor; [lia|]); try constructor;
    repeat match goal with H : (_ <? _)%Z = true |- _ => apply Z.ltb_lt in H end;
    apply Hhex; simpl; lia.
Qed.

Lemma ascii_bytes s : Forall (λ x, 0 ≤ x < 0x80)%Z s → bytes s = s.
Proof.
  induction 1 as [|c s Hc _ IH]; [done|]. by rewrite bytes_cons, encode_ascii, IH by lia.
Qed.

Section roundtrip.
Context {big f64 : Type} (is_alphanumeric : char → bool).
Let need_escape := need_escape is_alphanumeric.

(** The characters of the literal [repr] writes, between the quotes. *)
Definition literal_body (s : str) : str :=
  concat ((λ c, if need_escape c then push_escape c [] else [c]) <$> s).
Definition literal (s : str) : str := [0x22%Z] ++ literal_body s ++ [0x22%Z].

Lemma literal_body_bytes s : valid_str s → bytes (literal_body s) = escaped is_alphanumeric s.
Proof.
  induction 1 as [|c s Hc _ IH]; [done|]. unfold literal_body, escaped, escape_of in *. csimpl.
  rewrite bytes_app, IH. f_equal. fold need_escape.
  destruct (need_escape c); [by apply ascii_bytes, push_escape_ascii|]. unfold bytes. csimpl.
  by rewrite app_nil_r.
Qed.

Lemma not_escaped c :
  need_escape c = false → c ≠ 0x22%Z ∧ c ≠ 0x5C%Z ∧ c ≠ 0x0A%Z ∧ c ≠ 0x0D%Z.
Proof.
  subst need_escape. unfold StringRepr.need_escape.
  destruct (Z.ltb_spec c 0x20); [done|]. destruct (Z.eqb_spec c 0x22); [done|].
  destruct (Z.eqb_spec c 0x5C); [done|]. intros _. lia.
Qed.

Lemma slow_loop_literal all s tail qs res e fuel :
  valid_str s → length (literal_body s ++ 0x22%Z :: tail) < fuel →
  slow_loop false false (stop_of false 0x22) (mkCursorChars all (literal_body s ++ 0x22%Z :: tail)) qs res e fuel =
    Ok (SlowStop (mkCursorChars all tail) (res ++ s)).
Proof.
  intros Hv. revert res fuel. induction Hv as [|c s Hc _ IH]; intros res fuel Hf.
  { destruct fuel as [|fuel]; [simpl in Hf; lia|]. simpl. by rewrite app_nil_r. }
  unfold literal_body in Hf |- *. csimpl. csimpl in Hf. fold (literal_body s) in Hf |- *.
  rewrite <-app_assoc in Hf |- *.
  destruct fuel as [|fuel]; [lia|]. destruct (need_escape c) eqn:Hn.
  - destruct (escape_push_escape all c (literal_body s ++ 0x22%Z :: tail) res Hc)
      as (body & Hbody & Hesc). rewrite Hbody in Hf |- *. cbn [app slow_loop].
    unfold CursorChars_next at 1. cbn [cc_all cc_rest]. simpl stop_of. unfold stop_single at 1.
    simpl Z.eqb. cbn iota. cbn [andb]. rewrite Hesc. cbn [mbind result_bind].
    rewrite IH, <-app_assoc; [done|]. simpl in Hf. rewrite !length_app in *. simpl in *. lia.
  - apply not_escaped in Hn as (H22 & H5c & H0a & H0d). cbn [app slow_loop].
    unfold CursorChars_next at 1. cbn [cc_all cc_rest]. simpl stop_of. unfold stop_single at 1.
    rewrite (proj2 (Z.eqb_neq _ _) H22), (proj2 (Z.eqb_neq _ _) H5c), (proj2 (Z.eqb_neq _ _) H0a),
      (proj2 (Z.eqb_neq _ _) H0d). cbn [andb]. rewrite IH, <-app_assoc; [done|].
    simpl in Hf. lia.
Qed.

Lemma parse_literal (L : Lexer big f64) pre s rest :
  valid_str s → reading L (pre ++ [0x22%Z]) (literal_body s ++ 0x22%Z :: rest) →
  (s = [] → head rest ≠ Some 0x22%Z) →
  parse_double_quoted_string L false =
    Ok (inr (token_start (lexer L), (s, 0), token_end (lexer L) + str_len (literal_body s ++ [0x22%Z])),
        advanced L (str_len (literal_body s ++ [0x22%Z]))).
Proof.
  intros Hv Hl Hempty. pose proof (reading_remainder _ _ _ Hl) as Hrem.
  unfold parse_double_quoted_string. rewrite Hrem. cbn [mbind result_bind].
  assert (str_starts_with (literal_body s ++ 0x22%Z :: rest) [0x22; 0x22]%Z = false) as ->.
  { unfold str_starts_with. apply bool_decide_eq_false. destruct s as [|c s].
    - destruct rest as [|c rest]; [done|]. specialize (Hempty eq_refl). simpl in *. intros [= ->]. done.
    - unfold literal_body. csimpl. destruct (need_escape c) eqn:Hn.
      + apply Forall_cons in Hv as [Hc _].
        destruct (escape_push_escape [] c [] [] Hc) as (body & -> & _). simpl. done.
      + apply not_escaped in Hn as (Hn & _). simpl. intros [= ->]. done. }
  change (stop_single 0x22) with (stop_of false 0x22).
  rewrite (string_fast_path L _ _ false false 0x22) by (done || by left). unfold string_by_chars.
  rewrite Hrem. cbn [mbind result_bind]. unfold CursorChars_new_offset. cbn [str_from].
  assert (str_from (literal_body s ++ 0x22%Z :: rest) 0 = Ok (literal_body s ++ 0x22%Z :: rest)) as ->
    by by destruct (literal_body s ++ _).
  cbn [mbind result_bind cc_rest]. rewrite slow_loop_literal by (done || lia).
  cbn [mbind result_bind slow_result app].
  assert (CursorChars_pos (mkCursorChars (literal_body s ++ 0x22%Z :: rest) rest) =
    str_len (literal_body s ++ [0x22%Z])) as ->.
  { apply cursor_pos. unfold cursor_at. simpl. by rewrite <-app_assoc. }
  rewrite (bump_by_ok L (pre ++ [0x22%Z]) (literal_body s ++ [0x22%Z]) rest); [done| |apply Hl].
  rewrite (reading_source _ _ _ Hl). by rewrite <-(app_assoc (literal_body s)).
Qed.
End roundtrip.

(** * Properties *)

Section properties.
Context {big f64 : Type}.
Implicit Types L : Lexer big f64.

(** C15: reading a string literal. On a lexer whose current token is the opening quote,
    [string] returns: it reads part of what is left and stops after it, or reports an error
    and does not move. Its byte-wise fast path changes nothing: the result is that of
    reading the characters one by one, with the quote count that the fast path hands over
    and the quotes of a triple-quoted string cut off at the end. *)
Theorem string_reads L pre rem triple raw q :
  is_quote q → reading L pre rem → token_start (lexer L) < token_end (lexer L) →
  (triple = true → [q; q] `prefix_of` rem) →
  string L triple raw (stop_of triple q) = string_by_chars L triple raw (stop_of triple q) ∧
  returns (string L triple raw (stop_of triple q)) (λ r,
    match r with
    | (inl e, L') => L' = L
    | (inr (s, _, e), L') => ∃ read rest, rem = read ++ rest ∧ reading L' (pre ++ read) rest ∧
        s = token_start (lexer L) ∧ e = token_end (lexer L')
    end).
Proof.
  intros Hq Hl Hlt Htri. split; [by eapply string_fast_path|].
  eapply returns_mono; [by eapply string_total|]. intros [[e|[[s v] e]] L']; [done|].
  intros (read & rest & -> & -> & -> & ->). exists read, rest. destruct Hl as [Hs He Hst Hu Hc].
  rewrite app_assoc in Hs, Hu, Hc.
  split_and!; [done| |done|done]. split; simpl; [done| |lia|done|done].
  by rewrite He, str_len_app.
Qed.

(** C9: [repr] and the lexer are inverse. What [repr] writes for a string, at the place of
    a token in a source, is lexed as that string, up to the closing quote, whatever follows
    (a third quote after the empty string's two would start a triple-quoted string). *)
Theorem repr_roundtrip L (parse_big : str → Z → option big) (is_alphanumeric : char → bool) reserve simd (s pre rest : str) :
  valid_str s → (∀ b n, length b + n ≤ reserve b n) → (∀ N, simd = Some N → 0 < N) →
  (s = [] → head rest ≠ Some 0x22%Z) →
  let lit := literal is_alphanumeric s in
  string_repr is_alphanumeric reserve simd s [] = Ok (bytes lit) ∧
  (source (lexer L) = pre ++ lit ++ rest → codemap L = pre ++ lit ++ rest →
   (Z.of_nat (str_len (pre ++ lit ++ rest)) ≤ u32_max)%Z →
   token_start (lexer L) = str_len pre → token_end (lexer L) = str_len pre + 1 →
   ∃ L', handle_token parse_big L RawDoubleQuote =
      Ok (Some (inr (str_len pre, String_ s, str_len (pre ++ lit))), L') ∧
     token_end (lexer L') = str_len (pre ++ lit)).
Proof.
  intros Hv Hr HN Hempty. cbn zeta. split.
  - rewrite string_repr_escaped by done. f_equal. unfold literal.
    rewrite !bytes_app, literal_body_bytes by done. done.
  - unfold literal. intros Hs Hc Hu Hst He.
    assert (reading L (pre ++ [0x22%Z]) (literal_body is_alphanumeric s ++ 0x22%Z :: rest)) as Hl.
    { rewrite <-!app_assoc in Hs, Hc, Hu.
      split; rewrite <-?app_assoc; [done| |lia|done|done]. by rewrite He, str_len_snoc, len_ascii. }
    assert (str_len (pre ++ [0x22%Z] ++ literal_body is_alphanumeric s ++ [0x22%Z]) =
      str_len pre + 1 + str_len (literal_body is_alphanumeric s ++ [0x22%Z])) as ->.
    { rewrite str_len_app, (str_len_app [0x22%Z]), str_len_cons, str_len_nil, len_ascii by done. lia. }
    eexists. cbn [handle_token]. unfold string_token, span_len. rewrite He, Hst.
    replace (str_len pre + 1 - str_len pre) with 1 by lia. change (1 =? 2) with false.
    rewrite (parse_literal _ _ _ _ _ Hv Hl Hempty). cbn [mbind result_bind map_lexeme_t].
    rewrite He, Hst. split; [done|]. simpl. by rewrite He.
Qed.
End properties.

(** ** Witnesses *)

(** [x = "a\tb"], with the lexer at the opening quote. *)
Definition witness_source : str := [0x78; 0x20; 0x3D; 0x20; 0x22; 0x61; 0x5C; 0x74; 0x62; 0x22; 0x0A]%Z.
Definition witness_lexer : Lexer Z Z :=
  mkLexer witness_source [] [] 0 (mkLogos witness_source 4 5) false.

Lemma string_reads_witness :
  string witness_lexer false false (stop_of false 0x22) =
    string_by_chars witness_lexer false false (stop_of false 0x22).
Proof.
  apply (string_reads witness_lexer [0x78; 0x20; 0x3D; 0x20; 0x22]%Z
    [0x61; 0x5C; 0x74; 0x62; 0x22; 0x0A]%Z false false 0x22).
  - by left.
  - split; vm_compute; (done || lia).
  - vm_compute. lia.
  - done.
Defined.

Lemma repr_roundtrip_witness :
  ∃ L', handle_token (λ _ _, None) witness_lexer RawDoubleQuote =
    Ok (Some (inr (4, String_ [0x61; 0x09; 0x62]%Z, 10)), L').
Proof.
  destruct (repr_roundtrip witness_lexer (λ _ _, None) (λ c, false) (λ b n, length b + n) None
    [0x61; 0x09; 0x62]%Z [0x78; 0x20; 0x3D; 0x20]%Z [0x0A]%Z) as [_ HL].
  - repeat constructor.
  - done.
  - done.
  - done.
  - destruct HL as (L' & HL & _); [vm_compute; (done || lia)..|]. exists L'. exact HL.
Defined.
