(* ===== verification/LexIndent.v ===== *)
(** The stream of tokens: [Lexer::next] never panics and comes to an end, and its [Indent] and
    [Dedent] tokens are balanced. *)

From S2P Require Import Prelude Ints FastString CodeMap Utf8 Lexer LexString.

Section indent.
Context {big f64 : Type}.
Implicit Types L : Lexer big f64.

Lemma usize_sub_ok a b : b ≤ a → usize_sub a b = Ok (a - b).
Proof. intros Hle. unfold usize_sub. by rewrite (proj2 (Nat.leb_le _ _) Hle). Qed.

(** * Balance *)

Definition token_balance (t : Token big f64) : Z :=
  match t with Indent => 1 | Dedent => -1 | _ => 0 end.
Definition lexeme_balance (l : Lexeme big f64) : Z :=
  match l with inr (_, t, _) => token_balance t | inl _ => 0 end.
Definition balance (ls : list (Lexeme big f64)) : Z := foldr (λ l, Z.add (lexeme_balance l)) 0%Z ls.

Lemma balance_cons l ls : balance (l :: ls) = (lexeme_balance l + balance ls)%Z.
Proof. done. Qed.
Lemma balance_app a b : balance (a ++ b) = (balance a + balance b)%Z.
Proof. induction a as [|l a IH]; [done|]. cbn [app]. rewrite !balance_cons, IH. lia. Qed.
Lemma balance_dedents n s e : balance (replicate n (inr (s, Dedent, e))) = (- Z.of_nat n)%Z.
Proof. induction n as [|n IH]; [done|]. cbn [replicate]. rewrite balance_cons, IH. simpl. lia. Qed.

Definition is_comment (l : Lexeme big f64) : Prop :=
  match l with inr (_, Comment _, _) => True | _ => False end.
Lemma balance_comments ls : Forall is_comment ls → balance ls = 0%Z.
Proof.
  induction 1 as [|l ls Hl _ IH]; [done|]. rewrite balance_cons, IH.
  by destruct l as [|[[? []] ?]].
Qed.

(** * Comments *)

Lemma make_comment_spec L p a b start end_ :
  codemap L = p ++ (0x23%Z :: a) ++ b → start = str_len p → end_ = str_len (p ++ 0x23%Z :: a) →
  returns (make_comment L start end_) is_comment.
Proof.
  intros Hc -> ->. unfold make_comment. rewrite Hc.
  rewrite (str_slice_app p (0x23%Z :: a) b) by (done || by rewrite str_len_app).
  cbn [mbind result_bind].
  assert (str_starts_with (0x23%Z :: a) [0x23%Z] = true) as -> by by apply bool_decide_eq_true.
  cbn [negb].
  assert (str_from (0x23%Z :: a) 1 = Ok a) as ->.
  { apply (str_from_app [0x23%Z] a). }
  cbn [mbind result_bind]. unfold str_ends_with_char. case_bool_decide as Hlast; [|by apply returns_ret].
  apply last_Some in Hlast as [a' ->].
  rewrite (str_len_app p), str_len_cons, !str_len_snoc, !len_ascii by done. unfold usize_sub.
  rewrite !(proj2 (Nat.leb_le _ _)) by lia. cbn [mbind result_bind].
  replace (str_len a' + 1 - 1) with (str_len a') by lia. rewrite str_upto_app. by apply returns_ret.
Qed.

Lemma skip_wide bs rest :
  Forall (λ b, 0x80 ≤ b)%Z bs → skip_comment (bs ++ rest) = skip_comment rest.
Proof.
  induction 1 as [|b bs Hb _ IH]; [done|]. simpl. by rewrite (proj2 (Z.eqb_neq b 0x0A)) by lia.
Qed.

Lemma skip_comment_spec cs :
  (∃ a b, cs = a ++ 0x0A%Z :: b ∧ skip_comment (bytes cs) = (true, bytes b)) ∨
  skip_comment (bytes cs) = (false, []).
Proof.
  induction cs as [|c cs IH]; [by right|]. rewrite bytes_cons.
  destruct (decide (c = 0x0A%Z)) as [->|Hc]; [left; by exists [], cs|].
  assert (skip_comment (encode_utf8 c ++ bytes cs) = skip_comment (bytes cs)) as ->.
  { destruct (Z.ltb_spec c 0x80) as [Ha|Ha].
    - rewrite encode_ascii by done. simpl. by rewrite (proj2 (Z.eqb_neq _ _) Hc).
    - apply skip_wide, Forall_forall. intros b Hb. by eapply encode_wide. }
  destruct IH as [(a & b & -> & ->)|IH]; [left|by right]. by exists (c :: a), b.
Qed.

(** * Leading blanks *)

Definition with_comments L (cm : list (Lexeme big f64)) : Lexer big f64 :=
  set_buffer L (buffer L ++ cm).

Definition indent_post L (rem : str) (r : IndentLoop big f64) : Prop :=
  ∃ read rest cm, rem = read ++ rest ∧ Forall is_comment cm ∧ length cm ≤ str_len read ∧
    match r with
    | Returned L' => L' = with_comments (advanced L (str_len read)) cm
    | Broke L' it _ _ _ => L' = with_comments L cm ∧ CursorBytes_pos it = str_len read + 1
    end.

Lemma with_comments_nil L : with_comments L [] = L.
Proof. destruct L. unfold with_comments, set_buffer. simpl. by rewrite app_nil_r. Qed.
Lemma with_comments_app L a b : with_comments (with_comments L a) b = with_comments L (a ++ b).
Proof. unfold with_comments, set_buffer. simpl. by rewrite app_assoc. Qed.
Lemma with_comments_advanced L n cm :
  with_comments (advanced L n) cm = advanced (with_comments L cm) n.
Proof. done. Qed.

Lemma bump_reading L pre read rest cm :
  reading L pre (read ++ rest) →
  bump_by (with_comments L cm) (str_len read) = Ok (with_comments (advanced L (str_len read)) cm).
Proof. intros [Hs He _ _ _]. exact (bump_by_ok (with_comments L cm) pre read rest Hs He). Qed.

Lemma indent_loop_spec L pre rd cs cm spaces tabs indent_start fuel :
  reading L pre (rd ++ cs) → Forall is_comment cm → length cm ≤ str_len rd → str_len cs < fuel →
  returns (indent_loop (with_comments L cm) (mkCursorBytes (rd ++ cs) (bytes cs)) spaces tabs
             indent_start fuel)
    (indent_post L (rd ++ cs)).
Proof.
  intros Hl. revert rd cs cm spaces tabs indent_start Hl.
  induction fuel as [|fuel IH]; intros rd cs cm spaces tabs indent_start Hl Hcm Hn Hf; [lia|].
  cbn [indent_loop]. unfold CursorBytes_next_char, CursorBytes_next. cbn [cb_rest cb_all].
  destruct cs as [|c cs].
  { pose proof (cursor_bytes_pos rd []) as Hp. change (bytes []) with (@nil Z) in *. cbn iota.
    rewrite Hp, (bump_reading L pre rd []) by done. apply returns_ret. by exists rd, [], cm. }
  rewrite bytes_cons. destruct (Z.ltb_spec c 0x80) as [Ha|Ha].
  2: { destruct (encode_utf8 c) as [|b cont] eqn:Henc.
    { pose proof (len_utf8_pos c) as Hp. unfold len_utf8 in Hp. rewrite Henc in Hp. simpl in Hp. lia. }
    assert (0x80 ≤ b)%Z as Hb by (eapply encode_wide; [done|]; rewrite Henc; by left).
    cbn [app]. rewrite !(proj2 (Z.eqb_neq b _)) by lia. apply returns_ret.
    exists rd, (c :: cs), cm. split_and!; [done..|].
    unfold CursorBytes_pos. cbn [cb_all cb_rest]. rewrite str_len_app, length_app.
    unfold str_len at 2. rewrite bytes_cons, length_app, Henc. cbn [length]. lia. }
  rewrite encode_ascii by done. cbn [app].
  assert (rd ++ c :: cs = (rd ++ [c]) ++ cs) as Hsplit by by rewrite <-app_assoc.
  assert (str_len (rd ++ [c]) = str_len rd + 1) as Hrd by by rewrite str_len_snoc, len_ascii.
  rewrite str_len_cons, len_ascii in Hf by done.
  assert (CursorBytes_pos (mkCursorBytes (rd ++ c :: cs) (bytes cs)) = str_len rd + 1) as Hpos
    by by rewrite Hsplit, cursor_bytes_pos.
  assert (∀ cm' sp tb st, Forall is_comment cm' → length cm' ≤ str_len rd + 1 →
    returns (indent_loop (with_comments L cm') (mkCursorBytes (rd ++ c :: cs) (bytes cs)) sp tb st fuel)
      (indent_post L (rd ++ c :: cs))) as Hgo.
  { intros cm' sp tb st Hcm' Hn'. rewrite Hsplit. apply IH; [by rewrite <-Hsplit|done|lia|lia]. }
  destruct (Z.eqb_spec c 0x20); [apply Hgo; [done|lia]|].
  destruct (Z.eqb_spec c 0x09); [apply Hgo; [done|lia]|].
  destruct (Z.eqb_spec c 0x0A).
  { rewrite Hpos. unfold usize_sub. rewrite (proj2 (Nat.leb_le _ _)) by lia. cbn [mbind result_bind].
    replace (str_len rd + 1 - 1) with (str_len rd) by lia.
    rewrite (bump_reading L pre rd (c :: cs)) by done. apply returns_ret. by exists rd, (c :: cs), cm. }
  destruct (Z.eqb_spec c 0x0D); [apply Hgo; [done|lia]|].
  destruct (Z.eqb_spec c 0x23) as [->|].
  2: { apply returns_ret. by exists rd, (c :: cs), cm. }
  assert (token_end (lexer (with_comments L cm)) = str_len pre) as Hend by apply Hl.
  assert (codemap (with_comments L cm) = (pre ++ rd) ++ 0x23%Z :: cs) as Hcode
    by (rewrite <-app_assoc; apply (reading_codemap _ _ _ Hl)).
  rewrite Hpos, Hend, usize_sub_ok by lia. cbn [cb_all cb_rest].
  cbn [mbind result_bind]. replace (str_len pre + (str_len rd + 1) - 1) with (str_len (pre ++ rd))
    by (rewrite str_len_app; lia).
  destruct (skip_comment_spec cs) as [(a & b & -> & Hskip)|Hskip]; rewrite Hskip.
  - assert (rd ++ 0x23%Z :: a ++ 0x0A%Z :: b = (rd ++ (0x23%Z :: a) ++ [0x0A%Z]) ++ b) as Hsplit'
      by by rewrite <-!app_assoc.
    rewrite Hsplit', cursor_bytes_pos.
    rewrite (app_assoc rd), str_len_snoc, len_ascii by done. rewrite usize_sub_ok by lia.
    cbn [mbind result_bind].
    destruct (make_comment_spec (with_comments L cm) (pre ++ rd) a (0x0A%Z :: b)
      (str_len (pre ++ rd)) (str_len pre + (str_len (rd ++ 0x23%Z :: a) + 1) - 1)) as (l & Hmk & Hlc);
      [done|done| |].
    { rewrite <-app_assoc, !(str_len_app pre). lia. }
    rewrite Hmk. cbn [mbind result_bind].
    change (push_back (with_comments L cm) l) with (with_comments (with_comments L cm) [l]).
    rewrite with_comments_app. apply IH.
    + by rewrite <-(app_assoc rd), <-Hsplit'.
    + apply Forall_app. split; [done|]. by constructor.
    + rewrite length_app, !str_len_app, !str_len_cons, len_ascii by done. simpl. lia.
    + rewrite str_len_app, str_len_cons in Hf. lia.
  - set (all := rd ++ 0x23%Z :: cs) in *.
    assert (CursorBytes_pos (mkCursorBytes all []) = str_len all) as ->.
    { unfold CursorBytes_pos. simpl. lia. }
    destruct (make_comment_spec (with_comments L cm) (pre ++ rd) cs []
      (str_len (pre ++ rd)) (str_len pre + str_len all)) as (l & Hmk & Hlc).
    { by rewrite app_nil_r. }
    { done. }
    { unfold all. by rewrite <-(app_assoc pre), (str_len_app pre). }
    rewrite Hmk. cbn [mbind result_bind].
    change (push_back (with_comments L cm) l) with (with_comments (with_comments L cm) [l]).
    rewrite with_comments_app. rewrite (bump_reading L pre all []) by by rewrite app_nil_r.
    apply returns_ret. exists all, [], (cm ++ [l]). split_and!; [by rewrite app_nil_r| | |done].
    + apply Forall_app. split; [done|]. by constructor.
    + unfold all. rewrite length_app, str_len_app, str_len_cons, len_ascii by done. simpl. lia.
Qed.

(** * Indentation levels *)

(** Strictly increasing towards the top of the stack, and positive. *)
Definition levels_ok (levels : list nat) : Prop :=
  StronglySorted (λ a b, b < a) levels ∧ Forall (λ a, 0 < a) levels.

Lemma levels_suffix a b : levels_ok (a ++ b) → levels_ok b.
Proof.
  intros [Hs Hp]. apply Forall_app in Hp as [_ Hp]. split; [|done].
  induction a as [|x a IH]; [done|]. apply StronglySorted_inv in Hs as [Hs _]. by apply IH.
Qed.

Lemma levels_push indent levels :
  levels_ok levels → default 0 (head levels) < indent → levels_ok (indent :: levels).
Proof.
  intros [Hs Hp] Hlt. split; [|constructor; [lia|done]]. constructor; [done|].
  destruct levels as [|now levels]; [constructor|]. simpl in Hlt.
  apply StronglySorted_inv in Hs as [_ Hn]. constructor; [done|].
  eapply Forall_impl; [exact Hn|]. simpl. lia.
Qed.

Lemma pop_levels_spec levels indent d :
  let '(o, levels') := pop_levels levels indent d in
  levels' `suffix_of` levels ∧
  match o with
  | Some d' => d' + length levels' = d + length levels ∧ default 0 (head levels') = indent
  | None => True
  end.
Proof.
  revert d. induction levels as [|now levels IH]; intros d; cbn [pop_levels head].
  - destruct (Nat.eqb_spec (default 0 None) indent); [done|].
    destruct (indent <? _); by split.
  - simpl default. destruct (Nat.eqb_spec now indent); [done|].
    destruct (indent <? now); [|by split]. specialize (IH (d + 1)).
    destruct (pop_levels levels indent (d + 1)) as [o levels']. destruct IH as [Hs Ho].
    split; [by apply suffix_cons_r|]. destruct o; [|done]. simpl. destruct Ho. split; [lia|done].
Qed.

(** What cannot be owed by the tokens that are still to be returned. *)
Definition buffer_ok L : Prop :=
  ∀ b, b `suffix_of` buffer L → (balance b ≤ Z.of_nat (length (indent_levels L)))%Z.

Lemma balance_suffix_comments a b x :
  Forall is_comment a → b `suffix_of` a ++ x → (balance b ≤ Z.max 0 (balance x))%Z ∨ b `suffix_of` x.
Proof.
  intros Ha [p Hp]. revert a Ha Hp. induction p as [|l p IH]; intros a Ha Hp.
  - simpl in Hp. subst. left. rewrite balance_app, balance_comments by done. lia.
  - destruct a as [|l' a]; [right; by exists (l :: p)|].
    injection Hp as -> Hp. apply Forall_cons in Ha as [_ Ha]. by apply (IH a).
Qed.

Lemma dedents_suffix n s e b :
  b `suffix_of` replicate n (inr (s, Dedent, e) : Lexeme big f64) → (balance b ≤ 0)%Z.
Proof.
  intros [p Hp]. apply (f_equal (drop (length p))) in Hp.
  rewrite drop_app_length, drop_replicate in Hp. rewrite <-Hp, balance_dedents. lia.
Qed.

Definition indent_done L L' (n : nat) : Prop :=
  lexer L' = lexer (advanced L n) ∧ codemap L' = codemap L ∧ parens L' = parens L ∧
  done_ L' = done_ L ∧ levels_ok (indent_levels L').

Lemma calculate_indent_spec L pre rem :
  reading L pre rem → buffer L = [] → levels_ok (indent_levels L) →
  returns (calculate_indent L) (λ '(e, L'), ∃ read rest, rem = read ++ rest ∧
    indent_done L L' (str_len read) ∧ buffer_ok L' ∧
    length (buffer L') + length (indent_levels L') ≤
      length (indent_levels L) + str_len read + 2 ∧
    match e with
    | None => balance (buffer L') =
        (Z.of_nat (length (indent_levels L')) - Z.of_nat (length (indent_levels L)))%Z
    | Some _ => Forall is_comment (buffer L') ∧ indent_levels L' `suffix_of` indent_levels L
    end).
Proof.
  intros Hl Hb Hlev. unfold calculate_indent. rewrite (reading_remainder _ _ _ Hl).
  cbn [mbind result_bind]. rewrite <-(with_comments_nil L) at 1.
  destruct (indent_loop_spec L pre [] rem [] 0 0 (token_end (lexer L)) (S (str_len rem)) Hl)
    as (r & Hr & read & rest & cm & Hrem & Hcm & Hn & Hpost); [constructor|simpl; lia|lia|].
  cbn [app] in Hr, Hrem. unfold CursorBytes_new. rewrite Hr. cbn [mbind result_bind]. clear Hr.
  assert (∀ b, b `suffix_of` cm → (balance b ≤ 0)%Z) as Hcmb.
  { intros b Hbs. rewrite <-(app_nil_r cm) in Hbs.
    destruct (balance_suffix_comments _ _ _ Hcm Hbs) as [Hle|Hnil]; [exact Hle|].
    by apply suffix_nil_inv in Hnil as ->. }
  destruct r as [L'|L' it spaces tabs st].
  { subst L'. apply returns_ret. exists read, rest.
    split_and!; [done|done|..].
    - intros b Hbs. simpl in Hbs |- *. rewrite Hb in Hbs. specialize (Hcmb b Hbs). lia.
    - simpl. rewrite Hb. simpl. lia.
    - simpl. rewrite Hb. simpl. rewrite balance_comments by done. lia. }
  destruct Hpost as [-> Hpos]. rewrite Hpos, usize_sub_ok by lia. cbn [mbind result_bind].
  replace (str_len read + 1 - 1) with (str_len read) by lia.
  rewrite Hrem in Hl. rewrite (bump_reading L pre read rest) by done. cbn [mbind result_bind].
  set (L1 := with_comments (advanced L (str_len read)) cm).
  assert (buffer L1 = cm) as Hb1 by (unfold L1; simpl; by rewrite Hb).
  assert (token_start (lexer L1) = token_start (lexer L)) as Hts by done.
  assert (token_end (lexer L1) = token_end (lexer L) + str_len read) as Hte by done.
  change (indent_levels L1) with (indent_levels L).
  pose proof Hl as [Hs He Hst Hu _]. rewrite !str_len_app in Hu.
  destruct (Nat.ltb_spec 0 tabs).
  { rewrite Hts. unfold err_pos. rewrite err_span_ok by lia. apply returns_ret.
    exists read, rest. split_and!; [done|done|..].
    - intros b Hbs. rewrite Hb1 in Hbs. specialize (Hcmb b Hbs). lia.
    - rewrite Hb1. simpl. lia.
    - by rewrite Hb1.
    - done. }
  set (indent := spaces + tabs * 8). destruct (Nat.ltb_spec (default 0 (head (indent_levels L))) indent).
  { apply returns_ret. exists read, rest. split_and!; [done| |..].
    - split_and!; [done..|]. simpl. by apply levels_push.
    - intros b Hbs. simpl in Hbs |- *. rewrite Hb in Hbs. simpl in Hbs.
      destruct (balance_suffix_comments _ _ _ Hcm Hbs) as [Hle|[p Hp]].
      + simpl in Hle. lia.
      + destruct p as [|? [|]]; simplify_eq/=; lia.
    - simpl. rewrite Hb. simpl. rewrite length_app. simpl. lia.
    - simpl. rewrite Hb. simpl. rewrite balance_app, balance_comments by done. simpl. lia. }
  destruct (Nat.ltb_spec indent (default 0 (head (indent_levels L)))) as [Hlt|].
  2: { apply returns_ret. exists read, rest. split_and!; [done|done|..].
    - intros b Hbs. rewrite Hb1 in Hbs. specialize (Hcmb b Hbs). lia.
    - rewrite Hb1. simpl. lia.
    - rewrite Hb1, balance_comments by done. simpl. lia. }
  destruct (indent_levels L) as [|now levels] eqn:Hlv; [simpl in Hlt; lia|].
  pose proof (pop_levels_spec levels indent 1) as Hpop.
  destruct (pop_levels levels indent 1) as [o levels']. destruct Hpop as [[popped Hpopped] Ho].
  assert (levels_ok levels') as Hlev'.
  { apply (levels_suffix (now :: popped)). by rewrite Hpopped in Hlev. }
  assert (length levels' ≤ length levels) as Hlen by (rewrite Hpopped, length_app; lia).
  destruct o as [d|].
  - destruct Ho as [Hd _]. apply returns_ret. exists read, rest. split_and!; [done| |..].
    + split_and!; try done.
    + intros b Hbs. simpl in Hbs |- *. rewrite Hb in Hbs. simpl in Hbs.
      destruct (balance_suffix_comments _ _ _ Hcm Hbs) as [Hle|Hbs'].
      * rewrite balance_dedents in Hle. lia.
      * apply dedents_suffix in Hbs'. lia.
    + simpl. rewrite Hb. simpl. rewrite length_app, length_replicate. simpl in Hd. lia.
    + simpl. rewrite Hb. simpl. rewrite balance_app, balance_comments, balance_dedents by done.
      simpl in Hd. lia.
  - change (token_start (lexer (set_levels L1 levels'))) with (token_start (lexer L)).
    change (token_end (lexer (set_levels L1 levels'))) with (token_end (lexer L) + str_len read).
    rewrite err_span_ok by lia. apply returns_ret. exists read, rest. split_and!; [done| |..].
    + split_and!; try done.
    + intros b Hbs. simpl in Hbs |- *. rewrite Hb in Hbs. specialize (Hcmb b Hbs). lia.
    + simpl. rewrite Hb. simpl. lia.
    + simpl. by rewrite Hb.
    + exists (now :: popped). by rewrite Hpopped.
Qed.

(** * The scanner *)

(** What the patterns of the tokens say of the text of a token that the rest of the lexer
    relies on; variants without a pattern are not produced. *)
Definition is_dec_digit (c : char) : bool := ((0x30 <=? c) && (c <=? 0x39))%Z.
Definition token_matches (t : Token big f64) (tok : str) : Prop :=
  match t with
  | Indent | Dedent | Int_ _ | String_ _ | FString _ => False
  | RawDecInt => Forall (λ c, is_dec_digit c = true) tok
  | RawHexInt => ∃ c ds, tok = 0x30%Z :: c :: ds ∧ (c = 0x78 ∨ c = 0x58)%Z
  | RawBinInt => ∃ c ds, tok = 0x30%Z :: c :: ds ∧ (c = 0x62 ∨ c = 0x42)%Z
  | RawOctInt => ∃ c ds, tok = 0x30%Z :: c :: ds ∧ (c = 0x6F ∨ c = 0x4F)%Z
  | _ => True
  end.

(** The scanner skips some text and matches a non-empty token, or reaches the end. *)
Definition scanner_ok (logos_next : str → nat → option (Token big f64) * (nat * nat)) : Prop :=
  ∀ pre rem, ∃ skip tok rest, rem = skip ++ tok ++ rest ∧
    let '(o, (s, e)) := logos_next (pre ++ rem) (str_len pre) in
    s = str_len (pre ++ skip) ∧ e = str_len ((pre ++ skip) ++ tok) ∧
    match o with
    | None => tok = [] ∧ rest = []
    | Some t => tok ≠ [] ∧ token_matches t tok
    end.

(** The current token is [tok]. *)
Definition scanned L (p tok rest : str) : Prop :=
  reading L (p ++ tok) rest ∧ token_start (lexer L) = str_len p.

Lemma scanned_slice L p tok rest : scanned L p tok rest → slice (lexer L) = Ok tok.
Proof.
  intros [[Hs He _ _ _] Hst]. unfold slice. rewrite Hs, He, Hst, <-app_assoc.
  apply str_slice_app; [done|apply str_len_app].
Qed.

Lemma err_now_ok L p tok rest msg :
  scanned L p tok rest → returns (err_now L msg) (λ _, True).
Proof.
  intros Hsc. unfold err_now. rewrite (scanned_slice _ _ _ _ Hsc). cbn [mbind result_bind].
  destruct Hsc as [[Hs He Hst Hu _] _]. rewrite str_len_app in Hu.
  rewrite err_span_ok by lia. by apply returns_ret.
Qed.

Lemma str_len_pos s : s ≠ [] → 0 < str_len s.
Proof. destruct s as [|c s]; [done|]. rewrite str_len_cons. pose proof (len_utf8_pos c). lia. Qed.

Section next.
Context (parse_big : str → Z → option big).

Lemma int_ok L p tok rest s radix :
  scanned L p tok rest → returns (int parse_big L s radix) (λ l, lexeme_balance l = 0%Z).
Proof.
  intros Hsc. unfold int. destruct (from_str_radix parse_big s radix); [|by apply returns_ret].
  step_with err_now_ok; [done|]. intros e _. by apply returns_ret.
Qed.

Lemma prefix_assert lower upper c ds :
  (c = lower ∨ c = upper) →
  str_starts_with (0x30%Z :: c :: ds) [0x30%Z; lower] ||
  str_starts_with (0x30%Z :: c :: ds) [0x30%Z; upper] = true.
Proof.
  intros Hc. apply orb_true_iff. unfold str_starts_with. rewrite !bool_decide_eq_true. simpl.
  destruct Hc as [->| ->]; [by left|by right].
Qed.

Lemma prefix_rest c ds : (c < 0x80)%Z → str_from (0x30%Z :: c :: ds) 2 = Ok ds.
Proof.
  intros Ha. pose proof (str_from_app [0x30%Z; c] ds) as Hf.
  by rewrite !str_len_cons, str_len_nil, !len_ascii in Hf by done.
Qed.

Lemma prefixed_int_ok L p tok rest lower upper radix c ds :
  scanned L p tok rest → tok = 0x30%Z :: c :: ds → (c = lower ∨ c = upper) → (c < 0x80)%Z →
  returns (prefixed_int parse_big L lower upper radix) (λ l, lexeme_balance l = 0%Z).
Proof.
  intros Hsc -> Hc Ha. unfold prefixed_int. rewrite (scanned_slice _ _ _ _ Hsc). cbn [mbind result_bind].
  rewrite prefix_assert by done. cbn [assert mbind result_bind].
  rewrite prefix_rest by done. cbn [mbind result_bind]. by eapply int_ok.
Qed.

Lemma dec_int_ok L p tok rest :
  scanned L p tok rest → Forall (λ c, is_dec_digit c = true) tok →
  returns (dec_int parse_big L) (λ l, lexeme_balance l = 0%Z).
Proof.
  intros Hsc Hd. unfold dec_int. rewrite (scanned_slice _ _ _ _ Hsc). cbn [mbind result_bind].
  assert (∃ b, (if 1 <? str_len tok then p ← str_upto tok 1; Ok (bool_decide (p = [0x30%Z])) else Ok false) =
    (Ok b : comp bool)) as [b ->].
  { destruct (1 <? str_len tok) eqn:Hlt; [|eauto]. destruct tok as [|c tok]; [done|].
    apply Forall_cons in Hd as [Hc _]. unfold is_dec_digit in Hc.
    apply andb_true_iff in Hc as [_ Hc%Z.leb_le].
    pose proof (str_upto_app [c] tok) as Hu. rewrite str_len_cons, str_len_nil, len_ascii in Hu by lia.
    change (str_upto (c :: tok) 1 = Ok [c]) in Hu. rewrite Hu. simpl. eauto. }
  cbn [mbind result_bind]. destruct b; [|by eapply int_ok].
  step_with err_now_ok; [done|]. intros e _. by apply returns_ret.
Qed.

(** What handling a token leaves alone. *)
Definition token_post L (rest : str) (r : option (Lexeme big f64) * Lexer big f64) : Prop :=
  ∃ l read rest', r.1 = Some l ∧ lexeme_balance l = 0%Z ∧ rest = read ++ rest' ∧
    lexer r.2 = lexer (advanced L (str_len read)) ∧ codemap r.2 = codemap L ∧
    indent_levels r.2 = indent_levels L ∧ buffer r.2 = buffer L ∧ done_ r.2 = done_ L.

Lemma token_post_same L rest l L' :
  lexeme_balance l = 0%Z → lexer L' = lexer L → codemap L' = codemap L →
  indent_levels L' = indent_levels L → buffer L' = buffer L → done_ L' = done_ L →
  token_post L rest (Some l, L').
Proof.
  intros Hl Hlex Hc Hi Hb Hd. exists l, [], rest. split_and!; try done. simpl. rewrite Hlex.
  destruct (lexer L). unfold advanced. simpl. by rewrite Nat.add_0_r.
Qed.

Lemma string_token_ok parse L p tok rest raw f q :
  is_quote q → scanned L p tok rest → tok ≠ [] → (∀ x, token_balance (f x) = 0%Z) →
  parse L raw = (rem ← remainder (lexer L);
    if str_starts_with rem [q; q] then string L true raw (stop_of true q)
    else string L false raw (stop_of false q)) →
  returns (string_token parse L raw f) (token_post L rest).
Proof.
  intros Hq [Hl Hst] Hne Hf Hparse. unfold string_token. rewrite Hparse.
  rewrite (reading_remainder _ _ _ Hl). cbn [mbind result_bind].
  assert (token_start (lexer L) < token_end (lexer L)) as Hlt.
  { destruct Hl as [_ -> _ _ _]. rewrite Hst, str_len_app. pose proof (str_len_pos tok Hne). lia. }
  assert (∀ triple, (triple = true → [q; q] `prefix_of` rest) →
    returns ('(lex, L) ← string L triple raw (stop_of triple q);
      Ok (Some (map_lexeme_t lex f), L)) (token_post L rest)) as Hgo.
  { intros triple Htri. step_with string_total; [done|done|done|done|].
    intros [[e|[[s v] e]] L'] Hpost; apply returns_ret.
    - simpl in Hpost. subst. by apply token_post_same.
    - destruct Hpost as (read & rest' & -> & -> & _ & _).
      exists (map_lexeme_t (inr (s, v, e)) f), read, rest'. simpl. by split_and!. }
  unfold str_starts_with. case_bool_decide as Hs; apply Hgo; [|done].
  intros _. exists (drop 2 rest). by rewrite <-Hs, take_drop.
Qed.

Lemma handle_token_ok L p tok rest t :
  scanned L p tok rest → tok ≠ [] → token_matches t tok →
  returns (handle_token parse_big L t) (token_post L rest).
Proof.
  intros Hsc Hne Hm.
  assert (∀ msg, returns (e ← err_now L msg; Ok (Some (inl e : Lexeme big f64), L)) (token_post L rest)) as Herr.
  { intros msg. step_with err_now_ok; [done|]. intros e _. apply returns_ret. by apply token_post_same. }
  assert (∀ m, returns m (λ l, lexeme_balance l = 0%Z) →
    returns (l ← m; Ok (Some l, L) : comp _) (token_post L rest)) as Hint.
  { intros m Hret. apply returns_bind. eapply returns_mono; [exact Hret|]. intros l Hl. apply returns_ret.
    by apply token_post_same. }
  destruct t; simpl in Hm; try done; simpl;
    try (by apply Herr); try (by apply returns_ret, token_post_same).
  - eapply string_token_ok; [right; reflexivity|done|done|done|reflexivity].
  - eapply string_token_ok; [left; reflexivity|done|done|done|reflexivity].
  - eapply string_token_ok; [right; reflexivity|done|done|done|reflexivity].
  - eapply string_token_ok; [left; reflexivity|done|done|done|reflexivity].
  - apply Hint. by eapply dec_int_ok.
  - destruct Hm as (c & ds & -> & Hc). apply Hint. eapply prefixed_int_ok; [done|done|done|lia].
  - destruct Hm as (c & ds & -> & Hc). apply Hint. eapply prefixed_int_ok; [done|done|done|lia].
  - destruct Hm as (c & ds & -> & Hc). apply Hint. eapply prefixed_int_ok; [done|done|done|lia].
Qed.

(** * [next] *)

Context (logos_next : str → nat → option (Token big f64) * (nat * nat)).
Hypothesis logos_ok : scanner_ok logos_next.

(** A lexer between two calls of [next]. *)
Record lexer_ok L (pre rem : str) : Prop := {
  ok_reading : reading L pre rem;
  ok_levels : levels_ok (indent_levels L);
  ok_buffer : buffer_ok L;
  ok_done : done_ L = true → indent_levels L = [];
}.

(** How many more tokens there can be, and what they owe. *)
Definition weight L (rem : str) : nat :=
  length (buffer L) + 4 * str_len rem + (if done_ L then 0 else 1) + length (indent_levels L).
Definition owed L : Z := (Z.of_nat (length (indent_levels L)) - balance (buffer L))%Z.

Definition next_post L rem (r : option (Lexeme big f64) * Lexer big f64) : Prop :=
  match r with
  | (None, L') => L' = L ∧ done_ L = true ∧ buffer L = []
  | (Some l, L') => ∃ pre' rem', lexer_ok L' pre' rem' ∧ weight L' rem' < weight L rem ∧
      (∀ x, l = inr x → owed L' = (owed L + lexeme_balance l)%Z)
  end.

Lemma next_post_mono L rem L1 rem1 r :
  weight L1 rem1 ≤ weight L rem → owed L1 = owed L → done_ L1 = false →
  next_post L1 rem1 r → next_post L rem r.
Proof.
  intros Hw Ho Hd. destruct r as [[l|] L']; simpl.
  - intros (pre' & rem' & Hok & Hlt & Hx). exists pre', rem'. split_and!; [done|lia|].
    by rewrite <-Ho.
  - intros (_ & Hd' & _). congruence.
Qed.

Lemma advanced_reading L pre read rest L' :
  reading L pre (read ++ rest) → lexer L' = lexer (advanced L (str_len read)) →
  codemap L' = codemap L → reading L' (pre ++ read) rest.
Proof.
  intros [Hs He Hst Hu Hc] Hlex Hcode. split; rewrite ?Hlex, ?Hcode, <-?app_assoc; simpl;
    [done|rewrite He; by rewrite str_len_app|lia|by rewrite app_assoc in Hu; rewrite <-app_assoc in Hu|done].
Qed.

(** One step of the scanner. *)
Lemma next_raw_ok L pre rem :
  reading L pre rem → ∃ skip tok rest o L', next_raw logos_next L = (o, L') ∧
    rem = skip ++ tok ++ rest ∧ scanned L' (pre ++ skip) tok rest ∧
    codemap L' = codemap L ∧ indent_levels L' = indent_levels L ∧ buffer L' = buffer L ∧
    done_ L' = done_ L ∧ parens L' = parens L ∧
    match o with None => rest = [] | Some t => tok ≠ [] ∧ token_matches t tok end.
Proof.
  intros [Hs He Hst Hu Hc]. destruct (logos_ok pre rem) as (skip & tok & rest & Hrem & Hn).
  unfold next_raw. rewrite Hs, He. destruct (logos_next (pre ++ rem) (str_len pre)) as [o [s e]].
  destruct Hn as (-> & -> & Ho). exists skip, tok, rest, o. eexists.
  split; [reflexivity|]. split; [done|].
  assert (pre ++ rem = ((pre ++ skip) ++ tok) ++ rest) as Heq by by rewrite Hrem, !app_assoc.
  split; [|split_and!; try done; destruct o; [done|by destruct Ho]].
  split; [|done]. split; simpl; rewrite <-?Heq; [done|done| |done|done].
  rewrite (str_len_app (pre ++ skip)). lia.
Qed.

Lemma buffer_ok_nil L : buffer L = [] → buffer_ok L.
Proof. intros Hb b. rewrite Hb. intros ->%suffix_nil_inv. simpl. lia. Qed.

Lemma next_loop_ok L pre rem fuel :
  lexer_ok L pre rem → str_len rem + (if decide (buffer L = []) then 2 else 1) ≤ fuel →
  returns (next_loop parse_big logos_next L fuel) (next_post L rem).
Proof.
  revert L pre rem. induction fuel as [|fuel IH]; intros L pre rem [Hl Hlev Hbuf Hdone] Hf.
  { destruct (decide _); lia. }
  cbn [next_loop]. destruct (buffer L) as [|x b] eqn:Hb.
  2: { apply returns_ret. exists pre, rem. split_and!.
    - split; [by destruct Hl; split|done| |exact Hdone]. intros b' Hb'. apply Hbuf. rewrite Hb.
      simpl in Hb'. by apply suffix_cons_r.
    - unfold weight. simpl. rewrite Hb. simpl. lia.
    - intros _ _. unfold owed. simpl. rewrite Hb, balance_cons. lia. }
  rewrite decide_True in Hf by done. destruct (done_ L) eqn:Hd; [by apply returns_ret|].
  destruct (next_raw_ok L pre rem Hl) as (skip & tok & rest & o & L1 & Hraw & Hrem & Hsc & Hc & Hi & Hb1 & Hd1 & Hp & Ho).
  rewrite Hraw. rewrite Hb in Hb1. rewrite Hd in Hd1.
  assert (str_len rem = str_len skip + (str_len tok + str_len rest)) as Hlen
    by by rewrite Hrem, !str_len_app.
  pose proof Hsc as [Hl1 Hts]. destruct o as [t|].
  2: { subst rest. apply returns_ret. exists ((pre ++ skip) ++ tok), []. split_and!.
    - split; [by destruct Hl1; split|split; constructor| |done].
      intros b Hbs. simpl in Hbs. apply dedents_suffix in Hbs. simpl. lia.
    - unfold weight. simpl. rewrite length_replicate, Hb, Hd, Hi. simpl. lia.
    - intros _ _. unfold owed. simpl. rewrite balance_dedents, Hb, Hi. simpl. lia. }
  destruct Ho as [Hne Hm]. pose proof (str_len_pos tok Hne) as Htok.
  assert (∀ L2, codemap L2 = codemap L → lexer L2 = lexer L1 → indent_levels L2 = indent_levels L →
    done_ L2 = false → length (buffer L2) ≤ 1 → balance (buffer L2) = 0%Z →
    (∀ b, b `suffix_of` buffer L2 → (balance b ≤ 0)%Z) →
    str_len rest + (if decide (buffer L2 = []) then 2 else 1) ≤ fuel →
    returns (next_loop parse_big logos_next L2 fuel) (next_post L rem)) as Hloop.
  { intros L2 Hc2 Hl2 Hi2 Hd2 Hn2 Hb2 Hs2 Hf2.
    eapply returns_mono; [apply (IH L2 ((pre ++ skip) ++ tok) rest); [|exact Hf2]|].
    - split; [destruct Hl1; split; rewrite ?Hl2, ?Hc2, <-?Hc; done|by rewrite Hi2| |by rewrite Hd2].
      intros b Hbs. specialize (Hs2 b Hbs). lia.
    - intros r. apply next_post_mono; [|unfold owed; rewrite Hi2, Hb2, Hb; simpl; lia|done].
      unfold weight. rewrite Hd2, Hi2, Hb, Hd. simpl. lia. }
  assert (∀ t', handle_token parse_big L1 t' = handle_token parse_big L1 t → 
    returns (handle_token parse_big L1 t') (next_post L rem)) as Hother.
  { intros t' ->. eapply returns_mono; [by eapply handle_token_ok|].
    intros [l L2] (l' & read & rest' & Hl' & Hbal & -> & Hl2 & Hc2 & Hi2 & Hb2 & Hd2). simpl in *.
    subst l. exists (((pre ++ skip) ++ tok) ++ read), rest'. split_and!.
    - split; [by eapply advanced_reading|by rewrite Hi2, Hi| |by rewrite Hd2, Hd1].
      apply buffer_ok_nil. by rewrite Hb2.
    - unfold weight. rewrite Hb2, Hb1, Hd2, Hd1, Hi2, Hi, Hb, Hd.
      rewrite str_len_app in Hlen. simpl. lia.
    - intros _ _. unfold owed. rewrite Hbal, Hi2, Hi, Hb2, Hb1, Hb. lia. }
  destruct t; try (by apply Hother).
  - (* tabs *)
    unfold err_pos. rewrite err_span_ok; [|done|destruct Hl1 as [_ He Hst Hu _]; rewrite str_len_app in Hu; lia].
    cbn [mbind result_bind]. apply Hloop; simpl; try (by rewrite ?Hb1); [|].
    + rewrite Hb1. intros b [p Hbp]. destruct p as [|? [|]]; simplify_eq/=; lia.
    + rewrite Hb1. simpl. lia.
  - (* newline *)
    destruct (parens L1 =? 0)%Z.
    2: { apply Hloop; try done; rewrite ?Hb1; simpl; try lia. by intros b ->%suffix_nil_inv. }
    destruct (calculate_indent_spec L1 ((pre ++ skip) ++ tok) rest Hl1 Hb1) as ([e L2] & Hcalc & read & rest' & Hrest &
      (Hl2 & Hc2 & _ & Hd2 & Hlev2) & Hbuf2 & Hlen2 & Hbal); [by rewrite Hi|].
    rewrite Hcalc. cbn [mbind result_bind].
    assert (lexer_ok L2 (((pre ++ skip) ++ tok) ++ read) rest') as Hok.
    { split; [|done|done|by rewrite Hd2, Hd1]. eapply advanced_reading; [by rewrite <-Hrest|done|done]. }
    assert (weight L2 rest' < weight L rem) as Hw.
    { unfold weight. rewrite Hd2, Hd1, Hb, Hd. apply (f_equal str_len) in Hrest.
      rewrite str_len_app in Hrest. rewrite Hi in Hlen2. simpl. lia. }
    destruct e as [e|]; apply returns_ret; exists (((pre ++ skip) ++ tok) ++ read), rest';
      (split_and!; [done|done|]).
    + by intros x [=].
    + intros _ _. unfold owed. rewrite Hbal, Hi, Hb. simpl. lia.
Qed.

Lemma next_ok L pre rem :
  lexer_ok L pre rem → returns (next parse_big logos_next L) (next_post L rem).
Proof.
  intros Hok. unfold next. eapply next_loop_ok; [exact Hok|].
  rewrite (reading_source _ _ _ (ok_reading _ _ _ Hok)), str_len_app. destruct (decide _); lia.
Qed.

(** * The whole stream *)

(** The iterator, run to the end. *)
Fixpoint lex_all L (fuel : nat) : comp (list (Lexeme big f64)) :=
  match fuel with
  | 0 => UB
  | S fuel =>
    '(o, L) ← next parse_big logos_next L;
    match o with
    | None => Ok []
    | Some l => ls ← lex_all L fuel; Ok (l :: ls)
    end
  end.

(** No error up to some point. *)
Definition no_error (ls : list (Lexeme big f64)) : Prop := Forall (λ l, ∃ x, l = inr x) ls.

Lemma lex_all_ok L pre rem fuel :
  lexer_ok L pre rem → weight L rem < fuel →
  returns (lex_all L fuel) (λ ls,
    (∀ p, p `prefix_of` ls → no_error p → (0 ≤ owed L + balance p)%Z) ∧
    (no_error ls → (owed L + balance ls = 0)%Z)).
Proof.
  revert L pre rem. induction fuel as [|fuel IH]; intros L pre rem Hok Hw; [lia|].
  assert (0 ≤ owed L)%Z as Howed.
  { unfold owed. pose proof (ok_buffer _ _ _ Hok (buffer L) ltac:(done)). lia. }
  cbn [lex_all]. destruct (next_ok L pre rem Hok) as ([[l|] L'] & Hn & Hpost); rewrite Hn;
    cbn [mbind result_bind].
  - destruct Hpost as (pre' & rem' & Hok' & Hlt & Hx).
    destruct (IH L' pre' rem' Hok') as (ls & Hls & Hp & He); [lia|]. rewrite Hls. apply returns_ret.
    split.
    + intros p Hpre Hne. destruct p as [|l' p]; [simpl; lia|].
      apply prefix_cons_inv_1 in Hpre as Hll. subst l'. apply prefix_cons_inv_2 in Hpre.
      apply Forall_cons in Hne as [[x ->] Hne]. specialize (Hp p Hpre Hne).
      rewrite (Hx x eq_refl) in Hp. rewrite balance_cons. lia.
    + intros Hne. apply Forall_cons in Hne as [[x ->] Hne]. specialize (He Hne).
      rewrite (Hx x eq_refl) in He. rewrite balance_cons. lia.
  - destruct Hpost as (-> & Hd & Hb). apply returns_ret. split.
    + intros p Hp%prefix_nil_inv _. subst p. simpl. lia.
    + intros _. unfold owed. rewrite Hb, (ok_done _ _ _ Hok Hd). done.
Qed.

Lemma Lexer_new_ok input :
  (Z.of_nat (str_len input) ≤ u32_max)%Z →
  returns (Lexer_new input input) (λ L, ∃ pre rem, lexer_ok L pre rem ∧
    input = pre ++ rem ∧ weight L rem ≤ 4 * str_len input + 4 ∧ owed L = 0%Z).
Proof.
  intros Hu. set (L := mkLexer input [] [] 0 (mkLogos input 0 0) false : Lexer big f64).
  assert (reading L [] input) as Hl by by split.
  unfold Lexer_new. fold L.
  destruct (calculate_indent_spec L [] input Hl eq_refl) as ([e L'] & Hcalc & read & rest & Hrem &
    (Hl2 & Hc2 & _ & Hd2 & Hlev2) & Hbuf2 & Hlen2 & Hbal); [split; constructor|].
  rewrite Hcalc. cbn [mbind result_bind]. apply returns_ret.
  assert (reading L' read rest) as Hr.
  { eapply (advanced_reading L []); [by rewrite <-Hrem|done|done]. }
  pose proof (f_equal str_len Hrem) as Hlen. rewrite str_len_app in Hlen.
  exists read, rest. destruct e as [e|].
  - destruct Hbal as [Hcm Hsuf]. apply suffix_nil_inv in Hsuf.
    assert (buffer (push_back L' (inl e)) = buffer L' ++ [inl e]) as Hbuf by done. split_and!.
    + split; [by destruct Hr; split|done| |intros _; exact Hsuf]. intros b Hb. rewrite Hbuf in Hb.
      destruct (balance_suffix_comments _ _ _ Hcm Hb) as [Hle|[p Hp]]; [simpl in Hle; lia|].
      destruct p as [|? [|]]; simplify_eq/=; lia.
    + done.
    + unfold weight. rewrite Hbuf, length_app. simpl. rewrite Hsuf in *. simpl in *. destruct (done_ L'); lia.
    + unfold owed. rewrite Hbuf, balance_app, balance_comments by done. simpl. by rewrite Hsuf.
  - split_and!.
    + split; [done|done|done|by rewrite Hd2].
    + done.
    + unfold weight. simpl in *. destruct (done_ L'); lia.
    + unfold owed. rewrite Hbal. simpl. lia.
Qed.
End next.
End indent.

(** * Properties *)

(** C8: lexing ends, without panics, with balanced indentation. For every source of fewer than
    [2^32] bytes and every scanner that keeps to its patterns, the lexer can be created and
    its iterator yields finitely many lexemes (no slice falls inside a character, no
    subtraction underflows, no internal assertion fails). Up to the first error, no block is
    closed that was not opened; without errors, every block is closed. *)
Theorem lexer_indentation {big f64 : Type} (parse_big : str → Z → option big)
    (logos_next : str → nat → option (Token big f64) * (nat * nat)) (input : str) :
  scanner_ok logos_next → (Z.of_nat (str_len input) ≤ u32_max)%Z →
  returns (L ← Lexer_new input input; lex_all parse_big logos_next L (4 * str_len input + 5))
    (λ ls, (∀ p, p `prefix_of` ls → no_error p → (0 ≤ balance p)%Z) ∧
           (no_error ls → balance ls = 0%Z)).
Proof.
  intros Hs Hu. step_with Lexer_new_ok; [done|].
  intros L (pre & rem & Hok & _ & Hw & Ho).
  eapply returns_mono; [eapply lex_all_ok; [done|exact Hok|lia]|].
  intros ls [Hp He]. rewrite Ho in *. split; [|exact He].
  intros p Hpre Hne. specialize (Hp p Hpre Hne). lia.
Qed.

(** * Integers *)

Section ints.
Context {big f64 : Type} `{BigInt big}.
Implicit Types L : Lexer big f64.

(** The number a sequence of digits denotes. *)
Definition literal_value (radix : Z) (ds : str) : Z :=
  foldl (λ v c, v * radix + default 0 (to_digit c radix))%Z 0%Z ds.
Definition token_int_value (i : TokenInt big) : Z :=
  match i with I32 i => i | BigInt_ b => bi_val b end.
Definition all_digits (radix : Z) (ds : str) : Prop := Forall (λ c, is_Some (to_digit c radix)) ds.

Lemma from_digits_value radix ds acc :
  all_digits radix ds →
  from_digits ds radix acc = Some (foldl (λ v c, v * radix + default 0 (to_digit c radix))%Z acc ds).
Proof.
  intros Hd. revert acc. induction Hd as [|c ds [d Hc] _ IH]; intros acc; [done|].
  simpl. rewrite Hc. simpl. apply IH.
Qed.

Lemma i32_from_digits radix ds :
  ds ≠ [] → all_digits radix ds → (radix ≤ 36)%Z →
  i32_from_str_radix ds radix = checked_i32 (literal_value radix ds).
Proof.
  intros Hne Hd Hr. pose proof (from_digits_value radix ds 0 Hd) as Hv. unfold literal_value.
  destruct ds as [|c ds]; [done|]. pose proof Hd as Hd'. apply Forall_cons in Hd' as [[d Hc] _].
  unfold i32_from_str_radix. destruct ds as [|c' ds]; [simpl; by rewrite Hc|].
  assert (c ≠ 0x2D ∧ c ≠ 0x2B)%Z as [H1 H2].
  { split; intros ->; unfold to_digit in Hc; simpl in Hc; done. }
  rewrite (proj2 (Z.eqb_neq _ _) H1), (proj2 (Z.eqb_neq _ _) H2).
  rewrite Hv. done.
Qed.

(** [BigInt::from_str_radix] of a sequence of digits. *)
Definition parse_big_ok (parse_big : str → Z → option big) : Prop :=
  ∀ radix ds, ds ≠ [] → all_digits radix ds → (2 ≤ radix ≤ 36)%Z →
    ∃ b, parse_big ds radix = Some b ∧ bi_val b = literal_value radix ds.

Lemma from_str_radix_value parse_big radix ds :
  parse_big_ok parse_big → ds ≠ [] → all_digits radix ds → (2 ≤ radix ≤ 36)%Z →
  ∃ i, from_str_radix parse_big ds radix = inr i ∧ token_int_value i = literal_value radix ds ∧
    ((∃ z, i = I32 z) ↔ (i32_min ≤ literal_value radix ds ≤ i32_max)%Z).
Proof.
  intros Hp Hne Hd Hr. unfold from_str_radix. rewrite i32_from_digits by (done || lia).
  destruct (decide (i32_min ≤ literal_value radix ds ≤ i32_max)%Z) as [Hin|Hout].
  - rewrite checked_i32_Some by done. eexists. split; [done|]. split; [done|]. split; [done|eauto].
  - rewrite checked_i32_None by done. destruct (Hp _ _ Hne Hd Hr) as (b & -> & Hb).
    eexists. split; [done|]. split; [done|]. split; [by intros [z [=]]|done].
Qed.

(** integer literals. After [0x], [0o] or [0b] the digits give the token of the number
    they denote, in the [i32] representation exactly when it fits; a decimal literal does
    too, unless it has a needless leading zero, which is an error that names the literal. *)
Theorem int_literals L parse_big p tok rest :
  scanned L p tok rest → parse_big_ok parse_big →
  (∀ lower upper radix c ds, tok = 0x30%Z :: c :: ds → (c = lower ∨ c = upper) → (c < 0x80)%Z →
    ds ≠ [] → all_digits radix ds → (2 ≤ radix ≤ 36)%Z →
    ∃ i, prefixed_int parse_big L lower upper radix =
        Ok (inr (str_len p, Int_ i, str_len (p ++ tok))) ∧
      token_int_value i = literal_value radix ds ∧
      ((∃ z, i = I32 z) ↔ (i32_min ≤ literal_value radix ds ≤ i32_max)%Z)) ∧
  (tok ≠ [] → all_digits 10 tok →
    if bool_decide (1 < length tok ∧ head tok = Some 0x30%Z)
    then dec_int parse_big L =
      Ok (inl (mkException (StartsZero tok) (mkSpan (str_len p) (str_len (p ++ tok)))))
    else ∃ i, dec_int parse_big L = Ok (inr (str_len p, Int_ i, str_len (p ++ tok))) ∧
      token_int_value i = literal_value 10 tok ∧
      ((∃ z, i = I32 z) ↔ (i32_min ≤ literal_value 10 tok ≤ i32_max)%Z)).
Proof.
  intros Hsc Hp. pose proof (scanned_slice _ _ _ _ Hsc) as Hslice.
  pose proof Hsc as [[Hs He Hst Hu _] Hts]. rewrite str_len_app in Hu.
  assert (∀ radix ds, ds ≠ [] → all_digits radix ds → (2 ≤ radix ≤ 36)%Z →
    ∃ i, int parse_big L ds radix = Ok (inr (str_len p, Int_ i, str_len (p ++ tok))) ∧
      token_int_value i = literal_value radix ds ∧
      ((∃ z, i = I32 z) ↔ (i32_min ≤ literal_value radix ds ≤ i32_max)%Z)) as Hint.
  { intros radix ds Hne Hd Hr. destruct (from_str_radix_value _ _ _ Hp Hne Hd Hr) as (i & Hi & Hv).
    exists i. split; [|exact Hv]. unfold int. by rewrite Hi, Hts, He. }
  split.
  - intros lower upper radix c ds -> Hc Ha Hne Hd Hr. unfold prefixed_int. rewrite Hslice.
    cbn [mbind result_bind]. rewrite prefix_assert by done. cbn [assert mbind result_bind].
    rewrite prefix_rest by done. cbn [mbind result_bind]. by apply Hint.
  - intros Hne Hd. unfold dec_int. rewrite Hslice. cbn [mbind result_bind].
    assert (∀ c, is_Some (to_digit c 10) → (c < 0x80)%Z) as Hascii.
    { intros c [d Hc]. unfold to_digit in Hc. destruct ((0x30 <=? c) && (c <=? 0x39))%Z eqn:H1.
      - apply andb_true_iff in H1 as [_ ?%Z.leb_le]. lia.
      - destruct ((0x61 <=? c) && (c <=? 0x7A))%Z eqn:H2;
          [apply andb_true_iff in H2 as [_ ?%Z.leb_le]; lia|].
        destruct ((0x41 <=? c) && (c <=? 0x5A))%Z eqn:H3; [|done].
        apply andb_true_iff in H3 as [_ ?%Z.leb_le]. lia. }
    destruct tok as [|c tok]; [done|]. pose proof Hd as Hd'.
    apply Forall_cons in Hd' as [Hc Htok]. apply Hascii in Hc.
    assert (str_len (c :: tok) = length (c :: tok)) as Hlen.
    { clear -Hascii Hd. induction Hd as [|x l Hx _ IH]; [done|].
      rewrite str_len_cons, len_ascii by by apply Hascii. by rewrite IH. }
    rewrite Hlen. pose proof (str_upto_app [c] tok) as Hup.
    rewrite str_len_cons, str_len_nil, len_ascii in Hup by done.
    change (str_upto (c :: tok) 1 = Ok [c]) in Hup. rewrite Hup. cbn [mbind result_bind].
    case_bool_decide as Hz.
    + destruct Hz as [Hlt [= ->]]. rewrite (proj2 (Nat.ltb_lt _ _) Hlt), bool_decide_eq_true_2 by done.
      unfold err_now. rewrite Hslice. cbn [mbind result_bind]. rewrite err_span_ok by lia.
      by rewrite Hts, He.
    + replace (if 1 <? length (c :: tok) then Ok (bool_decide ([c] = [0x30%Z])) else Ok false)
        with (Ok false : comp bool); [cbn [mbind result_bind]; by apply Hint|].
      destruct (Nat.ltb_spec 1 (length (c :: tok))); [|done]. rewrite bool_decide_eq_false_2; [done|].
      intros [= ->]. by apply Hz.
Qed.
End ints.

(** ** Witnesses *)

(** A scanner for newlines, tabs and one-character identifiers. *)
Definition witness_scanner (src : str) (pos : nat) : option (Token Z Z) * (nat * nat) :=
  match str_from src pos with
  | Ok (c :: _) =>
    (Some (if (c =? 0x0A)%Z then Newline else if (c =? 0x09)%Z then Tabs else Identifier [c]),
     (pos, pos + len_utf8 c))
  | _ => (None, (pos, pos))
  end.

Lemma witness_scanner_ok : scanner_ok witness_scanner.
Proof.
  intros pre rem. unfold witness_scanner. rewrite str_from_app. destruct rem as [|c rem].
  - exists [], [], []. rewrite !app_nil_r. done.
  - exists [], [c], rem. rewrite !app_nil_r. split; [done|].
    rewrite str_len_snoc. split_and!; try done. by repeat case_match.
Defined.

(** ["a\n  b\n  #\nc\n"]. *)
Definition witness_program : str :=
  [0x61; 0x0A; 0x20; 0x20; 0x62; 0x0A; 0x20; 0x20; 0x23; 0x0A; 0x63; 0x0A]%Z.

Lemma lexer_indentation_witness :
  ∃ ls, (L ← Lexer_new (big:=Z) (f64:=Z) witness_program witness_program;
         lex_all (λ _ _, None) witness_scanner L (4 * str_len witness_program + 5)) = Ok ls ∧
    balance ls = 0%Z ∧ length ls = 10.
Proof.
  destruct (lexer_indentation (λ _ _, None) witness_scanner witness_program witness_scanner_ok
    ltac:(by vm_compute)) as (ls & Hls & _ & He).
  exists ls. assert (∃ ls', Ok ls = Ok (E:=Empty_set) ls' ∧ no_error ls' ∧ length ls' = 10) as
    (ls' & [= ->] & Hne & Hlen).
  { rewrite <-Hls. eexists. split; [vm_compute; reflexivity|]. split; [|done].
    repeat (constructor; [by eexists|]). constructor. }
  split; [exact Hls|]. split; [by apply He|exact Hlen].
Defined.

(** [0xfF], and [x = 0xfF] with the lexer on the literal. *)
Definition witness_hex : str := [0x30; 0x78; 0x66; 0x46]%Z.
Definition witness_int_lexer : Lexer Z Z :=
  mkLexer witness_hex [] [] 0 (mkLogos witness_hex 0 4) false.
Definition witness_parse_big (ds : str) (radix : Z) : option Z := Some (literal_value radix ds).

Lemma int_literals_witness :
  ∃ i, prefixed_int witness_parse_big witness_int_lexer 0x78 0x58 16 = Ok (inr (0, Int_ i, 4)) ∧
    token_int_value i = 255%Z.
Proof.
  destruct (int_literals witness_int_lexer witness_parse_big [] witness_hex []) as [Hp _].
  - split; [|done]. split; vm_compute; (done || lia).
  - intros radix ds _ _ _. eexists. split; reflexivity.
  - destruct (Hp 0x78%Z 0x58%Z 16%Z 0x78%Z [0x66; 0x46]%Z) as (i & Hi & Hv & _).
    + done.
    + by left.
    + done.
    + done.
    + repeat constructor; by eexists.
    + lia.
    + exists i. split; [exact Hi|exact Hv].
Defined.
