(* ===== verification/Ir.v ===== *)
(** [eval/compiler/expr.rs], [call.rs], [args.rs], [compr.rs], [stmt.rs]: the intermediate
    representation of expressions, calls, comprehensions, assignment targets and statements, with
    the queries that the compiler to bytecode makes of it.  [V] are the values (a frozen value
    is a value), [TC] compiled types and [D] what the compiler knows about a [def]; [FrameSpan] is
    its span, and a [Symbol] is its name. *)

From S2P Require Import Prelude Hashing TableMap FastString Symbol CodeMap.
From S2P Require Import DefParams OrdMap ParamSpec Def.

Scheme All for list.
Scheme All for option.
Scheme All for prod.
Scheme All for Spanned.
Scheme All for ParameterCompiled.
Scheme All for ParametersCompiled.

(** * Operators *)

Inductive MaybeNot := MaybeId | MaybeNot_.
#[global] Instance MaybeNot_eq_dec : EqDecision MaybeNot.
Proof. solve_decision. Defined.
Definition negate (m : MaybeNot) : MaybeNot :=
  match m with MaybeId => MaybeNot_ | MaybeNot_ => MaybeId end.

Inductive CompareOp := Less | Greater | LessOrEqual | GreaterOrEqual.
Definition compare_apply (op : CompareOp) (x : comparison) : bool :=
  match op, x with
  | Less, Lt | Greater, Gt | LessOrEqual, (Lt | Eq) | GreaterOrEqual, (Gt | Eq) => true
  | _, _ => false
  end.

Inductive Builtin1 :=
| Minus | Plus | BitNot | Not
| TypeIs (t : list byte)
| PercentSOne (before after : list byte)
| FormatOne (before after : list byte)
| Dot (field : list byte).

Inductive Builtin2 :=
| Equals | In | Sub | Add | Multiply | Percent | Divide | FloorDivide
| BitAnd | BitOr | BitXor | LeftShift | RightShift
| Compare (op : CompareOp)
| ArrayIndex.

Inductive ExprLogicalBinOp := And | Or.
#[global] Instance ExprLogicalBinOp_eq_dec : EqDecision ExprLogicalBinOp.
Proof. solve_decision. Defined.

(** [AssignOp] of the syntax. *)
Inductive AssignOp :=
| AssignAdd | AssignSubtract | AssignMultiply | AssignDivide | AssignFloorDivide | AssignPercent
| AssignBitAnd | AssignBitOr | AssignBitXor | AssignLeftShift | AssignRightShift.

(** * Parts that contain expressions of type [T] *)

Record ArgsCompiledValue (T : Type) := mkArgs {
  ca_pos_named : list T;
  ca_names : list (list byte * StarlarkStr);
  ca_args : option T;
  ca_kwargs : option T;
}.
Arguments mkArgs {T}. Arguments ca_pos_named {T}. Arguments ca_names {T}.
Arguments ca_args {T}. Arguments ca_kwargs {T}.
Scheme All for ArgsCompiledValue.

Section args.
Context {T : Type}.
Implicit Types a : ArgsCompiledValue T.

(** The option that the source returns is given to a continuation, with the value for [None]. *)
Definition with_one_pos {R} a (some : T → R) (none : R) : R :=
  match ca_pos_named a, ca_names a, ca_args a, ca_kwargs a with
  | [pos], [], None, None => some pos
  | _, _, _, _ => none
  end.
Definition with_two_pos {R} a (some : T → T → R) (none : R) : R :=
  match ca_pos_named a, ca_names a, ca_args a, ca_kwargs a with
  | [pos0; pos1], [], None, None => some pos0 pos1
  | _, _, _, _ => none
  end.
Definition with_pos_only {R} a (some : list T → R) (none : R) : R :=
  match ca_names a, ca_args a, ca_kwargs a with
  | [], None, None => some (ca_pos_named a)
  | _, _, _ => none
  end.
Definition arg_exprs a : list T :=
  ca_pos_named a ++ option_list (ca_args a) ++ option_list (ca_kwargs a).
End args.

Record CallCompiled (T : Type) := mkCall { call_fun : T; call_args : ArgsCompiledValue T }.
Arguments mkCall {T}. Arguments call_fun {T}. Arguments call_args {T}.
Scheme All for CallCompiled.

Record DefCompiled (TC D T : Type) := mkDefCompiled {
  dc_function_name : list byte;
  dc_params : ParametersCompiled TC T;
  dc_return_type : option TC;
  dc_info : D;
}.
Arguments mkDefCompiled {TC D T}. Arguments dc_function_name {TC D T}. Arguments dc_params {TC D T}.
Arguments dc_return_type {TC D T}. Arguments dc_info {TC D T}.
Scheme All for DefCompiled.

(** * Expressions and assignment targets *)

Section ir.
Context {V TC D : Type}.

Inductive ExprCompiled : Type :=
| Value (v : V)
| Local (slot : nat)
| LocalCaptured (slot : nat)
| ModuleSlot (slot : nat)
| Tuple (xs : list (Spanned ExprCompiled))
| List_ (xs : list (Spanned ExprCompiled))
| Dict_ (kvs : list (Spanned ExprCompiled * Spanned ExprCompiled))
| Compr (c : ComprCompiled)
| If_ (cond t f : Spanned ExprCompiled)
| Slice (l : Spanned ExprCompiled) (start stop step : option (Spanned ExprCompiled))
| ExprBuiltin1 (op : Builtin1) (e : Spanned ExprCompiled)
| LogicalBinOp (op : ExprLogicalBinOp) (l r : Spanned ExprCompiled)
| Seq (l r : Spanned ExprCompiled)
| ExprBuiltin2 (op : Builtin2) (l r : Spanned ExprCompiled)
| Index2 (a i0 i1 : Spanned ExprCompiled)
| Call (c : Spanned (CallCompiled (Spanned ExprCompiled)))
| ExprDef (d : DefCompiled TC D (Spanned ExprCompiled))
with ComprCompiled : Type :=
| ComprList (x : Spanned ExprCompiled) (clauses : list ClauseCompiled)
| ComprDict (k v : Spanned ExprCompiled) (clauses : list ClauseCompiled)
with ClauseCompiled : Type :=
| Clause (var : Spanned AssignCompiledValue) (over : Spanned ExprCompiled)
    (ifs : list (Spanned ExprCompiled))
with AssignCompiledValue : Type :=
| AssignDot (object : Spanned ExprCompiled) (field : list byte)
| AssignIndex (array index : Spanned ExprCompiled)
| AssignTuple (xs : list (Spanned AssignCompiledValue))
| AssignLocal (slot : nat)
| AssignLocalCaptured (slot : nat)
| AssignModule (slot : nat) (name : list byte).

(** Induction over an expression and everything inside it. *)
Scheme expr_ind_all := Induction for ExprCompiled Sort Prop
with compr_ind_all := Induction for ComprCompiled Sort Prop
with clause_ind_all := Induction for ClauseCompiled Sort Prop
with assign_ind_all := Induction for AssignCompiledValue Sort Prop.
Combined Scheme ir_ind from expr_ind_all, compr_ind_all, clause_ind_all, assign_ind_all.

Abbreviation Expr := (Spanned ExprCompiled).
Abbreviation Target := (Spanned AssignCompiledValue).
Implicit Types e : ExprCompiled.

Definition as_value e : option V := match e with Value v => Some v | _ => None end.
Definition as_local_non_captured e : option nat := match e with Local slot => Some slot | _ => None end.
Definition assign_as_local_non_captured (a : AssignCompiledValue) : option nat :=
  match a with AssignLocal id => Some id | _ => None end.
Definition clauses (c : ComprCompiled) : list ClauseCompiled :=
  match c with ComprList _ clauses | ComprDict _ _ clauses => clauses end.
(** The clause that runs first is the last one. *)
Definition first_over (c : ComprCompiled) : option Expr :=
  match last (clauses c) with Some (Clause _ over _) => Some over | None => None end.

(** ** Calls *)

Section calls.
(** The functions [len], [type] and [isinstance]. *)
Context (is_fn_len is_fn_type is_fn_isinstance : V → bool).
Implicit Types c : CallCompiled Expr.

Definition fun_is (p : V → bool) c : bool :=
  match as_value (node (call_fun c)) with Some value => p value | None => false end.
Definition with_len {R} c (some : Expr → R) (none : R) : R :=
  if negb (fun_is is_fn_len c) then none else with_one_pos (call_args c) some none.
Definition with_type {R} c (some : Expr → R) (none : R) : R :=
  if negb (fun_is is_fn_type c) then none else with_one_pos (call_args c) some none.
Definition with_isinstance {R} c (some : Expr → V → R) (none : R) : R :=
  if negb (fun_is is_fn_isinstance c) then none else
  with_two_pos (call_args c)
    (λ x t, match as_value (node t) with Some t => some x t | None => none end) none.
Definition with_method {R} c (some : Expr → list byte → ArgsCompiledValue Expr → R) (none : R) : R :=
  match node (call_fun c) with
  | ExprBuiltin1 (Dot name) expr => some expr name (call_args c)
  | _ => none
  end.
End calls.

(** * Statements *)

Inductive AssignModifyLhs :=
| ModifyDot (object : Expr) (field : list byte)
| ModifyArray (array index : Expr)
| ModifyLocal (slot : Spanned nat)
| ModifyLocalCaptured (slot : Spanned nat)
| ModifyModule (slot : Spanned nat).

Inductive StmtCompiled :=
| PossibleGc
| Return (e : Expr)
| StmtExpr (e : Expr)
| Assign (lhs : Target) (ty : option (Spanned TC)) (rhs : Expr)
| AssignModify (lhs : AssignModifyLhs) (op : AssignOp) (rhs : Expr)
| StmtIf (cond : Expr) (t f : list (Spanned StmtCompiled))
| For (var : Target) (over : Expr) (body : list (Spanned StmtCompiled))
| Break
| Continue.
(** [StmtsCompiled]; [SmallVec1] is a vector. *)
Abbreviation StmtsCompiled := (list (Spanned StmtCompiled)).

Definition is_return (s : option (Spanned StmtCompiled)) : bool :=
  match s with Some (mkSpanned _ (Return _)) => true | _ => false end.
End ir.
Arguments ExprCompiled : clear implicits.
Arguments ComprCompiled : clear implicits.
Arguments ClauseCompiled : clear implicits.
Arguments AssignCompiledValue : clear implicits.
Arguments AssignModifyLhs : clear implicits.
Arguments StmtCompiled : clear implicits.
