(* ===== verification/Inline.v ===== *)
(** [eval/compiler/def_inline.rs]: which functions can be inlined.  The body must be the [return] of an expression that
    reads parameters and nothing else, or of a test of the type of the only parameter. *)

From S2P Require Import Prelude Hashing TableMap FastString Symbol CodeMap.
From S2P Require Import DefParams OrdMap ParamSpec Def Ir.

Inductive InlineDefBody (V TC D : Type) :=
| ReturnTypeIs (t : list byte)
| ReturnSafeToInlineExpr (e : Spanned (ExprCompiled V TC D)).
Arguments ReturnTypeIs {V TC D}. Arguments ReturnSafeToInlineExpr {V TC D}.

(** What is known of a function when its module is frozen: of [DefCompiled] the parameters and whether there is a return
    type, and of its [DefInfo] the body. *)
Record FrozenDef (V TC D : Type) := mkFrozenDef {
  fd_params : ParametersCompiled TC (Spanned (ExprCompiled V TC D));
  fd_body : list (Spanned (StmtCompiled V TC D));
  fd_has_return_type : bool;
}.
Arguments mkFrozenDef {V TC D}. Arguments fd_params {V TC D}. Arguments fd_body {V TC D}. Arguments fd_has_return_type {V TC D}.

Section inline.
Context {V TC D : Type} (new_none : V).
Local Abbreviation Node := (ExprCompiled V TC D).
Local Abbreviation Expr := (Spanned (ExprCompiled V TC D)).
Local Abbreviation Stmts := (list (Spanned (StmtCompiled V TC D))).
Implicit Types (e : Node) (x : Expr) (body : Stmts).

Definition as_return (c : StmtCompiled V TC D) : option Expr := match c with Return x => Some x | _ => None end.
Definition as_type_is e : option (Expr * list byte) :=
  match e with ExprBuiltin1 (TypeIs t) x => Some (x, t) | _ => None end.
(** The body is [return type(x) == "y"], where [x] is the first slot. *)
Definition is_return_type_is body : option (list byte) :=
  s ← head body; r ← as_return (node s); '(x, t) ← as_type_is (node r);
  match node x with Local 0 => Some t | _ => None end.

(** Whether an expression is safe to inline, and how many expressions were visited. *)
Section all.
Context {A : Type} (f : A → nat → bool * nat).
Fixpoint all_safe (l : list A) (counter : nat) : bool * nat :=
  match l with
  | [] => (true, counter)
  | x :: l => let '(b, counter) := f x counter in if b then all_safe l counter else (false, counter)
  end.
End all.
Fixpoint is_safe_to_inline_expr (param_count : nat) e (counter : nat) {struct e} : bool * nat :=
  let safe (x : Expr) := is_safe_to_inline_expr param_count (node x) in
  if 100 <? counter then (false, counter) else
  let counter := counter + 1 in
  match e with
  | Value _ => (true, counter)
  | LocalCaptured _ | ModuleSlot _ | ExprDef _ | Compr _ => (false, counter)
  | Local l => (l <? param_count, counter)
  | Call c =>
    let '(b, counter) := safe (call_fun (node c)) counter in
    if negb b then (false, counter) else
    let '(b, counter) := all_safe safe (ca_pos_named (call_args (node c))) counter in
    if negb b then (false, counter) else
    let '(b, counter) := match ca_args (call_args (node c)) with Some x => safe x counter | None => (true, counter) end in
    if negb b then (false, counter) else
    match ca_kwargs (call_args (node c)) with Some x => safe x counter | None => (true, counter) end
  | Slice a b c d =>
    let '(r, counter) := safe a counter in
    if negb r then (false, counter) else
    let '(r, counter) := match b with Some x => safe x counter | None => (true, counter) end in
    if negb r then (false, counter) else
    let '(r, counter) := match c with Some x => safe x counter | None => (true, counter) end in
    if negb r then (false, counter) else
    match d with Some x => safe x counter | None => (true, counter) end
  | ExprBuiltin1 _ x => safe x counter
  | ExprBuiltin2 _ x y | LogicalBinOp _ x y | Seq x y =>
    let '(b, counter) := safe x counter in if b then safe y counter else (false, counter)
  | Index2 x y z | If_ x y z =>
    let '(b, counter) := safe x counter in
    if negb b then (false, counter) else
    let '(b, counter) := safe y counter in if b then safe z counter else (false, counter)
  | Tuple xs | List_ xs => all_safe safe xs counter
  | Dict_ kvs =>
    all_safe (λ '(x, y) counter, let '(b, counter) := safe x counter in if b then safe y counter else (false, counter)) kvs counter
  end.
Definition is_return_safe_to_inline_expr body (param_count : nat) : option Expr :=
  match head body with
  | None => Some (mkSpanned Span_default (Value new_none))
  | Some stmt =>
    match node stmt with
    | Return x => if (is_safe_to_inline_expr param_count (node x) 0).1 then Some x else None
    | _ => None
    end
  end.
Definition inline_def_body (params : ParametersCompiled TC Expr) body : comp (option (InlineDefBody V TC D)) :=
  let type_is :=
    match compiled_params params with
    | [p] => if accepts_positional (node p) then is_return_type_is body else None
    | _ => None
    end in
  match type_is with
  | Some t => Ok (Some (ReturnTypeIs t))
  | None =>
    if has_args_or_kwargs params then Ok None else
    param_count ← count_param_variables params;
    Ok (ReturnSafeToInlineExpr <$> is_return_safe_to_inline_expr body param_count)
  end.
(** [DefInfo::inline_def_body]. *)
Definition def_inline_body (d : FrozenDef V TC D) : option (InlineDefBody V TC D) :=
  if fd_has_return_type d || has_types (fd_params d) then None
  else match inline_def_body (fd_params d) (fd_body d) with Ok b => b | _ => None end.
End inline.
