(* ===== verification/World.v ===== *)
(** What the code of a function needs of values, heaps and the evaluator, as an interface:
    methods of [Value] ([values/layout/value.rs]) and of the trait behind it, allocation,
    module slots, cells of captured variables and calls.  A [StarlarkValue] can be defined outside the
    repository, so the methods are not given here; the laws of [WorldOk] are what the
    compiler relies on. *)

From S2P Require Import Prelude Hashing TableMap FastString Symbol CodeMap.
From S2P Require Import DefParams OrdMap ParamSpec Def Ir.

(** [InstrDefData]. *)
Record InstrDefData (TC D : Type) := mkDefData {
  dd_function_name : list byte;
  dd_params : ParametersCompiled TC nat;
  dd_return_type : option TC;
  dd_info : D;
}.
Arguments mkDefData {TC D}. Arguments dd_function_name {TC D}. Arguments dd_params {TC D}.
Arguments dd_return_type {TC D}. Arguments dd_info {TC D}.

(** An operation on the heap [H]: a result, and the heap that it leaves. *)
Abbreviation Op H E A := (H → result E A * H).
Abbreviation Args V := (ArgumentsFull (list byte) V).

(** [V]: values; [H]: the heap with the rest of the evaluator; [E]: errors; [TC]: compiled
    types; [D]: [DefInfo]; [KM]: [KnownMethod]; [MB]: [MemberOrValue]. *)
Class World (V H E TC D KM MB : Type) := {
  (** Constants. *)
  new_bool : bool → V;
  new_none : V;
  frozen_str : list byte → V;
  (** [Value]: tests that do not fail. *)
  to_bool : V → H → bool;
  get_type_value : V → list byte;
  as_frozen_str : V → option (list byte);
  unpack_int_value : V → option Z;
  eq_is_ptr_eq : V → bool;
  ptr_eq : V → V → bool;
  get_hashed : V → result E StarlarkHashValue;
  key_eq : V → V → bool;
  (** [Value]: operators. *)
  v_equals : V → V → Op H E bool;
  v_compare : V → V → Op H E comparison;
  is_in : V → V → Op H E bool;
  v_minus : V → Op H E V;
  v_plus : V → Op H E V;
  bit_not : V → Op H E V;
  v_sub : V → V → Op H E V;
  v_add : V → V → Op H E V;
  v_mul : V → V → Op H E V;
  v_percent : V → V → Op H E V;
  v_div : V → V → Op H E V;
  v_floor_div : V → V → Op H E V;
  bit_and : V → V → Op H E V;
  bit_or : V → V → Op H E V;
  bit_xor : V → V → Op H E V;
  left_shift : V → V → Op H E V;
  right_shift : V → V → Op H E V;
  v_at : V → V → Op H E V;
  v_at2 : V → V → V → Op H E V;
  v_slice : V → option V → option V → option V → Op H E V;
  v_length : V → Op H E Z;
  alloc_int : Z → H → V * H;
  set_at : V → V → V → Op H E ();
  set_attr : V → list byte → V → Op H E ();
  add_assign : V → V → Op H E V;
  bit_or_assign : V → V → Op H E V;
  (** Strings. *)
  percent_s_one : list byte → V → list byte → Op H E V;
  format_one : list byte → V → list byte → H → V * H;
  (** Iteration. *)
  v_iterate : V → Op H E V;
  iter_next : V → nat → H → option V * H;
  iter_stop : V → H → H;
  unpack_count_error : nat → Z → E;
  (** [Heap]; the unchecked mutation of the containers of comprehensions. *)
  h_alloc_tuple : list V → H → V * H;
  h_alloc_list : list V → H → V * H;
  h_alloc_dict : list (Hashed V * V) → H → V * H;
  list_push : V → V → Op H E ();
  dict_insert_hashed : V → Hashed V → V → Op H E ();
  duplicate_key_error : V → E;
  (** Attributes and calls. *)
  get_attr_hashed_bind : V → list byte → Op H E V;
  get_attr_hashed_raw : V → list byte → Op H E MB;
  member_invoke : MB → V → Span → Args V → Op H E V;
  get_known_method : list byte → option KM;
  known_method_is : KM → V → bool;
  known_method_invoke : KM → V → Span → Args V → Op H E V;
  invoke_with_loc : V → Span → Args V → Op H E V;
  is_frozen_def : V → bool;
  resolve_arg_name : V → list byte → ResolvedArgName;
  invoke_frozen_def : V → Span → ArgumentsFull ResolvedArgName V → Op H E V;
  is_native_function : V → bool;
  invoke_native : V → Span → Args V → Op H E V;
  is_fn_len : V → bool;
  is_fn_type : V → bool;
  is_fn_isinstance : V → bool;
  (** Types. *)
  new_frozen : V → option TC;
  type_matches : TC → V → H → bool;
  check_type : TC → V → Op H E ();
  check_return_type : V → Op H E ();
  (** [Evaluator]: variables, functions, errors, garbage collection. *)
  get_slot_module : nat → Op H E V;
  set_slot_module : nat → V → H → H;
  export_as : V → list byte → Op H E ();
  local_var_referenced_before_assignment : nat → H → E;
  value_captured_get : V → H → option V;
  value_captured_set : V → V → Op H E ();
  alloc_value_captured : V → H → V * H;
  instr_def : InstrDefData TC D → list V → list (option V) → Op H E (V * list (option V));
  add_span_to_expr_error : E → Span → H → E;
  possible_gc : H → (V → V) * H;
}.

Section args.
Context `{W : World V H E TC D KM MB}.

(** [BcCallArgsFull::resolve]. *)
Definition resolve_args (f : V) (a : Args V) : ArgumentsFull ResolvedArgName V :=
  mkArguments (arg_pos a) (arg_named a)
    (map (λ '(name, value), (resolve_arg_name f name, value)) (arg_names a)) (arg_args a) (arg_kwargs a).

(** [call_method_common]. *)
Definition call_method (this : V) (symbol : list byte) (args : Args V) (sp : Span) : Op H E V := λ h,
  match get_attr_hashed_raw this symbol h with
  | (Ok method, h) => member_invoke method this sp args h
  | (Err e, h) => (Err e, h)
  | (Fault f, h) => (Fault f, h)
  end.
End args.

(** Booleans are their own truth; equality is symmetric, and the comparison with a constant of a kind that is compared in a
    faster way agrees with it; the three ways to call a constant function, and the two ways to call
    a method of a built-in type, are the same; making a function leaves the local variables alone,
    except that it gives a cell to those that have none. *)
Class WorldOk (V H E TC D KM MB : Type) `{World V H E TC D KM MB} := {
  to_bool_new_bool b h : to_bool (new_bool b) h = b;
  equals_sym a b h : v_equals a b h = v_equals b a h;
  equals_int a b x y h :
    unpack_int_value a = Some x → unpack_int_value b = Some y → v_equals a b h = (Ok (x =? y)%Z, h);
  equals_ptr a b h : eq_is_ptr_eq b = true → v_equals a b h = (Ok (ptr_eq a b), h);
  equals_str a b s h :
    as_frozen_str b = Some s →
    v_equals a b h = (Ok (bool_decide (as_frozen_str a = Some s)), h);
  frozen_def_invoke f sp a h :
    is_frozen_def f = true → invoke_frozen_def f sp (resolve_args f a) h = invoke_with_loc f sp a h;
  native_invoke f sp a h :
    is_native_function f = true → invoke_native f sp a h = invoke_with_loc f sp a h;
  known_method_ok name m this sp a h :
    get_known_method name = Some m → known_method_is m this = true →
    known_method_invoke m this sp a h = call_method this name a sp h;
  instr_def_locals d pops locals h v locals' h' :
    instr_def d pops locals h = (Ok (v, locals'), h') →
    length locals' = length locals ∧ ∀ x c, locals !! x = Some (Some c) → locals' !! x = Some (Some c);
}.
