(* ===== verification/IrEval.v ===== *)
(** The meaning of the intermediate representation: an evaluator on the local variables of a
    frame and the heap.  Compiled code is proved to behave as it says.  Every loop
    takes at most [n] rounds; [None] is an evaluation that needs more. *)

From S2P Require Import Prelude Hashing TableMap FastString Symbol CodeMap.
From S2P Require Import DefParams OrdMap ParamSpec Def Ir World.

(** How the execution of a function ends. *)
Inductive Outcome (V H E : Type) :=
| Returned (v : V) (h : H)
| Raised (e : E) (h : H)
| Faulted (f : fault).
Arguments Returned {V H E}. Arguments Raised {V H E}. Arguments Faulted {V H E}.

Record St (V H : Type) := mkSt { st_locals : list (option V); st_heap : H }.
Arguments mkSt {V H}. Arguments st_locals {V H}. Arguments st_heap {V H}.

(** What evaluation comes to: a result, or the end of the function. *)
Inductive out (V H E A : Type) :=
| Done (a : A) (s : St V H)
| Exits (o : Outcome V H E).
Arguments Done {V H E A}. Arguments Exits {V H E A}.

Definition obind {V H E A B} (m : option (out V H E A)) (k : A → St V H → option (out V H E B)) :
    option (out V H E B) :=
  match m with
  | Some (Done a s) => k a s
  | Some (Exits o) => Some (Exits o)
  | None => None
  end.
Notation "'do' x , s <~ m ; k" := (obind m (λ x s, k))
  (at level 10, x name, s name, m at level 100, k at level 200).

(** How a statement ends. *)
Inductive Flow := FlowNext | FlowBreak | FlowContinue.

Section eval.
Context `{W : World V H E TC D KM MB}.
Implicit Types (s : St V H) (sp : Span).
Local Abbreviation out := (out V H E).
Local Abbreviation Expr := (Spanned (ExprCompiled V TC D)).
Local Abbreviation Target := (Spanned (AssignCompiledValue V TC D)).

Definition ret {A} (a : A) s : option (out A) := Some (Done a s).
Definition raise {A} sp (e : E) (h : H) : option (out A) :=
  Some (Exits (Raised (add_span_to_expr_error e sp h) h)).
(** An operation of the heap, at the place that an error is reported at. *)
Definition at_span {A} sp (o : Op H E A) s : option (out A) :=
  match o (st_heap s) with
  | (Ok a, h) => ret a (mkSt (st_locals s) h)
  | (Err e, h) => raise sp e h
  | (Fault f, _) => Some (Exits (Faulted f))
  end.
(** One that does not fail. *)
Definition with_heap {A} (o : H → A * H) s : option (out A) :=
  let '(a, h) := o (st_heap s) in ret a (mkSt (st_locals s) h).

(** ** Variables *)

Definition get_local sp (x : nat) s : option (out V) :=
  match st_locals s !! x with
  | Some (Some v) => ret v s
  | Some None => raise sp (local_var_referenced_before_assignment x (st_heap s)) (st_heap s)
  | None => Some (Exits (Faulted UndefinedBehaviour))
  end.
Definition get_captured sp (x : nat) s : option (out V) :=
  do c, s <~ get_local sp x s;
  match value_captured_get c (st_heap s) with
  | Some v => ret v s
  | None => raise sp (local_var_referenced_before_assignment x (st_heap s)) (st_heap s)
  end.
Definition set_local (x : nat) (v : V) s : option (out ()) :=
  if x <? length (st_locals s) then ret () (mkSt (<[x := Some v]> (st_locals s)) (st_heap s))
  else Some (Exits (Faulted UndefinedBehaviour)).
Definition set_captured sp (x : nat) (v : V) s : option (out ()) :=
  match st_locals s !! x with
  | Some (Some c) => at_span sp (value_captured_set c v) s
  | Some None => do c, s <~ with_heap (alloc_value_captured v) s; set_local x c s
  | None => Some (Exits (Faulted UndefinedBehaviour))
  end.

(** ** Operators *)

Definition op_bool (o : Op H E bool) : Op H E V := λ h, let '(r, h) := o h in (new_bool <$> r, h).

Definition builtin1 (op : Builtin1) (v : V) : Op H E V :=
  match op with
  | Minus => v_minus v
  | Plus => v_plus v
  | BitNot => bit_not v
  | Not => λ h, (Ok (new_bool (negb (to_bool v h))), h)
  | TypeIs t => λ h, (Ok (new_bool (bool_decide (get_type_value v = t))), h)
  | PercentSOne before after => percent_s_one before v after
  | FormatOne before after => λ h, let '(r, h) := format_one before v after h in (Ok r, h)
  | Dot field => get_attr_hashed_bind v field
  end.
(** [Builtin2::eval]. *)
Definition Builtin2_eval (op : Builtin2) (a b : V) : Op H E V :=
  match op with
  | Equals => op_bool (v_equals a b)
  | Compare cmp => λ h, let '(c, h) := v_compare a b h in ((λ c, new_bool (compare_apply cmp c)) <$> c, h)
  | In => op_bool (is_in b a)
  | Sub => v_sub a b
  | Add => v_add a b
  | Multiply => v_mul a b
  | Percent => v_percent a b
  | Divide => v_div a b
  | FloorDivide => v_floor_div a b
  | BitAnd => bit_and a b
  | BitOr => bit_or a b
  | BitXor => bit_xor a b
  | LeftShift => left_shift a b
  | RightShift => right_shift a b
  | ArrayIndex => v_at a b
  end.
Definition assign_op (op : AssignOp) (a b : V) : Op H E V :=
  match op with
  | AssignAdd => add_assign a b
  | AssignSubtract => v_sub a b
  | AssignMultiply => v_mul a b
  | AssignDivide => v_div a b
  | AssignFloorDivide => v_floor_div a b
  | AssignPercent => v_percent a b
  | AssignBitAnd => bit_and a b
  | AssignBitOr => bit_or_assign a b
  | AssignBitXor => bit_xor a b
  | AssignLeftShift => left_shift a b
  | AssignRightShift => right_shift a b
  end.
Definition len_op (v : V) : Op H E V := λ h,
  match v_length v h with
  | (Ok n, h) => let '(r, h) := alloc_int n h in (Ok r, h)
  | (Err e, h) => (Err e, h)
  | (Fault f, h) => (Fault f, h)
  end.

(** ** Dictionaries *)

(** [SmallMap::insert_hashed] on the entries in order: the former value, and the entries. *)
Definition same_key (k k' : Hashed V) : bool := (hash k =? hash k')%Z && key_eq (key k) (key k').
Fixpoint insert_entry (m : list (Hashed V * V)) (k : Hashed V) (v : V) :
    option V * list (Hashed V * V) :=
  match m with
  | [] => (None, [(k, v)])
  | (k', v') :: m =>
    if same_key k k' then (Some v', (k', v) :: m) else
    let '(old, m) := insert_entry m k v in (old, (k', v') :: m)
  end.

(** The entries of a dictionary display, in order; the places are those of the keys. *)
Fixpoint build_dict (l : list (V * V)) (sps : list Span) (m : list (Hashed V * V)) :
    Op H E (list (Hashed V * V)) := λ h,
  match l, sps with
  | (k, v) :: l, sp :: sps =>
    match get_hashed k with
    | Err e => (Err (add_span_to_expr_error e sp h), h)
    | Fault f => (Fault f, h)
    | Ok hk =>
      match insert_entry m (mkHashed hk k) v with
      | (Some _, _) => (Err (add_span_to_expr_error (duplicate_key_error k) sp h), h)
      | (None, m) => build_dict l sps m h
      end
    end
  | [], _ => (Ok m, h)
  | _ :: _, [] => (Panic, h)
  end.
Definition make_dict (l : list (V * V)) (sps : list Span) : Op H E V := λ h,
  match build_dict l sps [] h with
  | (Ok m, h) => let '(v, h) := h_alloc_dict m h in (Ok v, h)
  | (Err e, h) => (Err e, h)
  | (Fault f, h) => (Fault f, h)
  end.
(** An entry of a dictionary comprehension. *)
Definition compr_insert (d k v : V) : Op H E () := λ h,
  match get_hashed k with
  | Ok hk => dict_insert_hashed d (mkHashed hk k) v h
  | Err e => (Err e, h)
  | Fault f => (Fault f, h)
  end.

(** ** Unpacking *)

(** Taking [n] items of an iterator, then nothing. *)
Fixpoint unpack_items (it : V) (n i : nat) : Op H E (list V) := λ h,
  match iter_next it i h with
  | (Some x, h) =>
    match n with
    | O => (Panic, h)
    | S n => let '(r, h) := unpack_items it n (i + 1) h in (cons x <$> r, h)
    end
  | (None, h) => let h := iter_stop it h in (if n =? 0 then Ok [] else Panic, h)
  end.
Definition unpack (n : nat) (v : V) : Op H E (list V) := λ h,
  match v_length v h with
  | (Ok nvl, h) =>
    if negb (nvl =? as_i32 (Z.of_nat n))%Z then (Err (unpack_count_error n nvl), h) else
    match v_iterate v h with
    | (Ok it, h) => unpack_items it n 0 h
    | (Err e, h) => (Err e, h)
    | (Fault f, h) => (Fault f, h)
    end
  | (Err e, h) => (Err e, h)
  | (Fault f, h) => (Fault f, h)
  end.

(** ** Sequences *)

Definition eval_list {A B} (f : A → St V H → option (out B)) :=
  fix go (l : list A) s : option (out (list B)) :=
    match l with
    | [] => ret [] s
    | x :: l => do v, s <~ f x s; do vs, s <~ go l s; ret (v :: vs) s
    end.
Definition eval_option {A B} (f : A → St V H → option (out B)) (o : option A) s :
    option (out (option B)) :=
  match o with None => ret None s | Some x => do v, s <~ f x s; ret (Some v) s end.
Definition eval_pairs {A B} (f : A → St V H → option (out B)) :=
  fix go (l : list (A * A)) s : option (out (list (B * B))) :=
    match l with
    | [] => ret [] s
    | (k, v) :: l =>
      do k, s <~ f k s; do v, s <~ f v s; do vs, s <~ go l s; ret ((k, v) :: vs) s
    end.
Definition assign_list {A} (f : A → V → St V H → option (out ())) :=
  fix go (l : list A) (vs : list V) s : option (out ()) :=
    match l, vs with
    | x :: l, v :: vs => do _u, s <~ f x v s; go l vs s
    | _, _ => ret () s
    end.
(** Goes on to the next statement, or to the body of a loop, while the flow is normal. *)
Definition then_next (f : Flow) (k : St V H → option (out Flow)) s : option (out Flow) :=
  match f with FlowNext => k s | _ => ret f s end.
Definition exec_list {A} (f : A → St V H → option (out Flow)) :=
  fix go (l : list A) s : option (out Flow) :=
    match l with [] => ret FlowNext s | x :: l => do flow, s <~ f x s; then_next flow (go l) s end.

(** ** Loops *)

(** At most [k] rounds of the loop over the iterator [it], of which the next item is the [i]th. *)
Fixpoint loop_rounds (body : V → V → St V H → option (out Flow)) (it : V) (k i : nat) s :
    option (out ()) :=
  match k with
  | O => None
  | S k =>
    match iter_next it i (st_heap s) with
    | (Some x, h) =>
      do flow, s <~ body it x (mkSt (st_locals s) h);
      match flow with
      | FlowBreak => ret () (mkSt (st_locals s) (iter_stop it (st_heap s)))
      | _ => loop_rounds body it k (i + 1) s
      end
    | (None, h) => ret () (mkSt (st_locals s) (iter_stop it h))
    end
  end.

Variable n : nat.

Definition for_loop sp (over : V) (body : V → V → St V H → option (out Flow)) s : option (out ()) :=
  do it, s <~ at_span sp (v_iterate over) s; loop_rounds body it n 0 s.

(** ** Calls and functions *)

Definition arguments (names : list (list byte * StarlarkStr)) (vs : list V) (args kwargs : option V) :
    Args V :=
  let pos := length vs - length names in
  mkArguments (take pos vs) (drop pos vs) names args kwargs.

(** The parameters with the positions of their default values. *)
Definition number_params (ps : ParametersCompiled TC Expr) : ParametersCompiled TC nat :=
  match map_exprs (E:=Empty_set) (λ i _, Ok (i, i + 1)) 0 (compiled_params ps) with
  | Ok (l, _) => mkCompiled l (compiled_indices ps)
  | _ => mkCompiled [] (compiled_indices ps)
  end.
Definition def_data (d : DefCompiled TC D Expr) : InstrDefData TC D :=
  mkDefData (dc_function_name d) (number_params (dc_params d)) (dc_return_type d) (dc_info d).
Definition make_def sp (d : InstrDefData TC D) (vs : list V) s : option (out V) :=
  match instr_def d vs (st_locals s) (st_heap s) with
  | (Ok (v, locals), h) => ret v (mkSt locals h)
  | (Err e, h) => raise sp e h
  | (Fault f, _) => Some (Exits (Faulted f))
  end.
Definition eval_defaults (f : Expr → St V H → option (out V)) :=
  fix go (l : list (Spanned (ParameterCompiled TC Expr))) s : option (out (list V)) :=
    match l with
    | [] => ret [] s
    | p :: l =>
      match node p with
      | CompiledNormal _ _ (Some e) => do v, s <~ f e s; do vs, s <~ go l s; ret (v :: vs) s
      | _ => go l s
      end
    end.

(** The clauses of a comprehension around [term]; the last clause is the outermost. *)
Definition run_clauses (f : ClauseCompiled V TC D → (St V H → option (out ())) → St V H → option (out ())) :=
  fix go (cs : list (ClauseCompiled V TC D)) (term : St V H → option (out ())) : St V H → option (out ()) :=
    match cs with [] => term | c :: cs => go cs (f c term) end.
(** The conditions of a clause. *)
Definition run_ifs (f : Expr → St V H → option (out V)) (term : St V H → option (out ())) :=
  fix go (l : list Expr) s : option (out Flow) :=
    match l with
    | [] => do _u, s <~ term s; ret FlowNext s
    | c :: l => do v, s <~ f c s; if to_bool v (st_heap s) then go l s else ret FlowContinue s
    end.

Definition eval_args (f : Expr → St V H → option (out V)) (a : ArgsCompiledValue Expr) s : option (out (Args V)) :=
  do vs, s <~ eval_list f (ca_pos_named a) s;
  do args, s <~ eval_option f (ca_args a) s;
  do kwargs, s <~ eval_option f (ca_kwargs a) s;
  ret (arguments (ca_names a) vs args kwargs) s.
(** The attribute of a method call is looked up after the arguments are evaluated. *)
Definition eval_invoke (f : Expr → St V H → option (out V)) sp (c : CallCompiled Expr) s : option (out V) :=
  with_method c
    (λ this symbol args, do this, s <~ f this s; do a, s <~ eval_args f args s;
                         at_span sp (call_method this symbol a sp) s)
    (do g, s <~ f (call_fun c) s; do a, s <~ eval_args f (call_args c) s;
     at_span sp (invoke_with_loc g sp a) s).
Definition eval_call (f : Expr → St V H → option (out V)) sp (c : CallCompiled Expr) s : option (out V) :=
  with_len is_fn_len c (λ arg, do v, s <~ f arg s; at_span sp (len_op v) s) (
  with_type is_fn_type c (λ arg, do v, s <~ f arg s; ret (frozen_str (get_type_value v)) s) (
  with_isinstance is_fn_isinstance c
    (λ x t, match new_frozen t with
            | Some t => do v, s <~ f x s; ret (new_bool (type_matches t v (st_heap s))) s
            | None => eval_invoke f sp c s
            end) (eval_invoke f sp c s))).

(** * Expressions *)

Fixpoint eval sp (e : ExprCompiled V TC D) s {struct e} : option (out V) :=
  let ev (e : Expr) s := eval (span e) (node e) s in
  match e with
  | Value v => ret v s
  | Local x => get_local sp x s
  | LocalCaptured x => get_captured sp x s
  | ModuleSlot x => at_span sp (get_slot_module x) s
  | Tuple xs => do vs, s <~ eval_list ev xs s; with_heap (h_alloc_tuple vs) s
  | List_ xs => do vs, s <~ eval_list ev xs s; with_heap (h_alloc_list vs) s
  | Dict_ kvs => do l, s <~ eval_pairs ev kvs s; at_span sp (make_dict l (map (λ kv, span kv.1) kvs)) s
  | Compr c => eval_compr sp c s
  | If_ cond t f => do c, s <~ ev cond s; if to_bool c (st_heap s) then ev t s else ev f s
  | Slice l start stop step =>
    do l, s <~ ev l s; do a, s <~ eval_option ev start s; do b, s <~ eval_option ev stop s;
    do c, s <~ eval_option ev step s; at_span sp (v_slice l a b c) s
  | ExprBuiltin1 op e => do v, s <~ ev e s; at_span sp (builtin1 op v) s
  | LogicalBinOp op l r =>
    do v, s <~ ev l s;
    if Bool.eqb (to_bool v (st_heap s)) (bool_decide (op = And)) then ev r s else ret v s
  | Seq l r => do _v, s <~ ev l s; ev r s
  | ExprBuiltin2 op l r => do a, s <~ ev l s; do b, s <~ ev r s; at_span sp (Builtin2_eval op a b) s
  | Index2 a i0 i1 =>
    do a, s <~ ev a s; do i0, s <~ ev i0 s; do i1, s <~ ev i1 s; at_span sp (v_at2 a i0 i1) s
  | Call c => eval_call ev (span c) (node c) s
  | ExprDef d => do vs, s <~ eval_defaults ev (compiled_params (dc_params d)) s; make_def sp (def_data d) vs s
  end
with eval_compr sp (c : ComprCompiled V TC D) s {struct c} : option (out V) :=
  let ev (e : Expr) s := eval (span e) (node e) s in
  match c with
  | ComprList x cs =>
    do l, s <~ with_heap (h_alloc_list []) s;
    do _u, s <~ run_clauses eval_clause cs (λ s, do v, s <~ ev x s; at_span (span x) (list_push l v) s) s;
    ret l s
  | ComprDict k v cs =>
    do d, s <~ with_heap (h_alloc_dict []) s;
    do _u, s <~ run_clauses eval_clause cs
      (λ s, do kv, s <~ ev k s; do vv, s <~ ev v s; at_span (span k) (compr_insert d kv vv) s) s;
    ret d s
  end
with eval_clause (c : ClauseCompiled V TC D) (term : St V H → option (out ())) s {struct c} :
    option (out ()) :=
  let ev (e : Expr) s := eval (span e) (node e) s in
  match c with
  | Clause var over ifs =>
    do o, s <~ ev over s;
    for_loop (span over) o (λ _ x s, do _u, s <~ assign (span var) (node var) x s; run_ifs ev term ifs s) s
  end
with assign sp (a : AssignCompiledValue V TC D) (v : V) s {struct a} : option (out ()) :=
  let ev (e : Expr) s := eval (span e) (node e) s in
  match a with
  | AssignDot object field => do o, s <~ ev object s; at_span sp (set_attr o field v) s
  | AssignIndex array index => do a, s <~ ev array s; do i, s <~ ev index s; at_span sp (set_at a i v) s
  | AssignTuple xs =>
    do vs, s <~ at_span sp (unpack (length xs) v) s; assign_list (λ x, assign (span x) (node x)) xs vs s
  | AssignLocal x => set_local x v s
  | AssignLocalCaptured x => set_captured sp x v s
  | AssignModule slot name =>
    do _u, s <~ at_span sp (export_as v name) s; ret () (mkSt (st_locals s) (set_slot_module slot v (st_heap s)))
  end.

(** * Statements *)

Definition modify (lhs : AssignModifyLhs V TC D) (op : AssignOp) sp (rhs : Expr) s : option (out ()) :=
  let ev (e : Expr) s := eval (span e) (node e) s in
  match lhs with
  | ModifyDot object field =>
    do o, s <~ ev object s;
    do l, s <~ at_span sp (get_attr_hashed_bind o field) s;
    do r, s <~ ev rhs s;
    do v, s <~ at_span sp (assign_op op l r) s;
    at_span sp (set_attr o field v) s
  | ModifyArray array index =>
    do a, s <~ ev array s;
    do i, s <~ ev index s;
    do l, s <~ at_span sp (v_at a i) s;
    do r, s <~ ev rhs s;
    do v, s <~ at_span sp (assign_op op l r) s;
    at_span sp (set_at a i v) s
  | ModifyLocal x =>
    do l, s <~ get_local sp (node x) s;
    do r, s <~ ev rhs s;
    do v, s <~ at_span sp (assign_op op l r) s;
    set_local (node x) v s
  | ModifyLocalCaptured x =>
    do l, s <~ get_captured sp (node x) s;
    do r, s <~ ev rhs s;
    do v, s <~ at_span sp (assign_op op l r) s;
    set_captured sp (node x) v s
  | ModifyModule x =>
    do l, s <~ at_span sp (get_slot_module (node x)) s;
    do r, s <~ ev rhs s;
    do v, s <~ at_span sp (assign_op op l r) s;
    ret () (mkSt (st_locals s) (set_slot_module (node x) v (st_heap s)))
  end.

Variable has_return_type : bool.

(** The iterators of the loops around, outermost first, are stopped before the value that is
    returned is computed. *)
Definition stop_iterators (its : list V) s : St V H :=
  mkSt (st_locals s) (fold_left (λ h it, iter_stop it h) (reverse its) (st_heap s)).
Definition return_value sp (v : V) s : option (out Flow) :=
  if has_return_type
  then do _u, s <~ at_span sp (check_return_type v) s; Some (Exits (Returned v (st_heap s)))
  else Some (Exits (Returned v (st_heap s))).
Definition collect_garbage s : St V H :=
  let '(f, h) := possible_gc (st_heap s) in mkSt (map (fmap f) (st_locals s)) h.

Fixpoint exec (its : list V) sp (c : StmtCompiled V TC D) s {struct c} : option (out Flow) :=
  let ev (e : Expr) s := eval (span e) (node e) s in
  let block its := exec_list (λ c, exec its (span c) (node c)) in
  match c with
  | PossibleGc => ret FlowNext (collect_garbage s)
  | Return e => do v, s <~ ev e (stop_iterators its s); return_value sp v s
  | StmtExpr e => do _v, s <~ ev e s; ret FlowNext s
  | Assign lhs ty rhs =>
    do v, s <~ ev rhs s;
    do _u, s <~ match ty with Some ty => at_span (span ty) (check_type (node ty) v) s | None => ret () s end;
    do _u, s <~ assign (span lhs) (node lhs) v s;
    ret FlowNext s
  | AssignModify lhs op rhs => do _u, s <~ modify lhs op sp rhs s; ret FlowNext s
  | StmtIf cond t f =>
    do c, s <~ ev cond s; if to_bool c (st_heap s) then block its t s else block its f s
  | For var over body =>
    do o, s <~ ev over s;
    do _u, s <~ for_loop sp o
      (λ it x s, do _u, s <~ assign (span var) (node var) x s; block (its ++ [it]) body s) s;
    ret FlowNext s
  | Break => ret FlowBreak s
  | Continue => ret FlowContinue s
  end.

(** The body of a function or of a module.  [break] and [continue] are within loops. *)
Definition exec_body (c : list (Spanned (StmtCompiled V TC D))) s : option (Outcome V H E) :=
  let fall_through : St V H → option (out Flow) :=
    return_value (match last c with Some c => end_span (span c) | None => Span_default end) new_none in
  match obind (exec_list (λ c, exec [] (span c) (node c)) c s)
          (λ flow s, match flow with FlowNext => fall_through s | _ => Some (Exits (Faulted Panicked)) end) with
  | Some (Exits o) => Some o
  | Some (Done _ _) => None
  | None => None
  end.
End eval.
