(* ===== verification/BcInstr.v ===== *)
(** [eval/bc]: the instructions ([instr_impl.rs], [instr.rs]), their addresses ([addr.rs]), the frame
    that they work on ([frame.rs], [stack_ptr.rs], [for_loop.rs]), the arguments of calls
    ([call.rs]) and the interpreter ([bytecode.rs]).  Slots are read and written without checks: a slot that
    is not initialised or not in the frame is undefined behaviour.  Instructions of
    the source that are instances of one generic type are one constructor here. *)

From S2P Require Import Prelude Hashing TableMap FastString Symbol CodeMap.
From S2P Require Import DefParams OrdMap ParamSpec Def Ir World IrEval.

(** * Computations of one instruction *)

(** A result, and the state that it leaves. *)
Definition run (S E A : Type) : Type := S → result E A * S.
#[global] Instance run_ret {S E} : MRet (run S E) := λ A a s, (Ok a, s).
#[global] Instance run_bind {S E} : MBind (run S E) := λ A B k m s,
  match m s with
  | (Ok a, s) => k a s
  | (Err e, s) => (Err e, s)
  | (Fault f, s) => (Fault f, s)
  end.
Definition run_result {S E A} (r : result E A) : run S E A := λ s, (r, s).

(** * Addresses and slots *)

Abbreviation BcAddr := N.
Abbreviation BcAddrOffset := N.
Definition FORWARD : BcAddrOffset := 0xdeadbeef%N.
Definition BC_INSTR_ALIGN : N := 8%N.

Record BcSlotInRange := mkRange { range_start : nat; range_end : nat }.
Definition range_default : BcSlotInRange := mkRange 0 0.
Definition range_len (r : BcSlotInRange) : nat := range_end r - range_start r.
Definition try_push (r : BcSlotInRange) (slot : nat) : bool * BcSlotInRange :=
  if range_len r =? 0 then (true, mkRange slot (slot + 1))
  else if range_end r =? slot then (true, mkRange (range_start r) (slot + 1))
  else (false, r).
(** [BcSlotInRangeFrom::to_range]. *)
Definition to_range (start len : nat) : BcSlotInRange := mkRange start (start + len).

(** [BcInstrSlowArg]. *)
Record BcInstrSlowArg := mkSlowArg { sa_span : Span; sa_spans : list Span }.

(** [BcCallArgsPos] and [BcCallArgsFull]. *)
Inductive BcCallArgs (S : Type) :=
| ArgsPos (pos : BcSlotInRange)
| ArgsFull (pos_named : BcSlotInRange) (names : list (S * StarlarkStr)) (args kwargs : option nat).
Arguments ArgsPos {S}. Arguments ArgsFull {S}.

(** * Instructions *)

(** The operators [I] of [InstrBinOp<I>] and [InstrUnOp<I>]. *)
Inductive InstrBinOpImpl :=
| EqImpl | AddImpl | AddAssignImpl | SubImpl | MultiplyImpl | PercentImpl | DivideImpl
| FloorDivideImpl | BitAndImpl | BitOrImpl | BitOrAssignImpl | BitXorImpl | LeftShiftImpl
| RightShiftImpl | InImpl | LessImpl | GreaterImpl | LessOrEqualImpl | GreaterOrEqualImpl.
Inductive InstrUnOpImpl := NotImpl | PlusImpl | MinusImpl | BitNotImpl | TypeImpl | LenImpl.

Section instr.
Context {V TC D KM : Type}.

Inductive Instr :=
| InstrConst (constant : V) (target : nat)
| InstrLoadLocal (source target : nat)
| InstrLoadLocalCaptured (source target : nat)
| InstrLoadModule (source target : nat)
| InstrMov (source target : nat)
| InstrStoreLocalCaptured (source target : nat)
| InstrStoreModuleAndExport (source slot : nat) (name : list byte)
| InstrStoreModule (source target : nat)
| InstrUnpack (source : nat) (target : list nat)
| InstrArrayIndex (array index target : nat)
| InstrSetArrayIndex (source array index : nat)
| InstrArrayIndexSet (array index source : nat)
| InstrObjectField (object : nat) (field : list byte) (target : nat)
| InstrSetObjectField (source object : nat) (field : list byte)
| InstrSlice (l : nat) (start stop step : option nat) (target : nat)
| InstrArrayIndex2 (array index0 index1 target : nat)
| InstrEqConst (a : nat) (b : V) (target : nat)
| InstrEqPtr (a : nat) (b : V) (target : nat)
| InstrEqInt (a : nat) (b : V) (target : nat)
| InstrEqStr (a : nat) (b : V) (target : nat)
| InstrBinOp (op : InstrBinOpImpl) (v0 v1 target : nat)
| InstrUnOp (op : InstrUnOpImpl) (source target : nat)
| InstrPercentSOne (before : list byte) (arg : nat) (after : list byte) (target : nat)
| InstrFormatOne (before : list byte) (arg : nat) (after : list byte) (target : nat)
| InstrTypeIs (arg : nat) (t : list byte) (target : nat)
| InstrIsInstance (arg : nat) (t : TC) (target : nat)
| InstrTupleNPop (values : BcSlotInRange) (target : nat)
| InstrListNPop (values : BcSlotInRange) (target : nat)
| InstrListOfConsts (values : list V) (target : nat)
| InstrDictOfConsts (values : list (Hashed V * V)) (target : nat)
| InstrDictConstKeys (keys : list (Hashed V)) (values : nat) (target : nat)
| InstrDictNPop (npops : BcSlotInRange) (target : nat)
| InstrListNew (target : nat)
| InstrDictNew (target : nat)
| InstrComprListAppend (l item : nat)
| InstrComprDictInsert (dict key value : nat)
| InstrCheckType (expr : nat) (ty : TC)
| InstrBr (target : BcAddrOffset)
| InstrIfBr (cond : nat) (target : BcAddrOffset)
| InstrIfNotBr (cond : nat) (target : BcAddrOffset)
| InstrIter (over loop_depth iter var : nat) (end_ : BcAddrOffset)
| InstrContinue (iter loop_depth var : nat) (begin : N) (end_ : BcAddrOffset)
| InstrBreak (iter : nat) (end_ : BcAddrOffset)
| InstrIterStop (iter : nat)
| InstrReturnConst (value : V)
| InstrReturn (slot : nat)
| InstrReturnCheckType (slot : nat)
| InstrDef (pops : BcSlotInRange) (def_data : InstrDefData TC D) (target : nat)
| InstrCall (this : nat) (args : BcCallArgs (list byte)) (sp : Span) (target : nat)
| InstrCallFrozen (fun_ : V) (args : BcCallArgs (list byte)) (sp : Span) (target : nat)
| InstrCallFrozenNative (fun_ : V) (args : BcCallArgs (list byte)) (sp : Span) (target : nat)
| InstrCallFrozenDef (fun_ : V) (args : BcCallArgs ResolvedArgName) (sp : Span) (target : nat)
| InstrCallMethod (this : nat) (symbol : list byte) (args : BcCallArgs (list byte)) (sp : Span) (target : nat)
| InstrCallMaybeKnownMethod (this : nat) (symbol : list byte) (known_method : KM)
    (args : BcCallArgs (list byte)) (sp : Span) (target : nat)
| InstrPossibleGc
| InstrEnd (end_addr : BcAddr) (slow_args : list (BcAddr * BcInstrSlowArg)).

(** The argument that [patch_addr] writes. *)
Definition jump_offset (i : Instr) : option BcAddrOffset :=
  match i with
  | InstrBr o | InstrIfBr _ o | InstrIfNotBr _ o | InstrIter _ _ _ _ o | InstrContinue _ _ _ _ o
  | InstrBreak _ o => Some o
  | _ => None
  end.
Definition set_jump_offset (o : BcAddrOffset) (i : Instr) : Instr :=
  match i with
  | InstrBr _ => InstrBr o
  | InstrIfBr c _ => InstrIfBr c o
  | InstrIfNotBr c _ => InstrIfNotBr c o
  | InstrIter a b c d _ => InstrIter a b c d o
  | InstrContinue a b c d _ => InstrContinue a b c d o
  | InstrBreak a _ => InstrBreak a o
  | i => i
  end.
End instr.
Arguments Instr : clear implicits.

(** The size of an instruction in bytes, [mem::size_of::<BcInstrRepr<I>>()]: a property of its type,
    so it does not depend on what a jump is patched to, and a multiple of the alignment. *)
Class InstrLayout (V TC D KM : Type) := {
  size_of_repr : Instr V TC D KM → N;
  size_of_repr_pos i : (0 < size_of_repr i)%N;
  size_of_repr_align i : (size_of_repr i mod BC_INSTR_ALIGN = 0)%N;
  size_of_repr_patch o i : size_of_repr (set_jump_offset o i) = size_of_repr i;
}.

(** * The frame *)

Record BcFrame (V : Type) := mkFrame {
  fr_local_count : nat;
  fr_slots : list (option V);
  (** Indices of the loops, of which those that have not started are not initialised. *)
  fr_iter_index : list (option nat);
}.
Arguments mkFrame {V}. Arguments fr_local_count {V}. Arguments fr_slots {V}. Arguments fr_iter_index {V}.

Section machine.
Context `{W : World V H E TC D KM MB} `{!InstrLayout V TC D KM}.
Local Abbreviation Instr := (Instr V TC D KM).
Local Abbreviation Frame := (BcFrame V).
Local Abbreviation I A := (run (Frame * H) E A).

Definition heap_op {A} (o : Op H E A) : I A := λ '(fr, h), let '(r, h) := o h in (r, (fr, h)).
Definition heap_run {A} (o : H → A * H) : I A := λ '(fr, h), let '(a, h) := o h in (Ok a, (fr, h)).
Definition heap_set (f : H → H) : I () := λ '(fr, h), (Ok (), (fr, f h)).
Definition heap_get {A} (f : H → A) : I A := λ '(fr, h), (Ok (f h), (fr, h)).

Definition get_bc_slot (slot : nat) : I V := λ '(fr, h),
  match fr_slots fr !! slot with Some (Some v) => (Ok v, (fr, h)) | _ => (UB, (fr, h)) end.
Definition set_bc_slot (slot : nat) (v : V) : I () := λ '(fr, h),
  if slot <? length (fr_slots fr)
  then (Ok (), (mkFrame (fr_local_count fr) (<[slot := Some v]> (fr_slots fr)) (fr_iter_index fr), h))
  else (UB, (fr, h)).
Fixpoint get_slots (l : list nat) : I (list V) :=
  match l with [] => mret [] | x :: l => v ← get_bc_slot x; vs ← get_slots l; mret (v :: vs) end.
Definition get_bc_slot_range (r : BcSlotInRange) : I (list V) := get_slots (seq (range_start r) (range_len r)).
Definition get_slot_option (o : option nat) : I (option V) :=
  match o with None => mret None | Some slot => v ← get_bc_slot slot; mret (Some v) end.
Definition fr_get_slot (slot : nat) : I (option V) := λ '(fr, h),
  match fr_slots fr !! slot with
  | Some o => if slot <? fr_local_count fr then (Ok o, (fr, h)) else (UB, (fr, h))
  | None => (UB, (fr, h))
  end.
Definition set_iter_index (depth i : nat) : I () := λ '(fr, h),
  if depth <? length (fr_iter_index fr)
  then (Ok (), (mkFrame (fr_local_count fr) (fr_slots fr) (<[depth := Some i]> (fr_iter_index fr)), h))
  else (UB, (fr, h)).
Definition get_iter_index (depth : nat) : I nat := λ '(fr, h),
  match fr_iter_index fr !! depth with Some (Some i) => (Ok i, (fr, h)) | _ => (UB, (fr, h)) end.
(** The local slots, for what works on all of them. *)
Definition with_locals {A} (o : list (option V) → Op H E (A * list (option V))) : I A := λ '(fr, h),
  match o (take (fr_local_count fr) (fr_slots fr)) h with
  | (Ok (a, locals), h) =>
    (Ok a, (mkFrame (fr_local_count fr) (locals ++ drop (fr_local_count fr) (fr_slots fr)) (fr_iter_index fr), h))
  | (Err e, h) => (Err e, (fr, h))
  | (Fault f, h) => (Fault f, (fr, h))
  end.

(** ** Variables, [runtime/evaluator.rs] *)

Definition local_error {A} (slot : nat) : I A := λ '(fr, h),
  (Err (local_var_referenced_before_assignment slot h), (fr, h)).
Definition get_slot_local (slot : nat) : I V :=
  o ← fr_get_slot slot; match o with Some v => mret v | None => local_error slot end.
Definition get_slot_local_captured (slot : nat) : I V :=
  c ← get_slot_local slot;
  o ← heap_get (value_captured_get c);
  match o with Some v => mret v | None => local_error slot end.
Definition set_slot_local_captured (slot : nat) (v : V) : I () :=
  o ← fr_get_slot slot;
  match o with
  | Some c => heap_op (value_captured_set c v)
  | None => c ← heap_run (alloc_value_captured v); set_bc_slot slot c
  end.

(** ** Instructions that go on to the following one *)

Definition bin_op_eval (op : InstrBinOpImpl) (v0 v1 : V) : Op H E V :=
  let compare (f : comparison → bool) : Op H E V := λ h,
    let '(c, h) := v_compare v0 v1 h in ((λ c, new_bool (f c)) <$> c, h) in
  match op with
  | EqImpl => op_bool (v_equals v0 v1)
  | AddImpl => v_add v0 v1
  | AddAssignImpl => add_assign v0 v1
  | SubImpl => v_sub v0 v1
  | MultiplyImpl => v_mul v0 v1
  | PercentImpl => v_percent v0 v1
  | DivideImpl => v_div v0 v1
  | FloorDivideImpl => v_floor_div v0 v1
  | BitAndImpl => bit_and v0 v1
  | BitOrImpl => bit_or v0 v1
  | BitOrAssignImpl => bit_or_assign v0 v1
  | BitXorImpl => bit_xor v0 v1
  | LeftShiftImpl => left_shift v0 v1
  | RightShiftImpl => right_shift v0 v1
  | InImpl => op_bool (is_in v1 v0)
  | LessImpl => compare (λ c, match c with Lt => true | _ => false end)
  | GreaterImpl => compare (λ c, match c with Gt => true | _ => false end)
  | LessOrEqualImpl => compare (λ c, match c with Gt => false | _ => true end)
  | GreaterOrEqualImpl => compare (λ c, match c with Lt => false | _ => true end)
  end.
Definition un_op_eval (op : InstrUnOpImpl) (v : V) : Op H E V :=
  match op with
  | NotImpl => λ h, (Ok (new_bool (negb (to_bool v h))), h)
  | PlusImpl => v_plus v
  | MinusImpl => v_minus v
  | BitNotImpl => bit_not v
  | TypeImpl => λ h, (Ok (frozen_str (get_type_value v)), h)
  | LenImpl => len_op v
  end.

(** The loop of [InstrUnpack]. *)
Fixpoint unpack_loop (it : V) (target : list nat) (i : nat) : I () :=
  o ← heap_run (iter_next it i);
  match o with
  | Some item =>
    match target with
    | [] => run_result Panic
    | slot :: target => _ ← set_bc_slot slot item; unpack_loop it target (i + 1)
    end
  | None => _ ← heap_set (iter_stop it); run_result (assert (length target =? 0))
  end.

(** The loop of [InstrDictNPop]; [spans] is looked up if there is an error. *)
Definition error_at (spans : result E (list Span)) (i : nat) (e : E) {A} : I A := λ '(fr, h),
  (match spans with
   | Ok l => match l !! i with Some sp => Err (add_span_to_expr_error e sp h) | None => Panic end
   | Err e => Err e
   | Fault f => Fault f
   end, (fr, h)).
Fixpoint dict_npop (spans : result E (list Span)) (items : list V) (i : nat) (dict : list (Hashed V * V)) :
    I (list (Hashed V * V)) :=
  match items with
  | k :: v :: items =>
    match get_hashed k with
    | Ok hk =>
      match insert_entry dict (mkHashed hk k) v with
      | (Some _, _) => error_at spans i (duplicate_key_error k)
      | (None, dict) => dict_npop spans items (i + 1) dict
      end
    | Err e => error_at spans i e
    | Fault f => run_result (Fault f)
    end
  | _ => mret dict
  end.
(** The loop of [InstrDictConstKeys]. *)
Fixpoint const_keys (l : list (Hashed V * V)) (dict : list (Hashed V * V)) : I (list (Hashed V * V)) :=
  match l with
  | [] => mret dict
  | (k, v) :: l =>
    let '(prev, dict) := insert_entry dict k v in
    _ ← run_result (assert (match prev with None => true | Some _ => false end)); const_keys l dict
  end.

(** [pop_from_stack]. *)
Definition pop_from_stack {S} (a : BcCallArgs S) : I (ArgumentsFull S V) :=
  match a with
  | ArgsPos pos => vs ← get_bc_slot_range pos; mret (ArgumentsPos vs)
  | ArgsFull pos_named names args kwargs =>
    vs ← get_bc_slot_range pos_named;
    _ ← run_result (assert (length names <=? length vs));
    args ← get_slot_option args;
    kwargs ← get_slot_option kwargs;
    mret (mkArguments (take (length vs - length names) vs) (drop (length vs - length names) vs) names args kwargs)
  end.
(** [resolve]. *)
Definition bc_resolve (f : V) (a : BcCallArgs (list byte)) : BcCallArgs ResolvedArgName :=
  match a with
  | ArgsPos pos => ArgsPos pos
  | ArgsFull pos_named names args kwargs =>
    ArgsFull pos_named (map (λ '(name, value), (resolve_arg_name f name, value)) names) args kwargs
  end.

(** [run_with_args] of the instructions without control flow; the others are in [run_instr]. *)
Definition run_InstrConst (constant : V) (target : nat) : I () := set_bc_slot target constant.
Definition run_InstrLoadLocal (source target : nat) : I () :=
  v ← get_slot_local source; set_bc_slot target v.
Definition run_InstrLoadLocalCaptured (source target : nat) : I () :=
  v ← get_slot_local_captured source; set_bc_slot target v.
Definition run_InstrLoadModule (source target : nat) : I () :=
  v ← heap_op (get_slot_module source); set_bc_slot target v.
Definition run_InstrMov (source target : nat) : I () := v ← get_bc_slot source; set_bc_slot target v.
Definition run_InstrStoreLocalCaptured (source target : nat) : I () :=
  v ← get_bc_slot source; set_slot_local_captured target v.
Definition run_InstrStoreModuleAndExport (source slot : nat) (name : list byte) : I () :=
  v ← get_bc_slot source; _ ← heap_op (export_as v name); heap_set (set_slot_module slot v).
Definition run_InstrStoreModule (source target : nat) : I () :=
  v ← get_bc_slot source; heap_set (set_slot_module target v).
Definition run_InstrUnpack (source : nat) (target : list nat) : I () :=
  v ← get_bc_slot source;
  nvl ← heap_op (v_length v);
  if negb (nvl =? as_i32 (Z.of_nat (length target)))%Z
  then run_result (Err (unpack_count_error (length target) nvl))
  else it ← heap_op (v_iterate v); unpack_loop it target 0.
Definition run_InstrArrayIndex (array index target : nat) : I () :=
  a ← get_bc_slot array; i ← get_bc_slot index; v ← heap_op (v_at a i); set_bc_slot target v.
Definition run_InstrSetArrayIndex (source array index : nat) : I () :=
  v ← get_bc_slot source; a ← get_bc_slot array; i ← get_bc_slot index; heap_op (set_at a i v).
Definition run_InstrArrayIndexSet (array index source : nat) : I () :=
  v ← get_bc_slot source; a ← get_bc_slot array; i ← get_bc_slot index; heap_op (set_at a i v).
Definition run_InstrObjectField (object : nat) (field : list byte) (target : nat) : I () :=
  o ← get_bc_slot object; v ← heap_op (get_attr_hashed_bind o field); set_bc_slot target v.
Definition run_InstrSetObjectField (source object : nat) (field : list byte) : I () :=
  v ← get_bc_slot source; o ← get_bc_slot object; heap_op (set_attr o field v).
Definition run_InstrSlice (l : nat) (start stop step : option nat) (target : nat) : I () :=
  l ← get_bc_slot l; start ← get_slot_option start; stop ← get_slot_option stop;
  step ← get_slot_option step; v ← heap_op (v_slice l start stop step); set_bc_slot target v.
Definition run_InstrArrayIndex2 (array index0 index1 target : nat) : I () :=
  a ← get_bc_slot array; i0 ← get_bc_slot index0; i1 ← get_bc_slot index1;
  v ← heap_op (v_at2 a i0 i1); set_bc_slot target v.
Definition run_InstrEqConst (a : nat) (b : V) (target : nat) : I () :=
  a ← get_bc_slot a; r ← heap_op (v_equals b a); set_bc_slot target (new_bool r).
Definition run_InstrEqPtr (a : nat) (b : V) (target : nat) : I () :=
  a ← get_bc_slot a; set_bc_slot target (new_bool (ptr_eq a b)).
Definition run_InstrEqInt (a : nat) (b : V) (target : nat) : I () :=
  a ← get_bc_slot a;
  r ← match unpack_int_value a, unpack_int_value b with
    | Some x, Some y => mret (x =? y)%Z
    | _, _ => heap_op (v_equals b a)
    end;
  set_bc_slot target (new_bool r).
Definition run_InstrEqStr (a : nat) (b : V) (target : nat) : I () :=
  a ← get_bc_slot a;
  let r := match as_frozen_str a with Some _ => bool_decide (as_frozen_str a = as_frozen_str b) | None => false end in
  set_bc_slot target (new_bool r).
Definition run_InstrBinOp (op : InstrBinOpImpl) (v0 v1 target : nat) : I () :=
  a ← get_bc_slot v0; b ← get_bc_slot v1; v ← heap_op (bin_op_eval op a b); set_bc_slot target v.
Definition run_InstrUnOp (op : InstrUnOpImpl) (source target : nat) : I () :=
  v ← get_bc_slot source; r ← heap_op (un_op_eval op v); set_bc_slot target r.
Definition run_InstrPercentSOne (before : list byte) (arg : nat) (after : list byte) (target : nat) : I () :=
  v ← get_bc_slot arg; r ← heap_op (percent_s_one before v after); set_bc_slot target r.
Definition run_InstrFormatOne (before : list byte) (arg : nat) (after : list byte) (target : nat) : I () :=
  v ← get_bc_slot arg; r ← heap_run (format_one before v after); set_bc_slot target r.
Definition run_InstrTypeIs (arg : nat) (t : list byte) (target : nat) : I () :=
  v ← get_bc_slot arg; set_bc_slot target (new_bool (bool_decide (get_type_value v = t))).
Definition run_InstrIsInstance (arg : nat) (t : TC) (target : nat) : I () :=
  v ← get_bc_slot arg; r ← heap_get (type_matches t v); set_bc_slot target (new_bool r).
Definition run_InstrTupleNPop (values : BcSlotInRange) (target : nat) : I () :=
  vs ← get_bc_slot_range values; v ← heap_run (h_alloc_tuple vs); set_bc_slot target v.
Definition run_InstrListNPop (values : BcSlotInRange) (target : nat) : I () :=
  vs ← get_bc_slot_range values; v ← heap_run (h_alloc_list vs); set_bc_slot target v.
Definition run_InstrListOfConsts (values : list V) (target : nat) : I () :=
  v ← heap_run (h_alloc_list values); set_bc_slot target v.
Definition run_InstrDictOfConsts (values : list (Hashed V * V)) (target : nat) : I () :=
  v ← heap_run (h_alloc_dict values); set_bc_slot target v.
Definition run_InstrDictConstKeys (keys : list (Hashed V)) (values target : nat) : I () :=
  vs ← get_bc_slot_range (to_range values (length keys));
  dict ← const_keys (zip keys vs) []; v ← heap_run (h_alloc_dict dict); set_bc_slot target v.
Definition run_InstrDictNPop (spans : result E (list Span)) (npops : BcSlotInRange) (target : nat) : I () :=
  items ← get_bc_slot_range npops;
  _ ← run_result (assert (Nat.even (length items)));
  dict ← dict_npop spans items 0 []; v ← heap_run (h_alloc_dict dict); set_bc_slot target v.
Definition run_InstrListNew (target : nat) : I () := v ← heap_run (h_alloc_list []); set_bc_slot target v.
Definition run_InstrDictNew (target : nat) : I () := v ← heap_run (h_alloc_dict []); set_bc_slot target v.
Definition run_InstrComprListAppend (l item : nat) : I () :=
  l ← get_bc_slot l; v ← get_bc_slot item; heap_op (list_push l v).
Definition run_InstrComprDictInsert (dict key value : nat) : I () :=
  d ← get_bc_slot dict; k ← get_bc_slot key; v ← get_bc_slot value;
  hk ← run_result (get_hashed k); heap_op (dict_insert_hashed d (mkHashed hk k) v).
Definition run_InstrCheckType (expr : nat) (ty : TC) : I () :=
  v ← get_bc_slot expr; heap_op (check_type ty v).
Definition run_InstrDef (pops : BcSlotInRange) (def_data : InstrDefData TC D) (target : nat) : I () :=
  vs ← get_bc_slot_range pops; v ← with_locals (instr_def def_data vs); set_bc_slot target v.
Definition run_InstrCall (this : nat) (args : BcCallArgs (list byte)) (sp : Span) (target : nat) : I () :=
  f ← get_bc_slot this; a ← pop_from_stack args; v ← heap_op (invoke_with_loc f sp a); set_bc_slot target v.
Definition run_InstrCallFrozen (f : V) (args : BcCallArgs (list byte)) (sp : Span) (target : nat) : I () :=
  a ← pop_from_stack args; v ← heap_op (invoke_with_loc f sp a); set_bc_slot target v.
Definition run_InstrCallFrozenNative (f : V) (args : BcCallArgs (list byte)) (sp : Span) (target : nat) : I () :=
  a ← pop_from_stack args; v ← heap_op (invoke_native f sp a); set_bc_slot target v.
Definition run_InstrCallFrozenDef (f : V) (args : BcCallArgs ResolvedArgName) (sp : Span) (target : nat) : I () :=
  a ← pop_from_stack args; v ← heap_op (invoke_frozen_def f sp a); set_bc_slot target v.
Definition run_InstrCallMethod (this : nat) (symbol : list byte) (args : BcCallArgs (list byte))
   (sp : Span) (target : nat) : I () :=
  this ← get_bc_slot this; a ← pop_from_stack args;
  v ← heap_op (call_method this symbol a sp); set_bc_slot target v.
Definition run_InstrCallMaybeKnownMethod (this : nat) (symbol : list byte) (known_method : KM)
   (args : BcCallArgs (list byte)) (sp : Span) (target : nat) : I () :=
  this ← get_bc_slot this; a ← pop_from_stack args;
  v ← heap_op (if known_method_is known_method this then known_method_invoke known_method this sp a
             else call_method this symbol a sp);
  set_bc_slot target v.
Definition run_InstrPossibleGc : I () :=
  f ← heap_run possible_gc;
  with_locals (λ locals h, (Ok ((), map (fmap f) locals), h)).
Definition run_with_args (spans : result E (list Span)) (i : Instr) : I () :=
  match i with
  | InstrConst constant target => run_InstrConst constant target
  | InstrLoadLocal source target => run_InstrLoadLocal source target
  | InstrLoadLocalCaptured source target => run_InstrLoadLocalCaptured source target
  | InstrLoadModule source target => run_InstrLoadModule source target
  | InstrMov source target => run_InstrMov source target
  | InstrStoreLocalCaptured source target => run_InstrStoreLocalCaptured source target
  | InstrStoreModuleAndExport source slot name => run_InstrStoreModuleAndExport source slot name
  | InstrStoreModule source target => run_InstrStoreModule source target
  | InstrUnpack source target => run_InstrUnpack source target
  | InstrArrayIndex array index target => run_InstrArrayIndex array index target
  | InstrSetArrayIndex source array index => run_InstrSetArrayIndex source array index
  | InstrArrayIndexSet array index source => run_InstrArrayIndexSet array index source
  | InstrObjectField object field target => run_InstrObjectField object field target
  | InstrSetObjectField source object field => run_InstrSetObjectField source object field
  | InstrSlice l start stop step target => run_InstrSlice l start stop step target
  | InstrArrayIndex2 array index0 index1 target => run_InstrArrayIndex2 array index0 index1 target
  | InstrEqConst a b target => run_InstrEqConst a b target
  | InstrEqPtr a b target => run_InstrEqPtr a b target
  | InstrEqInt a b target => run_InstrEqInt a b target
  | InstrEqStr a b target => run_InstrEqStr a b target
  | InstrBinOp op v0 v1 target => run_InstrBinOp op v0 v1 target
  | InstrUnOp op source target => run_InstrUnOp op source target
  | InstrPercentSOne before arg after target => run_InstrPercentSOne before arg after target
  | InstrFormatOne before arg after target => run_InstrFormatOne before arg after target
  | InstrTypeIs arg t target => run_InstrTypeIs arg t target
  | InstrIsInstance arg t target => run_InstrIsInstance arg t target
  | InstrTupleNPop values target => run_InstrTupleNPop values target
  | InstrListNPop values target => run_InstrListNPop values target
  | InstrListOfConsts values target => run_InstrListOfConsts values target
  | InstrDictOfConsts values target => run_InstrDictOfConsts values target
  | InstrDictConstKeys keys values target => run_InstrDictConstKeys keys values target
  | InstrDictNPop npops target => run_InstrDictNPop spans npops target
  | InstrListNew target => run_InstrListNew target
  | InstrDictNew target => run_InstrDictNew target
  | InstrComprListAppend l item => run_InstrComprListAppend l item
  | InstrComprDictInsert dict key value => run_InstrComprDictInsert dict key value
  | InstrCheckType expr ty => run_InstrCheckType expr ty
  | InstrDef pops def_data target => run_InstrDef pops def_data target
  | InstrCall this args sp target => run_InstrCall this args sp target
  | InstrCallFrozen f args sp target => run_InstrCallFrozen f args sp target
  | InstrCallFrozenNative f args sp target => run_InstrCallFrozenNative f args sp target
  | InstrCallFrozenDef f args sp target => run_InstrCallFrozenDef f args sp target
  | InstrCallMethod this symbol args sp target => run_InstrCallMethod this symbol args sp target
  | InstrCallMaybeKnownMethod this symbol known_method args sp target =>
    run_InstrCallMaybeKnownMethod this symbol known_method args sp target
  | InstrPossibleGc => run_InstrPossibleGc
  | _ => run_result Panic
  end.

(** * The interpreter *)

Inductive InstrControl := Goto (ip : BcAddr) | ReturnWith (v : V).

(** [run] of the instructions with control flow, at [ip]; [following] is the address after it. *)
Definition run_InstrBr (ip : BcAddr) (target : BcAddrOffset) : I InstrControl := mret (Goto (ip + target)%N).
Definition run_InstrIfBr (ip following : BcAddr) (cond : nat) (target : BcAddrOffset) : I InstrControl :=
  v ← get_bc_slot cond; b ← heap_get (to_bool v); mret (Goto (if b : bool then ip + target else following)%N).
Definition run_InstrIfNotBr (ip following : BcAddr) (cond : nat) (target : BcAddrOffset) : I InstrControl :=
  v ← get_bc_slot cond; b ← heap_get (to_bool v); mret (Goto (if negb b then ip + target else following)%N).
Definition run_InstrIter (ip following : BcAddr) (over loop_depth iter var : nat) (end_ : BcAddrOffset) :
    I InstrControl :=
  v ← get_bc_slot over;
  it ← heap_op (v_iterate v);
  o ← heap_run (iter_next it 0);
  match o with
  | Some next =>
    _ ← set_bc_slot iter it; _ ← set_bc_slot var next; _ ← set_iter_index loop_depth 1; mret (Goto following)
  | None => _ ← heap_set (iter_stop it); mret (Goto (ip + end_)%N)
  end.
Definition run_InstrContinue (ip : BcAddr) (iter loop_depth var : nat) (begin : N) (end_ : BcAddrOffset) :
    I InstrControl :=
  it ← get_bc_slot iter;
  i ← get_iter_index loop_depth;
  o ← heap_run (iter_next it i);
  match o with
  | Some next =>
    _ ← set_iter_index loop_depth (i + 1); _ ← set_bc_slot var next; mret (Goto (ip - begin)%N)
  | None => _ ← heap_set (iter_stop it); mret (Goto (ip + end_)%N)
  end.
Definition run_InstrBreak (ip : BcAddr) (iter : nat) (end_ : BcAddrOffset) : I InstrControl :=
  it ← get_bc_slot iter; _ ← heap_set (iter_stop it); mret (Goto (ip + end_)%N).
Definition run_InstrIterStop (following : BcAddr) (iter : nat) : I InstrControl :=
  it ← get_bc_slot iter; _ ← heap_set (iter_stop it); mret (Goto following).
Definition run_InstrReturn (slot : nat) : I InstrControl := v ← get_bc_slot slot; mret (ReturnWith v).
Definition run_InstrReturnCheckType (slot : nat) : I InstrControl :=
  v ← get_bc_slot slot; _ ← heap_op (check_return_type v); mret (ReturnWith v).

Definition run_instr (spans : result E (list Span)) (ip : BcAddr) (i : Instr) : I InstrControl :=
  let following : BcAddr := (ip + size_of_repr i)%N in
  match i with
  | InstrBr target => run_InstrBr ip target
  | InstrIfBr cond target => run_InstrIfBr ip following cond target
  | InstrIfNotBr cond target => run_InstrIfNotBr ip following cond target
  | InstrIter over loop_depth iter var end_ => run_InstrIter ip following over loop_depth iter var end_
  | InstrContinue iter loop_depth var begin end_ => run_InstrContinue ip iter loop_depth var begin end_
  | InstrBreak iter end_ => run_InstrBreak ip iter end_
  | InstrIterStop iter => run_InstrIterStop following iter
  | InstrReturnConst value => mret (ReturnWith value)
  | InstrReturn slot => run_InstrReturn slot
  | InstrReturnCheckType slot => run_InstrReturnCheckType slot
  | InstrEnd _ _ => run_result Panic
  | i => _ ← run_with_args spans i; mret (Goto following)
  end.

(** The instructions from an address. *)
Fixpoint code_from (c : list Instr) (a : BcAddr) : option (list Instr) :=
  if (a =? 0)%N then Some c else
  match c with
  | [] => None
  | i :: c => if (a <? size_of_repr i)%N then None else code_from c (a - size_of_repr i)%N
  end.
Definition get_instr (c : list Instr) (a : BcAddr) : option Instr :=
  match code_from c a with Some (i :: _) => Some i | _ => None end.

(** [slow_arg_at_ptr]: forward from [ptr] to the end, whose argument has the table. *)
Fixpoint find_slow_arg (c : list Instr) (addr_ptr ptr : BcAddr) : result E BcInstrSlowArg :=
  match c with
  | [] => UB
  | InstrEnd end_addr slow_args :: _ =>
    let addr := (addr_ptr - (ptr - end_addr))%N in
    match list_find (λ x : BcAddr * BcInstrSlowArg, x.1 = addr) slow_args with
    | Some (_, (_, a)) => Ok a
    | None => Panic
    end
  | i :: c => find_slow_arg c addr_ptr (ptr + size_of_repr i)%N
  end.
Definition slow_arg_at_ptr (c : list Instr) (ip : BcAddr) : result E BcInstrSlowArg :=
  match code_from c ip with Some c => find_slow_arg c ip ip | None => UB end.

Record Mach := mkMach { m_ip : BcAddr; m_frame : Frame; m_heap : H }.

(** [step], with what [run_block] does with its result. *)
Definition step (c : list Instr) (m : Mach) : Mach + Outcome V H E :=
  match get_instr c (m_ip m) with
  | None => inr (Faulted UndefinedBehaviour)
  | Some i =>
    match run_instr (sa_spans <$> slow_arg_at_ptr c (m_ip m)) (m_ip m) i (m_frame m, m_heap m) with
    | (Ok (Goto ip), (fr, h)) => inl (mkMach ip fr h)
    | (Ok (ReturnWith v), (_, h)) => inr (Returned v h)
    | (Err e, (_, h)) =>
      match slow_arg_at_ptr c (m_ip m) with
      | Ok a => inr (Raised (add_span_to_expr_error e (sa_span a) h) h)
      | Err _ => inr (Faulted Panicked)
      | Fault f => inr (Faulted f)
      end
    | (Fault f, _) => inr (Faulted f)
    end
  end.

(** [k] steps of [run_block]. *)
Fixpoint run_block (c : list Instr) (k : nat) (m : Mach) : Mach + Outcome V H E :=
  match k with
  | O => inl m
  | S k => match step c m with inl m => run_block c k m | inr o => inr o end
  end.
End machine.
