(* ===== verification/BcWriter.v ===== *)
(** [eval/bc/writer.rs], [instrs.rs] and [definitely_assigned.rs]: writing bytecode.  The writer keeps
    the instructions written so far, which slots of the stack are in use, the local variables
    that are known to be assigned, and the loops that are open.  Addresses and counts are [u32];
    the panic of a function that is too big for them is kept apart from all
    others, as the error [CodeTooBig]. *)

From S2P Require Import Prelude Hashing TableMap FastString Symbol CodeMap.
From S2P Require Import DefParams OrdMap ParamSpec Def Ir World IrEval BcInstr.

Inductive CodeTooBig := TooBig.

(** [PatchAddr]: the instruction, which has one argument to patch. *)
Abbreviation PatchAddr := BcAddr.

Record BcWriterForLoop := mkForLoop {
  fl_iter : nat;
  fl_var : nat;
  fl_inner_addr : BcAddr;
  fl_end_addrs_to_patch : list PatchAddr;
}.
(** [BcStatementLocations]; [u32::MAX] marks an address where no statement starts. *)
Record BcStatementLocations := mkStmtLocs { sl_locs : list Span; sl_stmts : list Z }.

Section writer.
Context {V TC D KM : Type} `{!InstrLayout V TC D KM}.
Local Abbreviation Instr := (Instr V TC D KM).

Record BcWriter := mkWriter {
  w_instrs : list Instr;
  w_slow_args : list (BcAddr * BcInstrSlowArg);
  w_stmt_locs : BcStatementLocations;
  w_stack_size : nat;
  w_local_count : nat;
  w_definitely_assigned : list bool;
  w_max_stack_size : nat;
  w_for_loops : list BcWriterForLoop;
  w_max_loop_depth : nat;
}.
Local Abbreviation M A := (run BcWriter CodeTooBig A).
Implicit Types w : BcWriter.

Definition gets {A} (f : BcWriter → A) : M A := λ w, (Ok (f w), w).
Definition modify_w (f : BcWriter → BcWriter) : M () := λ w, (Ok (), f w).
Definition w_assert (b : bool) : M () := run_result (assert b).
(** A number that is stored in a [u32]. *)
Definition w_u32 (n : N) : M () :=
  run_result (if (Z.of_N n <=? u32_max)%Z then Ok () else Err TooBig).

Definition set_instrs (c : list Instr) w : BcWriter :=
  mkWriter c (w_slow_args w) (w_stmt_locs w) (w_stack_size w) (w_local_count w) (w_definitely_assigned w)
    (w_max_stack_size w) (w_for_loops w) (w_max_loop_depth w).
Definition set_slow_args (l : list (BcAddr * BcInstrSlowArg)) w : BcWriter :=
  mkWriter (w_instrs w) l (w_stmt_locs w) (w_stack_size w) (w_local_count w) (w_definitely_assigned w)
    (w_max_stack_size w) (w_for_loops w) (w_max_loop_depth w).
Definition set_stmt_locs (l : BcStatementLocations) w : BcWriter :=
  mkWriter (w_instrs w) (w_slow_args w) l (w_stack_size w) (w_local_count w) (w_definitely_assigned w)
    (w_max_stack_size w) (w_for_loops w) (w_max_loop_depth w).
Definition set_stack (n max : nat) w : BcWriter :=
  mkWriter (w_instrs w) (w_slow_args w) (w_stmt_locs w) n (w_local_count w) (w_definitely_assigned w)
    max (w_for_loops w) (w_max_loop_depth w).
Definition set_definitely_assigned (l : list bool) w : BcWriter :=
  mkWriter (w_instrs w) (w_slow_args w) (w_stmt_locs w) (w_stack_size w) (w_local_count w) l
    (w_max_stack_size w) (w_for_loops w) (w_max_loop_depth w).
Definition set_for_loops (l : list BcWriterForLoop) (max : nat) w : BcWriter :=
  mkWriter (w_instrs w) (w_slow_args w) (w_stmt_locs w) (w_stack_size w) (w_local_count w)
    (w_definitely_assigned w) (w_max_stack_size w) l max.

(** ** Instructions *)

Definition code_len (c : list Instr) : N := foldr (λ i n, (size_of_repr i + n)%N) 0%N c.
(** The current offset. *)
Definition ip : M BcAddr := a ← gets (λ w, code_len (w_instrs w)); _ ← w_u32 a; mret a.

Definition write_instr_ret_arg_explicit (slow_arg : BcInstrSlowArg) (i : Instr) : M BcAddr :=
  addr ← ip;
  _ ← modify_w (λ w, set_slow_args (w_slow_args w ++ [(addr, slow_arg)]) w);
  addr ← ip;
  _ ← modify_w (λ w, set_instrs (w_instrs w ++ [i]) w);
  mret addr.
Definition write_instr_ret_arg (sp : Span) (i : Instr) : M BcAddr :=
  write_instr_ret_arg_explicit (mkSlowArg sp []) i.
Definition write_instr_explicit (slow_arg : BcInstrSlowArg) (i : Instr) : M () :=
  _ ← write_instr_ret_arg_explicit slow_arg i; mret ().
Definition write_instr (sp : Span) (i : Instr) : M () := write_instr_explicit (mkSlowArg sp []) i.

(** [BcStatementLocations::push] and [mark_before_stmt]. *)
Definition stmt_locs_push (l : BcStatementLocations) (addr : BcAddr) (sp : Span) : BcStatementLocations :=
  let idx := N.to_nat (addr / BC_INSTR_ALIGN)%N in
  let stmts := sl_stmts l ++ replicate (S idx - length (sl_stmts l)) u32_max in
  mkStmtLocs (sl_locs l ++ [sp]) (<[idx := Z.of_nat (length (sl_locs l))]> stmts).
Definition stmt_at (l : BcStatementLocations) (offset : BcAddr) : option Span :=
  match sl_stmts l !! N.to_nat (offset / BC_INSTR_ALIGN)%N with
  | None => None
  | Some v => if (v =? u32_max)%Z then None else sl_locs l !! Z.to_nat v
  end.
Definition mark_before_stmt (sp : Span) : M () :=
  addr ← ip; modify_w (λ w, set_stmt_locs (stmt_locs_push (w_stmt_locs w) addr sp) w).

(** ** Patching *)

Fixpoint patch_code (c : list Instr) (a : BcAddr) (offset : BcAddrOffset) : result CodeTooBig (list Instr) :=
  match c with
  | [] => UB
  | i :: c =>
    if (a =? 0)%N then
      match jump_offset i with
      | Some o => _ ← assert (o =? FORWARD)%N; Ok (set_jump_offset offset i :: c)
      | None => UB
      end
    else if (a <? size_of_repr i)%N then UB
    else c ← patch_code c (a - size_of_repr i)%N offset; Ok (i :: c)
  end.
Definition patch_addr (a : PatchAddr) : M () :=
  addr ← ip;
  _ ← w_assert (a <=? addr)%N;
  c ← gets w_instrs;
  c ← run_result (patch_code c a (addr - a)%N);
  modify_w (set_instrs c).
Fixpoint patch_addrs (l : list PatchAddr) : M () :=
  match l with [] => mret () | a :: l => _ ← patch_addr a; patch_addrs l end.

(** ** Definite assignment *)

Definition try_definitely_assigned (l : nat) : M (option nat) :=
  n ← gets w_local_count;
  _ ← w_assert (l <? n);
  da ← gets w_definitely_assigned;
  b ← run_result (unwrap (da !! l));
  mret (if b : bool then Some l else None).
Definition mark_definitely_assigned (l : nat) : M () :=
  da ← gets w_definitely_assigned;
  _ ← w_assert (l <? length da);
  modify_w (set_definitely_assigned (<[l := true]> da)).
Definition save_definitely_assigned : M (list bool) := gets w_definitely_assigned.
Definition assert_smaller_then (saved current : list bool) : bool :=
  (length saved =? length current) &&
  forallb (λ '(a, b), b || negb a) (zip saved current).
Definition restore_definitely_assigned (saved : list bool) : M () :=
  da ← gets w_definitely_assigned;
  _ ← w_assert (assert_smaller_then saved da);
  modify_w (set_definitely_assigned saved).

(** ** Moves *)

(** A slot that exists now. *)
Definition assert_slot (slot : nat) : M () :=
  w ← gets (λ w, w_local_count w + w_stack_size w); w_assert (slot <? w).
Definition assert_local (slot : nat) : M () := n ← gets w_local_count; w_assert (slot <? n).

Definition write_const (sp : Span) (value : V) (slot : nat) : M () :=
  _ ← assert_slot slot; write_instr sp (InstrConst value slot).
Definition write_mov (sp : Span) (source target : nat) : M () :=
  _ ← assert_slot source;
  _ ← assert_slot target;
  if source =? target then mret () else write_instr sp (InstrMov source target).
Definition write_load_local (sp : Span) (slot target : nat) : M () :=
  _ ← assert_local slot;
  o ← try_definitely_assigned slot;
  match o with
  | Some slot => write_mov sp slot target
  | None => write_instr sp (InstrLoadLocal slot target)
  end.
Definition write_load_local_captured (sp : Span) (source target : nat) : M () :=
  _ ← assert_local source; _ ← assert_slot target; write_instr sp (InstrLoadLocalCaptured source target).
Definition write_store_local_captured (sp : Span) (source target : nat) : M () :=
  _ ← assert_slot source; _ ← assert_local target; write_instr sp (InstrStoreLocalCaptured source target).

(** ** Branches *)

Definition write_br (sp : Span) : M PatchAddr := write_instr_ret_arg sp (InstrBr FORWARD).
Definition write_if_not_br (cond : nat) (sp : Span) : M PatchAddr :=
  write_instr_ret_arg sp (InstrIfNotBr cond FORWARD).
Definition write_if_br (cond : nat) (sp : Span) : M PatchAddr :=
  write_instr_ret_arg sp (InstrIfBr cond FORWARD).

Definition writer_if_else_impl (cond : nat) (sp : Span) (then_block else_block : M ()) : M () :=
  definitely_assigned ← save_definitely_assigned;
  else_target ← write_if_not_br cond sp;
  _ ← then_block;
  end_target ← write_br sp;
  _ ← restore_definitely_assigned definitely_assigned;
  _ ← patch_addr else_target;
  _ ← else_block;
  _ ← patch_addr end_target;
  restore_definitely_assigned definitely_assigned.
Definition writer_if_else (cond : nat) (maybe_not : MaybeNot) (sp : Span) (then_block else_block : M ()) : M () :=
  match maybe_not with
  | MaybeId => writer_if_else_impl cond sp then_block else_block
  | MaybeNot_ => writer_if_else_impl cond sp else_block then_block
  end.

(** ** The stack *)

Definition stack_add (add : nat) : M () :=
  w ← gets (λ w, w);
  _ ← w_u32 (N.of_nat (w_stack_size w + add));
  modify_w (set_stack (w_stack_size w + add) (Nat.max (w_max_stack_size w) (w_stack_size w + add))).
Definition stack_sub (sub : nat) : M () :=
  w ← gets (λ w, w);
  _ ← w_assert (sub <=? w_stack_size w);
  modify_w (set_stack (w_stack_size w - sub) (w_max_stack_size w)).
(** The next slot of the stack. *)
Definition top_slot : M nat :=
  n ← gets (λ w, w_local_count w + w_stack_size w); _ ← w_u32 (N.of_nat n); mret n.

Definition alloc_slot {R} (k : nat → M R) : M R :=
  slot ← top_slot; _ ← stack_add 1; r ← k slot; _ ← stack_sub 1; mret r.
Definition alloc_slots {R} (count : nat) (k : BcSlotInRange → M R) : M R :=
  start ← top_slot;
  _ ← w_u32 (N.of_nat (start + count));
  _ ← stack_add count; r ← k (mkRange start (start + count)); _ ← stack_sub count; mret r.
(** [alloc_slots_c], for two slots. *)
Definition alloc_slots_2 {R} (k : nat → nat → M R) : M R :=
  alloc_slots 2 (λ r, k (range_start r) (range_start r + 1)).

(** The loop of [alloc_slots_for_exprs]: [expr] may use more of the stack for a while. *)
Definition fill_slots {K} (expr : nat → K → M ()) :=
  fix go (exprs : list K) (end_ : nat) : M nat :=
    match exprs with
    | [] => mret end_
    | item :: exprs => _ ← stack_add 1; _ ← expr end_ item; go exprs (end_ + 1)
    end.
Definition alloc_filled {R} (fill : nat → M nat) (k : BcSlotInRange → M R) : M R :=
  start ← top_slot;
  end_ ← fill start;
  let range := if end_ =? start then range_default else mkRange start end_ in
  r ← k range;
  _ ← stack_sub (end_ - start);
  mret r.
Definition alloc_slots_for_exprs {K R} (exprs : list K) (expr : nat → K → M ()) (k : BcSlotInRange → M R) : M R :=
  alloc_filled (fill_slots expr exprs) k.

(** ** Loops *)

Definition last_loop : M BcWriterForLoop := l ← gets w_for_loops; run_result (unwrap (last l)).
Definition push_end_addr (a : PatchAddr) : M () :=
  l ← gets w_for_loops;
  n ← gets w_max_loop_depth;
  match last l with
  | Some loop =>
    modify_w (set_for_loops
      (take (length l - 1) l ++
       [mkForLoop (fl_iter loop) (fl_var loop) (fl_inner_addr loop) (fl_end_addrs_to_patch loop ++ [a])]) n)
  | None => run_result Panic
  end.

Definition write_continue (sp : Span) : M () :=
  loops ← gets w_for_loops;
  _ ← w_assert (1 <=? length loops);
  for_loop ← last_loop;
  addr ← ip;
  _ ← w_assert (fl_inner_addr for_loop <=? addr)%N;
  end_patch ← write_instr_ret_arg sp
    (InstrContinue (fl_iter for_loop) (length loops - 1) (fl_var for_loop)
       (addr - fl_inner_addr for_loop)%N FORWARD);
  push_end_addr end_patch.
Definition write_break (sp : Span) : M () :=
  for_loop ← last_loop;
  end_patch ← write_instr_ret_arg sp (InstrBreak (fl_iter for_loop) FORWARD);
  push_end_addr end_patch.

Definition writer_for (over var : nat) (sp : Span) (body : M ()) : M () :=
  alloc_slot (λ iter,
    definitely_assigned ← save_definitely_assigned;
    loops ← gets w_for_loops;
    end_patch ← write_instr_ret_arg sp (InstrIter over (length loops) iter var FORWARD);
    inner_addr ← ip;
    max ← gets w_max_loop_depth;
    let loops' := loops ++ [mkForLoop iter var inner_addr [end_patch]] in
    _ ← modify_w (set_for_loops loops' (Nat.max max (length loops')));
    _ ← body;
    _ ← write_continue sp;
    for_loop ← last_loop;
    _ ← modify_w (λ w, set_for_loops (take (length (w_for_loops w) - 1) (w_for_loops w)) (w_max_loop_depth w) w);
    _ ← patch_addrs (fl_end_addrs_to_patch for_loop);
    restore_definitely_assigned definitely_assigned).

Fixpoint write_iter_stops (sp : Span) (loops : list BcWriterForLoop) : M () :=
  match loops with [] => mret () | l :: loops => _ ← write_instr sp (InstrIterStop (fl_iter l)); write_iter_stops sp loops end.
Definition write_iter_stop (sp : Span) : M () := loops ← gets w_for_loops; write_iter_stops sp (reverse loops).

(** ** Start and end *)

Fixpoint mark_locals (l : list nat) : M () :=
  match l with [] => mret () | x :: l => _ ← mark_definitely_assigned x; mark_locals l end.
Definition BcWriter_new (local_count param_count : nat) : result CodeTooBig BcWriter :=
  let w := mkWriter [] [] (mkStmtLocs [] []) 0 local_count (replicate local_count false) 0 [] 0 in
  let init : M () :=
    _ ← w_assert (param_count <=? local_count); _ ← w_u32 (N.of_nat local_count);
    mark_locals (seq 0 param_count) in
  match init w with
  | (Ok _, w) => Ok w
  | (Err e, _) => Err e
  | (Fault f, _) => Fault f
  end.

(** [Bc]. *)
Record Bc := mkBc {
  bc_instrs : list Instr;
  bc_stmt_locs : BcStatementLocations;
  bc_local_count : nat;
  bc_max_stack_size : nat;
  bc_max_loop_depth : nat;
}.
Definition writer_finish : M Bc :=
  w ← gets (λ w, w);
  _ ← w_assert (w_stack_size w =? 0);
  _ ← w_assert (length (w_for_loops w) =? 0);
  addr ← ip;
  let instrs := w_instrs w ++ [InstrEnd addr (w_slow_args w)] in
  mret (mkBc instrs (w_stmt_locs w) (w_local_count w) (w_max_stack_size w) (w_max_loop_depth w)).
End writer.
Arguments BcWriter : clear implicits.
Arguments Bc : clear implicits.
