(* ===== verification/BcCompile.v ===== *)
(** [eval/bc/compiler]: from the intermediate representation to bytecode.  A function that takes a
    closure in the source takes a computation of the writer here; the functions that recurse
    through closures are given the function for subexpressions. *)

From S2P Require Import Prelude Hashing TableMap FastString Symbol CodeMap.
From S2P Require Import DefParams OrdMap ParamSpec Def Ir World IrEval BcInstr BcWriter.

Section compile.
Context `{W : World V H E TC D KM MB} `{!InstrLayout V TC D KM}.
Local Abbreviation M A := (run (BcWriter V TC D KM) CodeTooBig A).
Local Abbreviation Node := (ExprCompiled V TC D).
Local Abbreviation Expr := (Spanned (ExprCompiled V TC D)).
Local Abbreviation Target := (Spanned (AssignCompiledValue V TC D)).

(** ** Variables that are assigned when an expression has been evaluated *)

(** The variables that [mark_definitely_assigned_after] marks. *)
Fixpoint assigned_after (e : Node) : list nat :=
  let after (e : Expr) := assigned_after (node e) in
  let after_option (e : option Expr) := match e with Some e => assigned_after (node e) | None => [] end in
  match e with
  | Value _ | LocalCaptured _ | ModuleSlot _ | ExprDef _ => []
  | Local x => [x]
  | Tuple xs | List_ xs => flat_map after xs
  | Dict_ kvs => flat_map (λ '(k, v), after k ++ after v) kvs
  | Compr c => compr_assigned_after c
  | If_ c _ _ => after c
  | Slice l a b c => after l ++ after_option a ++ after_option b ++ after_option c
  | ExprBuiltin1 _ e => after e
  | LogicalBinOp _ a _ => after a
  | Seq a b | ExprBuiltin2 _ a b => after a ++ after b
  | Index2 a i0 i1 => after a ++ after i0 ++ after i1
  | Call c =>
    after (call_fun (node c)) ++ flat_map after (ca_pos_named (call_args (node c))) ++
    after_option (ca_args (call_args (node c))) ++ after_option (ca_kwargs (call_args (node c)))
  end
(** The operand of the loop that runs first. *)
with compr_assigned_after (c : ComprCompiled V TC D) : list nat :=
  let fix go (cs : list (ClauseCompiled V TC D)) : list nat :=
    match cs with
    | [] => []
    | [c] => clause_assigned_after c
    | _ :: cs => go cs
    end in
  match c with ComprList _ cs | ComprDict _ _ cs => go cs end
with clause_assigned_after (c : ClauseCompiled V TC D) : list nat :=
  match c with Clause _ over _ => assigned_after (node over) end.

Fixpoint target_assigned_after (a : AssignCompiledValue V TC D) : list nat :=
  match a with
  | AssignDot object _ => assigned_after (node object)
  | AssignIndex array index => assigned_after (node array) ++ assigned_after (node index)
  | AssignTuple xs => flat_map (λ x, target_assigned_after (node x)) xs
  | AssignLocal slot => [slot]
  | AssignLocalCaptured _ | AssignModule _ _ => []
  end.
Definition modify_assigned_after (lhs : AssignModifyLhs V TC D) : list nat :=
  match lhs with
  | ModifyDot object _ => assigned_after (node object)
  | ModifyArray array index => assigned_after (node array) ++ assigned_after (node index)
  | ModifyLocal x => [node x]
  | ModifyLocalCaptured _ | ModifyModule _ => []
  end.
Definition stmt_assigned_after (s : StmtCompiled V TC D) : list nat :=
  match s with
  | PossibleGc | Return _ | Break | Continue => []
  | StmtExpr e => assigned_after (node e)
  | Assign lhs _ rhs => target_assigned_after (node lhs) ++ assigned_after (node rhs)
  | AssignModify lhs _ rhs => assigned_after (node rhs) ++ modify_assigned_after lhs
  | StmtIf cond _ _ => assigned_after (node cond)
  | For _ over _ => assigned_after (node over)
  end.

(** ** Operands *)

Definition write_bc_cb {R} (write : nat → M ()) (e : Node) (k : nat → M R) : M R :=
  let alloc := alloc_slot (λ slot, _ ← write slot; k slot) in
  match as_local_non_captured e with
  | Some l => o ← try_definitely_assigned l; match o with Some slot => k slot | None => alloc end
  | None => alloc
  end.

Fixpoint try_slot_range (exprs : list Expr) (range : BcSlotInRange) : M (option BcSlotInRange) :=
  match exprs with
  | [] => mret (Some range)
  | e :: exprs =>
    match as_local_non_captured (node e) with
    | None => mret None
    | Some l =>
      o ← try_definitely_assigned l;
      match o with
      | None => mret None
      | Some slot =>
        match try_push range slot with
        | (true, range) => try_slot_range exprs range
        | (false, _) => mret None
        end
      end
    end
  end.

Section operands.
(** [write_bc] on expressions within the current one. *)
Context (write : Expr → nat → M ()).

Definition cb {R} (e : Expr) (k : nat → M R) : M R := write_bc_cb (write e) (node e) k.
Definition write_exprs_of {K R} (expr_of : K → Expr) (exprs : list K) (k : BcSlotInRange → M R) : M R :=
  o ← try_slot_range (map expr_of exprs) range_default;
  match o with
  | Some slots => k slots
  | None => alloc_slots_for_exprs exprs (λ slot e, write (expr_of e) slot) k
  end.
Definition write_exprs {R} (exprs : list Expr) (k : BcSlotInRange → M R) : M R :=
  write_exprs_of (λ e, e) exprs k.
(** On the keys and values in turn: [alloc_slots_for_exprs] over pairs. *)
Definition flatten (xs : list (Expr * Expr)) : list Expr := flat_map (λ '(k, v), [k; v]) xs.
Definition fill_pairs :=
  fix go (exprs : list (Expr * Expr)) (end_ : nat) : M nat :=
    match exprs with
    | [] => mret end_
    | (k, v) :: exprs =>
      _ ← stack_add 1; _ ← write k end_; _ ← stack_add 1; _ ← write v (end_ + 1); go exprs (end_ + 1 + 1)
    end.
Definition write_pairs {R} (exprs : list (Expr * Expr)) (k : BcSlotInRange → M R) : M R :=
  o ← try_slot_range (flatten exprs) range_default;
  match o with
  | Some slots => k slots
  | None => alloc_filled (fill_pairs exprs) k
  end.
Definition write_expr_opt {R} (e : option Expr) (k : option nat → M R) : M R :=
  match e with Some e => cb e (λ slot, k (Some slot)) | None => k None end.
(** [write_n_exprs]. *)
Definition write_2_exprs {R} (a b : Expr) (k : nat → nat → M R) : M R := cb a (λ a, cb b (λ b, k a b)).
Definition write_3_exprs {R} (a b c : Expr) (k : nat → nat → nat → M R) : M R :=
  cb a (λ a, cb b (λ b, cb c (λ c, k a b c))).

(** ** Conditions, [if_compiler.rs] *)

(** The addresses of the jumps to the [then] block and to the [else] block, to be patched. *)
Definition write_cond (write : Span → Node → nat → M ()) :=
  fix go (sp : Span) (e : Node) (maybe_not : MaybeNot) (t f : list PatchAddr) :
    M (list PatchAddr * list PatchAddr) :=
    match e with
    | ExprBuiltin1 Not cond => go (span cond) (node cond) (negate maybe_not) t f
    | LogicalBinOp op x y =>
      if Bool.eqb (bool_decide (op = And)) (bool_decide (maybe_not = MaybeId)) then
        '(x_skip, f) ← go (span x) (node x) maybe_not [] f;
        _ ← patch_addrs x_skip;
        go (span y) (node y) maybe_not t f
      else
        '(x_skip, t) ← go (span x) (node x) (negate maybe_not) [] t;
        _ ← patch_addrs x_skip;
        go (span y) (node y) maybe_not t f
    | _ =>
      addr ← write_bc_cb (write sp e) e (λ cond_slot,
        match maybe_not with
        | MaybeId => write_if_not_br cond_slot sp
        | MaybeNot_ => write_if_br cond_slot sp
        end);
      mret (t, f ++ [addr])
    end.
Definition if_else_impl (write : Span → Node → nat → M ()) (cond : Expr) (maybe_not : MaybeNot)
    (t : M ()) (f : option (M ())) : M () :=
  '(then_addrs, else_addrs) ← write_cond write (span cond) (node cond) maybe_not [] [];
  definitely_assigned ← save_definitely_assigned;
  _ ← patch_addrs then_addrs;
  _ ← t;
  _ ← match f with
      | Some f =>
        end_addr ← write_br (span cond);
        _ ← restore_definitely_assigned definitely_assigned;
        _ ← patch_addrs else_addrs;
        _ ← f;
        patch_addr end_addr
      | None => patch_addrs else_addrs
      end;
  restore_definitely_assigned definitely_assigned.
Definition write_if_else (write : Span → Node → nat → M ()) (c : Expr) (t f : M ()) : M () :=
  if_else_impl write c MaybeId t (Some f).
Definition write_if_then (write : Span → Node → nat → M ()) (c : Expr) (maybe_not : MaybeNot) (t : M ()) : M () :=
  if_else_impl write c maybe_not t None.

(** ** Operators *)

(** [write_equals_const]. *)
Definition write_equals_const (sp : Span) (a : Expr) (b : V) (target : nat) : M () :=
  cb a (λ a,
    match unpack_int_value b with
    | Some _ => write_instr sp (InstrEqInt a b target)
    | None =>
      if eq_is_ptr_eq b then write_instr sp (InstrEqPtr a b target) else
      match as_frozen_str b with
      | Some _ => write_instr sp (InstrEqStr a b target)
      | None => write_instr sp (InstrEqConst a b target)
      end
    end).
Definition write_equals (sp : Span) (a b : Expr) (target : nat) : M () :=
  match as_value (node a) with
  | Some a => write_equals_const sp b a target
  | None =>
    match as_value (node b) with
    | Some b => write_equals_const sp a b target
    | None => write_2_exprs a b (λ a b, write_instr sp (InstrBinOp EqImpl a b target))
    end
  end.
Definition write_not (e : Expr) (target : nat) : M () :=
  cb e (λ slot, write_instr (span e) (InstrUnOp NotImpl slot target)).

Definition builtin1_instr (op : Builtin1) (expr target : nat) : Instr V TC D KM :=
  match op with
  | Not => InstrUnOp NotImpl expr target
  | Minus => InstrUnOp MinusImpl expr target
  | Plus => InstrUnOp PlusImpl expr target
  | BitNot => InstrUnOp BitNotImpl expr target
  | TypeIs t => InstrTypeIs expr t target
  | PercentSOne before after => InstrPercentSOne before expr after target
  | FormatOne before after => InstrFormatOne before expr after target
  | Dot field => InstrObjectField expr field target
  end.
Definition builtin2_instr (op : Builtin2) (l r target : nat) : Instr V TC D KM :=
  match op with
  | Equals => InstrBinOp EqImpl l r target
  | Compare Less => InstrBinOp LessImpl l r target
  | Compare Greater => InstrBinOp GreaterImpl l r target
  | Compare LessOrEqual => InstrBinOp LessOrEqualImpl l r target
  | Compare GreaterOrEqual => InstrBinOp GreaterOrEqualImpl l r target
  | In => InstrBinOp InImpl l r target
  | Sub => InstrBinOp SubImpl l r target
  | Add => InstrBinOp AddImpl l r target
  | Multiply => InstrBinOp MultiplyImpl l r target
  | Divide => InstrBinOp DivideImpl l r target
  | FloorDivide => InstrBinOp FloorDivideImpl l r target
  | Percent => InstrBinOp PercentImpl l r target
  | BitAnd => InstrBinOp BitAndImpl l r target
  | BitOr => InstrBinOp BitOrImpl l r target
  | BitXor => InstrBinOp BitXorImpl l r target
  | LeftShift => InstrBinOp LeftShiftImpl l r target
  | RightShift => InstrBinOp RightShiftImpl l r target
  | ArrayIndex => InstrArrayIndex l r target
  end.
Definition assign_op_instr (op : AssignOp) (v0 v1 target : nat) : Instr V TC D KM :=
  match op with
  | AssignAdd => InstrBinOp AddAssignImpl v0 v1 target
  | AssignSubtract => InstrBinOp SubImpl v0 v1 target
  | AssignMultiply => InstrBinOp MultiplyImpl v0 v1 target
  | AssignDivide => InstrBinOp DivideImpl v0 v1 target
  | AssignFloorDivide => InstrBinOp FloorDivideImpl v0 v1 target
  | AssignPercent => InstrBinOp PercentImpl v0 v1 target
  | AssignBitAnd => InstrBinOp BitAndImpl v0 v1 target
  | AssignBitOr => InstrBinOp BitOrAssignImpl v0 v1 target
  | AssignBitXor => InstrBinOp BitXorImpl v0 v1 target
  | AssignLeftShift => InstrBinOp LeftShiftImpl v0 v1 target
  | AssignRightShift => InstrBinOp RightShiftImpl v0 v1 target
  end.

(** ** Displays *)

Definition write_list (sp : Span) (xs : list Expr) (target : nat) : M () :=
  if length xs =? 0 then write_instr sp (InstrListNew target) else
  match mapM (λ x : Expr, as_value (node x)) xs with
  | Some content => write_instr sp (InstrListOfConsts content target)
  | None => write_exprs xs (λ xs, write_instr sp (InstrListNPop xs target))
  end.

(** [FrozenValue::get_hashed], if it does not fail. *)
Definition const_hashed (e : Expr) : option (Hashed V) :=
  match as_value (node e) with
  | Some k => match get_hashed k with Ok h => Some (mkHashed h k) | _ => None end
  | None => None
  end.
Fixpoint try_dict_of_consts (xs : list (Expr * Expr)) (res : list (Hashed V * V)) :
    option (list (Hashed V * V)) :=
  match xs with
  | [] => Some res
  | (k, v) :: xs =>
    match const_hashed k, as_value (node v) with
    | Some k, Some v =>
      match insert_entry res k v with
      | (Some _, _) => None
      | (None, res) => try_dict_of_consts xs res
      end
    | _, _ => None
    end
  end.
(** [keys_unique] is the set of the [keys]. *)
Fixpoint try_dict_const_keys (xs : list (Expr * Expr)) (keys : list (Hashed V)) : option (list (Hashed V)) :=
  match xs with
  | [] => Some keys
  | (k, _) :: xs =>
    match const_hashed k with
    | Some k => if existsb (same_key k) keys then None else try_dict_const_keys xs (keys ++ [k])
    | None => None
    end
  end.
Definition write_dict (sp : Span) (xs : list (Expr * Expr)) (target : nat) : M () :=
  if length xs =? 0 then write_instr sp (InstrDictNew target) else
  match try_dict_of_consts xs [] with
  | Some d => write_instr sp (InstrDictOfConsts d target)
  | None =>
    match try_dict_const_keys xs [] with
    | Some keys =>
      _ ← w_assert (length keys =? length xs);
      write_exprs_of snd xs (λ values,
        _ ← w_assert (range_len values =? length keys);
        write_instr sp (InstrDictConstKeys keys (range_start values) target))
    | None =>
      write_pairs xs (λ kvs,
        write_instr_explicit (mkSlowArg sp (map (λ kv, span kv.1) xs)) (InstrDictNPop kvs target))
    end
  end.

(** ** Calls, [compiler/call.rs] *)

Definition write_args_full (a : ArgsCompiledValue Expr) (k : BcCallArgs (list byte) → M ()) : M () :=
  write_exprs (ca_pos_named a) (λ pos_named,
    write_expr_opt (ca_args a) (λ args,
      write_expr_opt (ca_kwargs a) (λ kwargs, k (ArgsFull pos_named (ca_names a) args kwargs)))).
Definition write_args (a : ArgsCompiledValue Expr) (k : BcCallArgs (list byte) → M ()) : M () :=
  with_pos_only a (λ pos, write_exprs pos (λ pos, k (ArgsPos pos))) (write_args_full a k).

Definition write_call_frozen (sp : Span) (f : V) (a : ArgsCompiledValue Expr) (target : nat) : M () :=
  if is_frozen_def f then
    write_args a (λ args, write_instr sp (InstrCallFrozenDef f (bc_resolve f args) sp target))
  else if is_native_function f then
    write_args a (λ args, write_instr sp (InstrCallFrozenNative f args sp target))
  else write_args a (λ args, write_instr sp (InstrCallFrozen f args sp target)).
Definition write_call_method (target : nat) (sp : Span) (this : Expr) (symbol : list byte)
    (a : ArgsCompiledValue Expr) : M () :=
  cb this (λ this,
    write_args a (λ args,
      match get_known_method symbol with
      | Some m => write_instr sp (InstrCallMaybeKnownMethod this symbol m args sp target)
      | None => write_instr sp (InstrCallMethod this symbol args sp target)
      end)).
Definition write_call (sp : Span) (c : CallCompiled Expr) (target : nat) : M () :=
  with_len is_fn_len c (λ arg, cb arg (λ arg, write_instr sp (InstrUnOp LenImpl arg target))) (
  with_type is_fn_type c (λ arg, cb arg (λ arg, write_instr sp (InstrUnOp TypeImpl arg target))) (
  let general :=
    with_method c
      (λ this symbol args, write_call_method target sp this symbol args)
      match as_value (node (call_fun c)) with
      | Some f => write_call_frozen sp f (call_args c) target
      | None =>
        cb (call_fun c) (λ f, write_args (call_args c) (λ args, write_instr sp (InstrCall f args sp target)))
      end in
  with_isinstance is_fn_isinstance c
    (λ x t, match new_frozen t with
            | Some t => cb x (λ x, write_instr sp (InstrIsInstance x t target))
            | None => general
            end) general)).

(** ** Functions, [compiler/def.rs] *)

Definition write_defaults :=
  fix go (l : list (Spanned (ParameterCompiled TC Expr))) (slots_i : list nat) (value_count : nat) :
    M (list (Spanned (ParameterCompiled TC nat)) * list nat) :=
    match l with
    | [] => mret ([], slots_i)
    | p :: l =>
      match node p with
      | CompiledNormal n o (Some e) =>
        match slots_i with
        | [] => run_result Panic
        | slot :: slots_i =>
          _ ← write e slot;
          '(l, slots_i) ← go l slots_i (value_count + 1);
          mret (mkSpanned (span p) (CompiledNormal n o (Some value_count)) :: l, slots_i)
        end
      | CompiledNormal n o None =>
        '(l, slots_i) ← go l slots_i value_count;
        mret (mkSpanned (span p) (CompiledNormal n o None) :: l, slots_i)
      | CompiledArgs n o =>
        '(l, slots_i) ← go l slots_i value_count;
        mret (mkSpanned (span p) (CompiledArgs n o) :: l, slots_i)
      | CompiledKwArgs n o =>
        '(l, slots_i) ← go l slots_i value_count;
        mret (mkSpanned (span p) (CompiledKwArgs n o) :: l, slots_i)
      end
    end.
Definition write_def (sp : Span) (d : DefCompiled TC D Expr) (target : nat) : M () :=
  how_many_slots_we_need ← run_result (count_exprs (dc_params d));
  alloc_slots how_many_slots_we_need (λ slots,
    '(params, slots_i) ← write_defaults (compiled_params (dc_params d))
                           (seq (range_start slots) (range_len slots)) 0;
    _ ← w_assert (length slots_i =? 0);
    let data := mkDefData (dc_function_name d) (mkCompiled params (compiled_indices (dc_params d)))
                  (dc_return_type d) (dc_info d) in
    write_instr sp (InstrDef slots data target)).

(** ** Loops, [stmt.rs] and [compr.rs] *)

Definition write_for (assign : Target → nat → M ()) (over : Expr) (var : Target) (sp : Span)
    (body : M ()) : M () :=
  definitely_assigned ← save_definitely_assigned;
  _ ← cb over (λ over,
    match assign_as_local_non_captured (node var) with
    | Some var => writer_for over var sp (_ ← mark_definitely_assigned var; body)
    | None =>
      alloc_slot (λ var_slot,
        writer_for over var_slot sp
          (_ ← assign var var_slot; _ ← mark_locals (target_assigned_after (node var)); body))
    end);
  restore_definitely_assigned definitely_assigned.
(** The conditions of a clause, then what is inside it. *)
Definition write_ifs (write : Span → Node → nat → M ()) (rest : M ()) :=
  fix go (ifs : list Expr) : M () :=
    match ifs with
    | [] => rest
    | c :: ifs => _ ← write_if_then write c MaybeNot_ (write_continue (span c)); go ifs
    end.
(** The clauses from the outermost, which is the last one, around [term]. *)
Definition write_clauses (f : ClauseCompiled V TC D → M () → M ()) :=
  fix go (cs : list (ClauseCompiled V TC D)) (term : M ()) : M () :=
    match cs with [] => term | c :: cs => go cs (f c term) end.

(** [all_local]. *)
Definition all_local (xs : list Target) : option (list nat) :=
  mapM (λ x : Target, assign_as_local_non_captured (node x)) xs.
Definition assign_slots (assign : Target → nat → M ()) :=
  fix go (xs : list Target) (slots : list nat) : M () :=
    match xs, slots with
    | x :: xs, slot :: slots => _ ← assign x slot; go xs slots
    | _, _ => mret ()
    end.
End operands.

(** * Expressions and assignments *)

Fixpoint write_bc (sp : Span) (e : Node) (target : nat) {struct e} : M () :=
  let write (e : Expr) := write_bc (span e) (node e) in
  match e with
  | Value v => write_const sp v target
  | Local slot => write_load_local sp slot target
  | LocalCaptured slot => write_load_local_captured sp slot target
  | ModuleSlot slot => write_instr sp (InstrLoadModule slot target)
  | Tuple xs => write_exprs write xs (λ xs, write_instr sp (InstrTupleNPop xs target))
  | List_ xs => write_list write sp xs target
  | Dict_ xs => write_dict write sp xs target
  | Compr c => write_compr sp c target
  | Slice l start stop step =>
    cb write l (λ l, write_expr_opt write start (λ start, write_expr_opt write stop (λ stop,
      write_expr_opt write step (λ step, write_instr sp (InstrSlice l start stop step target)))))
  | ExprBuiltin1 Not expr => write_not write expr target
  | ExprBuiltin1 op expr => cb write expr (λ expr, write_instr sp (builtin1_instr op expr target))
  | If_ cond t f => write_if_else write_bc cond (write t target) (write f target)
  | LogicalBinOp op l r =>
    cb write l (λ l_slot,
      writer_if_else l_slot (match op with And => MaybeId | Or => MaybeNot_ end) (span l)
        (write r target) (write_mov sp l_slot target))
  | Seq l r => _ ← cb write l (λ _, mret ()); write r target
  | ExprBuiltin2 Equals l r => write_equals write sp l r target
  | ExprBuiltin2 op l r => write_2_exprs write l r (λ l r, write_instr sp (builtin2_instr op l r target))
  | Index2 a i0 i1 => write_3_exprs write a i0 i1 (λ a i0 i1, write_instr sp (InstrArrayIndex2 a i0 i1 target))
  | Call c => write_call write (span c) (node c) target
  | ExprDef d => write_def write sp d target
  end
with write_compr (sp : Span) (c : ComprCompiled V TC D) (target : nat) {struct c} : M () :=
  let write (e : Expr) := write_bc (span e) (node e) in
  alloc_slot (λ temp,
    _ ← match c with
        | ComprList expr cs =>
          _ ← write_instr sp (InstrListNew temp);
          _ ← w_assert (1 <=? length cs);
          write_clauses write_clause cs
            (cb write expr (λ slot, write_instr (span expr) (InstrComprListAppend temp slot)))
        | ComprDict k v cs =>
          _ ← write_instr sp (InstrDictNew temp);
          _ ← w_assert (1 <=? length cs);
          write_clauses write_clause cs
            (write_2_exprs write k v (λ k_slot v_slot,
               write_instr (span k) (InstrComprDictInsert temp k_slot v_slot)))
        end;
    write_mov sp temp target)
with write_clause (c : ClauseCompiled V TC D) (term : M ()) {struct c} : M () :=
  let write (e : Expr) := write_bc (span e) (node e) in
  match c with
  | Clause var over ifs =>
    write_for write (λ x, write_assign (span x) (node x)) over var (span over)
      (write_ifs write_bc term ifs)
  end
with write_assign (sp : Span) (a : AssignCompiledValue V TC D) (value : nat) {struct a} : M () :=
  let write (e : Expr) := write_bc (span e) (node e) in
  match a with
  | AssignDot object field => cb write object (λ object, write_instr sp (InstrSetObjectField value object field))
  | AssignIndex array index =>
    write_2_exprs write array index (λ array index, write_instr sp (InstrSetArrayIndex value array index))
  | AssignTuple xs =>
    match all_local xs with
    | Some args => write_instr sp (InstrUnpack value args)
    | None =>
      alloc_slots (length xs) (λ slots,
        let args := seq (range_start slots) (range_len slots) in
        _ ← write_instr sp (InstrUnpack value args);
        assign_slots (λ x, write_assign (span x) (node x)) xs args)
    end
  | AssignLocal slot => write_mov sp value slot
  | AssignLocalCaptured slot => write_store_local_captured sp value slot
  | AssignModule slot name => write_instr sp (InstrStoreModuleAndExport value slot name)
  end.

(** * Statements *)

Definition write_for_effect (e : Expr) : M () := cb (λ e, write_bc (span e) (node e)) e (λ _, mret ()).

(** [AssignModifyLhs::write_bc]. *)
Definition write_modify (lhs : AssignModifyLhs V TC D) (sp : Span) (op : AssignOp) (rhs : Expr) : M () :=
  let write (e : Expr) := write_bc (span e) (node e) in
  match lhs with
  | ModifyDot object field =>
    cb write object (λ object, alloc_slots_2 (λ l r,
      _ ← write_instr sp (InstrObjectField object field l);
      _ ← write rhs r;
      _ ← write_instr sp (assign_op_instr op l r r);
      write_instr sp (InstrSetObjectField r object field)))
  | ModifyArray array index =>
    write_2_exprs write array index (λ array index, alloc_slots_2 (λ temp_slot rhs_slot,
      _ ← write_instr sp (InstrArrayIndex array index temp_slot);
      _ ← write rhs rhs_slot;
      _ ← write_instr sp (assign_op_instr op temp_slot rhs_slot temp_slot);
      write_instr sp (InstrArrayIndexSet array index temp_slot)))
  | ModifyLocal slot =>
    alloc_slots_2 (λ l r,
      _ ← write_load_local sp (node slot) l;
      _ ← write rhs r;
      _ ← write_instr sp (assign_op_instr op l r r);
      write_mov sp r (node slot))
  | ModifyLocalCaptured slot =>
    alloc_slots_2 (λ l r,
      _ ← write_load_local_captured sp (node slot) l;
      _ ← write rhs r;
      _ ← write_instr sp (assign_op_instr op l r r);
      write_store_local_captured sp r (node slot))
  | ModifyModule slot =>
    alloc_slots_2 (λ l r,
      _ ← write_instr sp (InstrLoadModule (node slot) l);
      _ ← write rhs r;
      _ ← write_instr sp (assign_op_instr op l r r);
      write_instr sp (InstrStoreModule r (node slot)))
  end.

Section stmts.
(** [StmtCompileContext]. *)
Context (has_return_type : bool).

Definition write_return (sp : Span) (e : Expr) : M () :=
  let write (e : Expr) := write_bc (span e) (node e) in
  _ ← write_iter_stop sp;
  if has_return_type then cb write e (λ slot, write_instr sp (InstrReturnCheckType slot)) else
  match as_value (node e) with
  | Some value => write_instr sp (InstrReturnConst value)
  | None => cb write e (λ slot, write_instr sp (InstrReturn slot))
  end.
Definition write_check_type (ty : option (Spanned TC)) (slot_expr : nat) : M () :=
  match ty with Some ty => write_instr (span ty) (InstrCheckType slot_expr (node ty)) | None => mret () end.

(** [StmtsCompiled::write_bc]. *)
Definition write_list_of {A} (f : A → M ()) :=
  fix go (l : list A) : M () := match l with [] => mret () | x :: l => _ ← f x; go l end.

(** [write_bc_inner]; each statement of a block goes through [write_bc] of statements. *)
Fixpoint write_stmt_inner (sp : Span) (s : StmtCompiled V TC D) {struct s} : M () :=
  let write (e : Expr) := write_bc (span e) (node e) in
  let block := write_list_of (λ s : Spanned (StmtCompiled V TC D),
    _ ← mark_before_stmt (span s);
    _ ← write_stmt_inner (span s) (node s);
    mark_locals (stmt_assigned_after (node s))) in
  match s with
  | PossibleGc => write_instr sp InstrPossibleGc
  | Return e => write_return sp e
  | StmtExpr e => write_for_effect e
  | Assign lhs ty rhs =>
    match assign_as_local_non_captured (node lhs) with
    | Some l => _ ← write rhs l; write_check_type ty l
    | None =>
      cb write rhs (λ slot, _ ← write_check_type ty slot; write_assign (span lhs) (node lhs) slot)
    end
  | AssignModify lhs op rhs => write_modify lhs sp op rhs
  | StmtIf c t f =>
    _ ← w_assert (negb (length t =? 0) || negb (length f =? 0));
    if length f =? 0 then write_if_then write_bc c MaybeId (block t)
    else if length t =? 0 then write_if_then write_bc c MaybeNot_ (block f)
    else write_if_else write_bc c (block t) (block f)
  | For var over body =>
    write_for write (λ x, write_assign (span x) (node x)) over var sp (block body)
  | Break => write_break sp
  | Continue => write_continue sp
  end.
Definition write_stmt (s : Spanned (StmtCompiled V TC D)) : M () :=
  _ ← mark_before_stmt (span s);
  _ ← write_stmt_inner (span s) (node s);
  mark_locals (stmt_assigned_after (node s)).
Definition write_stmts : list (Spanned (StmtCompiled V TC D)) → M () := write_list_of write_stmt.

(** [as_bc]. *)
Definition as_bc (c : list (Spanned (StmtCompiled V TC D))) (local_count param_count : nat) :
    result CodeTooBig (Bc V TC D KM) :=
  w ← BcWriter_new local_count param_count;
  let write : M (Bc V TC D KM) :=
    _ ← write_stmts c;
    _ ← (if is_return (last c) then mret () else
         let sp := match last c with Some s => end_span (span s) | None => Span_default end in
         if has_return_type then
           alloc_slot (λ slot,
             _ ← write_const sp new_none slot; write_instr sp (InstrReturnCheckType slot))
         else write_instr sp (InstrReturnConst new_none));
    writer_finish in
  match write w with
  | (Ok bc, _) => Ok bc
  | (Err e, _) => Err e
  | (Fault f, _) => Fault f
  end.
End stmts.
End compile.
