(* ===== verification/BcCode.v ===== *)
(** Lemmas on bytecode as it is written: addresses, the table of spans, patching of jumps, and the
    order in which one state of the writer is a stage on the way to another. *)

From S2P Require Import Prelude Hashing TableMap FastString Symbol CodeMap.
From S2P Require Import DefParams OrdMap ParamSpec Def Ir World IrEval BcInstr BcWriter.

(** * Computations of the writer *)

(** No failure but a function that is too big, and the result satisfies [Q]. *)
Definition wp {S A} (m : run S CodeTooBig A) (s : S) (Q : A → S → Prop) : Prop :=
  match m s with (Ok a, s') => Q a s' | (Err _, _) => True | (Fault _, _) => False end.

Section wp.
Context {S A B : Type}.
Implicit Types m : run S CodeTooBig A.

Lemma wp_bind m (k : A → run S CodeTooBig B) s Q :
  wp m s (λ a s, wp (k a) s Q) → wp (m ≫= k) s Q.
Proof. unfold wp, mbind, run_bind. destruct (m s) as [[a|e|f] s']; done. Qed.
Lemma wp_ret (a : A) s (Q : A → S → Prop) : Q a s → wp (mret a : run S CodeTooBig A) s Q.
Proof. done. Qed.
Lemma wp_mono m s (Q Q' : A → S → Prop) : wp m s Q → (∀ a s, Q a s → Q' a s) → wp m s Q'.
Proof. unfold wp. destruct (m s) as [[a|e|f] s']; auto. Qed.
Lemma wp_ok (a : A) s (Q : A → S → Prop) : Q a s → wp (run_result (Ok a)) s Q.
Proof. done. Qed.
Lemma wp_equiv m m' s Q : (∀ s, m' s = m s) → wp m s Q → wp m' s Q.
Proof. unfold wp. by intros ->. Qed.
End wp.
Lemma run_bind_assoc {S A B C} (m : run S CodeTooBig A) (k : A → run S CodeTooBig B) (k' : B → run S CodeTooBig C) s :
  ((m ≫= k) ≫= k') s = (m ≫= λ a, k a ≫= k') s.
Proof. unfold mbind, run_bind. by destruct (m s) as [[a|e|f] s']. Qed.
Ltac wp_step lem := apply wp_bind; eapply wp_mono; [eapply lem|cbn beta].

(** * Code *)

Section code.
Context {V TC D KM : Type} `{!InstrLayout V TC D KM}.
Local Abbreviation Instr := (Instr V TC D KM).
Implicit Types (c : list Instr) (i : Instr) (a p : BcAddr).
Local Open Scope N_scope.

(** ** Reading *)

Lemma code_len_app c c' : code_len (c ++ c') = code_len c + code_len c'.
Proof. induction c as [|i c IH]; simpl; lia. Qed.
Lemma code_len_snoc c i : code_len (c ++ [i]) = code_len c + size_of_repr i.
Proof. rewrite code_len_app. simpl. lia. Qed.
Lemma code_len_align c : code_len c mod BC_INSTR_ALIGN = 0.
Proof.
  induction c as [|i c IH]; [done|]. simpl. unfold BC_INSTR_ALIGN in *.
  pose proof (size_of_repr_align i) as Hi. unfold BC_INSTR_ALIGN in Hi.
  rewrite N.Div0.add_mod, Hi, IH. done.
Qed.

Lemma code_from_prefix c c' : code_from (c ++ c') (code_len c) = Some c'.
Proof.
  induction c as [|i c IH]; simpl; [by destruct c'|].
  pose proof (size_of_repr_pos i). destruct (N.eqb_spec (size_of_repr i + code_len c) 0); [lia|].
  destruct (N.ltb_spec (size_of_repr i + code_len c) (size_of_repr i)); [lia|].
  by replace (size_of_repr i + code_len c - size_of_repr i) with (code_len c) by lia.
Qed.
Lemma code_from_inv c a c2 : code_from c a = Some c2 → ∃ c1, c = c1 ++ c2 ∧ a = code_len c1.
Proof.
  revert a. induction c as [|i c IH]; intros a; simpl.
  - destruct (N.eqb_spec a 0); [|done]. intros [= <-]. by exists [].
  - destruct (N.eqb_spec a 0) as [->|]; [intros [= <-]; by exists []|].
    destruct (N.ltb_spec a (size_of_repr i)); [done|]. intros (c1 & -> & Ha)%IH.
    exists (i :: c1). split; [done|]. simpl. lia.
Qed.
Lemma get_instr_inv c a i :
  get_instr c a = Some i → ∃ c1 c2, c = c1 ++ i :: c2 ∧ a = code_len c1.
Proof.
  unfold get_instr. destruct (code_from c a) as [[|i' c2]|] eqn:Hc; intros; simplify_eq.
  apply code_from_inv in Hc as (c1 & -> & ->). eauto.
Qed.
Lemma get_instr_app c i c' : get_instr (c ++ i :: c') (code_len c) = Some i.
Proof. unfold get_instr. by rewrite code_from_prefix. Qed.
Lemma get_instr_app_l c c' a i : get_instr c a = Some i → get_instr (c ++ c') a = Some i.
Proof. intros (c1 & c2 & -> & ->)%get_instr_inv. rewrite <- app_assoc. apply get_instr_app. Qed.
Lemma get_instr_lt c a i : get_instr c a = Some i → a + size_of_repr i <= code_len c.
Proof. intros (c1 & c2 & -> & ->)%get_instr_inv. rewrite code_len_app. simpl. lia. Qed.
Lemma get_instr_align c a i : get_instr c a = Some i → a mod BC_INSTR_ALIGN = 0.
Proof. intros (c1 & c2 & -> & ->)%get_instr_inv. apply code_len_align. Qed.
Lemma get_instr_snoc c i : get_instr (c ++ [i]) (code_len c) = Some i.
Proof. apply get_instr_app. Qed.
Lemma get_instr_snoc_inv c i a i' :
  get_instr (c ++ [i]) a = Some i' → (get_instr c a = Some i') ∨ (a = code_len c ∧ i' = i).
Proof.
  intros (c1 & c2 & Hc & ->)%get_instr_inv. destruct c2 as [|i2 c2 _] using rev_ind.
  - apply app_inj_tail in Hc as [-> ->]. by right.
  - rewrite app_comm_cons, app_assoc in Hc. apply app_inj_tail in Hc as [-> _].
    left. apply get_instr_app.
Qed.
Lemma get_instr_elem c a i : get_instr c a = Some i → i ∈ c.
Proof. intros (c1 & c2 & -> & _)%get_instr_inv. set_solver. Qed.

(** ** Patching *)

(** What a jump that has not been patched may become. *)
Definition le_instr i i' : Prop :=
  i' = i ∨ ∃ o, jump_offset i = Some FORWARD ∧ i' = set_jump_offset o i.
Lemma jump_offset_set o i : jump_offset i = None ∨ jump_offset (set_jump_offset o i) = Some o.
Proof. destruct i; simpl; auto. Qed.
Lemma set_jump_offset_set o o' i : set_jump_offset o (set_jump_offset o' i) = set_jump_offset o i.
Proof. by destruct i. Qed.
Lemma le_instr_trans i1 i2 i3 : le_instr i1 i2 → le_instr i2 i3 → le_instr i1 i3.
Proof.
  intros [->|(o & Ho & ->)] [->|(o' & Ho' & ->)]; [by left|by right; eauto|by right; eauto|].
  right. exists o'. by rewrite set_jump_offset_set.
Qed.
Lemma le_instr_size i i' : le_instr i i' → size_of_repr i' = size_of_repr i.
Proof. intros [->|(o & _ & ->)]; [done|]. apply size_of_repr_patch. Qed.
Lemma le_instr_plain i i' : jump_offset i = None → le_instr i i' → i' = i.
Proof. intros Hi [->|(o & Ho & _)]; [done|congruence]. Qed.

Definition loop_instr i : bool :=
  match i with InstrIter _ _ _ _ _ | InstrContinue _ _ _ _ _ | InstrBreak _ _ => true | _ => false end.
Definition not_end i : Prop := match i with InstrEnd _ _ => False | _ => True end.
Lemma set_jump_offset_loop o i : loop_instr (set_jump_offset o i) = loop_instr i.
Proof. by destruct i. Qed.
Lemma set_jump_offset_end o i : not_end i → not_end (set_jump_offset o i).
Proof. by destruct i. Qed.

(** The jump at [a] is to be patched; it is one of a loop or not. *)
Definition pending (loop : bool) c a : Prop :=
  ∃ i, get_instr c a = Some i ∧ jump_offset i = Some FORWARD ∧ loop_instr i = loop.
(** It goes to [target]. *)
Definition resolves c a (target : BcAddr) : Prop :=
  ∃ i o, get_instr c a = Some i ∧ jump_offset i = Some o ∧ o ≠ FORWARD ∧ a + o = target.

Lemma patch_code_spec c1 i c2 o :
  jump_offset i = Some FORWARD →
  patch_code (c1 ++ i :: c2) (code_len c1) o = Ok (c1 ++ set_jump_offset o i :: c2).
Proof.
  intros Hi. induction c1 as [|i1 c1 IH]; simpl; [by rewrite Hi|].
  pose proof (size_of_repr_pos i1). destruct (N.eqb_spec (size_of_repr i1 + code_len c1) 0); [lia|].
  destruct (N.ltb_spec (size_of_repr i1 + code_len c1) (size_of_repr i1)); [lia|].
  replace (size_of_repr i1 + code_len c1 - size_of_repr i1) with (code_len c1) by lia. by rewrite IH.
Qed.

(** [c'] is [c] with the jumps in [l] patched. *)
Record patched (l : list PatchAddr) c c' : Prop := {
  patched_len : code_len c' = code_len c;
  patched_le a i : get_instr c a = Some i → ∃ i', get_instr c' a = Some i' ∧ le_instr i i';
  patched_other a : a ∉ l → get_instr c' a = get_instr c a;
  patched_no_end : Forall not_end c → Forall not_end c';
}.
Lemma patched_refl c : patched [] c c.
Proof. split; eauto. intros a i Hi. exists i. by split; [|left]. Qed.
Lemma patched_trans l l' c1 c2 c3 : patched l c1 c2 → patched l' c2 c3 → patched (l ++ l') c1 c3.
Proof.
  intros [L1 A1 O1 N1] [L2 A2 O2 N2]. split.
  - congruence.
  - intros a i (i2 & H2 & Hl)%A1. apply A2 in H2 as (i3 & H3 & Hl'). eauto using le_instr_trans.
  - intros a Ha. rewrite O2, O1; set_solver.
  - auto.
Qed.

Lemma get_instr_patch c1 i c2 o a :
  get_instr (c1 ++ set_jump_offset o i :: c2) a =
  if decide (a = code_len c1) then Some (set_jump_offset o i) else get_instr (c1 ++ i :: c2) a.
Proof.
  case_decide as Ha; [subst; apply get_instr_app|].
  revert a Ha. induction c1 as [|i1 c1 IH]; intros a Ha; unfold get_instr; simpl in *.
  - destruct (N.eqb_spec a 0); [done|]. by rewrite size_of_repr_patch.
  - destruct (N.eqb_spec a 0); [done|]. destruct (N.ltb_spec a (size_of_repr i1)); [done|].
    apply IH. lia.
Qed.
Lemma patched_one c1 i c2 o :
  jump_offset i = Some FORWARD →
  patched [code_len c1] (c1 ++ i :: c2) (c1 ++ set_jump_offset o i :: c2).
Proof.
  intros Hi. assert (Hl : le_instr i (set_jump_offset o i)) by (right; eauto). split.
  - rewrite !code_len_app. simpl. by rewrite size_of_repr_patch.
  - intros a i' Ha. rewrite get_instr_patch. case_decide as Hd; [|by eexists; split; [|left]].
    subst a. rewrite get_instr_app in Ha. simplify_eq. eauto.
  - intros a Ha. rewrite get_instr_patch. case_decide; [|done]. set_solver.
  - rewrite !Forall_app, !Forall_cons. intuition auto using set_jump_offset_end.
Qed.

Lemma aligned_not_forward n : n mod BC_INSTR_ALIGN = 0 → n ≠ FORWARD.
Proof. unfold BC_INSTR_ALIGN, FORWARD. intros Hn ->. vm_compute in Hn. done. Qed.
Lemma patch_offset_ok c a i : get_instr c a = Some i → code_len c - a ≠ FORWARD.
Proof.
  intros Ha. apply aligned_not_forward. pose proof (get_instr_lt _ _ _ Ha).
  pose proof (get_instr_align _ _ _ Ha) as H1. pose proof (code_len_align c) as H2.
  unfold BC_INSTR_ALIGN in *. apply N.Lcm0.mod_divide in H1, H2. apply N.Lcm0.mod_divide.
  destruct H1 as [x Hx], H2 as [y Hy]. exists (y - x). lia.
Qed.

(** ** The table of spans *)

Definition slow_of (l : list (BcAddr * BcInstrSlowArg)) a : option BcInstrSlowArg :=
  match list_find (λ x : BcAddr * BcInstrSlowArg, x.1 = a) l with Some (_, (_, s)) => Some s | None => None end.
Lemma slow_of_app l l' a s : slow_of l a = Some s → slow_of (l ++ l') a = Some s.
Proof.
  unfold slow_of. destruct (list_find _ l) as [[n [b s']]|] eqn:Hl; [|done]. intros [= <-].
  by rewrite (list_find_app_l _ _ _ _ _ Hl).
Qed.
Lemma slow_of_snoc l a s : Forall (λ x, x.1 < a) l → slow_of (l ++ [(a, s)]) a = Some s.
Proof.
  intros Hl. unfold slow_of. rewrite list_find_app_r.
  - simpl. by rewrite decide_True by done.
  - apply list_find_None. eapply Forall_impl; [exact Hl|]. simpl. lia.
Qed.

(** The finished code of a function. *)
Definition finished (c : list Instr) (slow : list (BcAddr * BcInstrSlowArg)) : list Instr :=
  c ++ [InstrEnd (code_len c) slow].
Lemma find_slow_arg_spec {E} c slow a (ptr : BcAddr) s :
  Forall not_end c → slow_of slow a = Some s →
  find_slow_arg (E:=E) (c ++ [InstrEnd (ptr + code_len c) slow]) a ptr = Ok s.
Proof.
  intros Hc Hs. revert ptr. induction Hc as [|i c Hi Hc IH]; intros ptr; simpl.
  - rewrite N.add_0_r, N.sub_diag, N.sub_0_r. unfold slow_of in Hs.
    destruct (list_find _ slow) as [[n [b s']]|]; by simplify_eq.
  - rewrite N.add_assoc. specialize (IH (ptr + size_of_repr i)). by destruct i.
Qed.
Lemma slow_arg_at_finished {E} c slow a i s :
  Forall not_end c → get_instr c a = Some i → slow_of slow a = Some s →
  slow_arg_at_ptr (E:=E) (finished c slow) a = Ok s.
Proof.
  intros Hc Ha Hs. apply get_instr_inv in Ha as (c1 & c2 & -> & ->).
  unfold slow_arg_at_ptr, finished. rewrite <- app_assoc, code_from_prefix, code_len_app.
  apply (find_slow_arg_spec (i :: c2)); [|done]. by apply Forall_app in Hc as [_ Hc].
Qed.
End code.
