(* ===== verification/BcSim.v ===== *)
(** Simulation of the evaluator by the interpreter: when code runs as the evaluator says, the relation
    between their states, the stages of the writer, and what one written instruction does; and
    [runs] and [writes], the relations in which the correctness of the compiler is stated. *)

From S2P Require Import Prelude Hashing TableMap FastString Symbol CodeMap.
From S2P Require Import DefParams OrdMap ParamSpec Def Ir World IrEval BcInstr BcWriter BcCode.

(** * Runs of the interpreter *)

Section sim.
Context `{W : World V H E TC D KM MB} `{!InstrLayout V TC D KM}.
Local Abbreviation Mach := (Mach (V:=V) (H:=H)).
Implicit Types (c : list (Instr V TC D KM)) (m : Mach) (s : St V H).

Lemma run_block_add c k1 k2 m :
  run_block c (k1 + k2) m =
  match run_block c k1 m with inl m => run_block c k2 m | inr o => inr o end.
Proof. revert m. induction k1 as [|k1 IH]; intros m; simpl; [done|]. destruct (step c m); auto. Qed.

(** From [m] the code does what [r] says: it gets to a state with [Q], it ends as the function
    does, or it takes [n] steps at least. *)
Definition sim {A} c (n : nat) (r : option (out V H E A)) m (Q : A → St V H → Mach → Prop) : Prop :=
  match r with
  | Some (Done a s') => ∃ k m', run_block c k m = inl m' ∧ Q a s' m'
  | Some (Exits o) => ∃ k, run_block c k m = inr o
  | None => ∃ k m', n ≤ k ∧ run_block c k m = inl m'
  end.

Context {A B : Type}.
Implicit Types (r : option (out V H E A)) (Q : A → St V H → Mach → Prop).

Lemma sim_ret c n (a : A) s m Q : Q a s m → sim c n (ret a s) m Q.
Proof. intros HQ. by exists 0, m. Qed.
Lemma sim_bind c n r (f : A → St V H → option (out V H E B)) m Q (Q' : B → St V H → Mach → Prop) :
  sim c n r m Q →
  (∀ a s' m', r = Some (Done a s') → Q a s' m' → sim c n (f a s') m' Q') →
  sim c n (obind r f) m Q'.
Proof.
  intros Hr Hf. destruct r as [[a s'|o]|]; simpl in *; [|done..].
  destruct Hr as (k & m' & Hk & HQ). specialize (Hf a s' m' eq_refl HQ).
  destruct (f a s') as [[b s''|o]|]; simpl in *.
  - destruct Hf as (k' & m'' & Hk' & HQ'). exists (k + k'), m''. by rewrite run_block_add, Hk.
  - destruct Hf as (k' & Hk'). exists (k + k'). by rewrite run_block_add, Hk.
  - destruct Hf as (k' & m'' & Hn & Hk'). exists (k + k'), m''. rewrite run_block_add, Hk. split; [lia|done].
Qed.
Lemma sim_mono c n r m Q Q' :
  sim c n r m Q → (∀ a s' m', r = Some (Done a s') → Q a s' m' → Q' a s' m') → sim c n r m Q'.
Proof.
  intros Hr HQ. destruct r as [[a s'|o]|]; simpl in *; [|done..].
  destruct Hr as (k & m' & Hk & HQ'). eauto 6.
Qed.
(** The code goes on by itself. *)
Lemma sim_then c n r m Q Q' :
  sim c n r m Q → (∀ a s' m', Q a s' m' → ∃ k m'', run_block c k m' = inl m'' ∧ Q' a s' m'') → sim c n r m Q'.
Proof.
  intros Hr HQ. destruct r as [[a s'|o]|]; simpl in *; [|done..].
  destruct Hr as (k & m' & Hk & HQa). destruct (HQ _ _ _ HQa) as (k' & m'' & Hk' & HQa').
  exists (k + k'), m''. by rewrite run_block_add, Hk.
Qed.
Lemma sim_fuel c n n' r m Q : n' ≤ n → sim c n r m Q → sim c n' r m Q.
Proof. intros Hn. destruct r as [[a s'|o]|]; simpl; [done..|]. intros (k & m' & Hk & Hm). exists k, m'. split; [lia|done]. Qed.
(** A step counts as fuel. *)
Lemma sim_step_fuel c n r m m1 Q : step c m = inl m1 → sim c n r m1 Q → sim c (S n) r m Q.
Proof.
  intros Hm. destruct r as [[a s'|o]|]; simpl.
  - intros (k & m' & Hk & HQ). exists (S k), m'. simpl. by rewrite Hm.
  - intros (k & Hk). exists (S k). simpl. by rewrite Hm.
  - intros (k & m' & Hn & Hk). exists (S k), m'. simpl. rewrite Hm. split; [lia|done].
Qed.
Lemma sim_step c n r m m1 Q : step c m = inl m1 → sim c n r m1 Q → sim c n r m Q.
Proof. intros Hm Hr. apply (sim_fuel _ (S n)); [lia|]. by eapply sim_step_fuel. Qed.
Lemma sim_exit c n o m Q : step c m = inr o → sim c n (Some (Exits o)) m Q.
Proof. intros Hm. exists 1. simpl. by rewrite Hm. Qed.
End sim.

(** * Stages of the writer *)

Section stages.
Context {V TC D KM : Type} `{!InstrLayout V TC D KM}.
Local Abbreviation BcWriter := (BcWriter V TC D KM).
Local Abbreviation Instr := (Instr V TC D KM).
Local Abbreviation M A := (run BcWriter CodeTooBig A).
Implicit Types (w F : BcWriter) (a : BcAddr).

Definition w_len w : BcAddr := code_len (w_instrs w).
(** The number of slots in use. *)
Definition w_top w : nat := w_local_count w + w_stack_size w.

Definition loop_ok w (l : BcWriterForLoop) : Prop :=
  w_local_count w ≤ fl_iter l < w_top w ∧ fl_var l < w_top w ∧ (fl_inner_addr l <= w_len w)%N.
Record wfw w : Prop := {
  wf_da : length (w_definitely_assigned w) = w_local_count w;
  wf_stack : w_stack_size w ≤ w_max_stack_size w;
  wf_depth : length (w_for_loops w) ≤ w_max_loop_depth w;
  wf_slow : Forall (λ x, (x.1 < w_len w)%N) (w_slow_args w);
  wf_no_end : Forall not_end (w_instrs w);
  wf_loops : Forall (loop_ok w) (w_for_loops w);
}.

(** [F] is a later stage than [w]. *)
Record le w F : Prop := {
  le_code a i : get_instr (w_instrs w) a = Some i → ∃ i', get_instr (w_instrs F) a = Some i' ∧ le_instr i i';
  le_slow a s : slow_of (w_slow_args w) a = Some s → slow_of (w_slow_args F) a = Some s;
  le_local_count : w_local_count F = w_local_count w;
  le_max_stack : w_max_stack_size w ≤ w_max_stack_size F;
  le_max_depth : w_max_loop_depth w ≤ w_max_loop_depth F;
}.
(** The end. *)
Definition fin w F : Prop := le w F ∧ Forall not_end (w_instrs F).

(** Jumps to the end of the innermost loop. *)
Definition add_ends (new : list PatchAddr) (l : list BcWriterForLoop) : list BcWriterForLoop :=
  match last l with
  | Some loop =>
    take (length l - 1) l ++
    [mkForLoop (fl_iter loop) (fl_var loop) (fl_inner_addr loop) (fl_end_addrs_to_patch loop ++ new)]
  | None => l
  end.

(** [w'] comes of [w] by writing code, with the [new] jumps to the end of the innermost loop. *)
Record grows (new : list PatchAddr) w w' : Prop := {
  gr_len : (w_len w <= w_len w')%N;
  gr_code a i : get_instr (w_instrs w) a = Some i → get_instr (w_instrs w') a = Some i;
  gr_slow a s : slow_of (w_slow_args w) a = Some s → slow_of (w_slow_args w') a = Some s;
  gr_local_count : w_local_count w' = w_local_count w;
  gr_max_stack : w_max_stack_size w ≤ w_max_stack_size w';
  gr_max_depth : w_max_loop_depth w ≤ w_max_loop_depth w';
  gr_loops : w_for_loops w' = add_ends new (w_for_loops w);
  gr_pending : Forall (pending true (w_instrs w')) new;
  gr_new : Forall (λ a, (w_len w <= a)%N) new;
  gr_nodup : NoDup new;
  gr_top : w_for_loops w = [] → new = [];
}.

Lemma last_loop_snoc (l : list BcWriterForLoop) loop : last (l ++ [loop]) = Some loop.
Proof. apply last_snoc. Qed.
Lemma add_ends_snoc new (l : list BcWriterForLoop) loop :
  add_ends new (l ++ [loop]) =
  l ++ [mkForLoop (fl_iter loop) (fl_var loop) (fl_inner_addr loop) (fl_end_addrs_to_patch loop ++ new)].
Proof.
  unfold add_ends. rewrite last_snoc, length_app. simpl.
  replace (length l + 1 - 1) with (length l) by lia. by rewrite take_app_length.
Qed.
Lemma add_ends_nil l : add_ends [] l = l.
Proof.
  destruct l as [|loop l _] using rev_ind; [done|]. rewrite add_ends_snoc, app_nil_r. by destruct loop.
Qed.
Lemma add_ends_app new new' l : add_ends new' (add_ends new l) = add_ends (new ++ new') l.
Proof.
  destruct l as [|loop l _] using rev_ind; [done|]. rewrite !add_ends_snoc. simpl. by rewrite app_assoc.
Qed.
Lemma length_add_ends new l : length (add_ends new l) = length l.
Proof. destruct l as [|loop l _] using rev_ind; [done|]. rewrite add_ends_snoc, !length_app. done. Qed.
Lemma add_ends_Forall (P : BcWriterForLoop → Prop) new l :
  (∀ loop e, P loop → P (mkForLoop (fl_iter loop) (fl_var loop) (fl_inner_addr loop) e)) →
  Forall P l → Forall P (add_ends new l).
Proof.
  intros HP. destruct l as [|loop l _] using rev_ind; [done|].
  rewrite add_ends_snoc, !Forall_app, !Forall_singleton. intros [? ?]. auto.
Qed.

Lemma pending_lt loop (c : list Instr) a : pending loop c a → (a < code_len c)%N.
Proof. intros (i & Hi & _). apply get_instr_lt in Hi. pose proof (size_of_repr_pos i). lia. Qed.

Lemma add_ends_nil_inv new l : add_ends new l = [] → l = [].
Proof. intros Hl. apply (f_equal length) in Hl. rewrite length_add_ends in Hl. by apply nil_length_inv. Qed.
Lemma add_ends_inj new new' l : l ≠ [] → add_ends new l = add_ends new' l → new = new'.
Proof.
  intros Hl. destruct l as [|loop l _] using rev_ind; [done|]. rewrite !add_ends_snoc.
  intros H%app_inv_head. simplify_eq. done.
Qed.

Lemma grows_refl w : grows [] w w.
Proof. split; try done. { by rewrite add_ends_nil. } constructor. Qed.
(** What is written determines the new jumps. *)
Lemma grows_unique new new' w w' : grows new w w' → grows new' w w' → new = new'.
Proof.
  intros G G'. destruct (w_for_loops w) eqn:Hl.
  - by rewrite (gr_top _ _ _ G Hl), (gr_top _ _ _ G' Hl).
  - apply (add_ends_inj _ _ (w_for_loops w)); [by rewrite Hl|].
    by rewrite <- (gr_loops _ _ _ G), <- (gr_loops _ _ _ G').
Qed.
Lemma grows_trans new new' w w' w'' : grows new w w' → grows new' w' w'' → grows (new ++ new') w w''.
Proof.
  intros G G'. split.
  - etrans; [apply G|apply G'].
  - intros a i Hi. by apply G', G.
  - intros a s Hs. by apply G', G.
  - rewrite (gr_local_count _ _ _ G'). apply G.
  - etrans; [apply G|apply G'].
  - etrans; [apply G|apply G'].
  - rewrite (gr_loops _ _ _ G'), (gr_loops _ _ _ G). apply add_ends_app.
  - apply Forall_app. split; [|apply G']. eapply Forall_impl; [apply (gr_pending _ _ _ G)|].
    intros a (i & Hi & ?). exists i. split; [by apply G'|done].
  - apply Forall_app. split; [apply G|]. eapply Forall_impl; [apply (gr_new _ _ _ G')|].
    intros a ?. pose proof (gr_len _ _ _ G). simpl in *. lia.
  - apply NoDup_app. split; [apply G|]. split; [|apply G'].
    intros a Ha Ha'. pose proof (proj1 (Forall_forall _ _) (gr_pending _ _ _ G) _ Ha) as Hl%pending_lt.
    pose proof (proj1 (Forall_forall _ _) (gr_new _ _ _ G') _ Ha') as Hl'. unfold w_len in *. simpl in Hl'. lia.
  - intros Hl. rewrite (gr_top _ _ _ G Hl). apply (gr_top _ _ _ G').
    by rewrite (gr_loops _ _ _ G), Hl.
Qed.
Lemma grows_trans_nil new w w' w'' : grows [] w w' → grows new w' w'' → grows new w w''.
Proof. apply (grows_trans []). Qed.
Lemma grows_nil_trans new w w' w'' : grows new w w' → grows [] w' w'' → grows new w w''.
Proof. intros G G'. rewrite <- (app_nil_r new). by eapply grows_trans. Qed.

Lemma grows_le new w w' : grows new w w' → le w w'.
Proof.
  intros G. split; [|apply G..]. intros a i Hi. exists i. split; [by apply G|by left].
Qed.
Lemma le_trans w w' w'' : le w w' → le w' w'' → le w w''.
Proof.
  intros L L'. split.
  - intros a i (i' & H' & Hl)%(le_code _ _ L). apply (le_code _ _ L') in H' as (i'' & H'' & Hl').
    eauto using le_instr_trans.
  - intros a s Hs. by apply L', L.
  - rewrite (le_local_count _ _ L'). apply L.
  - etrans; [apply L|apply L'].
  - etrans; [apply L|apply L'].
Qed.
Lemma le_fin w w' F : le w w' → fin w' F → fin w F.
Proof. intros L [L' HF]. split; [by eapply le_trans|done]. Qed.
Lemma grows_fin new w w' F : grows new w w' → fin w' F → fin w F.
Proof. intros G. apply le_fin. by eapply grows_le. Qed.

(** ** Changes of the bookkeeping *)

(** [w'] differs from [w] in the stack and in what is assigned only. *)
Record same_code w w' : Prop := {
  sc_instrs : w_instrs w' = w_instrs w;
  sc_slow : w_slow_args w' = w_slow_args w;
  sc_lc : w_local_count w' = w_local_count w;
  sc_max_stack : w_max_stack_size w ≤ w_max_stack_size w';
  sc_loops : w_for_loops w' = w_for_loops w;
  sc_depth : w_max_loop_depth w' = w_max_loop_depth w;
}.
Lemma same_code_grows w w' : same_code w w' → grows [] w w'.
Proof.
  intros [Hi Hs Hl Hm Hf Hd]. split; unfold w_len; rewrite ?Hi, ?Hs, ?Hf, ?Hd; try done;
    [by rewrite add_ends_nil|constructor].
Qed.

(** ** Instructions *)

Definition emit (s : BcInstrSlowArg) (i : Instr) w : BcWriter :=
  set_instrs (w_instrs w ++ [i]) (set_slow_args (w_slow_args w ++ [(w_len w, s)]) w).

Lemma w_u32_wp n w (Q : () → BcWriter → Prop) : Q () w → wp (w_u32 n) w Q.
Proof. unfold w_u32, wp, run_result. by destruct (_ <=? _)%Z. Qed.
Lemma ip_wp w (Q : BcAddr → BcWriter → Prop) : Q (w_len w) w → wp ip w Q.
Proof. intros HQ. unfold ip. apply wp_bind. apply wp_bind. by apply w_u32_wp. Qed.
Lemma w_assert_wp (b : bool) w (Q : () → BcWriter → Prop) : b = true → Q () w → wp (w_assert b) w Q.
Proof. intros -> HQ. done. Qed.

Lemma write_instr_ret_wp s i w (Q : BcAddr → BcWriter → Prop) :
  Q (w_len w) (emit s i w) → wp (write_instr_ret_arg_explicit s i) w Q.
Proof.
  intros HQ. unfold write_instr_ret_arg_explicit. apply wp_bind, ip_wp, wp_bind. simpl.
  apply wp_bind, ip_wp. done.
Qed.
Lemma write_instr_explicit_wp s i w (Q : () → BcWriter → Prop) :
  Q () (emit s i w) → wp (write_instr_explicit s i) w Q.
Proof. intros HQ. unfold write_instr_explicit. by apply wp_bind, write_instr_ret_wp. Qed.
Lemma write_instr_wp sp i w (Q : () → BcWriter → Prop) :
  Q () (emit (mkSlowArg sp []) i w) → wp (write_instr sp i) w Q.
Proof. apply write_instr_explicit_wp. Qed.

Lemma emit_len s i w : w_len (emit s i w) = (w_len w + size_of_repr i)%N.
Proof. apply code_len_snoc. Qed.
Lemma emit_grows s i w : wfw w → grows [] w (emit s i w).
Proof.
  intros Hw. split; try done.
  - rewrite emit_len. lia.
  - intros a i'. apply get_instr_app_l.
  - intros a s'. apply slow_of_app.
  - by rewrite add_ends_nil.
  - constructor.
Qed.
Lemma wfw_loops_mono w w' :
  w_local_count w' = w_local_count w → w_top w ≤ w_top w' → (w_len w <= w_len w')%N →
  Forall (loop_ok w) (w_for_loops w) → Forall (loop_ok w') (w_for_loops w).
Proof.
  intros Hl Ht Hn H. eapply Forall_impl; [exact H|]. intros l (? & ? & ?). unfold loop_ok. rewrite Hl. repeat split; lia.
Qed.
Lemma emit_wfw s i w : wfw w → not_end i → wfw (emit s i w).
Proof.
  intros Hw Hi. pose proof (emit_len s i w) as Hl. pose proof (size_of_repr_pos i). split; try apply Hw.
  - simpl. apply Forall_app. split.
    + eapply Forall_impl; [apply Hw|]. simpl. intros x ?. rewrite Hl. lia.
    + apply Forall_singleton. simpl. rewrite Hl. lia.
  - apply Forall_app. split; [apply Hw|]. by apply Forall_singleton.
  - apply (wfw_loops_mono w); [done..|rewrite Hl; lia|apply Hw].
Qed.
Lemma emit_get s i w : get_instr (w_instrs (emit s i w)) (w_len w) = Some i.
Proof. apply get_instr_snoc. Qed.
Lemma emit_slow s i w : wfw w → slow_of (w_slow_args (emit s i w)) (w_len w) = Some s.
Proof. intros Hw. apply slow_of_snoc, Hw. Qed.

(** ** Patching *)

Lemma patch_addr_wp loop p w (Q : () → BcWriter → Prop) :
  pending loop (w_instrs w) p →
  (∀ c, patched [p] (w_instrs w) c → resolves c p (w_len w) → Q () (set_instrs c w)) →
  wp (patch_addr p) w Q.
Proof.
  intros (i & Hi & Ho & _) HQ. pose proof (get_instr_lt _ _ _ Hi) as Hlt.
  unfold patch_addr. apply wp_bind, ip_wp, wp_bind, w_assert_wp.
  { apply N.leb_le. unfold w_len. lia. }
  apply wp_bind. unfold gets, wp at 1. pose proof Hi as (c1 & c2 & Hc & ->)%get_instr_inv.
  apply wp_bind. rewrite Hc, patch_code_spec by done. cbn. rewrite Hc in HQ.
  apply HQ; [by apply patched_one|]. pose proof (patch_offset_ok _ _ _ Hi) as Hf.
  eexists _, (w_len w - code_len c1)%N. split; [apply get_instr_app|].
  split; [|split; [exact Hf|unfold w_len; lia]].
  destruct (jump_offset_set (w_len w - code_len c1)%N i) as [?|?]; [congruence|done].
Qed.
Lemma patched_pending l loop (c c' : list Instr) a : patched l c c' → a ∉ l → pending loop c a → pending loop c' a.
Proof. intros P Ha (i & Hi & ?). exists i. by rewrite (patched_other _ _ _ P). Qed.
Lemma patched_resolves l (c c' : list Instr) a t : patched l c c' → resolves c a t → resolves c' a t.
Proof.
  intros P (i & o & Hi & Ho & Hf & Ht). apply (patched_le _ _ _ P) in Hi as (i' & Hi' & [->|(o' & Ho' & ->)]).
  - by exists i, o.
  - congruence.
Qed.
Lemma patch_addrs_wp loop l w (Q : () → BcWriter → Prop) :
  Forall (pending loop (w_instrs w)) l → NoDup l →
  (∀ c, patched l (w_instrs w) c → Forall (λ a, resolves c a (w_len w)) l → Q () (set_instrs c w)) →
  wp (patch_addrs l) w Q.
Proof.
  intros Hp Hd. revert w Q Hp. induction Hd as [|p l Hin Hd IH]; intros w Q Hp HQ; simpl.
  - apply wp_ret. specialize (HQ _ (patched_refl _) (Forall_nil_2 _)). by destruct w.
  - apply Forall_cons in Hp as [Hp Hl]. apply wp_bind. eapply patch_addr_wp; [done|]. intros c Hc Hr.
    eapply IH.
    + simpl. rewrite Forall_forall in Hl |- *. intros a Ha.
      eapply patched_pending; [done| |by apply Hl]. set_solver.
    + intros c' Hc' Hr'. apply (HQ c').
      * by apply (patched_trans [p] l _ _ _ Hc).
      * assert (w_len (set_instrs c w) = w_len w) as He by apply Hc. rewrite He in Hr'.
        constructor; [|done]. by eapply patched_resolves.
Qed.

Lemma patched_le_w l c w : patched l (w_instrs w) c → le w (set_instrs c w).
Proof. intros P. split; [|done..]. apply P. Qed.
Lemma patched_wfw l c w : patched l (w_instrs w) c → wfw w → wfw (set_instrs c w).
Proof.
  intros P [? ? ? Hs He Hl]. assert (w_len (set_instrs c w) = w_len w) as Hn by apply P. split; try done.
  - simpl. eapply Forall_impl; [exact Hs|]. simpl. intros x ?. by rewrite Hn.
  - by apply P.
  - apply (wfw_loops_mono w); [done..|by rewrite Hn|done].
Qed.
Lemma patched_grows new l c w w' :
  grows new w w' → patched l (w_instrs w') c → Forall (λ a, (w_len w <= a)%N) l → Forall (λ a, a ∉ new) l →
  grows new w (set_instrs c w').
Proof.
  intros G P Hl Hn. assert (w_len (set_instrs c w') = w_len w') as He by apply P. split; try apply G.
  - rewrite He. apply G.
  - intros a i Hi. rewrite (patched_other _ _ _ P); [by apply G|]. intros Ha.
    rewrite Forall_forall in Hl. specialize (Hl _ Ha). apply get_instr_lt in Hi.
    pose proof (size_of_repr_pos i). unfold w_len in *. simpl in Hl. lia.
  - pose proof (gr_pending _ _ _ G) as Hp. rewrite Forall_forall in Hp, Hn |- *. intros a Ha.
    apply (patched_pending l _ (w_instrs w')); [done| |by apply Hp]. intros Hin. by apply (Hn a).
Qed.

(** A jump in the finished code. *)
Lemma resolved_jump w F a i t :
  le w F → get_instr (w_instrs w) a = Some i → jump_offset i = Some FORWARD → resolves (w_instrs F) a t →
  ∃ o, get_instr (w_instrs F) a = Some (set_jump_offset o i) ∧ (a + o = t)%N.
Proof.
  intros L Hi Ho (i' & o & Hi' & Ho' & Hf & Ht). apply (le_code _ _ L) in Hi as (i2 & Hi2 & Hl).
  simplify_eq. destruct Hl as [->|(o2 & _ & ->)]; [congruence|].
  destruct (jump_offset_set o2 i) as [?|He]; [congruence|]. rewrite He in Ho'. simplify_eq. eauto.
Qed.
Lemma le_resolves w F a t : le w F → resolves (w_instrs w) a t → resolves (w_instrs F) a t.
Proof.
  intros L (i & o & Hi & Ho & Hf & Ht). apply (le_code _ _ L) in Hi as (i' & Hi' & [->|(o' & Ho' & _)]).
  - by exists i, o.
  - congruence.
Qed.
End stages.

(** What it means that written code does what the evaluator says: the relation between the states of
    the two, the slots that code leaves alone, and the rules to put code together. *)

Section rel.
Context `{W : World V H E TC D KM MB} `{!InstrLayout V TC D KM}.
Local Abbreviation BcWriter := (BcWriter V TC D KM).
Local Abbreviation Mach := (Mach (V:=V) (H:=H)).
Local Abbreviation M A := (run BcWriter CodeTooBig A).
Local Abbreviation out := (out V H E).
Implicit Types (w F : BcWriter) (m : Mach) (s : St V H) (B : nat → Prop).

(** * States *)

Definition slot m (x : nat) : option (option V) := fr_slots (m_frame m) !! x.
Definition holds (x : nat) (v : V) m : Prop := slot m x = Some (Some v).
Definition put (x : nat) (v : V) s : St V H := mkSt (<[x := Some v]> (st_locals s)) (st_heap s).
Definition prog F : list (Instr V TC D KM) := finished (w_instrs F) (w_slow_args F).

(** The states agree on the variables and on the heap; the frame is the one of the code [F]. *)
Record agree F s m : Prop := {
  ag_heap : m_heap m = st_heap s;
  ag_lc : fr_local_count (m_frame m) = w_local_count F;
  ag_locals : take (w_local_count F) (fr_slots (m_frame m)) = st_locals s;
  ag_slots : length (fr_slots (m_frame m)) = w_local_count F + w_max_stack_size F;
  ag_iters : length (fr_iter_index (m_frame m)) = w_max_loop_depth F;
}.
Definition da_ok w s : Prop :=
  ∀ x, w_definitely_assigned w !! x = Some true → ∃ v, st_locals s !! x = Some (Some v).
(** At the end of what is written. *)
Definition rel w F s m : Prop := m_ip m = w_len w ∧ agree F s m ∧ da_ok w s.

Lemma agree_len F s m : agree F s m → length (st_locals s) = w_local_count F.
Proof. intros A. rewrite <- (ag_locals _ _ _ A), length_take, (ag_slots _ _ _ A). lia. Qed.
Lemma agree_local F s m x : agree F s m → x < w_local_count F → slot m x = st_locals s !! x.
Proof. intros A Hx. unfold slot. rewrite <- (ag_locals _ _ _ A). by rewrite lookup_take_lt. Qed.
Lemma agree_local_some F s m x v : agree F s m → st_locals s !! x = Some (Some v) → holds x v m.
Proof.
  intros A Hx. unfold holds. rewrite (agree_local _ _ _ _ A); [done|].
  rewrite <- (agree_len _ _ _ A). by eapply lookup_lt_Some.
Qed.

Lemma put_temp x v s : length (st_locals s) ≤ x → put x v s = s.
Proof. intros Hx. unfold put. rewrite list_insert_ge by lia. by destruct s. Qed.
Lemma put_heap x v s : st_heap (put x v s) = st_heap s.
Proof. done. Qed.

(** Slots in use keep their values, except those of [B], which have one still. *)
Record keep B w m m' : Prop := {
  kp_slots x v : x < w_top w → holds x v m → ∃ v', holds x v' m' ∧ (¬ B x → v' = v);
  kp_iter j : j < length (w_for_loops w) →
    fr_iter_index (m_frame m') !! j = fr_iter_index (m_frame m) !! j;
}.
Lemma keep_refl B w m : keep B w m m.
Proof. split; eauto. Qed.
Lemma keep_holds B w m m' x v : keep B w m m' → x < w_top w → ¬ B x → holds x v m → holds x v m'.
Proof.
  intros K Hx HB Hv. destruct (kp_slots _ _ _ _ K _ _ Hx Hv) as (v' & Hv' & Hn).
  by rewrite <- (Hn HB).
Qed.
Lemma keep_trans B1 B2 B w w1 m m1 m2 :
  keep B1 w m m1 → keep B2 w1 m1 m2 → w_top w ≤ w_top w1 → length (w_for_loops w) ≤ length (w_for_loops w1) →
  (∀ x, x < w_top w → B1 x ∨ B2 x → B x) → keep B w m m2.
Proof.
  intros K1 K2 Ht Hl HB. split.
  - intros x v Hx (v1 & H1 & E1)%(kp_slots _ _ _ _ K1); [|done].
    apply (kp_slots _ _ _ _ K2) in H1 as (v2 & H2 & E2); [|lia].
    exists v2. split; [done|]. intros HBx. specialize (HB _ Hx). rewrite E2, E1; tauto.
  - intros j Hj. rewrite (kp_iter _ _ _ _ K2) by lia. by apply K1.
Qed.
Lemma keep_mono B B' w w' m m' :
  keep B w m m' → w_top w' ≤ w_top w → length (w_for_loops w') ≤ length (w_for_loops w) →
  (∀ x, x < w_top w' → B x → B' x) → keep B' w' m m'.
Proof.
  intros K Ht Hl HB. split; [|intros j Hj; apply K; lia].
  intros x v Hx Hv. destruct (kp_slots _ _ _ _ K x v) as (v' & Hv' & Hn); [lia|done|]. exists v'.
  split; [done|]. intros HB'. apply Hn. naive_solver.
Qed.

Definition da_le (da da' : list bool) : Prop := Forall2 (λ a b, a = true → b = true) da da'.
#[global] Instance da_le_preorder : PreOrder da_le.
Proof.
  split; unfold da_le.
  - intros l. induction l; constructor; auto.
  - intros l1 l2 l3 H1. revert l3. induction H1; intros l3 H2; inversion H2; subst; constructor; auto.
Qed.
Lemma da_le_lookup da da' x : da_le da da' → da !! x = Some true → da' !! x = Some true.
Proof. intros Hl Hx. destruct (Forall2_lookup_l _ _ _ _ _ Hl Hx) as (b & -> & Hb). by rewrite Hb. Qed.
(** Code that is a statement of its own may mark more variables as assigned. *)
Definition da_rel (mk : bool) (da da' : list bool) : Prop := if mk then da_le da da' else da' = da.
#[global] Instance da_rel_preorder mk : PreOrder (da_rel mk).
Proof. destruct mk; [apply _|]. split; [done|]. intros l1 l2 l3 Hl Hl'. by rewrite Hl', Hl. Qed.
Lemma da_rel_le mk da da' : da_rel mk da da' → da_le da da'.
Proof. destruct mk; simpl; [done|]. by intros ->. Qed.
Lemma da_rel_eq mk da da' : da' = da → da_rel mk da da'.
Proof. intros ->. by destruct mk. Qed.
Lemma da_ok_le w w' s :
  da_le (w_definitely_assigned w) (w_definitely_assigned w') → da_ok w' s → da_ok w s.
Proof. intros Hl Hs x Hx. by apply Hs, (da_le_lookup _ _ _ Hl). Qed.
(** Variables that are assigned stay so. *)
Lemma da_ok_keep B w w' F s s' m m' :
  wfw w → keep B w m m' → agree F s m → agree F s' m' → w_local_count F = w_local_count w →
  w_definitely_assigned w' = w_definitely_assigned w → da_ok w s → da_ok w' s'.
Proof.
  intros Hw K A A' Hlc Hda Hs x Hx. rewrite Hda in Hx.
  assert (x < w_local_count F) as Hlt.
  { rewrite Hlc, <- (wf_da _ Hw). by eapply lookup_lt_Some. }
  destruct (Hs _ Hx) as [v Hv]. apply (agree_local_some _ _ _ _ _ A) in Hv.
  apply (kp_slots _ _ _ _ K) in Hv as (v' & Hv' & _); [|unfold w_top; lia].
  exists v'. rewrite <- (agree_local _ _ _ _ A'); done.
Qed.

(** * Code *)

(** What becomes of the result of the evaluator: the state that code leaves, and what holds
    of it, or where else code goes on; and the end of the innermost loop. *)
Record dest (A : Type) := mkDest {
  d_res : A → St V H → St V H;
  d_post : A → Mach → Prop;
  d_exit : A → option (BcWriter → St V H → Mach → Prop);
  d_end : BcAddr;
}.
Arguments mkDest {A}. Arguments d_res {A}. Arguments d_post {A}. Arguments d_exit {A}. Arguments d_end {A}.
Definition reach {A} (R : dest A) w F (a : A) s m : Prop :=
  match d_exit R a with
  | None => rel w F (d_res R a s) m ∧ d_post R a m
  | Some esc => esc F s m
  end.
Definition to_slot (Lend : BcAddr) (x : nat) : dest V := mkDest (put x) (holds x) (λ _, None) Lend.
Definition effect {A} (Lend : BcAddr) : dest A := mkDest (λ _ s, s) (λ _ _, True) (λ _, None) Lend.

Definition loop_sig (l : BcWriterForLoop) : nat * nat * BcAddr := (fl_iter l, fl_var l, fl_inner_addr l).
(** What a later stage has in common. *)
Record ctx w w1 : Prop := {
  cx_wf : wfw w1;
  cx_lc : w_local_count w1 = w_local_count w;
  cx_stack : w_stack_size w ≤ w_stack_size w1;
  cx_loops : map loop_sig (w_for_loops w1) = map loop_sig (w_for_loops w);
  cx_da : da_le (w_definitely_assigned w) (w_definitely_assigned w1);
}.
Lemma ctx_refl w : wfw w → ctx w w.
Proof. done. Qed.
Lemma ctx_trans w w1 w2 : ctx w w1 → ctx w1 w2 → ctx w w2.
Proof.
  intros C1 C2. split.
  - apply C2.
  - rewrite (cx_lc _ _ C2). apply C1.
  - etrans; [apply C1|apply C2].
  - rewrite (cx_loops _ _ C2). apply C1.
  - etrans; [apply C1|apply C2].
Qed.
Lemma ctx_top w w1 : ctx w w1 → w_top w ≤ w_top w1.
Proof. intros C. unfold w_top. rewrite (cx_lc _ _ C). pose proof (cx_stack _ _ C). lia. Qed.
Lemma ctx_depth w w1 : ctx w w1 → length (w_for_loops w1) = length (w_for_loops w).
Proof. intros C. by rewrite <- (length_map loop_sig), (cx_loops _ _ C), length_map. Qed.

Record written (mk : bool) (new : list PatchAddr) w w' : Prop := {
  wr_wf : wfw w';
  wr_grows : grows new w w';
  wr_stack : w_stack_size w' = w_stack_size w;
  wr_rel : da_rel mk (w_definitely_assigned w) (w_definitely_assigned w');
}.
Lemma wr_da mk new w w' : written mk new w w' → da_le (w_definitely_assigned w) (w_definitely_assigned w').
Proof. intros Hw. apply (da_rel_le mk), Hw. Qed.
Lemma written_marks mk new w w' : written false new w w' → written mk new w w'.
Proof. intros [? ? ? Hd]. split; [done..|]. by apply da_rel_eq. Qed.
Lemma written_true mk new w w' : written mk new w w' → written true new w w'.
Proof. intros [? ? ? Hd]. split; [done..|]. by eapply da_rel_le. Qed.
Lemma add_ends_sig new l : map loop_sig (add_ends new l) = map loop_sig l.
Proof. destruct l as [|loop l _] using rev_ind; [done|]. by rewrite add_ends_snoc, !map_app. Qed.
Lemma written_ctx mk new w w' : written mk new w w' → ctx w w'.
Proof.
  intros [Hw G Hs Hd]. split; [done|apply G|by rewrite Hs| |by eapply da_rel_le].
  by rewrite (gr_loops _ _ _ G), add_ends_sig.
Qed.
Lemma written_top mk new w w' : written mk new w w' → w_top w' = w_top w.
Proof. intros Hw. unfold w_top. by rewrite (wr_stack _ _ _ _ Hw), (gr_local_count _ _ _ (wr_grows _ _ _ _ Hw)). Qed.
Lemma written_trans mk new new' w w1 w2 :
  written mk new w w1 → written mk new' w1 w2 → written mk (new ++ new') w w2.
Proof.
  intros [W1 G1 S1 D1] [W2 G2 S2 D2]. split; [done|by eapply grows_trans|congruence|by etrans].
Qed.
Lemma written_refl mk w : wfw w → written mk [] w w.
Proof. intros Hw. split; [done|apply grows_refl|done|done]. Qed.

(** From [w] to [w'], the code does what [r] says where [P] holds. *)
Definition runs {A} new w w' (P : Mach → Prop) (r : nat → St V H → option (out A)) B (R : dest A) : Prop :=
  ∀ F, fin w' F → Forall (λ a, resolves (w_instrs F) a (d_end R)) new →
  ∀ n s m, rel w F s m → P m →
  sim (prog F) n (r n s) m (λ a s' m', keep B w m m' ∧ reach R w' F a s' m').
Definition writes {A T} mk (mm : M T) w P (r : nat → St V H → option (out A)) B (R : dest A) : Prop :=
  wp mm w (λ _ w', ∃ new, written mk new w w' ∧ runs new w w' P r B R).
End rel.
Arguments dest : clear implicits.
Arguments mkDest {V H TC D KM A}. Arguments d_res {V H TC D KM A}. Arguments d_post {V H TC D KM A}.
Arguments d_exit {V H TC D KM A}. Arguments d_end {V H TC D KM A}.
