(* ===== verification/BcRules.v ===== *)
(** Rules to put code together: sequences, temporary slots, and single instructions. *)

From S2P Require Import Prelude Hashing TableMap FastString Symbol CodeMap.
From S2P Require Import DefParams OrdMap ParamSpec Def Ir World IrEval BcInstr BcWriter BcCode BcSim.

Lemma wp_forall {S A X} `{!Inhabited X} (m : run S CodeTooBig A) s (Q : X → A → S → Prop) :
  (∀ x, wp m s (Q x)) → wp m s (λ a s', ∀ x, Q x a s').
Proof. unfold wp. destruct (m s) as [[a|e|f] s']; auto. intros HQ. exact (HQ inhabitant). Qed.

Section rules.
Context `{W : World V H E TC D KM MB} `{!InstrLayout V TC D KM}.
Local Abbreviation BcWriter := (BcWriter V TC D KM).
Local Abbreviation Mach := (Mach (V:=V) (H:=H)).
Local Abbreviation M A := (run BcWriter CodeTooBig A).
Local Abbreviation out := (out V H E).
Local Abbreviation dest := (dest V H TC D KM).
Context {mk : bool}.
Implicit Types (w F : BcWriter) (m : Mach) (s : St V H) (B : nat → Prop) (P : Mach → Prop).

#[export] Instance V_inhabited : Inhabited V := populate new_none.

(** ** Weakening *)

Lemma runs_mono {A} new w w' P P' (r r' : nat → St V H → option (out A)) B B' (R R' : dest A) :
  runs new w w' P r B R → d_end R' = d_end R → (∀ m, P' m → P m) →
  (∀ n s, r' n s = r n s) → (∀ x, x < w_top w → B x → B' x) →
  (∀ F a s m, agree F s m ∨ True → reach R w' F a s m → reach R' w' F a s m) →
  runs new w w' P' r' B' R'.
Proof.
  intros Hr He HP Hrr HB HR F HF Hn n s m Hm HPm. rewrite He in Hn. rewrite Hrr.
  eapply sim_mono; [by apply Hr; auto|]. intros a s' m' _ [K Ha]. split; [|by apply HR; auto].
  by eapply keep_mono.
Qed.
Lemma writes_mono {A T} (mm : M T) w P P' (r r' : nat → St V H → option (out A)) B B' (R : dest A) :
  writes mk mm w P r B R → (∀ m, P' m → P m) → (∀ n s, r' n s = r n s) →
  (∀ x, x < w_top w → B x → B' x) → writes mk mm w P' r' B' R.
Proof.
  intros Hw HP Hr HB. eapply wp_mono; [exact Hw|]. intros _ w' (new & Hn & Hrun). exists new.
  split; [done|]. by eapply runs_mono.
Qed.
Lemma writes_marks {A T} (mm : M T) w P (r : nat → St V H → option (out A)) B (R : dest A) :
  writes false mm w P r B R → writes mk mm w P r B R.
Proof.
  intros Hw. eapply wp_mono; [exact Hw|]. intros _ w' (new & Hn & Hr). exists new.
  split; [by apply written_marks|done].
Qed.
Lemma writes_pre {A T} (mm : M T) w P P' (r : nat → St V H → option (out A)) B (R : dest A) :
  writes mk mm w P r B R → (∀ m, P' m → P m) → writes mk mm w P' r B R.
Proof. intros Hw HP. by eapply writes_mono. Qed.
Lemma writes_ext {A T} (mm : M T) w P (r r' : nat → St V H → option (out A)) B (R : dest A) :
  writes mk mm w P r B R → (∀ n s, r' n s = r n s) → writes mk mm w P r' B R.
Proof. intros Hw Hr. by eapply writes_mono. Qed.

(** One text is written for all values that turn up when it runs. *)
Lemma writes_forall {X A T} `{!Inhabited X} (mm : M T) w (P : X → Mach → Prop)
    (r : X → nat → St V H → option (out A)) B (R : X → dest A) :
  (∀ x, writes mk mm w (P x) (r x) B (R x)) →
  wp mm w (λ _ w', ∃ new, written mk new w w' ∧ ∀ x, runs new w w' (P x) (r x) B (R x)).
Proof.
  intros Hw. eapply wp_mono; [exact (wp_forall (X:=X) mm w _ Hw)|]. cbn beta. intros _ w' Hx.
  destruct (Hx (inhabitant (A:=X))) as (new & Hn & _). exists new. split; [done|]. intros x.
  destruct (Hx x) as (new' & Hn' & Hr). by rewrite (grows_unique new new' w w' (wr_grows _ _ _ _ Hn) (wr_grows _ _ _ _ Hn')).
Qed.

(** ** Sequences *)

Lemma rel_ctx_len {A} new w w1 F (R : dest A) a s m :
  written mk new w w1 → fin w1 F → rel w1 F (d_res R a s) m → length (st_locals (d_res R a s)) = w_local_count w.
Proof.
  intros Hw [L _] (_ & Ag & _). rewrite (agree_len _ _ _ Ag), (le_local_count _ _ L).
  apply (wr_grows _ _ _ _ Hw).
Qed.

Section seq.
Context {A1 A2 : Type} (r1 : nat → St V H → option (out A1)) (r2 : A1 → nat → St V H → option (out A2)).
Context (P : Mach → Prop) (P2 : A1 → Mach → Prop) (B1 B2 B : nat → Prop) (R1 : dest A1) (R2 : dest A2).
(** How the second part goes on from the first. *)
Record links w (r : A1 → nat → St V H → option (out A2)) : Prop := {
  ln_end : d_end R1 = d_end R2;
  ln_exit a esc : d_exit R1 a = Some esc → ∃ b, d_exit R2 b = Some esc ∧ ∀ n s, r a n s = ret b s;
  ln_next a n s : d_exit R1 a = None → length (st_locals (d_res R1 a s)) = w_local_count w →
    r a n s = r2 a n (d_res R1 a s);
  ln_post a m m' : d_exit R1 a = None → P m → keep B1 w m m' → d_post R1 a m' → P2 a m';
  ln_slots x : x < w_top w → B1 x ∨ B2 x → B x;
}.

Lemma runs_seq new1 new2 w w1 w2 r :
  links w r → written mk new1 w w1 → written mk new2 w1 w2 → runs new1 w w1 P r1 B1 R1 →
  (∀ a, d_exit R1 a = None → runs new2 w1 w2 (P2 a) (r2 a) B2 R2) →
  runs (new1 ++ new2) w w2 P (λ n s, do a, s <~ r1 n s; r a n s) B R2.
Proof.
  intros [He Hx Hl Hp HB] W1 W2 H1 H2 F HF Hn n s m Hm HP. apply Forall_app in Hn as [Hn1 Hn2].
  assert (fin w1 F) as HF1 by (eapply grows_fin; [apply W2|done]).
  eapply sim_bind; [apply H1; rewrite ?He; done|]. intros a s1 m1 _ [K1 HR1]. unfold reach in HR1.
  destruct (d_exit R1 a) as [esc|] eqn:Ha.
  - destruct (Hx _ _ Ha) as (b & Hb & ->). apply sim_ret. split.
    + eapply keep_mono; [exact K1|done|done|]. intros x ? ?. apply HB; auto.
    + unfold reach. by rewrite Hb.
  - destruct HR1 as [Hm1 Hp1]. rewrite Hl by (try done; by eapply rel_ctx_len).
    eapply sim_mono; [apply (H2 a); [done|done|done|done|by eapply Hp]|]. intros b s2 m2 _ [K2 HR2]. split; [|done].
    pose proof (written_top _ _ _ _ W1). eapply keep_trans; [exact K1|exact K2|lia| |exact HB].
    by rewrite (ctx_depth _ _ (written_ctx _ _ _ _ W1)).
Qed.

Lemma writes_seq {T1 T2} `{!Inhabited A1} (m1 : M T1) (m2 : T1 → M T2) w r :
  writes mk m1 w P r1 B1 R1 → links w r →
  (∀ t w1, ctx w w1 → w_stack_size w1 = w_stack_size w → ∀ a, d_exit R1 a = None → writes mk (m2 t) w1 (P2 a) (r2 a) B2 R2) →
  (∃ a, d_exit R1 a = None) →
  writes mk (t ← m1; m2 t) w P (λ n s, do a, s <~ r1 n s; r a n s) B R2.
Proof.
  intros H1 HL H2 [a0 Ha0]. apply wp_bind. eapply wp_mono; [exact H1|]. intros t w1 (new1 & W1 & Hr1).
  pose (X := {a : A1 | d_exit R1 a = None}). assert (Inhabited X) as HX by exact (populate (exist _ a0 Ha0)).
  eapply wp_mono.
  { apply (writes_forall (X:=X) (m2 t) w1 (λ a, P2 (`a)) (λ a, r2 (`a)) B2 (λ _, R2)). intros [a Ha].
    apply H2; [by eapply written_ctx|apply W1|done]. }
  intros _ w2 (new2 & W2 & Hr2). exists (new1 ++ new2). split; [by eapply written_trans|].
  eapply runs_seq; [done..|]. intros a Ha. apply (Hr2 (exist _ a Ha)).
Qed.
End seq.

(** ** Temporary slots *)

Definition pushed (n : nat) w : BcWriter :=
  set_stack (w_stack_size w + n) (Nat.max (w_max_stack_size w) (w_stack_size w + n)) w.
Definition popped (n : nat) w : BcWriter := set_stack (w_stack_size w - n) (w_max_stack_size w) w.

Lemma pushed_top n w : w_top (pushed n w) = w_top w + n.
Proof. unfold w_top. simpl. lia. Qed.
Lemma pushed_ctx n w : wfw w → ctx w (pushed n w).
Proof.
  intros Hw. split; [|done|simpl; lia|done|done]. split; try apply Hw; simpl; [lia|].
  apply (wfw_loops_mono w); [done| |done|apply Hw]. rewrite pushed_top. lia.
Qed.
Lemma popped_written new n w w' : wfw w → written mk new (pushed n w) w' → written mk new w (popped n w').
Proof.
  intros Hw [[Hd Hs He Hsl Hne Hl] G Hst Hda]. simpl in *. pose proof (gr_local_count _ _ _ G) as Hlc. simpl in Hlc.
  pose proof (gr_max_stack _ _ _ G) as Hms. simpl in Hms.
  pose proof (gr_loops _ _ _ G) as Hfl. simpl in Hfl.
  split; simpl; [|split; try apply G; simpl; lia|lia|done].
  split; simpl; try done; [lia|]. rewrite Hfl. apply add_ends_Forall; [done|].
  assert (w_top (popped n w') = w_top w) as Ht by (unfold w_top; simpl; lia).
  eapply Forall_impl; [apply Hw|]. intros l (? & ? & ?). pose proof (gr_len _ _ _ G).
  unfold loop_ok. rewrite Ht. simpl. rewrite Hlc. unfold w_len in *. simpl in *. repeat split; lia.
Qed.
Lemma popped_fin n w F : fin (popped n w) F → fin w F.
Proof. intros [[? ? ? ? ?] ?]. split; [split|]; done. Qed.
Lemma popped_runs {A} new n w w' P (r : nat → St V H → option (out A)) B B' (R : dest A) :
  runs new (pushed n w) w' P r B R → (∀ x, x < w_top w → B x → B' x) → runs new w (popped n w') P r B' R.
Proof.
  intros Hr HB F HF Hn n' s m Hm HP.
  pose proof (popped_fin _ _ _ HF) as HF'.
  eapply sim_mono; [apply (Hr F HF' Hn); [exact Hm|done]|]. intros a s' m' _ [K HR]. split; [|done].
  eapply keep_mono; [exact K|rewrite pushed_top; lia|done|done].
Qed.
Lemma writes_stack {A T} n (mm : M T) w P (r : nat → St V H → option (out A)) B B' (R : dest A) :
  wfw w → writes mk mm (pushed n w) P r B R → (∀ x, x < w_top w → B x → B' x) →
  writes mk (_ ← stack_add n; r ← mm; _ ← stack_sub n; mret r) w P r B' R.
Proof.
  intros Hw Hm HB. unfold stack_add. apply wp_bind, wp_bind. unfold gets at 1, wp at 1.
  apply wp_bind, w_u32_wp. apply wp_bind. eapply wp_mono; [exact Hm|]. intros t w' (new & Hn & Hr).
  unfold stack_sub. apply wp_bind, wp_bind. unfold gets, wp at 1. apply wp_bind, w_assert_wp.
  { apply Nat.leb_le. rewrite (wr_stack _ _ _ _ Hn). simpl. lia. }
  unfold modify_w, wp at 1. apply wp_ret. exists new.
  split; [by apply popped_written|by eapply popped_runs].
Qed.
Lemma writes_alloc_slot {A T} (k : nat → M T) w P (r : nat → St V H → option (out A)) B B' (R : dest A) :
  wfw w → writes mk (k (w_top w)) (pushed 1 w) P r B R → (∀ x, x < w_top w → B x → B' x) →
  writes mk (alloc_slot k) w P r B' R.
Proof.
  intros Hw Hk HB. unfold alloc_slot, top_slot. apply wp_bind, wp_bind. unfold gets, wp at 1.
  apply wp_bind, w_u32_wp, wp_ret. by apply (writes_stack 1 (k (w_top w)) w P r B).
Qed.
Lemma writes_alloc_slots {A T} n (k : BcSlotInRange → M T) w P (r : nat → St V H → option (out A)) B B' (R : dest A) :
  wfw w → writes mk (k (mkRange (w_top w) (w_top w + n))) (pushed n w) P r B R → (∀ x, x < w_top w → B x → B' x) →
  writes mk (alloc_slots n k) w P r B' R.
Proof.
  intros Hw Hk HB. unfold alloc_slots, top_slot. apply wp_bind, wp_bind. unfold gets, wp at 1.
  apply wp_bind, w_u32_wp, wp_ret. apply wp_bind, w_u32_wp. by apply (writes_stack n (k _) w P r B).
Qed.
End rules.

(** Single instructions: how a step of the interpreter reads and writes slots, and the rules for
    instructions that go on to the following one, for moves and for loads and stores of variables. *)

Section leaf.
Context `{W : World V H E TC D KM MB} `{!InstrLayout V TC D KM}.
Local Abbreviation BcWriter := (BcWriter V TC D KM).
Local Abbreviation Instr := (Instr V TC D KM).
Local Abbreviation Mach := (Mach (V:=V) (H:=H)).
Local Abbreviation M A := (run BcWriter CodeTooBig A).
Local Abbreviation I A := (run (BcFrame V * H) E A).
Local Abbreviation out := (out V H E).
Local Abbreviation dest := (dest V H TC D KM).
Context {mk : bool}.
Implicit Types (w F : BcWriter) (m : Mach) (s : St V H) (B : nat → Prop) (P : Mach → Prop) (i : Instr) (h : H).

(** ** A step *)

Definition after (sl : BcInstrSlowArg) (x : result E InstrControl * (BcFrame V * H)) : Mach + Outcome V H E :=
  match x with
  | (Ok (Goto ip), (fr, h)) => inl (mkMach ip fr h)
  | (Ok (ReturnWith v), (_, h)) => inr (Returned v h)
  | (Err e, (_, h)) => inr (Raised (add_span_to_expr_error e (sa_span sl) h) h)
  | (Fault f, _) => inr (Faulted f)
  end.
Lemma step_at F a i sl m :
  Forall not_end (w_instrs F) → get_instr (w_instrs F) a = Some i → slow_of (w_slow_args F) a = Some sl →
  m_ip m = a → step (prog F) m = after sl (run_instr (Ok (sa_spans sl)) a i (m_frame m, m_heap m)).
Proof.
  intros Hne Hi Hs Ha. unfold step. rewrite Ha.
  unfold prog at 1, finished. rewrite (get_instr_app_l _ _ _ _ Hi).
  unfold prog. rewrite (slow_arg_at_finished _ _ _ _ _ Hne Hi Hs). simpl.
  destruct (run_instr _ _ _ _) as [[[ip|v]|e|f] [fr h]]; done.
Qed.
(** The instruction that has just been written. *)
Lemma step_emit F sl i w s m :
  wfw w → fin (emit sl i w) F → jump_offset i = None → rel w F s m →
  step (prog F) m = after sl (run_instr (Ok (sa_spans sl)) (w_len w) i (m_frame m, m_heap m)).
Proof.
  intros Hw [L Hne] Hi (Hip & _). apply step_at; [done| | |done].
  - destruct (le_code _ _ L _ _ (emit_get sl i w)) as (i' & Hi' & Hl).
    by rewrite (le_instr_plain _ _ Hi Hl) in Hi'.
  - apply (le_slow _ _ L). by apply emit_slow.
Qed.

Definition no_flow i : bool :=
  match i with
  | InstrBr _ | InstrIfBr _ _ | InstrIfNotBr _ _ | InstrIter _ _ _ _ _ | InstrContinue _ _ _ _ _
  | InstrBreak _ _ | InstrIterStop _ | InstrReturnConst _ | InstrReturn _ | InstrReturnCheckType _
  | InstrEnd _ _ => false
  | _ => true
  end.
Lemma run_no_flow spans a i x :
  no_flow i = true →
  run_instr spans a i x = (_ ← run_with_args spans i; mret (Goto (a + size_of_repr i)%N)) x.
Proof. by destruct i. Qed.
Lemma no_flow_jump i : no_flow i = true → jump_offset i = None ∧ not_end i.
Proof. by destruct i. Qed.
Lemma emit_written sl i w : wfw w → not_end i → written mk [] w (emit sl i w).
Proof. intros Hw Hi. split; [by apply emit_wfw|by apply emit_grows|done|done]. Qed.

(** ** Slots *)

Lemma get_bc_slot_holds x v m :
  holds x v m → get_bc_slot (E:=E) x (m_frame m, m_heap m) = (Ok v, (m_frame m, m_heap m)).
Proof. unfold holds, slot, get_bc_slot. by intros ->. Qed.
Lemma bind_get {A} x v m (k : V → I A) :
  holds x v m → (v ← get_bc_slot x; k v) (m_frame m, m_heap m) = k v (m_frame m, m_heap m).
Proof. intros Hx. unfold mbind, run_bind. by rewrite (get_bc_slot_holds _ _ _ Hx). Qed.

Definition range_holds (l : list nat) (vs : list V) m : Prop := Forall2 (λ x v, holds x v m) l vs.
Lemma get_slots_holds l vs m :
  range_holds l vs m → get_slots (E:=E) l (m_frame m, m_heap m) = (Ok vs, (m_frame m, m_heap m)).
Proof.
  induction 1 as [|x v l vs Hx Hl IH]; [done|]. simpl. rewrite (bind_get _ _ _ _ Hx).
  unfold mbind, run_bind. by rewrite IH.
Qed.
Definition range_slots (r : BcSlotInRange) : list nat := seq (range_start r) (range_len r).
Lemma bind_get_range {A} r vs m (k : list V → I A) :
  range_holds (range_slots r) vs m →
  (vs ← get_bc_slot_range r; k vs) (m_frame m, m_heap m) = k vs (m_frame m, m_heap m).
Proof. intros Hx. unfold mbind, run_bind, get_bc_slot_range. fold (range_slots r). by rewrite (get_slots_holds _ _ _ Hx). Qed.
Definition opt_holds (o : option nat) (v : option V) m : Prop :=
  match o, v with Some x, Some v => holds x v m | None, None => True | _, _ => False end.
Lemma bind_get_option {A} o v m (k : option V → I A) :
  opt_holds o v m → (v ← get_slot_option o; k v) (m_frame m, m_heap m) = k v (m_frame m, m_heap m).
Proof.
  destruct o as [x|], v as [v|]; simpl; try done. intros Hx.
  unfold mbind at 1, run_bind at 1. by rewrite (bind_get _ _ _ _ Hx).
Qed.

Definition set_fr (x : nat) (v : V) (fr : BcFrame V) : BcFrame V :=
  mkFrame (fr_local_count fr) (<[x := Some v]> (fr_slots fr)) (fr_iter_index fr).
Lemma set_bc_slot_ok x v fr (h : H) :
  x < length (fr_slots fr) → set_bc_slot (E:=E) x v (fr, h) = (Ok (), (set_fr x v fr, h)).
Proof. intros Hx. unfold set_bc_slot. by rewrite (proj2 (Nat.ltb_lt _ _) Hx). Qed.
Lemma agree_set F s m x v ip h :
  agree F s m → agree F (put x v (mkSt (st_locals s) h)) (mkMach ip (set_fr x v (m_frame m)) h).
Proof.
  intros [Hh Hlc Hl Hs Hi]. split; simpl; try done; [|by rewrite length_insert].
  rewrite <- Hl. destruct (decide (x < w_local_count F)).
  - by rewrite take_insert_lt.
  - rewrite take_insert_ge by lia. rewrite list_insert_ge; [done|]. rewrite length_take. lia.
Qed.
Lemma keep_set w x v ip m h : keep (λ y, y = x) w m (mkMach ip (set_fr x v (m_frame m)) h).
Proof.
  split; [|done]. intros y v' _. unfold holds, slot. simpl. intros Hy. destruct (decide (y = x)) as [->|Hyx].
  - exists v. split; [|done]. rewrite list_lookup_insert_eq; [done|]. by eapply lookup_lt_Some.
  - exists v'. split; [|done]. by rewrite list_lookup_insert_ne.
Qed.
Lemma holds_set x v ip m h :
  x < length (fr_slots (m_frame m)) → holds x v (mkMach ip (set_fr x v (m_frame m)) h).
Proof. intros Hx. unfold holds, slot. simpl. by rewrite list_lookup_insert_eq. Qed.
Lemma keep_same w m ip h : keep (λ _, False) w m (mkMach ip (m_frame m) h).
Proof. by split; eauto. Qed.

(** ** Instructions that go on to the following one *)

(** What an instruction may rely on. *)
Record at_ w F s m : Prop := {
  at_agree : agree F s m;
  at_da : da_ok w s;
  at_lc : w_local_count F = w_local_count w;
  at_top : w_top w ≤ length (fr_slots (m_frame m));
}.
Lemma rel_at w w' F s m : wfw w → le w w' → fin w' F → rel w F s m → at_ w F s m.
Proof.
  intros Hw L [L' _] (_ & Ag & Hda). pose proof (le_trans _ _ _ L L') as LF. split; [done..| |].
  - apply LF.
  - rewrite (ag_slots _ _ _ Ag), (le_local_count _ _ LF). unfold w_top. pose proof (wf_stack _ Hw).
    pose proof (le_max_stack _ _ LF). lia.
Qed.

Definition instr_does {A} sl i w F n s m (r : nat → St V H → option (out A)) B (R : dest A) : Prop :=
  match run_with_args (Ok (sa_spans sl)) i (m_frame m, m_heap m) with
  | (Ok _, (fr, h)) =>
    ∃ a s', r n s = ret a s' ∧ d_exit R a = None ∧ ∀ ip, let m' := mkMach ip fr h in
    agree F (d_res R a s') m' ∧ keep B w m m' ∧ d_post R a m'
  | (Err e, (_, h)) => r n s = raise (sa_span sl) e h
  | (Fault f, _) => r n s = Some (Exits (Faulted f))
  end.
Lemma writes_instr {A} sl i w P (r : nat → St V H → option (out A)) B (R : dest A) :
  wfw w → no_flow i = true →
  (∀ F n s m, at_ w F s m → P m → instr_does sl i w F n s m r B R) →
  writes mk (write_instr_explicit sl i) w P r B R.
Proof.
  intros Hw Hi Hr. destruct (no_flow_jump _ Hi) as [Hj Hne]. apply write_instr_explicit_wp. exists [].
  pose proof (emit_written sl i w Hw Hne) as W1. split; [done|]. intros F HF _ n s m Hm HP.
  pose proof (grows_le _ _ _ (wr_grows _ _ _ _ W1)) as L. pose proof (rel_at _ _ _ _ _ Hw L HF Hm) as Hat.
  pose proof (step_emit _ _ _ _ _ _ Hw HF Hj Hm) as Hst. rewrite run_no_flow in Hst by done.
  specialize (Hr F n s m Hat HP). unfold instr_does in Hr. unfold mbind, run_bind in Hst.
  destruct (run_with_args _ _ _) as [[[]|e|f] [fr h]]; simpl in Hst.
  - destruct Hr as (a & s' & -> & Ha & Hm'). eapply sim_step; [exact Hst|]. apply sim_ret.
    destruct (Hm' (w_len w + size_of_repr i)%N) as (Ag & K & HQ). split; [done|]. unfold reach. rewrite Ha.
    split; [|done]. split; [by rewrite emit_len|]. split; [done|].
    destruct Hm as (_ & Ag0 & Hda). eapply da_ok_keep; [done|exact K|exact Ag0|exact Ag|apply Hat|done|done].
  - rewrite Hr. by apply sim_exit.
  - rewrite Hr. by apply sim_exit.
Qed.

(** An operation whose result goes to a slot. *)
Lemma writes_op sl i w P (op : Op H E V) (r : nat → St V H → option (out V)) x Lend :
  wfw w → no_flow i = true → x < w_top w →
  (∀ m, P m → run_with_args (Ok (sa_spans sl)) i (m_frame m, m_heap m) =
              (v ← heap_op op; set_bc_slot x v) (m_frame m, m_heap m)) →
  (∀ n s, r n s = at_span (sa_span sl) op s) →
  writes mk (write_instr_explicit sl i) w P r (λ y, y = x) (to_slot Lend x).
Proof.
  intros Hw Hi Hx Hrun Hr. apply writes_instr; [done..|]. intros F n s m Hat HP.
  unfold instr_does. rewrite (Hrun _ HP), Hr. unfold mbind, run_bind, heap_op, at_span.
  rewrite (ag_heap _ _ _ (at_agree _ _ _ _ Hat)). destruct (op (st_heap s)) as [[v|e|f] h]; [|done..].
  pose proof (at_top _ _ _ _ Hat). rewrite set_bc_slot_ok by lia. eexists v, _. split; [done|]. split; [done|].
  intros ip. simpl. split_and!; [apply agree_set, Hat|apply keep_set|]. apply holds_set. lia.
Qed.
(** An operation without a result. *)
Lemma agree_heap F s m ip h : agree F s m → agree F (mkSt (st_locals s) h) (mkMach ip (m_frame m) h).
Proof. by intros [? ? ? ? ?]. Qed.
Lemma writes_effect sl i w P (op : Op H E ()) (r : nat → St V H → option (out ())) Lend :
  wfw w → no_flow i = true →
  (∀ m, P m → run_with_args (Ok (sa_spans sl)) i (m_frame m, m_heap m) = heap_op op (m_frame m, m_heap m)) →
  (∀ n s, r n s = at_span (sa_span sl) op s) →
  writes mk (write_instr_explicit sl i) w P r (λ _, False) (effect Lend).
Proof.
  intros Hw Hi Hrun Hr. apply writes_instr; [done..|]. intros F n s m Hat HP.
  unfold instr_does. rewrite (Hrun _ HP), Hr. unfold heap_op, at_span.
  rewrite (ag_heap _ _ _ (at_agree _ _ _ _ Hat)). destruct (op (st_heap s)) as [[[]|e|f] h]; [|done..].
  eexists (), _. split; [done|]. split; [done|]. intros ip. simpl.
  split_and!; [by eapply agree_heap, Hat|apply keep_same|done].
Qed.

(** ** Values that are found when the code runs *)

Lemma writes_case {X A T} `{!Inhabited X} (mm : M T) w (P : Mach → Prop) (P' : X → Mach → Prop)
    (r : nat → St V H → option (out A)) (r' : X → nat → St V H → option (out A)) B (R : dest A) :
  wfw w → (∀ x, writes mk mm w (P' x) (r' x) B R) →
  (∀ F n s m, at_ w F s m → P m → ∃ x, P' x m ∧ r n s = r' x n s) →
  writes mk mm w P r B R.
Proof.
  intros Hw Hx HP. eapply wp_mono; [by apply (writes_forall (mk:=mk) mm w P' r' B (λ _, R))|].
  intros _ w' (new & Hn & Hr). exists new. split; [done|]. intros F HF Hres n s m Hm HPm.
  destruct (HP F n s m) as (x & HPx & ->); [|done|by apply (Hr x)].
  eapply rel_at; [done|eapply grows_le, Hn|done|done].
Qed.
(** The variable [x] as a destination. *)
Lemma writes_set_local {T} (mm : M T) w P (r : nat → St V H → option (out V)) B x Lend :
  wfw w → x < w_local_count w → writes mk mm w P r B (to_slot Lend x) →
  writes mk mm w P (λ n s, do v, s <~ r n s; set_local x v s) B (effect Lend).
Proof.
  intros Hw Hx Hr. eapply wp_mono; [exact Hr|]. intros _ w' (new & Hn & Hruns). exists new.
  split; [done|]. intros F HF Hres n s m Hm HPm.
  eapply sim_bind; [by apply Hruns|]. intros v s' m' _ [K [Hm' _]]. simpl in Hm'.
  pose proof (rel_ctx_len _ _ _ _ (to_slot Lend x) _ _ _ Hn HF Hm') as Hlen. simpl in Hlen.
  rewrite length_insert in Hlen. unfold set_local. rewrite (proj2 (Nat.ltb_lt _ _)) by lia.
  apply sim_ret. by split.
Qed.

(** ** Moves, constants and variables *)

Lemma assert_slot_wp x w (Q : () → BcWriter → Prop) : x < w_top w → Q () w → wp (assert_slot x) w Q.
Proof.
  intros Hx HQ. apply wp_bind. unfold gets, wp at 1. apply w_assert_wp; [|done]. by apply Nat.ltb_lt.
Qed.
Lemma assert_local_wp x w (Q : () → BcWriter → Prop) : x < w_local_count w → Q () w → wp (assert_local x) w Q.
Proof.
  intros Hx HQ. apply wp_bind. unfold gets, wp at 1. apply w_assert_wp; [|done]. by apply Nat.ltb_lt.
Qed.
Lemma try_da_wp x w (Q : option nat → BcWriter → Prop) :
  wfw w → x < w_local_count w →
  Q (if decide (w_definitely_assigned w !! x = Some true) then Some x else None) w →
  wp (try_definitely_assigned x) w Q.
Proof.
  intros Hw Hx HQ. unfold try_definitely_assigned. apply wp_bind. unfold gets at 1, wp at 1.
  apply wp_bind, w_assert_wp; [by apply Nat.ltb_lt|]. apply wp_bind. unfold gets, wp at 1.
  assert (x < length (w_definitely_assigned w)) as [b Hb]%lookup_lt_is_Some_2 by by rewrite (wf_da _ Hw).
  rewrite Hb in HQ |- *. apply wp_bind, wp_ok, wp_ret. destruct b; case_decide; simplify_eq; done.
Qed.

Lemma at_span_ok {A} sp (a : A) s : at_span (E:=E) sp (λ h, (Ok a, h)) s = ret a s.
Proof. by destruct s. Qed.
Lemma writes_const sp v x w P Lend :
  wfw w → x < w_top w → writes mk (write_const sp v x) w P (λ _ s, ret v s) (λ y, y = x) (to_slot Lend x).
Proof.
  intros Hw Hx. unfold write_const. apply wp_bind, assert_slot_wp; [done|].
  apply (writes_op _ _ _ _ (λ h, (Ok v, h))); [done..|]. intros n s. by rewrite at_span_ok.
Qed.
Lemma writes_mov sp a b v w P Lend :
  wfw w → a < w_top w → b < w_top w → (∀ m, P m → holds a v m) →
  writes mk (write_mov sp a b) w P (λ _ s, ret v s) (λ y, y = b) (to_slot Lend b).
Proof.
  intros Hw Ha Hb HP. unfold write_mov. apply wp_bind, assert_slot_wp; [done|].
  apply wp_bind, assert_slot_wp; [done|]. destruct (Nat.eqb_spec a b) as [->|Hab].
  - apply wp_ret. exists []. split; [by apply written_refl|]. intros F HF _ n s m Hm HPm. apply sim_ret.
    split; [apply keep_refl|]. specialize (HP _ HPm). split; [|done]. simpl.
    replace (put b v s) with s; [done|]. destruct Hm as (_ & Ag & _). unfold put.
    destruct (decide (b < w_local_count F)) as [Hlt|Hge].
    + rewrite list_insert_id; [by destruct s|]. by rewrite <- (agree_local _ _ _ _ Ag).
    + symmetry. apply put_temp. rewrite (agree_len _ _ _ Ag). lia.
  - apply (writes_op _ _ _ _ (λ h, (Ok v, h))); [done..| |intros n s; by rewrite at_span_ok].
    intros m HPm. apply (bind_get a v m). auto.
Qed.

Lemma fr_get_slot_agree F s m x :
  agree F s m → x < w_local_count F →
  fr_get_slot (E:=E) x (m_frame m, m_heap m) = (match st_locals s !! x with Some o => Ok o | None => UB end, (m_frame m, m_heap m)).
Proof.
  intros Ag Hx. unfold fr_get_slot. rewrite <- (agree_local _ _ _ _ Ag Hx). unfold slot.
  destruct (fr_slots _ !! x) as [o|] eqn:Ho; [|done]. by rewrite (ag_lc _ _ _ Ag), (proj2 (Nat.ltb_lt _ _)).
Qed.
Lemma get_slot_local_agree F s m x :
  agree F s m → x < w_local_count F →
  get_slot_local x (m_frame m, m_heap m) =
    (match st_locals s !! x with
     | Some (Some v) => Ok v
     | Some None => Err (local_var_referenced_before_assignment x (st_heap s))
     | None => UB
     end, (m_frame m, m_heap m)).
Proof.
  intros Ag Hx. unfold get_slot_local, mbind, run_bind. rewrite (fr_get_slot_agree _ _ _ _ Ag Hx).
  destruct (st_locals s !! x) as [[v|]|]; [done| |done]. unfold local_error. by rewrite (ag_heap _ _ _ Ag).
Qed.
Lemma at_set w F s m x v : at_ w F s m → x < w_top w →
  set_bc_slot (E:=E) x v (m_frame m, m_heap m) = (Ok (), (set_fr x v (m_frame m), m_heap m)).
Proof. intros Hat Hx. pose proof (at_top _ _ _ _ Hat). rewrite set_bc_slot_ok; [done|lia]. Qed.
Lemma set_does w F s m x v ip Lend :
  at_ w F s m → x < w_top w → let m' := mkMach ip (set_fr x v (m_frame m)) (m_heap m) in
  agree F (d_res (to_slot (V:=V) (H:=H) (TC:=TC) (D:=D) (KM:=KM) Lend x) v s) m' ∧ keep (λ y, y = x) w m m' ∧ holds x v m'.
Proof.
  intros Hat Hx. pose proof (at_top _ _ _ _ Hat). simpl. split_and!; [|apply keep_set|apply holds_set; lia].
  rewrite (ag_heap _ _ _ (at_agree _ _ _ _ Hat)). destruct s as [l h]. by apply (agree_set F (mkSt l h)), Hat.
Qed.
Lemma writes_load_local sp x target w P Lend :
  wfw w → x < w_local_count w → target < w_top w →
  writes mk (write_load_local sp x target) w P (λ _ s, get_local sp x s) (λ y, y = target) (to_slot Lend target).
Proof.
  intros Hw Hx Ht. unfold write_load_local. apply wp_bind, assert_local_wp; [done|].
  apply wp_bind, try_da_wp; [done..|]. case_decide as Hda.
  - apply (writes_case _ _ _ (holds x) _ (λ v _ s, ret v s)); [done| |].
    + intros v. apply writes_mov; [done|unfold w_top; lia|done|done].
    + intros F n s m Hat HP. destruct (at_da _ _ _ _ Hat _ Hda) as [v Hv]. exists v.
      split; [by eapply agree_local_some; [apply Hat|]|]. unfold get_local. by rewrite Hv.
  - apply writes_instr; [done..|]. intros F n s m Hat HP. unfold instr_does. simpl.
    unfold run_InstrLoadLocal, mbind, run_bind. pose proof (at_lc _ _ _ _ Hat) as Hlc.
    rewrite (get_slot_local_agree F s) by (try apply Hat; lia). unfold get_local.
    destruct (st_locals s !! x) as [[v|]|]; [|by rewrite (ag_heap _ _ _ (at_agree _ _ _ _ Hat))|done].
    rewrite (at_set _ _ _ _ _ _ Hat Ht). eexists v, s. split; [done|]. split; [done|].
    intros ip. by apply (set_does w F s m target v ip Lend).
Qed.
Lemma writes_load_captured sp x target w P Lend :
  wfw w → x < w_local_count w → target < w_top w →
  writes mk (write_load_local_captured sp x target) w P (λ _ s, get_captured sp x s) (λ y, y = target) (to_slot Lend target).
Proof.
  intros Hw Hx Ht. unfold write_load_local_captured. apply wp_bind, assert_local_wp; [done|].
  apply wp_bind, assert_slot_wp; [done|].
  apply writes_instr; [done..|]. intros F n s m Hat HP. unfold instr_does. simpl.
  unfold run_InstrLoadLocalCaptured, get_slot_local_captured, mbind, run_bind.
  pose proof (at_lc _ _ _ _ Hat) as Hlc. pose proof (ag_heap _ _ _ (at_agree _ _ _ _ Hat)) as Hh.
  rewrite (get_slot_local_agree F s) by (try apply Hat; lia). unfold get_captured, get_local.
  destruct (st_locals s !! x) as [[c|]|]; [|by rewrite Hh|done].
  simpl. rewrite Hh. destruct (value_captured_get c (st_heap s)) as [v|]; [|done].
  unfold mret, run_ret. rewrite <- Hh, (at_set _ _ _ _ _ _ Hat Ht). eexists v, s. split; [done|]. split; [done|].
  intros ip. by apply (set_does w F s m target v ip Lend).
Qed.
Lemma keep_fill w x v ip m h :
  slot m x = Some None → keep (λ _, False) w m (mkMach ip (set_fr x v (m_frame m)) h).
Proof.
  intros Hx. split; [|done]. intros y v' _ Hy. exists v'. split; [|done]. unfold holds, slot in *. simpl.
  rewrite list_lookup_insert_ne; [done|]. intros ->. congruence.
Qed.
Lemma writes_store_captured sp a x v w P Lend :
  wfw w → a < w_top w → x < w_local_count w → (∀ m, P m → holds a v m) →
  writes mk (write_store_local_captured sp a x) w P (λ _ s, set_captured sp x v s) (λ _, False) (effect Lend).
Proof.
  intros Hw Ha Hx HP. unfold write_store_local_captured. apply wp_bind, assert_slot_wp; [done|].
  apply wp_bind, assert_local_wp; [done|].
  apply writes_instr; [done..|]. intros F n s m Hat HPm. unfold instr_does. simpl.
  pose proof (at_lc _ _ _ _ Hat) as Hlc. pose proof (ag_heap _ _ _ (at_agree _ _ _ _ Hat)) as Hh.
  unfold run_InstrStoreLocalCaptured. rewrite (bind_get _ _ _ _ (HP _ HPm)).
  unfold set_slot_local_captured, mbind, run_bind.
  rewrite (fr_get_slot_agree F s) by (try apply Hat; lia). unfold set_captured, at_span, with_heap.
  destruct (st_locals s !! x) as [[c|]|] eqn:Hc; [| |done].
  - unfold heap_op. rewrite Hh. destruct (value_captured_set c v (st_heap s)) as [[[]|e|f] h]; [|done..].
    eexists (), _. split; [done|]. split; [done|]. intros ip. simpl.
    split_and!; [by eapply agree_heap, Hat|apply keep_same|done].
  - unfold heap_run. rewrite Hh. destruct (alloc_value_captured v (st_heap s)) as [c h]. cbn beta iota zeta.
    pose proof (at_top _ _ _ _ Hat). unfold w_top in *. rewrite set_bc_slot_ok by lia.
    unfold set_local. simpl. rewrite (proj2 (Nat.ltb_lt _ _)) by (by eapply lookup_lt_Some).
    eexists (), _. split; [done|]. split; [done|]. intros ip. simpl.
    split_and!; [by apply (agree_set F s m x c ip h), Hat| |done]. apply keep_fill.
    by rewrite (agree_local F s) by (try apply Hat; lia).
Qed.
End leaf.
