(* ===== verification/IrWf.v ===== *)
(** Well-formed intermediate representation: what lowering guarantees and the bytecode compiler relies on.
    Slots are within the frame; comprehensions have a clause; jumps are in loops; and the variable of a
    comprehension, which is a slot of its own, is not a variable that is read before the
    comprehension and used after it. *)

From S2P Require Import Prelude Hashing TableMap FastString Symbol CodeMap.
From S2P Require Import DefParams OrdMap ParamSpec Def Ir.

(** * Induction *)

Section induction.
Context {V TC D : Type}.
Context (P0 : ExprCompiled V TC D → Prop) (P1 : ComprCompiled V TC D → Prop).
Context (P2 : ClauseCompiled V TC D → Prop) (P3 : AssignCompiledValue V TC D → Prop).
Local Abbreviation Expr := (Spanned (ExprCompiled V TC D)).

Definition on {A} (P : A → Prop) (x : Spanned A) : Prop := P (node x).
Definition on_option (e : option Expr) : Prop := match e with Some e => P0 (node e) | None => True end.
Definition on_default (p : Spanned (ParameterCompiled TC Expr)) : Prop :=
  match node p with CompiledNormal _ _ (Some e) => P0 (node e) | _ => True end.

Lemma list_all_Forall {A} (P : A → Prop) l : list_all (Spanned A) (Spanned_all A P) l → Forall (on P) l.
Proof. induction 1 as [|x Hx l Hl IH]; constructor; [by destruct Hx|done]. Qed.
Lemma option_all_on o : option_all Expr (Spanned_all _ P0) o → on_option o.
Proof. by destruct 1 as [e []|]. Qed.

(** What is to be proved of each construct. *)
Record ir_cases : Prop := {
  ir_Value v : P0 (Value v);
  ir_Local x : P0 (Local x);
  ir_LocalCaptured x : P0 (LocalCaptured x);
  ir_ModuleSlot x : P0 (ModuleSlot x);
  ir_Tuple xs : Forall (on P0) xs → P0 (Tuple xs);
  ir_List xs : Forall (on P0) xs → P0 (List_ xs);
  ir_Dict kvs : Forall (λ kv : Expr * Expr, P0 (node kv.1) ∧ P0 (node kv.2)) kvs → P0 (Dict_ kvs);
  ir_Compr c : P1 c → P0 (Compr c);
  ir_If c t f : P0 (node c) → P0 (node t) → P0 (node f) → P0 (If_ c t f);
  ir_Slice l a b c : P0 (node l) → on_option a → on_option b → on_option c → P0 (Slice l a b c);
  ir_Builtin1 op e : P0 (node e) → P0 (ExprBuiltin1 op e);
  ir_Logical op a b : P0 (node a) → P0 (node b) → P0 (LogicalBinOp op a b);
  ir_Seq a b : P0 (node a) → P0 (node b) → P0 (Seq a b);
  ir_Builtin2 op a b : P0 (node a) → P0 (node b) → P0 (ExprBuiltin2 op a b);
  ir_Index2 a b c : P0 (node a) → P0 (node b) → P0 (node c) → P0 (Index2 a b c);
  ir_Call c : P0 (node (call_fun (node c))) → Forall (on P0) (ca_pos_named (call_args (node c))) →
    on_option (ca_args (call_args (node c))) → on_option (ca_kwargs (call_args (node c))) → P0 (Call c);
  ir_Def d : Forall on_default (compiled_params (dc_params d)) → P0 (ExprDef d);
  ir_ComprList x cs : P0 (node x) → Forall P2 cs → P1 (ComprList x cs);
  ir_ComprDict k v cs : P0 (node k) → P0 (node v) → Forall P2 cs → P1 (ComprDict k v cs);
  ir_Clause var over ifs : P3 (node var) → P0 (node over) → Forall (on P0) ifs → P2 (Clause var over ifs);
  ir_AssignDot e field : P0 (node e) → P3 (AssignDot e field);
  ir_AssignIndex a i : P0 (node a) → P0 (node i) → P3 (AssignIndex a i);
  ir_AssignTuple xs : Forall (on P3) xs → P3 (AssignTuple xs);
  ir_AssignLocal x : P3 (AssignLocal x);
  ir_AssignLocalCaptured x : P3 (AssignLocalCaptured x);
  ir_AssignModule x name : P3 (AssignModule x name);
}.
Lemma ir_induction : ir_cases → (∀ e, P0 e) ∧ (∀ c, P1 c) ∧ (∀ c, P2 c) ∧ (∀ a, P3 a).
Proof.
  intros C. apply ir_ind; try apply C.
  - intros xs Hxs. by apply C, list_all_Forall.
  - intros xs Hxs. by apply C, list_all_Forall.
  - intros kvs Hkvs. apply C. induction Hkvs as [|[k v] Hkv l Hl IH]; constructor; [|done].
    inversion Hkv as [k' Hk v' Hv]; subst. by destruct Hk, Hv.
  - intros c [] t [] f []. by apply C.
  - intros l [] a Ha b Hb c Hc. apply C; [done|by apply option_all_on..].
  - intros op e []. by apply C.
  - intros op a [] b []. by apply C.
  - intros a [] b []. by apply C.
  - intros op a [] b []. by apply C.
  - intros a [] b [] c []. by apply C.
  - intros c [sp c' [f [] a Ha]]. destruct Ha as [pos Hp names args Ha kwargs Hk].
    apply C; simpl; [done|by apply list_all_Forall|by apply option_all_on..].
  - intros d [name ps Hps rt _ info _]. apply C. simpl. destruct Hps as [l Hl idx]. simpl.
    induction Hl as [|p Hp l Hl IH]; constructor; [|done]. destruct Hp as [sp p Hp]. unfold on_default. simpl.
    destruct Hp as [n' ty _ dv Hd| |]; try done. by destruct Hd as [? []|].
  - intros x [] cs Hcs. apply C; [done|]. by induction Hcs; constructor.
  - intros k [] v [] cs Hcs. apply C; [done..|]. by induction Hcs; constructor.
  - intros var [] over [] ifs Hifs. apply C; [done..|]. by apply list_all_Forall.
  - intros e [] field. by apply C.
  - intros a [] i []. by apply C.
  - intros xs Hxs. by apply C, list_all_Forall.
Qed.
End induction.

Section stmt_induction.
Context {V TC D : Type} (P : StmtCompiled V TC D → Prop).
Lemma stmt_induction :
  P PossibleGc → (∀ e, P (Return e)) → (∀ e, P (StmtExpr e)) → (∀ lhs ty rhs, P (Assign lhs ty rhs)) →
  (∀ lhs op rhs, P (AssignModify lhs op rhs)) →
  (∀ c t f, Forall (on P) t → Forall (on P) f → P (StmtIf c t f)) →
  (∀ var over body, Forall (on P) body → P (For var over body)) →
  P Break → P Continue → ∀ s, P s.
Proof.
  intros Hgc Hr He Ha Hm Hif Hfor Hb Hc. fix IH 1.
  intros [|e|e|lhs ty rhs|lhs op rhs|c t f|var over body| |];
    [exact Hgc|apply Hr|apply He|apply Ha|apply Hm| | |exact Hb|exact Hc].
  - apply Hif.
    + induction t as [|[sp x] t IHt]; constructor; [apply IH|exact IHt].
    + induction f as [|[sp x] f IHf]; constructor; [apply IH|exact IHf].
  - apply Hfor. induction body as [|[sp x] body IHb]; constructor; [apply IH|exact IHb].
Qed.
End stmt_induction.

(** * Well-formedness *)

Section wf.
Context {V TC D : Type}.
Local Abbreviation Node := (ExprCompiled V TC D).
Local Abbreviation Expr := (Spanned (ExprCompiled V TC D)).

(** ** Variables that evaluation assigns: those of the comprehensions within *)

Fixpoint bound (e : Node) : list nat :=
  let sub (e : Expr) := bound (node e) in
  let sub_option (e : option Expr) := match e with Some e => bound (node e) | None => [] end in
  match e with
  | Value _ | Local _ | LocalCaptured _ | ModuleSlot _ => []
  | Tuple xs | List_ xs => flat_map sub xs
  | Dict_ kvs => flat_map (λ '(k, v), sub k ++ sub v) kvs
  | Compr c => compr_bound c
  | If_ c t f => sub c ++ sub t ++ sub f
  | Slice l a b c => sub l ++ sub_option a ++ sub_option b ++ sub_option c
  | ExprBuiltin1 _ e => sub e
  | LogicalBinOp _ a b | Seq a b | ExprBuiltin2 _ a b => sub a ++ sub b
  | Index2 a i0 i1 => sub a ++ sub i0 ++ sub i1
  | Call c =>
    sub (call_fun (node c)) ++ flat_map sub (ca_pos_named (call_args (node c))) ++
    sub_option (ca_args (call_args (node c))) ++ sub_option (ca_kwargs (call_args (node c)))
  | ExprDef d =>
    flat_map (λ p, match node p with CompiledNormal _ _ (Some e) => bound (node e) | _ => [] end)
      (compiled_params (dc_params d))
  end
with compr_bound (c : ComprCompiled V TC D) : list nat :=
  match c with
  | ComprList x cs => bound (node x) ++ flat_map clause_bound cs
  | ComprDict k v cs => bound (node k) ++ bound (node v) ++ flat_map clause_bound cs
  end
with clause_bound (c : ClauseCompiled V TC D) : list nat :=
  match c with
  | Clause var over ifs =>
    bound (node over) ++ target_bound (node var) ++ flat_map (λ e, bound (node e)) ifs
  end
with target_bound (a : AssignCompiledValue V TC D) : list nat :=
  match a with
  | AssignDot object _ => bound (node object)
  | AssignIndex array index => bound (node array) ++ bound (node index)
  | AssignTuple xs => flat_map (λ x, target_bound (node x)) xs
  | AssignLocal slot => [slot]
  | AssignLocalCaptured _ | AssignModule _ _ => []
  end.
Definition option_bound (e : option Expr) : list nat := match e with Some e => bound (node e) | None => [] end.
Definition args_bound (a : ArgsCompiledValue Expr) : list nat :=
  flat_map (λ e, bound (node e)) (ca_pos_named a) ++ option_bound (ca_args a) ++ option_bound (ca_kwargs a).
(** What an assignment evaluates before it reads the value. *)
Definition target_reads (a : AssignCompiledValue V TC D) : list nat :=
  match a with
  | AssignDot object _ => bound (node object)
  | AssignIndex array index => bound (node array) ++ bound (node index)
  | _ => []
  end.

(** ** Conditions *)

Variable local_count : nat.

(** The value of [e] may be read from the variable's slot after [l] was assigned. *)
Definition held (e : Node) (l : list nat) : bool :=
  match e with Local x => bool_decide (x ∉ l) | _ => true end.
Definition held_option (e : option Expr) (l : list nat) : bool :=
  match e with Some e => held (node e) l | None => true end.

Fixpoint wf_expr (e : Node) : bool :=
  let wf (e : Expr) := wf_expr (node e) in
  let wf_option (e : option Expr) := match e with Some e => wf_expr (node e) | None => true end in
  match e with
  | Value _ | ModuleSlot _ => true
  | Local x | LocalCaptured x => x <? local_count
  | Tuple xs | List_ xs => forallb wf xs
  | Dict_ kvs => forallb (λ '(k, v), wf k && wf v) kvs
  | Compr c => wf_compr c
  | If_ c t f => wf c && wf t && wf f
  | Slice l a b c =>
    wf l && wf_option a && wf_option b && wf_option c &&
    held (node l) (option_bound a ++ option_bound b ++ option_bound c) &&
    held_option a (option_bound b ++ option_bound c) && held_option b (option_bound c)
  | ExprBuiltin1 _ e => wf e
  | LogicalBinOp _ a b | Seq a b => wf a && wf b
  | ExprBuiltin2 _ a b => wf a && wf b && held (node a) (bound (node b))
  | Index2 a i0 i1 =>
    wf a && wf i0 && wf i1 && held (node a) (bound (node i0) ++ bound (node i1)) &&
    held (node i0) (bound (node i1))
  | Call c =>
    let a := call_args (node c) in
    wf (call_fun (node c)) && forallb wf (ca_pos_named a) && wf_option (ca_args a) && wf_option (ca_kwargs a) &&
    held (node (call_fun (node c))) (args_bound a) &&
    match node (call_fun (node c)) with
    | ExprBuiltin1 (Dot _) this => held (node this) (args_bound a)
    | _ => true
    end &&
    forallb (λ e, held (node e) (option_bound (ca_args a) ++ option_bound (ca_kwargs a))) (ca_pos_named a) &&
    held_option (ca_args a) (option_bound (ca_kwargs a)) &&
    (length (ca_names a) <=? length (ca_pos_named a))
  | ExprDef d =>
    (Z.of_nat (length (compiled_params (dc_params d))) <=? u32_max)%Z &&
    forallb (λ p, match node p with CompiledNormal _ _ (Some e) => wf_expr (node e) | _ => true end)
      (compiled_params (dc_params d))
  end
with wf_compr (c : ComprCompiled V TC D) : bool :=
  match c with
  | ComprList x cs => wf_expr (node x) && forallb wf_clause cs && (1 <=? length cs)
  | ComprDict k v cs =>
    wf_expr (node k) && wf_expr (node v) && held (node k) (bound (node v)) &&
    forallb wf_clause cs && (1 <=? length cs)
  end
with wf_clause (c : ClauseCompiled V TC D) : bool :=
  match c with
  | Clause var over ifs =>
    wf_expr (node over) && wf_target (node var) && forallb (λ e, wf_expr (node e)) ifs
  end
with wf_target (a : AssignCompiledValue V TC D) : bool :=
  match a with
  | AssignDot object _ => wf_expr (node object)
  | AssignIndex array index => wf_expr (node array) && wf_expr (node index) && held (node array) (bound (node index))
  | AssignTuple xs => forallb (λ x, wf_target (node x)) xs
  | AssignLocal slot | AssignLocalCaptured slot => slot <? local_count
  | AssignModule _ _ => true
  end.
Definition wf_modify (lhs : AssignModifyLhs V TC D) (rhs : Expr) : bool :=
  match lhs with
  | ModifyDot object _ => wf_expr (node object) && held (node object) (bound (node rhs))
  | ModifyArray array index =>
    wf_expr (node array) && wf_expr (node index) &&
    held (node array) (bound (node index) ++ bound (node rhs)) && held (node index) (bound (node rhs))
  | ModifyLocal x | ModifyLocalCaptured x => node x <? local_count
  | ModifyModule _ => true
  end.
Fixpoint wf_stmt (in_loop : bool) (c : StmtCompiled V TC D) : bool :=
  let wf (e : Expr) := wf_expr (node e) in
  match c with
  | PossibleGc => negb in_loop
  | Return e | StmtExpr e => wf e
  | Assign lhs _ rhs => wf rhs && wf_target (node lhs) && held (node rhs) (target_reads (node lhs))
  | AssignModify lhs _ rhs => wf rhs && wf_modify lhs rhs
  | StmtIf c t f =>
    wf c && forallb (λ c, wf_stmt in_loop (node c)) t && forallb (λ c, wf_stmt in_loop (node c)) f &&
    (negb (length t =? 0) || negb (length f =? 0))
  | For var over body => wf over && wf_target (node var) && forallb (λ c, wf_stmt true (node c)) body
  | Break | Continue => in_loop
  end.
(** The body of a function. *)
Definition wf_body (c : list (Spanned (StmtCompiled V TC D))) : bool := forallb (λ c, wf_stmt false (node c)) c.

(** ** Variables of comprehensions are variables of the frame *)

Definition below (l : list nat) : Prop := ∀ x, x ∈ l → x < local_count.
Lemma below_nil : below [].
Proof. intros x Hx. by apply elem_of_nil in Hx. Qed.
Lemma below_app l l' : below l → below l' → below (l ++ l').
Proof. intros H1 H2 x [?|?]%elem_of_app; auto. Qed.
Lemma below_flat_map {A} (f : A → list nat) (p : A → bool) l :
  Forall (λ x, p x = true → below (f x)) l → forallb p l = true → below (flat_map f l).
Proof.
  induction 1 as [|x l Hx Hl IH]; simpl; [intros _; apply below_nil|].
  intros [? ?]%andb_true_iff. apply below_app; auto.
Qed.
Lemma below_option e :
  on_option (λ e, wf_expr e = true → below (bound e)) e →
  match e with Some e => wf_expr (node e) | None => true end = true → below (option_bound e).
Proof. destruct e; simpl; [auto|intros; apply below_nil]. Qed.

Lemma bound_below :
  (∀ e, wf_expr e = true → below (bound e)) ∧ (∀ c, wf_compr c = true → below (compr_bound c)) ∧
  (∀ c, wf_clause c = true → below (clause_bound c)) ∧ (∀ a, wf_target a = true → below (target_bound a)).
Proof.
  apply ir_induction. split; unfold on; simpl; intros; bool_to_prop;
    repeat first [apply below_nil | apply below_app | by auto | by apply below_option | 
                  eapply below_flat_map; [match goal with H : Forall _ ?l |- Forall _ ?l => exact H end|done]].
  - eapply (below_flat_map _ (λ '(k, v), wf_expr (node k) && wf_expr (node v))); [|done].
    eapply Forall_impl; [done|]. intros [k v] [Hk Hv]. simpl. intros [? ?]%andb_true_iff. apply below_app; auto.
  - eapply below_flat_map; [|done]. eapply Forall_impl; [done|]. intros p Hp. unfold on_default in Hp.
    destruct (node p) as [? ? [e|]| |]; auto using below_nil.
  - intros y Hy. apply list_elem_of_singleton in Hy as ->. by apply Nat.ltb_lt.
Qed.
End wf.

(** * Shapes of calls *)

Section calls.
Context {V TC D : Type}.
Local Abbreviation Expr := (Spanned (ExprCompiled V TC D)).
Implicit Types c : CallCompiled Expr.

Lemma with_one_pos_cases {T} (a : ArgsCompiledValue T) :
  (∃ x, a = mkArgs [x] [] None None ∧ ∀ R (some : T → R) none, with_one_pos a some none = some x) ∨
  (∀ R (some : T → R) none, with_one_pos a some none = none).
Proof. destruct a as [[|x [|y l]] [|n ns] [args|] [kwargs|]]; eauto. Qed.
Lemma with_two_pos_cases {T} (a : ArgsCompiledValue T) :
  (∃ x y, a = mkArgs [x; y] [] None None ∧ ∀ R (some : T → T → R) none, with_two_pos a some none = some x y) ∨
  (∀ R (some : T → T → R) none, with_two_pos a some none = none).
Proof. destruct a as [[|x [|y [|z l]]] [|n ns] [args|] [kwargs|]]; eauto. Qed.
Lemma with_pos_only_cases {T} (a : ArgsCompiledValue T) :
  (∃ xs, a = mkArgs xs [] None None ∧ ∀ R (some : list T → R) none, with_pos_only a some none = some xs) ∨
  (∀ R (some : list T → R) none, with_pos_only a some none = none).
Proof. destruct a as [xs [|n ns] [args|] [kwargs|]]; eauto. Qed.
Lemma fun_is_cases (p : V → bool) c :
  fun_is p c = false ∨ ∃ f, node (call_fun c) = Value f ∧ fun_is p c = true.
Proof.
  unfold fun_is. destruct (as_value (node (call_fun c))) as [f|] eqn:Hf; [|by left].
  destruct (p f); [|by left]. right. exists f. destruct (node (call_fun c)); simpl in *; by simplify_eq.
Qed.

(** A call of one of the functions [len] and [type]. *)
Lemma with_fn_cases (p : V → bool) c :
  (∃ f x, c = mkCall (mkSpanned (span (call_fun c)) (Value f)) (mkArgs [x] [] None None) ∧
     ∀ R (some : Expr → R) none, (if negb (fun_is p c) then none else with_one_pos (call_args c) some none) = some x) ∨
  (∀ R (some : Expr → R) none, (if negb (fun_is p c) then none else with_one_pos (call_args c) some none) = none).
Proof.
  destruct (fun_is_cases p c) as [->|(f & Hf & ->)]; [by right|]. simpl.
  destruct (with_one_pos_cases (call_args c)) as [(x & Ha & Hx)|Hn]; [left|by right].
  exists f, x. split; [|done]. destruct c as [[sp fn] a]. simpl in *. by subst.
Qed.
Lemma with_isinstance_cases (p : V → bool) c :
  (∃ f x sp t, c = mkCall (mkSpanned (span (call_fun c)) (Value f)) (mkArgs [x; mkSpanned sp (Value t)] [] None None) ∧
     ∀ R (some : Expr → V → R) none, with_isinstance p c some none = some x t) ∨
  (∀ R (some : Expr → V → R) none, with_isinstance p c some none = none).
Proof.
  unfold with_isinstance. destruct (fun_is_cases p c) as [->|(f & Hf & ->)]; [by right|]. simpl.
  destruct (with_two_pos_cases (call_args c)) as [(x & t & Ha & Hx)|Hn]; [|by right].
  destruct (as_value (node t)) as [v|] eqn:Ht.
  - left. exists f, x, (span t), v. split; [|intros; by rewrite Hx, Ht]. destruct c as [[sp fn] a], t as [st tn].
    simpl in *. subst. destruct tn; simpl in *; by simplify_eq.
  - right. intros. by rewrite Hx, Ht.
Qed.
Lemma with_method_cases c :
  (∃ this field, node (call_fun c) = ExprBuiltin1 (Dot field) this ∧
     ∀ R (some : Expr → list byte → ArgsCompiledValue Expr → R) none, with_method c some none = some this field (call_args c)) ∨
  (∀ R (some : Expr → list byte → ArgsCompiledValue Expr → R) none, with_method c some none = none).
Proof.
  unfold with_method. destruct (node (call_fun c)) as [| | | | | | | | | |[] e| | | | | |]; eauto.
Qed.
End calls.
