(* ===== verification/IrAssigned.v ===== *)
(** Definite assignment: evaluation keeps the variables that are assigned, and assigns those that
    [mark_definitely_assigned_after] marks. *)

From S2P Require Import Prelude Hashing TableMap FastString Symbol CodeMap.
From S2P Require Import DefParams OrdMap ParamSpec Def Ir IrWf World IrEval BcInstr BcWriter BcCompile.

(** ** They are variables of the frame *)

Section below.
Context {V TC D : Type} (lc : nat).
Local Abbreviation Expr := (Spanned (ExprCompiled V TC D)).

Lemma target_reads_bound (a : AssignCompiledValue V TC D) x : x ∈ target_reads a → x ∈ target_bound a.
Proof. destruct a; simpl; try done; by intros ?%elem_of_nil. Qed.
Lemma compr_after_last (cs : list (ClauseCompiled V TC D)) x :
  compr_assigned_after (ComprList x cs) = match last cs with Some c => clause_assigned_after c | None => [] end.
Proof. induction cs as [|c [|c' cs] IH]; [done..|]. exact IH. Qed.
Lemma below_clauses (cs : list (ClauseCompiled V TC D)) x :
  Forall (λ c, wf_clause lc c = true → below lc (clause_assigned_after c)) cs → forallb (wf_clause lc) cs = true →
  below lc (compr_assigned_after (ComprList x cs)).
Proof.
  intros Hcs Hwf. rewrite compr_after_last. destruct (last cs) as [c|] eqn:Hl; [|apply below_nil].
  apply last_Some_elem_of in Hl. rewrite Forall_forall in Hcs. apply Hcs; [done|].
  by eapply (proj1 (forallb_forall _ _) Hwf), list_elem_of_In.
Qed.
Lemma below_after_option (e : option Expr) :
  on_option (λ e, wf_expr lc e = true → below lc (assigned_after e)) e →
  match e with Some e => wf_expr lc (node e) | None => true end = true →
  below lc (match e with Some e => assigned_after (node e) | None => [] end).
Proof. destruct e; simpl; [auto|intros; apply below_nil]. Qed.
Lemma below_one x : x <? lc = true → below lc [x].
Proof. intros Hx y ->%list_elem_of_singleton. by apply Nat.ltb_lt. Qed.
Lemma after_below :
  (∀ e, wf_expr (V:=V) (TC:=TC) (D:=D) lc e = true → below lc (assigned_after e)) ∧
  (∀ c, wf_compr (V:=V) (TC:=TC) (D:=D) lc c = true → below lc (compr_assigned_after c)) ∧
  (∀ c, wf_clause (V:=V) (TC:=TC) (D:=D) lc c = true → below lc (clause_assigned_after c)) ∧
  (∀ a, wf_target (V:=V) (TC:=TC) (D:=D) lc a = true → below lc (target_assigned_after a)).
Proof.
  apply ir_induction. split; unfold on; intros; simpl in *; bool_to_prop;
    repeat first [apply below_nil | apply below_app | by auto | by apply below_after_option |
                  eapply below_flat_map; [match goal with H : Forall _ ?l |- Forall _ ?l => exact H end|done]].
  - by apply below_one.
  - eapply (below_flat_map _ _ (λ '(k, v), wf_expr lc (node k) && wf_expr lc (node v))); [|done].
    eapply Forall_impl; [done|]. intros [k v] [Hk Hv]. simpl. intros [? ?]%andb_true_iff. apply below_app; auto.
  - by apply (below_clauses cs x).
  - by apply (below_clauses cs k).
  - by apply below_one.
Qed.
Lemma modify_after_below lhs (rhs : Expr) : wf_modify lc lhs rhs = true → below lc (modify_assigned_after lhs).
Proof.
  destruct lhs; simpl; intros; bool_to_prop; try apply below_app; try (by apply after_below); try apply below_nil.
  by apply below_one.
Qed.
Lemma stmt_after_below lp (c : StmtCompiled V TC D) : wf_stmt lc lp c = true → below lc (stmt_assigned_after c).
Proof.
  destruct c; simpl; intros; bool_to_prop; try apply below_app; try (by apply after_below); try apply below_nil.
  by eapply modify_after_below.
Qed.
End below.

Section assigned.
Context `{WO : WorldOk V H E TC D KM MB}.
Local Abbreviation out := (out V H E).
Local Abbreviation Expr := (Spanned (ExprCompiled V TC D)).
Implicit Types (s : St V H) (sp : Span) (l : list nat).

Definition assigned l s : Prop := ∀ x, x ∈ l → ∃ v, st_locals s !! x = Some (Some v).
Record grown s s' : Prop := {
  gw_len : length (st_locals s') = length (st_locals s);
  gw_keep x v : st_locals s !! x = Some (Some v) → ∃ v', st_locals s' !! x = Some (Some v');
}.
#[global] Instance grown_preorder : PreOrder grown.
Proof.
  split; [by split; eauto|]. intros s1 s2 s3 [L1 K1] [L2 K2]. split; [congruence|].
  intros x v (v' & Hv)%K1. by apply K2 in Hv.
Qed.
Lemma assigned_grown l s s' : grown s s' → assigned l s → assigned l s'.
Proof. intros G Ha x [v Hv]%Ha. by apply G in Hv. Qed.
Lemma assigned_app l l' s : assigned (l ++ l') s ↔ assigned l s ∧ assigned l' s.
Proof.
  split.
  - intros Ha. split; intros x Hx; apply Ha, elem_of_app; auto.
  - intros [H1 H2] x [?|?]%elem_of_app; auto.
Qed.
Lemma grown_heap s h : grown s (mkSt (st_locals s) h).
Proof. by split; eauto. Qed.
Lemma grown_set x v s h : grown s (mkSt (<[x := Some v]> (st_locals s)) h).
Proof.
  split; simpl; [apply length_insert|]. intros y v' Hy. destruct (decide (y = x)) as [->|].
  - exists v. apply list_lookup_insert_eq. by eapply lookup_lt_Some.
  - exists v'. by rewrite list_lookup_insert_ne.
Qed.

(** When [f] has a result, the variables [l] are assigned, and those that were before. *)
Definition gives {A} l (f : St V H → option (out A)) : Prop :=
  ∀ s a s', f s = Some (Done a s') → grown s s' ∧ assigned l s'.

Lemma gives_mono {A} l l' (f : St V H → option (out A)) : gives l f → (∀ x, x ∈ l' → x ∈ l) → gives l' f.
Proof. intros Hf Hl s a s' [G Ha]%Hf. split; [done|]. intros x ?. by apply Ha, Hl. Qed.
Lemma gives_ext {A} l (f g : St V H → option (out A)) : (∀ s, f s = g s) → gives l g → gives l f.
Proof. intros Hfg Hg s a s'. rewrite Hfg. apply Hg. Qed.
Lemma gives_nil {A} l (f : St V H → option (out A)) : gives l f → gives [] f.
Proof. intros Hf. eapply gives_mono; [exact Hf|]. intros x []%elem_of_nil. Qed.
Lemma gives_grown {A} (f : St V H → option (out A)) : (∀ s a s', f s = Some (Done a s') → grown s s') → gives [] f.
Proof. intros Hf s a s' Hs. split; [by eapply Hf|]. intros x []%elem_of_nil. Qed.
Lemma gives_bind {A B} l l' (f : St V H → option (out A)) (g : A → St V H → option (out B)) :
  gives l f → (∀ a, gives l' (g a)) → gives (l ++ l') (λ s, do a, s <~ f s; g a s).
Proof.
  intros Hf Hg s b s'' Hs. destruct (f s) as [[a s'|o]|] eqn:Hfs; [|done..]. simpl in Hs.
  apply Hf in Hfs as [G1 A1]. apply Hg in Hs as [G2 A2]. split; [by etrans|].
  apply assigned_app. split; [by eapply assigned_grown|done].
Qed.
Lemma gives_first {A B} l (f : St V H → option (out A)) (g : A → St V H → option (out B)) :
  gives l f → (∀ a, gives [] (g a)) → gives l (λ s, do a, s <~ f s; g a s).
Proof. intros Hf Hg. rewrite <- (app_nil_r l). by apply gives_bind. Qed.
Lemma gives_then {A B} l (f : St V H → option (out A)) (g : A → St V H → option (out B)) :
  gives [] f → (∀ a, gives l (g a)) → gives l (λ s, do a, s <~ f s; g a s).
Proof. intros Hf Hg. by apply (gives_bind []). Qed.
Lemma gives_ret {A} (a : A) : gives [] (ret a).
Proof. apply gives_grown. intros s b s' [= <- <-]. done. Qed.
Lemma gives_at_span {A} sp (o : Op H E A) : gives [] (at_span sp o).
Proof.
  apply gives_grown. intros s a s'. unfold at_span. destruct (o (st_heap s)) as [[b|e|f] h]; [|done..].
  intros [= <- <-]. apply grown_heap.
Qed.
Lemma gives_with_heap {A} (o : H → A * H) : gives [] (with_heap o).
Proof.
  apply gives_grown. intros s a s'. unfold with_heap. destruct (o (st_heap s)) as [b h]. intros [= <- <-]. apply grown_heap.
Qed.
Lemma gives_exit {A} l o : gives l (λ _, Some (Exits (A:=A) o)).
Proof. done. Qed.
Lemma gives_if {A} (c : St V H → bool) l (f g : St V H → option (out A)) :
  gives l f → gives l g → gives l (λ s, if c s then f s else g s).
Proof. intros Hf Hg s a s'. destruct (c s); [apply Hf|apply Hg]. Qed.

(** ** Variables *)

Lemma gives_get_local sp x : gives [x] (get_local sp x).
Proof.
  intros s a s'. unfold get_local. destruct (st_locals s !! x) as [[v|]|] eqn:Hx; [|done..]. intros [= <- <-].
  split; [done|]. intros y ->%list_elem_of_singleton. eauto.
Qed.
Lemma gives_get_captured sp x : gives [] (get_captured sp x).
Proof.
  unfold get_captured. apply gives_first; [eapply gives_nil, gives_get_local|]. intros c. apply gives_grown.
  intros s a s'. destruct (value_captured_get c (st_heap s)); [|done]. by intros [= <- <-].
Qed.
Lemma gives_set_local x v : gives [x] (set_local x v).
Proof.
  intros s a s'. unfold set_local. destruct (Nat.ltb_spec x (length (st_locals s))); [|done]. intros [= <- <-].
  split; [apply grown_set|]. intros y ->%list_elem_of_singleton. exists v. simpl. by rewrite list_lookup_insert_eq.
Qed.
Lemma gives_set_captured sp x v : gives [] (set_captured sp x v).
Proof.
  intros s a s'. unfold set_captured. destruct (st_locals s !! x) as [[c|]|] eqn:Hx; [| |done].
  - apply (gives_at_span sp (value_captured_set c v)).
  - apply (gives_nil [x] (λ s, do c, s <~ with_heap (alloc_value_captured v) s; set_local x c s)).
    apply gives_then; [apply gives_with_heap|]. intros c. apply gives_set_local.
Qed.
Lemma gives_make_def sp d vs : gives [] (make_def sp d vs).
Proof.
  apply gives_grown. intros s a s'. unfold make_def.
  destruct (instr_def d vs (st_locals s) (st_heap s)) as [[[v locals]|e|f] h] eqn:Hd; [|done..].
  apply instr_def_locals in Hd as [Hl Hk]. intros [= <- <-]. split; [done|]. intros x c Hx. exists c. by apply Hk.
Qed.

(** ** Sequences *)

Lemma gives_list {A B} (f : A → St V H → option (out B)) (after : A → list nat) (xs : list A) :
  Forall (λ x, gives (after x) (f x)) xs → gives (flat_map after xs) (eval_list f xs).
Proof.
  induction 1 as [|x xs Hx Hxs IH]; [apply gives_ret|]. apply gives_bind; [done|]. intros v.
  apply gives_first; [done|]. intros vs. apply gives_ret.
Qed.
Lemma gives_option {A B} (f : A → St V H → option (out B)) (o : option A) l :
  match o with Some x => gives l (f x) | None => l = [] end → gives l (eval_option f o).
Proof.
  destruct o as [x|]; simpl; [|intros ->; apply gives_ret]. intros Hx. apply gives_first; [done|]. intros v. apply gives_ret.
Qed.
Lemma gives_pairs {A B} (f : A → St V H → option (out B)) (after : A → list nat) (xs : list (A * A)) :
  Forall (λ x, gives (after x.1) (f x.1) ∧ gives (after x.2) (f x.2)) xs →
  gives (flat_map (λ '(k, v), after k ++ after v) xs) (eval_pairs f xs).
Proof.
  induction 1 as [|[k v] xs [Hk Hv] Hxs IH]; [apply gives_ret|]. simpl. rewrite <- app_assoc.
  apply gives_bind; [done|]. intros kv. apply gives_bind; [done|]. intros vv.
  apply gives_first; [done|]. intros vs. apply gives_ret.
Qed.
Lemma gives_assign_list {A} (f : A → V → St V H → option (out ())) (after : A → list nat) (xs : list A) :
  Forall (λ x, ∀ v, gives (after x) (f x v)) xs →
  ∀ vs, length xs = length vs → gives (flat_map after xs) (assign_list f xs vs).
Proof.
  induction 1 as [|x xs Hx Hxs IH]; intros [|v vs] Hl; try done; [apply gives_ret|].
  apply gives_bind; [done|]. intros u. apply IH. simpl in Hl. lia.
Qed.
Lemma gives_rounds (body : V → V → St V H → option (out Flow)) it :
  (∀ x, gives [] (body it x)) → ∀ k i, gives [] (loop_rounds body it k i).
Proof.
  intros Hb k. induction k as [|k IH]; intros i; [done|]. apply gives_grown. intros s u s'. simpl.
  destruct (iter_next it i (st_heap s)) as [[x|] h].
  - intros Hs. etrans; [apply (grown_heap s h)|]. revert Hs.
    refine (λ Hs, proj1 (gives_first [] (body it x) _ (Hb x) _ _ _ _ Hs)).
    intros []; [apply IH| |apply IH]. apply gives_grown. intros s1 v s2 [= <- <-]. apply grown_heap.
  - intros [= <- <-]. apply (grown_heap s).
Qed.
Lemma gives_for_loop n sp o (body : V → V → St V H → option (out Flow)) :
  (∀ it x, gives [] (body it x)) → gives [] (for_loop n sp o body).
Proof.
  intros Hb. unfold for_loop. apply gives_first; [apply gives_at_span|]. intros it. by apply gives_rounds.
Qed.

(** ** Unpacking *)

Lemma unpack_items_len it n i h vs h' : unpack_items it n i h = (Ok vs, h') → length vs = n.
Proof.
  revert i h vs h'. induction n as [|n IH]; intros i h vs h'; simpl; destruct (iter_next it i h) as [[x|] h1]; try done.
  - by intros [= <- <-].
  - specialize (IH (i + 1) h1). destruct (unpack_items it n (i + 1) h1) as [[l|e|f] h2]; try done.
    simpl. intros [= <- <-]. simpl. f_equal. by eapply IH.
Qed.
Lemma unpack_len n v h vs h' : unpack n v h = (Ok vs, h') → length vs = n.
Proof.
  unfold unpack. destruct (v_length v h) as [[nvl|e|f] h1]; [|done..]. destruct (negb _); [done|].
  destruct (v_iterate v h1) as [[it|e|f] h2]; [|done..]. apply unpack_items_len.
Qed.

(** ** Expressions and targets *)

Local Abbreviation after := (λ e : Expr, assigned_after (node e)).
Definition gives_expr (e : ExprCompiled V TC D) : Prop := ∀ n sp, gives (assigned_after e) (eval n sp e).
Definition gives_compr (c : ComprCompiled V TC D) : Prop := ∀ n sp, gives (compr_assigned_after c) (eval_compr n sp c).
Definition gives_clause (c : ClauseCompiled V TC D) : Prop :=
  ∀ n term, gives [] term → gives (clause_assigned_after c) (eval_clause n c term).
Definition gives_target (a : AssignCompiledValue V TC D) : Prop :=
  ∀ n sp v, gives (target_assigned_after a) (assign n sp a v).

Lemma gives_on n (xs : list Expr) :
  Forall (on gives_expr) xs → gives (flat_map after xs) (eval_list (λ e, eval n (span e) (node e)) xs).
Proof. intros Hxs. apply gives_list. eapply Forall_impl; [exact Hxs|]. intros e He. apply He. Qed.
Definition option_after (o : option Expr) : list nat := match o with Some e => assigned_after (node e) | None => [] end.
Lemma gives_on_option n (o : option Expr) :
  on_option gives_expr o → gives (option_after o) (eval_option (λ e, eval n (span e) (node e)) o).
Proof. intros Ho. apply gives_option. destruct o; simpl in *; [apply Ho|done]. Qed.
Lemma gives_clauses n (cs : list (ClauseCompiled V TC D)) term :
  Forall gives_clause cs → gives [] term →
  gives (match last cs with Some c => clause_assigned_after c | None => [] end) (run_clauses (eval_clause n) cs term).
Proof.
  intros Hcs. revert term. induction Hcs as [|c cs Hc Hcs IH]; intros term Ht; [done|].
  simpl run_clauses. destruct cs as [|c' cs]; [apply Hc, Ht|]. apply IH. eapply gives_nil, Hc, Ht.
Qed.
Lemma gives_ifs n (ifs : list Expr) term :
  Forall (on gives_expr) ifs → gives [] term →
  gives [] (run_ifs (λ e, eval n (span e) (node e)) term ifs).
Proof.
  intros Hifs Ht. induction Hifs as [|c ifs Hc Hifs IH]; simpl.
  - apply gives_first; [done|]. intros _. apply gives_ret.
  - apply gives_first; [eapply gives_nil, Hc|]. intros v.
    apply (gives_if (λ s, to_bool v (st_heap s))); [apply IH|apply gives_ret].
Qed.
Lemma gives_args n (a : ArgsCompiledValue Expr) :
  Forall (on gives_expr) (ca_pos_named a) → on_option gives_expr (ca_args a) → on_option gives_expr (ca_kwargs a) →
  gives (flat_map after (ca_pos_named a) ++ option_after (ca_args a) ++ option_after (ca_kwargs a))
    (eval_args (λ e, eval n (span e) (node e)) a).
Proof.
  intros Hp Ha Hk. unfold eval_args. apply gives_bind; [by apply gives_on|]. intros vs.
  apply gives_bind; [by apply gives_on_option|]. intros args.
  apply gives_first; [by apply gives_on_option|]. intros kwargs. apply gives_ret.
Qed.

(** The object of a method call is evaluated on its own. *)
Definition gives_object (e : ExprCompiled V TC D) : Prop :=
  match e with ExprBuiltin1 _ e => gives_expr (node e) | _ => True end.
(** What a call evaluates that is not one of the functions known to the compiler. *)
Lemma gives_call n sp (c : CallCompiled Expr) :
  gives_expr (node (call_fun c)) → gives_object (node (call_fun c)) → Forall (on gives_expr) (ca_pos_named (call_args c)) →
  on_option gives_expr (ca_args (call_args c)) → on_option gives_expr (ca_kwargs (call_args c)) →
  gives (after (call_fun c) ++ flat_map after (ca_pos_named (call_args c)) ++
    option_after (ca_args (call_args c)) ++ option_after (ca_kwargs (call_args c)))
    (eval_call (λ e, eval n (span e) (node e)) sp c).
Proof.
  intros Hf Ho Hp Ha Hk. unfold eval_call, with_len, with_type. pose proof (gives_args n _ Hp Ha Hk) as Hargs.
  destruct (with_fn_cases is_fn_len c) as [(f & x & Hc & Hx)|Hn].
  { eapply gives_ext; [intros s; by rewrite Hx|]. rewrite Hc in Hp |- *. apply (proj1 (Forall_singleton _ _)) in Hp.
    simpl. rewrite !app_nil_r. apply gives_first; [apply Hp|]. intros v. apply gives_at_span. }
  eapply gives_ext; [intros s; by rewrite Hn|]. clear Hn.
  destruct (with_fn_cases is_fn_type c) as [(f & x & Hc & Hx)|Hn].
  { eapply gives_ext; [intros s; by rewrite Hx|]. rewrite Hc in Hp |- *. apply (proj1 (Forall_singleton _ _)) in Hp.
    simpl. rewrite !app_nil_r. apply gives_first; [apply Hp|]. intros v. apply gives_ret. }
  eapply gives_ext; [intros s; by rewrite Hn|]. clear Hn.
  match goal with |- gives ?l _ => assert (gives l (eval_invoke (λ e, eval n (span e) (node e)) sp c)) as Hg end.
  { unfold eval_invoke. destruct (with_method_cases c) as [(this & field & Hm & Hx)|Hn].
    - eapply gives_ext; [intros s; by rewrite Hx|]. apply gives_bind.
      + rewrite Hm in Ho |- *. apply Ho.
      + intros v. apply gives_first; [done|]. intros a. apply gives_at_span.
    - eapply gives_ext; [intros s; by rewrite Hn|]. apply gives_bind; [apply Hf|]. intros v.
      apply gives_first; [done|]. intros a. apply gives_at_span. }
  destruct (with_isinstance_cases is_fn_isinstance c) as [(f & x & st & t & Hc & Hx)|Hn].
  - eapply gives_ext; [intros s; by rewrite Hx|]. destruct (new_frozen t) as [ty|]; [|exact Hg].
    rewrite Hc in Hp |- *. apply Forall_cons in Hp as [Hp _]. simpl. rewrite !app_nil_r. apply gives_first; [apply Hp|].
    intros v. apply gives_grown. by intros s a s' [= <- <-].
  - eapply gives_ext; [intros s; by rewrite Hn|]. exact Hg.
Qed.

Lemma gives_defaults n (l : list (Spanned (ParameterCompiled TC Expr))) :
  Forall (on_default gives_expr) l → gives [] (eval_defaults (λ e, eval n (span e) (node e)) l).
Proof.
  intros Hl. induction Hl as [|p l Hp Hl IH]; simpl; [apply gives_ret|]. unfold on_default in Hp.
  destruct (node p) as [? ? [e|]| |]; [|exact IH..]. apply gives_first; [eapply gives_nil, Hp|]. intros v.
  apply gives_first; [exact IH|]. intros vs. apply gives_ret.
Qed.

Definition gives_deep (e : ExprCompiled V TC D) : Prop := gives_expr e ∧ gives_object e.
Lemma Forall_deep (xs : list Expr) : Forall (on gives_deep) xs → Forall (on gives_expr) xs.
Proof. intros Hxs. eapply Forall_impl; [exact Hxs|]. by intros e []. Qed.
Lemma option_deep (o : option Expr) : on_option gives_deep o → on_option gives_expr o.
Proof. destruct o; [|done]. by intros []. Qed.
Lemma ir_gives :
  (∀ e, gives_deep e) ∧ (∀ c, gives_compr c) ∧ (∀ c, gives_clause c) ∧ (∀ a, gives_target a).
Proof.
  apply ir_induction. split.
  - intros v. split; [|done]. intros n sp. apply gives_ret.
  - intros x. split; [|done]. intros n sp. apply gives_get_local.
  - intros x. split; [|done]. intros n sp. apply gives_get_captured.
  - intros x. split; [|done]. intros n sp. apply gives_at_span.
  - intros xs Hxs. split; [|done]. intros n sp. simpl.
    apply gives_first; [by apply gives_on, Forall_deep|]. intros vs. apply gives_with_heap.
  - intros xs Hxs. split; [|done]. intros n sp. simpl.
    apply gives_first; [by apply gives_on, Forall_deep|]. intros vs. apply gives_with_heap.
  - intros xs Hxs. split; [|done]. intros n sp. simpl.
    apply gives_first; [|intros l; apply gives_at_span]. apply (gives_pairs _ after). eapply Forall_impl; [done|].
    intros [k v] [[Hk _] [Hv _]]. split; [apply Hk|apply Hv].
  - intros c Hc. split; [|done]. intros n sp. apply Hc.
  - intros c t f [Hc _] [Ht _] [Hf _]. split; [|done]. intros n sp. simpl. apply gives_first; [apply Hc|]. intros v.
    apply (gives_if (λ s, to_bool v (st_heap s))); eapply gives_nil; [apply Ht|apply Hf].
  - intros l a b c [Hl _] Ha Hb Hc. split; [|done]. intros n sp. simpl. apply gives_bind; [apply Hl|]. intros lv.
    apply gives_bind; [by apply gives_on_option, option_deep|]. intros av.
    apply gives_bind; [by apply gives_on_option, option_deep|]. intros bv.
    apply gives_first; [by apply gives_on_option, option_deep|]. intros cv. apply gives_at_span.
  - intros op e [He _]. split; [|exact He]. intros n sp. simpl. apply gives_first; [apply He|]. intros v. apply gives_at_span.
  - intros op a b [Ha _] [Hb _]. split; [|done]. intros n sp. simpl. apply gives_first; [apply Ha|]. intros v.
    apply (gives_if (λ s, Bool.eqb (to_bool v (st_heap s)) _)); [eapply gives_nil, Hb|apply gives_ret].
  - intros a b [Ha _] [Hb _]. split; [|done]. intros n sp. simpl. apply gives_bind; [apply Ha|]. intros _. apply Hb.
  - intros op a b [Ha _] [Hb _]. split; [|done]. intros n sp. simpl. apply gives_bind; [apply Ha|]. intros av.
    apply gives_first; [apply Hb|]. intros bv. apply gives_at_span.
  - intros a b c [Ha _] [Hb _] [Hc _]. split; [|done]. intros n sp. simpl. apply gives_bind; [apply Ha|]. intros av.
    apply gives_bind; [apply Hb|]. intros bv. apply gives_first; [apply Hc|]. intros cv. apply gives_at_span.
  - intros c [Hf Ho] Hp Ha Hk. split; [|done]. intros n sp.
    apply (gives_call n (span c) (node c)); auto using Forall_deep, option_deep.
  - intros d Hd. split; [|done]. intros n sp. simpl. apply gives_first; [|intros vs; apply gives_make_def].
    apply gives_defaults. eapply Forall_impl; [exact Hd|]. unfold on_default. intros p.
    destruct (node p) as [? ? [e|]| |]; try done. by intros [].
  - intros x cs [Hx _] Hcs n sp. rewrite compr_after_last. simpl. apply gives_then; [apply gives_with_heap|]. intros l.
    apply gives_first; [|intros u; apply gives_ret]. apply gives_clauses; [done|].
    apply gives_first; [eapply gives_nil, Hx|]. intros v. apply gives_at_span.
  - intros k v cs [Hk _] [Hv _] Hcs n sp. change (compr_assigned_after (ComprDict k v cs)) with (compr_assigned_after (ComprList k cs)).
    rewrite compr_after_last. simpl. apply gives_then; [apply gives_with_heap|]. intros d.
    apply gives_first; [|intros u; apply gives_ret]. apply gives_clauses; [done|].
    apply gives_first; [eapply gives_nil, Hk|]. intros kv.
    apply gives_first; [eapply gives_nil, Hv|]. intros vv. apply gives_at_span.
  - intros var over ifs Hvar [Hover _] Hifs n term Ht. simpl. apply gives_first; [apply Hover|]. intros o.
    apply gives_for_loop. intros it x. apply gives_first; [eapply gives_nil, Hvar|]. intros u.
    apply gives_ifs; [by apply Forall_deep|done].
  - intros e field [He _] n sp v. simpl. apply gives_first; [apply He|]. intros o. apply gives_at_span.
  - intros a i [Ha _] [Hi _] n sp v. simpl. apply gives_bind; [apply Ha|]. intros av.
    apply gives_first; [apply Hi|]. intros iv. apply gives_at_span.
  - intros xs Hxs n sp v s u s'. simpl. intros Hs.
    destruct (at_span sp (unpack (length xs) v) s) as [[vs s1|o]|] eqn:Hu; [|done..]. simpl in Hs.
    assert (length vs = length xs) as Hlen.
    { unfold at_span in Hu. destruct (unpack (length xs) v (st_heap s)) as [[vs'|e|f] h] eqn:Hun; [|done..].
      unfold ret in Hu. simplify_eq. by apply unpack_len in Hun. }
    apply gives_at_span in Hu as [G _].
    edestruct (gives_assign_list (λ x : Spanned (AssignCompiledValue V TC D), assign n (span x) (node x))
      (λ x, target_assigned_after (node x)) xs) as [G2 A2]; [|by rewrite Hlen|exact Hs|split; [by etrans|done]].
    eapply Forall_impl; [exact Hxs|]. intros x Hx w. apply Hx.
  - intros x n sp v. apply gives_set_local.
  - intros x n sp v. apply gives_set_captured.
  - intros x name n sp v. simpl. apply gives_first; [apply gives_at_span|]. intros u. apply gives_grown.
    intros s a s' [= <- <-]. apply grown_heap.
Qed.
Lemma eval_gives n e : gives (assigned_after (node e)) (eval n (span e) (node e)).
Proof. apply ir_gives. Qed.
Lemma assign_gives n (a : Spanned (AssignCompiledValue V TC D)) v :
  gives (target_assigned_after (node a)) (assign n (span a) (node a) v).
Proof. apply ir_gives. Qed.

(** ** Statements *)

Lemma gives_modify n lhs op sp (rhs : Expr) :
  gives (modify_assigned_after lhs ++ assigned_after (node rhs)) (modify n lhs op sp rhs).
Proof.
  destruct lhs as [o field|a i|x|x|x]; simpl.
  - apply gives_bind; [apply eval_gives|]. intros ov. apply gives_then; [apply gives_at_span|]. intros l.
    apply gives_first; [apply eval_gives|]. intros r. apply gives_first; [apply gives_at_span|]. intros v. apply gives_at_span.
  - rewrite <- app_assoc. apply gives_bind; [apply eval_gives|]. intros av. apply gives_bind; [apply eval_gives|]. intros iv.
    apply gives_then; [apply gives_at_span|]. intros l.
    apply gives_first; [apply eval_gives|]. intros r. apply gives_first; [apply gives_at_span|]. intros v. apply gives_at_span.
  - apply (gives_bind [_]); [apply gives_get_local|]. intros l. apply gives_first; [apply eval_gives|]. intros r.
    apply gives_first; [apply gives_at_span|]. intros v. eapply gives_nil, gives_set_local.
  - apply gives_then; [apply gives_get_captured|]. intros l. apply gives_first; [apply eval_gives|]. intros r.
    apply gives_first; [apply gives_at_span|]. intros v. apply gives_set_captured.
  - apply gives_then; [apply gives_at_span|]. intros l. apply gives_first; [apply eval_gives|]. intros r.
    apply gives_first; [apply gives_at_span|]. intros v. apply gives_grown. intros s a s' [= <- <-]. apply grown_heap.
Qed.

Lemma gives_exec_list {A} (f : A → St V H → option (out Flow)) (l : list A) :
  Forall (λ x, gives [] (f x)) l → gives [] (exec_list f l).
Proof.
  induction 1 as [|x l Hx Hl IH]; [apply gives_ret|]. apply gives_first; [done|]. intros []; [exact IH|apply gives_ret..].
Qed.
Lemma gives_collect_garbage : gives [] (λ s, ret FlowNext (collect_garbage s)).
Proof.
  apply gives_grown. intros s a s'. unfold collect_garbage. destruct (possible_gc (st_heap s)) as [f h]. intros [= <- <-].
  split; simpl; [apply length_map|]. intros x v Hx. exists (f v). by rewrite list_lookup_fmap, Hx.
Qed.
Lemma gives_return_value hrt sp v : gives [] (return_value (E:=E) hrt sp v).
Proof.
  unfold return_value. destruct hrt; [|by intros s a s']. apply gives_first; [apply gives_at_span|]. intros _.
  intros s a s'. done.
Qed.
Lemma exec_gives n hrt (c : StmtCompiled V TC D) :
  ∀ its sp, gives (stmt_assigned_after c) (exec n hrt its sp c).
Proof.
  induction c as [|e|e|lhs ty rhs|lhs op rhs|c t f Ht Hf|var over body Hb| |] using stmt_induction; intros its sp; simpl.
  - apply gives_collect_garbage.
  - intros s a s' Hs. destruct (eval n (span e) (node e) (stop_iterators its s)) as [[v s1|o]|] eqn:He; [|done..].
    simpl in Hs. apply eval_gives in He as [G _]. apply gives_return_value in Hs as [G' _].
    split; [|by intros x []%elem_of_nil]. etrans; [|etrans; [exact G|exact G']]. apply (grown_heap s).
  - apply gives_first; [apply eval_gives|]. intros v. apply gives_ret.
  - apply (gives_mono (assigned_after (node rhs) ++ target_assigned_after (node lhs))); [|intros x; rewrite !elem_of_app; tauto].
    apply gives_bind; [apply eval_gives|]. intros v. apply gives_then.
    { destruct ty as [ty|]; [apply gives_at_span|apply gives_ret]. }
    intros u. apply gives_first; [apply assign_gives|]. intros _. apply gives_ret.
  - apply (gives_mono (modify_assigned_after lhs ++ assigned_after (node rhs))); [|intros x; rewrite !elem_of_app; tauto].
    apply gives_first; [apply gives_modify|]. intros _. apply gives_ret.
  - apply gives_first; [apply eval_gives|]. intros v.
    apply (gives_if (λ s, to_bool v (st_heap s))); apply gives_exec_list; (eapply Forall_impl; [done|]);
      intros x Hx; eapply gives_nil, Hx.
  - apply gives_first; [apply eval_gives|]. intros o. apply gives_first; [|intros _; apply gives_ret].
    apply gives_for_loop. intros it x. apply gives_first; [eapply gives_nil, assign_gives|]. intros _.
    apply gives_exec_list. eapply Forall_impl; [exact Hb|]. intros y Hy. eapply gives_nil, Hy.
  - apply gives_ret.
  - apply gives_ret.
Qed.
End assigned.
