(* ===== verification/BcOperands.v ===== *)
(** Operands: expressions whose values are read from slots by what follows, in one slot each or in a
    range of slots.  A variable that is certainly assigned is read from its own slot. *)

From S2P Require Import Prelude Hashing TableMap FastString Symbol CodeMap.
From S2P Require Import DefParams OrdMap ParamSpec Def Ir IrWf World IrEval BcInstr BcWriter BcCompile BcCode BcSim BcRules.

Section operands.
Context `{W : World V H E TC D KM MB} `{!InstrLayout V TC D KM}.
Local Abbreviation BcWriter := (BcWriter V TC D KM).
Local Abbreviation Mach := (Mach (V:=V) (H:=H)).
Local Abbreviation M A := (run BcWriter CodeTooBig A).
Local Abbreviation out := (out V H E).
Local Abbreviation dest := (dest V H TC D KM).
Local Abbreviation Expr := (Spanned (ExprCompiled V TC D)).
Context {mk : bool}.
Implicit Types (w F : BcWriter) (m : Mach) (s : St V H) (B : nat → Prop) (P : Mach → Prop) (e : Expr).

Definition ev (n : nat) (e : Expr) s : option (out V) := eval n (span e) (node e) s.
Definition write (e : Expr) : nat → M () := write_bc (span e) (node e).
Lemma obind_assoc {A1 A2 A3} (m : option (out A1)) (f : A1 → St V H → option (out A2)) (g : A2 → St V H → option (out A3)) :
  obind (obind m f) g = obind m (λ a s, obind (f a s) g).
Proof. by destruct m as [[a s|o]|]. Qed.
Lemma obind_ext {A1 A2} (m : option (out A1)) (f g : A1 → St V H → option (out A2)) :
  (∀ a s, f a s = g a s) → obind m f = obind m g.
Proof. intros Hf. destruct m as [[a s|o]|]; [apply Hf|done..]. Qed.

Definition is_bound (l : list nat) (x : nat) : Prop := x ∈ l.

(** ** What survives the evaluation of operands *)

Definition stable w B P : Prop := ∀ m m', P m → keep B w m m' → P m'.
Lemma stable_ctx w w1 B B' P :
  ctx w w1 → stable w B P → (∀ x, x < w_top w → B' x → B x) → stable w1 B' P.
Proof.
  intros C HP HB m m' Hm K. eapply HP; [done|]. eapply keep_mono; [exact K|by apply ctx_top| |done].
  by rewrite (ctx_depth _ _ C).
Qed.
Lemma stable_sub w B B' P : stable w B P → (∀ x, x < w_top w → B' x → B x) → stable w B' P.
Proof. intros HP HB m m' Hm K. eapply HP; [done|]. by eapply keep_mono. Qed.
Lemma stable_and w B P P' : stable w B P → stable w B P' → stable w B (λ m, P m ∧ P' m).
Proof. intros H1 H2 m m' [? ?] K. split; [by eapply H1|by eapply H2]. Qed.
Lemma stable_holds w B x v : x < w_top w → ¬ B x → stable w B (holds x v).
Proof. intros Hx HB m m' Hm K. by eapply keep_holds. Qed.
Lemma stable_range w B l vs :
  Forall (λ x, x < w_top w ∧ ¬ B x) l → stable w B (range_holds l vs).
Proof.
  intros Hl m m' Hm K. unfold range_holds in *. induction Hm as [|x v l vs Hx Hm IH]; [constructor|].
  apply Forall_cons in Hl as [[? ?] ?]. constructor; [by eapply keep_holds|auto].
Qed.
Lemma stable_opt w B o v :
  (∀ x, o = Some x → x < w_top w ∧ ¬ B x) → stable w B (opt_holds o v).
Proof.
  intros Ho m m' Hm K. destruct o as [x|], v as [v|]; try done. destruct (Ho x eq_refl).
  by eapply keep_holds.
Qed.
Lemma stable_True w B : stable w B (λ _, True).
Proof. done. Qed.

(** ** Expressions *)

(** The code of [e] puts its value into a slot. *)
Definition expr_ok lc e : Prop :=
  wf_expr lc (node e) = true → ∀ w x Lend, wfw w → w_local_count w = lc → x < w_top w →
  writes false (write e x) w (λ _, True) (λ n s, ev n e s) (λ y, y ∈ bound (node e) ∨ y = x) (to_slot Lend x).

Lemma as_local_inv (e : ExprCompiled V TC D) l : as_local_non_captured e = Some l → e = Local l.
Proof. destruct e; simpl; intros; by simplify_eq. Qed.
(** Where an operand is: in its variable, or in a temporary slot. *)
Definition operand lc e (x : nat) : Prop := lc ≤ x ∨ node e = Local x.
Lemma operand_free lc e x l :
  operand lc e x → held (node e) l = true → (∀ y, y ∈ l → y < lc) → x ∉ l.
Proof.
  intros [Hx|Hx] Hh Hl Hin; [apply Hl in Hin; lia|]. rewrite Hx in Hh. simpl in Hh. by apply bool_decide_eq_true in Hh.
Qed.

Definition good lc e : Prop := expr_ok lc e ∧ wf_expr lc (node e) = true.
Definition good_option lc (o : option Expr) : Prop := match o with Some e => good lc e | None => True end.
Lemma writes_cb {A T} lc e (k : nat → M T) w P (r : V → nat → St V H → option (out A)) B2 B (R : dest A) :
  good lc e → wfw w → w_local_count w = lc →
  stable w (is_bound (bound (node e))) P →
  (∀ x w1 v, ctx w w1 → x < w_top w1 → operand lc e x →
    writes mk (k x) w1 (λ m, P m ∧ holds x v m) (r v) B2 R) →
  (∀ x, x < w_top w → x ∈ bound (node e) ∨ B2 x → B x) →
  writes mk (cb write e k) w P (λ n s, do v, s <~ ev n e s; r v n s) B R.
Proof.
  intros [He Hwf] Hw Hlc HP Hk HB.
  assert (writes mk (alloc_slot (λ slot, _ ← write e slot; k slot)) w P (λ n s, do v, s <~ ev n e s; r v n s) B R) as Halloc.
  { pose proof (pushed_ctx 1 w Hw) as C1. pose proof (pushed_top 1 w) as Ht.
    apply (writes_alloc_slot _ _ _ _ (λ y, y = w_top w ∨ y ∈ bound (node e) ∨ B2 y)); [done| |intros x Hx [->|?]; [lia|auto]].
    apply (writes_seq _ r P (λ v m, P m ∧ holds (w_top w) v m)
             (λ y, y ∈ bound (node e) ∨ y = w_top w) B2 _ (to_slot (d_end R) (w_top w)) R).
    - apply (writes_pre _ _ (λ _, True)); [|done]. apply writes_marks, He; [done|apply C1|done|lia].
    - split; simpl; try done.
      + intros v n s _. rewrite length_insert. intros Hs. rewrite put_temp; [done|]. rewrite Hs. simpl. unfold w_top. lia.
      + intros v m m' _ Hm K Hv. split; [|done]. eapply HP; [exact Hm|]. eapply keep_mono; [exact K|lia|done|].
        intros x Hx [?| ->]; [done|lia].
      + intros x _ [[?|?]|?]; auto.
    - intros [] w1 C2 _ v _. apply Hk; [by eapply ctx_trans| |left; rewrite <- Hlc; unfold w_top; lia].
      pose proof (ctx_top _ _ C2). lia.
    - by exists new_none. }
  unfold cb, write_bc_cb. destruct (as_local_non_captured (node e)) as [l|] eqn:Hl; [|exact Halloc].
  apply as_local_inv in Hl as Hn. rewrite Hn in Hwf. simpl in Hwf. apply Nat.ltb_lt in Hwf.
  apply wp_bind, try_da_wp; [done|lia|]. case_decide as Hda; [|exact Halloc].
  apply (writes_case _ _ _ (λ v m, P m ∧ holds l v m) _ r); [done| |].
  - intros v. eapply writes_mono; [apply (Hk l w v)|done..|].
    + by apply ctx_refl.
    + unfold w_top. lia.
    + by right.
    + intros x Hx ?. apply HB; auto.
  - intros F n s m Hat Hm. destruct (at_da _ _ _ _ Hat _ Hda) as [v Hv]. exists v. split.
    + split; [done|]. by eapply agree_local_some; [apply Hat|].
    + unfold ev. rewrite Hn. simpl. unfold get_local. by rewrite Hv.
Qed.

Definition opt_operand lc (e : option Expr) (o : option nat) : Prop :=
  match e, o with Some e, Some x => operand lc e x | None, None => True | _, _ => False end.
Definition opt_below w (o : option nat) : Prop := match o with Some x => x < w_top w | None => True end.
Lemma writes_opt {A T} lc (e : option Expr) (k : option nat → M T) w P (r : option V → nat → St V H → option (out A))
    B2 B (R : dest A) :
  good_option lc e → wfw w → w_local_count w = lc → stable w (is_bound (option_bound e)) P →
  (∀ o w1 v, ctx w w1 → opt_below w1 o → opt_operand lc e o →
    writes mk (k o) w1 (λ m, P m ∧ opt_holds o v m) (r v) B2 R) →
  (∀ x, x < w_top w → x ∈ option_bound e ∨ B2 x → B x) →
  writes mk (write_expr_opt write e k) w P (λ n s, do v, s <~ eval_option (ev n) e s; r v n s) B R.
Proof.
  intros He Hw Hlc HP Hk HB. destruct e as [e|]; simpl in *.
  - eapply writes_ext.
    + eapply (writes_cb lc e (λ x, k (Some x)) w P (λ v, r (Some v))); [done..| |exact HB].
      intros x w1 v C Hx Ho. by apply (Hk (Some x) w1 (Some v)).
    + intros n s. rewrite obind_assoc. done.
  - eapply writes_mono; [apply (Hk None w None); [by apply ctx_refl|done..]|done..|].
    intros x Hx ?. apply HB; auto.
Qed.

(** ** Ranges *)

Lemma seq_snoc a n : seq a n ++ [a + n] = seq a (n + 1).
Proof. by rewrite seq_app. Qed.
Lemma try_push_slots rg x rg' :
  try_push rg x = (true, rg') → range_slots rg' = range_slots rg ++ [x].
Proof.
  destruct rg as [a b]. unfold try_push, range_slots, range_len. simpl. destruct (Nat.eqb_spec (b - a) 0) as [Hz|Hz].
  - intros [= <-]. simpl. rewrite Hz. by replace (x + 1 - x) with 1 by lia.
  - destruct (Nat.eqb_spec b x) as [->|]; [|done]. intros [= <-]. simpl.
    replace (x + 1 - a) with (x - a + 1) by lia. rewrite <- seq_snoc. do 2 f_equal. lia.
Qed.
(** All operands are variables in a row. *)
Lemma try_slot_range_wp lc (l : list Expr) rg w (Q : option BcSlotInRange → BcWriter → Prop) :
  Forall (λ e, wf_expr lc (node e) = true) l → wfw w → w_local_count w = lc → Q None w →
  (∀ rg' xs, range_slots rg' = range_slots rg ++ xs →
     Forall2 (λ e x, node e = Local x ∧ x < lc ∧ w_definitely_assigned w !! x = Some true) l xs → Q (Some rg') w) →
  wp (try_slot_range l rg) w Q.
Proof.
  intros Hwf Hw Hlc HN. revert rg. induction l as [|e l IH]; intros rg HS; simpl.
  { apply wp_ret, (HS rg []); [by rewrite app_nil_r|constructor]. }
  apply Forall_cons in Hwf as [He Hl]. destruct (as_local_non_captured (node e)) as [x|] eqn:Hx; [|by apply wp_ret].
  apply as_local_inv in Hx. rewrite Hx in He. simpl in He. apply Nat.ltb_lt in He.
  apply wp_bind, try_da_wp; [done|lia|]. case_decide as Hda; [|by apply wp_ret].
  destruct (try_push rg x) as [[] rg1] eqn:Hp; [|by apply wp_ret]. apply (IH Hl).
  intros rg' xs Hr Hxs. apply (HS rg' (x :: xs)).
  - rewrite Hr, (try_push_slots _ _ _ Hp), <- app_assoc. done.
  - by constructor.
Qed.

Lemma run_bind_eq {S X Y} (m : run S CodeTooBig X) (k : X → run S CodeTooBig Y) (s : S) :
  (m ≫= k) s =
  match m s with (Ok a, s) => k a s | (Err e, s) => (Err e, s) | (Fault f, s) => (Fault f, s) end.
Proof. done. Qed.

Section nest.
Context {A T K : Type} (write_ : nat → K → M ()) (k : nat → M T).
(** [alloc_slots_for_exprs] with each slot given back on its own. *)
Fixpoint nest (l : list K) (en : nat) : M T :=
  match l with
  | [] => k en
  | x :: l => _ ← stack_add 1; r ← (_ ← write_ en x; nest l (en + 1)); _ ← stack_sub 1; mret r
  end.
Lemma fill_slots_end (l : list K) start w en w' :
  fill_slots write_ l start w = (Ok en, w') → en = start + length l.
Proof.
  revert start w. induction l as [|x l IH]; intros start w; simpl.
  - unfold mret, run_ret. intros. simplify_eq. lia.
  - unfold mbind, run_bind. destruct (stack_add 1 w) as [[[]|?|?] w1]; try done.
    destruct (write_ start x w1) as [[[]|?|?] w2]; try done. intros ->%IH. lia.
Qed.
Lemma nest_fill (l : list K) start w (Q : T → BcWriter → Prop) :
  wp (nest l start) w Q →
  wp (en ← fill_slots write_ l start; r ← k en; _ ← stack_sub (en - start); mret r) w Q.
Proof.
  revert start w Q. induction l as [|x l IH]; intros start w Q; simpl.
  - unfold wp, mbind, run_bind, mret, run_ret. destruct (k start w) as [[t|?|?] w1]; try done.
    rewrite Nat.sub_diag. unfold stack_sub, gets, w_assert, modify_w, run_result, mbind, run_bind. simpl.
    rewrite Nat.sub_0_r. by destruct w1.
  - unfold wp at 1 2. rewrite !run_bind_eq. destruct (stack_add 1 w) as [[[]|?|?] w1]; try done.
    rewrite !run_bind_eq. destruct (write_ start x w1) as [[[]|?|?] w2]; try done.
    intros Hn. specialize (IH (start + 1) w2 (λ t w, wp (_ ← stack_sub 1; mret t) w Q)).
    assert (wp (nest l (start + 1)) w2 (λ t w, wp (_ ← stack_sub 1; mret t) w Q)) as Hn'.
    { unfold wp in *. unfold mbind, run_bind in *. destruct (nest l (start + 1) w2) as [[t|?|?] w3]; done. }
    specialize (IH Hn'). clear Hn Hn'. unfold wp, mbind, run_bind in *.
    destruct (fill_slots write_ l (start + 1) w2) as [[en|?|?] w3] eqn:Hf; try done.
    apply fill_slots_end in Hf as He. destruct (k en w3) as [[t|?|?] w4]; try done.
    unfold stack_sub, gets, w_assert, modify_w, run_result, mbind, run_bind, mret, run_ret in *. simpl in *.
    destruct (Nat.leb_spec (en - (start + 1)) (w_stack_size w4)); [|done]. simpl in IH.
    destruct (w_stack_size w4 - (en - (start + 1))) as [|d] eqn:Hd; [done|]. simpl in IH.
    rewrite (proj2 (Nat.leb_le _ _)) by lia. simpl. unfold set_stack in *. simpl in *.
    by replace (w_stack_size w4 - (en - start)) with (d - 0) by lia.
Qed.
End nest.

Definition bounds (l : list Expr) : list nat := flat_map (λ e, bound (node e)) l.
Lemma bounds_cons e l x : x ∈ bounds (e :: l) ↔ x ∈ bound (node e) ∨ x ∈ bounds l.
Proof. apply elem_of_app. Qed.
Lemma bounds_below lc l : Forall (good lc) l → below lc (bounds l).
Proof.
  induction 1 as [|e l [_ He] Hl IH]; [apply below_nil|]. apply below_app; [|done].
  by apply (bound_below lc).
Qed.
Lemma eval_list_cons {X Y} (f : X → St V H → option (out Y)) x l s :
  eval_list f (x :: l) s = do v, s <~ f x s; do vs, s <~ eval_list f l s; ret (v :: vs) s.
Proof. done. Qed.
Lemma range_holds_cons x a n v vs m :
  x = a → holds x v m → range_holds (seq (S a) n) vs m → range_holds (seq x (S n)) (v :: vs) m.
Proof. intros -> Hx Hl. by constructor. Qed.

Lemma writes_nest {A T K} lc (expr_of : K → Expr) (k : nat → M T) B2 (R : dest A) (l : list K) :
  ∀ w P (r : list V → nat → St V H → option (out A)) B,
  Forall (λ x, good lc (expr_of x)) l → wfw w → w_local_count w = lc → stable w (is_bound (bounds (map expr_of l))) P →
  (∀ w1 vs, ctx w w1 → w_top w1 = w_top w + length l →
     writes mk (k (w_top w + length l)) w1 (λ m, P m ∧ range_holds (seq (w_top w) (length l)) vs m) (r vs) B2 R) →
  (∀ x, x < w_top w → x ∈ bounds (map expr_of l) ∨ B2 x → B x) →
  writes mk (nest (λ slot x, write (expr_of x) slot) k l (w_top w)) w P
    (λ n s, do vs, s <~ eval_list (ev n) (map expr_of l) s; r vs n s) B R.
Proof.
  induction l as [|x l IH]; intros w P r B Hg Hw Hlc HP Hk HB; cbn [nest map length] in *.
  - rewrite Nat.add_0_r in Hk. eapply writes_mono; [apply (Hk w []); [by apply ctx_refl|lia]| |done|].
    + intros m Hm. split; [done|constructor].
    + intros y Hy ?. apply HB; auto.
  - apply Forall_cons in Hg as [[He Hwf] Hg]. pose proof (pushed_ctx 1 w Hw) as C1. pose proof (pushed_top 1 w) as Ht.
    apply (writes_stack 1 _ _ _ _ (λ y, y = w_top w ∨ y ∈ bounds (expr_of x :: map expr_of l) ∨ B2 y)); [done| |].
    2: { intros y Hy [->|?]; [lia|auto]. }
    assert (w_local_count w ≤ w_top w) as Hlt by (unfold w_top; lia).
    eapply writes_ext.
    { apply (writes_seq (λ n s, ev n (expr_of x) s) (λ v n s, do vs, s <~ eval_list (ev n) (map expr_of l) s; r (v :: vs) n s)
               P (λ v m, P m ∧ holds (w_top w) v m) (λ y, y ∈ bound (node (expr_of x)) ∨ y = w_top w)
               (λ y, y ∈ bounds (map expr_of l) ∨ B2 y) _ (to_slot (d_end R) (w_top w)) R)
        with (r := λ v n s, do vs, s <~ eval_list (ev n) (map expr_of l) s; r (v :: vs) n s).
      - apply (writes_pre _ _ (λ _, True)); [|done]. apply writes_marks, He; [done|apply C1|by rewrite (cx_lc _ _ C1)|lia].
      - split; try done.
        + intros v n s _. simpl. rewrite length_insert. intros Hs. rewrite put_temp; [done|]. lia.
        + intros v m m' _ Hm K0 Hv. split; [|done]. eapply HP; [exact Hm|]. eapply keep_mono; [exact K0|lia|done|].
          intros y Hy [Hin| ->]; [|lia]. apply bounds_cons. by left.
        + intros y _. rewrite bounds_cons. tauto.
      - intros [] w2 C2 Hst v _. assert (ctx w w2) as C by by eapply ctx_trans.
        assert (w_top w2 = w_top w + 1) as Ht2.
        { rewrite <- Ht. unfold w_top. rewrite Hst. by rewrite (cx_lc _ _ C2). }
        rewrite <- Ht2. apply IH; [done|apply C|by rewrite (cx_lc _ _ C)| | |auto].
        + apply stable_and.
          * eapply stable_ctx; [exact C|exact HP|]. intros y Hy Hin. apply bounds_cons. by right.
          * apply stable_holds; [lia|]. intros Hin. apply (bounds_below lc) in Hin; [lia|]. by apply Forall_map.
        + intros w3 vs C3 Ht3. replace (w_top w2 + length l) with (w_top w + S (length l)) by lia.
          eapply writes_pre; [apply (Hk w3 (v :: vs)); [by eapply ctx_trans|lia]|].
          intros m ((Hm & Hv) & Hl). split; [done|]. apply (range_holds_cons _ (w_top w)); [done..|].
          by replace (S (w_top w)) with (w_top w2) by lia.
      - by exists new_none. }
    intros n s. rewrite eval_list_cons, obind_assoc. apply obind_ext. intros v s1. by rewrite obind_assoc.
Qed.

(** What a writer needs of the range that it is given. *)
Record range_ok lc (l : list Expr) w (rg : BcSlotInRange) : Prop := {
  rg_below : Forall (λ x, x < w_top w) (range_slots rg);
  rg_operands : Forall2 (operand lc) l (range_slots rg);
}.
Lemma eval_locals (l : list Expr) xs F w n s m :
  at_ w F s m → Forall2 (λ e x, node e = Local x ∧ x < w_local_count w ∧ w_definitely_assigned w !! x = Some true) l xs →
  ∃ vs, range_holds xs vs m ∧ eval_list (ev n) l s = ret vs s.
Proof.
  intros Hat Hl. induction Hl as [|e x l xs (He & _ & Hda) Hl IH]; [by exists []; split; [constructor|]|].
  destruct IH as (vs & Hvs & Hev). destruct (at_da _ _ _ _ Hat _ Hda) as [v Hv]. exists (v :: vs). split.
  - constructor; [|done]. by eapply agree_local_some; [apply Hat|].
  - rewrite eval_list_cons. unfold ev at 1. rewrite He. simpl. unfold get_local. rewrite Hv. simpl. by rewrite Hev.
Qed.

Section exprs.
Context {A T : Type} (lc : nat) (k : BcSlotInRange → M T) (w : BcWriter) (P : Mach → Prop).
Context (r : list V → nat → St V H → option (out A)) (B2 B : nat → Prop) (R : dest A).
Context (l : list Expr) (Hw : wfw w) (Hlc : w_local_count w = lc) (Hg : Forall (good lc) l).
Context (HP : stable w (is_bound (bounds l)) P) (HB : ∀ x, x < w_top w → x ∈ bounds l ∨ B2 x → B x).
Context (Hk : ∀ rg w1 vs, ctx w w1 → range_ok lc l w1 rg →
  writes mk (k rg) w1 (λ m, P m ∧ range_holds (range_slots rg) vs m) (r vs) B2 R).
Local Abbreviation source := (λ n s, do vs, s <~ eval_list (ev n) l s; r vs n s).

Lemma writes_variables rg xs :
  range_slots rg = xs →
  Forall2 (λ e x, node e = Local x ∧ x < lc ∧ w_definitely_assigned w !! x = Some true) l xs →
  writes mk (k rg) w P source B R.
Proof.
  intros Hrg Hxs.
  assert (range_ok lc l w rg) as Hok.
  { split; rewrite Hrg.
    - clear -Hxs Hlc. induction Hxs as [|e x l xs (_ & Hx & _) _ IH]; constructor; [unfold w_top; lia|done].
    - eapply Forall2_impl; [exact Hxs|]. intros e x (He & _). by right. }
  apply (writes_case _ _ _ (λ vs m, P m ∧ range_holds (range_slots rg) vs m) _ r); [done| |].
  - intros vs. eapply writes_mono; [apply (Hk rg w vs); [by apply ctx_refl|done]|done..|].
    intros x Hx ?. apply HB; auto.
  - intros F n s m Hat Hm. rewrite <- Hlc in Hxs. destruct (eval_locals l xs F w n s m Hat Hxs) as (vs & Hvs & Hev).
    exists vs. rewrite Hrg. split; [done|]. by rewrite Hev.
Qed.
Lemma writes_temporaries (fill : nat → M nat) :
  (∀ start, fill start = fill_slots (λ slot e, write e slot) l start) →
  writes mk (alloc_filled fill k) w P source B R.
Proof.
  intros Hfill. unfold alloc_filled, top_slot. apply wp_bind, wp_bind. unfold gets, wp at 1.
  apply wp_bind, w_u32_wp, wp_ret. rewrite Hfill.
  pose (kk en := k (if en =? w_top w then range_default else mkRange (w_top w) en)).
  apply (nest_fill (λ slot e, write e slot) kk). pose proof (writes_nest lc (λ e, e) kk B2 R l w P r B) as Hn.
  rewrite map_id in Hn. apply Hn; [done..| |done]. clear Hn. intros w1 vs C Ht. unfold kk.
  set (rg := if _ =? _ then _ else _).
  assert (range_slots rg = seq (w_top w) (length l)) as Hrg.
  { subst rg. unfold range_slots, range_len. destruct (Nat.eqb_spec (w_top w + length l) (w_top w)).
    - by replace (length l) with 0 by lia.
    - simpl. f_equal. lia. }
  rewrite <- Hrg. apply Hk; [done|]. split; rewrite Hrg.
  - apply Forall_seq. lia.
  - apply Forall2_same_length_lookup_2; [by rewrite length_seq|]. intros i e x _ [-> _]%lookup_seq.
    left. rewrite <- Hlc. unfold w_top. lia.
Qed.
End exprs.

Lemma fill_slots_map {K} (expr_of : K → Expr) (l : list K) start :
  fill_slots (λ slot x, write (expr_of x) slot) l start = fill_slots (λ slot e, write e slot) (map expr_of l) start.
Proof. revert start. induction l as [|x l IH]; intros start; simpl; [done|]. by rewrite IH. Qed.
Lemma fill_pairs_flatten (l : list (Expr * Expr)) start :
  fill_pairs write l start = fill_slots (λ slot e, write e slot) (flatten l) start.
Proof. revert start. induction l as [|[k v] l IH]; intros start; simpl; [done|]. by rewrite IH. Qed.

Lemma writes_exprs {A T K} lc (expr_of : K → Expr) (l : list K) (k : BcSlotInRange → M T) w P
    (r : list V → nat → St V H → option (out A)) B2 B (R : dest A) :
  Forall (good lc) (map expr_of l) → wfw w → w_local_count w = lc →
  stable w (is_bound (bounds (map expr_of l))) P →
  (∀ rg w1 vs, ctx w w1 → range_ok lc (map expr_of l) w1 rg →
    writes mk (k rg) w1 (λ m, P m ∧ range_holds (range_slots rg) vs m) (r vs) B2 R) →
  (∀ x, x < w_top w → x ∈ bounds (map expr_of l) ∨ B2 x → B x) →
  writes mk (write_exprs_of write expr_of l k) w P
    (λ n s, do vs, s <~ eval_list (ev n) (map expr_of l) s; r vs n s) B R.
Proof.
  intros Hg Hw Hlc HP Hk HB. unfold write_exprs_of. apply wp_bind.
  apply (try_slot_range_wp lc); [eapply Forall_impl; [exact Hg|]; by intros e [_ ?]|done..| |].
  - eapply writes_temporaries; [done..|]. intros start. apply fill_slots_map.
  - intros rg xs Hrg Hxs. by eapply writes_variables.
Qed.
Lemma writes_pairs {A T} lc (l : list (Expr * Expr)) (k : BcSlotInRange → M T) w P
    (r : list V → nat → St V H → option (out A)) B2 B (R : dest A) :
  Forall (good lc) (flatten l) → wfw w → w_local_count w = lc →
  stable w (is_bound (bounds (flatten l))) P →
  (∀ rg w1 vs, ctx w w1 → range_ok lc (flatten l) w1 rg →
    writes mk (k rg) w1 (λ m, P m ∧ range_holds (range_slots rg) vs m) (r vs) B2 R) →
  (∀ x, x < w_top w → x ∈ bounds (flatten l) ∨ B2 x → B x) →
  writes mk (write_pairs write l k) w P (λ n s, do vs, s <~ eval_list (ev n) (flatten l) s; r vs n s) B R.
Proof.
  intros Hg Hw Hlc HP Hk HB. unfold write_pairs. apply wp_bind.
  apply (try_slot_range_wp lc); [eapply Forall_impl; [exact Hg|]; by intros e [_ ?]|done..| |].
  - eapply writes_temporaries; [done..|]. apply fill_pairs_flatten.
  - intros rg xs Hrg Hxs. by eapply writes_variables.
Qed.
End operands.
