(* ===== verification/BcBranch.v ===== *)
(** Branches: the two arms of a conditional, and conditions that are compiled to jumps. *)

From S2P Require Import Prelude Hashing TableMap FastString Symbol CodeMap.
From S2P Require Import DefParams OrdMap ParamSpec Def Ir IrWf World IrEval BcInstr BcWriter BcCompile BcCode BcSim BcRules BcOperands.

Section branch.
Context `{W : World V H E TC D KM MB} `{!InstrLayout V TC D KM}.
Local Abbreviation BcWriter := (BcWriter V TC D KM).
Local Abbreviation Mach := (Mach (V:=V) (H:=H)).
Local Abbreviation M A := (run BcWriter CodeTooBig A).
Local Abbreviation out := (out V H E).
Local Abbreviation dest := (dest V H TC D KM).
Local Abbreviation Expr := (Spanned (ExprCompiled V TC D)).
Context {mk : bool}.
Implicit Types (w F : BcWriter) (m : Mach) (s : St V H) (B : nat → Prop) (P : Mach → Prop) (e : Expr) (a : BcAddr).

(** ** Stages with jumps to patch *)

Lemma pending_disjoint (c : list (Instr V TC D KM)) l new :
  Forall (pending false c) l → Forall (pending true c) new → Forall (λ a, a ∉ new) l.
Proof.
  rewrite !Forall_forall. intros Hl Hn a Ha Hin. destruct (Hl _ Ha) as (i & Hi & _ & Hf).
  destruct (Hn _ Hin) as (i' & Hi' & _ & Ht). simplify_eq. congruence.
Qed.
Lemma written_patch mk1 new w w' l c :
  written mk1 new w w' → Forall (pending false (w_instrs w')) l → Forall (λ a, (w_len w <= a)%N) l →
  patched l (w_instrs w') c → written mk1 new w (set_instrs c w').
Proof.
  intros [Hw G Hs Hd] Hp Hl P. split; [by eapply patched_wfw| |done|done].
  eapply patched_grows; [done..|]. eapply pending_disjoint; [done|apply G].
Qed.
Lemma written_set_da new w w' da mk' mk1 :
  written mk' new w w' → length da = w_local_count w' → da_rel mk1 (w_definitely_assigned w) da →
  written mk1 new w (set_definitely_assigned da w').
Proof. intros [[? ? ? ? ? ?] [] Hs Hd] Hl Hda. by split; [split|split|..]. Qed.
Lemma smaller_then da da' : da_le da da' → assert_smaller_then da da' = true.
Proof.
  unfold assert_smaller_then. intros Hl. rewrite (Forall2_length _ _ _ Hl), Nat.eqb_refl. simpl.
  induction Hl as [|x y l l' Hxy Hl IH]; [done|]. simpl. rewrite IH, andb_true_r.
  destruct x, y; try done. by specialize (Hxy eq_refl).
Qed.
Lemma restore_wp da w (Q : () → BcWriter → Prop) :
  da_le da (w_definitely_assigned w) → Q () (set_definitely_assigned da w) → wp (restore_definitely_assigned da) w Q.
Proof.
  intros Hda HQ. apply wp_bind. unfold gets, wp at 1. apply wp_bind, w_assert_wp; [by apply smaller_then|done].
Qed.
Lemma set_da_fin da w F : fin (set_definitely_assigned da w) F → fin w F.
Proof. by intros [[]]. Qed.
Lemma patched_fin l c w F : patched l (w_instrs w) c → fin (set_instrs c w) F → fin w F.
Proof. intros P. apply le_fin. by eapply patched_le_w. Qed.

(** The jumps of [l], which were written after [w]. *)
Record jumps (w0 w : BcWriter) (l : list PatchAddr) : Prop := {
  jp_pending : Forall (pending false (w_instrs w)) l;
  jp_new : Forall (λ a, (w_len w0 <= a)%N) l;
  jp_nodup : NoDup l;
}.
Lemma jumps_grows new w0 w w' l : jumps w0 w l → grows new w w' → jumps w0 w' l.
Proof.
  intros [Hp Hn Hd] G. split; [|done..]. eapply Forall_impl; [exact Hp|].
  intros a (i & Hi & ?). exists i. split; [by apply G|done].
Qed.
Lemma jumps_patch w0 w l l' c : jumps w0 w (l ++ l') → patched l (w_instrs w) c → jumps w0 (set_instrs c w) l'.
Proof.
  intros [Hp Hn Hd] P. apply Forall_app in Hp as [_ Hp], Hn as [_ Hn]. apply NoDup_app in Hd as (_ & Hd & Hd').
  split; [|done..]. simpl. rewrite Forall_forall in Hp |- *. intros a Ha. eapply patched_pending; [done| |by apply Hp].
  intros Hin. by apply (Hd a).
Qed.
Lemma jumps_perm w0 w l l' : l ≡ₚ l' → jumps w0 w l → jumps w0 w l'.
Proof. intros Hl [? ? ?]. split; by rewrite <- Hl. Qed.
Lemma jumps_app_l w0 w l l' : jumps w0 w (l ++ l') → jumps w0 w l.
Proof. intros [[? _]%Forall_app [? _]%Forall_app (? & _ & _)%NoDup_app]. done. Qed.

Lemma emit_jump sl i w : jump_offset i = Some FORWARD → loop_instr i = false → pending false (w_instrs (emit sl i w)) (w_len w).
Proof. intros. exists i. split; [apply emit_get|done]. Qed.
Lemma step_jump F sl i w m t :
  wfw w → fin (emit sl i w) F → jump_offset i = Some FORWARD → resolves (w_instrs F) (w_len w) t →
  m_ip m = w_len w →
  ∃ o, (w_len w + o)%N = t ∧
  step (prog F) m = after sl (run_instr (Ok (sa_spans sl)) (w_len w) (set_jump_offset o i) (m_frame m, m_heap m)).
Proof.
  intros Hw [L Hne] Hi Hr Hip. destruct (resolved_jump _ _ _ _ _ L (emit_get sl i w) Hi Hr) as (o & Ho & Ht).
  exists o. split; [done|]. apply step_at; [done|done| |done]. apply (le_slow _ _ L). by apply emit_slow.
Qed.

(** ** Where code goes on *)

(** What holds at the end does not depend on the address. *)
Definition dest_ok {A} (R : dest A) : Prop :=
  ∀ v m m', m_frame m' = m_frame m → d_post R v m → d_post R v m'.
Lemma dest_ok_slot Lend x : dest_ok (to_slot Lend x).
Proof. intros v m m' Hf. unfold to_slot, d_post, holds, slot. by rewrite Hf. Qed.
Lemma dest_ok_effect {A} Lend : dest_ok (effect (A:=A) Lend).
Proof. done. Qed.
Definition moved ip m : Mach := mkMach ip (m_frame m) (m_heap m).
Lemma agree_moved ip F s m : agree F s m → agree F s (moved ip m).
Proof. by intros [? ? ? ? ?]. Qed.
Lemma keep_moved B w m m' ip : keep B w m m' → keep B w m (moved ip m').
Proof. by intros [? ?]. Qed.
Lemma reach_at {A} (R : dest A) w w' F v s m :
  w_len w' = w_len w → da_le (w_definitely_assigned w') (w_definitely_assigned w) →
  reach R w F v s m → reach R w' F v s m.
Proof.
  intros Hl Hda. unfold reach. destruct (d_exit R v); [done|]. intros [(Hip & Ag & Hok) Hp]. split; [|done].
  split; [congruence|]. split; [done|]. by eapply da_ok_le.
Qed.

Section arms.
Context {A : Type} (P : Mach → Prop) (rt rf : nat → St V H → option (out A)) (B : nat → Prop) (R : dest A).
Context (HR : dest_ok R).

(** From the end of a condition [w], whose jumps [nf] are to the other arm, to [w']. *)
Definition arms_run new w w' (nf : list PatchAddr) : Prop :=
  ∀ F, fin w' F → Forall (λ a, resolves (w_instrs F) a (d_end R)) new →
  fin w F ∧ ∃ LF, Forall (λ a, resolves (w_instrs F) a LF) nf ∧
  ∀ (b : bool) n s m, m_ip m = (if b then w_len w else LF) → agree F s m → da_ok w s → P m →
  sim (prog F) n (if b then rt n s else rf n s) m (λ v s' m', keep B w m m' ∧ reach R w' F v s' m').

Lemma arms_wp (t f pa : M ()) w0 w nf new1 sp :
  written mk new1 w0 w → jumps w0 w nf →
  (∀ w Q, Forall (pending false (w_instrs w)) nf → NoDup nf →
    (∀ c, patched nf (w_instrs w) c → Forall (λ a, resolves c a (w_len w)) nf → Q () (set_instrs c w)) → wp pa w Q) →
  (∀ w1, ctx w w1 → w_stack_size w1 = w_stack_size w → writes true t w1 P rt B R) →
  (∀ w1, ctx w w1 → w_stack_size w1 = w_stack_size w → writes true f w1 P rf B R) →
  wp (_ ← t; end_target ← write_br sp; _ ← restore_definitely_assigned (w_definitely_assigned w);
      _ ← pa; _ ← f; _ ← patch_addr end_target; restore_definitely_assigned (w_definitely_assigned w)) w
    (λ _ w', ∃ new2, written mk (new1 ++ new2) w0 w' ∧ arms_run new2 w w' nf).
Proof.
  intros W0m J Hpa Ht Hf. pose proof (written_true _ _ _ _ W0m) as W0. pose proof (wr_wf _ _ _ _ W0) as Hw.
  apply wp_bind. eapply wp_mono; [apply Ht; [by apply ctx_refl|done]|]. intros _ w1 (n1 & W1 & R1).
  pose proof (wr_wf _ _ _ _ W1) as Hw1. apply wp_bind. apply write_instr_ret_wp.
  set (br := InstrBr FORWARD). set (sl := mkSlowArg sp []). set (w2 := emit sl br w1).
  assert (written true [] w1 w2) as W2 by by apply emit_written.
  assert (written true (new1 ++ n1) w0 w2) as W02.
  { eapply written_trans; [exact W0|]. rewrite <- (app_nil_r n1). by eapply written_trans. }
  assert (jumps w0 w2 (nf ++ [w_len w1])) as J2.
  { assert (jumps w0 w1 nf) as [Jp Jn Jd] by (eapply jumps_grows; [exact J|apply W1]).
    destruct (jumps_grows [] w0 w1 w2 nf) as [Jp2 _ _]; [done|apply W2|].
    split.
    - apply Forall_app. split; [done|]. apply Forall_singleton. by apply emit_jump.
    - apply Forall_app. split; [done|]. apply Forall_singleton.
      pose proof (gr_len _ _ _ (wr_grows _ _ _ _ W0)). pose proof (gr_len _ _ _ (wr_grows _ _ _ _ W1)). simpl. lia.
    - apply NoDup_app. split; [done|]. split; [|apply NoDup_singleton]. intros a Ha ->%list_elem_of_singleton.
      rewrite Forall_forall in Jp. apply Jp, pending_lt in Ha. unfold w_len in Ha. lia. }
  apply wp_bind, restore_wp; [by apply (wr_da _ _ _ _ W1)|]. set (da := w_definitely_assigned w) in *.
  set (w3 := set_definitely_assigned da w2).
  assert (written true (new1 ++ n1) w0 w3) as W03.
  { eapply written_set_da; [done| |apply (wr_da _ _ _ _ W0)]. unfold da. rewrite (wf_da _ Hw). simpl.
    by rewrite (gr_local_count _ _ _ (wr_grows _ _ _ _ W1)). }
  assert (jumps w0 w3 (nf ++ [w_len w1])) as J3 by by destruct J2.
  apply wp_bind, Hpa; [by eapply jp_pending, jumps_app_l|by eapply jp_nodup, jumps_app_l|]. intros c4 P4 Res4.
  set (w4 := set_instrs c4 w3).
  assert (written true (new1 ++ n1) w0 w4) as W04.
  { eapply written_patch; [exact W03| |by eapply jp_new, jumps_app_l|exact P4]. by eapply jp_pending, jumps_app_l. }
  assert (jumps w0 w4 [w_len w1]) as J4 by by eapply jumps_patch.
  assert (w_stack_size w4 = w_stack_size w) as Hst.
  { rewrite (wr_stack _ _ _ _ W04). symmetry. apply W0. }
  assert (ctx w w4) as C4.
  { split; [apply W04| |lia| |done].
    - rewrite (gr_local_count _ _ _ (wr_grows _ _ _ _ W04)). symmetry. apply W0.
    - rewrite (cx_loops _ _ (written_ctx _ _ _ _ W04)). symmetry. by apply (written_ctx _ _ _ _ W0). }
  apply wp_bind. eapply wp_mono; [by apply Hf|]. intros _ w5 (n5 & W5 & R5).
  assert (jumps w0 w5 [w_len w1]) as J5 by (eapply jumps_grows; [exact J4|apply W5]).
  assert (written true ((new1 ++ n1) ++ n5) w0 w5) as W05 by by eapply written_trans.
  apply wp_bind. apply (patch_addr_wp false).
  { apply (proj1 (Forall_singleton _ _) (jp_pending _ _ _ J5)). }
  intros c6 P6 Res6. set (w6 := set_instrs c6 w5).
  assert (written true ((new1 ++ n1) ++ n5) w0 w6) as W06.
  { eapply written_patch; [exact W05|apply J5|apply J5|exact P6]. }
  apply restore_wp; [apply (wr_da _ _ _ _ W5)|]. set (w7 := set_definitely_assigned da w6). exists (n1 ++ n5). split.
  { rewrite app_assoc. eapply written_set_da; [done| |apply W0m]. unfold da. rewrite (wf_da _ Hw).
    rewrite (gr_local_count _ _ _ (wr_grows _ _ _ _ W06)). by rewrite (gr_local_count _ _ _ (wr_grows _ _ _ _ W0)). }
  intros F HF Hnew. apply Forall_app in Hnew as [Hn1 Hn5].
  assert (fin w6 F) as HF6 by by eapply set_da_fin.
  assert (fin w5 F) as HF5 by by eapply patched_fin.
  assert (fin w4 F) as HF4 by (eapply grows_fin; [apply W5|done]).
  assert (fin w3 F) as HF3 by by eapply patched_fin.
  assert (fin w2 F) as HF2 by by eapply set_da_fin.
  assert (fin w1 F) as HF1 by (eapply grows_fin; [apply W2|done]).
  split; [eapply grows_fin; [apply W1|done]|]. exists (w_len w3). split.
  { eapply Forall_impl; [exact Res4|]. intros a. apply (le_resolves w4). apply HF4. }
  assert (w_len w4 = w_len w3) as Hl4 by apply P4.
  assert (w_len w7 = w_len w5) as Hl7 by apply P6.
  intros b n s m Hip Ag Hda HP. destruct b.
  - eapply sim_then; [apply R1; [done..|by split|done]|]. intros v s1 m1 [K1 HR1]. unfold reach in HR1 |- *.
    destruct (d_exit R v) as [esc|] eqn:Hv; [by exists 0, m1|].
    destruct HR1 as [(Hip1 & Ag1 & Hda1) Hp1].
    destruct (step_jump F sl br w1 m1 (w_len w5) Hw1 HF2) as (o & Ho & Hst1); [done| |done|].
    { apply (le_resolves w6); [apply HF6|done]. }
    simpl in Hst1. rewrite Ho in Hst1. exists 1, (moved (w_len w5) m1). simpl. rewrite Hst1. split; [done|].
    split; [by apply keep_moved|]. split; [|by apply (HR v m1)].
    split; [by rewrite Hl7|]. split; [by apply agree_moved|]. eapply da_ok_le; [|exact Hda1]. apply (wr_da _ _ _ _ W1).
  - eapply sim_mono; [apply R5; [done..| |done]|].
    { split; [by rewrite Hl4|]. by split. }
    intros v s1 m1 _ [K1 HR1]. split.
    + eapply keep_mono; [exact K1|by apply ctx_top| |done]. by rewrite (ctx_depth _ _ C4).
    + eapply reach_at; [exact Hl7| |exact HR1]. apply (wr_da _ _ _ _ W5).
Qed.

(** Only one arm: the jumps go to what follows it. *)
Lemma arm_wp (t : M ()) w0 w nf new1 v0 :
  d_exit R v0 = None → (∀ s, d_res R v0 s = s) → (∀ m, P m → d_post R v0 m) → (∀ n s, rf n s = ret v0 s) →
  written mk new1 w0 w → jumps w0 w nf →
  (∀ w1, ctx w w1 → w_stack_size w1 = w_stack_size w → writes true t w1 P rt B R) →
  wp (_ ← t; _ ← patch_addrs nf; restore_definitely_assigned (w_definitely_assigned w)) w
    (λ _ w', ∃ new2, written mk (new1 ++ new2) w0 w' ∧ arms_run new2 w w' nf).
Proof.
  intros Hv0 Hres Hpost Hrf W0m J Ht. pose proof (written_true _ _ _ _ W0m) as W0. pose proof (wr_wf _ _ _ _ W0) as Hw.
  apply wp_bind. eapply wp_mono; [apply Ht; [by apply ctx_refl|done]|]. intros _ w1 (n1 & W1 & R1).
  assert (jumps w0 w1 nf) as J1 by (eapply jumps_grows; [exact J|apply W1]).
  assert (written true (new1 ++ n1) w0 w1) as W01 by by eapply written_trans.
  apply wp_bind. eapply patch_addrs_wp; [apply J1|apply J1|]. intros c2 P2 Res2. set (w2 := set_instrs c2 w1).
  assert (written true (new1 ++ n1) w0 w2) as W02 by (eapply written_patch; [exact W01|apply J1|apply J1|exact P2]).
  apply restore_wp; [apply (wr_da _ _ _ _ W1)|]. set (w3 := set_definitely_assigned _ w2). exists n1. split.
  { eapply written_set_da; [done| |apply W0m]. rewrite (wf_da _ Hw).
    rewrite (gr_local_count _ _ _ (wr_grows _ _ _ _ W02)). by rewrite (gr_local_count _ _ _ (wr_grows _ _ _ _ W0)). }
  intros F HF Hnew. assert (fin w2 F) as HF2 by by eapply set_da_fin. assert (fin w1 F) as HF1 by by eapply patched_fin.
  split; [eapply grows_fin; [apply W1|done]|]. exists (w_len w1). split.
  { eapply Forall_impl; [exact Res2|]. intros a. apply (le_resolves w2). apply HF2. }
  assert (w_len w3 = w_len w1) as Hl3 by apply P2.
  intros b n s m Hip Ag Hda HP. destruct b.
  - eapply sim_mono; [apply R1; [done..|by split|done]|]. intros v s1 m1 _ [K1 HR1]. split; [done|].
    eapply reach_at; [exact Hl3| |exact HR1]. apply (wr_da _ _ _ _ W1).
  - rewrite Hrf. apply sim_ret. split; [apply keep_refl|]. unfold reach. rewrite Hv0. split; [|by apply Hpost].
    rewrite Hres. split; [by rewrite Hl3|]. by split.
Qed.
End arms.

(** ** Operands of jumps *)

Lemma pushed_0 w : wfw w → pushed 0 w = w.
Proof.
  intros Hw. unfold pushed. rewrite Nat.add_0_r, Nat.max_l by apply Hw. by destruct w.
Qed.
Lemma popped_0 w : popped 0 w = w.
Proof. unfold popped. rewrite Nat.sub_0_r. by destruct w. Qed.
Lemma runs_local sp x w Lend :
  wfw w → x < w_local_count w → w_definitely_assigned w !! x = Some true →
  runs (A:=V) [] w w (λ _, True) (λ n s, get_local sp x s) (λ _, False) (mkDest (λ _ s, s) (holds x) (λ _, None) Lend).
Proof.
  intros Hw Hx Hda F HF _ n s m Hm _. pose proof Hm as (_ & Ag & Hok). destruct (Hok _ Hda) as [v Hv].
  unfold get_local. rewrite Hv. apply sim_ret. split; [apply keep_refl|]. split; [done|]. by eapply agree_local_some.
Qed.

(** What has been written when an operand is passed on: its value is in [x]. *)
Record at_operand lc e w (d : nat) new w1 (x : nat) : Prop := {
  ao_written : written false new (pushed d w) w1;
  ao_below : x < w_top w1;
  ao_operand : operand lc e x;
  ao_runs Lend : runs new (pushed d w) w1 (λ _, True) (λ n s, ev n e s)
    (λ y, y ∈ bound (node e) ∨ w_top w ≤ y) (mkDest (λ _ s, s) (holds x) (λ _, None) Lend);
}.
Lemma cb_split {T} lc e (k : nat → M T) w (Q : T → BcWriter → Prop) :
  good lc e → wfw w → w_local_count w = lc →
  (∀ x d new w1, at_operand lc e w d new w1 x →
    wp (k x) w1 (λ t w2, w_stack_size w2 = w_stack_size w1 ∧ Q t (popped d w2))) →
  wp (cb write e k) w Q.
Proof.
  intros [He Hwf] Hw Hlc Hk.
  assert (wp (alloc_slot (λ slot, _ ← write e slot; k slot)) w Q) as Halloc.
  { unfold alloc_slot, top_slot. apply wp_bind, wp_bind. unfold gets at 1, wp at 1.
    apply wp_bind, w_u32_wp, wp_ret. unfold stack_add. apply wp_bind, wp_bind. unfold gets at 1, wp at 1.
    apply wp_bind, w_u32_wp. unfold modify_w at 1, wp at 1. fold (pushed 1 w). fold (w_top w).
    pose proof (pushed_ctx 1 w Hw) as C1. pose proof (pushed_top 1 w) as Ht.
    apply wp_bind, wp_bind. eapply wp_mono.
    { apply (wp_forall (X:=BcAddr)). intros Lend. apply (He Hwf _ (w_top w) Lend); [apply C1|done|lia]. }
    simpl. intros _ w1 Hx. destruct (Hx 0%N) as (new & W1 & _). eapply wp_mono; [apply (Hk (w_top w) 1 new w1)|].
    - split; [done|pose proof (written_top _ _ _ _ W1); lia|left; rewrite <- Hlc; unfold w_top; lia|].
      intros Lend. destruct (Hx Lend) as (new' & W' & Hr). pose proof (grows_unique _ _ _ _ (wr_grows _ _ _ _ W1) (wr_grows _ _ _ _ W')) as ->.
      intros F HF Hn n s m Hm HP. eapply sim_mono; [by apply Hr|]. intros v s1 m1 _ [K1 [(Hip & Ag & Hda) Hv]]. split.
      { eapply keep_mono; [exact K1|done..|]. intros y _ [?| ->]; [by left|right; lia]. }
      pose proof (rel_ctx_len new' (pushed 1 w) w1 F (to_slot Lend (w_top w)) v s1 m1 W' HF ltac:(done)) as Hlen.
      simpl in Hlen, Ag, Hda. rewrite length_insert in Hlen.
      rewrite put_temp in Ag, Hda by (rewrite Hlen; unfold w_top; lia). done.
    - intros t w2 [Hst HQ]. unfold stack_sub. apply wp_bind, wp_bind. unfold gets, wp at 1. apply wp_bind, w_assert_wp.
      { apply Nat.leb_le. rewrite Hst, (wr_stack _ _ _ _ W1). simpl. lia. }
      unfold modify_w, wp at 1. by apply wp_ret. }
  unfold cb, write_bc_cb. destruct (as_local_non_captured (node e)) as [l|] eqn:Hl; [|exact Halloc].
  apply as_local_inv in Hl as Hn. rewrite Hn in Hwf. simpl in Hwf. apply Nat.ltb_lt in Hwf.
  apply wp_bind, try_da_wp; [done|lia|]. case_decide as Hda; [|exact Halloc].
  eapply wp_mono; [apply (Hk l 0 [] w)|intros t w2 [_ HQ]; by rewrite popped_0 in HQ].
  pose proof (pushed_0 w Hw) as H0. split; rewrite ?H0; [by apply written_refl|unfold w_top; lia|by right|].
  intros Lend F HF Hnew n s m Hm _. unfold ev. rewrite Hn. simpl.
  eapply sim_mono; [apply (runs_local (span e) l w Lend Hw ltac:(lia) Hda F HF Hnew n s m Hm I)|].
  intros v s1 m1 _ [K HR]. split; [|done]. by eapply keep_mono.
Qed.

(** ** Conditions *)

(** Whether the first arm is taken. *)
Definition taken (mn : MaybeNot) (b : bool) : bool := match mn with MaybeId => b | MaybeNot_ => negb b end.
Definition jump_unless (mn : MaybeNot) (slot : nat) sp : M PatchAddr :=
  match mn with MaybeId => write_if_not_br slot sp | MaybeNot_ => write_if_br slot sp end.

(** The condition goes on to its end, where the jumps [nt] lead too, or takes one of the jumps [nf]. *)
Definition cond_runs new w w' (nt nf : list PatchAddr) e mn : Prop :=
  ∀ F Lend LF, fin w' F → Forall (λ a, resolves (w_instrs F) a Lend) new →
  Forall (λ a, resolves (w_instrs F) a (w_len w')) nt → Forall (λ a, resolves (w_instrs F) a LF) nf →
  ∀ n s m, rel w F s m →
  sim (prog F) n (ev n e s) m (λ v s' m', keep (is_bound (bound (node e))) w m m' ∧ agree F s' m' ∧ da_ok w' s' ∧
    m_ip m' = if taken mn (to_bool v (st_heap s')) then w_len w' else LF).
Definition cond_post e mn (t f : list PatchAddr) w : list PatchAddr * list PatchAddr → BcWriter → Prop := λ tf w',
  ∃ new nt nf, tf = (t ++ nt, f ++ nf) ∧ written false new w w' ∧ jumps w w' (nt ++ nf) ∧ cond_runs new w w' nt nf e mn.
Definition cond_ok lc e : Prop :=
  wf_expr lc (node e) = true → ∀ w mn t f, wfw w → w_local_count w = lc →
  wp (write_cond write_bc (span e) (node e) mn t f) w (cond_post e mn t f w).

Lemma jumps_app w w1 w2 new l l' : jumps w w1 l → grows new w1 w2 → (w_len w <= w_len w1)%N → jumps w1 w2 l' → jumps w w2 (l ++ l').
Proof.
  intros J1 G Hle [Jp' Jn' Jd']. pose proof (jumps_grows _ _ _ _ _ J1 G) as [Jp2 Jn2 Jd2].
  pose proof (jp_pending _ _ _ J1) as Hp. split.
  - by apply Forall_app.
  - apply Forall_app. split; [done|]. eapply Forall_impl; [exact Jn'|]. simpl. lia.
  - apply NoDup_app. split; [done|]. split; [|done]. intros a Ha Ha'. rewrite Forall_forall in Hp, Jn'.
    apply Hp, pending_lt in Ha. apply Jn' in Ha'. simpl in Ha'. unfold w_len in *. lia.
Qed.

Lemma cond_leaf lc e mn t f w :
  good lc e → wfw w → w_local_count w = lc →
  wp (addr ← cb write e (λ c, jump_unless mn c (span e)); mret (t, f ++ [addr])) w (cond_post e mn t f w).
Proof.
  intros Hg Hw Hlc. apply wp_bind. apply (cb_split lc); [done..|]. intros x d new w1 [W1 Hx Ho Hr].
  set (i := match mn with MaybeId => InstrIfNotBr x FORWARD | MaybeNot_ => InstrIfBr x FORWARD end : Instr V TC D KM).
  assert (jump_offset i = Some FORWARD ∧ loop_instr i = false ∧ not_end i) as (Hi & Hli & Hei) by by destruct mn.
  apply (wp_mono _ _ (λ addr w2, addr = w_len w1 ∧ w2 = emit (mkSlowArg (span e) []) i w1));
    [by destruct mn; apply write_instr_ret_wp|].
  pose proof (wr_wf _ _ _ _ W1) as Hw1. intros _ _ [-> ->]. split; [done|]. apply wp_ret. set (w2 := emit _ _ _).
  assert (written false [] w1 w2) as W2 by by apply emit_written.
  assert (written false (new ++ []) w (popped d w2)) as Wr by (apply popped_written; [done|by eapply written_trans]).
  rewrite app_nil_r in Wr. exists new, [], [w_len w1]. rewrite app_nil_r. split; [done|]. split; [done|]. split.
  { split; [apply Forall_singleton; by apply emit_jump| |apply NoDup_singleton].
    apply Forall_singleton. pose proof (gr_len _ _ _ (wr_grows _ _ _ _ W1)). unfold w_len in *. simpl in *. lia. }
  intros F Lend LF HF Hnew _ HLF n s m Hm. apply (proj1 (Forall_singleton _ _)) in HLF. apply popped_fin in HF.
  assert (fin w1 F) as HF1 by (eapply grows_fin; [apply W2|done]).
  eapply sim_then; [apply (Hr Lend F HF1 Hnew); [exact Hm|done]|].
  intros v s1 m1 [K1 [(Hip & Ag & Hda) Hv]]. simpl in Ag, Hda, Hv.
  destruct (step_jump F _ i w1 m1 LF Hw1 HF Hi HLF Hip) as (o & Hlf & Hst).
  exists 1, (moved (if taken mn (to_bool v (st_heap s1)) then w_len w2 else LF) m1). split.
  - simpl. rewrite Hst. pose proof (size_of_repr_patch o i) as Hsz. subst w2. rewrite emit_len, <- Hsz, <- (ag_heap _ _ _ Ag).
    destruct mn; simpl; unfold run_InstrIfNotBr, run_InstrIfBr; rewrite (bind_get _ _ _ _ Hv);
      unfold heap_get, mbind, run_bind; simpl; unfold moved; by destruct (to_bool v (m_heap m1)); rewrite ?Hlf.
  - split.
    + apply keep_moved. eapply keep_mono; [exact K1|rewrite pushed_top; lia|done|]. intros y Hy [?|?]; [done|lia].
    + split; [by apply agree_moved|]. split; [|done]. eapply da_ok_le; [|exact Hda]. done.
Qed.
Lemma cond_default lc e mn t f w :
  good lc e → wfw w → w_local_count w = lc →
  (∀ op c, node e = ExprBuiltin1 op c → op ≠ Not) → (∀ op x y, node e ≠ LogicalBinOp op x y) →
  wp (write_cond write_bc (span e) (node e) mn t f) w (cond_post e mn t f w).
Proof.
  intros Hg Hw Hlc Hn Hl. pose proof (cond_leaf lc e mn t f w Hg Hw Hlc) as Hc. unfold cb, write in Hc.
  destruct (node e) eqn:He; try exact Hc; [|by edestruct Hl]. destruct op; try exact Hc. by edestruct Hn.
Qed.

(** [x and y] or [x or y]: after [x], for which the arm is to be taken if [mx] says so. *)
Lemma cond_seq sp op x y mx mn new1 new2 w w1 w2 w3 c ntx nfx nty nfy nt nf :
  (∀ b, taken mx b = Bool.eqb b (bool_decide (op = And))) →
  written false new1 w w1 → patched ntx (w_instrs w1) c → w2 = set_instrs c w1 →
  Forall (λ a, resolves c a (w_len w1)) ntx → written false new2 w2 w3 →
  cond_runs new1 w w1 ntx nfx x mx → cond_runs new2 w2 w3 nty nfy y mn →
  (∀ (Q : PatchAddr → BcAddr → Prop) LT LF, Forall (λ a, Q a LT) nt → Forall (λ a, Q a LF) nf →
    Forall (λ a : PatchAddr, Q a (if taken mn (negb (bool_decide (op = And))) then LT else LF : BcAddr)) nfx ∧
    Forall (λ a, Q a LT) nty ∧ Forall (λ a, Q a LF) nfy) →
  cond_runs (new1 ++ new2) w w3 nt nf (mkSpanned sp (LogicalBinOp op x y)) mn.
Proof.
  intros Hmx W1 P Hw2 Hres W2 R1 R2 Hlists F Lend LF HF Hnew HT HLF n s m Hm. apply Forall_app in Hnew as [Hn1 Hn2].
  destruct (Hlists (resolves (w_instrs F)) (w_len w3) LF HT HLF) as (Hx & Hy1 & Hy2).
  assert (fin w2 F) as HF2 by (eapply grows_fin; [apply W2|done]).
  assert (fin w1 F) as HF1 by (subst w2; by eapply patched_fin).
  assert (w_len w2 = w_len w1) as Hl2 by (subst w2; apply P).
  unfold ev. simpl. eapply sim_bind.
  { apply (R1 F Lend (if taken mn (negb (bool_decide (op = And))) then w_len w3 else LF)); [done..| |done|done].
    eapply Forall_impl; [exact Hres|]. intros a Ha. subst w2. by apply (le_resolves (set_instrs c w1)); [apply HF2|]. }
  intros v s1 m1 _ (K1 & Ag1 & Hda1 & Hip1). rewrite Hmx in Hip1.
  destruct (Bool.eqb (to_bool v (st_heap s1)) (bool_decide (op = And))) eqn:Hb.
  - eapply sim_mono; [apply (R2 F Lend LF HF Hn2 Hy1 Hy2)|].
    { split; [by rewrite Hl2|]. split; [done|]. subst w2. done. }
    intros v2 s2 m2 _ (K2 & Ag2 & Hda2 & Hip2). split; [|done]. assert (ctx w w2) as C.
    { subst w2. destruct (written_ctx _ _ _ _ W1) as [? ? ? ? ?]. split; try done. by eapply patched_wfw. }
    eapply keep_trans; [exact K1|exact K2|by apply ctx_top| |].
    + by rewrite (ctx_depth _ _ C).
    + intros z _ [?|?]; apply elem_of_app; auto.
  - apply sim_ret. split; [eapply keep_mono; [exact K1|done..|]; intros z _ ?; apply elem_of_app; by left|].
    split; [done|]. split.
    + intros z. rewrite (wr_rel _ _ _ _ W2). subst w2. apply Hda1.
    + rewrite Hip1. apply eqb_false_iff in Hb. by destruct (to_bool v (st_heap s1)), (bool_decide (op = And)).
Qed.

Lemma cond_not lc `{!WorldOk V H E TC D KM MB} sp e : cond_ok lc e → cond_ok lc (mkSpanned sp (ExprBuiltin1 Not e)).
Proof.
  intros He Hwf w mn t f Hw Hlc. eapply wp_mono; [apply (He Hwf w (negate mn) t f Hw Hlc)|].
  intros tf w' (new & nt & nf & Htf & Hwr & J & R). exists new, nt, nf. split_and!; try done.
  intros F Lend LF HF Hnew HT HLF n s m Hm. unfold ev. simpl. eapply sim_bind; [by eapply R|].
  intros v s1 m1 _ (K & Ag & Hda & Hip). unfold at_span. apply sim_ret. split_and!; [done| |done|].
  - by destruct s1.
  - simpl. rewrite Hip, to_bool_new_bool. by destruct mn, (to_bool v (st_heap s1)).
Qed.

Lemma cond_logical lc sp op x y : cond_ok lc x → cond_ok lc y → cond_ok lc (mkSpanned sp (LogicalBinOp op x y)).
Proof.
  intros Hx Hy [Hwx Hwy]%andb_true_iff w mn t f Hw Hlc. cbn [write_cond span node].
  destruct (Bool.eqb (bool_decide (op = And)) (bool_decide (mn = MaybeId))) eqn:Hop.
  - apply wp_bind. eapply wp_mono; [apply (Hx Hwx w mn [] f Hw Hlc)|]. intros [_ _] w1 (new1 & ntx & nfx & [= -> ->] & W1 & J1 & R1).
    apply wp_bind. pose proof J1 as [Jp _ Jd]. apply Forall_app in Jp as [Jp _]. apply NoDup_app in Jd as [Jd _].
    eapply patch_addrs_wp; [exact Jp|exact Jd|]. intros c P Hres. set (w2 := set_instrs c w1).
    assert (written false new1 w w2) as W02 by (eapply written_patch; [done..|eapply jp_new, jumps_app_l, J1|done]).
    assert (jumps w w2 nfx) as J2 by by eapply jumps_patch.
    eapply wp_mono; [apply (Hy Hwy w2 mn t (f ++ nfx)); [apply W02|by etrans; [apply (cx_lc _ _ (written_ctx _ _ _ _ W02))|]]|].
    intros [_ _] w3 (new2 & nty & nfy & [= -> ->] & W2 & J3 & R2). exists (new1 ++ new2), nty, (nfx ++ nfy).
    rewrite <- app_assoc. split; [done|]. split; [by eapply written_trans|]. split.
    + eapply (jumps_perm _ _ (nfx ++ nty ++ nfy)); [by rewrite !(assoc_L (++)), (comm (++) nfx)|].
      eapply jumps_app; [exact J2|apply W2|apply W02|done].
    + eapply (cond_seq sp op x y mn mn _ _ _ w1 w2 w3 c ntx nfx nty nfy); try done; [by intros []; destruct mn, op|].
      intros Q LT LF HT [? ?]%Forall_app. split; [|done]. by destruct mn, op.
  - apply wp_bind. eapply wp_mono; [apply (Hx Hwx w (negate mn) [] t Hw Hlc)|]. intros [_ _] w1 (new1 & ntx & nfx & [= -> ->] & W1 & J1 & R1).
    apply wp_bind. pose proof J1 as [Jp _ Jd]. apply Forall_app in Jp as [Jp _]. apply NoDup_app in Jd as [Jd _].
    eapply patch_addrs_wp; [exact Jp|exact Jd|]. intros c P Hres. set (w2 := set_instrs c w1).
    assert (written false new1 w w2) as W02 by (eapply written_patch; [done..|eapply jp_new, jumps_app_l, J1|done]).
    assert (jumps w w2 nfx) as J2 by by eapply jumps_patch.
    eapply wp_mono; [apply (Hy Hwy w2 mn (t ++ nfx) f); [apply W02|by etrans; [apply (cx_lc _ _ (written_ctx _ _ _ _ W02))|]]|].
    intros [_ _] w3 (new2 & nty & nfy & [= -> ->] & W2 & J3 & R2). exists (new1 ++ new2), (nfx ++ nty), nfy.
    rewrite <- app_assoc. split; [done|]. split; [by eapply written_trans|]. split.
    + rewrite <- app_assoc. eapply jumps_app; [exact J2|apply W2|apply W02|done].
    + eapply (cond_seq sp op x y (negate mn) mn _ _ _ w1 w2 w3 c ntx nfx nty nfy); try done; [by intros []; destruct mn, op|].
      intros Q LT LF [? ?]%Forall_app HF. split; [|done]. by destruct mn, op.
Qed.

(** ** Conditionals *)

Section if_else.
Context {A : Type} (lc : nat) (P : Mach → Prop) (rt rf : nat → St V H → option (out A)) (Ba B : nat → Prop) (R : dest A).
Context (HR : dest_ok R).

(** The other arm: a block, or nothing, with the result [v0]. *)
Definition else_ok w (f : option (M ())) : Prop :=
  match f with
  | Some f => ∀ w1, ctx w w1 → w_stack_size w1 = w_stack_size w → writes true f w1 P rf Ba R
  | None => ∃ v0, d_exit R v0 = None ∧ (∀ s, d_res R v0 s = s) ∧ (∀ m, P m → d_post R v0 m) ∧ ∀ n s, rf n s = ret v0 s
  end.
Lemma writes_if_else cond mn (t : M ()) (f : option (M ())) w :
  cond_ok lc cond → wf_expr lc (node cond) = true → wfw w → w_local_count w = lc →
  stable w (is_bound (bound (node cond))) P →
  (∀ w1, ctx w w1 → w_stack_size w1 = w_stack_size w → writes true t w1 P rt Ba R) → else_ok w f →
  (∀ x, x < w_top w → x ∈ bound (node cond) ∨ Ba x → B x) →
  writes mk (if_else_impl write_bc cond mn t f) w P
    (λ n s, do c, s <~ ev n cond s; if taken mn (to_bool c (st_heap s)) then rt n s else rf n s) B R.
Proof.
  intros Hc Hwf Hw Hlc HP Ht Hf HB. unfold if_else_impl. apply wp_bind.
  eapply wp_mono; [by apply (Hc Hwf w mn [] [])|]. intros [_ _] w1 (new1 & nt & nf & [= -> ->] & W1 & J1 & R1). simpl.
  apply wp_bind. unfold save_definitely_assigned, gets, wp at 1. apply wp_bind.
  pose proof J1 as [Jp _ Jd]. apply Forall_app in Jp as [Jp _]. apply NoDup_app in Jd as [Jd _].
  eapply patch_addrs_wp; [exact Jp|exact Jd|]. intros c P1 Hres. set (w2 := set_instrs c w1).
  assert (written mk new1 w w2) as W02.
  { apply written_marks. eapply written_patch; [done..|eapply jp_new, jumps_app_l, J1|done]. }
  assert (jumps w w2 nf) as J2 by by eapply jumps_patch. pose proof (written_ctx _ _ _ _ W02) as C2.
  assert (w_stack_size w2 = w_stack_size w) as Hst by apply W02.
  assert (∀ w3, ctx w2 w3 → w_stack_size w3 = w_stack_size w2 → writes true t w3 P rt Ba R) as Ht2.
  { intros w3 C3 Hs3. apply Ht; [by eapply ctx_trans|congruence]. }
  change (w_definitely_assigned w1) with (w_definitely_assigned w2).
  eapply (wp_mono _ _ (λ _ w', ∃ new2, written mk (new1 ++ new2) w w' ∧ arms_run P rt rf Ba R new2 w2 w' nf)).
  - destruct f as [f|]; simpl in Hf.
    + eapply wp_equiv; [|eapply (arms_wp P rt rf Ba R HR t f (patch_addrs nf) w w2 nf new1 (span cond)); try done].
      * intros s. unfold mbind, run_bind. destruct (t s) as [[[]|?|?] s1]; try done.
        destruct (write_br _ s1) as [[br|?|?] s2]; try done. destruct (restore_definitely_assigned _ s2) as [[[]|?|?] s3]; try done.
        destruct (patch_addrs nf s3) as [[[]|?|?] s4]; try done. destruct (f s4) as [[[]|?|?] s5]; try done.
      * intros w3 Q ? ?. by apply (patch_addrs_wp false).
      * intros w3 C3 Hs3. apply Hf; [by eapply ctx_trans|congruence].
    + destruct Hf as (v0 & ? & ? & ? & ?). by eapply (arm_wp P rt rf Ba R t w w2 nf new1 v0).
  - intros _ w' (new2 & W' & Hrun). exists (new1 ++ new2). split; [done|].
    intros F HF Hnew n s m Hm HPm. apply Forall_app in Hnew as [Hn1 Hn2].
    destruct (Hrun F HF Hn2) as (HF2 & LF & HLF & Hsim). assert (fin w1 F) as HF1 by by eapply patched_fin.
    assert (w_len w2 = w_len w1) as Hl2 by apply P1. eapply sim_bind.
    + apply (R1 F (d_end R) LF); [done..| |done|done]. eapply Forall_impl; [exact Hres|].
      intros a. apply (le_resolves w2). apply HF2.
    + intros v s1 m1 _ (K1 & Ag1 & Hda1 & Hip1). eapply sim_mono.
      { apply (Hsim (taken mn (to_bool v (st_heap s1)))); [by rewrite Hip1, Hl2|done|done|]. by eapply HP. }
      intros u s2 m2 _ [K2 HR2]. split; [|done]. eapply keep_trans; [exact K1|exact K2|by apply ctx_top| |done].
      by rewrite (ctx_depth _ _ C2).
Qed.

(** [BcWriter::write_if_else]: the condition is in a slot. *)
Lemma writes_writer_if_else_impl cond sp v (t f : M ()) w :
  wfw w → cond < w_top w → (∀ m, P m → holds cond v m) → stable w (λ _, False) P →
  (∀ w1, ctx w w1 → w_stack_size w1 = w_stack_size w → writes true t w1 P rt Ba R) →
  (∀ w1, ctx w w1 → w_stack_size w1 = w_stack_size w → writes true f w1 P rf Ba R) →
  writes mk (writer_if_else_impl cond sp t f) w P
    (λ n s, if to_bool v (st_heap s) then rt n s else rf n s) Ba R.
Proof.
  intros Hw Hc HP Hst Ht Hf. unfold writer_if_else_impl. apply wp_bind. unfold save_definitely_assigned, gets, wp at 1.
  apply wp_bind, write_instr_ret_wp. set (i := InstrIfNotBr cond FORWARD). set (w1 := emit _ i w).
  assert (written mk [] w w1) as W1 by (apply written_marks; by apply emit_written).
  assert (jumps w w1 [w_len w]) as J1.
  { split; [apply Forall_singleton; by apply emit_jump|by apply Forall_singleton|apply NoDup_singleton]. }
  pose proof (written_ctx _ _ _ _ W1) as C1. change (w_definitely_assigned w) with (w_definitely_assigned w1).
  eapply wp_mono.
  - eapply (arms_wp P rt rf Ba R HR t f (patch_addr (w_len w)) w w1 [w_len w] [] sp); try done.
    + intros w3 Q Hp _ HQ. apply (patch_addr_wp false); [by apply (proj1 (Forall_singleton _ _)) in Hp|].
      intros c Hpc Hr. apply HQ; [done|]. by apply Forall_singleton.
    + intros w3 C3 Hs3. apply Ht; [by eapply ctx_trans|done].
    + intros w3 C3 Hs3. apply Hf; [by eapply ctx_trans|done].
  - intros _ w' (new2 & W' & Hrun). exists new2. split; [done|]. intros F HF Hnew n s m Hm HPm.
    destruct (Hrun F HF Hnew) as (HF1 & LF & HLF & Hsim). apply (proj1 (Forall_singleton _ _)) in HLF.
    pose proof Hm as (Hip & Ag & Hda). destruct (step_jump F _ i w m LF Hw HF1 eq_refl HLF Hip) as (o & Ho & Hstep).
    pose proof (size_of_repr_patch o i) as Hsz. simpl in Hstep, Hsz. unfold run_InstrIfNotBr in Hstep.
    rewrite (bind_get _ _ _ _ (HP _ HPm)) in Hstep. unfold heap_get, mbind, run_bind in Hstep. simpl in Hstep.
    rewrite Hsz, Ho, (ag_heap _ _ _ Ag) in Hstep. fold i in Hstep. rewrite <- (emit_len (mkSlowArg sp []) i w) in Hstep.
    fold w1 in Hstep. set (b := to_bool v (st_heap s)) in *. set (m1 := mkMach _ _ _) in Hstep.
    assert (keep (λ _, False) w m m1) as K1 by (split; eauto).
    eapply sim_step; [exact Hstep|]. eapply sim_mono; [apply (Hsim b n s m1)|].
    + simpl. by destruct b.
    + pose proof (agree_moved (if negb b then LF else w_len w1) F s m Ag) as Agm. unfold moved in Agm.
      by rewrite (ag_heap _ _ _ Ag) in Agm.
    + done.
    + by eapply Hst.
    + intros u s2 m2 _ [K2 HR2]. split; [|done].
      eapply keep_trans; [exact K1|exact K2|by apply ctx_top|by rewrite (ctx_depth _ _ C1)|tauto].
Qed.
End if_else.
End branch.
