(* ===== verification/BcLoop.v ===== *)
(** Loops: [break] and [continue], the rounds of a loop over an iterator, loops of statements and of
    comprehensions. *)

From S2P Require Import Prelude Hashing TableMap FastString Symbol CodeMap.
From S2P Require Import DefParams OrdMap ParamSpec Def Ir IrWf World IrEval BcInstr BcWriter BcCompile BcCode BcSim BcRules BcOperands BcBranch.

Section loop.
Context `{W : World V H E TC D KM MB} `{!InstrLayout V TC D KM}.
Local Abbreviation BcWriter := (BcWriter V TC D KM).
Local Abbreviation Mach := (Mach (V:=V) (H:=H)).
Local Abbreviation M A := (run BcWriter CodeTooBig A).
Local Abbreviation I A := (run (BcFrame V * H) E A).
Local Abbreviation out := (out V H E).
Local Abbreviation dest := (dest V H TC D KM).
Local Abbreviation Expr := (Spanned (ExprCompiled V TC D)).
Context {mk : bool}.
Implicit Types (w F : BcWriter) (m : Mach) (s : St V H) (B : nat → Prop) (P : Mach → Prop) (e : Expr) (a : BcAddr) (h : H).

(** ** Where [break] and [continue] leave *)

(** The code is about to execute the jump of the innermost loop, whose end is at [Lend]. *)
Record at_jump (a Lend : BcAddr) F s m (i : BcAddrOffset → Instr V TC D KM) : Prop := {
  aj_instr : ∃ o, get_instr (w_instrs F) (m_ip m) = Some (i o) ∧ (m_ip m + o)%N = Lend;
  aj_slow : ∃ sl, slow_of (w_slow_args F) (m_ip m) = Some sl;
  aj_agree : agree F s m;
}.
Definition at_continue (loops : list (nat * nat * BcAddr)) (Lend : BcAddr) F s m : Prop :=
  ∃ iter var inner, last loops = Some (iter, var, inner) ∧ ∃ begin, (m_ip m - begin)%N = inner ∧
  at_jump (m_ip m) Lend F s m (InstrContinue iter (length loops - 1) var begin).
Definition at_break (loops : list (nat * nat * BcAddr)) (Lend : BcAddr) F s m : Prop :=
  ∃ iter var inner, last loops = Some (iter, var, inner) ∧ at_jump (m_ip m) Lend F s m (InstrBreak iter).
Definition flow_dest (loops : list (nat * nat * BcAddr)) (Lend : BcAddr) : dest Flow :=
  mkDest (λ _ s, s) (λ _ _, True)
    (λ f, match f with
          | FlowNext => None
          | FlowContinue => Some (at_continue loops Lend)
          | FlowBreak => Some (at_break loops Lend)
          end) Lend.
Lemma dest_ok_flow loops Lend : dest_ok (flow_dest loops Lend).
Proof. done. Qed.
Definition sigs w : list (nat * nat * BcAddr) := map loop_sig (w_for_loops w).

(** A jump of the innermost loop has been written. *)
Definition jumped (sl : BcInstrSlowArg) (i : Instr V TC D KM) w : BcWriter :=
  set_for_loops (add_ends [w_len w] (w_for_loops w)) (w_max_loop_depth w) (emit sl i w).
Lemma push_end_addr_wp a w (Q : () → BcWriter → Prop) :
  w_for_loops w ≠ [] → Q () (set_for_loops (add_ends [a] (w_for_loops w)) (w_max_loop_depth w) w) →
  wp (push_end_addr a) w Q.
Proof.
  intros Hl HQ. apply wp_bind. unfold gets at 1, wp at 1. apply wp_bind. unfold gets at 1, wp at 1.
  unfold add_ends in HQ. destruct (last (w_for_loops w)) as [l|] eqn:Hla; [done|]. by apply last_None in Hla.
Qed.
Lemma jumped_written sl i w :
  wfw w → w_for_loops w ≠ [] → not_end i → jump_offset i = Some FORWARD → loop_instr i = true →
  written mk [w_len w] w (jumped sl i w).
Proof.
  intros Hw Hl He Hi Hli. destruct (emit_written (mk:=mk) sl i w Hw He) as [[? ? ? ? ? Hlo] G Hs Hd].
  assert (length (add_ends [w_len w] (w_for_loops w)) = length (w_for_loops w)) as Hlen by apply length_add_ends.
  split; [split; try done| |done|done].
  - simpl. rewrite Hlen. apply Hw.
  - apply add_ends_Forall; [done|]. exact Hlo.
  - split; try apply G; try done.
    + apply Forall_singleton. exists i. split; [apply emit_get|done].
    + by apply Forall_singleton.
    + apply NoDup_singleton.
Qed.

Lemma jumped_runs {A} sl i w P (v : A) B (R : dest A) :
  wfw w → jump_offset i = Some FORWARD →
  (∀ F s m o, agree F s m → get_instr (w_instrs F) (m_ip m) = Some (set_jump_offset o i) →
     m_ip m = w_len w → (m_ip m + o)%N = d_end R → slow_of (w_slow_args F) (m_ip m) = Some sl →
     ∃ esc, d_exit R v = Some esc ∧ esc F s m) →
  runs [w_len w] w (jumped sl i w) P (λ _ s, ret v s) B R.
Proof.
  intros Hw Hi Hex F HF Hnew n s m (Hip & Ag & Hda) HPm. apply (proj1 (Forall_singleton _ _)) in Hnew.
  assert (le (emit sl i w) F) as L by (destruct HF as [[] ?]; by split).
  destruct (resolved_jump _ _ _ _ _ L (emit_get sl i w) Hi Hnew) as (o & Ho & Ht).
  apply sim_ret. split; [apply keep_refl|]. unfold reach. rewrite <- Hip in Ho, Ht.
  destruct (Hex F s m o Ag Ho Hip Ht) as (esc & -> & Hesc); [|done].
  rewrite Hip. apply (le_slow _ _ L). by apply emit_slow.
Qed.

Lemma writes_continue sp w P B Lend :
  wfw w → w_for_loops w ≠ [] →
  writes mk (write_continue sp) w P (λ _ s, ret FlowContinue s) B (flow_dest (sigs w) Lend).
Proof.
  intros Hw Hl. unfold write_continue. apply wp_bind. unfold gets at 1, wp at 1. apply wp_bind, w_assert_wp.
  { apply Nat.leb_le. destruct (w_for_loops w); simpl; [done|lia]. }
  destruct (last (w_for_loops w)) as [l|] eqn:Hla; [|by apply last_None in Hla].
  unfold last_loop. apply wp_bind, wp_bind. unfold gets at 1, wp at 1. rewrite Hla. apply wp_ok.
  assert (loop_ok w l) as (_ & _ & Hin).
  { pose proof (wf_loops _ Hw) as Hlo. rewrite Forall_forall in Hlo. apply Hlo. by apply last_Some_elem_of in Hla. }
  apply wp_bind, ip_wp, wp_bind, w_assert_wp; [by apply N.leb_le|]. apply wp_bind. apply write_instr_ret_wp.
  apply push_end_addr_wp; [done|]. set (i := InstrContinue _ _ _ _ _). set (sl := mkSlowArg sp []).
  exists [w_len w]. split; [by apply (jumped_written sl i)|].
  apply (jumped_runs sl i w P FlowContinue B); [done|done|]. intros F s m o Ag Ho Hip Ht Hsl. eexists. split; [done|].
  exists (fl_iter l), (fl_var l), (fl_inner_addr l). split; [unfold sigs; by rewrite fmap_last, Hla|].
  exists (w_len w - fl_inner_addr l)%N. split; [rewrite Hip; lia|]. split; [|by eexists|done]. exists o.
  split; [|done]. rewrite Ho. subst i. simpl. unfold sigs. by rewrite length_map.
Qed.
Lemma writes_break sp w P B Lend :
  wfw w → w_for_loops w ≠ [] →
  writes mk (write_break sp) w P (λ _ s, ret FlowBreak s) B (flow_dest (sigs w) Lend).
Proof.
  intros Hw Hl. unfold write_break.
  destruct (last (w_for_loops w)) as [l|] eqn:Hla; [|by apply last_None in Hla].
  unfold last_loop. apply wp_bind, wp_bind. unfold gets at 1, wp at 1. rewrite Hla. apply wp_ok.
  apply wp_bind. apply write_instr_ret_wp.
  apply push_end_addr_wp; [done|]. set (i := InstrBreak _ _). set (sl := mkSlowArg sp []).
  exists [w_len w]. split; [by apply (jumped_written sl i)|].
  apply (jumped_runs sl i w P FlowBreak B); [done|done|]. intros F s m o Ag Ho Hip Ht Hsl. eexists. split; [done|].
  exists (fl_iter l), (fl_var l), (fl_inner_addr l). split; [unfold sigs; by rewrite fmap_last, Hla|].
  split; [|by eexists|done]. by exists o.
Qed.
End loop.

(** Loops over an iterator: the rounds that the jumps of a loop make, and the code that
    [BcWriter.writer_for] puts around the body of a loop. *)

#[global] Instance Flow_inhabited : Inhabited Flow := populate FlowNext.

Section rounds.
Context `{W : World V H E TC D KM MB} `{!InstrLayout V TC D KM}.
Local Abbreviation BcWriter := (BcWriter V TC D KM).
Local Abbreviation Mach := (Mach (V:=V) (H:=H)).
Local Abbreviation out := (out V H E).
Implicit Types (s : St V H) (m : Mach) (h : H).
Context (F w0 : BcWriter) (B0 : nat → Prop) (m0 : Mach) (iter var d : nat) (it : V) (inner Lend : BcAddr).
Context (loops : list (nat * nat * BcAddr)).
Context (HF : Forall not_end (w_instrs F)) (Hvar : var < w_local_count F + w_max_stack_size F) (Hd : d < w_max_loop_depth F).
Context (Hiter : iter ≠ var) (HB : B0 var) (Hd0 : length (w_for_loops w0) ≤ d).
Context (Hlast : last loops = Some (iter, var, inner)) (Hlen : length loops - 1 = d).

(** In a round: the iterator is in its slot, the next item is the [i]th. *)
Record looping (i : nat) s m : Prop := {
  lo_agree : agree F s m;
  lo_iter : holds iter it m;
  lo_index : fr_iter_index (m_frame m) !! d = Some (Some i);
  lo_keep : keep B0 w0 m0 m;
}.
(** The start of the body with the item [x]. *)
Definition entered (i : nat) (x : V) h m : Mach :=
  mkMach inner (mkFrame (fr_local_count (m_frame m)) (<[var := Some x]> (fr_slots (m_frame m)))
    (<[d := Some i]> (fr_iter_index (m_frame m)))) h.
Lemma looping_entered i x h s m :
  agree F s m → holds iter it m → keep B0 w0 m0 m →
  looping i (put var x (mkSt (st_locals s) h)) (entered i x h m) ∧ holds var x (entered i x h m).
Proof.
  intros Ag Hit K. assert (var < length (fr_slots (m_frame m))) as Hlt by (by rewrite (ag_slots _ _ _ Ag)).
  split; [split|by apply (holds_set var x 0%N m h)].
  - pose proof (agree_set F s m var x 0%N h Ag) as []. split; try done. simpl. rewrite length_insert. apply Ag.
  - unfold holds, slot. simpl. by rewrite list_lookup_insert_ne.
  - simpl. rewrite list_lookup_insert_eq; [done|]. by rewrite (ag_iters _ _ _ Ag).
  - pose proof (keep_set w0 var x 0%N m h) as [Ks _]. split.
    + intros y v Hy (v1 & H1 & E1)%(kp_slots _ _ _ _ K); [|done].
      destruct (Ks y v1 Hy H1) as (v2 & H2 & E2). exists v2. split; [exact H2|].
      intros HBy. rewrite E2, E1; [done..|]. by intros ->.
    + intros j Hj. simpl. rewrite list_lookup_insert_ne by lia. by apply K.
Qed.
Definition ended h m : Mach := mkMach Lend (m_frame m) h.

Lemma step_continue i s m :
  looping i s m → at_continue loops Lend F s m →
  step (prog F) m = inl (match iter_next it i (st_heap s) with
                         | (Some x, h) => entered (i + 1) x h m
                         | (None, h) => ended (iter_stop it h) m
                         end).
Proof.
  intros [Ag Hit Hi K] (iter' & var' & inner' & Hl & begin & Hb & [(o & Hins & Ho) [sl Hsl] _]). rewrite Hlast in Hl. injection Hl as <- <- <-.
  rewrite (step_at F (m_ip m) _ sl m HF Hins Hsl eq_refl). simpl. unfold run_InstrContinue.
  rewrite (bind_get _ _ _ _ Hit), Hlen. unfold mbind at 1, run_bind at 1. unfold get_iter_index. rewrite Hi.
  unfold mbind at 1, run_bind at 1, heap_run. rewrite (ag_heap _ _ _ Ag).
  destruct (iter_next it i (st_heap s)) as [[x|] h].
  - pose proof (ag_iters _ _ _ Ag) as Hit'. pose proof (ag_slots _ _ _ Ag) as Hsl'.
    assert ((d <? length (fr_iter_index (m_frame m))) = true) as E1 by (apply Nat.ltb_lt; lia).
    assert ((var <? length (fr_slots (m_frame m))) = true) as E2 by (apply Nat.ltb_lt; lia).
    unfold mbind, run_bind, set_iter_index, set_bc_slot. rewrite E1. cbn [fr_slots]. rewrite E2. unfold mret, run_ret. rewrite Hb. done.
  - simpl. by rewrite Ho.
Qed.
Lemma step_break i s m :
  looping i s m → at_break loops Lend F s m →
  step (prog F) m = inl (ended (iter_stop it (st_heap s)) m).
Proof.
  intros [Ag Hit Hi K] (iter' & var' & inner' & Hl & [(o & Hins & Ho) [sl Hsl] _]). rewrite Hlast in Hl. injection Hl as <- <- <-.
  rewrite (step_at F (m_ip m) _ sl m HF Hins Hsl eq_refl). simpl. unfold run_InstrBreak.
  rewrite (bind_get _ _ _ _ Hit). simpl. by rewrite (ag_heap _ _ _ Ag), Ho.
Qed.

Context (n : nat) (body : V → V → St V H → option (out Flow)).
Definition at_flow (f : Flow) : BcWriter → St V H → Mach → Prop :=
  match f with FlowBreak => at_break loops Lend | _ => at_continue loops Lend end.
Context (Hbody : ∀ i x h s m, looping i (put var x (mkSt (st_locals s) h)) m → m_ip m = inner → holds var x m →
  sim (prog F) n (body it x (mkSt (st_locals s) h)) m (λ f s' m', looping i s' m' ∧ at_flow f F s' m')).

(** After the loop. *)
Definition left_loop s m : Prop := agree F s m ∧ keep B0 w0 m0 m ∧ m_ip m = Lend.
Lemma ended_left s m h : agree F s m → keep B0 w0 m0 m → left_loop (mkSt (st_locals s) h) (ended h m).
Proof. intros [] []. by repeat split. Qed.
Lemma sim_round k i x h s m :
  k ≤ n → agree F s m → holds iter it m → keep B0 w0 m0 m →
  (∀ s m, looping i s m → at_continue loops Lend F s m →
     sim (prog F) k (loop_rounds body it k i s) m (λ _, left_loop)) →
  sim (prog F) k
    (do flow, s <~ body it x (mkSt (st_locals s) h);
     match flow with
     | FlowBreak => ret () (mkSt (st_locals s) (iter_stop it (st_heap s)))
     | _ => loop_rounds body it k i s
     end) (entered i x h m) (λ _, left_loop).
Proof.
  intros Hk Ag Hit K IH. destruct (looping_entered i x h s m Ag Hit K) as [Lo Hx].
  eapply sim_bind; [eapply sim_fuel; [exact Hk|]; by eapply (Hbody i x h s)|].
  intros f s' m' _ [Lo' Hf]. destruct f; [by apply IH| |by apply IH].
  eapply sim_step; [by eapply step_break|]. apply sim_ret. apply ended_left; apply Lo'.
Qed.
Lemma sim_rounds k i s m :
  k ≤ n → looping i s m → at_continue loops Lend F s m →
  sim (prog F) k (loop_rounds body it k i s) m (λ _, left_loop).
Proof.
  revert i s m. induction k as [|k IH]; intros i s m Hk Lo Hat; simpl; [by exists 0, m|].
  eapply sim_step_fuel; [by eapply step_continue|].
  destruct (iter_next it i (st_heap s)) as [[x|] h].
  - apply sim_round; [lia|apply Lo..|]. intros s' m' Lo' Hat'. apply IH; [lia|done..].
  - apply sim_ret. apply ended_left; apply Lo.
Qed.
End rounds.

Section writer_for.
Context `{W : World V H E TC D KM MB} `{!InstrLayout V TC D KM}.
Local Abbreviation BcWriter := (BcWriter V TC D KM).
Local Abbreviation Mach := (Mach (V:=V) (H:=H)).
Local Abbreviation M A := (run BcWriter CodeTooBig A).
Local Abbreviation out := (out V H E).
Context {mk : bool}.
Implicit Types (w F : BcWriter) (m : Mach) (s : St V H) (B : nat → Prop) (P : Mach → Prop) (h : H).

(** The end of the body is a [continue]. *)
Definition or_continue (f : Flow) : Flow := match f with FlowNext => FlowContinue | f => f end.
Lemma body_continue sp (body : M ()) w P (r : nat → St V H → option (out Flow)) Bb Lend :
  w_for_loops w ≠ [] → writes true body w P r Bb (flow_dest (sigs w) Lend) →
  writes true (_ ← body; write_continue sp) w P (λ n s, do f, s <~ r n s; ret (or_continue f) s) Bb (flow_dest (sigs w) Lend).
Proof.
  intros Hl Hb. apply (writes_seq r (λ _ _ s, ret FlowContinue s) P (λ _ _, True) Bb Bb Bb (flow_dest (sigs w) Lend)
    (flow_dest (sigs w) Lend)) with (r := λ f _ s, ret (or_continue f) s).
  - exact Hb.
  - split; try done.
    + intros [] esc; simpl; intros [= <-]; [by exists FlowBreak|by exists FlowContinue].
    + by intros [] n s.
    + tauto.
  - intros [] w1 C _ _ _. pose proof (cx_loops _ _ C) as Hs. unfold sigs. rewrite <- Hs. apply writes_continue; [apply C|].
    intros Hn. apply (f_equal length) in Hs. rewrite Hn in Hs. simpl in Hs. rewrite length_map in Hs.
    by apply Hl, nil_length_inv.
  - by exists FlowNext.
Qed.

(** The state of the writer for the body of a loop. *)
Record loop_ctx w w2 (var : nat) : Prop := {
  lc_wf : wfw w2;
  lc_count : w_local_count w2 = w_local_count w;
  lc_stack : w_stack_size w2 = w_stack_size w + 1;
  lc_da : w_definitely_assigned w2 = w_definitely_assigned w;
  lc_sigs : sigs w2 = sigs w ++ [(w_top w, var, w_len w2)];
}.
(** In a loop: its iterator is at hand. *)
Definition in_loop w var P (it x : V) m : Prop := P m ∧ holds (w_top w) it m ∧ holds var x m.
(** The body of a loop, for every item and wherever the end of the loop is. *)
Definition writes_body w var (body : M ()) P (r : V → V → nat → St V H → option (out Flow)) Bb : Prop :=
  ∀ w2 it x Lend, loop_ctx w w2 var →
  writes true body w2 (in_loop w var P it x) (r it x) Bb (flow_dest (sigs w2) Lend).

(** ** The code around the body *)

Section around.
Context (w : BcWriter) (over var : nat) (sp : Span) (Hw : wfw w) (Hvar : var < w_top w).
Let w0 := pushed 1 w.
Let iter := w_top w.
Let loops := w_for_loops w.
Let i_iter : Instr V TC D KM := InstrIter over (length loops) iter var FORWARD.
Let w1 := emit (mkSlowArg sp []) i_iter w0.
Let loop := mkForLoop iter var (w_len w1) [w_len w0].
Let w2 := set_for_loops (loops ++ [loop]) (Nat.max (w_max_loop_depth w1) (length (loops ++ [loop]))) w1.

Lemma wfw_iter : wfw w0 ∧ written true [] w0 w1 ∧ wfw w1.
Proof.
  assert (wfw w0) as Hw0 by by apply pushed_ctx. split; [done|]. split; [by apply emit_written|by apply emit_wfw].
Qed.
Lemma around_ctx : loop_ctx w w2 var.
Proof.
  destruct wfw_iter as (Hw0 & W1 & [Hd Hs Hdp Hsl Hne Hl]).
  split; [split; try done| | | |]; try done.
  - simpl. lia.
  - simpl. apply Forall_app. split; [exact Hl|]. apply Forall_singleton. unfold loop_ok, w_top. simpl.
    unfold iter, w_top in *. unfold w_len. simpl. split_and!; try lia.
  - unfold sigs. simpl. by rewrite map_app.
Qed.
Lemma around_pending : pending true (w_instrs w2) (w_len w0).
Proof. exists i_iter. split; [apply emit_get|done]. Qed.

Context (new : list PatchAddr) (w3 : BcWriter) (W3 : written true new w2 w3).
Let w4 := set_for_loops loops (w_max_loop_depth w3) w3.
Lemma around_loops :
  w_for_loops w3 = loops ++ [mkForLoop iter var (w_len w1) (w_len w0 :: new)].
Proof. rewrite (gr_loops _ _ _ (wr_grows _ _ _ _ W3)). simpl. by rewrite add_ends_snoc. Qed.
Lemma around_patch :
  Forall (pending true (w_instrs w3)) (w_len w0 :: new) ∧ NoDup (w_len w0 :: new) ∧
  Forall (λ a, (w_len w0 <= a)%N) (w_len w0 :: new).
Proof.
  pose proof (wr_grows _ _ _ _ W3) as G.
  assert (Forall (λ a, (w_len w0 < a)%N) new) as Hnew.
  { eapply Forall_impl; [apply (gr_new _ _ _ G)|]. intros a Ha. cbn beta in Ha. change (w_len w2) with (w_len w1) in Ha.
    pose proof (size_of_repr_pos i_iter). assert (w_len w1 = w_len w0 + size_of_repr i_iter)%N by apply emit_len. lia. }
  split; [constructor; [|apply G]|split; [constructor; [|apply G]|constructor; [done|]]].
  - destruct around_pending as (i & Hi & ?). exists i. split; [by apply G|done].
  - intros Hin. rewrite Forall_forall in Hnew. apply Hnew in Hin. lia.
  - eapply Forall_impl; [exact Hnew|]. simpl. lia.
Qed.

Context (c5 : list (Instr V TC D KM)) (P5 : patched (w_len w0 :: new) (w_instrs w3) c5).
Let w5 := set_instrs c5 w4.
Let w6 := set_definitely_assigned (w_definitely_assigned w) w5.
Lemma around_written : written mk [] w0 w6.
Proof.
  destruct wfw_iter as (Hw0 & W1 & Hw1). pose proof (wr_grows _ _ _ _ W3) as G.
  pose proof (wr_wf _ _ _ _ W3) as [Hd Hs Hdp Hsl Hne Hl]. pose proof (wr_grows _ _ _ _ W1) as G1.
  assert (written true [] w0 w4) as W4.
  { split.
    - split; try done.
      + simpl. rewrite around_loops, length_app in Hdp. simpl in Hdp. lia.
      + simpl. rewrite around_loops in Hl. by apply Forall_app in Hl as [? _].
    - split; try done.
      + etrans; [apply G1|]. change (w_len w1) with (w_len w2). apply G.
      + intros a i Hi. apply (gr_code _ _ _ G). by apply (gr_code _ _ _ G1).
      + intros a sl Ha. apply (gr_slow _ _ _ G). by apply (gr_slow _ _ _ G1).
      + etrans; [apply G|done].
      + etrans; [apply G1|]. change (w_max_stack_size w1) with (w_max_stack_size w2). apply G.
      + simpl. pose proof (gr_max_depth _ _ _ G) as Hmd. simpl in Hmd. lia.
      + by rewrite add_ends_nil.
      + constructor.
    - etrans; [apply W3|done].
    - exact (wr_da _ _ _ _ W3). }
  destruct around_patch as (Hp & _ & Hn).
  eapply (written_set_da [] w0 w5 _ true); [|rewrite (wf_da _ Hw); symmetry|by apply da_rel_eq].
  - destruct W4 as [Hw4 G4 Hs4 Hd4]. split; [by eapply (patched_wfw _ c5 w4)| |done|done].
    eapply (patched_grows [] _ c5 w0 w4); [done..|]. apply Forall_true. intros a. apply not_elem_of_nil.
  - etrans; [apply G|done].
Qed.

Context (P : Mach → Prop) (r : V → V → nat → St V H → option (out Flow)) (eb : nat → V → V → St V H → option (out Flow)).
Context (Bb : nat → Prop) (HP : stable w (λ y, Bb y ∨ y = var) P) (HBb : ¬ Bb iter).
Context (Hres : Forall (λ a, resolves c5 a (w_len w3)) (w_len w0 :: new)).
Context (Hruns : ∀ it x, runs new w2 w3 (in_loop w var P it x)
  (λ n s, do f, s <~ r it x n s; ret (or_continue f) s) Bb (flow_dest (sigs w2) (w_len w3))).
Context (Heb : ∀ it x n s, length (st_locals s) = w_local_count w → eb n it x s = r it x n (put var x s)).
Let B0 (y : nat) : Prop := Bb y ∨ y = var ∨ y = iter.

Lemma around_fin F : fin w6 F →
  fin w3 F ∧ fin w1 F ∧ Forall (λ a, resolves (w_instrs F) a (w_len w3)) (w_len w0 :: new).
Proof.
  intros HF. assert (fin w5 F) as HF5 by by eapply set_da_fin.
  assert (fin w4 F) as HF4 by (by apply (patched_fin (w_len w0 :: new) c5 w4)).
  assert (fin w3 F) as HF3 by (by destruct HF4 as [[] ?]).
  assert (fin w2 F) as HF2 by (eapply grows_fin; [apply W3|done]).
  split; [done|]. split.
  - destruct HF2 as [[? ? ? ? Hdp] ?]. split; [split|]; try done. etrans; [|exact Hdp]. simpl. lia.
  - eapply Forall_impl; [exact Hres|]. intros a. apply (le_resolves w5). apply HF5.
Qed.
Lemma at_flow_agree Lend l f F s m : at_flow Lend l f F s m → agree F s m.
Proof.
  destruct f; [intros (? & ? & ? & _ & ? & _ & [])|intros (? & ? & ? & _ & [])|intros (? & ? & ? & _ & ? & _ & [])]; done.
Qed.
Lemma sim_map {A1 A2} c n (r1 : option (out A1)) (g : A1 → A2) m (Q : A2 → St V H → Mach → Prop) :
  sim c n (do a, s <~ r1; ret (g a) s) m Q → sim c n r1 m (λ a, Q (g a)).
Proof. by destruct r1 as [[a s|o]|]. Qed.
Lemma around_body F n s0 m0 it i x h s m :
  fin w6 F → rel w0 F s0 m0 → P m0 →
  looping F w0 B0 m0 iter (length loops) it i (put var x (mkSt (st_locals s) h)) m → m_ip m = w_len w1 → holds var x m →
  sim (prog F) n (eb n it x (mkSt (st_locals s) h)) m (λ f s' m',
    looping F w0 B0 m0 iter (length loops) it i s' m' ∧ at_flow (w_len w3) (sigs w2) f F s' m').
Proof.
  intros HF (Hip0 & Ag0 & Hda0) HP0 [Ag Hit Hi K] Hip Hx. destruct wfw_iter as (Hw0 & _ & _).
  destruct (around_fin F HF) as (HF3 & [L1 _] & [_ HR]%Forall_cons). pose proof (le_local_count _ _ L1) as Hlc. simpl in Hlc.
  assert (w_top w0 = S iter) as Ht0 by (unfold w0; rewrite pushed_top; unfold iter; lia).
  rewrite Heb.
  2: { pose proof (agree_len _ _ _ Ag) as Hl. simpl in Hl. rewrite length_insert in Hl. simpl. congruence. }
  eapply sim_mono; [apply (sim_map _ _ _ or_continue), (Hruns it x F HF3 HR)|].
  - split; [exact Hip|]. split; [exact Ag|]. by eapply (da_ok_keep B0 w0 w2 F s0 _ m0 m).
  - split; [|done]. eapply HP; [exact HP0|]. eapply keep_mono; [exact K|lia|done|].
    intros y Hy [?|[?| ->]]; [by left|by right|]. unfold iter in Hy. lia.
  - intros f s' m' _ [Kb HRf]. unfold reach in HRf. assert (at_flow (w_len w3) (sigs w2) f F s' m') as Hat by by destruct f.
    split; [|done]. pose proof (at_flow_agree _ _ _ _ _ _ Hat) as Ag'.
    split; [done| | |].
    + eapply keep_holds; [exact Kb| |done|done]. change (w_top w2) with (w_top w0). lia.
    + rewrite (kp_iter _ _ _ _ Kb); [done|]. simpl. rewrite length_app. simpl. unfold loops. lia.
    + eapply keep_trans; [exact K|exact Kb|done| |].
      * simpl. rewrite length_app. unfold loops. lia.
      * intros y _ [?|?]; [done|by left].
Qed.
Lemma set_bc_slot_then {A} x v fr h (k : run (BcFrame V * H) E A) :
  x < length (fr_slots fr) → (_ ← set_bc_slot x v; k) (fr, h) = k (set_fr x v fr, h).
Proof. intros Hx. unfold mbind, run_bind. by rewrite set_bc_slot_ok. Qed.
Lemma set_iter_index_then {A} d i fr h (k : run (BcFrame V * H) E A) :
  d < length (fr_iter_index fr) →
  (_ ← set_iter_index d i; k) (fr, h) = k (mkFrame (fr_local_count fr) (fr_slots fr) (<[d := Some i]> (fr_iter_index fr)), h).
Proof. intros Hd. unfold mbind, run_bind, set_iter_index. by rewrite (proj2 (Nat.ltb_lt _ _)). Qed.
Lemma around_runs ov Lend :
  runs [] w0 w6 (λ m, P m ∧ holds over ov m) (λ n s, for_loop n sp ov (eb n) s) B0 (effect Lend).
Proof.
  intros F HF _ n s m Hm [HPm Hov]. destruct wfw_iter as (Hw0 & W1 & Hw1). pose proof Hm as (Hip & Ag & Hda).
  destruct (around_fin F HF) as (HF3 & HF1 & HR). pose proof (le_local_count _ _ (proj1 HF1)) as Hlc. simpl in Hlc.
  assert (w_top w0 = S iter) as Ht0 by (unfold w0; rewrite pushed_top; unfold iter; lia).
  apply Forall_cons in HR as [Hr0 HR].
  destruct (step_jump F (mkSlowArg sp []) i_iter w0 m (w_len w3) Hw0 HF1 eq_refl Hr0 Hip) as (o & Ho & Hst).
  assert (∀ s' m', left_loop F w0 B0 m (w_len w3) s' m' → keep B0 w0 m m' ∧ reach (effect Lend) w6 F () s' m') as Hleft.
  { intros s' m' (Ag' & K & Hip'). split; [done|]. split; [|done]. split; [|split; [done|]].
    - rewrite Hip'. symmetry. change (w_len w6) with (w_len w5). apply P5.
    - by eapply (da_ok_keep B0 w0 w6 F s s' m m'). }
  simpl in Hst. unfold run_InstrIter in Hst. rewrite (bind_get _ _ _ _ Hov) in Hst.
  unfold for_loop, at_span. unfold mbind at 1, run_bind at 1, heap_op in Hst. rewrite (ag_heap _ _ _ Ag) in Hst.
  destruct (v_iterate ov (st_heap s)) as [[it|e|f] h]; [|by apply sim_exit..]. simpl obind.
  destruct n as [|n]; [by exists 0, m|]. simpl loop_rounds. unfold mbind at 1, run_bind at 1, heap_run in Hst.
  destruct (iter_next it 0 h) as [[x|] h1].
  - pose proof (rel_at _ _ F s m Hw0 (grows_le _ _ _ (wr_grows _ _ _ _ W1)) HF1 Hm) as [_ _ _ Htop].
    pose proof (le_max_depth _ _ (proj1 HF3)) as Hdp. pose proof (gr_max_depth _ _ _ (wr_grows _ _ _ _ W3)) as Hdp3.
    simpl in Hdp3. rewrite length_app in Hdp3. simpl in Hdp3. pose proof (ag_slots _ _ _ Ag) as Hsl.
    set (m1 := mkMach (w_len w1) (set_fr iter it (m_frame m)) h1).
    assert (agree F (mkSt (st_locals s) h1) m1) as Ag1.
    { pose proof (agree_set F s m iter it (w_len w1) h1 Ag) as Ag1. rewrite put_temp in Ag1; [done|].
      simpl. rewrite (agree_len _ _ _ Ag), Hlc. unfold iter, w_top. simpl. lia. }
    rewrite set_bc_slot_then in Hst by lia. rewrite set_bc_slot_then in Hst by (simpl; rewrite length_insert; unfold iter in *; lia).
    rewrite set_iter_index_then in Hst by (simpl; rewrite (ag_iters _ _ _ Ag); unfold loops in *; lia).
    pose proof (size_of_repr_patch o i_iter) as Hsz. simpl in Hsz.
    assert (w_len w1 = w_len w0 + size_of_repr i_iter)%N as Hl1 by apply emit_len.
    simpl in Hst. rewrite Hsz, <- Hl1 in Hst.
    eapply sim_step_fuel; [exact Hst|]. change (mkMach _ _ h1) with (entered var (length loops) (w_len w1) 1 x h1 m1).
    assert (last (sigs w2) = Some (iter, var, w_len w1)) as Hlast by (rewrite (lc_sigs _ _ _ around_ctx); apply last_snoc).
    assert (length (sigs w2) - 1 = length loops) as Hlen.
    { rewrite (lc_sigs _ _ _ around_ctx), length_app. unfold sigs, loops. rewrite length_map. simpl. lia. }
    assert (length loops < w_max_loop_depth F) as Hd by (unfold loops in *; lia).
    assert (var < w_local_count F + w_max_stack_size F) as Hv by lia.
    assert (iter ≠ var) as Hiv by (unfold iter; lia).
    assert (B0 var) as HBv by (right; by left).
    pose proof (λ i x h s' m', around_body F (S n) s m it i x h s' m' HF Hm HPm) as Hbody.
    eapply sim_mono; [eapply (sim_round F w0 B0 m iter var (length loops) it (w_len w1) (w_len w3) (sigs w2)) with (n := S n) (s := mkSt (st_locals s) h1)|].
    1-9: first [exact (proj2 HF1) | done].
    + lia.
    + done.
    + apply holds_set. lia.
    + eapply keep_mono; [apply (keep_set w0)|done|done|]. intros y _ ->. right. by right.
    + intros s' m' Lo Hat. by apply (sim_rounds F w0 B0 m iter var (length loops) it (w_len w1) (w_len w3) (sigs w2)) with (n := S n); try (exact (proj2 HF1)); try lia.
    + intros [] s' m' _. apply Hleft.
  - eapply sim_step; [exact Hst|]. rewrite Ho. apply sim_ret, Hleft.
    eapply (ended_left F w0 B0 m (w_len w3) s m); [done|apply keep_refl].
Qed.
End around.

Lemma writes_writer_for over var sp (body : M ()) w P ov (r : V → V → nat → St V H → option (out Flow))
    (eb : nat → V → V → St V H → option (out Flow)) Bb B Lend :
  wfw w → var < w_top w → stable w (λ y, Bb y ∨ y = var) P → ¬ Bb (w_top w) →
  writes_body w var body P r Bb →
  (∀ it x n s, length (st_locals s) = w_local_count w → eb n it x s = r it x n (put var x s)) →
  (∀ x, x < w_top w → Bb x ∨ x = var → B x) →
  writes mk (writer_for over var sp body) w (λ m, P m ∧ holds over ov m)
    (λ n s, for_loop n sp ov (eb n) s) B (effect Lend).
Proof.
  intros Hw Hvar HP HBb Hbody Heb HB. pose proof (around_ctx w over var sp Hw Hvar) as C.
  apply (writes_alloc_slot _ _ _ _ (λ y, Bb y ∨ y = var ∨ y = w_top w)); [done| |].
  2: { intros x Hx [?|[?| ->]]; [auto..|lia]. }
  apply wp_bind. unfold save_definitely_assigned, gets at 1, wp at 1. apply wp_bind. unfold gets at 1, wp at 1.
  apply wp_bind, write_instr_ret_wp, wp_bind, ip_wp, wp_bind. unfold gets at 1, wp at 1.
  apply wp_bind. unfold modify_w at 1, wp at 1.
  eapply wp_equiv; [intros w'; symmetry; apply run_bind_assoc|]. apply wp_bind.
  match type of C with loop_ctx _ ?x _ => set (w2 := x) in C end. eapply (wp_mono _ w2).
  { apply (writes_forall (mk:=true) (X:=V * V * BcAddr) _ w2 (λ '(it, x, _), in_loop w var P it x)
      (λ '(it, x, _) n s, do f, s <~ r it x n s; ret (or_continue f) s) Bb (λ '(_, _, a), flow_dest (sigs w2) a)).
    intros [[it x] a]. apply body_continue; [|by apply Hbody]. simpl. by destruct (w_for_loops w). }
  intros [] w3 (new & W3 & Hruns).
  pose proof (around_loops w over var sp new w3 W3) as Hloops. destruct (around_patch w over var sp Hvar new w3 W3) as (Hp & Hnd & _).
  apply wp_bind, wp_bind. unfold gets at 1, wp at 1. rewrite Hloops, last_snoc. apply wp_ok.
  apply wp_bind. unfold modify_w at 1, wp at 1. apply wp_bind. eapply patch_addrs_wp; [exact Hp|exact Hnd|].
  intros c5 P5 Hres. rewrite Hloops, length_app, Nat.add_sub, take_app_length in *.
  pose proof (around_written w over var sp Hw Hvar new w3 W3 c5 P5) as W6.
  apply restore_wp.
  { change (da_le (w_definitely_assigned w) (w_definitely_assigned w3)). etrans; [|apply (wr_da _ _ _ _ W3)]. done. }
  exists []. split; [exact W6|].
  apply (around_runs w over var sp Hw Hvar new w3 W3 c5 P5 P r eb Bb HP HBb Hres); [|done].
  intros it x. apply (Hruns (it, x, w_len w3)).
Qed.
End writer_for.
