(* ===== verification/BcClauses.v ===== *)
(** Marks of variables that are assigned for certain, and the loops of statements and clauses, which
    rely on them. *)

From S2P Require Import Prelude Hashing TableMap FastString Symbol CodeMap.
From S2P Require Import DefParams OrdMap ParamSpec Def Ir IrWf World IrEval BcInstr BcWriter BcCompile IrAssigned BcCode BcSim BcRules BcOperands BcBranch BcLoop.

Section marks.
Context `{W : World V H E TC D KM MB} `{!WorldOk V H E TC D KM MB} `{!InstrLayout V TC D KM}.
Local Abbreviation BcWriter := (BcWriter V TC D KM).
Local Abbreviation Mach := (Mach (V:=V) (H:=H)).
Local Abbreviation M A := (run BcWriter CodeTooBig A).
Local Abbreviation out := (out V H E).
Local Abbreviation dest := (dest V H TC D KM).
Local Abbreviation Expr := (Spanned (ExprCompiled V TC D)).
Local Abbreviation Target := (Spanned (AssignCompiledValue V TC D)).
Implicit Types (w F : BcWriter) (m : Mach) (s : St V H) (B : nat → Prop) (P : Mach → Prop) (l : list nat).

Definition mark_da l (da : list bool) : list bool := foldl (λ da x, <[x := true]> da) da l.
Definition marked l w : BcWriter := set_definitely_assigned (mark_da l (w_definitely_assigned w)) w.
Lemma length_mark l da : length (mark_da l da) = length da.
Proof. revert da. induction l as [|x l IH]; intros da; [done|]. simpl. by rewrite IH, length_insert. Qed.
Lemma mark_le l da : da_le da (mark_da l da).
Proof.
  revert da. induction l as [|x l IH]; intros da; simpl; [done|]. etrans; [|apply IH].
  apply Forall2_same_length_lookup_2; [by rewrite length_insert|]. intros i a b Ha Hb ->.
  destruct (decide (x = i)) as [->|].
  - rewrite list_lookup_insert_eq in Hb; [congruence|]. by eapply lookup_lt_Some.
  - rewrite list_lookup_insert_ne in Hb by done. congruence.
Qed.
Lemma mark_lookup l da x : mark_da l da !! x = Some true → x ∈ l ∨ da !! x = Some true.
Proof.
  revert da. induction l as [|y l IH]; intros da; simpl; [by right|]. intros [?|Hx]%IH; [left; by right|].
  destruct (decide (x = y)) as [->|]; [left; by left|]. rewrite list_lookup_insert_ne in Hx; auto.
Qed.
Lemma da_ok_marked l w s : da_ok w s → assigned l s → da_ok (marked l w) s.
Proof. intros Hd Ha x [?|?]%mark_lookup; auto. Qed.
Lemma mark_wp x w (Q : () → BcWriter → Prop) :
  x < length (w_definitely_assigned w) → Q () (marked [x] w) → wp (mark_definitely_assigned x) w Q.
Proof.
  intros Hx HQ. unfold mark_definitely_assigned. apply wp_bind. unfold gets at 1, wp at 1.
  apply wp_bind, w_assert_wp; [by apply Nat.ltb_lt|]. done.
Qed.
Lemma mark_locals_wp l w (Q : () → BcWriter → Prop) :
  below (length (w_definitely_assigned w)) l → Q () (marked l w) → wp (mark_locals l) w Q.
Proof.
  revert w. induction l as [|x l IH]; intros w Hl HQ; simpl.
  - apply wp_ret. by destruct w.
  - apply wp_bind, mark_wp; [apply Hl; by left|]. apply IH; [|done]. intros y Hy. simpl. rewrite length_insert.
    apply Hl. by right.
Qed.
Lemma marked_written new l w w' : written true new w w' → written true new w (marked l w').
Proof.
  intros Hw. eapply written_set_da; [exact Hw| |].
  - rewrite length_mark. apply (wf_da _ (wr_wf _ _ _ _ Hw)).
  - etrans; [apply (wr_rel _ _ _ _ Hw)|]. apply mark_le.
Qed.
Lemma marked_wf l w : wfw w → wfw (marked l w).
Proof. intros [? ? ? ? ? ?]. split; try done. unfold marked. simpl. by rewrite length_mark. Qed.
Lemma marked_fin l w F : fin (marked l w) F → fin w F.
Proof. by intros [[? ? ? ? ?] ?]. Qed.

(** After code that assigns them. *)
Lemma writes_then_mark {A T} (mm : M T) l w P (r : nat → St V H → option (out A)) B (R : dest A) :
  writes true mm w P r B R → wfw w → below (w_local_count w) l →
  (∀ n s a s', d_exit R a = None → r n s = Some (Done a s') → assigned l (d_res R a s')) →
  writes true (_ ← mm; mark_locals l) w P r B R.
Proof.
  intros Hm Hwf Hl Ha. apply wp_bind. eapply wp_mono; [exact Hm|]. intros _ w' (new & Hw & Hr). apply mark_locals_wp.
  { rewrite (wf_da _ (wr_wf _ _ _ _ Hw)). by rewrite (gr_local_count _ _ _ (wr_grows _ _ _ _ Hw)). }
  exists new. split; [by apply marked_written|]. intros F HF Hn n s m Hrel HP.
  eapply sim_mono; [apply Hr; [by eapply marked_fin|done..]|]. intros a s' m' Hrun [K HR]. split; [done|].
  unfold reach in HR |- *. destruct (d_exit R a) eqn:Hex; [done|]. destruct HR as [(Hip & Ag & Hd) Hp].
  split; [|done]. split; [done|]. split; [done|]. apply da_ok_marked; [done|]. by eapply Ha.
Qed.
(** Before code that relies on it. *)
Lemma writes_marked {A T} (mk_ : M ()) (mm : M T) l w P (r : nat → St V H → option (out A)) B (R : dest A) :
  wfw w → below (w_local_count w) l → (∀ Q : () → BcWriter → Prop, Q () (marked l w) → wp mk_ w Q) →
  (∀ F s m, at_ w F s m → P m → assigned l s) →
  writes true mm (marked l w) P r B R → writes true (_ ← mk_; mm) w P r B R.
Proof.
  intros Hw Hl Hmk Ha Hm. apply wp_bind, Hmk. eapply wp_mono; [exact Hm|]. intros _ w' (new & Hw' & Hr). exists new.
  assert (written true [] w (marked l w)) as W1 by by apply marked_written, written_refl.
  split; [by apply (written_trans _ [] new _ _ _ W1)|]. intros F HF Hn n s m Hrel HP.
  assert (fin (marked l w) F) as HF1 by (eapply grows_fin; [exact (wr_grows _ _ _ _ Hw')|done]).
  eapply sim_mono; [apply Hr; [done..| |done]|].
  - pose proof (rel_at w (marked l w) F s m Hw (grows_le _ _ _ (wr_grows _ _ _ _ W1)) HF1 Hrel) as Hat.
    destruct Hrel as (Hip & Ag & Hd). split; [done|]. split; [done|]. apply da_ok_marked; [done|]. by eapply (Ha F s m).
  - intros a s' m' _ [[? ?] HR]. by split.
Qed.

(** ** Targets of assignments *)

(** The code of the target [x] assigns the value in [slot]. *)
Definition target_ok lc (x : Target) : Prop :=
  wf_target lc (node x) = true → ∀ w v slot Lend, wfw w → w_local_count w = lc → slot < w_top w →
  slot ∉ target_reads (node x) →
  writes false (write_assign (span x) (node x) slot) w (holds slot v) (λ n s, assign n (span x) (node x) v s)
    (is_bound (target_bound (node x))) (effect Lend).
Definition good_target lc (x : Target) : Prop := target_ok lc x ∧ wf_target lc (node x) = true.

(** ** Blocks whose marks are given up *)

Lemma restored {A} mk1 mk2 new w w' P (r : nat → St V H → option (out A)) B (R : dest A) :
  wfw w → written mk1 new w w' → runs new w w' P r B R →
  let w'' := set_definitely_assigned (w_definitely_assigned w) w' in
  written mk2 new w w'' ∧ runs new w w'' P r B R.
Proof.
  intros Hw W' Hr. split.
  - eapply written_set_da; [exact W'| |by apply da_rel_eq]. rewrite (wf_da _ Hw).
    symmetry. apply (wr_grows _ _ _ _ W').
  - intros F HF Hn n s m Hrel HP. apply set_da_fin in HF. eapply sim_mono; [by apply Hr|].
    intros a s' m' _ [K HR]. split; [done|]. eapply reach_at; [|apply (wr_da _ _ _ _ W')|exact HR]. done.
Qed.

(** ** Loops *)

(** The state of the writer in the loop whose iterator is in the slot [iter]. *)
Record in_for w w2 (iter : nat) : Prop := {
  if_wf : wfw w2;
  if_count : w_local_count w2 = w_local_count w;
  if_iter : w_top w ≤ iter < w_top w2;
  if_sigs : ∃ var inner, sigs w2 = sigs w ++ [(iter, var, inner)];
  if_da : da_le (w_definitely_assigned w) (w_definitely_assigned w2);
}.
Definition body_ok w (body : M ()) P (rb : V → nat → St V H → option (out Flow)) B : Prop :=
  ∀ w2 iter it Lend, in_for w w2 iter →
  writes true body w2 (λ m, P m ∧ holds iter it m) (rb it) B (flow_dest (sigs w2) Lend).
Lemma ctx_in_for w w0 w1 var w2 :
  ctx w w0 → w_top w0 ≤ w_top w1 → w_local_count w1 = w_local_count w → sigs w1 = sigs w0 →
  da_le (w_definitely_assigned w0) (w_definitely_assigned w1) → loop_ctx w1 w2 var → in_for w w2 (w_top w1).
Proof.
  intros C Ht Hlc Hs Hda [Hwf Hc Hst Hd Hsig]. pose proof (ctx_top _ _ C). split; [done|congruence| | |].
  - split; [lia|]. unfold w_top. lia.
  - exists var, (w_len w2). rewrite Hsig, Hs. f_equal. apply C.
  - rewrite Hd. etrans; [apply C|done].
Qed.

Lemma in_for_ctx w w1 w2 iter : in_for w w1 iter → ctx w1 w2 → in_for w w2 iter.
Proof.
  intros [? ? ? (v & i & Hs) ?] C. pose proof (ctx_top _ _ C). split; [apply C| |lia| |].
  - rewrite (cx_lc _ _ C). done.
  - exists v, i. rewrite <- Hs. apply C.
  - etrans; [done|apply C].
Qed.
Lemma in_for_depth w w2 iter : in_for w w2 iter → length (w_for_loops w2) = length (w_for_loops w) + 1.
Proof.
  intros [_ _ _ (v & i & Hs) _]. apply (f_equal length) in Hs. unfold sigs in Hs. rewrite length_app, !length_map in Hs. done.
Qed.
Lemma in_for_keep B w w2 iter m m' : in_for w w2 iter → keep B w2 m m' → keep B w m m'.
Proof.
  intros If K. pose proof (if_iter _ _ _ If). eapply keep_mono; [exact K|lia| |done]. rewrite (in_for_depth _ _ _ If). lia.
Qed.

Section write_for.
Context {mk : bool}.
Context (lc : nat) (over : Expr) (var : Target) (sp : Span) (body : M ()) (w : BcWriter) (P : Mach → Prop).
Context (rb : V → nat → St V H → option (out Flow)) (Bb B : nat → Prop).
Context (Hover : good lc over) (Hvar : good_target lc var) (Hw : wfw w) (Hlc : w_local_count w = lc).
Context (HP : stable w (λ y, y ∈ bound (node over) ∨ y ∈ target_bound (node var) ∨ Bb y) P).
Context (HBb : ∀ y, Bb y → y < lc) (Hbody : body_ok w body P rb Bb).
Local Abbreviation round := (λ n (it x : V) s, do _u, s <~ assign n (span var) (node var) x s; rb it n s).
Let Ball (y : nat) : Prop := y ∈ target_bound (node var) ∨ Bb y.

(** The items go to a variable directly. *)
Lemma for_direct w1 slot ov y Lend :
  ctx w w1 → node var = AssignLocal y →
  writes mk (writer_for slot y sp (_ ← mark_definitely_assigned y; body)) w1 (λ m, P m ∧ holds slot ov m)
    (λ n s, for_loop n sp ov (round n) s) Ball (effect Lend).
Proof.
  intros C Hy. pose proof Hvar as [_ Hwf]. rewrite Hy in Hwf, HP. simpl in Hwf. apply Nat.ltb_lt in Hwf.
  pose proof (cx_lc _ _ C) as Hlc1. assert (y < w_top w1) as Hyt by (unfold w_top; lia).
  apply (writes_writer_for slot y sp _ w1 P ov (λ it _, rb it) round Bb); [apply C|done| | | | |].
  - eapply stable_ctx; [exact C|exact HP|]. intros z _ [?| ->]; [by right; right|]. right. left. simpl. by left.
  - intros Hz%HBb. unfold w_top in Hz. lia.
  - intros w2 it x Lend' C2. pose proof (lc_count _ _ _ C2) as Hc2.
    apply (writes_marked _ _ [y]); [apply C2| | | |].
    + intros z ->%list_elem_of_singleton. lia.
    + intros Q. apply mark_wp. rewrite (wf_da _ (lc_wf _ _ _ C2)). lia.
    + intros F s m Hat (_ & _ & Hx) z ->%list_elem_of_singleton. exists x.
      rewrite <- (agree_local F s m); [exact Hx|apply Hat|]. rewrite (at_lc _ _ _ _ Hat). lia.
    + assert (in_for w (marked [y] w2) (w_top w1)) as If.
      { destruct (ctx_in_for w w1 w1 y w2) as [[] ? ? ? Hd]; [done..|].
        split; [by apply marked_wf|done..|]. etrans; [exact Hd|apply mark_le]. }
      eapply writes_pre; [by apply (Hbody (marked [y] w2) (w_top w1) it)|]. intros m (? & ? & ?). done.
  - intros it x n s Hl. rewrite Hy. simpl. unfold set_local. rewrite (proj2 (Nat.ltb_lt _ _)) by lia. done.
  - intros z _ [?| ->]; [by right|]. left. rewrite Hy. by left.
Qed.
(** They go to a temporary slot first. *)
Lemma for_temporary w1 slot ov Lend :
  ctx w w1 →
  writes mk (alloc_slot (λ var_slot, writer_for slot var_slot sp
    (_ ← write_assign (span var) (node var) var_slot; _ ← mark_locals (target_assigned_after (node var)); body)))
    w1 (λ m, P m ∧ holds slot ov m) (λ n s, for_loop n sp ov (round n) s) Ball (effect Lend).
Proof.
  intros C. pose proof Hvar as [Htgt Hwf]. pose proof (cx_lc _ _ C) as Hlc1.
  pose proof (proj2 (proj2 (proj2 (bound_below lc))) _ Hwf) as Hbelow.
  pose proof (pushed_ctx 1 w1 (cx_wf _ _ C)) as C1. pose proof (pushed_top 1 w1) as Ht1. set (w2 := pushed 1 w1) in *.
  set (y := w_top w1) in *. assert (lc ≤ y) as Hy by (unfold y, w_top; lia).
  apply (writes_alloc_slot _ _ _ _ (λ z, Ball z ∨ z = y)); [apply C| |intros z Hz [?| ->]; [done|unfold y in Hz; lia]].
  apply (writes_writer_for slot y sp _ w2 P ov (λ it x n s, round n it x s) round Ball); [apply C1|lia| | | | |].
  - eapply stable_ctx; [eapply ctx_trans; [exact C|exact C1]|exact HP|]. intros z Hz [?| ->]; [by right|].
    pose proof (ctx_top _ _ C). unfold y in Hz. lia.
  - intros [Hz%Hbelow|Hz%HBb]; lia.
  - intros w3 it x Lend' C3. pose proof (lc_count _ _ _ C3) as Hc3. pose proof (lc_stack _ _ _ C3) as Hs3.
    assert (y < w_top w3) as Hyt by (unfold y, w_top; rewrite Hc3, Hs3; simpl; lia).
    assert (w_top w2 < w_top w3) as Ht3 by (unfold w_top; rewrite Hc3, Hs3; lia).
    assert (in_for w w3 (w_top w2)) as If by (apply (ctx_in_for w w1 w2 y w3); [done|lia|done..]).
    apply (wp_equiv ((_ ← write_assign (span var) (node var) y; mark_locals (target_assigned_after (node var))) ≫= λ _, body)).
    { intros s. symmetry. apply run_bind_assoc. }
    apply (writes_seq (λ n s, assign n (span var) (node var) x s) (λ _ n s, rb it n s) (in_loop w2 y P it x)
      (λ _ m, P m ∧ holds (w_top w2) it m) (is_bound (target_bound (node var))) Bb Ball (effect Lend')
      (flow_dest (sigs w3) Lend')) with (r := λ _ n s, rb it n s).
    + apply writes_then_mark; [|apply C3| |].
      * apply writes_marks. eapply writes_pre; [apply (Htgt Hwf w3 x y); [apply C3| |done|]|by intros m (_ & _ & ?)].
        { rewrite Hc3, (cx_lc _ _ C1). congruence. }
        intros Hin. assert (y < lc); [|lia]. apply Hbelow. by apply target_reads_bound.
      * rewrite Hc3. intros z Hz. rewrite (cx_lc _ _ C1), Hlc1, Hlc. by apply (proj2 (proj2 (proj2 (after_below lc))) (node var)).
      * intros n s [] s' _ Has. by apply assign_gives in Has as [_ ?].
    + split; try done.
      * intros [] m m' _ (HPm & Hit & _) K _. split.
        -- eapply HP; [exact HPm|]. eapply keep_mono; [by eapply in_for_keep|done|done|]. intros z _ ?. right. by left.
        -- eapply keep_holds; [exact K|lia| |done]. intros Hin%Hbelow. lia.
    + intros [] w4 C4 Hs4 [] _. pose proof (in_for_ctx _ _ _ _ If C4) as If4.
      assert (sigs w3 = sigs w4) as -> by (symmetry; apply C4). by apply (Hbody w4 (w_top w2) it).
    + by exists ().
  - intros it x n s Hl. rewrite put_temp; [done|]. rewrite Hl, (cx_lc _ _ C1). lia.
  - intros z _ [?| ->]; [by left|by right].
Qed.
End write_for.

Lemma writes_write_for mk lc over var sp body w P rb Bb B Lend :
  good lc over → good_target lc var → wfw w → w_local_count w = lc →
  stable w (λ y, y ∈ bound (node over) ∨ y ∈ target_bound (node var) ∨ Bb y) P →
  (∀ y, Bb y → y < lc) → body_ok w body P rb Bb →
  (∀ x, x < w_top w → x ∈ bound (node over) ∨ x ∈ target_bound (node var) ∨ Bb x → B x) →
  writes mk (write_for write (λ x, write_assign (span x) (node x)) over var sp body) w P
    (λ n s, do o, s <~ ev n over s;
       for_loop n sp o (λ it x s, do _u, s <~ assign n (span var) (node var) x s; rb it n s) s) B (effect Lend).
Proof.
  intros Hover Hvar Hw Hlc HP HBb Hbody HB. unfold write_for. apply wp_bind. unfold save_definitely_assigned, gets at 1, wp at 1.
  apply wp_bind. eapply (wp_mono _ w).
  { apply (writes_cb (mk:=true) lc over _ w P (λ o n s, for_loop n sp o (λ it x s, do _u, s <~ assign n (span var) (node var) x s; rb it n s) s)
      (λ y, y ∈ target_bound (node var) ∨ Bb y) B (effect Lend)); [done..| | |exact HB].
    - eapply stable_sub; [exact HP|]. intros x _ ?. by left.
    - intros x w1 v C Hx Hop. destruct (assign_as_local_non_captured (node var)) as [y|] eqn:Hy.
      + eapply for_direct; try done. destruct (node var); simpl in Hy; by simplify_eq.
      + by eapply for_temporary. }
  intros [] w' (new & W' & Hr). apply restore_wp; [apply (wr_da _ _ _ _ W')|]. exists new. by apply (restored true).
Qed.
End marks.

(** Clauses of comprehensions: their conditions, which go on with the following item, and the loops
    around what the comprehension does for each item. *)

Section clauses.
Context `{W : World V H E TC D KM MB} `{!WorldOk V H E TC D KM MB} `{!InstrLayout V TC D KM}.
Local Abbreviation BcWriter := (BcWriter V TC D KM).
Local Abbreviation Mach := (Mach (V:=V) (H:=H)).
Local Abbreviation M A := (run BcWriter CodeTooBig A).
Local Abbreviation out := (out V H E).
Local Abbreviation dest := (dest V H TC D KM).
Local Abbreviation Expr := (Spanned (ExprCompiled V TC D)).
Local Abbreviation Clause_ := (ClauseCompiled V TC D).
Implicit Types (w F : BcWriter) (m : Mach) (s : St V H) (B : nat → Prop) (P : Mach → Prop) (e : Expr).

(** The same code for a result that is computed from the one that it has. *)
Lemma writes_result {A A' T} mk (mm : M T) w P (r : nat → St V H → option (out A)) (g : A → A') B (R : dest A) (R' : dest A') :
  writes mk mm w P r B R → d_end R' = d_end R →
  (∀ w' F a s m, reach R w' F a s m → reach R' w' F (g a) s m) →
  writes mk mm w P (λ n s, do a, s <~ r n s; ret (g a) s) B R'.
Proof.
  intros Hw He HR. eapply wp_mono; [exact Hw|]. intros _ w' (new & Hn & Hr). exists new. split; [done|].
  intros F HF Hres n s m Hm HPm. rewrite He in Hres. eapply sim_bind; [by apply Hr|].
  intros a s' m' _ [K Ha]. apply sim_ret. split; [done|]. by apply HR.
Qed.
Lemma sigs_ctx w w1 : ctx w w1 → sigs w1 = sigs w.
Proof. intros C. apply C. Qed.
Lemma loops_ctx w w1 : ctx w w1 → w_for_loops w ≠ [] → w_for_loops w1 ≠ [].
Proof. intros C Hl Hn. pose proof (ctx_depth _ _ C) as Hd. rewrite Hn in Hd. by apply Hl, nil_length_inv. Qed.

Definition good_cond lc e : Prop := cond_ok lc e ∧ wf_expr lc (node e) = true.
Lemma writes_ifs lc (ifs : list Expr) (rest : M ()) P (rr : nat → St V H → option (out ())) Br B Lend :
  Forall (good_cond lc) ifs → (∀ x, x ∈ bounds ifs ∨ Br x → B x) →
  ∀ w, wfw w → w_local_count w = lc → w_for_loops w ≠ [] →
  stable w (is_bound (bounds ifs)) P →
  (∀ w1, ctx w w1 → w_stack_size w1 = w_stack_size w → writes true rest w1 P rr Br (effect Lend)) →
  writes true (write_ifs write_bc rest ifs) w P (λ n s, run_ifs (ev n) (rr n) ifs s) B (flow_dest (sigs w) Lend).
Proof.
  intros Hifs. induction Hifs as [|c ifs [Hc Hwf] Hifs IH]; intros HB w Hw Hlc Hl HP Hrest.
  - eapply writes_mono; [apply (writes_result true rest w P rr (λ _, FlowNext) Br (effect Lend) (flow_dest (sigs w) Lend))|done..|].
    + apply Hrest; [by apply ctx_refl|done].
    + done.
    + done.
    + intros x _ ?. apply HB. by right.
  - eapply writes_ext.
    + apply (writes_seq (λ n s, do v, s <~ ev n c s; if taken MaybeNot_ (to_bool v (st_heap s)) then ret FlowContinue s else ret FlowNext s)
        (λ _ n s, run_ifs (ev n) (rr n) ifs s) P (λ _, P) (is_bound (bound (node c))) B B
        (flow_dest (sigs w) Lend) (flow_dest (sigs w) Lend)) with (r := λ f n s, then_next f (λ s, run_ifs (ev n) (rr n) ifs s) s).
      * apply (writes_if_else lc P (λ _ s, ret FlowContinue s) (λ _ s, ret FlowNext s) (λ _, False) _ _ (dest_ok_flow _ Lend));
          [done|done|done|done| | | |].
        -- eapply stable_sub; [exact HP|]. intros x _ ?. apply bounds_cons. by left.
        -- intros w1 C _. rewrite <- (sigs_ctx _ _ C). apply writes_continue; [apply C|]. by eapply loops_ctx.
        -- by exists FlowNext.
        -- intros x _ [?|[]]. done.
      * split; try done.
        -- intros [] esc; simpl; intros [= <-]; [by exists FlowBreak|by exists FlowContinue].
        -- by intros [] n s.
        -- intros a m m' _ HPm K _. eapply HP; [exact HPm|]. eapply keep_mono; [exact K|done..|]. intros x _ ?. apply bounds_cons. by left.
        -- intros x _ [Hx|?]; [|done]. apply HB. left. apply bounds_cons. by left.
      * intros [] w1 C Hs1 _ _. rewrite <- (sigs_ctx _ _ C). apply IH.
        -- intros x [?|?]; apply HB; [left; apply bounds_cons; by right|by right].
        -- apply C.
        -- by rewrite (cx_lc _ _ C).
        -- by eapply loops_ctx.
        -- eapply stable_ctx; [exact C|exact HP|]. intros x _ ?. apply bounds_cons. by right.
        -- intros w2 C2 Hs2. apply Hrest; [by eapply ctx_trans|congruence].
      * by exists FlowNext.
    + intros n s. simpl. rewrite obind_assoc. apply obind_ext. intros v s1. by destruct (to_bool v (st_heap s1)).
Qed.

(** ** Clauses *)

(** A later state of the writer, within more loops maybe. *)
Record later w w2 : Prop := {
  lt_wf : wfw w2;
  lt_count : w_local_count w2 = w_local_count w;
  lt_top : w_top w ≤ w_top w2;
  lt_depth : length (w_for_loops w) ≤ length (w_for_loops w2);
}.
Lemma later_trans w w1 w2 : later w w1 → later w1 w2 → later w w2.
Proof. intros [? ? ? ?] [? ? ? ?]. split; [done|congruence|lia|lia]. Qed.
Lemma ctx_later w w1 : ctx w w1 → later w w1.
Proof. intros C. split; [apply C|apply C|by apply ctx_top|by rewrite (ctx_depth _ _ C)]. Qed.
Lemma in_for_later w w2 iter : in_for w w2 iter → later w w2.
Proof. intros If. pose proof If as [? ? ? _ _]. split; [done|done|lia|]. rewrite (in_for_depth _ _ _ If). lia. Qed.
Lemma stable_later w w2 B B' P : later w w2 → stable w B P → (∀ x, x < w_top w → B' x → B x) → stable w2 B' P.
Proof. intros L HP HB m m' Hm K. eapply HP; [done|]. eapply keep_mono; [exact K|apply L..|done]. Qed.

(** What is done for each item. *)
Definition term_ok w (term : M ()) P (rt : nat → St V H → option (out ())) Bt : Prop :=
  ∀ w2 Lend, later w w2 → writes true term w2 P rt Bt (effect Lend).
Definition clause_ok lc (c : Clause_) : Prop :=
  wf_clause lc c = true → ∀ mk term rt Bt w P Lend,
  wfw w → w_local_count w = lc → stable w (λ y, y ∈ clause_bound c ∨ Bt y) P → (∀ y, Bt y → y < lc) →
  term_ok w term P rt Bt →
  writes mk (write_clause c term) w P (λ n s, eval_clause n c (rt n) s) (λ y, y ∈ clause_bound c ∨ Bt y) (effect Lend).

Lemma writes_clause lc var (over : Expr) (ifs : list Expr) :
  good lc over → good_target lc var → Forall (good_cond lc) ifs → clause_ok lc (Clause var over ifs).
Proof.
  intros Hover Hvar Hifs _ mk term rt Bt w P Lend Hw Hlc HP HBt Hterm.
  assert (below lc (bounds ifs)) as Hbelow.
  { clear -Hifs. induction Hifs as [|e ifs [_ He] Hifs IH]; [apply below_nil|]. apply below_app; [|done]. by apply (bound_below lc). }
  assert (∀ x, x ∈ clause_bound (Clause var over ifs) ↔ x ∈ bound (node over) ∨ x ∈ target_bound (node var) ∨ x ∈ bounds ifs) as Hb.
  { intros x. simpl. by rewrite !elem_of_app. }
  pose proof (writes_write_for mk lc over var (span over) (write_ifs write_bc term ifs) w P
    (λ _ n s, run_ifs (ev n) (rt n) ifs s) (λ x, x ∈ bounds ifs ∨ Bt x)) as Hfor.
  eapply Hfor; [exact Hover|exact Hvar|exact Hw|exact Hlc| | | |].
  - eapply stable_sub; [exact HP|]. intros x _. specialize (Hb x). tauto.
  - intros y [?|?]; auto.
  - intros w2 iter it Lend2 If. pose proof (in_for_later _ _ _ If) as L. apply (writes_pre _ _ P); [|by intros m []].
    apply (writes_ifs lc ifs term P rt Bt _ Lend2 Hifs); [done|apply L|by rewrite (lt_count _ _ L)| | |].
    + intros Hn. pose proof (in_for_depth _ _ _ If) as Hd. rewrite Hn in Hd. simpl in Hd. lia.
    + eapply stable_later; [exact L|exact HP|]. intros x _ ?. left. apply Hb. by right; right.
    + intros w3 C _. apply Hterm. eapply later_trans; [exact L|by apply ctx_later].
  - intros x _. specialize (Hb x). tauto.
Qed.

Definition clauses_bound (cs : list Clause_) : list nat := flat_map clause_bound cs.
Lemma writes_clauses lc (cs : list Clause_) :
  Forall (clause_ok lc) cs → Forall (λ c, wf_clause lc c = true) cs → cs ≠ [] →
  ∀ mk term rt Bt w P B Lend,
  wfw w → w_local_count w = lc → stable w (λ y, y ∈ clauses_bound cs ∨ Bt y) P → (∀ y, Bt y → y < lc) →
  term_ok w term P rt Bt → (∀ x, x ∈ clauses_bound cs ∨ Bt x → B x) →
  writes mk (write_clauses write_clause cs term) w P (λ n s, run_clauses (eval_clause n) cs (rt n) s) B (effect Lend).
Proof.
  intros Hcs Hwf. induction Hcs as [|c cs Hc Hcs IH]; [done|]. apply Forall_cons in Hwf as [Hwfc Hwf].
  intros _ mk term rt Bt w P B Lend Hw Hlc HP HBt Hterm HB.
  assert (∀ x, x ∈ clauses_bound (c :: cs) ↔ x ∈ clause_bound c ∨ x ∈ clauses_bound cs) as Hb by (intros; apply elem_of_app).
  assert (∀ mk' w' Lend', later w w' → writes mk' (write_clause c term) w' P (λ n s, eval_clause n c (rt n) s)
    (λ y, y ∈ clause_bound c ∨ Bt y) (effect Lend')) as Hc1.
  { intros mk' w' Lend' L. apply Hc; [done|apply L|by rewrite (lt_count _ _ L)| |done|].
    - eapply stable_later; [exact L|exact HP|]. intros x _. specialize (Hb x). tauto.
    - intros w2 Lend2 L2. apply Hterm. by eapply later_trans. }
  destruct cs as [|c' cs'].
  - eapply writes_mono; [apply (Hc1 mk w Lend); by apply ctx_later, ctx_refl|done..|]. intros x _ [?|?]; apply HB; [left; by apply Hb; left|by right].
  - apply (IH Hwf ltac:(done) mk (write_clause c term) (λ n, eval_clause n c (rt n)) (λ y, y ∈ clause_bound c ∨ Bt y)); try done.
    + eapply stable_sub; [exact HP|]. intros x _. specialize (Hb x). tauto.
    + intros y [Hy|?]; [|auto]. by apply (proj1 (proj2 (proj2 (bound_below lc))) c Hwfc).
    + intros w2 Lend2 L2. by apply Hc1.
    + intros x. specialize (Hb x). specialize (HB x). tauto.
Qed.
End clauses.
