(* ===== verification/BcOps.v ===== *)
(** Operators and displays: what their instructions do, for operands in slots. *)

From S2P Require Import Prelude Hashing TableMap FastString Symbol CodeMap.
From S2P Require Import DefParams OrdMap ParamSpec Def Ir IrWf World IrEval BcInstr BcWriter BcCompile BcCode BcSim BcRules BcOperands.

Section ops.
Context `{W : World V H E TC D KM MB} `{!WorldOk V H E TC D KM MB} `{!InstrLayout V TC D KM}.
Local Abbreviation BcWriter := (BcWriter V TC D KM).
Local Abbreviation Mach := (Mach (V:=V) (H:=H)).
Local Abbreviation M A := (run BcWriter CodeTooBig A).
Local Abbreviation I A := (run (BcFrame V * H) E A).
Local Abbreviation out := (out V H E).
Local Abbreviation dest := (dest V H TC D KM).
Local Abbreviation Expr := (Spanned (ExprCompiled V TC D)).
Context {mk : bool}.
Implicit Types (w F : BcWriter) (m : Mach) (s : St V H) (B : nat → Prop) (P : Mach → Prop) (e : Expr) (h : H).

(** ** Operations *)

(** One that does not fail, as an operation. *)
Definition total {A} (o : H → A * H) : Op H E A := λ h, let '(a, h) := o h in (Ok a, h).
Lemma with_heap_total {A} sp (o : H → A * H) s : with_heap (E:=E) o s = at_span sp (total o) s.
Proof. unfold with_heap, at_span, total. by destruct (o (st_heap s)). Qed.
Lemma at_span_total {A} sp sp' (o : H → A * H) s : at_span sp (total o) s = at_span sp' (total o) s.
Proof. by rewrite <- !with_heap_total. Qed.
Lemma heap_run_total {A A'} (o : H → A * H) (k : A → I A') x : (a ← heap_run o; k a) x = (a ← heap_op (total o); k a) x.
Proof. destruct x as [fr h]. unfold mbind, run_bind, heap_run, heap_op, total. by destruct (o h). Qed.

(** The operations of the instructions are those of the evaluator. *)
Definition does (i : Instr V TC D KM) (op : Op H E V) (x : nat) m : Prop :=
  ∀ spans, run_with_args spans i (m_frame m, m_heap m) = (v ← heap_op op; set_bc_slot x v) (m_frame m, m_heap m).
Lemma writes_does sp i w P op (r : nat → St V H → option (out V)) x Lend :
  wfw w → no_flow i = true → x < w_top w → (∀ m, P m → does i op x m) → (∀ n s, r n s = at_span sp op s) →
  writes mk (write_instr sp i) w P r (λ y, y = x) (to_slot Lend x).
Proof. intros Hw Hi Hx HP Hr. apply (writes_op _ _ _ _ op); try done. intros m HPm. by apply HP. Qed.

Lemma builtin1_does op a x v m : holds a v m → does (builtin1_instr op a x) (builtin1 op v) x m.
Proof.
  intros Ha spans. destruct op; simpl; unfold run_InstrUnOp, run_InstrTypeIs, run_InstrPercentSOne, run_InstrFormatOne, run_InstrObjectField;
    rewrite (bind_get _ _ _ _ Ha); try done.
  rewrite heap_run_total. reflexivity.
Qed.
Lemma builtin2_does op a b x v v' m :
  holds a v m → holds b v' m → does (builtin2_instr op a b x) (Builtin2_eval op v v') x m.
Proof.
  intros Ha Hb spans. destruct op as [| | | | | | | | | | | | |[]|]; simpl; unfold run_InstrBinOp, run_InstrArrayIndex;
    rewrite (bind_get _ _ _ _ Ha), (bind_get _ _ _ _ Hb); try done;
    unfold heap_op, mbind, run_bind; simpl; destruct (v_compare v v' _) as [[[]|?|?] ?]; done.
Qed.
Lemma assign_op_does op a b x v v' m :
  holds a v m → holds b v' m → does (assign_op_instr op a b x) (assign_op op v v') x m.
Proof.
  intros Ha Hb spans. destruct op; simpl; unfold run_InstrBinOp; by rewrite (bind_get _ _ _ _ Ha), (bind_get _ _ _ _ Hb).
Qed.
Lemma builtin1_no_flow op a x : no_flow (builtin1_instr (V:=V) (TC:=TC) (D:=D) (KM:=KM) op a x) = true.
Proof. by destruct op. Qed.
Lemma builtin2_no_flow op a b x : no_flow (builtin2_instr (V:=V) (TC:=TC) (D:=D) (KM:=KM) op a b x) = true.
Proof. by destruct op as [| | | | | | | | | | | | |[]|]. Qed.
Lemma assign_op_no_flow op a b x : no_flow (assign_op_instr (V:=V) (TC:=TC) (D:=D) (KM:=KM) op a b x) = true.
Proof. by destruct op. Qed.

(** ** Two and three operands *)

Lemma writes_2 {A T} lc a b (k : nat → nat → M T) w P (r : V → V → nat → St V H → option (out A)) B2 B (R : dest A) :
  good lc a → good lc b → held (node a) (bound (node b)) = true → wfw w → w_local_count w = lc →
  stable w (λ y, y ∈ bound (node a) ∨ y ∈ bound (node b)) P →
  (∀ x y w1 v v', ctx w w1 → x < w_top w1 → y < w_top w1 →
    writes mk (k x y) w1 (λ m, P m ∧ holds x v m ∧ holds y v' m) (r v v') B2 R) →
  (∀ x, x < w_top w → x ∈ bound (node a) ∨ x ∈ bound (node b) ∨ B2 x → B x) →
  writes mk (write_2_exprs write a b k) w P (λ n s, do v, s <~ ev n a s; do v', s <~ ev n b s; r v v' n s) B R.
Proof.
  intros Ha Hb Hheld Hw Hlc HP Hk HB. unfold write_2_exprs.
  apply (writes_cb lc a _ w P (λ v n s, do v', s <~ ev n b s; r v v' n s) (λ y, y ∈ bound (node b) ∨ B2 y)); try done.
  { eapply stable_sub; [exact HP|]. intros y _ ?. by left. }
  intros x w1 v C Hx Hop. apply (writes_cb lc b _ w1 _ (λ v' n s, r v v' n s) B2); [done|apply C|by rewrite (cx_lc _ _ C)| | |tauto].
  - apply stable_and; [eapply stable_ctx; [exact C|exact HP|]; intros y _ ?; by right|]. apply stable_holds; [done|].
    eapply operand_free; [exact Hop|done|]. apply (bound_below lc). apply Hb.
  - intros y w2 v' C2 Hy Hopy. eapply writes_pre; [apply (Hk x y w2 v v'); [by eapply ctx_trans| |done]|by intros m ((? & ?) & ?)].
    pose proof (ctx_top _ _ C2). lia.
Qed.
Lemma held_app (x : ExprCompiled V TC D) l l' : held x (l ++ l') = held x l && held x l'.
Proof.
  destruct x; simpl; try done. apply eq_bool_prop_intro. rewrite andb_True, !bool_decide_spec. rewrite elem_of_app. tauto.
Qed.
Lemma writes_3 {A T} lc a b c (k : nat → nat → nat → M T) w P (r : V → V → V → nat → St V H → option (out A)) B2 B (R : dest A) :
  good lc a → good lc b → good lc c → held (node a) (bound (node b) ++ bound (node c)) = true →
  held (node b) (bound (node c)) = true → wfw w → w_local_count w = lc →
  stable w (λ y, y ∈ bound (node a) ∨ y ∈ bound (node b) ∨ y ∈ bound (node c)) P →
  (∀ x y z w1 v v' v'', ctx w w1 → x < w_top w1 → y < w_top w1 → z < w_top w1 →
    writes mk (k x y z) w1 (λ m, P m ∧ holds x v m ∧ holds y v' m ∧ holds z v'' m) (r v v' v'') B2 R) →
  (∀ x, x < w_top w → x ∈ bound (node a) ∨ x ∈ bound (node b) ∨ x ∈ bound (node c) ∨ B2 x → B x) →
  writes mk (write_3_exprs write a b c k) w P
    (λ n s, do v, s <~ ev n a s; do v', s <~ ev n b s; do v'', s <~ ev n c s; r v v' v'' n s) B R.
Proof.
  intros Ha Hb Hc Hh1 Hh2 Hw Hlc HP Hk HB. unfold write_3_exprs.
  apply (writes_cb lc a _ w P (λ v n s, do v', s <~ ev n b s; do v'', s <~ ev n c s; r v v' v'' n s)
    (λ y, y ∈ bound (node b) ∨ y ∈ bound (node c) ∨ B2 y)); try done.
  { eapply stable_sub; [exact HP|]. intros y _ ?. by left. }
  rewrite held_app in Hh1. apply andb_true_iff in Hh1 as [Hab Hac].
  intros x w1 v C Hx Hop. apply (writes_2 lc b c (k x) w1 (λ m, P m ∧ holds x v m) (r v) B2); [done..|apply C|by rewrite (cx_lc _ _ C)| | |tauto].
  - apply stable_and; [eapply stable_ctx; [exact C|exact HP|]; intros y _ ?; by right|]. apply stable_holds; [done|].
    intros [Hy|Hy]; revert Hy; eapply operand_free; try exact Hop; try done; apply (bound_below lc); [apply Hb|apply Hc].
  - intros y z w2 v' v'' C2 Hy Hz. eapply writes_pre; [apply (Hk x y z w2 v v' v''); [by eapply ctx_trans| |done..]|].
    + pose proof (ctx_top _ _ C2). lia.
    + by intros m ((? & ?) & ? & ?).
Qed.

(** ** Comparisons with constants *)

Definition eq_const_instr (b : V) (a x : nat) : Instr V TC D KM :=
  match unpack_int_value b with
  | Some _ => InstrEqInt a b x
  | None =>
    if eq_is_ptr_eq b then InstrEqPtr a b x else
    match as_frozen_str b with Some _ => InstrEqStr a b x | None => InstrEqConst a b x end
  end.
Lemma eq_const_does b a x v m : holds a v m → does (eq_const_instr b a x) (op_bool (v_equals v b)) x m.
Proof.
  intros Ha spans. unfold eq_const_instr. destruct (unpack_int_value b) as [y|] eqn:Hb;
    [|destruct (eq_is_ptr_eq b) eqn:Hp; [|destruct (as_frozen_str b) as [str|] eqn:Hs]]; simpl;
    unfold run_InstrEqInt, run_InstrEqPtr, run_InstrEqStr, run_InstrEqConst; rewrite (bind_get _ _ _ _ Ha);
    unfold mbind, run_bind, heap_op, op_bool.
  - destruct (unpack_int_value v) as [z|] eqn:Hv; [by rewrite Hb, (equals_int _ _ _ _ _ Hv Hb)|].
    rewrite (equals_sym b v). by destruct (v_equals v b _) as [[]].
  - by rewrite (equals_ptr _ _ _ Hp).
  - rewrite (equals_str _ _ _ _ Hs), Hs. simpl. destruct (as_frozen_str v); [done|]. by rewrite bool_decide_eq_false_2.
  - rewrite (equals_sym b v). by destruct (v_equals v b _) as [[]].
Qed.
Lemma writes_eq_const lc sp (a : Expr) b x w (r : V → nat → St V H → option (out V)) B Lend :
  good lc a → wfw w → w_local_count w = lc → x < w_top w →
  (∀ v n s, r v n s = at_span sp (op_bool (v_equals v b)) s) → (∀ y, y ∈ bound (node a) ∨ y = x → B y) →
  writes mk (write_equals_const write sp a b x) w (λ _, True) (λ n s, do v, s <~ ev n a s; r v n s) B (to_slot Lend x).
Proof.
  intros Ha Hw Hlc Hx Hr HB. unfold write_equals_const.
  apply (writes_cb lc a _ w _ r (λ y, y = x)); try done; [|auto].
  intros slot w1 v C Hs _. pose proof (ctx_top _ _ C) as Ht.
  assert (writes mk (write_instr sp (eq_const_instr b slot x)) w1 (λ m, True ∧ holds slot v m) (r v) (λ y, y = x) (to_slot Lend x)) as Hi.
  { apply (writes_does sp _ _ _ (op_bool (v_equals v b))); [apply C| |lia| |done].
    - unfold eq_const_instr. destruct (unpack_int_value b); [done|]. destruct (eq_is_ptr_eq b); [done|]. by destruct (as_frozen_str b).
    - intros m [_ Hm]. by apply eq_const_does. }
  unfold eq_const_instr in Hi. destruct (unpack_int_value b); [done|]. destruct (eq_is_ptr_eq b); [done|]. by destruct (as_frozen_str b).
Qed.
Lemma writes_equals lc sp (a b : Expr) x w Lend :
  good lc a → good lc b → held (node a) (bound (node b)) = true → wfw w → w_local_count w = lc → x < w_top w →
  writes mk (write_equals write sp a b x) w (λ _, True)
    (λ n s, do v, s <~ ev n a s; do v', s <~ ev n b s; at_span sp (op_bool (v_equals v v')) s)
    (λ y, (y ∈ bound (node a) ∨ y ∈ bound (node b)) ∨ y = x) (to_slot Lend x).
Proof.
  intros Ha Hb Hh Hw Hlc Hx. unfold write_equals. destruct (as_value (node a)) as [av|] eqn:Hav.
  - assert (node a = Value av) as Hn by (destruct (node a); simpl in Hav; by simplify_eq).
    eapply writes_ext; [apply (writes_eq_const lc sp b av x w (λ v n s, at_span sp (op_bool (v_equals av v)) s)); try done|].
    + intros v n s. unfold at_span, op_bool. by rewrite equals_sym.
    + intros y [?|?]; auto.
    + intros n s. unfold ev at 1. by rewrite Hn.
  - destruct (as_value (node b)) as [bv|] eqn:Hbv.
    + assert (node b = Value bv) as Hn by (destruct (node b); simpl in Hbv; by simplify_eq).
      eapply writes_ext; [apply (writes_eq_const lc sp a bv x w (λ v n s, at_span sp (op_bool (v_equals v bv)) s)); try done|].
      * intros y [?|?]; auto.
      * intros n s. apply obind_ext. intros v s1. unfold ev. by rewrite Hn.
    + apply (writes_2 lc a b _ w _ (λ v v' n s, at_span sp (op_bool (v_equals v v')) s) (λ y, y = x)); try done; [|tauto].
      intros y z w1 v v' C Hy Hz. pose proof (ctx_top _ _ C). apply (writes_does sp _ _ _ (op_bool (v_equals v v'))); [apply C|done|lia| |done].
      intros m (_ & Hv & Hv'). exact (builtin2_does Equals y z x v v' m Hv Hv').
Qed.

(** ** Tuples and lists *)

Lemma writes_range lc sp (xs : list Expr) (i : BcSlotInRange → Instr V TC D KM) (o : list V → H → V * H) x w Lend :
  Forall (good lc) xs → wfw w → w_local_count w = lc → x < w_top w → (∀ rg, no_flow (i rg) = true) →
  (∀ rg vs m, range_holds (range_slots rg) vs m → does (i rg) (total (o vs)) x m) →
  writes mk (write_exprs write xs (λ rg, write_instr sp (i rg))) w (λ _, True)
    (λ n s, do vs, s <~ eval_list (ev n) xs s; with_heap (o vs) s) (λ y, y ∈ bounds xs ∨ y = x) (to_slot Lend x).
Proof.
  intros Hg Hw Hlc Hx Hi Hdo.
  pose proof (writes_exprs (mk:=mk) lc (λ e, e) xs (λ rg, write_instr sp (i rg)) w (λ _, True) (λ vs _ s, with_heap (o vs) s) (λ y, y = x)
    (λ y, y ∈ bounds xs ∨ y = x) (to_slot Lend x)) as Hxs. rewrite map_id in Hxs. apply Hxs; try done.
  intros rg w1 vs C _. pose proof (ctx_top _ _ C). apply (writes_does sp _ _ _ (total (o vs))); [apply C|done|lia| |].
  - intros m [_ Hm]. by apply Hdo.
  - intros n s. apply with_heap_total.
Qed.
Lemma tuple_does rg vs x m : range_holds (range_slots rg) vs m → does (InstrTupleNPop rg x) (total (h_alloc_tuple vs)) x m.
Proof.
  intros Hvs spans. simpl. unfold run_InstrTupleNPop. rewrite (bind_get_range _ _ _ _ Hvs). apply heap_run_total.
Qed.
Lemma list_does rg vs x m : range_holds (range_slots rg) vs m → does (InstrListNPop rg x) (total (h_alloc_list vs)) x m.
Proof.
  intros Hvs spans. simpl. unfold run_InstrListNPop. rewrite (bind_get_range _ _ _ _ Hvs). apply heap_run_total.
Qed.
(** An instruction without operands. *)
Lemma writes_total sp i (o : H → V * H) w P x Lend :
  wfw w → no_flow i = true → x < w_top w → (∀ m, does i (total o) x m) →
  writes mk (write_instr sp i) w P (λ _ s, with_heap o s) (λ y, y = x) (to_slot Lend x).
Proof. intros Hw Hi Hx Hd. apply (writes_does sp _ _ _ (total o)); try done. intros n s. apply with_heap_total. Qed.
Lemma list_new_does x m : does (InstrListNew x) (total (h_alloc_list [])) x m.
Proof. intros spans. apply heap_run_total. Qed.
Lemma dict_new_does x m : does (InstrDictNew x) (total (h_alloc_dict [])) x m.
Proof. intros spans. apply heap_run_total. Qed.
Lemma list_consts_does vs x m : does (InstrListOfConsts vs x) (total (h_alloc_list vs)) x m.
Proof. intros spans. apply heap_run_total. Qed.
Lemma dict_consts_does d x m : does (InstrDictOfConsts d x) (total (h_alloc_dict d)) x m.
Proof. intros spans. apply heap_run_total. Qed.

Lemma as_value_inv (e : ExprCompiled V TC D) v : as_value e = Some v → e = Value v.
Proof. destruct e; simpl; intros; by simplify_eq. Qed.
Lemma eval_consts n (xs : list Expr) vs s :
  mapM (λ x : Expr, as_value (node x)) xs = Some vs → eval_list (ev n) xs s = ret vs s.
Proof.
  revert vs. induction xs as [|x xs IH]; intros vs; simpl; [by intros [= <-]|].
  intros (v & Hv & (vs' & Hvs & [= <-])%bind_Some)%bind_Some. apply as_value_inv in Hv. unfold ev at 1. rewrite Hv. simpl.
  by rewrite (IH _ Hvs).
Qed.
Lemma writes_list lc sp (xs : list Expr) x w Lend :
  Forall (good lc) xs → wfw w → w_local_count w = lc → x < w_top w →
  writes mk (write_list write sp xs x) w (λ _, True)
    (λ n s, do vs, s <~ eval_list (ev n) xs s; with_heap (h_alloc_list vs) s) (λ y, y ∈ bounds xs ∨ y = x) (to_slot Lend x).
Proof.
  intros Hg Hw Hlc Hx. unfold write_list. destruct (Nat.eqb_spec (length xs) 0) as [Hl|_].
  { apply nil_length_inv in Hl as ->. eapply writes_mono; [by apply (writes_total sp _ (h_alloc_list []) w (λ _, True)), list_new_does|done|by intros n s|]. by right. }
  destruct (mapM _ xs) as [vs|] eqn:Hvs.
  - eapply writes_mono; [by apply (writes_total sp _ (h_alloc_list vs) w (λ _, True)), list_consts_does|done| |by right].
    intros n s. by rewrite (eval_consts n xs vs s Hvs).
  - apply (writes_range lc sp xs (λ xs, InstrListNPop xs x) h_alloc_list); try done. intros rg vs m. apply list_does.
Qed.
End ops.

(** Dictionary displays: constant ones, those with constant keys, and all others. *)

Section dict.
Context `{W : World V H E TC D KM MB} `{!WorldOk V H E TC D KM MB} `{!InstrLayout V TC D KM}.
Local Abbreviation BcWriter := (BcWriter V TC D KM).
Local Abbreviation Mach := (Mach (V:=V) (H:=H)).
Local Abbreviation I A := (run (BcFrame V * H) E A).
Local Abbreviation out := (out V H E).
Local Abbreviation Expr := (Spanned (ExprCompiled V TC D)).
Context {mk : bool}.
Implicit Types (w F : BcWriter) (m : Mach) (s : St V H) (e : Expr) (h : H) (d : list (Hashed V * V)).

(** ** Evaluation of the keys and values in turn *)

Fixpoint pair_up (vs : list V) : list (V * V) :=
  match vs with k :: v :: vs => (k, v) :: pair_up vs | _ => [] end.
Lemma eval_pairs_flatten n (l : list (Expr * Expr)) s :
  eval_pairs (ev n) l s = do vs, s <~ eval_list (ev n) (flatten l) s; ret (pair_up vs) s.
Proof.
  revert s. induction l as [|[k v] l IH]; intros s; [done|]. simpl. rewrite obind_assoc. apply obind_ext. intros kv s1.
  rewrite !obind_assoc. apply obind_ext. intros vv s2. rewrite IH, !obind_assoc. by apply obind_ext.
Qed.
Lemma pair_up_len (vs : list V) : length vs = 2 * length (pair_up vs) ∨ length vs = 2 * length (pair_up vs) + 1.
Proof.
  assert (∀ k (vs : list V), length vs ≤ k → length vs = 2 * length (pair_up vs) ∨ length vs = 2 * length (pair_up vs) + 1) as Hk;
    [|by eapply Hk].
  clear. intros k. induction k as [|k IH]; intros [|a [|b vs]] Hl; simpl in *; try lia. destruct (IH vs); lia.
Qed.
Lemma flatten_len {A} (l : list (A * A)) : length (flat_map (λ '(k, v), [k; v]) l) = 2 * length l.
Proof. induction l as [|[k v] l IH]; simpl; [done|]. rewrite IH. lia. Qed.

Lemma dict_npop_build sps vs i d (fr : BcFrame V) h :
  length vs = 2 * length (pair_up vs) → i + length (pair_up vs) ≤ length sps →
  dict_npop (Ok sps) vs i d (fr, h) = let '(r, h) := build_dict (pair_up vs) (drop i sps) d h in (r, (fr, h)).
Proof.
  assert (∀ k vs i d, length vs ≤ k → length vs = 2 * length (pair_up vs) → i + length (pair_up vs) ≤ length sps →
    dict_npop (Ok sps) vs i d (fr, h) = let '(r, h) := build_dict (pair_up vs) (drop i sps) d h in (r, (fr, h))) as Hk;
    [|by apply (Hk (length vs))].
  clear. intros k. induction k as [|k IH]; intros [|a [|b vs]] i d Hl H2 Hi; simpl in *; try lia; [done..|].
  destruct (lookup_lt_is_Some_2 sps i) as [sp Hsp]; [lia|]. rewrite (drop_S _ _ _ Hsp).
  destruct (get_hashed a) as [hk|e|f]; [|unfold error_at; by rewrite Hsp|done].
  destruct (insert_entry d (mkHashed hk a) b) as [[old|] d']; [unfold error_at; by rewrite Hsp|].
  rewrite IH by lia. by rewrite Nat.add_1_r.
Qed.
Lemma writes_npop lc sp (xs : list (Expr * Expr)) x w Lend :
  Forall (good lc) (flatten xs) → wfw w → w_local_count w = lc → x < w_top w →
  writes mk (write_pairs write xs (λ kvs,
      write_instr_explicit (mkSlowArg sp (map (λ kv, span kv.1) xs)) (InstrDictNPop kvs x))) w (λ _, True)
    (λ n s, do l, s <~ eval_pairs (ev n) xs s; at_span sp (make_dict l (map (λ kv, span kv.1) xs)) s)
    (λ y, y ∈ bounds (flatten xs) ∨ y = x) (to_slot Lend x).
Proof.
  intros Hg Hw Hlc Hx. eapply writes_ext; [|intros n s; by rewrite eval_pairs_flatten, obind_assoc].
  apply (writes_pairs lc xs _ w _ (λ vs n s, at_span sp (make_dict (pair_up vs) (map (λ kv, span kv.1) xs)) s) (λ y, y = x)); try done.
  intros rg w1 vs C [_ Hops]. pose proof (ctx_top _ _ C).
  apply (writes_op _ _ _ _ (make_dict (pair_up vs) (map (λ kv, span kv.1) xs))); [apply C|done|lia| |done].
  intros m [_ Hvs]. simpl. unfold run_InstrDictNPop. rewrite (bind_get_range _ _ _ _ Hvs).
  apply Forall2_length in Hops, Hvs. unfold flatten in Hops. rewrite flatten_len in Hops.
  pose proof (pair_up_len vs) as Hp.
  assert (Nat.even (length vs) = true) as He by (rewrite <- Hvs, <- Hops, Nat.even_mul; done).
  unfold mbind, run_bind. unfold run_result, assert. rewrite He. rewrite dict_npop_build by (rewrite ?length_map; lia).
  rewrite drop_0. unfold heap_op, make_dict. destruct (build_dict _ _ _ _) as [[d|e|f] h]; [|done..].
  unfold heap_run. by destruct (h_alloc_dict d h).
Qed.

(** ** Constant keys *)

Lemma insert_fresh d k v : existsb (same_key k) (map fst d) = false → insert_entry d k v = (None, d ++ [(k, v)]).
Proof.
  induction d as [|[k' v'] d IH]; simpl; [done|]. intros [Hk Hd]%orb_false_iff. by rewrite Hk, IH.
Qed.
(** None of the keys is among those before it. *)
Fixpoint fresh (keys ks : list (Hashed V)) : Prop :=
  match ks with
  | [] => True
  | k :: ks => existsb (same_key k) keys = false ∧ get_hashed (key k) = Ok (hash k) ∧ fresh (keys ++ [k]) ks
  end.
Lemma const_hashed_inv e k : const_hashed e = Some k → node e = Value (key k) ∧ get_hashed (key k) = Ok (hash k).
Proof.
  unfold const_hashed. destruct (as_value (node e)) as [v|] eqn:Hv; [|done]. apply as_value_inv in Hv.
  destruct (get_hashed v) as [hk|?|?] eqn:Hh; [|done..]. by intros [= <-].
Qed.
Lemma try_const_keys_spec (xs : list (Expr * Expr)) keys keys' :
  try_dict_const_keys xs keys = Some keys' →
  ∃ ks, keys' = keys ++ ks ∧ fresh keys ks ∧ Forall2 (λ kv k, node kv.1 = Value (key k)) xs ks.
Proof.
  revert keys. induction xs as [|[k v] xs IH]; intros keys; simpl.
  - intros [= <-]. exists []. by rewrite app_nil_r.
  - destruct (const_hashed k) as [hk|] eqn:Hk; [|done]. apply const_hashed_inv in Hk as [Hn Hh].
    destruct (existsb (same_key hk) keys) eqn:He; [done|]. intros (ks & -> & Hf & Hks)%IH.
    exists (hk :: ks). rewrite <- app_assoc. split; [done|]. split; [done|]. by constructor.
Qed.
Lemma build_fresh ks vs sps d h :
  fresh (map fst d) ks → length vs = length ks → length ks ≤ length sps →
  build_dict (zip (map key ks) vs) sps d h = (Ok (d ++ zip ks vs), h).
Proof.
  revert vs sps d. induction ks as [|k ks IH]; intros [|v vs] [|sp sps] d Hf Hl Hs; simpl in *; try lia; try done.
  all: try by rewrite app_nil_r.
  destruct Hf as (He & Hh & Hf). rewrite Hh. replace (mkHashed (hash k) (key k)) with k by by destruct k.
  rewrite (insert_fresh d k v He), IH; [by rewrite <- app_assoc|by rewrite map_app|lia|lia].
Qed.
Lemma const_keys_fresh ks vs d (x : BcFrame V * H) :
  fresh (map fst d) ks → length vs = length ks → const_keys (E:=E) (zip ks vs) d x = (Ok (d ++ zip ks vs), x).
Proof.
  revert vs d. induction ks as [|k ks IH]; intros [|v vs] d Hf Hl; simpl in *; try lia; [by rewrite app_nil_r|].
  destruct Hf as (He & Hh & Hf). rewrite (insert_fresh d k v He). unfold mbind, run_bind. simpl.
  rewrite IH; [by rewrite <- app_assoc|by rewrite map_app|lia].
Qed.
Lemma eval_const_keys n (xs : list (Expr * Expr)) ks s :
  Forall2 (λ kv k, node kv.1 = Value (key k)) xs ks →
  eval_pairs (ev n) xs s = do vs, s <~ eval_list (ev n) (map snd xs) s; ret (zip (map key ks) vs) s.
Proof.
  intros Hks. revert s. induction Hks as [|[k v] hk xs ks Hk Hks IH]; intros s; [done|]. simpl in *. unfold ev at 1. rewrite Hk.
  simpl. rewrite obind_assoc. apply obind_ext. intros vv s1. rewrite IH, !obind_assoc. by apply obind_ext.
Qed.
Lemma writes_const_keys lc sp (xs : list (Expr * Expr)) keys x w Lend :
  Forall (good lc) (map snd xs) → wfw w → w_local_count w = lc → x < w_top w →
  try_dict_const_keys xs [] = Some keys →
  writes mk (_ ← w_assert (length keys =? length xs);
    write_exprs_of write snd xs (λ values,
      _ ← w_assert (range_len values =? length keys);
      write_instr sp (InstrDictConstKeys keys (range_start values) x))) w (λ _, True)
    (λ n s, do l, s <~ eval_pairs (ev n) xs s; at_span sp (make_dict l (map (λ kv, span kv.1) xs)) s)
    (λ y, y ∈ bounds (map snd xs) ∨ y = x) (to_slot Lend x).
Proof.
  intros Hg Hw Hlc Hx Hk. apply try_const_keys_spec in Hk as (ks & -> & Hf & Hks). simpl.
  pose proof (Forall2_length _ _ _ Hks) as Hlen.
  eapply writes_ext; [|intros n s; by rewrite (eval_const_keys n xs ks s Hks), obind_assoc].
  apply wp_bind, w_assert_wp; [by apply Nat.eqb_eq|].
  apply (writes_exprs lc snd xs _ w _ (λ vs n s, at_span sp (make_dict (zip (map key ks) vs) (map (λ kv, span kv.1) xs)) s) (λ y, y = x)); try done.
  intros rg w1 vs C [_ Hops]. pose proof (ctx_top _ _ C). apply Forall2_length in Hops. rewrite length_map in Hops.
  unfold range_slots in Hops. rewrite length_seq in Hops. apply wp_bind, w_assert_wp; [apply Nat.eqb_eq; lia|].
  apply (writes_op _ _ _ _ (make_dict (zip (map key ks) vs) (map (λ kv, span kv.1) xs))); [apply C|done|lia| |done].
  intros m [_ Hvs]. simpl. unfold run_InstrDictConstKeys.
  assert (range_slots (to_range (range_start rg) (length ks)) = range_slots rg) as Hrg.
  { unfold range_slots, to_range, range_len. simpl. f_equal. unfold range_len in Hops. lia. }
  rewrite (bind_get_range (to_range (range_start rg) (length ks)) vs) by by rewrite Hrg.
  apply Forall2_length in Hvs. unfold range_slots in Hvs. rewrite length_seq in Hvs.
  unfold mbind, run_bind. rewrite const_keys_fresh by (done || lia). unfold heap_op, make_dict.
  rewrite build_fresh by (done || rewrite ?length_map; lia). unfold heap_run. by destruct (h_alloc_dict _ _).
Qed.

(** ** Constant dictionaries *)

Lemma try_consts_spec (xs : list (Expr * Expr)) d d' :
  try_dict_of_consts xs d = Some d' →
  ∃ l, (∀ n s, eval_pairs (ev n) xs s = ret l s) ∧
  ∀ sps h, length xs ≤ length sps → build_dict l sps d h = (Ok d', h).
Proof.
  revert d. induction xs as [|[k v] xs IH]; intros d; simpl.
  - intros [= <-]. by exists [].
  - destruct (const_hashed k) as [hk|] eqn:Hk; [|done]. apply const_hashed_inv in Hk as [Hn Hh].
    destruct (as_value (node v)) as [vv|] eqn:Hv; [|done]. apply as_value_inv in Hv.
    destruct (insert_entry d hk vv) as [[old|] d1] eqn:Hi; [done|]. intros (l & Hl & Hb)%IH.
    exists ((key hk, vv) :: l). split.
    + intros n s. unfold ev at 1 2. rewrite Hn, Hv. simpl. by rewrite Hl.
    + intros [|sp sps] h Hs; simpl in *; [lia|]. rewrite Hh. replace (mkHashed (hash hk) (key hk)) with hk by by destruct hk.
      rewrite Hi. apply Hb. lia.
Qed.
Lemma writes_dict lc sp (xs : list (Expr * Expr)) x w Lend :
  Forall (λ kv, good lc kv.1 ∧ good lc kv.2) xs → wfw w → w_local_count w = lc → x < w_top w →
  writes mk (write_dict write sp xs x) w (λ _, True)
    (λ n s, do l, s <~ eval_pairs (ev n) xs s; at_span sp (make_dict l (map (λ kv, span kv.1) xs)) s)
    (λ y, y ∈ bounds (flatten xs) ∨ y = x) (to_slot Lend x).
Proof.
  intros Hg Hw Hlc Hx. unfold write_dict. destruct (Nat.eqb_spec (length xs) 0) as [Hl|_].
  { apply nil_length_inv in Hl as ->.
    eapply writes_mono; [by apply (writes_total sp _ (h_alloc_dict []) w (λ _, True)), dict_new_does|done| |by right].
    intros n s. simpl. rewrite (with_heap_total sp). done. }
  destruct (try_dict_of_consts xs []) as [d|] eqn:Hd.
  { apply try_consts_spec in Hd as (l & Hl & Hb).
    eapply writes_mono; [by apply (writes_total sp _ (h_alloc_dict d) w (λ _, True)), dict_consts_does|done| |by right].
    intros n s. rewrite Hl. simpl. rewrite (with_heap_total sp). unfold at_span, make_dict, total.
    by rewrite Hb by by rewrite length_map. }
  destruct (try_dict_const_keys xs []) as [keys|] eqn:Hk.
  - eapply writes_mono; [apply (writes_const_keys lc sp xs keys x w Lend); [|done..]| done|done|].
    + apply Forall_map. eapply Forall_impl; [exact Hg|]. by intros kv [].
    + intros y _ [Hy|?]; [left|by right]. unfold bounds in *. apply list_elem_of_In, in_flat_map in Hy as (e & He & Hy).
      apply in_map_iff in He as ([k v] & <- & Hin). apply list_elem_of_In, in_flat_map. exists v. split; [|done].
      apply in_flat_map. exists (k, v). split; [done|]. right. by left.
  - apply (writes_npop lc); try done. clear -Hg. induction Hg as [|[k v] xs [? ?] Hg IH]; [constructor|]. by do 2 (apply Forall_cons_2; [done|]).
Qed.
End dict.
