(* ===== verification/BcCall.v ===== *)
(** Calls: arguments, methods, constant functions, and the functions that the compiler knows; and
    the default values of functions that are made. *)

From S2P Require Import Prelude Hashing TableMap FastString Symbol CodeMap.
From S2P Require Import DefParams OrdMap ParamSpec Def Ir IrWf World IrEval BcInstr BcWriter BcCompile BcCode BcSim BcRules BcOperands BcOps.
From S2P Require Import DefSpec.

Section call.
Context `{W : World V H E TC D KM MB} `{!WorldOk V H E TC D KM MB} `{!InstrLayout V TC D KM}.
Local Abbreviation BcWriter := (BcWriter V TC D KM).
Local Abbreviation Mach := (Mach (V:=V) (H:=H)).
Local Abbreviation M A := (run BcWriter CodeTooBig A).
Local Abbreviation I A := (run (BcFrame V * H) E A).
Local Abbreviation out := (out V H E).
Local Abbreviation dest := (dest V H TC D KM).
Local Abbreviation Expr := (Spanned (ExprCompiled V TC D)).
Context {mk : bool}.
Implicit Types (w F : BcWriter) (m : Mach) (s : St V H) (B : nat → Prop) (P : Mach → Prop) (e : Expr) (h : H).

(** ** Arguments *)

(** The arguments at hand. *)
Definition pops {S} (ba : BcCallArgs S) (a : ArgumentsFull S V) m : Prop :=
  pop_from_stack (E:=E) ba (m_frame m, m_heap m) = (Ok a, (m_frame m, m_heap m)).
Lemma bind_pops {S A} (ba : BcCallArgs S) a m (k : ArgumentsFull S V → I A) :
  pops ba a m → (a ← pop_from_stack ba; k a) (m_frame m, m_heap m) = k a (m_frame m, m_heap m).
Proof. intros Ha. unfold mbind, run_bind. by rewrite Ha. Qed.
Lemma pops_resolve f ba a m : pops ba a m → pops (bc_resolve f ba) (resolve_args f a) m.
Proof.
  unfold pops. destruct ba as [rg|rg names args kwargs]; simpl; unfold mbind, run_bind.
  - destruct (get_bc_slot_range rg _) as [[vs|?|?] x]; try done. by intros [= <- ->].
  - destruct (get_bc_slot_range rg _) as [[vs|?|?] x]; try done. rewrite length_map. destruct (_ <=? _); [|done]. simpl.
    destruct (get_slot_option args x) as [[av|?|?] x1]; try done.
    destruct (get_slot_option kwargs x1) as [[kv|?|?] x2]; try done. by intros [= <- ->].
Qed.
Lemma pops_pos rg vs m : range_holds (range_slots rg) vs m → pops (ArgsPos rg) (arguments [] vs None None) m.
Proof.
  intros Hvs. unfold pops, pop_from_stack. rewrite (bind_get_range _ _ _ _ Hvs). unfold arguments. simpl.
  by rewrite Nat.sub_0_r, firstn_all, skipn_all.
Qed.
Lemma pops_full rg names (args kwargs : option nat) vs av kv m :
  range_holds (range_slots rg) vs m → opt_holds args av m → opt_holds kwargs kv m → length names ≤ length vs →
  pops (ArgsFull rg names args kwargs) (arguments names vs av kv) m.
Proof.
  intros Hvs Ha Hk Hl. unfold pops, pop_from_stack. rewrite (bind_get_range _ _ _ _ Hvs).
  unfold mbind at 1, run_bind at 1. unfold run_result, assert. rewrite (proj2 (Nat.leb_le _ _) Hl).
  by rewrite (bind_get_option _ _ _ _ Ha), (bind_get_option _ _ _ _ Hk).
Qed.

(** What lowering guarantees of arguments. *)
Record good_args lc (a : ArgsCompiledValue Expr) : Prop := {
  ga_pos : Forall (good lc) (ca_pos_named a);
  ga_args : good_option lc (ca_args a);
  ga_kwargs : good_option lc (ca_kwargs a);
  ga_held : forallb (λ e, held (node e) (option_bound (ca_args a) ++ option_bound (ca_kwargs a))) (ca_pos_named a) = true;
  ga_held_args : held_option (ca_args a) (option_bound (ca_kwargs a)) = true;
  ga_names : length (ca_names a) ≤ length (ca_pos_named a);
}.
Lemma option_below lc (o : option Expr) : good_option lc o → below lc (option_bound o).
Proof. destruct o as [e|]; [|intros; apply below_nil]. intros [_ He]. by apply (bound_below lc). Qed.
Lemma stable_operands lc (l : list Expr) xs w ls vs :
  Forall2 (operand lc) l xs → Forall (λ x, x < w_top w) xs → forallb (λ e, held (node e) ls) l = true → below lc ls →
  stable (H:=H) w (is_bound ls) (range_holds xs vs).
Proof.
  intros Hops Hxs Hh Hls. apply stable_range. induction Hops as [|e x l xs Ho Hops IH]; [constructor|].
  apply Forall_cons in Hxs as [Hx Hxs]. simpl in Hh. apply andb_true_iff in Hh as [He Hh].
  constructor; [|auto]. split; [done|]. by eapply operand_free.
Qed.
Lemma stable_opt_operand lc (o : option Expr) x w ls v :
  opt_operand lc o x → opt_below w x → held_option o ls = true → below lc ls → stable (H:=H) w (is_bound ls) (opt_holds x v).
Proof.
  intros Ho Hx Hh Hls. apply stable_opt. intros y ->. simpl in Hx. split; [done|].
  destruct o as [e|]; [|done]. by eapply operand_free.
Qed.

Lemma writes_args {A} lc (a : ArgsCompiledValue Expr) (k : BcCallArgs (list byte) → M ()) w P
    (r : Args V → nat → St V H → option (out A)) B2 B (R : dest A) :
  good_args lc a → wfw w → w_local_count w = lc → stable w (is_bound (args_bound a)) P →
  (∀ ba w1 av, ctx w w1 → writes mk (k ba) w1 (λ m, P m ∧ pops ba av m) (r av) B2 R) →
  (∀ x, x < w_top w → x ∈ args_bound a ∨ B2 x → B x) →
  writes mk (write_args write a k) w P (λ n s, do av, s <~ eval_args (ev n) a s; r av n s) B R.
Proof.
  intros [Hp Ha Hkw Hh Hha Hn] Hw Hlc HP Hk HB. unfold write_args. unfold args_bound in *.
  destruct (with_pos_only_cases a) as [(xs & -> & Hx)|Hx].
  - rewrite Hx. simpl in *. rewrite app_nil_r in *.
    pose proof (writes_exprs (mk:=mk) lc (λ e, e) xs (λ rg, k (ArgsPos rg)) w P (λ vs, r (arguments [] vs None None)) B2 B R) as Hxs.
    rewrite map_id in Hxs. eapply writes_ext; [apply Hxs; try done|].
    + intros rg w1 vs C _. eapply writes_pre; [by apply (Hk (ArgsPos rg) w1 (arguments [] vs None None))|].
      intros m [? ?]. split; [done|]. by apply pops_pos.
    + intros n s. unfold eval_args. simpl. rewrite obind_assoc. by apply obind_ext.
  - rewrite Hx. clear Hx. unfold write_args_full, write_exprs.
    pose proof (option_below _ _ Ha) as Hba. pose proof (option_below _ _ Hkw) as Hbk.
    pose proof (writes_exprs (mk:=mk) lc (λ e, e) (ca_pos_named a)
      (λ pos_named, write_expr_opt write (ca_args a) (λ args, write_expr_opt write (ca_kwargs a)
         (λ kwargs, k (ArgsFull pos_named (ca_names a) args kwargs)))) w P
      (λ vs n s, do av, s <~ eval_option (ev n) (ca_args a) s; do kv, s <~ eval_option (ev n) (ca_kwargs a) s;
         r (arguments (ca_names a) vs av kv) n s)
      (λ x, x ∈ option_bound (ca_args a) ∨ x ∈ option_bound (ca_kwargs a) ∨ B2 x) B R) as Hxs.
    rewrite map_id in Hxs. eapply writes_ext; [apply Hxs; try done|].
    + eapply stable_sub; [exact HP|]. intros x _ ?. apply elem_of_app. by left.
    + intros rg w1 vs C [Hb Hops].
      apply (writes_opt lc (ca_args a) _ w1 _ (λ av n s, do kv, s <~ eval_option (ev n) (ca_kwargs a) s;
         r (arguments (ca_names a) vs av kv) n s) (λ x, x ∈ option_bound (ca_kwargs a) ∨ B2 x)); [done|apply C|by rewrite (cx_lc _ _ C)| | |tauto].
      { apply stable_and.
        - eapply stable_ctx; [exact C|exact HP|]. intros x _ ?. apply elem_of_app. right. apply elem_of_app. by left.
        - eapply stable_sub; [by apply (stable_operands lc _ _ _ _ vs Hops Hb Hh), below_app|].
          intros x _ ?. apply elem_of_app. by left. }
      intros o w2 av C2 Ho Hop. pose proof (ctx_top _ _ C2) as Ht2.
      apply (writes_opt lc (ca_kwargs a) _ w2 _ (λ kv n s, r (arguments (ca_names a) vs av kv) n s) B2); [done|apply C2| | | |tauto].
      { rewrite (cx_lc _ _ C2), (cx_lc _ _ C). done. }
      { apply stable_and; [apply stable_and|].
        - eapply (stable_ctx w w2); [by eapply ctx_trans|exact HP|]. intros x _ ?. apply elem_of_app. right. apply elem_of_app. by right.
        - eapply stable_ctx; [exact C2|by apply (stable_operands lc _ _ _ _ vs Hops Hb Hh), below_app|].
          intros x _ ?. apply elem_of_app. by right.
        - eapply stable_opt_operand; [exact Hop|done|done|done]. }
      intros ok w3 kv C3 Hok Hopk.
      eapply writes_pre; [apply (Hk (ArgsFull rg (ca_names a) o ok) w3 (arguments (ca_names a) vs av kv))|].
      { eapply ctx_trans; [exact C|]. by eapply ctx_trans. }
      intros m (((? & Hvs) & Hav) & Hkv). split; [done|]. apply pops_full; [done..|].
      apply Forall2_length in Hvs, Hops. lia.
    + intros x Hlt [?|Hx]; apply HB; try done; [left; apply elem_of_app; by left|]. rewrite !elem_of_app. tauto.
    + intros n s. unfold eval_args. rewrite obind_assoc. apply obind_ext. intros vs s1. rewrite obind_assoc. apply obind_ext.
      intros av s2. by rewrite obind_assoc.
Qed.

(** ** Calls *)

(** A function or an object in a slot, then the arguments. *)
Lemma writes_with_args lc e a (k : nat → BcCallArgs (list byte) → M ()) w (r : V → Args V → nat → St V H → option (out V)) x Lend :
  good lc e → good_args lc a → held (node e) (args_bound a) = true → wfw w → w_local_count w = lc → x < w_top w →
  (∀ y ba w1 v av, ctx w w1 →
    writes mk (k y ba) w1 (λ m, holds y v m ∧ pops ba av m) (r v av) (λ y, y = x) (to_slot Lend x)) →
  writes mk (cb write e (λ y, write_args write a (k y))) w (λ _, True)
    (λ n s, do v, s <~ ev n e s; do av, s <~ eval_args (ev n) a s; r v av n s)
    (λ y, (y ∈ bound (node e) ∨ y ∈ args_bound a) ∨ y = x) (to_slot Lend x).
Proof.
  intros He Ha Hh Hw Hlc Hx Hk.
  apply (writes_cb lc e _ w _ (λ v n s, do av, s <~ eval_args (ev n) a s; r v av n s) (λ y, y ∈ args_bound a ∨ y = x)); try done; [|tauto].
  intros y w1 v C Hy Hop. apply (writes_args lc a (k y) w1 _ (λ av, r v av) (λ y, y = x)); [done|apply C|by rewrite (cx_lc _ _ C)| | |tauto].
  - apply stable_and; [done|]. apply stable_holds; [done|]. eapply operand_free; [exact Hop|done|].
    destruct Ha as [Hp Hoa Hok _ _ _]. apply below_app; [by apply (bounds_below lc)|]. apply below_app; by apply option_below.
  - intros ba w2 av C2. eapply writes_pre; [apply (Hk y ba w2 v av); by eapply ctx_trans|]. by intros m ((_ & ?) & ?).
Qed.
Lemma writes_call_method lc sp this symbol a x w Lend :
  good lc this → good_args lc a → held (node this) (args_bound a) = true → wfw w → w_local_count w = lc → x < w_top w →
  writes mk (write_call_method write x sp this symbol a) w (λ _, True)
    (λ n s, do t, s <~ ev n this s; do av, s <~ eval_args (ev n) a s; at_span sp (call_method t symbol av sp) s)
    (λ y, (y ∈ bound (node this) ∨ y ∈ args_bound a) ∨ y = x) (to_slot Lend x).
Proof.
  intros Ht Ha Hh Hw Hlc Hx. apply (writes_with_args lc); try done. intros y ba w1 v av C.
  pose proof (ctx_top _ _ C). destruct (get_known_method symbol) as [km|] eqn:Hkm;
    (apply (writes_does sp _ _ _ (call_method v symbol av sp)); [apply C|done|lia| |done]); intros m [Hv Hav] spans; simpl;
    unfold run_InstrCallMaybeKnownMethod, run_InstrCallMethod; rewrite (bind_get _ _ _ _ Hv), (bind_pops _ _ _ _ Hav); [|done].
  unfold mbind, run_bind, heap_op. destruct (known_method_is km v) eqn:Hk; [|done].
  by rewrite (known_method_ok _ _ _ _ _ _ Hkm Hk).
Qed.
Lemma writes_call_frozen lc sp f a x w Lend :
  good_args lc a → wfw w → w_local_count w = lc → x < w_top w →
  writes mk (write_call_frozen write sp f a x) w (λ _, True)
    (λ n s, do av, s <~ eval_args (ev n) a s; at_span sp (invoke_with_loc f sp av) s)
    (λ y, y ∈ args_bound a ∨ y = x) (to_slot Lend x).
Proof.
  intros Ha Hw Hlc Hx. unfold write_call_frozen.
  assert (∀ k : BcCallArgs (list byte) → M (),
    (∀ ba w1 av, ctx w w1 → writes mk (k ba) w1 (λ m, True ∧ pops ba av m) (λ n s, at_span sp (invoke_with_loc f sp av) s) (λ y, y = x) (to_slot Lend x)) →
    writes mk (write_args write a k) w (λ _, True)
      (λ n s, do av, s <~ eval_args (ev n) a s; at_span sp (invoke_with_loc f sp av) s) (λ y, y ∈ args_bound a ∨ y = x) (to_slot Lend x)) as Hk.
  { intros k Hk. by apply (writes_args lc a k w _ (λ av _ s, at_span sp (invoke_with_loc f sp av) s) (λ y, y = x)). }
  destruct (is_frozen_def f) eqn:Hfd; [|destruct (is_native_function f) eqn:Hfn]; apply Hk; intros ba w1 av C; pose proof (ctx_top _ _ C);
    (apply (writes_does sp _ _ _ (invoke_with_loc f sp av)); [apply C|done|lia| |done]); intros m [_ Hav] spans; simpl.
  - unfold run_InstrCallFrozenDef. rewrite (bind_pops _ _ _ _ (pops_resolve f _ _ _ Hav)).
    unfold mbind, run_bind, heap_op. by rewrite (frozen_def_invoke _ _ _ _ Hfd).
  - unfold run_InstrCallFrozenNative. rewrite (bind_pops _ _ _ _ Hav).
    unfold mbind, run_bind, heap_op. by rewrite (native_invoke _ _ _ _ Hfn).
  - unfold run_InstrCallFrozen. by rewrite (bind_pops _ _ _ _ Hav).
Qed.

Record good_call lc (c : CallCompiled Expr) : Prop := {
  gc_fun : good lc (call_fun c);
  gc_this : match node (call_fun c) with ExprBuiltin1 _ e => good lc e | _ => True end;
  gc_args : good_args lc (call_args c);
  gc_held : held (node (call_fun c)) (args_bound (call_args c)) = true;
  gc_held_this :
    match node (call_fun c) with ExprBuiltin1 (Dot _) this => held (node this) (args_bound (call_args c)) | _ => true end = true;
}.
Definition call_bound (c : CallCompiled Expr) : list nat := bound (node (call_fun c)) ++ args_bound (call_args c).
(** A call of a function that the compiler does not know. *)
Definition write_invoke sp (c : CallCompiled Expr) (x : nat) : M () :=
  with_method c
    (λ this symbol args, write_call_method write x sp this symbol args)
    match as_value (node (call_fun c)) with
    | Some f => write_call_frozen write sp f (call_args c) x
    | None => cb write (call_fun c) (λ f, write_args write (call_args c) (λ args, write_instr sp (InstrCall f args sp x)))
    end.
Lemma writes_invoke lc sp c x w Lend :
  good_call lc c → wfw w → w_local_count w = lc → x < w_top w →
  writes mk (write_invoke sp c x) w (λ _, True) (λ n s, eval_invoke (ev n) sp c s)
    (λ y, y ∈ call_bound c ∨ y = x) (to_slot Lend x).
Proof.
  intros [Hf Ht Ha Hh Hht] Hw Hlc Hx. unfold write_invoke, call_bound.
  destruct (with_method_cases c) as [(this & field & Hm & Hc)|Hc].
  - rewrite Hc. rewrite Hm in Ht, Hht |- *. eapply writes_mono; [by apply (writes_call_method lc sp this field (call_args c) x w Lend)|done| |].
    + intros n s. unfold eval_invoke. by rewrite Hc.
    + intros y _. rewrite elem_of_app. done.
  - rewrite Hc. destruct (as_value (node (call_fun c))) as [f|] eqn:Hv.
    + apply as_value_inv in Hv. eapply writes_mono; [by apply (writes_call_frozen lc sp f (call_args c) x w Lend)|done| |].
      * intros n s. unfold eval_invoke. rewrite Hc. unfold ev at 1. by rewrite Hv.
      * intros y _. rewrite elem_of_app. tauto.
    + eapply writes_mono.
      * apply (writes_with_args lc (call_fun c) (call_args c) (λ f args, write_instr sp (InstrCall f args sp x)) w
          (λ g av n s, at_span sp (invoke_with_loc g sp av) s) x Lend); try done.
        intros y ba w1 v av C. pose proof (ctx_top _ _ C).
        apply (writes_does sp _ _ _ (invoke_with_loc v sp av)); [apply C|done|lia| |done].
        intros m [Hy Hav] spans. simpl. unfold run_InstrCall. by rewrite (bind_get _ _ _ _ Hy), (bind_pops _ _ _ _ Hav).
      * done.
      * intros n s. unfold eval_invoke. by rewrite Hc.
      * intros y _. rewrite elem_of_app. done.
Qed.

(** An operand, then an operation on its value. *)
Lemma writes_1 lc sp e (i : nat → Instr V TC D KM) (o : V → Op H E V) w x Lend :
  good lc e → wfw w → w_local_count w = lc → x < w_top w → (∀ y, no_flow (i y) = true) →
  (∀ y v m, holds y v m → does (i y) (o v) x m) →
  writes mk (cb write e (λ y, write_instr sp (i y))) w (λ _, True)
    (λ n s, do v, s <~ ev n e s; at_span sp (o v) s) (λ y, y ∈ bound (node e) ∨ y = x) (to_slot Lend x).
Proof.
  intros He Hw Hlc Hx Hi Hdo. apply (writes_cb lc e _ w _ (λ v n s, at_span sp (o v) s) (λ y, y = x)); try done.
  intros y w1 v C Hy _. pose proof (ctx_top _ _ C). apply (writes_does sp _ _ _ (o v)); [apply C|done|lia| |done].
  intros m [_ Hv]. by apply Hdo.
Qed.
Lemma writes_call lc sp c x w Lend :
  good_call lc c → wfw w → w_local_count w = lc → x < w_top w →
  writes mk (write_call write sp c x) w (λ _, True) (λ n s, eval_call (ev n) sp c s)
    (λ y, y ∈ call_bound c ∨ y = x) (to_slot Lend x).
Proof.
  intros Hc Hw Hlc Hx. unfold write_call, with_len, with_type. unfold eval_call, with_len, with_type.
  pose proof (writes_invoke lc sp c x w Lend Hc Hw Hlc Hx) as Hinv. unfold write_invoke in Hinv.
  destruct (with_fn_cases is_fn_len c) as [(f & e & Hce & Hl)|Hl].
  { rewrite Hl. destruct Hc as [_ _ [Hp _ _ _ _ _] _ _]. rewrite Hce in Hp. apply (proj1 (Forall_singleton _ _)) in Hp.
    eapply writes_mono; [apply (writes_1 lc sp e (λ y, InstrUnOp LenImpl y x) len_op w x Lend); try done|done| |].
    - intros y v m Hv spans. simpl. unfold run_InstrUnOp. by rewrite (bind_get _ _ _ _ Hv).
    - intros n s. by rewrite Hl.
    - intros y _. rewrite Hce. unfold call_bound, args_bound. simpl. rewrite !app_nil_r. done. }
  rewrite Hl. destruct (with_fn_cases is_fn_type c) as [(f & e & Hce & Ht)|Ht].
  { rewrite Ht. destruct Hc as [_ _ [Hp _ _ _ _ _] _ _]. rewrite Hce in Hp. apply (proj1 (Forall_singleton _ _)) in Hp.
    eapply writes_mono.
    - apply (writes_1 lc sp e (λ y, InstrUnOp TypeImpl y x) (λ v h, (Ok (frozen_str (get_type_value v)), h)) w x Lend); try done.
      intros y v m Hv spans. simpl. unfold run_InstrUnOp. by rewrite (bind_get _ _ _ _ Hv).
    - done.
    - intros n s. rewrite Hl, Ht. apply obind_ext. intros v s1. by rewrite at_span_ok.
    - intros y _. rewrite Hce. unfold call_bound, args_bound. simpl. rewrite !app_nil_r. done. }
  rewrite Ht. destruct (with_isinstance_cases is_fn_isinstance c) as [(f & e & st & t & Hce & Hi)|Hi].
  - rewrite Hi. destruct (new_frozen t) as [ty|] eqn:Hty.
    + destruct Hc as [_ _ [Hp _ _ _ _ _] _ _]. rewrite Hce in Hp. apply Forall_cons in Hp as [Hp _].
      eapply writes_mono.
      * apply (writes_1 lc sp e (λ y, InstrIsInstance y ty x) (λ v h, (Ok (new_bool (type_matches ty v h)), h)) w x Lend); try done.
        intros y v m Hv spans. simpl. unfold run_InstrIsInstance. rewrite (bind_get _ _ _ _ Hv). done.
      * done.
      * intros n s. rewrite Hl, Ht, Hi, Hty. apply obind_ext. intros v s1. unfold at_span. by destruct s1.
      * intros y _. rewrite Hce. unfold call_bound, args_bound. simpl. rewrite !app_nil_r. done.
    + eapply writes_ext; [exact Hinv|]. intros n s. by rewrite Hl, Ht, Hi, Hty.
  - rewrite Hi. eapply writes_ext; [exact Hinv|]. intros n s. by rewrite Hl, Ht, Hi.
Qed.
End call.

(** Functions that are made when code runs: the default values of their parameters, in slots in a row. *)

Section defaults.
Context `{W : World V H E TC D KM MB} `{!WorldOk V H E TC D KM MB} `{!InstrLayout V TC D KM}.
Local Abbreviation BcWriter := (BcWriter V TC D KM).
Local Abbreviation Mach := (Mach (V:=V) (H:=H)).
Local Abbreviation M A := (run BcWriter CodeTooBig A).
Local Abbreviation out := (out V H E).
Local Abbreviation dest := (dest V H TC D KM).
Local Abbreviation Expr := (Spanned (ExprCompiled V TC D)).
Local Abbreviation Param := (Spanned (ParameterCompiled TC Expr)).
Context {mk : bool}.
Implicit Types (w F : BcWriter) (m : Mach) (s : St V H) (B : nat → Prop) (P : Mach → Prop) (e : Expr) (l : list Param) (h : H).

Lemma eval_defaults_list n l s : eval_defaults (ev n) l s = eval_list (ev n) (defaults l) s.
Proof.
  revert s. induction l as [|p l IH]; intros s; [done|]. simpl. unfold defaults in *. simpl.
  destruct (node p) as [nm ty [e|]|nm ty|nm ty]; simpl; [|apply IH..]. apply obind_ext. intros v s1. by rewrite IH.
Qed.
Lemma number_params_ok (ps : ParametersCompiled TC Expr) :
  number_params ps = mkCompiled (number 0 (compiled_params ps)) (compiled_indices ps).
Proof.
  unfold number_params.
  assert (∀ l k, map_exprs (E:=Empty_set) (λ i (_ : Expr), Ok (i, i + 1)) k l = Ok (number k l, k + length (defaults l))) as ->; [|done].
  intros l. induction l as [|[sp x] l IH]; intros k; csimpl; [by rewrite Nat.add_0_r|].
  destruct x as [nm ty [d|]|nm ty|nm ty]; csimpl; rewrite IH; simpl; try done.
  by replace (k + 1 + length (defaults l)) with (k + S (length (defaults l))) by lia.
Qed.
Definition params_bound l : list nat :=
  flat_map (λ p : Param, match node p with CompiledNormal _ _ (Some e) => bound (node e) | _ => [] end) l.
Lemma params_bound_defaults l : params_bound l = bounds (defaults l).
Proof.
  induction l as [|p l IH]; [done|]. simpl. rewrite IH. unfold defaults at 2. simpl.
  by destruct (node p) as [nm ty [e|]|nm ty|nm ty].
Qed.

Local Abbreviation source l r := (λ n s, do vs, s <~ eval_list (ev n) (defaults l) s; r vs n s).
Lemma writes_defaults {A T} lc l : ∀ a vc w P (r : list V → nat → St V H → option (out A))
    (k : list (Spanned (ParameterCompiled TC nat)) * list nat → M T) B2 B (R : dest A),
  Forall (good lc) (defaults l) → wfw w → w_local_count w = lc → lc ≤ a → a + length (defaults l) ≤ w_top w →
  stable w (λ y, y ∈ bounds (defaults l) ∨ a ≤ y) P →
  (∀ w1 vs, ctx w w1 →
    writes mk (k (number vc l, [])) w1 (λ m, P m ∧ range_holds (seq a (length (defaults l))) vs m) (r vs) B2 R) →
  (∀ x, x < w_top w → x ∈ bounds (defaults l) ∨ a ≤ x ∨ B2 x → B x) →
  writes mk (write_defaults write l (seq a (length (defaults l))) vc ≫= k) w P (source l r) B R.
Proof.
  induction l as [|[sp x] l IH]; intros a vc w P r k B2 B R Hg Hw Hlc Ha Htop HP Hk HB.
  { eapply writes_mono; [apply (Hk w []); by apply ctx_refl| |done|].
    - intros m Hm. split; [done|constructor].
    - intros x Hx ?. apply HB; auto. }
  assert (∀ y : ParameterCompiled TC nat, defaults (mkSpanned sp x :: l) = defaults l →
    (∀ w1 vs, ctx w w1 → writes mk (k (mkSpanned sp y :: number vc l, [])) w1
       (λ m, P m ∧ range_holds (seq a (length (defaults l))) vs m) (r vs) B2 R) →
    writes mk (('(l', si) ← write_defaults write l (seq a (length (defaults l))) vc; mret (mkSpanned sp y :: l', si)) ≫= k) w P
      (source l r) B R) as Hskip.
  { intros y Hd Hk'. rewrite Hd in *. eapply wp_equiv; [intros s; apply run_bind_assoc|].
    apply (wp_equiv (write_defaults write l (seq a (length (defaults l))) vc ≫= λ '(l', si), k (mkSpanned sp y :: l', si))).
    { intros s. unfold mbind, run_bind. by destruct (write_defaults _ _ _ _ s) as [[[l' si]|?|?] s']. }
    by apply (IH a vc w P r (λ '(l', si), k (mkSpanned sp y :: l', si)) B2). }
  destruct x as [nm ty [e|]|nm ty|nm ty]; [|by apply Hskip..]. clear Hskip.
  unfold defaults in *; csimpl in *; fold (defaults l) in *. apply Forall_cons in Hg as [[He Hwf] Hg].
  assert (∀ x, x ∈ bounds (e :: defaults l) ↔ x ∈ bound (node e) ∨ x ∈ bounds (defaults l)) as Hb by apply bounds_cons.
  apply (wp_equiv (_ ← write e a; write_defaults write l (seq (S a) (length (defaults l))) (vc + 1) ≫=
    λ '(l', si), k (mkSpanned sp (CompiledNormal nm ty (Some vc)) :: l', si))).
  { intros s. unfold mbind, run_bind. destruct (write e a s) as [[[]|?|?] s1]; try done.
    by destruct (write_defaults _ _ _ _ s1) as [[[l' si]|?|?] s']. }
  eapply writes_ext.
  { apply (writes_seq (λ n s, ev n e s) (λ v n s, do vs, s <~ eval_list (ev n) (defaults l) s; r (v :: vs) n s)
      P (λ v m, P m ∧ holds a v m) (λ y, y ∈ bound (node e) ∨ y = a) (λ y, y ∈ bounds (defaults l) ∨ S a ≤ y ∨ B2 y) B
      (to_slot (d_end R) a) R) with (r := λ v n s, do vs, s <~ eval_list (ev n) (defaults l) s; r (v :: vs) n s).
    - apply (writes_pre _ _ (λ _, True)); [|done]. apply writes_marks, He; [done|done|done|lia].
    - split; try done.
      + intros v n s _. simpl. rewrite length_insert. intros Hs. rewrite put_temp; [done|lia].
      + intros v m m' _ Hm K Hv. split; [|done]. eapply HP; [exact Hm|]. eapply keep_mono; [exact K|done|done|].
        intros y Hy [?| ->]; [left; apply Hb; by left|by right].
      + intros y Hy Hor. apply HB; [done|]. rewrite Hb. destruct Hor as [[?|?]|[?|[?|?]]]; auto with lia.
    - intros [] w1 C Hst v _. pose proof (cx_lc _ _ C) as Hlc1.
      assert (w_top w1 = w_top w) as Ht1 by (unfold w_top; by rewrite Hlc1, Hst).
      apply (IH (S a) (vc + 1) w1 _ (λ vs, r (v :: vs)) _ B2); [done|apply C|congruence|lia|lia| | |tauto].
      + apply stable_and.
        * eapply stable_ctx; [exact C|exact HP|]. intros y _ [?|?]; [left; apply Hb; by right|right; lia].
        * apply stable_holds; [lia|]. intros [Hin|?]; [|lia]. apply (bounds_below lc) in Hin; [lia|done].
      + intros w2 vs C2. eapply writes_pre; [apply (Hk w2 (v :: vs)); by eapply ctx_trans|].
        intros m ((Hm & Hv) & Hvs). split; [done|]. by constructor.
    - by exists new_none. }
  intros n s. rewrite obind_assoc. apply obind_ext. intros v s1. by rewrite obind_assoc.
Qed.

(** ** The instruction *)

Lemma with_locals_agree {A} (o : list (option V) → Op H E (A * list (option V))) F s m :
  agree F s m →
  with_locals o (m_frame m, m_heap m) =
  match o (st_locals s) (st_heap s) with
  | (Ok (a, locals), h) =>
    (Ok a, (mkFrame (fr_local_count (m_frame m)) (locals ++ drop (w_local_count F) (fr_slots (m_frame m))) (fr_iter_index (m_frame m)), h))
  | (Err e, h) => (Err e, (m_frame m, h))
  | (Fault f, h) => (Fault f, (m_frame m, h))
  end.
Proof. intros Ag. unfold with_locals. by rewrite (ag_lc _ _ _ Ag), (ag_locals _ _ _ Ag), (ag_heap _ _ _ Ag). Qed.
(** New values of the variables. *)
Lemma agree_locals F s m locals ip h :
  agree F s m → length locals = length (st_locals s) →
  agree F (mkSt locals h)
    (mkMach ip (mkFrame (fr_local_count (m_frame m)) (locals ++ drop (w_local_count F) (fr_slots (m_frame m))) (fr_iter_index (m_frame m))) h).
Proof.
  intros Ag Hl. pose proof (agree_len _ _ _ Ag) as Hlen. destruct Ag as [? ? ? Hs ?]. split; try done; simpl.
  - apply take_app_length'. congruence.
  - rewrite length_app, length_drop, Hs. lia.
Qed.
Lemma keep_locals F w s m locals ip h :
  agree F s m → length locals = length (st_locals s) →
  (∀ x c, st_locals s !! x = Some (Some c) → locals !! x = Some (Some c)) →
  keep (λ _, False) w m
    (mkMach ip (mkFrame (fr_local_count (m_frame m)) (locals ++ drop (w_local_count F) (fr_slots (m_frame m))) (fr_iter_index (m_frame m))) h).
Proof.
  intros Ag Hl Hk. split; [|done]. intros y v _ Hy. exists v. split; [|done]. pose proof (agree_len _ _ _ Ag) as Hlen.
  unfold holds, slot. simpl. destruct (decide (y < w_local_count F)) as [Hlt|Hge].
  - rewrite lookup_app_l by lia. apply Hk. by rewrite <- (agree_local _ _ _ _ Ag Hlt).
  - rewrite lookup_app_r by lia. rewrite lookup_drop, Hl, Hlen. rewrite <- Hy. unfold slot. f_equal. lia.
Qed.
Lemma writes_def lc sp (d : DefCompiled TC D Expr) x w Lend :
  let ps := compiled_params (dc_params d) in
  Forall (good lc) (defaults ps) → (Z.of_nat (length ps) ≤ u32_max)%Z → wfw w → w_local_count w = lc → x < w_top w →
  writes mk (write_def write sp d x) w (λ _, True)
    (λ n s, do vs, s <~ eval_defaults (ev n) ps s; make_def sp (def_data d) vs s) (λ y, y ∈ params_bound ps ∨ y = x) (to_slot Lend x).
Proof.
  intros ps Hg Hn Hw Hlc Hx. unfold write_def. assert (length (defaults ps) ≤ length ps) as Hlen.
  { clear. unfold defaults. induction ps as [|p l IH]; [done|]. csimpl. destruct (default_of (node p)); simpl; lia. }
  apply wp_bind. rewrite count_exprs_ok by (fold ps; lia). fold ps. apply wp_ok.
  apply (writes_alloc_slots _ _ _ _ _ (λ y, (y ∈ params_bound ps ∨ y = x) ∨ w_top w ≤ y)); [done| |intros y Hy [?|?]; [done|lia]].
  pose proof (pushed_ctx (length (defaults ps)) w Hw) as C1. pose proof (pushed_top (length (defaults ps)) w) as Ht1.
  simpl. unfold range_len. simpl. replace (w_top w + length (defaults ps) - w_top w) with (length (defaults ps)) by lia.
  eapply writes_ext; [|intros n s; by rewrite eval_defaults_list].
  apply (writes_defaults lc ps (w_top w) 0 _ _ (λ vs _ s, make_def sp (def_data d) vs s) _ (λ y, y = x)); [done|apply C1|done| |lia|done| |].
  - rewrite <- Hlc. unfold w_top. lia.
  - intros w2 vs C. apply wp_bind, w_assert_wp; [done|]. pose proof (ctx_top _ _ C).
    apply writes_instr; [apply C|done|]. intros F n s m Hat [_ Hvs]. pose proof (at_agree _ _ _ _ Hat) as Ag.
    unfold instr_does. simpl. unfold run_InstrDef.
    rewrite (bind_get_range (mkRange (w_top w) (w_top w + length (defaults ps))) vs).
    2: { unfold range_slots, range_len. simpl. by replace (w_top w + length (defaults ps) - w_top w) with (length (defaults ps)) by lia. }
    unfold mbind, run_bind. rewrite (with_locals_agree _ F s) by done. unfold make_def, def_data. rewrite number_params_ok. fold ps.
    destruct (instr_def _ vs (st_locals s) (st_heap s)) as [[[v locals]|e|f] h] eqn:Hd; [|done..].
    apply instr_def_locals in Hd as [Hl Hk]. pose proof (at_top _ _ _ _ Hat) as Htop.
    pose proof (agree_locals F s m locals 0%N h Ag Hl) as Ag1. pose proof (keep_locals F w2 s m locals 0%N h Ag Hl Hk) as K1.
    set (m1 := mkMach _ _ _) in Ag1, K1. pose proof (ag_slots _ _ _ Ag1) as Hs1. rewrite (ag_slots _ _ _ Ag) in Htop. simpl in Hs1.
    rewrite set_bc_slot_ok by (simpl; lia). eexists v, _. split; [done|]. split; [done|]. intros ip.
    split; [exact (agree_set F _ m1 x v ip h Ag1)|]. split; [|exact (holds_set x v ip m1 h ltac:(simpl; lia))].
    eapply keep_trans; [exact K1|exact (keep_set w2 x v ip m1 h)|done|done|]. by intros y _ [[]|?].
  - intros y _ [Hy|[?|?]]; [|by right|left; by right]. left. left. by rewrite params_bound_defaults.
Qed.
End defaults.
