(* ===== verification/BcExpr.v ===== *)
(** Targets of assignments: attributes, elements, variables, and tuples of targets, whose items are
    unpacked to slots first; and all expressions, by induction. *)

From S2P Require Import Prelude Hashing TableMap FastString Symbol CodeMap.
From S2P Require Import DefParams OrdMap ParamSpec Def Ir IrWf World IrEval BcInstr BcWriter BcCompile IrAssigned BcCode BcSim BcRules BcOperands BcBranch BcClauses BcOps.
From S2P Require Import DefSpec BcLoop BcCall.

Section targets.
Context `{W : World V H E TC D KM MB} `{!WorldOk V H E TC D KM MB} `{!InstrLayout V TC D KM}.
Local Abbreviation BcWriter := (BcWriter V TC D KM).
Local Abbreviation Mach := (Mach (V:=V) (H:=H)).
Local Abbreviation M A := (run BcWriter CodeTooBig A).
Local Abbreviation I A := (run (BcFrame V * H) E A).
Local Abbreviation out := (out V H E).
Local Abbreviation dest := (dest V H TC D KM).
Local Abbreviation Expr := (Spanned (ExprCompiled V TC D)).
Local Abbreviation Target := (Spanned (AssignCompiledValue V TC D)).
Context {mk : bool}.
Implicit Types (w F : BcWriter) (m : Mach) (s : St V H) (B : nat → Prop) (P : Mach → Prop) (e : Expr) (h : H).

(** ** Unpacking *)

Fixpoint set_frs (xs : list nat) (vs : list V) (fr : BcFrame V) : BcFrame V :=
  match xs, vs with x :: xs, v :: vs => set_frs xs vs (set_fr x v fr) | _, _ => fr end.
Fixpoint puts (xs : list nat) (vs : list V) s : St V H :=
  match xs, vs with x :: xs, v :: vs => puts xs vs (put x v s) | _, _ => s end.

Lemma unpack_loop_ok it xs i (fr : BcFrame V) h :
  Forall (λ x, x < length (fr_slots fr)) xs →
  match unpack_items (E:=E) it (length xs) i h with
  | (Ok vs, h') => unpack_loop (E:=E) it xs i (fr, h) = (Ok (), (set_frs xs vs fr, h'))
  | (Err e, h') => False
  | (Fault f, h') => (unpack_loop (E:=E) it xs i (fr, h)).1 = Fault f
  end.
Proof.
  revert i fr h. induction xs as [|x xs IH]; intros i fr h Hxs; simpl; unfold mbind, run_bind, heap_run.
  - destruct (iter_next it i h) as [[v|] h1]; done.
  - apply Forall_cons in Hxs as [Hx Hxs]. destruct (iter_next it i h) as [[v|] h1]; [|done].
    rewrite set_bc_slot_ok by done.
    specialize (IH (i + 1) (set_fr x v fr) h1). simpl in IH. rewrite length_insert in IH. specialize (IH Hxs).
    by destruct (unpack_items it (length xs) (i + 1) h1) as [[vs|e|f] h2].
Qed.
Lemma agree_puts F xs vs s m ip h :
  agree F s m → agree F (puts xs vs (mkSt (st_locals s) h)) (mkMach ip (set_frs xs vs (m_frame m)) h).
Proof.
  revert vs s m. induction xs as [|x xs IH]; intros [|v vs] s m Ag; try by eapply agree_heap in Ag.
  exact (IH vs (put x v (mkSt (st_locals s) h)) (mkMach ip (set_fr x v (m_frame m)) h) (agree_set F s m x v ip h Ag)).
Qed.
Lemma keep_puts w xs vs m ip h : keep (λ y, y ∈ xs) w m (mkMach ip (set_frs xs vs (m_frame m)) h).
Proof.
  revert vs m. induction xs as [|x xs IH]; intros [|v vs] m; try by split; eauto.
  simpl. eapply keep_trans; [exact (keep_set w x v ip m h)|exact (IH vs (mkMach ip (set_fr x v (m_frame m)) h))|done|done|].
  intros y _ [->|?]; [by left|by right].
Qed.
Lemma range_puts xs vs m ip h :
  NoDup xs → Forall (λ x, x < length (fr_slots (m_frame m))) xs → length vs = length xs →
  range_holds xs vs (mkMach ip (set_frs xs vs (m_frame m)) h).
Proof.
  intros Hd. revert vs m. induction Hd as [|x xs Hx Hd IH]; intros [|v vs] m Hxs Hl; try done; [constructor|].
  apply Forall_cons in Hxs as [Hlt Hxs]. specialize (IH vs (mkMach ip (set_fr x v (m_frame m)) h)). simpl in *. constructor.
  - destruct (kp_slots _ _ _ _ (keep_puts (mkWriter [] [] (mkStmtLocs [] []) (S x) 0 [] 0 [] 0 : BcWriter) xs vs
      (mkMach ip (set_fr x v (m_frame m)) h) ip h) x v) as (v' & Hv' & Hn); [unfold w_top; simpl; lia|by apply holds_set|].
    pose proof (Hn Hx) as ->. done.
  - apply IH; [|lia]. by rewrite length_insert.
Qed.

(** The items go to the slots [xs]. *)
Definition to_slots (Lend : BcAddr) (xs : list nat) : dest (list V) :=
  mkDest (puts xs) (λ vs m, NoDup xs → range_holds xs vs m) (λ _, None) Lend.
Lemma writes_unpack sp slot xs v w Lend :
  wfw w → Forall (λ x, x < w_top w) xs →
  writes mk (write_instr sp (InstrUnpack slot xs)) w (holds slot v) (λ _ s, at_span sp (unpack (length xs) v) s)
    (λ y, y ∈ xs) (to_slots Lend xs).
Proof.
  intros Hw Hxs. apply writes_instr; [done..|]. intros F n s m Hat Hv. pose proof (at_agree _ _ _ _ Hat) as Ag.
  assert (Forall (λ x, x < length (fr_slots (m_frame m))) xs) as Hlt.
  { eapply Forall_impl; [exact Hxs|]. pose proof (at_top _ _ _ _ Hat). simpl. lia. }
  unfold instr_does. simpl. unfold run_InstrUnpack. rewrite (bind_get _ _ _ _ Hv). unfold at_span, unpack.
  unfold mbind at 1, run_bind at 1, heap_op. rewrite (ag_heap _ _ _ Ag).
  destruct (v_length v (st_heap s)) as [[nvl|e|f] h1]; [|done..]. destruct (negb _); [done|].
  unfold mbind at 1, run_bind at 1. destruct (v_iterate v h1) as [[it|e|f] h2]; [|done..].
  pose proof (unpack_loop_ok it xs 0 (m_frame m) h2 Hlt) as Hl.
  destruct (unpack_items it (length xs) 0 h2) as [[vs|e|f] h3] eqn:Hu; [|done|].
  2: { destruct (unpack_loop it xs 0 (m_frame m, h2)) as [r [fr' h']]. simpl in Hl. by subst. }
  rewrite Hl. eexists vs, _. split; [done|]. split; [done|]. intros ip.
  split; [by apply agree_puts|]. split; [apply keep_puts|]. intros Hd. apply range_puts; [done..|].
  by apply unpack_items_len in Hu.
Qed.

(** A result that goes on to what the code has done already. *)
Lemma writes_absorb {A T} (mm : M T) w P (r : nat → St V H → option (out A)) (f : nat → A → St V H → option (out ())) B (R : dest A) Lend :
  writes mk mm w P r B R → d_end R = Lend → (∀ a, d_exit R a = None) →
  (∀ n s a s', r n s = Some (Done a s') → length (st_locals (d_res R a s')) = w_local_count w → f n a s' = ret () (d_res R a s')) →
  writes mk mm w P (λ n s, do a, s <~ r n s; f n a s) B (effect Lend).
Proof.
  intros Hr He Hx Hf. eapply wp_mono; [exact Hr|]. intros _ w' (new & Hn & Hruns). exists new. split; [done|].
  intros F HF Hres n s m Hm HPm. simpl in Hres. rewrite <- He in Hres.
  eapply sim_bind; [by apply Hruns|]. intros a s' m' Ha [K HR]. unfold reach in HR. rewrite Hx in HR. destruct HR as [Hm' _].
  erewrite Hf; [|done|by eapply rel_ctx_len]. by apply sim_ret.
Qed.
Lemma length_puts xs vs s : length (st_locals (puts xs vs s)) = length (st_locals s).
Proof. revert vs s. induction xs as [|x xs IH]; intros [|v vs] s; try done. simpl. rewrite IH. simpl. apply length_insert. Qed.
Lemma puts_temp a k vs s : length (st_locals s) ≤ a → puts (seq a k) vs s = s.
Proof.
  revert a vs. induction k as [|k IH]; intros a [|v vs] Ha; try done. simpl. rewrite put_temp by done. apply IH. lia.
Qed.
Lemma assign_locals n (xs : list Target) args vs s :
  all_local xs = Some args → length vs = length xs → Forall (λ x, x < length (st_locals s)) args →
  assign_list (λ x : Target, assign n (span x) (node x)) xs vs s = ret () (puts args vs s).
Proof.
  unfold all_local. revert args vs s. induction xs as [|x xs IH]; intros args vs s; simpl.
  { intros [= <-]. by destruct vs. }
  intros (y & Hy & (args' & Ha & [= <-])%bind_Some)%bind_Some Hl [Hlt Hargs]%Forall_cons. destruct vs as [|v vs]; [done|].
  destruct x as [sp x]. simpl in *. destruct x; simpl in Hy; simplify_eq. simpl. unfold set_local.
  rewrite (proj2 (Nat.ltb_lt _ _) Hlt). simpl. apply IH; [done|simpl in Hl; lia|]. simpl. by rewrite length_insert.
Qed.

(** Where the slots hold nothing, the code does not matter. *)
Lemma writes_never {A T} (mm : M T) w P P' (r r' : nat → St V H → option (out A)) B B' (R : dest A) :
  writes mk mm w P r B R → (∀ m, ¬ P' m) → writes mk mm w P' r' B' R.
Proof.
  intros Hr HP. eapply wp_mono; [exact Hr|]. intros _ w' (new & Hn & _). exists new. split; [done|].
  intros F _ _ n s m _ HPm. by destruct (HP m).
Qed.
End targets.

Section target_rules.
Context `{W : World V H E TC D KM MB} `{!WorldOk V H E TC D KM MB} `{!InstrLayout V TC D KM}.
Local Abbreviation BcWriter := (BcWriter V TC D KM).
Local Abbreviation Mach := (Mach (V:=V) (H:=H)).
Local Abbreviation M A := (run BcWriter CodeTooBig A).
Local Abbreviation I A := (run (BcFrame V * H) E A).
Local Abbreviation out := (out V H E).
Local Abbreviation dest := (dest V H TC D KM).
Local Abbreviation Expr := (Spanned (ExprCompiled V TC D)).
Local Abbreviation Target := (Spanned (AssignCompiledValue V TC D)).
Implicit Types (w F : BcWriter) (m : Mach) (s : St V H) (B : nat → Prop) (P : Mach → Prop) (e : Expr) (h : H).

Definition targets_bound (xs : list Target) : list nat := flat_map (λ x : Target, target_bound (node x)) xs.
Lemma targets_below lc (xs : list Target) : Forall (good_target lc) xs → below lc (targets_bound xs).
Proof.
  induction 1 as [|x xs [_ Hx] Hxs IH]; [apply below_nil|]. apply below_app; [|done]. by apply (bound_below lc).
Qed.
Lemma writes_assign_slots lc (xs : list Target) : ∀ a vs w Lend,
  Forall (good_target lc) xs → length vs = length xs → wfw w → w_local_count w = lc → lc ≤ a → a + length xs ≤ w_top w →
  writes false (assign_slots (λ x, write_assign (span x) (node x)) xs (seq a (length xs))) w
    (range_holds (seq a (length xs)) vs) (λ n s, assign_list (λ x : Target, assign n (span x) (node x)) xs vs s)
    (is_bound (targets_bound xs)) (effect Lend).
Proof.
  induction xs as [|x xs IH]; intros a vs w Lend Hg Hl Hw Hlc Ha Htop.
  - destruct vs; [|done]. apply wp_ret. exists []. split; [by apply written_refl|]. intros F HF _ n s m Hm _. apply sim_ret.
    split; [apply keep_refl|]. by split.
  - destruct vs as [|v vs]; [done|]. simpl in Hl, Htop. pose proof (targets_below lc _ Hg) as Hb.
    apply Forall_cons in Hg as [[Hx Hwf] Hg]. simpl seq. simpl assign_slots.
    apply (writes_seq (λ n s, assign n (span x) (node x) v s)
      (λ _ n s, assign_list (λ x : Target, assign n (span x) (node x)) xs vs s) _ (λ _, range_holds (seq (S a) (length xs)) vs)
      (is_bound (target_bound (node x))) (is_bound (targets_bound xs)) _ (effect Lend) (effect Lend))
      with (r := λ _ n s, assign_list (λ x : Target, assign n (span x) (node x)) xs vs s).
    + eapply writes_pre; [apply (Hx Hwf w v a); [done|done|lia|]|].
      * intros Hin%target_reads_bound. assert (a < lc); [|lia]. apply Hb, elem_of_app. by left.
      * intros m Hm. by inversion Hm.
    + split; try done.
      * intros [] m m' _ Hm K _. inversion Hm as [|? ? ? ? _ Hvs]; subst. eapply stable_range; [|exact Hvs|exact K].
        apply Forall_forall. intros y [Hy1 Hy2]%elem_of_seq. split; [lia|]. intros Hin. assert (y < w_local_count w); [|lia].
        apply Hb, elem_of_app. by left.
      * intros y _ [?|?]; apply elem_of_app; auto.
    + intros [] w1 C Hs [] _. pose proof (ctx_top _ _ C). apply IH; [done|lia|apply C|by rewrite (cx_lc _ _ C)|lia|lia].
    + by exists ().
Qed.

Lemma target_tuple lc sp (xs : list Target) : Forall (good_target lc) xs → target_ok lc (mkSpanned sp (AssignTuple xs)).
Proof.
  intros Hg _ w v slot Lend Hw Hlc Hslot _. simpl.
  destruct (all_local xs) as [args|] eqn:Hargs.
  - assert (length args = length xs) as Hlen by (symmetry; by eapply Forall2_length, mapM_Some_1).
    assert (Forall (λ x, x < lc ∧ x ∈ targets_bound xs) args) as Hlt.
    { clear -Hargs Hg. unfold all_local in Hargs. revert args Hargs. induction Hg as [|x xs [_ Hwf] Hg IH]; intros args; simpl; [by intros [= <-]|].
      intros (y & Hy & (args' & Ha & [= <-])%bind_Some)%bind_Some. destruct x as [sx x]. destruct x; simpl in *; simplify_eq.
      apply Nat.ltb_lt in Hwf. constructor; [split; [done|by left]|]. eapply Forall_impl; [by apply IH|]. intros z [? ?]. split; [done|by right]. }
    eapply writes_mono.
    + apply (writes_absorb _ w (holds slot v) (λ _ s, at_span sp (unpack (length args) v) s)
        (λ n vs s, assign_list (λ x : Target, assign n (span x) (node x)) xs vs s) (λ y, y ∈ args) (to_slots Lend args) Lend).
      * apply writes_unpack; [done|]. eapply Forall_impl; [exact Hlt|]. intros x [? _]. unfold w_top. lia.
      * done.
      * done.
      * intros n s vs s' Hu Hl. simpl in Hl |- *. rewrite length_puts in Hl. apply assign_locals; [done| |].
        -- unfold at_span in Hu. destruct (unpack (length args) v (st_heap s)) as [[vs'|e|f] h] eqn:Hun; [|done..].
           unfold ret in Hu. simplify_eq. apply unpack_len in Hun. congruence.
        -- eapply Forall_impl; [exact Hlt|]. intros x [? _]. lia.
    + done.
    + intros n s. simpl. by rewrite Hlen.
    + intros y _ Hy. rewrite Forall_forall in Hlt. by apply Hlt in Hy as [_ ?].
  - set (a := w_top w). pose proof (pushed_ctx (length xs) w Hw) as C1. pose proof (pushed_top (length xs) w) as Ht1.
    assert (lc ≤ a) as Ha by (unfold a; rewrite <- Hlc; unfold w_top; lia). pose proof (targets_below lc _ Hg) as Hb.
    apply (writes_alloc_slots _ _ _ _ _ (λ y, y ∈ targets_bound xs ∨ a ≤ y)); [done| |intros y Hy [?|?]; [done|unfold a in *; lia]].
    fold a. unfold range_len. simpl. replace (a + length xs - a) with (length xs) by lia.
    apply (writes_seq (λ n s, at_span sp (unpack (length xs) v) s) (λ vs n s, assign_list (λ x : Target, assign n (span x) (node x)) xs vs s)
      _ (λ vs, range_holds (seq a (length xs)) vs) (λ y, y ∈ seq a (length xs)) (is_bound (targets_bound xs)) _
      (to_slots Lend (seq a (length xs))) (effect Lend))
      with (r := λ vs n s, assign_list (λ x : Target, assign n (span x) (node x)) xs vs s).
    + pose proof (writes_unpack (mk:=false) sp slot (seq a (length xs)) v (pushed (length xs) w) Lend) as Hu. rewrite length_seq in Hu.
      apply Hu; [apply C1|]. apply Forall_seq. unfold a. lia.
    + split; try done.
      * intros vs n s _. simpl. rewrite length_puts. intros Hl. rewrite puts_temp; [done|]. rewrite Hl. simpl. unfold a. lia.
      * intros vs m m' _ _ _ Hvs. apply Hvs, NoDup_seq.
      * intros y _ [Hy|?]; [right; apply elem_of_seq in Hy; lia|by left].
    + intros [] w1 C Hs vs _. pose proof (ctx_top _ _ C). apply writes_marks. destruct (decide (length vs = length xs)) as [Hl|Hl].
      * apply (writes_assign_slots lc); [done|done|apply C|by rewrite (cx_lc _ _ C)|lia|unfold a in *; lia].
      * eapply writes_never; [apply (writes_assign_slots lc xs a (replicate (length xs) new_none) w1 Lend)|].
        -- done.
        -- apply length_replicate.
        -- apply C.
        -- by rewrite (cx_lc _ _ C).
        -- done.
        -- unfold a in *. lia.
        -- intros m Hm%Forall2_length. rewrite length_seq in Hm. done.
    + by exists [].
Qed.

(** ** The other targets *)

Lemma target_dot lc sp (e : Expr) field : good lc e → target_ok lc (mkSpanned sp (AssignDot e field)).
Proof.
  intros He _ w v slot Lend Hw Hlc Hslot Hr. simpl in *.
  apply (writes_cb lc e _ w _ (λ o n s, at_span sp (set_attr o field v) s) (λ _, False)); try done; [by apply stable_holds| |intros x _ [?|[]]; done].
  intros x w1 o C Hx _. apply (writes_effect _ _ _ _ (set_attr o field v)); [apply C|done| |done].
  intros m [Hv Ho]. simpl. unfold run_InstrSetObjectField. by rewrite (bind_get _ _ _ _ Hv), (bind_get _ _ _ _ Ho).
Qed.
Lemma target_index lc sp (a i : Expr) :
  good lc a → good lc i → held (node a) (bound (node i)) = true → target_ok lc (mkSpanned sp (AssignIndex a i)).
Proof.
  intros Ha Hi Hh _ w v slot Lend Hw Hlc Hslot Hr. simpl in *.
  apply (writes_2 lc a i _ w _ (λ av iv n s, at_span sp (set_at av iv v) s) (λ _, False)); try done.
  - apply stable_holds; [done|]. rewrite <- elem_of_app. done.
  - intros x y w1 av iv C Hx Hy. apply (writes_effect _ _ _ _ (set_at av iv v)); [apply C|done| |done].
    intros m (Hv & Hav & Hiv). simpl. unfold run_InstrSetArrayIndex.
    by rewrite (bind_get _ _ _ _ Hv), (bind_get _ _ _ _ Hav), (bind_get _ _ _ _ Hiv).
  - intros x _ [?|[?|[]]]; apply elem_of_app; auto.
Qed.
Lemma target_local lc sp x : target_ok lc (mkSpanned sp (AssignLocal x)).
Proof.
  intros Hwf w v slot Lend Hw Hlc Hslot _. simpl in Hwf. apply Nat.ltb_lt in Hwf.
  eapply writes_mono; [apply (writes_set_local _ w (holds slot v) (λ _ s, ret v s) (λ y, y = x) x Lend)|done|done|].
  - done.
  - lia.
  - apply writes_mov; [done|done|unfold w_top; lia|done].
  - intros y _ ->. by left.
Qed.
Lemma target_captured lc sp x : target_ok lc (mkSpanned sp (AssignLocalCaptured x)).
Proof.
  intros Hwf w v slot Lend Hw Hlc Hslot _. simpl in Hwf. apply Nat.ltb_lt in Hwf.
  eapply writes_mono; [apply (writes_store_captured sp slot x v w (holds slot v) Lend)|done|done|done]; try done. lia.
Qed.
Lemma target_module lc sp x name : target_ok lc (mkSpanned sp (AssignModule x name)).
Proof.
  intros _ w v slot Lend Hw Hlc Hslot _. simpl.
  pose (o := (λ h, match export_as v name h with
                  | (Ok _, h) => (Ok (), set_slot_module x v h) | (Err e, h) => (Err e, h) | (Fault f, h) => (Fault f, h) end) : Op H E ()).
  eapply writes_mono; [apply (writes_effect _ _ w (holds slot v) o (λ _ s, at_span sp o s)); [done|done| |done]|done| |done].
  - intros m Hv. simpl. unfold run_InstrStoreModuleAndExport. rewrite (bind_get _ _ _ _ Hv). unfold mbind, run_bind, heap_op, heap_set, o.
    by destruct (export_as v name (m_heap m)) as [[[]|e|f] h].
  - intros n s. unfold at_span, o. by destruct (export_as v name (st_heap s)) as [[[]|e|f] h].
Qed.
End target_rules.

(** Expressions: the code of every well-formed expression puts its value into a slot, and as a
    condition it goes on where its truth says. *)

Section expr.
Context `{W : World V H E TC D KM MB} `{!WorldOk V H E TC D KM MB} `{!InstrLayout V TC D KM}.
Local Abbreviation BcWriter := (BcWriter V TC D KM).
Local Abbreviation Mach := (Mach (V:=V) (H:=H)).
Local Abbreviation M A := (run BcWriter CodeTooBig A).
Local Abbreviation out := (out V H E).
Local Abbreviation Expr := (Spanned (ExprCompiled V TC D)).
Local Abbreviation Target := (Spanned (AssignCompiledValue V TC D)).
Context (lc : nat).
Implicit Types (w F : BcWriter) (m : Mach) (s : St V H) (B : nat → Prop) (P : Mach → Prop) (e : Expr) (h : H).

(** ** Comprehensions *)

Lemma writes_compr sp (new : nat → Instr V TC D KM) (o : H → V * H) (term : nat → M ())
    (rt : V → nat → St V H → option (out ())) (bt : list nat) cs w x Lend :
  (∀ y m, does (new y) (total o) y m) → (∀ y, no_flow (new y) = true) →
  (∀ y l w2 Lend, y < w_top w2 → lc ≤ y → wfw w2 → w_local_count w2 = lc →
    writes true (term y) w2 (holds y l) (rt l) (is_bound bt) (effect Lend)) →
  below lc bt → Forall (clause_ok lc) cs → Forall (λ c, wf_clause lc c = true) cs → 1 ≤ length cs →
  wfw w → w_local_count w = lc → x < w_top w →
  writes false (alloc_slot (λ y,
      _ ← (_ ← write_instr sp (new y); _ ← w_assert (1 <=? length cs); write_clauses write_clause cs (term y));
      write_mov sp y x)) w (λ _, True)
    (λ n s, do l, s <~ with_heap o s; do _u, s <~ run_clauses (eval_clause n) cs (rt l n) s; ret l s)
    (λ y, (y ∈ bt ∨ y ∈ clauses_bound cs) ∨ y = x) (to_slot Lend x).
Proof.
  intros Hnew Hflow Hterm Hbt Hcs Hwf Hlen Hw Hlc Hx. set (t := w_top w).
  pose proof (pushed_ctx 1 w Hw) as C1. pose proof (pushed_top 1 w) as Ht1. fold t in Ht1, Hx.
  assert (lc ≤ t) as Ht by (unfold t; rewrite <- Hlc; unfold w_top; lia).
  assert (below lc (clauses_bound cs)) as Hbc.
  { apply (below_flat_map lc clause_bound (wf_clause lc)).
    - apply Forall_forall. intros c _. apply (bound_below lc).
    - apply forallb_forall. intros c Hc%list_elem_of_In. rewrite Forall_forall in Hwf. by apply Hwf. }
  set (B := λ y, (y ∈ bt ∨ y ∈ clauses_bound cs) ∨ y = x).
  apply (writes_alloc_slot _ _ _ _ (λ y, y = t ∨ B y)); [done| |intros y Hy [->|?]; [unfold t in *; lia|done]]. fold t.
  eapply wp_equiv; [intros s; apply run_bind_assoc|].
  apply (writes_seq (λ _ s, with_heap o s) (λ l n s, do _u, s <~ run_clauses (eval_clause n) cs (rt l n) s; ret l s)
    _ (λ l, holds t l) (λ y, y = t) B _ (to_slot Lend t) (to_slot Lend x))
    with (r := λ l n s, do _u, s <~ run_clauses (eval_clause n) cs (rt l n) s; ret l s).
  - apply (writes_total sp (new t) o); [apply C1|done|lia|done].
  - split; try done. intros l n s _. simpl. rewrite length_insert. intros Hl. rewrite put_temp; [done|lia].
  - intros [] w1 C Hs l _. pose proof (ctx_top _ _ C) as Htop. pose proof (cx_lc _ _ C) as Hlc1. simpl in Hlc1.
    eapply wp_equiv; [intros s; apply run_bind_assoc|]. apply wp_bind, w_assert_wp; [by apply Nat.leb_le|].
    assert (stable (H:=H) w1 (λ y, y ∈ clauses_bound cs ∨ is_bound bt y) (holds t l)) as Hst.
    { apply stable_holds; [lia|]. intros [Hy|Hy]; [apply Hbc in Hy|apply Hbt in Hy]; lia. }
    apply (writes_seq (λ n s, run_clauses (eval_clause n) cs (rt l n) s) (λ _ _ s, ret l s) _ (λ _, holds t l)
      (λ y, y ∈ clauses_bound cs ∨ is_bound bt y) (λ y, y = x) _ (effect Lend) (to_slot Lend x)) with (r := λ _ _ s, ret l s).
    + eapply (writes_clauses lc); [done|done|by destruct cs; [simpl in Hlen; lia|]|apply C|congruence|exact Hst|exact Hbt| |done].
      intros w2 Lend2 L. pose proof (lt_top _ _ L). pose proof (lt_count _ _ L).
      apply Hterm; [lia|done|apply L|congruence].
    + split; try done.
      * intros u m m' _ Hm K _. by eapply Hst.
      * unfold B, is_bound. intros y _. tauto.
    + intros [] w2 C2 Hs2 [] _. pose proof (ctx_top _ _ C2). apply writes_mov; [apply C2|lia|lia|done].
    + by exists ().
  - by exists new_none.
Qed.
Definition compr_ok (c : ComprCompiled V TC D) : Prop :=
  wf_compr lc c = true → ∀ sp w x Lend, wfw w → w_local_count w = lc → x < w_top w →
  writes false (write_compr sp c x) w (λ _, True) (λ n s, eval_compr n sp c s) (λ y, y ∈ compr_bound c ∨ y = x) (to_slot Lend x).
Lemma forallb_Forall {A} (p : A → bool) l : forallb p l = true → Forall (λ x, p x = true) l.
Proof. intros Hl. apply Forall_forall. intros x Hx. eapply (proj1 (forallb_forall _ _) Hl). by apply list_elem_of_In. Qed.
Lemma good_below e : good lc e → below lc (bound (node e)).
Proof. intros [_ He]. by apply (bound_below lc). Qed.
Lemma write_compr_list sp (x : Expr) cs target :
  write_compr sp (ComprList x cs) target =
  alloc_slot (λ y,
    _ ← (_ ← write_instr sp (InstrListNew y); _ ← w_assert (1 <=? length cs);
         write_clauses write_clause cs (cb write x (λ slot, write_instr (span x) (InstrComprListAppend y slot))));
    write_mov sp y target).
Proof. reflexivity. Qed.
Lemma write_compr_dict sp (k v : Expr) cs target :
  write_compr sp (ComprDict k v cs) target =
  alloc_slot (λ y,
    _ ← (_ ← write_instr sp (InstrDictNew y); _ ← w_assert (1 <=? length cs);
         write_clauses write_clause cs
           (write_2_exprs write k v (λ ks vs, write_instr (span k) (InstrComprDictInsert y ks vs))));
    write_mov sp y target).
Proof. reflexivity. Qed.
Lemma compr_list_ok (x : Expr) cs : expr_ok lc x → Forall (clause_ok lc) cs → compr_ok (ComprList x cs).
Proof.
  intros Hx Hcs Hwf sp w target Lend Hw Hlc Ht. simpl in Hwf. bool_to_prop.
  assert (good lc x) as Hg by done. pose proof (good_below _ Hg) as Hb.
  rewrite write_compr_list.
  eapply writes_mono; [apply (writes_compr sp InstrListNew (h_alloc_list [])
    (λ y, cb write x (λ slot, write_instr (span x) (InstrComprListAppend y slot)))
    (λ l n s, do v, s <~ ev n x s; at_span (span x) (list_push l v) s) (bound (node x)) cs w target Lend)|done| |].
  - intros y m. apply list_new_does.
  - done.
  - intros y l w2 Lend2 Hy1 Hy2 Hw2 Hlc2.
    apply (writes_cb lc x _ w2 _ (λ v n s, at_span (span x) (list_push l v) s) (λ _, False)); try done.
    + apply stable_holds; [done|]. intros Hin%Hb. lia.
    + intros z w3 v C Hz _. apply (writes_effect _ _ _ _ (list_push l v)); [apply C|done| |done].
      intros m [Hl Hv]. simpl. unfold run_InstrComprListAppend. by rewrite (bind_get _ _ _ _ Hl), (bind_get _ _ _ _ Hv).
    + by intros z _ [?|[]].
  - done.
  - done.
  - by apply forallb_Forall.
  - by apply Nat.leb_le.
  - done.
  - done.
  - done.
  - done.
  - intros y _. simpl. rewrite elem_of_app. done.
Qed.
Lemma compr_dict_ok (k v : Expr) cs :
  expr_ok lc k → expr_ok lc v → Forall (clause_ok lc) cs → compr_ok (ComprDict k v cs).
Proof.
  intros Hk Hv Hcs Hwf sp w target Lend Hw Hlc Ht. simpl in Hwf. bool_to_prop.
  assert (good lc k) as Hgk by done. assert (good lc v) as Hgv by done.
  assert (below lc (bound (node k) ++ bound (node v))) as Hb by (by apply below_app; apply good_below).
  rewrite write_compr_dict.
  eapply writes_mono; [apply (writes_compr sp InstrDictNew (h_alloc_dict [])
    (λ y, write_2_exprs write k v (λ ks vs, write_instr (span k) (InstrComprDictInsert y ks vs)))
    (λ d n s, do kv, s <~ ev n k s; do vv, s <~ ev n v s; at_span (span k) (compr_insert d kv vv) s)
    (bound (node k) ++ bound (node v)) cs w target Lend)|done| |].
  - intros y m. apply dict_new_does.
  - done.
  - intros y d w2 Lend2 Hy1 Hy2 Hw2 Hlc2.
    apply (writes_2 lc k v _ w2 _ (λ kv vv n s, at_span (span k) (compr_insert d kv vv) s) (λ _, False)); try done.
    + apply stable_holds; [done|]. rewrite <- elem_of_app. intros Hin%Hb. lia.
    + intros z1 z2 w3 kv vv C _ _. apply (writes_effect _ _ _ _ (compr_insert d kv vv)); [apply C|done| |done].
      intros m (Hd & Hkv & Hvv). simpl. unfold run_InstrComprDictInsert.
      rewrite (bind_get _ _ _ _ Hd), (bind_get _ _ _ _ Hkv), (bind_get _ _ _ _ Hvv).
      unfold mbind, run_bind, heap_op, compr_insert, run_result. by destruct (get_hashed kv).
    + intros z _ [?|[?|[]]]; apply elem_of_app; auto.
  - done.
  - done.
  - by apply forallb_Forall.
  - by apply Nat.leb_le.
  - done.
  - done.
  - done.
  - done.
  - intros y _. simpl. rewrite !elem_of_app. tauto.
Qed.

(** ** Parts *)

(** An expression that is evaluated for its effects. *)
Lemma obind_ret {A} (r : option (out A)) : obind r (λ a s, ret a s) = r.
Proof. by destruct r as [[a s|o]|]. Qed.
Lemma writes_discard mk e w P Lend :
  good lc e → wfw w → w_local_count w = lc → stable w (is_bound (bound (node e))) P →
  writes mk (cb write e (λ _, mret ())) w P (λ n s, ev n e s) (is_bound (bound (node e))) (effect Lend).
Proof.
  intros He Hw Hlc HP. eapply writes_ext.
  - apply (writes_cb lc e (λ _, mret ()) w P (λ v n s, ret v s) (λ _, False)); try done; [|by intros x _ [?|[]]].
    intros x w1 v C _ _. apply wp_ret. exists []. split; [apply written_refl, C|]. intros F HF _ n s m Hm _. apply sim_ret.
    split; [apply keep_refl|]. by split.
  - intros n s. simpl. by rewrite obind_ret.
Qed.

Definition node_ok (e : ExprCompiled V TC D) : Prop := ∀ sp, expr_ok lc (mkSpanned sp e) ∧ cond_ok lc (mkSpanned sp e).
Definition object_ok (e : ExprCompiled V TC D) : Prop :=
  match e with ExprBuiltin1 _ e => expr_ok lc e | _ => True end.
Definition deep_ok (e : ExprCompiled V TC D) : Prop := node_ok e ∧ object_ok e.
Lemma deep_expr e : deep_ok (node e) → expr_ok lc e.
Proof. intros [He _]. destruct e as [sp e]. apply He. Qed.
Lemma deep_cond e : deep_ok (node e) → cond_ok lc e.
Proof. intros [He _]. destruct e as [sp e]. apply He. Qed.
(** A condition that is not taken apart. *)
Lemma plain_ok (e : ExprCompiled V TC D) :
  (∀ op c, e = ExprBuiltin1 op c → op ≠ Not) → (∀ op x y, e ≠ LogicalBinOp op x y) →
  (∀ sp, expr_ok lc (mkSpanned sp e)) → node_ok e.
Proof.
  intros Hn Hl He sp. split; [apply He|]. intros Hwf w mn t f Hw Hlc. by apply (cond_default lc (mkSpanned sp e)).
Qed.
Lemma Forall_good (xs : list Expr) :
  Forall (on deep_ok) xs → forallb (λ e, wf_expr lc (node e)) xs = true → Forall (good lc) xs.
Proof.
  induction 1 as [|e xs He Hxs IH]; simpl; [constructor|]. intros [Hwf Hwfs]%andb_true_iff.
  constructor; [|auto]. split; [by apply deep_expr|done].
Qed.
Lemma option_good (o : option Expr) :
  on_option deep_ok o → match o with Some e => wf_expr lc (node e) | None => true end = true → good_option lc o.
Proof. destruct o as [e|]; [|done]. intros He Hwf. split; [by apply deep_expr|done]. Qed.

(** ** The cases *)

Lemma ok_tuple xs : Forall (on deep_ok) xs → node_ok (Tuple xs).
Proof.
  intros Hxs. apply plain_ok; [done..|]. intros sp Hwf w x Lend Hw Hlc Hx.
  apply (writes_range lc sp xs (λ rg, InstrTupleNPop rg x) h_alloc_tuple x w Lend); [by apply Forall_good|done..|].
  intros rg vs m. apply tuple_does.
Qed.
Lemma ok_list xs : Forall (on deep_ok) xs → node_ok (List_ xs).
Proof.
  intros Hxs. apply plain_ok; [done..|]. intros sp Hwf w x Lend Hw Hlc Hx.
  apply (writes_list lc sp xs x w Lend); [by apply Forall_good|done..].
Qed.
Lemma ok_dict kvs : Forall (λ kv : Expr * Expr, deep_ok (node kv.1) ∧ deep_ok (node kv.2)) kvs → node_ok (Dict_ kvs).
Proof.
  intros Hkvs. apply plain_ok; [done..|]. intros sp Hwf w x Lend Hw Hlc Hx. simpl in Hwf.
  assert (Forall (λ kv, good lc kv.1 ∧ good lc kv.2) kvs) as Hg.
  { clear -Hkvs Hwf. induction Hkvs as [|[k v] kvs [Hk Hv] Hkvs IH]; [constructor|]. simpl in *. bool_to_prop.
    constructor; [|auto]. split; (split; [by apply deep_expr|done]). }
  eapply writes_mono; [exact (writes_dict (mk:=false) lc sp kvs x w Lend Hg Hw Hlc Hx)|done|done|].
  intros y _ [Hy|?]; [left|by right]. unfold bounds, flatten in Hy. simpl. clear -Hy.
  induction kvs as [|[k v] kvs IH]; [done|]. simpl in Hy |- *. rewrite <- app_assoc. rewrite !elem_of_app in *.
  destruct Hy as [?|[?|?]]; auto.
Qed.
Lemma ok_compr c : compr_ok c → node_ok (Compr c).
Proof.
  intros Hc. apply plain_ok; [done..|]. intros sp Hwf w x Lend Hw Hlc Hx. exact (Hc Hwf sp w x Lend Hw Hlc Hx).
Qed.
Lemma ok_if (c t f : Expr) : cond_ok lc c → expr_ok lc t → expr_ok lc f → node_ok (If_ c t f).
Proof.
  intros Hc Ht Hf. apply plain_ok; [done..|]. intros sp Hwf w x Lend Hw Hlc Hx. simpl in Hwf. bool_to_prop.
  assert (∀ e w1, expr_ok lc e → wf_expr lc (node e) = true → ctx w w1 →
    writes true (write e x) w1 (λ _, True) (λ n s, ev n e s) (λ y, (y ∈ bound (node e)) ∨ y = x) (to_slot Lend x)) as Harm.
  { intros e w1 He Hwfe C. pose proof (ctx_top _ _ C). apply writes_marks, He; [done|apply C|by rewrite (cx_lc _ _ C)|lia]. }
  eapply writes_mono.
  - apply (writes_if_else lc (λ _, True) (λ n s, ev n t s) (λ n s, ev n f s)
      (λ y, (y ∈ bound (node t) ∨ y ∈ bound (node f)) ∨ y = x)
      (λ y, y ∈ bound (node (mkSpanned sp (If_ c t f))) ∨ y = x) (to_slot Lend x) (dest_ok_slot Lend x) c MaybeId
      (write t x) (Some (write f x)) w Hc); try done.
    + intros w1 C _. eapply writes_mono; [by apply (Harm t)|done|done|]. intros y _ [?|?]; auto.
    + intros w1 C _. eapply writes_mono; [by apply (Harm f)|done|done|]. intros y _ [?|?]; auto.
    + intros y _. simpl. rewrite !elem_of_app. tauto.
  - done.
  - done.
  - done.
Qed.
Lemma ok_seq (a b : Expr) : expr_ok lc a → expr_ok lc b → node_ok (Seq a b).
Proof.
  intros Ha Hb. apply plain_ok; [done..|]. intros sp Hwf w x Lend Hw Hlc Hx. simpl in Hwf. bool_to_prop.
  apply (writes_seq (λ n s, ev n a s) (λ _ n s, ev n b s) (λ _, True) (λ _ _, True) (is_bound (bound (node a)))
    (λ y, y ∈ bound (node b) ∨ y = x) (λ y, y ∈ bound (node (mkSpanned sp (Seq a b))) ∨ y = x) (effect Lend) (to_slot Lend x)
    (cb write a (λ _, mret ())) (λ _, write b x) w (λ _ n s, ev n b s)).
  - by apply writes_discard.
  - split; try done. intros y _. simpl. rewrite elem_of_app. unfold is_bound. tauto.
  - intros [] w1 C _ v _. pose proof (ctx_top _ _ C). apply Hb; [done|apply C|by rewrite (cx_lc _ _ C)|lia].
  - by exists new_none.
Qed.
Lemma ok_leaf :
  (∀ v, node_ok (Value v)) ∧ (∀ x, node_ok (Local x)) ∧ (∀ x, node_ok (LocalCaptured x)) ∧ (∀ x, node_ok (ModuleSlot x)).
Proof.
  split_and!; intros y; (apply plain_ok; [done..|]); intros sp Hwf w x Lend Hw Hlc Hx; simpl in Hwf; try apply Nat.ltb_lt in Hwf.
  - eapply writes_mono; [exact (writes_const (mk:=false) sp y x w (λ _, True) Lend Hw Hx)|done|done|by right].
  - eapply writes_mono; [apply (writes_load_local (mk:=false) sp y x w (λ _, True) Lend); [done|lia|done]|done|done|by right].
  - eapply writes_mono; [apply (writes_load_captured (mk:=false) sp y x w (λ _, True) Lend); [done|lia|done]|done|done|by right].
  - eapply writes_mono; [apply (writes_does (mk:=false) sp (InstrLoadModule y x) w (λ _, True) (get_slot_module y)
      (λ _ s, at_span sp (get_slot_module y) s) x Lend); done|done|done|by right].
Qed.
Lemma ok_builtin1 op (e : Expr) : deep_ok (node e) → deep_ok (ExprBuiltin1 op e).
Proof.
  intros He. pose proof (deep_expr _ He) as Hexpr. split; [|done]. intros sp.
  assert (∀ o, o ≠ Not → expr_ok lc (mkSpanned sp (ExprBuiltin1 o e))) as Hop.
  { intros o Ho Hwf w x Lend Hw Hlc Hx. assert (good lc e) as Hg by done.
    pose proof (writes_1 (mk:=false) lc sp e (λ y, builtin1_instr o y x) (builtin1 o) w x Lend Hg Hw Hlc Hx
      (λ y, builtin1_no_flow o y x) (λ y v m, builtin1_does o y x v m)) as H1. destruct o; try exact H1. done. }
  assert (expr_ok lc (mkSpanned sp (ExprBuiltin1 Not e))) as Hnot.
  { intros Hwf w x Lend Hw Hlc Hx. assert (good lc e) as Hg by done.
    pose proof (writes_1 (mk:=false) lc (span e) e (λ y, builtin1_instr Not y x) (builtin1 Not) w x Lend Hg Hw Hlc Hx
      (λ y, builtin1_no_flow Not y x) (λ y v m, builtin1_does Not y x v m)) as H1.
    eapply writes_ext; [exact H1|]. intros n s. done. }
  assert (∀ o, expr_ok lc (mkSpanned sp (ExprBuiltin1 o e))) as Hall by (intros []; try exact Hnot; by apply Hop).
  split; [apply Hall|]. destruct op; try (by apply cond_not, deep_cond);
    intros Hwf w mn tl fl Hw Hlc; apply (cond_default lc); try done; (split; [apply Hall|done]) || (by intros ? ? [= <- _]).
Qed.
Lemma ok_logical op (a b : Expr) : deep_ok (node a) → deep_ok (node b) → node_ok (LogicalBinOp op a b).
Proof.
  intros Ha Hb sp. split; [|by apply cond_logical; apply deep_cond]. pose proof (deep_expr _ Ha) as Hae. pose proof (deep_expr _ Hb) as Hbe.
  intros Hwf w x Lend Hw Hlc Hx. simpl in Hwf. bool_to_prop.
  eapply writes_mono.
  - apply (writes_cb (mk:=false) lc a
      (λ y, writer_if_else y (match op with And => MaybeId | Or => MaybeNot_ end) (span a) (write b x) (write_mov sp y x)) w (λ _, True)
      (λ v n s, if Bool.eqb (to_bool v (st_heap s)) (bool_decide (op = And)) then ev n b s else ret v s)
      (λ y, y ∈ bound (node b) ∨ y = x) (λ y, y ∈ bound (node a) ∨ y ∈ bound (node b) ∨ y = x) (to_slot Lend x)); try done.
    intros y w1 v C Hy Hop. pose proof (ctx_top _ _ C) as Ht.
    assert (∀ w2, ctx w1 w2 → writes true (write b x) w2 (λ m, True ∧ holds y v m) (λ n s, ev n b s)
      (λ z, z ∈ bound (node b) ∨ z = x) (to_slot Lend x)) as Hbw.
    { intros w2 C2. pose proof (ctx_top _ _ C2). apply (writes_pre _ _ (λ _, True)); [|done].
      apply writes_marks, Hbe; [done|apply C2|by rewrite (cx_lc _ _ C2), (cx_lc _ _ C)|lia]. }
    assert (∀ w2, ctx w1 w2 → writes true (write_mov sp y x) w2 (λ m, True ∧ holds y v m) (λ n s, ret v s)
      (λ z, z ∈ bound (node b) ∨ z = x) (to_slot Lend x)) as Hmov.
    { intros w2 C2. pose proof (ctx_top _ _ C2). eapply writes_mono; [apply (writes_mov (mk:=true) sp y x v w2 (λ m, True ∧ holds y v m) Lend)|done|done|by right].
      - apply C2.
      - lia.
      - lia.
      - by intros m []. }
    assert (stable (H:=H) w1 (λ _, False) (λ m, True ∧ holds y v m)) as Hst by (apply stable_and; [done|]; apply stable_holds; [done|by intros []]).
    destruct op; simpl.
    + eapply writes_ext; [apply (writes_writer_if_else_impl lc (λ m, True ∧ holds y v m) (λ n s, ev n b s) (λ n s, ret v s)
        (λ z, z ∈ bound (node b) ∨ z = x) (λ _, True) (to_slot Lend x) (dest_ok_slot Lend x) y (span a) v); [apply C|done|by intros m []|done|by intros w2 C2 _; apply Hbw|by intros w2 C2 _; apply Hmov]|].
      intros n s. cbn beta. by destruct (to_bool v (st_heap s)).
    + eapply writes_ext; [apply (writes_writer_if_else_impl lc (λ m, True ∧ holds y v m) (λ n s, ret v s) (λ n s, ev n b s)
        (λ z, z ∈ bound (node b) ∨ z = x) (λ _, True) (to_slot Lend x) (dest_ok_slot Lend x) y (span a) v); [apply C|done|by intros m []|done|by intros w2 C2 _; apply Hmov|by intros w2 C2 _; apply Hbw]|].
      intros n s. cbn beta. by destruct (to_bool v (st_heap s)).
  - done.
  - done.
  - intros y _. simpl. rewrite elem_of_app. tauto.
Qed.

Lemma slice_does l a b c x vl va vb vc m :
  holds l vl m → opt_holds a va m → opt_holds b vb m → opt_holds c vc m →
  does (InstrSlice l a b c x) (v_slice vl va vb vc) x m.
Proof.
  intros Hl Ha Hb Hc spans. simpl. unfold run_InstrSlice.
  by rewrite (bind_get _ _ _ _ Hl), (bind_get_option _ _ _ _ Ha), (bind_get_option _ _ _ _ Hb), (bind_get_option _ _ _ _ Hc).
Qed.
(** The slot of an optional operand survives later operands. *)
Lemma ok_slice (l : Expr) a b c :
  expr_ok lc l → on_option deep_ok a → on_option deep_ok b → on_option deep_ok c → node_ok (Slice l a b c).
Proof.
  intros Hl Ha Hb Hc. apply plain_ok; [done..|]. intros sp Hwf w x Lend Hw Hlc Hx. simpl in Hwf. bool_to_prop.
  assert (good lc l) as Gl by done.
  assert (good_option lc a) as Ga by by apply option_good. assert (good_option lc b) as Gb by by apply option_good.
  assert (good_option lc c) as Gc by by apply option_good.
  pose proof (option_below _ _ Ga) as Ba. pose proof (option_below _ _ Gb) as Bb. pose proof (option_below _ _ Gc) as Bc.
  eapply writes_mono.
  - apply (writes_cb (mk:=false) lc l (λ l, write_expr_opt write a (λ start, write_expr_opt write b (λ stop,
        write_expr_opt write c (λ step, write_instr sp (InstrSlice l start stop step x))))) w (λ _, True)
      (λ vl n s, do va, s <~ eval_option (ev n) a s; do vb, s <~ eval_option (ev n) b s;
        do vc, s <~ eval_option (ev n) c s; at_span sp (v_slice vl va vb vc) s)
      (λ y, y ∈ option_bound a ∨ y ∈ option_bound b ∨ y ∈ option_bound c ∨ y = x)
      (λ y, y ∈ bound (node (mkSpanned sp (Slice l a b c))) ∨ y = x) (to_slot Lend x)); try done.
    2: { intros y _. simpl. rewrite !elem_of_app. unfold option_bound. tauto. }
    intros yl w1 vl C1 Hyl Hol. pose proof (ctx_top _ _ C1).
    assert (stable (H:=H) w1 (λ y, y ∈ option_bound a ∨ y ∈ option_bound b ∨ y ∈ option_bound c) (λ m, True ∧ holds yl vl m)) as S1.
    { apply stable_and; [done|]. apply stable_holds; [done|]. rewrite <- !elem_of_app. apply (operand_free lc l); [done..|].
      by apply below_app; [|apply below_app]. }
    apply (writes_opt lc a _ w1 _ (λ va n s, do vb, s <~ eval_option (ev n) b s; do vc, s <~ eval_option (ev n) c s; at_span sp (v_slice vl va vb vc) s)
      (λ y, y ∈ option_bound b ∨ y ∈ option_bound c ∨ y = x)); [done|apply C1|by rewrite (cx_lc _ _ C1)| | |tauto].
    { eapply stable_sub; [exact S1|]. unfold is_bound. tauto. }
    intros oa w2 va C2 Hya Hoa. pose proof (ctx_top _ _ C2).
    assert (stable (H:=H) w2 (λ y, y ∈ option_bound b ∨ y ∈ option_bound c) (λ m, (True ∧ holds yl vl m) ∧ opt_holds oa va m)) as S2.
    { apply stable_and; [by eapply (stable_ctx w1 w2); [done|exact S1|tauto]|].
      eapply stable_sub; [apply (stable_opt_operand lc a oa w2 (option_bound b ++ option_bound c)); try done; by apply below_app|].
      intros y _ Hy. unfold is_bound. by apply elem_of_app. }
    apply (writes_opt lc b _ w2 _ (λ vb n s, do vc, s <~ eval_option (ev n) c s; at_span sp (v_slice vl va vb vc) s)
      (λ y, y ∈ option_bound c ∨ y = x)); [done|apply C2|by rewrite (cx_lc _ _ C2), (cx_lc _ _ C1)| | |tauto].
    { eapply stable_sub; [exact S2|]. unfold is_bound. tauto. }
    intros ob w3 vb C3 Hyb Hob. pose proof (ctx_top _ _ C3).
    apply (writes_opt lc c _ w3 _ (λ vc n s, at_span sp (v_slice vl va vb vc) s)
      (λ y, y = x)); [done|apply C3|by rewrite (cx_lc _ _ C3), (cx_lc _ _ C2), (cx_lc _ _ C1)| | |tauto].
    { apply stable_and; [by eapply (stable_ctx w2 w3); [done|exact S2|unfold is_bound; tauto]|].
      by apply (stable_opt_operand lc b ob w3 (option_bound c)). }
    intros oc w4 vc C4 _ _. pose proof (ctx_top _ _ C4).
    apply (writes_does sp _ w4 _ (v_slice vl va vb vc)); [apply C4|done|lia| |done].
    intros m ((([_ ?] & ?) & ?) & ?). by apply slice_does.
  - done.
  - done.
  - done.
Qed.
Lemma ok_builtin2 op (a b : Expr) : expr_ok lc a → expr_ok lc b → node_ok (ExprBuiltin2 op a b).
Proof.
  intros Ha Hb. apply plain_ok; [done..|]. intros sp Hwf w x Lend Hw Hlc Hx. simpl in Hwf. bool_to_prop.
  assert (good lc a) as Ga by done. assert (good lc b) as Gb by done.
  assert (∀ y, y ∈ bound (ExprBuiltin2 op a b) ↔ y ∈ bound (node a) ∨ y ∈ bound (node b)) as Hy by (intros; apply elem_of_app).
  assert (writes false (write_2_exprs write a b (λ l r, write_instr sp (builtin2_instr op l r x))) w (λ _, True)
    (λ n s, ev n (mkSpanned sp (ExprBuiltin2 op a b)) s) (λ y, (y ∈ bound (node a) ∨ y ∈ bound (node b)) ∨ y = x) (to_slot Lend x)) as Hgen.
  { apply (writes_2 lc a b _ w (λ _, True) (λ v v' n s, at_span sp (Builtin2_eval op v v') s) (λ y, y = x)); try done; [|tauto].
    intros y z w1 v v' C Hy1 Hz. pose proof (ctx_top _ _ C).
    apply (writes_does sp _ w1 _ (Builtin2_eval op v v')); [apply C|apply builtin2_no_flow|lia| |done].
    intros m (_ & ? & ?). by apply builtin2_does. }
  assert (∀ y, (y ∈ bound (node a) ∨ y ∈ bound (node b)) ∨ y = x → y ∈ bound (ExprBuiltin2 op a b) ∨ y = x) as HB
    by (intros y; specialize (Hy y); tauto).
  destruct op; try by (eapply writes_mono; [exact Hgen|done|done|intros y _; apply HB]).
  eapply writes_mono; [exact (writes_equals (mk:=false) lc sp a b x w Lend Ga Gb ltac:(done) Hw Hlc Hx)|done|done|].
  intros y _. apply HB.
Qed.
Lemma ok_index2 (a b c : Expr) : expr_ok lc a → expr_ok lc b → expr_ok lc c → node_ok (Index2 a b c).
Proof.
  intros Ha Hb Hc. apply plain_ok; [done..|]. intros sp Hwf w x Lend Hw Hlc Hx. simpl in Hwf. bool_to_prop.
  eapply writes_mono.
  - apply (writes_3 (mk:=false) lc a b c (λ a b c, write_instr sp (InstrArrayIndex2 a b c x)) w (λ _, True)
      (λ v v' v'' n s, at_span sp (v_at2 v v' v'') s) (λ y, y = x)
      (λ y, y ∈ bound (node a) ∨ y ∈ bound (node b) ∨ y ∈ bound (node c) ∨ y = x) (to_slot Lend x)); try done.
    intros y z u w1 v v' v'' C Hy Hz Hu. pose proof (ctx_top _ _ C).
    apply (writes_does sp _ w1 _ (v_at2 v v' v'')); [apply C|done|lia| |done].
    intros m (_ & Hv & Hv' & Hv'') spans. simpl. unfold run_InstrArrayIndex2.
    by rewrite (bind_get _ _ _ _ Hv), (bind_get _ _ _ _ Hv'), (bind_get _ _ _ _ Hv'').
  - done.
  - done.
  - intros y _. simpl. rewrite !elem_of_app. tauto.
Qed.
Lemma ok_call (c : Spanned (CallCompiled Expr)) :
  deep_ok (node (call_fun (node c))) → Forall (on deep_ok) (ca_pos_named (call_args (node c))) →
  on_option deep_ok (ca_args (call_args (node c))) → on_option deep_ok (ca_kwargs (call_args (node c))) → node_ok (Call c).
Proof.
  intros Hf Hp Ha Hk. apply plain_ok; [done..|]. intros sp Hwf w x Lend Hw Hlc Hx. simpl in Hwf. bool_to_prop.
  assert (good_call lc (node c)) as Hc.
  { split; [split; [by apply deep_expr|done]| |split; try done|done|done].
    - destruct Hf as [_ Ho]. unfold object_ok in Ho.
      match goal with Hwf : wf_expr lc (node (call_fun _)) = true |- _ => revert Ho Hwf end.
      destruct (node (call_fun (node c))); try done.
    - by apply Forall_good.
    - by apply option_good.
    - by apply option_good.
    - by apply Nat.leb_le. }
  exact (writes_call (mk:=false) lc (span c) (node c) x w Lend Hc Hw Hlc Hx).
Qed.
Lemma ok_def (d : DefCompiled TC D Expr) : Forall (on_default deep_ok) (compiled_params (dc_params d)) → node_ok (ExprDef d).
Proof.
  intros Hd. apply plain_ok; [done..|]. intros sp Hwf w x Lend Hw Hlc Hx. simpl in Hwf. bool_to_prop.
  refine (writes_def (mk:=false) lc sp d x w Lend _ ltac:(by apply Z.leb_le) Hw Hlc Hx).
  match goal with Hf : forallb _ _ = true |- _ => revert Hf; clear -Hd end.
  induction Hd as [|p ps Hp Hps IH]; simpl; [constructor|]. intros [Hwf Hwfs]%andb_true_iff. unfold on_default in Hp.
  unfold defaults. csimpl. destruct (node p) as [? ? [e|]| |]; simpl; try by apply IH.
  constructor; [|by apply IH]. split; [by apply deep_expr|done].
Qed.

(** ** Every expression *)

Definition target_node_ok (a : AssignCompiledValue V TC D) : Prop := ∀ sp, target_ok lc (mkSpanned sp a).
Lemma target_node x : target_node_ok (node x) → target_ok lc x.
Proof. destruct x as [sp a]. intros Ha. apply Ha. Qed.
Lemma shallow (e : ExprCompiled V TC D) : node_ok e → (∀ op x, e ≠ ExprBuiltin1 op x) → deep_ok e.
Proof. intros He Hn. split; [done|]. destruct e; try done. by edestruct Hn. Qed.
Lemma clause_node_ok var (over : Expr) ifs :
  target_node_ok (node var) → deep_ok (node over) → Forall (on deep_ok) ifs → clause_ok lc (Clause var over ifs).
Proof.
  intros Hv Ho Hi Hwf. assert (wf_clause lc (Clause var over ifs) = true) as Hwf' by done. simpl in Hwf'. bool_to_prop.
  refine (writes_clause lc var over ifs _ _ _ Hwf); [split; [by apply deep_expr|done]|split; [by apply target_node|done]|].
  match goal with Hf : forallb _ _ = true |- _ => revert Hf; clear -Hi end.
  induction Hi as [|e ifs He Hi IH]; simpl; [constructor|]. intros [? ?]%andb_true_iff.
  constructor; [split; [by apply deep_cond|done]|by apply IH].
Qed.
Lemma code_cases : ir_cases deep_ok compr_ok (clause_ok lc) target_node_ok.
Proof.
  pose proof ok_leaf as (Hv & Hl & Hc & Hm).
  split; intros; try (apply shallow; [|done]).
  - apply Hv.
  - apply Hl.
  - apply Hc.
  - apply Hm.
  - by apply ok_tuple.
  - by apply ok_list.
  - by apply ok_dict.
  - by apply ok_compr.
  - apply ok_if; [by apply deep_cond|by apply deep_expr..].
  - apply ok_slice; [by apply deep_expr|done..].
  - by apply ok_builtin1.
  - by apply ok_logical.
  - by apply ok_seq; apply deep_expr.
  - by apply ok_builtin2; apply deep_expr.
  - by apply ok_index2; apply deep_expr.
  - by apply ok_call.
  - by apply ok_def.
  - apply compr_list_ok; [by apply deep_expr|done].
  - apply compr_dict_ok; [by apply deep_expr..|done].
  - by apply clause_node_ok.
  - intros sp Hwf. refine (target_dot lc sp e field _ Hwf). split; [by apply deep_expr|done].
  - intros sp Hwf. assert (wf_target lc (AssignIndex a i) = true) as Hwf' by done. simpl in Hwf'. bool_to_prop.
    refine (target_index lc sp a i _ _ _ Hwf); [split; [by apply deep_expr|done]..|done].
  - intros sp Hwf. refine (target_tuple lc sp xs _ Hwf).
    assert (forallb (λ x, wf_target lc (node x)) xs = true) as Hwf' by done.
    match goal with Hf : Forall _ xs |- _ => revert Hwf'; clear -Hf; induction Hf as [|x xs Hx Hxs IH] end; simpl; [constructor|].
    intros [? ?]%andb_true_iff. constructor; [split; [by apply target_node|done]|by apply IH].
  - intros sp. apply target_local.
  - intros sp. apply target_captured.
  - intros sp. apply target_module.
Qed.

Lemma all_good e : wf_expr lc (node e) = true → good lc e.
Proof. intros Hwf. split; [|done]. apply deep_expr, (ir_induction _ _ _ _ code_cases). Qed.
Lemma all_good_cond e : wf_expr lc (node e) = true → good_cond lc e.
Proof. intros Hwf. split; [|done]. apply deep_cond, (ir_induction _ _ _ _ code_cases). Qed.
Lemma all_good_target x : wf_target lc (node x) = true → good_target lc x.
Proof. intros Hwf. split; [|done]. apply target_node, (ir_induction _ _ _ _ code_cases). Qed.
End expr.
