(* ===== verification/BcStmt.v ===== *)
(** Augmented assignments, in which the value is read, combined with the right-hand side and written back; and all
    statements, by induction. *)

From S2P Require Import Prelude Hashing TableMap FastString Symbol CodeMap.
From S2P Require Import DefParams OrdMap ParamSpec Def DefSpec Ir IrWf World IrEval BcInstr BcWriter BcCompile IrAssigned BcCode BcSim BcRules BcOperands BcBranch BcLoop BcClauses BcOps BcCall BcExpr.

Section modify.
Context `{W : World V H E TC D KM MB} `{!WorldOk V H E TC D KM MB} `{!InstrLayout V TC D KM}.
Local Abbreviation BcWriter := (BcWriter V TC D KM).
Local Abbreviation Mach := (Mach (V:=V) (H:=H)).
Local Abbreviation M A := (run BcWriter CodeTooBig A).
Local Abbreviation out := (out V H E).
Local Abbreviation Expr := (Spanned (ExprCompiled V TC D)).
Context {mk : bool} (lc : nat).
Implicit Types (w F : BcWriter) (m : Mach) (s : St V H) (B : nat → Prop) (P : Mach → Prop) (e : Expr) (h : H).

(** Everything that evaluation may change is a variable of the frame. *)
Definition locals (x : nat) : Prop := x < lc.

Section slots.
Context (sp : Span) (op : AssignOp) (rhs : Expr) (w : BcWriter) (P : Mach → Prop) (Lend : BcAddr).
Context (rl : nat → St V H → option (out V)) (rs : V → nat → St V H → option (out ())).
Context (load : nat → M ()) (pick : nat → nat → nat) (store : nat → M ()).
Context (Hrhs : good lc rhs) (Hw : wfw w) (Hlc : w_local_count w = lc) (HP : stable w (is_bound (bound (node rhs))) P).
Context (Hpick : ∀ x y, pick x y = x ∨ pick x y = y).
Context (Hload : ∀ w1 x, ctx w w1 → x < w_top w1 → writes mk (load x) w1 P rl (λ y, y = x) (to_slot Lend x)).
Context (Hstore : ∀ w1 x v, ctx w w1 → x < w_top w1 → w_top w ≤ x →
  writes mk (store x) w1 (λ m, P m ∧ holds x v m) (rs v) locals (effect Lend)).

Lemma writes_modify_slots :
  writes mk (alloc_slots_2 (λ l r, _ ← load l; _ ← write rhs r; _ ← write_instr sp (assign_op_instr op l r (pick l r)); store (pick l r)))
    w P (λ n s, do l, s <~ rl n s; do r, s <~ ev n rhs s; do v, s <~ at_span sp (assign_op op l r) s; rs v n s)
    locals (effect Lend).
Proof.
  set (t := w_top w). pose proof (pushed_ctx 2 w Hw) as C0. pose proof (pushed_top 2 w) as Ht0. fold t in Ht0.
  assert (lc ≤ t) as Ht by (unfold t; rewrite <- Hlc; unfold w_top; lia).
  assert (below lc (bound (node rhs))) as Hb by (by apply (good_below lc)).
  unfold alloc_slots_2.
  apply (writes_alloc_slots _ _ _ _ _ (λ y, locals y ∨ t ≤ y)); [done| |intros y Hy [?|?]; [done|unfold t in *; lia]].
  simpl. fold t. set (x := pick t (t + 1)).
  assert (t ≤ x < t + 2) as Hx by (destruct (Hpick t (t + 1)) as [He|He]; unfold x; rewrite He; lia).
  apply (writes_seq rl (λ l n s, do r, s <~ ev n rhs s; do v, s <~ at_span sp (assign_op op l r) s; rs v n s) P
    (λ l m, P m ∧ holds t l m) (λ y, y = t) (λ y, locals y ∨ t ≤ y) (λ y, locals y ∨ t ≤ y) (to_slot Lend t) (effect Lend)).
  { apply Hload; [done|lia]. }
  { split; simpl; try done.
    - intros a n s _. rewrite length_insert. intros Hs. rewrite put_temp; [done|]. rewrite Hs. simpl. rewrite Hlc. lia.
    - intros l m m' _ Hm K Hl. split; [|done]. eapply HP; [exact Hm|]. eapply keep_mono; [exact K|fold t; lia|done|].
      intros y Hy ->. unfold t in Hy. lia.
    - intros y _ [->|?]; [by right|done]. }
  2: { by exists new_none. }
  intros [] w1 C1 _ l _. pose proof (ctx_top _ _ C1).
  apply (writes_seq (λ n s, ev n rhs s) (λ r n s, do v, s <~ at_span sp (assign_op op l r) s; rs v n s) (λ m, P m ∧ holds t l m)
    (λ r m, P m ∧ holds t l m ∧ holds (t + 1) r m) (λ y, y ∈ bound (node rhs) ∨ y = t + 1) (λ y, locals y ∨ t ≤ y)
    (λ y, locals y ∨ t ≤ y) (to_slot Lend (t + 1)) (effect Lend)).
  { apply (writes_pre _ _ (λ _, True)); [|done]. destruct Hrhs as [He Hwf].
    apply writes_marks, He; [done|apply C1|rewrite (cx_lc _ _ C1); done|lia]. }
  { split; simpl; try done.
    - intros a n s _. rewrite length_insert. intros Hs. rewrite put_temp; [done|]. rewrite Hs, (cx_lc _ _ C1). simpl. rewrite Hlc. lia.
    - intros r m m' _ [Hm Hl] K Hr. split; [|split; [|done]].
      + eapply HP; [exact Hm|]. eapply keep_mono; [exact K|lia|by rewrite (ctx_depth _ _ C1)|].
        intros y Hy [?| ->]; [done|]. unfold t in Hy. lia.
      + eapply keep_holds; [exact K|lia| |exact Hl]. intros [Hin%Hb|?]; lia.
    - intros y _ [[Hy| ->]|?]; [left; by apply Hb|right; lia|done]. }
  2: { by exists new_none. }
  intros [] w2 C2 _ r _. pose proof (ctx_top _ _ C2).
  apply (writes_seq (λ _ s, at_span sp (assign_op op l r) s) (λ v n s, rs v n s) (λ m, P m ∧ holds t l m ∧ holds (t + 1) r m)
    (λ v m, P m ∧ holds x v m) (λ y, y = x) locals
    (λ y, locals y ∨ t ≤ y) (to_slot Lend x) (effect Lend)).
  { apply (writes_does sp _ w2 _ (assign_op op l r)); [apply C2|apply assign_op_no_flow|lia| |done].
    intros m (_ & ? & ?). by apply assign_op_does. }
  { split; simpl; try done.
    - intros a n s _. rewrite length_insert. intros Hs. rewrite put_temp; [done|].
      rewrite Hs, (cx_lc _ _ C2), (cx_lc _ _ C1). simpl. rewrite Hlc. lia.
    - intros v m m' _ [Hm _] K Hv. split; [|done].
      eapply HP; [exact Hm|]. eapply keep_mono; [exact K|lia|by rewrite (ctx_depth _ _ C2), (ctx_depth _ _ C1)|].
      intros y Hy ->. unfold t in Hx. lia.
    - intros y _ [->|?]; [right; lia|by left]. }
  2: { by exists new_none. }
  intros [] w3 C3 _ v _. pose proof (ctx_top _ _ C3). apply Hstore; [|lia|unfold t in *; lia].
  eapply ctx_trans; [exact C0|]. eapply ctx_trans; [exact C1|]. by eapply ctx_trans.
Qed.
End slots.

Lemma write_modify_dot (e : Expr) field sp op rhs :
  write_modify (ModifyDot e field) sp op rhs =
  cb write e (λ o, alloc_slots_2 (λ l r,
    _ ← write_instr sp (InstrObjectField o field l); _ ← write rhs r;
    _ ← write_instr sp (assign_op_instr op l r r); write_instr sp (InstrSetObjectField r o field))).
Proof. reflexivity. Qed.
Lemma write_modify_array (a i : Expr) sp op rhs :
  write_modify (ModifyArray a i) sp op rhs =
  write_2_exprs write a i (λ a i, alloc_slots_2 (λ l r,
    _ ← write_instr sp (InstrArrayIndex a i l); _ ← write rhs r;
    _ ← write_instr sp (assign_op_instr op l r l); write_instr sp (InstrArrayIndexSet a i l))).
Proof. reflexivity. Qed.

Lemma modify_dot (e : Expr) field sp op rhs w Lend :
  good lc rhs → wf_modify lc (ModifyDot e field) rhs = true → wfw w → w_local_count w = lc →
  writes mk (write_modify (ModifyDot e field) sp op rhs) w (λ _, True) (λ n s, modify n (ModifyDot e field) op sp rhs s)
    locals (effect Lend).
Proof.
  intros Hrhs Hwf Hw Hlc. simpl in Hwf. bool_to_prop. assert (good lc e) as He by by apply all_good.
  pose proof (good_below _ _ Hrhs) as Hb. rewrite write_modify_dot.
  apply (writes_cb lc e _ w _ (λ o n s, do l, s <~ at_span sp (get_attr_hashed_bind o field) s; do r, s <~ ev n rhs s;
    do v, s <~ at_span sp (assign_op op l r) s; at_span sp (set_attr o field v) s) locals); [done..| |].
  2: { intros x _ [Hx|?]; [|done]. by apply (good_below lc e). }
  intros o w1 v C Ho Hop. apply (writes_modify_slots sp op rhs w1 _ Lend _ (λ v' _ s, at_span sp (set_attr v field v') s) _ (λ _ y, y)); [done|apply C|by rewrite (cx_lc _ _ C)| |by right| |].
  - apply stable_and; [done|]. apply stable_holds; [done|]. by apply (operand_free lc e).
  - intros w2 x C2 Hx. apply (writes_does sp _ w2 _ (get_attr_hashed_bind v field)); [apply C2|done|done| |done].
    intros m [_ Hv] spans. simpl. unfold run_InstrObjectField. by rewrite (bind_get _ _ _ _ Hv).
  - intros w2 x v' C2 Hx _. eapply writes_mono; [apply (writes_effect _ _ w2 (λ m, (True ∧ holds o v m) ∧ holds x v' m) (set_attr v field v')); [apply C2|done| |by intros n s]|done|done|done].
    intros m [[_ Hv] Hx']. simpl. unfold run_InstrSetObjectField. by rewrite (bind_get _ _ _ _ Hx'), (bind_get _ _ _ _ Hv).
Qed.
Lemma modify_array (a i : Expr) sp op rhs w Lend :
  good lc rhs → wf_modify lc (ModifyArray a i) rhs = true → wfw w → w_local_count w = lc →
  writes mk (write_modify (ModifyArray a i) sp op rhs) w (λ _, True) (λ n s, modify n (ModifyArray a i) op sp rhs s)
    locals (effect Lend).
Proof.
  intros Hrhs Hwf Hw Hlc. simpl in Hwf. bool_to_prop. rewrite held_app in *. bool_to_prop.
  assert (good lc a) as Ha by by apply all_good. assert (good lc i) as Hi by by apply all_good.
  pose proof (good_below _ _ Hrhs) as Hb. rewrite write_modify_array.
  apply (writes_cb lc a _ w _ (λ av n s, do iv, s <~ ev n i s; do l, s <~ at_span sp (v_at av iv) s; do r, s <~ ev n rhs s;
    do v, s <~ at_span sp (assign_op op l r) s; at_span sp (set_at av iv v) s) locals); [done..| |].
  2: { intros x _ [Hx|?]; [|done]. by apply (good_below lc a). }
  intros x w1 av C1 Hx Hox. pose proof (ctx_top _ _ C1).
  assert (stable (H:=H) w1 (is_bound (bound (node i))) (λ m, True ∧ holds x av m)) as S1.
  { apply stable_and; [done|]. apply stable_holds; [done|]. apply (operand_free lc a); [done..|]. by apply good_below. }
  apply (writes_cb lc i _ w1 _ (λ iv n s, do l, s <~ at_span sp (v_at av iv) s; do r, s <~ ev n rhs s;
    do v, s <~ at_span sp (assign_op op l r) s; at_span sp (set_at av iv v) s) locals); [done|apply C1|by rewrite (cx_lc _ _ C1)|exact S1| |].
  2: { intros y _ [Hy|?]; [|done]. by apply (good_below lc i). }
  intros y w2 iv C2 Hy Hoy. pose proof (ctx_top _ _ C2).
  apply (writes_modify_slots sp op rhs w2 _ Lend _ (λ v' _ s, at_span sp (set_at av iv v') s) _ (λ x _, x));
    [done|apply C2|by rewrite (cx_lc _ _ C2), (cx_lc _ _ C1)| |by left| |].
  - apply stable_and; [apply stable_and; [done|]|]; (apply stable_holds; [lia|]);
      [by apply (operand_free lc a)|by apply (operand_free lc i)].
  - intros w3 z C3 Hz. apply (writes_does sp _ w3 _ (v_at av iv)); [apply C3|done|done| |done].
    intros m [[_ Ha'] Hi'] spans. simpl. unfold run_InstrArrayIndex. by rewrite (bind_get _ _ _ _ Ha'), (bind_get _ _ _ _ Hi').
  - intros w3 z v' C3 Hz _. eapply writes_mono; [apply (writes_effect _ _ w3 (λ m, ((True ∧ holds x av m) ∧ holds y iv m) ∧ holds z v' m) (set_at av iv v')); [apply C3|done| |by intros n s]|done|done|done].
    intros m [[[_ Ha'] Hi'] Hz']. simpl. unfold run_InstrArrayIndexSet.
    by rewrite (bind_get _ _ _ _ Hz'), (bind_get _ _ _ _ Ha'), (bind_get _ _ _ _ Hi').
Qed.

(** Variables. *)
Lemma modify_local slot sp op rhs w Lend :
  good lc rhs → wf_modify lc (ModifyLocal slot) rhs = true → wfw w → w_local_count w = lc →
  writes mk (write_modify (ModifyLocal slot) sp op rhs) w (λ _, True) (λ n s, modify n (ModifyLocal slot) op sp rhs s)
    locals (effect Lend).
Proof.
  intros Hrhs Hwf Hw Hlc. simpl in Hwf. apply Nat.ltb_lt in Hwf.
  apply (writes_modify_slots sp op rhs w _ Lend (λ _ s, get_local sp (node slot) s) (λ v _ s, set_local (node slot) v s)
    (λ l, write_load_local sp (node slot) l) (λ _ r, r) (λ r, write_mov sp r (node slot))); try done; [by right|..].
  - intros w1 x C Hx. apply writes_load_local; [apply C|rewrite (cx_lc _ _ C); lia|done].
  - intros w1 x v C Hx _. assert (node slot < w_local_count w1) as Hs by (rewrite (cx_lc _ _ C); lia).
    eapply writes_mono; [apply (writes_set_local _ w1 (λ m, True ∧ holds x v m) (λ _ s, ret v s) (λ y, y = node slot) (node slot) Lend)|done|by intros n s|].
    + apply C.
    + done.
    + apply writes_mov; [apply C|done|unfold w_top; lia|by intros m []].
    + intros y _ ->. unfold locals. lia.
Qed.
Lemma modify_captured slot sp op rhs w Lend :
  good lc rhs → wf_modify lc (ModifyLocalCaptured slot) rhs = true → wfw w → w_local_count w = lc →
  writes mk (write_modify (ModifyLocalCaptured slot) sp op rhs) w (λ _, True)
    (λ n s, modify n (ModifyLocalCaptured slot) op sp rhs s) locals (effect Lend).
Proof.
  intros Hrhs Hwf Hw Hlc. simpl in Hwf. apply Nat.ltb_lt in Hwf.
  apply (writes_modify_slots sp op rhs w _ Lend (λ _ s, get_captured sp (node slot) s) (λ v _ s, set_captured sp (node slot) v s)
    (λ l, write_load_local_captured sp (node slot) l) (λ _ r, r) (λ r, write_store_local_captured sp r (node slot))); try done; [by right|..].
  - intros w1 x C Hx. apply writes_load_captured; [apply C|rewrite (cx_lc _ _ C); lia|done].
  - intros w1 x v C Hx _. assert (node slot < w_local_count w1) as Hs by (rewrite (cx_lc _ _ C); lia).
    eapply writes_mono; [apply (writes_store_captured sp x (node slot) v w1 (λ m, True ∧ holds x v m) Lend)|done|done|done];
      [apply C|done|done|by intros m []].
Qed.
Lemma modify_module slot sp op rhs w Lend :
  good lc rhs → wfw w → w_local_count w = lc →
  writes mk (write_modify (ModifyModule slot) sp op rhs) w (λ _, True) (λ n s, modify n (ModifyModule slot) op sp rhs s)
    locals (effect Lend).
Proof.
  intros Hrhs Hw Hlc.
  apply (writes_modify_slots sp op rhs w _ Lend (λ _ s, at_span sp (get_slot_module (node slot)) s)
    (λ v _ s, ret () (mkSt (st_locals s) (set_slot_module (node slot) v (st_heap s))))
    (λ l, write_instr sp (InstrLoadModule (node slot) l)) (λ _ r, r) (λ r, write_instr sp (InstrStoreModule r (node slot)))); try done; [by right|..].
  - intros w1 x C Hx. by apply (writes_does sp _ w1 _ (get_slot_module (node slot))); [apply C|..].
  - intros w1 x v C Hx _.
    eapply writes_mono; [apply (writes_effect _ _ w1 (λ m, True ∧ holds x v m) (λ h, (Ok (), set_slot_module (node slot) v h))); [apply C|done| |by intros n s]|done|done|done].
    intros m [_ Hv]. simpl. unfold run_InstrStoreModule. by rewrite (bind_get _ _ _ _ Hv).
Qed.

Lemma writes_modify lhs sp op rhs w Lend :
  good lc rhs → wf_modify lc lhs rhs = true → wfw w → w_local_count w = lc →
  writes mk (write_modify lhs sp op rhs) w (λ _, True) (λ n s, modify n lhs op sp rhs s) locals (effect Lend).
Proof.
  destruct lhs; intros; [by apply modify_dot|by apply modify_array|by apply modify_local|by apply modify_captured|by apply modify_module].
Qed.
End modify.

(** Statements: how code returns, and that the code of every well-formed statement and block does what
    the evaluator says, within the loops around it. *)

Section stmt.
Context `{W : World V H E TC D KM MB} `{!WorldOk V H E TC D KM MB} `{!InstrLayout V TC D KM}.
Local Abbreviation BcWriter := (BcWriter V TC D KM).
Local Abbreviation Mach := (Mach (V:=V) (H:=H)).
Local Abbreviation M A := (run BcWriter CodeTooBig A).
Local Abbreviation out := (out V H E).
Local Abbreviation Expr := (Spanned (ExprCompiled V TC D)).
Local Abbreviation Target := (Spanned (AssignCompiledValue V TC D)).
Local Abbreviation Stmt := (Spanned (StmtCompiled V TC D)).
Context (hrt : bool) (lc : nat).
Implicit Types (w F : BcWriter) (m : Mach) (s : St V H) (B : nat → Prop) (P : Mach → Prop) (e : Expr) (h : H).

(** ** The iterators of the loops around *)

Definition iters w (its : list V) m : Prop := Forall2 (λ l it, holds l.1.1 it m) (sigs w) its.
Lemma iters_ctx w w1 its m : ctx w w1 → iters w1 its m ↔ iters w its m.
Proof. intros C. unfold iters. by rewrite (sigs_ctx _ _ C). Qed.
Lemma stable_iters w its : wfw w → w_local_count w = lc → stable w (locals lc) (iters w its).
Proof.
  intros Hw Hlc m m' Hm K. pose proof (wf_loops _ Hw) as Hl. unfold iters, sigs in *.
  remember (w_for_loops w) as loops eqn:Heq. clear Heq. revert its Hm. induction Hl as [|l loops (Hi & _) Hl IH]; intros its Hm.
  - inversion Hm; constructor.
  - inversion Hm as [|? it ? its' Hit Hits]; subst. constructor; [|by apply IH].
    simpl in *. eapply keep_holds; [exact K|lia| |exact Hit]. unfold locals. lia.
Qed.
Lemma iters_in_for w w2 iter its it m : in_for w w2 iter → iters w its m → holds iter it m → iters w2 (its ++ [it]) m.
Proof.
  intros [_ _ _ (var & inner & Hs) _] Hm Hit. unfold iters. rewrite Hs. apply Forall2_app; [done|]. by constructor.
Qed.

(** ** Ends *)

(** An instruction that ends the function. *)
Lemma writes_final {A} mk sl i w P (r : nat → St V H → option (out A)) B (R : dest V H TC D KM A) :
  wfw w → not_end i → jump_offset i = None →
  (∀ F n s m a, at_ w F s m → P m →
    ∃ o, after sl (run_instr (Ok (sa_spans sl)) a i (m_frame m, m_heap m)) = inr o ∧ r n s = Some (Exits o)) →
  writes mk (write_instr_explicit sl i) w P r B R.
Proof.
  intros Hw Hi Hj Hr. apply write_instr_explicit_wp. exists []. split; [by apply emit_written|].
  intros F HF _ n s m Hm HPm.
  assert (at_ w F s m) as Hat by (eapply rel_at; [done|by eapply grows_le, emit_grows|exact HF|exact Hm]).
  destruct (Hr F n s m (w_len w) Hat HPm) as (o & Ho & ->). apply sim_exit.
  by rewrite (step_emit F sl i w s m Hw HF Hj Hm).
Qed.
Lemma writes_return_slot {A} mk sp slot v w P (r : nat → St V H → option (out A)) B (R : dest V H TC D KM A) :
  wfw w → (∀ m, P m → holds slot v m) → (∀ n s, r n s = Some (Exits (Returned v (st_heap s)))) →
  writes mk (write_instr sp (InstrReturn slot)) w P r B R.
Proof.
  intros Hw HP Hr. apply writes_final; [done..|]. intros F n s m a Hat Hm. simpl. unfold run_InstrReturn.
  rewrite (bind_get _ _ _ _ (HP _ Hm)). eexists. split; [done|]. rewrite Hr. by rewrite <- (ag_heap _ _ _ (at_agree _ _ _ _ Hat)).
Qed.
Lemma writes_return_check {A} mk sp slot v w P (r : nat → St V H → option (out A)) B (R : dest V H TC D KM A) :
  wfw w → (∀ m, P m → holds slot v m) →
  (∀ n s, r n s = do _u, s <~ at_span sp (check_return_type v) s; Some (Exits (Returned v (st_heap s)))) →
  writes mk (write_instr sp (InstrReturnCheckType slot)) w P r B R.
Proof.
  intros Hw HP Hr. apply writes_final; [done..|]. intros F n s m a Hat Hm. simpl. unfold run_InstrReturnCheckType.
  rewrite (bind_get _ _ _ _ (HP _ Hm)). unfold mbind, run_bind, heap_op. rewrite Hr, (ag_heap _ _ _ (at_agree _ _ _ _ Hat)).
  unfold at_span. destruct (check_return_type v (st_heap s)) as [[[]|e|f] h]; eexists; done.
Qed.
Lemma writes_return_const {A} mk sp v w P (r : nat → St V H → option (out A)) B (R : dest V H TC D KM A) :
  wfw w → (∀ n s, r n s = Some (Exits (Returned v (st_heap s)))) →
  writes mk (write_instr sp (InstrReturnConst v)) w P r B R.
Proof.
  intros Hw Hr. apply writes_final; [done..|]. intros F n s m a Hat Hm. eexists. split; [done|]. rewrite Hr.
  by rewrite <- (ag_heap _ _ _ (at_agree _ _ _ _ Hat)).
Qed.

(** The iterators are stopped, innermost first. *)
Lemma writes_stop mk sp slot it w P Lend :
  wfw w → (∀ m, P m → holds slot it m) →
  writes mk (write_instr sp (InstrIterStop slot)) w P (λ _ s, ret () (mkSt (st_locals s) (iter_stop it (st_heap s))))
    (λ _, False) (effect Lend).
Proof.
  intros Hw HP. apply write_instr_explicit_wp. exists []. split; [by apply emit_written|]. intros F HF _ n s m Hm HPm.
  set (sl := mkSlowArg sp []). eapply sim_step.
  { rewrite (step_emit F sl (InstrIterStop slot) w s m Hw HF eq_refl Hm). simpl. unfold run_InstrIterStop.
    rewrite (bind_get _ _ _ _ (HP _ HPm)). reflexivity. }
  destruct Hm as (Hip & Ag & Hda). apply sim_ret. split; [apply keep_same|]. rewrite (ag_heap _ _ _ Ag).
  split; [|done]. split; [by rewrite emit_len|]. split; [by eapply agree_heap|done].
Qed.
Lemma writes_stops mk sp (l : list BcWriterForLoop) : ∀ its w P Lend,
  wfw w → length its = length l → (∀ m, P m → Forall2 (λ l it, holds (fl_iter l) it m) l its) → stable w (λ _, False) P →
  writes mk (write_iter_stops sp l) w P
    (λ _ s, ret () (mkSt (st_locals s) (fold_left (λ h it, iter_stop it h) its (st_heap s)))) (λ _, False) (effect Lend).
Proof.
  induction l as [|loop l IH]; intros its w P Lend Hw Hlen HP Hst; destruct its as [|it its]; try done; simpl.
  - apply wp_ret. exists []. split; [by apply written_refl|]. intros F HF _ n s m Hm HPm.
    destruct s as [ls h]. apply sim_ret. split; [apply keep_refl|]. by split.
  - assert (∀ m, P m → holds (fl_iter loop) it m ∧ Forall2 (λ l it, holds (fl_iter l) it m) l its) as HP2.
    { intros m Hm%HP. by inversion Hm; subst. }
    apply (writes_seq (λ _ s, ret () (mkSt (st_locals s) (iter_stop it (st_heap s))))
      (λ _ _ s, ret () (mkSt (st_locals s) (fold_left (λ h it, iter_stop it h) its (st_heap s))))
      P (λ _, P) (λ _, False) (λ _, False) (λ _, False) (effect Lend) (effect Lend)) with
      (r := λ _ _ s, ret () (mkSt (st_locals s) (fold_left (λ h it, iter_stop it h) its (st_heap s)))).
    + apply writes_stop; [done|]. intros m Hm. by apply HP2.
    + split; try done; [|tauto]. intros u m m' _ Hm K _. by eapply Hst.
    + intros [] w1 C _ u _. apply IH; [apply C|by injection Hlen|intros m Hm; by apply HP2|].
      by eapply (stable_ctx w w1); [done|exact Hst|].
    + by exists ().
Qed.
Lemma writes_iter_stop mk sp w its P Lend :
  wfw w → w_local_count w = lc → length its = length (sigs w) → (∀ m, P m → iters w its m) → stable w (locals lc) P →
  writes mk (write_iter_stop sp) w P (λ _ s, ret () (stop_iterators its s)) (λ _, False) (effect Lend).
Proof.
  intros Hw Hlc Hlen HP Hst. unfold write_iter_stop. apply wp_bind. unfold gets, wp at 1.
  apply (writes_stops mk sp (reverse (w_for_loops w)) (reverse its)); [done| | |].
  - unfold sigs in Hlen. by rewrite !length_reverse, Hlen, length_map.
  - intros m Hm%HP. apply Forall2_reverse. unfold iters, sigs in Hm. by apply Forall2_fmap_l in Hm.
  - eapply stable_sub; [exact Hst|]. done.
Qed.

(** The statement [return e]. *)
Lemma writes_return sp (e : Expr) w its Lend :
  wf_expr lc (node e) = true → wfw w → w_local_count w = lc → length its = length (sigs w) →
  writes true (write_return hrt sp e) w (iters w its)
    (λ n s, do v, s <~ ev n e (stop_iterators its s); return_value hrt sp v s) (locals lc) (flow_dest (sigs w) Lend).
Proof.
  intros Hwf Hw Hlc Hlen. unfold write_return. pose proof (all_good lc e Hwf) as He.
  assert (∀ w1, ctx w w1 → ∀ (k : nat → M ()), (∀ x w2 v, ctx w1 w2 → x < w_top w2 →
      writes true (k x) w2 (λ m, True ∧ holds x v m) (λ n s, return_value hrt sp v s) (λ _, False) (flow_dest (sigs w) Lend)) →
    writes true (cb write e k) w1 (λ _, True) (λ n s, do v, s <~ ev n e s; return_value hrt sp v s) (locals lc) (flow_dest (sigs w) Lend)) as Hcb.
  { intros w1 C k Hk. apply (writes_cb lc e k w1 _ (λ v n s, return_value hrt sp v s) (λ _, False)); try done; [apply C|by rewrite (cx_lc _ _ C)| |].
    - intros x w2 v C2 Hx _. by apply Hk.
    - intros x _ [Hx|[]]. by apply (good_below lc e). }
  apply (writes_seq (λ _ s, ret () (stop_iterators its s)) (λ _ n s, do v, s <~ ev n e s; return_value hrt sp v s)
    (iters w its) (λ _ _, True) (λ _, False) (locals lc) (locals lc) (effect Lend) (flow_dest (sigs w) Lend)) with
    (r := λ _ n s, do v, s <~ ev n e s; return_value hrt sp v s).
  - apply writes_iter_stop; try done. by apply stable_iters.
  - split; try done. tauto.
  - intros [] w1 C _ u _. destruct hrt eqn:Hr.
    + apply Hcb; [done|]. intros x w2 v C2 Hx. by apply (writes_return_check true sp x v); [apply C2|intros m []|].
    + destruct (as_value (node e)) as [v|] eqn:Hv.
      * apply (writes_return_const true sp v); [apply C|]. intros n s. unfold ev. by rewrite (as_value_inv _ _ Hv).
      * apply Hcb; [done|]. intros x w2 v C2 Hx. by apply (writes_return_slot true sp x v); [apply C2|intros m []|].
  - by exists ().
Qed.

(** ** Assignments *)

Lemma writes_check mk (ty : option (Spanned TC)) slot v w P Lend :
  wfw w → (∀ m, P m → holds slot v m) →
  writes mk (write_check_type ty slot) w P
    (λ _ s, match ty with Some ty => at_span (span ty) (check_type (node ty) v) s | None => ret () s end) (λ _, False) (effect Lend).
Proof.
  intros Hw HP. destruct ty as [ty|]; simpl.
  - apply (writes_effect _ _ w P (check_type (node ty) v)); [done|done| |done].
    intros m Hm. simpl. unfold run_InstrCheckType. by rewrite (bind_get _ _ _ _ (HP _ Hm)).
  - apply wp_ret. exists []. split; [by apply written_refl|]. intros F HF _ n s m Hm HPm. apply sim_ret.
    split; [apply keep_refl|]. by split.
Qed.
Lemma flow_next {T} mk (mm : M T) w P (r : nat → St V H → option (out ())) (r' : nat → St V H → option (out Flow)) B B' Lend :
  writes mk mm w P r B (effect Lend) → (∀ n s, r' n s = do _u, s <~ r n s; ret FlowNext s) → (∀ x, B x → B' x) →
  writes mk mm w P r' B' (flow_dest (sigs w) Lend).
Proof.
  intros Hw Hr HB. eapply writes_mono.
  - by apply (writes_result mk mm w P r (λ _, FlowNext) B (effect Lend) (flow_dest (sigs w) Lend)).
  - done.
  - exact Hr.
  - intros x _. apply HB.
Qed.

Lemma writes_assign_local sp (x : nat) ty (rhs : Expr) w Lend :
  wf_expr lc (node rhs) = true → x < lc → wfw w → w_local_count w = lc →
  writes true (_ ← write rhs x; write_check_type ty x) w (λ _, True)
    (λ n s, do v, s <~ ev n rhs s;
      do _u, s <~ match ty with Some ty => at_span (span ty) (check_type (node ty) v) s | None => ret () s end;
      assign n sp (AssignLocal x) v s) (locals lc) (effect Lend).
Proof.
  intros Hwf Hx Hw Hlc. pose proof (all_good lc rhs Hwf) as Hrhs.
  apply (writes_seq (λ n s, ev n rhs s)
    (λ v n s, match ty with Some ty => at_span (span ty) (check_type (node ty) v) s | None => ret () s end)
    (λ _, True) (λ v, holds x v) (λ y, y ∈ bound (node rhs) ∨ y = x) (λ _, False) (locals lc) (to_slot Lend x) (effect Lend)) with
    (r := λ v n s, do _u, s <~ match ty with Some ty => at_span (span ty) (check_type (node ty) v) s | None => ret () s end;
      assign n sp (AssignLocal x) v s).
  - destruct Hrhs as [He _]. apply writes_marks, He; [done|done|done|unfold w_top; lia].
  - split; try done.
    + intros v n s _ Hl. simpl in *. rewrite length_insert in Hl. assert (x < length (st_locals s)) as Hlt by lia.
      unfold set_local. apply Nat.ltb_lt in Hlt. destruct ty as [ty|]; simpl; [|by rewrite Hlt].
      unfold at_span. simpl. destruct (check_type (node ty) v (st_heap s)) as [[[]|e|f] h]; try done. simpl. by rewrite Hlt.
    + intros y _ [[Hy| ->]|[]]; [by apply (good_below lc rhs)|done].
  - intros [] w1 C _ v _. by apply writes_check; [apply C|].
  - by exists new_none.
Qed.
Lemma writes_assign_other (lhs : Target) ty (rhs : Expr) w Lend :
  wf_expr lc (node rhs) = true → wf_target lc (node lhs) = true → held (node rhs) (target_reads (node lhs)) = true →
  wfw w → w_local_count w = lc →
  writes true (cb write rhs (λ slot, _ ← write_check_type ty slot; write_assign (span lhs) (node lhs) slot)) w (λ _, True)
    (λ n s, do v, s <~ ev n rhs s;
      do _u, s <~ match ty with Some ty => at_span (span ty) (check_type (node ty) v) s | None => ret () s end;
      assign n (span lhs) (node lhs) v s) (locals lc) (effect Lend).
Proof.
  intros Hwf Hwt Hh Hw Hlc. pose proof (all_good lc rhs Hwf) as Hrhs. pose proof (all_good_target lc lhs Hwt) as [Ht _].
  assert (below lc (target_bound (node lhs))) as Hb by (by apply (bound_below lc)).
  apply (writes_cb lc rhs _ w _ (λ v n s,
      do _u, s <~ match ty with Some ty => at_span (span ty) (check_type (node ty) v) s | None => ret () s end;
      assign n (span lhs) (node lhs) v s) (locals lc)); try done.
  2: { intros x _ [Hx|Hx]; [by apply (good_below lc rhs)|done]. }
  intros slot w1 v C Hs Hop. pose proof (ctx_top _ _ C).
  apply (writes_seq (λ _ s, match ty with Some ty => at_span (span ty) (check_type (node ty) v) s | None => ret () s end)
    (λ _ n s, assign n (span lhs) (node lhs) v s) (λ m, True ∧ holds slot v m) (λ _, holds slot v) (λ _, False) (locals lc) (locals lc)
    (effect Lend) (effect Lend)) with (r := λ _ n s, assign n (span lhs) (node lhs) v s).
  - apply writes_check; [apply C|by intros m []].
  - split; try done; [|tauto]. intros u m m' _ [_ Hm] K _. eapply keep_holds; [exact K|done|tauto|done].
  - intros [] w2 C2 _ u _. pose proof (ctx_top _ _ C2).
    eapply writes_mono; [apply writes_marks, (Ht Hwt w2 v slot Lend)|done|done|].
    + apply C2.
    + by rewrite (cx_lc _ _ C2), (cx_lc _ _ C).
    + lia.
    + apply (operand_free lc rhs); [done..|]. intros y Hy. by apply Hb, target_reads_bound.
    + intros y _ Hy. by apply Hb.
  - by exists ().
Qed.

(** ** Blocks *)

Definition stmt_ok (c : StmtCompiled V TC D) : Prop :=
  ∀ lp sp w its Lend, wf_stmt lc lp c = true → wfw w → w_local_count w = lc → (lp = true → w_for_loops w ≠ []) →
  length its = length (sigs w) →
  writes true (write_stmt_inner hrt sp c) w (iters w its) (λ n s, exec n hrt its sp c s) (locals lc) (flow_dest (sigs w) Lend).
Definition block (n : nat) (its : list V) (l : list Stmt) (s : St V H) : option (out Flow) :=
  exec_list (λ c, exec n hrt its (span c) (node c)) l s.

Lemma writes_before {A T} sp (mm : M T) w P (r : nat → St V H → option (out A)) B (R : dest V H TC D KM A) :
  wfw w → (∀ l, writes true mm (set_stmt_locs l w) P r B R) → writes true (_ ← mark_before_stmt sp; mm) w P r B R.
Proof.
  intros Hw Hm. apply wp_bind. unfold mark_before_stmt. apply wp_bind, ip_wp. unfold modify_w, wp at 1.
  set (l := stmt_locs_push _ _ _). assert (written true [] w (set_stmt_locs l w)) as W1.
  { split; [by destruct Hw|apply same_code_grows; by split|done|done]. }
  eapply wp_mono; [apply (Hm l)|]. intros _ w' (new & Hn & Hr). exists new.
  split; [exact (written_trans _ [] new _ _ _ W1 Hn)|]. intros F HF Hres n s m Hrel HP.
  eapply sim_mono; [by apply (Hr F HF Hres)|]. intros a s' m' _ [[? ?] HR]. by split.
Qed.
Lemma writes_block (l : list Stmt) lp : Forall (on stmt_ok) l → forallb (λ c, wf_stmt lc lp (node c)) l = true →
  ∀ w its Lend, wfw w → w_local_count w = lc → (lp = true → w_for_loops w ≠ []) → length its = length (sigs w) →
  writes true (write_list_of (λ c : Stmt,
      _ ← mark_before_stmt (span c); _ ← write_stmt_inner hrt (span c) (node c); mark_locals (stmt_assigned_after (node c))) l)
    w (iters w its) (λ n s, block n its l s) (locals lc) (flow_dest (sigs w) Lend).
Proof.
  induction 1 as [|c l Hc Hl IH]; intros Hwf w its Lend Hw Hlc Hlp Hlen; simpl.
  - apply wp_ret. exists []. split; [by apply written_refl|]. intros F HF _ n s m Hm HPm. apply sim_ret.
    split; [apply keep_refl|]. by split.
  - apply andb_true_iff in Hwf as [Hwfc Hwf].
    apply (writes_seq (λ n s, exec n hrt its (span c) (node c) s) (λ _ n s, block n its l s)
      (iters w its) (λ _, iters w its) (locals lc) (locals lc) (locals lc) (flow_dest (sigs w) Lend) (flow_dest (sigs w) Lend)) with
      (r := λ f n s, then_next f (block n its l) s).
    + apply writes_before; [done|]. intros sl. apply writes_then_mark.
      * by apply (Hc lp (span c) (set_stmt_locs sl w) its Lend); [|destruct Hw|..].
      * by destruct Hw.
      * simpl. rewrite Hlc. by apply (stmt_after_below lc lp).
      * intros n s a s' _ Hs. by apply exec_gives in Hs as [_ ?].
    + split; try done; [..|tauto].
      * intros [] esc; simpl; intros [= <-]; [by exists FlowBreak|by exists FlowContinue].
      * by intros [] n s.
      * intros a m m' _ Hm K _. by eapply (stable_iters w its).
    + intros [] w1 C _ f _. pose proof (sigs_ctx _ _ C) as Hs. eapply writes_pre; [|intros m; apply (iters_ctx w w1 its m C)].
      rewrite <- Hs. apply IH; [done|apply C|by rewrite (cx_lc _ _ C)| |by rewrite Hs].
      intros ?%Hlp. by apply (loops_ctx w w1).
    + by exists FlowNext.
Qed.

(** ** The cases *)

Lemma ok_gc : stmt_ok PossibleGc.
Proof.
  intros lp sp w its Lend _ Hw Hlc _ _. apply writes_instr; [done..|]. intros F n s m Hat _.
  pose proof (at_agree _ _ _ _ Hat) as Ag. unfold instr_does. simpl. unfold run_InstrPossibleGc, mbind, run_bind, heap_run, collect_garbage.
  rewrite (ag_heap _ _ _ Ag). destruct (possible_gc (st_heap s)) as [f h]. simpl. rewrite (ag_lc _ _ _ Ag), (ag_locals _ _ _ Ag).
  pose proof (agree_len _ _ _ Ag) as Hlen. pose proof (ag_slots _ _ _ Ag) as Hsl.
  eexists FlowNext, _. split; [done|]. split; [done|]. intros ip.
  assert (length (map (fmap f) (st_locals s)) = w_local_count F) as Hl by (by rewrite length_map).
  split; [|split; [|done]].
  - destruct Ag as [? ? ? ? ?]. split; simpl; try done.
    + rewrite take_app_le by lia. by rewrite take_ge by lia.
    + rewrite length_app, Hl, length_drop. lia.
  - split; [|done]. intros x v Hx. unfold holds, slot. simpl. destruct (decide (x < w_local_count F)) as [Hlt|Hge].
    + intros Hv. rewrite lookup_app_l by lia. exists (f v). split.
      * rewrite list_lookup_fmap. rewrite <- (agree_local _ _ _ _ Ag Hlt). unfold slot. by rewrite Hv.
      * intros Hn. destruct Hn. unfold locals. rewrite <- Hlc, <- (at_lc _ _ _ _ Hat). done.
    + intros Hv. exists v. split; [|done]. rewrite lookup_app_r by lia. rewrite lookup_drop, Hl.
      by replace (w_local_count F + (x - w_local_count F)) with x by lia.
Qed.
Lemma ok_stmt_expr (e : Expr) : stmt_ok (StmtExpr e).
Proof.
  intros lp sp w its Lend Hwf Hw Hlc _ _. pose proof (all_good lc e Hwf) as He.
  eapply flow_next.
  - apply (writes_result true _ w _ (λ n s, ev n e s) (λ _, ()) (is_bound (bound (node e))) (effect Lend) (effect Lend)); [|done|done].
    apply (writes_pre _ _ (λ _, True)); [|done].
    exact (writes_discard lc true e w (λ _, True) Lend He Hw Hlc ltac:(done)).
  - intros n s. simpl. by rewrite obind_assoc.
  - intros x Hx. by apply (good_below lc e).
Qed.
Lemma ok_assign lhs ty (rhs : Expr) : stmt_ok (Assign lhs ty rhs).
Proof.
  intros lp sp w its Lend Hwf Hw Hlc _ _. simpl in Hwf. bool_to_prop.
  apply (flow_next true _ w _ (λ n s, do v, s <~ ev n rhs s;
      do _u, s <~ match ty with Some ty => at_span (span ty) (check_type (node ty) v) s | None => ret () s end;
      assign n (span lhs) (node lhs) v s) _ (locals lc)); [|intros n s|done].
  - apply (writes_pre _ _ (λ _, True)); [|done]. simpl. destruct (assign_as_local_non_captured (node lhs)) as [x|] eqn:Hx.
    + assert (node lhs = AssignLocal x) as Hn by (destruct (node lhs); simpl in Hx; by simplify_eq).
      rewrite Hn in *. simpl in *. match goal with H : (x <? lc) = true |- _ => apply Nat.ltb_lt in H end.
      exact (writes_assign_local (span lhs) x ty rhs w Lend ltac:(done) ltac:(done) Hw Hlc).
    + exact (writes_assign_other lhs ty rhs w Lend ltac:(done) ltac:(done) ltac:(done) Hw Hlc).
  - simpl. rewrite obind_assoc. apply obind_ext. intros v s1. rewrite obind_assoc. done.
Qed.
Lemma ok_assign_modify lhs op (rhs : Expr) : stmt_ok (AssignModify lhs op rhs).
Proof.
  intros lp sp w its Lend Hwf Hw Hlc _ _. simpl in Hwf. bool_to_prop.
  apply (flow_next true _ w _ (λ n s, modify n lhs op sp rhs s) _ (locals lc)); [|done|done].
  apply (writes_pre _ _ (λ _, True)); [|done]. exact (writes_modify lc lhs sp op rhs w Lend ltac:(by apply all_good) ltac:(done) Hw Hlc).
Qed.
Lemma ok_return (e : Expr) : stmt_ok (Return e).
Proof. intros lp sp w its Lend Hwf Hw Hlc _ Hlen. exact (writes_return sp e w its Lend Hwf Hw Hlc Hlen). Qed.
Lemma ok_break : stmt_ok Break.
Proof. intros lp sp w its Lend Hwf Hw Hlc Hlp _. exact (writes_break sp w _ _ Lend Hw (Hlp Hwf)). Qed.
Lemma ok_continue : stmt_ok Continue.
Proof. intros lp sp w its Lend Hwf Hw Hlc Hlp _. exact (writes_continue sp w _ _ Lend Hw (Hlp Hwf)). Qed.

Lemma ok_stmt_if (c : Expr) (t f : list Stmt) : Forall (on stmt_ok) t → Forall (on stmt_ok) f → stmt_ok (StmtIf c t f).
Proof.
  intros Ht Hf lp sp w its Lend Hwf Hw Hlc Hlp Hlen. simpl in Hwf. bool_to_prop.
  assert (cond_ok lc c) as Hc by (by apply all_good_cond).
  assert (below lc (bound (node c))) as Hb by (by apply (bound_below lc)).
  set (wb := write_list_of (λ c : Stmt,
      _ ← mark_before_stmt (span c); _ ← write_stmt_inner hrt (span c) (node c); mark_locals (stmt_assigned_after (node c)))).
  assert (∀ l, Forall (on stmt_ok) l → forallb (λ c, wf_stmt lc lp (node c)) l = true → ∀ w1, ctx w w1 →
    w_stack_size w1 = w_stack_size w → writes true (wb l) w1 (iters w its) (λ n s, block n its l s) (locals lc) (flow_dest (sigs w) Lend)) as Harm.
  { intros l Hl Hwfl w1 C _. rewrite <- (sigs_ctx _ _ C). eapply writes_pre; [|intros m; apply (iters_ctx w w1 its m C)].
    apply (writes_block l lp); [done|done|apply C|by rewrite (cx_lc _ _ C)| |by rewrite (sigs_ctx _ _ C)].
    intros ?%Hlp. by apply (loops_ctx w w1). }
  assert (∀ mn rt rf tb fb, (∀ w1, ctx w w1 → w_stack_size w1 = w_stack_size w → writes true tb w1 (iters w its) rt (locals lc) (flow_dest (sigs w) Lend)) →
    else_ok (iters w its) rf (locals lc) (flow_dest (sigs w) Lend) w fb →
    writes true (if_else_impl write_bc c mn tb fb) w (iters w its)
      (λ n s, do v, s <~ ev n c s; if taken mn (to_bool v (st_heap s)) then rt n s else rf n s) (locals lc) (flow_dest (sigs w) Lend)) as Hif.
  { intros mn rt rf tb fb Htb Hfb.
    apply (writes_if_else lc (iters w its) rt rf (locals lc) (locals lc) (flow_dest (sigs w) Lend) (dest_ok_flow _ _) c mn tb fb w Hc); try done.
    - eapply stable_sub; [by apply stable_iters|]. intros x _ Hx. by apply Hb.
    - intros x _ [Hx|?]; [by apply Hb|done]. }
  assert (else_ok (iters w its) (λ _ s, ret FlowNext s) (locals lc) (flow_dest (sigs w) Lend) w None) as Hnone by (by exists FlowNext).
  apply wp_bind, w_assert_wp; [done|]. destruct (Nat.eqb_spec (length f) 0) as [Hl|Hl]; [|destruct (Nat.eqb_spec (length t) 0) as [Hl2|Hl2]].
  - apply nil_length_inv in Hl as ->. eapply writes_ext; [exact (Hif MaybeId _ (λ _ s, ret FlowNext s) (wb t) None (Harm t Ht ltac:(done)) Hnone)|]. done.
  - apply nil_length_inv in Hl2 as ->. eapply writes_ext; [exact (Hif MaybeNot_ _ (λ _ s, ret FlowNext s) (wb f) None (Harm f Hf ltac:(done)) Hnone)|].
    intros n s. simpl. apply obind_ext. intros v s1. by destruct (to_bool v (st_heap s1)).
  - exact (Hif MaybeId _ (λ n s, block n its f s) (wb t) (Some (wb f)) (Harm t Ht ltac:(done)) (Harm f Hf ltac:(done))).
Qed.
Lemma ok_for var (over : Expr) (body : list Stmt) : Forall (on stmt_ok) body → stmt_ok (For var over body).
Proof.
  intros Hbody lp sp w its Lend Hwf Hw Hlc Hlp Hlen. simpl in Hwf. bool_to_prop.
  assert (good lc over) as Ho by (by apply all_good). assert (good_target lc var) as Hv by (by apply all_good_target).
  assert (below lc (target_bound (node var))) as Hb by (by apply (bound_below lc)).
  eapply flow_next.
  - refine (writes_write_for true lc over var sp _ w (iters w its) (λ it n s, block n (its ++ [it]) body s) (locals lc) (locals lc) Lend
      Ho Hv Hw Hlc _ _ _ _); [|done| |].
    + eapply stable_sub; [by apply stable_iters|]. intros x _ [Hx|[Hx|?]]; [by apply (good_below lc over)|by apply Hb|done].
    + intros w2 iter it Lend2 If. eapply writes_pre; [|intros m [Hm Hit]; by apply (iters_in_for w w2 iter its it m If)].
      apply (writes_block body true Hbody); [done|apply If|by rewrite (if_count _ _ _ If)| |].
      * intros _ Hn. pose proof (in_for_depth _ _ _ If) as Hd. rewrite Hn in Hd. simpl in Hd. lia.
      * pose proof (in_for_depth _ _ _ If) as Hd. unfold sigs in *. rewrite length_app, Hlen, !length_map. simpl. done.
    + intros x _ [Hx|[Hx|?]]; [by apply (good_below lc over)|by apply Hb|done].
  - intros n s. simpl. by rewrite obind_assoc.
  - done.
Qed.

Lemma all_stmts c : stmt_ok c.
Proof.
  induction c as [|e|e|lhs ty rhs|lhs op rhs|c t f Ht Hf|var over body Hb| |] using stmt_induction;
    [apply ok_gc|apply ok_return|apply ok_stmt_expr|apply ok_assign|apply ok_assign_modify
    |by apply ok_stmt_if|by apply ok_for|apply ok_break|apply ok_continue].
Qed.
Lemma writes_stmts (l : list Stmt) w Lend :
  wf_body lc l = true → wfw w → w_local_count w = lc → w_for_loops w = [] →
  writes true (write_stmts hrt l) w (λ _, True) (λ n s, block n [] l s) (locals lc) (flow_dest [] Lend).
Proof.
  intros Hwf Hw Hlc Hl. assert (sigs w = []) as Hs by (unfold sigs; by rewrite Hl).
  enough (writes true (write_stmts hrt l) w (λ _, True) (λ n s, block n [] l s) (locals lc) (flow_dest (sigs w) Lend)) as Hl2
    by (by rewrite Hs in Hl2).
  apply (writes_pre _ _ (iters w [])); [|intros m _; unfold iters; rewrite Hs; constructor].
  apply (writes_block l false); [|done|done|done|done|by rewrite Hs]. apply Forall_forall. intros c _. apply all_stmts.
Qed.
End stmt.
