(* ===== verification/BcBody.v ===== *)
(** Whole functions: the bytecode of a well-formed body behaves as the evaluator says.  It returns the same
    value, it raises the same error at the same place and leaves the same heap, and it does not end when the
    evaluator does not. *)

From S2P Require Import Prelude Hashing TableMap FastString Symbol CodeMap.
From S2P Require Import DefParams OrdMap ParamSpec Def DefSpec Ir IrWf World IrEval BcInstr BcWriter BcCompile IrAssigned BcCode BcSim BcRules BcOperands BcBranch BcLoop BcClauses BcOps BcCall BcExpr BcStmt.

(** * Running a function *)

Section start.
Context `{W : World V H E TC D KM MB} `{!InstrLayout V TC D KM}.

(** [alloca_raw] and [BcFrame::init]: no local variable has a value; slots of the stack and indices of loops
    are not initialised. *)
Definition alloc_frame (local_count max_stack_size max_loop_depth : nat) : BcFrame V :=
  mkFrame local_count (replicate (local_count + max_stack_size) None) (replicate max_loop_depth None).
(** The local variables are filled before the code runs. *)
Definition set_locals (locals : list (option V)) (fr : BcFrame V) : BcFrame V :=
  mkFrame (fr_local_count fr) (locals ++ drop (fr_local_count fr) (fr_slots fr)) (fr_iter_index fr).
Definition start (bc : Bc V TC D KM) (locals : list (option V)) (h : H) : Mach (V:=V) (H:=H) :=
  mkMach 0%N (set_locals locals (alloc_frame (bc_local_count bc) (bc_max_stack_size bc) (bc_max_loop_depth bc))) h.
(** [k] steps of [Bc::run]. *)
Definition bc_run (bc : Bc V TC D KM) (k : nat) (locals : list (option V)) (h : H) : Mach + Outcome V H E :=
  run_block (bc_instrs bc) k (start bc locals h).
(** What a run comes to, and one that does not come to an end. *)
Definition bc_ends bc locals h (o : Outcome V H E) : Prop := ∃ k, bc_run bc k locals h = inr o.
Definition bc_diverges bc locals h : Prop := ∀ k, ∃ m, bc_run bc k locals h = inl m.
End start.

Section body.
Context `{W : World V H E TC D KM MB} `{!WorldOk V H E TC D KM MB} `{!InstrLayout V TC D KM}.
Local Abbreviation BcWriter := (BcWriter V TC D KM).
Local Abbreviation Mach := (Mach (V:=V) (H:=H)).
Local Abbreviation M A := (run BcWriter CodeTooBig A).
Local Abbreviation out := (out V H E).
Local Abbreviation Stmt := (Spanned (StmtCompiled V TC D)).
Context (hrt : bool) (lc : nat).
Implicit Types (w F : BcWriter) (m : Mach) (s : St V H) (B : nat → Prop) (P : Mach → Prop) (h : H) (c : list Stmt).

(** ** The last statement *)

Lemma return_never sp v s (a : Flow) s' : return_value (E:=E) hrt sp v s ≠ Some (Done a s').
Proof.
  unfold return_value. destruct hrt; [|done]. unfold at_span.
  by destruct (check_return_type v (st_heap s)) as [[[]|e|f] h].
Qed.
Lemma block_return n c s s' : is_return (last c) = true → block hrt n [] c s ≠ Some (Done FlowNext s').
Proof.
  unfold block. revert s. induction c as [|x c IH]; intros s Hl; [done|]. destruct c as [|y c].
  - destruct x as [sp []]; try done. cbn -[return_value].
    destruct (eval n (span e) (node e) (stop_iterators [] s)) as [[v s1|o]|]; cbn -[return_value]; try done.
    destruct (return_value hrt sp v s1) as [[a s2|o]|] eqn:Hr; try done. by apply return_never in Hr.
  - pose proof (λ s, IH s Hl) as IH2. remember (y :: c) as c' eqn:Hc. simpl.
    destruct (exec n hrt [] (span x) (node x) s) as [[f s1|o]|]; simpl; try done. destruct f; simpl; [apply IH2|done..].
Qed.

(** The statements, without jumps out of a loop. *)
Definition run_stmts (n : nat) c s : option (out ()) :=
  do f, s <~ block hrt n [] c s; match f with FlowNext => ret () s | _ => Some (Exits (Faulted Panicked)) end.
Lemma writes_run_stmts c w Lend :
  wf_body lc c = true → wfw w → w_local_count w = lc → w_for_loops w = [] →
  writes true (write_stmts hrt c) w (λ _, True) (λ n s, run_stmts n c s) (locals lc) (effect Lend).
Proof.
  intros Hwf Hw Hlc Hl. eapply wp_mono; [exact (writes_stmts hrt lc c w Lend Hwf Hw Hlc Hl)|].
  intros _ w' (new & Hn & Hr). exists new. split; [done|]. intros F HF Hres n s m Hm HP.
  eapply sim_bind; [by apply (Hr F HF Hres)|]. intros f s1 m1 _ [K HR]. destruct f.
  - apply sim_ret. by split.
  - by destruct HR as (iter & var & inner & ? & _).
  - by destruct HR as (iter & var & inner & ? & _).
Qed.

Definition fall_through c : Span := match last c with Some c => end_span (span c) | None => Span_default end.
Definition write_end c : M () :=
  if is_return (last c) then mret () else
  if hrt then alloc_slot (λ slot, _ ← write_const (fall_through c) new_none slot; write_instr (fall_through c) (InstrReturnCheckType slot))
  else write_instr (fall_through c) (InstrReturnConst new_none).
Lemma writes_end c w P Lend :
  is_return (last c) = false → wfw w →
  writes true (write_end c) w P (λ _ s, return_value hrt (fall_through c) new_none s) (λ _, False) (effect Lend).
Proof.
  intros Hr Hw. unfold write_end. rewrite Hr. set (sp := fall_through c). destruct hrt.
  - apply (writes_alloc_slot _ _ _ _ (λ y, y = w_top w)); [done| |intros x Hx ->; lia].
    pose proof (pushed_ctx 1 w Hw) as C1. pose proof (pushed_top 1 w) as Ht.
    apply (writes_ext _ _ _ (λ n s, do v, s <~ ret new_none s; do _u, s <~ at_span sp (check_return_type v) s; Some (Exits (Returned v (st_heap s))))); [|done].
    apply (writes_seq (λ _ s, ret new_none s) (λ v _ s, do _u, s <~ at_span sp (check_return_type v) s; Some (Exits (Returned v (st_heap s))))
      P (λ v, holds (w_top w) v) (λ y, y = w_top w) (λ _, False) (λ y, y = w_top w) (to_slot Lend (w_top w)) (effect Lend)).
    + apply writes_const; [apply C1|lia].
    + split; try done; [|tauto]. intros v n s _. simpl. rewrite length_insert. intros Hs. rewrite put_temp; [done|].
      rewrite Hs. unfold w_top. lia.
    + intros [] w1 C _ v _. by apply (writes_return_check true sp (w_top w) v); [apply C|..].
    + by exists new_none.
  - by apply (writes_return_const true sp new_none).
Qed.

(** Code that is never reached. *)
Lemma runs_never {A A'} new w w' P (r : nat → St V H → option (out A)) (k : A → nat → St V H → option (out A')) B
    (R : dest V H TC D KM A) (R' : dest V H TC D KM A') :
  runs new w w' P r B R → d_end R' = d_end R → (∀ n s a s', r n s ≠ Some (Done a s')) →
  runs new w w' P (λ n s, do a, s <~ r n s; k a n s) B R'.
Proof.
  intros Hr He Hn F HF Hres n s m Hm HP. rewrite He in Hres. eapply sim_bind; [by apply (Hr F HF Hres)|].
  intros a s1 m1 Ha _. by apply Hn in Ha.
Qed.
Lemma writes_body_end c w Lend :
  wf_body lc c = true → wfw w → w_local_count w = lc → w_for_loops w = [] →
  writes true (_ ← write_stmts hrt c; write_end c) w (λ _, True)
    (λ n s, do _u, s <~ run_stmts n c s; return_value hrt (fall_through c) new_none s) (locals lc) (effect Lend).
Proof.
  intros Hwf Hw Hlc Hl. pose proof (writes_run_stmts c w Lend Hwf Hw Hlc Hl) as H1. destruct (is_return (last c)) eqn:Hr.
  - apply wp_bind. eapply wp_mono; [exact H1|]. intros _ w' (new & Hn & Hrun). unfold write_end. rewrite Hr. apply wp_ret.
    exists new. split; [done|]. refine (runs_never new w w' _ _ (λ _ n s, return_value hrt (fall_through c) new_none s) _ _ (effect Lend) Hrun eq_refl _).
    intros n s a s'. unfold run_stmts. destruct (block hrt n [] c s) as [[f s1|o]|] eqn:Hb; try done.
    destruct f; try done. by apply block_return in Hb.
  - apply (writes_seq (λ n s, run_stmts n c s) (λ _ n s, return_value hrt (fall_through c) new_none s) (λ _, True) (λ _ _, True)
      (locals lc) (λ _, False) (locals lc) (effect Lend) (effect Lend)) with (r := λ _ n s, return_value hrt (fall_through c) new_none s).
    + exact H1.
    + split; try done. tauto.
    + intros [] w1 C _ u _. by apply writes_end; [|apply C].
    + by exists ().
Qed.
Lemma exec_body_run n c s :
  match exec_body n hrt c s with Some o => Some (Exits (A:=Flow) o) | None => None end =
  do _u, s <~ run_stmts n c s; return_value hrt (fall_through c) new_none s.
Proof.
  unfold exec_body, run_stmts. fold (fall_through c). change (exec_list _ c s) with (block hrt n [] c s).
  destruct (block hrt n [] c s) as [[f s1|o]|]; simpl; try done. destruct f; simpl; try done.
  destruct (return_value hrt (fall_through c) new_none s1) as [[a s2|o]|] eqn:Hr; try done. by apply return_never in Hr.
Qed.

(** ** The finished code *)

Definition initial : BcWriter := mkWriter [] [] (mkStmtLocs [] []) 0 lc (replicate lc false) 0 [] 0.
Lemma initial_wf : wfw initial.
Proof. split; simpl; try constructor. apply length_replicate. Qed.
Lemma writer_new_spec pc : pc ≤ lc →
  match BcWriter_new (V:=V) (TC:=TC) (D:=D) (KM:=KM) lc pc with
  | Ok w => w = marked (seq 0 pc) initial | Err _ => True | Fault _ => False end.
Proof.
  intros Hpc. unfold BcWriter_new. fold initial.
  assert (wp (_ ← w_assert (pc <=? lc); _ ← w_u32 (N.of_nat lc); mark_locals (seq 0 pc) : M ()) initial
    (λ _ w, w = marked (seq 0 pc) initial)) as Hwp.
  { apply wp_bind, w_assert_wp; [by apply Nat.leb_le|]. apply wp_bind, w_u32_wp. apply mark_locals_wp; [|done].
    simpl. rewrite length_replicate. intros x Hx%elem_of_seq. lia. }
  unfold wp in Hwp. destruct ((w_assert (pc <=? lc) ≫= _) initial) as [[u|e|f] w]; done.
Qed.

Record frame_ready (pc : nat) (ls : list (option V)) : Prop := {
  fo_len : length ls = lc;
  fo_params x : x < pc → ∃ v, ls !! x = Some (Some v);
}.
Lemma finish_wp w (Q : Bc V TC D KM → BcWriter → Prop) :
  w_stack_size w = 0 → w_for_loops w = [] →
  Q (mkBc (prog w) (w_stmt_locs w) (w_local_count w) (w_max_stack_size w) (w_max_loop_depth w)) w → wp writer_finish w Q.
Proof.
  intros Hs Hl HQ. unfold writer_finish. apply wp_bind. unfold gets, wp at 1. apply wp_bind, w_assert_wp; [by rewrite Hs|].
  apply wp_bind, w_assert_wp; [by rewrite Hl|]. by apply wp_bind, ip_wp, wp_ret.
Qed.
Lemma start_agree w (bc : Bc V TC D KM) ls h :
  length ls = w_local_count w → bc_local_count bc = w_local_count w → bc_max_stack_size bc = w_max_stack_size w →
  bc_max_loop_depth bc = w_max_loop_depth w → agree w (mkSt ls h) (start bc ls h).
Proof.
  intros Hlen Hlc Hms Hd. unfold start. rewrite Hlc, Hms, Hd. split; simpl; try done.
  - by apply take_app_length'.
  - rewrite length_app, length_drop, length_replicate. lia.
  - apply length_replicate.
Qed.

(** The code of a body, wherever it starts. *)
Lemma as_bc_spec c pc : wf_body lc c = true → pc ≤ lc →
  match as_bc hrt c lc pc with
  | Ok bc => ∀ ls h n, frame_ready pc ls →
    sim (bc_instrs bc) n (do _u, s <~ run_stmts n c (mkSt ls h); return_value hrt (fall_through c) new_none s)
      (start bc ls h) (λ _ _ _, True)
  | Err _ => True
  | Fault _ => False
  end.
Proof.
  intros Hwf Hpc. unfold as_bc. pose proof (writer_new_spec pc Hpc) as Hnew.
  destruct (BcWriter_new lc pc) as [w|e|f]; try done. cbn beta iota delta [mbind result_bind]. rewrite Hnew. clear Hnew.
  set (w0 := marked (seq 0 pc) initial). assert (wfw w0) as Hw by apply marked_wf, initial_wf.
  match goal with |- match match ?prg w0 with _ => _ end with _ => _ end =>
    enough (wp prg w0 (λ bc _, ∀ ls h n, frame_ready pc ls →
      sim (bc_instrs bc) n (do _u, s <~ run_stmts n c (mkSt ls h); return_value hrt (fall_through c) new_none s)
        (start bc ls h) (λ _ _ _, True))) as Hwp
  end.
  { unfold wp in Hwp. match goal with |- match match ?x with _ => _ end with _ => _ end => destruct x as [[bc|e|f] w1] end; done. }
  eapply (wp_equiv (_ ← (_ ← write_stmts hrt c; write_end c); writer_finish)); [intros s; symmetry; apply run_bind_assoc|].
  apply wp_bind. eapply wp_mono; [exact (writes_body_end c w0 0%N Hwf Hw eq_refl eq_refl)|]. intros _ w1 (new & Hn & Hr).
  pose proof (wr_grows _ _ _ _ Hn) as G. assert (new = []) as -> by by apply (gr_top _ _ _ G).
  apply finish_wp; [apply Hn|by rewrite (gr_loops _ _ _ G)|]. intros ls h n Hfr.
  pose proof (gr_local_count _ _ _ G) as Hlc. change (w_local_count w0) with lc in Hlc.
  set (bc := mkBc _ _ _ _ _). assert (fin w1 w1) as HF.
  { split; [apply (grows_le [] w1 w1), grows_refl|]. apply Hn. }
  assert (rel w0 w1 (mkSt ls h) (start bc ls h)) as Hrel.
  { split; [done|]. split; [apply start_agree; try done; by rewrite Hlc, (fo_len _ _ Hfr)|]. intros x Hx.
    apply mark_lookup in Hx as [Hx|Hx]; [apply elem_of_seq in Hx; apply Hfr; lia|].
    simpl in Hx. apply lookup_replicate in Hx as [? ?]. done. }
  eapply sim_mono; [exact (Hr w1 HF (Forall_nil_2 _) n (mkSt ls h) (start bc ls h) Hrel I)|done].
Qed.

Lemma compiled_sim c pc bc ls h n :
  wf_body lc c = true → pc ≤ lc → as_bc hrt c lc pc = Ok bc → frame_ready pc ls →
  match exec_body n hrt c (mkSt ls h) with
  | Some o => bc_ends bc ls h o
  | None => ∃ k m, n ≤ k ∧ bc_run bc k ls h = inl m
  end.
Proof.
  intros Hwf Hpc Hbc Hfr. pose proof (as_bc_spec c pc Hwf Hpc) as Hs. rewrite Hbc in Hs.
  specialize (Hs ls h n Hfr). rewrite <- exec_body_run in Hs. by destruct (exec_body n hrt c (mkSt ls h)).
Qed.
End body.

Section runs.
Context `{W : World V H E TC D KM MB} `{!InstrLayout V TC D KM}.
Implicit Types (bc : Bc V TC D KM) (ls : list (option V)) (h : H) (o : Outcome V H E).

(** A run that has ended has, and one that goes on had not. *)
Lemma bc_run_inl bc k k' ls h m : k' ≤ k → bc_run bc k ls h = inl m → ∃ m', bc_run bc k' ls h = inl m'.
Proof.
  unfold bc_run. intros Hk. replace k with (k' + (k - k')) by lia. rewrite run_block_add.
  destruct (run_block _ k' _) as [m'|o]; [by eexists|done].
Qed.
Lemma bc_ends_det bc ls h o o' : bc_ends bc ls h o → bc_ends bc ls h o' → o = o'.
Proof.
  unfold bc_ends, bc_run. intros [k Hk] [k' Hk']. destruct (Nat.le_ge_cases k k') as [Hle|Hle].
  - replace k' with (k + (k' - k)) in Hk' by lia. rewrite run_block_add, Hk in Hk'. congruence.
  - replace k with (k' + (k - k')) in Hk by lia. rewrite run_block_add, Hk' in Hk. congruence.
Qed.
Lemma bc_ends_not_diverges bc ls h o : bc_ends bc ls h o → ¬ bc_diverges bc ls h.
Proof. intros [k Hk] Hd. destruct (Hd k) as [m Hm]. congruence. Qed.
End runs.

(** * The compiler is correct *)

Section correct.
Context `{W : World V H E TC D KM MB} `{!WorldOk V H E TC D KM MB} `{!InstrLayout V TC D KM}.
Context (hrt : bool) (lc pc : nat) (c : list (Spanned (StmtCompiled V TC D))).
Context (Hwf : wf_body lc c = true) (Hpc : pc ≤ lc).

Lemma compiles : (∃ bc, as_bc hrt c lc pc = Ok bc) ∨ as_bc hrt c lc pc = Err TooBig.
Proof.
  pose proof (as_bc_spec hrt lc c pc Hwf Hpc) as Hs. destruct (as_bc hrt c lc pc) as [bc|[]|f]; [left; by exists bc|by right|done].
Qed.
Context (bc : Bc V TC D KM) (ls : list (option V)) (h : H) (Hbc : as_bc hrt c lc pc = Ok bc) (Hls : frame_ready lc pc ls).
(** A run that ends is that of the evaluator with enough rounds. *)
Lemma ends_rounds o : bc_ends bc ls h o → ∃ n, 0 < n ∧ exec_body n hrt c (mkSt ls h) = Some o.
Proof.
  intros [k Hk]. exists (S k). split; [lia|].
  pose proof (compiled_sim hrt lc c pc bc ls h (S k) Hwf Hpc Hbc Hls) as Hs. destruct (exec_body (S k) hrt c (mkSt ls h)) as [o'|].
  - f_equal. apply (bc_ends_det bc ls h); [done|by exists k].
  - destruct Hs as (k' & m & Hle & Hm). destruct (bc_run_inl bc k' k ls h m ltac:(lia) Hm). congruence.
Qed.
Lemma ends_iff o : bc_ends bc ls h o ↔ ∃ n, exec_body n hrt c (mkSt ls h) = Some o.
Proof.
  split; [intros (n & _ & Hn)%ends_rounds; by exists n|]. intros [n Hn].
  pose proof (compiled_sim hrt lc c pc bc ls h n Hwf Hpc Hbc Hls) as Hs. by rewrite Hn in Hs.
Qed.
Lemma diverges_iff : bc_diverges bc ls h ↔ ∀ n, exec_body n hrt c (mkSt ls h) = None.
Proof.
  split.
  - intros Hd n. destruct (exec_body n hrt c (mkSt ls h)) as [o|] eqn:Hn; [|done].
    destruct (bc_ends_not_diverges bc ls h o); [|done]. apply ends_iff. by exists n.
  - intros Hn k. pose proof (compiled_sim hrt lc c pc bc ls h k Hwf Hpc Hbc Hls) as Hs. rewrite Hn in Hs.
    destruct Hs as (k' & m & Hle & Hm). by apply (bc_run_inl bc k' k ls h m).
Qed.
End correct.
