(* ===== verification/IrSafe.v ===== *)
(** Evaluation has no undefined behaviour of its own: on a frame with the variables that well-formed code
    names, it has some only if an operation of a value has.  With the correctness of the compiler, the
    interpreter's reads and writes of slots without checks are in bounds and find values. *)

From S2P Require Import Prelude Hashing TableMap FastString Symbol CodeMap.
From S2P Require Import DefParams OrdMap ParamSpec Def DefSpec Ir IrWf World IrEval.

(** ** Operations *)

(** Which values are lists and which are dictionaries: the two instructions that add an element to the container of a
    comprehension take the value in their slot for one without looking ([from_value_unchecked_mut]). *)
Class Containers (V H : Type) := {
  is_list : V → H → Prop;
  is_dict : V → H → Prop;
}.

Section no_ub.
Context {V H E : Type} `{!Containers V H}.
Definition result_safe {A} (r : result E A) : Prop := match r with Fault UndefinedBehaviour => False | _ => True end.
(** What is a list or a dictionary remains one. *)
Definition grows (h h' : H) : Prop := (∀ v, is_list v h → is_list v h') ∧ (∀ v, is_dict v h → is_dict v h').
Definition safe_at {A} (o : Op H E A) (h : H) : Prop := result_safe (o h).1 ∧ grows h (o h).2.
Definition no_ub {A} (o : Op H E A) : Prop := ∀ h, safe_at o h.
#[export] Instance grows_preorder : PreOrder grows.
Proof. split; [by split|]. intros h1 h2 h3 [] []. split; auto. Qed.
End no_ub.

(** The methods of values are safe: they may panic. The heap keeps what is a list and what is a
    dictionary: memory is collected between the statements of a module only ([possible_gc] is left out).
    Adding to a container is safe when it is one of the right kind, and only then. *)
Class WorldSafe (V H E TC D KM MB : Type) `{World V H E TC D KM MB} `{!Containers V H} := {
  get_hashed_safe v : result_safe (get_hashed v);
  equals_safe a b : no_ub (v_equals a b);
  compare_safe a b : no_ub (v_compare a b);
  is_in_safe a b : no_ub (is_in a b);
  minus_safe a : no_ub (v_minus a);
  plus_safe a : no_ub (v_plus a);
  bit_not_safe a : no_ub (bit_not a);
  sub_safe a b : no_ub (v_sub a b);
  add_safe a b : no_ub (v_add a b);
  mul_safe a b : no_ub (v_mul a b);
  percent_safe a b : no_ub (v_percent a b);
  div_safe a b : no_ub (v_div a b);
  floor_div_safe a b : no_ub (v_floor_div a b);
  bit_and_safe a b : no_ub (bit_and a b);
  bit_or_safe a b : no_ub (bit_or a b);
  bit_xor_safe a b : no_ub (bit_xor a b);
  left_shift_safe a b : no_ub (left_shift a b);
  right_shift_safe a b : no_ub (right_shift a b);
  at_safe a i : no_ub (v_at a i);
  at2_safe a i j : no_ub (v_at2 a i j);
  slice_safe l a b c : no_ub (v_slice l a b c);
  length_safe v : no_ub (v_length v);
  set_at_safe a i v : no_ub (set_at a i v);
  set_attr_safe a f v : no_ub (set_attr a f v);
  add_assign_safe a b : no_ub (add_assign a b);
  bit_or_assign_safe a b : no_ub (bit_or_assign a b);
  percent_s_one_safe a v b : no_ub (percent_s_one a v b);
  iterate_safe v : no_ub (v_iterate v);
  list_push_safe l v h : is_list l h → safe_at (list_push l v) h;
  dict_insert_safe d k v h : is_dict d h → safe_at (dict_insert_hashed d k v) h;
  alloc_list_is_list l h : is_list (h_alloc_list l h).1 (h_alloc_list l h).2;
  alloc_dict_is_dict l h : is_dict (h_alloc_dict l h).1 (h_alloc_dict l h).2;
  alloc_list_grows l h : grows h (h_alloc_list l h).2;
  alloc_dict_grows l h : grows h (h_alloc_dict l h).2;
  alloc_tuple_grows l h : grows h (h_alloc_tuple l h).2;
  alloc_int_grows z h : grows h (alloc_int z h).2;
  alloc_value_captured_grows v h : grows h (alloc_value_captured v h).2;
  format_one_grows a v b h : grows h (format_one a v b h).2;
  iter_next_grows it i h : grows h (iter_next it i h).2;
  iter_stop_grows it h : grows h (iter_stop it h);
  set_slot_module_grows x v h : grows h (set_slot_module x v h);
  get_attr_safe v f : no_ub (get_attr_hashed_bind v f);
  get_attr_raw_safe v f : no_ub (get_attr_hashed_raw v f);
  member_invoke_safe m v sp a : no_ub (member_invoke m v sp a);
  invoke_safe f sp a : no_ub (invoke_with_loc f sp a);
  check_type_safe t v : no_ub (check_type t v);
  check_return_type_safe v : no_ub (check_return_type v);
  get_slot_module_safe x : no_ub (get_slot_module x);
  export_as_safe v n : no_ub (export_as v n);
  value_captured_set_safe c v : no_ub (value_captured_set c v);
  instr_def_safe d vs ls : no_ub (instr_def d vs ls);
}.
Create HintDb safe.
#[export] Hint Resolve get_hashed_safe equals_safe compare_safe is_in_safe minus_safe plus_safe bit_not_safe sub_safe add_safe
  mul_safe percent_safe div_safe floor_div_safe bit_and_safe bit_or_safe bit_xor_safe left_shift_safe right_shift_safe
  at_safe at2_safe slice_safe length_safe set_at_safe set_attr_safe add_assign_safe bit_or_assign_safe percent_s_one_safe
  iterate_safe get_attr_safe get_attr_raw_safe member_invoke_safe invoke_safe check_type_safe
  check_return_type_safe get_slot_module_safe export_as_safe value_captured_set_safe instr_def_safe
  alloc_list_is_list alloc_dict_is_dict alloc_list_grows alloc_dict_grows alloc_tuple_grows alloc_int_grows alloc_value_captured_grows
  format_one_grows iter_next_grows iter_stop_grows set_slot_module_grows : safe.

Section safe.
Context `{WO : WorldOk V H E TC D KM MB} `{!Containers V H} `{!WorldSafe V H E TC D KM MB}.
Local Abbreviation out := (out V H E).
Local Abbreviation Expr := (Spanned (ExprCompiled V TC D)).
Context (lc : nat).
Implicit Types (s : St V H) (sp : Span).

Lemma no_ub_pure {A} (f : H → result E A) : (∀ h, result_safe (f h)) → no_ub (λ h, (f h, h)).
Proof. intros Hf h. by split; [apply Hf|]. Qed.
Lemma no_ub_map {A B} (o : Op H E A) (f : A → B) : no_ub o → no_ub (λ h, let '(r, h) := o h in (f <$> r, h)).
Proof. intros Ho h. specialize (Ho h). unfold safe_at in *. by destruct (o h) as [[a|e|[]] h1]. Qed.
Lemma no_ub_then {A B} (o : Op H E A) (g : A → Op H E B) : no_ub o → (∀ a, no_ub (g a)) →
  no_ub (λ h, match o h with (Ok a, h) => g a h | (Err e, h) => (Err e, h) | (Fault f, h) => (Fault f, h) end).
Proof.
  intros Ho Hg h. specialize (Ho h). unfold safe_at in *. destruct (o h) as [[a|e|[]] h1]; try done.
  destruct (Hg a h1) as [Hr Hgrow]. split; [exact Hr|]. etrans; [apply Ho|exact Hgrow].
Qed.
Lemma no_ub_alloc {A} (o : H → A * H) : (∀ h, grows h (o h).2) → no_ub (E:=E) (λ h, let '(r, h) := o h in (Ok r, h)).
Proof. intros Ho h. specialize (Ho h). unfold safe_at. by destruct (o h). Qed.

Lemma op_bool_safe (o : Op H E bool) : no_ub o → no_ub (op_bool o).
Proof. apply no_ub_map. Qed.
Lemma builtin1_safe op v : no_ub (builtin1 op v).
Proof. destruct op; simpl; auto using no_ub_alloc with safe; by apply no_ub_pure. Qed.
Lemma builtin2_safe op a b : no_ub (Builtin2_eval op a b).
Proof. destruct op; simpl; auto using op_bool_safe, no_ub_map with safe. Qed.
Lemma assign_op_safe op a b : no_ub (assign_op op a b).
Proof. destruct op; simpl; auto with safe. Qed.
Lemma len_op_safe v : no_ub (len_op v).
Proof. apply (no_ub_then (v_length v)); auto using no_ub_alloc with safe. Qed.
Lemma build_dict_safe l sps m : no_ub (E:=E) (H:=H) (build_dict l sps m).
Proof.
  revert sps m. induction l as [|[k v] l IH]; intros [|sp sps] m h; try (by split); cbn [build_dict]; unfold safe_at; cbn.
  pose proof (get_hashed_safe k) as Hk. destruct (get_hashed k) as [hk|e|[]]; try done.
  destruct (insert_entry m _ v) as [[?|] m1]; [done|apply IH].
Qed.
Lemma make_dict_safe l sps : no_ub (make_dict l sps).
Proof. apply (no_ub_then (build_dict l sps [])); auto using no_ub_alloc, build_dict_safe with safe. Qed.
Lemma compr_insert_safe d k v h : is_dict d h → safe_at (compr_insert d k v) h.
Proof.
  intros Hd. unfold safe_at, compr_insert. pose proof (get_hashed_safe k) as Hk. destruct (get_hashed k) as [hk|e|[]]; try done.
  by apply dict_insert_safe.
Qed.
Lemma unpack_items_safe it n i : no_ub (E:=E) (unpack_items it n i).
Proof.
  revert i. induction n as [|n IH]; intros i h; unfold safe_at; simpl; pose proof (iter_next_grows it i h) as Hn;
    destruct (iter_next it i h) as [[x|] h1]; try done; simpl in *.
  - split; [done|]. etrans; [exact Hn|apply iter_stop_grows].
  - destruct (no_ub_map _ (cons x) (IH (i + 1)) h1) as [Hr Hg]. split; [exact Hr|]. by etrans.
  - split; [done|]. etrans; [exact Hn|apply iter_stop_grows].
Qed.
Lemma unpack_safe n v : no_ub (unpack n v).
Proof.
  apply (no_ub_then (v_length v)); [auto with safe|]. intros k h. destruct (negb _); [by split|].
  revert h. apply (no_ub_then (v_iterate v)); auto using unpack_items_safe with safe.
Qed.
Lemma call_method_safe this symbol a sp : no_ub (call_method this symbol a sp).
Proof. apply (no_ub_then (get_attr_hashed_raw this symbol)); auto with safe. Qed.

(** ** Computations *)

(** What is said of the heap as it grows: that it has a container in some place. *)
Class Stable (P : H → Prop) := stable h h' : grows h h' → P h → P h'.
Local Abbreviation always := (λ _ : H, True).
#[local] Instance stable_always : Stable always.
Proof. done. Qed.
Lemma stable_list P l : Stable P → Stable (λ h, P h ∧ is_list l h).
Proof. intros HP h h' Hg [Hh Hl]. split; [by eapply HP|by apply Hg]. Qed.
Lemma stable_dict P d : Stable P → Stable (λ h, P h ∧ is_dict d h).
Proof. intros HP h h' Hg [Hh Hd]. split; [by eapply HP|by apply Hg]. Qed.

Definition frame s : Prop := length (st_locals s) = lc.
Definition out_safe {A} (P : H → Prop) (r : option (out A)) : Prop :=
  match r with
  | Some (Done _ s) => frame s ∧ P (st_heap s)
  | Some (Exits (Faulted UndefinedBehaviour)) => False
  | _ => True
  end.
(** Without undefined behaviour from a heap with [P], to one with [P]. *)
Definition safe {A} (P : H → Prop) (f : St V H → option (out A)) : Prop :=
  ∀ s, frame s → P (st_heap s) → out_safe P (f s).

Lemma safe_weaken {A} (P Q : H → Prop) (r : option (out A)) :
  (∀ h, P h → Q h) → out_safe P r → out_safe Q r.
Proof. intros HPQ. destruct r as [[a s1|[| |[]]]|]; try done. intros [? ?]. split; auto. Qed.

Section computations.
Context {P : H → Prop} `{!Stable P}.
Local Abbreviation safe := (safe P).
Local Abbreviation out_safe := (out_safe P).

Lemma safe_bind {A B} (f : St V H → option (out A)) (g : A → St V H → option (out B)) :
  safe f → (∀ a, safe (g a)) → safe (λ s, do a, s <~ f s; g a s).
Proof. intros Hf Hg s Hs HP. specialize (Hf s Hs HP). destruct (f s) as [[a s1|[| |[]]]|]; try done. by apply Hg; apply Hf. Qed.
Lemma safe_ret {A} (a : A) : safe (ret a).
Proof. by intros s Hs HP. Qed.
Lemma safe_at_span_in {A} sp (o : Op H E A) : (∀ h, P h → safe_at o h) → safe (at_span sp o).
Proof.
  intros Ho s Hs HP. specialize (Ho _ HP). unfold at_span, safe_at in *. destruct (o (st_heap s)) as [[a|e|[]] h]; try done; [|by destruct Ho].
  split; [done|]. by eapply stable; [apply Ho|].
Qed.
Lemma safe_at_span {A} sp (o : Op H E A) : no_ub o → safe (at_span sp o).
Proof. intros Ho. by apply safe_at_span_in. Qed.
Lemma safe_with_heap {A} (o : H → A * H) : (∀ h, grows h (o h).2) → safe (with_heap o).
Proof. intros Ho s Hs HP. unfold with_heap. specialize (Ho (st_heap s)). destruct (o (st_heap s)). split; [done|by eapply stable]. Qed.
Lemma safe_if {A} (c : St V H → bool) (f g : St V H → option (out A)) : safe f → safe g → safe (λ s, if c s then f s else g s).
Proof. intros Hf Hg s Hs HP. destruct (c s); [by apply Hf|by apply Hg]. Qed.
Lemma safe_ext {A} (f g : St V H → option (out A)) : (∀ s, f s = g s) → safe g → safe f.
Proof. intros Hfg Hg s Hs HP. rewrite Hfg. by apply Hg. Qed.
Lemma safe_get_local sp x : x < lc → safe (get_local sp x).
Proof.
  intros Hx s Hs HP. unfold get_local. unfold frame in Hs. destruct (lookup_lt_is_Some_2 (st_locals s) x) as [o Ho]; [lia|].
  rewrite Ho. by destruct o.
Qed.
Lemma safe_get_captured sp x : x < lc → safe (get_captured sp x).
Proof.
  intros Hx. apply safe_bind; [by apply safe_get_local|]. intros c s Hs HP.
  by destruct (value_captured_get c (st_heap s)).
Qed.
Lemma safe_set_local x v : x < lc → safe (set_local x v).
Proof.
  intros Hx s Hs HP. unfold set_local. rewrite (proj2 (Nat.ltb_lt _ _)) by (unfold frame in Hs; lia).
  split; [|done]. unfold frame. simpl. by rewrite length_insert.
Qed.
Lemma safe_set_captured sp x v : x < lc → safe (set_captured sp x v).
Proof.
  intros Hx s Hs HP. unfold set_captured. destruct (lookup_lt_is_Some_2 (st_locals s) x) as [o Ho]; [unfold frame in Hs; lia|].
  rewrite Ho. destruct o as [c|].
  - apply safe_at_span; [|done..]. auto with safe.
  - clear Ho. revert s Hs HP. apply safe_bind; [apply safe_with_heap; auto with safe|]. intros c. by apply safe_set_local.
Qed.
Lemma safe_make_def sp d vs : safe (make_def sp d vs).
Proof.
  intros s Hs HP. unfold make_def. destruct (instr_def_safe d vs (st_locals s) (st_heap s)) as [Hr Hg].
  destruct (instr_def d vs (st_locals s) (st_heap s)) as [[[v ls]|e|[]] h] eqn:He; try done.
  apply instr_def_locals in He as [Hl _]. split; [unfold frame in *; simpl; congruence|by eapply stable].
Qed.

Lemma safe_list {A B} (f : A → St V H → option (out B)) (l : list A) : Forall (λ x, safe (f x)) l → safe (eval_list f l).
Proof.
  induction 1 as [|x l Hx Hl IH]; [apply safe_ret|]. apply safe_bind; [done|]. intros v. apply safe_bind; [done|].
  intros vs. apply safe_ret.
Qed.
Lemma safe_option {A B} (f : A → St V H → option (out B)) (o : option A) :
  match o with Some x => safe (f x) | None => True end → safe (eval_option f o).
Proof. destruct o; simpl; [|intros; apply safe_ret]. intros Hx. apply safe_bind; [done|]. intros v. apply safe_ret. Qed.
Lemma safe_pairs {A B} (f : A → St V H → option (out B)) (l : list (A * A)) :
  Forall (λ x, safe (f x.1) ∧ safe (f x.2)) l → safe (eval_pairs f l).
Proof.
  induction 1 as [|[k v] l [Hk Hv] Hl IH]; [apply safe_ret|]. apply safe_bind; [done|]. intros kv. apply safe_bind; [done|].
  intros vv. apply safe_bind; [done|]. intros vs. apply safe_ret.
Qed.
Lemma safe_assign_list {A} (f : A → V → St V H → option (out ())) (l : list A) :
  Forall (λ x, ∀ v, safe (f x v)) l → ∀ vs, safe (assign_list f l vs).
Proof.
  induction 1 as [|x l Hx Hl IH]; intros [|v vs]; try apply safe_ret. apply safe_bind; [apply Hx|]. intros u. apply IH.
Qed.
Lemma safe_rounds (body : V → V → St V H → option (out Flow)) it :
  (∀ x, safe (body it x)) → ∀ k i, safe (loop_rounds body it k i).
Proof.
  intros Hb k. induction k as [|k IH]; intros i s Hs HP; [done|]. simpl.
  pose proof (iter_next_grows it i (st_heap s)) as Hn.
  destruct (iter_next it i (st_heap s)) as [[x|] h].
  - specialize (Hb x (mkSt (st_locals s) h) Hs (stable _ _ Hn HP)). destruct (body it x _) as [[f s1|[| |[]]]|]; try done.
    destruct Hb as [Hs1 HP1]. destruct f; simpl; [by apply IH| |by apply IH].
    split; [done|]. eapply stable; [apply iter_stop_grows|done].
  - split; [done|]. eapply stable; [|exact HP]. etrans; [exact Hn|apply iter_stop_grows].
Qed.
Lemma safe_for_loop n sp o (body : V → V → St V H → option (out Flow)) :
  (∀ it x, safe (body it x)) → safe (for_loop n sp o body).
Proof. intros Hb. apply safe_bind; [apply safe_at_span; auto with safe|]. intros it. by apply safe_rounds. Qed.
Lemma safe_exec_list {A} (f : A → St V H → option (out Flow)) (l : list A) :
  Forall (λ x, safe (f x)) l → safe (exec_list f l).
Proof.
  induction 1 as [|x l Hx Hl IH]; [apply safe_ret|]. apply safe_bind; [done|]. intros []; [exact IH|apply safe_ret..].
Qed.

End computations.

(** A new container is there while the clauses run. *)
Lemma safe_container {P : H → Prop} `{!Stable P} {A} (o : H → V * H) (Q : V → H → Prop) (f : V → St V H → option (out A)) :
  (∀ h, grows h (o h).2) → (∀ h, Q (o h).1 (o h).2) → (∀ l, safe (λ h, P h ∧ Q l h) (f l)) →
  safe P (λ s, do l, s <~ with_heap o s; f l s).
Proof.
  intros Hg HQ Hf s Hs HP. unfold with_heap. specialize (Hg (st_heap s)). specialize (HQ (st_heap s)).
  destruct (o (st_heap s)) as [l h]. apply (safe_weaken (λ h, P h ∧ Q l h)); [by intros ? []|].
  apply Hf; [done|]. split; [by eapply stable|done].
Qed.

(** ** Expressions *)

Definition safe_expr (e : ExprCompiled V TC D) : Prop := wf_expr lc e = true → ∀ P, Stable P → ∀ n sp, safe P (eval n sp e).
Definition safe_object (e : ExprCompiled V TC D) : Prop := match e with ExprBuiltin1 _ e => safe_expr (node e) | _ => True end.
Definition safe_deep e : Prop := safe_expr e ∧ safe_object e.
Definition safe_compr (c : ComprCompiled V TC D) : Prop := wf_compr lc c = true → ∀ P, Stable P → ∀ n sp, safe P (eval_compr n sp c).
Definition safe_clause (c : ClauseCompiled V TC D) : Prop :=
  wf_clause lc c = true → ∀ P, Stable P → ∀ n term, safe P term → safe P (eval_clause n c term).
Definition safe_target (a : AssignCompiledValue V TC D) : Prop := wf_target lc a = true → ∀ P, Stable P → ∀ n sp v, safe P (assign n sp a v).

Section lists.
Context {P : H → Prop} `{!Stable P}.
Lemma safe_on n (xs : list Expr) :
  Forall (on safe_deep) xs → forallb (λ e, wf_expr lc (node e)) xs = true → safe P (eval_list (λ e, eval n (span e) (node e)) xs).
Proof.
  intros Hxs Hwf. apply safe_list. induction Hxs as [|x xs [Hx _] Hxs IH]; constructor; simpl in Hwf; apply andb_true_iff in Hwf as [? ?].
  - by apply Hx.
  - by apply IH.
Qed.
Lemma safe_on_option n (o : option Expr) :
  on_option safe_deep o → match o with Some e => wf_expr lc (node e) | None => true end = true →
  safe P (eval_option (λ e, eval n (span e) (node e)) o).
Proof. intros Ho Hwf. apply safe_option. destruct o as [e|]; [|done]. by apply Ho. Qed.
Lemma safe_clauses n (cs : list (ClauseCompiled V TC D)) term :
  Forall safe_clause cs → forallb (wf_clause lc) cs = true → safe P term → safe P (run_clauses (eval_clause n) cs term).
Proof.
  intros Hcs. revert term. induction Hcs as [|c cs Hc Hcs IH]; intros term Hwf Ht; [done|]. simpl in *.
  apply andb_true_iff in Hwf as [? ?]. apply IH; [done|]. by apply Hc.
Qed.
Lemma safe_ifs n (ifs : list Expr) term :
  Forall (on safe_deep) ifs → forallb (λ e, wf_expr lc (node e)) ifs = true → safe P term →
  safe P (run_ifs (λ e, eval n (span e) (node e)) term ifs).
Proof.
  intros Hifs Hwf Ht. induction Hifs as [|c ifs [Hc _] Hifs IH]; simpl in *.
  - apply safe_bind; [done|]. intros _. apply safe_ret.
  - apply andb_true_iff in Hwf as [? ?]. apply safe_bind; [by apply Hc|]. intros v.
    apply (safe_if (λ s, to_bool v (st_heap s))); [by apply IH|apply safe_ret].
Qed.
Lemma safe_args n (a : ArgsCompiledValue Expr) :
  Forall (on safe_deep) (ca_pos_named a) → on_option safe_deep (ca_args a) → on_option safe_deep (ca_kwargs a) →
  forallb (λ e, wf_expr lc (node e)) (ca_pos_named a) = true →
  match ca_args a with Some e => wf_expr lc (node e) | None => true end = true →
  match ca_kwargs a with Some e => wf_expr lc (node e) | None => true end = true →
  safe P (eval_args (λ e, eval n (span e) (node e)) a).
Proof.
  intros. apply safe_bind; [by apply safe_on|]. intros vs. apply safe_bind; [by apply safe_on_option|]. intros args.
  apply safe_bind; [by apply safe_on_option|]. intros kwargs. apply safe_ret.
Qed.
Lemma safe_call n sp (c : CallCompiled Expr) :
  wf_expr lc (Call (mkSpanned sp c)) = true → safe_deep (node (call_fun c)) → Forall (on safe_deep) (ca_pos_named (call_args c)) →
  on_option safe_deep (ca_args (call_args c)) → on_option safe_deep (ca_kwargs (call_args c)) →
  safe P (eval_call (λ e, eval n (span e) (node e)) sp c).
Proof.
  intros Hwf [Hf Ho] Hp Ha Hk. simpl in Hwf. bool_to_prop. unfold eval_call, with_len, with_type.
  assert (safe P (eval_args (λ e, eval n (span e) (node e)) (call_args c))) as Hargs by by apply safe_args.
  assert (Forall (λ e, safe P (eval n (span e) (node e))) (ca_pos_named (call_args c))) as Hpos.
  { match goal with Hf : forallb (λ e, wf_expr lc (node e)) _ = true |- _ => revert Hf end. clear -Hp Stable0.
    induction Hp as [|x xs [Hx _] Hxs IH]; constructor; simpl in *; bool_to_prop; [by apply Hx|by apply IH]. }
  assert (safe P (eval_invoke (λ e, eval n (span e) (node e)) sp c)) as Hinv.
  { unfold eval_invoke. destruct (with_method_cases c) as [(this & field & Hm & Hx)|Hn].
    - eapply safe_ext; [intros s; by rewrite Hx|]. rewrite Hm in *. apply safe_bind.
      + by apply Ho.
      + intros v. apply safe_bind; [done|]. intros a. apply safe_at_span, call_method_safe.
    - eapply safe_ext; [intros s; by rewrite Hn|]. apply safe_bind; [by apply Hf|]. intros v. apply safe_bind; [done|].
      intros a. apply safe_at_span; auto with safe. }
  destruct (with_fn_cases is_fn_len c) as [(f & x & Hc & Hx)|Hn].
  { eapply safe_ext; [intros s; by rewrite Hx|]. rewrite Hc in Hpos. apply (proj1 (Forall_singleton _ _)) in Hpos.
    apply safe_bind; [done|]. intros v. apply safe_at_span, len_op_safe. }
  eapply safe_ext; [intros s; by rewrite Hn|]. clear Hn.
  destruct (with_fn_cases is_fn_type c) as [(f & x & Hc & Hx)|Hn].
  { eapply safe_ext; [intros s; by rewrite Hx|]. rewrite Hc in Hpos. apply (proj1 (Forall_singleton _ _)) in Hpos.
    apply safe_bind; [done|]. intros v. apply safe_ret. }
  eapply safe_ext; [intros s; by rewrite Hn|]. clear Hn.
  destruct (with_isinstance_cases is_fn_isinstance c) as [(f & x & st & t & Hc & Hx)|Hn].
  - eapply safe_ext; [intros s; by rewrite Hx|]. destruct (new_frozen t) as [ty|]; [|exact Hinv].
    rewrite Hc in Hpos. apply Forall_cons in Hpos as [Hpos _]. apply safe_bind; [done|]. by intros v s Hs.
  - eapply safe_ext; [intros s; by rewrite Hn|]. exact Hinv.
Qed.
Lemma safe_defaults n (l : list (Spanned (ParameterCompiled TC Expr))) :
  Forall (on_default safe_deep) l →
  forallb (λ p, match node p with CompiledNormal _ _ (Some e) => wf_expr lc (node e) | _ => true end) l = true →
  safe P (eval_defaults (λ e, eval n (span e) (node e)) l).
Proof.
  intros Hl Hwf. induction Hl as [|p l Hp Hl IH]; simpl; [apply safe_ret|]. unfold on_default in Hp. simpl in Hwf.
  apply andb_true_iff in Hwf as [Hwfp Hwf]. specialize (IH Hwf). destruct (node p) as [? ? [e|]| |]; [|exact IH..].
  apply safe_bind; [by apply Hp|]. intros v. apply safe_bind; [exact IH|]. intros vs. apply safe_ret.
Qed.
End lists.

Lemma safe_leaf (e : ExprCompiled V TC D) : safe_expr e → (∀ op x, e ≠ ExprBuiltin1 op x) → safe_deep e.
Proof. intros He Hn. split; [done|]. destruct e; try done. by edestruct Hn. Qed.
Lemma safe_ev P `{!Stable P} n (e : Expr) : safe_deep (node e) → wf_expr lc (node e) = true → safe P (eval n (span e) (node e)).
Proof. intros [He _] Hwf. by apply He. Qed.

Lemma ir_safe : ir_cases safe_deep safe_compr safe_clause safe_target.
Proof.
  split.
  - intros v. apply safe_leaf; [|done]. intros _ P HP n sp. apply safe_ret.
  - intros x. apply safe_leaf; [|done]. intros Hx P HP n sp. apply safe_get_local. by apply Nat.ltb_lt.
  - intros x. apply safe_leaf; [|done]. intros Hx P HP n sp. apply safe_get_captured. by apply Nat.ltb_lt.
  - intros x. apply safe_leaf; [|done]. intros _ P HP n sp. apply safe_at_span; auto with safe.
  - intros xs Hxs. apply safe_leaf; [|done]. intros Hwf P HP n sp. apply safe_bind; [by apply safe_on|]. intros vs. apply safe_with_heap; auto with safe.
  - intros xs Hxs. apply safe_leaf; [|done]. intros Hwf P HP n sp. apply safe_bind; [by apply safe_on|]. intros vs. apply safe_with_heap; auto with safe.
  - intros kvs Hkvs. apply safe_leaf; [|done]. intros Hwf P HP n sp. apply safe_bind; [|intros l; apply safe_at_span, make_dict_safe].
    apply safe_pairs. simpl in Hwf. clear -Hkvs Hwf HP. induction Hkvs as [|[k v] kvs [Hk Hv] Hkvs IH]; constructor; simpl in *; bool_to_prop.
    + by split; apply safe_ev.
    + by apply IH.
  - intros c Hc. apply safe_leaf; [|done]. exact Hc.
  - intros c t f Hc Ht Hf. apply safe_leaf; [|done]. intros Hwf P HP n sp. simpl in Hwf. bool_to_prop.
    apply safe_bind; [by apply safe_ev|]. intros v. by apply (safe_if (λ s, to_bool v (st_heap s))); apply safe_ev.
  - intros l a b c Hl Ha Hb Hc. apply safe_leaf; [|done]. intros Hwf P HP n sp. simpl in Hwf. bool_to_prop.
    apply safe_bind; [by apply safe_ev|]. intros vl. apply safe_bind; [by apply safe_on_option|]. intros va.
    apply safe_bind; [by apply safe_on_option|]. intros vb. apply safe_bind; [by apply safe_on_option|]. intros vc.
    apply safe_at_span; auto with safe.
  - intros op e He. split; [|apply He]. intros Hwf P HP n sp. apply safe_bind; [by apply safe_ev|]. intros v.
    apply safe_at_span, builtin1_safe.
  - intros op a b Ha Hb. apply safe_leaf; [|done]. intros Hwf P HP n sp. simpl in Hwf. bool_to_prop.
    apply safe_bind; [by apply safe_ev|]. intros v.
    apply (safe_if (λ s, Bool.eqb (to_bool v (st_heap s)) (bool_decide (op = And)))); [by apply safe_ev|apply safe_ret].
  - intros a b Ha Hb. apply safe_leaf; [|done]. intros Hwf P HP n sp. simpl in Hwf. bool_to_prop.
    apply safe_bind; [by apply safe_ev|]. intros _. by apply safe_ev.
  - intros op a b Ha Hb. apply safe_leaf; [|done]. intros Hwf P HP n sp. simpl in Hwf. bool_to_prop.
    apply safe_bind; [by apply safe_ev|]. intros v. apply safe_bind; [by apply safe_ev|]. intros v'.
    apply safe_at_span, builtin2_safe.
  - intros a b c Ha Hb Hc. apply safe_leaf; [|done]. intros Hwf P HP n sp. simpl in Hwf. bool_to_prop.
    apply safe_bind; [by apply safe_ev|]. intros v. apply safe_bind; [by apply safe_ev|]. intros v'.
    apply safe_bind; [by apply safe_ev|]. intros v''. apply safe_at_span; auto with safe.
  - intros c Hf Hp Ha Hk. apply safe_leaf; [|done]. intros Hwf P HP n sp. by apply safe_call.
  - intros d Hd. apply safe_leaf; [|done]. intros Hwf P HP n sp. simpl in Hwf. bool_to_prop.
    apply safe_bind; [by apply safe_defaults|]. intros vs. apply safe_make_def.
  - intros x cs Hx Hcs Hwf P HP n sp. simpl in Hwf. bool_to_prop. apply (safe_container _ is_list); [auto with safe..|]. intros l.
    pose proof (stable_list P l HP) as HPl. apply safe_bind; [|intros _; apply safe_ret].
    apply safe_clauses; [done..|]. apply safe_bind; [by apply safe_ev|].
    intros v. apply safe_at_span_in. intros h [_ Hl]. by apply list_push_safe.
  - intros k v cs Hk Hv Hcs Hwf P HP n sp. simpl in Hwf. bool_to_prop. apply (safe_container _ is_dict); [auto with safe..|]. intros d.
    pose proof (stable_dict P d HP) as HPd. apply safe_bind; [|intros _; apply safe_ret].
    apply safe_clauses; [done..|]. apply safe_bind; [by apply safe_ev|]. intros kv. apply safe_bind; [by apply safe_ev|].
    intros vv. apply safe_at_span_in. intros h [_ Hd]. by apply compr_insert_safe.
  - intros var over ifs Hv Ho Hi Hwf P HP n term Ht. simpl in Hwf. bool_to_prop. apply safe_bind; [by apply safe_ev|]. intros o.
    apply safe_for_loop. intros it x. apply safe_bind; [by apply Hv|]. intros _. by apply safe_ifs.
  - intros e field He Hwf P HP n sp v. simpl in Hwf. apply safe_bind; [by apply safe_ev|]. intros o. apply safe_at_span; auto with safe.
  - intros a i Ha Hi Hwf P HP n sp v. simpl in Hwf. bool_to_prop. apply safe_bind; [by apply safe_ev|]. intros av.
    apply safe_bind; [by apply safe_ev|]. intros iv. apply safe_at_span; auto with safe.
  - intros xs Hxs Hwf P HP n sp v. simpl in Hwf. apply safe_bind; [apply safe_at_span, unpack_safe|]. intros vs.
    apply safe_assign_list. clear -Hxs Hwf HP. induction Hxs as [|x xs Hx Hxs IH]; constructor; simpl in *; bool_to_prop.
    + intros v. by apply Hx.
    + by apply IH.
  - intros x Hx P HP n sp v. apply safe_set_local. by apply Nat.ltb_lt.
  - intros x Hx P HP n sp v. apply safe_set_captured. by apply Nat.ltb_lt.
  - intros x name _ P HP n sp v. apply safe_bind; [apply safe_at_span; auto with safe|]. intros _ s Hs Hh. split; [done|]. by eapply stable; [apply set_slot_module_grows|].
Qed.
Lemma expr_safe n (e : Expr) : wf_expr lc (node e) = true → safe always (eval n (span e) (node e)).
Proof. intros Hwf. apply safe_ev; [apply stable_always|apply (ir_induction _ _ _ _ ir_safe)|done]. Qed.
Lemma target_safe n sp a v : wf_target lc a = true → safe always (assign n sp a v).
Proof. intros Hwf. apply (ir_induction _ _ _ _ ir_safe); [done|apply stable_always]. Qed.

(** ** Statements *)

Lemma modify_safe n lhs op sp (rhs : Expr) :
  wf_expr lc (node rhs) = true → wf_modify lc lhs rhs = true → safe always (modify n lhs op sp rhs).
Proof.
  intros Hr Hwf. assert (∀ l (k : V → St V H → option (out ())), (∀ v, safe always (k v)) → safe always (λ s,
    do r, s <~ eval n (span rhs) (node rhs) s; do v, s <~ at_span sp (assign_op op l r) s; k v s)) as Hk.
  { intros l k Hs. apply safe_bind; [by apply expr_safe|]. intros r. apply safe_bind; [apply safe_at_span, assign_op_safe|done]. }
  destruct lhs as [e field|a i|x|x|x]; simpl in Hwf; bool_to_prop.
  - apply safe_bind; [by apply expr_safe|]. intros o. apply safe_bind; [apply safe_at_span; auto with safe|]. intros l.
    apply Hk. intros v. apply safe_at_span; auto with safe.
  - apply safe_bind; [by apply expr_safe|]. intros o. apply safe_bind; [by apply expr_safe|]. intros iv.
    apply safe_bind; [apply safe_at_span; auto with safe|]. intros l. apply Hk. intros v. apply safe_at_span; auto with safe.
  - apply Nat.ltb_lt in Hwf. apply safe_bind; [by apply safe_get_local|]. intros l. apply Hk. intros v. by apply safe_set_local.
  - apply Nat.ltb_lt in Hwf. apply safe_bind; [by apply safe_get_captured|]. intros l. apply Hk. intros v. by apply safe_set_captured.
  - apply safe_bind; [apply safe_at_span; auto with safe|]. intros l. apply Hk. by intros v s Hs HP.
Qed.
Lemma return_safe hrt sp v : safe always (return_value hrt sp v).
Proof.
  unfold return_value. destruct hrt; [|done]. apply safe_bind; [apply safe_at_span; auto with safe|]. done.
Qed.
Lemma exec_safe n hrt (c : StmtCompiled V TC D) : ∀ lp its sp, wf_stmt lc lp c = true → safe always (exec n hrt its sp c).
Proof.
  induction c as [|e|e|lhs ty rhs|lhs op rhs|c t f Ht Hf|var over body Hb| |] using stmt_induction;
    intros lp its sp Hwf; simpl in Hwf; bool_to_prop.
  - intros s Hs _. split; [|done]. unfold frame in *. simpl. unfold collect_garbage. destruct (possible_gc (st_heap s)).
    simpl. by rewrite length_map.
  - intros s Hs HP. by apply (safe_bind (P:=always) (eval n (span e) (node e)) (return_value hrt sp)); [apply expr_safe|intros v; apply return_safe|..].
  - apply safe_bind; [by apply expr_safe|]. intros v. apply safe_ret.
  - apply safe_bind; [by apply expr_safe|]. intros v. apply safe_bind.
    { destruct ty as [ty|]; [apply safe_at_span; auto with safe|apply safe_ret]. }
    intros u. apply safe_bind; [by apply target_safe|]. intros _. apply safe_ret.
  - apply safe_bind; [by apply modify_safe|]. intros u. apply safe_ret.
  - assert (∀ l, Forall (on (λ c, ∀ lp its sp, wf_stmt lc lp c = true → safe always (exec n hrt its sp c))) l →
      forallb (λ c, wf_stmt lc lp (node c)) l = true → Forall (λ x, safe always (exec n hrt its (span x) (node x))) l) as Hl.
    { intros l Hl Hwfl. induction Hl as [|x l Hx Hl IH]; constructor; simpl in Hwfl; bool_to_prop; [by apply (Hx lp)|by apply IH]. }
    apply safe_bind; [by apply expr_safe|]. intros v.
    apply (safe_if (λ s, to_bool v (st_heap s))); apply safe_exec_list; by apply Hl.
  - apply safe_bind; [by apply expr_safe|]. intros o. apply safe_bind; [|intros _; apply safe_ret].
    apply safe_for_loop. intros it x. apply safe_bind; [by apply target_safe|]. intros _. apply safe_exec_list.
    match goal with Hf : forallb _ body = true |- _ => revert Hf end. clear -Hb. intros Hwf.
    induction Hb as [|y l Hy Hl IH]; constructor; simpl in *; bool_to_prop; [by apply (Hy true)|by apply IH].
  - apply safe_ret.
  - apply safe_ret.
Qed.
Lemma body_safe n hrt c s :
  wf_body lc c = true → frame s → exec_body n hrt c s ≠ Some (Faulted UndefinedBehaviour).
Proof.
  intros Hwf Hs. unfold exec_body.
  assert (safe always (exec_list (λ c, exec n hrt [] (span c) (node c)) c)) as Hl.
  { apply safe_exec_list. unfold wf_body in Hwf. clear -Hwf WorldSafe0 WO. induction c as [|x c IH]; constructor; simpl in Hwf; bool_to_prop.
    - by apply (exec_safe _ _ _ false).
    - by apply IH. }
  specialize (Hl s Hs I). destruct (exec_list _ c s) as [[f s1|[| |[]]]|]; try done.
  destruct f; simpl; try done. set (sp := match last c with Some _ => _ | None => _ end).
  pose proof (return_safe hrt sp new_none s1 (proj1 Hl) I) as Hr. by destruct (return_value hrt sp new_none s1) as [[?|[| |[]]]|].
Qed.
End safe.
