(* ===== verification/BcExample.v ===== *)
(** A world of small values, and functions compiled and run in it: the concrete inputs at which the theorems
    about the bytecode compiler are applied. *)

From S2P Require Import Prelude Hashing TableMap FastString Symbol CodeMap.
From S2P Require Import DefParams OrdMap ParamSpec Def DefSpec Ir IrWf World IrEval IrSafe BcInstr BcWriter BcCompile BcBody.

(** * Values *)

(** [TList] is a list on the heap, [TDict] a dictionary (only its values are kept) and [TCell] the cell of a captured variable; [TCount] is an iterator
    without an end; [TFun] is a function that returns its first argument. *)
Inductive tval :=
| TNone | TBool (b : bool) | TInt (z : Z) | TStr (s : list byte) | TList (i : nat) | TDict (i : nat) | TCell (i : nat) | TCount | TFun | TLen.
#[global] Instance tval_eq_dec : EqDecision tval.
Proof. solve_decision. Defined.
Inductive tobj := OList (l : list tval) | ODict (l : list tval) | OCell (v : tval).
Abbreviation theap := (list tobj).
(** Why evaluation failed, and where. *)
Inductive treason := NotSupported | Unassigned (x : nat) | BadIndex | BadCount | WrongType.
Record terr := mkErr { te_reason : treason; te_span : option Span }.
Definition terror (r : treason) : terr := mkErr r None.

Definition tlist (v : tval) (h : theap) : list tval :=
  match v with TList i => match h !! i with Some (OList l) => l | _ => [] end | _ => [] end.
Definition t_to_bool (v : tval) (h : theap) : bool :=
  match v with
  | TNone => false | TBool b => b | TInt z => negb (z =? 0)%Z | TStr s => negb (length s =? 0)
  | TList _ => negb (length (tlist v h) =? 0) | _ => true
  end.
Definition t_unsupported {A} : Op theap terr A := λ h, (Err (terror NotSupported), h).
Definition t_int2 (f : Z → Z → tval) (a b : tval) : Op theap terr tval := λ h,
  match a, b with TInt x, TInt y => (Ok (f x y), h) | _, _ => (Err (terror NotSupported), h) end.
Definition t_compare (a b : tval) : Op theap terr comparison := λ h,
  match a, b with TInt x, TInt y => (Ok (x ?= y)%Z, h) | _, _ => (Err (terror NotSupported), h) end.
Definition t_at (a i : tval) : Op theap terr tval := λ h,
  match i with
  | TInt z => match tlist a h !! Z.to_nat z with Some v => (Ok v, h) | None => (Err (terror BadIndex), h) end
  | _ => (Err (terror NotSupported), h)
  end.
Definition t_iterate (v : tval) : Op theap terr tval := λ h,
  match v with TList _ | TCount => (Ok v, h) | _ => (Err (terror NotSupported), h) end.
Definition t_next (v : tval) (i : nat) (h : theap) : option tval * theap :=
  (match v with TCount => Some (TInt (Z.of_nat i)) | _ => tlist v h !! i end, h).
Definition t_alloc (l : list tval) (h : theap) : tval * theap := (TList (length h), h ++ [OList l]).
Definition t_alloc_dict (l : list tval) (h : theap) : tval * theap := (TDict (length h), h ++ [ODict l]).
(** The value is taken for a list, or for a dictionary. *)
Definition t_push (l v : tval) : Op theap terr () := λ h,
  match l with
  | TList i => match h !! i with Some (OList l) => (Ok (), <[i := OList (l ++ [v])]> h) | _ => (UB, h) end
  | _ => (UB, h)
  end.
Definition t_insert (d v : tval) : Op theap terr () := λ h,
  match d with
  | TDict i => match h !! i with Some (ODict l) => (Ok (), <[i := ODict (l ++ [v])]> h) | _ => (UB, h) end
  | _ => (UB, h)
  end.
Definition t_call (f : tval) (sp : Span) (a : Args tval) : Op theap terr tval := λ h,
  match f, arg_pos a with TFun, v :: _ => (Ok v, h) | _, _ => (Err (terror NotSupported), h) end.
Definition t_cell_get (c : tval) (h : theap) : option tval :=
  match c with TCell i => match h !! i with Some (OCell v) => Some v | _ => None end | _ => None end.
Definition t_cell_set (c v : tval) : Op theap terr () := λ h,
  match c with
  | TCell i => match h !! i with Some (OCell _) => (Ok (), <[i := OCell v]> h) | _ => (Panic, h) end
  | _ => (Panic, h)
  end.

#[global] Instance tworld : World tval theap terr () () () () := {|
  new_bool := TBool; new_none := TNone; frozen_str := TStr;
  to_bool := t_to_bool; get_type_value v := []; as_frozen_str v := match v with TStr s => Some s | _ => None end;
  unpack_int_value v := match v with TInt z => Some z | _ => None end;
  eq_is_ptr_eq v := match v with TNone | TBool _ => true | _ => false end;
  ptr_eq a b := bool_decide (a = b); get_hashed v := Ok 0%Z; key_eq a b := bool_decide (a = b);
  v_equals a b h := (Ok (bool_decide (a = b)), h);
  v_compare := t_compare; is_in a b := t_unsupported; v_minus a := t_unsupported; v_plus a := t_unsupported;
  bit_not a := t_unsupported; v_sub := t_int2 (λ x y, TInt (x - y)); v_add := t_int2 (λ x y, TInt (x + y));
  v_mul := t_int2 (λ x y, TInt (x * y)); v_percent a b := t_unsupported; v_div a b := t_unsupported;
  v_floor_div a b := t_unsupported; bit_and a b := t_unsupported; bit_or a b := t_unsupported;
  bit_xor a b := t_unsupported; left_shift a b := t_unsupported; right_shift a b := t_unsupported;
  v_at := t_at; v_at2 a i j := t_unsupported; v_slice l a b c := t_unsupported;
  v_length v h := (Ok (Z.of_nat (length (tlist v h))), h); alloc_int z h := (TInt z, h);
  set_at a i v := t_unsupported; set_attr a f v := t_unsupported;
  add_assign := t_int2 (λ x y, TInt (x + y)); bit_or_assign a b := t_unsupported;
  percent_s_one a v b := t_unsupported; format_one a v b h := (TStr (a ++ b), h);
  v_iterate := t_iterate; iter_next := t_next; iter_stop v h := h; unpack_count_error n z := terror BadCount;
  h_alloc_tuple := t_alloc; h_alloc_list := t_alloc; h_alloc_dict l := t_alloc_dict (map snd l);
  list_push := t_push; dict_insert_hashed d k v := t_insert d v; duplicate_key_error v := terror NotSupported;
  get_attr_hashed_bind v f := t_unsupported; get_attr_hashed_raw v f := t_unsupported;
  member_invoke m v sp a := t_unsupported; get_known_method n := None; known_method_is m v := false;
  known_method_invoke m v sp a := t_unsupported; invoke_with_loc := t_call; is_frozen_def v := false;
  resolve_arg_name v n := mkResolved 0 None; invoke_frozen_def f sp a := t_unsupported;
  is_native_function v := false; invoke_native f sp a := t_unsupported;
  is_fn_len v := bool_decide (v = TLen); is_fn_type v := false; is_fn_isinstance v := false;
  new_frozen v := None; type_matches t v h := true; check_type t v h := (Ok (), h);
  check_return_type v h := (match v with TNone => Err (terror WrongType) | _ => Ok () end, h);
  get_slot_module x := t_unsupported; set_slot_module x v h := h; export_as v n h := (Ok (), h);
  local_var_referenced_before_assignment x h := terror (Unassigned x);
  value_captured_get := t_cell_get; value_captured_set := t_cell_set;
  alloc_value_captured v h := (TCell (length h), h ++ [OCell v]);
  instr_def d vs ls h := (Ok (TFun, ls), h);
  add_span_to_expr_error e sp h := mkErr (te_reason e) (match te_span e with None => Some sp | o => o end);
  possible_gc h := (λ v, v, h);
|}.
#[global] Instance tworld_ok : WorldOk tval theap terr () () () ().
Proof.
  split; try done; simpl.
  - intros a b h. f_equal. f_equal. by apply bool_decide_ext.
  - intros [] [] x y h [= <-] [= <-]. f_equal. f_equal. case_bool_decide as Hz; symmetry; [apply Z.eqb_eq|apply Z.eqb_neq]; naive_solver.
  - intros a b s h Hs. destruct b; simpl in Hs; simplify_eq. f_equal. f_equal. apply bool_decide_ext. destruct a; naive_solver.
  - intros d vs ls h v ls' h' [= <- <- <-]. done.
Qed.
#[global] Instance tcontainers : Containers tval theap := {
  is_list v h := match v with TList i => ∃ l, h !! i = Some (OList l) | _ => False end;
  is_dict v h := match v with TDict i => ∃ l, h !! i = Some (ODict l) | _ => False end;
}.
(** No object changes its kind. *)
Lemma grows_app (h h' : theap) : grows h (h ++ h').
Proof. split; intros [] Hv; simpl in *; try done; destruct Hv as [l Hl]; exists l; by apply lookup_app_l_Some. Qed.
Lemma grows_insert (h : theap) i o o' :
  h !! i = Some o →
  match o, o' with OList _, OList _ | ODict _, ODict _ | OCell _, OCell _ => True | _, _ => False end → grows h (<[i := o']> h).
Proof.
  intros Hi Ho. assert (i < length h) as Hlt by by apply lookup_lt_Some in Hi.
  assert (∀ j x, h !! j = Some x → ∃ y, <[i := o']> h !! j = Some y ∧ (y = x ∨ x = o ∧ y = o')) as Hj.
  { intros j x Hx. destruct (decide (i = j)) as [<-|].
    - exists o'. rewrite Hi in Hx. simplify_eq. by rewrite list_lookup_insert_eq; auto.
    - exists x. rewrite list_lookup_insert_ne by done. auto. }
  split; intros [] Hv; simpl in *; try done; destruct Hv as [l (y & -> & [->|[<- ->]])%Hj]; destruct o'; by eauto.
Qed.
#[global] Instance tworld_safe : WorldSafe tval theap terr () () () ().
Proof.
  split; try done; simpl; intros; try intros h; unfold safe_at, t_int2, t_compare, t_at, t_iterate, t_call; simpl;
    try (repeat case_match; by split); try apply grows_app.
  - destruct l; try done. destruct H as [l Hl]. unfold t_push. rewrite Hl. split; [done|]. by eapply grows_insert.
  - destruct d; try done. destruct H as [l Hl]. unfold t_insert. rewrite Hl. split; [done|]. by eapply grows_insert.
  - exists l. by apply list_lookup_middle.
  - exists (map snd l). by apply list_lookup_middle.
  - unfold t_cell_set. repeat case_match; simpl; try by split. split; [done|]. by eapply grows_insert.
Qed.
(** Every instruction takes one unit of alignment. *)
#[global] Instance tlayout : InstrLayout tval () () ().
Proof. refine {| size_of_repr i := 8%N |}; done. Defined.

(** * Functions *)

(** A piece of code at a place of its own. *)
Definition at_pos {A} (n : nat) (x : A) : Spanned A := mkSpanned (mkSpan n (n + 1)) x.
Abbreviation texpr := (ExprCompiled tval () ()).
Abbreviation tstmt := (StmtCompiled tval () ()).
Definition tlocal (n x : nat) : Spanned texpr := at_pos n (Local x).
Definition tint (n : nat) (z : Z) : Spanned texpr := at_pos n (Value (TInt z)).

(** [total = 0; for x in xs: (if x == 3: continue); (if x > 9: break); total += x * x; return [total, [y + 1 for y in xs if y < 3]]],
    with [xs], [total], [x] and [y] in the variables 0 to 3. *)
Definition sum_body : list (Spanned tstmt) :=
  [at_pos 1 (Assign (at_pos 1 (AssignLocal 1)) None (tint 2 0));
   at_pos 3 (For (at_pos 3 (AssignLocal 2)) (tlocal 4 0)
     [at_pos 5 (StmtIf (at_pos 5 (ExprBuiltin2 Equals (tlocal 5 2) (tint 6 3))) [at_pos 7 Continue] []);
      at_pos 8 (StmtIf (at_pos 8 (ExprBuiltin2 (Compare Greater) (tlocal 8 2) (tint 9 9))) [at_pos 10 Break] []);
      at_pos 11 (AssignModify (ModifyLocal (at_pos 11 1)) AssignAdd
        (at_pos 12 (ExprBuiltin2 Multiply (tlocal 12 2) (tlocal 13 2))))]);
   at_pos 14 (Return (at_pos 14 (List_ [tlocal 15 1;
     at_pos 16 (Compr (ComprList (at_pos 17 (ExprBuiltin2 Add (tlocal 17 3) (tint 18 1)))
       [Clause (at_pos 19 (AssignLocal 3)) (tlocal 20 0)
         [at_pos 21 (ExprBuiltin2 (Compare Less) (tlocal 21 3) (tint 22 3))]]))])))].
Definition compiled (hrt : bool) (lc pc : nat) (c : list (Spanned tstmt)) : Bc tval () () () :=
  match as_bc hrt c lc pc with Ok bc => bc | _ => mkBc [] (mkStmtLocs [] []) 0 0 0 end.
Definition sum_bc : Bc tval () () () := Eval vm_compute in compiled false 4 1 sum_body.
Definition sum_heap : theap := [OList [TInt 2; TInt 3; TInt 4; TInt 20; TInt 1]].
Definition sum_locals : list (option tval) := [Some (TList 0); None; None; None].
Definition sum_result : Outcome tval theap terr :=
  Returned (TList 2) (sum_heap ++ [OList [TInt 3; TInt 2]; OList [TInt 20; TList 1]]).
Example sum_compiles : as_bc false sum_body 4 1 = Ok sum_bc.
Proof. vm_compute. reflexivity. Qed.
Example sum_runs : exec_body 10 false sum_body (mkSt sum_locals sum_heap) = Some sum_result.
Proof. vm_compute. reflexivity. Qed.
Example sum_bc_runs : bc_run sum_bc 100 sum_locals sum_heap = inr sum_result.
Proof. vm_compute. reflexivity. Qed.

(** [for x in count: total = x] does not end; [y] is read before it is assigned in [return y]. *)
Definition count_body : list (Spanned tstmt) :=
  [at_pos 1 (For (at_pos 1 (AssignLocal 0)) (at_pos 2 (Value TCount)) [at_pos 3 (Assign (at_pos 3 (AssignLocal 1)) None (tlocal 4 0))])].
Definition count_bc : Bc tval () () () := Eval vm_compute in compiled false 2 0 count_body.
Definition unassigned_body : list (Spanned tstmt) := [at_pos 1 (Return (tlocal 2 0))].
Definition unassigned_bc : Bc tval () () () := Eval vm_compute in compiled true 1 0 unassigned_body.
