(* ===== verification/BcProps.v ===== *)
(** What the compiler to bytecode and the interpreter guarantee together, with functions at which the
    theorems are applied. *)

From S2P Require Import Prelude Hashing TableMap FastString Symbol CodeMap.
From S2P Require Import DefParams OrdMap ParamSpec Def DefSpec Ir IrWf World IrEval IrAssigned IrSafe BcInstr BcWriter BcCompile BcBody BcExample.

Section props.
Context `{W : World V H E TC D KM MB} `{!WorldOk V H E TC D KM MB} `{!InstrLayout V TC D KM}.
Implicit Types (c : list (Spanned (StmtCompiled V TC D))) (ls : list (option V)) (h : H) (o : Outcome V H E).

(** C1: The bytecode of a function behaves as its intermediate representation says.  On a frame whose
    parameters have values, the interpreter comes to an end exactly when the evaluator does, with the same
    value, the same error at the same place or the same panic, and the same heap: for every
    statement and expression, for loops with jumps out of them, and for values, operators and calls
    that change the heap. *)
Theorem compiled_body_refines hrt lc pc c bc ls h o :
  wf_body lc c = true → pc ≤ lc → as_bc hrt c lc pc = Ok bc → frame_ready lc pc ls →
  bc_ends bc ls h o ↔ ∃ n, exec_body n hrt c (mkSt ls h) = Some o.
Proof. intros Hwf Hpc Hbc Hls. by apply (ends_iff hrt lc pc c Hwf Hpc bc ls h Hbc Hls). Qed.

(** C12: A run of the bytecode of a function goes on for ever exactly when no bound on the rounds of
    loops is enough for the evaluator: the compiler neither makes a loop endless nor cuts one short. *)
Theorem compiled_body_diverges hrt lc pc c bc ls h :
  wf_body lc c = true → pc ≤ lc → as_bc hrt c lc pc = Ok bc → frame_ready lc pc ls →
  bc_diverges bc ls h ↔ ∀ n, exec_body n hrt c (mkSt ls h) = None.
Proof. intros Hwf Hpc Hbc Hls. by apply (diverges_iff hrt lc pc c Hwf Hpc bc ls h Hbc Hls). Qed.

(** C11: Writing the bytecode of a well-formed function succeeds unless the function is too big for addresses
    and slots of 32 bits.  None of the writer's assertions fails: slots of the stack are given back
    in order, every jump is patched once and forward, the variables known to be assigned only
    grow, and jumps out of loops are in loops. *)
Theorem compile_total hrt lc pc c :
  wf_body lc c = true → pc ≤ lc → (∃ bc, as_bc hrt c lc pc = Ok bc) ∨ as_bc hrt c lc pc = Err TooBig.
Proof. apply compiles. Qed.

(** C2: Memory safety of the interpreter, which reads slots and instructions without checks, and takes the container
    of a comprehension for a list or a dictionary without looking.  Unless a method
    of a value, a call included, has undefined behaviour, a run of compiled code has none: every slot that is
    read was written before, every slot and loop index is in the frame, every jump goes to
    the start of an instruction, and elements are added to nothing but lists and entries to nothing but
    dictionaries.  (Adding an element is assumed safe for a value that is a list in the heap at that time, and an entry
    for a dictionary; what the heap allocates as one is assumed to be one and to remain one.) *)
Theorem compiled_body_safe `{!Containers V H, !WorldSafe V H E TC D KM MB} hrt lc pc c bc ls h :
  wf_body lc c = true → pc ≤ lc → as_bc hrt c lc pc = Ok bc → frame_ready lc pc ls →
  ¬ bc_ends bc ls h (Faulted UndefinedBehaviour).
Proof.
  intros Hwf Hpc Hbc Hls Hend. apply (ends_iff hrt lc pc c Hwf Hpc bc ls h Hbc Hls) in Hend as [n Hn].
  by apply (body_safe lc n hrt c (mkSt ls h) Hwf (fo_len _ _ _ Hls)) in Hn.
Qed.

(** C13: The variables that the compiler takes to be assigned are: after a statement that goes on
    (also to the next round of a loop or out of it), every variable that it is said to assign has a value, and no
    variable loses the one it had. *)
Theorem definite_assignment n hrt its sp (s : StmtCompiled V TC D) st flow st' :
  exec n hrt its sp s st = Some (Done flow st') →
  (∀ x, x ∈ stmt_assigned_after s → ∃ v, st_locals st' !! x = Some (Some v)) ∧
  ∀ x v, st_locals st !! x = Some (Some v) → ∃ v', st_locals st' !! x = Some (Some v').
Proof. intros [G Ha]%exec_gives. split; [exact Ha|]. intros x v. apply G. Qed.
End props.

(** * Witnesses *)

Lemma sum_frame : frame_ready 4 1 sum_locals.
Proof. split; [done|]. intros [|x] Hx; [by exists (TList 0)|lia]. Qed.
(** Parameters and locals; [continue], [break], a comprehension, and a value on the heap. *)
Lemma compiled_body_refines_witness : bc_ends sum_bc sum_locals sum_heap sum_result.
Proof.
  apply (compiled_body_refines false 4 1 sum_body sum_bc sum_locals sum_heap sum_result);
    [vm_compute; reflexivity|lia|vm_compute; reflexivity|apply sum_frame|].
  exists 10. vm_compute. reflexivity.
Defined.

(** A loop over an iterator without an end. *)
Lemma count_rounds n k i ls : length ls = 2 →
  loop_rounds (V:=tval) (H:=theap) (E:=terr) (λ it x s,
    do _u, s <~ assign n (mkSpan 1 2) (AssignLocal 0) x s;
    exec_list (λ c : Spanned tstmt, exec n false ([] ++ [it]) (span c) (node c))
      [at_pos 3 (Assign (at_pos 3 (AssignLocal 1)) None (tlocal 4 0))] s) TCount k i (mkSt ls []) = None.
Proof.
  revert i ls. induction k as [|k IH]; intros i ls Hl; [done|]. destruct ls as [|a [|b [|? ?]]]; try done.
  exact (IH (i + 1) [Some (TInt (Z.of_nat i)); Some (TInt (Z.of_nat i))] eq_refl).
Qed.
Lemma compiled_body_diverges_witness : bc_diverges count_bc [None; None] [].
Proof.
  apply (compiled_body_diverges false 2 0 count_body count_bc [None; None] []);
    [vm_compute; reflexivity|lia|vm_compute; reflexivity|split; [done|intros x Hx; lia]|].
  intros n. pose proof (count_rounds n n 0 [None; None] eq_refl) as Hr. unfold exec_body, for_loop in *.
  cbn -[loop_rounds assign] in *. by rewrite Hr.
Defined.

Lemma compile_total_witness :
  (∃ bc, as_bc false sum_body 4 1 = Ok bc) ∨ as_bc (V:=tval) (KM:=()) false sum_body 4 1 = Err TooBig.
Proof. apply (compile_total false 4 1 sum_body); [vm_compute; reflexivity|lia]. Defined.

(** A read of a variable that has no value is an error, not a read of an empty slot; in this world, what is
    not a list cannot take an element without undefined behaviour, and the comprehension adds to a list. *)
Lemma compiled_body_safe_witness :
  ¬ bc_ends unassigned_bc [None] [] (Faulted UndefinedBehaviour) ∧
  bc_run unassigned_bc 10 [None] [] = inr (Raised (mkErr (Unassigned 0) (Some (mkSpan 2 3))) []) ∧
  ¬ bc_ends sum_bc sum_locals sum_heap (Faulted UndefinedBehaviour) ∧ list_push TNone TNone [] = (UB, []).
Proof.
  split_and!; [|vm_compute; reflexivity| |vm_compute; reflexivity].
  - apply (compiled_body_safe true 1 0 unassigned_body unassigned_bc [None] []);
      [vm_compute; reflexivity|lia|vm_compute; reflexivity|split; [done|intros x Hx; lia]].
  - apply (compiled_body_safe false 4 1 sum_body sum_bc sum_locals sum_heap);
      [vm_compute; reflexivity|lia|vm_compute; reflexivity|apply sum_frame].
Defined.

Lemma definite_assignment_witness :
  ∃ v, st_locals (mkSt (H:=theap) [Some (TInt 0)] []) !! 0 = Some (Some v).
Proof.
  apply (definite_assignment 5 false [] Span_default (Assign (at_pos 1 (AssignLocal 0)) None (tint 2 0)) (mkSt [None] []) FlowNext);
    [vm_compute; reflexivity|vm_compute; by left].
Defined.
