(* ===== verification/DefRun.v ===== *)
(** A call of a function made by a [def], from its arguments to its end: the arguments are bound to the
    local variables of a new frame, and the bytecode of the body runs on it. *)

From S2P Require Import Prelude Hashing TableMap FastString Symbol CodeMap.
From S2P Require Import DefParams OrdMap ParamSpec CallBinding CallCollect CallProps Def DefSpec DefCall.
From S2P Require Import Ir IrWf World IrEval BcInstr BcWriter BcCompile BcBody.

Section call.
Context (hash_of : text → StarlarkHashValue).
Context {V TC TY T TT M S X : Type} `{!Values V, !ValuesOk V hash_of, !Captured V} `{HashTableOk (Symbol * nat) TT}.
Context `{!OrdMap (list byte) V M, !OrdMapOk (list byte) V M hash_of} `{!ArgSymbol TT V S}.
Context (check_type : TY → V → text → result X ()).
Context {HP E D KM MB : Type} `{!World V HP E TC D KM MB} `{!WorldOk V HP E TC D KM MB} `{!InstrLayout V TC D KM}.
Implicit Types (args : ArgumentsFull S V) (kws : list (text * V)) (ps : ParametersSpec TT V).
Implicit Types cps : list (Spanned (ParameterCompiled TY T)).

Lemma bound_frame_ready cps (vs : list V) ps DD parent cells n xs kws slots :
  spec_ok hash_of ps DD → length vs = length (defaults cps) → param_kinds ps = (kinds_from vs cps).*2 →
  DefCall.frame_ok n cps parent cells → bindable DD ps (length xs) kws.*1 = true →
  (∀ i, slots !! i =
     if i <? length cps then Some (in_slot cps i <$> bound_slot DD ps xs kws i)
     else match (list_to_map (zip parent cells) : gmap nat V) !! i with
          | Some v => Some (Some v)
          | None => if i <? n then Some None else None
          end) →
  frame_ready n (length cps) slots.
Proof.
  intros Hps Hvs Hkinds (Hn & _ & Hlen & Hpar) Hb Hs. split.
  - apply Nat.le_antisymm.
    + apply Nat.nlt_ge. intros Hlt. apply lookup_lt_is_Some_2 in Hlt as [o Ho]. rewrite Hs in Ho.
      rewrite (proj2 (Nat.ltb_ge _ _)) in Ho by lia. destruct (_ !! n) as [v|] eqn:Hv.
      * apply elem_of_list_to_map_2, elem_of_zip_l, Hpar in Hv. lia.
      * by rewrite Nat.ltb_irrefl in Ho.
    + apply Nat.nlt_ge. intros Hlt. assert (slots !! length slots = None) as Ho by by apply lookup_ge_None_2.
      rewrite Hs in Ho. destruct (length slots <? length cps); [done|]. destruct (_ !! length slots); [done|].
      by rewrite (proj2 (Nat.ltb_lt _ _)) in Ho.
  - intros i Hi. assert (length (param_kinds ps) = length cps) as Hl by by rewrite Hkinds, length_fmap, length_kinds_from.
    destruct (bound_slot_assigned hash_of ps DD xs kws i Hps Hb) as [v Hv]; [lia|rewrite Hkinds; apply kinds_from_not_optional|].
    rewrite Hs, (proj2 (Nat.ltb_lt _ _)), Hv by done. by eexists.
Qed.

(** C6: A call of a function runs its body on the values that its arguments are bound to.  When the call
    fits and the value of each annotated parameter passes the check of its type, every parameter has its
    value, in a cell when it is captured, the variables taken from the enclosing function have their cells,
    every other variable is unassigned, and the bytecode of the body on this frame comes to the same end as
    the body.  Otherwise the body does not start: the call ends with the error of the binding, or, of a call
    that fits, with the error of the type of an annotated parameter that its value does not have. *)
Theorem def_call_runs cps (vs : list V) indices ps DD parent cells n args kws hrt body bc h :
  12 ≤ om_max (M:=M) → spec_ok hash_of ps DD → length vs = length (defaults cps) →
  param_kinds ps = (kinds_from vs cps).*2 → call_ok hash_of (M:=M) DD ps args kws →
  DefCall.frame_ok n cps parent cells → (∀ t v x e, check_type t v x ≠ Fault e) →
  (∀ l, is_value_captured (alloc_tuple l) = false) → (∀ l, is_value_captured (alloc_dict l) = false) →
  (∀ xs kws v, positional_args args = Some xs → keyword_args args = Some kws →
    v ∈ xs ++ kws.*2 ++ vs → is_value_captured v = false) →
  wf_body n body = true → as_bc hrt body n (length cps) = Ok bc →
  match invoke_locals (M:=M) check_type n (def_of ps cps indices parent cells) args with
  | Ok slots => ∃ xs kws, positional_args args = Some xs ∧ keyword_args args = Some kws ∧
      bindable DD ps (length xs) kws.*1 = true ∧
      (∀ i x t, (i, x, t) ∈ types_from 0 cps →
        ∃ v, bound_slot DD ps xs kws i = Some v ∧ check_type t v x = Ok ()) ∧
      (∀ i, i < length cps → ∃ v, bound_slot DD ps xs kws i = Some v ∧ slots !! i = Some (Some (in_slot cps i v))) ∧
      (∀ i, length cps ≤ i → slots !! i =
        match (list_to_map (zip parent cells) : gmap nat V) !! i with
        | Some v => Some (Some v)
        | None => if i <? n then Some None else None
        end) ∧
      ∀ o, bc_ends bc slots h o ↔ ∃ k, exec_body k hrt body (mkSt slots h) = Some o
  | Err (BindingError e) => explains DD ps args e ∧ ¬ call_bindable DD ps args
  | Err (TypeError e) => ∃ xs kws i x t v, positional_args args = Some xs ∧
      keyword_args args = Some kws ∧ bindable DD ps (length xs) kws.*1 = true ∧
      (i, x, t) ∈ types_from 0 cps ∧ bound_slot DD ps xs kws i = Some v ∧ check_type t v x = Err e
  | Fault _ => False
  end.
Proof.
  intros Hmax Hps Hvs Hkinds Hc Hframe Hfault Htuple Hdict Hcap Hwf Hbc.
  pose proof (invoke_locals_ok hash_of (M:=M) check_type cps vs indices ps DD parent cells n args kws
    Hmax Hps Hvs Hkinds Hc Hframe Hfault Htuple Hdict Hcap) as Hi.
  destruct (invoke_locals check_type n _ args) as [slots|[e|e]|f]; [|exact Hi..].
  destruct Hi as (xs & kws' & Hxs & Hkws & Hb & Hty & Hs). exists xs, kws'. split_and!; [done..| | |].
  - intros i Hlt. assert (length (param_kinds ps) = length cps) as Hl by by rewrite Hkinds, length_fmap, length_kinds_from.
    destruct (bound_slot_assigned hash_of ps DD xs kws' i Hps Hb) as [v Hv]; [lia|rewrite Hkinds; apply kinds_from_not_optional|].
    exists v. split; [done|]. by rewrite Hs, (proj2 (Nat.ltb_lt _ _)), Hv.
  - intros i Hge. by rewrite Hs, (proj2 (Nat.ltb_ge _ _)).
  - intros o. apply (ends_iff hrt n (length cps) body Hwf (proj1 Hframe) bc slots h Hbc).
    by eapply bound_frame_ready.
Qed.
End call.

(** * A concrete call *)

(** The function and the call of [DefCall.v], with the body [return b], where [b] is captured; of the world, only
    the cells matter. *)
#[local] Existing Instance witness_values.
#[local] Existing Instance witness_values_ok.
#[local] Existing Instance witness_kwargs.
#[local] Existing Instance witness_kwargs_ok.
#[local] Existing Instance witness_captured.

Definition no_op {A} : Op () () A := λ h, (Err (), h).
#[local] Instance cell_world : World value () () () () () () := {|
  new_bool b := VNum (if b then 1 else 0); new_none := VList []; frozen_str := VStr;
  to_bool v h := match v with VNum z => negb (z =? 0)%Z | _ => true end; get_type_value v := []; as_frozen_str v := None;
  unpack_int_value v := None; eq_is_ptr_eq v := false; ptr_eq a b := false; get_hashed v := Err (); key_eq a b := false;
  v_equals a b := no_op; v_compare a b := no_op; is_in a b := no_op; v_minus a := no_op; v_plus a := no_op;
  bit_not a := no_op; v_sub a b := no_op; v_add a b := no_op; v_mul a b := no_op; v_percent a b := no_op;
  v_div a b := no_op; v_floor_div a b := no_op; bit_and a b := no_op; bit_or a b := no_op; bit_xor a b := no_op;
  left_shift a b := no_op; right_shift a b := no_op; v_at a b := no_op; v_at2 a b c := no_op; v_slice a b c d := no_op;
  v_length v := no_op; alloc_int z h := (VNum z, h); set_at a b c := no_op; set_attr a b c := no_op;
  add_assign a b := no_op; bit_or_assign a b := no_op; percent_s_one a b c := no_op; format_one a b c h := (b, h);
  v_iterate v := no_op; iter_next v i h := (None, h); iter_stop v h := h; unpack_count_error n z := ();
  h_alloc_tuple l h := (VList l, h); h_alloc_list l h := (VList l, h); h_alloc_dict l h := (VList (map snd l), h);
  list_push a b := no_op; dict_insert_hashed a b c := no_op; duplicate_key_error v := ();
  get_attr_hashed_bind a b := no_op; get_attr_hashed_raw a b := no_op; member_invoke a b c d := no_op;
  get_known_method n := None; known_method_is a b := false; known_method_invoke a b c d := no_op;
  invoke_with_loc a b c := no_op; is_frozen_def v := false; resolve_arg_name v n := mkResolved 0 None;
  invoke_frozen_def a b c := no_op; is_native_function v := false; invoke_native a b c := no_op;
  is_fn_len v := false; is_fn_type v := false; is_fn_isinstance v := false; new_frozen v := None;
  type_matches t v h := true; check_type t v := no_op; check_return_type v := no_op;
  get_slot_module x := no_op; set_slot_module x v h := h; export_as v n := no_op;
  local_var_referenced_before_assignment x h := ();
  value_captured_get c h := match c with VDict [(VNum 0, v)] => Some v | _ => None end;
  value_captured_set c v := no_op; alloc_value_captured v h := (new_captured v, h);
  instr_def d vs ls h := (Ok (VList vs, ls), h); add_span_to_expr_error e sp h := e; possible_gc h := (λ v, v, h);
|}.
#[local] Instance cell_world_ok : WorldOk value () () () () () ().
Proof. split; try done; simpl; [by intros []|]. by intros d vs ls h v ls' h' [= <- <- <-]. Qed.
#[local] Instance cell_layout : InstrLayout value () () ().
Proof. refine {| size_of_repr i := 8%N |}; done. Defined.

Definition captured_body : list (Spanned (StmtCompiled value () ())) :=
  [mkSpanned Span_default (Return (mkSpanned Span_default (LocalCaptured 1)))].
Definition captured_bc : Bc value () () () := Eval vm_compute in
  match as_bc false captured_body 7 5 with Ok bc => bc | _ => mkBc [] (mkStmtLocs [] []) 0 0 0 end.

Lemma def_call_runs_witness :
  invoke_locals (M:=Kwargs) witness_check 7
    (def_of witness_function witness_compiled (DefParams.indices witness_unpacked) [6] [VNum 42])
    witness_call = Ok witness_locals ∧
  bc_ends captured_bc witness_locals () (Returned (VNum 6) ()).
Proof.
  assert (invoke_locals (M:=Kwargs) witness_check 7
    (def_of witness_function witness_compiled (DefParams.indices witness_unpacked) [6] [VNum 42])
    witness_call = Ok witness_locals) as Heq by by vm_compute.
  split; [exact Heq|]. destruct witness_function_ok as [DD HD].
  pose proof (def_call_runs witness_text_hash (M:=Kwargs) witness_check witness_compiled [VNum 1; VNum 2]
    (DefParams.indices witness_unpacked) witness_function DD [6] [VNum 42] 7 witness_call
    [(name_of 99, VNum 3); (name_of 122, VNum 4)] false captured_body captured_bc ()) as Hcall.
  rewrite Heq in Hcall. destruct Hcall as (xs & kws & Hxs & Hkws & Hb & _ & _ & _ & Hrun); [..|].
  - by apply (bool_decide_unpack (12 ≤ 12)).
  - exact HD.
  - done.
  - by vm_compute.
  - by apply witness_call_ok.
  - apply witness_frame_ok.
  - intros t [n|x|l|l] x' e; done.
  - done.
  - by intros [|[x v] [|kv l]].
  - apply witness_not_captured.
  - by vm_compute.
  - by vm_compute.
  - apply Hrun. exists 1. by vm_compute.
Defined.
