(* ===== verification/Optimize.v ===== *)
(** [eval/compiler/expr.rs], [expr_bool.rs], [call.rs], [args.rs], [compr.rs], [stmt.rs]: the optimiser.  The
    constructors of expressions fold constants and drop code without effect; [optimize] rebuilds the body
    of a function with them when its module is frozen.  An operation that is folded runs in a heap that is thrown
    away, so what it leaves there is not kept; the result is, as a constant or as an expression that builds it. *)

From S2P Require Import Prelude Hashing TableMap FastString StrFormat Symbol CodeMap.
From S2P Require Import DefParams OrdMap ParamSpec Def Ir Inline World IrEval.

(** * What the optimiser asks of values *)

(** A value with what is inside lists and tuples. *)
Inductive tree (V : Type) := Tree (v : V) (items : list (tree V)).
Arguments Tree {V}.

(** [MemberOrValue], with the cases of [UnboundValue]. *)
Inductive Member (V : Type) := MemberMethod | MemberAttr | MemberValue (v : V).
Arguments MemberMethod {V}. Arguments MemberAttr {V}. Arguments MemberValue {V}.

Class OptWorld (V H E TC D MB : Type) := {
  (** [Value::unpack_frozen] of a value that does not stand for a variable, [FrozenValue::is_builtin]. *)
  is_frozen : V → bool;
  is_builtin : V → bool;
  unpack_bool : V → option bool;
  unpack_str : V → option (list byte);
  (** The copy on the frozen heap of a floating point number, and of a range. *)
  copy_float : V → option V;
  copy_range : V → option V;
  is_list : V → bool;
  is_tuple : V → bool;
  contents : V → H → tree V;
  (** [FrozenListData::from_frozen_value]; [FrozenHeap::alloc_tuple]; [FrozenValue::new_int] of an [InlineInt]. *)
  frozen_list : V → option (list V);
  frozen_tuple : list V → V;
  inline_int : Z → option V;
  (** The names of types. *)
  get_type : V → list byte;
  tuple_type : list byte; list_type : list byte; dict_type : list byte; bool_type : list byte;
  (** The functions [len] and [type]. *)
  fn_len : V; fn_type : V;
  (** Attributes, and methods bound to a frozen value. *)
  member_view : MB → Member V;
  frozen_bound_method : V → MB → V;
  as_bound_method : V → option (V * list byte);
  (** Frozen functions, and the binding of the arguments of a call to their parameters. *)
  frozen_def : V → option (FrozenDef V TC D);
  collect_slots : V → ArgumentsFull (list byte) V → option (list (option V));
  (** [LocalAsValue]: a value that stands for a local variable of the caller while a call is inlined. *)
  local_value : nat → V;
  as_local : V → option nat;
  (** [EnumType::construct]. *)
  enum_construct : V → option (V → result E V);
  speculative_exec_safe : V → bool;
}.

Section optimize.
Context `{W : World V H E TC D KM MB} {OW : OptWorld V H E TC D MB}.
Local Abbreviation Node := (ExprCompiled V TC D).
Local Abbreviation Expr := (Spanned (ExprCompiled V TC D)).
Local Abbreviation Target := (Spanned (AssignCompiledValue V TC D)).
Local Abbreviation Stmt := (Spanned (StmtCompiled V TC D)).
Local Abbreviation Clause_ := (ClauseCompiled V TC D).
Implicit Types (e : Node) (x y l r : Expr) (sp : Span).

(** [OptCtx]: the scratch heap, the frozen module if there is one, whether an evaluator is at hand, and the number of
    parameters of the function that is optimised. *)
Record OptCtx := mkOptCtx {
  ctx_heap : H;
  ctx_frozen_module : option (nat → option V);
  ctx_eval : bool;
  ctx_param_count : nat;
}.
Implicit Types ctx : OptCtx.

Definition new_value sp (v : V) : Expr := mkSpanned sp (Value v).
(** The value of an operation that is run while compiling, as a [Result::ok]. *)
Definition run_ok {A} ctx (o : Op H E A) : option (A * H) :=
  match o (ctx_heap ctx) with (Ok a, h) => Some (a, h) | _ => None end.

(** * Queries *)

Definition as_builtin_value e : option V :=
  match e with Value v => if is_builtin v then Some v else None | _ => None end.
Definition as_string e : option (list byte) := v ← as_value e; as_frozen_str v.
Definition as_type e : option Expr :=
  match e with Call c => with_type is_fn_type (node c) Some None | _ => None end.
Definition is_iterable_empty ctx e : bool :=
  match e with
  | List_ xs | Tuple xs => length xs =? 0
  | Dict_ xs => length xs =? 0
  | Value v =>
    is_builtin v && match run_ok ctx (v_length v) with Some (l, _) => (l =? 0)%Z | None => false end
  | _ => false
  end.
Definition is_definitely_bool e : bool :=
  match e with
  | Value v => match unpack_bool v with Some _ => true | None => false end
  | ExprBuiltin1 (Not | TypeIs _) _ | ExprBuiltin2 (In | Equals | Compare _) _ _ => true
  | _ => false
  end.
Fixpoint is_pure_infallible e : bool :=
  match e with
  | Value _ => true
  | List_ xs | Tuple xs => forallb (λ x, is_pure_infallible (node x)) xs
  | Dict_ xs => length xs =? 0
  | ExprBuiltin1 (Not | TypeIs _) x => is_pure_infallible (node x)
  | Seq x y | LogicalBinOp _ x y => is_pure_infallible (node x) && is_pure_infallible (node y)
  | If_ cond x y =>
    is_pure_infallible (node cond) && is_pure_infallible (node x) && is_pure_infallible (node y)
  | Call call => with_type is_fn_type (node call) (λ arg, is_pure_infallible (node arg)) false
  | _ => false
  end.
(** The truth of a value is read in a heap; that of a constant is the same in all. *)
Fixpoint is_pure_infallible_to_bool ctx e : option bool :=
  match e with
  | Value v => Some (to_bool v (ctx_heap ctx))
  | List_ xs | Tuple xs =>
    if forallb (λ x, is_pure_infallible (node x)) xs then Some (negb (length xs =? 0)) else None
  | Dict_ xs => if length xs =? 0 then Some false else None
  | ExprBuiltin1 Not x => negb <$> is_pure_infallible_to_bool ctx (node x)
  | LogicalBinOp op x y =>
    match op, is_pure_infallible_to_bool ctx (node x), is_pure_infallible_to_bool ctx (node y) with
    | And, Some true, y | Or, Some false, y => y
    | And, Some false, _ => Some false
    | Or, Some true, _ => Some true
    | _, None, _ => None
    end
  | _ => None
  end.

(** [as_short_list] and [as_exprs]: the elements of a list, if there are few. *)
Definition MAX_LEN : nat := 1000.
Definition as_short_list x : option (list Expr) :=
  match node x with
  | List_ xs => if length xs <=? MAX_LEN then Some xs else None
  | Value v =>
    list ← frozen_list v;
    if length list <=? MAX_LEN then Some (map (new_value (span x)) list) else None
  | _ => None
  end.

(** * Constructors of expressions *)

Definition tuple (elems : list Expr) : Node :=
  match mapM (λ x, as_value (node x)) elems with
  | Some elems => Value (frozen_tuple elems)
  | None => Tuple elems
  end.
(** [try_value] and [try_values], on a value with its contents. *)
Fixpoint try_value sp (t : tree V) : option Node :=
  match t with
  | Tree v items =>
    let items := mapM (λ t, mkSpanned sp <$> try_value sp t) items in
    if is_frozen v then Some (Value v)
    else match unpack_str v with
    | Some s => if length s <=? 1000 then Some (Value (frozen_str s)) else None
    | None =>
    match copy_float v with Some c => Some (Value c) | None =>
    match copy_range v with Some c => Some (Value c) | None =>
    if is_list v then List_ <$> items
    else if is_tuple v then tuple <$> items
    else None end end end
  end.
(** Runs an operation, and turns the value that it gives into an expression. *)
Definition fold_value ctx sp (o : Op H E V) : option Node :=
  '(v, h) ← run_ok ctx o; try_value sp (contents v h).

Definition seq l r : Expr :=
  if is_pure_infallible (node l) then r else mkSpanned (merge (span l) (span r)) (Seq l r).
Definition logical_bin_op ctx op l r : Expr :=
  match is_pure_infallible_to_bool ctx (node l) with
  | Some l_v => if Bool.eqb l_v (bool_decide (op = Or)) then l else r
  | None => mkSpanned (merge (span l) (span r)) (LogicalBinOp op l r)
  end.
Definition or ctx l r : Expr := logical_bin_op ctx Or l r.
Definition and ctx l r : Expr := logical_bin_op ctx And l r.
Definition not_ ctx sp x : Expr :=
  match node x with
  | Value v => mkSpanned sp (Value (new_bool (negb (to_bool v (ctx_heap ctx)))))
  | ExprBuiltin1 Not e => if is_definitely_bool (node e) then e else mkSpanned sp (ExprBuiltin1 Not x)
  | _ => mkSpanned sp (ExprBuiltin1 Not x)
  end.
Definition type_is x (t : list byte) : Node :=
  match as_value (node x) with
  | Some v => Value (new_bool (bool_decide (get_type v = t)))
  | None => ExprBuiltin1 (TypeIs t) x
  end.
(** [type(x) == "t"]. *)
Definition try_eval_type_is l r : option Expr :=
  x ← as_type (node l); t ← as_string (node r);
  Some (mkSpanned (merge (span l) (span r)) (type_is x t)).
Definition equals ctx l r : Expr :=
  let sp := merge (span l) (span r) in
  match (a ← as_value (node l); b ← as_value (node r); run_ok ctx (v_equals a b)) with
  | Some (b, _) => mkSpanned sp (Value (new_bool b))
  | None =>
    match try_eval_type_is l r with
    | Some e => e
    | None =>
      match try_eval_type_is r l with
      | Some e => e
      | None => mkSpanned sp (ExprBuiltin2 Equals l r)
      end
    end
  end.
(** A string that is made while compiling. *)
Definition fold_str ctx (o : Op H E V) : option Node :=
  '(v, _) ← run_ok ctx o; Value <$> (frozen_str <$> unpack_str v).
Definition percent_s_one_expr ctx (before : list byte) x (after : list byte) : Node :=
  match (v ← as_value (node x); fold_str ctx (percent_s_one before v after)) with
  | Some e => e
  | None => ExprBuiltin1 (PercentSOne before after) x
  end.
Definition format_one_expr ctx (before : list byte) x (after : list byte) : Node :=
  match (v ← as_value (node x); fold_str ctx (builtin1 (FormatOne before after) v)) with
  | Some e => e
  | None => ExprBuiltin1 (FormatOne before after) x
  end.
Definition percent ctx l r : Node :=
  match (v ← as_string (node l); parse_percent_s_one v) with
  | Some (before, after) => percent_s_one_expr ctx before r after
  | None => ExprBuiltin2 Percent l r
  end.
Definition add l r : Node :=
  match as_short_list l, as_short_list r with
  | Some l, Some r => List_ (l ++ r)
  | _, _ => ExprBuiltin2 Add l r
  end.
Definition index ctx l r : Node :=
  match (a ← as_builtin_value (node l); i ← as_value (node r);
         fold_value ctx (merge (span l) (span r)) (v_at a i)) with
  | Some e => e
  | None => ExprBuiltin2 ArrayIndex l r
  end.
Definition index2 x i0 i1 : Node := Index2 x i0 i1.
Definition bin_op ctx (op : Builtin2) l r : Node :=
  match (a ← as_builtin_value (node l); b ← as_builtin_value (node r);
         fold_value ctx (merge (span l) (span r)) (Builtin2_eval op a b)) with
  | Some v => v
  | None =>
    match op with
    | Percent => percent ctx l r
    | Add => add l r
    | Equals => node (equals ctx l r)
    | ArrayIndex => index ctx l r
    | _ => ExprBuiltin2 op l r
    end
  end.
(** An attribute of a constant. *)
Definition member_value (left : V) (m : MB) : option V :=
  match member_view m with
  | MemberMethod => Some (frozen_bound_method left m)
  | MemberAttr => None
  | MemberValue v => if is_frozen v then Some v else None
  end.
Definition compile_time_getattr ctx (left : V) (attr : list byte) : option V :=
  '(m, _) ← run_ok ctx (get_attr_hashed_raw left attr); member_value left m.
Definition dot ctx x (field : list byte) : Node :=
  match (left ← as_value (node x); compile_time_getattr ctx left field) with
  | Some v => Value v
  | None => ExprBuiltin1 (Dot field) x
  end.
(** [Builtin1::eval]; the operators that cannot fail give a value always. *)
Definition fold_builtin1 ctx sp (op : Builtin1) (v : V) : option Node :=
  match op with
  | Dot field => u ← compile_time_getattr ctx v field; try_value sp (contents u (ctx_heap ctx))
  | _ => fold_value ctx sp (builtin1 op v)
  end.
Definition un_op ctx sp (op : Builtin1) x : Node :=
  match (v ← as_builtin_value (node x); fold_builtin1 ctx (span x) op v) with
  | Some v => v
  | None =>
    match op with
    | FormatOne before after => format_one_expr ctx before x after
    | PercentSOne before after => percent_s_one_expr ctx before x after
    | Dot field => dot ctx x field
    | TypeIs t => type_is x t
    | Not => node (not_ ctx sp x)
    | _ => ExprBuiltin1 op x
    end
  end.
(** A bound that is given counts as known even when its expression is not a constant. *)
Definition slice ctx sp (array : Expr) (start stop step : option Expr) : Node :=
  match (a ← as_builtin_value (node array);
         start ← (λ x, as_value (node x)) <$> start; stop ← (λ x, as_value (node x)) <$> stop;
         step ← (λ x, as_value (node x)) <$> step;
         fold_value ctx sp (v_slice a start stop step)) with
  | Some v => v
  | None => Slice array start stop step
  end.

(** A call of a constant with one argument. *)
Definition call1 sp (f : V) x : Node :=
  Call (mkSpanned sp (mkCall (new_value sp f) (mkArgs [x] [] None None))).
Definition typ sp x : Node :=
  let value (t : list byte) : Node := Value (frozen_str t) in
  match node x with
  | Value v => value (get_type_value v)
  | Tuple xs => if forallb (λ x, is_pure_infallible (node x)) xs then value tuple_type else call1 sp fn_type x
  | List_ xs => if forallb (λ x, is_pure_infallible (node x)) xs then value list_type else call1 sp fn_type x
  | Dict_ xs => if length xs =? 0 then value dict_type else call1 sp fn_type x
  | ExprBuiltin1 (Not | TypeIs _) e => if is_pure_infallible (node e) then value bool_type else call1 sp fn_type x
  | _ => call1 sp fn_type x
  end.
Definition len ctx sp x : Node :=
  match (v ← as_value (node x); '(n, _) ← run_ok ctx (v_length v); inline_int n) with
  | Some v => Value v
  | None => call1 sp fn_len x
  end.

(** * Truth *)

(** [ExprCompiledBool]: an expression of which only the truth is used. *)
Inductive ExprCompiledBool := Const (b : bool) | BoolExpr (e : Node).
Definition into_expr (x : Spanned ExprCompiledBool) : Expr :=
  mkSpanned (span x) match node x with Const b => Value (new_bool b) | BoolExpr e => e end.
Definition const_value (e : ExprCompiledBool) : option bool :=
  match e with Const b => Some b | BoolExpr _ => None end.
Fixpoint bool_new ctx sp e : Spanned ExprCompiledBool :=
  let new (x : Expr) := bool_new ctx (span x) (node x) in
  match is_pure_infallible_to_bool ctx e with
  | Some b => mkSpanned sp (Const b)
  | None =>
    match e with
    | ExprBuiltin1 Not x =>
      let x := new x in
      match const_value (node x) with
      | Some b => mkSpanned sp (Const (negb b))
      | None => mkSpanned sp (BoolExpr (ExprBuiltin1 Not (into_expr x)))
      end
    | LogicalBinOp op x y =>
      let x := new x in
      let y := new y in
      match op, const_value (node x), const_value (node y) with
      | And, Some false, _ => mkSpanned sp (Const false)
      | Or, Some true, _ => mkSpanned sp (Const true)
      | And, Some true, _ | Or, Some false, _ => y
      | And, None, Some true | Or, None, Some false => x
      | And, None, Some false =>
        mkSpanned sp (BoolExpr (node (seq (into_expr x) (into_expr (mkSpanned (span y) (Const false))))))
      | Or, None, Some true =>
        mkSpanned sp (BoolExpr (node (seq (into_expr x) (into_expr (mkSpanned (span y) (Const true))))))
      | _, None, None => mkSpanned sp (BoolExpr (LogicalBinOp op (into_expr x) (into_expr y)))
      end
    | _ => mkSpanned sp (BoolExpr e)
    end
  end.
Definition expr_truth ctx x : Spanned ExprCompiledBool := bool_new ctx (span x) (node x).

(** The recursion of [if_expr] is on the condition: at most as deep as its negations and sequences. *)
Fixpoint spine e : nat :=
  match e with
  | ExprBuiltin1 _ x => S (spine (node x))
  | LogicalBinOp _ x y | Seq x y => S (spine (node x) + spine (node y))
  | _ => 0
  end.
Fixpoint if_expr_go ctx (n : nat) (cond t f : Expr) : Expr :=
  let cond_span := span cond in
  match node (expr_truth ctx cond) with
  | Const true => t
  | Const false => f
  | BoolExpr c =>
    let plain := mkSpanned (merge (merge cond_span (span t)) (span f)) (If_ (mkSpanned cond_span c) t f) in
    match n with
    | O => plain
    | S n =>
      match c with
      | ExprBuiltin1 Not cond => if_expr_go ctx n cond f t
      | Seq x cond => seq x (if_expr_go ctx n cond t f)
      | _ => plain
      end
    end
  end.
Definition if_expr ctx (cond t f : Expr) : Expr := if_expr_go ctx (S (spine (node cond))) cond t f.

(** * Calls *)

Section calls.
Context (try_inline : Span → Expr → ArgsCompiledValue Expr → option Expr).
Implicit Types (fn : Expr) (args : ArgsCompiledValue Expr).

Definition one_pos args : option Expr := with_one_pos args Some None.
(** The values of the arguments, if all have one. *)
Definition all_values_generic (expr_to_value : Node → option V) args : option (Args V) :=
  vs ← mapM (λ x, expr_to_value (node x)) (ca_pos_named args);
  a ← match ca_args args with None => Some None | Some x => Some <$> expr_to_value (node x) end;
  k ← match ca_kwargs args with None => Some None | Some x => Some <$> expr_to_value (node x) end;
  Some (arguments (ca_names args) vs a k).
Definition all_values args : option (Args V) := all_values_generic as_value args.

Definition try_type_is fn args : option Node :=
  f ← as_value (node fn); d ← frozen_def f; pos ← one_pos args;
  match def_inline_body new_none d with Some (ReturnTypeIs t) => Some (type_is pos t) | _ => None end.
(** [Arguments::invoke] of a function that is known to have no effects. *)
Definition try_spec_exec ctx sp fn args : option Node :=
  f ← as_value (node fn);
  if speculative_exec_safe f && ctx_eval ctx then
    a ← all_values args; fold_value ctx sp (invoke_with_loc f sp a)
  else None.
Definition try_enum_value fn args : option Node :=
  f ← as_value (node fn);
  construct ← enum_construct f;
  pos ← one_pos args;
  arg ← as_value (node pos);
  match construct arg with Ok v => Some (Value v) | _ => None end.
(** "format". *)
Definition format_method : list byte := [0x66; 0x6F; 0x72; 0x6D; 0x61; 0x74]%Z.
Definition try_format ctx fn args : option Node :=
  f ← as_value (node fn);
  '(this, method) ← as_bound_method f;
  format ← as_frozen_str this;
  if negb (bool_decide (method = format_method)) then None else
  arg ← one_pos args;
  match parse_format_one format with
  | Ok (Some (before, after)) => Some (format_one_expr ctx before arg after)
  | _ => None
  end.
(** [len(x)] and [type(x)]. *)
Definition try_len_type ctx sp fn args : option Node :=
  f ← as_value (node fn);
  arg ← one_pos args;
  if is_fn_len f then Some (len ctx sp arg) else if is_fn_type f then Some (typ sp arg) else None.

(** [CallCompiled::call] up to the call of a method. *)
Definition first_some {A} (a b : option A) : option A := match a with Some _ => a | None => b end.
Definition call_known ctx sp fn args : option Node :=
  first_some (try_type_is fn args) (
  first_some (node <$> try_inline sp fn args) (
  first_some (try_len_type ctx sp fn args) (
  first_some (try_enum_value fn args) (
  first_some (try_spec_exec ctx sp fn args) (
  try_format ctx fn args))))).
(** [new_method]: when the method is found, the function is a constant and not an attribute. *)
Definition new_method ctx sp (this : Expr) (field : list byte) getattr_span args : Node :=
  match (v ← as_value (node this); compile_time_getattr ctx v field) with
  | Some v =>
    let fn := new_value getattr_span v in
    match call_known ctx sp fn args with Some e => e | None => Call (mkSpanned sp (mkCall fn args)) end
  | None => Call (mkSpanned sp (mkCall (mkSpanned getattr_span (dot ctx this field)) args))
  end.
Definition call ctx sp fn args : Node :=
  match call_known ctx sp fn args with
  | Some e => e
  | None =>
    match node fn with
    | ExprBuiltin1 (Dot field) this => new_method ctx sp this field (span fn) args
    | _ => Call (mkSpanned sp (mkCall fn args))
    end
  end.

(** ** Inlining *)

Definition map_args {A B} (f : A → B) (a : ArgsCompiledValue A) : ArgsCompiledValue B :=
  mkArgs (map f (ca_pos_named a)) (ca_names a) (option_map f (ca_args a)) (option_map f (ca_kwargs a)).

(** [InlineDefCallSite]: the body with the arguments for the parameters; [Err] is [CannotInline]. *)
Section inline.
Context (ctx : OptCtx) (slots : list V).
Definition inline_option (f : Expr → result () Expr) (o : option Expr) : result () (option Expr) :=
  match o with None => Ok None | Some x => x ← f x; Ok (Some x) end.
Definition inline_list {A B} (f : A → result () B) : list A → result () (list B) :=
  fix go (xs : list A) := match xs with [] => Ok [] | a :: xs => b ← f a; bs ← go xs; Ok (b :: bs) end.
Fixpoint inline sp e {struct e} : result () Expr :=
  let sub (x : Expr) := inline (span x) (node x) in
  match e with
  | Value _ => Ok (mkSpanned sp e)
  | Local l =>
    match slots !! l with
    | None => Panic
    | Some v => Ok (mkSpanned sp match as_local v with Some local => Local local | None => Value v end)
    end
  | If_ c t f => c ← sub c; t ← sub t; f ← sub f; Ok (if_expr ctx c t f)
  | LogicalBinOp op l r => l ← sub l; r ← sub r; Ok (logical_bin_op ctx op l r)
  | List_ xs => xs ← inline_list sub xs; Ok (mkSpanned sp (List_ xs))
  | Tuple xs => xs ← inline_list sub xs; Ok (mkSpanned sp (tuple xs))
  | Dict_ kvs => kvs ← inline_list (λ '(k, v), k ← sub k; v ← sub v; Ok (k, v)) kvs; Ok (mkSpanned sp (Dict_ kvs))
  | ExprBuiltin2 op l r => l ← sub l; r ← sub r; Ok (mkSpanned sp (bin_op ctx op l r))
  | Index2 a i0 i1 => a ← sub a; i0 ← sub i0; i1 ← sub i1; Ok (mkSpanned sp (Index2 a i0 i1))
  | ExprBuiltin1 op x => x ← sub x; Ok (mkSpanned sp (un_op ctx sp op x))
  | Slice l a b c =>
    l ← sub l; a ← inline_option sub a; b ← inline_option sub b; c ← inline_option sub c;
    Ok (mkSpanned sp (Slice l a b c))
  | Seq a b => a ← sub a; b ← sub b; Ok (seq a b)
  | Call c =>
    fn ← sub (call_fun (node c));
    pos_named ← inline_list sub (ca_pos_named (call_args (node c)));
    args ← inline_option sub (ca_args (call_args (node c)));
    kwargs ← inline_option sub (ca_kwargs (call_args (node c)));
    Ok (mkSpanned (span c) (call ctx (span c) fn (mkArgs pos_named (ca_names (call_args (node c))) args kwargs)))
  | LocalCaptured _ | ModuleSlot _ | Compr _ | ExprDef _ => Err ()
  end.
End inline.
End calls.

(** The first 100 variables have a value that stands for them. *)
Definition local_as_value (local : nat) : option V := if local <? 100 then Some (local_value local) else None.
(** A constant, or a variable that is assigned for certain. *)
Definition expr_to_value ctx e : option V :=
  match e with
  | Value v => Some v
  | Local local => if local <? ctx_param_count ctx then local_as_value local else None
  | _ => None
  end.
Definition spec_has_args_or_kwargs (i : DefParamIndices) : bool :=
  match DefParams.args i, DefParams.kwargs i with None, None => false | _, _ => true end.
(** What the parameters are bound to: constants and variables of the caller. *)
Definition inline_slots (f : V) (a : Args V) : option (list V) :=
  slots ← collect_slots f a;
  slots ← mapM (λ o : option V, o) slots;
  if forallb (λ v, is_frozen v || match as_local v with Some _ => true | None => false end) slots
  then Some slots else None.
(** [CallCompiled::try_inline], for calls inlined in calls at most [depth] deep.  The code does not bound the depth. *)
Fixpoint try_inline ctx (depth : nat) sp (fn : Expr) (args : ArgsCompiledValue Expr) : option Expr :=
  match depth with
  | O => None
  | S depth =>
    f ← (as_value (node fn) : option V); d ← frozen_def f;
    if spec_has_args_or_kwargs (compiled_indices (fd_params d)) then None else
    match def_inline_body new_none d with
    | Some (ReturnSafeToInlineExpr expr) =>
      arguments ← all_values_generic (expr_to_value ctx) args;
      slots ← inline_slots f arguments;
      match inline (try_inline ctx depth) ctx slots sp (node expr) with Ok e => Some e | _ => None end
    | _ => None
    end
  end.

Section optimizing.
Context (try_inline : Span → Expr → ArgsCompiledValue Expr → option Expr).

(** * Comprehensions *)

Definition is_nop ctx (cs : list Clause_) : bool :=
  match last cs with Some (Clause _ over _) => is_iterable_empty ctx (node over) | None => false end.
Definition compr ctx (c : ComprCompiled V TC D) : Node :=
  match c with
  | ComprList x cs => if is_nop ctx cs then List_ [] else Compr (ComprList x cs)
  | ComprDict k v cs => if is_nop ctx cs then Dict_ [] else Compr (ComprDict k v cs)
  end.

(** * Optimisation *)

(** The conditions of a clause that are not known to hold. *)
Definition filter_ifs ctx (ifs : list Expr) : list Expr :=
  omap (λ x, let b := expr_truth ctx x in
             match node b with Const true => None | _ => Some (into_expr b) end) ifs.

Section once.
(** The clauses of a dictionary comprehension are optimised twice; [again] is the second time. *)
Context (ctx : OptCtx) (again : Clause_ → Clause_).

Fixpoint opt sp e {struct e} : Expr :=
  let op (x : Expr) := opt (span x) (node x) in
  match e with
  | Value _ | Local _ | LocalCaptured _ | ExprDef _ => mkSpanned sp e
  | ModuleSlot slot =>
    match (m ← ctx_frozen_module ctx; m slot) with
    | None => mkSpanned sp (ModuleSlot slot)
    | Some v => mkSpanned sp (Value v)
    end
  | Tuple xs => mkSpanned sp (tuple (map op xs))
  | List_ xs => mkSpanned sp (List_ (map op xs))
  | Dict_ kvs => mkSpanned sp (Dict_ (map (λ '(k, v), (op k, op v)) kvs))
  | Compr c => mkSpanned sp (opt_compr c)
  | If_ c t f => if_expr ctx (op c) (op t) (op f)
  | Slice l a b c => mkSpanned sp (slice ctx sp (op l) (option_map op a) (option_map op b) (option_map op c))
  | ExprBuiltin1 o x => mkSpanned sp (un_op ctx sp o (op x))
  | LogicalBinOp o l r => logical_bin_op ctx o (op l) (op r)
  | Seq l r => seq (op l) (op r)
  | ExprBuiltin2 o l r => mkSpanned sp (bin_op ctx o (op l) (op r))
  | Index2 a i0 i1 => mkSpanned sp (index2 (op a) (op i0) (op i1))
  | Call c => mkSpanned sp (call try_inline ctx (span c) (op (call_fun (node c))) (map_args op (call_args (node c))))
  end
with opt_compr (c : ComprCompiled V TC D) : Node :=
  let op (x : Expr) := opt (span x) (node x) in
  match c with
  | ComprList x cs => compr ctx (ComprList (op x) (map opt_clause cs))
  | ComprDict k v cs => compr ctx (ComprDict (op k) (op v) (map again (map opt_clause cs)))
  end
with opt_clause (c : Clause_) : Clause_ :=
  let op (x : Expr) := opt (span x) (node x) in
  match c with
  | Clause var over ifs =>
    Clause (mkSpanned (span var) (opt_target (node var))) (op over) (filter_ifs ctx (map op ifs))
  end
with opt_target (a : AssignCompiledValue V TC D) : AssignCompiledValue V TC D :=
  let op (x : Expr) := opt (span x) (node x) in
  match a with
  | AssignDot object field => AssignDot (op object) field
  | AssignIndex array index => AssignIndex (op array) (op index)
  | AssignTuple xs => AssignTuple (map (λ t, mkSpanned (span t) (opt_target (node t))) xs)
  | AssignLocal _ | AssignLocalCaptured _ | AssignModule _ _ => a
  end.
End once.

(** Passes over clauses within at most [d] dictionary comprehensions. *)
Fixpoint opt_again ctx (d : nat) : Clause_ → Clause_ :=
  match d with O => λ c, c | S d => opt_clause ctx (opt_again ctx d) end.
End optimizing.

(** How deep dictionary comprehensions are nested. *)
Definition max_over {A} (f : A → nat) (l : list A) : nat := fold_right (λ a n, f a `max` n) 0 l.
Definition max_option {A} (f : A → nat) (o : option A) : nat := match o with Some x => f x | None => 0 end.
Fixpoint dict_depth e : nat :=
  let depth (x : Expr) := dict_depth (node x) in
  match e with
  | Value _ | Local _ | LocalCaptured _ | ModuleSlot _ | ExprDef _ => 0
  | Tuple xs | List_ xs => max_over depth xs
  | Dict_ kvs => max_over (λ '(k, v), depth k `max` depth v) kvs
  | Compr c => compr_depth c
  | If_ c t f => depth c `max` (depth t `max` depth f)
  | Slice l a b c => depth l `max` (max_option depth a `max` (max_option depth b `max` max_option depth c))
  | ExprBuiltin1 _ x => depth x
  | LogicalBinOp _ l r | Seq l r | ExprBuiltin2 _ l r => depth l `max` depth r
  | Index2 a i0 i1 => depth a `max` (depth i0 `max` depth i1)
  | Call c =>
    depth (call_fun (node c)) `max` (max_over depth (ca_pos_named (call_args (node c))) `max`
      (max_option depth (ca_args (call_args (node c))) `max` max_option depth (ca_kwargs (call_args (node c)))))
  end
with compr_depth (c : ComprCompiled V TC D) : nat :=
  match c with
  | ComprList x cs => dict_depth (node x) `max` max_over clause_depth cs
  | ComprDict k v cs => dict_depth (node k) `max` (dict_depth (node v) `max` S (max_over clause_depth cs))
  end
with clause_depth (c : Clause_) : nat :=
  match c with
  | Clause var over ifs =>
    target_depth (node var) `max` (dict_depth (node over) `max` max_over (λ x, dict_depth (node x)) ifs)
  end
with target_depth (a : AssignCompiledValue V TC D) : nat :=
  match a with
  | AssignDot object _ => dict_depth (node object)
  | AssignIndex array index => dict_depth (node array) `max` dict_depth (node index)
  | AssignTuple xs => max_over (λ t, target_depth (node t)) xs
  | AssignLocal _ | AssignLocalCaptured _ | AssignModule _ _ => 0
  end.

(** * Statements *)

Local Abbreviation Stmts := (list (Spanned (StmtCompiled V TC D))).
Implicit Types ss : Stmts.

Definition is_terminal ss : bool :=
  match last ss with
  | Some s => match node s with Break | Continue | Return _ => true | _ => false end
  | None => false
  end.
Definition extend ss right : Stmts := if is_terminal ss then ss else ss ++ right.

(** [StmtsCompiled::expr] and [if_stmt] call each other on smaller expressions; [weight] bounds the depth. *)
Fixpoint weight e : nat :=
  match e with
  | List_ xs | Tuple xs => S (fold_right (λ x n, weight (node x) + n) 0 xs)
  | ExprBuiltin1 _ x => S (weight (node x))
  | LogicalBinOp _ x y | Seq x y => S (weight (node x) + weight (node y))
  | Call c => S (with_type is_fn_type (node c) (λ x, weight (node x)) 0)
  | _ => 1
  end.
Fixpoint stmts_expr ctx (n : nat) x {struct n} : Stmts :=
  let one := [mkSpanned (span x) (StmtExpr x)] in
  if is_pure_infallible (node x) then [] else
  match n with
  | O => one
  | S n =>
    match node x with
    | List_ xs | Tuple xs => fold_left (λ ss x, extend ss (stmts_expr ctx n x)) xs []
    | ExprBuiltin1 (Not | TypeIs _) e => stmts_expr ctx n e
    | LogicalBinOp And l r => if_stmt_go ctx n (span x) l (stmts_expr ctx n r) []
    | LogicalBinOp Or l r => if_stmt_go ctx n (span x) l [] (stmts_expr ctx n r)
    | _ => match as_type (node x) with Some t => stmts_expr ctx n t | None => one end
    end
  end
with if_stmt_go (ctx : OptCtx) (n : nat) sp (cond : Expr) (t f : Stmts) {struct n} : Stmts :=
  match node (expr_truth ctx cond) with
  | Const true => t
  | Const false => f
  | BoolExpr c =>
    let plain := [mkSpanned sp (StmtIf (mkSpanned sp c) t f)] in
    match n with
    | O => plain
    | S n =>
      match c with
      | ExprBuiltin1 Not cond => if_stmt_go ctx n sp cond f t
      | Seq x cond => extend (extend [] (stmts_expr ctx n x)) (if_stmt_go ctx n sp cond t f)
      | _ =>
        match t, f with
        | [], [] => stmts_expr ctx n (mkSpanned sp c)
        | _, _ => plain
        end
      end
    end
  end.
Definition stmt_expr ctx x : Stmts := stmts_expr ctx (2 * weight (node x)) x.
Definition if_stmt ctx sp (cond : Expr) (t f : Stmts) : Stmts :=
  if_stmt_go ctx (S (2 * weight (node cond))) sp cond t f.
Definition for_stmt ctx sp (var : Target) (over : Expr) (body : Stmts) : Stmts :=
  if is_iterable_empty ctx (node over) then [] else [mkSpanned sp (For var over body)].

Section stmts.
Context (ctx : OptCtx) (op : Expr → Expr) (target : Target → Target).

Definition opt_modify (lhs : AssignModifyLhs V TC D) : AssignModifyLhs V TC D :=
  match lhs with
  | ModifyDot object field => ModifyDot (op object) field
  | ModifyArray array index => ModifyArray (op array) (op index)
  | ModifyLocal _ | ModifyLocalCaptured _ | ModifyModule _ => lhs
  end.
Definition opt_block (f : Stmt → Stmts) ss : Stmts :=
  fold_left (λ out s, if is_terminal out then out else extend out (f s)) ss [].
Fixpoint opt_stmt sp (s : StmtCompiled V TC D) {struct s} : Stmts :=
  let block := opt_block (λ s, opt_stmt (span s) (node s)) in
  match s with
  | Return e => [mkSpanned sp (Return (op e))]
  | StmtExpr e => stmt_expr ctx (op e)
  | Assign lhs ty rhs => [mkSpanned sp (Assign (target lhs) ty (op rhs))]
  | StmtIf cond t f => if_stmt ctx sp (op cond) (block t) (block f)
  | For var over body => for_stmt ctx sp (target var) (op over) (block body)
  | PossibleGc | Break | Continue => [mkSpanned sp s]
  | AssignModify lhs o rhs => [mkSpanned sp (AssignModify (opt_modify lhs) o (op rhs))]
  end.
End stmts.

(** [optimize] of expressions, targets and statements. *)
Definition optimize_expr try_inline ctx x : Expr :=
  opt try_inline ctx (opt_again try_inline ctx (dict_depth (node x))) (span x) (node x).
Definition optimize_target try_inline ctx (a : Target) : Target :=
  mkSpanned (span a) (opt_target try_inline ctx (opt_again try_inline ctx (target_depth (node a))) (node a)).
Definition optimize try_inline ctx ss : Stmts :=
  opt_block (λ s, opt_stmt ctx (optimize_expr try_inline ctx) (optimize_target try_inline ctx) (span s) (node s)) ss.
End optimize.
