(* ===== verification/Alike.v ===== *)
(** When two runs are alike.  Code that was optimised allocates less and in another order, so its heap is not the
    same as that of the code it was made from; it looks the same from the values that the program has.  The
    relation is an interface, with the laws that no operation of a value can tell the two apart ([AlikeOk]), and
    those that the optimiser relies on, on constants and on its operations ([FoldOk]). *)

From S2P Require Import Prelude Hashing TableMap FastString StrFormat Symbol CodeMap.
From S2P Require Import DefParams OrdMap ParamSpec Def Ir Inline World IrEval Optimize.

(** What is known of two heaps: values that correspond; a list of the first heap that cannot change, with its
    elements; a value of the first that was just made and that nothing refers to, with its contents; and a list or a
    tuple that was just made, with its elements. *)
Inductive item (V : Type) :=
| Pair (a b : V)
| Elems (a : V) (vs : list V)
| Fresh (a : V) (t : tree V)
| Shell (tuple : bool) (a : V) (vs : list V).
Arguments Pair {V}. Arguments Elems {V}. Arguments Fresh {V}. Arguments Shell {V}.

(** [same_error]: the same error, perhaps at another place.  [assigned_params]: how many of the first variables of a frame
    have a value, as parameters do. *)
Class Alike (V H E : Type) := {
  alike : list (item V) → H → H → Prop;
  same_error : E → E → Prop;
  assigned_params : nat;
}.

Section alike.
Context {V H E : Type} {AL : Alike V H E}.
Implicit Types (k : list (item V)) (h : H).

Definition vsim k (a b : V) : Prop := Pair a b ∈ k.
Definition lsim k (l l' : list V) : Prop := Forall2 (vsim k) l l'.
Definition osim k (o o' : option V) : Prop := option_Forall2 (vsim k) o o'.
(** What is known of the first heap alone: values correspond to themselves. *)
Definition to_left (i : item V) : item V := match i with Pair a _ => Pair a a | _ => i end.
(** Nothing but pairs, which satisfy [P]. *)
Definition only_pairs (P : V → V → Prop) (l : list (item V)) : Prop := ∀ i, i ∈ l → ∃ a b, i = Pair a b ∧ P a b.
Definition same {A} k (a b : A) : Prop := a = b.
Definition args_sim k (a a' : Args V) : Prop :=
  lsim k (arg_pos a) (arg_pos a') ∧ lsim k (arg_named a) (arg_named a') ∧ arg_names a = arg_names a' ∧
  osim k (arg_args a) (arg_args a') ∧ osim k (arg_kwargs a) (arg_kwargs a').
Definition entry_sim k (x y : Hashed V * V) : Prop :=
  hash x.1 = hash y.1 ∧ vsim k (key x.1) (key y.1) ∧ vsim k x.2 y.2.

(** Two operations do the same on heaps that are alike. *)
Definition res_sim {A B} k (R : list (item V) → A → B → Prop) (x : result E A * H) (y : result E B * H) : Prop :=
  match x, y with
  | (Ok a, h), (Ok b, h') => ∃ k', k ⊆+ k' ∧ alike k' h h' ∧ R k' a b
  | (Err e, h), (Err e', h') => same_error e e' ∧ alike k h h'
  | (Fault f, _), (Fault f', _) => f = f'
  | _, _ => False
  end.
Definition op_sim {A B} k (R : list (item V) → A → B → Prop) (o : Op H E A) (o' : Op H E B) : Prop :=
  ∀ h h', alike k h h' → res_sim k R (o h) (o' h').
Definition heap_sim {A B} k (R : list (item V) → A → B → Prop) (o : H → A * H) (o' : H → B * H) : Prop :=
  ∀ h h', alike k h h' → ∃ k', k ⊆+ k' ∧ alike k' (o h).2 (o' h').2 ∧ R k' (o h).1 (o' h').1.
End alike.

(** * Operations cannot tell runs that are alike apart *)

Class AlikeOk (V H E TC D KM MB : Type) `{World V H E TC D KM MB} {AL : Alike V H E} := {
  same_error_equiv :: Equivalence same_error;
  alike_weaken k k' h h' : k ⊆+ k' → alike k' h h' → alike k h h';
  (** A run is alike to itself, and to what its double is alike to. *)
  alike_left k h h' : alike k h h' → alike (to_left <$> k) h h;
  alike_trans k k1 k2 m h1 h2 h3 :
    to_left <$> k ⊆+ k1 → k ⊆+ k2 → alike k1 h1 h2 → alike k2 h2 h3 →
    only_pairs (λ a c, ∃ b, Pair a b ∈ k1 ∧ Pair b c ∈ k2) m → alike (m ++ k) h1 h3;
  alike_to_bool k a b h h' : alike k h h' → vsim k a b → to_bool a h = to_bool b h';
  alike_type k a b h h' : alike k h h' → vsim k a b → get_type_value a = get_type_value b;
  alike_hashed k a b h h' : alike k h h' → vsim k a b →
    match get_hashed a, get_hashed b with
    | Ok x, Ok y => x = y | Err e, Err e' => same_error e e' | Fault f, Fault g => f = g | _, _ => False
    end;
  alike_key k a b a' b' h h' : alike k h h' → vsim k a b → vsim k a' b' → key_eq a a' = key_eq b b';
  alike_duplicate k a b h h' : alike k h h' → vsim k a b → same_error (duplicate_key_error a) (duplicate_key_error b);
  alike_matches k t a b h h' : alike k h h' → vsim k a b → type_matches t a h = type_matches t b h';
  alike_span e e' sp sp' k h h' :
    alike k h h' → same_error e e' → same_error (add_span_to_expr_error e sp h) (add_span_to_expr_error e' sp' h');
  alike_unassigned k x h h' :
    alike k h h' → same_error (local_var_referenced_before_assignment x h) (local_var_referenced_before_assignment x h');
  (** Operators. *)
  equals_sim k :: Proper (vsim k ==> vsim k ==> op_sim k same) v_equals;
  compare_sim k :: Proper (vsim k ==> vsim k ==> op_sim k same) v_compare;
  is_in_sim k :: Proper (vsim k ==> vsim k ==> op_sim k same) is_in;
  minus_sim k :: Proper (vsim k ==> op_sim k vsim) v_minus;
  plus_sim k :: Proper (vsim k ==> op_sim k vsim) v_plus;
  bit_not_sim k :: Proper (vsim k ==> op_sim k vsim) bit_not;
  sub_sim k :: Proper (vsim k ==> vsim k ==> op_sim k vsim) v_sub;
  add_sim k :: Proper (vsim k ==> vsim k ==> op_sim k vsim) v_add;
  mul_sim k :: Proper (vsim k ==> vsim k ==> op_sim k vsim) v_mul;
  percent_sim k :: Proper (vsim k ==> vsim k ==> op_sim k vsim) v_percent;
  div_sim k :: Proper (vsim k ==> vsim k ==> op_sim k vsim) v_div;
  floor_div_sim k :: Proper (vsim k ==> vsim k ==> op_sim k vsim) v_floor_div;
  bit_and_sim k :: Proper (vsim k ==> vsim k ==> op_sim k vsim) bit_and;
  bit_or_sim k :: Proper (vsim k ==> vsim k ==> op_sim k vsim) bit_or;
  bit_xor_sim k :: Proper (vsim k ==> vsim k ==> op_sim k vsim) bit_xor;
  left_shift_sim k :: Proper (vsim k ==> vsim k ==> op_sim k vsim) left_shift;
  right_shift_sim k :: Proper (vsim k ==> vsim k ==> op_sim k vsim) right_shift;
  at_sim k :: Proper (vsim k ==> vsim k ==> op_sim k vsim) v_at;
  at2_sim k :: Proper (vsim k ==> vsim k ==> vsim k ==> op_sim k vsim) v_at2;
  slice_sim k :: Proper (vsim k ==> osim k ==> osim k ==> osim k ==> op_sim k vsim) v_slice;
  length_sim k :: Proper (vsim k ==> op_sim k same) v_length;
  alloc_int_sim k z :: Proper (heap_sim k vsim) (alloc_int z);
  set_at_sim k :: Proper (vsim k ==> vsim k ==> vsim k ==> op_sim k same) set_at;
  set_attr_sim k :: Proper (vsim k ==> eq ==> vsim k ==> op_sim k same) set_attr;
  add_assign_sim k :: Proper (vsim k ==> vsim k ==> op_sim k vsim) add_assign;
  bit_or_assign_sim k :: Proper (vsim k ==> vsim k ==> op_sim k vsim) bit_or_assign;
  percent_s_one_sim k b a :: Proper (vsim k ==> op_sim k vsim) (λ v, World.percent_s_one b v a);
  format_one_sim k b a :: Proper (vsim k ==> heap_sim k vsim) (λ v, World.format_one b v a);
  (** Iteration, allocation, containers. *)
  iterate_sim k :: Proper (vsim k ==> op_sim k vsim) v_iterate;
  iter_next_sim k i a b : vsim k a b → heap_sim k osim (iter_next a i) (iter_next b i);
  iter_stop_sim k a b h h' : vsim k a b → alike k h h' → alike k (iter_stop a h) (iter_stop b h');
  alloc_tuple_sim k :: Proper (lsim k ==> heap_sim k vsim) h_alloc_tuple;
  alloc_list_sim k :: Proper (lsim k ==> heap_sim k vsim) h_alloc_list;
  alloc_dict_sim k :: Proper (Forall2 (entry_sim k) ==> heap_sim k vsim) h_alloc_dict;
  list_push_sim k :: Proper (vsim k ==> vsim k ==> op_sim k same) list_push;
  dict_insert_sim k d d' x y :
    vsim k d d' → entry_sim k x y → op_sim k same (dict_insert_hashed d x.1 x.2) (dict_insert_hashed d' y.1 y.2);
  (** Attributes, calls, functions. *)
  getattr_sim k f :: Proper (vsim k ==> op_sim k vsim) (λ v, get_attr_hashed_bind v f);
  call_method_sim k f v v' sp a a' :
    vsim k v v' → args_sim k a a' → op_sim k vsim (call_method v f a sp) (call_method v' f a' sp);
  invoke_sim k v v' sp a a' :
    vsim k v v' → args_sim k a a' → op_sim k vsim (invoke_with_loc v sp a) (invoke_with_loc v' sp a');
  check_type_sim k t :: Proper (vsim k ==> op_sim k same) (check_type t);
  check_return_sim k :: Proper (vsim k ==> op_sim k same) check_return_type;
  instr_def_sim k d l l' vs vs' :
    lsim k vs vs' → Forall2 (osim k) l l' →
    op_sim k (λ k x y, vsim k x.1 y.1 ∧ Forall2 (osim k) x.2 y.2) (instr_def d vs l) (instr_def d vs' l');
  (** Variables. *)
  get_slot_sim k x : op_sim k vsim (get_slot_module x) (get_slot_module x);
  export_sim k n :: Proper (vsim k ==> op_sim k same) (λ v, export_as v n);
  captured_get_sim k a b h h' :
    alike k h h' → vsim k a b →
    match value_captured_get a h, value_captured_get b h' with
    | Some v, Some v' => ∃ k', k ⊆+ k' ∧ alike k' h h' ∧ vsim k' v v'
    | None, None => True
    | _, _ => False
    end;
  captured_set_sim k :: Proper (vsim k ==> vsim k ==> op_sim k same) value_captured_set;
  alloc_captured_sim k :: Proper (vsim k ==> heap_sim k vsim) alloc_value_captured;
}.

(** * Constants and folded operations *)

(** Iterating [v] gives nothing and leaves the heap as it was, to all appearances. *)
Definition empty_iterable `{World V H E TC D KM MB} {AL : Alike V H E} (v : V) (h : H) : Prop :=
  ∃ it h1 h2, v_iterate v h = (Ok it, h1) ∧ iter_next it 0 h1 = (None, h2) ∧
    ∀ k h', alike k h h' → alike k (iter_stop it h2) h'.
Definition one_arg {V} (a : V) : Args V := mkArguments [a] [] [] None None.
Definition frozen_option {V H E TC D MB} `{OptWorld V H E TC D MB} (o : option V) : Prop :=
  match o with Some v => is_frozen v = true | None => True end.
Definition frozen_args {V H E TC D MB} `{OptWorld V H E TC D MB} (a : Args V) : Prop :=
  Forall (λ v, is_frozen v = true) (arg_pos a ++ arg_named a) ∧ frozen_option (arg_args a) ∧ frozen_option (arg_kwargs a).

Section fold.
Context `{W : World V H E TC D KM MB} {OW : OptWorld V H E TC D MB} {AL : Alike V H E} (ctx : OptCtx (V:=V) (H:=H)).
(** An operation that gave a value while compiling gives the same value, newly made, when the program runs. *)
Definition pure (o : Op H E V) : Prop := ∀ v hc k h h',
  run_ok ctx o = Some (v, hc) → alike k h h' →
  ∃ u h1, o h = (Ok u, h1) ∧ alike (Fresh u (contents v hc) :: k) h1 h'.
(** The same for one that makes a string. *)
Definition pure_text (o : Op H E V) : Prop := ∀ v hc s k h h',
  run_ok ctx o = Some (v, hc) → unpack_str v = Some s → alike k h h' →
  ∃ u h1, o h = (Ok u, h1) ∧ alike (Pair u (frozen_str s) :: k) h1 h'.
(** It gives a value that is alike to [w]. *)
Definition gives_value (E:=E) k (o : Op H E V) (w : V) : Prop := ∀ h h',
  alike k h h' → ∃ u h1, o h = (Ok u, h1) ∧ alike (Pair u w :: k) h1 h'.
End fold.

Class FoldOk (V H E TC D KM MB : Type) `{W : World V H E TC D KM MB} {OW : OptWorld V H E TC D MB} {AL : Alike V H E}
    (ctx : OptCtx (V:=V) (H:=H)) := {
  (** Frozen values. *)
  frozen_alike v k h h' : is_frozen v = true → alike k h h' → alike (Pair v v :: k) h h';
  frozen_new_bool b : is_frozen (new_bool b) = true;
  frozen_new_none : is_frozen new_none = true;
  frozen_frozen_str s : is_frozen (frozen_str s) = true;
  frozen_str_ok s : as_frozen_str (frozen_str s) = Some s;
  frozen_frozen_tuple vs : Forall (λ v, is_frozen v = true) vs → is_frozen (frozen_tuple vs) = true;
  frozen_copy_float v c : copy_float v = Some c → is_frozen c = true;
  frozen_copy_range v c : copy_range v = Some c → is_frozen c = true;
  frozen_inline_int z v : inline_int z = Some v → is_frozen v = true;
  frozen_fn_len : is_frozen fn_len = true;
  frozen_fn_type : is_frozen fn_type = true;
  frozen_method v m : is_frozen v = true → is_frozen (frozen_bound_method v m) = true;
  frozen_enum f c a v : enum_construct f = Some c → c a = Ok v → is_frozen v = true;
  frozen_list_items v vs : frozen_list v = Some vs → Forall (λ v, is_frozen v = true) vs;
  frozen_to_bool v h h' : is_frozen v = true → to_bool v h = to_bool v h';
  unpack_bool_ok v b : unpack_bool v = Some b → v = new_bool b;
  get_type_ok v : get_type v = get_type_value v;
  (** Module slots. *)
  frozen_slot m x v : ctx_frozen_module ctx = Some m → m x = Some v → is_frozen v = true;
  module_slot m x v k h h' :
    ctx_frozen_module ctx = Some m → m x = Some v → alike k h h' → get_slot_module x h = (Ok v, h);
  set_slot_sim x a b k h h' :
    (∀ m, ctx_frozen_module ctx = Some m → m x = None) → vsim k a b → alike k h h' →
    alike k (set_slot_module x a h) (set_slot_module x b h');
  (** What is allocated and not used. *)
  drop_list vs k h h' : alike k h h' → alike k (h_alloc_list vs h).2 h';
  drop_tuple vs k h h' : alike k h h' → alike k (h_alloc_tuple vs h).2 h';
  drop_dict k h h' : alike k h h' → alike k (h_alloc_dict [] h).2 h';
  list_truth vs h : to_bool (h_alloc_list vs h).1 (h_alloc_list vs h).2 = negb (length vs =? 0);
  tuple_truth vs h : to_bool (h_alloc_tuple vs h).1 (h_alloc_tuple vs h).2 = negb (length vs =? 0);
  dict_truth h : to_bool (h_alloc_dict [] h).1 (h_alloc_dict [] h).2 = false;
  type_of_bool b : get_type_value (new_bool b) = bool_type;
  type_of_list vs h : get_type_value (h_alloc_list vs h).1 = list_type;
  type_of_tuple vs h : get_type_value (h_alloc_tuple vs h).1 = tuple_type;
  type_of_dict h : get_type_value (h_alloc_dict [] h).1 = dict_type;
  (** Tuples and lists. *)
  const_tuple vs k : Forall (λ v, is_frozen v = true) vs →
    gives_value (E:=E) k (λ h, let '(v, h) := h_alloc_tuple vs h in (Ok v, h)) (frozen_tuple vs);
  list_elems vs k h h' : alike k h h' → alike (Elems (h_alloc_list vs h).1 vs :: k) (h_alloc_list vs h).2 h';
  const_elems v vs k h h' : frozen_list v = Some vs → alike k h h' → alike (Elems v vs :: k) h h';
  add_elems a b vs ws xs k h h' :
    Elems a vs ∈ k → Elems b ws ∈ k → lsim k (vs ++ ws) xs → alike k h h' →
    ∃ c h1, v_add a b h = (Ok c, h1) ∧
      alike (Pair c (h_alloc_list xs h').1 :: k) h1 (h_alloc_list xs h').2;
  empty_list h : empty_iterable (h_alloc_list [] h).1 (h_alloc_list [] h).2;
  empty_tuple h : empty_iterable (h_alloc_tuple [] h).1 (h_alloc_tuple [] h).2;
  empty_dict h : empty_iterable (h_alloc_dict [] h).1 (h_alloc_dict [] h).2;
  empty_const v hc h :
    is_builtin v = true → v_length v (ctx_heap ctx) = (Ok 0%Z, hc) → as_frozen_str v ≠ Some [] → empty_iterable v h;
  (** Copies of a value that was just made. *)
  contents_root v h : ∃ ts, contents v h = Tree v ts;
  fresh_frozen u v ts k h h' : is_frozen v = true → alike (Fresh u (Tree v ts) :: k) h h' → alike (Pair u v :: k) h h';
  fresh_str u v ts s k h h' :
    unpack_str v = Some s → alike (Fresh u (Tree v ts) :: k) h h' → alike (Pair u (frozen_str s) :: k) h h';
  fresh_float u v ts c k h h' :
    copy_float v = Some c → alike (Fresh u (Tree v ts) :: k) h h' → alike (Pair u c :: k) h h';
  fresh_range u v ts c k h h' :
    copy_range v = Some c → alike (Fresh u (Tree v ts) :: k) h h' → alike (Pair u c :: k) h h';
  fresh_items u v ts k h h' :
    is_list v || is_tuple v = true → alike (Fresh u (Tree v ts) :: k) h h' →
    ∃ us, length us = length ts ∧ alike (zip_with Fresh us ts ++ Shell (negb (is_list v)) u us :: k) h h';
  shell_list u us vs k h h' :
    lsim k us vs → alike (Shell false u us :: k) h h' →
    alike (Pair u (h_alloc_list vs h').1 :: k) h (h_alloc_list vs h').2;
  shell_tuple u us vs k h h' :
    lsim k us vs → alike (Shell true u us :: k) h h' →
    alike (Pair u (h_alloc_tuple vs h').1 :: k) h (h_alloc_tuple vs h').2;
  shell_const u us vs k h h' :
    lsim k us vs → Forall (λ v, is_frozen v = true) vs → alike (Shell true u us :: k) h h' →
    alike (Pair u (frozen_tuple vs) :: k) h h';
  (** Operations on constants. *)
  fold_unary op v : is_builtin v = true → (∀ f, op ≠ Dot f) → pure ctx (builtin1 op v);
  fold_binary op a b : is_builtin a = true → is_builtin b = true → pure ctx (Builtin2_eval op a b);
  fold_at a i : is_builtin a = true → is_frozen i = true → pure ctx (v_at a i);
  fold_slice a x y z :
    is_builtin a = true → frozen_option x → frozen_option y → frozen_option z → pure ctx (v_slice a x y z);
  fold_call f sp a : speculative_exec_safe f = true → frozen_args a → pure ctx (invoke_with_loc f sp a);
  fold_percent_s_one b v a : is_frozen v = true → pure_text ctx (World.percent_s_one b v a);
  fold_format_one b v a : is_frozen v = true → pure_text ctx (builtin1 (FormatOne b a) v);
  fold_equals a b r hc k h h' :
    is_frozen a = true → is_frozen b = true → v_equals a b (ctx_heap ctx) = (Ok r, hc) → alike k h h' →
    ∃ h1, v_equals a b h = (Ok r, h1) ∧ alike k h1 h';
  fold_length v n w hc k :
    is_frozen v = true → v_length v (ctx_heap ctx) = (Ok n, hc) → inline_int n = Some w → gives_value (E:=E) k (len_op v) w;
  fold_enum f c a v sp k :
    enum_construct f = Some c → is_frozen a = true → c a = Ok v → gives_value (E:=E) k (invoke_with_loc f sp (one_arg a)) v;
  fold_getattr v f m hc w k :
    is_frozen v = true → get_attr_hashed_raw v f (ctx_heap ctx) = (Ok m, hc) → member_value v m = Some w →
    gives_value (E:=E) k (get_attr_hashed_bind v f) w;
  fold_method v f m hc w sp a b k :
    is_frozen v = true → get_attr_hashed_raw v f (ctx_heap ctx) = (Ok m, hc) → member_value v m = Some w →
    args_sim k a b → op_sim k vsim (call_method v f a sp) (invoke_with_loc w sp b);
  (** Calls of known functions. *)
  call_len f sp a h : is_fn_len f = true → invoke_with_loc f sp (one_arg a) h = len_op a h;
  call_type f sp a h : is_fn_type f = true → invoke_with_loc f sp (one_arg a) h = (Ok (frozen_str (get_type_value a)), h);
  call_isinstance f t ty sp a h :
    is_fn_isinstance f = true → new_frozen t = Some ty →
    invoke_with_loc f sp (mkArguments [a; t] [] [] None None) h = (Ok (new_bool (type_matches ty a h)), h);
  fn_len_ok : is_fn_len fn_len = true;
  fn_type_ok : is_fn_type fn_type = true;
  call_type_is f d t sp a h :
    frozen_def f = Some d → def_inline_body new_none d = Some (ReturnTypeIs t) →
    num_positional (compiled_indices (fd_params d)) = 1 → invoke_with_loc f sp (one_arg a) h = (Ok (new_bool (bool_decide (get_type_value a = t))), h);
  call_format f this s b a sp x y k :
    as_bound_method f = Some (this, format_method) → as_frozen_str this = Some s →
    parse_format_one s = Ok (Some (b, a)) → vsim k x y →
    op_sim k vsim (invoke_with_loc f sp (one_arg x)) (builtin1 (FormatOne b a) y);
  percent_one v s b a x y k :
    as_frozen_str v = Some s → parse_percent_s_one s = Some (b, a) → vsim k x y →
    op_sim k vsim (v_percent v x) (World.percent_s_one b y a);
}.

(** A function that is taken for a test of the type of its argument has a parameter that accepts a positional
    argument.  The optimiser does not look: it takes a function whose parameter comes after a star for one too. *)
Class PositionalTypeTests (V H E TC D KM MB : Type) `{W : World V H E TC D KM MB} {OW : OptWorld V H E TC D MB} :=
  type_is_positional f d t :
    frozen_def f = Some d → def_inline_body new_none d = Some (ReturnTypeIs t) → num_positional (compiled_indices (fd_params d)) = 1.
