(* ===== verification/IrSim.v ===== *)
(** Evaluation cannot tell runs that are alike apart.  [esim x y] is that the expression [y] may stand for [x]: in
    states that are alike they come to results that are alike, raise the same error (perhaps at another place), or
    both need more rounds.  Every construct respects it. *)

From S2P Require Import Prelude Hashing TableMap FastString StrFormat Symbol CodeMap.
From S2P Require Import DefParams OrdMap ParamSpec Def Ir IrWf Inline World IrEval Optimize Alike.

Section sim.
Context `{W : World V H E TC D KM MB} {AL : Alike V H E}.
Implicit Types (k : list (item V)) (s : St V H).

(** * States and outcomes *)

Definition frame_sim k (l l' : list (option V)) : Prop :=
  Forall2 (osim k) l l' ∧ ∀ x, x < assigned_params (V:=V) (H:=H) (E:=E) → ∃ v, l !! x = Some (Some v).
Definition st_sim k s s' : Prop := alike k (st_heap s) (st_heap s') ∧ frame_sim k (st_locals s) (st_locals s').
Definition exit_sim k (o o' : Outcome V H E) : Prop :=
  match o, o' with
  | Returned v h, Returned v' h' => ∃ k', k ⊆+ k' ∧ alike k' h h' ∧ vsim k' v v'
  | Raised e h, Raised e' h' => same_error e e' ∧ alike k h h'
  | Faulted f, Faulted f' => f = f'
  | _, _ => False
  end.
Definition out_sim {A B} k (R : list (item V) → A → B → Prop) (o : option (out V H E A)) (o' : option (out V H E B)) : Prop :=
  match o, o' with
  | None, None => True
  | Some (Done a s), Some (Done b s') => ∃ k', k ⊆+ k' ∧ st_sim k' s s' ∧ R k' a b
  | Some (Exits x), Some (Exits y) => exit_sim k x y
  | _, _ => False
  end.

Context {AO : AlikeOk V H E TC D KM MB}.

Lemma elem_mono k k' (i : item V) : k ⊆+ k' → i ∈ k → i ∈ k'.
Proof. intros Hk Hi. by eapply elem_of_submseteq. Qed.
Lemma vsim_mono k k' a b : k ⊆+ k' → vsim k a b → vsim k' a b.
Proof. apply elem_mono. Qed.
Lemma lsim_mono k k' l l' : k ⊆+ k' → lsim k l l' → lsim k' l l'.
Proof. intros Hk Hl. eapply Forall2_impl; [done|]. intros; by eapply vsim_mono. Qed.
Lemma osim_mono k k' o o' : k ⊆+ k' → osim k o o' → osim k' o o'.
Proof. intros Hk []; constructor. by eapply vsim_mono. Qed.
Lemma locals_mono k k' l l' : k ⊆+ k' → frame_sim k l l' → frame_sim k' l l'.
Proof. intros Hk [Hl Hp]. split; [|done]. eapply Forall2_impl; [done|]. intros; by eapply osim_mono. Qed.
Lemma frame_insert k l l' x v w : frame_sim k l l' → vsim k v w → frame_sim k (<[x := Some v]> l) (<[x := Some w]> l').
Proof.
  intros [Hl Hp] Hv. split; [apply Forall2_insert; [done|by constructor]|]. intros y [u Hu]%Hp.
  destruct (decide (x = y)) as [<-|Hne]; [|exists u; by rewrite list_lookup_insert_ne].
  exists v. apply list_lookup_insert_eq. by eapply lookup_lt_Some.
Qed.
Lemma args_mono k k' a a' : k ⊆+ k' → args_sim k a a' → args_sim k' a a'.
Proof. intros Hk (? & ? & ? & ? & ?). split_and!; try done; by first [eapply lsim_mono | eapply osim_mono]. Qed.
Lemma sub_cons (i : item V) k : k ⊆+ i :: k.
Proof. by apply submseteq_cons. Qed.
Lemma st_heap_sim k k' s s' h h' :
  k ⊆+ k' → st_sim k s s' → alike k' h h' → st_sim k' (mkSt (st_locals s) h) (mkSt (st_locals s') h').
Proof. intros Hk [_ Hl] Hh. split; [done|]. by eapply locals_mono. Qed.

Lemma exit_mono k k' o o' : k ⊆+ k' → exit_sim k' o o' → exit_sim k o o'.
Proof.
  intros Hk. destruct o, o'; simpl; try done.
  - intros (k2 & H2 & ? & ?). exists k2. split_and!; [by trans k'|done..].
  - intros [? ?]. split; [done|by eapply alike_weaken].
Qed.
Lemma out_mono {A B} k k' R (o : option (out V H E A)) (o' : option (out V H E B)) :
  k ⊆+ k' → out_sim k' R o o' → out_sim k R o o'.
Proof.
  intros Hk. destruct o as [[a s|x]|], o' as [[b s'|y]|]; simpl; try done.
  - intros (k2 & H2 & ? & ?). exists k2. split_and!; [by trans k'|done..].
  - by apply exit_mono.
Qed.
Lemma out_impl {A B} k (R R' : list (item V) → A → B → Prop) (o : option (out V H E A)) (o' : option (out V H E B)) :
  (∀ k' a b, k ⊆+ k' → R k' a b → R' k' a b) → out_sim k R o o' → out_sim k R' o o'.
Proof. destruct o as [[a s|x]|], o' as [[b s'|y]|]; simpl; try done. intros HR (k2 & ? & ? & ?). exists k2. eauto. Qed.

Lemma out_ret {A B} k R (a : A) (b : B) s s' : st_sim k s s' → R k a b → out_sim k R (Some (Done a s)) (Some (Done b s')).
Proof. intros. by exists k. Qed.
Lemma out_bind {A B A' B'} k R R' (m : option (out V H E A)) (m' : option (out V H E B))
    (f : A → St V H → option (out V H E A')) (g : B → St V H → option (out V H E B')) :
  out_sim k R m m' →
  (∀ k' a b s s', k ⊆+ k' → st_sim k' s s' → R k' a b → out_sim k' R' (f a s) (g b s')) →
  out_sim k R' (obind m f) (obind m' g).
Proof.
  destruct m as [[a s|x]|], m' as [[b s'|y]|]; simpl; try done.
  intros (k' & Hk & Hs & HR) Hfg. eapply out_mono; [done|]. by apply Hfg.
Qed.
Lemma out_raise {A B} k R sp sp' (e e' : E) h h' :
  same_error e e' → alike k h h' → out_sim (A:=A) (B:=B) k R (raise sp e h) (raise sp' e' h').
Proof. intros He Hh. split; [|done]. by eapply alike_span. Qed.
Lemma out_at_span {A B} k R sp sp' (o : Op H E A) (o' : Op H E B) s s' :
  op_sim k R o o' → st_sim k s s' → out_sim k R (at_span sp o s) (at_span sp' o' s').
Proof.
  intros Ho Hs. specialize (Ho _ _ (proj1 Hs)). unfold at_span, res_sim in *.
  destruct (o (st_heap s)) as [[a|e|f] h], (o' (st_heap s')) as [[b|e'|f'] h']; try done.
  - destruct Ho as (k' & Hk & Hh & HR). exists k'. split_and!; [done| |done]. by eapply st_heap_sim.
  - destruct Ho as [He Hh]. by apply out_raise.
Qed.
Lemma out_with_heap {A B} k R (o : H → A * H) (o' : H → B * H) s s' :
  heap_sim k R o o' → st_sim k s s' → out_sim k R (with_heap o s) (with_heap o' s').
Proof.
  intros Ho Hs. specialize (Ho _ _ (proj1 Hs)). unfold with_heap.
  destruct (o (st_heap s)) as [a h], (o' (st_heap s')) as [b h'], Ho as (k' & Hk & Hh & HR). simpl in *.
  exists k'. split_and!; [done| |done]. by eapply st_heap_sim.
Qed.


(** * Operations that are put together *)

Context {OW : OptWorld V H E TC D MB} {ctx : OptCtx (V:=V) (H:=H)} {FO : FoldOk V H E TC D KM MB ctx}.

Lemma const_sim k h h' v : is_frozen v = true → alike k h h' → ∃ k', k ⊆+ k' ∧ alike k' h h' ∧ vsim k' v v.
Proof. intros Hv Hh. exists (Pair v v :: k). split_and!; [apply sub_cons|by eapply frozen_alike|constructor]. Qed.
Lemma out_const k v s s' : is_frozen v = true → st_sim k s s' → out_sim k vsim (ret v s) (ret v s').
Proof.
  intros Hv [Hh Hl]. destruct (const_sim k _ _ v Hv Hh) as (k' & Hk & Hh' & Hvv). exists k'. split_and!; [done| |done].
  split; [done|]. by eapply locals_mono.
Qed.
Lemma res_const k (v : V) h h' : is_frozen v = true → alike k h h' → res_sim (E:=E) k vsim (Ok v, h) (Ok v, h').
Proof. intros Hv Hh. destruct (const_sim k h h' v Hv Hh) as (k' & ? & ? & ?). by exists k'. Qed.
Lemma op_bool_sim k (o o' : Op H E bool) : op_sim k same o o' → op_sim k vsim (op_bool o) (op_bool o').
Proof.
  intros Ho h h' Hh. specialize (Ho h h' Hh). unfold op_bool, res_sim in *.
  destruct (o h) as [[a|e|f] h1], (o' h') as [[b|e'|f'] h2]; simpl in *; try done.
  destruct Ho as (k' & Hk & Hh' & <-).
  destruct (const_sim k' h1 h2 (new_bool a) (frozen_new_bool a) Hh') as (k2 & ? & ? & ?).
  exists k2. split_and!; [by trans k'|done..].
Qed.
#[global] Instance builtin1_sim k op : Proper (vsim k ==> op_sim k vsim) (builtin1 op).
Proof.
  intros a b Hab. destruct op; simpl.
  - by apply minus_sim.
  - by apply plus_sim.
  - by apply bit_not_sim.
  - intros h h' Hh. rewrite (alike_to_bool k a b h h') by done. apply res_const; [apply (frozen_new_bool (ctx:=ctx))|done].
  - intros h h' Hh. rewrite (alike_type k a b h h') by done. apply res_const; [apply (frozen_new_bool (ctx:=ctx))|done].
  - by apply percent_s_one_sim.
  - intros h h' Hh. destruct (format_one_sim k before after _ _ Hab h h' Hh) as (k' & Hk & Hh' & HR).
    destruct (World.format_one before a after h), (World.format_one before b after h'). by exists k'.
  - by apply getattr_sim.
Qed.
#[global] Instance builtin2_sim k op : Proper (vsim k ==> vsim k ==> op_sim k vsim) (Builtin2_eval op).
Proof.
  intros a a' Ha b b' Hb. destruct op; simpl; try (apply op_bool_sim).
  - by apply equals_sim.
  - by apply is_in_sim.
  - by apply sub_sim.
  - by apply add_sim.
  - by apply mul_sim.
  - by apply percent_sim.
  - by apply div_sim.
  - by apply floor_div_sim.
  - by apply bit_and_sim.
  - by apply bit_or_sim.
  - by apply bit_xor_sim.
  - by apply left_shift_sim.
  - by apply right_shift_sim.
  - assert (op_sim k same (v_compare a b) (v_compare a' b')) as Hc by by apply compare_sim.
    intros h h' Hh. specialize (Hc h h' Hh).
    destruct (v_compare a b h) as [[c|e|f] h1], (v_compare a' b' h') as [[c'|e'|f'] h2]; simpl in *; try done.
    destruct Hc as (k' & Hk & Hh' & <-).
    destruct (const_sim k' h1 h2 (new_bool (compare_apply op c)) (frozen_new_bool _) Hh') as (k2 & ? & ? & ?).
    exists k2. split_and!; [by trans k'|done..].
  - by apply at_sim.
Qed.
#[global] Instance assign_op_sim k op : Proper (vsim k ==> vsim k ==> op_sim k vsim) (assign_op op).
Proof.
  intros a a' Ha b b' Hb. destruct op; simpl; first [by apply add_assign_sim | by apply sub_sim | by apply mul_sim
    | by apply div_sim | by apply floor_div_sim | by apply percent_sim | by apply bit_and_sim | by apply bit_or_assign_sim
    | by apply bit_xor_sim | by apply left_shift_sim | by apply right_shift_sim].
Qed.
(** One operation after another. *)
Lemma op_bind {A B A' B'} k R R' (o : Op H E A) (o' : Op H E B) (f : A → Op H E A') (g : B → Op H E B') :
  op_sim k R o o' → (∀ k' a b, k ⊆+ k' → R k' a b → op_sim k' R' (f a) (g b)) →
  op_sim k R' (λ h, match o h with (Ok a, h) => f a h | (Err e, h) => (Err e, h) | (Fault x, h) => (Fault x, h) end)
    (λ h, match o' h with (Ok b, h) => g b h | (Err e, h) => (Err e, h) | (Fault x, h) => (Fault x, h) end).
Proof.
  intros Ho Hf h h' Hh. specialize (Ho h h' Hh). unfold res_sim in Ho at 1.
  destruct (o h) as [[a|e|x] h1], (o' h') as [[b|e'|x'] h2]; try done.
  destruct Ho as (k' & Hk & Hh' & HR). specialize (Hf k' a b Hk HR h1 h2 Hh'). unfold res_sim in *.
  destruct (f a h1) as [[c|e|y] h3], (g b h2) as [[c'|e'|y'] h4]; try done.
  - destruct Hf as (k2 & ? & ? & ?). exists k2. split_and!; [by trans k'|done..].
  - destruct Hf as [? ?]. split; [done|]. by eapply alike_weaken.
Qed.
Lemma op_ok {A B} k R (o : H → A * H) (o' : H → B * H) :
  heap_sim k R o o' → op_sim (E:=E) k R (λ h, let '(a, h) := o h in (Ok a, h)) (λ h, let '(b, h) := o' h in (Ok b, h)).
Proof.
  intros Ho h h' Hh. destruct (Ho h h' Hh) as (k' & ? & ? & ?). destruct (o h), (o' h'). by exists k'.
Qed.
#[global] Instance len_op_sim k : Proper (vsim k ==> op_sim k vsim) len_op.
Proof.
  intros a b Hab. unfold len_op. apply (op_bind k same); [by apply length_sim|].
  intros k' n m _ <-. apply op_ok, alloc_int_sim.
Qed.

(** ** Dictionaries *)

Lemma entry_mono k k' x y : k ⊆+ k' → entry_sim k x y → entry_sim k' x y.
Proof. intros Hk (? & ? & ?). split_and!; [done|by eapply vsim_mono..]. Qed.
Lemma insert_entry_sim k m m' key key' v v' h h' :
  Forall2 (entry_sim k) m m' → entry_sim k (key, v) (key', v') → alike k h h' →
  match insert_entry m key v, insert_entry m' key' v' with
  | (o, l), (o', l') => (is_Some o ↔ is_Some o') ∧ Forall2 (entry_sim k) l l'
  end.
Proof.
  intros Hm (Hhash & Hkey & Hv) Hh. simpl in *. induction Hm as [|[x u] [y w] m m' (Hxy & Hk & Hu) Hm IH]; simpl.
  { split; [by split; intros []|]. constructor; [|done]. done. }
  simpl in *. assert (same_key key x = same_key key' y) as ->.
  { unfold same_key. rewrite Hhash, Hxy. f_equal. by eapply alike_key. }
  destruct (same_key key' y).
  - split; [split; eauto|]. constructor; [|done]. done.
  - destruct (insert_entry m key v) as [o l], (insert_entry m' key' v') as [o' l'], IH as [Ho Hl].
    split; [done|]. constructor; done.
Qed.
Lemma build_dict_sim k l l' sps sps' m m' :
  Forall2 (λ x y, vsim k x.1 y.1 ∧ vsim k x.2 y.2) l l' → length sps = length sps' → Forall2 (entry_sim k) m m' →
  op_sim k (λ k, Forall2 (entry_sim k)) (build_dict l sps m) (build_dict l' sps' m').
Proof.
  intros Hl. revert sps sps' m m'. induction Hl as [|[a v] [b w] l l' [Ha Hv] Hl IH]; intros sps sps' m m' Hsps Hm h h' Hh; simpl.
  { by exists k. }
  destruct sps as [|sp sps], sps' as [|sp' sps']; [done..|]. injection Hsps as Hsps. simpl in *.
  pose proof (alike_hashed k a b h h' Hh Ha) as Hhash.
  destruct (get_hashed a) as [ha|e|f], (get_hashed b) as [hb|e'|f']; try done; [|by split; [by eapply alike_span|]].
  subst hb. pose proof (insert_entry_sim k m m' (mkHashed ha a) (mkHashed ha b) v w h h' Hm ltac:(done) Hh) as Hins.
  destruct (insert_entry m _ v) as [o q], (insert_entry m' _ w) as [o' q'], Hins as [Ho Hq].
  destruct o as [x|], o' as [y|].
  - split; [|done]. eapply alike_span; [done|]. by eapply alike_duplicate.
  - by destruct (proj1 Ho (ex_intro _ x eq_refl)).
  - by destruct (proj2 Ho (ex_intro _ y eq_refl)).
  - by apply IH.
Qed.
Lemma make_dict_sim k l l' sps sps' :
  Forall2 (λ x y, vsim k x.1 y.1 ∧ vsim k x.2 y.2) l l' → length sps = length sps' →
  op_sim k vsim (make_dict l sps) (make_dict l' sps').
Proof.
  intros Hl Hsps. unfold make_dict. eapply (op_bind k (λ k, Forall2 (entry_sim k))); [by apply build_dict_sim|].
  intros k' m m' Hk Hm. by apply op_ok, alloc_dict_sim.
Qed.
Lemma compr_insert_sim k d d' a b v w :
  vsim k d d' → vsim k a b → vsim k v w → op_sim k same (compr_insert d a v) (compr_insert d' b w).
Proof.
  intros Hd Ha Hv h h' Hh. unfold compr_insert. pose proof (alike_hashed k a b h h' Hh Ha) as Hhash.
  destruct (get_hashed a) as [hb|e|f], (get_hashed b) as [hb'|e'|f']; try done. subst hb'.
  by apply (dict_insert_sim k d d' (mkHashed hb a, v) (mkHashed hb b, w)).
Qed.

(** ** Unpacking *)

Lemma unpack_items_sim k it it' n i :
  vsim k it it' → op_sim k lsim (unpack_items it n i) (unpack_items it' n i).
Proof.
  revert k i. induction n as [|n IH]; intros k i Hit h h' Hh; simpl;
    destruct (iter_next_sim k i it it' Hit h h' Hh) as (k' & Hk & Hh' & Hx);
    destruct (iter_next it i h) as [x h1], (iter_next it' i h') as [y h2]; simpl in *;
    destruct Hx as [x y Hxy|]; simpl; try done.
  - exists k'. split_and!; [done| |constructor]. apply iter_stop_sim; [by eapply vsim_mono|done].
  - specialize (IH k' (i + 1) (vsim_mono _ _ _ _ Hk Hit) h1 h2 Hh'). unfold res_sim in IH.
    destruct (unpack_items it n (i + 1) h1) as [[l|e|f] h3], (unpack_items it' n (i + 1) h2) as [[l'|e'|f'] h4];
      simpl in *; try done.
    + destruct IH as (k2 & Hk2 & ? & ?). exists k2. split_and!; [by trans k'|done|]. constructor; [by eapply vsim_mono|done].
    + destruct IH as [? ?]. split; [done|by eapply alike_weaken].
Qed.
Lemma unpack_sim k n v v' : vsim k v v' → op_sim k lsim (unpack n v) (unpack n v').
Proof.
  intros Hv. unfold unpack. eapply (op_bind k same); [by apply length_sim|]. intros k' z z' Hk <-.
  destruct (negb _); [by intros h h' Hh; split; [reflexivity|]|].
  eapply (op_bind k' vsim); [apply iterate_sim; by eapply vsim_mono|]. intros k2 it it' _ Hit. by apply unpack_items_sim.
Qed.
End sim.
#[global] Arguments out_sim : simpl never.
