(* ===== verification/IrCompat.v ===== *)
(** Every construct respects alikeness: if its parts may stand for those of another, so may the whole.  Plain
    code may stand for itself, and standing for is transitive. *)

From S2P Require Import Prelude Hashing TableMap FastString StrFormat Symbol CodeMap.
From S2P Require Import DefParams OrdMap ParamSpec Def Ir IrWf Inline World IrEval Optimize Alike IrSim.

Section compat.
Context `{W : World V H E TC D KM MB} {WO : WorldOk V H E TC D KM MB} {AL : Alike V H E} {AO : AlikeOk V H E TC D KM MB}.
Context {OW : OptWorld V H E TC D MB} {ctx : OptCtx (V:=V) (H:=H)} {FO : FoldOk V H E TC D KM MB ctx}.
Implicit Types (k : list (item V)) (s : St V H) (sp : Span).
Local Abbreviation out := (out V H E).
Local Abbreviation Node := (ExprCompiled V TC D).
Local Abbreviation Expr := (Spanned (ExprCompiled V TC D)).
Local Abbreviation Target := (Spanned (AssignCompiledValue V TC D)).

(** * Sequences *)

Definition fun_sim {A B} k (R : list (item V) → A → B → Prop) (f : St V H → option (out A)) (g : St V H → option (out B)) : Prop :=
  ∀ k' s s', k ⊆+ k' → st_sim k' s s' → out_sim k' R (f s) (g s').
Lemma fun_mono {A B} k k' (R : list (item V) → A → B → Prop) f g : k ⊆+ k' → fun_sim k R f g → fun_sim k' R f g.
Proof. intros Hk Hf k2 s s' Hk2 Hs. apply Hf; [by trans k'|done]. Qed.
Lemma fun_out {A B} k (R : list (item V) → A → B → Prop) f g s s' : fun_sim k R f g → st_sim k s s' → out_sim k R (f s) (g s').
Proof. intros Hf Hs. by apply Hf. Qed.

Lemma out_list {A B} (f : A → St V H → option (out V)) (g : B → St V H → option (out V)) l l' k s s' :
  Forall2 (λ x y, fun_sim k vsim (f x) (g y)) l l' → st_sim k s s' → out_sim k lsim (eval_list f l s) (eval_list g l' s').
Proof.
  revert l' k s s'. induction l as [|x l IH]; intros l' k s s' Hl Hs; inversion Hl as [|? y ? m Hxy Hrest]; subst; simpl.
  { apply out_ret; [done|constructor]. }
  eapply out_bind; [by apply Hxy|]. intros k1 v v' s1 s1' Hk1 Hs1 Hv.
  eapply out_bind; [apply IH; [|done]|].
  { eapply Forall2_impl; [exact Hrest|]. intros; by eapply fun_mono. }
  intros k2 vs vs' s2 s2' Hk2 Hs2 Hvs. apply out_ret; [done|]. constructor; [by eapply vsim_mono|done].
Qed.
Lemma out_option {A B} (f : A → St V H → option (out V)) (g : B → St V H → option (out V)) o o' k s s' :
  option_Forall2 (λ x y, fun_sim k vsim (f x) (g y)) o o' → st_sim k s s' → out_sim k osim (eval_option f o s) (eval_option g o' s').
Proof.
  intros [x y Hxy|] Hs; simpl; [|apply out_ret; [done|constructor]].
  eapply out_bind; [by apply Hxy|]. intros k1 v v' s1 s1' Hk1 Hs1 Hv. apply out_ret; [done|by constructor].
Qed.
Lemma out_pairs {A B} (f : A → St V H → option (out V)) (g : B → St V H → option (out V)) l l' k s s' :
  Forall2 (λ x y, fun_sim k vsim (f x.1) (g y.1) ∧ fun_sim k vsim (f x.2) (g y.2)) l l' → st_sim k s s' →
  out_sim k (λ k, Forall2 (λ x y, vsim k x.1 y.1 ∧ vsim k x.2 y.2)) (eval_pairs f l s) (eval_pairs g l' s').
Proof.
  revert l' k s s'. induction l as [|[x u] l IH]; intros l' k s s' Hl Hs; inversion Hl as [|? [y w] ? m [Hxy Huw] Hrest]; subst; simpl.
  { apply out_ret; [done|constructor]. }
  simpl in *. eapply out_bind; [by apply Hxy|]. intros k1 v v' s1 s1' Hk1 Hs1 Hv.
  eapply out_bind; [eapply fun_out; [by eapply fun_mono|done]|]. intros k2 q q' s2 s2' Hk2 Hs2 Hq.
  eapply out_bind; [apply IH; [|done]|].
  { eapply Forall2_impl; [exact Hrest|]. intros ?? [??]. split; (eapply fun_mono; [|done]; by trans k1). }
  intros k3 vs vs' s3 s3' Hk3 Hs3 Hvs. apply out_ret; [done|]. constructor; [|done]. simpl.
  split; [eapply vsim_mono; [|exact Hv]; by trans k2|by eapply vsim_mono].
Qed.

(** * Variables *)

Lemma locals_lookup k s s' x : st_sim k s s' →
  match st_locals s !! x, st_locals s' !! x with
  | Some o, Some o' => osim k o o' | None, None => True | _, _ => False end.
Proof.
  intros [_ [Hl _]]. destruct (st_locals s !! x) as [o|] eqn:Ho, (st_locals s' !! x) as [o'|] eqn:Ho'; try done.
  - by eapply Forall2_lookup_lr.
  - apply lookup_lt_Some in Ho. apply lookup_ge_None in Ho'. rewrite (Forall2_length _ _ _ Hl) in Ho. lia.
  - apply lookup_lt_Some in Ho'. apply lookup_ge_None in Ho. rewrite (Forall2_length _ _ _ Hl) in Ho. lia.
Qed.
Lemma out_get_local k sp sp' x s s' : st_sim k s s' → out_sim k vsim (get_local sp x s) (get_local sp' x s').
Proof.
  intros Hs. pose proof (locals_lookup k s s' x Hs) as Hx. unfold get_local.
  destruct (st_locals s !! x) as [o|], (st_locals s' !! x) as [o'|]; try done.
  destruct Hx as [v v' Hv|]; [by apply out_ret|].
  apply out_raise; [eapply alike_unassigned; apply Hs|apply Hs].
Qed.
Lemma out_get_captured k sp sp' x s s' : st_sim k s s' → out_sim k vsim (get_captured sp x s) (get_captured sp' x s').
Proof.
  intros Hs. unfold get_captured. eapply out_bind; [by apply out_get_local|]. intros k1 c c' s1 s1' Hk1 Hs1 Hc.
  pose proof (captured_get_sim k1 c c' _ _ (proj1 Hs1) Hc) as Hg.
  destruct (value_captured_get c _), (value_captured_get c' _); try done.
  - destruct Hg as (k2 & Hk2 & Hh & Hv). exists k2. split_and!; [done| |done]. split; [done|].
    eapply locals_mono; [done|apply Hs1].
  - apply out_raise; [eapply alike_unassigned; apply Hs1|apply Hs1].
Qed.
Lemma out_set_local k x v v' s s' :
  vsim k v v' → st_sim k s s' → out_sim (E:=E) k same (set_local x v s) (set_local x v' s').
Proof.
  intros Hv [Hh Hl]. unfold set_local. rewrite (Forall2_length _ _ _ (proj1 Hl)). destruct (x <? _); [|done].
  apply out_ret; [|done]. split; [done|]. by apply frame_insert.
Qed.
Lemma out_set_captured k sp sp' x v v' s s' :
  vsim k v v' → st_sim k s s' → out_sim k same (set_captured sp x v s) (set_captured sp' x v' s').
Proof.
  intros Hv Hs. pose proof (locals_lookup k s s' x Hs) as Hx. unfold set_captured.
  destruct (st_locals s !! x) as [o|], (st_locals s' !! x) as [o'|]; try done.
  destruct Hx as [c c' Hc|]; [apply out_at_span; [by apply captured_set_sim|done]|].
  eapply out_bind; [apply out_with_heap; [by apply alloc_captured_sim|done]|].
  intros k1 c c' s1 s1' Hk1 Hs1 Hc. by apply out_set_local.
Qed.

(** * Loops *)

(** What a round comes to. *)
Lemma out_rounds k (body body' : V → V → St V H → option (out Flow)) it it' n i s s' :
  vsim k it it' → (∀ k' x x', k ⊆+ k' → vsim k' x x' → fun_sim k' same (body it x) (body' it' x')) → st_sim k s s' →
  out_sim k same (loop_rounds body it n i s) (loop_rounds body' it' n i s').
Proof.
  revert k i s s'. induction n as [|n IH]; intros k i s s' Hit Hbody Hs; simpl; [done|].
  destruct (iter_next_sim k i it it' Hit _ _ (proj1 Hs)) as (k1 & Hk1 & Hh1 & Hx).
  destruct (iter_next it i _) as [x h1], (iter_next it' i _) as [x' h2]. simpl in *.
  assert (st_sim k1 (mkSt (st_locals s) h1) (mkSt (st_locals s') h2)) as Hs1 by by eapply st_heap_sim.
  eapply out_mono; [exact Hk1|]. destruct Hx as [x x' Hx|].
  - eapply out_bind; [by eapply fun_out; [apply Hbody|]|]. intros k2 fl fl' s2 s2' Hk2 Hs2 <-.
    assert (out_sim k2 same (loop_rounds body it n (i + 1) s2) (loop_rounds body' it' n (i + 1) s2')).
    { apply IH; [eapply vsim_mono; [|exact Hit]; by trans k1| |done]. intros k3 y y' Hk3 Hy. apply Hbody; [|done]. trans k1; [done|by trans k2]. }
    destruct fl; try done. apply out_ret; [|done]. apply (st_heap_sim k2 k2); [done..|]. apply iter_stop_sim; [|apply Hs2].
    eapply vsim_mono; [|exact Hit]. by trans k1.
  - apply out_ret; [|done]. apply (st_heap_sim k1 k1 _ _ _ _ ltac:(done) Hs1). apply iter_stop_sim; [by eapply vsim_mono|done].
Qed.
Lemma out_for_loop k sp sp' o o' n (body body' : V → V → St V H → option (out Flow)) s s' :
  vsim k o o' →
  (∀ k' it it' x x', k ⊆+ k' → vsim k' it it' → vsim k' x x' → fun_sim k' same (body it x) (body' it' x')) → st_sim k s s' →
  out_sim k same (for_loop n sp o body s) (for_loop n sp' o' body' s').
Proof.
  intros Ho Hbody Hs. unfold for_loop. eapply out_bind; [apply out_at_span; [by apply iterate_sim|done]|].
  intros k1 it it' s1 s1' Hk1 Hs1 Hit. apply out_rounds; [done| |done].
  intros k2 x x' Hk2 Hx. apply Hbody; [by trans k1|by eapply vsim_mono|done].
Qed.

(** * Expressions *)

Context (n : nat).
Local Abbreviation ev x := (eval n (span x) (node x)).
Local Abbreviation evs := (λ (x : Expr) s, eval n (span x) (node x) s).
Implicit Types x y : Expr.

Definition esim x y : Prop := ∀ k, fun_sim k vsim (ev x) (ev y).
(** Only the truth of the value. *)
Definition truth x s : option (out bool) := do v, s <~ ev x s; ret (to_bool v (st_heap s)) s.
Definition tsim x y : Prop := ∀ k, fun_sim k same (truth x) (truth y).
Definition gsim (a b : Target) : Prop := ∀ k v w, vsim k v w → fun_sim k same (assign n (span a) (node a) v) (assign n (span b) (node b) w).
Definition csim (c d : ClauseCompiled V TC D) : Prop := ∀ k term term',
  fun_sim k same term term' → fun_sim k same (eval_clause n c term) (eval_clause n d term').
Definition isim (l l' : list Expr) : Prop := ∀ k term term',
  fun_sim k same term term' → fun_sim k same (run_ifs evs term l) (run_ifs evs term' l').

Lemma esim_at x y k s s' : esim x y → st_sim k s s' → out_sim k vsim (ev x s) (ev y s').
Proof. intros Hxy Hs. exact (fun_out k _ _ _ s s' (Hxy k) Hs). Qed.
Lemma tsim_at x y k s s' : tsim x y → st_sim k s s' → out_sim k same (truth x s) (truth y s').
Proof. intros Hxy Hs. exact (fun_out k _ _ _ s s' (Hxy k) Hs). Qed.
Lemma esim_fun x y k : esim x y → fun_sim k vsim (ev x) (ev y).
Proof. intros Hxy. apply Hxy. Qed.
Lemma esim_tsim x y : esim x y → tsim x y.
Proof.
  intros Hxy k k' s s' Hk Hs. unfold truth. eapply out_bind; [by apply esim_at|].
  intros k1 v w s1 s1' Hk1 Hs1 Hv. apply out_ret; [done|]. exact (alike_to_bool k1 v w _ _ (proj1 Hs1) Hv).
Qed.
Lemma truth_if {A} x s (f g : St V H → option (out A)) :
  (do v, s <~ ev x s; if to_bool v (st_heap s) then f s else g s) = (do b, s <~ truth x s; if b then f s else g s).
Proof. unfold truth. cbv beta. by destruct (eval n (span x) (node x) s) as [[v s'|o]|]. Qed.
Lemma out_if {A B} k R x y s s' (f g : St V H → option (out A)) (f' g' : St V H → option (out B)) :
  tsim x y → fun_sim k R f f' → fun_sim k R g g' → st_sim k s s' →
  out_sim k R (do v, s <~ ev x s; if to_bool v (st_heap s) then f s else g s)
    (do v, s <~ ev y s'; if to_bool v (st_heap s) then f' s else g' s).
Proof.
  intros Hxy Hf Hg Hs. rewrite !truth_if. eapply out_bind; [by apply tsim_at|]. intros k1 b b' s1 s1' Hk1 Hs1 <-.
  destruct b; [by apply Hf|by apply Hg].
Qed.
Lemma isim_nil : isim [] [].
Proof.
  intros k term term' Ht k' s s' Hk Hs. simpl. eapply out_bind; [by apply Ht|]. intros k1 u u' s1 s1' Hk1 Hs1 _.
  by apply out_ret.
Qed.
Lemma isim_cons x y l l' : tsim x y → isim l l' → isim (x :: l) (y :: l').
Proof.
  intros Hxy Hl k term term' Ht k' s s' Hk Hs. simpl. apply out_if; [done| | |done].
  - apply Hl. by eapply fun_mono.
  - intros k1 s1 s1' Hk1 Hs1. by apply out_ret.
Qed.

Lemma sim_value sp sp' v : is_frozen v = true → esim (mkSpanned sp (Value v)) (mkSpanned sp' (Value v)).
Proof. intros Hv k k' s s' Hk Hs. by apply out_const. Qed.
Lemma sim_local sp sp' (x : nat) : esim (mkSpanned sp (Local x)) (mkSpanned sp' (Local x)).
Proof. intros k k' s s' Hk Hs. by apply out_get_local. Qed.
Lemma sim_captured sp sp' (x : nat) : esim (mkSpanned sp (LocalCaptured x)) (mkSpanned sp' (LocalCaptured x)).
Proof. intros k k' s s' Hk Hs. by apply out_get_captured. Qed.
Lemma sim_module sp sp' (x : nat) : esim (mkSpanned sp (ModuleSlot x)) (mkSpanned sp' (ModuleSlot x)).
Proof. intros k k' s s' Hk Hs. apply out_at_span; [apply get_slot_sim|done]. Qed.
Lemma esims_list k xs ys s s' : Forall2 esim xs ys → st_sim k s s' → out_sim k lsim (eval_list evs xs s) (eval_list evs ys s').
Proof. intros Hxs Hs. apply out_list; [|done]. eapply Forall2_impl; [done|]. intros x y Hxy. apply Hxy. Qed.
Lemma esims_option k xs ys s s' : option_Forall2 esim xs ys → st_sim k s s' → out_sim k osim (eval_option evs xs s) (eval_option evs ys s').
Proof. intros Hxs Hs. apply out_option; [|done]. destruct Hxs as [x y Hxy|]; constructor. apply Hxy. Qed.
Lemma sim_tuple sp sp' xs ys : Forall2 esim xs ys → esim (mkSpanned sp (Tuple xs)) (mkSpanned sp' (Tuple ys)).
Proof.
  intros Hxs k k' s s' Hk Hs. simpl. eapply out_bind; [by apply esims_list|]. intros k1 vs ws s1 s1' Hk1 Hs1 Hvs.
  apply out_with_heap; [by apply alloc_tuple_sim|done].
Qed.
Lemma sim_list sp sp' xs ys : Forall2 esim xs ys → esim (mkSpanned sp (List_ xs)) (mkSpanned sp' (List_ ys)).
Proof.
  intros Hxs k k' s s' Hk Hs. simpl. eapply out_bind; [by apply esims_list|]. intros k1 vs ws s1 s1' Hk1 Hs1 Hvs.
  apply out_with_heap; [by apply alloc_list_sim|done].
Qed.
Lemma sim_dict sp sp' (l l' : list (Expr * Expr)) :
  Forall2 (λ p q, esim p.1 q.1 ∧ esim p.2 q.2) l l' → esim (mkSpanned sp (Dict_ l)) (mkSpanned sp' (Dict_ l')).
Proof.
  intros Hl k k' s s' Hk Hs. simpl. eapply out_bind.
  { apply out_pairs; [|done]. eapply Forall2_impl; [exact Hl|]. intros p q [Hp Hq]. split; [apply Hp|apply Hq]. }
  intros k1 vs ws s1 s1' Hk1 Hs1 Hvs. apply out_at_span; [|done]. apply make_dict_sim; [done|].
  rewrite !length_map. by eapply Forall2_length.
Qed.
Lemma sim_if sp sp' c c' t t' f f' : tsim c c' → esim t t' → esim f f' →
  esim (mkSpanned sp (If_ c t f)) (mkSpanned sp' (If_ c' t' f')).
Proof. intros Hc Ht Hf k k' s s' Hk Hs. simpl. apply out_if; [done|apply Ht|apply Hf|done]. Qed.
Lemma sim_seq sp sp' l l' r r' : esim l l' → esim r r' → esim (mkSpanned sp (Seq l r)) (mkSpanned sp' (Seq l' r')).
Proof.
  intros Hl Hr k k' s s' Hk Hs. simpl. eapply out_bind; [by apply esim_at|]. intros k1 v w s1 s1' Hk1 Hs1 _. by apply esim_at.
Qed.
Lemma sim_logical sp sp' op l l' r r' : esim l l' → esim r r' →
  esim (mkSpanned sp (LogicalBinOp op l r)) (mkSpanned sp' (LogicalBinOp op l' r')).
Proof.
  intros Hl Hr k k' s s' Hk Hs. simpl. eapply out_bind; [by apply esim_at|]. intros k1 v w s1 s1' Hk1 Hs1 Hv.
  rewrite (alike_to_bool k1 v w _ (st_heap s1')) by (apply Hs1 || done).
  destruct (Bool.eqb _ _); [by apply esim_at|by apply out_ret].
Qed.
Lemma sim_slice sp sp' l l' a a' b b' c c' :
  esim l l' → option_Forall2 esim a a' → option_Forall2 esim b b' → option_Forall2 esim c c' →
  esim (mkSpanned sp (Slice l a b c)) (mkSpanned sp' (Slice l' a' b' c')).
Proof.
  intros Hl Ha Hb Hc k k' s s' Hk Hs. simpl. eapply out_bind; [by apply esim_at|]. intros k1 v w s1 s1' Hk1 Hs1 Hv.
  eapply out_bind; [by apply esims_option|]. intros k2 va wa s2 s2' Hk2 Hs2 Hva.
  eapply out_bind; [by apply esims_option|]. intros k3 vb wb s3 s3' Hk3 Hs3 Hvb.
  eapply out_bind; [by apply esims_option|]. intros k4 vc wc s4 s4' Hk4 Hs4 Hvc.
  apply out_at_span; [|done]. apply slice_sim; [|eapply osim_mono; [|exact Hva]|eapply osim_mono; [|exact Hvb]|done].
  - eapply vsim_mono; [|exact Hv]. trans k2; [done|by trans k3].
  - by trans k3.
  - done.
Qed.
Lemma sim_builtin1 sp sp' op x y : esim x y → esim (mkSpanned sp (ExprBuiltin1 op x)) (mkSpanned sp' (ExprBuiltin1 op y)).
Proof.
  intros Hxy k k' s s' Hk Hs. simpl. eapply out_bind; [by apply esim_at|]. intros k1 v w s1 s1' Hk1 Hs1 Hv.
  apply out_at_span; [by apply (builtin1_sim (ctx:=ctx))|done].
Qed.
Lemma out_two {A B} k (R : list (item V) → A → B → Prop) x x' y y' s s' (f : V → V → St V H → option (out A)) (g : V → V → St V H → option (out B)) :
  esim x x' → esim y y' → (∀ k' a a' b b', k ⊆+ k' → vsim k' a a' → vsim k' b b' → fun_sim k' R (f a b) (g a' b')) → st_sim k s s' →
  out_sim k R (do a, s <~ ev x s; do b, s <~ ev y s; f a b s) (do a, s <~ ev x' s'; do b, s <~ ev y' s; g a b s).
Proof.
  intros Hx Hy Hfg Hs. eapply out_bind; [by apply esim_at|]. intros k1 v w s1 s1' Hk1 Hs1 Hv.
  eapply out_bind; [by apply esim_at|]. intros k2 v2 w2 s2 s2' Hk2 Hs2 Hv2.
  eapply fun_out; [apply Hfg; [by trans k1|by eapply vsim_mono|done]|done].
Qed.
Lemma sim_builtin2 sp sp' op l l' r r' : esim l l' → esim r r' →
  esim (mkSpanned sp (ExprBuiltin2 op l r)) (mkSpanned sp' (ExprBuiltin2 op l' r')).
Proof.
  intros Hl Hr k k' s s' Hk Hs. simpl. apply out_two; [done..| |done]. intros k1 a a' b b' Hk1 Ha Hb k2 s2 s2' Hk2 Hs2.
  apply out_at_span; [|done]. apply (builtin2_sim (ctx:=ctx)); by eapply vsim_mono.
Qed.
Lemma sim_index2 sp sp' a a' i i' j j' : esim a a' → esim i i' → esim j j' →
  esim (mkSpanned sp (Index2 a i j)) (mkSpanned sp' (Index2 a' i' j')).
Proof.
  intros Ha Hi Hj k k' s s' Hk Hs. simpl. apply out_two; [done..| |done]. intros k1 v v' w w' Hk1 Hv Hw k2 s2 s2' Hk2 Hs2.
  eapply out_bind; [by apply esim_at|]. intros k3 u u' s3 s3' Hk3 Hs3 Hu.
  apply out_at_span; [|done]. apply at2_sim; [eapply vsim_mono; [|exact Hv]; by trans k2|eapply vsim_mono; [|exact Hw]; by trans k2|done].
Qed.

(** ** Calls *)

Definition args_esim (a a' : ArgsCompiledValue Expr) : Prop :=
  Forall2 esim (ca_pos_named a) (ca_pos_named a') ∧ ca_names a = ca_names a' ∧
  option_Forall2 esim (ca_args a) (ca_args a') ∧ option_Forall2 esim (ca_kwargs a) (ca_kwargs a').

Lemma arguments_sim k names vs ws a b c d :
  lsim k vs ws → osim k a b → osim k c d → args_sim k (arguments names vs a c) (arguments names ws b d).
Proof.
  intros Hvs Ha Hc. unfold arguments. rewrite (Forall2_length _ _ _ Hvs). split_and!; simpl; try done.
  - by apply Forall2_take.
  - by apply Forall2_drop.
Qed.
Lemma out_args k a a' s s' : args_esim a a' → st_sim k s s' → out_sim k args_sim (eval_args evs a s) (eval_args evs a' s').
Proof.
  intros (Hp & Hn & Ha & Hk) Hs. unfold eval_args. rewrite Hn. eapply out_bind; [by apply esims_list|].
  intros k1 vs ws s1 s1' Hk1 Hs1 Hvs. eapply out_bind; [by apply esims_option|].
  intros k2 v w s2 s2' Hk2 Hs2 Hv. eapply out_bind; [by apply esims_option|].
  intros k3 u z s3 s3' Hk3 Hs3 Hu. apply out_ret; [done|]. apply arguments_sim; [|by eapply osim_mono|done].
  eapply lsim_mono; [|done]. by trans k2.
Qed.

(** The short cuts of calls agree with the calls. *)
Lemma at_span_done {A} sp (a : A) s : at_span sp (λ h, (Ok a, h)) s = ret a s.
Proof. by destruct s. Qed.
Lemma at_span_eq {A} sp (o o' : Op H E A) s : o (st_heap s) = o' (st_heap s) → at_span sp o s = at_span sp o' s.
Proof. unfold at_span. by intros ->. Qed.
Lemma eval_one_arg x s : eval_args evs (mkArgs [x] [] None None) s = (do v, s <~ ev x s; ret (one_arg v) s).
Proof.
  unfold eval_args. simpl. by destruct (eval n (span x) (node x) s) as [[]|].
Qed.
Lemma eval_two_args x sp v s :
  eval_args evs (mkArgs [x; mkSpanned sp (Value v)] [] None None) s =
  (do u, s <~ ev x s; ret (mkArguments [u; v] [] [] None None) s).
Proof. unfold eval_args. simpl. by destruct (eval n (span x) (node x) s) as [[]|]. Qed.
Lemma invoke_value sp f args s fsp :
  eval_invoke evs sp (mkCall (mkSpanned fsp (Value f)) args) s =
  (do a, s <~ eval_args evs args s; at_span sp (invoke_with_loc f sp a) s).
Proof. done. Qed.
Lemma bind_ext {A B} (m : option (out A)) (f g : A → St V H → option (out B)) :
  (∀ a s, f a s = g a s) → obind m f = obind m g.
Proof. intros Hfg. destruct m as [[]|]; simpl; auto. Qed.
Lemma invoke_one sp f x s fsp :
  eval_invoke evs sp (mkCall (mkSpanned fsp (Value f)) (mkArgs [x] [] None None)) s =
  (do v, s <~ ev x s; at_span sp (invoke_with_loc f sp (one_arg v)) s).
Proof. rewrite invoke_value, eval_one_arg. by destruct (eval n (span x) (node x) s) as [[]|]. Qed.
Lemma fn_holds (p : V → bool) fsp f x :
  (∀ R (some : Expr → R) none,
    (if negb (fun_is p (mkCall (mkSpanned fsp (Value f)) (mkArgs [x] [] None None))) then none
     else with_one_pos (call_args (mkCall (mkSpanned fsp (Value f)) (mkArgs [x] [] None None))) some none) = some x) → p f = true.
Proof. intros Hx. specialize (Hx bool (λ _, true) false). simpl in Hx. unfold fun_is in Hx. simpl in Hx. by destruct (p f). Qed.
Lemma isinstance_invoke sp (c : CallCompiled Expr) s :
  with_isinstance is_fn_isinstance c
    (λ x t, match new_frozen t with
            | Some t => do v, s <~ ev x s; ret (new_bool (type_matches t v (st_heap s))) s
            | None => eval_invoke evs sp c s
            end) (eval_invoke evs sp c s) = eval_invoke evs sp c s.
Proof.
  destruct (with_isinstance_cases is_fn_isinstance c) as [(f & x & tsp & t & Hc & Hx)|Hn]; [|by rewrite Hn].
  rewrite Hx. destruct (new_frozen t) as [ty|] eqn:Ht; [|done].
  assert (is_fn_isinstance f = true) as Hf.
  { specialize (Hx bool (λ _ _, true) false). rewrite Hc in Hx. unfold with_isinstance, fun_is in Hx. simpl in Hx.
    by destruct (is_fn_isinstance f). }
  rewrite Hc, invoke_value, eval_two_args. destruct (eval n (span x) (node x) s) as [[v s1|]|]; simpl; [|done..].
  erewrite (at_span_eq _ _ (λ h, (Ok (new_bool (type_matches ty v (st_heap s1))), h))); [by rewrite at_span_done|].
  by apply call_isinstance.
Qed.
Lemma call_invoke sp (c : CallCompiled Expr) s : eval_call evs sp c s = eval_invoke evs sp c s.
Proof.
  unfold eval_call, with_len, with_type.
  destruct (with_fn_cases is_fn_len c) as [(f & x & Hc & Hx)|Hn].
  { rewrite Hx. rewrite Hc in *. rewrite invoke_one. apply bind_ext. intros v s1. apply at_span_eq. symmetry.
    by eapply call_len, fn_holds. }
  rewrite Hn. destruct (with_fn_cases is_fn_type c) as [(f & x & Hc & Hx)|Hn'].
  { rewrite Hx. rewrite Hc in *. rewrite invoke_one. apply bind_ext. intros v s1.
    erewrite at_span_eq; [by rewrite at_span_done|]. by eapply call_type, fn_holds. }
  rewrite Hn'. apply isinstance_invoke.
Qed.
Lemma out_invoke k sp f f' a a' s s' :
  esim f f' → args_esim a a' → st_sim k s s' →
  out_sim k vsim (do g, s <~ ev f s; do a, s <~ eval_args evs a s; at_span sp (invoke_with_loc g sp a) s)
    (do g, s <~ ev f' s'; do a, s <~ eval_args evs a' s; at_span sp (invoke_with_loc g sp a) s).
Proof.
  intros Hf Ha Hs. eapply out_bind; [by apply esim_at|]. intros k1 g g' s1 s1' Hk1 Hs1 Hg.
  eapply out_bind; [by apply out_args|]. intros k2 b b' s2 s2' Hk2 Hs2 Hb.
  apply out_at_span; [|done]. apply invoke_sim; [by eapply vsim_mono|done].
Qed.
Definition is_dot (e : Node) : bool := match e with ExprBuiltin1 (Dot _) _ => true | _ => false end.
Lemma not_dot_invoke sp (f : Expr) a s : is_dot (node f) = false →
  eval_invoke evs sp (mkCall f a) s =
  (do g, s <~ ev f s; do a, s <~ eval_args evs a s; at_span sp (invoke_with_loc g sp a) s).
Proof. unfold eval_invoke, with_method. simpl. by destruct (node f) as [| | | | | | | | | |[]| | | | | |]. Qed.
Lemma dot_invoke sp (f this : Expr) field a s : node f = ExprBuiltin1 (Dot field) this →
  eval_invoke evs sp (mkCall f a) s =
  (do g, s <~ ev this s; do a, s <~ eval_args evs a s; at_span sp (call_method g field a sp) s).
Proof. intros Hf. unfold eval_invoke, with_method. simpl. by rewrite Hf. Qed.
Lemma call_eval sp csp (f : Expr) a s :
  ev (mkSpanned sp (Call (mkSpanned csp (mkCall f a)))) s = eval_invoke evs csp (mkCall f a) s.
Proof. apply call_invoke. Qed.
Lemma sim_call sp sp' csp f f' a a' :
  is_dot (node f) = false → is_dot (node f') = false → esim f f' → args_esim a a' →
  esim (mkSpanned sp (Call (mkSpanned csp (mkCall f a)))) (mkSpanned sp' (Call (mkSpanned csp (mkCall f' a')))).
Proof.
  intros Hd Hd' Hf Ha k k' s s' Hk Hs. rewrite !call_eval, !not_dot_invoke by done. by apply out_invoke.
Qed.
Lemma sim_call_dot sp sp' csp f f' this this' field a a' :
  node f = ExprBuiltin1 (Dot field) this → node f' = ExprBuiltin1 (Dot field) this' → esim this this' → args_esim a a' →
  esim (mkSpanned sp (Call (mkSpanned csp (mkCall f a)))) (mkSpanned sp' (Call (mkSpanned csp (mkCall f' a')))).
Proof.
  intros Hd Hd' Hf Ha k k' s s' Hk Hs. rewrite !call_eval. erewrite !dot_invoke by done.
  eapply out_bind; [by apply esim_at|]. intros k1 g g' s1 s1' Hk1 Hs1 Hg.
  eapply out_bind; [by apply out_args|]. intros k2 b b' s2 s2' Hk2 Hs2 Hb.
  apply out_at_span; [|done]. apply call_method_sim; [by eapply vsim_mono|done].
Qed.

(** ** Functions *)

Definition default_esim (p : Spanned (ParameterCompiled TC Expr)) : Prop :=
  match node p with CompiledNormal _ _ (Some x) => esim x x | _ => True end.
Lemma out_defaults k l s s' :
  Forall default_esim l → st_sim k s s' → out_sim k lsim (eval_defaults evs l s) (eval_defaults evs l s').
Proof.
  intros Hl. revert k s s'. induction Hl as [|p l Hp Hl IH]; intros k s s' Hs; simpl.
  { apply out_ret; [done|constructor]. }
  unfold default_esim in Hp. destruct (node p) as [name ty [x|]| |]; [|by apply IH..].
  eapply out_bind; [by apply (esim_at x x)|]. intros k1 v w s1 s1' Hk1 Hs1 Hv.
  eapply out_bind; [by apply IH|]. intros k2 vs ws s2 s2' Hk2 Hs2 Hvs. apply out_ret; [done|].
  constructor; [by eapply vsim_mono|done].
Qed.
Lemma sim_def sp sp' d :
  Forall default_esim (compiled_params (dc_params d)) → esim (mkSpanned sp (ExprDef d)) (mkSpanned sp' (ExprDef d)).
Proof.
  intros Hd k k' s s' Hk Hs. simpl. eapply out_bind; [by apply out_defaults|].
  intros k1 vs ws s1 s1' Hk1 [Hh1 Hl1] Hvs. unfold make_def.
  pose proof (instr_def_sim k1 (def_data d) _ _ _ _ Hvs (proj1 Hl1) _ _ Hh1) as Hi. unfold res_sim in Hi.
  destruct (instr_def _ vs _ _) as [[[v l]|e|f] h] eqn:Hdef, (instr_def _ ws _ _) as [[[w l']|e'|f'] h']; try done; simpl in *.
  - destruct Hi as (k2 & Hk2 & Hh2 & Hv & Hl). exists k2. split_and!; [done| |done]. split; [done|]. split; [done|].
    intros x [c Hc]%(proj2 Hl1). exists c. by eapply (instr_def_locals (def_data d)).
  - destruct Hi as [He Hh2]. by apply out_raise.
Qed.

(** ** Comprehensions *)

Lemma out_clauses k cs cs' term term' :
  Forall2 csim cs cs' → fun_sim k same term term' →
  fun_sim k same (run_clauses (eval_clause n) cs term) (run_clauses (eval_clause n) cs' term').
Proof.
  intros Hcs. revert term term'. induction Hcs as [|c d cs ds Hcd Hcs IH]; intros term term' Ht; simpl; [done|].
  apply IH. by apply Hcd.
Qed.
Lemma sim_compr_list sp sp' x x' cs cs' : esim x x' → Forall2 csim cs cs' →
  esim (mkSpanned sp (Compr (ComprList x cs))) (mkSpanned sp' (Compr (ComprList x' cs'))).
Proof.
  intros Hx Hcs k k' s s' Hk Hs. simpl. eapply out_bind; [apply out_with_heap; [apply alloc_list_sim; constructor|done]|].
  intros k1 l l' s1 s1' Hk1 Hs1 Hl. eapply out_bind.
  - eapply fun_out; [|done]. apply out_clauses; [done|]. intros k2 s2 s2' Hk2 Hs2.
    eapply out_bind; [by apply esim_at|]. intros k3 v w s3 s3' Hk3 Hs3 Hv. apply out_at_span; [|done].
    apply list_push_sim; [|done]. eapply vsim_mono; [|done]. by trans k2.
  - intros k2 u u' s2 s2' Hk2 Hs2 _. apply out_ret; [done|]. by eapply vsim_mono.
Qed.
Lemma sim_compr_dict sp sp' x x' y y' cs cs' : esim x x' → esim y y' → Forall2 csim cs cs' →
  esim (mkSpanned sp (Compr (ComprDict x y cs))) (mkSpanned sp' (Compr (ComprDict x' y' cs'))).
Proof.
  intros Hx Hy Hcs k k' s s' Hk Hs. simpl. eapply out_bind; [apply out_with_heap; [apply alloc_dict_sim; constructor|done]|].
  intros k1 d d' s1 s1' Hk1 Hs1 Hd. eapply out_bind.
  - eapply fun_out; [|done]. apply out_clauses; [done|]. intros k2 s2 s2' Hk2 Hs2.
    apply out_two; [done..| |done]. intros k3 v v' w w' Hk3 Hv Hw k4 s4 s4' Hk4 Hs4. apply out_at_span; [|done].
    apply compr_insert_sim; [|by eapply vsim_mono..]. eapply vsim_mono; [|done]. trans k2; [done|by trans k3].
  - intros k2 u u' s2 s2' Hk2 Hs2 _. apply out_ret; [done|]. by eapply vsim_mono.
Qed.
Lemma csim_clause var var' over over' ifs ifs' :
  gsim var var' → esim over over' → isim ifs ifs' → csim (Clause var over ifs) (Clause var' over' ifs').
Proof.
  intros Hvar Hover Hifs k term term' Ht k' s s' Hk Hs. simpl. eapply out_bind; [by apply esim_at|].
  intros k1 o o' s1 s1' Hk1 Hs1 Ho. apply out_for_loop; [done| |done].
  intros k2 it it' x x' Hk2 _ Hx k3 s3 s3' Hk3 Hs3. eapply out_bind; [by apply (Hvar k2)|].
  intros k4 u u' s4 s4' Hk4 Hs4 _. apply (Hifs k' term term'); [by eapply fun_mono| |done].
  trans k1; [done|trans k2; [done|by trans k3]].
Qed.

(** ** Assignment targets *)

Lemma out_assign_list k (l l' : list Target) vs ws s s' :
  Forall2 gsim l l' → lsim k vs ws → st_sim k s s' →
  out_sim k same (assign_list (λ a : Target, assign n (span a) (node a)) l vs s) (assign_list (λ a : Target, assign n (span a) (node a)) l' ws s').
Proof.
  intros Hl. revert k vs ws s s'. induction Hl as [|a b l l' Hab Hl IH]; intros k vs ws s s' Hvs Hs; simpl; [by apply out_ret|].
  destruct Hvs as [|v w vs ws Hv Hvs]; [by apply out_ret|]. eapply out_bind; [by apply (Hab k)|].
  intros k1 u u' s1 s1' Hk1 Hs1 _. apply IH; [by eapply lsim_mono|done].
Qed.
Lemma gsim_dot sp sp' x x' field : esim x x' → gsim (mkSpanned sp (AssignDot x field)) (mkSpanned sp' (AssignDot x' field)).
Proof.
  intros Hx k v w Hv k' s s' Hk Hs. simpl. eapply out_bind; [by apply esim_at|]. intros k1 o o' s1 s1' Hk1 Hs1 Ho.
  apply out_at_span; [|done]. apply set_attr_sim; [done|done|]. eapply vsim_mono; [|exact Hv]. by trans k'.
Qed.
Lemma gsim_index sp sp' x x' y y' : esim x x' → esim y y' →
  gsim (mkSpanned sp (AssignIndex x y)) (mkSpanned sp' (AssignIndex x' y')).
Proof.
  intros Hx Hy k v w Hv k' s s' Hk Hs. simpl. apply out_two; [done..| |done].
  intros k1 a a' b b' Hk1 Ha Hb k2 s2 s2' Hk2 Hs2. apply out_at_span; [|done].
  apply set_at_sim; [by eapply vsim_mono..|]. eapply vsim_mono; [|exact Hv]. trans k'; [done|by trans k1].
Qed.
Lemma gsim_tuple sp sp' l l' : Forall2 gsim l l' → gsim (mkSpanned sp (AssignTuple l)) (mkSpanned sp' (AssignTuple l')).
Proof.
  intros Hl k v w Hv k' s s' Hk Hs. simpl. rewrite (Forall2_length _ _ _ Hl).
  eapply out_bind; [apply out_at_span; [apply unpack_sim; by eapply vsim_mono|done]|].
  intros k1 vs ws s1 s1' Hk1 Hs1 Hvs. by apply out_assign_list.
Qed.
Lemma gsim_local sp sp' (x : nat) : gsim (mkSpanned sp (AssignLocal x)) (mkSpanned sp' (AssignLocal x)).
Proof. intros k v w Hv k' s s' Hk Hs. apply out_set_local; [by eapply vsim_mono|done]. Qed.
Lemma gsim_captured sp sp' (x : nat) : gsim (mkSpanned sp (AssignLocalCaptured x)) (mkSpanned sp' (AssignLocalCaptured x)).
Proof. intros k v w Hv k' s s' Hk Hs. apply out_set_captured; [by eapply vsim_mono|done]. Qed.
(** Variables of the frozen module are constants; the others can be assigned to. *)
Definition slot_free (x : nat) : bool :=
  match (m ← ctx_frozen_module ctx; m x) with Some _ => false | None => true end.
Lemma out_set_slot k (x : nat) v w s s' : slot_free x = true → vsim k v w → st_sim k s s' →
  out_sim (E:=E) k same (ret () (mkSt (st_locals s) (set_slot_module x v (st_heap s))))
    (ret () (mkSt (st_locals s') (set_slot_module x w (st_heap s')))).
Proof.
  intros Hx Hv [Hh Hl]. apply out_ret; [|done]. split; [|done]. apply (set_slot_sim (ctx:=ctx)); [|done..].
  intros m Hm. unfold slot_free in Hx. rewrite Hm in Hx. simpl in Hx. by destruct (m x).
Qed.
Lemma gsim_module sp sp' (x : nat) name : slot_free x = true →
  gsim (mkSpanned sp (AssignModule x name)) (mkSpanned sp' (AssignModule x name)).
Proof.
  intros Hx k v w Hv k' s s' Hk Hs. simpl. eapply out_bind; [apply out_at_span; [apply export_sim; by eapply vsim_mono|done]|].
  intros k1 u u' s1 s1' Hk1 Hs1 _. apply out_set_slot; [done| |done]. eapply vsim_mono; [|exact Hv]. by trans k'.
Qed.
End compat.

(** Plain code, in which constants are frozen and no constant of the module is assigned to, may stand for itself;
    and standing for is transitive. *)

Section self.
Context `{W : World V H E TC D KM MB} {WO : WorldOk V H E TC D KM MB} {AL : Alike V H E} {AO : AlikeOk V H E TC D KM MB}.
Context {OW : OptWorld V H E TC D MB} {ctx : OptCtx (V:=V) (H:=H)} {FO : FoldOk V H E TC D KM MB ctx}.
Implicit Types (k : list (item V)) (s : St V H) (sp : Span).
Local Abbreviation out := (out V H E).
Local Abbreviation Node := (ExprCompiled V TC D).
Local Abbreviation Expr := (Spanned (ExprCompiled V TC D)).
Local Abbreviation Target := (Spanned (AssignCompiledValue V TC D)).

(** * Plain code *)

Fixpoint plain (e : Node) : bool :=
  let sub (x : Expr) := plain (node x) in
  let sub_option (o : option Expr) := match o with Some x => plain (node x) | None => true end in
  match e with
  | Value v => is_frozen v
  | Local _ | LocalCaptured _ | ModuleSlot _ => true
  | Tuple xs | List_ xs => forallb sub xs
  | Dict_ kvs => forallb (λ '(x, y), sub x && sub y) kvs
  | Compr c => plain_compr c
  | If_ c t f => sub c && sub t && sub f
  | Slice l a b c => sub l && sub_option a && sub_option b && sub_option c
  | ExprBuiltin1 _ x => sub x
  | LogicalBinOp _ x y | Seq x y | ExprBuiltin2 _ x y => sub x && sub y
  | Index2 x y z => sub x && sub y && sub z
  | Call c =>
    sub (call_fun (node c)) && forallb sub (ca_pos_named (call_args (node c))) &&
    sub_option (ca_args (call_args (node c))) && sub_option (ca_kwargs (call_args (node c)))
  | ExprDef d =>
    forallb (λ p, match node p with CompiledNormal _ _ (Some x) => plain (node x) | _ => true end) (compiled_params (dc_params d))
  end
with plain_compr (c : ComprCompiled V TC D) : bool :=
  match c with
  | ComprList x cs => plain (node x) && forallb plain_clause cs
  | ComprDict x y cs => plain (node x) && plain (node y) && forallb plain_clause cs
  end
with plain_clause (c : ClauseCompiled V TC D) : bool :=
  match c with
  | Clause var over ifs => plain_target (node var) && plain (node over) && forallb (λ x, plain (node x)) ifs
  end
with plain_target (a : AssignCompiledValue V TC D) : bool :=
  match a with
  | AssignDot x _ => plain (node x)
  | AssignIndex x y => plain (node x) && plain (node y)
  | AssignTuple l => forallb (λ a, plain_target (node a)) l
  | AssignLocal _ | AssignLocalCaptured _ => true
  | AssignModule x _ => slot_free (ctx:=ctx) x
  end.
Definition plain_args (a : ArgsCompiledValue Expr) : bool :=
  forallb (λ x, plain (node x)) (ca_pos_named a) &&
  match ca_args a with Some x => plain (node x) | None => true end &&
  match ca_kwargs a with Some x => plain (node x) | None => true end.

Context (n : nat).
Local Abbreviation esim := (esim n).

(** The object of a method is evaluated without the attribute. *)
Definition dot_object (P : Expr → Prop) (e : Node) : Prop := match e with ExprBuiltin1 (Dot _) x => P x | _ => True end.
Definition self_expr (e : Node) : Prop :=
  plain e = true → (∀ sp sp', esim (mkSpanned sp e) (mkSpanned sp' e)) ∧ dot_object (λ x, esim x x) e.
Lemma self_at (x : Expr) : self_expr (node x) → plain (node x) = true → esim x x.
Proof. intros Hx Hp. destruct (Hx Hp) as [Hs _]. specialize (Hs (span x) (span x)). by destruct x. Qed.
Lemma forall2_self {A} (R : A → A → Prop) (p : A → bool) l : Forall (λ x, p x = true → R x x) l → forallb p l = true → Forall2 R l l.
Proof. induction 1 as [|x l Hx Hl IH]; constructor; simpl in *; bool_to_prop; auto. Qed.

Lemma self_list xs : Forall (on self_expr) xs → forallb (λ x, plain (node x)) xs = true → Forall2 esim xs xs.
Proof. intros Hxs. apply forall2_self. eapply Forall_impl; [exact Hxs|]. intros x. apply self_at. Qed.
Lemma self_option o : on_option self_expr o → match o with Some x => plain (node x) | None => true end = true →
  option_Forall2 esim o o.
Proof. destruct o; constructor. by apply self_at. Qed.
Lemma isim_esims xs ys : Forall2 esim xs ys → isim n xs ys.
Proof. induction 1 as [|x y xs ys Hx Hxs IH]; [apply isim_nil|apply isim_cons; [by apply esim_tsim|done]]. Qed.
Definition self_compr (c : ComprCompiled V TC D) : Prop :=
  plain_compr c = true → ∀ sp sp', esim (mkSpanned sp (Compr c)) (mkSpanned sp' (Compr c)).
Definition self_clause (c : ClauseCompiled V TC D) : Prop := plain_clause c = true → csim n c c.
Definition self_target (a : AssignCompiledValue V TC D) : Prop :=
  plain_target a = true → ∀ sp sp', gsim n (mkSpanned sp a) (mkSpanned sp' a).
Lemma self_cases : (∀ e, self_expr e) ∧ (∀ c, self_compr c) ∧ (∀ c, self_clause c) ∧ (∀ a, self_target a).
Proof.
  apply ir_induction. split; intros; intros Hplain; simpl in Hplain; bool_to_prop; try (split; [intros sp sp'|try done]); try intros sp sp'.
  - by apply (sim_value (ctx:=ctx)).
  - apply sim_local.
  - apply sim_captured.
  - apply sim_module.
  - apply sim_tuple. by apply self_list.
  - apply sim_list. by apply self_list.
  - apply sim_dict. rename select (Forall _ kvs) into Hkvs. rename select (forallb _ kvs = true) into Hp.
    eapply forall2_self; [|exact Hp]. eapply Forall_impl; [exact Hkvs|]. intros [x y] [Hx Hy] [? ?]%andb_true_iff.
    split; by apply self_at.
  - auto.
  - apply sim_if; [apply esim_tsim| |]; by apply self_at.
  - apply sim_slice; [by apply self_at|by apply self_option..].
  - apply (sim_builtin1 (ctx:=ctx)). by apply self_at.
  - destruct op; try done. by apply self_at.
  - apply sim_logical; by apply self_at.
  - apply sim_seq; by apply self_at.
  - apply (sim_builtin2 (ctx:=ctx)); by apply self_at.
  - apply sim_index2; by apply self_at.
  - destruct c as [csp [f a]]. simpl in *. assert (args_esim n a a) as Ha.
    { split_and!; [by apply self_list|done|by apply self_option..]. }
    destruct (is_dot (node f)) eqn:Hd; [|apply (sim_call (ctx:=ctx)); [done..|by apply self_at|done]].
    rename select (self_expr (node f)) into Hf. destruct Hf as [_ Hthis]; [done|].
    destruct (node f) as [| | | | | | | | | |[] this| | | | | |] eqn:Hn; try done. by eapply (sim_call_dot (ctx:=ctx)).
  - apply sim_def. rename select (Forall _ _) into Hd. rename select (forallb _ _ = true) into Hp.
    rewrite forallb_forall in Hp. rewrite Forall_forall in Hd. apply Forall_forall. intros p Hin.
    specialize (Hd p Hin). specialize (Hp p (proj1 (list_elem_of_In _ _) Hin)). unfold default_esim, on_default in *.
    destruct (node p) as [? ? [x|]| |]; try done. by apply self_at.
  - apply sim_compr_list; [by apply self_at|]. by eapply forall2_self.
  - apply sim_compr_dict; [by apply self_at..|]. by eapply forall2_self.
  - apply csim_clause; [|by apply self_at|by apply isim_esims, self_list]. destruct var. simpl in *. by auto.
  - apply gsim_dot. by apply self_at.
  - apply gsim_index; by apply self_at.
  - apply gsim_tuple. eapply forall2_self; [|done]. eapply Forall_impl; [done|]. intros [asp a]. unfold on. simpl. auto.
  - apply gsim_local.
  - apply gsim_captured.
  - by apply gsim_module.
Qed.
Lemma self_respan e sp sp' : plain e = true → esim (mkSpanned sp e) (mkSpanned sp' e).
Proof. intros Hp. by apply self_cases. Qed.
Lemma self_plain (x : Expr) : plain (node x) = true → esim x x.
Proof. intros Hp. apply self_at; [apply self_cases|done]. Qed.
Lemma self_target_plain (a : Target) : plain_target (node a) = true → gsim n a a.
Proof. intros Hp. pose proof (proj2 (proj2 (proj2 self_cases)) (node a) Hp (span a) (span a)) as Ha. by destruct a. Qed.
Lemma self_plains xs : forallb (λ x, plain (node x)) xs = true → Forall2 esim xs xs.
Proof. intros Hp. apply self_list; [|done]. apply Forall_true. intros x. apply self_cases. Qed.
Lemma self_plain_option o : match o with Some x => plain (node x) | None => true end = true → option_Forall2 esim o o.
Proof. destruct o; constructor. by apply self_plain. Qed.
Lemma self_args a : plain_args a = true → args_esim n a a.
Proof. unfold plain_args. intros Hp. bool_to_prop. split_and!; [by apply self_plains|done|by apply self_plain_option..]. Qed.

(** * Transitivity *)

Definition chain k1 k2 (a c : V) : Prop := ∃ b, Pair a b ∈ k1 ∧ Pair b c ∈ k2.
(** The pairs of two lists of variables. *)
Definition local_pairs (l l' : list (option V)) : list (item V) :=
  concat (zip_with (λ o o', match o, o' with Some a, Some c => [Pair a c] | _, _ => [] end) l l').
Lemma local_pairs_ok k1 k2 l1 l2 l3 : Forall2 (osim k1) l1 l2 → Forall2 (osim k2) l2 l3 →
  only_pairs (chain k1 k2) (local_pairs l1 l3) ∧ ∀ k, local_pairs l1 l3 ⊆ k → Forall2 (osim k) l1 l3.
Proof.
  intros H12. revert l3. induction H12 as [|o1 o2 l1 l2 Ho12 H12 IH]; intros l3 H23; inversion H23 as [|? o3 ? l3' Ho23 H23']; subst.
  { split; [by intros i Hi%elem_of_nil|by constructor]. }
  destruct (IH _ H23') as [Hp Hk]. unfold local_pairs in *. simpl.
  destruct Ho12 as [a b Hab|]; inversion Ho23 as [? c Hbc|]; subst; simpl.
  - split.
    + intros i [->|Hi]%elem_of_cons; [|by apply Hp]. exists a, c. split; [done|]. by exists b.
    + intros k Hsub. constructor; [constructor; apply Hsub; by left|]. apply Hk. intros i Hi. apply Hsub. by right.
  - split; [done|]. intros k Hsub. constructor; [constructor|by apply Hk].
Qed.
Lemma only_pairs_app (P : V → V → Prop) (l l' : list (item V)) : only_pairs P l → only_pairs P l' → only_pairs P (l ++ l').
Proof. intros Hl Hl' i [Hi|Hi]%elem_of_app; auto. Qed.
Lemma left_pair k a b : vsim k a b → vsim (to_left <$> k) a a.
Proof. intros Hab. apply (list_elem_of_fmap_2 to_left) in Hab. exact Hab. Qed.
Lemma st_left k s s' : st_sim k s s' → st_sim (to_left <$> k) s s.
Proof.
  intros [Hh [Hl Hp]]. split; [by eapply alike_left|]. split; [|done]. clear Hp.
  induction Hl as [|o o' l l' Ho Hl IH]; constructor; [|done]. destruct Ho; constructor. by eapply left_pair.
Qed.
Lemma heap_trans k k1 k2 p h1 h2 h3 :
  to_left <$> k ⊆+ k1 → k ⊆+ k2 → alike k1 h1 h2 → alike k2 h2 h3 → only_pairs (chain k1 k2) p →
  ∃ k3, k ⊆+ k3 ∧ alike k3 h1 h3 ∧ p ⊆ k3.
Proof.
  intros Hk1 Hk2 H12 H23 Hp. exists (p ++ k). split_and!.
  - apply submseteq_inserts_l. done.
  - by eapply alike_trans.
  - set_solver.
Qed.
Lemma exit_trans k k1 k2 (o1 o2 o3 : Outcome V H E) :
  to_left <$> k ⊆+ k1 → k ⊆+ k2 → exit_sim k1 o1 o2 → exit_sim k2 o2 o3 → exit_sim k o1 o3.
Proof.
  intros Hk1 Hk2. destruct o1 as [a h1|e1 h1|f1], o2 as [b h2|e2 h2|f2], o3 as [c h3|e3 h3|f3]; simpl; try done; try congruence.
  - intros (k1' & Hk1' & H12 & Hab) (k2' & Hk2' & H23 & Hbc).
    destruct (heap_trans k k1' k2' [Pair a c] h1 h2 h3) as (k3 & Hk3 & H13 & Hp); [by trans k1|by trans k2|done..| |].
    { intros i ->%list_elem_of_singleton. exists a, c. split; [done|]. by exists b. }
    exists k3. split_and!; [done..|]. apply Hp. by left.
  - intros [He12 H12] [He23 H23]. split; [by etrans|].
    destruct (heap_trans k k1 k2 [] h1 h2 h3) as (k3 & Hk3 & H13 & _); [done..|by intros i Hi%elem_of_nil|].
    by eapply alike_weaken.
Qed.
(** What results correspond by. *)
Lemma out_trans {A B C} k k1 k2 (R1 : list (item V) → A → B → Prop) (R2 : list (item V) → B → C → Prop) R3 m1 m2 m3 :
  (∀ k1 k2 a b c, R1 k1 a b → R2 k2 b c → ∃ p, only_pairs (chain k1 k2) p ∧ ∀ k3, p ⊆ k3 → R3 k3 a c) →
  to_left <$> k ⊆+ k1 → k ⊆+ k2 → out_sim k1 R1 m1 m2 → out_sim k2 R2 m2 m3 → out_sim (E:=E) k R3 m1 m3.
Proof.
  intros HR Hk1 Hk2. unfold out_sim.
  destruct m1 as [[a s1|o1]|], m2 as [[b s2|o2]|], m3 as [[c s3|o3]|]; try done; [|by apply exit_trans].
  intros (k1' & Hk1' & [H12 [Hl12 Hp1]] & Hab) (k2' & Hk2' & [H23 [Hl23 _]] & Hbc).
  destruct (HR _ _ _ _ _ Hab Hbc) as (p & Hp & HR3). destruct (local_pairs_ok _ _ _ _ _ Hl12 Hl23) as [Hq Hl13].
  destruct (heap_trans k k1' k2' (p ++ local_pairs (st_locals s1) (st_locals s3)) _ _ _ ltac:(by trans k1) ltac:(by trans k2) H12 H23)
    as (k3 & Hk3 & H13 & Hsub); [by apply only_pairs_app|].
  exists k3. split_and!; [done| |apply HR3; set_solver]. split; [done|]. split; [|done]. apply Hl13. set_solver.
Qed.
Lemma esim_trans (x y z : Expr) : esim x y → esim y z → esim x z.
Proof.
  intros Hxy Hyz k k' s s' Hk Hs.
  apply (out_trans k' (to_left <$> k') k' vsim vsim vsim _ (eval n (span y) (node y) s)); [|done|done|apply esim_at; [done|by eapply st_left]|by apply esim_at].
  intros k1 k2 a b c Hab Hbc. exists [Pair a c]. split.
  - intros i ->%list_elem_of_singleton. exists a, c. split; [done|]. by exists b.
  - intros k3 Hsub. apply Hsub. by left.
Qed.
Lemma tsim_trans (x y z : Expr) : tsim n x y → tsim n y z → tsim n x z.
Proof.
  intros Hxy Hyz k k' s s' Hk Hs.
  apply (out_trans k' (to_left <$> k') k' same same same _ (truth n y s)); [|done|done|apply tsim_at; [done|by eapply st_left]|by apply tsim_at].
  intros k1 k2 a b c -> ->. exists []. split; [by intros i Hi%elem_of_nil|done].
Qed.
End self.
