(* ===== verification/IrBlock.v ===== *)
(** Statements and blocks: every construct respects alikeness, plain blocks may stand for themselves, and standing for is
    transitive and respects sequences. *)

From S2P Require Import Prelude Hashing TableMap FastString StrFormat Symbol CodeMap.
From S2P Require Import DefParams OrdMap ParamSpec Def Ir IrWf Inline World IrEval Optimize Alike IrSim IrCompat.

Section block.
Context `{W : World V H E TC D KM MB} {WO : WorldOk V H E TC D KM MB} {AL : Alike V H E} {AO : AlikeOk V H E TC D KM MB}.
Context {OW : OptWorld V H E TC D MB} {ctx : OptCtx (V:=V) (H:=H)} {FO : FoldOk V H E TC D KM MB ctx}.
Implicit Types (k : list (item V)) (s : St V H) (sp : Span) (its : list V).
Local Abbreviation out := (out V H E).
Local Abbreviation Expr := (Spanned (ExprCompiled V TC D)).
Local Abbreviation Target := (Spanned (AssignCompiledValue V TC D)).
Local Abbreviation Stmt := (Spanned (StmtCompiled V TC D)).
Local Abbreviation plain := (plain (TC:=TC) (D:=D) (ctx:=ctx)).
Context (n : nat) (hrt : bool).
Local Abbreviation evs := (λ (x : Expr) s, eval n (span x) (node x) s).
Local Abbreviation esim := (esim n).
Local Abbreviation gsim := (gsim n).
Local Abbreviation tsim := (tsim n).

Definition block its (c : list Stmt) : St V H → option (out Flow) := exec_list (λ c, exec n hrt its (span c) (node c)) c.
(** The block [c'] may stand for [c]. *)
Definition bsim (c c' : list Stmt) : Prop := ∀ k its its', lsim k its its' → fun_sim k same (block its c) (block its' c').
Definition ssim (c c' : Stmt) : Prop := ∀ k its its', lsim k its its' →
  fun_sim k same (exec n hrt its (span c) (node c)) (exec n hrt its' (span c') (node c')).
Lemma bsim_at c c' k its its' s s' : bsim c c' → lsim k its its' → st_sim k s s' → out_sim k same (block its c s) (block its' c' s').
Proof. intros Hc Hits Hs. exact (fun_out k _ _ _ s s' (Hc k its its' Hits) Hs). Qed.

(** * Sequences *)

Lemma then_next_ret (f : Flow) s : then_next f (ret (E:=E) FlowNext) s = ret f s.
Proof. by destruct f. Qed.
Lemma block_one its c s : block its [c] s = exec n hrt its (span c) (node c) s.
Proof.
  unfold block. simpl. destruct (exec n hrt its (span c) (node c) s) as [[f s1|o]|]; simpl; [|done..]. by destruct f.
Qed.
Lemma block_app its c d s : block its (c ++ d) s = (do f, s <~ block its c s; then_next f (block its d) s).
Proof.
  unfold block. revert s. induction c as [|x c IH]; intros s; simpl; [done|].
  destruct (exec n hrt its (span x) (node x) s) as [[f s1|o]|]; simpl; [|done..]. destruct f; simpl; [apply IH|done..].
Qed.
Lemma bsim_nil : bsim [] [].
Proof. intros k its its' Hits k' s s' Hk Hs. by apply out_ret. Qed.
Lemma bsim_app c c' d d' : bsim c c' → bsim d d' → bsim (c ++ d) (c' ++ d').
Proof.
  intros Hc Hd k its its' Hits k' s s' Hk Hs. rewrite !block_app. eapply out_bind; [by eapply bsim_at; [|by eapply lsim_mono|]|].
  intros k1 f f' s1 s1' Hk1 Hs1 <-. destruct f; simpl; [|by apply out_ret..].
  eapply bsim_at; [done| |done]. eapply lsim_mono; [|exact Hits]. by trans k'.
Qed.
Lemma bsim_stmt c c' : ssim c c' → bsim [c] [c'].
Proof. intros Hc k its its' Hits k' s s' Hk Hs. rewrite !block_one. by apply (Hc k). Qed.
Lemma bsim_stmts c c' : Forall2 ssim c c' → bsim c c'.
Proof.
  induction 1 as [|x y c c' Hxy Hc IH]; [apply bsim_nil|]. apply (bsim_app [x] [y]); [by apply bsim_stmt|done].
Qed.
Lemma bsim_trans c1 c2 c3 : bsim c1 c2 → bsim c2 c3 → bsim c1 c3.
Proof.
  intros H12 H23 k its its' Hits k' s s' Hk Hs.
  assert (lsim k' its its') as Hits' by by eapply lsim_mono.
  apply (out_trans (ctx:=ctx) k' (to_left <$> k') k' same same same _ (block its c2 s)); [|done|done| |by apply bsim_at].
  - intros k1 k2 a b c -> ->. exists []. split; [by intros i Hi%elem_of_nil|done].
  - apply bsim_at; [done| |by eapply st_left]. eapply Forall2_impl; [|intros a b Hab; exact Hab].
    clear -Hits'. induction Hits' as [|a b l l' Hab Hl IH]; constructor; [by eapply left_pair|done].
Qed.
(** Blocks that do the same. *)
Lemma bsim_eq c c' d : (∀ its s, block its c s = block its c' s) → bsim c' d → bsim c d.
Proof. intros Heq Hc k its its' Hits k' s s' Hk Hs. rewrite Heq. by eapply bsim_at; [|eapply lsim_mono|]. Qed.

(** * Statements *)

Lemma stop_sim k its its' s s' : lsim k its its' → st_sim k s s' → st_sim k (stop_iterators its s) (stop_iterators its' s').
Proof.
  intros Hits [Hh Hl]. split; [|done]. simpl. assert (lsim k (reverse its) (reverse its')) as Hrev by by apply Forall2_reverse.
  clear Hits Hl. revert Hh. generalize (st_heap s), (st_heap s'). induction Hrev as [|a b l l' Hab Hl IH]; intros h h' Hh; simpl; [done|].
  by apply IH, iter_stop_sim.
Qed.
Lemma return_sim k (R : list (item V) → Flow → Flow → Prop) sp sp' v w s s' : vsim k v w → st_sim k s s' →
  out_sim k same (return_value hrt sp v s) (return_value hrt sp' w s').
Proof.
  intros Hv Hs. unfold return_value. destruct hrt.
  - eapply out_bind; [apply out_at_span; [by apply check_return_sim|done]|]. intros k1 u u' s1 s1' Hk1 [Hh1 _] _.
    exists k1. split_and!; [done|done|by eapply vsim_mono].
  - exists k. split_and!; [done|apply Hs|done].
Qed.
Lemma ssim_return sp sp' x y : esim x y → ssim (mkSpanned sp (Return x)) (mkSpanned sp' (Return y)).
Proof.
  intros Hxy k its its' Hits k' s s' Hk Hs. simpl. eapply out_bind.
  - apply esim_at; [exact Hxy|]. apply stop_sim; [by eapply lsim_mono|done].
  - intros k1 v w s1 s1' Hk1 Hs1 Hv. by apply (return_sim k1 same).
Qed.
Lemma ssim_expr sp sp' x y : esim x y → ssim (mkSpanned sp (StmtExpr x)) (mkSpanned sp' (StmtExpr y)).
Proof.
  intros Hxy k its its' Hits k' s s' Hk Hs. simpl. eapply out_bind; [by apply esim_at|]. intros k1 v w s1 s1' Hk1 Hs1 _.
  by apply out_ret.
Qed.
Lemma ssim_assign sp sp' a a' ty x y : gsim a a' → esim x y → ssim (mkSpanned sp (Assign a ty x)) (mkSpanned sp' (Assign a' ty y)).
Proof.
  intros Ha Hxy k its its' Hits k' s s' Hk Hs. simpl. eapply out_bind; [by apply esim_at|]. intros k1 v w s1 s1' Hk1 Hs1 Hv.
  apply (out_bind k1 same).
  - destruct ty as [ty|]; [|by apply out_ret]. apply out_at_span; [by apply check_type_sim|done].
  - intros k2 u u' s2 s2' Hk2 Hs2 _. eapply out_bind; [by apply (Ha k1)|]. intros k3 q q' s3 s3' Hk3 Hs3 _. by apply out_ret.
Qed.
Lemma ssim_if sp sp' x y t t' f f' : tsim x y → bsim t t' → bsim f f' →
  ssim (mkSpanned sp (StmtIf x t f)) (mkSpanned sp' (StmtIf y t' f')).
Proof.
  intros Hxy Ht Hf k its its' Hits k' s s' Hk Hs. simpl.
  apply (out_if n k' same x y s s' (block its t) (block its f) (block its' t') (block its' f')); [done| | |done];
    intros k1 s1 s1' Hk1 Hs1; (eapply bsim_at; [done| |done]); (eapply lsim_mono; [|exact Hits]); by trans k'.
Qed.
Lemma ssim_for sp sp' a a' x y c c' : gsim a a' → esim x y → bsim c c' →
  ssim (mkSpanned sp (For a x c)) (mkSpanned sp' (For a' y c')).
Proof.
  intros Ha Hxy Hc k its its' Hits k' s s' Hk Hs. simpl. eapply out_bind; [by apply esim_at|]. intros k1 o o' s1 s1' Hk1 Hs1 Ho.
  eapply out_bind; [apply out_for_loop; [exact Ho| |exact Hs1]|].
  - intros k2 it it' v w Hk2 Hit Hv k3 s3 s3' Hk3 Hs3. eapply out_bind; [by apply (Ha k2)|]. intros k4 u u' s4 s4' Hk4 Hs4 _.
    apply (bsim_at c c' k4 (its ++ [it]) (its' ++ [it'])); [done| |done]. apply Forall2_app.
    + eapply lsim_mono; [|exact Hits]. trans k'; [done|trans k1; [done|trans k2; [done|by trans k3]]].
    + constructor; [|constructor]. eapply vsim_mono; [|exact Hit]. by trans k3.
  - intros k2 u u' s2 s2' Hk2 Hs2 _. by apply out_ret.
Qed.

(** ** Augmented assignments *)

Definition msim (lhs lhs' : AssignModifyLhs V TC D) : Prop :=
  match lhs, lhs' with
  | ModifyDot x field, ModifyDot y field' => esim x y ∧ field = field'
  | ModifyArray x i, ModifyArray y j => esim x y ∧ esim i j
  | ModifyLocal x, ModifyLocal y => node x = node y
  | ModifyLocalCaptured x, ModifyLocalCaptured y => node x = node y
  | ModifyModule x, ModifyModule y => node x = node y ∧ slot_free (ctx:=ctx) (node x) = true
  | _, _ => False
  end.
(** The operand on the right, the operation, and what is done with its value. *)
Lemma out_modify {A B} k R op sp sp' x y l l' s s' (f : V → St V H → option (out A)) (g : V → St V H → option (out B)) :
  esim x y → vsim k l l' → st_sim k s s' → (∀ k' v w, k ⊆+ k' → vsim k' v w → fun_sim k' R (f v) (g w)) →
  out_sim k R (do r, s <~ evs x s; do v, s <~ at_span sp (assign_op op l r) s; f v s)
    (do r, s <~ evs y s'; do v, s <~ at_span sp' (assign_op op l' r) s; g v s).
Proof.
  intros Hxy Hl Hs Hfg. eapply out_bind; [by apply esim_at|]. intros k1 r r' s1 s1' Hk1 Hs1 Hr.
  eapply out_bind; [apply out_at_span; [apply assign_op_sim; [by eapply vsim_mono|done]|done]|].
  intros k2 v w s2 s2' Hk2 Hs2 Hv. eapply fun_out; [apply Hfg; [by trans k1|done]|done].
Qed.
Lemma ssim_modify sp sp' lhs lhs' op x y : msim lhs lhs' → esim x y →
  ssim (mkSpanned sp (AssignModify lhs op x)) (mkSpanned sp' (AssignModify lhs' op y)).
Proof.
  intros Hlhs Hxy k its its' Hits k' s s' Hk Hs. simpl. apply (out_bind k' same); [|intros; by apply out_ret].
  destruct lhs as [o field|a i|z|z|z], lhs' as [o' field'|a' i'|z'|z'|z']; try done; simpl in *.
  - destruct Hlhs as [Ho <-]. eapply out_bind; [by apply esim_at|]. intros k1 v v' s1 s1' Hk1 Hs1 Hv.
    eapply out_bind; [apply out_at_span; [by apply getattr_sim|done]|]. intros k2 l l' s2 s2' Hk2 Hs2 Hl.
    eapply out_modify; [done..|]. intros k3 r r' Hk3 Hr k4 s4 s4' Hk4 Hs4. apply out_at_span; [|done].
    apply set_attr_sim; [eapply vsim_mono; [|exact Hv]|done|by eapply vsim_mono]. trans k2; [done|by trans k3].
  - destruct Hlhs as [Ha Hi]. eapply out_bind; [by apply esim_at|]. intros k1 v v' s1 s1' Hk1 Hs1 Hv.
    eapply out_bind; [by apply esim_at|]. intros k2 j j' s2 s2' Hk2 Hs2 Hj.
    eapply out_bind; [apply out_at_span; [apply at_sim; [by eapply vsim_mono|done]|done]|]. intros k3 l l' s3 s3' Hk3 Hs3 Hl.
    eapply out_modify; [done..|]. intros k4 r r' Hk4 Hr k5 s5 s5' Hk5 Hs5. apply out_at_span; [|done].
    apply set_at_sim; [eapply vsim_mono; [|exact Hv]|eapply vsim_mono; [|exact Hj]|by eapply vsim_mono].
    + trans k2; [done|trans k3; [done|by trans k4]].
    + trans k3; [done|by trans k4].
  - rewrite Hlhs. eapply out_bind; [by apply out_get_local|]. intros k1 l l' s1 s1' Hk1 Hs1 Hl.
    eapply out_modify; [done..|]. intros k2 r r' Hk2 Hr k3 s3 s3' Hk3 Hs3. apply out_set_local; [by eapply vsim_mono|done].
  - rewrite Hlhs. eapply out_bind; [by apply out_get_captured|]. intros k1 l l' s1 s1' Hk1 Hs1 Hl.
    eapply out_modify; [done..|]. intros k2 r r' Hk2 Hr k3 s3 s3' Hk3 Hs3. apply out_set_captured; [by eapply vsim_mono|done].
  - destruct Hlhs as [Hz Hfree]. rewrite <- Hz. eapply out_bind; [apply out_at_span; [apply get_slot_sim|done]|].
    intros k1 l l' s1 s1' Hk1 Hs1 Hl. eapply out_modify; [done..|]. intros k2 r r' Hk2 Hr k3 s3 s3' Hk3 Hs3.
    apply (out_set_slot (ctx:=ctx)); [done|by eapply vsim_mono|done].
Qed.

(** * Plain blocks *)

Definition plain_modify (lhs : AssignModifyLhs V TC D) : bool :=
  match lhs with
  | ModifyDot x _ => plain (node x)
  | ModifyArray x y => plain (node x) && plain (node y)
  | ModifyLocal _ | ModifyLocalCaptured _ => true
  | ModifyModule x => slot_free (ctx:=ctx) (node x)
  end.
Fixpoint plain_stmt (c : StmtCompiled V TC D) : bool :=
  match c with
  | PossibleGc => false
  | Return x | StmtExpr x => plain (node x)
  | Assign a _ x => plain_target (ctx:=ctx) (node a) && plain (node x)
  | AssignModify lhs _ x => plain_modify lhs && plain (node x)
  | StmtIf x t f => plain (node x) && forallb (λ c, plain_stmt (node c)) t && forallb (λ c, plain_stmt (node c)) f
  | For a x c => plain_target (ctx:=ctx) (node a) && plain (node x) && forallb (λ c, plain_stmt (node c)) c
  | Break | Continue => true
  end.
Definition plain_block (c : list Stmt) : bool := forallb (λ c, plain_stmt (node c)) c.
Lemma msim_self lhs : plain_modify lhs = true → msim lhs lhs.
Proof.
  destruct lhs; simpl; intros Hp; bool_to_prop; try done; try (split; [|done]); try split; by apply (self_plain (ctx:=ctx)).
Qed.
Lemma ssim_self c : plain_stmt c = true → ∀ sp sp', ssim (mkSpanned sp c) (mkSpanned sp' c).
Proof.
  assert (∀ cs : list Stmt, Forall (on (λ c, plain_stmt c = true → ∀ sp sp', ssim (mkSpanned sp c) (mkSpanned sp' c))) cs →
    plain_block cs = true → bsim cs cs) as Hblock.
  { intros cs Hcs Hp. apply bsim_stmts. eapply forall2_self; [|exact Hp]. eapply Forall_impl; [exact Hcs|].
    intros [csp c'] Hc Hp'. by apply Hc. }
  revert c. apply (stmt_induction (λ c, plain_stmt c = true → ∀ sp sp', ssim (mkSpanned sp c) (mkSpanned sp' c))); simpl; try done;
    intros; bool_to_prop.
  - apply ssim_return. by apply (self_plain (ctx:=ctx)).
  - apply ssim_expr. by apply (self_plain (ctx:=ctx)).
  - apply ssim_assign; [by apply (self_target_plain (ctx:=ctx))|by apply (self_plain (ctx:=ctx))].
  - apply ssim_modify; [by apply msim_self|by apply (self_plain (ctx:=ctx))].
  - apply ssim_if; [apply esim_tsim; by apply (self_plain (ctx:=ctx))|by apply Hblock..].
  - apply ssim_for; [by apply (self_target_plain (ctx:=ctx))|by apply (self_plain (ctx:=ctx))|by apply Hblock].
  - intros k its its' Hits k' s s' Hk Hs. by apply out_ret.
  - intros k its its' Hits k' s s' Hk Hs. by apply out_ret.
Qed.
Lemma bsim_self c : plain_block c = true → bsim c c.
Proof.
  intros Hp. apply bsim_stmts. eapply forall2_self; [|exact Hp]. apply Forall_true. intros [csp c'] Hc. by apply ssim_self.
Qed.
End block.
