(* ===== verification/OptCon.v ===== *)
(** Expressions without effects: they come to a value and leave the heap as it was, to all appearances, so code that
    ignores their value, or uses only its truth or its type, may leave them out.  Then the
    results of folded operations, and the constructors [seq], [logical_bin_op], [not], [type_is] and [ExprCompiledBool]. *)

From S2P Require Import Prelude Hashing TableMap FastString StrFormat Symbol CodeMap.
From S2P Require Import DefParams OrdMap ParamSpec Def Ir IrWf Inline World IrEval Optimize Alike IrSim IrCompat.

Section pure.
Context `{W : World V H E TC D KM MB} {WO : WorldOk V H E TC D KM MB} {AL : Alike V H E} {AO : AlikeOk V H E TC D KM MB}.
Context {OW : OptWorld V H E TC D MB} {ctx : OptCtx (V:=V) (H:=H)} {FO : FoldOk V H E TC D KM MB ctx}.
Context (n : nat).
Implicit Types (k : list (item V)) (s : St V H) (sp : Span).
Local Abbreviation out := (out V H E).
Local Abbreviation Node := (ExprCompiled V TC D).
Local Abbreviation Expr := (Spanned (ExprCompiled V TC D)).
Local Abbreviation plain := (plain (TC:=TC) (D:=D) (ctx:=ctx)).
Local Abbreviation evs := (λ (x : Expr) s, eval n (span x) (node x) s).

(** [h'] is [h] with values that nothing refers to. *)
Definition drops (h h' : H) : Prop := ∀ k h2, alike k h h2 → alike k h' h2.
#[global] Instance drops_preorder : PreOrder drops.
Proof. split; [by intros h k h2|intros a b c Hab Hbc k h2 Hh; by apply Hbc, Hab]. Qed.
(** The expression comes to a value that satisfies [P]. *)
Definition runs_to (P : V → H → Prop) (o : option (out V)) s : Prop :=
  ∃ v h, o = ret v (mkSt (st_locals s) h) ∧ drops (st_heap s) h ∧ P v h.
Definition runs (e : Node) (P : V → H → Prop) : Prop := ∀ sp s, runs_to P (eval n sp e s) s.
Definition any (v : V) (h : H) : Prop := True.
Definition type_of (t : list byte) (v : V) (h : H) : Prop := get_type_value v = t.
Definition truth_of (b : bool) (v : V) (h : H) : Prop := to_bool v h = b.
Lemma runs_weaken e P Q : (∀ v h, P v h → Q v h) → runs e P → runs e Q.
Proof. intros HPQ He sp s. destruct (He sp s) as (v & h & Hv & Hd & HP). exists v, h. auto. Qed.
Lemma runs_any e P : runs e P → runs e any.
Proof. by apply runs_weaken. Qed.
Lemma st_eta s : mkSt (st_locals s) (st_heap s) = s.
Proof. by destruct s. Qed.
Lemma runs_ret (P : V → H → Prop) v s : P v (st_heap s) → runs_to P (ret v s) s.
Proof. intros HP. exists v, (st_heap s). by rewrite st_eta. Qed.
Lemma runs_ret_any v s : runs_to any (ret v s) s.
Proof. by apply (runs_ret any). Qed.
Lemma runs_bind P Q (o : option (out V)) (f : V → St V H → option (out V)) s :
  runs_to P o s → (∀ v h, drops (st_heap s) h → P v h → runs_to Q (f v (mkSt (st_locals s) h)) (mkSt (st_locals s) h)) →
  runs_to Q (obind o f) s.
Proof.
  intros (v & h & -> & Hd & HP) Hf. destruct (Hf v h Hd HP) as (w & h' & Hw & Hd' & HQ). exists w, h'. simpl in *.
  split_and!; [done|by etrans|done].
Qed.
Lemma runs_list xs s : Forall (λ x : Expr, runs (node x) any) xs →
  ∃ vs h, eval_list evs xs s = ret vs (mkSt (st_locals s) h) ∧ drops (st_heap s) h ∧ length vs = length xs.
Proof.
  intros Hxs. revert s. induction Hxs as [|x xs Hx Hxs IH]; intros s; simpl.
  { exists [], (st_heap s). by rewrite st_eta. }
  destruct (Hx (span x) s) as (v & h & -> & Hd & _). simpl.
  destruct (IH (mkSt (st_locals s) h)) as (vs & h' & -> & Hd' & Hl). exists (v :: vs), h'. simpl in *.
  split_and!; [done|by etrans|by rewrite Hl].
Qed.

(** ** The displays of containers *)

Definition from_list (xs : list Expr) (v : V) (h : H) : Prop :=
  ∃ vs h0, length vs = length xs ∧ v = (h_alloc_list vs h0).1 ∧ h = (h_alloc_list vs h0).2.
Definition from_tuple (xs : list Expr) (v : V) (h : H) : Prop :=
  ∃ vs h0, length vs = length xs ∧ v = (h_alloc_tuple vs h0).1 ∧ h = (h_alloc_tuple vs h0).2.
Definition from_dict (v : V) (h : H) : Prop := ∃ h0, v = (h_alloc_dict [] h0).1 ∧ h = (h_alloc_dict [] h0).2.
Lemma with_heap_eq {A} (o : H → A * H) s : with_heap (E:=E) o s = ret (o (st_heap s)).1 (mkSt (st_locals s) (o (st_heap s)).2).
Proof. unfold with_heap. by destruct (o (st_heap s)). Qed.
Lemma run_list xs : Forall (λ x : Expr, runs (node x) any) xs → runs (List_ xs) (from_list xs).
Proof.
  intros Hxs sp s. simpl. destruct (runs_list xs s Hxs) as (vs & h & -> & Hd & Hl). simpl. rewrite with_heap_eq. simpl.
  eexists _, _. split_and!; [done| |by exists vs, h]. etrans; [done|]. intros k h2. by apply (drop_list (ctx:=ctx)).
Qed.
Lemma run_tuple xs : Forall (λ x : Expr, runs (node x) any) xs → runs (Tuple xs) (from_tuple xs).
Proof.
  intros Hxs sp s. simpl. destruct (runs_list xs s Hxs) as (vs & h & -> & Hd & Hl). simpl. rewrite with_heap_eq. simpl.
  eexists _, _. split_and!; [done| |by exists vs, h]. etrans; [done|]. intros k h2. by apply (drop_tuple (ctx:=ctx)).
Qed.
Lemma run_dict : runs (Dict_ []) from_dict.
Proof.
  intros sp s. simpl. unfold at_span, make_dict. simpl.
  pose proof (λ k h2, drop_dict (ctx:=ctx) k (st_heap s) h2) as Hd. destruct (h_alloc_dict [] (st_heap s)) as [v h] eqn:Hv.
  exists v, h. split_and!; [done|done|]. exists (st_heap s). by rewrite Hv.
Qed.

(** ** Expressions without effects *)

Definition runs_pure (e : Node) : Prop := is_pure_infallible e = true → plain e = true → runs e any.
Lemma pure_list xs : Forall (on runs_pure) xs → forallb (λ x, is_pure_infallible (node x)) xs = true →
  forallb (λ x, plain (node x)) xs = true → Forall (λ x : Expr, runs (node x) any) xs.
Proof.
  intros Hxs Hp Hq. rewrite forallb_forall in Hp, Hq. rewrite Forall_forall in *. intros x Hx.
  apply Hxs; [done|apply Hp|apply Hq]; by apply list_elem_of_In.
Qed.
Lemma runs_at_span sp (v : V) s : runs_to any (at_span sp (λ h, (Ok v, h)) s) s.
Proof. rewrite at_span_done. apply runs_ret_any. Qed.
Lemma runs_builtin op (x : Expr) : match op with Not | TypeIs _ => True | _ => False end →
  runs (node x) any → runs (ExprBuiltin1 op x) any.
Proof.
  intros Hop Hx sp s. simpl. eapply runs_bind; [apply Hx|]. intros v h _ _. exists (match op with Not => new_bool (negb (to_bool v h)) | TypeIs t => new_bool (bool_decide (get_type_value v = t)) | _ => v end), h.
  by destruct op.
Qed.
Local Ltac sub := match goal with H : runs_pure ?e |- runs_to _ (eval _ _ ?e _) _ => apply H | H : runs_pure ?e |- runs ?e _ => apply H end.
Lemma pure_runs : ∀ e, runs_pure e.
Proof.
  refine (proj1 (ir_induction runs_pure (λ _, True) (λ _, True) (λ _, True) _)).
  split; try done; intros; intros Hpure Hplain; simpl in *; try done; bool_to_prop.
  - intros sp s. apply runs_ret_any.
  - eapply runs_any, run_tuple. by eapply pure_list.
  - eapply runs_any, run_list. by eapply pure_list.
  - destruct kvs; [|done]. eapply runs_any, run_dict.
  - intros sp s. simpl. eapply (runs_bind any); [by sub|]. intros v h _ _. destruct (to_bool v _); by sub.
  - apply runs_builtin; [by destruct op|]. destruct op; by sub.
  - intros sp s. simpl. eapply (runs_bind any); [by sub|]. intros v h _ _. destruct (Bool.eqb _ _); [by sub|apply runs_ret_any].
  - intros sp s. simpl. eapply (runs_bind any); [by sub|]. intros v h _ _. by sub.
  - destruct c as [csp c]. simpl in *. unfold with_type in Hpure.
    destruct (with_fn_cases is_fn_type c) as [(f & x & Hc & Hx)|Hn]; [|by rewrite Hn in Hpure].
    rewrite Hx in Hpure. assert (ca_pos_named (call_args c) = [x]) as Hpos by by rewrite Hc.
    rename select (Forall _ _) into Hall. rewrite Hpos in Hall. rename select (forallb _ _ = true) into Hall'. rewrite Hpos in Hall'.
    simpl in Hall'. bool_to_prop. inversion Hall as [|? ? Hrun _]; subst. intros sp s.
    change (runs_to any (eval_call evs csp c s) s). rewrite call_invoke, Hc, invoke_one.
    eapply (runs_bind any); [by apply Hrun|]. intros v h _ _. erewrite at_span_eq; [apply runs_at_span|].
    apply (call_type (ctx:=ctx)). rewrite Hc in Hx. by eapply fn_holds.
Qed.
Lemma pure_list_runs xs : forallb (λ x, is_pure_infallible (node x)) xs = true → forallb (λ x, plain (node x)) xs = true →
  Forall (λ x : Expr, runs (node x) any) xs.
Proof. apply pure_list, Forall_true. intros x. apply pure_runs. Qed.

(** ** Their truth and their type *)

Lemma from_list_truth xs v h : from_list xs v h → truth_of (negb (length xs =? 0)) v h.
Proof. intros (vs & h0 & <- & -> & ->). apply (list_truth (ctx:=ctx)). Qed.
Lemma from_tuple_truth xs v h : from_tuple xs v h → truth_of (negb (length xs =? 0)) v h.
Proof. intros (vs & h0 & <- & -> & ->). apply (tuple_truth (ctx:=ctx)). Qed.
Lemma runs_not (x : Expr) b : runs (node x) (truth_of b) → runs (ExprBuiltin1 Not x) (truth_of (negb b)).
Proof.
  intros Hx sp s. simpl. eapply runs_bind; [apply Hx|]. intros v h _ Hb. unfold truth_of in Hb. subst b.
  exists (new_bool (negb (to_bool v h))), h. split_and!; [done|reflexivity|]. apply to_bool_new_bool.
Qed.
Lemma runs_logical op (x y : Expr) b b' : runs (node x) (truth_of b) →
  (if Bool.eqb b (bool_decide (op = And)) then runs (node y) (truth_of b') else b' = b) →
  runs (LogicalBinOp op x y) (truth_of b').
Proof.
  intros Hx Hy sp s. simpl. eapply runs_bind; [apply Hx|]. intros v h _ Hb. unfold truth_of in Hb. subst b. simpl.
  revert Hy. destruct (Bool.eqb _ _); intros Hy; [apply Hy|]. by apply (runs_ret (truth_of b')).
Qed.
Lemma truth_runs e : ∀ b, is_pure_infallible_to_bool ctx e = Some b → plain e = true → runs e (truth_of b).
Proof.
  refine (proj1 (ir_induction (λ e, ∀ b, is_pure_infallible_to_bool ctx e = Some b → plain e = true → runs e (truth_of b))
    (λ _, True) (λ _, True) (λ _, True) _) e). clear e.
  split; try done.
  - intros v b [= <-] Hv sp s. apply runs_ret. by eapply (frozen_to_bool (ctx:=ctx)).
  - intros xs _ b Hb Hp. simpl in *. destruct (forallb (λ x, is_pure_infallible (node x)) xs) eqn:Hxs; simplify_eq.
    eapply runs_weaken; [apply from_tuple_truth|]. by apply run_tuple, pure_list_runs.
  - intros xs _ b Hb Hp. simpl in *. destruct (forallb (λ x, is_pure_infallible (node x)) xs) eqn:Hxs; simplify_eq.
    eapply runs_weaken; [apply from_list_truth|]. by apply run_list, pure_list_runs.
  - intros [] _ b [= <-] _. eapply runs_weaken; [|apply run_dict]. intros v h (h0 & -> & ->). apply (dict_truth (ctx:=ctx)).
  - intros [] x IH b Hb Hp; try done. simpl in Hb. apply fmap_Some in Hb as (b' & Hb & ->). by apply runs_not, IH.
  - intros op x y IHx IHy b Hb Hp. simpl in *. apply andb_true_iff in Hp as [Hpx Hpy].
    destruct (is_pure_infallible_to_bool ctx (node x)) as [bx|] eqn:Hx; [|by destruct op].
    apply (runs_logical op x y bx); [by apply IHx|]. destruct op, bx; simpl; simplify_eq; first [done|by apply IHy].
Qed.

(** An expression that is definitely a boolean. *)
Lemma definitely_bool e sp s v s' : is_definitely_bool e = true → eval n sp e s = Some (Done v s') → ∃ b, v = new_bool b.
Proof.
  assert (∀ (o : Op H E bool) s, at_span (E:=E) sp (op_bool o) s = Some (Done v s') → ∃ b, v = new_bool b) as Hop.
  { intros o s0. unfold at_span, op_bool. destruct (o (st_heap s0)) as [[b|e'|f] h]; simpl; intros [= <- _]. by exists b. }
  destruct e as [w| | | | | | | | | |[] x| | |[] x y| | |]; try done; simpl; intros Hb.
  - intros [= <- _]. destruct (unpack_bool w) as [b|] eqn:Hw; [|done]. exists b. by apply (unpack_bool_ok (ctx:=ctx)).
  - destruct (eval n _ (node x) s) as [[w s1|]|]; simpl; [|done..]. intros [= <- _]. by eexists.
  - destruct (eval n _ (node x) s) as [[w s1|]|]; simpl; [|done..]. intros [= <- _]. by eexists.
  - destruct (eval n _ (node x) s) as [[w s1|]|]; simpl; [|done..]. destruct (eval n _ (node y) s1) as [[u s2|]|]; simpl; [|done..]. apply Hop.
  - destruct (eval n _ (node x) s) as [[w s1|]|]; simpl; [|done..]. destruct (eval n _ (node y) s1) as [[u s2|]|]; simpl; [|done..]. apply Hop.
  - destruct (eval n _ (node x) s) as [[w s1|]|]; simpl; [|done..]. destruct (eval n _ (node y) s1) as [[u s2|]|]; simpl; [|done..].
    unfold at_span. destruct (v_compare w u (st_heap s2)) as [[c|e'|f] h]; simpl; intros [= <- _]. by eexists.
Qed.

(** ** What is not evaluated *)

Lemma out_drop {A B} k (R : list (item V) → A → B → Prop) P o (f : V → St V H → option (out A)) m s s' :
  runs_to P o s → st_sim k s s' →
  (∀ v h, P v h → st_sim k (mkSt (st_locals s) h) s' → out_sim k R (f v (mkSt (st_locals s) h)) m) →
  out_sim k R (obind o f) m.
Proof.
  intros (v & h & -> & Hd & HP) [Hh Hl] Hf. apply Hf; [done|]. split; [by apply Hd|done].
Qed.
(** Code that evaluates [x] for its truth may use a constant instead. *)
Lemma truth_eval e sp s b : runs e (truth_of b) → ∃ h, truth n (mkSpanned sp e) s = ret b (mkSt (st_locals s) h) ∧ drops (st_heap s) h.
Proof. intros He. destruct (He sp s) as (v & h & Hv & Hd & Hb). exists h. unfold truth. simpl. rewrite Hv. simpl. by rewrite Hb. Qed.
Lemma tsim_const sp sp' e b : runs e (truth_of b) → tsim n (mkSpanned sp e) (mkSpanned sp' (Value (new_bool b))).
Proof.
  intros He k k' s s' Hk [Hh Hl]. destruct (truth_eval e sp s b He) as (h & -> & Hd). unfold truth. simpl.
  apply out_ret; [|by unfold same; rewrite to_bool_new_bool]. split; [by apply Hd|done].
Qed.
End pure.

(** Operations that are folded: the expression that the optimiser makes of the value that an operation gave comes to
    a value that corresponds to the one that the operation gives when the program runs. *)

Section fold.
Context `{W : World V H E TC D KM MB} {WO : WorldOk V H E TC D KM MB} {AL : Alike V H E} {AO : AlikeOk V H E TC D KM MB}.
Context {OW : OptWorld V H E TC D MB} {ctx : OptCtx (V:=V) (H:=H)} {FO : FoldOk V H E TC D KM MB ctx}.
Context (n : nat).
Implicit Types (k : list (item V)) (s : St V H) (sp : Span).
Local Abbreviation out := (out V H E).
Local Abbreviation Node := (ExprCompiled V TC D).
Local Abbreviation Expr := (Spanned (ExprCompiled V TC D)).
Local Abbreviation plain := (plain (TC:=TC) (D:=D) (ctx:=ctx)).
Local Abbreviation evs := (λ (x : Expr) s, eval n (span x) (node x) s).

(** * Values that were just made *)

(** Evaluating [e] makes a copy of the value that [i] describes. *)
Definition makes (u : V) (i : item V) (e : Node) : Prop := ∀ sp k h s', alike (i :: k) h (st_heap s') →
  ∃ v h', eval n sp e s' = ret v (mkSt (st_locals s') h') ∧ alike (Pair u v :: k) h h'.
Definition copies (t : tree V) (e : Node) : Prop := plain e = true ∧ ∀ u, makes u (Fresh u t) e.
Lemma copies_const (t : tree V) c : is_frozen c = true →
  (∀ u k h h', alike (Fresh u t :: k) h h' → alike (Pair u c :: k) h h') → copies t (Value c).
Proof.
  intros Hc Hcopy. split; [done|]. intros u sp k h s' Hh. exists c, (st_heap s'). rewrite st_eta. split; [done|]. by apply Hcopy.
Qed.
Lemma copies_list ts xs us k h s' : Forall2 (λ t (x : Expr), copies t (node x)) ts xs → length us = length ts →
  alike (zip_with Fresh us ts ++ k) h (st_heap s') →
  ∃ vs h', eval_list evs xs s' = ret vs (mkSt (st_locals s') h') ∧ length vs = length us ∧
    alike (zip_with Pair us vs ++ k) h h'.
Proof.
  intros Hxs. revert us k s'. induction Hxs as [|t x ts xs Hx Hxs IH]; intros us k s' Hl Hh.
  { destruct us; [|done]. exists [], (st_heap s'). by rewrite st_eta. }
  destruct us as [|u us]; [done|]. injection Hl as Hl. simpl in *.
  destruct (proj2 Hx u (span x) _ _ _ Hh) as (v & h1 & -> & Hh1). simpl.
  destruct (IH us (Pair u v :: k) (mkSt (st_locals s') h1) Hl) as (vs & h2 & -> & Hlen & Hh2).
  { simpl. eapply alike_weaken; [|exact Hh1]. by rewrite (Permutation_middle (zip_with Fresh us ts)). }
  exists (v :: vs), h2. simpl. split_and!; [done|by rewrite Hlen|]. eapply alike_weaken; [|exact Hh2].
  by rewrite (Permutation_middle (zip_with Pair us vs)).
Qed.
Lemma zip_pairs us vs k : length vs = length us → lsim (zip_with Pair us vs ++ k) us vs.
Proof.
  revert vs k. induction us as [|u us IH]; intros [|v vs] k Hl; try done; constructor.
  - by left.
  - injection Hl as Hl. eapply lsim_mono; [|by apply (IH vs k)]. by apply submseteq_cons.
Qed.
Lemma sub_app_r k k' : k ⊆+ k' ++ k.
Proof. by apply submseteq_inserts_l. Qed.
(** A list or a tuple, from its elements. *)
Lemma copies_items b v ts xs (e : Node) :
  is_list v || is_tuple v = true → negb (is_list v) = b → Forall2 (λ t (x : Expr), copies t (node x)) ts xs → plain e = true →
  (∀ u us vs k h sp s s', eval_list evs xs s = ret vs s' → st_locals s' = st_locals s →
     lsim k us vs → alike (Shell b u us :: k) h (st_heap s') →
     ∃ w h', eval n sp e s = ret w (mkSt (st_locals s) h') ∧ alike (Pair u w :: k) h h') →
  copies (Tree v ts) e.
Proof.
  intros Hv Hb Hxs Hp He. split; [done|]. intros u sp k h s' Hh.
  destruct (fresh_items (ctx:=ctx) u v ts k h _ Hv Hh) as (us & Hl & Hh1). rewrite Hb in Hh1.
  destruct (copies_list ts xs us _ h s' Hxs Hl Hh1) as (vs & h' & Heval & Hlen & Hh2).
  destruct (He u us vs (zip_with Pair us vs ++ k) h sp s' _ Heval) as (w & h2 & Hw & Hh3); [done|by apply zip_pairs| |].
  { eapply alike_weaken; [|exact Hh2]. by rewrite Permutation_middle. }
  exists w, h2. split; [done|]. eapply alike_weaken; [|exact Hh3]. apply submseteq_skip, sub_app_r.
Qed.
Lemma eval_values (xs : list Expr) vs s : mapM (λ x : Expr, as_value (node x)) xs = Some vs → eval_list evs xs s = ret vs s.
Proof.
  revert vs. induction xs as [|[sp x] xs IH]; intros vs Hvs; simpl in *; [by injection Hvs as <-|].
  apply bind_Some in Hvs as (v & Hv & Hvs). apply bind_Some in Hvs as (ws & Hws & [= <-]).
  destruct x; try done. injection Hv as <-. simpl. by rewrite (IH ws).
Qed.
Lemma plain_values (xs : list Expr) vs : mapM (λ x : Expr, as_value (node x)) xs = Some vs →
  forallb (λ x, plain (node x)) xs = true → Forall (λ v, is_frozen v = true) vs.
Proof.
  revert vs. induction xs as [|[sp x] xs IH]; intros vs Hvs; simpl in *; [by injection Hvs as <-|].
  apply bind_Some in Hvs as (v & Hv & Hvs). apply bind_Some in Hvs as (ws & Hws & [= <-]). intros [Hx Hxs]%andb_true_iff.
  destruct x; try done. injection Hv as <-. constructor; [done|by apply IH].
Qed.
Lemma plain_tuple (xs : list Expr) : forallb (λ x, plain (node x)) xs = true → plain (tuple xs) = true.
Proof.
  unfold tuple. intros Hxs. destruct (mapM _ xs) as [vs|] eqn:Hvs; [|done].
  simpl. apply (frozen_frozen_tuple (ctx:=ctx)). by eapply plain_values.
Qed.
Lemma copies_tree sp (t : tree V) : ∀ e, try_value sp t = Some e → copies t e.
Proof.
  revert t. fix IH 1. intros [v items] e. simpl.
  set (xs := mapM (λ t, mkSpanned sp <$> try_value sp t) items).
  assert (∀ l, xs = Some l → Forall2 (λ t (x : Expr), copies t (node x)) items l) as Hitems.
  { subst xs. clear e. induction items as [|t items IHitems]; intros l Hl; simpl in Hl; [by injection Hl as <-|].
    apply bind_Some in Hl as (x & Hx & Hl). apply bind_Some in Hl as (l' & Hl' & [= <-]).
    constructor; [|by apply IHitems]. destruct (try_value sp t) as [e|] eqn:He; [|done]. injection Hx as <-. by apply IH. }
  clearbody xs. clear IH.
  destruct (is_frozen v) eqn:Hv.
  { intros [= <-]. apply copies_const; [done|]. intros u k h h'. by apply (fresh_frozen (ctx:=ctx)). }
  destruct (unpack_str v) as [t|] eqn:Hstr.
  { destruct (_ <=? _); [|done]. intros [= <-]. apply copies_const; [apply (frozen_frozen_str (ctx:=ctx))|].
    intros u k h h'. by apply (fresh_str (ctx:=ctx)). }
  destruct (copy_float v) as [c|] eqn:Hfl.
  { intros [= <-]. apply copies_const; [by eapply (frozen_copy_float (ctx:=ctx))|]. intros u k h h'. by apply (fresh_float (ctx:=ctx)). }
  destruct (copy_range v) as [c|] eqn:Hra.
  { intros [= <-]. apply copies_const; [by eapply (frozen_copy_range (ctx:=ctx))|]. intros u k h h'. by apply (fresh_range (ctx:=ctx)). }
  assert (∀ l, xs = Some l → forallb (λ x, plain (node x)) l = true) as Hplain.
  { intros l Hl. apply Hitems in Hl. clear -Hl. induction Hl as [|t x ts l Hx Hl IH]; [done|]. simpl. by rewrite (proj1 Hx), IH. }
  destruct (is_list v) eqn:Hlist.
  - intros (l & Hl & ->)%fmap_Some. eapply (copies_items false); [by rewrite Hlist|by rewrite Hlist|by apply Hitems|by apply Hplain|].
    intros u us vs k h sp' s s' Heval Hloc Hvs Hh. simpl. rewrite Heval. simpl. rewrite with_heap_eq, Hloc.
    eexists _, _. split; [done|]. by eapply (shell_list (ctx:=ctx)).
  - destruct (is_tuple v) eqn:Htuple; [|done]. intros (l & Hl & ->)%fmap_Some.
    eapply (copies_items true); [by rewrite Hlist, Htuple|by rewrite Hlist|by apply Hitems|by apply plain_tuple, Hplain|].
    intros u us vs k h sp' s s' Heval Hloc Hvs Hh. unfold tuple.
    destruct (mapM (λ x, as_value (node x)) l) as [ws|] eqn:Hws.
    + rewrite (eval_values _ _ s Hws) in Heval. injection Heval as -> <-. exists (frozen_tuple vs), (st_heap s). rewrite st_eta.
      split; [done|]. eapply (shell_const (ctx:=ctx)); [done| |done]. eapply plain_values; [done|by apply Hplain].
    + simpl. rewrite Heval. simpl. rewrite with_heap_eq, Hloc. eexists _, _. split; [done|]. by eapply (shell_tuple (ctx:=ctx)).
Qed.

(** * Folded operations *)

Definition stands_for (o : Op H E V) (e : Node) : Prop :=
  plain e = true ∧ ∀ k sp sp' s s', st_sim k s s' → out_sim k vsim (at_span sp o s) (eval n sp' e s').
Lemma st_cons k s s' h h' a b : st_sim k s s' → alike (Pair a b :: k) h h' →
  out_sim (E:=E) k vsim (ret a (mkSt (st_locals s) h)) (ret b (mkSt (st_locals s') h')).
Proof.
  intros [_ Hl] Hh. exists (Pair a b :: k). split_and!; [apply sub_cons| |constructor].
  split; [done|]. eapply locals_mono; [apply sub_cons|done].
Qed.
Lemma fold_stands sp (o : Op H E V) e : pure ctx o → fold_value ctx sp o = Some e → stands_for o e.
Proof.
  intros Ho He. unfold fold_value in He. apply bind_Some in He as ([v hc] & Hrun & He).
  destruct (copies_tree sp _ e He) as [Hp Hcopy]. split; [done|]. intros k sp1 sp2 s s' Hs.
  destruct (Ho v hc k _ _ Hrun (proj1 Hs)) as (u & h1 & Hu & Hh1).
  destruct (Hcopy u sp2 k h1 s' Hh1) as (w & h2 & -> & Hh2). unfold at_span. rewrite Hu. by apply st_cons.
Qed.
Lemma str_stands (o : Op H E V) e : pure_text ctx o → fold_str ctx o = Some e → stands_for o e.
Proof.
  intros Ho He. unfold fold_str in He. apply bind_Some in He as ([v hc] & Hrun & He).
  apply fmap_Some in He as (w & Hw & ->). apply fmap_Some in Hw as (t & Ht & ->).
  split; [apply (frozen_frozen_str (ctx:=ctx))|]. intros k sp1 sp2 s s' Hs.
  destruct (Ho v hc t k _ _ Hrun Ht (proj1 Hs)) as (u & h1 & Hu & Hh1). unfold at_span. rewrite Hu. simpl.
  rewrite <- (st_eta s') at 1. by apply st_cons.
Qed.
Lemma gives_stands (o : Op H E V) w : is_frozen w = true → (∀ k, gives_value (E:=E) k o w) → stands_for o (Value w).
Proof.
  intros Hw Ho. split; [done|]. intros k sp1 sp2 s s' Hs. destruct (Ho k _ _ (proj1 Hs)) as (u & h1 & Hu & Hh1).
  unfold at_span. rewrite Hu. simpl. rewrite <- (st_eta s') at 1. by apply st_cons.
Qed.
End fold.

(** The constructors of the optimiser: each makes plain code of plain parts, and what it makes may stand for the
    expression that it was asked for. *)

Section con.
Context `{W : World V H E TC D KM MB} {WO : WorldOk V H E TC D KM MB} {AL : Alike V H E} {AO : AlikeOk V H E TC D KM MB}.
Context {OW : OptWorld V H E TC D MB} {ctx : OptCtx (V:=V) (H:=H)} {FO : FoldOk V H E TC D KM MB ctx}.
Context (n : nat).
Implicit Types (k : list (item V)) (s : St V H) (sp : Span).
Local Abbreviation out := (out V H E).
Local Abbreviation Node := (ExprCompiled V TC D).
Local Abbreviation Expr := (Spanned (ExprCompiled V TC D)).
Local Abbreviation plain := (plain (TC:=TC) (D:=D) (ctx:=ctx)).
Local Abbreviation evs := (λ (x : Expr) s, eval n (span x) (node x) s).
Implicit Types x y z l r : Expr.
Local Abbreviation esim := (esim n).
Local Abbreviation tsim := (tsim n).
Local Abbreviation truth := (truth n).

(** [y] is plain and may stand for [x]. *)
Definition good x y : Prop := plain (node y) = true ∧ esim x y.
Lemma good_self x : plain (node x) = true → good x x.
Proof. intros Hx. split; [done|by apply (self_plain (ctx:=ctx))]. Qed.
Lemma good_respan e sp sp' : plain e = true → good (mkSpanned sp e) (mkSpanned sp' e).
Proof. intros Hx. split; [done|by apply (self_respan (ctx:=ctx))]. Qed.
Lemma good_trans x y z : esim x y → good y z → good x z.
Proof. intros Hxy [Hz Hyz]. split; [done|by eapply esim_trans]. Qed.
Lemma as_value_node x v : as_value (node x) = Some v → node x = Value v.
Proof. destruct (node x); simpl; intros; by simplify_eq. Qed.
Lemma const_eval x v s : node x = Value v → eval n (span x) (node x) s = ret v s.
Proof. by intros ->. Qed.
Lemma const_frozen x v : node x = Value v → plain (node x) = true → is_frozen v = true.
Proof. by intros ->. Qed.

(** * Operations on constants *)

Lemma good_fold1 sp sp' op x v e : node x = Value v → stands_for (ctx:=ctx) n (builtin1 op v) e →
  good (mkSpanned sp (ExprBuiltin1 op x)) (mkSpanned sp' e).
Proof.
  intros Hx [Hp He]. split; [done|]. intros k k' s s' Hk Hs. simpl. rewrite (const_eval x v) by done. by apply He.
Qed.
Lemma good_fold2 sp sp' op x y v w e : node x = Value v → node y = Value w →
  stands_for (ctx:=ctx) n (Builtin2_eval op v w) e → good (mkSpanned sp (ExprBuiltin2 op x y)) (mkSpanned sp' e).
Proof.
  intros Hx Hy [Hp He]. split; [done|]. intros k k' s s' Hk Hs. simpl. rewrite (const_eval x v) by done. simpl.
  rewrite (const_eval y w) by done. by apply He.
Qed.
Lemma builtin_const x v : as_builtin_value (node x) = Some v → node x = Value v ∧ is_builtin v = true.
Proof. destruct (node x) as [w| | | | | | | | | | | | | | | |]; simpl; try done. destruct (is_builtin w) eqn:Hw; [|done]. by intros [= <-]. Qed.

(** * Truth *)

Lemma truth_logical sp op x y s : truth (mkSpanned sp (LogicalBinOp op x y)) s =
  (do b, s <~ truth x s; if Bool.eqb b (bool_decide (op = And)) then truth y s else ret b s).
Proof.
  unfold IrCompat.truth. simpl. destruct (eval n (span x) (node x) s) as [[v s1|]|]; simpl; [|done..].
  by destruct (Bool.eqb _ _).
Qed.
Lemma truth_not sp x s : truth (mkSpanned sp (ExprBuiltin1 Not x)) s = (do b, s <~ truth x s; ret (negb b) s).
Proof.
  unfold IrCompat.truth. simpl. destruct (eval n (span x) (node x) s) as [[v s1|]|]; simpl; [|done..].
  unfold at_span. simpl. rewrite to_bool_new_bool. by rewrite st_eta.
Qed.
Lemma truth_seq sp x y s : truth (mkSpanned sp (Seq x y)) s = (do _v, s <~ eval n (span x) (node x) s; truth y s).
Proof. unfold IrCompat.truth. simpl. by destruct (eval n (span x) (node x) s) as [[v s1|]|]. Qed.
Lemma truth_const sp b s : truth (mkSpanned sp (Value (new_bool b))) s = ret b s.
Proof. unfold IrCompat.truth. simpl. by rewrite to_bool_new_bool. Qed.
Lemma tsim_eq x y z : (∀ s, truth y s = truth x s) → tsim y z → tsim x z.
Proof. intros Heq Hyz k k' s s' Hk Hs. rewrite <- Heq. by apply tsim_at. Qed.
Lemma tsim_plain x : plain (node x) = true → tsim x x.
Proof. intros Hx. by apply esim_tsim, (self_plain (ctx:=ctx)). Qed.
Lemma tsim_not sp sp' x y : tsim x y → tsim (mkSpanned sp (ExprBuiltin1 Not x)) (mkSpanned sp' (ExprBuiltin1 Not y)).
Proof.
  intros Hxy k k' s s' Hk Hs. rewrite !truth_not. eapply out_bind; [by apply tsim_at|].
  intros k1 b b' s1 s1' Hk1 Hs1 <-. by apply out_ret.
Qed.
Lemma tsim_logical sp sp' op x x' y y' : tsim x x' → tsim y y' →
  tsim (mkSpanned sp (LogicalBinOp op x y)) (mkSpanned sp' (LogicalBinOp op x' y')).
Proof.
  intros Hx Hy k k' s s' Hk Hs. rewrite !truth_logical. eapply out_bind; [by apply tsim_at|].
  intros k1 b b' s1 s1' Hk1 Hs1 <-. destruct (Bool.eqb _ _); [by apply tsim_at|by apply out_ret].
Qed.

(** ** Sequences *)

Lemma good_seq sp l r : plain (node l) = true → plain (node r) = true → good (mkSpanned sp (Seq l r)) (seq l r).
Proof.
  intros Hl Hr. unfold seq. destruct (is_pure_infallible (node l)) eqn:Hp; [|apply good_respan; simpl; by rewrite Hl, Hr].
  split; [done|]. intros k k' s s' Hk Hs. simpl. eapply out_drop; [by apply (pure_runs (ctx:=ctx))|done|].
  intros v h _ Hs'. apply esim_at; [by apply (self_plain (ctx:=ctx))|done].
Qed.
Lemma good_logical sp op l r : plain (node l) = true → plain (node r) = true →
  good (mkSpanned sp (LogicalBinOp op l r)) (logical_bin_op ctx op l r).
Proof.
  intros Hl Hr. unfold logical_bin_op. destruct (is_pure_infallible_to_bool ctx (node l)) as [b|] eqn:Hb;
    [|apply good_respan; simpl; by rewrite Hl, Hr].
  destruct (Bool.eqb b (bool_decide (op = Or))) eqn:Hop.
  - split; [done|]. intros k k' s s' Hk Hs. simpl. pose proof (truth_runs n (node l) b Hb Hl (span l) s) as Hrun.
    assert (Bool.eqb b (bool_decide (op = And)) = false) as Hand by by destruct b, op.
    destruct Hrun as (v & h & Hv & Hd & Ht). rewrite Hv. unfold truth_of in Ht. simpl. rewrite Ht, Hand.
    rewrite <- Hv. apply esim_at; [by apply (self_plain (ctx:=ctx))|done].
  - split; [done|]. intros k k' s s' Hk Hs. simpl. eapply out_drop; [by apply truth_runs|done|].
    intros v h Ht Hs'. unfold truth_of in Ht. simpl. rewrite Ht.
    assert (Bool.eqb b (bool_decide (op = And)) = true) as -> by by destruct b, op.
    apply esim_at; [by apply (self_plain (ctx:=ctx))|done].
Qed.
Lemma good_not sp x : plain (node x) = true → good (mkSpanned sp (ExprBuiltin1 Not x)) (not_ ctx sp x).
Proof.
  intros Hx. unfold not_. destruct (node x) as [v| | | | | | | | | |[] y| | | | | |] eqn:Hn;
    try (apply good_respan; simpl; by rewrite Hn).
  - split; [apply (frozen_new_bool (ctx:=ctx))|]. intros k k' s s' Hk Hs. simpl. rewrite Hn. simpl.
    unfold at_span. simpl. rewrite st_eta. rewrite (frozen_to_bool (ctx:=ctx) v (st_heap s) (ctx_heap ctx)) by done.
    apply (out_const (ctx:=ctx)); [apply (frozen_new_bool (ctx:=ctx))|done].
  - destruct (is_definitely_bool (node y)) eqn:Hy; [|apply good_respan; simpl; by rewrite Hn].
    simpl in Hx. split; [done|]. intros k k' s s' Hk Hs. simpl. rewrite Hn. simpl.
    pose proof (esim_at n y y k' s s' (self_plain (ctx:=ctx) n y Hx) Hs) as Hyy.
    destruct (eval n (span y) (node y) s) as [[v s1|o]|] eqn:Hv; simpl; [|done..].
    apply (definitely_bool (ctx:=ctx)) in Hv as [b ->]; [|done]. unfold at_span. simpl.
    rewrite !to_bool_new_bool, negb_involutive. destruct s1. exact Hyy.
Qed.
Lemma good_type_is sp x t : plain (node x) = true → good (mkSpanned sp (ExprBuiltin1 (TypeIs t) x)) (mkSpanned sp (type_is x t)).
Proof.
  intros Hx. unfold type_is. destruct (as_value (node x)) as [v|] eqn:Hv; [|by apply good_respan].
  eapply good_fold1; [by apply as_value_node|]. split; [apply (frozen_new_bool (ctx:=ctx))|].
  intros k sp1 sp2 s s' Hs. simpl. rewrite at_span_done. rewrite (get_type_ok (ctx:=ctx)).
  apply (out_const (ctx:=ctx)); [apply (frozen_new_bool (ctx:=ctx))|done].
Qed.

(** ** [ExprCompiledBool] *)

Definition good_bool x y : Prop := plain (node y) = true ∧ tsim x y.
Lemma into_const (b : Spanned (ExprCompiledBool (V:=V) (TC:=TC) (D:=D))) v :
  const_value (node b) = Some v → into_expr b = mkSpanned (span b) (Value (new_bool v)).
Proof. destruct b as [sp [c|e]]; simpl; [by intros [= ->]|done]. Qed.
Lemma bind_ret {A} (m : option (out A)) : obind m (λ a s, ret a s) = m.
Proof. by destruct m as [[]|]. Qed.
Lemma truth_and sp x y s b : (∀ s, truth y s = ret b s) →
  truth (mkSpanned sp (LogicalBinOp And x y)) s = (do a, s <~ truth x s; ret (a && b) s).
Proof. intros Hy. rewrite truth_logical. apply bind_ext. intros [] s1; simpl; [by rewrite Hy|done]. Qed.
Lemma truth_or sp x y s b : (∀ s, truth y s = ret b s) →
  truth (mkSpanned sp (LogicalBinOp Or x y)) s = (do a, s <~ truth x s; ret (a || b) s).
Proof. intros Hy. rewrite truth_logical. apply bind_ext. intros [] s1; simpl; [done|by rewrite Hy]. Qed.
Lemma truth_seq_const sp x y s b : (∀ s, truth y s = ret b s) →
  truth (mkSpanned sp (Seq x y)) s = (do _a, s <~ truth x s; ret b s).
Proof.
  intros Hy. rewrite truth_seq. unfold IrCompat.truth at 2. simpl.
  destruct (eval n (span x) (node x) s) as [[v s1|]|]; simpl; [by rewrite Hy|done..].
Qed.
Lemma good_bool_logical sp spx spy op x y ex ey (b : Spanned (ExprCompiledBool (V:=V) (TC:=TC) (D:=D))) :
  let bx := bool_new ctx (span x) (node x) in
  let by_ := bool_new ctx (span y) (node y) in
  ex = into_expr bx → ey = into_expr by_ → good_bool x ex → good_bool y ey →
  b = (match op, const_value (node bx), const_value (node by_) with
      | And, Some false, _ => mkSpanned spx (Const false)
      | Or, Some true, _ => mkSpanned spx (Const true)
      | And, Some true, _ | Or, Some false, _ => by_
      | And, None, Some true | Or, None, Some false => bx
      | And, None, Some false =>
        mkSpanned spy (BoolExpr (node (seq (into_expr bx) (into_expr (mkSpanned (span by_) (Const false))))))
      | Or, None, Some true =>
        mkSpanned spy (BoolExpr (node (seq (into_expr bx) (into_expr (mkSpanned (span by_) (Const true))))))
      | _, None, None => mkSpanned spy (BoolExpr (LogicalBinOp op (into_expr bx) (into_expr by_)))
      end) → good_bool (mkSpanned sp (LogicalBinOp op x y)) (into_expr b).
Proof.
  intros bx by_ -> -> [Hpx Hx] [Hpy Hy] ->. clearbody bx by_.
  assert (tsim (mkSpanned sp (LogicalBinOp op x y)) (mkSpanned sp (LogicalBinOp op (into_expr bx) (into_expr by_)))) as Hxy
    by by apply tsim_logical.
  enough (∀ b, good_bool (mkSpanned sp (LogicalBinOp op (into_expr bx) (into_expr by_))) b → good_bool (mkSpanned sp (LogicalBinOp op x y)) b) as Htrans.
  { apply Htrans. clear Hxy Htrans.
    assert (∀ v, const_value (node by_) = Some v → ∀ s, truth (into_expr by_) s = ret v s) as Hcy.
    { intros v Hv s. rewrite (into_const _ v Hv). apply truth_const. }
    assert (∀ v, const_value (node bx) = Some v → ∀ s, truth (into_expr bx) s = ret v s) as Hcx.
    { intros v Hv s. rewrite (into_const _ v Hv). apply truth_const. }
    assert (∀ spb v, plain (node (into_expr (mkSpanned spb (Const v)))) = true) as Hpc by (intros; apply (frozen_new_bool (ctx:=ctx))).
    assert (∀ w, plain (node w) = true → (∀ s, truth w s = truth (mkSpanned sp (LogicalBinOp op (into_expr bx) (into_expr by_))) s) →
      good_bool (mkSpanned sp (LogicalBinOp op (into_expr bx) (into_expr by_))) w) as Heq.
    { intros w Hw Hs. split; [done|]. apply (tsim_eq _ w); [done|by apply tsim_plain]. }
    assert (∀ v, (∀ s, truth (mkSpanned sp (LogicalBinOp op (into_expr bx) (into_expr by_))) s = (do _a, s <~ truth (into_expr bx) s; ret v s)) →
      good_bool (mkSpanned sp (LogicalBinOp op (into_expr bx) (into_expr by_)))
        (into_expr (mkSpanned spy (BoolExpr (node (seq (into_expr bx) (into_expr (mkSpanned (span by_) (Const v))))))))) as Hseq.
    { intros v Hv. destruct (good_seq sp (into_expr bx) (into_expr (mkSpanned (span by_) (Const v)))) as [Hp Hs]; [done|apply Hpc|].
      split; [done|]. eapply tsim_trans; [|by apply esim_tsim, (self_respan (ctx:=ctx))]. eapply tsim_trans; [|apply esim_tsim, Hs].
      apply (tsim_eq _ (mkSpanned sp (Seq (into_expr bx) (into_expr (mkSpanned (span by_) (Const v)))))).
      - intros s. rewrite Hv. apply truth_seq_const. intros s'. apply truth_const.
      - apply tsim_plain. change (plain (node (into_expr bx)) && is_frozen (new_bool v) = true). by rewrite Hpx, (frozen_new_bool (ctx:=ctx)). }
    assert (good_bool (mkSpanned sp (LogicalBinOp op (into_expr bx) (into_expr by_)))
      (mkSpanned spy (LogicalBinOp op (into_expr bx) (into_expr by_)))) as Hsame.
    { assert (plain (LogicalBinOp op (into_expr bx) (into_expr by_)) = true) as Hp by (change (plain (node (into_expr bx)) && plain (node (into_expr by_)) = true); by rewrite Hpx, Hpy).
      split; [done|]. by apply esim_tsim, (self_respan (ctx:=ctx)). }
    destruct (const_value (node bx)) as [a|] eqn:Hbx.
    { assert (∀ s, truth (mkSpanned sp (LogicalBinOp op (into_expr bx) (into_expr by_))) s =
        if Bool.eqb a (bool_decide (op = And)) then truth (into_expr by_) s else ret a s) as Hl.
      { intros s. by rewrite truth_logical, (Hcx a). }
      destruct op, a; (apply Heq; [first [done|apply Hpc]|intros s; rewrite Hl; first [done|apply truth_const]]). }
    destruct (const_value (node by_)) as [b|] eqn:Hby; [|by destruct op].
    destruct op, b.
    - apply Heq; [done|]. intros s. rewrite (truth_and sp _ _ s true) by auto. rewrite <- (bind_ret (truth (into_expr bx) s)) at 1.
      apply bind_ext. intros a s'. by rewrite andb_true_r.
    - apply Hseq. intros s. rewrite (truth_and sp _ _ s false) by auto. apply bind_ext. intros a s'. by rewrite andb_false_r.
    - apply Hseq. intros s. rewrite (truth_or sp _ _ s true) by auto. apply bind_ext. intros a s'. by rewrite orb_true_r.
    - apply Heq; [done|]. intros s. rewrite (truth_or sp _ _ s false) by auto. rewrite <- (bind_ret (truth (into_expr bx) s)) at 1.
      apply bind_ext. intros a s'. by rewrite orb_false_r. }
  intros b [Hp Hb]. split; [done|]. by eapply tsim_trans.
Qed.
Lemma bool_new_good e : plain e = true → ∀ sp sp', good_bool (mkSpanned sp e) (into_expr (bool_new ctx sp' e)).
Proof.
  refine (proj1 (ir_induction (λ e, plain e = true → ∀ sp sp', good_bool (mkSpanned sp e) (into_expr (bool_new ctx sp' e)))
    (λ _, True) (λ _, True) (λ _, True) _) e). clear e.
  assert (∀ e sp sp' b, plain e = true → is_pure_infallible_to_bool ctx e = Some b →
    good_bool (mkSpanned sp e) (into_expr (mkSpanned sp' (Const b)))) as Hconst.
  { intros e sp sp' b Hp Hb. split; [apply (frozen_new_bool (ctx:=ctx))|]. by apply tsim_const, (truth_runs (ctx:=ctx)). }
  assert (∀ e sp sp', plain e = true → good_bool (mkSpanned sp e) (into_expr (mkSpanned sp' (BoolExpr e)))) as Hsame.
  { intros e sp sp' Hp. split; [done|]. by apply esim_tsim, (self_respan (ctx:=ctx)). }
  assert (∀ e, match e with ExprBuiltin1 Not _ | LogicalBinOp _ _ _ => False | _ => True end → plain e = true →
    ∀ sp sp', good_bool (mkSpanned sp e) (into_expr (bool_new ctx sp' e))) as Hsimple.
  { intros e He Hp sp sp'.
    assert (bool_new ctx sp' e = match is_pure_infallible_to_bool ctx e with
      Some b => mkSpanned sp' (Const b) | None => mkSpanned sp' (BoolExpr e) end) as -> by by destruct e as [| | | | | | | | | |[] x| | | | | |].
    destruct (is_pure_infallible_to_bool ctx e) eqn:Hb; [by apply Hconst|by apply Hsame]. }
  split; try done; try (intros; by apply Hsimple).
  - intros op x IH Hp sp sp'. destruct op; try (by apply Hsimple).
    destruct (is_pure_infallible_to_bool ctx (ExprBuiltin1 Not x)) as [b|] eqn:Hb.
    { replace (bool_new ctx sp' (ExprBuiltin1 Not x)) with (mkSpanned sp' (Const (V:=V) (TC:=TC) (D:=D) b)) by (cbn [bool_new]; by rewrite Hb).
      by apply Hconst. }
    cbn [bool_new]. rewrite Hb. destruct (IH Hp (span x) (span x)) as [Hpx Hx].
    assert (tsim (mkSpanned sp (ExprBuiltin1 Not x)) (mkSpanned sp' (ExprBuiltin1 Not (into_expr (bool_new ctx (span x) (node x)))))) as Hnot.
    { apply tsim_not. by destruct x. }
    destruct (const_value _) as [b|] eqn:Hc; [|split; [exact Hpx|exact Hnot]].
    split; [apply (frozen_new_bool (ctx:=ctx))|]. eapply tsim_trans; [exact Hnot|].
    apply (tsim_eq _ (mkSpanned sp' (Value (new_bool (negb b))))); [|apply tsim_plain, (frozen_new_bool (ctx:=ctx))]. intros s.
    by rewrite truth_const, truth_not, (into_const _ b Hc), truth_const.
  - intros op x y IHx IHy Hp sp sp'. simpl in Hp. apply andb_true_iff in Hp as [Hx Hy].
    destruct (is_pure_infallible_to_bool ctx (LogicalBinOp op x y)) as [b|] eqn:Hb.
    { replace (bool_new ctx sp' (LogicalBinOp op x y)) with (mkSpanned sp' (Const (V:=V) (TC:=TC) (D:=D) b)) by (cbn [bool_new]; by rewrite Hb).
      apply Hconst; [|done]. simpl. by rewrite Hx, Hy. }
    eapply good_bool_logical; [reflexivity..|specialize (IHx Hx (span x) (span x)); by destruct x
      |specialize (IHy Hy (span y) (span y)); by destruct y|].
    cbn [bool_new]. rewrite Hb. reflexivity.
Qed.
Lemma expr_truth_good x : plain (node x) = true → good_bool x (into_expr (expr_truth ctx x)).
Proof. intros Hx. pose proof (bool_new_good (node x) Hx (span x) (span x)) as Hb. by destruct x. Qed.
End con.
