(* ===== verification/OptCall.v ===== *)
(** The constructors of the optimiser for conditional expressions, operators, slices, calls and comprehensions. *)

From S2P Require Import Prelude Hashing TableMap FastString StrFormat Symbol CodeMap.
From S2P Require Import DefParams OrdMap ParamSpec Def Ir IrWf Inline World IrEval Optimize Alike IrSim IrCompat OptCon.

Section ops.
Context `{W : World V H E TC D KM MB} {WO : WorldOk V H E TC D KM MB} {AL : Alike V H E} {AO : AlikeOk V H E TC D KM MB}.
Context {OW : OptWorld V H E TC D MB} {ctx : OptCtx (V:=V) (H:=H)} {FO : FoldOk V H E TC D KM MB ctx}.
Context (n : nat).
Implicit Types (k : list (item V)) (s : St V H) (sp : Span).
Local Abbreviation out := (out V H E).
Local Abbreviation Node := (ExprCompiled V TC D).
Local Abbreviation Expr := (Spanned (ExprCompiled V TC D)).
Local Abbreviation plain := (plain (TC:=TC) (D:=D) (ctx:=ctx)).
Local Abbreviation evs := (λ (x : Expr) s, eval n (span x) (node x) s).
Implicit Types x y z l r t f : Expr.
Local Abbreviation esim := (esim n).
Local Abbreviation tsim := (tsim n).
Local Abbreviation truth := (truth n).
Local Abbreviation good := (good (ctx:=ctx) n).
Local Abbreviation stands_for := (stands_for (ctx:=ctx) n).

(** * Conditional expressions *)

Lemma if_truth sp x t f s : eval n sp (If_ x t f) s = (do b, s <~ truth x s; if b then evs t s else evs f s).
Proof. apply truth_if. Qed.
Lemma good_if_const sp spc b t f : plain (node t) = true → plain (node f) = true →
  good (mkSpanned sp (If_ (mkSpanned spc (Value (new_bool b))) t f)) (if b then t else f).
Proof.
  intros Ht Hf. split; [by destruct b|]. intros k k' s s' Hk Hs. simpl. rewrite to_bool_new_bool.
  destruct b; (apply esim_at; [by apply (self_plain (ctx:=ctx))|done]).
Qed.
Lemma if_not sp sp' spc x t f : plain (node x) = true → plain (node t) = true → plain (node f) = true →
  esim (mkSpanned sp (If_ (mkSpanned spc (ExprBuiltin1 Not x)) t f)) (mkSpanned sp' (If_ x f t)).
Proof.
  intros Hx Ht Hf k k' s s' Hk Hs. cbn [span node]. rewrite !if_truth, truth_not.
  pose proof (tsim_at n x x k' s s' (tsim_plain n x Hx) Hs) as Hxx.
  destruct (truth x s) as [[b s1|o]|], (truth x s') as [[b' s1'|o']|]; try done. destruct Hxx as (k1 & Hk1 & Hs1 & <-).
  eapply out_mono; [exact Hk1|]. destruct b; simpl; (apply esim_at; [by apply (self_plain (ctx:=ctx))|done]).
Qed.
Lemma if_seq sp sp' sp2 spc x y t f : plain (node x) = true → plain (node y) = true → plain (node t) = true → plain (node f) = true →
  esim (mkSpanned sp (If_ (mkSpanned spc (Seq x y)) t f)) (mkSpanned sp' (Seq x (mkSpanned sp2 (If_ y t f)))).
Proof.
  intros Hx Hy Ht Hf k k' s s' Hk Hs. simpl.
  pose proof (esim_at n x x k' s s' (self_plain (ctx:=ctx) n x Hx) Hs) as Hxx.
  destruct (eval n (span x) (node x) s) as [[v s1|o]|], (eval n (span x) (node x) s') as [[v' s1'|o']|]; try done.
  destruct Hxx as (k1 & Hk1 & Hs1 & _). eapply out_mono; [exact Hk1|]. simpl.
  apply (out_if n); [by apply tsim_plain|by apply (self_plain (ctx:=ctx))..|done].
Qed.
Lemma plain_if c t f : plain (node c) = true → plain (node t) = true → plain (node f) = true → plain (If_ c t f) = true.
Proof. simpl. by intros -> -> ->. Qed.
Lemma if_go_good m sp c t f : plain (node c) = true → plain (node t) = true → plain (node f) = true →
  good (mkSpanned sp (If_ c t f)) (if_expr_go ctx m c t f).
Proof.
  revert sp c t f. induction m as [|m IH]; intros sp c t f Hc Ht Hf; simpl;
    destruct (expr_truth_good (ctx:=ctx) n c Hc) as [Hpb Hb]; destruct (expr_truth ctx c) as [spb [[]|e]]; simpl in *.
  all: try (eapply (good_trans (ctx:=ctx)); [apply sim_if; [exact Hb|by apply (self_plain (ctx:=ctx))..]|];
    first [by apply (good_if_const sp spb true)|by apply (good_if_const sp spb false)]).
  all: assert (good (mkSpanned sp (If_ c t f)) (mkSpanned (merge (merge (span c) (span t)) (span f)) (If_ (mkSpanned (span c) e) t f))) as Hplain
    by (split; [by apply (plain_if (mkSpanned (span c) e))|];
        apply sim_if; [eapply (tsim_trans (ctx:=ctx)); [exact Hb|]; by apply esim_tsim, (self_respan (ctx:=ctx))|by apply (self_plain (ctx:=ctx))..]).
  { exact Hplain. }
  destruct e as [| | | | | | | | | |[] x| |x y| | | |]; try exact Hplain; simpl in Hpb.
  - eapply (good_trans (ctx:=ctx)); [apply Hplain|]. eapply (good_trans (ctx:=ctx)); [by apply if_not|]. by apply (IH sp).
  - apply andb_true_iff in Hpb as [Hx Hy]. eapply (good_trans (ctx:=ctx)); [apply Hplain|].
    eapply (good_trans (ctx:=ctx)); [by apply (if_seq _ sp sp)|]. destruct (IH sp y t f Hy Ht Hf) as [Hp Hif].
    eapply (good_trans (ctx:=ctx)); [apply (sim_seq n _ sp); [by apply (self_plain (ctx:=ctx))|exact Hif]|]. by apply good_seq.
Qed.
Lemma good_if sp c t f : plain (node c) = true → plain (node t) = true → plain (node f) = true →
  good (mkSpanned sp (If_ c t f)) (if_expr ctx c t f).
Proof. apply if_go_good. Qed.

(** * Operators *)

Lemma plain2 op l r : plain (node l) = true → plain (node r) = true → plain (ExprBuiltin2 op l r) = true.
Proof. simpl. by intros -> ->. Qed.
Lemma equals_stands a b (r : bool) hc : is_frozen a = true → is_frozen b = true → v_equals a b (ctx_heap ctx) = (Ok r, hc) →
  stands_for (Builtin2_eval Equals a b) (Value (new_bool r)).
Proof.
  intros Ha Hb Hr. split; [apply (frozen_new_bool (ctx:=ctx))|]. intros k sp sp' s s' [Hh Hl]. simpl.
  destruct (fold_equals (ctx:=ctx) a b r hc k _ _ Ha Hb Hr Hh) as (h1 & He & Hh1). unfold at_span, op_bool. rewrite He. simpl.
  rewrite <- (st_eta s'). apply (out_const (ctx:=ctx)); [apply (frozen_new_bool (ctx:=ctx))|done].
Qed.
(** [type(x) == "t"]. *)
Lemma as_type_call l x : as_type (node l) = Some x → plain (node l) = true → plain (node x) = true ∧
  ∀ s, eval n (span l) (node l) s = (do v, s <~ evs x s; ret (frozen_str (get_type_value v)) s).
Proof.
  unfold as_type, with_type. destruct (node l) as [| | | | | | | | | | | | | | |[csp c]|]; try done. simpl.
  destruct (with_fn_cases is_fn_type c) as [(f & y & Hc & Hx)|Hn]; [|by rewrite Hn]. rewrite Hx. intros [= ->] Hp.
  assert (ca_pos_named (call_args c) = [x]) as Hpos by by rewrite Hc. rewrite Hpos in Hp. simpl in Hp. bool_to_prop.
  split; [done|]. intros s. change (eval_call evs csp c s = (do v, s <~ evs x s; ret (frozen_str (get_type_value v)) s)).
  rewrite call_invoke, Hc, invoke_one. apply bind_ext. intros v s1. erewrite at_span_eq; [by rewrite at_span_done|].
  apply (call_type (ctx:=ctx)). rewrite Hc in Hx. by eapply fn_holds.
Qed.
Lemma type_is_eval x (ty : list byte) sp s : eval n sp (ExprBuiltin1 (TypeIs ty) x) s = (do v, s <~ evs x s; ret (new_bool (bool_decide (get_type_value v = ty))) s).
Proof. simpl. apply bind_ext. intros v s1. apply at_span_done. Qed.
Lemma type_equals (t : list byte) v w s sp : as_frozen_str w = Some t →
  at_span sp (Builtin2_eval Equals (frozen_str (get_type_value v)) w) s = ret (new_bool (bool_decide (get_type_value v = t))) s.
Proof.
  intros Hw. unfold at_span. simpl. unfold op_bool. rewrite (equals_str _ _ t) by done. rewrite (frozen_str_ok (ctx:=ctx)). simpl.
  rewrite st_eta. f_equal. f_equal. apply bool_decide_ext. split; [by intros [= ->]|by intros ->].
Qed.
Lemma string_const x (t : list byte) : as_string (node x) = Some t → ∃ w, node x = Value w ∧ as_frozen_str w = Some t.
Proof. unfold as_string. intros (w & Hw & Ht)%bind_Some. exists w. split; [by apply as_value_node|done]. Qed.
Lemma type_is_good sp l r e : try_eval_type_is l r = Some e → plain (node l) = true → plain (node r) = true →
  good (mkSpanned sp (ExprBuiltin2 Equals l r)) e ∧ good (mkSpanned sp (ExprBuiltin2 Equals r l)) e.
Proof.
  unfold try_eval_type_is. intros (x & Hx & He)%bind_Some. apply bind_Some in He as (t & Ht & [= <-]). intros Hl Hr.
  destruct (as_type_call l x Hx Hl) as [Hpx Heval]. destruct (string_const r t Ht) as (w & Hw & Hwt).
  set (e0 := mkSpanned sp (ExprBuiltin1 (TypeIs t) x)). assert (plain (node e0) = true) as Hp0 by done.
  assert (∀ s, eval n sp (ExprBuiltin2 Equals l r) s = eval n sp (node e0) s) as Hlr.
  { intros s. unfold e0. cbn [node]. rewrite type_is_eval. simpl. rewrite Heval. destruct (eval n (span x) (node x) s) as [[v s1|]|]; simpl; [|done..].
    rewrite (const_eval n r w) by done. simpl. by apply type_equals. }
  assert (∀ s, eval n sp (ExprBuiltin2 Equals r l) s = eval n sp (node e0) s) as Hrl.
  { intros s. unfold e0. cbn [node]. rewrite type_is_eval. simpl. rewrite (const_eval n r w) by done. simpl. rewrite Heval.
    destruct (eval n (span x) (node x) s) as [[v s1|]|]; simpl; [|done..].
    rewrite <- (type_equals t v w s1 sp) by done. apply at_span_eq. simpl. unfold op_bool. by rewrite (equals_sym w). }
  assert (∀ e : Node, (∀ s, eval n sp e s = eval n sp (node e0) s) → esim (mkSpanned sp e) e0) as Heq.
  { intros e He k k2 s s2 Hk Hs. cbn [span node]. rewrite He. apply (esim_at n e0 e0); [by apply (self_plain (ctx:=ctx))|done]. }
  split; (eapply (good_trans (ctx:=ctx)); [by apply Heq|]); destruct (good_type_is (ctx:=ctx) n sp x t Hpx) as [Hp Hs];
    (split; [done|]); (eapply (esim_trans (ctx:=ctx)); [exact Hs|]); by apply (self_respan (ctx:=ctx)).
Qed.
Lemma good_equals sp l r : plain (node l) = true → plain (node r) = true →
  good (mkSpanned sp (ExprBuiltin2 Equals l r)) (equals ctx l r).
Proof.
  intros Hl Hr. unfold equals.
  destruct (a ← as_value (node l); b ← as_value (node r); run_ok ctx (v_equals a b)) as [[b hc]|] eqn:Hconst.
  { apply bind_Some in Hconst as (v & Hv%as_value_node & Hconst). apply bind_Some in Hconst as (w & Hw%as_value_node & Hconst).
    eapply (good_fold2 (ctx:=ctx)); [done..|]. unfold run_ok in Hconst. destruct (v_equals v w (ctx_heap ctx)) as [[b'|e|f] h'] eqn:He; try done.
    injection Hconst as -> ->. eapply equals_stands; [..|done]; by eapply (const_frozen (ctx:=ctx)). }
  destruct (try_eval_type_is l r) as [e|] eqn:He; [by apply (type_is_good sp l r e)|].
  destruct (try_eval_type_is r l) as [e|] eqn:He'; [by apply (type_is_good sp r l e)|]. apply good_respan. by apply plain2.
Qed.

(** Strings. *)
Lemma good_percent_s_one sp sp' b x a : plain (node x) = true →
  good (mkSpanned sp (ExprBuiltin1 (PercentSOne b a) x)) (mkSpanned sp' (percent_s_one_expr ctx b x a)).
Proof.
  intros Hx. unfold percent_s_one_expr. destruct (v ← as_value (node x); fold_str ctx _) as [e|] eqn:He; [|by apply good_respan].
  apply bind_Some in He as (v & Hv%as_value_node & He). eapply (good_fold1 (ctx:=ctx)); [exact Hv|]. eapply str_stands; [|exact He].
  apply fold_percent_s_one. by eapply (const_frozen (ctx:=ctx)).
Qed.
Lemma good_format_one sp sp' b x a : plain (node x) = true →
  good (mkSpanned sp (ExprBuiltin1 (FormatOne b a) x)) (mkSpanned sp' (format_one_expr ctx b x a)).
Proof.
  intros Hx. unfold format_one_expr. destruct (v ← as_value (node x); fold_str ctx _) as [e|] eqn:He; [|by apply good_respan].
  apply bind_Some in He as (v & Hv%as_value_node & He). eapply (good_fold1 (ctx:=ctx)); [exact Hv|]. eapply str_stands; [|exact He].
  apply fold_format_one. by eapply (const_frozen (ctx:=ctx)).
Qed.
Lemma good_percent sp sp' l r : plain (node l) = true → plain (node r) = true →
  good (mkSpanned sp (ExprBuiltin2 Percent l r)) (mkSpanned sp' (percent ctx l r)).
Proof.
  intros Hl Hr. unfold percent. destruct (v ← as_string (node l); parse_percent_s_one v) as [[b a]|] eqn:Hp;
    [|by apply good_respan, plain2].
  apply bind_Some in Hp as (t & Ht & Hp). destruct (string_const l t Ht) as (w & Hw & Hwt).
  eapply (good_trans (ctx:=ctx)); [|by apply (good_percent_s_one sp)].
  intros k k' s s' Hk Hs. simpl. rewrite (const_eval n l w) by done. simpl.
  eapply out_bind; [by apply (esim_at n r r); [apply (self_plain (ctx:=ctx))|]|]. intros k1 v v' s1 s1' Hk1 Hs1 Hv.
  apply out_at_span; [|done]. by eapply (percent_one (ctx:=ctx)).
Qed.

(** Lists. *)
Lemma const_list k vs h h' : Forall (λ v, is_frozen v = true) vs → alike k h h' →
  ∃ k', k ⊆+ k' ∧ alike k' h h' ∧ lsim k' vs vs.
Proof.
  intros Hvs Hh. induction Hvs as [|v vs Hv Hvs IH]; [by exists k; split_and!; [done|done|constructor]|].
  destruct IH as (k1 & Hk1 & Hh1 & Hl). destruct (const_sim (ctx:=ctx) k1 h h' v Hv Hh1) as (k2 & Hk2 & Hh2 & Hvv).
  exists k2. split_and!; [by trans k1|done|]. constructor; [done|by eapply lsim_mono].
Qed.
Definition elements k (a : V) (ws : list V) : Prop := ∃ vs, Elems a vs ∈ k ∧ lsim k vs ws.
Lemma elements_mono k k' a ws : k ⊆+ k' → elements k a ws → elements k' a ws.
Proof. intros Hk (vs & Ha & Hvs). exists vs. split; [by eapply elem_mono|by eapply lsim_mono]. Qed.
Lemma short_list l ls : as_short_list l = Some ls → plain (node l) = true →
  forallb (λ x, plain (node x)) ls = true ∧
  ∀ k s s', st_sim k s s' → out_sim k elements (evs l s) (eval_list evs ls s').
Proof.
  unfold as_short_list. destruct (node l) as [v| | | |xs| | | | | | | | | | | |] eqn:Hl; try done.
  - intros (vs & Hvs & Hlen)%bind_Some Hv. destruct (_ <=? _); [|done]. injection Hlen as <-.
    pose proof (frozen_list_items (ctx:=ctx) v vs Hvs) as Hfr. split.
    { clear -Hfr. induction Hfr as [|v vs Hv Hvs IH]; [done|]. simpl. by rewrite Hv. }
    intros k s s' [Hh Hloc]. erewrite (eval_values n _ vs).
    2:{ clear -vs. induction vs as [|v vs IH]; [done|]. simpl. by rewrite IH. }
    destruct (const_list k vs _ _ Hfr Hh) as (k1 & Hk1 & Hh1 & Hvv). simpl.
    exists (Elems v vs :: k1). split_and!.
    + trans k1; [done|apply sub_cons].
    + split; [by apply (const_elems (ctx:=ctx))|]. eapply locals_mono; [|done]. trans k1; [done|apply sub_cons].
    + exists vs. split; [by left|]. eapply lsim_mono; [apply sub_cons|done].
  - destruct (_ <=? _); [|done]. intros [= <-] Hp. split; [done|]. intros k s s' Hs. simpl.
    rewrite <- (bind_ret (eval_list evs xs s')). eapply out_bind; [by apply esims_list; [apply (self_plains (ctx:=ctx))|]|].
    intros k1 vs ws s1 s1' Hk1 [Hh1 Hl1] Hvs. rewrite with_heap_eq.
    exists (Elems (h_alloc_list vs (st_heap s1)).1 vs :: k1). split_and!; [apply sub_cons| |].
    + split; [by apply (list_elems (ctx:=ctx))|]. eapply locals_mono; [apply sub_cons|done].
    + exists vs. split; [by left|]. eapply lsim_mono; [apply sub_cons|done].
Qed.
Lemma eval_list_app (xs ys : list Expr) s : eval_list evs (xs ++ ys) s =
  (do vs, s <~ eval_list evs xs s; do ws, s <~ eval_list evs ys s; ret (vs ++ ws) s).
Proof.
  revert s. induction xs as [|x xs IH]; intros s; simpl; [by rewrite bind_ret|].
  destruct (eval n (span x) (node x) s) as [[v s1|]|]; simpl; [|done..]. rewrite IH.
  destruct (eval_list evs xs s1) as [[vs s2|]|]; simpl; [|done..]. by destruct (eval_list evs ys s2) as [[ws s3|]|].
Qed.
Lemma good_add sp sp' l r : plain (node l) = true → plain (node r) = true →
  good (mkSpanned sp (ExprBuiltin2 Add l r)) (mkSpanned sp' (add l r)).
Proof.
  intros Hl Hr. unfold add. destruct (as_short_list l) as [ls|] eqn:Hls; [|by apply good_respan, plain2].
  destruct (as_short_list r) as [rs|] eqn:Hrs; [|by apply good_respan, plain2].
  destruct (short_list l ls Hls Hl) as [Hpl Hel]. destruct (short_list r rs Hrs Hr) as [Hpr Her].
  split; [simpl; by rewrite forallb_app, Hpl, Hpr|]. intros k k' s s' Hk Hs. simpl. rewrite eval_list_app.
  pose proof (Hel k' s s' Hs) as H1.
  destruct (eval n (span l) (node l) s) as [[a s1|]|], (eval_list evs ls s') as [[vs s1'|]|]; try done; simpl.
  destruct H1 as (k1 & Hk1 & Hs1 & Ha). eapply out_mono; [exact Hk1|]. pose proof (Her k1 s1 s1' Hs1) as H2.
  destruct (eval n (span r) (node r) s1) as [[b s2|]|], (eval_list evs rs s1') as [[ws s2'|]|]; try done; simpl.
  destruct H2 as (k2 & Hk2 & [Hh2 Hl2] & Hb). eapply out_mono; [exact Hk2|].
  destruct (elements_mono _ k2 _ _ Hk2 Ha) as (avs & Hain & Havs). destruct Hb as (bvs & Hbin & Hbvs).
  destruct (add_elems (ctx:=ctx) a b avs bvs (vs ++ ws) k2 _ _ Hain Hbin (Forall2_app Havs Hbvs) Hh2) as (c & h1 & Hc & Hh).
  unfold at_span. simpl. rewrite Hc, with_heap_eq. by apply st_cons.
Qed.

(** Indexing, and the binary operators. *)
Lemma good_index sp sp' l r : plain (node l) = true → plain (node r) = true →
  good (mkSpanned sp (ExprBuiltin2 ArrayIndex l r)) (mkSpanned sp' (index ctx l r)).
Proof.
  intros Hl Hr. unfold index. destruct (a ← as_builtin_value (node l); _) as [e|] eqn:He; [|by apply good_respan, plain2].
  apply bind_Some in He as (a & (Hv & Hb)%builtin_const & He). apply bind_Some in He as (i & Hw%as_value_node & He).
  eapply (good_fold2 (ctx:=ctx)); [exact Hv|exact Hw|]. eapply fold_stands; [|exact He].
  apply fold_at; [done|by eapply (const_frozen (ctx:=ctx))].
Qed.
Lemma good_bin_op sp sp' op l r : plain (node l) = true → plain (node r) = true →
  good (mkSpanned sp (ExprBuiltin2 op l r)) (mkSpanned sp' (bin_op ctx op l r)).
Proof.
  intros Hl Hr. unfold bin_op. destruct (a ← as_builtin_value (node l); _) as [e|] eqn:He.
  { apply bind_Some in He as (a & (Hv & Ha)%builtin_const & He). apply bind_Some in He as (b & (Hw & Hb)%builtin_const & He).
    eapply (good_fold2 (ctx:=ctx)); [exact Hv|exact Hw|]. eapply fold_stands; [|exact He]. by apply fold_binary. }
  destruct op; try (by apply good_respan, plain2).
  - destruct (good_equals sp l r Hl Hr) as [Hp He']. eapply (good_trans (ctx:=ctx)); [exact He'|].
    pose proof (good_respan (ctx:=ctx) n _ (span (equals ctx l r)) sp' Hp) as Hg. by destruct (equals ctx l r).
  - by apply good_add.
  - by apply good_percent.
  - by apply good_index.
Qed.

(** Attributes, and the unary operators. *)
Lemma member_frozen v m w : is_frozen v = true → member_value v m = Some w → is_frozen w = true.
Proof.
  unfold member_value. intros Hv. destruct (member_view m) as [| |u]; [|done|].
  - intros [= <-]. by apply (frozen_method (ctx:=ctx)).
  - destruct (is_frozen u) eqn:Hu; [|done]. by intros [= <-].
Qed.
Lemma getattr_known v field w : compile_time_getattr ctx v field = Some w →
  ∃ m hc, get_attr_hashed_raw v field (ctx_heap ctx) = (Ok m, hc) ∧ member_value v m = Some w.
Proof.
  unfold compile_time_getattr, run_ok. intros ([m hc] & Hm & Hw)%bind_Some. exists m, hc.
  destruct (get_attr_hashed_raw v field (ctx_heap ctx)) as [[m'|e|f] h]; by simplify_eq.
Qed.
Lemma getattr_stands v field w : is_frozen v = true → compile_time_getattr ctx v field = Some w →
  is_frozen w = true ∧ stands_for (builtin1 (Dot field) v) (Value w).
Proof.
  intros Hv (m & hc & Hm & Hw)%getattr_known. assert (is_frozen w = true) as Hfw by by eapply member_frozen.
  split; [done|]. apply gives_stands; [done|]. intros k. by eapply (fold_getattr (ctx:=ctx)).
Qed.
Lemma good_dot sp sp' x field : plain (node x) = true →
  good (mkSpanned sp (ExprBuiltin1 (Dot field) x)) (mkSpanned sp' (dot ctx x field)).
Proof.
  intros Hx. unfold dot. destruct (left ← as_value (node x); _) as [w|] eqn:He; [|by apply good_respan].
  apply bind_Some in He as (v & Hv%as_value_node & He). eapply (good_fold1 (ctx:=ctx)); [exact Hv|].
  apply getattr_stands; [by eapply (const_frozen (ctx:=ctx))|done].
Qed.
Lemma frozen_try_value sp v h : is_frozen v = true → try_value (D:=D) (TC:=TC) sp (contents v h) = Some (Value v).
Proof. intros Hv. destruct (contents_root (ctx:=ctx) v h) as [ts ->]. simpl. by rewrite Hv. Qed.
Lemma fold_builtin1_stands sp op v e : is_builtin v = true → is_frozen v = true → fold_builtin1 ctx sp op v = Some e →
  stands_for (builtin1 op v) e.
Proof.
  intros Hb Hv. destruct op as [| | | | | | |field]; try (intros He; eapply fold_stands; [|exact He]; by apply fold_unary).
  intros (w & Hw & He)%bind_Some. destruct (getattr_stands v field w Hv Hw) as [Hfw Hst].
  rewrite (frozen_try_value sp w _ Hfw) in He. by injection He as <-.
Qed.
Lemma good_un_op sp op x : plain (node x) = true → good (mkSpanned sp (ExprBuiltin1 op x)) (mkSpanned sp (un_op ctx sp op x)).
Proof.
  intros Hx. unfold un_op. destruct (v ← as_builtin_value (node x); _) as [e|] eqn:He.
  { apply bind_Some in He as (v & (Hv & Hb)%builtin_const & He). eapply (good_fold1 (ctx:=ctx)); [exact Hv|].
    eapply fold_builtin1_stands; [done| |done]. by eapply (const_frozen (ctx:=ctx)). }
  destruct op; try (by apply good_respan).
  - destruct (good_not (ctx:=ctx) n sp x Hx) as [Hp Hn]. eapply (good_trans (ctx:=ctx)); [exact Hn|].
    pose proof (good_respan (ctx:=ctx) n _ (span (not_ ctx sp x)) sp Hp) as Hg. by destruct (not_ ctx sp x).
  - by apply good_type_is.
  - by apply good_percent_s_one.
  - by apply good_format_one.
  - by apply good_dot.
Qed.
End ops.

(** The constructors of the optimiser for slices, calls and loops. *)

Section call.
Context `{W : World V H E TC D KM MB} {WO : WorldOk V H E TC D KM MB} {AL : Alike V H E} {AO : AlikeOk V H E TC D KM MB}.
Context {OW : OptWorld V H E TC D MB} {ctx : OptCtx (V:=V) (H:=H)} {FO : FoldOk V H E TC D KM MB ctx} {PT : PositionalTypeTests V H E TC D KM MB}.
Context (n : nat).
Implicit Types (k : list (item V)) (s : St V H) (sp : Span).
Local Abbreviation out := (out V H E).
Local Abbreviation Node := (ExprCompiled V TC D).
Local Abbreviation Expr := (Spanned (ExprCompiled V TC D)).
Local Abbreviation Args_ := (ArgsCompiledValue (Spanned (ExprCompiled V TC D))).
Local Abbreviation plain := (plain (TC:=TC) (D:=D) (ctx:=ctx)).
Local Abbreviation plain_args := (plain_args (TC:=TC) (D:=D) (ctx:=ctx)).
Local Abbreviation evs := (λ (x : Expr) s, eval n (span x) (node x) s).
Implicit Types x y z l r : Expr.
Implicit Types args : Args_.
Local Abbreviation esim := (esim n).
Local Abbreviation good := (good (ctx:=ctx) n).
Local Abbreviation stands_for := (stands_for (ctx:=ctx) n).

(** * Slices *)

Definition plain_option (o : option Expr) : bool := match o with Some x => plain (node x) | None => true end.
(** A bound that is given and is not a constant keeps the slice from being folded. *)
Definition is_const (x : Expr) : bool := match as_value (node x) with Some _ => true | None => false end.
Definition slice_ok (array : Expr) (start stop step : option Expr) : bool :=
  match as_builtin_value (node array), start, stop, step with
  | Some _, Some x, Some y, Some z => is_const x && is_const y && is_const z
  | _, _, _, _ => true
  end.
Lemma is_const_value x : is_const x = true → plain (node x) = true → ∃ v, as_value (node x) = Some v ∧ node x = Value v ∧ is_frozen v = true.
Proof. unfold is_const. destruct (node x) as [v| | | | | | | | | | | | | | | |]; simpl; try done. intros _ Hv. by exists v. Qed.
Lemma good_slice sp sp' a (x y z : option Expr) : plain (node a) = true → plain_option x = true → plain_option y = true → plain_option z = true →
  slice_ok a x y z = true → good (mkSpanned sp (Slice a x y z)) (mkSpanned sp' (slice ctx sp a x y z)).
Proof.
  intros Ha Hx Hy Hz Hok. unfold slice, slice_ok in *.
  assert (good (mkSpanned sp (Slice a x y z)) (mkSpanned sp' (Slice a x y z))) as Hsame.
  { apply good_respan. simpl. unfold plain_option in *. by rewrite Ha, Hx, Hy, Hz. }
  destruct (as_builtin_value (node a)) as [v|] eqn:Hv; [|done]. apply builtin_const in Hv as [Hv Hb].
  destruct x as [x|]; [|done]. destruct y as [y|]; [|done]. destruct z as [z|]; [|done]. simpl in *. bool_to_prop.
  destruct (is_const_value x) as (u1 & -> & Hx1 & Hf1); [done..|]. destruct (is_const_value y) as (u2 & -> & Hy1 & Hf2); [done..|].
  destruct (is_const_value z) as (u3 & -> & Hz1 & Hf3); [done..|]. simpl.
  destruct (fold_value ctx sp _) as [e|] eqn:He; [|done].
  assert (stands_for (v_slice v (Some u1) (Some u2) (Some u3)) e) as [Hp Hst].
  { eapply fold_stands; [|exact He]. by apply fold_slice. }
  split; [done|]. intros k k' s s' Hk Hs. simpl. rewrite (const_eval n a v) by done. simpl.
  rewrite (const_eval n x u1) by done. simpl. rewrite (const_eval n y u2) by done. simpl. rewrite (const_eval n z u3) by done. simpl.
  by apply Hst.
Qed.

(** * The functions [len] and [type] *)

Definition call_expr sp (f : Expr) args : Expr := mkSpanned sp (Call (mkSpanned sp (mkCall f args))).
Local Abbreviation args1 x := (mkArgs [x] [] None None).
Lemma call_value sp csp (f : V) x s fsp : eval n sp (Call (mkSpanned csp (mkCall (mkSpanned fsp (Value f)) (args1 x)))) s =
  (do v, s <~ evs x s; at_span csp (invoke_with_loc f csp (one_arg v)) s).
Proof. change (eval_call evs csp (mkCall (mkSpanned fsp (Value f)) (args1 x)) s = (do v, s <~ evs x s; at_span csp (invoke_with_loc f csp (one_arg v)) s)). by rewrite call_invoke, invoke_one. Qed.
Lemma plain_call1 sp (f : V) x : is_frozen f = true → plain (node x) = true → plain (call1 sp f x) = true.
Proof. intros Hf Hx. simpl. by rewrite Hf, Hx. Qed.
(** What evaluates to the same. *)
Lemma good_eval sp sp' (e e' : Node) : plain e' = true → (∀ s, eval n sp e s = eval n sp' e' s) → good (mkSpanned sp e) (mkSpanned sp' e').
Proof.
  intros Hp He. split; [done|]. intros k k' s s' Hk Hs. cbn [span node]. rewrite He.
  apply (esim_at n (mkSpanned sp' e') (mkSpanned sp' e')); [by apply (self_plain (ctx:=ctx))|done].
Qed.
(** Functions that do the same. *)
Lemma good_call1 sp sp' csp fsp (f g : V) x : is_frozen g = true → plain (node x) = true →
  (∀ v h, invoke_with_loc f csp (one_arg v) h = invoke_with_loc g csp (one_arg v) h) →
  good (mkSpanned sp (Call (mkSpanned csp (mkCall (mkSpanned fsp (Value f)) (args1 x))))) (mkSpanned sp' (call1 csp g x)).
Proof.
  intros Hg Hx Hfg. apply good_eval; [by apply plain_call1|]. intros s. unfold call1, new_value. rewrite !call_value.
  apply bind_ext. intros v s1. by apply at_span_eq.
Qed.
(** Expressions whose value has a type that is known. *)
Lemma from_tuple_type xs v h : from_tuple xs v h → type_of tuple_type v h.
Proof. intros (vs & h0 & _ & -> & _). apply (type_of_tuple (ctx:=ctx)). Qed.
Lemma from_list_type xs v h : from_list xs v h → type_of list_type v h.
Proof. intros (vs & h0 & _ & -> & _). apply (type_of_list (ctx:=ctx)). Qed.
Lemma from_dict_type v h : from_dict v h → type_of dict_type v h.
Proof. intros (h0 & -> & _). apply (type_of_dict (ctx:=ctx)). Qed.
Lemma bool_type_runs op x : match op with Not | TypeIs _ => True | _ => False end →
  is_pure_infallible (node x) = true → plain (node x) = true → runs n (ExprBuiltin1 op x) (type_of bool_type).
Proof.
  intros Hop Hp Hx sp s. simpl. eapply runs_bind; [by apply (pure_runs (ctx:=ctx))|]. intros v h _ _.
  destruct op; try done; unfold at_span; simpl; apply (runs_ret (type_of bool_type)); apply (type_of_bool (ctx:=ctx)).
Qed.
Lemma typ_known_good sp sp' csp fsp (f : V) x t : is_fn_type f = true → runs n (node x) (type_of t) →
  good (mkSpanned sp (Call (mkSpanned csp (mkCall (mkSpanned fsp (Value f)) (args1 x))))) (mkSpanned sp' (Value (frozen_str t))).
Proof.
  intros Hf Hx. split; [apply (frozen_frozen_str (ctx:=ctx))|]. intros k k' s s' Hk Hs. cbn [span node]. rewrite call_value.
  eapply out_drop; [apply Hx|done|]. intros v h Hv Hs'. erewrite at_span_eq; [|by apply (call_type (ctx:=ctx))].
  rewrite at_span_done. unfold type_of in Hv. rewrite Hv. apply (out_const (ctx:=ctx)); [apply (frozen_frozen_str (ctx:=ctx))|done].
Qed.
Lemma good_typ sp sp' csp fsp (f : V) x : is_fn_type f = true → plain (node x) = true →
  good (mkSpanned sp (Call (mkSpanned csp (mkCall (mkSpanned fsp (Value f)) (args1 x))))) (mkSpanned sp' (typ csp x)).
Proof.
  intros Hf Hx.
  assert (good (mkSpanned sp (Call (mkSpanned csp (mkCall (mkSpanned fsp (Value f)) (args1 x))))) (mkSpanned sp' (call1 csp fn_type x))) as Hcall.
  { apply good_call1; [apply (frozen_fn_type (ctx:=ctx))|done|]. intros v h.
    rewrite (call_type (ctx:=ctx) f), (call_type (ctx:=ctx) fn_type); [done|apply (fn_type_ok (ctx:=ctx))|done]. }
  unfold typ. destruct (node x) as [v| | | |xs|xs|kvs| | | |op y| | | | | |] eqn:Hn; try done.
  - apply typ_known_good; [done|]. rewrite Hn. intros sp0 s. by apply runs_ret.
  - destruct (forallb _ xs) eqn:Hxs; [|done]. apply typ_known_good; [done|]. rewrite Hn.
    eapply runs_weaken; [apply from_tuple_type|]. by apply (run_tuple (ctx:=ctx)), (pure_list_runs (ctx:=ctx)).
  - destruct (forallb _ xs) eqn:Hxs; [|done]. apply typ_known_good; [done|]. rewrite Hn.
    eapply runs_weaken; [apply from_list_type|]. by apply (run_list (ctx:=ctx)), (pure_list_runs (ctx:=ctx)).
  - destruct kvs; [|done]. apply typ_known_good; [done|]. rewrite Hn.
    eapply runs_weaken; [apply from_dict_type|]. apply (run_dict (ctx:=ctx)).
  - destruct op; try done; (destruct (is_pure_infallible (node y)) eqn:Hy; [|done]);
      (apply typ_known_good; [done|]); rewrite Hn; by apply bool_type_runs.
Qed.
Lemma len_stands v w (z : Z) hc : is_frozen v = true → v_length v (ctx_heap ctx) = (Ok z, hc) → inline_int z = Some w →
  stands_for (len_op v) (Value w).
Proof. intros Hv Hz Hw. apply gives_stands; [by eapply (frozen_inline_int (ctx:=ctx))|]. intros k. by eapply (fold_length (ctx:=ctx)). Qed.
Lemma good_len sp sp' csp fsp (f : V) x : is_fn_len f = true → plain (node x) = true →
  good (mkSpanned sp (Call (mkSpanned csp (mkCall (mkSpanned fsp (Value f)) (args1 x))))) (mkSpanned sp' (len ctx csp x)).
Proof.
  intros Hf Hx. unfold len. destruct (v ← as_value (node x); _) as [w|] eqn:Hw.
  - apply bind_Some in Hw as (v & Hv%as_value_node & Hw). apply bind_Some in Hw as ([z hc] & Hz & Hw).
    assert (stands_for (len_op v) (Value w)) as [Hp Hst].
    { unfold run_ok in Hz. destruct (v_length v (ctx_heap ctx)) as [[z'|e|fl] h] eqn:He; try done. injection Hz as -> ->.
      eapply len_stands; [|exact He|done]. by eapply (const_frozen (ctx:=ctx)). }
    split; [done|]. intros k k' s s' Hk Hs. cbn [span node]. rewrite call_value. rewrite (const_eval n x v) by done. simpl.
    erewrite at_span_eq; [|by apply (call_len (ctx:=ctx))]. by apply (Hst _ _ sp').
  - apply good_call1; [apply (frozen_fn_len (ctx:=ctx))|done|]. intros v h.
    rewrite (call_len (ctx:=ctx) f), (call_len (ctx:=ctx) fn_len); [done|apply (fn_len_ok (ctx:=ctx))|done].
Qed.

(** * Calls *)

Lemma one_pos_some args x : one_pos args = Some x → args = args1 x.
Proof.
  unfold one_pos. destruct (with_one_pos_cases args) as [(y & Ha & Hy)|Hn]; [rewrite Hy|by rewrite Hn]. by intros [= ->].
Qed.
Lemma const_call sp csp fn (f : V) args s : node fn = Value f →
  eval n sp (Call (mkSpanned csp (mkCall fn args))) s = (do a, s <~ eval_args evs args s; at_span csp (invoke_with_loc f csp a) s).
Proof.
  intros Hf. change (eval_call evs csp (mkCall fn args) s = (do a, s <~ eval_args evs args s; at_span csp (invoke_with_loc f csp a) s)).
  rewrite call_invoke. destruct fn as [fsp fn]. simpl in Hf. by subst.
Qed.
Lemma plain_call sp fn args : plain (node fn) = true → plain_args args = true → plain (Call (mkSpanned sp (mkCall fn args))) = true.
Proof. unfold IrCompat.plain_args. simpl. intros -> Hp. bool_to_prop. by repeat match goal with H : _ = true |- _ => rewrite H; clear H end. Qed.
Lemma plain_one x : plain_args (args1 x) = true → plain (node x) = true.
Proof. unfold IrCompat.plain_args. simpl. by destruct (plain (node x)). Qed.

Lemma type_is_call_good sp sp' csp fn (f : V) x d t : node fn = Value f → frozen_def f = Some d →
  def_inline_body new_none d = Some (ReturnTypeIs t) → plain (node x) = true →
  good (mkSpanned sp (Call (mkSpanned csp (mkCall fn (args1 x))))) (mkSpanned sp' (type_is x t)).
Proof.
  intros Hf Hd Ht Hx. eapply (good_trans (ctx:=ctx)); [|eapply (good_trans (ctx:=ctx)); [apply (good_type_is (ctx:=ctx) n sp x t Hx)|]].
  - apply good_eval; [done|]. intros s. destruct fn as [fsp fn]. simpl in Hf. subst fn. rewrite call_value, type_is_eval.
    apply bind_ext. intros v s1. erewrite at_span_eq; [|apply (call_type_is (ctx:=ctx) f d); [done|done|by eapply type_is_positional]]. apply at_span_done.
  - apply good_respan. by destruct (good_type_is (ctx:=ctx) n sp x t Hx).
Qed.
Lemma const_args args a s : all_values args = Some a → plain_args args = true → eval_args evs args s = ret a s ∧ frozen_args a.
Proof.
  unfold all_values, all_values_generic, IrCompat.plain_args. intros (vs & Hvs & Ha)%bind_Some Hp. bool_to_prop.
  apply bind_Some in Ha as (o1 & Ho1 & Ha). apply bind_Some in Ha as (o2 & Ho2 & [= <-]).
  assert (∀ (o : option Expr) u, (match o with None => Some None | Some x => Some <$> as_value (node x) end) = Some u →
    match o with Some x => plain (node x) | None => true end = true →
    (∀ s, eval_option evs o s = ret u s) ∧ frozen_option u) as Hoption.
  { intros [x|] u Hu Hpx; [|by injection Hu as <-]. apply fmap_Some in Hu as (v & Hv%as_value_node & ->). split.
    - intros s1. simpl. by rewrite (const_eval n x v).
    - by eapply (const_frozen (ctx:=ctx)). }
  destruct (Hoption _ _ Ho1) as [He1 Hf1]; [done|]. destruct (Hoption _ _ Ho2) as [He2 Hf2]; [done|].
  split; [unfold eval_args; by rewrite (eval_values n _ vs s Hvs); simpl; rewrite He1; simpl; rewrite He2|].
  split_and!; [|done|done]. simpl. rewrite take_drop. by eapply plain_values.
Qed.
Lemma spec_exec_good sp sp' csp fn args e : try_spec_exec ctx csp fn args = Some e → plain_args args = true →
  good (mkSpanned sp (Call (mkSpanned csp (mkCall fn args)))) (mkSpanned sp' e).
Proof.
  unfold try_spec_exec. intros (f & Hf%as_value_node & He)%bind_Some Hp. destruct (speculative_exec_safe f) eqn:Hsafe; [|done].
  destruct (ctx_eval ctx); [|done]. apply bind_Some in He as (a & Ha & He).
  assert (frozen_args a) as Hfr.
  { destruct (const_args args a (mkSt [] (ctx_heap ctx)) Ha Hp) as [_ Hfr]. done. }
  destruct (fold_stands n csp _ e (fold_call (ctx:=ctx) f csp a Hsafe Hfr) He) as [Hpe Hst].
  split; [done|]. intros k k' s s' Hk Hs. cbn [span node]. rewrite (const_call sp csp fn f) by done.
  destruct (const_args args a s Ha Hp) as [-> _]. by apply Hst.
Qed.
Lemma enum_good sp sp' csp fn args e : try_enum_value fn args = Some e → plain_args args = true →
  good (mkSpanned sp (Call (mkSpanned csp (mkCall fn args)))) (mkSpanned sp' e).
Proof.
  unfold try_enum_value. intros (f & Hf%as_value_node & He)%bind_Some Hp. apply bind_Some in He as (c & Hc & He).
  apply bind_Some in He as (x & ->%one_pos_some & He). apply bind_Some in He as (a & Ha%as_value_node & He).
  destruct (c a) as [v| |] eqn:Hv; [|done..]. injection He as <-. apply plain_one in Hp.
  assert (stands_for (invoke_with_loc f csp (one_arg a)) (Value v)) as [Hpe Hst].
  { apply gives_stands; [by eapply (frozen_enum (ctx:=ctx))|]. intros k. eapply (fold_enum (ctx:=ctx)); [done| |done].
    by eapply (const_frozen (ctx:=ctx)). }
  split; [done|]. intros k k' s s' Hk Hs. cbn [span node]. destruct fn as [fsp fn]. simpl in Hf. subst fn. rewrite call_value.
  rewrite (const_eval n x a) by done. by apply (Hst _ _ sp').
Qed.
Lemma format_good sp sp' csp fn args e : try_format ctx fn args = Some e → plain_args args = true →
  good (mkSpanned sp (Call (mkSpanned csp (mkCall fn args)))) (mkSpanned sp' e).
Proof.
  unfold try_format. intros (f & Hf%as_value_node & He)%bind_Some Hp. apply bind_Some in He as ([this m] & Hm & He).
  apply bind_Some in He as (t & Ht & He). destruct (bool_decide (m = format_method)) eqn:Hfm; [|done]. apply bool_decide_eq_true in Hfm as ->.
  simpl in He. apply bind_Some in He as (x & ->%one_pos_some & He). destruct (parse_format_one t) as [[[b a]|]| |] eqn:Hba; [|done..]. injection He as <-. apply plain_one in Hp.
  eapply (good_trans (ctx:=ctx)); [|by apply (good_format_one n sp)].
  intros k k' s s' Hk Hs. cbn [span node]. destruct fn as [fsp fn]. simpl in Hf. subst fn. rewrite call_value. cbn [eval].
  eapply out_bind; [by apply (esim_at n x x); [apply (self_plain (ctx:=ctx))|]|]. intros k1 v w s1 s1' Hk1 Hs1 Hv.
  apply out_at_span; [|done]. by eapply (call_format (ctx:=ctx)).
Qed.

Section known.
Context (try_inline : Span → Expr → Args_ → option Expr).
(** The body of an inlined function may stand for its call. *)
Definition inline_ok : Prop := ∀ sp sp' csp fn args e,
  try_inline csp fn args = Some e → plain (node fn) = true → plain_args args = true →
  good (mkSpanned sp (Call (mkSpanned csp (mkCall fn args)))) (mkSpanned sp' (node e)).
Context (Hinline : inline_ok).

Lemma len_type_good sp sp' csp fn args e : try_len_type ctx csp fn args = Some e → plain_args args = true →
  good (mkSpanned sp (Call (mkSpanned csp (mkCall fn args)))) (mkSpanned sp' e).
Proof.
  unfold try_len_type. intros (f & Hf%as_value_node & He)%bind_Some Hp. apply bind_Some in He as (x & ->%one_pos_some & He).
  apply plain_one in Hp. destruct fn as [fsp fn]. simpl in Hf. subst fn.
  destruct (is_fn_len f) eqn:Hlen; [injection He as <-; by apply good_len|].
  destruct (is_fn_type f) eqn:Htype; [|done]. injection He as <-. by apply good_typ.
Qed.
Lemma call_known_good sp sp' csp fn args e : call_known try_inline ctx csp fn args = Some e →
  plain (node fn) = true → plain_args args = true →
  good (mkSpanned sp (Call (mkSpanned csp (mkCall fn args)))) (mkSpanned sp' e).
Proof.
  unfold call_known. intros He Hf Hp.
  destruct (try_type_is fn args) as [e1|] eqn:H1; simpl in He.
  { injection He as <-. unfold try_type_is in H1. apply bind_Some in H1 as (f & Hfn%as_value_node & H1).
    apply bind_Some in H1 as (d & Hd & H1). apply bind_Some in H1 as (x & ->%one_pos_some & H1).
    destruct (def_inline_body new_none d) as [[t|]|] eqn:Ht; try done. injection H1 as <-.
    eapply type_is_call_good; [done|done|done|by apply plain_one]. }
  destruct (try_inline csp fn args) as [x|] eqn:H2; simpl in He; [injection He as <-; by apply Hinline|].
  destruct (try_len_type ctx csp fn args) as [e3|] eqn:H3; simpl in He; [injection He as <-; by apply len_type_good|].
  destruct (try_enum_value fn args) as [e4|] eqn:H4; simpl in He; [injection He as <-; by apply enum_good|].
  destruct (try_spec_exec ctx csp fn args) as [e5|] eqn:H5; simpl in He; [injection He as <-; by apply spec_exec_good|].
  by apply format_good.
Qed.
(** The method of a constant. *)
Lemma method_const sp sp' csp fn gsp x field v w args : node fn = ExprBuiltin1 (Dot field) x → node x = Value v → is_frozen v = true →
  compile_time_getattr ctx v field = Some w → plain_args args = true →
  esim (mkSpanned sp (Call (mkSpanned csp (mkCall fn args)))) (mkSpanned sp' (Call (mkSpanned csp (mkCall (mkSpanned gsp (Value w)) args)))).
Proof.
  intros Hfn Hx Hv (m & hc & Hm & Hw)%getattr_known Hp k k' s s' Hk Hs. cbn [span node].
  rewrite (const_call sp' csp (mkSpanned gsp (Value w)) w) by done.
  change (out_sim k' vsim (eval_call evs csp (mkCall fn args) s)
    (do a, s <~ eval_args evs args s'; at_span csp (invoke_with_loc w csp a) s)).
  rewrite call_invoke. erewrite dot_invoke by done. rewrite (const_eval n x v) by done. simpl.
  eapply out_bind; [apply out_args; [by apply (self_args (ctx:=ctx))|done]|]. intros k1 a b s1 s1' Hk1 Hs1 Hab.
  apply out_at_span; [|done]. by eapply (fold_method (ctx:=ctx)).
Qed.
Lemma getattr_frozen v field w : is_frozen v = true → compile_time_getattr ctx v field = Some w → is_frozen w = true.
Proof. intros Hv (m & hc & Hm & Hw)%getattr_known. by eapply member_frozen. Qed.
Lemma new_method_good sp sp' csp fn gsp x field args : node fn = ExprBuiltin1 (Dot field) x →
  plain (node x) = true → plain_args args = true →
  good (mkSpanned sp (Call (mkSpanned csp (mkCall fn args)))) (mkSpanned sp' (new_method try_inline ctx csp x field gsp args)).
Proof.
  intros Hfn Hx Hp. unfold new_method. destruct (v ← as_value (node x); _) as [w|] eqn:Hw.
  - apply bind_Some in Hw as (v & Hv%as_value_node & Hw). assert (is_frozen v = true) as Hfv by by eapply (const_frozen (ctx:=ctx)).
    eapply (good_trans (ctx:=ctx)); [by eapply (method_const sp sp _ _ gsp)|].
    assert (plain (node (new_value gsp w)) = true) as Hpw by by eapply getattr_frozen.
    destruct (call_known try_inline ctx csp (new_value gsp w) args) as [e|] eqn:He; [by apply call_known_good|].
    apply good_respan. by apply plain_call.
  - unfold dot. rewrite Hw. split; [apply plain_call; [done|done]|].
    eapply (sim_call_dot (ctx:=ctx)); [done|done|by apply (self_plain (ctx:=ctx))|by apply (self_args (ctx:=ctx))].
Qed.
Lemma good_call sp sp' csp fn args : plain (node fn) = true → plain_args args = true →
  good (mkSpanned sp (Call (mkSpanned csp (mkCall fn args)))) (mkSpanned sp' (call try_inline ctx csp fn args)).
Proof.
  intros Hf Hp. unfold call. destruct (call_known try_inline ctx csp fn args) as [e|] eqn:He; [by apply call_known_good|].
  assert (good (mkSpanned sp (Call (mkSpanned csp (mkCall fn args)))) (mkSpanned sp' (Call (mkSpanned csp (mkCall fn args))))) as Hsame
    by by apply good_respan, plain_call.
  destruct (node fn) as [| | | | | | | | | |[] x| | | | | |] eqn:Hn; try done. by apply new_method_good.
Qed.
(** The call of an optimised function with optimised arguments. *)
Lemma un_op_dot sp field x : node x = node x →
  un_op ctx sp (Dot field) x = ExprBuiltin1 (Dot field) x ∨
  ∃ v w, node x = Value v ∧ compile_time_getattr ctx v field = Some w ∧ (is_frozen v = true → un_op ctx sp (Dot field) x = Value w).
Proof.
  intros _. unfold un_op. destruct (v ← as_builtin_value (node x); fold_builtin1 ctx (span x) (Dot field) v) as [e|] eqn:He.
  - right. apply bind_Some in He as (v & [Hv _]%builtin_const & He). apply bind_Some in He as (w & Hw & He). exists v, w.
    split_and!; [done|done|]. intros Hfv. rewrite frozen_try_value in He; [by injection He as <-|]. by eapply getattr_frozen.
  - unfold dot. destruct (left ← as_value (node x); compile_time_getattr ctx left field) as [w|] eqn:Hw; [|by left].
    right. apply bind_Some in Hw as (v & Hv%as_value_node & Hw). by exists v, w.
Qed.
Lemma optimized_call sp sp' csp fn0 fn args0 args :
  esim fn0 fn → plain (node fn) = true → args_esim n args0 args → plain_args args = true →
  (if is_dot (node fn0) then ∃ field x0 x usp, node fn0 = ExprBuiltin1 (Dot field) x0 ∧ good x0 x ∧ node fn = un_op ctx usp (Dot field) x
   else is_dot (node fn) = false) →
  good (mkSpanned sp (Call (mkSpanned csp (mkCall fn0 args0)))) (mkSpanned sp' (call try_inline ctx csp fn args)).
Proof.
  intros Hfn Hp Hargs Hpa Hdot. eapply (good_trans (ctx:=ctx)); [|by apply (good_call sp)].
  destruct (is_dot (node fn0)) eqn:Hd0.
  - destruct Hdot as (field & x0 & x & usp & Hfn0 & [Hpx Hx] & Hun).
    destruct (un_op_dot usp field x eq_refl) as [Hu|(v & w & Hv & Hw & Hu)].
    + eapply (sim_call_dot (ctx:=ctx)); [done|by rewrite Hun|done|done].
    + assert (is_frozen v = true) as Hfv by by eapply (const_frozen (ctx:=ctx)).
      eapply (esim_trans (ctx:=ctx)); [apply (sim_call_dot (ctx:=ctx) n sp sp csp fn0 (mkSpanned sp (ExprBuiltin1 (Dot field) x)) x0 x field args0 args); done|].
      rewrite (Hu Hfv) in Hun. destruct fn as [fsp fn]. simpl in Hun. subst fn. by eapply method_const.
  - by apply (sim_call (ctx:=ctx)).
Qed.
End known.

(** * Loops over nothing *)

Definition over_ok (e : Node) : bool := match e with Value v => negb (bool_decide (as_frozen_str v = Some [])) | _ => true end.
Lemma empty_runs e : is_iterable_empty ctx e = true → plain e = true → over_ok e = true → runs n e empty_iterable.
Proof.
  destruct e as [v| | | |xs|xs|kvs| | | | | | | | | |]; simpl; try done; intros He Hp Hov.
  - bool_to_prop. unfold run_ok in *. destruct (v_length v (ctx_heap ctx)) as [[z|e|f] hc] eqn:Hz; try done.
    assert (z = 0%Z) as -> by by apply Z.eqb_eq. intros sp s. apply runs_ret. by eapply (empty_const (ctx:=ctx)).
  - destruct xs; [|done]. eapply runs_weaken; [|by apply (run_tuple (ctx:=ctx))].
    intros v h (vs & h0 & Hl & -> & ->). destruct vs; [|done]. apply (empty_tuple (ctx:=ctx)).
  - destruct xs; [|done]. eapply runs_weaken; [|by apply (run_list (ctx:=ctx))].
    intros v h (vs & h0 & Hl & -> & ->). destruct vs; [|done]. apply (empty_list (ctx:=ctx)).
  - destruct kvs; [|done]. eapply runs_weaken; [|apply (run_dict (ctx:=ctx))]. intros v h (h0 & -> & ->). apply (empty_dict (ctx:=ctx)).
Qed.
Context (Hn : 0 < n).
(** A loop over nothing ends at once, and leaves the state as it was, to all appearances. *)
Lemma empty_loop v body s sp k s' : empty_iterable v (st_heap s) → st_sim k s s' →
  ∃ h, for_loop n sp v body s = ret () (mkSt (st_locals s) h) ∧ st_sim k (mkSt (st_locals s) h) s'.
Proof.
  intros (it & h1 & h2 & Hit & Hnext & Hstop) Hs. unfold for_loop, at_span. rewrite Hit. simpl.
  destruct n as [|m]; [lia|]. simpl. rewrite Hnext. exists (iter_stop it h2). split; [done|].
  destruct Hs as [Hh Hl]. split; [by apply Hstop|done].
Qed.
Lemma empty_for k sp osp over o body s s' : runs n over empty_iterable → st_sim k s s' →
  o = eval n osp over s → ∃ h, (do v, s <~ o; for_loop n sp v body s) = ret () (mkSt (st_locals s) h) ∧ st_sim k (mkSt (st_locals s) h) s'.
Proof.
  intros Hover Hs ->. destruct (Hover osp s) as (v & h & -> & Hd & He). simpl.
  assert (st_sim k (mkSt (st_locals s) h) s') as Hs1 by (destruct Hs; split; [by apply Hd|done]).
  destruct (empty_loop v body (mkSt (st_locals s) h) sp k s' He Hs1) as (h1 & -> & Hs2). by exists h1.
Qed.
Lemma run_clauses_snoc (g : ClauseCompiled V TC D → (St V H → option (out ())) → St V H → option (out ())) cs c term :
  run_clauses g (cs ++ [c]) term = g c (run_clauses g cs term).
Proof. revert term. induction cs as [|d cs IH]; intros term; simpl; [done|]. apply IH. Qed.
Definition compr_ok (cs : list (ClauseCompiled V TC D)) : bool :=
  match last cs with Some (Clause _ over _) => over_ok (node over) | None => true end.
Lemma nop_clauses k cs term s s' : is_nop ctx cs = true → compr_ok cs = true → forallb (plain_clause (ctx:=ctx)) cs = true →
  st_sim k s s' → ∃ h, run_clauses (eval_clause n) cs term s = ret () (mkSt (st_locals s) h) ∧ st_sim k (mkSt (st_locals s) h) s'.
Proof.
  unfold is_nop, compr_ok. intros Hnop Hok Hp Hs. destruct (last cs) as [[var over ifs]|] eqn:Hlast; [|done].
  apply last_Some in Hlast as (cs' & ->). rewrite forallb_app in Hp. simpl in Hp. bool_to_prop.
  rewrite run_clauses_snoc. eapply empty_for; [by apply empty_runs|done|done].
Qed.
Lemma nop_alloc k (o : H → V * H) cs (term : V → St V H → option (out ())) s s' :
  is_nop ctx cs = true → compr_ok cs = true → forallb (plain_clause (ctx:=ctx)) cs = true →
  heap_sim k vsim o o → st_sim k s s' →
  out_sim k vsim (do l, s <~ with_heap o s; do _u, s <~ run_clauses (eval_clause n) cs (term l) s; ret l s) (with_heap o s').
Proof.
  intros Hnop Hok Hp Ho Hs. rewrite <- (bind_ret (with_heap o s')). eapply out_bind; [by apply out_with_heap|].
  intros k1 l l' s1 s1' Hk1 Hs1 Hl. edestruct (nop_clauses k1 cs) as (h & -> & Hs2); [done..|]. by apply out_ret.
Qed.
Lemma eval_no_pairs sp s : eval n sp (Dict_ []) s = with_heap (h_alloc_dict []) s.
Proof. simpl. unfold at_span, make_dict, with_heap. simpl. by destruct (h_alloc_dict [] (st_heap s)). Qed.
Lemma good_compr sp sp' c : plain_compr (ctx:=ctx) c = true → compr_ok (clauses c) = true →
  good (mkSpanned sp (Compr c)) (mkSpanned sp' (compr ctx c)).
Proof.
  intros Hp Hok. unfold compr. destruct c as [x cs|x y cs]; cbn [clauses plain_compr] in *;
    (destruct (is_nop ctx cs) eqn:Hnop; [|by apply good_respan]); bool_to_prop;
    (split; [done|]); intros k k' s s' Hk Hs; cbn [span node].
  - apply (nop_alloc k' (h_alloc_list []) cs (λ acc s, do v, s <~ evs x s; at_span (span x) (list_push acc v) s)); [done..| |done].
    apply alloc_list_sim. constructor.
  - rewrite eval_no_pairs.
    apply (nop_alloc k' (h_alloc_dict []) cs (λ (d : V) s, do kv, s <~ evs x s; do vv, s <~ evs y s; at_span (span x) (compr_insert d kv vv) s)); [done..| |done].
    apply alloc_dict_sim. constructor.
Qed.
(** The conditions of a clause that hold always. *)
Lemma good_ifs xs ys : Forall2 (λ x y, good x y) xs ys →
  forallb (λ x, plain (node x)) (filter_ifs ctx ys) = true ∧ isim n xs (filter_ifs ctx ys).
Proof.
  induction 1 as [|x y xs ys [Hy Hxy] Hxs [IHp IH]]; simpl; [split; [done|apply isim_nil]|].
  destruct (expr_truth_good (ctx:=ctx) n y Hy) as [Hpb Hb].
  assert (tsim n x (into_expr (expr_truth ctx y))) as Hxb by (eapply (tsim_trans (ctx:=ctx)); [by apply esim_tsim|done]).
  destruct (node (expr_truth ctx y)) as [[]|e] eqn:Hnode.
  - split; [done|]. assert (into_expr (expr_truth ctx y) = mkSpanned (span (expr_truth ctx y)) (Value (new_bool true))) as Hin.
    { unfold into_expr. by rewrite Hnode. }
    rewrite Hin in Hxb. intros k term term' Ht k' s s' Hk Hs. simpl. rewrite truth_if.
    pose proof (tsim_at n _ _ k' s s' Hxb Hs) as Hts. rewrite truth_const in Hts.
    destruct (truth n x s) as [[b s1|o]|]; try done. destruct Hts as (k1 & Hk1 & Hs1 & ->). simpl.
    eapply out_mono; [exact Hk1|]. apply (IH k' term term'); [by eapply fun_mono|done|done].
  - split; [apply andb_true_iff; split; [exact Hpb|exact IHp]|exact (isim_cons n _ _ _ _ Hxb IH)].
  - split; [apply andb_true_iff; split; [exact Hpb|exact IHp]|exact (isim_cons n _ _ _ _ Hxb IH)].
Qed.
End call.
