(* ===== verification/OptExpr.v ===== *)
(** [ExprCompiled::optimize]: the optimised expression may stand for the expression.  [ok_expr] says what
    this takes: constants are frozen; no constant of the module is assigned to; and three things that the optimiser does
    do not happen: a slice with a bound that is given and not known is not folded, a loop over the empty string
    (which is an error) is not dropped, and a function that was not an attribute does not become one. *)

From S2P Require Import Prelude Hashing TableMap FastString StrFormat Symbol CodeMap.
From S2P Require Import DefParams OrdMap ParamSpec Def Ir IrWf Inline World IrEval Optimize Alike IrSim IrCompat OptCon OptCall.

Section expr.
Context `{W : World V H E TC D KM MB} {WO : WorldOk V H E TC D KM MB} {AL : Alike V H E} {AO : AlikeOk V H E TC D KM MB}.
Context {OW : OptWorld V H E TC D MB} {ctx : OptCtx (V:=V) (H:=H)} {FO : FoldOk V H E TC D KM MB ctx} {PT : PositionalTypeTests V H E TC D KM MB}.
Local Abbreviation Node := (ExprCompiled V TC D).
Local Abbreviation Expr := (Spanned (ExprCompiled V TC D)).
Local Abbreviation Target := (Spanned (AssignCompiledValue V TC D)).
Local Abbreviation Clause_ := (ClauseCompiled V TC D).
Local Abbreviation plain := (plain (TC:=TC) (D:=D) (ctx:=ctx)).
Context (try_inline : Span → Expr → ArgsCompiledValue Expr → option Expr).

(** * What optimisation takes *)

Section ok.
Context (again : Clause_ → Clause_) (ok_again : Clause_ → bool).
Local Abbreviation opt := (opt try_inline ctx again).
Local Abbreviation opt_clause := (opt_clause try_inline ctx again).

Fixpoint ok_expr (e : Node) : bool :=
  let ok (x : Expr) := ok_expr (node x) in
  let ok_option (o : option Expr) := match o with Some x => ok_expr (node x) | None => true end in
  let op (x : Expr) := opt (span x) (node x) in
  match e with
  | Value v => is_frozen v
  | Local _ | LocalCaptured _ | ModuleSlot _ => true
  | Tuple xs | List_ xs => forallb ok xs
  | Dict_ kvs => forallb (λ '(x, y), ok x && ok y) kvs
  | Compr c => ok_compr c
  | If_ c t f => ok c && ok t && ok f
  | Slice l a b c =>
    ok l && ok_option a && ok_option b && ok_option c &&
    slice_ok (op l) (option_map op a) (option_map op b) (option_map op c)
  | ExprBuiltin1 _ x => ok x
  | LogicalBinOp _ x y | Seq x y | ExprBuiltin2 _ x y => ok x && ok y
  | Index2 x y z => ok x && ok y && ok z
  | Call c =>
    ok (call_fun (node c)) && forallb ok (ca_pos_named (call_args (node c))) &&
    ok_option (ca_args (call_args (node c))) && ok_option (ca_kwargs (call_args (node c))) &&
    (is_dot (node (call_fun (node c))) || negb (is_dot (node (op (call_fun (node c))))))
  | ExprDef _ => plain e
  end
with ok_compr (c : ComprCompiled V TC D) : bool :=
  match c with
  | ComprList x cs => ok_expr (node x) && forallb ok_clause cs && compr_ok (map opt_clause cs)
  | ComprDict x y cs =>
    ok_expr (node x) && ok_expr (node y) && forallb ok_clause cs &&
    forallb (λ c, ok_again (opt_clause c)) cs && compr_ok (map again (map opt_clause cs))
  end
with ok_clause (c : Clause_) : bool :=
  match c with
  | Clause var over ifs => ok_target (node var) && ok_expr (node over) && forallb (λ x, ok_expr (node x)) ifs
  end
with ok_target (a : AssignCompiledValue V TC D) : bool :=
  match a with
  | AssignDot x _ => ok_expr (node x)
  | AssignIndex x y => ok_expr (node x) && ok_expr (node y)
  | AssignTuple l => forallb (λ a, ok_target (node a)) l
  | AssignLocal _ | AssignLocalCaptured _ => true
  | AssignModule x _ => slot_free (ctx:=ctx) x
  end.
End ok.
(** The clauses of nested dictionary comprehensions are optimised more than once. *)
Fixpoint ok_clause_again (d : nat) : Clause_ → bool :=
  match d with O => λ _, true | S d => ok_clause (opt_again try_inline ctx d) (ok_clause_again d) end.
Definition ok_optimize_expr (x : Expr) : bool :=
  ok_expr (opt_again try_inline ctx (dict_depth (node x))) (ok_clause_again (dict_depth (node x))) (node x).
Definition ok_optimize_target (a : Target) : bool :=
  ok_target (opt_again try_inline ctx (target_depth (node a))) (ok_clause_again (target_depth (node a))) (node a).

(** * Expressions *)

Context (n : nat) (Hn : 0 < n) (Hinline : inline_ok (ctx:=ctx) n try_inline).
Local Abbreviation esim := (esim n).
Local Abbreviation good := (good (ctx:=ctx) n).
Definition good_clause (c d : Clause_) : Prop := plain_clause (ctx:=ctx) d = true ∧ csim n c d.
Definition good_target (a b : AssignCompiledValue V TC D) : Prop :=
  plain_target (ctx:=ctx) b = true ∧ ∀ sp sp', gsim n (mkSpanned sp a) (mkSpanned sp' b).

Section once.
Context (again : Clause_ → Clause_) (ok_again : Clause_ → bool).
Context (Hagain : ∀ c, ok_again c = true → plain_clause (ctx:=ctx) c = true → good_clause c (again c)).
Local Abbreviation opt := (opt try_inline ctx again).
Local Abbreviation opt_clause := (opt_clause try_inline ctx again).
Local Abbreviation op x := (opt (span x) (node x)).

Definition sound_expr (e : Node) : Prop := ok_expr again ok_again e = true →
  (∀ sp sp', good (mkSpanned sp e) (opt sp' e)) ∧ dot_object (λ x, good x (op x)) e.
Definition sound_compr (c : ComprCompiled V TC D) : Prop := ok_compr again ok_again c = true →
  ∀ sp sp', good (mkSpanned sp (Compr c)) (mkSpanned sp' (opt_compr try_inline ctx again c)).
Definition sound_clause (c : Clause_) : Prop := ok_clause again ok_again c = true → good_clause c (opt_clause c).
Definition sound_target (a : AssignCompiledValue V TC D) : Prop :=
  ok_target again ok_again a = true → good_target a (opt_target try_inline ctx again a).

Lemma sound_at (x : Expr) : sound_expr (node x) → ok_expr again ok_again (node x) = true → good x (op x).
Proof. intros Hx Hok. destruct (Hx Hok) as [Hs _]. specialize (Hs (span x) (span x)). by destruct x. Qed.
Lemma forall2_map {A B} (R : A → B → Prop) (g : A → B) (p : A → bool) l :
  Forall (λ x, p x = true → R x (g x)) l → forallb p l = true → Forall2 R l (map g l).
Proof. induction 1 as [|x l Hx Hl IH]; simpl; [by constructor|]. intros [Hp Hps]%andb_true_iff. constructor; auto. Qed.
Lemma sound_list xs : Forall (on sound_expr) xs → forallb (λ x, ok_expr again ok_again (node x)) xs = true →
  Forall2 good xs (map (λ x, op x) xs).
Proof. intros Hxs. apply forall2_map. eapply Forall_impl; [exact Hxs|]. intros x. apply sound_at. Qed.
Lemma good_list xs ys : Forall2 good xs ys → forallb (λ x, plain (node x)) ys = true ∧ Forall2 esim xs ys.
Proof.
  induction 1 as [|x y xs ys [Hp Hx] Hxs [IHp IH]]; [by split|]. simpl. by rewrite Hp; split; [|constructor].
Qed.
Lemma sound_option o : on_option sound_expr o → match o with Some x => ok_expr again ok_again (node x) | None => true end = true →
  plain_option (ctx:=ctx) (option_map (λ x, op x) o) = true ∧ option_Forall2 esim o (option_map (λ x, op x) o).
Proof. destruct o as [x|]; simpl; [|by split; [|constructor]]. intros Hx Hok. destruct (sound_at x Hx Hok). by split; [|constructor]. Qed.

Lemma good_clauses cs ds : Forall2 good_clause cs ds → forallb (plain_clause (ctx:=ctx)) ds = true.
Proof. induction 1 as [|c d cs ds [Hd _] Hcs IH]; [done|]. simpl. by rewrite Hd. Qed.
Lemma good_clauses_sim cs ds : Forall2 good_clause cs ds → Forall2 (csim n) cs ds.
Proof. intros Hcs. eapply Forall2_impl; [exact Hcs|]. by intros c d [_ Hcd]. Qed.
Lemma good_tuple sp sp' ys : forallb (λ x, plain (node x)) ys = true → good (mkSpanned sp (Tuple ys)) (mkSpanned sp' (tuple ys)).
Proof.
  intros Hp. split; [by apply plain_tuple|]. unfold tuple. destruct (mapM (λ x, as_value (node x)) ys) as [vs|] eqn:Hvs;
    [|by apply (self_respan (ctx:=ctx))].
  intros k k' s s' Hk [Hh Hl]. simpl. rewrite (eval_values n _ vs) by done. simpl.
  destruct (const_tuple (ctx:=ctx) vs k' (plain_values _ _ Hvs Hp) _ _ Hh) as (u & h1 & Hu & Hh1).
  unfold with_heap. destruct (h_alloc_tuple vs (st_heap s)) as [w h2]. injection Hu as -> ->. rewrite <- (st_eta s') at 1. by apply st_cons.
Qed.
Lemma good_module_slot sp sp' (x : nat) : good (mkSpanned sp (ModuleSlot x)) (opt sp' (ModuleSlot x)).
Proof.
  simpl. destruct (m ← ctx_frozen_module ctx; m x) as [v|] eqn:Hv; [|by apply good_respan].
  apply bind_Some in Hv as (m & Hm & Hv). split; [by eapply (frozen_slot (ctx:=ctx))|]. intros k k' s s' Hk Hs. simpl.
  erewrite at_span_eq; [rewrite at_span_done|by eapply (module_slot (ctx:=ctx)), Hs].
  apply (out_const (ctx:=ctx)); [by eapply (frozen_slot (ctx:=ctx))|done].
Qed.
Lemma sound_args a : Forall (on sound_expr) (ca_pos_named a) → on_option sound_expr (ca_args a) → on_option sound_expr (ca_kwargs a) →
  forallb (λ x, ok_expr again ok_again (node x)) (ca_pos_named a) = true →
  match ca_args a with Some x => ok_expr again ok_again (node x) | None => true end = true →
  match ca_kwargs a with Some x => ok_expr again ok_again (node x) | None => true end = true →
  plain_args (ctx:=ctx) (map_args (λ x, op x) a) = true ∧ args_esim n a (map_args (λ x, op x) a).
Proof.
  intros H1 H2 H3 O1 O2 O3. destruct (good_list _ _ (sound_list _ H1 O1)) as [P1 E1].
  destruct (sound_option _ H2 O2) as [P2 E2]. destruct (sound_option _ H3 O3) as [P3 E3].
  split; [unfold plain_args; simpl; unfold plain_option in *; by rewrite P1, P2, P3|by split_and!].
Qed.
(** Everything that is optimised may stand for what it was. *)
Local Ltac sound_parts :=
  repeat match goal with
  | H : sound_expr (node ?x), Hok : ok_expr _ _ (node ?x) = true |- _ =>
    lazymatch goal with
    | _ : IrCompat.esim _ x _ |- _ => fail
    | _ => let Hs := fresh "Hs" in let Hp := fresh "Hp" in destruct (sound_at x H Hok) as [Hp Hs]
    end
  end.
Lemma sound_cases : (∀ e, sound_expr e) ∧ (∀ c, sound_compr c) ∧ (∀ c, sound_clause c) ∧ (∀ a, sound_target a).
Proof.
  apply ir_induction. split; intros; intros Hok; simpl in Hok; bool_to_prop; sound_parts;
    try (split; [intros sp sp'; simpl|try done]); try intros sp sp'; simpl.
  - by apply (good_respan (ctx:=ctx)).
  - by apply (good_respan (ctx:=ctx)).
  - by apply (good_respan (ctx:=ctx)).
  - apply good_module_slot.
  - rename select (Forall _ _) into Hxs. destruct (good_list _ _ (sound_list _ Hxs Hok)) as [Hp He].
    eapply (good_trans (ctx:=ctx)); [by apply (sim_tuple n sp sp)|by apply good_tuple].
  - rename select (Forall _ _) into Hxs. destruct (good_list _ _ (sound_list _ Hxs Hok)) as [Hp He].
    split; [done|by apply sim_list].
  - rename select (Forall _ _) into Hkvs.
    assert (Forall2 (λ p q : Expr * Expr, good p.1 q.1 ∧ good p.2 q.2) kvs (map (λ '(x, y), (op x, op y)) kvs)) as Hall.
    { eapply forall2_map; [|exact Hok]. eapply Forall_impl; [exact Hkvs|]. intros [x y] [Hx Hy] [? ?]%andb_true_iff. by split; apply sound_at. }
    split.
    + clear -Hall. induction Hall as [|[x y] [x' y'] l l' [[Hx _] [Hy _]] Hl IH]; [done|]. simpl in *. by rewrite Hx, Hy, IH.
    + apply sim_dict. eapply Forall2_impl; [exact Hall|]. intros p q [[_ Hp] [_ Hq]]. by split.
  - by auto.
  - eapply (good_trans (ctx:=ctx)); [by apply (sim_if n sp sp); [by apply esim_tsim| |]|by apply good_if].
  - destruct (sound_option a) as [Pa Ea]; [done..|]. destruct (sound_option b) as [Pb Eb]; [done..|]. destruct (sound_option c) as [Pc Ec]; [done..|].
    eapply (good_trans (ctx:=ctx)); [by apply (sim_slice n sp sp')|by apply good_slice].
  - eapply (good_trans (ctx:=ctx)); [by apply (sim_builtin1 (ctx:=ctx) n sp sp')|by apply good_un_op].
  - match goal with |- context [ExprBuiltin1 ?o _] => by destruct o | o : Builtin1 |- _ => by destruct o end.
  - eapply (good_trans (ctx:=ctx)); [by apply (sim_logical n sp sp)|by apply good_logical].
  - eapply (good_trans (ctx:=ctx)); [by apply (sim_seq n sp sp)|by apply good_seq].
  - eapply (good_trans (ctx:=ctx)); [by apply (sim_builtin2 (ctx:=ctx) n sp sp)|by apply good_bin_op].
  - eapply (good_trans (ctx:=ctx)); [by apply (sim_index2 n sp sp)|]. apply good_respan. simpl. by rewrite Hp, Hp0, Hp1.
  - destruct c as [csp [f a]]. simpl in *. sound_parts. destruct (sound_args a) as [Pa Ea]; [done..|].
    apply optimized_call; [done..|]. destruct (is_dot (node f)) eqn:Hd.
    + rename select (sound_expr (node f)) into Hf. rename select (ok_expr _ _ (node f) = true) into Hokf.
      destruct (Hf Hokf) as [_ Hobject]. destruct f as [fsp e]. simpl in *.
      destruct e as [| | | | | | | | | |[] x0| | | | | |]; try done. by eexists _, x0, (op x0), fsp.
    + by apply negb_true_iff.
  - by apply good_respan.
  - rename select (Forall _ cs) into Hcs.
    assert (Forall2 good_clause cs (map opt_clause cs)) as Hall by by eapply forall2_map.
    eapply (good_trans (ctx:=ctx)); [apply (sim_compr_list n sp sp); [exact Hs|by apply good_clauses_sim]|].
    apply (good_compr (ctx:=ctx) n Hn sp sp' (ComprList (op x) (map opt_clause cs))); [|done].
    apply andb_true_iff. split; [exact Hp|exact (good_clauses _ _ Hall)].
  - rename select (Forall _ cs) into Hcs. rename select (forallb (λ c, ok_again _) cs = true) into Hag.
    assert (Forall2 good_clause cs (map opt_clause cs)) as Hall by by eapply forall2_map.
    assert (Forall2 good_clause (map opt_clause cs) (map again (map opt_clause cs))) as Hall2.
    { rewrite forallb_forall in Hag. eapply (forall2_map good_clause again (λ _, true)); [|by apply forallb_forall].
      apply Forall_forall. intros d Hd%list_elem_of_fmap _. destruct Hd as (c & -> & Hc). apply Hagain; [by apply Hag, list_elem_of_In|].
      pose proof (good_clauses _ _ Hall) as Hpc. rewrite forallb_forall in Hpc. apply Hpc, list_elem_of_In.
      by apply list_elem_of_fmap_2. }
    eapply (good_trans (ctx:=ctx)); [by apply (sim_compr_dict n sp sp); [eassumption..|apply good_clauses_sim; exact Hall]|].
    eapply (good_trans (ctx:=ctx)); [by apply (sim_compr_dict n sp sp); [apply (self_plain (ctx:=ctx))|apply (self_plain (ctx:=ctx))|apply good_clauses_sim; exact Hall2]|].
    apply (good_compr (ctx:=ctx) n Hn sp sp' (ComprDict (op k) (op v) (map again (map opt_clause cs)))); [|done].
    apply andb_true_iff. split; [apply andb_true_iff; by split|exact (good_clauses _ _ Hall2)].
  - rename select (sound_target (node var)) into Hvar. destruct Hvar as [Pv Gv]; [done|].
    rename select (Forall _ ifs) into Hifs. destruct (good_ifs (ctx:=ctx) n ifs (map (λ x, op x) ifs)) as [Pi Si]; [by apply sound_list|].
    split; [apply andb_true_iff; split; [apply andb_true_iff; by split|exact Pi]|].
    apply csim_clause; [destruct var; apply Gv|done|done].
  - split; [done|]. intros sp sp'. by apply gsim_dot.
  - split; [apply andb_true_iff; by split|]. intros sp sp'. by apply gsim_index.
  - rename select (Forall _ xs) into Hxs.
    assert (Forall2 (λ a b : Target, good_target (node a) (node b)) xs (map (λ a, mkSpanned (span a) (opt_target try_inline ctx again (node a))) xs)) as Hall
      by (eapply (forall2_map _ (λ a : Target, mkSpanned (span a) (opt_target try_inline ctx again (node a)))); [exact Hxs|exact Hok]).
    split.
    + clear -Hall. induction Hall as [|a b l l' [Hb _] Hl IH]; [done|]. simpl in *. by rewrite Hb, IH.
    + intros sp sp'. apply gsim_tuple. eapply Forall2_impl; [exact Hall|]. intros [asp a] [bsp b] [_ Hg]. apply Hg.
  - split; [done|]. intros sp sp'. apply gsim_local.
  - split; [done|]. intros sp sp'. apply gsim_captured.
  - split; [done|]. intros sp sp'. by apply (gsim_module (ctx:=ctx)).
Qed.
End once.

Lemma again_good d c : ok_clause_again d c = true → plain_clause (ctx:=ctx) c = true → good_clause c (opt_again try_inline ctx d c).
Proof.
  revert c. induction d as [|d IH]; intros c Hok Hp; simpl in *.
  - split; [done|]. by apply (self_cases (ctx:=ctx) n).
  - by apply (sound_cases _ _ IH).
Qed.
Lemma optimize_expr_good x : ok_optimize_expr x = true → good x (optimize_expr try_inline ctx x).
Proof.
  intros Hok. pose proof (sound_cases _ _ (again_good (dict_depth (node x)))) as [He _].
  by apply (sound_at _ _ x (He (node x))).
Qed.
Lemma optimize_target_good a : ok_optimize_target a = true →
  gsim n a (optimize_target try_inline ctx a).
Proof.
  intros Hok. pose proof (sound_cases _ _ (again_good (target_depth (node a)))) as (_ & _ & _ & Ha).
  destruct (Ha (node a) Hok) as [_ Hg]. specialize (Hg (span a) (span a)). by destruct a.
Qed.
End expr.
