(* ===== verification/InlineOk.v ===== *)
(** Inlining: the expression that stands for a call in [CallCompiled::try_inline] may stand for it.  The body of the function,
    run in a frame of its own, does what the body with the arguments for the parameters does in the frame of the
    caller ([run_same]); the optimiser makes the inlined expression of that ([sound_inline]). *)

From S2P Require Import Prelude Hashing TableMap FastString StrFormat Symbol CodeMap.
From S2P Require Import DefParams OrdMap ParamSpec Def Ir IrWf Inline World IrEval Optimize Alike IrSim IrCompat OptCon OptCall OptExpr.

Section body.
Context `{W : World V H E TC D KM MB} {OW : OptWorld V H E TC D MB} {AL : Alike V H E}.
Local Abbreviation Node := (ExprCompiled V TC D).
Local Abbreviation Expr := (Spanned (ExprCompiled V TC D)).

(** * What inlining takes of a body *)

(** Every constant, variable and callee in a body. *)
Section parts.
Context (value : V → bool) (local : nat → bool) (callee : Node → bool).
Fixpoint each_part (e : Node) : bool :=
  let ok (x : Expr) := each_part (node x) in
  let ok_option (o : option Expr) := match o with Some x => each_part (node x) | None => true end in
  match e with
  | Value v => value v
  | Local l => local l
  | LocalCaptured _ | ModuleSlot _ | Compr _ | ExprDef _ => true
  | Tuple xs | List_ xs => forallb ok xs
  | Dict_ kvs => forallb (λ '(x, y), ok x && ok y) kvs
  | If_ c t f => ok c && ok t && ok f
  | Slice l a b c => ok l && ok_option a && ok_option b && ok_option c
  | ExprBuiltin1 _ x => ok x
  | LogicalBinOp _ x y | Seq x y | ExprBuiltin2 _ x y => ok x && ok y
  | Index2 x y z => ok x && ok y && ok z
  | Call c =>
    ok (call_fun (node c)) && forallb ok (ca_pos_named (call_args (node c))) &&
    ok_option (ca_args (call_args (node c))) && ok_option (ca_kwargs (call_args (node c))) &&
    callee (node (call_fun (node c)))
  end.
End parts.

(** What is called cannot turn into an attribute when it is optimised, unless it is one: it is a constant, a parameter, an
    attribute or an element, and not the result of a condition or of another call. *)
Definition steady_callee (e : Node) : bool :=
  match e with
  | Value _ | Local _ | ExprBuiltin1 (Dot _) _ | ExprBuiltin2 ArrayIndex _ _ | Index2 _ _ _ | Slice _ _ _ _ => true
  | _ => false
  end.
(** The constants of a frozen function are frozen, and [Local] is a parameter that is not captured. *)
Definition ok_inlined (captures : list nat) : Node → bool :=
  each_part is_frozen (λ l, bool_decide (l ∉ captures)) (λ _, true).
Definition steady : Node → bool := each_part (λ _, true) (λ _, true) steady_callee.
Definition inlined_part (P : list nat → Node → bool) (d : FrozenDef V TC D) : bool :=
  match def_inline_body new_none d with
  | Some (ReturnSafeToInlineExpr e) => P (parameter_captures (fd_params d)) (node e)
  | _ => true
  end.

Lemma forallb_and {A} (p q r : A → bool) l : Forall (λ x, p x = true → q x = true → r x = true) l →
  forallb p l = true → forallb q l = true → forallb r l = true.
Proof. induction 1 as [|x l Hx Hl IH]; [done|]. simpl. intros Hp Hq. bool_to_prop. apply andb_true_iff. auto. Qed.
Lemma each_part_and value local callee e :
  each_part value local (λ _, true) e = true → each_part (λ _, true) (λ _, true) callee e = true → each_part value local callee e = true.
Proof.
  set (P e := each_part value local (λ _, true) e = true → each_part (λ _, true) (λ _, true) callee e = true →
    each_part value local callee e = true).
  assert (∀ o : option Expr, on_option P o → match o with Some x => each_part value local (λ _, true) (node x) | None => true end = true →
    match o with Some x => each_part (λ _, true) (λ _, true) callee (node x) | None => true end = true →
    match o with Some x => each_part value local callee (node x) | None => true end = true) as Hoption by by intros [x|].
  revert e. refine (proj1 (ir_induction P (λ _, True) (λ _, True) (λ _, True) _)).
  split; try done; unfold P; intros; simpl in *; bool_to_prop; repeat (apply andb_true_iff; split); auto.
  all: match goal with Hp : forallb ?p ?l = true, Hq : forallb ?q ?l = true |- forallb ?r ?l = true => apply (forallb_and p q r l) end;
    try done.
  eapply Forall_impl; [eassumption|].
  intros [x y] [Hx Hy]. simpl in *. intros. bool_to_prop. apply andb_true_iff. auto.
Qed.

(** * The arguments for the parameters *)

Fixpoint subst (slots : list V) (e : Node) : Node :=
  let sub (x : Expr) := mkSpanned (span x) (subst slots (node x)) in
  match e with
  | Local l =>
    match slots !! l with
    | Some v => match as_local v with Some x => Local x | None => Value v end
    | None => e
    end
  | Value _ | LocalCaptured _ | ModuleSlot _ | Compr _ | ExprDef _ => e
  | Tuple xs => Tuple (map sub xs)
  | List_ xs => List_ (map sub xs)
  | Dict_ kvs => Dict_ (map (λ '(k, v), (sub k, sub v)) kvs)
  | If_ c t f => If_ (sub c) (sub t) (sub f)
  | Slice l a b c => Slice (sub l) (option_map sub a) (option_map sub b) (option_map sub c)
  | ExprBuiltin1 o x => ExprBuiltin1 o (sub x)
  | LogicalBinOp o l r => LogicalBinOp o (sub l) (sub r)
  | Seq l r => Seq (sub l) (sub r)
  | ExprBuiltin2 o l r => ExprBuiltin2 o (sub l) (sub r)
  | Index2 a i0 i1 => Index2 (sub a) (sub i0) (sub i1)
  | Call c => Call (mkSpanned (span c) (mkCall (sub (call_fun (node c))) (map_args sub (call_args (node c)))))
  end.
(** What a value that stands for a variable is in a frame. *)
Definition place (locals : list (option V)) (v : V) : V :=
  match as_local v with
  | Some x => match locals !! x with Some (Some w) => w | _ => v end
  | None => v
  end.
Definition map_arguments (f : V → V) (a : Args V) : Args V :=
  mkArguments (map f (arg_pos a)) (map f (arg_named a)) (arg_names a) (option_map f (arg_args a)) (option_map f (arg_kwargs a)).
(** The call ended as the body did; its frame is gone. *)
Definition ends_like (r : result E V * H) (o : Outcome V H E) : Prop :=
  match r, o with
  | (Ok v, h), Returned w h2 => v = w ∧ drops h2 h
  | (Err e, h), Raised e2 h2 => same_error e e2 ∧ drops h2 h
  | (Fault f, _), Faulted f2 => f = f2
  | _, _ => False
  end.
End body.

(** A frozen function that has no type annotations runs its body in a frame in which the parameters have the values that the
    arguments are collected into, within the limit on the depth of calls. *)
Class CallOk (V H E TC D KM MB : Type) `{W : World V H E TC D KM MB} {OW : OptWorld V H E TC D MB} {AL : Alike V H E}
    (ctx : OptCtx (V:=V) (H:=H)) := {
  params_assigned : ctx_param_count ctx ≤ assigned_params (V:=V) (H:=H) (E:=E);
  same_error_span e sp h : same_error (add_span_to_expr_error e sp h) e;
  as_local_value x v : local_as_value x = Some v → as_local v = Some x;
  frozen_not_local v : is_frozen v = true → as_local v = None;
  frozen_def_ok f d : frozen_def f = Some d → inlined_part ok_inlined d = true;
  (** Collecting does not look at the values of the arguments. *)
  collect_place f d g a slots :
    frozen_def f = Some d → spec_has_args_or_kwargs (compiled_indices (fd_params d)) = false →
    (∀ v, as_local v = None → g v = v) → collect_slots f a = Some slots →
    collect_slots f (map_arguments g a) = Some (map (option_map g) slots);
  call_runs f d a vs sp h :
    frozen_def f = Some d → spec_has_args_or_kwargs (compiled_indices (fd_params d)) = false →
    fd_has_return_type d || has_types (fd_params d) = false → collect_slots f a = Some (map Some vs) →
    ∃ ls h1, (∀ x v, vs !! x = Some v → x ∉ parameter_captures (fd_params d) → ls !! x = Some (Some v)) ∧ drops h h1 ∧
      ∀ n o, exec_body n false (fd_body d) (mkSt ls h1) = Some o → ends_like (invoke_with_loc f sp a h) o;
}.

(** What the functions that are inlined call cannot turn into an attribute.  The optimiser does not look:
    in [def f(x): return (x.a if x else x.b)(fail())] it makes a method call of the call when [x] is known, and the
    argument is evaluated before the attribute is looked up instead of after it. *)
Class SteadyCallees (V H E TC D KM MB : Type) `{W : World V H E TC D KM MB} {OW : OptWorld V H E TC D MB} :=
  steady_callees f d : frozen_def f = Some d → inlined_part (λ _, steady) d = true.

(** * Two frames *)

Section run.
Context `{W : World V H E TC D KM MB}.
Implicit Types (s : St V H) (sp : Span) (h : H).
Local Abbreviation out := (out V H E).
Context (ls lc : list (option V)).

Definition close {A} (l : list (option V)) (r : result E A * H) : option (out A) :=
  Some match r with
  | (Ok a, h) => Done a (mkSt l h) | (Err e, h) => Exits (Raised e h) | (Fault f, _) => Exits (Faulted f)
  end.
(** Two computations do the same, one in the frame [ls] and one in the frame [lc], and leave the frames alone. *)
Definition run_same {A} (m m' : St V H → option (out A)) : Prop := ∀ h, ∃ r, m (mkSt ls h) = close ls r ∧ m' (mkSt lc h) = close lc r.

Lemma run_ret {A} (a : A) : run_same (ret a) (ret a).
Proof. intros h. by exists (Ok a, h). Qed.
Lemma run_bind {A B} (m m' : St V H → option (out A)) (f g : A → St V H → option (out B)) :
  run_same m m' → (∀ a, run_same (f a) (g a)) → run_same (λ s, obind (m s) f) (λ s, obind (m' s) g).
Proof.
  intros Hm Hfg h. destruct (Hm h) as ([[a|e|x] h1] & -> & ->); simpl; [apply Hfg|by exists (Err e, h1)|by exists (Fault x, h1)].
Qed.
Lemma run_at_span {A} sp (o : Op H E A) : run_same (at_span sp o) (at_span sp o).
Proof.
  intros h. unfold at_span. simpl. destruct (o h) as [[a|e|f] h1].
  - by exists (Ok a, h1).
  - by exists (Err (add_span_to_expr_error e sp h1), h1).
  - by exists (Fault f, h1).
Qed.
Lemma run_with_heap {A} (o : H → A * H) : run_same (with_heap o) (with_heap o).
Proof. intros h. unfold with_heap. simpl. destruct (o h) as [a h1]. by exists (Ok a, h1). Qed.
Lemma run_if {A} (v : V) (f g f' g' : St V H → option (out A)) : run_same f f' → run_same g g' →
  run_same (λ s, if to_bool v (st_heap s) then f s else g s) (λ s, if to_bool v (st_heap s) then f' s else g' s).
Proof. intros Hf Hg h. simpl. destruct (to_bool v h); [apply Hf|apply Hg]. Qed.
Lemma run_eqb {A} (v : V) b (f g f' g' : St V H → option (out A)) : run_same f f' → run_same g g' →
  run_same (λ s, if Bool.eqb (to_bool v (st_heap s)) b then f s else g s) (λ s, if Bool.eqb (to_bool v (st_heap s)) b then f' s else g' s).
Proof. intros Hf Hg h. simpl. destruct (Bool.eqb _ _); [apply Hf|apply Hg]. Qed.
Lemma run_elems {A B C} (f : A → St V H → option (out C)) (g : B → St V H → option (out C)) l l' :
  Forall2 (λ x y, run_same (f x) (g y)) l l' → run_same (eval_list f l) (eval_list g l').
Proof.
  induction 1 as [|x y l l' Hxy Hl IH]; [apply run_ret|]. apply run_bind; [done|]. intros v.
  apply run_bind; [done|]. intros vs. apply run_ret.
Qed.
Lemma run_option {A B C} (f : A → St V H → option (out C)) (g : B → St V H → option (out C)) o o' :
  option_Forall2 (λ x y, run_same (f x) (g y)) o o' → run_same (eval_option f o) (eval_option g o').
Proof. intros [x y Hxy|]; [|apply run_ret]. apply run_bind; [done|]. intros v. apply run_ret. Qed.
Lemma run_pairs {A B C} (f : A → St V H → option (out C)) (g : B → St V H → option (out C)) l l' :
  Forall2 (λ p q, run_same (f p.1) (g q.1) ∧ run_same (f p.2) (g q.2)) l l' → run_same (eval_pairs f l) (eval_pairs g l').
Proof.
  induction 1 as [|[x1 x2] [y1 y2] l l' [H1 H2] Hl IH]; [apply run_ret|]. simpl in *. apply run_bind; [done|]. intros v.
  apply run_bind; [done|]. intros w. apply run_bind; [done|]. intros vs. apply run_ret.
Qed.
End run.

Section sound.
Context `{W : World V H E TC D KM MB} {WO : WorldOk V H E TC D KM MB} {AL : Alike V H E} {AO : AlikeOk V H E TC D KM MB}.
Context {OW : OptWorld V H E TC D MB} {ctx : OptCtx (V:=V) (H:=H)} {FO : FoldOk V H E TC D KM MB ctx} {PT : PositionalTypeTests V H E TC D KM MB}.
Local Abbreviation Node := (ExprCompiled V TC D).
Local Abbreviation Expr := (Spanned (ExprCompiled V TC D)).
Local Abbreviation Args_ := (ArgsCompiledValue (Spanned (ExprCompiled V TC D))).
Local Abbreviation plain := (plain (TC:=TC) (D:=D) (ctx:=ctx)).
Context (n : nat).
Implicit Types ls lc : list (option V).
Local Abbreviation ev x := (eval n (span x) (node x)).
Local Abbreviation evs := (λ (x : Expr) s, eval n (span x) (node x) s).
Local Abbreviation esim := (esim n).
Local Abbreviation good := (good (ctx:=ctx) n).

(** ** Calls in two frames *)

Definition args_run ls lc (a a' : Args_) : Prop :=
  Forall2 (λ x y : Expr, run_same ls lc (ev x) (ev y)) (ca_pos_named a) (ca_pos_named a') ∧ ca_names a = ca_names a' ∧
  option_Forall2 (λ x y : Expr, run_same ls lc (ev x) (ev y)) (ca_args a) (ca_args a') ∧
  option_Forall2 (λ x y : Expr, run_same ls lc (ev x) (ev y)) (ca_kwargs a) (ca_kwargs a').
Lemma run_args ls lc a a' : args_run ls lc a a' → run_same ls lc (eval_args evs a) (eval_args evs a').
Proof.
  intros (Hp & Hn & Ha & Hk). unfold eval_args. rewrite Hn. apply run_bind; [by apply run_elems|]. intros vs.
  apply run_bind; [by apply run_option|]. intros v. apply run_bind; [by apply run_option|]. intros w. apply run_ret.
Qed.
Lemma run_eq {A} ls lc (m1 m2 m1' m2' : St V H → option (out V H E A)) :
  (∀ s, m1 s = m2 s) → (∀ s, m1' s = m2' s) → run_same ls lc m2 m2' → run_same ls lc m1 m1'.
Proof. intros H1 H2 Hr h. rewrite H1, H2. apply Hr. Qed.
Lemma run_call ls lc sp csp (f f' : Expr) a a' : is_dot (node f) = false → is_dot (node f') = false →
  run_same ls lc (ev f) (ev f') → args_run ls lc a a' →
  run_same ls lc (eval n sp (Call (mkSpanned csp (mkCall f a)))) (eval n sp (Call (mkSpanned csp (mkCall f' a')))).
Proof.
  intros Hd Hd' Hf Ha. eapply run_eq.
  - intros s. etrans; [apply (call_eval n sp csp f a s)|]. by apply not_dot_invoke.
  - intros s. etrans; [apply (call_eval n sp csp f' a' s)|]. by apply not_dot_invoke.
  - apply run_bind; [done|]. intros g. apply run_bind; [by apply run_args|]. intros b. apply run_at_span.
Qed.
Lemma run_method ls lc sp csp (f f' x x' : Expr) field a a' :
  node f = ExprBuiltin1 (Dot field) x → node f' = ExprBuiltin1 (Dot field) x' →
  run_same ls lc (ev x) (ev x') → args_run ls lc a a' →
  run_same ls lc (eval n sp (Call (mkSpanned csp (mkCall f a)))) (eval n sp (Call (mkSpanned csp (mkCall f' a')))).
Proof.
  intros Hd Hd' Hx Ha. eapply run_eq.
  - intros s. etrans; [apply (call_eval n sp csp f a s)|]. by apply dot_invoke.
  - intros s. etrans; [apply (call_eval n sp csp f' a' s)|]. by apply dot_invoke.
  - apply run_bind; [done|]. intros g. apply run_bind; [by apply run_args|]. intros b. apply run_at_span.
Qed.

(** ** The inlined expression *)

Context (try_inline : Span → Expr → Args_ → option Expr) (Hinline : inline_ok (ctx:=ctx) n try_inline).
Context (captures : list nat) (slots : list V).
Context (Hslots : Forall (λ v, is_frozen v = true ∨ is_Some (as_local v)) slots).
Local Abbreviation ok := (each_part is_frozen (λ l, bool_decide (l ∉ captures)) steady_callee).
Local Abbreviation inl_ := (inline try_inline ctx slots).
Local Abbreviation sub x := (mkSpanned (span x) (subst slots (node x))).
(** The frame of the call has the parameters, that of the caller its variables. *)
Definition slots_hold (ls lc : list (option V)) : Prop := ∀ l v, slots !! l = Some v → l ∉ captures →
  match as_local v with
  | Some x => ∃ w, ls !! l = Some (Some w) ∧ lc !! x = Some (Some w)
  | None => ls !! l = Some (Some v)
  end.
Definition same_in_frames (e : Node) : Prop := ∀ ls lc sp, slots_hold ls lc →
  run_same ls lc (eval n sp e) (eval n sp (subst slots e)).
Definition same_at (x : Expr) : Prop := ∀ ls lc, slots_hold ls lc → run_same ls lc (ev x) (ev (sub x)).
Definition both (x y : Expr) : Prop := good (sub x) y ∧ same_at x.
(** What is known of an expression that was inlined to [y]. *)
Definition sound_to (e : Node) (y : Expr) : Prop :=
  (∀ sp, good (mkSpanned sp (subst slots e)) y) ∧ same_in_frames e ∧
  match e with
  | ExprBuiltin1 (Dot field) x => ∃ z usp, both x z ∧ node y = un_op ctx usp (Dot field) z
  | Value _ | Local _ | ExprBuiltin2 ArrayIndex _ _ | Index2 _ _ _ | Slice _ _ _ _ => is_dot (node y) = false ∧ is_dot (subst slots e) = false
  | _ => True
  end.
Definition sound_inline (e : Node) : Prop := ok e = true → ∀ sp y, inl_ sp e = Ok y → sound_to e y.

Lemma inline_at (x y : Expr) : sound_inline (node x) → ok (node x) = true → inl_ (span x) (node x) = Ok y →
  both x y.
Proof. intros Hx Hok Hy. destruct (Hx Hok _ _ Hy) as (Hg & Hr & _). split; [apply Hg|]. intros ls lc Hh. by apply Hr. Qed.
Lemma inline_list_ok {A B} (f : A → result () B) xs ys : inline_list f xs = Ok ys → Forall2 (λ x y, f x = Ok y) xs ys.
Proof.
  revert ys. induction xs as [|x xs IH]; intros ys Hys; simpl in Hys; [injection Hys as <-; constructor|].
  destruct (f x) as [y| |] eqn:Hx; [|done..]. simpl in Hys. fold (inline_list f xs) in Hys.
  destruct (inline_list f xs) as [ys'| |]; [|done..]. injection Hys as <-. constructor; [done|]. by apply IH.
Qed.
Lemma inline_all xs ys : Forall (on sound_inline) xs → forallb (λ x, ok (node x)) xs = true →
  inline_list (λ x : Expr, inl_ (span x) (node x)) xs = Ok ys → Forall2 both xs ys.
Proof.
  intros Hxs Hok Hys%inline_list_ok. induction Hys as [|x y xs ys Hxy Hys IH]; [constructor|].
  inversion Hxs; subst. simpl in Hok. bool_to_prop. constructor; [by apply inline_at|by apply IH].
Qed.
Lemma inline_some o o' : on_option sound_inline o → match o with Some x => ok (node x) | None => true end = true →
  inline_option (λ x : Expr, inl_ (span x) (node x)) o = Ok o' → option_Forall2 both o o'.
Proof.
  intros Ho Hok Ho'. destruct o as [x|]; simpl in Ho'; [|injection Ho' as <-; constructor].
  destruct (inl_ (span x) (node x)) as [y| |] eqn:Hy; [|done..]. injection Ho' as <-. constructor. by apply inline_at.
Qed.
(** Both halves, of lists and options. *)
Lemma sound_goods xs ys : Forall2 both xs ys →
  forallb (λ x, plain (node x)) ys = true ∧ Forall2 esim (map (λ x : Expr, sub x) xs) ys.
Proof.
  induction 1 as [|x y xs ys [[Hp Hx] _] Hxs [IHp IH]]; [by split|]. simpl. by rewrite Hp; split; [|constructor].
Qed.
Lemma sound_runs ls lc xs ys : slots_hold ls lc → Forall2 both xs ys →
  Forall2 (λ x y : Expr, run_same ls lc (ev x) (ev y)) xs (map (λ x : Expr, sub x) xs).
Proof. intros Hh. induction 1 as [|x y xs ys [_ Hr] Hxs IH]; constructor; [by apply Hr|done]. Qed.
Lemma sound_good_option o o' : option_Forall2 both o o' →
  plain_option (ctx:=ctx) o' = true ∧ option_Forall2 esim (option_map (λ x : Expr, sub x) o) o'.
Proof. intros [x y [[Hp Hx] _]|]; [by split; [|constructor]|by split; [|constructor]]. Qed.
Lemma sound_run_option ls lc o o' : slots_hold ls lc → option_Forall2 both o o' →
  option_Forall2 (λ x y : Expr, run_same ls lc (ev x) (ev y)) o (option_map (λ x : Expr, sub x) o).
Proof. intros Hh [x y [_ Hr]|]; constructor. by apply Hr. Qed.
Lemma good_respan_to (x y : Expr) sp : good x y → good x (mkSpanned sp (node y)).
Proof.
  intros [Hp Hs]. split; [done|]. eapply (esim_trans (ctx:=ctx)); [exact Hs|].
  destruct y as [ysp e]. by apply (self_respan (ctx:=ctx)).
Qed.

Local Ltac inline_parts :=
  repeat match goal with
  | Hy : _ ≫= _ = Ok _ |- _ => let y := fresh "y" in let H' := fresh "Hy" in apply bind_Ok in Hy as (y & H' & Hy)
  | H : sound_inline (node ?x), Hok : each_part _ _ _ (node ?x) = true, Hy : inline _ _ _ (span ?x) (node ?x) = Ok ?y |- _ =>
    let Hp := fresh "Hp" in let Hs := fresh "Hs" in let Hr := fresh "Hr" in
    pose proof (inline_at x y H Hok Hy) as [[Hp Hs] Hr]; clear Hy
  | Hy : inline_list (λ x, inline _ _ _ (span x) (node x)) ?xs = Ok ?ys |- _ =>
    let Ha := fresh "Ha" in eapply inline_all in Hy as Ha; [clear Hy|eassumption..]
  | Hy : inline_option _ ?o = Ok ?o' |- _ =>
    let Ha := fresh "Ha" in eapply inline_some in Hy as Ha; [clear Hy|eassumption..]
  end.
Lemma sound_local (l : nat) : sound_inline (Local l).
Proof.
  intros Hok sp y Hy. simpl in Hok. apply bool_decide_eq_true in Hok. simpl in Hy. unfold sound_to, same_in_frames. simpl.
  destruct (slots !! l) as [v|] eqn:Hl; [|done]. injection Hy as <-.
  assert (is_frozen v = true ∨ is_Some (as_local v)) as Hv by by rewrite Forall_forall in Hslots; eapply Hslots, list_elem_of_lookup_2.
  destruct (as_local v) as [x|] eqn:Hx; (split_and!; [|intros ls lc sp1 Hh h; specialize (Hh l v Hl Hok); rewrite Hx in Hh|done..]).
  - intros sp0. by apply (good_respan (ctx:=ctx)).
  - destruct Hh as (w & Hw & Hw'). exists (Ok w, h). simpl. unfold get_local. simpl. by rewrite Hw, Hw'.
  - intros sp0. destruct Hv as [Hv|[? [=]]]. by apply (good_respan (ctx:=ctx)).
  - exists (Ok v, h). simpl. unfold get_local. simpl. by rewrite Hh.
Qed.
Lemma sound_dict kvs (y : list (Expr * Expr)) : Forall (λ p : Expr * Expr, sound_inline (node p.1) ∧ sound_inline (node p.2)) kvs →
  forallb (λ '(x, y), ok (node x) && ok (node y)) kvs = true →
  inline_list (λ '(k, v), k ← inl_ (span k) (node k); v ← inl_ (span v) (node v); Ok (k, v)) kvs = Ok y →
  Forall2 (λ p q : Expr * Expr, both p.1 q.1 ∧ both p.2 q.2) kvs y.
Proof.
  intros Hkvs Hok Hys%inline_list_ok. induction Hys as [|[x1 x2] [y1 y2] xs ys Hxy Hys IH]; [constructor|].
  inversion Hkvs as [|? ? [H1 H2]]; subst. simpl in *. bool_to_prop. apply bind_Ok in Hxy as (z1 & Hz1 & Hxy).
  apply bind_Ok in Hxy as (z2 & Hz2 & [= -> ->]). constructor; [split; by apply inline_at|by apply IH].
Qed.
Local Ltac run_part :=
  match goal with Hr : same_at ?x |- run_same _ _ ?m _ => lazymatch m with context [node x] => by apply Hr end end.
Lemma fold_not_dot sp (o : Op H E V) (e : Node) : fold_value ctx sp o = Some e → is_dot e = false.
Proof.
  unfold fold_value. intros ([v h] & _ & He)%bind_Some. destruct (contents v h) as [u ts]. simpl in He.
  repeat case_match; simplify_eq; try done; apply fmap_Some in He as (xs & _ & ->); [done|]. unfold tuple. by case_match.
Qed.
Lemma index_not_dot (x y : Expr) : is_dot (bin_op ctx ArrayIndex x y) = false.
Proof.
  unfold bin_op, index. repeat case_match; try done; rename select (_ = Some _) into He.
  all: apply bind_Some in He as (a & _ & He); apply bind_Some in He as (b & _ & He); by eapply fold_not_dot.
Qed.
Lemma steady_shape e (y : Expr) : steady_callee e = true → sound_to e y →
  (∃ field x z usp, e = ExprBuiltin1 (Dot field) x ∧ both x z ∧ node y = un_op ctx usp (Dot field) z) ∨
  is_dot e = false ∧ is_dot (subst slots e) = false ∧ is_dot (node y) = false.
Proof.
  intros He (_ & _ & Hs). destruct e as [| | | | | | | | | |op x| | |op x z| | |]; try done; try (right; by destruct Hs).
  - destruct op; try done. destruct Hs as (z & usp & Hz & Hy). left. by eexists _, x, z, usp.
  - destruct op; try done. right. by destruct Hs.
Qed.
Lemma sound_call c : sound_inline (node (call_fun (node c))) → Forall (on sound_inline) (ca_pos_named (call_args (node c))) →
  on_option sound_inline (ca_args (call_args (node c))) → on_option sound_inline (ca_kwargs (call_args (node c))) → sound_inline (Call c).
Proof.
  destruct c as [csp [f a]]. cbn [node call_fun call_args]. intros Hf Hpos Hargs Hkwargs Hok sp' u Hy. cbn [inline node span call_fun call_args] in Hy.
  simpl in Hok. bool_to_prop. apply bind_Ok in Hy as (y & Hy & Hu). pose proof (inline_at f y Hf ltac:(done) Hy) as [[Hpf Hsf] Hrf].
  pose proof (steady_shape (node f) y ltac:(done) (Hf ltac:(done) _ _ Hy)) as Hshape.
  inline_parts. injection Hu as <-.
  destruct (sound_goods _ _ Ha) as [P1 E1]. destruct (sound_good_option _ _ Ha1) as [P2 E2]. destruct (sound_good_option _ _ Ha0) as [P3 E3].
  split_and!; [|intros ls lc sp0 Hh|done].
  - intros sp0. cbn [subst node span call_fun call_args]. apply optimized_call; try done.
    + unfold plain_args. cbn [ca_pos_named ca_args ca_kwargs]. unfold plain_option in *. by rewrite P1, P2, P3.
    + cbn [node]. destruct Hshape as [(field & x & z & usp & -> & [Hg _] & Hz)|(_ & -> & Hd)]; [|done]. simpl. by eexists _, _, z, usp.
  - assert (args_run ls lc a (map_args (λ x : Expr, sub x) a)) as Hargs'.
    { split_and!; [by eapply sound_runs|done|by eapply sound_run_option..]. }
    cbn [subst span node call_fun call_args]. destruct Hshape as [(field & x & z & usp & Hnf & [_ Hrx] & _)|(Hd & Hd' & _)].
    + rewrite Hnf. eapply run_method; [done|done|by apply Hrx|done].
    + apply run_call; [done|done|by apply Hrf|done].
Qed.
Lemma sound_inline_all : ∀ e, sound_inline e.
Proof.
  refine (proj1 (ir_induction sound_inline (λ _, True) (λ _, True) (λ _, True) _)).
  split; try done; try apply sound_local; try apply sound_call; intros; intros Hok sp' u Hy; cbn [inline] in Hy; simpl in Hok; bool_to_prop; inline_parts;
    try discriminate; simplify_eq.
  all: split_and!; try done; [intros sp0|intros ls lc sp0 Hh|..]; cbn [subst eval node span].
  - by apply (good_respan (ctx:=ctx)).
  - apply run_ret.
  - destruct (sound_goods _ _ Ha) as [Hp He]. eapply (good_trans (ctx:=ctx)); [by apply (sim_tuple n sp0 sp0)|by apply good_tuple].
  - apply run_bind; [apply run_elems; by eapply sound_runs|]. intros vs. apply run_with_heap.
  - destruct (sound_goods _ _ Ha) as [Hp He]. split; [done|by apply sim_list].
  - apply run_bind; [apply run_elems; by eapply sound_runs|]. intros vs. apply run_with_heap.
  - pose proof (sound_dict kvs y ltac:(done) Hok ltac:(done)) as Hd. split.
    + clear -Hd. induction Hd as [|[x1 x2] [y1 y2] l l' [[[Hx _] _] [[Hy _] _]] Hl IH]; [done|]. simpl in *. by rewrite Hx, Hy, IH.
    + apply sim_dict. clear -Hd. induction Hd as [|[x1 x2] [y1 y2] l l' [[[_ Hx] _] [[_ Hy] _]] Hl IH]; constructor; done.
  - pose proof (sound_dict kvs y ltac:(done) Hok ltac:(done)) as Hd.
    assert (map (λ kv : Expr * Expr, span kv.1) (map (λ '(k, v), (sub k, sub v)) kvs) = map (λ kv : Expr * Expr, span kv.1) kvs) as ->
      by (rewrite map_map; apply map_ext; by intros []).
    apply run_bind; [|intros l; apply run_at_span]. apply run_pairs. clear -Hd Hh.
    induction Hd as [|[x1 x2] [y1 y2] l l' [[_ Hx] [_ Hy]] Hl IH]; constructor; [|done]. split; [by apply Hx|by apply Hy].
  - eapply (good_trans (ctx:=ctx)); [by apply (sim_if n sp0 sp0); [by apply esim_tsim| |]|by apply good_if].
  - apply run_bind; [run_part|]. intros v. apply run_if; [run_part|run_part].
  - destruct (sound_good_option _ _ Ha) as [P1 E1]. destruct (sound_good_option _ _ Ha0) as [P2 E2]. destruct (sound_good_option _ _ Ha1) as [P3 E3].
    split; [simpl; unfold plain_option in *; by rewrite Hp, P1, P2, P3|by apply sim_slice].
  - apply run_bind; [run_part|]. intros v. do 3 (apply run_bind; [apply run_option; by eapply sound_run_option|]; intros ?).
    apply run_at_span.
  - eapply (good_trans (ctx:=ctx)); [by apply (sim_builtin1 (ctx:=ctx) n sp0 sp')|by apply good_un_op].
  - apply run_bind; [run_part|]. intros v. apply run_at_span.
  - destruct op; try done. by exists y, sp'.
  - eapply (good_trans (ctx:=ctx)); [by apply (sim_logical n sp0 sp0)|by apply good_logical].
  - apply run_bind; [run_part|]. intros v. apply run_eqb; [run_part|apply run_ret].
  - eapply (good_trans (ctx:=ctx)); [by apply (sim_seq n sp0 sp0)|by apply good_seq].
  - apply run_bind; [run_part|]. intros v. run_part.
  - eapply (good_trans (ctx:=ctx)); [by apply (sim_builtin2 (ctx:=ctx) n sp0 sp0)|by apply good_bin_op].
  - apply run_bind; [run_part|]. intros v. apply run_bind; [run_part|]. intros w. apply run_at_span.
  - destruct op; try done. split; [apply index_not_dot|done].
  - split; [simpl; by rewrite Hp, Hp0, Hp1|by apply sim_index2].
  - apply run_bind; [run_part|]. intros v. apply run_bind; [run_part|]. intros w. apply run_bind; [run_part|]. intros u. apply run_at_span.
Qed.
End sound.

(** * Calls that are inlined *)

(** What is known of the body of a function that can be inlined. *)
Lemma safe_body {V TC D} (none : V) (d : FrozenDef V TC D) e : def_inline_body none d = Some (ReturnSafeToInlineExpr e) →
  (fd_body d = [] ∧ e = mkSpanned Span_default (Value none) ∨ ∃ sp c, fd_body d = mkSpanned sp (Return e) :: c) ∧
  ∃ c, is_safe_to_inline_expr (length (compiled_params (fd_params d))) (node e) 0 = (true, c).
Proof.
  unfold def_inline_body. destruct (_ || _); [done|]. unfold inline_def_body. intros Hd.
  assert (is_return_safe_to_inline_expr none (fd_body d) (length (compiled_params (fd_params d))) = Some e) as Hb.
  { destruct (match compiled_params (fd_params d) with [p] => _ | _ => _ end) as [t|]; [done|].
    destruct (has_args_or_kwargs (fd_params d)); [done|]. unfold count_param_variables, u32_try_from in Hd.
    destruct (_ <=? _)%Z in Hd; [|done]. simpl in Hd.
    destruct (is_return_safe_to_inline_expr none (fd_body d) _) as [x|]; [|done]. by injection Hd as ->. }
  clear Hd. unfold is_return_safe_to_inline_expr in Hb. destruct (fd_body d) as [|stmt body]; simpl in Hb.
  { injection Hb as <-. split; [by left|]. by eexists. }
  destruct stmt as [sp stmt]. simpl in Hb. destruct stmt as [|x| | | | | | |]; try done.
  destruct (is_safe_to_inline_expr _ (node x) 0) as [[] c] eqn:Hsafe; [|done]. injection Hb as <-. split; [right; by eexists _, _|by exists c].
Qed.

Section calls.
Context `{W : World V H E TC D KM MB} {WO : WorldOk V H E TC D KM MB} {AL : Alike V H E} {AO : AlikeOk V H E TC D KM MB}.
Context {OW : OptWorld V H E TC D MB} {ctx : OptCtx (V:=V) (H:=H)} {FO : FoldOk V H E TC D KM MB ctx}.
Context {CO : CallOk V H E TC D KM MB ctx} {PT : PositionalTypeTests V H E TC D KM MB} {SC : SteadyCallees V H E TC D KM MB}.
Local Abbreviation Node := (ExprCompiled V TC D).
Local Abbreviation Expr := (Spanned (ExprCompiled V TC D)).
Local Abbreviation Args_ := (ArgsCompiledValue (Spanned (ExprCompiled V TC D))).
Local Abbreviation plain := (plain (TC:=TC) (D:=D) (ctx:=ctx)).
Local Abbreviation plain_args := (plain_args (TC:=TC) (D:=D) (ctx:=ctx)).
Context (n : nat).
Local Abbreviation evs := (λ (x : Expr) s, eval n (span x) (node x) s).
Local Abbreviation good := (good (ctx:=ctx) n).
Implicit Types (lc ls : list (option V)) (s : St V H).

(** The parameters of the caller have values. *)
Definition assigned lc : Prop := ∀ x, x < ctx_param_count ctx → ∃ v, lc !! x = Some (Some v).
Definition known (v : V) : Prop := is_frozen v = true ∨ ∃ x, as_local v = Some x ∧ x < ctx_param_count ctx.

Lemma place_frozen lc v : is_frozen v = true → place lc v = v.
Proof. intros Hv. unfold place. by rewrite (frozen_not_local (ctx:=ctx) v). Qed.
Lemma expr_place lc s (x : Expr) v : st_locals s = lc → assigned lc → plain (node x) = true → expr_to_value ctx (node x) = Some v →
  evs x s = ret (place lc v) s ∧ known v.
Proof.
  intros Hs Hlc Hp Hv. destruct x as [sp e]. destruct e; try done; simpl in *.
  - injection Hv as ->. split; [by rewrite place_frozen|by left].
  - destruct (_ <? _) eqn:Hlt in Hv; [|done]. apply Nat.ltb_lt in Hlt. apply (as_local_value (ctx:=ctx)) in Hv as Hx.
    split; [|right; by eexists]. destruct (Hlc _ Hlt) as [w Hw]. unfold place. rewrite Hx, Hw. unfold get_local. by rewrite Hs, Hw.
Qed.
Lemma args_place lc s args a : st_locals s = lc → assigned lc → plain_args args = true → all_values_generic (expr_to_value ctx) args = Some a →
  eval_args evs args s = ret (map_arguments (place lc) a) s ∧
  Forall known (arg_pos a ++ arg_named a) ∧ from_option known True (arg_args a) ∧ from_option known True (arg_kwargs a).
Proof.
  intros Hs Hlc Hp. unfold all_values_generic. intros (vs & Hvs & Ha)%bind_Some. unfold IrCompat.plain_args in Hp. bool_to_prop.
  apply bind_Some in Ha as (o1 & Ho1 & Ha). apply bind_Some in Ha as (o2 & Ho2 & [= <-]).
  assert (eval_list evs (ca_pos_named args) s = ret (map (place lc) vs) s ∧ Forall known vs) as [Hlist Hall].
  { apply mapM_Some in Hvs. rename select (forallb _ _ = true) into Hpl. clear -Hvs Hpl Hs Hlc CO FO AO. induction Hvs as [|x v xs vs Hx Hxs IH]; [done|].
    simpl in *. bool_to_prop. destruct (expr_place lc s x v) as [He Hk]; [done..|]. destruct IH as [IH IHk]; [done|].
    rewrite He. simpl. rewrite IH. split; [done|by constructor]. }
  assert (∀ (o : option Expr) u, (match o with None => Some None | Some x => Some <$> expr_to_value ctx (node x) end) = Some u →
    match o with Some x => plain (node x) | None => true end = true →
    eval_option evs o s = ret (option_map (place lc) u) s ∧ from_option known True u) as Hoption.
  { intros [x|] u Hu Hpx; [|by injection Hu as <-]. apply fmap_Some in Hu as (v & Hv & ->).
    destruct (expr_place lc s x v) as [He Hk]; [done..|]. simpl. rewrite He. by split. }
  destruct (Hoption _ _ Ho1) as [He1 Hf1]; [done|]. destruct (Hoption _ _ Ho2) as [He2 Hf2]; [done|].
  split; [|split_and!; [|done..]].
  - unfold eval_args. rewrite Hlist. simpl. rewrite He1. simpl. rewrite He2. simpl. unfold arguments, map_arguments. simpl.
    rewrite length_map, firstn_map, skipn_map. done.
  - simpl. by rewrite take_drop.
Qed.
Lemma map_known (g : V → V) l : (∀ v, known v → g v = v) → Forall known l → map g l = l.
Proof. intros Hg. induction 1 as [|v l Hv Hl IH]; [done|]. simpl. by rewrite IH, Hg. Qed.
Lemma map_arguments_known (g : V → V) a : (∀ v, known v → g v = v) → Forall known (arg_pos a ++ arg_named a) →
  from_option known True (arg_args a) → from_option known True (arg_kwargs a) → map_arguments g a = a.
Proof.
  intros Hg [Hp Hn]%Forall_app Ha Hk. destruct a as [pos named names args kwargs]. unfold map_arguments. simpl in *.
  rewrite !map_known by done. destruct args as [v|], kwargs as [w|]; simpl in *; by rewrite ?(Hg v), ?(Hg w).
Qed.
Lemma mapM_id (l : list (option V)) vs : mapM (λ o, o) l = Some vs → l = map Some vs.
Proof. intros Hl%mapM_Some. induction Hl as [|o v l vs Ho Hl IH]; [done|]. simpl. by rewrite IH, Ho. Qed.
(** What the parameters are bound to, while compiling and when the program runs. *)
Lemma slots_known lc f d a slots : frozen_def f = Some d → spec_has_args_or_kwargs (compiled_indices (fd_params d)) = false →
  Forall known (arg_pos a ++ arg_named a) → from_option known True (arg_args a) → from_option known True (arg_kwargs a) →
  inline_slots f a = Some slots →
  Forall known slots ∧ collect_slots f (map_arguments (place lc) a) = Some (map Some (map (place lc) slots)).
Proof.
  intros Hd Hspec Hp Ha Hk. unfold inline_slots. intros (os & Hos & Hslots)%bind_Some. apply bind_Some in Hslots as (vs & ->%mapM_id & Hslots).
  destruct (forallb _ vs) eqn:Hall; [|done]. injection Hslots as <-. rewrite forallb_forall in Hall. split.
  - set (g v := match as_local v with Some x => if x <? ctx_param_count ctx then v else new_none | None => v end).
    assert (map_arguments g a = a) as Hga.
    { apply map_arguments_known; [|done..]. intros v [Hv|(x & Hx & Hlt)]; unfold g.
      - by rewrite (frozen_not_local (ctx:=ctx) v).
      - rewrite Hx. by apply Nat.ltb_lt in Hlt as ->. }
    assert (collect_slots f (map_arguments g a) = Some (map (option_map g) (map Some vs))) as Hg.
    { eapply (collect_place (ctx:=ctx)); [done..| |done]. intros v Hv. unfold g. by rewrite Hv. }
    rewrite Hga, Hos in Hg. injection Hg as Hg. apply Forall_forall. intros v Hv. specialize (Hall v ltac:(by apply list_elem_of_In)).
    destruct (is_frozen v) eqn:Hf; [by left|]. right. simpl in Hall. destruct (as_local v) as [x|] eqn:Hx; [|done]. exists x. split; [done|].
    rewrite map_map in Hg. apply list_elem_of_lookup in Hv as [i Hi].
    assert (map Some vs !! i = map (λ v, Some (g v)) vs !! i) as Heq by by f_equal.
    rewrite !list_lookup_fmap, Hi in Heq. injection Heq as Heq. unfold g in Heq. rewrite Hx in Heq.
    destruct (x <? ctx_param_count ctx) eqn:Hlt; [by apply Nat.ltb_lt|]. subst v.
    by rewrite (frozen_not_local (ctx:=ctx) new_none (frozen_new_none (ctx:=ctx))) in Hx.
  - rewrite map_map. erewrite (collect_place (ctx:=ctx) f d); [|done..| |done]; [by rewrite map_map|]. intros v Hv. unfold place. by rewrite Hv.
Qed.
(** The body of a function that can be inlined ends as its expression does. *)
Lemma body_runs d e s : def_inline_body new_none d = Some (ReturnSafeToInlineExpr e) →
  exec_body n false (fd_body d) s =
  match eval n (span e) (node e) s with
  | Some (Done v s) => Some (Returned v (st_heap s))
  | Some (Exits o) => Some o
  | None => None
  end.
Proof.
  intros [Hb _]%safe_body. unfold exec_body. destruct Hb as [[-> ->]|(sp & c & ->)]; [done|]. simpl. unfold stop_iterators. simpl.
  destruct s as [l h]. simpl. by destruct (eval n (span e) (node e) (mkSt l h)) as [[]|].
Qed.
Lemma slots_in_frame (captures : list nat) ls lc slots : assigned lc → Forall known slots →
  (∀ x v, map (place lc) slots !! x = Some v → x ∉ captures → ls !! x = Some (Some v)) → slots_hold captures slots ls lc.
Proof.
  intros Hlc Hknown Hls l v Hl Hc. specialize (Hls l (place lc v)). rewrite list_lookup_fmap, Hl in Hls. specialize (Hls eq_refl Hc).
  assert (known v) as [Hv|(x & Hx & Hlt)] by by rewrite Forall_forall in Hknown; eapply Hknown, list_elem_of_lookup_2.
  - rewrite (frozen_not_local (ctx:=ctx) v) by done. by rewrite place_frozen in Hls.
  - rewrite Hx. destruct (Hlc x Hlt) as [w Hw]. exists w. split; [|done]. rewrite Hls. unfold place. by rewrite Hx, Hw.
Qed.
(** The frame of the call is left. *)
Definition outcome_of (r : result E V * H) : Outcome V H E :=
  match r with (Ok v, h) => Returned v h | (Err e, h) => Raised e h | (Fault f, _) => Faulted f end.
Lemma drop_frame k csp r (o : Op H E V) s (m : option (out V H E V)) :
  ends_like (o (st_heap s)) (outcome_of r) → out_sim k vsim (close (st_locals s) r) m → out_sim k vsim (at_span csp o s) m.
Proof.
  unfold at_span. destruct r as [[v|e|f] h2], (o (st_heap s)) as [[w|e'|f'] h]; simpl; try done; unfold out_sim.
  - intros [-> Hd]. destruct m as [[v' s'|]|]; try done. intros (k' & Hk & [Hh Hl] & Hv). exists k'. split_and!; [done|split; [by apply Hd|done]|done].
  - intros [He Hd]. destruct m as [[|[|e2 h3|]]|]; try done. simpl. intros [He2 Hh]. split; [|by apply Hd].
    etrans; [apply (same_error_span (ctx:=ctx))|]. by etrans.
  - by intros ->.
Qed.

(** The expression that a call is inlined to may stand for it. *)
Lemma inline_call_good try_inline f d e a slots (args : Args_) sp sp' csp y :
  inline_ok (ctx:=ctx) n try_inline → frozen_def f = Some d → spec_has_args_or_kwargs (compiled_indices (fd_params d)) = false →
  def_inline_body new_none d = Some (ReturnSafeToInlineExpr e) → plain_args args = true →
  all_values_generic (expr_to_value ctx) args = Some a → inline_slots f a = Some slots →
  inline try_inline ctx slots csp (node e) = Ok y → ∀ fsp,
  good (mkSpanned sp (Call (mkSpanned csp (mkCall (mkSpanned fsp (Value f)) args)))) (mkSpanned sp' (node y)).
Proof.
  intros Hti Hd Hspec Hbody Hp Ha Hsl Hy fsp.
  pose proof (frozen_def_ok (ctx:=ctx) f d Hd) as Hok0. pose proof (steady_callees f d Hd) as Hsteady.
  unfold inlined_part in Hok0, Hsteady. rewrite Hbody in Hok0, Hsteady. pose proof (each_part_and _ _ _ _ Hok0 Hsteady) as Hok.
  assert (fd_has_return_type d || has_types (fd_params d) = false) as Htypes.
  { unfold def_inline_body in Hbody. by destruct (_ || _). }
  assert (∀ s, assigned (st_locals s) →
    eval_args evs args s = ret (map_arguments (place (st_locals s)) a) s ∧
    Forall known slots ∧ collect_slots f (map_arguments (place (st_locals s)) a) = Some (map Some (map (place (st_locals s)) slots))) as Hargs.
  { intros s Hs. destruct (args_place (st_locals s) s args a) as (He & H1 & H2 & H3); [done..|]. split; [done|].
    by apply (slots_known (st_locals s) f d). }
  assert (Forall (λ v, is_frozen v = true ∨ is_Some (as_local v)) slots) as Hslots.
  { unfold inline_slots in Hsl. apply bind_Some in Hsl as (os & _ & Hsl). apply bind_Some in Hsl as (vs & _ & Hsl).
    destruct (forallb _ vs) eqn:Hall; [|done]. injection Hsl as <-. rewrite forallb_forall in Hall. apply Forall_forall.
    intros v Hv. specialize (Hall v ltac:(by apply list_elem_of_In)). destruct (is_frozen v); [by left|]. right.
    simpl in Hall. destruct (as_local v); [by eexists|done]. }
  destruct (sound_inline_all n try_inline Hti _ slots Hslots (node e) Hok csp y Hy) as (Hgood & Hrun & _).
  apply good_respan_to. split; [by destruct (Hgood sp)|]. intros k k' s s' Hk Hs. cbn [span node].
  assert (assigned (st_locals s)) as Hassigned.
  { intros x Hx. apply (proj2 (proj2 Hs)). pose proof (params_assigned (ctx:=ctx)). lia. }
  destruct (Hargs s Hassigned) as (He & Hknown & Hcollect). rewrite (const_call n sp csp _ f) by done. rewrite He. simpl.
  destruct (call_runs (ctx:=ctx) f d _ _ csp (st_heap s) Hd Hspec Htypes Hcollect) as (ls & h1 & Hls & Hdrop & Hends).
  destruct (Hrun ls (st_locals s) (span e) (slots_in_frame _ _ _ slots Hassigned Hknown Hls) h1) as (r & Hr & Hr').
  specialize (Hends n). rewrite (body_runs d e) in Hends by done. rewrite Hr in Hends. apply (drop_frame k' csp r).
  - specialize (Hends (outcome_of r)). apply Hends. by destruct r as [[] ?].
  - rewrite <- Hr'. apply (esim_at n (mkSpanned (span e) (subst slots (node e))) y); [by destruct (Hgood (span e))|].
    split; [apply Hdrop, Hs|apply Hs].
Qed.
Lemma try_inline_ok depth : inline_ok (ctx:=ctx) n (try_inline ctx depth).
Proof.
  induction depth as [|depth IH]; intros sp sp' csp fn args y Hy _ Hp; [done|]. simpl in Hy.
  apply bind_Some in Hy as (f & Hf%as_value_node & Hy). apply bind_Some in Hy as (d & Hd & Hy).
  destruct (spec_has_args_or_kwargs _) eqn:Hspec; [done|]. destruct (def_inline_body new_none d) as [[t|e]|] eqn:Hbody; [done| |done].
  apply bind_Some in Hy as (a & Ha & Hy). apply bind_Some in Hy as (slots & Hsl & Hy).
  destruct (inline _ ctx slots csp (node e)) as [z| |] eqn:Hz; [|done..]. injection Hy as ->. destruct fn as [fsp fn]. simpl in Hf. subst fn.
  by eapply inline_call_good.
Qed.
End calls.

(** * What is safe can be inlined *)

Section safe.
Context `{W : World V H E TC D KM MB} {OW : OptWorld V H E TC D MB}.
Local Abbreviation Node := (ExprCompiled V TC D).
Local Abbreviation Expr := (Spanned (ExprCompiled V TC D)).
Context (try_inline : Span → Expr → ArgsCompiledValue Expr → option Expr) (ctx : OptCtx (V:=V) (H:=H)) (slots : list V).
Context (param_count : nat) (Hslots : param_count ≤ length slots).
Local Abbreviation safe := (is_safe_to_inline_expr param_count).
Local Abbreviation inl_ := (inline try_inline ctx slots).

Definition safe_inlines (e : Node) : Prop := ∀ c c' sp, safe e c = (true, c') → ∃ y, inl_ sp e = Ok y.
Lemma list_inlines {A B} (P : A → Prop) (f : A → nat → bool * nat) (g : A → result () B) xs c c' :
  Forall P xs → (∀ x c c', P x → f x c = (true, c') → ∃ y, g x = Ok y) → all_safe f xs c = (true, c') → ∃ ys, inline_list g xs = Ok ys.
Proof.
  intros Hxs Hf. revert c. induction Hxs as [|x xs Hx Hxs IH]; intros c; simpl; [by eexists|]. destruct (f x c) as [[] c1] eqn:Hc; [|done].
  intros (ys & Hys)%IH. destruct (Hf _ _ _ Hx Hc) as [y ->]. simpl. fold (inline_list g xs). rewrite Hys. by eexists.
Qed.
Lemma option_inlines o c c' : on_option safe_inlines o →
  match o with Some x => safe (node x) c | None => (true, c) end = (true, c') →
  ∃ y, inline_option (λ x : Expr, inl_ (span x) (node x)) o = Ok y.
Proof. destruct o as [x|]; simpl; [|by eexists]. intros Hx Hc. destruct (Hx _ _ (span x) Hc) as [y ->]. by eexists. Qed.
Local Ltac safe_step :=
  match goal with
  | Hx : safe_inlines (node ?x), Hc : context [is_safe_to_inline_expr _ (node ?x) ?c] |- _ =>
    let b := fresh "b" in let c1 := fresh "c" in let Hs := fresh "Hs" in
    destruct (is_safe_to_inline_expr param_count (node x) c) as [b c1] eqn:Hs; destruct b; [|discriminate Hc];
    let y := fresh "y" in let Hy := fresh "Hy" in destruct (Hx _ _ (span x) Hs) as [y Hy]; rewrite Hy; clear Hx; cbn beta iota in Hc; simpl
  end.
Lemma exprs_inline xs c c' : Forall (on safe_inlines) xs → all_safe (λ x : Expr, safe (node x)) xs c = (true, c') →
  ∃ ys, inline_list (λ x : Expr, inl_ (span x) (node x)) xs = Ok ys.
Proof. intros Hxs. apply (list_inlines _ _ _ xs c c' Hxs). intros x n n' Hx. by apply Hx. Qed.
Local Ltac option_step :=
  match goal with
  | Ho : on_option safe_inlines ?o, Hc : context [match ?o with Some x => safe (node x) ?c | None => (true, ?c) end] |- _ =>
    let b := fresh "b" in let c1 := fresh "c" in let Hs := fresh "Hs" in
    destruct (match o with Some x => safe (node x) c | None => (true, c) end) as [b c1] eqn:Hs; destruct b; [|discriminate Hc];
    let y := fresh "y" in let Hy := fresh "Hy" in destruct (option_inlines o c c1 Ho Hs) as [y Hy]; rewrite Hy; clear Ho; cbn in Hc; simpl
  end.
Lemma all_safe_inlines : ∀ e, safe_inlines e.
Proof.
  refine (proj1 (ir_induction safe_inlines (λ _, True) (λ _, True) (λ _, True) _)).
  split; try done; intros; intros n n' sp Hc; simpl in Hc |- *;
    (destruct (100 <? n); [discriminate|]); try discriminate; repeat safe_step; repeat option_step; eauto.
  - injection Hc as Hx _. apply Nat.ltb_lt in Hx. destruct (lookup_lt_is_Some_2 slots x) as [v ->]; [lia|]. by eexists.
  - rename select (Forall _ xs) into Hxs. destruct (exprs_inline xs _ _ Hxs Hc) as [ys ->]. by eexists.
  - rename select (Forall _ xs) into Hxs. destruct (exprs_inline xs _ _ Hxs Hc) as [ys ->]. by eexists.
  - eapply (list_inlines _ _ _ kvs) in Hc as [ys Hys]; [rewrite Hys; by eexists|eassumption|]. intros [x y] m m' [Hx Hy] Hm. simpl in *.
    repeat safe_step. by eexists.
  - destruct (all_safe _ (ca_pos_named (call_args (node c))) _) as [[] c3] eqn:Hall in Hc; [|done].
    rename select (Forall _ _) into Hxs. destruct (exprs_inline _ _ _ Hxs Hall) as [ys ->]. cbn in Hc. simpl. repeat option_step. by eexists.
Qed.
End safe.
