(* ===== verification/OptBody.v ===== *)
(** [StmtsCompiled::optimize]: the optimised block may stand for the block, and the optimised body of a function returns
    what the body returns. *)

From S2P Require Import Prelude Hashing TableMap FastString StrFormat Symbol CodeMap.
From S2P Require Import DefParams OrdMap ParamSpec Def Ir IrWf Inline World IrEval Optimize Alike IrSim IrCompat IrBlock.
From S2P Require Import OptCon OptCall OptExpr.

Section stmt.
Context `{W : World V H E TC D KM MB} {WO : WorldOk V H E TC D KM MB} {AL : Alike V H E} {AO : AlikeOk V H E TC D KM MB}.
Context {OW : OptWorld V H E TC D MB} {ctx : OptCtx (V:=V) (H:=H)} {FO : FoldOk V H E TC D KM MB ctx} {PT : PositionalTypeTests V H E TC D KM MB}.
Implicit Types (k : list (item V)) (s : St V H) (sp : Span) (its : list V).
Local Abbreviation out := (out V H E).
Local Abbreviation Expr := (Spanned (ExprCompiled V TC D)).
Local Abbreviation Target := (Spanned (AssignCompiledValue V TC D)).
Local Abbreviation Stmt := (Spanned (StmtCompiled V TC D)).
Local Abbreviation plain := (plain (TC:=TC) (D:=D) (ctx:=ctx)).
Context (n : nat) (hrt : bool) (Hn : 0 < n).
Local Abbreviation evs := (λ (x : Expr) s, eval n (span x) (node x) s).
Local Abbreviation esim := (esim n).
Local Abbreviation block := (block n hrt).
Local Abbreviation bsim := (bsim n hrt).
Local Abbreviation plain_block := (plain_block (TC:=TC) (D:=D) (ctx:=ctx)).
Implicit Types x y z : Expr.
Implicit Types c d t f : list Stmt.

Definition good_block (c d : list Stmt) : Prop := plain_block d = true ∧ bsim c d.
Lemma good_block_trans c d e : bsim c d → good_block d e → good_block c e.
Proof. intros Hcd [He Hde]. split; [done|by eapply (bsim_trans (ctx:=ctx))]. Qed.
Lemma good_block_self c : plain_block c = true → good_block c c.
Proof. intros Hc. split; [done|by apply (bsim_self (ctx:=ctx))]. Qed.
Lemma good_block_app c c' d d' : good_block c c' → good_block d d' → good_block (c ++ d) (c' ++ d').
Proof. intros [Hc Sc] [Hd Sd]. split; [unfold IrBlock.plain_block in *; by rewrite forallb_app, Hc, Hd|by apply bsim_app]. Qed.
Lemma plain_block_app c d : plain_block (c ++ d) = plain_block c && plain_block d.
Proof. apply forallb_app. Qed.

(** * Sequences *)

(** Nothing runs after a [break], a [continue] or a [return]. *)
Lemma terminal_block c its s (f : Flow) s' : is_terminal c = true → block its c s = Some (Done f s') → f ≠ FlowNext.
Proof.
  unfold is_terminal. destruct (last c) as [x|] eqn:Hx; [|done]. apply last_Some in Hx as (l & ->). rewrite block_app.
  intros Hterm. destruct (block its l s) as [[g s1|o]|]; cbn [obind]; [|done..].
  destruct g; cbn [then_next]; [|by intros [= <- _]..]. rewrite block_one. destruct x as [sp c]. simpl in *. destruct c; try done; simpl.
  - destruct (eval n _ _ _) as [[v s2|o]|]; simpl; [|done..]. unfold return_value. destruct hrt; [|done].
    by destruct (at_span _ _ _) as [[]|].
  - by intros [= <- _].
  - by intros [= <- _].
Qed.
Lemma terminal_app c c' d : is_terminal c' = true → bsim c c' → bsim (c ++ d) c'.
Proof.
  intros Hterm Hc k its its' Hits k' s s' Hk Hs. rewrite block_app.
  pose proof (bsim_at n hrt c c' k' its its' s s' Hc (lsim_mono _ _ _ _ Hk Hits) Hs) as Hcc.
  destruct (block its c s) as [[f s1|o]|], (block its' c' s') as [[f' s1'|o']|] eqn:Hb; try done.
  apply terminal_block in Hb; [|done]. destruct Hcc as (k1 & Hk1 & Hs1 & ->). simpl. destruct f'; [done| |]; by exists k1.
Qed.
Lemma good_extend c c' d d' : good_block c c' → good_block d d' → good_block (c ++ d) (extend c' d').
Proof.
  intros Hc Hd. unfold extend. destruct (is_terminal c') eqn:Hterm; [|by apply good_block_app].
  destruct Hc as [Hp Hc]. split; [done|]. by apply terminal_app.
Qed.
(** Blocks that are built statement by statement. *)
Lemma good_fold {A} (g : list Stmt → A → list Stmt) (one : A → list Stmt) (l : list A) c o :
  (∀ c o a, a ∈ l → good_block c o → good_block (c ++ one a) (g o a)) → good_block c o →
  good_block (c ++ concat (map one l)) (fold_left g l o).
Proof.
  revert c o. induction l as [|a l IH]; intros c o Hg Hc; simpl; [by rewrite app_nil_r|]. rewrite app_assoc.
  apply IH; [intros c1 o1 a1 Ha1; apply Hg; by right|]. apply Hg; [by left|done].
Qed.
Lemma good_opt_block (f : Stmt → list Stmt) l : (∀ x : Stmt, x ∈ l → good_block [x] (f x)) → good_block l (opt_block f l).
Proof.
  intros Hf. assert (concat (map (λ x : Stmt, [x]) l) = l) as Hl by (clear; induction l as [|c l IH]; simpl; [done|by rewrite IH]).
  pose proof (good_fold (λ o (x : Stmt), if is_terminal o then o else extend o (f x)) (λ x : Stmt, [x]) l [] []) as Hfold.
  rewrite Hl in Hfold. apply Hfold; [|by apply good_block_self].
  intros c o a Ha Hc. pose proof (good_extend c o [a] (f a) Hc (Hf a Ha)) as Hext. unfold extend in *. by destruct (is_terminal o).
Qed.

(** * Expressions for their effects *)

Definition effect sp x : list Stmt := [mkSpanned sp (StmtExpr x)].
Lemma effect_eval its sp x s : block its (effect sp x) s = (do _v, s <~ evs x s; ret FlowNext s).
Proof. unfold effect. by rewrite block_one. Qed.
Lemma effect_pure sp x : is_pure_infallible (node x) = true → plain (node x) = true → good_block (effect sp x) [].
Proof.
  intros Hp Hx. split; [done|]. intros k its its' Hits k' s s' Hk Hs. rewrite effect_eval.
  eapply out_drop; [by apply (pure_runs (ctx:=ctx))|done|]. intros v h _ Hs'. by apply out_ret.
Qed.
Lemma effect_respan sp sp' x : plain (node x) = true → good_block (effect sp x) (effect sp' x).
Proof.
  intros Hx. split; [simpl; by rewrite Hx|]. apply bsim_stmt. by apply (ssim_self (ctx:=ctx)).
Qed.
(** Operators that do nothing but compute a value. *)
Lemma effect_not sp sp' op x : match op with Not | TypeIs _ => True | _ => False end →
  ∀ spx, good_block (effect sp' x) (effect sp' x) → bsim (effect sp (mkSpanned spx (ExprBuiltin1 op x))) (effect sp' x).
Proof.
  intros Hop spx [_ Hx]. eapply bsim_eq; [|exact Hx]. intros its s. rewrite !effect_eval. simpl.
  destruct (eval n (span x) (node x) s) as [[v s1|o]|]; simpl; [|done..]. unfold at_span.
  destruct op; try done; simpl; by rewrite st_eta.
Qed.
Lemma effect_list its s (xs : list Expr) : block its (map (λ x, mkSpanned (span x) (StmtExpr x)) xs) s =
  (do _v, s <~ eval_list evs xs s; ret FlowNext s).
Proof.
  revert s. induction xs as [|x xs IH]; intros s; [done|]. unfold IrBlock.block. simpl.
  destruct (eval n (span x) (node x) s) as [[v s1|o]|]; simpl; [|done..].
  change (block its (map (λ x, mkSpanned (span x) (StmtExpr x)) xs) s1 = (do _v, s <~ do vs, s <~ eval_list evs xs s1; ret (v :: vs) s; ret FlowNext s)).
  rewrite IH. by destruct (eval_list evs xs s1) as [[]|].
Qed.
Lemma effect_elements sp spx xs (e : ExprCompiled V TC D) : e = List_ xs ∨ e = Tuple xs → forallb (λ x, plain (node x)) xs = true →
  bsim (effect sp (mkSpanned spx e)) (map (λ x, mkSpanned (span x) (StmtExpr x)) xs).
Proof.
  intros He Hxs k its its' Hits k' s s' Hk Hs. rewrite effect_eval, effect_list.
  assert (∀ s, eval n spx e s = (do vs, s <~ eval_list evs xs s;
    with_heap (match e with List_ _ => h_alloc_list vs | _ => h_alloc_tuple vs end) s)) as Heval by by intros s0; destruct He as [->| ->].
  cbn [span node]. rewrite Heval. pose proof (esims_list n k' xs xs s s' (self_plains (ctx:=ctx) n xs Hxs) Hs) as Hlist.
  destruct (eval_list evs xs s) as [[vs s1|o]|], (eval_list evs xs s') as [[ws s1'|o']|]; try done; simpl.
  destruct Hlist as (k1 & Hk1 & [Hh1 Hl1] & _). rewrite with_heap_eq. simpl. exists k1. split_and!; [done| |done]. split; [|done]. simpl.
  destruct He as [-> | ->]; [by apply (drop_list (ctx:=ctx))|by apply (drop_tuple (ctx:=ctx))].
Qed.
Lemma effect_type sp x y : as_type (node x) = Some y → plain (node x) = true → plain (node y) = true ∧ bsim (effect sp x) (effect sp y).
Proof.
  intros Ht Hx. destruct (as_type_call (ctx:=ctx) n x y Ht Hx) as [Hpt Heval]. split; [done|].
  eapply bsim_eq; [|by apply (proj2 (effect_respan sp sp y Hpt))]. intros its s. rewrite !effect_eval. cbv beta. rewrite Heval.
  by destruct (eval n (span y) (node y) s) as [[]|].
Qed.

(** ** Conditions *)

Definition if_ sp x (t f : list Stmt) : list Stmt := [mkSpanned sp (StmtIf x t f)].
Lemma if_eval its sp x t f s : block its (if_ sp x t f) s = (do b, s <~ truth n x s; if b then block its t s else block its f s).
Proof. unfold if_. rewrite block_one. apply truth_if. Qed.
Lemma plain_if_ sp x t f : plain (node x) = true → plain_block t = true → plain_block f = true → plain_block (if_ sp x t f) = true.
Proof. unfold IrBlock.plain_block. simpl. by intros -> -> ->. Qed.
Lemma effect_logical sp spx op x y : plain (node x) = true → plain (node y) = true →
  bsim (effect sp (mkSpanned spx (LogicalBinOp op x y)))
    (if_ sp x (match op with And => effect sp y | Or => [] end) (match op with And => [] | Or => effect sp y end)).
Proof.
  intros Hx Hy. eapply bsim_eq; [|apply (bsim_self (ctx:=ctx))].
  - intros its s. rewrite effect_eval, if_eval. unfold truth. simpl.
    destruct (eval n (span x) (node x) s) as [[v s1|o]|]; simpl; [|done..].
    destruct op, (to_bool v (st_heap s1)); cbn [bool_decide Bool.eqb]; simpl; rewrite ?effect_eval. all: first [done|by destruct (eval n (span y) (node y) s1) as [[]|]].
  - apply plain_if_; [done|destruct op; simpl; by rewrite ?Hy..].
Qed.
Lemma if_sim sp sp' x y t f : tsim n x y → plain_block t = true → plain_block f = true → bsim (if_ sp x t f) (if_ sp' y t f).
Proof. intros Hxy Ht Hf. apply bsim_stmt, ssim_if; [done|by apply (bsim_self (ctx:=ctx))..]. Qed.
Lemma if_const sp spx b t f : plain_block t = true → plain_block f = true →
  good_block (if_ sp (mkSpanned spx (Value (new_bool b))) t f) (if b then t else f).
Proof.
  intros Ht Hf. assert (plain_block (if b then t else f) = true) as Hp by by destruct b.
  split; [done|]. eapply bsim_eq; [|by apply (bsim_self (ctx:=ctx))]. intros its s. rewrite if_eval, truth_const. by destruct b.
Qed.
Lemma if_not_swap sp sp' spx x t f : plain (node x) = true → plain_block t = true → plain_block f = true →
  bsim (if_ sp (mkSpanned spx (ExprBuiltin1 Not x)) t f) (if_ sp' x f t).
Proof.
  intros Hx Ht Hf. eapply bsim_eq; [|by apply (bsim_self (ctx:=ctx)), plain_if_]. intros its s. rewrite !if_eval, truth_not.
  destruct (truth n x s) as [[b s1|o]|]; simpl; [|done..]. by destruct b.
Qed.
Lemma if_seq_split sp sp' spx x y t f : plain (node x) = true → plain (node y) = true → plain_block t = true → plain_block f = true →
  bsim (if_ sp (mkSpanned spx (Seq x y)) t f) (effect sp' x ++ if_ sp' y t f).
Proof.
  intros Hx Hy Ht Hf. eapply bsim_eq; [|apply (bsim_self (ctx:=ctx))].
  - intros its s. rewrite block_app, if_eval, effect_eval, truth_seq.
    destruct (eval n (span x) (node x) s) as [[v s1|o]|]; cbn [obind then_next]; [|done..]. unfold ret at 1. cbn [obind then_next]. by rewrite if_eval.
  - rewrite plain_block_app. apply andb_true_iff. split; [simpl; by rewrite Hx|by apply plain_if_].
Qed.
Lemma if_nothing sp sp' x : plain (node x) = true → bsim (if_ sp x [] []) (effect sp' x).
Proof.
  intros Hx. eapply bsim_eq; [|by apply (proj2 (effect_respan sp' sp' x Hx))]. intros its s. rewrite if_eval, effect_eval. unfold truth.
  destruct (eval n (span x) (node x) s) as [[v s1|o]|]; simpl; [|done..]. by destruct (to_bool v _).
Qed.
(** What a condition comes to. *)
Lemma if_cond_good m sp sp' x t f : plain (node x) = true → plain_block t = true → plain_block f = true →
  (∀ (c : ExprCompiled V TC D) spx, plain c = true → good_block (if_ sp (mkSpanned spx c) t f)
    (match m with
     | O => [mkSpanned sp' (StmtIf (mkSpanned sp' c) t f)]
     | S m =>
       match c with
       | ExprBuiltin1 Not cond => if_stmt_go ctx m sp' cond f t
       | Seq x cond => extend (extend [] (stmts_expr ctx m x)) (if_stmt_go ctx m sp' cond t f)
       | _ => match t, f with [], [] => stmts_expr ctx m (mkSpanned sp' c) | _, _ => [mkSpanned sp' (StmtIf (mkSpanned sp' c) t f)] end
       end
     end)) →
  good_block (if_ sp x t f) (if_stmt_go ctx m sp' x t f).
Proof.
  intros Hx Ht Hf Hc. destruct (expr_truth_good (ctx:=ctx) n x Hx) as [Hpb Hb].
  assert (good_block (if_ sp x t f) match node (expr_truth ctx x) with
    | Const true => t | Const false => f | BoolExpr c => match m with
     | O => [mkSpanned sp' (StmtIf (mkSpanned sp' c) t f)]
     | S m =>
       match c with
       | ExprBuiltin1 Not cond => if_stmt_go ctx m sp' cond f t
       | Seq x cond => extend (extend [] (stmts_expr ctx m x)) (if_stmt_go ctx m sp' cond t f)
       | _ => match t, f with [], [] => stmts_expr ctx m (mkSpanned sp' c) | _, _ => [mkSpanned sp' (StmtIf (mkSpanned sp' c) t f)] end
       end
     end end) as Hgo.
  { eapply good_block_trans; [by apply if_sim|]. destruct (expr_truth ctx x) as [spb [[]|c]]; simpl in *.
    - by apply (if_const sp spb true).
    - by apply (if_const sp spb false).
    - by apply Hc. }
  destruct m; exact Hgo.
Qed.
Lemma stmts_if_good m :
  (∀ x sp, plain (node x) = true → good_block (effect sp x) (stmts_expr ctx m x)) ∧
  (∀ sp sp' x t f, plain (node x) = true → plain_block t = true → plain_block f = true →
     good_block (if_ sp x t f) (if_stmt_go ctx m sp' x t f)).
Proof.
  induction m as [|m [IHe IHi]].
  - split.
    + intros x sp Hx. simpl. destruct (is_pure_infallible (node x)) eqn:Hp; [by apply effect_pure|by apply effect_respan].
    + intros sp sp' x t f Hx Ht Hf. apply if_cond_good; [done..|]. intros c spx Hc. split; [by apply (plain_if_ sp' (mkSpanned sp' c))|].
      by apply if_sim; [apply esim_tsim, (self_respan (ctx:=ctx))| |].
  - split.
    + intros x sp Hx. cbn [stmts_expr]. destruct (is_pure_infallible (node x)) eqn:Hp; [by apply effect_pure|].
      assert (good_block (effect sp x) match as_type (node x) with Some y => stmts_expr ctx m y | None => effect (span x) x end) as Hrest.
      { destruct (as_type (node x)) as [y|] eqn:Hy; [|by apply effect_respan].
        destruct (effect_type sp x y Hy Hx) as [Hpy Hs]. eapply good_block_trans; [exact Hs|by apply IHe]. }
      assert (∀ xs, node x = List_ xs ∨ node x = Tuple xs → forallb (λ x, plain (node x)) xs = true →
        good_block (effect sp x) (fold_left (λ ss x, extend ss (stmts_expr ctx m x)) xs [])) as Hlist.
      { intros xs Hn' Hxs. eapply good_block_trans.
        { destruct x as [spx e]. by apply (effect_elements sp spx xs e). }
        assert (map (λ x, mkSpanned (span x) (StmtExpr x)) xs = concat (map (λ x, effect (span x) x) xs)) as ->
          by (clear; induction xs as [|x xs IH]; simpl; [done|by rewrite IH]).
        apply (good_fold _ _ xs [] []); [|by apply good_block_self]. intros c o a Ha Hc. apply good_extend; [done|]. apply IHe.
        rewrite forallb_forall in Hxs. by apply Hxs, list_elem_of_In. }
      destruct x as [spx e]. cbn [node span] in *.
      destruct e as [| | | |xs|xs| | | | |op x|op x y| | | | |]; try exact Hrest.
      * by apply Hlist; [right|].
      * by apply Hlist; [left|].
      * destruct op; try exact Hrest; (eapply good_block_trans; [by apply (effect_not sp sp); [|apply effect_respan]|by apply IHe]).
      * apply andb_true_iff in Hx as [Hx Hy].
        destruct (IHe y sp Hy) as [Py Sy].
        pose proof (effect_logical sp spx op x y Hx Hy) as Hlog. destruct op.
        -- eapply good_block_trans; [exact Hlog|]. eapply good_block_trans; [|by apply (IHi sp spx x (stmts_expr ctx m y) [])].
           apply bsim_stmt, ssim_if; [by apply esim_tsim, (self_plain (ctx:=ctx))|exact Sy|apply bsim_nil].
        -- eapply good_block_trans; [exact Hlog|]. eapply good_block_trans; [|by apply (IHi sp spx x [] (stmts_expr ctx m y))].
           apply bsim_stmt, ssim_if; [by apply esim_tsim, (self_plain (ctx:=ctx))|apply bsim_nil|exact Sy].
    + intros sp sp' x t f Hx Ht Hf. apply if_cond_good; [done..|]. intros c spx Hc.
      assert (good_block (if_ sp (mkSpanned spx c) t f) [mkSpanned sp' (StmtIf (mkSpanned sp' c) t f)]) as Hplain.
      { split; [by apply (plain_if_ sp' (mkSpanned sp' c))|]. by apply if_sim; [apply esim_tsim, (self_respan (ctx:=ctx))| |]. }
      assert (good_block (if_ sp (mkSpanned spx c) t f)
        match t, f with [], [] => stmts_expr ctx m (mkSpanned sp' c) | _, _ => [mkSpanned sp' (StmtIf (mkSpanned sp' c) t f)] end) as Hrest.
      { destruct t, f; try exact Hplain. eapply good_block_trans; [exact (proj2 Hplain)|].
        eapply good_block_trans; [by apply (if_nothing sp' sp')|by apply IHe]. }
      destruct c as [| | | | | | | | | |[] y| |y z| | | |]; try exact Hrest; simpl in Hc.
      * eapply good_block_trans; [by apply (if_not_swap sp sp)|by apply IHi].
      * apply andb_true_iff in Hc as [Hy Hz]. eapply good_block_trans; [by apply (if_seq_split sp sp)|].
        apply good_extend; [|by apply IHi]. apply (good_extend [] [] (effect sp y)); [by apply good_block_self|by apply IHe].
Qed.
Lemma stmt_expr_good sp x : plain (node x) = true → good_block (effect sp x) (stmt_expr ctx x).
Proof. intros Hx. by apply stmts_if_good. Qed.
Lemma if_stmt_good sp sp' x t f : plain (node x) = true → plain_block t = true → plain_block f = true →
  good_block (if_ sp x t f) (if_stmt ctx sp' x t f).
Proof. apply stmts_if_good. Qed.
Lemma for_stmt_good sp sp' a x c : plain_target (ctx:=ctx) (node a) = true → plain (node x) = true → plain_block c = true →
  over_ok (node x) = true → good_block [mkSpanned sp (For a x c)] (for_stmt ctx sp' a x c).
Proof.
  intros Ha Hx Hc Hok. unfold for_stmt. destruct (is_iterable_empty ctx (node x)) eqn:He.
  - split; [done|]. intros k its its' Hits k' s s' Hk Hs. rewrite block_one. simpl.
    assert (∀ (o : option (out V)) (g : V → St V H → option (out ())),
      (do v, s <~ o; do _u, s <~ g v s; ret FlowNext s) = (do _u, s <~ do v, s <~ o; g v s; ret FlowNext s)) as Hassoc
      by by intros [[]|] g.
    rewrite Hassoc.
    destruct (empty_for n Hn k' sp (span x) (node x) (eval n (span x) (node x) s)
      (λ it v s, do _u, s <~ assign n (span a) (node a) v s; block (its ++ [it]) c s) s s') as (h & Hh & Hs');
      [by apply (empty_runs (ctx:=ctx))|done|done|].
    match type of Hh with ?l = _ => change (out_sim k' same (do _u, s <~ l; ret FlowNext s) (ret FlowNext s')) end.
    rewrite Hh. by apply out_ret.
  - split; [simpl; unfold IrBlock.plain_block in Hc; by rewrite Ha, Hx, Hc|].
    apply bsim_stmt. apply ssim_for; [|by apply (self_plain (ctx:=ctx))|by apply (bsim_self (ctx:=ctx))].
    by apply (self_target_plain (ctx:=ctx)).
Qed.
End stmt.

(** [StmtsCompiled::optimize]: the optimised body of a function returns what the body returns. *)

Section body.
Context `{W : World V H E TC D KM MB} {WO : WorldOk V H E TC D KM MB} {AL : Alike V H E} {AO : AlikeOk V H E TC D KM MB}.
Context {OW : OptWorld V H E TC D MB} {ctx : OptCtx (V:=V) (H:=H)} {FO : FoldOk V H E TC D KM MB ctx} {PT : PositionalTypeTests V H E TC D KM MB}.
Implicit Types (k : list (item V)) (s : St V H) (sp : Span).
Local Abbreviation Expr := (Spanned (ExprCompiled V TC D)).
Local Abbreviation Target := (Spanned (AssignCompiledValue V TC D)).
Local Abbreviation Stmt := (Spanned (StmtCompiled V TC D)).
Context (try_inline : Span → Expr → ArgsCompiledValue Expr → option Expr).
Local Abbreviation ok_expr := (ok_optimize_expr (ctx:=ctx) try_inline).
Local Abbreviation ok_target := (ok_optimize_target (ctx:=ctx) try_inline).
Local Abbreviation opt_expr := (optimize_expr try_inline ctx).
Local Abbreviation opt_at := (optimize_target try_inline ctx).

(** What the optimisation of statements takes: that of the expressions in them, no loop over the empty string, and no
    collection of garbage, which is between the statements of a module only. *)
Definition ok_modify (lhs : AssignModifyLhs V TC D) : bool :=
  match lhs with
  | ModifyDot x _ => ok_expr x
  | ModifyArray x y => ok_expr x && ok_expr y
  | ModifyLocal _ | ModifyLocalCaptured _ => true
  | ModifyModule x => slot_free (ctx:=ctx) (node x)
  end.
Fixpoint ok_stmt (c : StmtCompiled V TC D) : bool :=
  match c with
  | PossibleGc => false
  | Return x | StmtExpr x => ok_expr x
  | Assign a _ x => ok_target a && ok_expr x
  | AssignModify lhs _ x => ok_modify lhs && ok_expr x
  | StmtIf x t f => ok_expr x && forallb (λ c, ok_stmt (node c)) t && forallb (λ c, ok_stmt (node c)) f
  | For a x c => ok_target a && ok_expr x && over_ok (node (opt_expr x)) && forallb (λ c, ok_stmt (node c)) c
  | Break | Continue => true
  end.
Definition ok_body (c : list Stmt) : bool := forallb (λ c, ok_stmt (node c)) c.

Context (n : nat) (hrt : bool) (Hn : 0 < n) (Hinline : inline_ok (ctx:=ctx) n try_inline).
Local Abbreviation good_block := (good_block (ctx:=ctx) n hrt).
Local Abbreviation block := (block n hrt).

Lemma optimize_target_plain a : ok_target a = true → plain_target (ctx:=ctx) (node (opt_at a)) = true.
Proof.
  intros Hok. pose proof (sound_cases (ctx:=ctx) try_inline n Hn Hinline _ _
    (again_good (ctx:=ctx) try_inline n Hn Hinline (target_depth (node a)))) as (_ & _ & _ & Ha).
  by destruct (Ha (node a) Hok).
Qed.
Lemma opt_modify_good lhs : ok_modify lhs = true →
  plain_modify (ctx:=ctx) (opt_modify opt_expr lhs) = true ∧ msim (ctx:=ctx) n lhs (opt_modify opt_expr lhs).
Proof.
  destruct lhs as [x field|x y|x|x|x]; simpl; intros Hok; bool_to_prop; try done.
  - by destruct (optimize_expr_good try_inline n Hn Hinline x) as [Hp Hs].
  - destruct (optimize_expr_good try_inline n Hn Hinline x) as [Hp Hs]; [done|].
    destruct (optimize_expr_good try_inline n Hn Hinline y) as [Hp' Hs']; [done|]. by rewrite Hp, Hp'.
Qed.
Lemma plain_single (c : Stmt) : plain_stmt (ctx:=ctx) (node c) = true → plain_block (ctx:=ctx) [c] = true.
Proof. intros Hc. by apply andb_true_iff. Qed.
Local Ltac parts :=
  repeat match goal with
  | Hok : ok_expr ?x = true |- _ =>
    let Hp := fresh "Hp" in let Hs := fresh "Hs" in
    destruct (optimize_expr_good try_inline n Hn Hinline x Hok) as [Hp Hs]; clear Hok
  | Hok : ok_target ?a = true |- _ =>
    let Hp := fresh "Pa" in let Hs := fresh "Sa" in
    pose proof (optimize_target_plain a Hok) as Hp; pose proof (optimize_target_good try_inline n Hn Hinline a Hok) as Hs; clear Hok
  end.
Lemma opt_stmt_good c : ok_stmt c = true → ∀ sp, good_block [mkSpanned sp c] (opt_stmt ctx opt_expr opt_at sp c).
Proof.
  assert (∀ cs : list Stmt, Forall (on (λ c, ok_stmt c = true → ∀ sp, good_block [mkSpanned sp c] (opt_stmt ctx opt_expr opt_at sp c))) cs →
    ok_body cs = true → good_block cs (opt_block (λ c, opt_stmt ctx opt_expr opt_at (span c) (node c)) cs)) as Hblock.
  { intros cs Hcs Hok. apply (good_opt_block (ctx:=ctx)). intros [csp c'] Hc. rewrite Forall_forall in Hcs.
    unfold ok_body in Hok. rewrite forallb_forall in Hok. apply (Hcs _ Hc). by apply (Hok (mkSpanned csp c')), list_elem_of_In. }
  revert c. apply (stmt_induction (λ c, ok_stmt c = true → ∀ sp, good_block [mkSpanned sp c] (opt_stmt ctx opt_expr opt_at sp c)));
    simpl; try done; intros; bool_to_prop; parts.
  - split; [by apply plain_single|]. by apply (bsim_stmt n hrt), ssim_return.
  - eapply (good_block_trans (ctx:=ctx)); [|by apply (stmt_expr_good (ctx:=ctx) n hrt sp)].
    by apply (bsim_stmt n hrt), ssim_expr.
  - split; [by apply plain_single, andb_true_iff|]. by apply (bsim_stmt n hrt), ssim_assign.
  - destruct (opt_modify_good lhs) as [Pm Sm]; [done|]. split; [by apply plain_single, andb_true_iff|].
    by apply (bsim_stmt n hrt), (ssim_modify (ctx:=ctx)).
  - destruct (Hblock t) as [Pt St_]; [done..|]. destruct (Hblock f) as [Pf Sf]; [done..|].
    eapply (good_block_trans (ctx:=ctx)); [|by apply (if_stmt_good (ctx:=ctx) n hrt sp)].
    apply (bsim_stmt n hrt), ssim_if; [by apply esim_tsim|done|done].
  - destruct (Hblock body) as [Pb Sb]; [done..|].
    eapply (good_block_trans (ctx:=ctx)); [|by apply (for_stmt_good (ctx:=ctx) n hrt Hn sp)].
    by apply (bsim_stmt n hrt), ssim_for.
  - by apply (good_block_self (ctx:=ctx)).
  - by apply (good_block_self (ctx:=ctx)).
Qed.
Lemma optimize_good c : ok_body c = true → good_block c (optimize try_inline ctx c).
Proof.
  intros Hok. apply (good_opt_block (ctx:=ctx)). intros [csp c'] Hc. apply opt_stmt_good.
  unfold ok_body in Hok. rewrite forallb_forall in Hok. by apply (Hok (mkSpanned csp c')), list_elem_of_In.
Qed.

(** * Bodies *)

Definition body_sim k (o o' : option (Outcome V H E)) : Prop :=
  match o, o' with Some x, Some y => exit_sim k x y | None, None => True | _, _ => False end.
(** How the body ends when the last statement is done. *)
Definition body_end sp (o : option (out V H E Flow)) : option (Outcome V H E) :=
  match obind o (λ flow s, match flow with FlowNext => return_value hrt sp new_none s | _ => Some (Exits (Faulted Panicked)) end) with
  | Some (Exits o) => Some o
  | _ => None
  end.
Lemma exec_body_end c s : exec_body n hrt c s =
  body_end (match last c with Some c => end_span (span c) | None => Span_default end) (block [] c s).
Proof. unfold exec_body, body_end, IrBlock.block. by destruct (obind _ _) as [[]|]. Qed.
Lemma body_end_sim k sp sp' (o o' : option (out V H E Flow)) : out_sim k same o o' → body_sim k (body_end sp o) (body_end sp' o').
Proof.
  destruct o as [[f s|x]|], o' as [[f' s'|y]|]; try done. intros (k1 & Hk1 & Hs & ->). unfold body_end. simpl.
  destruct f'; [|done..].
  destruct (const_sim (ctx:=ctx) k1 _ _ new_none frozen_new_none (proj1 Hs)) as (k2 & Hk2 & Hh & Hv).
  assert (out_sim (A:=Flow) (B:=Flow) k2 same (return_value hrt sp new_none s) (return_value hrt sp' new_none s')) as Hret.
  { apply (return_sim hrt k2 same sp sp' _ _ _ _ Hv). destruct Hs as [_ Hl]. split; [done|]. by eapply locals_mono. }
  apply (out_mono k k2) in Hret; [|by trans k1]. unfold return_value in *.
  destruct hrt; [destruct (at_span sp _ s) as [[]|], (at_span sp' _ s') as [[]|]|]; simpl in *; try done.
Qed.
Lemma optimize_body k c s s' : ok_body c = true → st_sim k s s' →
  body_sim k (exec_body n hrt c s) (exec_body n hrt (optimize try_inline ctx c) s').
Proof.
  intros Hok Hs. rewrite !exec_body_end. apply body_end_sim. apply (bsim_at n hrt); [apply (optimize_good c Hok)|constructor|done].
Qed.
End body.
