(* ===== verification/OptWorlds.v ===== *)
(** A world in which lists, dictionaries and cells are on a heap and tuples are not, and when two of its heaps look
    the same: the values that the program has are related by a renaming of addresses.  It satisfies the laws that the
    optimiser relies on, so they can hold together. *)

From S2P Require Import Prelude Hashing TableMap FastString StrFormat Symbol CodeMap.
From S2P Require Import DefParams OrdMap ParamSpec Def DefSpec Ir Inline World IrEval Optimize Alike IrSim OptCon InlineOk BcExample.

(** * Values and heaps *)

(** [OFun], [OAddFn], [OIncFn] and [OIsIntFn] are the functions [def f(x): return x], [def add(x, y=1): return x + y],
    [def inc(x): return add(x)] and [def is_int(x): return type(x) == "int"]; [OLocal] stands for a variable while a call is inlined. *)
Inductive oval :=
| ONone | OBool (b : bool) | OInt (z : Z) | OStr (s : list byte) | OTuple (l : list oval)
| OList (i : nat) | ODict (i : nat) | OCell (i : nat) | OFun | OAddFn | OIncFn | OIsIntFn | OLenFn | OTypeFn | OLocal (x : nat).
#[global] Instance oval_eq_dec : EqDecision oval.
Proof.
  refine (fix go a b := let _ : EqDecision oval := @go in
    match a, b with
    | ONone, ONone | OFun, OFun | OAddFn, OAddFn | OIncFn, OIncFn | OIsIntFn, OIsIntFn | OLenFn, OLenFn | OTypeFn, OTypeFn => left eq_refl
    | OBool x, OBool y => cast_if (decide (x = y))
    | OInt x, OInt y => cast_if (decide (x = y))
    | OStr x, OStr y => cast_if (decide (x = y))
    | OTuple x, OTuple y => cast_if (decide (x = y))
    | OList x, OList y | ODict x, ODict y | OCell x, OCell y | OLocal x, OLocal y => cast_if (decide (x = y))
    | _, _ => right _
    end); clear r go; congruence.
Defined.
Section oval_induction.
Context (P : oval → Prop) (Htuple : ∀ l, Forall P l → P (OTuple l)) (Hother : ∀ v, (∀ l, v ≠ OTuple l) → P v).
Lemma oval_induction v : P v.
Proof.
  revert v. fix IH 1. intros [| | | |l| | | | | | | | | |]; try (apply Hother; congruence). apply Htuple.
  induction l as [|v l IHl]; constructor; [apply IH|exact IHl].
Qed.
End oval_induction.
Inductive hobj := HList (l : list oval) | HDict (l : list (oval * oval)) | HCell (v : oval).
Abbreviation oheap := (list hobj).

(** The elements of a container. *)
Definition o_items (v : oval) (h : oheap) : option (list oval) :=
  match v with
  | OTuple l => Some l
  | OList i => match h !! i with Some (HList l) => Some l | _ => None end
  | ODict i => match h !! i with Some (HDict l) => Some (map fst l) | _ => None end
  | _ => None
  end.
Fixpoint o_frozen (v : oval) : bool :=
  match v with OList _ | ODict _ | OCell _ | OLocal _ => false | OTuple l => forallb o_frozen l | _ => true end.
Definition o_builtin (v : oval) : bool :=
  match v with OFun | OAddFn | OIncFn | OIsIntFn | OLenFn | OTypeFn => false | _ => o_frozen v end.
Definition o_to_bool (v : oval) (h : oheap) : bool :=
  match v with
  | ONone => false | OBool b => b | OInt z => negb (z =? 0)%Z | OStr s => negb (length s =? 0)
  | _ => match o_items v h with Some l => negb (length l =? 0) | None => true end
  end.
(** Letters stand for the names of types. *)
Definition o_type (v : oval) : list byte :=
  match v with
  | ONone => [0] | OBool _ => [1] | OInt _ => [2] | OStr _ => [3] | OTuple _ => [4] | OList _ => [5] | ODict _ => [6]
  | OCell _ => [7] | OFun | OAddFn | OIncFn | OIsIntFn | OLenFn | OTypeFn => [8] | OLocal _ => [9]
  end%Z.
Definition o_text (v : oval) : list byte := match v with OStr s => s | _ => o_type v end.

(** * Operations *)

Definition o_fail {A} (r : treason) : Op oheap terr A := λ h, (Err (terror r), h).
Definition o_int2 (f : Z → Z → oval) (a b : oval) : Op oheap terr oval :=
  match a, b with OInt x, OInt y => λ h, (Ok (f x y), h) | _, _ => o_fail NotSupported end.
Definition o_compare (a b : oval) : Op oheap terr comparison :=
  match a, b with OInt x, OInt y => λ h, (Ok (x ?= y)%Z, h) | _, _ => o_fail NotSupported end.
Definition o_equals (a b : oval) : Op oheap terr bool := λ h, (Ok (bool_decide (a = b)), h).
Definition o_alloc (f : nat → oval) (o : hobj) (h : oheap) : oval * oheap := (f (length h), h ++ [o]).
Definition o_add (a b : oval) : Op oheap terr oval :=
  match a, b with
  | OInt x, OInt y => λ h, (Ok (OInt (x + y)), h)
  | OStr x, OStr y => λ h, (Ok (OStr (x ++ y)), h)
  | OTuple x, OTuple y => λ h, (Ok (OTuple (x ++ y)), h)
  | OList _, OList _ => λ h,
    match o_items a h, o_items b h with
    | Some x, Some y => let '(v, h) := o_alloc OList (HList (x ++ y)) h in (Ok v, h)
    | _, _ => o_fail NotSupported h
    end
  | _, _ => o_fail NotSupported
  end.
Definition o_length (v : oval) : Op oheap terr Z := λ h,
  match v with
  | OStr s => (Ok (Z.of_nat (length s)), h)
  | _ => match o_items v h with Some l => (Ok (Z.of_nat (length l)), h) | None => o_fail NotSupported h end
  end.
Definition o_at (a i : oval) : Op oheap terr oval := λ h,
  match o_items a h, i with
  | Some l, OInt z => match l !! Z.to_nat z with Some v => (Ok v, h) | None => o_fail BadIndex h end
  | _, _ => o_fail NotSupported h
  end.
Definition o_set_at (a i v : oval) : Op oheap terr () := λ h,
  match a, i with
  | OList n, OInt z =>
    match h !! n with
    | Some (HList l) => (Ok (), <[n := HList (<[Z.to_nat z := v]> l)]> h)
    | _ => o_fail NotSupported h
    end
  | _, _ => o_fail NotSupported h
  end.
Definition o_push (a v : oval) : Op oheap terr () := λ h,
  match a with
  | OList n => match h !! n with Some (HList l) => (Ok (), <[n := HList (l ++ [v])]> h) | _ => o_fail NotSupported h end
  | _ => o_fail NotSupported h
  end.
Definition o_insert (a : oval) (k : Hashed oval) (v : oval) : Op oheap terr () := λ h,
  match a with
  | ODict n => match h !! n with Some (HDict l) => (Ok (), <[n := HDict (l ++ [(key k, v)])]> h) | _ => o_fail NotSupported h end
  | _ => o_fail NotSupported h
  end.
Definition o_iterate (v : oval) : Op oheap terr oval := λ h,
  match o_items v h with Some _ => (Ok v, h) | None => o_fail NotSupported h end.
Definition o_next (v : oval) (i : nat) (h : oheap) : option oval * oheap :=
  (l ← o_items v h; l !! i, h).
Definition o_percent_one (b : list byte) (v : oval) (a : list byte) : Op oheap terr oval := λ h,
  match v with OTuple _ => o_fail BadCount h | _ => (Ok (OStr (b ++ o_text v ++ a)), h) end.
Definition o_percent (v x : oval) : Op oheap terr oval :=
  match v with
  | OStr s => match parse_percent_s_one s with Some (b, a) => o_percent_one b x a | None => o_fail NotSupported end
  | _ => o_fail NotSupported
  end.
Definition o_len (v : oval) : Op oheap terr oval := λ h,
  match o_length v h with (Ok n, h) => (Ok (OInt n), h) | (Err e, h) => (Err e, h) | (Fault f, h) => (Fault f, h) end.
(** The parameters of a call. *)
Definition o_bind {N} (f : oval) (a : ArgumentsFull N oval) : option (list oval) :=
  match a with
  | mkArguments pos [] [] None None =>
    match f, pos with
    | OFun, [x] | OIncFn, [x] | OIsIntFn, [x] | OLenFn, [x] | OTypeFn, [x] => Some [x]
    | OAddFn, [x] => Some [x; OInt 1]
    | OAddFn, [x; y] => Some [x; y]
    | _, _ => None
    end
  | _ => None
  end.
Definition o_run (f : oval) (slots : list oval) : Op oheap terr oval := λ h,
  match f, slots with
  | OFun, [x] => (Ok x, h)
  | OAddFn, [x; y] => o_add x y h
  | OIncFn, [x] => o_add x (OInt 1) h
  | OIsIntFn, [x] => (Ok (OBool (bool_decide (o_type x = [2%Z]))), h)
  | OLenFn, [x] => o_len x h
  | OTypeFn, [x] => (Ok (OStr (o_type x)), h)
  | _, _ => o_fail NotSupported h
  end.
Definition o_call {N} (f : oval) (sp : Span) (a : ArgumentsFull N oval) : Op oheap terr oval :=
  match o_bind f a with Some slots => o_run f slots | None => o_fail NotSupported end.
Definition o_param (x : list byte) (y : option oval) : Spanned (ParameterCompiled () (Spanned (ExprCompiled oval () ()))) :=
  mkSpanned Span_default (CompiledNormal (mkParamName x false) None (mkSpanned Span_default <$> (Value <$> y))).
Definition o_def (ps : list (Spanned (ParameterCompiled () (Spanned (ExprCompiled oval () ()))))) (e : ExprCompiled oval () ()) :
    FrozenDef oval () () :=
  mkFrozenDef (mkCompiled ps (mkIndices (length ps) 0 None None)) [mkSpanned Span_default (Return (mkSpanned Span_default e))] false.
Definition o_local (x : nat) : Spanned (ExprCompiled oval () ()) := mkSpanned Span_default (Local x).
Definition o_defs (f : oval) : option (FrozenDef oval () ()) :=
  match f with
  | OFun => Some (o_def [o_param [0%Z] None] (Local 0))
  | OAddFn => Some (o_def [o_param [0%Z] None; o_param [1%Z] (Some (OInt 1))] (ExprBuiltin2 Add (o_local 0) (o_local 1)))
  | OIncFn => Some (o_def [o_param [0%Z] None] (Call (mkSpanned Span_default
      (mkCall (mkSpanned Span_default (Value OAddFn)) (mkArgs [o_local 0] [] None None)))))
  | OIsIntFn => Some (o_def [o_param [0%Z] None] (ExprBuiltin1 (TypeIs [2%Z]) (o_local 0)))
  | _ => None
  end.
Definition o_hash (v : oval) : result terr StarlarkHashValue :=
  match v with OList _ | ODict _ => Err (terror NotSupported) | _ => Ok 0%Z end.
Definition o_cell_get (c : oval) (h : oheap) : option oval :=
  match c with OCell i => match h !! i with Some (HCell v) => Some v | _ => None end | _ => None end.
Definition o_cell_set (c v : oval) : Op oheap terr () := λ h,
  match c with
  | OCell i => match h !! i with Some (HCell _) => (Ok (), <[i := HCell v]> h) | _ => o_fail NotSupported h end
  | _ => o_fail NotSupported h
  end.
(** The module has the constant 7 in its slot 0. *)
Definition o_slots (x : nat) : option oval := match x with 0 => Some (OInt 7) | _ => None end.

#[global] Instance oworld : World oval oheap terr () () () () := {|
  new_bool := OBool; new_none := ONone; frozen_str := OStr;
  to_bool := o_to_bool; get_type_value := o_type; as_frozen_str v := match v with OStr s => Some s | _ => None end;
  unpack_int_value v := match v with OInt z => Some z | _ => None end;
  eq_is_ptr_eq v := match v with ONone | OBool _ => true | _ => false end;
  ptr_eq a b := bool_decide (a = b); get_hashed := o_hash; key_eq a b := bool_decide (a = b);
  v_equals := o_equals; v_compare := o_compare; is_in a b := o_fail NotSupported;
  v_minus a := o_int2 (λ x y, OInt (y - x)) a (OInt 0); v_plus a := o_fail NotSupported;
  bit_not a := o_fail NotSupported; v_sub := o_int2 (λ x y, OInt (x - y)); v_add := o_add;
  v_mul := o_int2 (λ x y, OInt (x * y)); v_percent := o_percent; v_div a b := o_fail NotSupported;
  v_floor_div a b := o_fail NotSupported; bit_and a b := o_fail NotSupported; bit_or a b := o_fail NotSupported;
  bit_xor a b := o_fail NotSupported; left_shift a b := o_fail NotSupported; right_shift a b := o_fail NotSupported;
  v_at := o_at; v_at2 a i j := o_fail NotSupported; v_slice l a b c := o_fail NotSupported;
  v_length := o_length; alloc_int z h := (OInt z, h);
  set_at := o_set_at; set_attr a f v := o_fail NotSupported;
  add_assign := o_add; bit_or_assign a b := o_fail NotSupported;
  percent_s_one := o_percent_one; format_one a v b h := (OStr (a ++ o_text v ++ b), h);
  v_iterate := o_iterate; iter_next := o_next; iter_stop v h := h; unpack_count_error n z := terror BadCount;
  h_alloc_tuple l h := (OTuple l, h); h_alloc_list l := o_alloc OList (HList l);
  h_alloc_dict l := o_alloc ODict (HDict (map (λ '(k, v), (key k, v)) l));
  list_push := o_push; dict_insert_hashed := o_insert; duplicate_key_error v := terror NotSupported;
  get_attr_hashed_bind v f := o_fail NotSupported; get_attr_hashed_raw v f := o_fail NotSupported;
  member_invoke m v sp a := o_fail NotSupported; get_known_method n := None; known_method_is m v := false;
  known_method_invoke m v sp a := o_fail NotSupported; invoke_with_loc := o_call; is_frozen_def v := match o_defs v with Some _ => true | None => false end;
  resolve_arg_name v n := mkResolved 0 None; invoke_frozen_def := o_call;
  is_native_function v := false; invoke_native f sp a := o_fail NotSupported;
  is_fn_len v := bool_decide (v = OLenFn); is_fn_type v := bool_decide (v = OTypeFn); is_fn_isinstance v := false;
  new_frozen v := None; type_matches t v h := true; check_type t v h := (Ok (), h);
  check_return_type v := match v with ONone => o_fail WrongType | _ => λ h, (Ok (), h) end;
  get_slot_module x h := match o_slots x with Some v => (Ok v, h) | None => o_fail (Unassigned x) h end;
  set_slot_module x v h := h; export_as v n h := (Ok (), h);
  local_var_referenced_before_assignment x h := terror (Unassigned x);
  value_captured_get := o_cell_get; value_captured_set := o_cell_set;
  alloc_value_captured v := o_alloc OCell (HCell v);
  instr_def d vs ls h := (Ok (OFun, ls), h);
  add_span_to_expr_error e sp h := mkErr (te_reason e) (match te_span e with None => Some sp | o => o end);
  possible_gc h := (λ v, v, h);
|}.
#[global] Instance oworld_ok : WorldOk oval oheap terr () () () ().
Proof.
  split; try done; simpl.
  - intros a b h. unfold o_equals. f_equal. f_equal. by apply bool_decide_ext.
  - intros [] [] u w h [= <-] [= <-]. unfold o_equals. f_equal. f_equal.
    case_bool_decide as Hz; symmetry; [apply Z.eqb_eq|apply Z.eqb_neq]; naive_solver.
  - intros a b s h Hs. destruct b; simpl in Hs; simplify_eq. unfold o_equals. f_equal. f_equal. apply bool_decide_ext. destruct a; naive_solver.
  - intros f sp [pos named names args kwargs] h _. unfold o_call, o_bind, resolve_args. simpl. by destruct named, names, args, kwargs.
  - intros d vs ls h v ls' h' [= <- <- <-]. done.
Qed.

Fixpoint o_contents (v : oval) : tree oval := Tree v match v with OTuple l => map o_contents l | _ => [] end.
#[global] Instance oopt : OptWorld oval oheap terr () () () := {|
  is_frozen := o_frozen; is_builtin := o_builtin;
  unpack_bool v := match v with OBool b => Some b | _ => None end;
  unpack_str v := match v with OStr s => Some s | _ => None end;
  copy_float v := None; copy_range v := None;
  is_list v := match v with OList _ => true | _ => false end; is_tuple v := match v with OTuple _ => true | _ => false end;
  contents v h := o_contents v; frozen_list v := None; frozen_tuple := OTuple; inline_int z := Some (OInt z);
  get_type := o_type; tuple_type := [4%Z]; list_type := [5%Z]; dict_type := [6%Z]; bool_type := [1%Z];
  fn_len := OLenFn; fn_type := OTypeFn;
  member_view m := MemberAttr; frozen_bound_method v m := v; as_bound_method v := None;
  frozen_def := o_defs; collect_slots f a := map Some <$> o_bind f a;
  local_value := OLocal; as_local v := match v with OLocal x => Some x | _ => None end;
  enum_construct v := None; speculative_exec_safe v := match v with OLenFn | OTypeFn => true | _ => false end;
|}.
Definition octx : OptCtx (V:=oval) (H:=oheap) := mkOptCtx [] (Some o_slots) true 1.

(** In the world of lists on a heap, heaps that differ in their addresses and in what is not used cannot be told
    apart, and the optimiser may do what it does: the laws [AlikeOk] and [FoldOk]. *)

Implicit Types (h : oheap) (a b v w : oval) (R : nat → nat → Prop).

(** * Values up to a renaming of addresses *)

Definition atom (v : oval) : bool := match v with OTuple _ | OList _ | ODict _ | OCell _ => false | _ => true end.
Inductive vrel R : oval → oval → Prop :=
| vrel_atom v : atom v = true → vrel R v v
| vrel_tuple l l' : Forall2 (vrel R) l l' → vrel R (OTuple l) (OTuple l')
| vrel_list i j : R i j → vrel R (OList i) (OList j)
| vrel_dict i j : R i j → vrel R (ODict i) (ODict j)
| vrel_cell i j : R i j → vrel R (OCell i) (OCell j).
Inductive orel R : hobj → hobj → Prop :=
| orel_list l l' : Forall2 (vrel R) l l' → orel R (HList l) (HList l')
| orel_dict l l' : Forall2 (λ x y, vrel R x.1 y.1 ∧ vrel R x.2 y.2) l l' → orel R (HDict l) (HDict l')
| orel_cell v w : vrel R v w → orel R (HCell v) (HCell w).

Lemma forall2_of {A B C} (P : A → Prop) (Q : A → B → Prop) (l : list A) (l' : list B) (S : A → C → Prop) (f : B → C) :
  Forall P l → (∀ x y, P x → Q x y → S x (f y)) → Forall2 Q l l' → Forall2 S l (map f l').
Proof. intros HP HS HQ. revert HP. induction HQ as [|x y l l' Hxy Hl IH]; intros HP; inversion HP; subst; constructor; auto. Qed.
Lemma vrel_mono R R' a b : (∀ i j, R i j → R' i j) → vrel R a b → vrel R' a b.
Proof.
  intros HR. revert b. induction a as [l IH|a Hother] using oval_induction; intros b Hab.
  - inversion Hab as [v Hv|l1 l2 Hl| | |]; subst; [done|]. apply vrel_tuple. clear Hab.
    induction Hl as [|x y l l' Hxy Hl IHl]; inversion IH; subst; constructor; auto.
  - inversion Hab; subst; try (constructor; by auto). by edestruct Hother.
Qed.
Lemma orel_mono R R' o o' : (∀ i j, R i j → R' i j) → orel R o o' → orel R' o o'.
Proof.
  intros HR [l l' Hl|l l' Hl|v w Hv]; constructor; try (eapply Forall2_impl; [exact Hl|]); simpl; intros; try by eapply vrel_mono.
  naive_solver eauto using vrel_mono.
Qed.
Lemma vrel_frozen R v : o_frozen v = true → vrel R v v.
Proof.
  induction v as [l IH|v Hother] using oval_induction; simpl; intros Hf.
  - apply vrel_tuple. rewrite forallb_forall in Hf. rewrite Forall_forall in IH. apply Forall2_same_length_lookup_2; [done|].
    intros i x y Hx Hy. simplify_eq. apply IH; [by eapply list_elem_of_lookup_2|]. by apply Hf, list_elem_of_In; eapply list_elem_of_lookup_2.
  - destruct v; try done; try (by constructor). by edestruct Hother.
Qed.
(** Whether two values are the same is kept by a renaming. *)
Definition renaming R : Prop := ∀ i j i' j', R i j → R i' j' → i = i' ↔ j = j'.
Lemma vrel_eq R a b a' b' : renaming R → vrel R a b → vrel R a' b' → a = a' ↔ b = b'.
Proof.
  intros Hinj. revert b a' b'. induction a as [l IH|a Hother] using oval_induction; intros b a' b' Hab Ha'.
  - inversion Hab as [v Hv|l1 l2 Hl| | |]; subst; [done|].
    inversion Ha' as [v Hv|l3 l4 Hl'| | |]; subst; try (split; intros; subst; done); try (split; congruence).
    assert (l = l3 ↔ l2 = l4) as Heq; [|split; intros [=]; f_equal; by apply Heq].
    clear Hab Ha'. revert l3 l4 Hl'. induction Hl as [|x y l l2 Hxy Hl IHl]; intros l3 l4 Hl'; inversion Hl'; subst; try (split; congruence).
    inversion IH as [|? ? Hx Hxs]; subst. specialize (IHl Hxs). rename select (vrel R _ _) into Hxy'.
    match goal with Hr : vrel R ?u ?v, Hf : Forall2 _ ?us ?vs |- x :: l = ?u :: ?us ↔ y :: l2 = ?v :: ?vs =>
      specialize (Hx _ _ _ Hxy Hr); specialize (IHl _ _ Hf) end.
    split; intros [= ? ?]; f_equal; tauto.
  - destruct Hab as [v Hv|l l' Hl|i j Hij|i j Hij|i j Hij]; [| by edestruct Hother| | |];
      destruct Ha' as [v' Hv'|m m' Hm|i' j' Hij'|i' j' Hij'|i' j' Hij']; try done; try (split; congruence).
    all: try (pose proof (Hinj _ _ _ _ Hij Hij'); naive_solver).
    all: split; intros Heq; subst; done.
Qed.

(** * Heaps *)

Record heaps_rel R h h' : Prop := {
  hr_renaming : renaming R;
  hr_objects i j : R i j → ∃ o o', h !! i = Some o ∧ h' !! j = Some o' ∧ orel R o o';
}.
Definition item_rel R h (i : item oval) : Prop :=
  match i with
  | Pair a b => vrel R a b
  | Elems a vs => ∃ i, a = OList i ∧ h !! i = Some (HList vs) ∧ ∀ j, ¬ R i j
  | Fresh u t => t = o_contents u ∧ o_frozen u = true
  | Shell tuple u us => tuple = true ∧ u = OTuple us
  end.
Definition items_rel R h (k : list (item oval)) : Prop := ∀ i, i ∈ k → item_rel R h i.
#[global] Instance oalike : Alike oval oheap terr := {|
  alike k h h' := ∃ R, heaps_rel R h h' ∧ items_rel R h k;
  same_error e e' := te_reason e = te_reason e';
  assigned_params := 1;
|}.
Implicit Types (k : list (item oval)).

Lemma vsim_rel R h k a b : items_rel R h k → vsim k a b → vrel R a b.
Proof. intros Hk. apply (Hk (Pair a b)). Qed.
Lemma lsim_rel R h k l l' : items_rel R h k → lsim k l l' → Forall2 (vrel R) l l'.
Proof. intros Hk Hl. eapply Forall2_impl; [exact Hl|]. intros. by eapply vsim_rel. Qed.
Lemma items_cons R h k i : item_rel R h i → items_rel R h k → items_rel R h (i :: k).
Proof. intros Hi Hk j [->|Hj]%elem_of_cons; auto. Qed.
Lemma alike_rel k h h' : alike k h h' → ∃ R, heaps_rel R h h' ∧ items_rel R h k.
Proof. done. Qed.
Lemma alike_pair R h h' k a b : heaps_rel R h h' → items_rel R h k → vrel R a b → alike (Pair a b :: k) h h'.
Proof. intros. exists R. split; [done|by apply items_cons]. Qed.
Lemma sub_pair k (i : item oval) : k ⊆+ i :: k.
Proof. by apply submseteq_cons. Qed.
Lemma pair_sim k a b : vsim (Pair a b :: k) a b.
Proof. by left. Qed.
Hint Resolve sub_pair pair_sim : core.

(** A new object on both heaps; one on the first only. *)
Lemma alloc_rel R h h' k o o' : heaps_rel R h h' → items_rel R h k → orel R o o' →
  let R' := λ i j, R i j ∨ i = length h ∧ j = length h' in heaps_rel R' (h ++ [o]) (h' ++ [o']) ∧ items_rel R' (h ++ [o]) k.
Proof.
  intros [Hinj Hobj] Hk Ho R'. assert (∀ i j, R i j → i < length h ∧ j < length h') as Hlt.
  { intros i j Hij. destruct (Hobj i j Hij) as (x & y & Hx%lookup_lt_Some & Hy%lookup_lt_Some & _). done. }
  assert (∀ i j, R i j → R' i j) as HR by by left.
  split; [split|].
  - intros i j i' j' [Hij|[-> ->]] [Hij'|[-> ->]]; [by eapply Hinj| | |done].
    + apply Hlt in Hij. lia.
    + apply Hlt in Hij'. lia.
  - intros i j [Hij|[-> ->]].
    + destruct (Hobj i j Hij) as (x & y & Hx & Hy & Hxy). exists x, y.
      split_and!; [by apply lookup_app_l_Some|by apply lookup_app_l_Some|by eapply orel_mono].
    + exists o, o'. split_and!; [by apply list_lookup_middle|by apply list_lookup_middle|by eapply orel_mono].
  - intros [a b|a vs|u t|tu u us] Hi; specialize (Hk _ Hi); simpl in *; [by eapply vrel_mono| |done..].
    destruct Hk as (i & -> & Hl & Hno). exists i. split_and!; [done|by apply lookup_app_l_Some|].
    intros j [Hij|[-> _]]; [by eapply Hno|]. apply lookup_lt_Some in Hl. lia.
Qed.
Lemma drop_rel R h h' k o : heaps_rel R h h' → items_rel R h k → heaps_rel R (h ++ [o]) h' ∧ items_rel R (h ++ [o]) k.
Proof.
  intros [Hinj Hobj] Hk. split; [split; [done|]|].
  - intros i j Hij. destruct (Hobj i j Hij) as (x & y & Hx & Hy & Hxy). exists x, y. split_and!; [by apply lookup_app_l_Some|done..].
  - intros [a b|a vs|u t|tu u us] Hi; specialize (Hk _ Hi); simpl in *; [done| |done..].
    destruct Hk as (i & -> & Hl & Hno). exists i. split_and!; [done|by apply lookup_app_l_Some|done].
Qed.
Lemma update_rel R h h' k i j o o' : heaps_rel R h h' → items_rel R h k → R i j → orel R o o' →
  heaps_rel R (<[i := o]> h) (<[j := o']> h') ∧ items_rel R (<[i := o]> h) k.
Proof.
  intros [Hinj Hobj] Hk Hij Ho. split; [split; [done|]|].
  - intros i' j' Hij'. destruct (Hobj i' j' Hij') as (x & y & Hx & Hy & Hxy). destruct (decide (i = i')) as [<-|Hne].
    + assert (j = j') as <- by by apply (Hinj _ _ _ _ Hij Hij'). exists o, o'.
      split_and!; [by apply list_lookup_insert_eq; eapply lookup_lt_Some|by apply list_lookup_insert_eq; eapply lookup_lt_Some|done].
    + assert (j ≠ j') by by intros Hj; apply Hne, (Hinj _ _ _ _ Hij Hij'). exists x, y. by rewrite !list_lookup_insert_ne.
  - intros [a b|a vs|u t|tu u us] Hi; specialize (Hk _ Hi); simpl in *; [done| |done..].
    destruct Hk as (n & -> & Hl & Hno). exists n. split_and!; [done| |done].
    rewrite list_lookup_insert_ne; [done|]. intros ->. by eapply Hno.
Qed.
Lemma heap_items R h h' a b : heaps_rel R h h' → vrel R a b → option_Forall2 (Forall2 (vrel R)) (o_items a h) (o_items b h').
Proof.
  intros [_ Hobj] [v Hv|l l' Hl|i j Hij|i j Hij|i j Hij]; simpl.
  - destruct v; try done; constructor.
  - by constructor.
  - destruct (Hobj i j Hij) as (x & y & -> & -> & Hxy). destruct Hxy; by constructor.
  - destruct (Hobj i j Hij) as (x & y & -> & -> & Hxy). destruct Hxy as [|l l' Hl|]; constructor. apply Forall2_fmap. eapply Forall2_impl; [exact Hl|]. naive_solver.
  - constructor.
Qed.

(** * Runs that are alike *)

Definition restrict R : nat → nat → Prop := λ i j, i = j ∧ ∃ j, R i j.
Lemma vrel_left R a b : vrel R a b → vrel (restrict R) a a.
Proof.
  revert b. induction a as [l IH|a Hother] using oval_induction; intros b Hab.
  - inversion Hab as [v Hv|l1 l2 Hl| | |]; subst; [done|]. apply vrel_tuple. clear Hab.
    induction Hl as [|x y l l' Hxy Hl IHl]; inversion IH; subst; constructor; eauto.
  - inversion Hab; subst; [by constructor|by edestruct Hother|constructor; split; eauto..].
Qed.
Definition compose (R S : nat → nat → Prop) : nat → nat → Prop := λ i l, ∃ j, R i j ∧ S j l.
Lemma vrel_compose R S a b c : vrel R a b → vrel S b c → vrel (compose R S) a c.
Proof.
  revert b c. induction a as [l IH|a Hother] using oval_induction; intros b c Hab Hbc.
  - inversion Hab as [v Hv|l1 l2 Hl| | |]; subst; [done|]. inversion Hbc as [v Hv|l3 l4 Hl'| | |]; subst; [done|]. apply vrel_tuple.
    clear Hab Hbc. revert l4 Hl'. induction Hl as [|x y l l2 Hxy Hl IHl]; intros l4 Hl'; inversion Hl'; inversion IH; subst; constructor; eauto.
  - inversion Hab; subst; [|by edestruct Hother| | |]; inversion Hbc; subst; try done; constructor; try done; by eexists.
Qed.
Lemma orel_left R o o' : orel R o o' → orel (restrict R) o o.
Proof.
  intros [l l' Hl|l l' Hl|v w Hv]; constructor; [| |by eapply vrel_left];
    (induction Hl as [|x y l l' Hxy Hl IH]; constructor; [|exact IH]); [by eapply vrel_left|destruct Hxy; split; by eapply vrel_left].
Qed.
Lemma orel_compose R S o o' o'' : orel R o o' → orel S o' o'' → orel (compose R S) o o''.
Proof.
  intros Ho Ho'. destruct Ho as [l l' Hl|l l' Hl|v w Hv]; inversion Ho' as [m m' Hm|m m' Hm|v' w' Hv']; subst; constructor.
  - clear Ho'. revert m' Hm. induction Hl as [|x y l l' Hxy Hl IH]; intros m' Hm; inversion Hm; subst; constructor; [by eapply vrel_compose|auto].
  - clear Ho'. revert m' Hm. induction Hl as [|x y l l' [Hx Hy] Hl IH]; intros m' Hm; inversion Hm as [|? z ? ? [Hx' Hy']]; subst; constructor; [|auto].
    split; by eapply vrel_compose.
  - by eapply vrel_compose.
Qed.
Lemma oalike_left k h h' : alike k h h' → alike (to_left <$> k) h h.
Proof.
  intros (R & [Hinj Hobj] & Hk). exists (restrict R). split; [split|].
  - intros i j i' j' [-> _] [-> _]. done.
  - intros i j [-> [j' Hj]]. destruct (Hobj _ _ Hj) as (o & o' & Ho & Ho' & Hr). exists o, o. split_and!; [done..|]. by eapply orel_left.
  - intros i Hi. apply list_elem_of_fmap in Hi as (x & -> & Hx). specialize (Hk _ Hx). destruct x; simpl in *; [by eapply vrel_left| |done..].
    destruct Hk as (i & -> & Hl & Hno). exists i. split_and!; [done..|]. intros j [-> [j' Hj]]. by eapply Hno.
Qed.
Lemma oalike_trans k k1 k2 m h1 h2 h3 :
  to_left <$> k ⊆+ k1 → k ⊆+ k2 → alike k1 h1 h2 → alike k2 h2 h3 →
  only_pairs (λ a c, ∃ b, Pair a b ∈ k1 ∧ Pair b c ∈ k2) m → alike (m ++ k) h1 h3.
Proof.
  intros H1 H2 (R & [Hinj Hobj] & Hk1) (S & [Hinj' Hobj'] & Hk2) Hm. exists (compose R S). split; [split|].
  - intros i l i' l' (j & Hij & Hjl) (j' & Hij' & Hjl'). rewrite (Hinj _ _ _ _ Hij Hij'). by apply Hinj'.
  - intros i l (j & Hij & Hjl). destruct (Hobj _ _ Hij) as (x & y & Hx & Hy & Hxy). destruct (Hobj' _ _ Hjl) as (y' & z & Hy' & Hz & Hyz).
    simplify_eq. exists x, z. split_and!; [done..|]. by eapply orel_compose.
  - intros i [Hi|Hi]%elem_of_app.
    + destruct (Hm _ Hi) as (a & c & -> & b & Hab & Hbc). eapply vrel_compose; [by apply (Hk1 (Pair a b))|by apply (Hk2 (Pair b c))].
    + assert (to_left i ∈ k1) as Hi1 by (eapply elem_of_submseteq; [|exact H1]; by apply list_elem_of_fmap_2).
      assert (i ∈ k2) as Hi2 by by eapply elem_of_submseteq. specialize (Hk1 _ Hi1). specialize (Hk2 _ Hi2).
      destruct i; simpl in *; [by eapply vrel_compose| |done..].
      destruct Hk1 as (i & -> & Hl & Hno). exists i. split_and!; [done..|]. intros l (j & Hij & _). by eapply Hno.
Qed.

(** * Operations *)

Lemma res_pair R h h' k a b : heaps_rel R h h' → items_rel R h k → vrel R a b →
  res_sim (E:=terr) k vsim (Ok a, h) (Ok b, h').
Proof. intros Hr Hk Hab. exists (Pair a b :: k). split_and!; [done|by eapply alike_pair|done]. Qed.
Lemma res_same {A} R h h' k (x : A) : heaps_rel R h h' → items_rel R h k → res_sim (E:=terr) k same (Ok x, h) (Ok x, h').
Proof. intros Hr Hk. exists k. split_and!; [done|by exists R|done]. Qed.
Lemma res_fail {A B} R h h' k (Q : list (item oval) → A → B → Prop) r : heaps_rel R h h' → items_rel R h k →
  res_sim k Q (o_fail r h) (o_fail r h').
Proof. intros Hr Hk. split; [done|by exists R]. Qed.
Lemma fail_sim {A B} k (Q : list (item oval) → A → B → Prop) r : op_sim k Q (o_fail r) (o_fail r).
Proof. intros h h' (R & Hr & Hk). by eapply res_fail. Qed.
Lemma alloc_sim R h h' k (f : nat → oval) o o' : heaps_rel R h h' → items_rel R h k → orel R o o' →
  (f = OList ∨ f = ODict ∨ f = OCell) →
  ∃ k', k ⊆+ k' ∧ alike k' (o_alloc f o h).2 (o_alloc f o' h').2 ∧ vsim k' (o_alloc f o h).1 (o_alloc f o' h').1.
Proof.
  intros Hr Hk Ho Hf. destruct (alloc_rel R h h' k o o' Hr Hk Ho) as [Hr' Hk']. simpl.
  exists (Pair (f (length h)) (f (length h')) :: k). split_and!; [done| |done].
  eapply alike_pair; [exact Hr'|exact Hk'|]. destruct Hf as [->|[->| ->]]; constructor; by right.
Qed.
(** The start of the proof that an operation respects alikeness. *)
Ltac alike_start :=
  lazymatch goal with
  | |- res_sim _ _ _ _ → _ => fail
  | _ => repeat intros ?
  end;
  match goal with H : alike _ _ _ |- _ => let R := fresh "R" in destruct H as (R & ? & ?) end;
  repeat match goal with
  | Hi : items_rel ?R ?h ?k, Hv : vsim ?k _ _ |- _ => apply (vsim_rel R h k _ _ Hi) in Hv
  | Hi : items_rel ?R ?h ?k, Hv : lsim ?k _ _ |- _ => apply (lsim_rel R h k _ _ Hi) in Hv
  end.
Ltac res_done := first [discriminate|by eapply res_pair; [eassumption..|constructor]|by eapply res_same|by eapply res_fail].

Lemma rel_type R a b : vrel R a b → o_type a = o_type b.
Proof. by intros [[] Hv| | | |]. Qed.
Lemma rel_text R a b : vrel R a b → o_text a = o_text b.
Proof. by intros [[] Hv| | | |]. Qed.
Lemma rel_truth R h h' a b : heaps_rel R h h' → vrel R a b → o_to_bool a h = o_to_bool b h'.
Proof.
  intros Hr Hab. pose proof (heap_items R h h' a b Hr Hab) as Hi. destruct Hab as [[] Hv| | | |]; try done; unfold o_to_bool;
    destruct Hi as [x x' Hx|]; try done; by rewrite (Forall2_length _ _ _ Hx).
Qed.
Lemma int2_sim f k : (∀ x y, atom (f x y) = true) → Proper (vsim k ==> vsim k ==> op_sim k vsim) (o_int2 f).
Proof.
  intros Hf a b Hab a' b' Ha' h h'. alike_start. unfold o_int2.
  destruct Hab as [[] Hv| | | |], Ha' as [[] Hv'| | | |]; res_done.
Qed.
Lemma ocompare_sim k : Proper (vsim k ==> vsim k ==> op_sim k same) o_compare.
Proof.
  intros a b Hab a' b' Ha' h h'. alike_start. unfold o_compare. destruct Hab as [[] Hv| | | |], Ha' as [[] Hv'| | | |]; res_done.
Qed.
Lemma oequals_sim k : Proper (vsim k ==> vsim k ==> op_sim k same) o_equals.
Proof.
  intros a b Hab a' b' Ha' h h'. alike_start. unfold o_equals. rewrite (bool_decide_ext (a = a') (b = b')); [res_done|].
  eapply vrel_eq; [by eapply hr_renaming|done..].
Qed.
Lemma oadd_sim k : Proper (vsim k ==> vsim k ==> op_sim k vsim) o_add.
Proof.
  intros a b Hab a' b' Ha' h h'. alike_start. unfold o_add.
  pose proof (heap_items R h h' a b ltac:(done) Hab) as Hi. pose proof (heap_items R h h' a' b' ltac:(done) Ha') as Hi'.
  destruct Hab as [[] Hv|l l' Hl|i j Hij| |], Ha' as [[] Hv'|m m' Hm|i' j' Hij'| |]; try res_done.
  - eapply res_pair; [eassumption..|]. apply vrel_tuple. by apply Forall2_app.
  - destruct Hi as [l l' Hl|]; [|res_done]. destruct Hi' as [m m' Hm|]; [|res_done]. cbn [o_alloc].
    eapply (alloc_sim R h h' k OList (HList (l ++ m)) (HList (l' ++ m'))); [done|done| |by left]. constructor. by apply Forall2_app.
Qed.
Lemma olength_sim k : Proper (vsim k ==> op_sim k same) o_length.
Proof.
  intros a b Hab h h'. alike_start. unfold o_length. pose proof (heap_items R h h' a b ltac:(done) Hab) as Hi.
  destruct Hab as [[] Hv| | | |]; try res_done; destruct Hi as [x x' Hx|]; try res_done; rewrite (Forall2_length _ _ _ Hx); res_done.
Qed.
Lemma items_at R l l' n : Forall2 (vrel R) l l' → option_Forall2 (vrel R) (l !! n) (l' !! n).
Proof. intros Hl. by apply Forall2_lookup. Qed.
Lemma oat_sim k : Proper (vsim k ==> vsim k ==> op_sim k vsim) o_at.
Proof.
  intros a b Hab a' b' Ha' h h'. alike_start. unfold o_at. destruct (heap_items R h h' a b ltac:(done) Hab) as [l l' Hl|]; [|res_done].
  destruct Ha' as [[] Hv'| | | |]; try res_done. destruct (items_at R l l' (Z.to_nat z) Hl); [by eapply res_pair|res_done].
Qed.
(** Changes of an object. *)
Lemma res_update R h h' k i j o o' : heaps_rel R h h' → items_rel R h k → R i j → orel R o o' →
  res_sim (E:=terr) k same (Ok (), <[i := o]> h) (Ok (), <[j := o']> h').
Proof. intros Hr Hk Hij Ho. destruct (update_rel R h h' k i j o o') as [Hr' Hk']; [done..|]. exists k. split_and!; [done|by exists R|done]. Qed.
Lemma object_at R h h' i j : heaps_rel R h h' → R i j → ∃ o o', h !! i = Some o ∧ h' !! j = Some o' ∧ orel R o o'.
Proof. intros Hr. apply Hr. Qed.
Lemma oset_at_sim k : Proper (vsim k ==> vsim k ==> vsim k ==> op_sim k same) o_set_at.
Proof.
  intros a b Hab a' b' Ha' v w Hv h h'. alike_start. unfold o_set_at. destruct Hab as [[] ?| |i j Hij| |]; try res_done.
  destruct Ha' as [[] ?| | | |]; try res_done. destruct (object_at R h h' i j) as (o & o' & -> & -> & Ho); [done..|].
  destruct Ho as [l l' Hl| |]; try res_done. eapply res_update; [done..|]. constructor. by apply Forall2_insert.
Qed.
Lemma opush_sim k : Proper (vsim k ==> vsim k ==> op_sim k same) o_push.
Proof.
  intros a b Hab v w Hv h h'. alike_start. unfold o_push. destruct Hab as [[] ?| |i j Hij| |]; try res_done.
  destruct (object_at R h h' i j) as (o & o' & -> & -> & Ho); [done..|].
  destruct Ho as [l l' Hl| |]; try res_done. eapply res_update; [done..|]. constructor. apply Forall2_app; [done|by repeat constructor].
Qed.
Lemma oinsert_sim k d d' x y : vsim k d d' → entry_sim k x y → op_sim k same (o_insert d x.1 x.2) (o_insert d' y.1 y.2).
Proof.
  intros Hd (_ & Hkey & Hval) h h'. alike_start. unfold o_insert. destruct Hd as [[] ?| | |i j Hij|]; try res_done.
  destruct (object_at R h h' i j) as (o & o' & -> & -> & Ho); [done..|].
  destruct Ho as [|l l' Hl|]; try res_done. eapply res_update; [done..|]. constructor. apply Forall2_app; [done|by repeat constructor].
Qed.
Lemma oiterate_sim k : Proper (vsim k ==> op_sim k vsim) o_iterate.
Proof.
  intros a b Hab h h'. alike_start. unfold o_iterate. destruct (heap_items R h h' a b ltac:(done) Hab); [|res_done]. by eapply res_pair.
Qed.
Lemma onext_sim k i a b : vsim k a b → heap_sim k osim (o_next a i) (o_next b i).
Proof.
  intros Hab h h' (R & Hr & Hk). apply (vsim_rel R h k _ _ Hk) in Hab. unfold o_next. simpl.
  assert (option_Forall2 (vrel R) (l ← o_items a h; l !! i) (l ← o_items b h'; l !! i)) as Hl
    by (destruct (heap_items R h h' a b Hr Hab); simpl; [by apply Forall2_lookup|constructor]).
  destruct Hl as [v w Hv|]; [|exists k; split_and!; [done|by exists R|constructor]].
  exists (Pair v w :: k). split_and!; [done|by eapply alike_pair|by constructor].
Qed.
Lemma opercent_one_sim k (p q : list byte) : Proper (vsim k ==> op_sim k vsim) (λ v, o_percent_one p v q).
Proof.
  intros v w Hv h h'. alike_start. unfold o_percent_one. rewrite (rel_text R v w) by done. destruct Hv as [[] ?| | | |]; res_done.
Qed.
Lemma opercent_sim k : Proper (vsim k ==> vsim k ==> op_sim k vsim) o_percent.
Proof.
  intros a b Hab v w Hv h h' Hh. pose proof Hh as (R & Hr & Hk). apply (vsim_rel R h k _ _ Hk) in Hab. unfold o_percent.
  destruct Hab as [[] ?| | | |]; try res_done. destruct (parse_percent_s_one s) as [[]|]; [|res_done]. by apply opercent_one_sim.
Qed.
Lemma olen_sim k : Proper (vsim k ==> op_sim k vsim) o_len.
Proof.
  intros a b Hab h h' Hh. unfold o_len. pose proof (olength_sim k a b Hab h h' Hh) as Hlen. unfold res_sim in Hlen.
  destruct (o_length a h) as [[z|e|f] h1], (o_length b h') as [[z'|e'|f'] h2]; try done.
  destruct Hlen as (k' & Hk & (R & Hr & Hi) & <-). exists (Pair (OInt z) (OInt z) :: k').
  split_and!; [by apply submseteq_cons|eapply alike_pair; [done..|by constructor]|done].
Qed.
Lemma res_mono {A B} k k' (Q : list (item oval) → A → B → Prop) (x : result terr A * oheap) (y : result terr B * oheap) :
  k ⊆+ k' → res_sim k' Q x y → res_sim k Q x y.
Proof.
  intros Hk. destruct x as [[a|e|f] h], y as [[b|e'|f'] h']; simpl; try done.
  - intros (k2 & H2 & ? & ?). exists k2. split_and!; [by trans k'|done..].
  - intros [He (R & Hr & Hi)]. split; [done|]. exists R. split; [done|]. intros i Hin. apply Hi. by eapply elem_of_submseteq.
Qed.
(** The constant 1 is at hand. *)
Lemma with_one {A B} k (Q : list (item oval) → A → B → Prop) (o : Op oheap terr A) (o' : Op oheap terr B) :
  op_sim (Pair (OInt 1) (OInt 1) :: k) Q o o' → op_sim k Q o o'.
Proof.
  intros Ho h h' (R & Hr & Hk). eapply res_mono; [apply sub_pair|]. apply Ho. eapply alike_pair; [done..|]. by constructor.
Qed.
Lemma orun_sim k f f' l l' : vsim k f f' → lsim k l l' → op_sim k vsim (o_run f l) (o_run f' l').
Proof.
  intros Hf Hl h h' Hh. pose proof Hh as (R & Hr & Hk). apply (vsim_rel R h k _ _ Hk) in Hf. unfold o_run.
  destruct Hf as [[] ?| | | |]; try res_done; (destruct Hl as [|u w us ws Huw Hl]; [res_done|]);
    (destruct Hl as [|u' w' us ws Huw' Hl]; [|destruct Hl]); try res_done.
  - eapply res_pair; [done..|]. by eapply vsim_rel.
  - by apply oadd_sim.
  - revert h h' Hh Hr Hk. intros h h' Hh _ _. apply with_one; [|done]. apply oadd_sim; [by right|by left].
  - rewrite (rel_type R u w) by by eapply vsim_rel. res_done.
  - by apply olen_sim.
  - rewrite (rel_type R u w) by by eapply vsim_rel. res_done.
Qed.
Lemma obind_sim R h k f f' (a a' : Args oval) : items_rel R h k → vrel R f f' → args_sim k a a' → Pair (OInt 1) (OInt 1) ∈ k →
  option_Forall2 (lsim k) (o_bind f a) (o_bind f' a').
Proof.
  intros Hk Hf (Hpos & Hnamed & Hnames & Ha & Hkw) Hone. destruct a as [pos named names args kwargs], a' as [pos' named' names' args' kwargs'].
  simpl in *. subst names'. unfold o_bind.
  destruct Hnamed; [|constructor]. destruct names; [|constructor]. destruct Ha; [constructor|]. destruct Hkw; [constructor|].
  destruct Hf as [[] ?| | | |]; try constructor; destruct Hpos as [|u w us ws Huw Hpos]; try constructor;
    (destruct Hpos as [|u' w' us ws Huw' Hpos]; [|destruct Hpos]); try constructor; by repeat constructor.
Qed.
Lemma ocall_sim k v v' sp (a a' : Args oval) : vsim k v v' → args_sim k a a' → op_sim k vsim (o_call v sp a) (o_call v' sp a').
Proof.
  intros Hv Ha. apply with_one. intros h h' Hh. pose proof Hh as (R & Hr & Hk). unfold o_call.
  assert (vsim (Pair (OInt 1) (OInt 1) :: k) v v') as Hv' by by right.
  assert (args_sim (Pair (OInt 1) (OInt 1) :: k) a a') as Ha' by (eapply args_mono; [apply sub_pair|done]).
  destruct (obind_sim R h _ v v' a a' Hk (vsim_rel R h _ _ _ Hk Hv') Ha') as [l l' Hl|]; [by left|by apply orun_sim|].
  by apply fail_sim.
Qed.

(** * Nothing can tell runs apart *)

Ltac unsupported := first [apply fail_sim|intros ?; unsupported].
#[global] Instance oalike_ok : AlikeOk oval oheap terr () () () ().
Proof.
  split; try unsupported.
  - split; [by intros e|by intros e e'|intros e1 e2 e3; simpl; congruence].
  - intros k k' h h' Hk (R & Hr & Hi). exists R. split; [done|]. intros i Hin. apply Hi. by eapply elem_of_submseteq.
  - apply oalike_left.
  - apply oalike_trans.
  - intros k a b h h' (R & Hr & Hk) Hab. eapply rel_truth; [done|by eapply vsim_rel].
  - intros k a b h h' (R & Hr & Hk) Hab. by eapply rel_type, vsim_rel.
  - intros k a b h h' (R & Hr & Hk) Hab. apply (vsim_rel R h k _ _ Hk) in Hab. by destruct Hab as [[] ?| | | |].
  - intros k a b a' b' h h' (R & Hr & Hk) Hab Ha'. apply bool_decide_ext.
    eapply vrel_eq; [by eapply hr_renaming|by eapply vsim_rel..].
  - done.
  - done.
  - intros e e' sp sp' k h h' Hh He. exact He.
  - done.
  - apply oequals_sim.
  - apply ocompare_sim.
  - intros k a b Hab h h'. alike_start. simpl. destruct Hab as [[] ?| | | |]; res_done.
  - intros k. by apply int2_sim.
  - apply oadd_sim.
  - intros k. by apply int2_sim.
  - apply opercent_sim.
  - apply oat_sim.
  - apply olength_sim.
  - intros k z h h' (R & Hr & Hk). exists (Pair (OInt z) (OInt z) :: k). split_and!; [done|by eapply alike_pair; [..|constructor]|done].
  - apply oset_at_sim.
  - apply oadd_sim.
  - apply opercent_one_sim.
  - intros k p q v w Hv h h' (R & Hr & Hk). apply (vsim_rel R h k _ _ Hk) in Hv. simpl. rewrite (rel_text R v w) by done.
    set (u := OStr _). exists (Pair u u :: k). split_and!; [done|by eapply alike_pair; [..|constructor]|done].
  - apply oiterate_sim.
  - apply onext_sim.
  - done.
  - intros k l l' Hl h h' (R & Hr & Hk). exists (Pair (OTuple l) (OTuple l') :: k).
    split_and!; [done|eapply alike_pair; [done..|]|done]. apply vrel_tuple. by eapply lsim_rel.
  - intros k l l' Hl h h' (R & Hr & Hk). apply (alloc_sim R h h' k OList (HList l) (HList l')); [done..| |by left].
    constructor. by eapply lsim_rel.
  - intros k l l' Hl h h' (R & Hr & Hk). apply (alloc_sim R h h' k ODict); [done..| |by right; left].
    constructor. apply Forall2_fmap. eapply Forall2_impl; [exact Hl|]. intros [x v] [y w] (_ & Hkey & Hval). simpl in *.
    split; by eapply vsim_rel.
  - apply opush_sim.
  - apply oinsert_sim.
  - apply ocall_sim.
  - intros k t a b Hab h h' (R & Hr & Hk). by eapply res_same.
  - intros k a b Hab h h' (R & Hr & Hk). apply (vsim_rel R h k _ _ Hk) in Hab. simpl. destruct Hab as [[] ?| | | |]; res_done.
  - intros k d l l' vs vs' Hvs Hl h h' (R & Hr & Hk). exists (Pair OFun OFun :: k).
    split_and!; [done|apply (alike_pair R); [done|done|by apply vrel_atom]|done|]. simpl. eapply Forall2_impl; [exact Hl|].
    intros x y []; constructor. by eapply elem_of_submseteq.
  - intros k x h h' (R & Hr & Hk). simpl. destruct x; [by eapply res_pair; [..|constructor]|by apply (res_fail R h h' k vsim)].
  - intros k n a b Hab h h' (R & Hr & Hk). by eapply res_same.
  - intros k a b h h' (R & Hr & Hk) Hab. apply (vsim_rel R h k _ _ Hk) in Hab. simpl. unfold o_cell_get.
    destruct Hab as [[] ?| | | |i j Hij]; try done. destruct (object_at R h h' i j) as (o & o' & -> & -> & Ho); [done..|].
    destruct Ho as [| |v w Hv]; try done. exists (Pair v w :: k). split_and!; [done|by eapply alike_pair|done].
  - intros k a b Hab v w Hv h h'. alike_start. simpl. unfold o_cell_set. destruct Hab as [[] ?| | | |i j Hij]; try res_done.
    destruct (object_at R h h' i j) as (o & o' & -> & -> & Ho); [done..|].
    destruct Ho as [| |v' w' Hv']; try res_done. eapply res_update; [done..|]. by constructor.
  - intros k v w Hv h h' (R & Hr & Hk). apply (alloc_sim R h h' k OCell); [done..| |by right; right].
    constructor. by eapply vsim_rel.
Qed.

(** * Folded operations *)

(** An operation that gives the same constant on every heap, and leaves the heap alone. *)
Definition steady (o : Op oheap terr oval) : Prop :=
  ∀ h v h1, o h = (Ok v, h1) → o_frozen v = true ∧ ∀ h2, o h2 = (Ok v, h2).
Lemma steady_pure o : steady o → pure octx o.
Proof.
  intros Ho v hc k h h' Hrun (R & Hr & Hk). unfold run_ok in Hrun. destruct (o (ctx_heap octx)) as [[u|e|f] h1] eqn:Hv; try done.
  injection Hrun as -> ->. destruct (Ho _ _ _ Hv) as [Hf Hall]. exists v, h. split; [apply Hall|].
  exists R. split; [done|]. by apply items_cons.
Qed.
Lemma steady_text o : steady o → pure_text octx o.
Proof.
  intros Ho v hc s k h h' Hrun Hs (R & Hr & Hk). unfold run_ok in Hrun. destruct (o (ctx_heap octx)) as [[u|e|f] h1] eqn:Hv; try done.
  injection Hrun as -> ->. destruct (Ho _ _ _ Hv) as [Hf Hall]. exists v, h. split; [apply Hall|].
  destruct v; try done. injection Hs as <-. eapply alike_pair; [done..|]. by apply vrel_atom.
Qed.
Lemma steady_ok v : o_frozen v = true → steady (λ h, (Ok v, h)).
Proof. by intros Hv h u h1 [= <- <-]. Qed.
Lemma steady_fail r : steady (o_fail r).
Proof. intros h v h1 [=]. Qed.
Hint Resolve steady_fail : core.
Lemma frozen_all l : forallb o_frozen l = true → Forall (λ v, o_frozen v = true) l.
Proof. intros Hl. rewrite forallb_forall in Hl. apply Forall_forall. intros v Hv. by apply Hl, list_elem_of_In. Qed.
Lemma frozen_forallb l : Forall (λ v, o_frozen v = true) l → forallb o_frozen l = true.
Proof. intros Hl. rewrite Forall_forall in Hl. apply forallb_forall. intros v Hv. by apply Hl, list_elem_of_In. Qed.
Lemma frozen_items v h h' l : o_frozen v = true → o_items v h = Some l → o_items v h' = Some l ∧ Forall (λ v, o_frozen v = true) l.
Proof. destruct v; try done. simpl. intros Hf [= <-]. split; [done|]. by apply frozen_all. Qed.
Lemma builtin_frozen v : o_builtin v = true → o_frozen v = true.
Proof. by destruct v. Qed.
Lemma int2_steady f a b : (∀ x y, o_frozen (f x y) = true) → steady (o_int2 f a b).
Proof. intros Hf. unfold o_int2. destruct a, b; try done. by apply steady_ok. Qed.
Lemma add_steady a b : o_frozen a = true → o_frozen b = true → steady (o_add a b).
Proof.
  intros Ha Hb. unfold o_add. destruct a, b; try done; apply steady_ok; try done. simpl in *. rewrite forallb_app. by rewrite Ha, Hb.
Qed.
Lemma percent_one_steady p v q : steady (o_percent_one p v q).
Proof. destruct v; try done; by apply steady_ok. Qed.
Lemma percent_steady a v : steady (o_percent a v).
Proof. unfold o_percent. destruct a; try done. destruct (parse_percent_s_one s) as [[p q]|]; [apply percent_one_steady|done]. Qed.
Lemma at_steady a i : o_frozen a = true → steady (o_at a i).
Proof.
  intros Ha h v h1. unfold o_at. destruct (o_items a h) as [l|] eqn:Hl; [|done]. destruct i; try done.
  destruct (l !! Z.to_nat z) as [w|] eqn:Hw; [|done]. intros [= <- <-]. split.
  - destruct (frozen_items a h h l Ha Hl) as [_ Hf]. rewrite Forall_forall in Hf. by eapply Hf, list_elem_of_lookup_2.
  - intros h2. destruct (frozen_items a h h2 l Ha Hl) as [-> _]. by rewrite Hw.
Qed.
Lemma length_frozen v n h h1 h2 : o_frozen v = true → o_length v h = (Ok n, h1) → o_length v h2 = (Ok n, h2).
Proof. unfold o_length. destruct v; try done; intros _ [= <- _]; done. Qed.
Lemma len_steady v : o_frozen v = true → steady (o_len v).
Proof.
  intros Hv h w h1. unfold o_len. destruct (o_length v h) as [[n|e|f] h0] eqn:Hn; try done. intros [= <- <-]. split; [done|].
  intros h2. by rewrite (length_frozen v n h h0 h2).
Qed.
Lemma op_bool_steady (o : Op oheap terr bool) : (∀ h (r : bool) h1, o h = (Ok r, h1) → ∀ h2, o h2 = (Ok r, h2)) → steady (op_bool o).
Proof.
  intros Ho h v h1. unfold op_bool. destruct (o h) as [[b|e|f] h0] eqn:Hb; try done. intros [= <- <-]. split; [done|].
  intros h2. by rewrite (Ho _ _ _ Hb).
Qed.
Lemma fold2_steady op a b : o_frozen a = true → o_frozen b = true → steady (Builtin2_eval op a b).
Proof.
  intros Ha Hb. destruct op; simpl; try apply steady_fail; try (by apply int2_steady);
    try (by apply add_steady); try (by apply at_steady); try apply percent_steady.
  - apply op_bool_steady. by intros h r h1 [= <- _].
  - unfold o_compare. destruct a, b; try done. by apply steady_ok.
Qed.
Lemma truth_frozen v h h' : o_frozen v = true → o_to_bool v h = o_to_bool v h'.
Proof. by destruct v. Qed.
Lemma fold1_steady op v : o_frozen v = true → (∀ f, op ≠ Dot f) → steady (builtin1 op v).
Proof.
  intros Hv Hop. destruct op; simpl; try apply steady_fail; try by edestruct Hop.
  - by apply int2_steady.
  - intros h u h1 [= <- <-]. split; [done|]. intros h2. by rewrite (truth_frozen v h2 h).
  - by apply steady_ok.
  - apply percent_one_steady.
  - by apply steady_ok.
Qed.
Lemma call_steady f sp (a : Args oval) : (f = OLenFn ∨ f = OTypeFn) → Forall (λ v, o_frozen v = true) (arg_pos a) → steady (o_call f sp a).
Proof.
  intros Hf Ha. destruct a as [pos named names args kwargs]. simpl in Ha. unfold o_call, o_bind.
  destruct named, names, args, kwargs, Ha as [|v pos Hv [|w pos' Hw Hpos]]; destruct Hf as [->| ->]; try apply steady_fail.
  - by apply len_steady.
  - by apply steady_ok.
Qed.
(** What is known of a value that was just made. *)
Lemma fresh_root R h k u v ts : items_rel R h (Fresh u (Tree v ts) :: k) → v = u ∧ o_frozen u = true ∧ items_rel R h k ∧ Tree v ts = o_contents u.
Proof.
  intros Hk. destruct (Hk (Fresh u (Tree v ts))) as [Ht Hf]; [by left|]. destruct u; injection Ht as -> ->; split_and!; try done;
    intros i Hi; apply Hk; by right.
Qed.
Lemma fresh_pair u v ts k h h' : alike (Fresh u (Tree v ts) :: k) h h' → u = v ∧ alike (Pair u v :: k) h h'.
Proof.
  intros (R & Hr & Hk). destruct (fresh_root R h k u v ts Hk) as (-> & Hf & Hk' & _). split; [done|].
  eapply alike_pair; [done..|]. by apply vrel_frozen.
Qed.
Lemma shell_pair u us vs k h h' : lsim k us vs → alike (Shell true u us :: k) h h' → alike (Pair u (OTuple vs) :: k) h h'.
Proof.
  intros Hl (R & Hr & Hk). destruct (Hk (Shell true u us)) as [_ ->]; [by left|].
  assert (items_rel R h k) as Hk' by (intros i Hi; apply Hk; by right). eapply alike_pair; [done..|]. apply vrel_tuple. by eapply lsim_rel.
Qed.
Lemma empty_items v h : o_items v h = Some [] → empty_iterable v h.
Proof. intros Hv. exists v, h, h. simpl. unfold o_iterate, o_next. by rewrite Hv. Qed.

#[global] Instance ofold_ok : FoldOk oval oheap terr () () () () octx.
Proof.
  split; try done.
  - intros v k h h' Hv (R & Hr & Hk). eapply alike_pair; [done..|]. by apply vrel_frozen.
  - apply frozen_forallb.
  - by intros z v [= <-].
  - apply truth_frozen.
  - intros v c Hv. destruct v; try done. by injection Hv as ->.
  - by intros m [|x] v [= <-] [= <-].
  - intros m x v k h h' [= <-] Hx _. simpl. by rewrite Hx.
  - intros vs k h h' (R & Hr & Hk). exists R. by apply drop_rel.
  - intros k h h' (R & Hr & Hk). exists R. by apply drop_rel.
  - intros vs h. simpl. by rewrite list_lookup_middle.
  - intros h. simpl. by rewrite list_lookup_middle.
  - intros vs k Hvs h h' (R & Hr & Hk). exists (OTuple vs), h. split; [done|]. eapply alike_pair; [done..|].
    by apply vrel_frozen, frozen_forallb.
  - intros vs k h h' (R & Hr & Hk). simpl. destruct (drop_rel R h h' k (HList vs) Hr Hk) as [Hr' Hk']. exists R. split; [done|].
    apply items_cons; [|done]. exists (length h). split_and!; [done|by rewrite list_lookup_middle|].
    intros j Hj. destruct (object_at R h h' _ _ Hr Hj) as (o & o' & Ho%lookup_lt_Some & _). lia.
  - intros a b vs ws xs k h h' Ha Hb Hl (R & Hr & Hk). destruct (Hk _ Ha) as (i & -> & Hi & _). destruct (Hk _ Hb) as (j & -> & Hj & _).
    simpl. rewrite Hi, Hj. eexists _, _. split; [done|].
    destruct (alloc_rel R h h' k (HList (vs ++ ws)) (HList xs) Hr Hk) as [Hr' Hk']; [constructor; by eapply lsim_rel|].
    eapply alike_pair; [exact Hr'|exact Hk'|]. constructor. by right.
  - intros h. apply empty_items. simpl. by rewrite list_lookup_middle.
  - intros h. by apply empty_items.
  - intros h. apply empty_items. simpl. by rewrite list_lookup_middle.
  - intros v hc h Hv Hlen Hs. apply empty_items. apply builtin_frozen in Hv. simpl in Hlen. unfold o_length in Hlen.
    destruct v; try done; simpl in *.
    + injection Hlen as Hlen _. by destruct s.
    + injection Hlen as Hlen _. by destruct l.
  - intros v h. destruct v; by eexists.
  - intros u v ts k h h' _ Hf. by apply (fresh_pair u v ts).
  - intros u v ts s k h h' Hs Hf. apply fresh_pair in Hf as [<- Hp]. destruct u; try done. by injection Hs as <-.
  - intros u v ts k h h' Hv (R & Hr & Hk). destruct (fresh_root R h k u v ts Hk) as (-> & Hf & Hk' & Ht). destruct u; try done.
    injection Ht as ->. exists l. split; [by rewrite length_map|]. exists R. split; [done|]. intros i Hi.
    apply elem_of_app in Hi as [Hi|[->|Hi]%elem_of_cons]; [|done|by apply Hk'].
    simpl in Hf. apply frozen_all in Hf. apply list_elem_of_lookup in Hi as (n & Hi). apply lookup_zip_with_Some in Hi as (x & t & -> & Hx & Hn).
    rewrite list_lookup_fmap, Hx in Hn. injection Hn as <-. split; [done|]. rewrite Forall_forall in Hf. by eapply Hf, list_elem_of_lookup_2.
  - intros u us vs k h h' _ (R & _ & Hk). by destruct (Hk (Shell false u us)); [left|].
  - intros u us vs k h h' Hl Hs. by apply (shell_pair u us).
  - intros u us vs k h h' Hl _ Hs. by apply (shell_pair u us).
  - intros op v Hv%builtin_frozen Hop. by apply steady_pure, fold1_steady.
  - intros op a b Ha%builtin_frozen Hb%builtin_frozen. by apply steady_pure, fold2_steady.
  - intros a i Ha%builtin_frozen _. by apply steady_pure, at_steady.
  - intros f sp a Hf [Ha _]. apply steady_pure, call_steady; [destruct f; try done; auto|]. by apply Forall_app in Ha as [Ha _].
  - intros p v q Hv. by apply steady_text, percent_one_steady.
  - intros p v q Hv. by apply steady_text, (fold1_steady (FormatOne p q)).
  - intros a b r hc k h h' Ha Hb [= <- _] Hh. by exists h.
  - intros v n w hc k Hv Hn [= <-] h h' (R & Hr & Hk). simpl in *. unfold len_op. simpl.
    rewrite (length_frozen v n [] hc h) by done. exists (OInt n), h. split; [done|]. by eapply alike_pair; [..|by apply vrel_atom].
  - intros f sp a h Hf%bool_decide_eq_true. subst f. change (o_len a h = len_op a h). unfold o_len, len_op. simpl. by destruct (o_length a h) as [[]].
  - intros f sp a h Hf%bool_decide_eq_true. by subst f.
  - intros f d t sp a h Hd Ht _. destruct f; try discriminate Hd; injection Hd as <-; vm_compute in Ht; try discriminate Ht. by injection Ht as <-.
  - intros v s p q x y k Hv Hs Hxy. simpl. unfold o_percent. destruct v; try done. injection Hv as ->. rewrite Hs. by apply opercent_one_sim.
Qed.

(** Functions run their bodies. *)
Lemma run_return e n (s : St oval oheap) :
  exec_body n false [mkSpanned Span_default (Return (mkSpanned Span_default e))] s =
  match eval n Span_default e s with Some (Done v s) => Some (Returned v (st_heap s)) | Some (Exits o) => Some o | None => None end.
Proof.
  unfold exec_body. simpl. unfold stop_iterators. simpl. destruct s as [l h]. simpl. by destruct (eval n Span_default e (mkSt l h)) as [[]|].
Qed.
(** The sum in the body of [OAddFn]. *)
Lemma add_ends a b l h (o : Outcome oval oheap terr) :
  match at_span Span_default (o_add a b) (mkSt l h) with
  | Some (Done v s) => Some (Returned v (st_heap s)) | Some (Exits o) => Some o | None => None
  end = Some o → ends_like (o_add a b h) o.
Proof.
  unfold at_span. simpl. destruct (o_add a b h) as [[v|e|f] h1]; simpl; intros [= <-]; done.
Qed.
#[global] Instance ocall_ok : CallOk oval oheap terr () () () () octx.
Proof.
  split; try done.
  - intros x v. unfold local_as_value. destruct (x <? 100); [|done]. by intros [= <-].
  - by intros [].
  - intros f d Hd. destruct f; try discriminate Hd; injection Hd as <-; vm_compute; reflexivity.
  - intros f d g [pos named names args kwargs] slots Hd _ Hg. cbn. unfold o_bind. destruct named, names, args, kwargs; try done.
    destruct f; try done; destruct pos as [|u [|w [|? ?]]]; try done; simpl; intros [= <-]; simpl; by rewrite ?(Hg (OInt 1) eq_refl).
  - intros f d a vs sp h Hd _ _ Hvs. exists (map Some vs), h. split; [|split; [done|]].
    { intros x v Hx _. by rewrite list_lookup_fmap, Hx. }
    intros n o. simpl in Hvs. simpl. unfold o_call. destruct (o_bind f a) as [slots|] eqn:Hb; [|done].
    injection Hvs as Hvs. assert (slots = vs) as -> by by apply (inj (map Some)) in Hvs.
    destruct f; try discriminate Hd; injection Hd as <-; simpl fd_body; rewrite run_return; unfold o_bind in Hb;
      destruct a as [pos [] [] [] []]; try done; destruct pos as [|u [|w [|? ?]]]; try done; injection Hb as <-.
    + by intros [= <-].
    + apply add_ends.
    + apply add_ends.
    + apply add_ends.
    + by intros [= <-].
Qed.
#[global] Instance opositional : PositionalTypeTests oval oheap terr () () () ().
Proof. intros f d t Hd Ht. destruct f; try discriminate Hd; injection Hd as <-; vm_compute in Ht; try discriminate Ht. reflexivity. Qed.
#[global] Instance osteady : SteadyCallees oval oheap terr () () () ().
Proof. intros f d Hd. destruct f; try discriminate Hd; injection Hd as <-; vm_compute; reflexivity. Qed.
