(* ===== verification/OptProps.v ===== *)
(** What the optimiser guarantees, and where it does not: the theorems, functions that are optimised in the world of lists on
    a heap, and the cases that change what a program does. *)

From S2P Require Import Prelude Hashing TableMap FastString StrFormat Symbol CodeMap.
From S2P Require Import DefParams OrdMap ParamSpec Def DefSpec Ir IrWf Inline World IrEval Optimize Alike IrSim.
From S2P Require Import IrCompat OptCon OptCall OptExpr InlineOk OptBody BcInstr BcWriter BcCompile BcBody BcExample OptWorlds.

Section props.
Context `{W : World V H E TC D KM MB} {WO : WorldOk V H E TC D KM MB} {AL : Alike V H E} {AO : AlikeOk V H E TC D KM MB}.
Context {OW : OptWorld V H E TC D MB} {ctx : OptCtx (V:=V) (H:=H)} {FO : FoldOk V H E TC D KM MB ctx}.
Context {CO : CallOk V H E TC D KM MB ctx}.
Implicit Types (c : list (Spanned (StmtCompiled V TC D))).

(** C3: On the bodies of functions outside of the corners listed here, the optimiser changes nothing that a program can see.  The
    optimised body, run on a frame and a heap that look like those of the body, returns a value that looks the same, raises
    the same error, panics when the body does, and needs more rounds of its loops exactly when the body does; and so does
    whatever looks at the heap later.  Constants are folded through every operator, call and attribute, pure code is
    dropped, conditions are turned and split, known functions and methods are called in other ways, calls of functions that
    only compute an expression are replaced by it, loops over nothing and code after a jump are left out.

    What is excluded.  In the body ([ok_body]): a slice of a constant with three bounds of which one is not known, which is
    folded as if that were not given ([slice_drops_bound]); a loop over the constant empty string, which is dropped instead of
    failing ([empty_string_loop]); a callee that is not an attribute and becomes one when it is optimised, which
    moves the look-up of the attribute after the arguments ([attribute_callee_reorders]).  In the functions that it calls: a
    parameter after a star, taken for a positional one in a test of its type ([PositionalTypeTests], [keyword_only_type_is]), and
    again a callee that becomes an attribute when it is inlined ([SteadyCallees]).  And the collection of garbage between
    the statements of a module, which is not part of the body of a function.  An inlined call has no frame: the limit on
    the depth of calls is taken not to be reached ([CallOk]), and an error may be reported at another place.  Calls in inlined calls are inlined
    to some depth, where the code has no bound.  [ok_body] also asks for what the
    compiler guarantees: constants are frozen, and slots that a frozen module has filled are not assigned. *)
Theorem optimize_preserves depth n hrt c k s s' :
  PositionalTypeTests V H E TC D KM MB → SteadyCallees V H E TC D KM MB →
  0 < n → ok_body (ctx:=ctx) (try_inline ctx depth) c = true → st_sim k s s' →
  body_sim k (exec_body n hrt c s) (exec_body n hrt (optimize (try_inline ctx depth) ctx c) s').
Proof. intros Hp Hst Hn Hok Hs. apply optimize_body; [done..|apply try_inline_ok|done|done]. Qed.

(** C5: Inlining changes nothing that a program can see, as long as no callee becomes an attribute.  The call of a frozen
    function that is inlined (its body is the [return] of an expression that is safe), and the expression that is put in its
    place, with the arguments for the parameters and with the calls in it inlined in turn, come to the same value, error or
    panic and leave heaps that look the same, in every frame whose parameters are assigned.

    What is excluded: the functions of the world call only constants, parameters, attributes and elements in the expressions
    that are inlined ([SteadyCallees]), not the result of a condition or of another call.  Otherwise the claim is
    false: [def f(x): return (x.a if x else x.b)(fail())] looks up the attribute and then evaluates the argument, and in the
    other order when it is inlined with a constant ([attribute_callee_reorders]).  And a function whose only
    parameter comes after a star is not taken for a test of a type ([PositionalTypeTests]), in the calls inlined in turn.
    The limit on the depth of calls is taken not to be reached ([CallOk]), an error may be reported at another place, and
    calls in inlined calls are inlined to some depth, where the code has no bound.  The callee and the arguments have frozen constants only and assign no variable that the frozen module has filled
    ([plain]), as what the compiler makes. *)
Theorem inline_preserves depth n sp csp fn args x k s s' :
  PositionalTypeTests V H E TC D KM MB → SteadyCallees V H E TC D KM MB →
  try_inline ctx depth csp fn args = Some x → plain (ctx:=ctx) (node fn) = true → plain_args (ctx:=ctx) args = true → st_sim k s s' →
  out_sim k vsim (eval n sp (Call (mkSpanned csp (mkCall fn args))) s) (eval n (span x) (node x) s').
Proof.
  intros Hp Hst Hx Hf Ha Hs. destruct (try_inline_ok n depth sp (span x) csp fn args x Hx Hf Ha) as [_ Hsim]. by apply (Hsim k).
Qed.

(** C4: The optimiser and the compiler to bytecode together, outside of the corners of the optimiser.  When the body and the
    optimised body are well formed (slots in the frame, jumps in loops) and both compile (neither is too big, by
    [compile_total]), the bytecode of the optimised body comes to an end exactly when the bytecode of the body does, with a
    value, an error or a panic and a heap that look the same.

    What is excluded is what [optimize_preserves] excludes: in the body ([ok_body]) a slice folded without a bound, a loop over
    the constant empty string, a callee that becomes an attribute and the collection of garbage; in the functions it calls a
    parameter after a star in a test of its type ([PositionalTypeTests]), a callee that becomes
    an attribute ([SteadyCallees]), and calls so deep that they reach the limit ([CallOk]). *)
Theorem optimized_bytecode `{!InstrLayout V TC D KM} depth hrt lc pc c bc bc' k ls ls' h h' :
  let optimized := optimize (try_inline ctx depth) ctx in
  PositionalTypeTests V H E TC D KM MB → SteadyCallees V H E TC D KM MB →
  ok_body (ctx:=ctx) (try_inline ctx depth) c = true → wf_body lc c = true → wf_body lc (optimized c) = true → pc ≤ lc →
  as_bc hrt c lc pc = Ok bc → as_bc hrt (optimized c) lc pc = Ok bc' →
  frame_ready lc pc ls → frame_ready lc pc ls' → st_sim k (mkSt ls h) (mkSt ls' h') →
  (∀ o, bc_ends bc ls h o → ∃ o', bc_ends bc' ls' h' o' ∧ exit_sim k o o') ∧
  (∀ o', bc_ends bc' ls' h' o' → ∃ o, bc_ends bc ls h o ∧ exit_sim k o o').
Proof.
  intros optimized Hp Hst Hok Hwf Hwf' Hpc Hbc Hbc' Hls Hls' Hs. subst optimized. split; intros o Ho.
  - apply (ends_rounds hrt lc pc c Hwf Hpc bc ls h Hbc Hls) in Ho as (n & Hn & Ho).
    pose proof (optimize_body (ctx:=ctx) (try_inline ctx depth) n hrt Hn (try_inline_ok n depth) k c _ _ Hok Hs) as Hbody. rewrite Ho in Hbody.
    destruct (exec_body n hrt (optimize (try_inline ctx depth) ctx c) _) as [o'|] eqn:Ho'; [|done]. exists o'. split; [|done].
    apply (ends_iff hrt lc pc _ Hwf' Hpc bc' ls' h' Hbc' Hls'). by exists n.
  - apply (ends_rounds hrt lc pc _ Hwf' Hpc bc' ls' h' Hbc' Hls') in Ho as (n & Hn & Ho).
    pose proof (optimize_body (ctx:=ctx) (try_inline ctx depth) n hrt Hn (try_inline_ok n depth) k c _ _ Hok Hs) as Hbody. rewrite Ho in Hbody.
    destruct (exec_body n hrt c _) as [o'|] eqn:Ho'; [|done]. exists o'. split; [|done].
    apply (ends_iff hrt lc pc c Hwf Hpc bc ls h Hbc Hls). by exists n.
Qed.

(** C22: A function that is found safe to inline can be inlined.  When its body was found safe, putting the arguments for the
    parameters finds a slot for every variable (it does not panic) and never meets an expression that it cannot
    inline, whatever else is folded and inlined on the way. *)
Theorem safe_body_inlines nested d e slots sp :
  def_inline_body new_none d = Some (ReturnSafeToInlineExpr e) → length (compiled_params (fd_params d)) ≤ length slots →
  ∃ y, inline nested ctx slots sp (node e) = Ok y.
Proof.
  intros [_ [c Hsafe]]%safe_body Hlen. by apply (all_safe_inlines nested ctx slots _ Hlen (node e) 0 c).
Qed.
End props.

(** * Where the optimiser changes a program *)

(** A slice of a constant with three bounds, of which the first is not known, is folded as if the first were not given. *)
Theorem slice_drops_bound `{W : World V H E TC D KM MB} {OW : OptWorld V H E TC D MB} (ctx : OptCtx (V:=V) (H:=H)) sp (a stop step : V) x e :
  is_builtin a = true → as_value (node x) = None → fold_value ctx sp (v_slice a None (Some stop) (Some step)) = Some e →
  slice (TC:=TC) (D:=D) ctx sp (new_value sp a) (Some x) (Some (new_value sp stop)) (Some (new_value sp step)) = e.
Proof. intros Ha Hx He. unfold slice. simpl. rewrite Ha. simpl. by rewrite Hx, He. Qed.

(** * Functions that are optimised *)

Abbreviation oexpr := (ExprCompiled oval () ()).
Abbreviation ostmt := (StmtCompiled oval () ()).
Definition olocal (n x : nat) : Spanned oexpr := at_pos n (Local x).
Definition oconst (n : nat) (v : oval) : Spanned oexpr := at_pos n (Value v).
Definition oint (n : nat) (z : Z) : Spanned oexpr := oconst n (OInt z).
Abbreviation oinline := (try_inline octx 3).
Definition ocall (n : nat) (f : oval) (x : Spanned oexpr) : Spanned oexpr :=
  at_pos n (Call (at_pos n (mkCall (oconst n f) (mkArgs [x] [] None None)))).
(** "%s!", as characters. *)
Definition percent_text : list byte := [0x25; 0x73; 0x21]%Z.

(** With the parameter [xs] in the variable 0:
    [1 + 2; xs[0] = 2 * inc(2) + SEVEN; (for x in []: xs = None); if not len("ab") == 2: return None; y = [1] + [len(f(xs))];
     type(xs) == "list" and xs[9]; return [y, "%s!" % xs, [x + 1 for x in xs if True], ()]; xs = None]. *)
Definition fold_body : list (Spanned ostmt) :=
  [at_pos 1 (StmtExpr (at_pos 1 (ExprBuiltin2 Add (oint 1 1) (oint 2 2))));
   at_pos 3 (Assign (at_pos 3 (AssignIndex (olocal 3 0) (oint 4 0))) None
     (at_pos 5 (ExprBuiltin2 Add (at_pos 5 (ExprBuiltin2 Multiply (oint 5 2) (ocall 6 OIncFn (oint 6 2)))) (at_pos 7 (ModuleSlot 0)))));
   at_pos 8 (For (at_pos 8 (AssignLocal 1)) (at_pos 9 (List_ [])) [at_pos 10 (Assign (at_pos 10 (AssignLocal 0)) None (oconst 10 ONone))]);
   at_pos 11 (StmtIf (at_pos 11 (ExprBuiltin1 Not (at_pos 12 (ExprBuiltin2 Equals (ocall 12 OLenFn (oconst 13 (OStr [0x61; 0x62]%Z))) (oint 14 2)))))
     [at_pos 15 (Return (oconst 15 ONone))] []);
   at_pos 16 (Assign (at_pos 16 (AssignLocal 2)) None
     (at_pos 17 (ExprBuiltin2 Add (at_pos 17 (List_ [oint 17 1])) (at_pos 18 (List_ [ocall 18 OLenFn (ocall 19 OFun (olocal 19 0))])))));
   at_pos 20 (StmtExpr (at_pos 20 (LogicalBinOp And
     (at_pos 20 (ExprBuiltin2 Equals (ocall 20 OTypeFn (olocal 21 0)) (oconst 22 (OStr [7%Z]))))
     (at_pos 23 (ExprBuiltin2 ArrayIndex (olocal 23 0) (oint 24 9))))));
   at_pos 25 (Return (at_pos 25 (List_ [olocal 26 2; at_pos 27 (ExprBuiltin2 Percent (oconst 27 (OStr percent_text)) (olocal 28 0));
     at_pos 29 (Compr (ComprList (at_pos 29 (ExprBuiltin2 Add (olocal 29 1) (oint 30 1)))
       [Clause (at_pos 31 (AssignLocal 1)) (olocal 32 0) [oconst 33 (OBool true)]]));
     at_pos 34 (Tuple [])])));
   at_pos 35 (Assign (at_pos 35 (AssignLocal 0)) None (oconst 35 ONone))].
Definition fold_optimized : list (Spanned ostmt) := Eval vm_compute in optimize oinline octx fold_body.
Definition fold_heap : oheap := [HList [OInt 2; OInt 5]].
Definition fold_locals : list (option oval) := [Some (OList 0); None; None].
(** The same frame on a heap with another object before. *)
Definition moved_heap : oheap := [HCell ONone; HList [OInt 2; OInt 5]].
Definition moved_locals : list (option oval) := [Some (OList 1); None; None].
Definition moved : list (item oval) := [Pair (OList 0) (OList 1)].
Definition fold_state : St oval oheap := mkSt fold_locals fold_heap.
Definition moved_state : St oval oheap := mkSt moved_locals moved_heap.
Definition fold_result : Outcome oval oheap terr :=
  Returned (OList 6) [HList [OInt 13; OInt 5]; HList []; HList [OInt 1]; HList [OInt 2]; HList [OInt 1; OInt 2];
    HList [OInt 14; OInt 6]; HList [OList 4; OStr [5; 33]%Z; OList 5; OTuple []]].
(** Two statements, a list and a sum of lists are gone. *)
Definition optimized_result : Outcome oval oheap terr :=
  Returned (OList 4) [HCell ONone; HList [OInt 13; OInt 5]; HList [OInt 1; OInt 2]; HList [OInt 14; OInt 6];
    HList [OList 2; OStr [5; 33]%Z; OList 3; OTuple []]].
Example fold_runs : exec_body 5 false fold_body fold_state = Some fold_result.
Proof. vm_compute. reflexivity. Qed.
Example fold_length : length fold_optimized = 4.
Proof. vm_compute. reflexivity. Qed.
Example optimized_runs : exec_body 5 false fold_optimized moved_state = Some optimized_result.
Proof. vm_compute. reflexivity. Qed.

Lemma moved_alike : st_sim moved fold_state moved_state.
Proof.
  split; [|split; [by repeat constructor|]; intros [|x] Hx; [by exists (OList 0)|inversion Hx; lia]]. exists (λ i j, i = 0 ∧ j = 1). split; [split|].
  - intros i j i' j' [-> ->] [-> ->]. done.
  - intros i j [-> ->]. exists (HList [OInt 2; OInt 5]), (HList [OInt 2; OInt 5]). split_and!; [done..|]. repeat constructor.
  - intros i Hi. apply list_elem_of_singleton in Hi as ->. by constructor.
Qed.
(** Folded constants, a loop and a condition that are dropped, sums of lists, formatted strings, and a change on the heap. *)
Lemma optimize_preserves_witness :
  optimize oinline octx fold_body = fold_optimized ∧ exit_sim moved fold_result optimized_result.
Proof.
  assert (optimize oinline octx fold_body = fold_optimized) as Hopt by (vm_compute; reflexivity). split; [exact Hopt|].
  pose proof (optimize_preserves (CO:=ocall_ok) 3 5 false fold_body moved fold_state moved_state _ _ ltac:(lia)
    ltac:(vm_compute; reflexivity) moved_alike) as Hsim.
  rewrite Hopt, fold_runs, optimized_runs in Hsim. exact Hsim.
Defined.

(** [add(xs, xs)] is inlined to [xs + xs]; [inc(2)] is [add(2)], which is [2 + 1], and folded. *)
Definition add_args : ArgsCompiledValue (Spanned oexpr) := mkArgs [olocal 2 0; olocal 3 0] [] None None.
Definition add_inlined : Spanned oexpr := mkSpanned (mkSpan 1 2) (ExprBuiltin2 Add (o_local 0) (o_local 0)).
Example inc_inlined : node <$> oinline (mkSpan 1 2) (oconst 1 OIncFn) (mkArgs [oint 2 2] [] None None) = Some (Value (OInt 3)).
Proof. vm_compute. reflexivity. Qed.
Lemma inline_preserves_witness :
  oinline (mkSpan 1 2) (oconst 1 OAddFn) add_args = Some add_inlined ∧
  out_sim moved vsim (Some (Done (OList 1) (mkSt fold_locals (fold_heap ++ [HList [OInt 2; OInt 5; OInt 2; OInt 5]]))))
    (eval 5 (span add_inlined) (node add_inlined) moved_state).
Proof.
  assert (oinline (mkSpan 1 2) (oconst 1 OAddFn) add_args = Some add_inlined) as Hx by (vm_compute; reflexivity). split; [exact Hx|].
  exact (inline_preserves (CO:=ocall_ok) 3 5 (mkSpan 1 2) (mkSpan 1 2) (oconst 1 OAddFn) add_args add_inlined moved fold_state moved_state _ _
    Hx eq_refl eq_refl moved_alike).
Defined.
Lemma safe_body_inlines_witness :
  ∃ y, inline oinline octx [OLocal 0; OInt 1] Span_default (ExprBuiltin2 Add (o_local 0) (o_local 1)) = Ok y.
Proof.
  apply (safe_body_inlines oinline (o_def [o_param [0%Z] None; o_param [1%Z] (Some (OInt 1))] (ExprBuiltin2 Add (o_local 0) (o_local 1)))
    (mkSpanned Span_default (ExprBuiltin2 Add (o_local 0) (o_local 1)))); [vm_compute; reflexivity|simpl; lia].
Defined.

(** [def f(x): return (x.a if x else x.b)(()[0])], which is found safe to inline.  A call looks up the
    attribute before it evaluates the argument; inlined with a constant, it is a call of a method, which looks it up after. *)
Definition attribute_callee : oexpr :=
  let attribute (f : list byte) := mkSpanned Span_default (ExprBuiltin1 (Dot f) (o_local 0)) in
  let fails := mkSpanned Span_default (ExprBuiltin2 ArrayIndex (mkSpanned Span_default (Tuple [])) (oint 1 0)) in
  Call (mkSpanned Span_default (mkCall (mkSpanned Span_default (If_ (o_local 0) (attribute [0%Z]) (attribute [1%Z])))
    (mkArgs [fails] [] None None))).
Definition attribute_function : FrozenDef oval () () := o_def [o_param [0%Z] None] attribute_callee.
Definition attribute_inlined : Spanned oexpr := Eval vm_compute in
  match inline oinline octx [OInt 1] Span_default attribute_callee with Ok e => e | _ => oconst 0 ONone end.
Theorem attribute_callee_reorders :
  def_inline_body ONone attribute_function = Some (ReturnSafeToInlineExpr (mkSpanned Span_default attribute_callee)) ∧
  inline oinline octx [OInt 1] Span_default attribute_callee = Ok attribute_inlined ∧
  (∃ e h, exec_body 5 false (fd_body attribute_function) (mkSt [Some (OInt 1)] []) = Some (Raised e h) ∧ te_reason e = NotSupported) ∧
  ∃ e h, eval 5 Span_default (node attribute_inlined) (mkSt [] []) = Some (Exits (Raised e h)) ∧ te_reason e = BadIndex.
Proof. split_and!; [vm_compute; reflexivity..| |]; eexists _, _; by split; [vm_compute; reflexivity|]. Qed.

(** A parameter after a star accepts no positional argument, and the function is taken for a test of the type of one. *)
Definition keyword_only : FrozenDef oval () () :=
  mkFrozenDef (mkCompiled [o_param [0%Z] None] (mkIndices 0 0 None None))
    [mkSpanned Span_default (Return (mkSpanned Span_default (ExprBuiltin1 (TypeIs [2%Z]) (o_local 0))))] false.
Example keyword_only_type_is : def_inline_body ONone keyword_only = Some (ReturnTypeIs [2%Z]).
Proof. vm_compute. reflexivity. Qed.

(** Every instruction takes one unit of alignment. *)
#[global] Instance olayout : InstrLayout oval () () ().
Proof. refine {| size_of_repr i := 8%N |}; done. Defined.
Definition ocompiled (c : list (Spanned ostmt)) : Bc oval () () () :=
  match as_bc false c 3 1 with Ok bc => bc | _ => mkBc [] (mkStmtLocs [] []) 0 0 0 end.
Definition fold_bc : Bc oval () () () := Eval vm_compute in ocompiled fold_body.
Definition optimized_bc : Bc oval () () () := Eval vm_compute in ocompiled fold_optimized.
Example fold_bc_runs : bc_run fold_bc 300 fold_locals fold_heap = inr fold_result.
Proof. vm_compute. reflexivity. Qed.
Lemma fold_frame i : frame_ready 3 1 [Some (OList i); None; None].
Proof. split; [done|]. intros [|x] Hx; [by exists (OList i)|lia]. Qed.
Lemma optimized_bytecode_witness : ∃ o', bc_ends optimized_bc moved_locals moved_heap o' ∧ exit_sim moved fold_result o'.
Proof.
  pose proof (optimized_bytecode (CO:=ocall_ok) 3 false 3 1 fold_body fold_bc optimized_bc moved fold_locals moved_locals
    fold_heap moved_heap _ _ ltac:(vm_compute; reflexivity) ltac:(vm_compute; reflexivity)
    ltac:(vm_compute; reflexivity) ltac:(lia) ltac:(vm_compute; reflexivity) ltac:(vm_compute; reflexivity)
    (fold_frame 0) (fold_frame 1) moved_alike) as [Hsim _].
  apply Hsim. exists 300. vm_compute. reflexivity.
Defined.

(** [for x in "": pass]: a string is not iterable, and the loop is dropped all the same. *)
Definition string_loop : list (Spanned ostmt) := [at_pos 1 (For (at_pos 1 (AssignLocal 1)) (oconst 2 (OStr [])) [])].
Example string_loop_fails : exec_body 5 false string_loop fold_state = Some (Raised (mkErr NotSupported (Some (mkSpan 1 2))) fold_heap).
Proof. vm_compute. reflexivity. Qed.
Example string_loop_dropped : optimize oinline octx string_loop = [].
Proof. vm_compute. reflexivity. Qed.
Theorem empty_string_loop : ¬ body_sim [] (exec_body 5 false string_loop fold_state)
  (exec_body 5 false (optimize oinline octx string_loop) fold_state).
Proof. rewrite string_loop_fails, string_loop_dropped. by intros []. Qed.
